(* ===== verification/_CoqProject ===== *)
-Q . S2P
Prelude.v
Bits.v
Object.v
Bignum.v
BignumAdd.v
BignumMul.v
BignumDiv.v
BignumBits.v
BignumConv.v
Bytes.v
Primitive.v
Fixnum.v
Integer.v
IntPrim.v
AvlTree.v
PrimTable.v
Heap.v
Intern.v
Environment.v
Lookup.v
Variables.v
Linking.v
SampleHeap.v
VariableSafety.v
LookupProperties.v
HeapPrim.v
LookupPrim.v
BitString.v
BitStringPrim.v
BitStringConv.v
ExternalTable.v
Strings.v
StringPrim.v
ListPrim.v
History.v
VectorPrim.v
HeapTypes.v
HeapCalls.v
ListVector.v
StringBytes.v
StringLoops.v
StringArgs.v
StringMoves.v
StringSearch.v
StringCompare.v
Bytevectors.v
Machine.v
Interpret.v
Hooks.v
Evaluate.v
Simulation.v
Interpreting.v
HookCalls.v
ApplyList.v
Continuations.v
GcLoop.v
GarbageCollect.v
GcHeap.v
GcInvariant.v
GcTransport.v
GcCorrect.v
GcSample.v
GcMutator.v
Regex.v
RegexSpec.v
RegexStep.v
RegexLayout.v
RegexTurn.v
RegexMatch.v
RegexSample.v
RegexCorrect.v
RegexFastmap.v
RegexSkip.v
RegexSearch.v
