(* ===== verification/Prelude.v ===== *)
(** * A verification library for the MIT/GNU Scheme microcode

    MIT/GNU Scheme runs on a "microcode" written in C (src/src/microcode/):
    the representation of objects, their storage, arithmetic, the primitive
    procedures that Scheme code calls, and the interpreter.  The runtime
    system and the compiler are written in Scheme on top of it.  This library
    models parts of the microcode as functions on [Z], lists and records, and
    proves them correct.  All definitions are executable.

    ** Configuration

    The 64-bit little-endian configuration: [unsigned long] has 64 bits,
    objects have 6 bits of type code and 58 bits of datum, bignum digits have
    62 bits.  C integers are [Z]s; where the value of a C expression may leave
    the range of its type the conversion [to_ulong], [to_long] or [to_uint] is
    written out.

    ** Effects

    [outcome] is the result of a C function: [Return], the failure of an
    assertion, an error exit or a request that leaves the function
    ([Exception]), an access outside the object worked on ([Wild]), or a loop
    that did not end within the model's fuel ([OutOfFuel]).  [returns m P] says
    that [m] is a [Return] whose value satisfies [P].  [primitive] is the result
    of a primitive procedure on numbers, with its two argument errors.

    Code on storage is a function of the heap: [operation A] is
    [heap -> outcome (A * heap)], [procedure A] the same for a primitive
    procedure, whose result may be a signal, [microcode A] the same on the
    registers, the stack and the heap of the interpreter, [evaluation A] the
    same for the evaluator that specifies it.

    ** The heap

    A [heap] (Heap) is a list of blocks of words, one for each object made, in
    the order of allocation.  An [object] is a word or a pointer, which has a
    type code and the number of its block; an address is a block and an offset.
    Nothing depends on the numerical value of an address.  Free storage is a
    count of words, [available]; the test for space and the request of a
    collection are those of memmag.h, but no collection happens: the operation
    ends in [Exception] or in a request, where the C code goes to the collector.
    The collector has a model of its own, GcLoop, where memory is a function
    from addresses to words; a block is what GcHeap calls an object there, and
    garbage_collection_transparent is what justifies leaving addresses out here.
    Bytes in words (strings, bit strings) are read and written by Bytes.

    ** Parts

    - Prelude: this file; machine integers, [outcome], positional numerals
      with the lemmas shared by all parts, and the hint databases.
    - Bits (bits.h): population count, length and first set bit of a word.
    - Object (object.h, types.h): object words, fixnums, characters.
    - Bignum, BignumAdd, BignumMul, BignumDiv, BignumBits, BignumConv
      (bignum.c, bignmint.h): sign-magnitude numbers of any size.  A [bignum]
      is the sign and the digits; [value] is its integer, [wf] the invariant
      (digits in range, no leading zero, no negative zero, length within
      BIGNUM_LENGTH_MAX).
    - Primitive (prims.h): errors of primitives and argument checks.
    - Fixnum (fixnum.c, fixnum.h, mul.c): primitives on small integers.
    - Integer (artutl.c): integers that are fixnums or bignums.  [integer z n]
      says that the object [n] denotes [z], [canonical z n] that in addition
      it is a fixnum whenever [z] fits in one.
    - IntPrim (intprm.c, bigprm.c, utils.c): primitives on integers and the
      decoding of integer arguments.
    - AvlTree (avltree.c, strcmp_ci of primutl.c): balanced trees from names
      to numbers; [elements] is the abstract map, [avl] and [sorted] the
      invariant.
    - PrimTable (primutl.c): the table of primitives; [table_ok] relates the
      tree to the parallel tables.
    - Heap, Bytes: storage, and what a store or an allocation changes.
    - Intern (intern.c): symbols, the obarray and its hash buckets.
    - Environment (sdata.h, scode.h, lookup.c): frames, parameters, extensions
      and the search for a binding.
    - Lookup (lookup.c): reference, assignment, definition, linking and removal
      of variables, with the traps and the caches that linked variables share.
    - Variables, Linking, VariableSafety, LookupProperties: the specification of
      these operations on an abstract view of the heap (which cell a name is
      bound in, what a cell holds), the proofs, and the invariant that any
      sequence of them keeps.  SampleHeap is a heap to run them on.
    - HeapPrim (prims.h): primitives that work on the heap.
    - LookupPrim (lookprm.c): the primitives on environments, what they answer
      for each kind of value, and what a program that uses only them can see of
      a variable ([observes]) after an assignment, a link, a definition or a
      removal.
    - ListPrim (list.c, hunk.c, prim.c, the type map of gcloop.c) and
      VectorPrim (vector.c): pairs, weak pairs, cells, triples, tagged objects,
      vectors and records.
    - HeapTypes: a typing of blocks by the layout that their type code
      promises; HeapCalls: the primitives in a table, their calls, and that
      these keep the typing; ListVector: what the vector primitives compute.
    - BitString, BitStringPrim, BitStringConv (bitstr.c): bit strings.
    - ExternalTable, Strings, StringPrim (string.c, bytevector.c, char.c):
      strings, bytevectors, characters and external strings.  A [world] is the
      heap, the table of external strings and the bytes of each; a
      [byte_pointer] is a block and a distance.  StringBytes and StringLoops
      say what the loops do to the bytes, StringArgs what is decoded from the
      arguments ([string_at], [extended_at]: an object is a string of these
      bytes); StringMoves, StringSearch, StringCompare and Bytevectors what
      the primitives compute.
    - Regex (regex.c, regex.h): compiled regular expressions.  A [re_state] has
      the locals of re_match, the program with it, since the matcher changes it;
      a [matcher] ends with a value, with [goto re_match_fail] or with the
      return of re_match, and [re_step] is one turn of re_match_loop.  RegexSpec
      decodes instructions and says what a program [accepts] on positions of the
      text without the gap; RegexStep does one instruction, RegexLayout checks
      the layout of a program ([compiled_pattern]) and says which changes keep
      its instructions, RegexTurn is the turn on positions, RegexMatch its
      invariants, RegexCorrect the end of a run; RegexFastmap and RegexSkip show
      what the fastmap leaves out, RegexSearch compares the searches with trying
      every place, on the examples of RegexSample.
    - Machine (interp.h, stack.h, intrpt.h, utils.c): registers, stack, frames,
      errors and interrupts; Interpret (interp.c): the dispatch, as a [step]
      from label to label.
    - History (utils.c, history.h): the copy of a history, a ring of rings.
    - Hooks (hooks.c): the primitives that work on the interpreter itself;
      [hook] is the machine with one more exit, the abort to a label, and
      [hooked_step] the step of Interpret with these primitives in the table.
      HookCalls (how such a primitive starts and ends), ApplyList (APPLY) and
      Continuations (control points and interrupt masks) hold the proofs.
    - GcLoop (gcloop.c), GarbageCollect (memmag.c): the copying collector, on a
      memory of words with addresses.  GcHeap says what heap it can be given
      and defines the abstract result: which objects are reachable, where each
      goes, what its words become.  GcInvariant and GcTransport (the invariant
      of the loops), GcCorrect (the whole collection), GcMutator (what the
      program sees of it) prove that the code computes this.  GcSample is a
      memory to run it on.
    - Evaluate: a direct evaluator of expressions, the specification;
      Simulation: the machine implements it; Interpreting: what follows.

    A client uses the [_ok] lemmas of the parts below it, never their code:
    PrimTable uses tree_insert_ok and tree_lookup_ok, Integer uses the [_ok]
    lemma of each bignum operation, IntPrim those of Integer; the simulation
    makes no use of what Lookup or the primitives do, and holds for any table
    of primitives.

    ** What the theorems show

    - Refinement to [Z]: every bignum operation computes the operation of [Z]
      it is named after on [value], for all inputs with room for the result,
      and returns a well-formed bignum; long division in particular, with
      its normalization, quotient-digit estimation and add-back steps
      (BignumDiv).  The generic operations and the primitives inherit this
      for fixnums and bignums alike, with canonical results.
    - Bounds: where the C arithmetic would wrap and does not; where it does
      (the fixnum product, the test whether a bignum fits in a word).
    - Round trips: objects and their fields, words and integers, digit streams
      and lists, exported and imported primitive tables, bit strings and
      integers.
    - Invariants: search order and balance of the AVL trees (with the
      Fibonacci bound on their height), consistency of the primitive table
      under declaration, lookup, installation and renumbering; the obarray and
      the variables under every operation on them.
    - Types: no sequence of calls of the modelled primitives on lists and
      vectors reads or writes outside an object.
    - Variables: a definition, an assignment, a link or a removal has the
      effect its name says on the binding of every name in every environment.
      For the primitives on them the same is said in terms of what
      LEXICAL-REFERENCE reads: linked names read and write one variable, and
      removing a definition undoes it.
    - Strings: moves, fills and changes of case replace exactly their range and
      keep the bytes after the string; the searches return the least or greatest
      position that passes; the comparisons are equality, lexicographic order and
      longest common prefix or suffix; the table of external strings is a finite
      map through all its rehashing.
    - Regular expressions: the matcher ends, and answers whether some choice of
      alternatives matches, when each loop consumes a character
      ([loops_consume]); its changes to the program keep the instructions; the
      searches with the fastmap give the same results as trying every place.
    - The interpreter: what it computes for an expression is what the direct
      evaluator says, error for error, and it goes on for ever when the
      evaluation does; a reduction is evaluated on the same stack.  After an
      error or an interrupt whose handler returns, the interrupted computation
      has its stack, its interrupt mask and its history again.
    - Control: a continuation that was captured resumes its computation with
      its stack, its interrupt mask and an isomorphic copy of its history,
      whether it is returned to or applied, and however often; APPLY ends on
      every list, circular or not, and spreads exactly the elements of a proper
      one; an interrupt mask holds for one call.
    - The garbage collector: a collection ends within memory and tospace,
      moves exactly the objects that are reachable, forwards every reference
      to them, clears the weak references to the others, leaves a heap it can
      collect again, and cannot be noticed by following pointers.
    - Errors: which argument a primitive rejects, and how.
    - Termination: every loop is structural or runs on fuel that is shown to
      suffice; for the evaluator, as much fuel as the machine takes steps.

    ** Bounds and fuel

    [moderate z] bounds the integers of the generic operations: less than
    2^31-1 digits, so that counts of bits fit in the C types used for them;
    [room] says that one more digit still fits within BIGNUM_LENGTH_MAX.
    Fuel: [BDD_fuel] and [trial_fuel] are 1 because a normalized estimate is
    corrected at most twice (the second test fails); [normalize_fuel] is 61,
    the most a nonzero digit is shifted; [consume_fuel] is 63 for each digit,
    since each turn halves the number or drops a digit; [gcd_fuel] is twice
    the datum length; [tree_build] recurses at most [high] deep.  The searches
    of Environment and Intern run on the number of blocks of the heap, which an
    acyclic chain cannot exceed; on a cycle, where the C code does not end, they
    end in [OutOfFuel].  The walk of APPLY and the copy of a history have one
    turn more than there are blocks, and always end.  [run] of Evaluate takes the
    depth of the evaluation; returned_value of Interpreting shows that k + 1 units are enough for a
    computation of k steps.  [ht_fuel] is the number of sizes that the table of
    external strings can have, which bounds how often an insertion can resize it
    while it resizes it.  A run of the matcher takes fewer turns than [weight]
    of RegexCorrect, which each turn lowers; a search needs the fuel that its
    fastmap takes, and every match that it skips takes less.  The loops of the collector have as much fuel as
    there are words of memory, and three more: each turn passes a word that is
    scanned, or moves an object ([gc_fuel]).  The stack is taken to be less than 2^57 words.

    ** Not modelled

    Compiled code and everything that depends on it: in lookup.c the parts
    under CC_SUPPORT_P, in interp.c the cases of compiled entries and returns.
    The stepper and the recording of history, which is switched off by
    DISABLE_HISTORY; its register is modelled, and so are saving, restoring and
    copying it.  In the collector:
    compiled code (the configuration without CC_SUPPORT_P, where such an object
    is a fatal error), the debugging tools, the padding of aligned vectors,
    which this configuration does not need; purification and the dumper, which
    use the same loop.  Ephemerons are modelled, and run in GcSample, but the
    theorems are about heaps without them; they are the next part of the plan.
    The return code
    for the end of a collection (RC_NORMAL_GC_DONE), since Interpret works on
    blocks and the collector on words.  Conversions between integers and floating point; the instances of the
    word conversions for [intmax_t] and [hyper] (the same macros); the
    assembly versions of the fixnum product.  The stack that is full to its
    end, which ends the process.  Files, hashing, the
    primitives of the editor around regex.c (rgxprim.c, syntax.c) and the
    operating system interface.  In the theorems on regular expressions, not in
    the definitions: the duplicate instruction, and a text or a range whose
    border is at a gap that is not empty, where the code looks into the gap or
    leaves out the end.  The numbers and names of the static primitives, generated by
    the build, are parameters of PrimTable and Interpret. *)

From Stdlib Require Import ZArith List Bool Lia Btauto.
From Stdlib Require Export ZifyBool.
Import ListNotations.

#[local] Open Scope Z_scope.

(** [lia] for goals with quotients and remainders by constants. *)
Ltac dlia := Z.to_euclidean_division_equations; lia.

(** ** Machine integers of the 64-bit configuration

    [long], [unsigned long] and [unsigned int] values are [Z]s in range; a C
    expression whose mathematical value may leave the range is wrapped where
    the code stores it. *)

Definition CHAR_BIT : Z := 8.
Definition SIZEOF_LONG : Z := 8.
Definition LONG_BITS : Z := SIZEOF_LONG * CHAR_BIT.
Definition INT_BITS : Z := 32.

(** Conversion to [unsigned long], to [long] and to [unsigned int]. *)
Definition to_ulong (z : Z) : Z := z mod 2 ^ 64.
Definition to_long (z : Z) : Z := (z + 2 ^ 63) mod 2 ^ 64 - 2 ^ 63.
Definition to_uint (z : Z) : Z := z mod 2 ^ 32.

Definition long_p (z : Z) : Prop := - 2 ^ 63 <= z < 2 ^ 63.
Definition ulong_p (z : Z) : Prop := 0 <= z < 2 ^ 64.

Lemma to_ulong_small z : 0 <= z < 2 ^ 64 -> to_ulong z = z.
Proof. apply Z.mod_small. Qed.

Lemma to_long_small z : - 2 ^ 63 <= z < 2 ^ 63 -> to_long z = z.
Proof. intros H. unfold to_long. rewrite Z.mod_small; lia. Qed.

Lemma to_uint_small z : 0 <= z < 2 ^ 32 -> to_uint z = z.
Proof. apply Z.mod_small. Qed.

Lemma to_ulong_range z : ulong_p (to_ulong z).
Proof. apply Z.mod_pos_bound. lia. Qed.

Lemma to_long_range z : long_p (to_long z).
Proof. unfold long_p, to_long. pose proof (Z.mod_pos_bound (z + 2 ^ 63) (2 ^ 64)). lia. Qed.

(** A [long] read back from its two's-complement [unsigned long] image. *)
Lemma to_long_to_ulong z : to_long (to_ulong z) = to_long z.
Proof. unfold to_long, to_ulong. now rewrite Zplus_mod_idemp_l. Qed.

Lemma to_ulong_to_long z : to_ulong (to_long z) = to_ulong z.
Proof.
  unfold to_long, to_ulong.
  rewrite Zminus_mod_idemp_l. f_equal. lia.
Qed.

Lemma to_long_unique z w : long_p z -> to_ulong z = to_ulong w -> to_long w = z.
Proof.
  intros Hz Heq. rewrite <- (to_long_small z Hz), <- (to_long_to_ulong w), <- Heq.
  apply to_long_to_ulong.
Qed.

Create HintDb machine.
Create Rewrite HintDb comparison.
Create Rewrite HintDb machine.
#[export] Hint Rewrite to_long_small to_ulong_small to_uint_small using lia : machine.
#[export] Hint Resolve to_ulong_range to_long_range : machine.

(** ** Outcomes of microcode operations

    [Return]: the C function returns.  [Exception]: an assertion of the code
    fails and [error_external_return] is called.  [Wild]: the code would read
    or write memory outside the object it works on.  [OutOfFuel]: the model's
    fuel for a [while] loop ran out. *)

Inductive outcome (A : Type) : Type :=
| Return (a : A)
| Exception
| Wild
| OutOfFuel.

Arguments Return {A} a.
Arguments Exception {A}.
Arguments Wild {A}.
Arguments OutOfFuel {A}.

Definition bind {A B} (m : outcome A) (k : A -> outcome B) : outcome B :=
  match m with
  | Return a => k a
  | Exception => Exception
  | Wild => Wild
  | OutOfFuel => OutOfFuel
  end.

Declare Scope microcode_scope.
Delimit Scope microcode_scope with microcode.

Notation "x <- m ;; k" := (bind m (fun x => k))
  (at level 60, m at next level, right associativity) : microcode_scope.
Notation "' p <- m ;; k" := (bind m (fun x => match x with p => k end))
  (at level 60, p pattern, m at next level, right associativity) : microcode_scope.
Notation "m ;; k" := (bind m (fun _ => k))
  (at level 60, right associativity) : microcode_scope.

#[local] Open Scope microcode_scope.

Lemma bind_assoc {A B C} (m : outcome A) (f : A -> outcome B) (g : B -> outcome C) :
  bind (bind m f) g = bind m (fun a => bind (f a) g).
Proof. now destruct m. Qed.

(** [BIGNUM_ASSERT] and its like. *)
Definition assert_that (b : bool) : outcome unit := if b then Return tt else Exception.

(** Total correctness of an outcome: it returns, and the result satisfies [P]. *)
Definition returns {A} (m : outcome A) (P : A -> Prop) : Prop :=
  exists a, m = Return a /\ P a.

Lemma returns_ret {A} (a : A) (P : A -> Prop) : P a -> returns (Return a) P.
Proof. intros H. now exists a. Qed.

Lemma returns_bind {A B} (m : outcome A) (k : A -> outcome B) (P : A -> Prop) (Q : B -> Prop) :
  returns m P -> (forall a, P a -> returns (k a) Q) -> returns (bind m k) Q.
Proof. intros (a & -> & HP) Hk. now apply Hk. Qed.

Lemma returns_weaken {A} (m : outcome A) (P Q : A -> Prop) :
  returns m P -> (forall a, P a -> Q a) -> returns m Q.
Proof. intros (a & -> & HP) H. exists a. auto. Qed.

Lemma returns_assert (b : bool) (P : unit -> Prop) :
  b = true -> P tt -> returns (assert_that b) P.
Proof. intros -> HP. now exists tt. Qed.

Lemma returns_inv {A} (a : A) (P : A -> Prop) : returns (Return a) P -> P a.
Proof. intros (a' & [= ->] & HP). exact HP. Qed.

(** [ret_step L]: run the first call of the goal by its specification [L]. *)
Ltac ret_step L :=
  lazymatch goal with
  | |- returns (bind _ _) _ => eapply returns_bind; [ eapply L | cbv beta ]
  | |- returns _ _ => eapply returns_weaken; [ eapply L | cbv beta ]
  end.

Ltac ret_now := apply returns_ret.

(** Run an assertion, leaving its condition to prove. *)
Ltac ret_assert :=
  eapply returns_bind; [ apply returns_assert with (P := fun _ => True); [ | exact I ] | intros _ _ ].

(** Split every hypothesis conjunction and existential. *)
Ltac split_hyps :=
  repeat match goal with
         | H : _ /\ _ |- _ => destruct H
         | H : exists _, _ |- _ => destruct H
         end.

(** Case analysis on a boolean comparison of integers. *)
Ltac zcases :=
  repeat match goal with
         | |- context [Z.ltb ?a ?b] => destruct (Z.ltb_spec a b)
         | |- context [Z.leb ?a ?b] => destruct (Z.leb_spec a b)
         | |- context [Z.eqb ?a ?b] => destruct (Z.eqb_spec a b)
         end.

(** ** Lists *)

Lemma last_app_cons {A} (l1 l2 : list A) (x d : A) : last (l1 ++ x :: l2) d = last (x :: l2) d.
Proof.
  induction l1 as [|a l1 IH]; [reflexivity|].
  cbn [app]. rewrite <- IH. destruct (l1 ++ x :: l2) eqn:E; [|reflexivity].
  now destruct l1.
Qed.

Lemma last_snoc {A} (l : list A) (x d : A) : last (l ++ [x]) d = x.
Proof. now rewrite last_app_cons. Qed.

Lemma snoc_cases {A} (l : list A) : l = [] \/ exists l' x, l = l' ++ [x].
Proof.
  destruct l as [|a l]; [now left|right].
  exists (removelast (a :: l)), (last (a :: l) a).
  apply app_removelast_last. discriminate.
Qed.

(** The decimal length of a list as a [Z], as the code's [BIGNUM_LENGTH] sees it. *)
Notation zlength l := (Z.of_nat (length l)).

(** ** Words cut into a low and a high part *)

Lemma testbit_split k a x i :
  0 <= k -> 0 <= a < 2 ^ k -> 0 <= i ->
  Z.testbit (a + 2 ^ k * x) i = if i <? k then Z.testbit a i else Z.testbit x (i - k).
Proof.
  intros Hk Ha Hi. destruct (Z.ltb_spec i k).
  - rewrite <- (Z.mod_pow2_bits_low (a + 2 ^ k * x) k i) by lia.
    f_equal. rewrite Z.mul_comm, Z.mod_add, Z.mod_small; lia.
  - replace i with ((i - k) + k) at 1 by lia.
    rewrite <- Z.div_pow2_bits by lia. f_equal.
    rewrite Z.mul_comm, Z.div_add, Z.div_small; lia.
Qed.

Section BitwiseSplit.
Context (op : Z -> Z -> Z) (bop : bool -> bool -> bool).
Hypothesis op_spec : forall a b n, 0 <= n -> Z.testbit (op a b) n = bop (Z.testbit a n) (Z.testbit b n).
Hypothesis op_range : forall k a b, 0 <= k -> 0 <= a < 2 ^ k -> 0 <= b < 2 ^ k -> 0 <= op a b < 2 ^ k.

Lemma bitwise_split k a b x y :
  0 <= k -> 0 <= a < 2 ^ k -> 0 <= b < 2 ^ k ->
  op (a + 2 ^ k * x) (b + 2 ^ k * y) = op a b + 2 ^ k * op x y.
Proof.
  intros Hk Ha Hb. apply Z.bits_inj'. intros n Hn.
  rewrite op_spec, !testbit_split by auto using op_range.
  destruct (Z.ltb_spec n k); rewrite op_spec by lia; reflexivity.
Qed.
End BitwiseSplit.

Lemma bits_range k z :
  0 <= k -> (forall n, k <= n -> Z.testbit z n = false) -> 0 <= z < 2 ^ k.
Proof.
  intros Hk H. assert (E : z = z mod 2 ^ k).
  { apply Z.bits_inj'. intros n Hn. destruct (Z_lt_le_dec n k).
    - now rewrite Z.mod_pow2_bits_low.
    - rewrite Z.mod_pow2_bits_high by lia. now apply H. }
  rewrite E. apply Z.mod_pos_bound. apply Z.pow_pos_nonneg; lia.
Qed.

Lemma range_bits k z n : 0 <= k -> 0 <= z < 2 ^ k -> k <= n -> Z.testbit z n = false.
Proof.
  intros Hk Hz Hn. rewrite <- (Z.mod_small z (2 ^ k)) by lia.
  apply Z.mod_pow2_bits_high. lia.
Qed.

(** The four operations the code uses keep a [k]-bit word and act part by part. *)
Ltac bit_range :=
  intros k a b Hk Ha Hb; apply bits_range; [exact Hk|]; intros n Hn;
  autorewrite with bit_spec; rewrite ?(range_bits k a n), ?(range_bits k b n) by lia; reflexivity.

Create Rewrite HintDb bit_spec.
#[export] Hint Rewrite Z.land_spec Z.lor_spec Z.lxor_spec Z.ldiff_spec : bit_spec.

Lemma land_range : forall k a b, 0 <= k -> 0 <= a < 2 ^ k -> 0 <= b < 2 ^ k -> 0 <= Z.land a b < 2 ^ k.
Proof. bit_range. Qed.
Lemma lor_range : forall k a b, 0 <= k -> 0 <= a < 2 ^ k -> 0 <= b < 2 ^ k -> 0 <= Z.lor a b < 2 ^ k.
Proof. bit_range. Qed.
Lemma lxor_range : forall k a b, 0 <= k -> 0 <= a < 2 ^ k -> 0 <= b < 2 ^ k -> 0 <= Z.lxor a b < 2 ^ k.
Proof. bit_range. Qed.
Lemma ldiff_range : forall k a b, 0 <= k -> 0 <= a < 2 ^ k -> 0 <= b < 2 ^ k -> 0 <= Z.ldiff a b < 2 ^ k.
Proof. bit_range. Qed.

Definition land_split := bitwise_split Z.land andb (fun a b n _ => Z.land_spec a b n) land_range.
Definition lor_split := bitwise_split Z.lor orb (fun a b n _ => Z.lor_spec a b n) lor_range.
Definition lxor_split := bitwise_split Z.lxor xorb (fun a b n _ => Z.lxor_spec a b n) lxor_range.
Definition ldiff_split :=
  bitwise_split Z.ldiff (fun p q => p && negb q) (fun a b n _ => Z.ldiff_spec a b n) ldiff_range.

(** Masking with [2^n - 1]. *)
Lemma land_mask n m a : 0 <= n -> m = 2 ^ n - 1 -> Z.land a m = a mod 2 ^ n.
Proof. intros Hn ->. rewrite <- Z.land_ones by lia. f_equal. rewrite Z.ones_equiv. lia. Qed.

(** ** Positional notation: the number a list of digits denotes, least digit first *)

Fixpoint positional (b : Z) (l : list Z) : Z :=
  match l with
  | [] => 0
  | d :: l' => d + b * positional b l'
  end.

Definition digits_below (b : Z) (l : list Z) : Prop := Forall (fun d => 0 <= d < b) l.

Lemma positional_app b l1 l2 :
  positional b (l1 ++ l2) = positional b l1 + b ^ zlength l1 * positional b l2.
Proof.
  induction l1 as [|d l1 IH]; [cbn [app length positional]; change (b ^ Z.of_nat 0) with 1; lia|].
  cbn [app length positional]. rewrite IH, Nat2Z.inj_succ, Z.pow_succ_r by lia. ring.
Qed.

Lemma positional_range b l : 0 < b -> digits_below b l -> 0 <= positional b l < b ^ zlength l.
Proof.
  intros Hb. induction 1 as [|d l Hd _ IH]; [cbn; lia|].
  cbn [length positional]. rewrite Nat2Z.inj_succ, Z.pow_succ_r by lia. nia.
Qed.

Lemma positional_zeros b n : positional b (repeat 0 n) = 0.
Proof. induction n as [|n IH]; [reflexivity|]. cbn [repeat positional]. rewrite IH. lia. Qed.

Lemma digits_below_app b l1 l2 : digits_below b (l1 ++ l2) <-> digits_below b l1 /\ digits_below b l2.
Proof. apply Forall_app. Qed.

Lemma digits_below_zeros b n : 0 < b -> digits_below b (repeat 0 n).
Proof. intros Hb. apply Forall_forall. intros x Hx%repeat_spec. lia. Qed.

Lemma digits_below_cons b d l : digits_below b (d :: l) <-> 0 <= d < b /\ digits_below b l.
Proof. apply Forall_cons_iff. Qed.

Lemma digits_below_nil b : digits_below b [].
Proof. constructor. Qed.

#[export] Hint Resolve digits_below_nil : core.

(** Shifting right by whole digits drops them. *)
Lemma positional_shiftr w k l :
  0 <= w -> digits_below (2 ^ w) l ->
  Z.shiftr (positional (2 ^ w) l) (w * Z.of_nat k) = positional (2 ^ w) (skipn k l).
Proof.
  intros Hw. revert l. induction k as [|k IH]; intros l Hl.
  - rewrite Z.mul_0_r, Z.shiftr_0_r. reflexivity.
  - destruct l as [|d l]; [apply Z.shiftr_0_l|]. apply digits_below_cons in Hl as [Hd Hl].
    cbn [skipn positional]. rewrite <- IH by assumption.
    replace (w * Z.of_nat (S k)) with (w + w * Z.of_nat k) by lia.
    rewrite <- Z.shiftr_shiftr by lia. f_equal.
    rewrite Z.shiftr_div_pow2, Z.mul_comm, Z.div_add, Z.div_small by lia. lia.
Qed.

(** ** Lists updated by index *)

Fixpoint update {A} (n : nat) (x : A) (l : list A) : list A :=
  match l, n with
  | [], _ => []
  | _ :: l, O => x :: l
  | y :: l, S n => y :: update n x l
  end.

Lemma length_update {A} n (x : A) l : length (update n x l) = length l.
Proof. revert n. induction l as [|y l IH]; intros [|n]; cbn [update length]; auto. Qed.

Lemma nth_error_update_eq {A} n (x : A) l : (n < length l)%nat -> nth_error (update n x l) n = Some x.
Proof.
  revert n. induction l as [|y l IH]; intros [|n]; cbn [update length nth_error]; intros; try lia; [reflexivity|].
  apply IH. lia.
Qed.

Lemma nth_error_update_ne {A} n m (x : A) l : n <> m -> nth_error (update n x l) m = nth_error l m.
Proof.
  revert n m. induction l as [|y l IH]; intros [|n] [|m] H; cbn [update nth_error]; try reflexivity; try congruence.
  apply IH. congruence.
Qed.

Lemma nth_error_update {A} n m (x : A) l : (n < length l)%nat ->
  nth_error (update n x l) m = if Nat.eqb n m then Some x else nth_error l m.
Proof.
  intros H. destruct (Nat.eqb_spec n m) as [->|]; [now apply nth_error_update_eq|now apply nth_error_update_ne].
Qed.

(** ** Lists without duplicates *)

Lemma NoDup_app_split {A} (l1 l2 : list A) : NoDup (l1 ++ l2) ->
  NoDup l1 /\ NoDup l2 /\ forall x, In x l1 -> ~ In x l2.
Proof.
  intros H. split; [now apply NoDup_app_remove_r in H|]. split; [now apply NoDup_app_remove_l in H|].
  induction l1 as [|a l1 IH]; cbn [app] in H; [intros x []|]. apply NoDup_cons_iff in H as [N H].
  intros x [<-|I]; [intros I'; apply N, in_or_app; now right|now apply IH].
Qed.
