(* ===== verification/Bits.v ===== *)
(** * bits.h: bit counting on machine words

    The inline functions of [src/src/microcode/bits.h] for [unsigned long],
    with the number-theoretic functions they compute: [popcount] (number of
    one bits), [bit_length] (position of the highest one bit, plus one) and
    [trailing_zeros]. *)

From Stdlib Require Import ZArith List Bool Lia.
From S2P Require Import Prelude.
Import ListNotations.

#[local] Open Scope Z_scope.

(** ** The code *)

Definition two_bit_mask : Z := to_ulong (Z.lnot 0) / (1 + Z.shiftl 1 1).
Definition four_bit_mask : Z := to_ulong (Z.lnot 0) / (1 + Z.shiftl 1 2).
Definition eight_bit_mask : Z := to_ulong (Z.lnot 0) / (1 + Z.shiftl 1 4).
Definition final_mask : Z := Z.shiftl (CHAR_BIT * SIZEOF_LONG) 1 - 1.

(** [for (i = 8; i < (CHAR_BIT * (sizeof (TYPE))); i <<= 1) x += (x >> i);] *)
Fixpoint bit_count_sum (fuel : nat) (i x : Z) : Z :=
  match fuel with
  | O => x
  | S fuel' =>
      if i <? CHAR_BIT * SIZEOF_LONG
      then bit_count_sum fuel' (Z.shiftl i 1) (to_ulong (x + Z.shiftr x i))
      else x
  end.

Definition ulong_bit_count (x : Z) : Z :=
  let x := to_ulong (x - Z.land (Z.shiftr x 1) two_bit_mask) in
  let x := to_ulong (Z.land (Z.shiftr x 2) four_bit_mask + Z.land x four_bit_mask) in
  let x := Z.land (to_ulong (Z.shiftr x 4 + x)) eight_bit_mask in
  let x := bit_count_sum (Z.to_nat LONG_BITS) 8 x in
  Z.land x final_mask.

(** [if (s < limit) x |= (x >> s);] *)
Definition smear_step (limit s x : Z) : Z :=
  if s <? limit then Z.lor x (Z.shiftr x s) else x.

(** [for (i = 0x40; i < limit; i <<= 1) x |= (x >> i);] *)
Fixpoint smear_loop (fuel : nat) (limit i x : Z) : Z :=
  match fuel with
  | O => x
  | S fuel' =>
      if i <? limit
      then smear_loop fuel' limit (Z.shiftl i 1) (Z.lor x (Z.shiftr x i))
      else x
  end.

Definition ulong_length_in_bits (x : Z) : Z :=
  let limit := CHAR_BIT * SIZEOF_LONG in
  let x := smear_step limit 1 x in
  let x := smear_step limit 2 x in
  let x := smear_step limit 4 x in
  let x := smear_step limit 8 x in
  let x := smear_step limit 16 x in
  let x := smear_step limit 32 x in
  let x := smear_loop (Z.to_nat limit) limit 64 x in
  ulong_bit_count x.

Definition ulong_first_set_bit (x : Z) : Z :=
  if x =? 0 then -1
  else ulong_length_in_bits (Z.shiftr (Z.lxor x (to_ulong (x - 1))) 1).

(** ** What it computes *)

Fixpoint pos_popcount (p : positive) : Z :=
  match p with
  | xH => 1
  | xO q => pos_popcount q
  | xI q => 1 + pos_popcount q
  end.

Definition popcount (z : Z) : Z :=
  match z with Zpos p => pos_popcount p | _ => 0 end.

Definition bit_length (z : Z) : Z := if z =? 0 then 0 else Z.log2 z + 1.

Fixpoint pos_trailing_zeros (p : positive) : Z :=
  match p with xO q => 1 + pos_trailing_zeros q | _ => 0 end.

Definition trailing_zeros (z : Z) : Z :=
  match z with Z0 => -1 | Zpos p | Zneg p => pos_trailing_zeros p end.

(** ** Facts about the specification functions *)

Lemma popcount_double z b :
  0 <= z -> 0 <= b < 2 -> popcount (2 * z + b) = popcount z + b.
Proof.
  intros Hz Hb. assert (b = 0 \/ b = 1) as [-> | ->] by lia.
  - rewrite !Z.add_0_r. now destruct z.
  - rewrite (Z.add_comm (popcount z)). now destruct z.
Qed.

Lemma popcount_nonneg z : 0 <= popcount z.
Proof. destruct z as [|p|p]; cbn [popcount]; try lia. induction p; cbn [pos_popcount]; lia. Qed.

Lemma popcount_split k z d :
  0 <= k -> 0 <= z -> 0 <= d < 2 ^ k -> popcount (z * 2 ^ k + d) = popcount z + popcount d.
Proof.
  intros Hk Hz. revert d. pattern k. apply natlike_ind; [| |exact Hk].
  - intros d Hd. assert (d = 0) as -> by lia.
    rewrite Z.pow_0_r, Z.mul_1_r, Z.add_0_r. change (popcount 0) with 0. lia.
  - intros x Hx IH d Hd. rewrite Z.pow_succ_r in * by lia.
    pose proof (Z.div_mod d 2) as E. pose proof (Z.mod_pos_bound d 2) as Hm.
    set (q := d / 2) in *. set (b := d mod 2) in *.
    rewrite (E ltac:(lia)).
    replace (z * (2 * 2 ^ x) + (2 * q + b)) with (2 * (z * 2 ^ x + q) + b) by lia.
    rewrite !popcount_double, IH by nia. lia.
Qed.

Lemma popcount_ones n : 0 <= n -> popcount (2 ^ n - 1) = n.
Proof.
  intros Hn. pattern n. apply natlike_ind; [reflexivity| |exact Hn].
  intros x Hx IH. rewrite Z.pow_succ_r by lia.
  replace (2 * 2 ^ x - 1) with (2 * (2 ^ x - 1) + 1) by lia.
  rewrite popcount_double by lia. lia.
Qed.

Lemma popcount_le z n : 0 <= n -> 0 <= z < 2 ^ n -> popcount z <= n.
Proof.
  intros Hn. revert z. pattern n. apply natlike_ind; [| |exact Hn].
  - intros z Hz. assert (z = 0) as -> by lia. cbn. lia.
  - intros x Hx IH z Hz. rewrite Z.pow_succ_r in Hz by lia.
    pose proof (Z.div_mod z 2 ltac:(lia)) as E. pose proof (Z.mod_pos_bound z 2) as Hm.
    set (q := z / 2) in *. set (b := z mod 2) in *.
    rewrite E, popcount_double by lia. specialize (IH q ltac:(lia)). lia.
Qed.

Lemma bit_length_spec z : 0 < z -> 2 ^ (bit_length z - 1) <= z < 2 ^ bit_length z.
Proof.
  intros Hz. unfold bit_length. destruct (Z.eqb_spec z 0); [lia|].
  pose proof (Z.log2_spec z Hz). replace (Z.log2 z + 1 - 1) with (Z.log2 z) by lia.
  now replace (Z.log2 z + 1) with (Z.succ (Z.log2 z)) by lia.
Qed.

Lemma bit_length_nonneg z : 0 <= bit_length z.
Proof. unfold bit_length. destruct (z =? 0); [lia|]. pose proof (Z.log2_nonneg z). lia. Qed.

Lemma bit_length_pos z : 0 < z -> 0 < bit_length z.
Proof.
  intros. unfold bit_length. destruct (Z.eqb_spec z 0); [lia|]. pose proof (Z.log2_nonneg z). lia.
Qed.

Lemma bit_length_unique z n : 0 < n -> 2 ^ (n - 1) <= z < 2 ^ n -> bit_length z = n.
Proof.
  intros Hn Hz. unfold bit_length.
  assert (0 < 2 ^ (n - 1)) by (apply Z.pow_pos_nonneg; lia).
  destruct (Z.eqb_spec z 0); [lia|].
  enough (Z.log2 z = n - 1) by lia.
  apply Z.log2_unique; [lia|]. now replace (Z.succ (n - 1)) with n by lia.
Qed.

Lemma bit_length_le z n : 0 <= n -> 0 <= z < 2 ^ n -> bit_length z <= n.
Proof.
  intros Hn Hz. destruct (Z.eq_dec z 0) as [->|]; [cbn; lia|].
  pose proof (bit_length_spec z ltac:(lia)).
  pose proof (bit_length_pos z ltac:(lia)).
  destruct (Z_lt_le_dec n (bit_length z)); [|assumption].
  pose proof (Z.pow_le_mono_r 2 n (bit_length z - 1)). lia.
Qed.

Lemma bit_length_shift k z d :
  0 <= k -> 0 < z -> 0 <= d < 2 ^ k -> bit_length (z * 2 ^ k + d) = bit_length z + k.
Proof.
  intros Hk Hz Hd. pose proof (bit_length_spec z Hz). pose proof (bit_length_pos z Hz).
  apply bit_length_unique; [lia|].
  replace (bit_length z + k - 1) with (bit_length z - 1 + k) by lia.
  rewrite !Z.pow_add_r by lia. nia.
Qed.

(** ** Correctness of [ulong_bit_count]

    The word is read as fields of 2, 4 and 8 bits, each holding the number of
    one bits of its part of the argument. *)

Definition field_sum (l : list Z) : Z := fold_right Z.add 0 l.
Definition fields_upto (m : Z) (l : list Z) : Prop := Forall (fun c => 0 <= c <= m) l.

Lemma popcount_small2 d : 0 <= d < 4 -> popcount d = d - d / 2 /\ 0 <= d - d / 2 <= 2.
Proof. intros. assert (d = 0 \/ d = 1 \/ d = 2 \/ d = 3) as [->|[->|[->| ->]]] by lia; cbn; lia. Qed.

(** First step: two-bit fields. *)
Lemma two_bit_fields n : forall x, 0 <= x < 4 ^ Z.of_nat n ->
  exists c, length c = n /\ fields_upto 2 c /\
    x - Z.land (Z.shiftr x 1) (positional 4 (repeat 1 n)) = positional 4 c /\
    field_sum c = popcount x.
Proof.
  induction n as [|n IH]; intros x Hx.
  - exists []. assert (x = 0) as -> by (cbn in Hx; lia). repeat split; constructor.
  - rewrite Nat2Z.inj_succ, Z.pow_succ_r in Hx by lia.
    destruct (IH (x / 4)) as (c & Hl & Hc & Heq & Hs).
    { split; [apply Z.div_pos|apply Z.div_lt_upper_bound]; lia. }
    pose proof (Z.div_mod x 4 ltac:(lia)) as E.
    set (q := x / 4) in *. set (d := x mod 4) in *. assert (Hd : 0 <= d < 4) by (subst d; apply Z.mod_pos_bound; lia).
    destruct (popcount_small2 d Hd) as [Hp Hr].
    exists (d - d / 2 :: c). repeat split.
    + cbn. now rewrite Hl.
    + now constructor.
    + cbn [repeat positional].
      replace (Z.shiftr x 1) with (2 * (q mod 2) + d / 2 + 2 ^ 2 * Z.shiftr q 1)
        by (rewrite !Z.shiftr_div_pow2 by lia; change (2 ^ 1) with 2; change (2 ^ 2) with 4; dlia).
      change 4 with (2 ^ 2) at 1. rewrite land_split by dlia.
      rewrite (land_mask 1 1) by lia.
      change (2 ^ 1) with 2. change (2 ^ 2) with 4.
      replace ((2 * (q mod 2) + d / 2) mod 2) with (d / 2) by dlia. lia.
    + cbn [field_sum fold_right]. fold (field_sum c). rewrite Hs, E.
      replace (4 * q + d) with (q * 2 ^ 2 + d) by lia.
      rewrite popcount_split by lia. lia.
Qed.

(** Second step: four-bit fields. *)
Lemma four_bit_fields n : forall c, length c = (2 * n)%nat -> fields_upto 2 c ->
  exists c', length c' = n /\ fields_upto 4 c' /\
    Z.land (Z.shiftr (positional 4 c) 2) (positional 16 (repeat 3 n))
    + Z.land (positional 4 c) (positional 16 (repeat 3 n)) = positional 16 c' /\
    field_sum c' = field_sum c.
Proof.
  induction n as [|n IH]; intros c Hl Hc.
  - destruct c; [|discriminate]. exists []. repeat split; constructor.
  - destruct c as [|c0 [|c1 c]]; cbn in Hl; try lia.
    inversion_clear Hc as [|? ? H0 Hc']. inversion_clear Hc' as [|? ? H1 Hc].
    destruct (IH c ltac:(lia) Hc) as (c' & Hl' & Hf & Heq & Hs).
    exists (c0 + c1 :: c'). repeat split.
    + cbn. now rewrite Hl'.
    + constructor; [lia|assumption].
    + cbn [repeat positional]. set (y := positional 4 c) in *.
      assert (Hy : 0 <= y mod 4 < 4) by (apply Z.mod_pos_bound; lia).
      replace (Z.shiftr (c0 + 4 * (c1 + 4 * y)) 2) with (c1 + 4 * (y mod 4) + 2 ^ 4 * Z.shiftr y 2)
        by (rewrite !Z.shiftr_div_pow2 by lia; change (2 ^ 2) with 4; change (2 ^ 4) with 16; dlia).
      replace (c0 + 4 * (c1 + 4 * y)) with (c0 + 4 * c1 + 2 ^ 4 * y) by lia.
      change 16 with (2 ^ 4). rewrite !land_split by dlia.
      rewrite !(land_mask 2 3) by lia.
      change (2 ^ 2) with 4. change (2 ^ 4) with 16 in *. dlia.
    + cbn [field_sum fold_right] in *. unfold field_sum in Hs. lia.
Qed.

(** Third step: eight-bit fields. *)
Lemma eight_bit_fields n : forall c, length c = (2 * n)%nat -> fields_upto 4 c ->
  exists c', length c' = n /\ fields_upto 8 c' /\
    Z.land (Z.shiftr (positional 16 c) 4 + positional 16 c) (positional 256 (repeat 15 n))
    = positional 256 c' /\
    field_sum c' = field_sum c.
Proof.
  induction n as [|n IH]; intros c Hl Hc.
  - destruct c; [|discriminate]. exists []. repeat split; constructor.
  - destruct c as [|c0 [|c1 c]]; cbn in Hl; try lia.
    inversion_clear Hc as [|? ? H0 Hc']. inversion_clear Hc' as [|? ? H1 Hc].
    destruct (IH c ltac:(lia) Hc) as (c' & Hl' & Hf & Heq & Hs).
    exists (c0 + c1 :: c'). repeat split.
    + cbn. now rewrite Hl'.
    + constructor; [lia|assumption].
    + cbn [repeat positional]. set (y := positional 16 c) in *.
      assert (Hy : 0 <= y mod 16 <= 4).
      { subst y. destruct Hc as [|c2 c Hc2 _]; [cbn; lia|]. cbn [positional].
        rewrite Z.mul_comm, Z.mod_add, Z.mod_small; lia. }
      replace (Z.shiftr (c0 + 16 * (c1 + 16 * y)) 4 + (c0 + 16 * (c1 + 16 * y)))
        with (c0 + c1 + 16 * (c1 + y mod 16) + 2 ^ 8 * (Z.shiftr y 4 + y))
        by (rewrite !Z.shiftr_div_pow2 by lia; change (2 ^ 4) with 16; change (2 ^ 8) with 256; dlia).
      change 256 with (2 ^ 8) at 1. rewrite land_split by dlia.
      rewrite (land_mask 4 15), Heq by lia.
      change (2 ^ 4) with 16. change (2 ^ 8) with 256. dlia.
    + cbn [field_sum fold_right] in *. unfold field_sum in Hs. lia.
Qed.

Lemma bit_count_sum_step fuel i x :
  bit_count_sum (S fuel) i x =
  if i <? CHAR_BIT * SIZEOF_LONG
  then bit_count_sum fuel (Z.shiftl i 1) (to_ulong (x + Z.shiftr x i)) else x.
Proof. reflexivity. Qed.

Lemma bit_count_sum_word x :
  bit_count_sum (Z.to_nat LONG_BITS) 8 x =
  let x1 := to_ulong (x + Z.shiftr x 8) in
  let x2 := to_ulong (x1 + Z.shiftr x1 16) in
  to_ulong (x2 + Z.shiftr x2 32).
Proof.
  change (Z.to_nat LONG_BITS) with 64%nat. rewrite 3 bit_count_sum_step, bit_count_sum_step.
  reflexivity.
Qed.

Lemma mod_256_low d t : (d + 256 * t) mod 2 ^ 7 = d mod 2 ^ 7.
Proof. replace (256 * t) with (2 * t * 2 ^ 7) by lia. apply Z_mod_plus_full. Qed.

Lemma fields_bound b m l :
  1 < b -> fields_upto m l ->
  0 <= positional b l /\ (b - 1) * positional b l <= m * (b ^ zlength l - 1).
Proof.
  intros Hb. induction 1 as [|c l Hc _ [IH0 IH]]; [cbn; lia|].
  cbn [length positional]. rewrite Nat2Z.inj_succ, Z.pow_succ_r by lia. nia.
Qed.

(** Last step: the loop adds the eight bytes up in the low byte. *)
Lemma byte_fields_sum c : length c = 8%nat -> fields_upto 8 c ->
  Z.land (bit_count_sum (Z.to_nat LONG_BITS) 8 (positional 256 c)) final_mask = field_sum c.
Proof.
  intros Hl Hc. do 8 (destruct c as [|? c]; [discriminate|]). destruct c; [|discriminate].
  unfold fields_upto in Hc. rewrite !Forall_cons_iff in Hc.
  rewrite (land_mask 7 final_mask) by (reflexivity || lia).
  rewrite bit_count_sum_word.
  split_hyps. cbv zeta. rename z into c0, z0 into c1, z1 into c2, z2 into c3, z3 into c4, z4 into c5, z5 into c6, z6 into c7.
  assert (Hs : forall k l, digits_below 256 l ->
            Z.shiftr (positional 256 l) (8 * Z.of_nat k) = positional 256 (skipn k l))
    by (intros; apply (positional_shiftr 8); [lia|assumption]).
  assert (Hd : digits_below 256 [c0; c1; c2; c3; c4; c5; c6; c7])
    by (repeat constructor; lia).
  rewrite (Hs 1%nat _ Hd : Z.shiftr _ 8 = _).
  set (l1 := [c0 + c1; c1 + c2; c2 + c3; c3 + c4; c4 + c5; c5 + c6; c6 + c7; c7]).
  assert (Hd1 : digits_below 256 l1) by (repeat constructor; lia).
  replace (to_ulong (_ + positional 256 (skipn 1 _))) with (positional 256 l1)
    by (unfold l1; cbn [positional skipn]; rewrite to_ulong_small; lia).
  rewrite (Hs 2%nat _ Hd1 : Z.shiftr _ 16 = _).
  set (l2 := [c0 + c1 + c2 + c3; c1 + c2 + c3 + c4; c2 + c3 + c4 + c5; c3 + c4 + c5 + c6;
              c4 + c5 + c6 + c7; c5 + c6 + c7; c6 + c7; c7]).
  assert (Hd2 : digits_below 256 l2) by (repeat constructor; lia).
  replace (to_ulong (_ + positional 256 (skipn 2 _))) with (positional 256 l2)
    by (unfold l1, l2; cbn [positional skipn]; rewrite to_ulong_small; lia).
  rewrite (Hs 4%nat _ Hd2 : Z.shiftr _ 32 = _).
  replace (to_ulong (_ + positional 256 (skipn 4 _)))
    with (c0 + c1 + c2 + c3 + c4 + c5 + c6 + c7 + 256 * positional 256
      [c1 + c2 + c3 + c4 + c5 + c6 + c7; c2 + c3 + c4 + c5 + c6 + c7; c3 + c4 + c5 + c6 + c7;
       c4 + c5 + c6 + c7; c5 + c6 + c7; c6 + c7; c7])
    by (unfold l2; cbn [positional skipn]; rewrite to_ulong_small; lia).
  rewrite mod_256_low. cbn [field_sum fold_right]. change (2 ^ 7) with 128. rewrite Z.mod_small; lia.
Qed.

Lemma ulong_bit_count_spec x : ulong_p x -> ulong_bit_count x = popcount x.
Proof.
  intros Hx. unfold ulong_p in Hx. unfold ulong_bit_count.
  destruct (two_bit_fields 32 x) as (c2 & L2 & F2 & E2 & S2); [cbn; lia|].
  destruct (four_bit_fields 16 c2 L2 F2) as (c4 & L4 & F4 & E4 & S4).
  destruct (eight_bit_fields 8 c4 L4 F4) as (c8 & L8 & F8 & E8 & S8).
  pose proof (fields_bound 4 2 c2 ltac:(lia) F2) as R2. rewrite L2 in R2.
  pose proof (fields_bound 16 4 c4 ltac:(lia) F4) as R4. rewrite L4 in R4.
  change (positional 4 (repeat 1 32)) with two_bit_mask in E2.
  change (positional 16 (repeat 3 16)) with four_bit_mask in E4.
  change (positional 256 (repeat 15 8)) with eight_bit_mask in E8.
  change (4 ^ Z.of_nat 32) with (2 ^ 64) in R2. change (16 ^ Z.of_nat 16) with (2 ^ 64) in R4.
  rewrite E2, (to_ulong_small (positional 4 c2)) by lia.
  rewrite E4, (to_ulong_small (positional 16 c4)) by lia.
  rewrite (to_ulong_small (Z.shiftr _ 4 + _))
    by (rewrite Z.shiftr_div_pow2 by lia; change (2 ^ 4) with 16; dlia).
  rewrite E8, byte_fields_sum by assumption. congruence.
Qed.

(** ** Correctness of [ulong_length_in_bits] and [ulong_first_set_bit] *)

(** The top [s] bits of a word of [n] bits are all set. *)
Definition top_bits_set (n s x : Z) : Prop :=
  (forall i, 0 <= i -> n - s <= i < n -> Z.testbit x i = true) /\
  (forall i, n <= i -> Z.testbit x i = false).

Lemma smear_step_top n s x :
  0 <= n -> 0 < s < 64 -> top_bits_set n s x -> top_bits_set n (2 * s) (smear_step 64 s x).
Proof.
  intros Hn Hs [Hset Hclear]. unfold smear_step. destruct (Z.ltb_spec s 64); [|lia].
  split; intros i Hi.
  - intros Hin. rewrite Z.lor_spec, Z.shiftr_spec by lia.
    destruct (Z_lt_le_dec i (n - s)); [|rewrite Hset by lia; reflexivity].
    rewrite (Hset (i + s)) by lia. apply orb_true_r.
  - rewrite Z.lor_spec, Z.shiftr_spec, !Hclear by lia. reflexivity.
Qed.

Lemma top_bits_log2 x : 0 < x -> top_bits_set (bit_length x) 1 x.
Proof.
  intros Hx. unfold bit_length. destruct (Z.eqb_spec x 0); [lia|].
  split; intros i Hi.
  - intros Hin. replace i with (Z.log2 x) by lia. now apply Z.bit_log2.
  - apply Z.bits_above_log2; lia.
Qed.

Lemma ulong_length_in_bits_spec x : ulong_p x -> ulong_length_in_bits x = bit_length x.
Proof.
  intros Hx. unfold ulong_p in Hx. destruct (Z.eq_dec x 0) as [->|Hnz]; [reflexivity|].
  pose proof (bit_length_pos x ltac:(lia)) as Hpos.
  pose proof (bit_length_le x 64 ltac:(lia) Hx) as Hle.
  pose proof (top_bits_log2 x ltac:(lia)) as H.
  do 6 (apply smear_step_top in H; [|lia..]).
  unfold ulong_length_in_bits. change (CHAR_BIT * SIZEOF_LONG) with 64.
  cbn [Z.mul Pos.mul] in H. set (y := smear_step 64 32 _) in *.
  change (smear_loop (Z.to_nat 64) 64 64 y) with y.
  assert (Hy : y = 2 ^ bit_length x - 1).
  { destruct H as [Hset Hclear]. rewrite Z.sub_1_r, <- Z.ones_equiv. apply Z.bits_inj'. intros i Hi.
    destruct (Z_lt_le_dec i (bit_length x)).
    - rewrite Hset, Z.ones_spec_low by lia. reflexivity.
    - rewrite Hclear, Z.ones_spec_high by lia. reflexivity. }
  assert (2 ^ bit_length x <= 2 ^ 64) by (apply Z.pow_le_mono_r; lia).
  assert (0 < 2 ^ bit_length x) by (apply Z.pow_pos_nonneg; lia).
  rewrite ulong_bit_count_spec, Hy by (unfold ulong_p; lia). apply popcount_ones. lia.
Qed.

Lemma lxor_pred_trailing p :
  Z.lxor (Zpos p) (Zpos p - 1) = 2 ^ (pos_trailing_zeros p + 1) - 1 /\ 0 <= pos_trailing_zeros p.
Proof.
  induction p as [p _|p [IH Hp]|]; cbn [pos_trailing_zeros].
  - split; [|lia]. replace (Zpos p~1 - 1) with (0 + 2 ^ 1 * Zpos p) by (change (2 ^ 1) with 2; lia).
    replace (Zpos p~1) with (1 + 2 ^ 1 * Zpos p) by (change (2 ^ 1) with 2; lia).
    rewrite lxor_split by lia. rewrite Z.lxor_nilpotent. reflexivity.
  - split; [|lia]. replace (Zpos p~0 - 1) with (1 + 2 ^ 1 * (Zpos p - 1)) by (change (2 ^ 1) with 2; lia).
    replace (Zpos p~0) with (0 + 2 ^ 1 * Zpos p) by (change (2 ^ 1) with 2; lia).
    rewrite lxor_split, IH by lia.
    replace (1 + pos_trailing_zeros p + 1) with (1 + (pos_trailing_zeros p + 1)) by lia.
    rewrite (Z.pow_add_r 2 1) by lia. change (Z.lxor 0 1) with 1. lia.
  - split; [reflexivity|lia].
Qed.

(** The word [(x ^ (x - 1)) >> 1] the code forms has exactly the trailing zeros of [x] set. *)
Lemma first_set_word x : 0 < x ->
  Z.shiftr (Z.lxor x (x - 1)) 1 = 2 ^ trailing_zeros x - 1 /\ 0 <= trailing_zeros x.
Proof.
  destruct x as [|p|p]; try lia. intros _. destruct (lxor_pred_trailing p) as [E H]. cbn [trailing_zeros].
  split; [|lia]. rewrite E, Z.shiftr_div_pow2, Z.pow_add_r by lia. change (2 ^ 1) with 2.
  symmetry. apply Z.div_unique with 1; lia.
Qed.

Lemma trailing_zeros_lt x n : 0 <= n -> 0 < x < 2 ^ n -> trailing_zeros x < n.
Proof.
  intros Hn Hx. destruct (first_set_word x ltac:(lia)) as [E H].
  assert (Hr : 0 <= Z.lxor x (x - 1) < 2 ^ n) by (apply lxor_range; lia).
  rewrite Z.shiftr_div_pow2 in E by lia. change (2 ^ 1) with 2 in E.
  destruct (Z_lt_le_dec (trailing_zeros x) n); [assumption|].
  pose proof (Z.pow_le_mono_r 2 n (trailing_zeros x)). dlia.
Qed.

Lemma ulong_first_set_bit_spec x : ulong_p x -> ulong_first_set_bit x = trailing_zeros x.
Proof.
  intros Hx. unfold ulong_p in Hx. unfold ulong_first_set_bit. destruct (Z.eqb_spec x 0) as [->|]; [reflexivity|].
  rewrite to_ulong_small by lia. destruct (first_set_word x) as [-> H]; [lia|].
  pose proof (trailing_zeros_lt x 64 ltac:(lia) ltac:(lia)).
  assert (2 ^ trailing_zeros x <= 2 ^ 64) by (apply Z.pow_le_mono_r; lia).
  assert (0 < 2 ^ trailing_zeros x) by (apply Z.pow_pos_nonneg; lia).
  rewrite ulong_length_in_bits_spec by (unfold ulong_p; lia).
  destruct (Z.eq_dec (trailing_zeros x) 0) as [->|]; [reflexivity|].
  apply bit_length_unique; [lia|]. assert (2 ^ trailing_zeros x = 2 * 2 ^ (trailing_zeros x - 1))
    by (rewrite <- Z.pow_succ_r by lia; f_equal; lia).
  assert (0 < 2 ^ (trailing_zeros x - 1)) by (apply Z.pow_pos_nonneg; lia). lia.
Qed.

(** [trailing_zeros] is the exponent of the power of two dividing the number. *)
Lemma trailing_zeros_spec z : z <> 0 -> exists k, z = 2 ^ trailing_zeros z * (2 * k + 1) /\ 0 <= trailing_zeros z.
Proof.
  assert (P : forall p, exists k, Zpos p = 2 ^ pos_trailing_zeros p * (2 * k + 1) /\ 0 <= pos_trailing_zeros p).
  { induction p as [p _|p (k & E & H)|]; cbn [pos_trailing_zeros].
    - exists (Zpos p). rewrite Z.pow_0_r. lia.
    - exists k. rewrite Z.pow_add_r by lia. change (2 ^ 1) with 2. lia.
    - exists 0. rewrite Z.pow_0_r. lia. }
  destruct z as [|p|p]; [congruence|intros _; apply P|intros _].
  destruct (P p) as (k & E & H). exists (- k - 1). cbn [trailing_zeros]. split; [|assumption].
  rewrite <- Pos2Z.opp_pos. rewrite E at 1. lia.
Qed.

Lemma trailing_zeros_unique z t k : 0 <= t -> z = 2 ^ t * (2 * k + 1) -> trailing_zeros z = t.
Proof.
  intros Ht E. assert (Hz : z <> 0).
  { intros ->. symmetry in E. pose proof (Z.pow_pos_nonneg 2 t). apply Z.mul_eq_0 in E. lia. }
  destruct (trailing_zeros_spec z Hz) as (k' & E' & Ht'). set (t' := trailing_zeros z) in *. clearbody t'.
  assert (A : forall a b u v, 0 <= a < b -> 2 ^ a * (2 * u + 1) = 2 ^ b * (2 * v + 1) -> False).
  { clear. intros a b u v H E. replace b with (a + 1 + (b - a - 1)) in E by lia.
    rewrite !Z.pow_add_r, <- !Z.mul_assoc in E by lia. apply Z.mul_reg_l in E; [|apply Z.pow_nonzero; lia].
    change (2 ^ 1) with 2 in E. lia. }
  destruct (Z.lt_trichotomy t t') as [H|[H|H]]; [exfalso|lia|exfalso].
  - apply (A t t' k k'); [lia|congruence].
  - apply (A t' t k' k); [lia|congruence].
Qed.

(** ** Properties *)

(** The branch-free population count, length in bits and first set bit of bits.h agree with their
    recursive definitions on every 64-bit word. *)
Theorem bit_tricks_correct x : ulong_p x ->
  ulong_bit_count x = popcount x /\ ulong_length_in_bits x = bit_length x /\
  ulong_first_set_bit x = trailing_zeros x.
Proof.
  intros Hx. split; [now apply ulong_bit_count_spec|]. split; [now apply ulong_length_in_bits_spec|].
  now apply ulong_first_set_bit_spec.
Qed.
