(* ===== verification/Object.v ===== *)
(** * object.h, types.h: tagged Scheme objects

    A [SCHEME_OBJECT] is one machine word: a 6-bit type code above a 58-bit
    datum (the 64-bit configuration of [src/src/microcode/object.h]).  This
    file holds the word-level accessors and constructors, fixnums, characters
    and the constants, and proves that they encode and decode faithfully. *)

From Stdlib Require Import ZArith List Bool Lia.
From S2P Require Import Prelude.

#[local] Open Scope Z_scope.

(** ** Types and words *)

Definition TYPE_CODE_LENGTH : Z := 6.
Definition DATUM_LENGTH : Z := 58.
Definition DATUM_MASK : Z := 0x03FFFFFFFFFFFFFF.
Definition FIXNUM_LENGTH : Z := 57.
Definition FIXNUM_SIGN_BIT : Z := 0x0200000000000000.
Definition SIGN_MASK : Z := 0xFE00000000000000.
Definition SMALLEST_FIXNUM : Z := -144115188075855872.
Definition BIGGEST_FIXNUM : Z := 144115188075855871.

Definition TC_FALSE : Z := 0x00.
Definition TC_LIST : Z := 0x01.
Definition TC_CHARACTER : Z := 0x02.
Definition TC_UNINTERNED_SYMBOL : Z := 0x05.
Definition TC_CONSTANT : Z := 0x08.
Definition TC_BIG_FIXNUM : Z := 0x0E.
Definition TC_FIXNUM : Z := 0x1A.
Definition TC_INTERNED_SYMBOL : Z := 0x1D.
Definition TC_MANIFEST_NM_VECTOR : Z := 0x27.
Definition TC_WEAK_CONS : Z := 0x37.

Definition object_p (w : Z) : Prop := 0 <= w < 2 ^ 64.

Definition OBJECT_TYPE (object : Z) : Z := Z.shiftr object DATUM_LENGTH.
Definition OBJECT_DATUM (object : Z) : Z := Z.land object DATUM_MASK.
Definition MAKE_OBJECT (type datum : Z) : Z :=
  Z.lor (to_ulong (Z.shiftl (to_ulong type) DATUM_LENGTH)) datum.
Definition OBJECT_NEW_TYPE (type datum_object : Z) : Z :=
  MAKE_OBJECT type (OBJECT_DATUM datum_object).
Definition OBJECT_NEW_DATUM (type_object datum : Z) : Z :=
  MAKE_OBJECT (OBJECT_TYPE type_object) datum.

Definition SHARP_F : Z := MAKE_OBJECT TC_FALSE 0.
Definition SHARP_T : Z := MAKE_OBJECT TC_CONSTANT 0.
Definition UNSPECIFIC : Z := MAKE_OBJECT TC_CONSTANT 1.
Definition DEFAULT_OBJECT : Z := MAKE_OBJECT TC_CONSTANT 7.
Definition EMPTY_LIST : Z := MAKE_OBJECT TC_CONSTANT 9.
Definition BOOLEAN_TO_OBJECT (b : bool) : Z := if b then SHARP_T else SHARP_F.
Definition OBJECT_TO_BOOLEAN (object : Z) : bool := negb (object =? SHARP_F).

(** ** Fixnums *)

Definition FIXNUM_P (object : Z) : bool := OBJECT_TYPE object =? TC_FIXNUM.
Definition BIGNUM_P (object : Z) : bool := OBJECT_TYPE object =? TC_BIG_FIXNUM.
Definition FIXNUM_ZERO_P (fixnum : Z) : bool := OBJECT_DATUM fixnum =? 0.
Definition FIXNUM_NEGATIVE_P (fixnum : Z) : bool := negb (Z.land fixnum FIXNUM_SIGN_BIT =? 0).
Definition FIXNUM_POSITIVE_P (fixnum : Z) : bool :=
  negb (FIXNUM_ZERO_P fixnum || FIXNUM_NEGATIVE_P fixnum).
Definition UNSIGNED_FIXNUM_P (x : Z) : bool := FIXNUM_P x && negb (FIXNUM_NEGATIVE_P x).
Definition FIXNUM_EQUAL_P (x y : Z) : bool := OBJECT_DATUM x =? OBJECT_DATUM y.
Definition UNSIGNED_FIXNUM_TO_LONG (fixnum : Z) : Z := to_long (OBJECT_DATUM fixnum).
Definition LONG_TO_UNSIGNED_FIXNUM (n : Z) : Z := MAKE_OBJECT TC_FIXNUM (to_ulong n).
Definition LONG_TO_FIXNUM_P (n : Z) : bool :=
  (Z.land (to_ulong n) SIGN_MASK =? 0) || (Z.land (to_ulong n) SIGN_MASK =? SIGN_MASK).
Definition LONG_TO_FIXNUM (n : Z) : Z := MAKE_OBJECT TC_FIXNUM (Z.land (to_ulong n) DATUM_MASK).
Definition FIXNUM_TO_LONG (fixnum : Z) : Z :=
  to_long (Z.lxor fixnum FIXNUM_SIGN_BIT
           - Z.lor (to_ulong (Z.shiftl TC_FIXNUM DATUM_LENGTH)) FIXNUM_SIGN_BIT).
Definition FIXNUM_LESS_P (x y : Z) : bool := FIXNUM_TO_LONG x <? FIXNUM_TO_LONG y.
Definition ULONG_TO_FIXNUM (n : Z) : Z := MAKE_OBJECT TC_FIXNUM n.
Definition FIXNUM_TO_ULONG (fixnum : Z) : Z := OBJECT_DATUM fixnum.
Definition FIXNUM_ZERO : Z := ULONG_TO_FIXNUM 0.

Definition fixnum_range (n : Z) : Prop := SMALLEST_FIXNUM <= n <= BIGGEST_FIXNUM.

(** ** Characters *)

Definition CODE_LENGTH : Z := 21.
Definition BITS_LENGTH : Z := 4.
Definition CHAR_MASK_CODE : Z := Z.shiftl 1 CODE_LENGTH - 1.
Definition CHAR_MASK_BITS : Z := Z.shiftl 1 BITS_LENGTH - 1.
Definition MAX_ASCII : Z := Z.shiftl 1 CHAR_BIT.
Definition CHARACTER_P (object : Z) : bool := OBJECT_TYPE object =? TC_CHARACTER.
Definition CHAR_TO_ASCII_P (object : Z) : bool := OBJECT_DATUM object <? MAX_ASCII.
Definition MAKE_CHAR (bits code : Z) : Z :=
  MAKE_OBJECT TC_CHARACTER (Z.lor (to_ulong (Z.shiftl (to_ulong bits) CODE_LENGTH)) (to_ulong code)).
Definition CHAR_BITS (c : Z) : Z := Z.land (Z.shiftr (OBJECT_DATUM c) CODE_LENGTH) CHAR_MASK_BITS.
Definition CHAR_CODE (c : Z) : Z := Z.land (OBJECT_DATUM c) CHAR_MASK_CODE.

(** ** Lemmas *)

Lemma OBJECT_DATUM_mod w : OBJECT_DATUM w = w mod 2 ^ 58.
Proof. apply land_mask; [lia|reflexivity]. Qed.

Lemma OBJECT_TYPE_div w : OBJECT_TYPE w = w / 2 ^ 58.
Proof. apply Z.shiftr_div_pow2. unfold DATUM_LENGTH. lia. Qed.

(** For a type code and a datum in range, [|] is addition. *)
Lemma MAKE_OBJECT_sum type datum :
  0 <= type < 2 ^ 6 -> 0 <= datum < 2 ^ 58 -> MAKE_OBJECT type datum = datum + 2 ^ 58 * type.
Proof.
  intros Ht Hd. unfold MAKE_OBJECT. rewrite (to_ulong_small type) by lia.
  rewrite Z.shiftl_mul_pow2 by (unfold DATUM_LENGTH; lia). unfold DATUM_LENGTH.
  rewrite to_ulong_small by lia.
  replace (type * 2 ^ 58) with (0 + 2 ^ 58 * type) by lia.
  replace datum with (datum + 2 ^ 58 * 0) at 1 by lia.
  rewrite lor_split, Z.lor_0_l, Z.lor_0_r by lia. lia.
Qed.

Lemma OBJECT_TYPE_MAKE type datum :
  0 <= type < 2 ^ 6 -> 0 <= datum < 2 ^ 58 -> OBJECT_TYPE (MAKE_OBJECT type datum) = type.
Proof.
  intros Ht Hd. rewrite MAKE_OBJECT_sum, OBJECT_TYPE_div by assumption. symmetry.
  apply Z.div_unique with datum; lia.
Qed.

Lemma OBJECT_DATUM_MAKE type datum :
  0 <= type < 2 ^ 6 -> 0 <= datum < 2 ^ 58 -> OBJECT_DATUM (MAKE_OBJECT type datum) = datum.
Proof.
  intros Ht Hd. rewrite MAKE_OBJECT_sum, OBJECT_DATUM_mod by assumption. symmetry.
  apply Z.mod_unique with type; lia.
Qed.

Lemma MAKE_OBJECT_eta w : object_p w -> MAKE_OBJECT (OBJECT_TYPE w) (OBJECT_DATUM w) = w.
Proof.
  unfold object_p. intros Hw. rewrite OBJECT_TYPE_div, OBJECT_DATUM_mod.
  rewrite MAKE_OBJECT_sum; dlia.
Qed.

Lemma object_range type datum :
  0 <= type < 2 ^ 6 -> 0 <= datum < 2 ^ 58 -> object_p (MAKE_OBJECT type datum).
Proof. intros. rewrite MAKE_OBJECT_sum by assumption. unfold object_p. lia. Qed.

(** A datum is the 58-bit image of the fixnum's value. *)
Lemma LONG_TO_FIXNUM_sum n : LONG_TO_FIXNUM n = n mod 2 ^ 58 + 2 ^ 58 * TC_FIXNUM.
Proof.
  unfold LONG_TO_FIXNUM. rewrite (land_mask 58 DATUM_MASK) by (reflexivity || lia).
  unfold to_ulong. rewrite Z.mod_mod_divide by (exists (2 ^ 6); reflexivity).
  rewrite MAKE_OBJECT_sum; [reflexivity|unfold TC_FIXNUM; lia|apply Z.mod_pos_bound; lia].
Qed.

Lemma sign_bit_flip d :
  0 <= d < 2 ^ 58 -> Z.lxor d FIXNUM_SIGN_BIT = if d <? 2 ^ 57 then d + 2 ^ 57 else d - 2 ^ 57.
Proof.
  intros Hd. replace FIXNUM_SIGN_BIT with (0 + 2 ^ 57 * 1) by reflexivity.
  assert (E : d = d mod 2 ^ 57 + 2 ^ 57 * (d / 2 ^ 57)) by dlia.
  rewrite E at 1. rewrite lxor_split by dlia. rewrite Z.lxor_0_r.
  destruct (Z.ltb_spec d (2 ^ 57)).
  - rewrite Z.div_small, Z.mod_small by lia. change (Z.lxor 0 1) with 1. lia.
  - replace (d / 2 ^ 57) with 1 by dlia. change (Z.lxor 1 1) with 0. dlia.
Qed.

(** The value of a fixnum object, as signed extension of its datum. *)
Lemma FIXNUM_TO_LONG_sum d :
  0 <= d < 2 ^ 58 ->
  FIXNUM_TO_LONG (d + 2 ^ 58 * TC_FIXNUM) = if d <? 2 ^ 57 then d else d - 2 ^ 58.
Proof.
  intros Hd. unfold FIXNUM_TO_LONG.
  replace FIXNUM_SIGN_BIT with (FIXNUM_SIGN_BIT + 2 ^ 58 * 0) at 1 by reflexivity.
  rewrite lxor_split, sign_bit_flip, Z.lxor_0_r by (unfold FIXNUM_SIGN_BIT; lia).
  change (Z.lor _ _) with (2 ^ 57 + 2 ^ 58 * TC_FIXNUM).
  destruct (Z.ltb_spec d (2 ^ 57)); rewrite to_long_small; lia.
Qed.

Lemma LONG_TO_FIXNUM_object n : object_p (LONG_TO_FIXNUM n).
Proof.
  rewrite LONG_TO_FIXNUM_sum. unfold object_p, TC_FIXNUM.
  pose proof (Z.mod_pos_bound n (2 ^ 58)). lia.
Qed.

Lemma LONG_TO_FIXNUM_type n : OBJECT_TYPE (LONG_TO_FIXNUM n) = TC_FIXNUM.
Proof.
  rewrite LONG_TO_FIXNUM_sum, OBJECT_TYPE_div. symmetry.
  apply Z.div_unique with (n mod 2 ^ 58); [|lia]. left. apply Z.mod_pos_bound. lia.
Qed.

Lemma FIXNUM_P_LONG_TO_FIXNUM n : FIXNUM_P (LONG_TO_FIXNUM n) = true.
Proof. unfold FIXNUM_P. now rewrite LONG_TO_FIXNUM_type. Qed.

Lemma FIXNUM_TO_LONG_TO_FIXNUM n : fixnum_range n -> FIXNUM_TO_LONG (LONG_TO_FIXNUM n) = n.
Proof.
  unfold fixnum_range, SMALLEST_FIXNUM, BIGGEST_FIXNUM. intros Hn.
  rewrite LONG_TO_FIXNUM_sum, FIXNUM_TO_LONG_sum by (apply Z.mod_pos_bound; lia).
  destruct (Z_lt_le_dec n 0).
  - replace (n mod 2 ^ 58) with (n + 2 ^ 58) by (apply Z.mod_unique with (-1); lia).
    destruct (Z.ltb_spec (n + 2 ^ 58) (2 ^ 57)); lia.
  - rewrite Z.mod_small by lia. destruct (Z.ltb_spec n (2 ^ 57)); lia.
Qed.

(** Every word of type [TC_FIXNUM] is the image of exactly one fixnum. *)
Lemma FIXNUM_P_inv w : object_p w -> FIXNUM_P w = true ->
  fixnum_range (FIXNUM_TO_LONG w) /\ LONG_TO_FIXNUM (FIXNUM_TO_LONG w) = w.
Proof.
  unfold object_p, FIXNUM_P. intros Hw Ht%Z.eqb_eq. rewrite OBJECT_TYPE_div in Ht.
  assert (Hd : 0 <= w mod 2 ^ 58 < 2 ^ 58) by (apply Z.mod_pos_bound; lia).
  assert (E : w = w mod 2 ^ 58 + 2 ^ 58 * TC_FIXNUM) by dlia.
  rewrite E at 1 2. rewrite FIXNUM_TO_LONG_sum, LONG_TO_FIXNUM_sum by assumption.
  set (d := w mod 2 ^ 58) in *. unfold fixnum_range, SMALLEST_FIXNUM, BIGGEST_FIXNUM.
  destruct (Z.ltb_spec d (2 ^ 57)); split; try lia.
  - rewrite Z.mod_small by lia. lia.
  - replace ((d - 2 ^ 58) mod 2 ^ 58) with d by (apply Z.mod_unique with (-1); lia). lia.
Qed.

(** [LONG_TO_FIXNUM_P] tests the seven high bits of the word. *)
Lemma SIGN_MASK_field u : 0 <= u < 2 ^ 64 -> Z.land u SIGN_MASK = 2 ^ 57 * (u / 2 ^ 57).
Proof.
  intros Hu. replace SIGN_MASK with (0 + 2 ^ 57 * 127) by reflexivity.
  assert (E : u = u mod 2 ^ 57 + 2 ^ 57 * (u / 2 ^ 57)) by dlia.
  rewrite E at 1. rewrite land_split, Z.land_0_r by dlia.
  rewrite (land_mask 7 127) by lia. rewrite Z.mod_small by dlia. lia.
Qed.

Lemma LONG_TO_FIXNUM_P_spec n : long_p n -> LONG_TO_FIXNUM_P n = true <-> fixnum_range n.
Proof.
  unfold long_p, fixnum_range, LONG_TO_FIXNUM_P, SMALLEST_FIXNUM, BIGGEST_FIXNUM. intros Hn.
  rewrite SIGN_MASK_field by apply to_ulong_range.
  rewrite orb_true_iff, !Z.eqb_eq. unfold SIGN_MASK.
  destruct (Z_lt_le_dec n 0).
  - replace (to_ulong n) with (n + 2 ^ 64) by (apply Z.mod_unique with (-1); lia). dlia.
  - rewrite to_ulong_small by lia. dlia.
Qed.

Lemma FIXNUM_NEGATIVE_P_spec w :
  object_p w -> FIXNUM_P w = true -> FIXNUM_NEGATIVE_P w = (FIXNUM_TO_LONG w <? 0).
Proof.
  unfold object_p, FIXNUM_P, FIXNUM_NEGATIVE_P. intros Hw Ht%Z.eqb_eq. rewrite OBJECT_TYPE_div in Ht.
  assert (Hd : 0 <= w mod 2 ^ 58 < 2 ^ 58) by (apply Z.mod_pos_bound; lia).
  assert (E : w = w mod 2 ^ 58 + 2 ^ 58 * TC_FIXNUM) by dlia.
  set (d := w mod 2 ^ 58) in *. rewrite E, FIXNUM_TO_LONG_sum by assumption.
  replace FIXNUM_SIGN_BIT with (2 ^ 57 + 2 ^ 58 * 0) by reflexivity.
  rewrite land_split, Z.land_0_r by lia.
  replace d with (d mod 2 ^ 57 + 2 ^ 57 * (d / 2 ^ 57)) at 1 by dlia.
  replace (2 ^ 57) with (0 + 2 ^ 57 * 1) at 4 by lia.
  rewrite land_split, Z.land_0_r by dlia. rewrite (land_mask 1 1) by lia. change (2 ^ 1) with 2.
  destruct (Z.ltb_spec d (2 ^ 57)).
  - rewrite (Z.div_small d) by lia. rewrite Z.mod_0_l by lia. destruct (Z.ltb_spec d 0); [lia|reflexivity].
  - replace (d / 2 ^ 57) with 1 by dlia. destruct (Z.ltb_spec (d - 2 ^ 58) 0); [reflexivity|lia].
Qed.

(** ** Characters *)

Lemma MAKE_CHAR_fields bits code : 0 <= bits < 2 ^ BITS_LENGTH -> 0 <= code < 2 ^ CODE_LENGTH ->
  CHARACTER_P (MAKE_CHAR bits code) = true /\ CHAR_BITS (MAKE_CHAR bits code) = bits /\
  CHAR_CODE (MAKE_CHAR bits code) = code.
Proof.
  change BITS_LENGTH with 4. change CODE_LENGTH with 21. intros Hb Hc.
  assert (E : Z.lor (to_ulong (Z.shiftl (to_ulong bits) CODE_LENGTH)) (to_ulong code) = code + 2 ^ 21 * bits).
  { rewrite !(to_ulong_small bits), (to_ulong_small code), Z.shiftl_mul_pow2, to_ulong_small by (unfold CODE_LENGTH; lia).
    change CODE_LENGTH with 21. replace (bits * 2 ^ 21) with (0 + 2 ^ 21 * bits) by lia.
    replace code with (code + 2 ^ 21 * 0) at 1 by lia. rewrite lor_split, Z.lor_0_l, Z.lor_0_r by lia. lia. }
  unfold MAKE_CHAR. rewrite E. unfold CHARACTER_P, CHAR_BITS, CHAR_CODE.
  rewrite OBJECT_TYPE_MAKE, OBJECT_DATUM_MAKE by (unfold TC_CHARACTER; lia). split; [reflexivity|].
  rewrite (land_mask 4 CHAR_MASK_BITS), (land_mask 21 CHAR_MASK_CODE) by (reflexivity || lia).
  rewrite Z.shiftr_div_pow2 by (unfold CODE_LENGTH; lia). change CODE_LENGTH with 21. split; dlia.
Qed.

(** ** Properties *)

(** Fixnums are exactly the 58-bit integers: LONG_TO_FIXNUM and FIXNUM_TO_LONG are inverse between the
    range and the words of type TC_FIXNUM, and LONG_TO_FIXNUM_P decides the range of a long. *)
Theorem fixnum_representation :
  (forall n, fixnum_range n ->
     object_p (LONG_TO_FIXNUM n) /\ FIXNUM_P (LONG_TO_FIXNUM n) = true /\ FIXNUM_TO_LONG (LONG_TO_FIXNUM n) = n /\
     FIXNUM_NEGATIVE_P (LONG_TO_FIXNUM n) = (n <? 0)) /\
  (forall w, object_p w -> FIXNUM_P w = true ->
     fixnum_range (FIXNUM_TO_LONG w) /\ LONG_TO_FIXNUM (FIXNUM_TO_LONG w) = w) /\
  (forall n, long_p n -> LONG_TO_FIXNUM_P n = true <-> fixnum_range n).
Proof.
  split; [|split; [exact FIXNUM_P_inv|exact LONG_TO_FIXNUM_P_spec]]. intros n Hn.
  split; [apply LONG_TO_FIXNUM_object|]. split; [apply FIXNUM_P_LONG_TO_FIXNUM|].
  split; [now apply FIXNUM_TO_LONG_TO_FIXNUM|].
  rewrite FIXNUM_NEGATIVE_P_spec by (apply LONG_TO_FIXNUM_object || apply FIXNUM_P_LONG_TO_FIXNUM).
  now rewrite FIXNUM_TO_LONG_TO_FIXNUM.
Qed.

(** MAKE_OBJECT packs a type code and a datum so that OBJECT_TYPE and OBJECT_DATUM give them back, every
    word is packed that way, and characters keep their code and bucky bits. *)
Theorem object_fields :
  (forall type datum, 0 <= type < 2 ^ 6 -> 0 <= datum < 2 ^ 58 ->
     OBJECT_TYPE (MAKE_OBJECT type datum) = type /\ OBJECT_DATUM (MAKE_OBJECT type datum) = datum) /\
  (forall w, object_p w -> MAKE_OBJECT (OBJECT_TYPE w) (OBJECT_DATUM w) = w) /\
  (forall bits code, 0 <= bits < 2 ^ BITS_LENGTH -> 0 <= code < 2 ^ CODE_LENGTH ->
     CHARACTER_P (MAKE_CHAR bits code) = true /\ CHAR_BITS (MAKE_CHAR bits code) = bits /\
     CHAR_CODE (MAKE_CHAR bits code) = code).
Proof.
  split; [intros; split; [now apply OBJECT_TYPE_MAKE|now apply OBJECT_DATUM_MAKE]|].
  split; [exact MAKE_OBJECT_eta|exact MAKE_CHAR_fields].
Qed.
