(* ===== verification/Bignum.v ===== *)
(** * bignmint.h and the base of bignum.c: the representation of bignums

    A bignum object is a header word (length and sign) followed by digits of
    [BIGNUM_DIGIT_LENGTH] bits, least significant first.  The record [bignum]
    is such an object: the sign bit of its header and its digits; the length
    field is the length of the list.  [value] is the integer it denotes and
    [wf] the invariant every operation of bignum.c maintains. *)

From Stdlib Require Import ZArith List Bool Lia.
From S2P Require Import Prelude Bits.
Import ListNotations.

#[local] Open Scope Z_scope.
#[local] Open Scope microcode_scope.

(** ** bignmint.h *)

Definition BIGNUM_DIGIT_LENGTH : Z := SIZEOF_LONG * CHAR_BIT - 2.
Definition BIGNUM_HALF_DIGIT_LENGTH : Z := BIGNUM_DIGIT_LENGTH / 2.
Definition BIGNUM_RADIX : Z := Z.shiftl 1 BIGNUM_DIGIT_LENGTH.
Definition BIGNUM_RADIX_ROOT : Z := Z.shiftl 1 BIGNUM_HALF_DIGIT_LENGTH.
Definition BIGNUM_DIGIT_MASK : Z := BIGNUM_RADIX - 1.
Definition BIGNUM_HALF_DIGIT_MASK : Z := BIGNUM_RADIX_ROOT - 1.
Definition BIGNUM_LENGTH_MAX : Z := BIGNUM_RADIX / BIGNUM_DIGIT_LENGTH - BIGNUM_DIGIT_LENGTH.
Definition BIGNUM_DIGIT_ONES (n : Z) : Z :=
  to_long (Z.lnot (to_ulong (Z.shiftl (to_ulong (Z.lnot 0)) n))).

Definition HD_LOW (digit : Z) : Z := Z.land digit BIGNUM_HALF_DIGIT_MASK.
Definition HD_HIGH (digit : Z) : Z := Z.shiftr digit BIGNUM_HALF_DIGIT_LENGTH.
Definition HD_CONS (high low : Z) : Z := Z.lor (Z.shiftl high BIGNUM_HALF_DIGIT_LENGTH) low.

Definition BIGNUM_BITS_TO_DIGITS (n : Z) : Z := (n + (BIGNUM_DIGIT_LENGTH - 1)) / BIGNUM_DIGIT_LENGTH.

(** The header word and its fields. *)
Definition BIGNUM_SET_HEADER (length : Z) (negative_p : bool) : Z :=
  Z.lor length (if negative_p then BIGNUM_RADIX else 0).
Definition header_length (header : Z) : Z := Z.land header BIGNUM_DIGIT_MASK.
Definition header_negative_p (header : Z) : bool := negb (Z.land header BIGNUM_RADIX =? 0).

Record bignum : Type := Bignum { negative_p : bool; digits : list Z }.

Definition BIGNUM_LENGTH (b : bignum) : Z := zlength (digits b).
Definition BIGNUM_NEGATIVE_P (b : bignum) : bool := negative_p b.
Definition BIGNUM_ZERO_P (b : bignum) : bool := BIGNUM_LENGTH b =? 0.

(** [BIGNUM_REF]: reading outside the digits is a wild access. *)
Definition digit_ref (ds : list Z) (index : Z) : outcome Z :=
  if index <? 0 then Wild
  else match nth_error ds (Z.to_nat index) with Some d => Return d | None => Wild end.
Definition BIGNUM_REF (b : bignum) (index : Z) : outcome Z := digit_ref (digits b) index.

(** ** Allocation

    A fresh object's digits hold [unwritten_digit] until the code stores to
    them: it is not a digit, so a result that kept one would not satisfy [wf]. *)

Definition unwritten_digit : Z := -1.

Definition bignum_allocate (length : Z) (negative_p : bool) : outcome bignum :=
  assert_that ((0 <=? length) && (length <=? BIGNUM_LENGTH_MAX)) ;;
  Return (Bignum negative_p (repeat unwritten_digit (Z.to_nat length))).

Definition bignum_allocate_zeroed (length : Z) (negative_p : bool) : outcome bignum :=
  assert_that ((0 <=? length) && (length <=? BIGNUM_LENGTH_MAX)) ;;
  Return (Bignum negative_p (repeat 0 (Z.to_nat length))).

(** The stores of a loop [*scan++ = ...] that starts at the first digit and
    produced [ds]; running past the last digit is a wild access. *)
Definition store_digits (b : bignum) (ds : list Z) : outcome bignum :=
  if Nat.leb (length ds) (length (digits b))
  then Return (Bignum (negative_p b) (ds ++ skipn (length ds) (digits b)))
  else Wild.

(** [BIGNUM_REF (b, index) = digit]. *)
Definition bignum_set (b : bignum) (index digit : Z) : outcome bignum :=
  if (0 <=? index) && (index <? BIGNUM_LENGTH b)
  then Return (Bignum (negative_p b)
                 (firstn (Z.to_nat index) (digits b) ++ digit :: skipn (S (Z.to_nat index)) (digits b)))
  else Wild.

Definition BIGNUM_ZERO : bignum := Bignum false [].
Definition BIGNUM_ONE (negative_p : bool) : bignum := Bignum negative_p [1].

Definition bignum_shorten_length (b : bignum) (length : Z) : outcome bignum :=
  let current_length := BIGNUM_LENGTH b in
  assert_that ((0 <=? length) && (length <=? current_length)) ;;
  Return (if length <? current_length
          then Bignum (negb (length =? 0) && BIGNUM_NEGATIVE_P b) (firstn (Z.to_nat length) (digits b))
          else b).

(** The digits left when the scan of [bignum_trim] has passed the zeros at the end. *)
Fixpoint trim_digits (ds : list Z) : list Z :=
  match ds with
  | [] => []
  | d :: ds' => match trim_digits ds' with
                | [] => if d =? 0 then [] else [d]
                | t => d :: t
                end
  end.

Definition bignum_trim (b : bignum) : bignum :=
  let ds := trim_digits (digits b) in
  if Nat.ltb (length ds) (length (digits b))
  then Bignum (negb (zlength ds =? 0) && BIGNUM_NEGATIVE_P b) ds
  else b.

(** ** Copying *)

Definition bignum_destructive_copy (source target : bignum) : outcome bignum :=
  store_digits target (digits source).

Definition bignum_copy (source : bignum) : outcome bignum :=
  target <- bignum_allocate (BIGNUM_LENGTH source) (BIGNUM_NEGATIVE_P source) ;;
  bignum_destructive_copy source target.

Definition bignum_new_sign (b : bignum) (negative_p : bool) : outcome bignum :=
  result <- bignum_allocate (BIGNUM_LENGTH b) negative_p ;;
  bignum_destructive_copy b result.

Definition bignum_maybe_new_sign (b : bignum) (negative_p : bool) : outcome bignum :=
  if (if BIGNUM_NEGATIVE_P b then negative_p else negb negative_p)
  then Return b
  else bignum_new_sign b negative_p.

Definition bignum_digit_to_bignum (digit : Z) (negative_p : bool) : outcome bignum :=
  if digit =? 0 then Return BIGNUM_ZERO
  else result <- bignum_allocate 1 negative_p ;; bignum_set result 0 digit.

(** ** Comparison *)

Inductive bignum_comparison : Type :=
| bignum_comparison_equal
| bignum_comparison_less
| bignum_comparison_greater.

Definition bignum_test (b : bignum) : bignum_comparison :=
  if BIGNUM_ZERO_P b then bignum_comparison_equal
  else if BIGNUM_NEGATIVE_P b then bignum_comparison_less
  else bignum_comparison_greater.

(** [BIGNUM_POSITIVE_P] of object.h. *)
Definition BIGNUM_POSITIVE_P (b : bignum) : bool :=
  match bignum_test b with bignum_comparison_greater => true | _ => false end.

(** The loop of [bignum_equal_p_unsigned], on operands of equal length. *)
Fixpoint equal_digits (xs ys : list Z) : bool :=
  match xs, ys with
  | x :: xs', y :: ys' => if x =? y then equal_digits xs' ys' else false
  | _, _ => true
  end.

Definition bignum_equal_p_unsigned (x y : bignum) : bool :=
  if BIGNUM_LENGTH x =? BIGNUM_LENGTH y then equal_digits (digits x) (digits y) else false.

Definition bignum_equal_p (x y : bignum) : bool :=
  if BIGNUM_ZERO_P x then BIGNUM_ZERO_P y
  else negb (BIGNUM_ZERO_P y)
       && (if BIGNUM_NEGATIVE_P x then BIGNUM_NEGATIVE_P y else negb (BIGNUM_NEGATIVE_P y))
       && bignum_equal_p_unsigned x y.

(** The loop of [bignum_compare_unsigned] scans from the most significant
    digit down; on the list the more significant digits are the tail. *)
Fixpoint compare_digits (xs ys : list Z) : bignum_comparison :=
  match xs, ys with
  | x :: xs', y :: ys' =>
      match compare_digits xs' ys' with
      | bignum_comparison_equal =>
          if x <? y then bignum_comparison_less
          else if x >? y then bignum_comparison_greater
          else bignum_comparison_equal
      | c => c
      end
  | _, _ => bignum_comparison_equal
  end.

Definition bignum_compare_unsigned (x y : bignum) : bignum_comparison :=
  if BIGNUM_LENGTH x <? BIGNUM_LENGTH y then bignum_comparison_less
  else if BIGNUM_LENGTH x >? BIGNUM_LENGTH y then bignum_comparison_greater
  else compare_digits (digits x) (digits y).

Definition bignum_compare (x y : bignum) : bignum_comparison :=
  if BIGNUM_ZERO_P x
  then if BIGNUM_ZERO_P y then bignum_comparison_equal
       else if BIGNUM_NEGATIVE_P y then bignum_comparison_greater
       else bignum_comparison_less
  else if BIGNUM_ZERO_P y
  then if BIGNUM_NEGATIVE_P x then bignum_comparison_less else bignum_comparison_greater
  else if BIGNUM_NEGATIVE_P x
  then if BIGNUM_NEGATIVE_P y then bignum_compare_unsigned y x else bignum_comparison_less
  else if BIGNUM_NEGATIVE_P y then bignum_comparison_greater
  else bignum_compare_unsigned x y.

(** ** Meaning and invariant *)

Notation eval := (positional BIGNUM_RADIX).
Notation digits_ok := (digits_below BIGNUM_RADIX).

Definition magnitude (b : bignum) : Z := eval (digits b).
Definition value (b : bignum) : Z :=
  if negative_p b then - magnitude b else magnitude b.

Record wf (b : bignum) : Prop := {
  wf_digits : digits_ok (digits b);
  wf_trimmed : last (digits b) 1 <> 0;
  wf_zero : digits b = [] -> negative_p b = false;
  wf_length : BIGNUM_LENGTH b <= BIGNUM_LENGTH_MAX
}.

(** The result [r] represents the integer [z]. *)
Definition represents (z : Z) (r : bignum) : Prop := wf r /\ value r = z.

(** ** Constants *)

Lemma RADIX_eq : BIGNUM_RADIX = 2 ^ 62.
Proof. reflexivity. Qed.
Lemma RADIX_ROOT_eq : BIGNUM_RADIX_ROOT = 2 ^ 31.
Proof. reflexivity. Qed.
Lemma RADIX_square : BIGNUM_RADIX = BIGNUM_RADIX_ROOT * BIGNUM_RADIX_ROOT.
Proof. reflexivity. Qed.
Lemma LENGTH_MAX_eq : BIGNUM_LENGTH_MAX = 74382032555280388.
Proof. reflexivity. Qed.

(** [lia] and [nia] work with the numerals. *)
Ltac radix :=
  change BIGNUM_RADIX with 4611686018427387904 in *;
  change BIGNUM_RADIX_ROOT with 2147483648 in *;
  change BIGNUM_LENGTH_MAX with 74382032555280388 in *;
  change BIGNUM_DIGIT_LENGTH with 62 in *;
  change BIGNUM_HALF_DIGIT_LENGTH with 31 in *.
Ltac rlia := radix; lia.
Ltac rnia := radix; nia.

Lemma HD_LOW_mod d : HD_LOW d = d mod BIGNUM_RADIX_ROOT.
Proof. unfold HD_LOW. rewrite RADIX_ROOT_eq. apply land_mask; [lia|reflexivity]. Qed.

Lemma HD_HIGH_div d : HD_HIGH d = d / BIGNUM_RADIX_ROOT.
Proof. unfold HD_HIGH. rewrite RADIX_ROOT_eq. now apply Z.shiftr_div_pow2. Qed.

Lemma HD_CONS_sum h l : 0 <= l < BIGNUM_RADIX_ROOT -> HD_CONS h l = l + BIGNUM_RADIX_ROOT * h.
Proof.
  intros Hl. rewrite RADIX_ROOT_eq in *. unfold HD_CONS.
  change BIGNUM_HALF_DIGIT_LENGTH with 31. rewrite Z.shiftl_mul_pow2 by lia.
  replace (h * 2 ^ 31) with (0 + 2 ^ 31 * h) by lia.
  replace l with (l + 2 ^ 31 * 0) at 1 by lia.
  rewrite lor_split, Z.lor_0_l, Z.lor_0_r by lia. lia.
Qed.

Lemma HD_split d : d = HD_LOW d + BIGNUM_RADIX_ROOT * HD_HIGH d.
Proof. rewrite HD_LOW_mod, HD_HIGH_div. pose proof (Z.div_mod d BIGNUM_RADIX_ROOT). rlia. Qed.

Lemma HD_LOW_range d : 0 <= HD_LOW d < BIGNUM_RADIX_ROOT.
Proof. rewrite HD_LOW_mod. apply Z.mod_pos_bound. rlia. Qed.

Lemma HD_HIGH_range d m : 0 <= d < BIGNUM_RADIX_ROOT * m -> 0 <= HD_HIGH d < m.
Proof.
  intros H. rewrite HD_HIGH_div. split; [apply Z.div_pos|apply Z.div_lt_upper_bound]; rlia.
Qed.

Lemma HD_HIGH_digit d : 0 <= d < BIGNUM_RADIX -> 0 <= HD_HIGH d < BIGNUM_RADIX_ROOT.
Proof. intros. apply HD_HIGH_range. now rewrite <- RADIX_square. Qed.

(** The header word stores the length and the sign of every allocatable object. *)
Lemma header_fields length neg :
  0 <= length <= BIGNUM_LENGTH_MAX ->
  header_length (BIGNUM_SET_HEADER length neg) = length /\
  header_negative_p (BIGNUM_SET_HEADER length neg) = neg.
Proof.
  intros Hl. unfold header_length, header_negative_p, BIGNUM_SET_HEADER.
  assert (E : Z.lor length (if neg then BIGNUM_RADIX else 0) = length + 2 ^ 62 * (if neg then 1 else 0)).
  { replace (if neg then BIGNUM_RADIX else 0) with (0 + 2 ^ 62 * (if neg then 1 else 0)) by now destruct neg.
    replace length with (length + 2 ^ 62 * 0) at 1 by lia.
    rewrite lor_split, Z.lor_0_l, Z.lor_0_r by rlia. reflexivity. }
  rewrite E, (land_mask 62 BIGNUM_DIGIT_MASK) by (reflexivity || lia). split.
  - symmetry. apply Z.mod_unique with (if neg then 1 else 0); rlia.
  - change BIGNUM_RADIX with (0 + 2 ^ 62 * 1). rewrite land_split, Z.land_0_r by rlia. now destruct neg.
Qed.

(** ** Digits *)

Lemma eval_app l1 l2 : eval (l1 ++ l2) = eval l1 + BIGNUM_RADIX ^ zlength l1 * eval l2.
Proof. apply positional_app. Qed.

Lemma eval_nonneg l : digits_ok l -> 0 <= eval l.
Proof. intros H%positional_range; rlia. Qed.

Lemma eval_upper l : digits_ok l -> eval l < BIGNUM_RADIX ^ zlength l.
Proof. intros H%positional_range; rlia. Qed.

Lemma radix_pow_pos n : 0 <= n -> 0 < BIGNUM_RADIX ^ n.
Proof. intros. apply Z.pow_pos_nonneg; rlia. Qed.
#[export] Hint Resolve radix_pow_pos eval_nonneg : core.

(** Trimmed digit lists denote numbers of exactly their length. *)
Lemma eval_lower l : digits_ok l -> l <> [] -> last l 1 <> 0 -> BIGNUM_RADIX ^ (zlength l - 1) <= eval l.
Proof.
  intros Hd Hn Hl. destruct (snoc_cases l) as [->|(l' & x & ->)]; [congruence|].
  rewrite last_snoc in Hl. apply digits_below_app in Hd as [Hd Hx%digits_below_cons].
  rewrite eval_app, length_app. cbn [length positional].
  replace (Z.of_nat (length l' + 1) - 1) with (zlength l') by lia.
  pose proof (eval_nonneg l' Hd). pose proof (radix_pow_pos (zlength l')). nia.
Qed.

Lemma trim_digits_eval l : eval (trim_digits l) = eval l.
Proof.
  induction l as [|d l IH]; [reflexivity|]. cbn [trim_digits].
  destruct (trim_digits l) as [|t ts].
  - cbn [positional] in *. rewrite <- IH.
    destruct (Z.eqb_spec d 0) as [->|]; cbn [positional]; lia.
  - cbn [positional] in *. lia.
Qed.

Lemma trim_digits_last l : last (trim_digits l) 1 <> 0.
Proof.
  induction l as [|d l IH]; [discriminate|]. cbn [trim_digits].
  destruct (trim_digits l) as [|t ts]; [|exact IH].
  destruct (Z.eqb_spec d 0); [discriminate|assumption].
Qed.

Lemma trim_digits_prefix l : exists n, l = trim_digits l ++ repeat 0 n.
Proof.
  induction l as [|d l [n IH]]; [now exists O|]. cbn [trim_digits].
  destruct (trim_digits l) as [|t ts].
  - cbn [app] in IH. destruct (Z.eqb_spec d 0) as [->|]; [exists (S n)|exists n]; cbn; now rewrite <- IH.
  - exists n. cbn [app] in *. now rewrite <- IH.
Qed.

Lemma trim_digits_ok l : digits_ok l -> digits_ok (trim_digits l).
Proof. intros H. destruct (trim_digits_prefix l) as [n E]. rewrite E in H. now apply digits_below_app in H. Qed.

Lemma trim_digits_length l : (length (trim_digits l) <= length l)%nat.
Proof. destruct (trim_digits_prefix l) as [n E]. rewrite E at 2. rewrite length_app. lia. Qed.

Lemma trim_digits_same l : length (trim_digits l) = length l -> trim_digits l = l.
Proof.
  intros H. destruct (trim_digits_prefix l) as [n E]. rewrite E in H at 2.
  rewrite length_app, repeat_length in H. destruct n; [|lia].
  rewrite E at 2. now rewrite app_nil_r.
Qed.

Lemma trim_digits_trimmed l : last l 1 <> 0 -> trim_digits l = l.
Proof.
  intros H. destruct (trim_digits_prefix l) as [n E].
  destruct n as [|n]; [rewrite E at 2; now rewrite app_nil_r|].
  exfalso. apply H. rewrite E, <- (Nat.add_1_r n), repeat_app, app_assoc. apply last_snoc.
Qed.

(** [bignum_trim] restores the invariant. *)
Lemma bignum_trim_represents neg ds :
  digits_ok ds -> zlength ds <= BIGNUM_LENGTH_MAX ->
  (ds = [] -> neg = false) ->
  represents (if neg then - eval ds else eval ds) (bignum_trim (Bignum neg ds)).
Proof.
  intros Hd Hl Hz. unfold bignum_trim. cbn [digits negative_p].
  pose proof (trim_digits_length ds) as Hlen. pose proof (trim_digits_last ds) as Hlast.
  destruct (Nat.ltb_spec (length (trim_digits ds)) (length ds)).
  - split.
    + constructor; cbn [digits negative_p]; try assumption.
      * now apply trim_digits_ok.
      * intros ->. reflexivity.
      * unfold BIGNUM_LENGTH. cbn [digits]. lia.
    + unfold value, magnitude, BIGNUM_NEGATIVE_P. cbn [digits negative_p].
      rewrite trim_digits_eval. destruct (Z.eqb_spec (zlength (trim_digits ds)) 0) as [E|E]; [|reflexivity].
      assert (Hnil : trim_digits ds = []) by (destruct (trim_digits ds); [reflexivity|discriminate]).
      pose proof (trim_digits_eval ds) as Ev. rewrite Hnil in Ev. change (eval []) with 0 in Ev. cbn [negb andb]. destruct neg; lia.
  - rewrite trim_digits_same in Hlast by lia. split; [|reflexivity].
    constructor; assumption.
Qed.

(** ** Allocation *)

Lemma bignum_allocate_ok n neg :
  0 <= n <= BIGNUM_LENGTH_MAX ->
  returns (bignum_allocate n neg) (fun r => r = Bignum neg (repeat unwritten_digit (Z.to_nat n))).
Proof.
  intros Hn. unfold bignum_allocate. rewrite (proj2 (andb_true_iff _ _)) by lia. now apply returns_ret.
Qed.

Lemma bignum_allocate_zeroed_ok n neg :
  0 <= n <= BIGNUM_LENGTH_MAX ->
  returns (bignum_allocate_zeroed n neg) (fun r => r = Bignum neg (repeat 0 (Z.to_nat n))).
Proof.
  intros Hn. unfold bignum_allocate_zeroed. rewrite (proj2 (andb_true_iff _ _)) by lia. now apply returns_ret.
Qed.

(** A fresh object filled from its first digit to its last. *)
Lemma allocate_and_store n neg ds (P : bignum -> Prop) :
  0 <= n <= BIGNUM_LENGTH_MAX -> zlength ds = n -> P (Bignum neg ds) ->
  returns (r <- bignum_allocate n neg ;; store_digits r ds) P.
Proof.
  intros Hn Hl HP. ret_step bignum_allocate_ok; [exact Hn|].
  intros r ->. unfold store_digits. cbn [digits negative_p]. rewrite repeat_length.
  replace (Nat.leb (length ds) (Z.to_nat n)) with true by (symmetry; apply Nat.leb_le; lia).
  rewrite skipn_all2 by (rewrite repeat_length; lia). rewrite app_nil_r. now apply returns_ret.
Qed.

Lemma bignum_shorten_length_ok b n :
  0 <= n < BIGNUM_LENGTH b ->
  returns (bignum_shorten_length b n)
    (fun r => r = Bignum (negb (n =? 0) && negative_p b) (firstn (Z.to_nat n) (digits b))).
Proof.
  intros Hn. unfold bignum_shorten_length. ret_assert; [lia|].
  destruct (Z.ltb_spec n (BIGNUM_LENGTH b)); [|lia]. now apply returns_ret.
Qed.

(** A fresh object filled up to its last digit. *)
Lemma allocate_and_store_but_one n neg ds :
  0 <= n + 1 <= BIGNUM_LENGTH_MAX -> zlength ds = n ->
  returns (r <- bignum_allocate (n + 1) neg ;; store_digits r ds)
    (fun r => r = Bignum neg (ds ++ [unwritten_digit])).
Proof.
  intros Hn Hl. ret_step bignum_allocate_ok; [lia|].
  intros r ->. unfold store_digits. cbn [digits negative_p]. rewrite repeat_length.
  replace (Nat.leb _ _) with true by (symmetry; apply Nat.leb_le; lia). ret_now. do 2 f_equal.
  replace (Z.to_nat (n + 1)) with (length ds + 1)%nat by lia.
  rewrite repeat_app, skipn_app, skipn_all2, repeat_length, Nat.sub_diag by (rewrite repeat_length; lia).
  reflexivity.
Qed.

Lemma bignum_new_sign_ok b neg :
  wf b -> returns (bignum_new_sign b neg) (fun r => r = Bignum neg (digits b)).
Proof.
  intros Hb. unfold bignum_new_sign, bignum_destructive_copy.
  apply allocate_and_store; try reflexivity. destruct Hb. unfold BIGNUM_LENGTH in *. lia.
Qed.

Lemma bignum_copy_ok b : wf b -> returns (bignum_copy b) (fun r => r = b).
Proof.
  intros Hb. unfold bignum_copy, bignum_destructive_copy.
  apply allocate_and_store; try reflexivity; destruct Hb, b; unfold BIGNUM_LENGTH in *; cbn in *; [lia|reflexivity].
Qed.

Lemma wf_new_sign b neg : wf b -> digits b <> [] -> wf (Bignum neg (digits b)).
Proof. intros [? ? ? ?] Hn. constructor; auto. cbn. congruence. Qed.

Lemma value_new_sign b neg : value (Bignum neg (digits b)) = if neg then - magnitude b else magnitude b.
Proof. reflexivity. Qed.

Lemma bignum_maybe_new_sign_ok b neg :
  wf b -> digits b <> [] ->
  returns (bignum_maybe_new_sign b neg) (represents (if neg then - magnitude b else magnitude b)).
Proof.
  intros Hb Hn. unfold bignum_maybe_new_sign, BIGNUM_NEGATIVE_P.
  destruct b as [n ds]. cbn [negative_p].
  assert (N : forall s, returns (bignum_new_sign (Bignum n ds) s)
                (represents (if s then - magnitude (Bignum n ds) else magnitude (Bignum n ds)))).
  { intros s. ret_step bignum_new_sign_ok; [exact Hb|]. intros r ->. split; [|reflexivity].
    now apply (wf_new_sign (Bignum n ds)). }
  destruct n, neg; cbn [negb]; try apply N; ret_now; split; auto.
Qed.

Lemma bignum_digit_to_bignum_ok d neg :
  0 <= d < BIGNUM_RADIX ->
  returns (bignum_digit_to_bignum d neg) (represents (if neg then - d else d)).
Proof.
  intros Hd. unfold bignum_digit_to_bignum. destruct (Z.eqb_spec d 0) as [->|Hnz].
  - ret_now. split; [constructor; cbn; auto; discriminate|now destruct neg].
  - ret_step bignum_allocate_ok; [rlia|].
    intros r ->. apply (returns_ret (Bignum neg [d])). split.
    + constructor; try discriminate; try assumption. repeat constructor; lia.
    + unfold value, magnitude. cbn [negative_p digits positional]. destruct neg; lia.
Qed.

(** ** Zero and one *)

Lemma BIGNUM_ZERO_represents : represents 0 BIGNUM_ZERO.
Proof. split; [constructor; cbn; auto; discriminate|reflexivity]. Qed.

Lemma BIGNUM_ONE_represents (neg : bool) : represents (if neg then -1 else 1) (BIGNUM_ONE neg).
Proof.
  split; [|now destruct neg]. constructor; try discriminate.
  apply digits_below_cons. split; [rlia|constructor].
Qed.
#[export] Hint Resolve BIGNUM_ZERO_represents BIGNUM_ONE_represents : core.

Lemma BIGNUM_ZERO_P_nil b : BIGNUM_ZERO_P b = true <-> digits b = [].
Proof.
  unfold BIGNUM_ZERO_P, BIGNUM_LENGTH. rewrite Z.eqb_eq. destruct (digits b); cbn; split; congruence || lia.
Qed.

Lemma BIGNUM_ZERO_P_value b : wf b -> BIGNUM_ZERO_P b = (value b =? 0).
Proof.
  intros [Hd Hl Hz _]. apply eq_iff_eq_true. rewrite BIGNUM_ZERO_P_nil, Z.eqb_eq. split.
  - unfold value, magnitude. intros ->. now destruct (negative_p b).
  - intros Hv. destruct (list_eq_dec Z.eq_dec (digits b) []) as [|Hn]; [assumption|exfalso].
    pose proof (eval_lower _ Hd Hn Hl). unfold value, magnitude in Hv.
    assert (0 < BIGNUM_RADIX ^ (zlength (digits b) - 1)).
    { apply radix_pow_pos. destruct (digits b); [congruence|]. cbn [length]. lia. }
    destruct (negative_p b); lia.
Qed.

Lemma wf_magnitude_pos b : wf b -> digits b <> [] -> 0 < magnitude b.
Proof.
  intros Hb Hn. pose proof (BIGNUM_ZERO_P_value b Hb) as E.
  pose proof (eval_nonneg _ (wf_digits b Hb)).
  destruct (Z.eqb_spec (value b) 0) as [Hv|Hv].
  - now rewrite BIGNUM_ZERO_P_nil in E.
  - unfold value, magnitude in *. destruct (negative_p b); lia.
Qed.

(** ** Comparison is the comparison of values *)

Definition of_comparison (c : comparison) : bignum_comparison :=
  match c with
  | Eq => bignum_comparison_equal
  | Lt => bignum_comparison_less
  | Gt => bignum_comparison_greater
  end.

Lemma compare_digits_ok xs : forall ys,
  digits_ok xs -> digits_ok ys -> length xs = length ys ->
  compare_digits xs ys = of_comparison (eval xs ?= eval ys).
Proof.
  induction xs as [|x xs IH]; intros [|y ys] Hx Hy Hl; try discriminate; [reflexivity|].
  apply digits_below_cons in Hx as [Hx Hxs]. apply digits_below_cons in Hy as [Hy Hys].
  cbn [compare_digits positional]. rewrite IH by (auto || (cbn in Hl; lia)). unfold Z.gtb.
  destruct (Z.compare_spec (eval xs) (eval ys)) as [E|E|E]; cbn [of_comparison].
  - rewrite E. destruct (Z.ltb_spec x y).
    + replace (_ ?= _) with Lt by (symmetry; apply Z.compare_lt_iff; lia). reflexivity.
    + destruct (Z.compare_spec x y); try lia.
      * replace (_ ?= _) with Eq by (symmetry; apply Z.compare_eq_iff; lia). reflexivity.
      * replace (_ ?= _) with Gt by (symmetry; apply Z.compare_gt_iff; lia). reflexivity.
  - replace (_ ?= _) with Lt by (symmetry; apply Z.compare_lt_iff; rnia). reflexivity.
  - replace (_ ?= _) with Gt by (symmetry; apply Z.compare_gt_iff; rnia). reflexivity.
Qed.

(** A longer trimmed number is larger. *)
Lemma magnitude_shorter x y :
  wf x -> wf y -> BIGNUM_LENGTH x < BIGNUM_LENGTH y -> magnitude x < magnitude y.
Proof.
  intros Hx Hy Hl. unfold BIGNUM_LENGTH, magnitude in *.
  pose proof (eval_upper _ (wf_digits x Hx)).
  pose proof (eval_lower _ (wf_digits y Hy)) as Hlow.
  assert (digits y <> []) by (intros E; rewrite E in Hl; cbn in Hl; lia).
  specialize (Hlow ltac:(assumption) (wf_trimmed y Hy)).
  pose proof (Z.pow_le_mono_r BIGNUM_RADIX (zlength (digits x)) (zlength (digits y) - 1)).
  rlia.
Qed.

Lemma bignum_compare_unsigned_ok x y :
  wf x -> wf y -> bignum_compare_unsigned x y = of_comparison (magnitude x ?= magnitude y).
Proof.
  intros Hx Hy. unfold bignum_compare_unsigned.
  destruct (Z.ltb_spec (BIGNUM_LENGTH x) (BIGNUM_LENGTH y)).
  { replace (_ ?= _) with Lt by (symmetry; apply Z.compare_lt_iff; now apply magnitude_shorter). reflexivity. }
  rewrite Z.gtb_ltb. destruct (Z.ltb_spec (BIGNUM_LENGTH y) (BIGNUM_LENGTH x)).
  { replace (_ ?= _) with Gt by (symmetry; apply Z.compare_gt_iff; now apply magnitude_shorter). reflexivity. }
  apply compare_digits_ok; try apply wf_digits; auto. unfold BIGNUM_LENGTH in *. lia.
Qed.

Lemma nonzero_digits b : wf b -> value b <> 0 -> digits b <> [].
Proof. intros Hb Hv E. apply Hv. apply Z.eqb_eq. rewrite <- BIGNUM_ZERO_P_value by assumption. now apply BIGNUM_ZERO_P_nil. Qed.

Lemma bignum_test_ok b : wf b -> bignum_test b = of_comparison (value b ?= 0).
Proof.
  intros Hb. unfold bignum_test. rewrite BIGNUM_ZERO_P_value by assumption.
  destruct (Z.eqb_spec (value b) 0) as [->|Hv]; [reflexivity|].
  pose proof (wf_magnitude_pos b Hb (nonzero_digits b Hb Hv)).
  unfold BIGNUM_NEGATIVE_P, value in *. destruct (negative_p b).
  - replace (_ ?= _) with Lt by (symmetry; apply Z.compare_lt_iff; lia). reflexivity.
  - replace (_ ?= _) with Gt by (symmetry; apply Z.compare_gt_iff; lia). reflexivity.
Qed.

Lemma BIGNUM_POSITIVE_P_value b : wf b -> BIGNUM_POSITIVE_P b = (0 <? value b).
Proof.
  intros Hb. unfold BIGNUM_POSITIVE_P. rewrite bignum_test_ok by assumption.
  destruct (Z.compare_spec (value b) 0); cbn; symmetry; zcases; lia || reflexivity.
Qed.

Lemma BIGNUM_NEGATIVE_P_value b : wf b -> BIGNUM_NEGATIVE_P b = (value b <? 0).
Proof.
  intros Hb. unfold BIGNUM_NEGATIVE_P.
  pose proof (eval_nonneg _ (wf_digits b Hb)) as Hm. fold (magnitude b) in Hm.
  destruct (negative_p b) eqn:N; unfold value; rewrite N; symmetry; zcases; try lia; try reflexivity.
  destruct (list_eq_dec Z.eq_dec (digits b) []) as [E|E].
  - now rewrite (wf_zero b Hb E) in N.
  - pose proof (wf_magnitude_pos b Hb E). lia.
Qed.

(** The sign and magnitude of a value. *)
Lemma value_cases b : wf b ->
  (value b = 0 /\ digits b = [] /\ negative_p b = false) \/
  (value b <> 0 /\ digits b <> [] /\ 0 < magnitude b).
Proof.
  intros Hb. destruct (list_eq_dec Z.eq_dec (digits b) []) as [E|E]; [left|right].
  - pose proof (wf_zero b Hb E) as N. repeat split; auto. unfold value, magnitude. now rewrite N, E.
  - pose proof (wf_magnitude_pos b Hb E). repeat split; auto. unfold value. destruct (negative_p b); lia.
Qed.

Lemma bignum_compare_ok x y : wf x -> wf y -> bignum_compare x y = of_comparison (value x ?= value y).
Proof.
  intros Hx Hy. unfold bignum_compare. rewrite !BIGNUM_ZERO_P_value, !BIGNUM_NEGATIVE_P_value by assumption.
  rewrite !bignum_compare_unsigned_ok by assumption.
  pose proof (BIGNUM_NEGATIVE_P_value x Hx) as Nx. pose proof (BIGNUM_NEGATIVE_P_value y Hy) as Ny.
  unfold BIGNUM_NEGATIVE_P in *.
  assert (Mx : value x = if value x <? 0 then - magnitude x else magnitude x)
    by (rewrite <- Nx; reflexivity).
  assert (My : value y = if value y <? 0 then - magnitude y else magnitude y)
    by (rewrite <- Ny; reflexivity).
  destruct (Z.eqb_spec (value x) 0) as [Ex|Ex], (Z.eqb_spec (value y) 0) as [Ey|Ey];
    destruct (Z.ltb_spec (value x) 0), (Z.ltb_spec (value y) 0);
    destruct (Z.compare_spec (value x) (value y)); try lia; try reflexivity;
    destruct (Z.compare_spec (magnitude x) (magnitude y)), (Z.compare_spec (magnitude y) (magnitude x));
    try lia; reflexivity.
Qed.

Lemma equal_digits_spec xs : forall ys, length xs = length ys -> equal_digits xs ys = true <-> xs = ys.
Proof.
  induction xs as [|x xs IH]; intros [|y ys] Hl; try discriminate; [easy|].
  cbn [equal_digits]. destruct (Z.eqb_spec x y) as [->|Hn]; [|split; congruence].
  rewrite IH by (cbn in Hl; lia). split; congruence.
Qed.

(** Trimmed representations are unique. *)
Lemma eval_inj xs : forall ys, digits_ok xs -> digits_ok ys -> length xs = length ys -> eval xs = eval ys -> xs = ys.
Proof.
  induction xs as [|x xs IH]; intros [|y ys] Hx Hy Hl He; try discriminate; [reflexivity|].
  apply digits_below_cons in Hx as [Hx Hxs]. apply digits_below_cons in Hy as [Hy Hys].
  cbn [positional] in He. cbn [length] in Hl.
  assert (x = y /\ eval xs = eval ys) as [-> E] by rnia. f_equal. apply IH; auto.
Qed.

Lemma value_inj x y : wf x -> wf y -> value x = value y -> x = y.
Proof.
  intros Hx Hy Hv. pose proof (BIGNUM_NEGATIVE_P_value x Hx) as Nx.
  pose proof (BIGNUM_NEGATIVE_P_value y Hy) as Ny. unfold BIGNUM_NEGATIVE_P in *.
  assert (Hn : negative_p x = negative_p y) by congruence.
  assert (Hm : magnitude x = magnitude y) by (unfold value in Hv; rewrite Hn in Hv; destruct (negative_p y); lia).
  destruct x as [nx xs], y as [ny ys]. cbn in Hn. f_equal; [assumption|].
  destruct (Z.lt_trichotomy (BIGNUM_LENGTH (Bignum nx xs)) (BIGNUM_LENGTH (Bignum ny ys))) as [L|[L|L]].
  - apply magnitude_shorter in L; auto. lia.
  - apply eval_inj; try apply (wf_digits _ Hx); try apply (wf_digits _ Hy); auto.
    unfold BIGNUM_LENGTH in L. cbn in L. lia.
  - apply magnitude_shorter in L; auto. lia.
Qed.

Lemma bignum_equal_p_ok x y : wf x -> wf y -> bignum_equal_p x y = (value x =? value y).
Proof.
  intros Hx Hy. apply eq_iff_eq_true. rewrite Z.eqb_eq. unfold bignum_equal_p, bignum_equal_p_unsigned.
  split.
  - destruct (BIGNUM_ZERO_P x) eqn:Zx.
    + rewrite BIGNUM_ZERO_P_value in * by assumption. rewrite Z.eqb_eq in *. lia.
    + rewrite !andb_true_iff. intros ((_ & Hs) & He).
      destruct (Z.eqb_spec (BIGNUM_LENGTH x) (BIGNUM_LENGTH y)) as [El|]; [|discriminate].
      apply equal_digits_spec in He; [|unfold BIGNUM_LENGTH in El; lia].
      unfold value, magnitude, BIGNUM_NEGATIVE_P in *. rewrite He.
      destruct (negative_p x), (negative_p y); easy.
  - intros Hv. assert (x = y) as -> by now apply value_inj.
    destruct (BIGNUM_ZERO_P y) eqn:Zy; [reflexivity|]. cbn [negb andb]. rewrite Z.eqb_refl.
    rewrite (proj2 (equal_digits_spec (digits y) (digits y) eq_refl) eq_refl).
    now destruct (BIGNUM_NEGATIVE_P y).
Qed.

(** A digit list whose number needs its full length is trimmed. *)
Lemma large_trimmed l : digits_ok l -> BIGNUM_RADIX ^ (zlength l - 1) <= eval l -> last l 1 <> 0.
Proof.
  intros Hd He. destruct (snoc_cases l) as [->|(l' & x & ->)]; [discriminate|].
  rewrite last_snoc. apply digits_below_app in Hd as [Hd Hx].
  rewrite eval_app, length_app in He. cbn [length positional] in He.
  replace (Z.of_nat (length l' + 1) - 1) with (zlength l') in He by lia.
  pose proof (eval_upper l' Hd). intros ->. lia.
Qed.

Lemma magnitude_lower b : wf b -> digits b <> [] -> BIGNUM_RADIX ^ (BIGNUM_LENGTH b - 1) <= magnitude b.
Proof. intros [] Hn. now apply eval_lower. Qed.

Lemma magnitude_nonneg b : wf b -> 0 <= magnitude b.
Proof. intros []. now apply eval_nonneg. Qed.

(** The room the code needs for a sum or a shifted copy. *)
Definition room (b : bignum) : Prop := BIGNUM_LENGTH b + 1 <= BIGNUM_LENGTH_MAX.

(** Decides [wf] and [room] of a concrete bignum. *)
Ltac wf_now :=
  constructor;
  [ repeat (apply digits_below_cons; split; [vm_compute; split; congruence|]); apply digits_below_nil
  | vm_compute; discriminate
  | vm_compute; (discriminate || reflexivity)
  | vm_compute; discriminate ].
Ltac room_now := vm_compute; discriminate.

(** ** Properties *)

(** Bignum_compare, bignum_equal_p and bignum_test decide the order, equality and sign of the integers;
    equal integers are equal objects. *)
Theorem bignum_order_correct x y : wf x -> wf y ->
  bignum_compare x y = of_comparison (value x ?= value y) /\
  bignum_equal_p x y = (value x =? value y) /\
  bignum_test x = of_comparison (value x ?= 0) /\
  (value x = value y -> x = y).
Proof.
  intros Hx Hy. split; [now apply bignum_compare_ok|]. split; [now apply bignum_equal_p_ok|].
  split; [now apply bignum_test_ok|now apply value_inj].
Qed.
