(* ===== verification/BignumAdd.v ===== *)
(** * bignum.c: addition, subtraction and negation *)

From Stdlib Require Import ZArith List Bool Lia.
From S2P Require Import Prelude Bits Bignum.
Import ListNotations.

#[local] Open Scope Z_scope.
#[local] Open Scope microcode_scope.

(** ** The code *)

(** First loop of [bignum_add_unsigned]: while both operands have digits.
    Result: the digits stored, the carry, and the rest of [x]. *)
Fixpoint add_loop (xs ys : list Z) (carry : Z) {struct ys} : outcome (list Z * Z * list Z) :=
  match ys with
  | [] => Return ([], carry, xs)
  | y :: ys' =>
      match xs with
      | [] => Wild
      | x :: xs' =>
          let sum := to_long (x + y + carry) in
          let '(digit, carry') := if sum <? BIGNUM_RADIX then (sum, 0)
                                  else (to_long (sum - BIGNUM_RADIX), 1) in
          '(ds, c, rest) <- add_loop xs' ys' carry' ;;
          Return (digit :: ds, c, rest)
      end
  end.

(** The carry runs through the digits left of [x]; the loop after it copies
    those it does not reach. *)
Fixpoint add_carry (xs : list Z) : list Z * Z :=
  match xs with
  | [] => ([], 1)
  | x :: xs' =>
      let sum := to_long (x + 1) in
      if sum <? BIGNUM_RADIX then (sum :: xs', 0)
      else let '(ds, c) := add_carry xs' in (to_long (sum - BIGNUM_RADIX) :: ds, c)
  end.

(** Both loops of [bignum_add_unsigned] together. *)
Definition add_digits (xs ys : list Z) : outcome (list Z * Z) :=
  '(ds, carry, rest) <- add_loop xs ys 0 ;;
  let '(ds', carry) := if negb (carry =? 0) then add_carry rest else (rest, carry) in
  Return (ds ++ ds', carry).

Definition bignum_add_unsigned (x y : bignum) (negative_p : bool) : outcome bignum :=
  let '(x, y) := if BIGNUM_LENGTH y >? BIGNUM_LENGTH x then (y, x) else (x, y) in
  let x_length := BIGNUM_LENGTH x in
  r <- bignum_allocate (x_length + 1) negative_p ;;
  '(ds, carry) <- add_digits (digits x) (digits y) ;;
  if negb (carry =? 0)
  then store_digits r (ds ++ [1])
  else r <- store_digits r ds ;; bignum_shorten_length r x_length.

(** First loop of [bignum_subtract_unsigned]. *)
Fixpoint subtract_loop (xs ys : list Z) (borrow : Z) {struct ys} : outcome (list Z * Z * list Z) :=
  match ys with
  | [] => Return ([], borrow, xs)
  | y :: ys' =>
      match xs with
      | [] => Wild
      | x :: xs' =>
          let difference := to_long (x - y - borrow) in
          let '(digit, borrow') := if difference <? 0 then (to_long (difference + BIGNUM_RADIX), 1)
                                   else (difference, 0) in
          '(ds, b, rest) <- subtract_loop xs' ys' borrow' ;;
          Return (digit :: ds, b, rest)
      end
  end.

Fixpoint subtract_borrow (xs : list Z) (borrow : Z) : list Z * Z :=
  match xs with
  | [] => ([], borrow)
  | x :: xs' =>
      let difference := to_long (x - borrow) in
      if difference <? 0
      then let '(ds, b) := subtract_borrow xs' borrow in (to_long (difference + BIGNUM_RADIX) :: ds, b)
      else (difference :: xs', 0)
  end.

(** Both loops of [bignum_subtract_unsigned] and the assertion after the second. *)
Definition subtract_digits (xs ys : list Z) : outcome (list Z) :=
  '(ds, borrow, rest) <- subtract_loop xs ys 0 ;;
  let '(ds', borrow) := if negb (borrow =? 0) then subtract_borrow rest borrow else (rest, borrow) in
  assert_that (borrow =? 0) ;;
  Return (ds ++ ds').

(** The body after the comparison, for the larger operand first. *)
Definition subtract_larger (x y : bignum) (negative_p : bool) : outcome bignum :=
  r <- bignum_allocate (BIGNUM_LENGTH x) negative_p ;;
  ds <- subtract_digits (digits x) (digits y) ;;
  r <- store_digits r ds ;;
  Return (bignum_trim r).

Definition bignum_subtract_unsigned (x y : bignum) : outcome bignum :=
  match bignum_compare_unsigned x y with
  | bignum_comparison_equal => Return BIGNUM_ZERO
  | bignum_comparison_less => subtract_larger y x true
  | bignum_comparison_greater => subtract_larger x y false
  end.

Definition bignum_add (x y : bignum) : outcome bignum :=
  if BIGNUM_ZERO_P x then Return y
  else if BIGNUM_ZERO_P y then Return x
  else if BIGNUM_NEGATIVE_P x
  then if BIGNUM_NEGATIVE_P y then bignum_add_unsigned x y true
       else bignum_subtract_unsigned y x
  else if BIGNUM_NEGATIVE_P y then bignum_subtract_unsigned x y
       else bignum_add_unsigned x y false.

Definition bignum_subtract (x y : bignum) : outcome bignum :=
  if BIGNUM_ZERO_P x
  then if BIGNUM_ZERO_P y then Return y
       else bignum_new_sign y (negb (BIGNUM_NEGATIVE_P y))
  else if BIGNUM_ZERO_P y then Return x
  else if BIGNUM_NEGATIVE_P x
  then if BIGNUM_NEGATIVE_P y then bignum_subtract_unsigned y x
       else bignum_add_unsigned x y true
  else if BIGNUM_NEGATIVE_P y then bignum_add_unsigned x y false
       else bignum_subtract_unsigned x y.

Definition bignum_negate (x : bignum) : outcome bignum :=
  if BIGNUM_ZERO_P x then Return x
  else bignum_new_sign x (negb (BIGNUM_NEGATIVE_P x)).

(** ** The loops *)

(** What a loop over the low digits leaves: the digits written, a carry (or
    borrow), and the unread high digits of [x]. *)
Definition partial_result (xs ys : list Z) (total : Z) (sign : Z) (out : list Z * Z * list Z) : Prop :=
  let '(ds, c, rest) := out in
  digits_ok ds /\ digits_ok rest /\ 0 <= c <= 1 /\
  length ds = length ys /\ (length ds + length rest = length xs)%nat /\
  eval ds + BIGNUM_RADIX ^ zlength ds * (eval rest + sign * c) = total.

Lemma partial_result_cons x xs y ys d c sign ds c' rest :
  0 <= d < BIGNUM_RADIX -> d + BIGNUM_RADIX * (sign * c) = x + sign * y ->
  partial_result xs ys (eval xs + sign * (eval ys + c)) sign (ds, c', rest) ->
  partial_result (x :: xs) (y :: ys) (eval (x :: xs) + sign * eval (y :: ys)) sign (d :: ds, c', rest).
Proof.
  intros Hd He (H1 & H2 & H3 & H4 & H5 & H6).
  repeat split; try (apply H3); auto.
  - now constructor.
  - cbn [length]. lia.
  - cbn [length]. lia.
  - cbn [length positional]. rewrite Nat2Z.inj_succ, Z.pow_succ_r by lia. nia.
Qed.

Lemma add_loop_ok ys : forall xs c,
  digits_ok xs -> digits_ok ys -> 0 <= c <= 1 -> (length ys <= length xs)%nat ->
  returns (add_loop xs ys c) (partial_result xs ys (eval xs + (eval ys + c)) 1).
Proof.
  induction ys as [|y ys IH]; intros xs c Hx Hy Hc Hl.
  - cbn [add_loop]. ret_now. repeat split; auto; try lia. cbn [length positional].
    change (BIGNUM_RADIX ^ Z.of_nat 0) with 1. lia.
  - destruct xs as [|x xs]; [cbn in Hl; lia|].
    apply digits_below_cons in Hx as [Hx Hxs]. apply digits_below_cons in Hy as [Hy Hys].
    cbn [add_loop]. rewrite to_long_small by rlia.
    set (c' := if x + y + c <? BIGNUM_RADIX then 0 else 1).
    set (d := x + y + c - BIGNUM_RADIX * c').
    assert (Hd : 0 <= d < BIGNUM_RADIX /\ 0 <= c' <= 1) by (subst c' d; zcases; rlia).
    replace (if _ <? _ then _ else _) with (d, c')
      by (subst c' d; zcases; [f_equal; lia|rewrite to_long_small by rlia; f_equal; lia]).
    ret_step IH; try tauto; [cbn in Hl; lia|]. intros [[ds c''] rest] H. ret_now.
    replace (eval (x :: xs) + (eval (y :: ys) + c)) with (eval (x :: xs) + 1 * eval ((y + c) :: ys))
      by (cbn [positional]; lia).
    apply (partial_result_cons x xs (y + c) ys d c' 1); [tauto|lia|].
    now replace (eval xs + 1 * (eval ys + c')) with (eval xs + (eval ys + c')) by lia.
Qed.

Lemma add_carry_ok xs : digits_ok xs ->
  let '(ds, c) := add_carry xs in
  digits_ok ds /\ 0 <= c <= 1 /\ length ds = length xs /\
  eval ds + BIGNUM_RADIX ^ zlength ds * c = eval xs + 1.
Proof.
  induction xs as [|x xs IH]; intros Hx.
  - repeat split; auto; lia.
  - apply digits_below_cons in Hx as [Hx Hxs]. specialize (IH Hxs). cbn [add_carry].
    rewrite to_long_small by rlia. destruct (Z.ltb_spec (x + 1) BIGNUM_RADIX).
    + repeat split; auto; try lia; [constructor; [lia|assumption]|]. cbn [positional]. lia.
    + destruct (add_carry xs) as [ds c]. destruct IH as (H1 & H2 & H3 & H4).
      rewrite to_long_small by rlia. repeat split; try tauto.
      * constructor; [rlia|assumption].
      * cbn [length]. lia.
      * cbn [length positional]. rewrite Nat2Z.inj_succ, Z.pow_succ_r by lia. rnia.
Qed.

Lemma subtract_loop_ok ys : forall xs b,
  digits_ok xs -> digits_ok ys -> 0 <= b <= 1 -> (length ys <= length xs)%nat ->
  returns (subtract_loop xs ys b) (partial_result xs ys (eval xs - (eval ys + b)) (-1)).
Proof.
  induction ys as [|y ys IH]; intros xs b Hx Hy Hb Hl.
  - cbn [subtract_loop]. ret_now. repeat split; auto; try lia. cbn [length positional].
    change (BIGNUM_RADIX ^ Z.of_nat 0) with 1. lia.
  - destruct xs as [|x xs]; [cbn in Hl; lia|].
    apply digits_below_cons in Hx as [Hx Hxs]. apply digits_below_cons in Hy as [Hy Hys].
    cbn [subtract_loop]. rewrite to_long_small by rlia.
    set (b' := if x - y - b <? 0 then 1 else 0).
    set (d := x - y - b + BIGNUM_RADIX * b').
    assert (Hd : 0 <= d < BIGNUM_RADIX /\ 0 <= b' <= 1) by (subst b' d; zcases; rlia).
    replace (if _ <? _ then _ else _) with (d, b')
      by (subst b' d; zcases; [rewrite to_long_small by rlia; f_equal; lia|f_equal; lia]).
    ret_step IH; try tauto; [cbn in Hl; lia|]. intros [[ds b''] rest] H. ret_now.
    replace (eval (x :: xs) - (eval (y :: ys) + b)) with (eval (x :: xs) + -1 * eval ((y + b) :: ys))
      by (cbn [positional]; lia).
    apply (partial_result_cons x xs (y + b) ys d b' (-1)); [tauto|lia|].
    now replace (eval xs + -1 * (eval ys + b')) with (eval xs - (eval ys + b')) by lia.
Qed.

Lemma subtract_borrow_ok xs : digits_ok xs -> 1 <= eval xs ->
  let '(ds, b) := subtract_borrow xs 1 in
  digits_ok ds /\ b = 0 /\ length ds = length xs /\ eval ds = eval xs - 1.
Proof.
  induction xs as [|x xs IH]; intros Hx Hpos; [cbn in Hpos; lia|].
  apply digits_below_cons in Hx as [Hx Hxs]. cbn [subtract_borrow positional] in *.
  rewrite to_long_small by rlia. destruct (Z.ltb_spec (x - 1) 0).
  - specialize (IH Hxs). destruct (subtract_borrow xs 1) as [ds b].
    rewrite to_long_small by rlia.
    destruct IH as (H1 & H2 & H3 & H4); [rlia|]. repeat split; auto.
    + constructor; [rlia|assumption].
    + cbn [length]. lia.
    + cbn [positional]. rlia.
  - repeat split; auto; [constructor; [lia|assumption]|]. cbn [positional]. lia.
Qed.

(** ** Unsigned addition and subtraction *)

Lemma add_digits_ok xs ys :
  digits_ok xs -> digits_ok ys -> (length ys <= length xs)%nat ->
  returns (add_digits xs ys)
    (fun '(ds, c) => digits_ok ds /\ 0 <= c <= 1 /\ length ds = length xs /\
                     eval ds + BIGNUM_RADIX ^ zlength ds * c = eval xs + eval ys).
Proof.
  intros Hx Hy Hl. unfold add_digits. ret_step add_loop_ok; auto; [lia|].
  intros [[ds c] rest] (H1 & H2 & H3 & H4 & H5 & H6). rewrite Z.add_0_r in H6.
  destruct (Z.eqb_spec c 0) as [->|Hc]; cbn [negb].
  - ret_now. rewrite length_app, eval_app. repeat split; try lia. now apply digits_below_app.
  - pose proof (add_carry_ok rest H2) as Hc'. destruct (add_carry rest) as [ds' c'].
    destruct Hc' as (K1 & K2 & K3 & K4). assert (c = 1) as -> by lia. ret_now.
    rewrite length_app, eval_app. repeat split; try lia; [now apply digits_below_app|].
    rewrite Nat2Z.inj_add, Z.pow_add_r by lia. nia.
Qed.

Lemma finish_add_ok neg n ds c m :
  0 < n -> n + 1 <= BIGNUM_LENGTH_MAX -> digits_ok ds -> 0 <= c <= 1 -> zlength ds = n ->
  eval ds + BIGNUM_RADIX ^ zlength ds * c = m -> BIGNUM_RADIX ^ (n - 1) <= m ->
  returns (r <- bignum_allocate (n + 1) neg ;;
           if negb (c =? 0) then store_digits r (ds ++ [1])
           else r <- store_digits r ds ;; bignum_shorten_length r n)
    (represents (if neg then - m else m)).
Proof.
  intros Hn Hmax Hd Hc Hl Hm Hlow. destruct (Z.eqb_spec c 0) as [->|Hc0]; cbn [negb].
  - rewrite <- bind_assoc. ret_step allocate_and_store_but_one; [lia|assumption|]. intros r ->.
    assert (El : BIGNUM_LENGTH (Bignum neg (ds ++ [unwritten_digit])) = n + 1)
      by (unfold BIGNUM_LENGTH; cbn [digits]; rewrite length_app; cbn [length]; lia).
    ret_step bignum_shorten_length_ok; [lia|]. intros r ->. cbn [digits negative_p].
    replace (Z.to_nat n) with (length ds) by lia. rewrite firstn_app, Nat.sub_diag, firstn_all, app_nil_r.
    destruct (Z.eqb_spec n 0); [lia|]. cbn [negb andb].
    split; [constructor; cbn [digits negative_p]; auto|].
    + apply large_trimmed; [assumption|]. rewrite Hl. lia.
    + intros ->. cbn in Hl. lia.
    + unfold BIGNUM_LENGTH. cbn [digits]. lia.
    + unfold value, magnitude. cbn [digits negative_p]. now replace (eval ds) with m by lia.
  - assert (c = 1) as -> by lia. apply allocate_and_store; [lia|rewrite length_app; cbn [length]; lia|].
    split; [constructor; cbn [digits negative_p]; auto|].
    + apply digits_below_app. split; [assumption|]. constructor; [rlia|constructor].
    + rewrite last_snoc. discriminate.
    + intros E. apply (f_equal (@length Z)) in E. rewrite length_app in E. cbn in E. lia.
    + unfold BIGNUM_LENGTH. cbn [digits]. rewrite length_app. cbn [length]. lia.
    + unfold value, magnitude. cbn [digits negative_p]. rewrite eval_app. cbn [positional].
      replace (1 + BIGNUM_RADIX * 0) with 1 by lia. now rewrite Hm.
Qed.

(** The sum once the longer operand is first. *)
Lemma add_longer_ok x y neg :
  wf x -> wf y -> digits x <> [] -> BIGNUM_LENGTH y <= BIGNUM_LENGTH x -> room x ->
  returns (r <- bignum_allocate (BIGNUM_LENGTH x + 1) neg ;;
           '(ds, carry) <- add_digits (digits x) (digits y) ;;
           if negb (carry =? 0) then store_digits r (ds ++ [1])
           else r <- store_digits r ds ;; bignum_shorten_length r (BIGNUM_LENGTH x))
    (represents (if neg then - (magnitude x + magnitude y) else magnitude x + magnitude y)).
Proof.
  intros Hx Hy Hn Hl Hroom. pose proof (magnitude_lower x Hx Hn) as Hlow.
  pose proof (magnitude_nonneg y Hy) as Hym. unfold room in Hroom.
  destruct (add_digits_ok (digits x) (digits y)) as ([ds c] & -> & H1 & H2 & H3 & H4);
    try (now apply wf_digits); [unfold BIGNUM_LENGTH in Hl; lia|].
  cbn [bind]. apply finish_add_ok; auto; unfold BIGNUM_LENGTH, magnitude in *; try lia.
  destruct (digits x); [congruence|cbn [length]; lia].
Qed.

Lemma bignum_add_unsigned_ok x y neg :
  wf x -> wf y -> digits x <> [] -> digits y <> [] -> room x -> room y ->
  returns (bignum_add_unsigned x y neg)
    (represents (if neg then - (magnitude x + magnitude y) else magnitude x + magnitude y)).
Proof.
  intros Hx Hy Nx Ny Rx Ry. unfold bignum_add_unsigned. rewrite Z.gtb_ltb.
  destruct (Z.ltb_spec (BIGNUM_LENGTH x) (BIGNUM_LENGTH y)).
  - rewrite (Z.add_comm (magnitude x)). apply add_longer_ok; auto. lia.
  - now apply add_longer_ok.
Qed.

Lemma subtract_digits_ok xs ys :
  digits_ok xs -> digits_ok ys -> (length ys <= length xs)%nat -> eval ys < eval xs ->
  returns (subtract_digits xs ys)
    (fun ds => digits_ok ds /\ length ds = length xs /\ eval ds = eval xs - eval ys).
Proof.
  intros Hx Hy Hl Hlt. unfold subtract_digits. ret_step subtract_loop_ok; auto; [lia|].
  intros [[ds b] rest] (H1 & H2 & H3 & H4 & H5 & H6). rewrite Z.add_0_r in H6.
  destruct (Z.eqb_spec b 0) as [->|Hb]; cbn [negb].
  - cbn [Z.eqb assert_that bind]. ret_now. rewrite length_app, eval_app.
    repeat split; try lia. now apply digits_below_app.
  - assert (b = 1) as -> by lia. pose proof (eval_upper ds H1). pose proof (eval_nonneg rest H2).
    assert (1 <= eval rest).
    { destruct (Z.eq_dec (eval rest) 0) as [E|]; [rewrite E in H6; lia|lia]. }
    pose proof (subtract_borrow_ok rest H2) as Hb'. destruct (subtract_borrow rest 1) as [ds' b'].
    destruct Hb' as (K1 & -> & K3 & K4); [assumption|]. cbn [Z.eqb assert_that bind]. ret_now.
    rewrite length_app, eval_app. repeat split; try (rewrite ?K4; lia). now apply digits_below_app.
Qed.

Lemma subtract_larger_ok x y neg :
  wf x -> wf y -> magnitude y < magnitude x ->
  returns (subtract_larger x y neg)
    (represents (if neg then - (magnitude x - magnitude y) else magnitude x - magnitude y)).
Proof.
  intros Hx Hy Hm.
  assert (Hl : BIGNUM_LENGTH y <= BIGNUM_LENGTH x).
  { destruct (Z_lt_le_dec (BIGNUM_LENGTH x) (BIGNUM_LENGTH y)) as [l|]; [|assumption].
    apply magnitude_shorter in l; auto. lia. }
  pose proof (wf_length x Hx) as Hmax. unfold subtract_larger, magnitude, BIGNUM_LENGTH in *.
  destruct (subtract_digits_ok (digits x) (digits y)) as (ds & E & K1 & K2 & K3);
    try (now apply wf_digits); try lia.
  rewrite E. cbn [bind]. clear E. rewrite <- bind_assoc.
  eapply returns_bind with (P := eq (Bignum neg ds)); [apply allocate_and_store; [lia..|reflexivity]|].
  intros r <-. ret_now. rewrite <- K3. apply bignum_trim_represents; [assumption|lia|].
  intros ->. change (eval []) with 0 in K3. lia.
Qed.

Lemma bignum_subtract_unsigned_ok x y :
  wf x -> wf y -> returns (bignum_subtract_unsigned x y) (represents (magnitude x - magnitude y)).
Proof.
  intros Hx Hy. unfold bignum_subtract_unsigned. rewrite bignum_compare_unsigned_ok by assumption.
  destruct (Z.compare_spec (magnitude x) (magnitude y)) as [E|E|E]; cbn [of_comparison].
  - ret_now. replace (magnitude x - magnitude y) with 0 by lia. auto.
  - replace (magnitude x - magnitude y) with (- (magnitude y - magnitude x)) by lia.
    now apply (subtract_larger_ok y x true).
  - now apply (subtract_larger_ok x y false).
Qed.

(** ** Signed operations *)

(** Split on the sign bits of two nonzero operands, which fix their values. *)
Ltac sign_cases x y :=
  unfold value, BIGNUM_NEGATIVE_P;
  destruct (negative_p x) eqn:?, (negative_p y) eqn:?.

Lemma represents_eq z z' r : represents z r -> z = z' -> represents z' r.
Proof. intros [H1 H2] E. split; congruence. Qed.

Ltac finish_represents :=
  let H := fresh in intros ? H; eapply represents_eq; [exact H|lia].

Lemma bignum_add_ok x y : wf x -> wf y -> room x -> room y ->
  returns (bignum_add x y) (represents (value x + value y)).
Proof.
  intros Hx Hy Rx Ry. unfold bignum_add. rewrite !BIGNUM_ZERO_P_value by assumption.
  destruct (value_cases x Hx) as [(Ex & Dx & Sx)|(Ex & Dx & Mx)].
  { rewrite Ex. ret_now. split; [assumption|lia]. }
  destruct (Z.eqb_spec (value x) 0); [contradiction|].
  destruct (value_cases y Hy) as [(Ey & Dy & Sy)|(Ey & Dy & My)].
  { rewrite Ey. ret_now. split; [assumption|lia]. }
  destruct (Z.eqb_spec (value y) 0); [contradiction|].
  sign_cases x y.
  - ret_step (bignum_add_unsigned_ok x y true); auto; finish_represents.
  - ret_step (bignum_subtract_unsigned_ok y x); auto; finish_represents.
  - ret_step (bignum_subtract_unsigned_ok x y); auto; finish_represents.
  - ret_step (bignum_add_unsigned_ok x y false); auto.
Qed.

(** Changing the sign of a nonzero bignum. *)
Lemma negate_nonzero_ok x : wf x -> digits x <> [] ->
  returns (bignum_new_sign x (negb (BIGNUM_NEGATIVE_P x))) (represents (- value x)).
Proof.
  intros Hx Hn. ret_step bignum_new_sign_ok; [assumption|]. intros r ->.
  split; [now apply wf_new_sign|]. unfold BIGNUM_NEGATIVE_P. rewrite value_new_sign.
  unfold value. destruct (negative_p x); cbn [negb]; lia.
Qed.

Lemma bignum_subtract_ok x y : wf x -> wf y -> room x -> room y ->
  returns (bignum_subtract x y) (represents (value x - value y)).
Proof.
  intros Hx Hy Rx Ry. unfold bignum_subtract. rewrite !BIGNUM_ZERO_P_value by assumption.
  destruct (value_cases x Hx) as [(Ex & Dx & Sx)|(Ex & Dx & Mx)];
    destruct (value_cases y Hy) as [(Ey & Dy & Sy)|(Ey & Dy & My)].
  - rewrite Ex, Ey. ret_now. now split.
  - rewrite Ex. destruct (Z.eqb_spec (value y) 0); [contradiction|]. cbn [Z.eqb].
    ret_step negate_nonzero_ok; auto.
  - rewrite Ey. destruct (Z.eqb_spec (value x) 0); [contradiction|]. ret_now. split; [assumption|lia].
  - destruct (Z.eqb_spec (value x) 0); [contradiction|]. destruct (Z.eqb_spec (value y) 0); [contradiction|].
    sign_cases x y.
    + ret_step (bignum_subtract_unsigned_ok y x); auto; finish_represents.
    + ret_step (bignum_add_unsigned_ok x y true); auto; finish_represents.
    + ret_step (bignum_add_unsigned_ok x y false); auto; finish_represents.
    + ret_step (bignum_subtract_unsigned_ok x y); auto.
Qed.

Lemma bignum_negate_ok x : wf x -> returns (bignum_negate x) (represents (- value x)).
Proof.
  intros Hx. unfold bignum_negate. rewrite BIGNUM_ZERO_P_value by assumption.
  destruct (value_cases x Hx) as [(Ex & Dx & Sx)|(Ex & Dx & Mx)].
  - rewrite Ex. ret_now. now split.
  - destruct (Z.eqb_spec (value x) 0); [contradiction|]. now apply negate_nonzero_ok.
Qed.

(** ** Properties *)

(** Bignum_add, bignum_subtract and bignum_negate compute sum, difference and opposite, by magnitude
    addition or subtraction according to the signs. *)
Theorem bignum_add_subtract_correct x y : wf x -> wf y -> room x -> room y ->
  returns (bignum_add x y) (fun r => wf r /\ value r = value x + value y) /\
  returns (bignum_subtract x y) (fun r => wf r /\ value r = value x - value y) /\
  returns (bignum_negate y) (fun r => wf r /\ value r = - value y).
Proof. intros. split; [now apply bignum_add_ok|]. split; [now apply bignum_subtract_ok|now apply bignum_negate_ok]. Qed.
