(* ===== verification/BignumMul.v ===== *)
(** * bignum.c: multiplication *)

From Stdlib Require Import ZArith List Bool Lia.
From S2P Require Import Prelude Bits Bignum BignumAdd.
Import ListNotations.

#[local] Open Scope Z_scope.
#[local] Open Scope microcode_scope.

(** ** The code *)

(** The inner loop of [bignum_multiply_unsigned] for one digit of [x], given
    by its halves, and the store [*scan_r += carry] after it.  [rs] are the
    digits of the result from [scan_r] on. *)
Fixpoint multiply_row (x_digit_low x_digit_high : Z) (ys rs : list Z) (carry : Z) {struct ys}
  : outcome (list Z) :=
  match rs with
  | [] => Wild
  | r :: rs' =>
      match ys with
      | [] => Return (to_long (r + carry) :: rs')
      | y_digit :: ys' =>
          let y_digit_low := HD_LOW y_digit in
          let y_digit_high := HD_HIGH y_digit in
          let product_low := to_long (r + x_digit_low * y_digit_low + HD_LOW carry) in
          let product_high := to_long (x_digit_high * y_digit_low + x_digit_low * y_digit_high
                                       + HD_HIGH product_low + HD_HIGH carry) in
          let digit := HD_CONS (HD_LOW product_high) (HD_LOW product_low) in
          let carry := to_long (x_digit_high * y_digit_high + HD_HIGH product_high) in
          rest <- multiply_row x_digit_low x_digit_high ys' rs' carry ;;
          Return (digit :: rest)
      end
  end.

(** The outer loop: [scan_r = (start_r++)] for each digit of [x]. *)
Fixpoint multiply_rows (xs ys rs : list Z) {struct xs} : outcome (list Z) :=
  match xs with
  | [] => Return rs
  | x_digit :: xs' =>
      row <- multiply_row (HD_LOW x_digit) (HD_HIGH x_digit) ys rs 0 ;;
      match row with
      | [] => Wild
      | r :: rs' => rest <- multiply_rows xs' ys rs' ;; Return (r :: rest)
      end
  end.

Definition bignum_multiply_unsigned (x y : bignum) (neg : bool) : outcome bignum :=
  let '(x, y) := if BIGNUM_LENGTH y >? BIGNUM_LENGTH x then (y, x) else (x, y) in
  r <- bignum_allocate_zeroed (BIGNUM_LENGTH x + BIGNUM_LENGTH y) neg ;;
  rs <- multiply_rows (digits x) (digits y) (digits r) ;;
  Return (bignum_trim (Bignum (negative_p r) rs)).

(** The loop of [bignum_destructive_scale_up]. *)
Fixpoint scale_up_loop (factor : Z) (ds : list Z) (carry : Z) : list Z * Z :=
  match ds with
  | [] => ([], carry)
  | two_digits :: ds' =>
      let product_low := to_long (factor * HD_LOW two_digits + HD_LOW carry) in
      let product_high := to_long (factor * HD_HIGH two_digits + HD_HIGH product_low + HD_HIGH carry) in
      let digit := HD_CONS (HD_LOW product_high) (HD_LOW product_low) in
      let '(rest, c) := scale_up_loop factor ds' (HD_HIGH product_high) in
      (digit :: rest, c)
  end.

Definition bignum_destructive_scale_up (b : bignum) (factor : Z) : outcome bignum :=
  assert_that ((factor >? 1) && (factor <? BIGNUM_RADIX_ROOT)) ;;
  let '(ds, carry) := scale_up_loop factor (digits b) 0 in
  assert_that (carry =? 0) ;;
  Return (Bignum (negative_p b) ds).

Definition bignum_multiply_unsigned_small_factor (x : bignum) (y : Z) (neg : bool) : outcome bignum :=
  let length_x := BIGNUM_LENGTH x in
  p <- bignum_allocate (length_x + 1) neg ;;
  p <- bignum_destructive_copy x p ;;
  p <- bignum_set p length_x 0 ;;
  p <- bignum_destructive_scale_up p y ;;
  Return (bignum_trim p).

(** The [while (1)] loop of [bignum_destructive_add]. *)
Fixpoint add_one_loop (ds : list Z) : outcome (list Z) :=
  match ds with
  | [] => Wild
  | d :: ds' =>
      let digit := to_long (d + 1) in
      if digit <? BIGNUM_RADIX then Return (digit :: ds')
      else rest <- add_one_loop ds' ;; Return (to_long (digit - BIGNUM_RADIX) :: rest)
  end.

Definition bignum_destructive_add (b : bignum) (n : Z) : outcome bignum :=
  match digits b with
  | [] => Wild
  | d :: ds' =>
      let digit := to_long (d + n) in
      if digit <? BIGNUM_RADIX then Return (Bignum (negative_p b) (digit :: ds'))
      else rest <- add_one_loop ds' ;;
           Return (Bignum (negative_p b) (to_long (digit - BIGNUM_RADIX) :: rest))
  end.

(** One of the tests [x_length == 1] and [y_length == 1] of [bignum_multiply]:
    the result when the digit of [small] allows a fast path with [other]. *)
Definition multiply_by_single_digit (small other : bignum) (neg : bool) : option (outcome bignum) :=
  if BIGNUM_LENGTH small =? 1
  then match BIGNUM_REF small 0 with
       | Return digit =>
           if digit =? 1 then Some (bignum_maybe_new_sign other neg)
           else if digit <? BIGNUM_RADIX_ROOT
           then Some (bignum_multiply_unsigned_small_factor other digit neg)
           else None
       | _ => Some Wild
       end
  else None.

Definition bignum_multiply (x y : bignum) : outcome bignum :=
  let neg := if BIGNUM_NEGATIVE_P x then negb (BIGNUM_NEGATIVE_P y) else BIGNUM_NEGATIVE_P y in
  if BIGNUM_ZERO_P x then Return x
  else if BIGNUM_ZERO_P y then Return y
  else match multiply_by_single_digit x y neg with
       | Some r => r
       | None =>
           match multiply_by_single_digit y x neg with
           | Some r => r
           | None => bignum_multiply_unsigned x y neg
           end
       end.

(** ** One step of the inner loop *)

(** A product of two digits by halves, plus a digit and a carry, split at the radix. *)
Lemma multiply_step r xl xh y c :
  0 <= r < BIGNUM_RADIX -> 0 <= xl < BIGNUM_RADIX_ROOT -> 0 <= xh < BIGNUM_RADIX_ROOT ->
  0 <= y < BIGNUM_RADIX -> 0 <= c < BIGNUM_RADIX ->
  let pl := to_long (r + xl * HD_LOW y + HD_LOW c) in
  let ph := to_long (xh * HD_LOW y + xl * HD_HIGH y + HD_HIGH pl + HD_HIGH c) in
  let d := HD_CONS (HD_LOW ph) (HD_LOW pl) in
  let c' := to_long (xh * HD_HIGH y + HD_HIGH ph) in
  0 <= d < BIGNUM_RADIX /\ 0 <= c' < BIGNUM_RADIX /\
  d + BIGNUM_RADIX * c' = r + (xl + BIGNUM_RADIX_ROOT * xh) * y + c.
Proof.
  intros Hr Hxl Hxh Hy Hc.
  pose proof (HD_LOW_range y) as Hyl. pose proof (HD_HIGH_digit y Hy) as Hyh.
  pose proof (HD_LOW_range c) as Hcl. pose proof (HD_HIGH_digit c Hc) as Hch.
  pose proof (HD_split y) as Ey. pose proof (HD_split c) as Ec.
  set (yl := HD_LOW y) in *. set (yh := HD_HIGH y) in *. set (cl := HD_LOW c) in *. set (ch := HD_HIGH c) in *.
  assert (B : forall a b, 0 <= a < BIGNUM_RADIX_ROOT -> 0 <= b < BIGNUM_RADIX_ROOT ->
            0 <= a * b <= (BIGNUM_RADIX_ROOT - 1) * (BIGNUM_RADIX_ROOT - 1)) by (intros; nia).
  pose proof (B xl yl Hxl Hyl) as B1. pose proof (B xh yl Hxh Hyl) as B2.
  pose proof (B xl yh Hxl Hyh) as B3. pose proof (B xh yh Hxh Hyh) as B4. cbv zeta.
  rewrite (to_long_small (r + xl * yl + cl)) by rlia.
  set (pl := r + xl * yl + cl).
  assert (Hpl : 0 <= HD_HIGH pl < 2 * BIGNUM_RADIX_ROOT) by (apply HD_HIGH_range; unfold pl; rlia).
  pose proof (HD_split pl) as Epl. pose proof (HD_LOW_range pl) as Hpll.
  rewrite (to_long_small (xh * yl + xl * yh + HD_HIGH pl + ch)) by rlia.
  set (ph := xh * yl + xl * yh + HD_HIGH pl + ch).
  assert (Hph : 0 <= HD_HIGH ph < 2 * BIGNUM_RADIX_ROOT) by (apply HD_HIGH_range; unfold ph; rlia).
  pose proof (HD_split ph) as Eph. pose proof (HD_LOW_range ph) as Hphl.
  rewrite HD_CONS_sum by assumption.
  rewrite to_long_small by rlia.
  assert (E : HD_LOW pl + BIGNUM_RADIX_ROOT * HD_LOW ph + BIGNUM_RADIX * (xh * yh + HD_HIGH ph)
              = r + (xl + BIGNUM_RADIX_ROOT * xh) * y + c).
  { rewrite Ey, Ec. unfold ph in Eph at 1. unfold pl in Epl at 1. clear - Eph Epl. radix. lia. }
  split; [rlia|]. split; [|exact E].
  assert (Hb : (xl + BIGNUM_RADIX_ROOT * xh) * y <= (BIGNUM_RADIX - 1) * (BIGNUM_RADIX - 1)).
  { apply Z.mul_le_mono_nonneg; rlia. }
  rnia.
Qed.

Lemma multiply_row_ok xl xh ys : forall rs c,
  0 <= xl < BIGNUM_RADIX_ROOT -> 0 <= xh < BIGNUM_RADIX_ROOT ->
  digits_ok ys -> digits_ok rs -> 0 <= c < BIGNUM_RADIX ->
  (length ys < length rs)%nat -> (forall d, nth_error rs (length ys) = Some d -> d = 0) ->
  returns (multiply_row xl xh ys rs c)
    (fun out => digits_ok out /\ length out = length rs /\
                skipn (S (length ys)) out = skipn (S (length ys)) rs /\
                eval out = eval rs + (xl + BIGNUM_RADIX_ROOT * xh) * eval ys + c).
Proof.
  induction ys as [|y ys IH]; intros [|r rs] c Hxl Hxh Hys Hrs Hc Hl Hz; try (cbn in Hl; lia).
  - cbn [multiply_row]. apply digits_below_cons in Hrs as [Hr Hrs].
    assert (r = 0) as -> by (apply Hz; reflexivity). rewrite to_long_small by rlia. ret_now.
    repeat split; auto; [constructor; [lia|assumption]|]. cbn [positional]. lia.
  - apply digits_below_cons in Hrs as [Hr Hrs]. apply digits_below_cons in Hys as [Hy Hys].
    cbn [multiply_row]. destruct (multiply_step r xl xh y c Hr Hxl Hxh Hy Hc) as (Hd & Hc' & E).
    cbv zeta in Hd, Hc', E |- *.
    ret_step IH; auto; [cbn in Hl; lia|]. intros out (K1 & K2 & K3 & K4). ret_now.
    repeat split.
    + now constructor.
    + cbn [length]. lia.
    + exact K3.
    + cbn [positional]. rewrite K4. clear - E. lia.
Qed.

Lemma multiply_rows_ok xs : forall ys rs,
  digits_ok xs -> digits_ok ys -> digits_ok rs -> ys <> [] ->
  length rs = (length xs + length ys)%nat -> skipn (length ys) rs = repeat 0 (length xs) ->
  returns (multiply_rows xs ys rs)
    (fun out => digits_ok out /\ length out = length rs /\ eval out = eval rs + eval xs * eval ys).
Proof.
  induction xs as [|x xs IH]; intros ys rs Hx Hy Hr Hn Hl Hz.
  - cbn [multiply_rows]. ret_now. repeat split; auto. cbn [positional]. lia.
  - apply digits_below_cons in Hx as [Hx Hxs]. cbn [multiply_rows].
    ret_step multiply_row_ok; auto using HD_LOW_range, HD_HIGH_digit; try rlia.
    + cbn [length] in Hl. lia.
    + intros d Hd. rewrite <- (Nat.add_0_r (length ys)), <- nth_error_skipn, Hz in Hd. cbn in Hd. congruence.
    + rewrite <- HD_split. intros [|r row] (K1 & K2 & K3 & K4); [cbn in K2, Hl; lia|].
      apply digits_below_cons in K1 as [Kr K1].
      ret_step IH; auto; [cbn [length] in *; lia| |].
      * change (skipn (S (length ys)) (r :: row)) with (skipn (length ys) row) in K3. rewrite K3.
        change (S (length ys)) with (1 + length ys)%nat. rewrite <- skipn_skipn, Hz. reflexivity.
      * intros out (L1 & L2 & L3). ret_now. repeat split.
        -- now constructor.
        -- cbn [length] in *. lia.
        -- cbn [positional] in *. rewrite L3. clear - K4. lia.
Qed.

(** ** Unsigned products *)

Lemma bignum_multiply_unsigned_ok x y neg :
  wf x -> wf y -> digits x <> [] -> digits y <> [] ->
  BIGNUM_LENGTH x + BIGNUM_LENGTH y <= BIGNUM_LENGTH_MAX ->
  returns (bignum_multiply_unsigned x y neg)
    (represents (if neg then - (magnitude x * magnitude y) else magnitude x * magnitude y)).
Proof.
  assert (M : forall x y, wf x -> wf y -> digits x <> [] -> digits y <> [] ->
    BIGNUM_LENGTH x + BIGNUM_LENGTH y <= BIGNUM_LENGTH_MAX ->
    returns (r <- bignum_allocate_zeroed (BIGNUM_LENGTH x + BIGNUM_LENGTH y) neg ;;
             rs <- multiply_rows (digits x) (digits y) (digits r) ;;
             Return (bignum_trim (Bignum (negative_p r) rs)))
      (represents (if neg then - (magnitude x * magnitude y) else magnitude x * magnitude y))).
  { clear. intros x y Hx Hy Nx Ny Hl. unfold BIGNUM_LENGTH in *.
    ret_step bignum_allocate_zeroed_ok; [lia|]. intros r ->. cbn [digits negative_p].
    ret_step multiply_rows_ok; try (now apply wf_digits); try assumption.
    - apply digits_below_zeros. rlia.
    - rewrite repeat_length. lia.
    - replace (Z.to_nat _) with (length (digits y) + length (digits x))%nat by lia.
      rewrite repeat_app, skipn_app, skipn_all2, repeat_length, Nat.sub_diag by (rewrite repeat_length; lia).
      reflexivity.
    - intros out (H1 & H2 & H3). rewrite positional_zeros, repeat_length in *. ret_now.
      replace (magnitude x * magnitude y) with (eval out) by (unfold magnitude; lia).
      apply bignum_trim_represents; [assumption|lia|]. intros ->. destruct (digits x); [congruence|].
      cbn [length] in H2. lia. }
  intros Hx Hy Nx Ny Hl. unfold bignum_multiply_unsigned. destruct (_ >? _); [|now apply M].
  rewrite (Z.mul_comm (magnitude x)). apply M; auto. lia.
Qed.

(** ** Scaling in place *)

Lemma scale_up_loop_ok factor ds : forall carry,
  0 <= factor < BIGNUM_RADIX_ROOT -> digits_ok ds -> 0 <= carry < BIGNUM_RADIX ->
  let '(out, c) := scale_up_loop factor ds carry in
  digits_ok out /\ 0 <= c /\ length out = length ds /\
  eval out + BIGNUM_RADIX ^ zlength ds * c = factor * eval ds + carry.
Proof.
  induction ds as [|d ds IH]; intros carry Hf Hd Hc.
  - cbn [scale_up_loop]. repeat split; auto; try lia. cbn [length positional].
    change (BIGNUM_RADIX ^ Z.of_nat 0) with 1. lia.
  - apply digits_below_cons in Hd as [Hd Hds]. cbn [scale_up_loop].
    destruct (multiply_step 0 factor 0 d carry) as (H1 & H2 & H3); try assumption; try rlia.
    cbv zeta in H1, H2, H3 |- *. rewrite !Z.add_0_l, ?Z.mul_0_l, ?Z.add_0_l, ?Z.mul_0_r, ?Z.add_0_r in *.
    set (pl := to_long (factor * HD_LOW d + HD_LOW carry)) in *.
    set (ph := to_long (factor * HD_HIGH d + HD_HIGH pl + HD_HIGH carry)) in *.
    assert (E : to_long (HD_HIGH ph) = HD_HIGH ph).
    { apply to_long_small. pose proof (to_long_range (factor * HD_HIGH d + HD_HIGH pl + HD_HIGH carry)) as Hr.
      fold ph in Hr. unfold long_p in Hr. rewrite HD_HIGH_div. clear - Hr. clearbody ph. radix. dlia. }
    rewrite E in *. specialize (IH (HD_HIGH ph) Hf Hds H2).
    destruct (scale_up_loop factor ds (HD_HIGH ph)) as [rest c]. destruct IH as (K1 & K2 & K3 & K4).
    repeat split; auto.
    + now constructor.
    + cbn [length]. lia.
    + cbn [length positional]. rewrite Nat2Z.inj_succ, Z.pow_succ_r by lia. nia.
Qed.

Lemma bignum_destructive_scale_up_ok b factor :
  1 < factor < BIGNUM_RADIX_ROOT -> digits_ok (digits b) ->
  factor * magnitude b < BIGNUM_RADIX ^ BIGNUM_LENGTH b ->
  returns (bignum_destructive_scale_up b factor)
    (fun r => negative_p r = negative_p b /\ digits_ok (digits r) /\
              BIGNUM_LENGTH r = BIGNUM_LENGTH b /\ magnitude r = factor * magnitude b).
Proof.
  intros Hf Hd Hlt. unfold bignum_destructive_scale_up. ret_assert; [lia|].
  pose proof (scale_up_loop_ok factor (digits b) 0) as L.
  destruct (scale_up_loop factor (digits b) 0) as [ds c].
  destruct L as (H1 & H2 & H3 & H4); try assumption; try rlia. unfold magnitude, BIGNUM_LENGTH in *.
  assert (c = 0) as ->.
  { pose proof (eval_nonneg ds H1). pose proof (radix_pow_pos (zlength (digits b))). nia. }
  ret_assert; [reflexivity|]. ret_now. cbn [digits negative_p]. repeat split; auto; lia.
Qed.

Lemma bignum_set_last neg ds d d' n :
  n = zlength ds -> bignum_set (Bignum neg (ds ++ [d])) n d' = Return (Bignum neg (ds ++ [d'])).
Proof.
  intros ->. unfold bignum_set, BIGNUM_LENGTH. cbn [digits negative_p]. rewrite length_app. cbn [length].
  replace (_ && _) with true by lia. rewrite Nat2Z.id, firstn_app, Nat.sub_diag, firstn_all.
  rewrite skipn_all2 by (rewrite length_app; cbn [length]; lia). now rewrite app_nil_r.
Qed.

(** [bignum_multiply_unsigned_small_factor] and the shifts copy a bignum into a
    longer one and clear its last digit. *)
Lemma copy_and_clear x n neg {A} (k : bignum -> outcome A) (P : A -> Prop) :
  n = BIGNUM_LENGTH x -> n + 1 <= BIGNUM_LENGTH_MAX ->
  returns (k (Bignum neg (digits x ++ [0]))) P ->
  returns (p <- bignum_allocate (n + 1) neg ;;
           p <- bignum_destructive_copy x p ;;
           p <- bignum_set p n 0 ;; k p) P.
Proof.
  intros -> Hl Hk. unfold bignum_destructive_copy. rewrite <- bind_assoc. unfold BIGNUM_LENGTH in *.
  ret_step allocate_and_store_but_one; [lia|reflexivity|]. intros p ->.
  now rewrite bignum_set_last by reflexivity.
Qed.

Lemma bignum_multiply_unsigned_small_factor_ok x y neg :
  wf x -> digits x <> [] -> 1 < y < BIGNUM_RADIX_ROOT -> room x ->
  returns (bignum_multiply_unsigned_small_factor x y neg)
    (represents (if neg then - (magnitude x * y) else magnitude x * y)).
Proof.
  intros Hx Hn Hy Hr. unfold bignum_multiply_unsigned_small_factor, room in *. pose proof (wf_digits x Hx) as Hd.
  apply copy_and_clear; [reflexivity|exact Hr|].
  assert (Hm : magnitude (Bignum neg (digits x ++ [0])) = magnitude x)
    by (unfold magnitude; cbn [digits]; rewrite eval_app; cbn [positional]; lia).
  pose proof (eval_upper _ Hd) as Hup. fold (magnitude x) in Hup.
  pose proof (magnitude_nonneg x Hx) as Hnn.
  ret_step bignum_destructive_scale_up_ok; [exact Hy| | |].
  - apply digits_below_app. split; [exact Hd|]. constructor; [rlia|constructor].
  - rewrite Hm. unfold BIGNUM_LENGTH. cbn [digits]. rewrite length_app. cbn [length].
    rewrite Nat2Z.inj_add, Z.pow_add_r, Z.pow_1_r by lia.
    rewrite (Z.mul_comm y). apply Z.mul_lt_mono_nonneg; rlia.
  - intros [n ds] (H1 & H2 & H3 & H4). cbn [negative_p digits] in H1, H2. subst n. ret_now.
    rewrite Hm, Z.mul_comm in H4. rewrite <- H4. unfold BIGNUM_LENGTH in H3. cbn [digits] in H3.
    rewrite length_app in H3. cbn [length] in H3. apply bignum_trim_represents; [assumption| |].
    + unfold BIGNUM_LENGTH in Hr. lia.
    + intros ->. cbn [length] in H3. lia.
Qed.

(** ** Adding a digit in place *)

Lemma add_one_loop_ok ds : digits_ok ds -> eval ds + 1 < BIGNUM_RADIX ^ zlength ds ->
  returns (add_one_loop ds)
    (fun out => digits_ok out /\ length out = length ds /\ eval out = eval ds + 1).
Proof.
  induction ds as [|d ds IH]; intros Hd Hlt; [cbn in Hlt; lia|].
  apply digits_below_cons in Hd as [Hd Hds]. cbn [add_one_loop length positional] in *.
  rewrite Nat2Z.inj_succ, Z.pow_succ_r in Hlt by lia.
  rewrite to_long_small by rlia. destruct (Z.ltb_spec (d + 1) BIGNUM_RADIX).
  - ret_now. cbn [length positional]. repeat split; try lia. constructor; [lia|assumption].
  - ret_step IH; auto; [rnia|]. intros out (H1 & H2 & H3). rewrite to_long_small by rlia. ret_now.
    cbn [length positional]. repeat split; try rlia. constructor; [rlia|assumption].
Qed.

Lemma bignum_destructive_add_ok b n :
  0 <= n < BIGNUM_RADIX -> digits_ok (digits b) -> digits b <> [] ->
  magnitude b + n < BIGNUM_RADIX ^ BIGNUM_LENGTH b ->
  returns (bignum_destructive_add b n)
    (fun r => negative_p r = negative_p b /\ digits_ok (digits r) /\
              BIGNUM_LENGTH r = BIGNUM_LENGTH b /\ magnitude r = magnitude b + n).
Proof.
  intros Hn Hd Hne Hlt. unfold bignum_destructive_add, magnitude, BIGNUM_LENGTH in *.
  destruct b as [s ds]. cbn [digits negative_p] in *. destruct ds as [|d ds]; [congruence|].
  apply digits_below_cons in Hd as [Hd Hds]. cbn [length positional] in *.
  rewrite Nat2Z.inj_succ, Z.pow_succ_r in Hlt by lia.
  rewrite to_long_small by rlia. destruct (Z.ltb_spec (d + n) BIGNUM_RADIX).
  - ret_now. cbn [digits negative_p length positional]. repeat split; try lia. constructor; [lia|assumption].
  - ret_step add_one_loop_ok; auto; [rnia|]. intros out (H1 & H2 & H3). rewrite to_long_small by rlia. ret_now.
    cbn [digits negative_p length positional]. repeat split; try rlia. constructor; [rlia|assumption].
Qed.

(** ** The signed product *)

(** A one-digit operand: either the fast path applies and is right, or the
    operand is not handled here. *)
Lemma multiply_by_single_digit_ok s o neg :
  wf s -> wf o -> digits s <> [] -> digits o <> [] -> room o ->
  match multiply_by_single_digit s o neg with
  | Some r => returns r (represents (if neg then - (magnitude s * magnitude o) else magnitude s * magnitude o))
  | None => True
  end.
Proof.
  intros Hs Ho Ns No Ro. unfold multiply_by_single_digit, BIGNUM_REF, BIGNUM_LENGTH.
  destruct (Z.eqb_spec (zlength (digits s)) 1) as [El|]; [|exact I].
  pose proof (wf_magnitude_pos s Hs Ns) as Hpos. pose proof (wf_digits s Hs) as Hd. unfold magnitude at 1 3.
  unfold magnitude in Hpos. destruct (digits s) as [|d [|d' ds]]; [congruence| |cbn [length] in El; lia].
  cbn [digit_ref nth_error Z.to_nat Z.ltb Z.compare positional] in *.
  replace (d + BIGNUM_RADIX * 0) with d in * by lia. apply digits_below_cons in Hd as [Hd _].
  destruct (Z.eqb_spec d 1) as [->|].
  - replace (1 * magnitude o) with (magnitude o) by lia. now apply bignum_maybe_new_sign_ok.
  - destruct (Z.ltb_spec d BIGNUM_RADIX_ROOT); [|exact I].
    rewrite (Z.mul_comm d). apply bignum_multiply_unsigned_small_factor_ok; auto. lia.
Qed.

Lemma bignum_multiply_ok x y : wf x -> wf y -> BIGNUM_LENGTH x + BIGNUM_LENGTH y <= BIGNUM_LENGTH_MAX ->
  returns (bignum_multiply x y) (represents (value x * value y)).
Proof.
  intros Hx Hy Hl. unfold bignum_multiply. rewrite !BIGNUM_ZERO_P_value by assumption.
  destruct (value_cases x Hx) as [(Ex & Dx & Sx)|(Ex & Dx & Mx)].
  { rewrite Ex. ret_now. split; [assumption|lia]. }
  destruct (Z.eqb_spec (value x) 0); [contradiction|].
  destruct (value_cases y Hy) as [(Ey & Dy & Sy)|(Ey & Dy & My)].
  { rewrite Ey. ret_now. split; [assumption|lia]. }
  destruct (Z.eqb_spec (value y) 0); [contradiction|].
  assert (Lx : 1 <= BIGNUM_LENGTH x) by (unfold BIGNUM_LENGTH; destruct (digits x); [congruence|cbn [length]; lia]).
  assert (Ly : 1 <= BIGNUM_LENGTH y) by (unfold BIGNUM_LENGTH; destruct (digits y); [congruence|cbn [length]; lia]).
  assert (Rx : room x) by (unfold room; lia). assert (Ry : room y) by (unfold room; lia).
  set (neg := if BIGNUM_NEGATIVE_P x then negb (BIGNUM_NEGATIVE_P y) else BIGNUM_NEGATIVE_P y).
  assert (V : value x * value y = if neg then - (magnitude x * magnitude y) else magnitude x * magnitude y).
  { subst neg. sign_cases x y; cbn [negb]; lia. }
  rewrite V.
  pose proof (multiply_by_single_digit_ok x y neg Hx Hy Dx Dy Ry) as S1.
  destruct (multiply_by_single_digit x y neg); [exact S1|].
  pose proof (multiply_by_single_digit_ok y x neg Hy Hx Dy Dx Rx) as S2.
  destruct (multiply_by_single_digit y x neg).
  - now rewrite (Z.mul_comm (magnitude x)).
  - now apply bignum_multiply_unsigned_ok.
Qed.

(** ** Properties *)

(** Bignum_multiply computes the product, by the one-digit shortcuts and by the half-digit schoolbook
    loops. *)
Theorem bignum_multiply_correct x y : wf x -> wf y -> BIGNUM_LENGTH x + BIGNUM_LENGTH y <= BIGNUM_LENGTH_MAX ->
  returns (bignum_multiply x y) (fun r => wf r /\ value r = value x * value y).
Proof. exact (bignum_multiply_ok x y). Qed.
