(* ===== verification/BignumDiv.v ===== *)
(** * bignum.c: division

    Knuth's algorithm D with digits divided by half digits.  The main lemmas
    say that [bignum_digit_divide] divides two digits by a normalized digit,
    that [trial_guess] finds the quotient digit or one more, that
    [bignum_divide_subtract] corrects it, and that [bignum_divide],
    [bignum_quotient] and [bignum_remainder] compute the truncated quotient and
    remainder, with the error returns on a zero denominator. *)

From Stdlib Require Import ZArith List Bool Lia.
From S2P Require Import Prelude Bits Bignum BignumAdd BignumMul.
Import ListNotations.

#[local] Open Scope Z_scope.
#[local] Open Scope microcode_scope.

(** ** Dividing two digits by one *)

(** C division of two [long]s: quotient and remainder; division by zero is undefined. *)
Definition c_divide (a b : Z) : outcome (Z * Z) :=
  if b =? 0 then Wild else Return (Z.quot a b, Z.rem a b).

Definition BDDS_MULSUB (guess vn un carry_in : Z) : Z * Z :=
  let product := to_long (vn * guess + carry_in) in
  let diff := to_long (un - HD_LOW product) in
  if diff <? 0
  then (to_long (diff + BIGNUM_RADIX_ROOT), to_long (HD_HIGH product + 1))
  else (diff, HD_HIGH product).

Definition BDDS_ADD (vn un carry_in : Z) : Z * Z :=
  let sum := to_long (vn + un + carry_in) in
  if sum <? BIGNUM_RADIX_ROOT then (sum, 0) else (to_long (sum - BIGNUM_RADIX_ROOT), 1).

(** Returns the quotient half digit and the new [u[0]], [u[1]], [u[2]]. *)
Definition bignum_digit_divide_subtract (v1 v2 guess u0 u1 u2 : Z) : Z * (Z * Z * Z) :=
  let '(u2, carry) := BDDS_MULSUB guess v2 u2 0 in
  let '(u1, carry) := BDDS_MULSUB guess v1 u1 carry in
  if carry =? 0 then (guess, (u0, u1, u2))
  else
    let diff := to_long (u0 - carry) in
    if diff <? 0
    then
      let u0 := to_long (diff + BIGNUM_RADIX) in
      let '(u2, carry) := BDDS_ADD v2 u2 0 in
      let '(u1, carry) := BDDS_ADD v1 u1 carry in
      let u0 := if carry =? 1 then to_long (u0 + 1) else u0 in
      (to_long (guess - 1), (u0, u1, u2))
    else (guess, (diff, u1, u2)).

(** The [while] loop of [BDD_STEP]. *)
Fixpoint BDD_guess (fuel : nat) (v1 v2 guess comparand : Z) : outcome Z :=
  if to_long (guess * v2) >? comparand
  then
    let guess := to_long (guess - 1) in
    let comparand := to_long (comparand + Z.shiftl v1 BIGNUM_HALF_DIGIT_LENGTH) in
    if comparand >=? BIGNUM_RADIX then Return guess
    else match fuel with
         | O => OutOfFuel
         | S fuel => BDD_guess fuel v1 v2 guess comparand
         end
  else Return guess.

Definition BDD_fuel : nat := 1.

Definition BDD_STEP (v1 v2 u0 u1 u2 : Z) : outcome (Z * (Z * Z * Z)) :=
  let uj := u0 in
  '(guess, comparand) <-
     (if negb (uj =? v1)
      then let uj_uj1 := HD_CONS uj u1 in
           '(quotient, remainder) <- c_divide uj_uj1 v1 ;;
           Return (quotient, HD_CONS remainder u2)
      else Return (BIGNUM_RADIX_ROOT - 1, HD_CONS (to_long (u1 + v1)) u2)) ;;
  guess <- BDD_guess BDD_fuel v1 v2 guess comparand ;;
  Return (bignum_digit_divide_subtract v1 v2 guess u0 u1 u2).

(** Returns the quotient [*q] and the remainder. *)
Definition bignum_digit_divide (uh ul v : Z) : outcome (Z * Z) :=
  if (uh =? 0) && (ul <? v) then Return (0, ul)
  else if (uh =? 0) && (ul =? v) then Return (1, 0)
  else
    let '(u0, u1, u2, u3) := (HD_HIGH uh, HD_LOW uh, HD_HIGH ul, HD_LOW ul) in
    let v1 := HD_HIGH v in
    let v2 := HD_LOW v in
    '(q1, (u0, u1, u2)) <- BDD_STEP v1 v2 u0 u1 u2 ;;
    '(q2, (u1, u2, u3)) <- BDD_STEP v1 v2 u1 u2 u3 ;;
    Return (HD_CONS q1 q2, HD_CONS u2 u3).

(** ** Normalization *)

(** [while (v1 < (BIGNUM_RADIX / 2)) { v1 <<= 1; shift += 1; }]: the shifted
    digit and the shift. *)
Fixpoint normalize_digit (fuel : nat) (v1 shift : Z) : outcome (Z * Z) :=
  if v1 <? BIGNUM_RADIX / 2
  then match fuel with
       | O => OutOfFuel
       | S fuel => normalize_digit fuel (to_long (Z.shiftl v1 1)) (shift + 1)
       end
  else Return (v1, shift).

(** Enough for every nonzero digit. *)
Definition normalize_fuel : nat := 61.

Fixpoint normalization_loop (shift_left : Z) (ds : list Z) (carry : Z) : list Z * Z :=
  let shift_right := BIGNUM_DIGIT_LENGTH - shift_left in
  let mask := to_ulong (to_ulong (Z.shiftl 1 shift_right) - 1) in
  match ds with
  | [] => ([], carry)
  | digit :: ds' =>
      let '(rest, c) := normalization_loop shift_left ds' (Z.shiftr digit shift_right) in
      (Z.lor (Z.shiftl (Z.land digit mask) shift_left) carry :: rest, c)
  end.

Definition bignum_destructive_normalization (source target : bignum) (shift_left : Z) : outcome bignum :=
  let '(ds, carry) := normalization_loop shift_left (digits source) 0 in
  if BIGNUM_LENGTH source <? BIGNUM_LENGTH target
  then store_digits target (ds ++ [carry])
  else
    target <- store_digits target ds ;;
    assert_that (carry =? 0) ;;
    Return target.

(** The scan goes from the most significant digit down. *)
Fixpoint unnormalization_loop (shift_right : Z) (ds : list Z) : list Z * Z :=
  let shift_left := BIGNUM_DIGIT_LENGTH - shift_right in
  let mask := to_ulong (to_ulong (Z.shiftl 1 shift_right) - 1) in
  match ds with
  | [] => ([], 0)
  | digit :: ds' =>
      let '(rest, carry) := unnormalization_loop shift_right ds' in
      (Z.lor (Z.shiftr digit shift_right) carry :: rest, Z.shiftl (Z.land digit mask) shift_left)
  end.

Definition bignum_destructive_unnormalization (b : bignum) (shift_right : Z) : outcome bignum :=
  let '(ds, carry) := unnormalization_loop shift_right (digits b) in
  assert_that (carry =? 0) ;;
  Return (Bignum (negative_p b) ds).

(** ** Division of a digit sequence by a normalized one *)

(** The first loop of [bignum_divide_subtract]: the digits written, the carry
    and the digits of [u] not reached. *)
Fixpoint subtract_multiple (gl gh : Z) (vs us : list Z) (carry : Z) {struct vs}
  : outcome (list Z * Z * list Z) :=
  match vs with
  | [] => Return ([], carry, us)
  | v :: vs' =>
      match us with
      | [] => Wild
      | u :: us' =>
          let vl := HD_LOW v in
          let vh := HD_HIGH v in
          let pl := to_long (vl * gl + HD_LOW carry) in
          let ph := to_long (vl * gh + vh * gl + HD_HIGH pl + HD_HIGH carry) in
          let diff := to_long (u - HD_CONS (HD_LOW ph) (HD_LOW pl)) in
          let '(u, carry) :=
            if diff <? 0
            then (to_long (diff + BIGNUM_RADIX), to_long (vh * gh + HD_HIGH ph + 1))
            else (diff, to_long (vh * gh + HD_HIGH ph)) in
          '(ds, carry, rest) <- subtract_multiple gl gh vs' us' carry ;;
          Return (u :: ds, carry, rest)
      end
  end.

(** Its second loop, which adds [v] back: the digits and the carry. *)
Fixpoint add_back (vs us : list Z) (carry : Z) {struct vs} : outcome (list Z * Z) :=
  match vs with
  | [] => Return ([], carry)
  | v :: vs' =>
      match us with
      | [] => Wild
      | u :: us' =>
          let sum := to_long (v + u + carry) in
          let '(u, carry) := if sum <? BIGNUM_RADIX then (sum, 0) else (to_long (sum - BIGNUM_RADIX), 1) in
          '(ds, carry) <- add_back vs' us' carry ;;
          Return (u :: ds, carry)
      end
  end.

(** [vs] are the digits of [v], [us] those of [u] from [u_start] on; returns the
    quotient digit and the new [us]. *)
Definition bignum_divide_subtract (vs : list Z) (guess : Z) (us : list Z) : outcome (Z * list Z) :=
  if guess =? 0 then Return (0, us)
  else
    '(ds, carry, rest) <- subtract_multiple (HD_LOW guess) (HD_HIGH guess) vs us 0 ;;
    if carry =? 0 then Return (guess, ds ++ rest)
    else
      match rest with
      | [] => Wild
      | u :: rest =>
          let diff := to_long (u - carry) in
          if diff <? 0
          then
            let u := to_long (diff + BIGNUM_RADIX) in
            '(ds, carry) <- add_back vs ds 0 ;;
            let u := if carry =? 1
                     then let sum := to_long (u + carry) in
                          if sum <? BIGNUM_RADIX then sum else to_long (sum - BIGNUM_RADIX)
                     else u in
            Return (to_long (guess - 1), ds ++ u :: rest)
          else Return (guess, ds ++ diff :: rest)
      end.

(** The inner [while (1)] loop of [bignum_divide_unsigned_normalized]. *)
Fixpoint trial_guess (fuel : nat) (v1 v2 guess ch cl : Z) : outcome Z :=
  let v2l := HD_LOW v2 in
  let v2h := HD_HIGH v2 in
  let gl := HD_LOW guess in
  let gh := HD_HIGH guess in
  let pl := to_long (v2l * gl) in
  let ph := to_long (v2l * gh + v2h * gl + HD_HIGH pl) in
  let pl := HD_CONS (HD_LOW ph) (HD_LOW pl) in
  let ph := to_long (v2h * gh + HD_HIGH ph) in
  if (ch >? ph) || ((ch =? ph) && (cl >=? pl)) then Return guess
  else
    let guess := to_long (guess - 1) in
    let ch := to_long (ch + v1) in
    if ch >=? BIGNUM_RADIX then Return guess
    else match fuel with
         | O => OutOfFuel
         | S fuel => trial_guess fuel v1 v2 guess ch cl
         end.

Definition trial_fuel : nat := 1.

(** One iteration of its outer loop, on the digits of [u] from [u_scan_start] on. *)
Definition divide_step (vs us : list Z) : outcome (Z * list Z) :=
  let v_length := zlength vs in
  v1 <- digit_ref vs (v_length - 1) ;;
  v2 <- digit_ref vs (v_length - 2) ;;
  uj <- digit_ref us v_length ;;
  cl <- digit_ref us (v_length - 2) ;;
  uj1 <- digit_ref us (v_length - 1) ;;
  '(guess, ch) <-
     (if negb (uj =? v1)
      then bignum_digit_divide uj uj1 v1
      else Return (BIGNUM_RADIX - 1, to_long (uj1 + v1))) ;;
  guess <- trial_guess trial_fuel v1 v2 guess ch cl ;;
  bignum_divide_subtract vs guess us.

(** The outer loop: [steps] quotient digits remain, the most significant first. *)
Fixpoint divide_loop (steps : nat) (vs us : list Z) : outcome (list Z * list Z) :=
  match steps with
  | O => Return ([], us)
  | S steps =>
      match us with
      | [] => Wild
      | u :: us =>
          '(qs, us) <- divide_loop steps vs us ;;
          '(qj, us) <- divide_step vs (u :: us) ;;
          Return (qj :: qs, us)
      end
  end.

(** Returns the new [u] and [q]; [None] is [BIGNUM_OUT_OF_BAND]. *)
Definition bignum_divide_unsigned_normalized (u v : bignum) (q : option bignum)
  : outcome (bignum * option bignum) :=
  let steps := Z.to_nat (BIGNUM_LENGTH u - BIGNUM_LENGTH v) in
  '(qs, us) <- divide_loop steps (digits v) (digits u) ;;
  q <- match q with
       | None => Return None
       | Some q => if Nat.leb (length qs) (length (digits q))
                   then Return (Some (Bignum (negative_p q)
                                        (firstn (length (digits q) - length qs) (digits q) ++ qs)))
                   else Wild
       end ;;
  Return (Bignum (negative_p u) us, q).

(** ** Unsigned division by denominators of each size

    A null [quotient] or [remainder] pointer is [false]; the results are
    [None] where the pointer is null. *)

Definition bignum_divide_unsigned_large_denominator
  (numerator denominator : bignum) (quotient remainder : bool) (q_negative_p r_negative_p : bool)
  : outcome (option bignum * option bignum) :=
  let length_n := BIGNUM_LENGTH numerator + 1 in
  let length_d := BIGNUM_LENGTH denominator in
  q <- (if quotient
        then q <- bignum_allocate (length_n - length_d) q_negative_p ;; Return (Some q)
        else Return None) ;;
  u <- bignum_allocate length_n r_negative_p ;;
  assert_that (length_d >? 1) ;;
  v1 <- BIGNUM_REF denominator (length_d - 1) ;;
  '(v1, shift) <- normalize_digit normalize_fuel v1 0 ;;
  '(u, q) <-
    (if shift =? 0
     then
       u <- bignum_destructive_copy numerator u ;;
       u <- bignum_set u (length_n - 1) 0 ;;
       bignum_divide_unsigned_normalized u denominator q
     else
       v <- bignum_allocate length_d false ;;
       u <- bignum_destructive_normalization numerator u shift ;;
       v <- bignum_destructive_normalization denominator v shift ;;
       '(u, q) <- bignum_divide_unsigned_normalized u v q ;;
       u <- (if remainder then bignum_destructive_unnormalization u shift else Return u) ;;
       Return (u, q)) ;;
  Return (option_map bignum_trim q, if remainder then Some (bignum_trim u) else None).

(** The loops of [bignum_divide_unsigned_medium_denominator], from the most
    significant digit down: the quotient digits and [r]. *)
Fixpoint medium_loop (denominator : Z) (ds : list Z) : outcome (list Z * Z) :=
  match ds with
  | [] => Return ([], 0)
  | d :: ds' =>
      '(qs, r) <- medium_loop denominator ds' ;;
      '(qj, r) <- bignum_digit_divide r d denominator ;;
      Return (qj :: qs, r)
  end.

Definition bignum_divide_unsigned_medium_denominator
  (numerator : bignum) (denominator : Z) (quotient remainder : bool) (q_negative_p r_negative_p : bool)
  : outcome (option bignum * option bignum) :=
  let length_n := BIGNUM_LENGTH numerator in
  '(denominator, shift) <- normalize_digit normalize_fuel denominator 0 ;;
  q <- (if shift =? 0
        then q <- bignum_allocate length_n q_negative_p ;; bignum_destructive_copy numerator q
        else q <- bignum_allocate (length_n + 1) q_negative_p ;;
             bignum_destructive_normalization numerator q shift) ;;
  '(qs, r) <- medium_loop denominator (digits q) ;;
  rem <- (if remainder
          then r <- bignum_digit_to_bignum (if negb (shift =? 0) then Z.shiftr r shift else r) r_negative_p ;;
               Return (Some r)
          else Return None) ;;
  Return (if quotient then Some (bignum_trim (Bignum (negative_p q) qs)) else None, rem).

Fixpoint scale_down_loop (denominator : Z) (ds : list Z) : list Z * Z :=
  match ds with
  | [] => ([], 0)
  | two_digits :: ds' =>
      let '(rest, remainder) := scale_down_loop denominator ds' in
      let numerator := HD_CONS remainder (HD_HIGH two_digits) in
      let quotient_high := Z.quot numerator denominator in
      let numerator := HD_CONS (Z.rem numerator denominator) (HD_LOW two_digits) in
      (HD_CONS quotient_high (Z.quot numerator denominator) :: rest, Z.rem numerator denominator)
  end.

(** Returns the scaled bignum and the remainder. *)
Definition bignum_destructive_scale_down (b : bignum) (denominator : Z) : outcome (bignum * Z) :=
  assert_that ((denominator >? 1) && (denominator <? BIGNUM_RADIX_ROOT)) ;;
  let '(ds, remainder) := scale_down_loop denominator (digits b) in
  Return (Bignum (negative_p b) ds, remainder).

Definition bignum_divide_unsigned_small_denominator
  (numerator : bignum) (denominator : Z) (remainder : bool) (q_negative_p r_negative_p : bool)
  : outcome (bignum * option bignum) :=
  q <- bignum_new_sign numerator q_negative_p ;;
  '(q, r) <- bignum_destructive_scale_down q denominator ;;
  rem <- (if remainder
          then r <- bignum_digit_to_bignum r r_negative_p ;; Return (Some r)
          else Return None) ;;
  Return (bignum_trim q, rem).

Fixpoint remainder_small_loop (d : Z) (ds : list Z) : Z :=
  match ds with
  | [] => 0
  | two_digits :: ds' =>
      let r := remainder_small_loop d ds' in
      Z.rem (HD_CONS (Z.rem (HD_CONS r (HD_HIGH two_digits)) d) (HD_LOW two_digits)) d
  end.

Definition bignum_remainder_unsigned_small_denominator (n : bignum) (d : Z) (neg : bool) : outcome bignum :=
  assert_that ((d >? 1) && (d <? BIGNUM_RADIX_ROOT)) ;;
  bignum_digit_to_bignum (remainder_small_loop d (digits n)) neg.

(** ** Signed division *)

(** A result the code reads through a pointer it passed. *)
Definition out_parameter {A} (o : option A) : outcome A :=
  match o with Some a => Return a | None => Wild end.

(** [None] is the error return 1; [Some (quotient, remainder)] the return 0. *)
Definition bignum_divide (numerator denominator : bignum) : outcome (option (bignum * bignum)) :=
  if BIGNUM_ZERO_P denominator then Return None
  else if BIGNUM_ZERO_P numerator then Return (Some (numerator, numerator))
  else
    let r_negative_p := BIGNUM_NEGATIVE_P numerator in
    let q_negative_p := if BIGNUM_NEGATIVE_P denominator then negb r_negative_p else r_negative_p in
    let large :=
      '(q, r) <- bignum_divide_unsigned_large_denominator
                   numerator denominator true true q_negative_p r_negative_p ;;
      q <- out_parameter q ;; r <- out_parameter r ;; Return (Some (q, r)) in
    match bignum_compare_unsigned numerator denominator with
    | bignum_comparison_equal => Return (Some (BIGNUM_ONE q_negative_p, BIGNUM_ZERO))
    | bignum_comparison_less => Return (Some (BIGNUM_ZERO, numerator))
    | bignum_comparison_greater =>
        if BIGNUM_LENGTH denominator =? 1
        then
          digit <- BIGNUM_REF denominator 0 ;;
          if digit =? 1
          then q <- bignum_maybe_new_sign numerator q_negative_p ;; Return (Some (q, BIGNUM_ZERO))
          else if digit <? BIGNUM_RADIX_ROOT
          then '(q, r) <- bignum_divide_unsigned_small_denominator
                            numerator digit true q_negative_p r_negative_p ;;
               r <- out_parameter r ;; Return (Some (q, r))
          else '(q, r) <- bignum_divide_unsigned_medium_denominator
                            numerator digit true true q_negative_p r_negative_p ;;
               q <- out_parameter q ;; r <- out_parameter r ;; Return (Some (q, r))
        else large
    end.

(** [None] is [BIGNUM_OUT_OF_BAND]. *)
Definition bignum_quotient (numerator denominator : bignum) : outcome (option bignum) :=
  if BIGNUM_ZERO_P denominator then Return None
  else if BIGNUM_ZERO_P numerator then Return (Some numerator)
  else
    let q_negative_p := if BIGNUM_NEGATIVE_P denominator
                        then negb (BIGNUM_NEGATIVE_P numerator) else BIGNUM_NEGATIVE_P numerator in
    match bignum_compare_unsigned numerator denominator with
    | bignum_comparison_equal => Return (Some (BIGNUM_ONE q_negative_p))
    | bignum_comparison_less => Return (Some BIGNUM_ZERO)
    | bignum_comparison_greater =>
        quotient <-
          (if BIGNUM_LENGTH denominator =? 1
           then
             digit <- BIGNUM_REF denominator 0 ;;
             if digit =? 1 then bignum_maybe_new_sign numerator q_negative_p
             else if digit <? BIGNUM_RADIX_ROOT
             then '(q, _) <- bignum_divide_unsigned_small_denominator
                               numerator digit false q_negative_p false ;; Return q
             else '(q, _) <- bignum_divide_unsigned_medium_denominator
                               numerator digit true false q_negative_p false ;; out_parameter q
           else '(q, _) <- bignum_divide_unsigned_large_denominator
                             numerator denominator true false q_negative_p false ;; out_parameter q) ;;
        Return (Some quotient)
    end.

Definition bignum_remainder (numerator denominator : bignum) : outcome (option bignum) :=
  if BIGNUM_ZERO_P denominator then Return None
  else if BIGNUM_ZERO_P numerator then Return (Some numerator)
  else
    match bignum_compare_unsigned numerator denominator with
    | bignum_comparison_equal => Return (Some BIGNUM_ZERO)
    | bignum_comparison_less => Return (Some numerator)
    | bignum_comparison_greater =>
        remainder <-
          (if BIGNUM_LENGTH denominator =? 1
           then
             digit <- BIGNUM_REF denominator 0 ;;
             if Z.land digit (to_long (digit - 1)) =? 0
             then
               if BIGNUM_LENGTH numerator =? 0 then Return BIGNUM_ZERO
               else
                 low <- BIGNUM_REF numerator 0 ;;
                 let unsigned_remainder := Z.land (to_long (digit - 1)) low in
                 if unsigned_remainder =? 0 then Return BIGNUM_ZERO
                 else bignum_digit_to_bignum unsigned_remainder (BIGNUM_NEGATIVE_P numerator)
             else if digit <? BIGNUM_RADIX_ROOT
             then bignum_remainder_unsigned_small_denominator numerator digit (BIGNUM_NEGATIVE_P numerator)
             else '(_, r) <- bignum_divide_unsigned_medium_denominator
                               numerator digit false true false (BIGNUM_NEGATIVE_P numerator) ;;
                  out_parameter r
           else '(_, r) <- bignum_divide_unsigned_large_denominator
                             numerator denominator false true false (BIGNUM_NEGATIVE_P numerator) ;;
                out_parameter r) ;;
        Return (Some remainder)
    end.

(** ** The trial quotient, for any base

    [u3] are the three leading digits of the dividend window, [v1 v2] the two of
    the divisor.  [trial b v1 v2 u3 guess] holds of a guess that is at least the
    quotient digit; one that also satisfies [guess * v <= u3] is exact for the
    leading digits unless it is the largest digit. *)

Definition upper_guess (b v1 v2 u3 guess : Z) : Prop :=
  0 <= guess < b /\ 0 <= u3 - guess * v1 * b /\
  (guess = b - 1 \/ u3 < (guess + 1) * (v1 * b + v2)).

Lemma upper_guess_decrement b v1 v2 u3 guess :
  0 < b -> 0 <= v1 -> 0 <= v2 -> upper_guess b v1 v2 u3 guess -> guess * v2 > u3 - guess * v1 * b ->
  upper_guess b v1 v2 u3 (guess - 1).
Proof. intros Hb H1 H2 (G1 & G2 & G3) Hg. unfold upper_guess. repeat split; try nia. Qed.

(** The initial guess, when the leading digits differ: divide by [v1]. *)
Lemma upper_guess_quotient b v1 v2 u0 u1 u2 q r :
  0 < v1 < b -> 0 <= v2 < b -> 0 <= u0 < v1 -> 0 <= u1 < b -> 0 <= u2 < b ->
  u0 * b + u1 = q * v1 + r -> 0 <= r < v1 ->
  upper_guess b v1 v2 ((u0 * b + u1) * b + u2) q.
Proof.
  intros Hv1 Hv2 H0 H1 H2 E Hr. assert (0 <= q < b) by nia.
  unfold upper_guess. repeat split; try lia; [nia|]. right. nia.
Qed.

Lemma upper_guess_largest b v1 v2 u1 u2 :
  0 < v1 < b -> 0 <= v2 < b -> 0 <= u1 < b -> 0 <= u2 < b ->
  upper_guess b v1 v2 ((v1 * b + u1) * b + u2) (b - 1).
Proof. intros. unfold upper_guess. repeat split; try lia; nia. Qed.

(** ** [bignum_digit_divide] *)

Lemma half_product a b :
  0 <= a < BIGNUM_RADIX_ROOT -> 0 <= b < BIGNUM_RADIX_ROOT ->
  0 <= a * b <= (BIGNUM_RADIX_ROOT - 1) * (BIGNUM_RADIX_ROOT - 1).
Proof. rnia. Qed.

Lemma BDD_guess_ok fuel : forall v1 v2 u3 guess,
  0 <= v1 < BIGNUM_RADIX_ROOT -> 0 <= v2 < BIGNUM_RADIX_ROOT ->
  upper_guess BIGNUM_RADIX_ROOT v1 v2 u3 guess ->
  u3 - guess * v1 * BIGNUM_RADIX_ROOT < 2 ^ 63 ->
  BIGNUM_RADIX <= u3 - guess * v1 * BIGNUM_RADIX_ROOT + (Z.of_nat fuel + 1) * (v1 * BIGNUM_RADIX_ROOT) ->
  returns (BDD_guess fuel v1 v2 guess (u3 - guess * v1 * BIGNUM_RADIX_ROOT))
    (fun g => upper_guess BIGNUM_RADIX_ROOT v1 v2 u3 g /\ g * (v1 * BIGNUM_RADIX_ROOT + v2) <= u3).
Proof.
  induction fuel as [|fuel IH]; intros v1 v2 u3 guess Hv1 Hv2 Hg Hc Hf; pose proof Hg as (G1 & G2 & _);
    pose proof (half_product guess v2 G1 Hv2) as Hp;
    remember (u3 - guess * v1 * BIGNUM_RADIX_ROOT) as comparand eqn:Ec;
    cbn [BDD_guess]; rewrite (to_long_small (guess * v2)) by rlia; rewrite Z.gtb_ltb;
    (destruct (Z.ltb_spec comparand (guess * v2)) as [Hlt|]; [|ret_now; split; [exact Hg|lia]]);
    (assert (Hg' : upper_guess BIGNUM_RADIX_ROOT v1 v2 u3 (guess - 1))
      by (apply upper_guess_decrement; auto; rlia));
    pose proof Hg' as (K1 & K2 & _);
    pose proof (half_product (guess - 1) v2 K1 Hv2) as Hp';
    rewrite Z.shiftl_mul_pow2 by (radix; lia); change (2 ^ BIGNUM_HALF_DIGIT_LENGTH) with BIGNUM_RADIX_ROOT;
    rewrite !to_long_small by rlia;
    rewrite Z.geb_leb; destruct (Z.leb_spec BIGNUM_RADIX (comparand + v1 * BIGNUM_RADIX_ROOT)) as [Hge|Hlt2].
  1, 3: ret_now; split; [exact Hg'|rlia].
  - rlia.
  - replace (comparand + v1 * BIGNUM_RADIX_ROOT) with (u3 - (guess - 1) * v1 * BIGNUM_RADIX_ROOT) by lia.
    apply IH; auto; rlia.
Qed.

Lemma BDDS_MULSUB_ok guess vn un c :
  0 <= guess < BIGNUM_RADIX_ROOT -> 0 <= vn < BIGNUM_RADIX_ROOT ->
  0 <= un < BIGNUM_RADIX_ROOT -> 0 <= c < BIGNUM_RADIX_ROOT ->
  let '(un', c') := BDDS_MULSUB guess vn un c in
  0 <= un' < BIGNUM_RADIX_ROOT /\ 0 <= c' < BIGNUM_RADIX_ROOT /\
  un' - BIGNUM_RADIX_ROOT * c' = un - (vn * guess + c).
Proof.
  intros Hg Hv Hu Hc. unfold BDDS_MULSUB. pose proof (half_product vn guess Hv Hg) as Hp.
  rewrite (to_long_small (vn * guess + c)) by rlia.
  set (product := vn * guess + c) in *.
  pose proof (HD_split product) as E. pose proof (HD_LOW_range product) as Hl.
  assert (Hh : 0 <= HD_HIGH product < BIGNUM_RADIX_ROOT) by (apply HD_HIGH_range; rlia).
  rewrite !to_long_small by rlia. zcases; repeat split; rlia.
Qed.

(** An exact guess never needs the addition. *)
Lemma bignum_digit_divide_subtract_ok v1 v2 guess u0 u1 u2 :
  0 <= guess < BIGNUM_RADIX_ROOT -> 0 <= v1 < BIGNUM_RADIX_ROOT -> 0 <= v2 < BIGNUM_RADIX_ROOT ->
  0 <= u0 < BIGNUM_RADIX_ROOT -> 0 <= u1 < BIGNUM_RADIX_ROOT -> 0 <= u2 < BIGNUM_RADIX_ROOT ->
  let u := (u0 * BIGNUM_RADIX_ROOT + u1) * BIGNUM_RADIX_ROOT + u2 in
  let v := v1 * BIGNUM_RADIX_ROOT + v2 in
  0 <= u - guess * v < v ->
  exists u1' u2', bignum_digit_divide_subtract v1 v2 guess u0 u1 u2 = (guess, (0, u1', u2')) /\
    0 <= u1' < BIGNUM_RADIX_ROOT /\ 0 <= u2' < BIGNUM_RADIX_ROOT /\
    u1' * BIGNUM_RADIX_ROOT + u2' = u - guess * v.
Proof.
  intros Hg Hv1 Hv2 H0 H1 H2 u v Hr. unfold bignum_digit_divide_subtract.
  pose proof (BDDS_MULSUB_ok guess v2 u2 0 Hg Hv2 H2) as M2.
  destruct (BDDS_MULSUB guess v2 u2 0) as [u2' c2]. destruct M2 as (A1 & A2 & A3); [rlia|].
  pose proof (BDDS_MULSUB_ok guess v1 u1 c2 Hg Hv1 H1 A2) as M1.
  destruct (BDDS_MULSUB guess v1 u1 c2) as [u1' c1]. destruct M1 as (B1 & B2 & B3).
  assert (E : (u0 - c1) * BIGNUM_RADIX + (u1' * BIGNUM_RADIX_ROOT + u2') = u - guess * v)
    by (subst u v; clear - A3 B3; radix; lia).
  assert (Hv : v < BIGNUM_RADIX) by (subst v; rlia).
  assert (c1 = u0) as -> by (clear - E Hr Hv B1 A1; clearbody u v; rnia).
  exists u1', u2'. rewrite Z.sub_diag in *. cbn [to_long]. destruct (Z.eqb_spec u0 0) as [->|].
  - repeat split; auto; rlia.
  - change (to_long 0) with 0. cbn [Z.ltb Z.compare]. repeat split; auto; rlia.
Qed.

(** One half digit of the quotient. *)
Lemma BDD_STEP_ok v1 v2 u0 u1 u2 :
  BIGNUM_RADIX_ROOT / 2 <= v1 < BIGNUM_RADIX_ROOT -> 0 <= v2 < BIGNUM_RADIX_ROOT ->
  0 <= u0 -> 0 <= u1 < BIGNUM_RADIX_ROOT -> 0 <= u2 < BIGNUM_RADIX_ROOT ->
  u0 * BIGNUM_RADIX_ROOT + u1 < v1 * BIGNUM_RADIX_ROOT + v2 ->
  returns (BDD_STEP v1 v2 u0 u1 u2)
    (fun '(q, (u0', u1', u2')) =>
       0 <= q < BIGNUM_RADIX_ROOT /\ u0' = 0 /\
       0 <= u1' < BIGNUM_RADIX_ROOT /\ 0 <= u2' < BIGNUM_RADIX_ROOT /\
       (u0 * BIGNUM_RADIX_ROOT + u1) * BIGNUM_RADIX_ROOT + u2
         = q * (v1 * BIGNUM_RADIX_ROOT + v2) + (u1' * BIGNUM_RADIX_ROOT + u2') /\
       u1' * BIGNUM_RADIX_ROOT + u2' < v1 * BIGNUM_RADIX_ROOT + v2).
Proof.
  intros Hv1 Hv2 H0 H1 H2 Hlt. change (BIGNUM_RADIX_ROOT / 2) with 1073741824 in Hv1.
  set (u := (u0 * BIGNUM_RADIX_ROOT + u1) * BIGNUM_RADIX_ROOT + u2).
  assert (Hu0 : u0 <= v1) by rnia. unfold BDD_STEP.
  assert (Hv1' : 0 < v1 < BIGNUM_RADIX_ROOT) by lia.
  eapply returns_bind with (P := fun '(guess, comparand) =>
    upper_guess BIGNUM_RADIX_ROOT v1 v2 u guess /\ comparand = u - guess * v1 * BIGNUM_RADIX_ROOT /\
    comparand < 2 ^ 63).
  - destruct (Z.eqb_spec u0 v1) as [->|Hne]; cbn [negb].
    + ret_now. rewrite to_long_small by rlia. rewrite HD_CONS_sum by assumption.
      split; [apply upper_guess_largest; rlia|]. subst u. split; rlia.
    + unfold c_divide. destruct (Z.eqb_spec v1 0); [rlia|]. cbn [bind]. ret_now.
      rewrite HD_CONS_sum by assumption. rewrite HD_CONS_sum by assumption.
      assert (0 <= u1 + BIGNUM_RADIX_ROOT * u0) by rlia.
      pose proof (Z.quot_rem' (u1 + BIGNUM_RADIX_ROOT * u0) v1) as E.
      pose proof (Z.rem_bound_pos (u1 + BIGNUM_RADIX_ROOT * u0) v1) as B.
      set (q := Z.quot _ _) in *. set (r := Z.rem _ _) in *. clearbody q r.
      split; [apply upper_guess_quotient with r; rlia|]. subst u. split; rlia.
  - intros [guess comparand] (G & -> & Hc).
    ret_step BDD_guess_ok; auto; try lia.
    { pose proof G as (G1 & G2 & _). change (Z.of_nat BDD_fuel) with 1. clear - G2 Hv1. clearbody u. rlia. }
    intros g ((G1 & G2 & G3) & G4). ret_now.
    assert (Hex : 0 <= u - g * (v1 * BIGNUM_RADIX_ROOT + v2) < v1 * BIGNUM_RADIX_ROOT + v2).
    { split; [lia|]. destruct G3 as [->|]; [subst u; rnia|lia]. }
    destruct (bignum_digit_divide_subtract_ok v1 v2 g u0 u1 u2) as (u1' & u2' & -> & A1 & A2 & A3);
      try assumption; rlia.
Qed.

Lemma bignum_digit_divide_ok uh ul v :
  BIGNUM_RADIX / 2 <= v < BIGNUM_RADIX -> 0 <= uh < v -> 0 <= ul < BIGNUM_RADIX ->
  returns (bignum_digit_divide uh ul v)
    (fun '(q, r) => 0 <= q < BIGNUM_RADIX /\ 0 <= r < v /\ uh * BIGNUM_RADIX + ul = q * v + r).
Proof.
  intros Hv Huh Hul. change (BIGNUM_RADIX / 2) with 2305843009213693952 in Hv. unfold bignum_digit_divide.
  destruct ((uh =? 0) && (ul <? v)) eqn:C1; [ret_now; repeat split; rlia|].
  destruct ((uh =? 0) && (ul =? v)) eqn:C2; [ret_now; repeat split; rlia|]. clear C1 C2.
  pose proof (HD_split uh) as Eh. pose proof (HD_split ul) as El. pose proof (HD_split v) as Ev.
  pose proof (HD_LOW_range uh). pose proof (HD_LOW_range ul). pose proof (HD_LOW_range v).
  assert (0 <= HD_HIGH uh < BIGNUM_RADIX_ROOT) by (apply HD_HIGH_digit; lia).
  assert (0 <= HD_HIGH ul < BIGNUM_RADIX_ROOT) by (apply HD_HIGH_digit; lia).
  assert (0 <= HD_HIGH v < BIGNUM_RADIX_ROOT) by (apply HD_HIGH_digit; lia).
  assert (Hv1 : BIGNUM_RADIX_ROOT / 2 <= HD_HIGH v < BIGNUM_RADIX_ROOT).
  { change (BIGNUM_RADIX_ROOT / 2) with 1073741824. rlia. }
  ret_step BDD_STEP_ok; [exact Hv1|rlia..|]. intros [q1 [[u0 u1] u2]] (Hq1 & -> & Hu1 & Hu2 & E1 & L1).
  ret_step BDD_STEP_ok; [exact Hv1|rlia..|]. intros [q2 [[u1' u2'] u3]] (Hq2 & -> & Hu2' & Hu3 & E2 & L2).
  ret_now. rewrite !HD_CONS_sum by assumption. repeat split; rlia.
Qed.

(** ** Normalization *)

Lemma normalize_digit_ok fuel : forall v shift,
  0 < v < BIGNUM_RADIX -> BIGNUM_RADIX / 2 <= v * 2 ^ Z.of_nat fuel ->
  returns (normalize_digit fuel v shift)
    (fun '(v', s) => shift <= s <= shift + Z.of_nat fuel /\ v' = v * 2 ^ (s - shift) /\
                     BIGNUM_RADIX / 2 <= v' < BIGNUM_RADIX).
Proof.
  assert (D : forall fuel v shift, BIGNUM_RADIX / 2 <= v < BIGNUM_RADIX ->
    shift <= shift <= shift + Z.of_nat fuel /\ v = v * 2 ^ (shift - shift) /\ BIGNUM_RADIX / 2 <= v < BIGNUM_RADIX).
  { intros. rewrite Z.sub_diag. change (2 ^ 0) with 1. lia. }
  induction fuel as [|fuel IH]; intros v shift Hv Hf; cbn [normalize_digit];
    destruct (Z.ltb_spec v (BIGNUM_RADIX / 2)); try (ret_now; apply D; lia).
  - change (2 ^ Z.of_nat 0) with 1 in Hf. lia.
  - rewrite Nat2Z.inj_succ, Z.pow_succ_r in Hf by lia. rewrite Z.shiftl_mul_pow2 by lia. change (2 ^ 1) with 2.
    change (BIGNUM_RADIX / 2) with 2305843009213693952 in *. rewrite to_long_small by rlia.
    ret_step IH; [rlia|lia|]. intros [v' s] (H1 & H2 & H3). split; [lia|]. split; [|exact H3].
    rewrite H2. replace (s - shift) with (Z.succ (s - (shift + 1))) by lia. rewrite Z.pow_succ_r by lia. lia.
Qed.

Lemma normalize_fuel_ok v : 0 < v < BIGNUM_RADIX ->
  returns (normalize_digit normalize_fuel v 0)
    (fun '(v', s) => 0 <= s <= 61 /\ v' = v * 2 ^ s /\ BIGNUM_RADIX / 2 <= v' < BIGNUM_RADIX).
Proof.
  intros Hv. ret_step normalize_digit_ok; [exact Hv| |].
  - change (2 ^ Z.of_nat normalize_fuel) with 2305843009213693952.
    change (BIGNUM_RADIX / 2) with 2305843009213693952. lia.
  - intros [v' s]. rewrite Z.sub_0_r. change (0 + Z.of_nat normalize_fuel) with 61. exact id.
Qed.

(** The mask [(1UL << n) - 1UL]. *)
Lemma digit_mask n d : 0 <= n < 62 ->
  Z.land d (to_ulong (to_ulong (Z.shiftl 1 n) - 1)) = d mod 2 ^ n.
Proof.
  intros Hn. rewrite Z.shiftl_mul_pow2, Z.mul_1_l by lia.
  pose proof (Z.pow_lt_mono_r 2 n 64) as H64. pose proof (Z.pow_pos_nonneg 2 n).
  rewrite (to_ulong_small (2 ^ n)) by lia. rewrite to_ulong_small by lia.
  apply land_mask; [lia|reflexivity].
Qed.

(** A power of two that divides the radix. *)
Lemma radix_split s : 0 <= s <= 62 -> BIGNUM_RADIX = 2 ^ s * 2 ^ (62 - s).
Proof. intros. rewrite <- Z.pow_add_r by lia. now replace (s + (62 - s)) with 62 by lia. Qed.

Lemma shift_in s carry lo : 0 <= s -> 0 <= carry < 2 ^ s -> Z.lor (Z.shiftl lo s) carry = carry + 2 ^ s * lo.
Proof.
  intros Hs Hc. rewrite Z.shiftl_mul_pow2, Z.lor_comm by lia.
  replace (lo * 2 ^ s) with (0 + 2 ^ s * lo) by lia. replace carry with (carry + 2 ^ s * 0) at 1 by lia.
  rewrite lor_split, Z.lor_0_l, Z.lor_0_r by lia. reflexivity.
Qed.

Lemma normalization_loop_ok s ds : forall carry,
  1 <= s <= 61 -> digits_ok ds -> 0 <= carry < 2 ^ s ->
  let '(out, c) := normalization_loop s ds carry in
  digits_ok out /\ length out = length ds /\ 0 <= c < 2 ^ s /\
  eval out + BIGNUM_RADIX ^ zlength ds * c = eval ds * 2 ^ s + carry.
Proof.
  induction ds as [|d ds IH]; intros carry Hs Hd Hc; cbn [normalization_loop].
  - repeat split; auto; try lia. cbn [length positional]. change (BIGNUM_RADIX ^ Z.of_nat 0) with 1. lia.
  - apply digits_below_cons in Hd as [Hd Hds]. change BIGNUM_DIGIT_LENGTH with 62.
    rewrite digit_mask, shift_in, Z.shiftr_div_pow2 by lia.
    pose proof (radix_split s ltac:(lia)) as R. pose proof (Z.pow_pos_nonneg 2 s).
    pose proof (Z.pow_pos_nonneg 2 (62 - s)) as Hp.
    pose proof (Z.div_mod d (2 ^ (62 - s))) as E. pose proof (Z.mod_pos_bound d (2 ^ (62 - s))) as Hm.
    assert (Hq : 0 <= d / 2 ^ (62 - s) < 2 ^ s)
      by (split; [apply Z.div_pos|apply Z.div_lt_upper_bound]; lia).
    set (q := d / 2 ^ (62 - s)) in *. set (m := d mod 2 ^ (62 - s)) in *. clearbody q m.
    specialize (IH q Hs Hds Hq). destruct (normalization_loop s ds q) as [rest c].
    destruct IH as (K1 & K2 & K3 & K4). cbn [length]. repeat split; try lia.
    + constructor; [nia|assumption].
    + cbn [positional]. rewrite Nat2Z.inj_succ, Z.pow_succ_r by lia.
      replace d with (2 ^ (62 - s) * q + m) by lia. rewrite R in *. nia.
Qed.

Lemma unnormalization_loop_ok s ds :
  1 <= s <= 61 -> digits_ok ds ->
  let '(out, carry) := unnormalization_loop s ds in
  digits_ok out /\ length out = length ds /\
  exists c, carry = 2 ^ (62 - s) * c /\ 0 <= c < 2 ^ s /\ 2 ^ s * eval out + c = eval ds.
Proof.
  intros Hs. pose proof (radix_split s ltac:(lia)) as R. pose proof (Z.pow_pos_nonneg 2 s).
  pose proof (Z.pow_pos_nonneg 2 (62 - s)) as Hp.
  induction ds as [|d ds IH]; intros Hd; cbn [unnormalization_loop].
  - repeat split; auto. exists 0. cbn [positional]. lia.
  - apply digits_below_cons in Hd as [Hd Hds]. change BIGNUM_DIGIT_LENGTH with 62.
    destruct (unnormalization_loop s ds) as [rest carry]. destruct (IH Hds) as (K1 & K2 & c & -> & K3 & K4).
    pose proof (Z.div_mod d (2 ^ s)) as E. pose proof (Z.mod_pos_bound d (2 ^ s)) as Hm.
    assert (Hq : 0 <= d / 2 ^ s < 2 ^ (62 - s))
      by (split; [apply Z.div_pos|apply Z.div_lt_upper_bound]; lia).
    replace (2 ^ (62 - s) * c) with (Z.shiftl c (62 - s)) by (rewrite Z.shiftl_mul_pow2; lia).
    rewrite digit_mask, Z.lor_comm, shift_in by (rewrite ?Z.shiftr_div_pow2; lia).
    rewrite Z.shiftr_div_pow2, Z.shiftl_mul_pow2 by lia.
    set (q := d / 2 ^ s) in *. set (m := d mod 2 ^ s) in *. clearbody q m.
    cbn [length]. repeat split; try lia.
    + constructor; [nia|assumption].
    + exists m. split; [lia|]. split; [lia|]. cbn [positional]. rewrite R in *. nia.
Qed.

(** ** Subtracting a multiple of the divisor *)

(** The double-digit product of one step of [bignum_divide_subtract]. *)
Lemma subtract_step g v c :
  0 <= g < BIGNUM_RADIX -> 0 <= v < BIGNUM_RADIX -> 0 <= c < BIGNUM_RADIX ->
  let pl := to_long (HD_LOW v * HD_LOW g + HD_LOW c) in
  let ph := to_long (HD_LOW v * HD_HIGH g + HD_HIGH v * HD_LOW g + HD_HIGH pl + HD_HIGH c) in
  let d := HD_CONS (HD_LOW ph) (HD_LOW pl) in
  let c' := HD_HIGH v * HD_HIGH g + HD_HIGH ph in
  0 <= d < BIGNUM_RADIX /\ 0 <= c' < BIGNUM_RADIX /\ d + BIGNUM_RADIX * c' = g * v + c.
Proof.
  intros Hg Hv Hc.
  destruct (multiply_step 0 (HD_LOW g) (HD_HIGH g) v c) as (H1 & H2 & H3);
    try assumption; auto using HD_LOW_range, HD_HIGH_digit; try rlia.
  cbv zeta in *. rewrite <- HD_split, !Z.add_0_l in H3. rewrite !Z.add_0_l in H1, H2.
  rewrite (Z.mul_comm (HD_LOW v) (HD_LOW g)), (Z.mul_comm (HD_LOW v) (HD_HIGH g)),
    (Z.mul_comm (HD_HIGH v) (HD_LOW g)), (Z.mul_comm (HD_HIGH v) (HD_HIGH g)).
  set (pl := to_long (HD_LOW g * HD_LOW v + HD_LOW c)) in *.
  set (ph := to_long (HD_HIGH g * HD_LOW v + HD_LOW g * HD_HIGH v + HD_HIGH pl + HD_HIGH c)) in *.
  assert (E : to_long (HD_HIGH g * HD_HIGH v + HD_HIGH ph) = HD_HIGH g * HD_HIGH v + HD_HIGH ph).
  { apply to_long_small. pose proof (half_product _ _ (HD_HIGH_digit g Hg) (HD_HIGH_digit v Hv)).
    pose proof (to_long_range (HD_HIGH g * HD_LOW v + HD_LOW g * HD_HIGH v + HD_HIGH pl + HD_HIGH c)) as Hr.
    fold ph in Hr. unfold long_p in Hr. rewrite (HD_HIGH_div ph). clearbody ph. radix. dlia. }
  rewrite E in *. repeat split; try tauto; lia.
Qed.

Lemma subtract_multiple_ok g vs : forall us c,
  0 <= g < BIGNUM_RADIX -> digits_ok vs -> digits_ok us -> 0 <= c < BIGNUM_RADIX ->
  (length vs <= length us)%nat ->
  returns (subtract_multiple (HD_LOW g) (HD_HIGH g) vs us c)
    (fun '(ds, c', rest) =>
       digits_ok ds /\ 0 <= c' < BIGNUM_RADIX /\ length ds = length vs /\ rest = skipn (length vs) us /\
       eval ds - BIGNUM_RADIX ^ zlength vs * c' = eval (firstn (length vs) us) - (g * eval vs + c)).
Proof.
  induction vs as [|v vs IH]; intros us c Hg Hv Hu Hc Hl.
  - cbn [subtract_multiple]. ret_now. repeat split; auto; try lia. cbn [length positional firstn].
    change (BIGNUM_RADIX ^ Z.of_nat 0) with 1. lia.
  - destruct us as [|u us]; [cbn in Hl; lia|]. cbn [length] in Hl.
    apply digits_below_cons in Hv as [Hv Hvs]. apply digits_below_cons in Hu as [Hu Hus].
    cbn [subtract_multiple]. destruct (subtract_step g v c Hg Hv Hc) as (H1 & H2 & H3). cbv zeta in *.
    set (pl := to_long (HD_LOW v * HD_LOW g + HD_LOW c)) in *.
    set (ph := to_long (HD_LOW v * HD_HIGH g + HD_HIGH v * HD_LOW g + HD_HIGH pl + HD_HIGH c)) in *.
    set (d := HD_CONS (HD_LOW ph) (HD_LOW pl)) in *. set (c' := HD_HIGH v * HD_HIGH g + HD_HIGH ph) in *.
    clearbody d c'. clear pl ph. rewrite (to_long_small (u - d)) by rlia.
    assert (Hgv : g * v <= (BIGNUM_RADIX - 1) * (BIGNUM_RADIX - 1)) by (apply Z.mul_le_mono_nonneg; lia).
    set (b := if u - d <? 0 then 1 else 0).
    replace (if u - d <? 0 then _ else _) with (u - d + BIGNUM_RADIX * b, c' + b)
      by (subst b; zcases; rewrite ?to_long_small by rlia; f_equal; lia).
    assert (Hb : 0 <= u - d + BIGNUM_RADIX * b < BIGNUM_RADIX /\ 0 <= c' + b < BIGNUM_RADIX)
      by (subst b; zcases; split; rlia).
    ret_step IH; try tauto; try lia. intros [[ds c''] rest] (K1 & K2 & K3 & K4 & K5). ret_now.
    cbn [length firstn skipn positional]. rewrite Nat2Z.inj_succ, Z.pow_succ_r by lia.
    split; [constructor; tauto|]. split; [tauto|]. split; [lia|]. split; [exact K4|].
    set (B := BIGNUM_RADIX) in *. clear - K5 H3. nia.
Qed.

Lemma add_back_ok vs : forall us c,
  digits_ok vs -> digits_ok us -> 0 <= c <= 1 -> length us = length vs ->
  returns (add_back vs us c)
    (fun '(ds, c') => digits_ok ds /\ 0 <= c' <= 1 /\ length ds = length vs /\
                      eval ds + BIGNUM_RADIX ^ zlength vs * c' = eval us + eval vs + c).
Proof.
  induction vs as [|v vs IH]; intros us c Hv Hu Hc Hl; (destruct us as [|u us]; try discriminate).
  - cbn [add_back]. ret_now. repeat split; auto; try lia. cbn [length positional].
    change (BIGNUM_RADIX ^ Z.of_nat 0) with 1. lia.
  - apply digits_below_cons in Hv as [Hv Hvs]. apply digits_below_cons in Hu as [Hu Hus].
    cbn [add_back length] in *. rewrite to_long_small by rlia.
    set (c' := if v + u + c <? BIGNUM_RADIX then 0 else 1).
    replace (if _ <? _ then _ else _) with (v + u + c - BIGNUM_RADIX * c', c')
      by (subst c'; zcases; rewrite ?to_long_small by rlia; f_equal; lia).
    assert (Hb : 0 <= v + u + c - BIGNUM_RADIX * c' < BIGNUM_RADIX /\ 0 <= c' <= 1)
      by (subst c'; zcases; split; rlia).
    ret_step IH; try tauto; try lia. intros [ds c''] (K1 & K2 & K3 & K4). ret_now.
    cbn [length positional]. rewrite Nat2Z.inj_succ, Z.pow_succ_r by lia.
    split; [constructor; tauto|]. split; [tauto|]. split; [lia|]. nia.
Qed.

(** The state of one quotient step: the divisor [vs], the window [us] of one
    digit more whose value is below [radix * v], and the digits above it. *)
Lemma bignum_divide_subtract_ok vs guess low top rest q r :
  digits_ok vs -> digits_ok low -> 0 <= top < BIGNUM_RADIX -> digits_ok rest -> length low = length vs ->
  eval low + BIGNUM_RADIX ^ zlength vs * top = q * eval vs + r -> 0 <= r < eval vs ->
  0 <= guess < BIGNUM_RADIX -> guess = q \/ guess = q + 1 ->
  returns (bignum_divide_subtract vs guess (low ++ top :: rest))
    (fun '(qj, us) => qj = q /\ exists low', us = low' ++ 0 :: rest /\ digits_ok low' /\
                      length low' = length vs /\ eval low' = r).
Proof.
  intros Hv Hlow Htop Hrest Hlen E Hr Hg Hq. unfold bignum_divide_subtract.
  pose proof (eval_upper vs Hv) as HV. pose proof (eval_nonneg low Hlow) as HL.
  pose proof (eval_upper low Hlow) as HL'. rewrite Hlen in HL'.
  set (P := BIGNUM_RADIX ^ zlength vs) in *.
  assert (Hq0 : 0 <= q) by nia.
  destruct (Z.eqb_spec guess 0) as [->|Hne].
  - assert (q = 0) as -> by lia. assert (top = 0) as -> by nia. ret_now. split; [reflexivity|].
    exists low. repeat split; auto. lia.
  - ret_step subtract_multiple_ok; auto; [|rlia| |].
    { apply digits_below_app. split; [assumption|]. now constructor. }
    { rewrite length_app, Hlen. lia. }
    intros [[ds c] rest'] (K1 & K2 & K3 & -> & K5). fold P in K5.
    rewrite firstn_app, skipn_app, <- Hlen, Nat.sub_diag, firstn_all, skipn_all in *.
    cbn [firstn skipn app] in *. rewrite app_nil_r in K5.
    pose proof (eval_nonneg ds K1) as D0. pose proof (eval_upper ds K1) as D1.
    rewrite K3, Hlen in D1. fold P in D1.
    assert (F : eval ds + P * (top - c) = r + (q - guess) * eval vs) by lia.
    destruct Hq as [->| ->].
    + assert (c = top) as -> by nia.
      destruct (Z.eqb_spec top 0) as [->|].
      * ret_now. split; [reflexivity|]. exists ds. repeat split; auto; lia.
      * rewrite Z.sub_diag. change (to_long 0) with 0. cbn [Z.ltb Z.compare]. ret_now.
        split; [reflexivity|]. exists ds. repeat split; auto; lia.
    + assert (c = top + 1) as -> by nia. destruct (Z.eqb_spec (top + 1) 0); [lia|].
      replace (top - (top + 1)) with (-1) by lia. change (to_long (-1)) with (-1). cbn [Z.ltb Z.compare].
      change (to_long (-1 + BIGNUM_RADIX)) with (BIGNUM_RADIX - 1).
      ret_step add_back_ok; auto; [lia|lia|]. intros [ds' c'] (L1 & L2 & L3 & L4). fold P in L4.
      pose proof (eval_nonneg ds' L1) as D0'. pose proof (eval_upper ds' L1) as D1'.
      rewrite L3 in D1'. fold P in D1'. assert (c' = 1) as -> by nia.
      change (1 =? 1) with true. cbn iota. change (to_long (BIGNUM_RADIX - 1 + 1)) with BIGNUM_RADIX.
      rewrite Z.ltb_irrefl, Z.sub_diag. change (to_long 0) with 0. rewrite to_long_small by rlia. ret_now.
      split; [lia|]. exists ds'. repeat split; auto; lia.
Qed.

(** ** The quotient digit *)

Lemma trial_guess_ok fuel : forall v1 v2 u3 guess ch cl,
  0 <= v1 < BIGNUM_RADIX -> 0 <= v2 < BIGNUM_RADIX -> 0 <= cl < BIGNUM_RADIX ->
  upper_guess BIGNUM_RADIX v1 v2 u3 guess ->
  ch * BIGNUM_RADIX + cl = u3 - guess * v1 * BIGNUM_RADIX ->
  BIGNUM_RADIX <= ch + (Z.of_nat fuel + 1) * v1 ->
  returns (trial_guess fuel v1 v2 guess ch cl)
    (fun g => upper_guess BIGNUM_RADIX v1 v2 u3 g /\ g * (v1 * BIGNUM_RADIX + v2) <= u3).
Proof.
  induction fuel as [|fuel IH]; intros v1 v2 u3 guess ch cl Hv1 Hv2 Hcl Hg Hc Hf; pose proof Hg as (G1 & G2 & _);
    (destruct (subtract_step guess v2 0) as (P1 & P2 & P3); [assumption..|rlia|]);
    change (HD_LOW 0) with 0 in *; change (HD_HIGH 0) with 0 in *; cbv zeta in P1, P2, P3;
    rewrite !Z.add_0_r in *; cbn [trial_guess];
    set (pl := to_long (HD_LOW v2 * HD_LOW guess)) in *;
    set (ph := to_long (HD_LOW v2 * HD_HIGH guess + HD_HIGH v2 * HD_LOW guess + HD_HIGH pl)) in *;
    rewrite (to_long_small (HD_HIGH v2 * HD_HIGH guess + HD_HIGH ph)) by rlia;
    set (dl := HD_CONS (HD_LOW ph) (HD_LOW pl)) in *; set (dh := HD_HIGH v2 * HD_HIGH guess + HD_HIGH ph) in *;
    clearbody dl dh; clear pl ph; rewrite Z.gtb_ltb, !Z.geb_leb;
    (destruct ((dh <? ch) || ((ch =? dh) && (dl <=? cl))) eqn:C; [ret_now; split; [exact Hg|rnia]|]);
    (assert (Hlt : guess * v2 > u3 - guess * v1 * BIGNUM_RADIX) by (clear Hf Hg; rnia)); clear C;
    (assert (Hg' : upper_guess BIGNUM_RADIX v1 v2 u3 (guess - 1)) by (apply upper_guess_decrement; auto; rlia));
    pose proof Hg' as (K1 & K2 & _);
    (assert (Hch : 0 <= ch < BIGNUM_RADIX) by (clear Hf Hg Hg'; rnia));
    rewrite !to_long_small by rlia; destruct (Z.leb_spec BIGNUM_RADIX (ch + v1)).
  1, 3: ret_now; split; [exact Hg'|]; (assert ((guess - 1) * v2 <= (BIGNUM_RADIX - 1) * (BIGNUM_RADIX - 1))
    by (apply Z.mul_le_mono_nonneg; lia)); rlia.
  - rlia.
  - apply IH; auto; rlia.
Qed.

(** The leading digits of dividend and divisor fix the quotient digit up to one. *)
Lemma trial_quotient_close P v2p u3 vr ur q r g :
  0 < P -> 0 <= vr < P -> 0 <= ur < P -> BIGNUM_RADIX <= v2p -> 0 <= g < BIGNUM_RADIX ->
  u3 * P + ur = q * (v2p * P + vr) + r -> 0 <= r < v2p * P + vr -> 0 <= q < BIGNUM_RADIX ->
  g * v2p <= u3 -> g = BIGNUM_RADIX - 1 \/ u3 < (g + 1) * v2p ->
  g = q \/ g = q + 1.
Proof.
  intros HP Hvr Hur Hv2 Hg E Hr Hq G1 G2. set (B := BIGNUM_RADIX) in *.
  assert (Hup : q <= g).
  { destruct G2 as [->|G2]; [lia|]. assert (q * v2p * P < (u3 + 1) * P) by nia.
    assert (q * v2p <= u3) by nia. nia. }
  assert (Hlow : (g - 1) * (v2p * P + vr) <= u3 * P + ur).
  { assert (g * vr <= B * P) by nia. assert (g * v2p * P <= u3 * P) by nia. nia. }
  assert (g - 1 <= q) by nia. lia.
Qed.

Lemma digit_ref_app l x r i : i = zlength l -> digit_ref (l ++ x :: r) i = Return x.
Proof.
  intros ->. unfold digit_ref. destruct (Z.ltb_spec (zlength l) 0); [lia|].
  rewrite Nat2Z.id, nth_error_app2, Nat.sub_diag by lia. reflexivity.
Qed.

Lemma two_leading_digits (l : list Z) : (2 <= length l)%nat -> exists l' a b, l = l' ++ [a; b].
Proof.
  intros H. destruct (snoc_cases l) as [->|(l1 & b & ->)]; [cbn in H; lia|].
  rewrite length_app in H. cbn [length] in H.
  destruct (snoc_cases l1) as [->|(l2 & a & ->)]; [cbn in H; lia|].
  exists l2, a, b. now rewrite <- app_assoc.
Qed.

Lemma eval_two_leading l a b :
  eval (l ++ [a; b]) = (b * BIGNUM_RADIX + a) * BIGNUM_RADIX ^ zlength l + eval l.
Proof. rewrite eval_app. cbn [positional]. ring. Qed.

(** The divisor of the normalized division: two digits at least, the leading
    one with its top bit set. *)
Record normalized (vs : list Z) : Prop := {
  normalized_digits : digits_ok vs;
  normalized_length : (2 <= length vs)%nat;
  normalized_top : BIGNUM_RADIX / 2 <= last vs 0
}.

(** The first guess and the high digit of the comparand. *)
Lemma initial_guess_ok v1 v2 uj uj1 uj2 :
  BIGNUM_RADIX / 2 <= v1 < BIGNUM_RADIX -> 0 <= v2 < BIGNUM_RADIX ->
  0 <= uj -> 0 <= uj1 < BIGNUM_RADIX -> 0 <= uj2 < BIGNUM_RADIX -> uj <= v1 ->
  returns (if negb (uj =? v1) then bignum_digit_divide uj uj1 v1
           else Return (BIGNUM_RADIX - 1, to_long (uj1 + v1)))
    (fun '(guess, ch) =>
       upper_guess BIGNUM_RADIX v1 v2 ((uj * BIGNUM_RADIX + uj1) * BIGNUM_RADIX + uj2) guess /\
       ch * BIGNUM_RADIX + uj2 = (uj * BIGNUM_RADIX + uj1) * BIGNUM_RADIX + uj2 - guess * v1 * BIGNUM_RADIX /\
       0 <= ch).
Proof.
  intros Hv1 Hv2 H0 H1 H2 Hle. change (BIGNUM_RADIX / 2) with 2305843009213693952 in Hv1.
  destruct (Z.eqb_spec uj v1) as [->|Hne]; cbn [negb].
  - ret_now. rewrite to_long_small by rlia. split; [apply upper_guess_largest; rlia|]. split; rlia.
  - ret_step bignum_digit_divide_ok; [change (BIGNUM_RADIX / 2) with 2305843009213693952; lia|lia|lia|].
    intros [q r] (Q & R & E). split; [|split; [rlia|lia]].
    apply upper_guess_quotient with r; rlia.
Qed.

Lemma leading_digits_le B P a b u2 ur vr :
  0 < B -> 0 < P -> 0 <= u2 -> 0 <= ur -> vr < P ->
  (a * B + u2) * P + ur < B * (b * P + vr) -> a <= b.
Proof.
  intros HB HP Hu2 Hur Hvr H. apply Zlt_succ_le. unfold Z.succ.
  apply (Z.mul_lt_mono_pos_r (B * P)); [now apply Z.mul_pos_pos|].
  assert (0 <= u2 * P) by (apply Z.mul_nonneg_nonneg; lia).
  assert (B * vr <= B * P) by (apply Z.mul_le_mono_nonneg_l; lia). lia.
Qed.

(** Dividend and divisor by their leading digits. *)
Lemma divide_step_digits vl v2 v1 ul u2 u1 top rest :
  digits_ok (vl ++ [v2; v1]) -> BIGNUM_RADIX / 2 <= v1 -> length ul = length vl ->
  digits_ok (ul ++ [u2; u1]) -> 0 <= top < BIGNUM_RADIX -> digits_ok rest ->
  let vs := vl ++ [v2; v1] in
  let low := ul ++ [u2; u1] in
  let u := eval low + BIGNUM_RADIX ^ zlength vs * top in
  u < BIGNUM_RADIX * eval vs ->
  returns (divide_step vs (low ++ top :: rest))
    (fun '(qj, us) => qj = u / eval vs /\ exists low', us = low' ++ 0 :: rest /\ digits_ok low' /\
       length low' = length vs /\ eval low' = u mod eval vs).
Proof.
  intros Hv Rv1 Hk Hu Htop Hrest vs low u Hlt. subst vs low.
  pose proof Hv as (Hvl & (Rv2 & (Rv1' & _)%digits_below_cons)%digits_below_cons)%digits_below_app.
  pose proof Hu as (Hul & (Ru2 & (Ru1 & _)%digits_below_cons)%digits_below_cons)%digits_below_app.
  pose proof (eval_nonneg vl Hvl) as V0. pose proof (eval_upper vl Hvl) as V1.
  pose proof (eval_nonneg ul Hul) as U0. pose proof (eval_upper ul Hul) as U1. rewrite Hk in U1.
  pose proof (eval_two_leading vl v2 v1) as EV. pose proof (eval_two_leading ul u2 u1) as EU. rewrite Hk in EU.
  assert (Lv : zlength (vl ++ [v2; v1]) = zlength vl + 2) by (rewrite length_app; cbn [length]; lia).
  assert (Ll : length (ul ++ [u2; u1]) = length (vl ++ [v2; v1])) by (rewrite !length_app, Hk; reflexivity).
  set (P := BIGNUM_RADIX ^ zlength vl) in *.
  assert (Hu' : u = ((top * BIGNUM_RADIX + u1) * BIGNUM_RADIX + u2) * P + eval ul).
  { subst u. rewrite EU, Lv, Z.pow_add_r by lia. fold P. ring. }
  remember (eval (vl ++ [v2; v1])) as v eqn:Dv. clearbody u.
  assert (HP : 0 < P) by lia.
  assert (Htop' : top * BIGNUM_RADIX + u1 <= v1 * BIGNUM_RADIX + v2).
  { rewrite Hu', EV in Hlt. apply leading_digits_le in Hlt; rlia. }
  change (BIGNUM_RADIX / 2) with 2305843009213693952 in *.
  assert (Hvpos : 0 < v) by (rewrite EV; assert (0 < (v1 * BIGNUM_RADIX + v2) * P) by (apply Z.mul_pos_pos; rlia); lia).
  pose proof (Z.div_mod u v ltac:(lia)) as E. pose proof (Z.mod_pos_bound u v Hvpos) as Hr.
  assert (Hq : 0 <= u / v < BIGNUM_RADIX).
  { split; [apply Z.div_pos; [rewrite Hu'; apply Z.add_nonneg_nonneg; [apply Z.mul_nonneg_nonneg; rlia|lia]|lia]|apply Z.div_lt_upper_bound; lia]. }
  set (q := u / v) in *. set (r := u mod v) in *. clearbody q r.
  unfold divide_step. rewrite Lv, <- !app_assoc. cbn [app].
  rewrite (digit_ref_app vl v2 [v1] (_ - 2)), (digit_ref_app ul u2 _ (_ - 2)) by lia.
  rewrite (app_assoc vl [v2] [v1] : vl ++ v2 :: [v1] = _), digit_ref_app by (rewrite length_app; cbn [length]; lia).
  rewrite (app_assoc ul [u2] (u1 :: top :: rest) : ul ++ u2 :: u1 :: top :: rest = _).
  rewrite (digit_ref_app (ul ++ [u2]) u1 _ (_ - 1)) by (rewrite length_app; cbn [length]; lia).
  rewrite (app_assoc (ul ++ [u2]) [u1] (top :: rest) : (ul ++ [u2]) ++ u1 :: top :: rest = _).
  rewrite digit_ref_app by (rewrite !length_app; cbn [length]; lia). cbn [bind].
  rewrite <- !(app_assoc _ [_] [_]). cbn [app].
  ret_step (initial_guess_ok v1 v2 top u1 u2);
    [change (BIGNUM_RADIX / 2) with 2305843009213693952; lia|rlia..|].
  intros [guess ch] (G & Ec & Hch).
  ret_step trial_guess_ok; [lia|lia|lia|exact G|exact Ec|change (Z.of_nat trial_fuel) with 1; rlia|].
  intros g (G' & Gle). destruct G' as (Hg & _ & Gup).
  assert (Hcl : g = q \/ g = q + 1).
  { eapply trial_quotient_close with (P := P) (vr := eval vl) (ur := eval ul) (r := r); try exact Gle; try assumption;
      try lia; rlia. }
  ret_step (bignum_divide_subtract_ok (vl ++ [v2; v1]) g (ul ++ [u2; u1]) top rest q r); try assumption.
  - rewrite EU, Lv, Z.pow_add_r by lia. fold P. rewrite <- Dv, <- (Z.mul_comm v), <- E, Hu'. ring.
  - now rewrite <- Dv.
  - intros [qj us] H. exact H.
Qed.

Lemma divide_step_ok vs low top rest :
  normalized vs -> digits_ok low -> 0 <= top < BIGNUM_RADIX -> digits_ok rest ->
  length low = length vs ->
  let u := eval low + BIGNUM_RADIX ^ zlength vs * top in
  u < BIGNUM_RADIX * eval vs ->
  returns (divide_step vs (low ++ top :: rest))
    (fun '(qj, us) => qj = u / eval vs /\ exists low', us = low' ++ 0 :: rest /\ digits_ok low' /\
       length low' = length vs /\ eval low' = u mod eval vs).
Proof.
  intros [Hv Hv2 Hv1] Hlow Htop Hrest Hlen u Hlt.
  destruct (two_leading_digits vs Hv2) as (vl & v2 & v1 & ->).
  destruct (two_leading_digits low) as (ul & u2 & u1 & ->); [lia|].
  rewrite (app_assoc _ [v2] [v1] : vl ++ [v2; v1] = _), last_snoc in Hv1.
  apply divide_step_digits; auto. rewrite !length_app in Hlen. cbn [length] in Hlen. lia.
Qed.

Lemma normalized_pos vs : normalized vs -> 0 < eval vs.
Proof.
  intros [Hv Hv2 Hv1]. destruct (two_leading_digits vs Hv2) as (vl & v2 & v1 & ->).
  rewrite (app_assoc _ [v2] [v1] : vl ++ [v2; v1] = _) in *. rewrite last_snoc in Hv1.
  apply digits_below_app in Hv as [H1 H2]. rewrite eval_app. cbn [positional].
  pose proof (eval_nonneg _ H1). pose proof (radix_pow_pos (zlength (vl ++ [v2]))).
  change (BIGNUM_RADIX / 2) with 2305843009213693952 in *. rnia.
Qed.

Lemma divide_loop_ok steps vs : forall us,
  normalized vs -> digits_ok us -> length us = (steps + length vs)%nat ->
  eval (skipn steps us) < eval vs ->
  returns (divide_loop steps vs us)
    (fun '(qs, us') => digits_ok qs /\ length qs = steps /\
       exists rs, us' = rs ++ repeat 0 steps /\ digits_ok rs /\ length rs = length vs /\
                  eval rs < eval vs /\ eval us = eval qs * eval vs + eval rs).
Proof.
  induction steps as [|steps IH]; intros us Hv Hu Hl Hlt; cbn [divide_loop].
  - ret_now. repeat split; auto. exists us. rewrite app_nil_r. repeat split; auto.
  - destruct us as [|u us]; [discriminate|]. cbn [length skipn] in Hl, Hlt.
    apply digits_below_cons in Hu as [Hu Hus].
    ret_step IH; auto. intros [qs us'] (K1 & K2 & rs & -> & K3 & K4 & K5 & K6).
    pose proof (normalized_pos vs Hv) as Hpos. pose proof (normalized_length vs Hv) as Hn.
    destruct (snoc_cases rs) as [->|(rs' & t & ->)]; [cbn in K4; lia|].
    apply digits_below_app in K3 as [K3 [K3t _]%digits_below_cons].
    assert (El : length (u :: rs') = length vs) by (rewrite length_app in K4; cbn [length] in *; lia).
    assert (Eu : eval (u :: rs') + BIGNUM_RADIX ^ zlength vs * t = u + BIGNUM_RADIX * eval (rs' ++ [t])).
    { rewrite <- El, eval_app. cbn [length positional]. rewrite Nat2Z.inj_succ, Z.pow_succ_r by lia. ring. }
    replace (u :: (rs' ++ [t]) ++ repeat 0 steps) with ((u :: rs') ++ t :: repeat 0 steps)
      by (cbn [app]; now rewrite <- app_assoc).
    ret_step divide_step_ok; auto.
    + now constructor.
    + apply digits_below_zeros. rlia.
    + rewrite Eu. rlia.
    + rewrite Eu. set (w := u + BIGNUM_RADIX * eval (rs' ++ [t])) in *.
      intros [qj us'] (-> & low & -> & L1 & L2 & L3). ret_now.
      assert (Hw : 0 <= w < BIGNUM_RADIX * eval vs).
      { pose proof (eval_nonneg (rs' ++ [t])) as Hn'. specialize (Hn' ltac:(apply digits_below_app; now repeat constructor)).
        subst w. split; rlia. }
      pose proof (Z.div_mod w (eval vs) ltac:(lia)) as E. pose proof (Z.mod_pos_bound w (eval vs) Hpos) as B.
      split; [constructor; [|assumption]|].
      { split; [apply Z.div_pos; lia|apply Z.div_lt_upper_bound; lia]. }
      split; [cbn [length]; lia|].
      exists low. split; [reflexivity|]. split; [assumption|]. split; [assumption|]. split; [lia|].
      cbn [positional]. rewrite K6, L3. subst w. lia.
Qed.

(** ** Division by a denominator of two digits or more *)

Lemma leading_digit_le l x m :
  digits_ok l -> m * BIGNUM_RADIX ^ zlength l <= eval (l ++ [x]) -> m <= x.
Proof.
  intros Hl H. rewrite eval_app in H. cbn [positional] in H. pose proof (eval_upper l Hl).
  pose proof (radix_pow_pos (zlength l)). apply Zlt_succ_le. unfold Z.succ.
  apply (Z.mul_lt_mono_pos_r (BIGNUM_RADIX ^ zlength l)); lia.
Qed.

Lemma leading_digit_lower l x : digits_ok l -> x * BIGNUM_RADIX ^ zlength l <= eval (l ++ [x]).
Proof. intros Hl. rewrite eval_app. cbn [positional]. pose proof (eval_nonneg l Hl). lia. Qed.

Lemma leading_digit_upper l x : digits_ok l -> eval (l ++ [x]) < (x + 1) * BIGNUM_RADIX ^ zlength l.
Proof. intros Hl. rewrite eval_app. cbn [positional]. pose proof (eval_upper l Hl). lia. Qed.

(** The normalized copy of the denominator loses nothing. *)
Lemma normalize_denominator s l x :
  1 <= s <= 61 -> l <> [] -> digits_ok (l ++ [x]) -> BIGNUM_RADIX / 2 <= x * 2 ^ s < BIGNUM_RADIX ->
  let '(out, c) := normalization_loop s (l ++ [x]) 0 in
  c = 0 /\ normalized out /\ length out = S (length l) /\ eval out = eval (l ++ [x]) * 2 ^ s.
Proof.
  intros Hs Hl Hd Hx. pose proof (Z.pow_pos_nonneg 2 s ltac:(lia) ltac:(lia)) as Hp.
  pose proof (normalization_loop_ok s (l ++ [x]) 0 Hs Hd) as N.
  destruct (normalization_loop s (l ++ [x]) 0) as [out c]. destruct N as (N1 & N2 & N3 & N4); [lia|].
  apply digits_below_app in Hd as [Hld [Hxd _]%digits_below_cons].
  pose proof (leading_digit_upper l x Hld) as U. pose proof (leading_digit_lower l x Hld) as L.
  rewrite length_app in *. cbn [length] in *.
  rewrite Nat2Z.inj_add, Z.pow_add_r, Z.pow_1_r in N4 by lia.
  set (P := BIGNUM_RADIX ^ zlength l) in *. assert (HP : 0 < P) by (apply radix_pow_pos; lia).
  set (d := eval (l ++ [x])) in *. clearbody d.
  assert (Hx1 : (x + 1) * 2 ^ s <= BIGNUM_RADIX).
  { pose proof (radix_split s ltac:(lia)) as R. rewrite R in Hx |- *.
    rewrite (Z.mul_comm (2 ^ s)) in *. apply Z.mul_le_mono_nonneg_r; [lia|].
    assert (x < 2 ^ (62 - s)) by (apply (Z.mul_lt_mono_pos_r (2 ^ s)); lia). lia. }
  pose proof (eval_nonneg out N1) as O.
  assert (D1 : d * 2 ^ s < BIGNUM_RADIX * P).
  { apply Z.lt_le_trans with ((x + 1) * P * 2 ^ s); [now apply Z.mul_lt_mono_pos_r|].
    replace ((x + 1) * P * 2 ^ s) with ((x + 1) * 2 ^ s * P) by ring. now apply Z.mul_le_mono_nonneg_r; [lia|]. }
  assert (D2 : BIGNUM_RADIX / 2 * P <= d * 2 ^ s).
  { apply Z.le_trans with (x * P * 2 ^ s); [|now apply Z.mul_le_mono_nonneg_r; [lia|]].
    replace (x * P * 2 ^ s) with (x * 2 ^ s * P) by ring. now apply Z.mul_le_mono_nonneg_r; [lia|]. }
  assert (c = 0) as -> by rnia.
  assert (Hout : eval out = d * 2 ^ s) by lia.
  split; [reflexivity|]. split; [|split; [lia|exact Hout]].
  destruct (snoc_cases out) as [->|(o & y & ->)]; [cbn in N2; lia|].
  constructor; [assumption| |].
  - destruct l; [congruence|]. cbn [length] in N2. lia.
  - rewrite last_snoc. rewrite length_app in N2. cbn [length] in N2.
    apply (leading_digit_le o); [now apply digits_below_app in N1|].
    replace (zlength o) with (zlength l) by lia. fold P. lia.
Qed.

(** The leading digits of the numerator, one of them shifted in, are below the divisor. *)
Lemma numerator_below steps us top vs :
  normalized vs -> digits_ok (us ++ [top]) -> S (length us) = (steps + length vs)%nat ->
  top < BIGNUM_RADIX / 2 -> eval (skipn steps (us ++ [top])) < eval vs.
Proof.
  intros [Hv Hv2 Hv1] Hu Hl Htop. rewrite skipn_app.
  replace (steps - length us)%nat with O by lia. cbn [skipn].
  assert (Hs : digits_ok (skipn steps us)).
  { apply digits_below_app in Hu as [Hu _]. rewrite <- (firstn_skipn steps us) in Hu.
    now apply digits_below_app in Hu. }
  pose proof (leading_digit_upper _ top Hs) as U.
  destruct (snoc_cases vs) as [->|(l & x & ->)]; [cbn in Hv2; lia|].
  rewrite last_snoc in Hv1. apply digits_below_app in Hv as [Hv _].
  pose proof (leading_digit_lower l x Hv) as L. rewrite length_app in Hl. cbn [length] in Hl.
  replace (zlength (skipn steps us)) with (zlength l) in U by (rewrite length_skipn; lia).
  pose proof (radix_pow_pos (zlength l)) as P.
  apply Z.lt_le_trans with (1 := U). apply Z.le_trans with (2 := L).
  apply Z.mul_le_mono_nonneg_r; lia.
Qed.

Lemma scaled_division k n d q r :
  0 < k -> 0 < d -> n * k = q * (d * k) + r -> 0 <= r < d * k -> q = n / d /\ r = n mod d * k.
Proof.
  intros Hk Hd E Hr. pose proof (Z.div_mod n d ltac:(lia)) as E'. pose proof (Z.mod_pos_bound n d Hd) as B.
  assert (q = n / d) as ->.
  { rewrite <- (Z.div_mul_cancel_r n d k) by lia. apply Z.div_unique with r; lia. }
  split; [reflexivity|]. nia.
Qed.

Lemma bignum_divide_unsigned_normalized_ok un us vn vs q :
  normalized vs -> digits_ok us -> (length vs <= length us)%nat ->
  eval (skipn (length us - length vs) us) < eval vs ->
  match q with Some q => length (digits q) = (length us - length vs)%nat | None => True end ->
  returns (bignum_divide_unsigned_normalized (Bignum un us) (Bignum vn vs) q)
    (fun '(u', q') =>
       exists qs us', u' = Bignum un us' /\ digits_ok us' /\ length us' = length us /\
         q' = option_map (fun q => Bignum (negative_p q) qs) q /\
         digits_ok qs /\ length qs = (length us - length vs)%nat /\
         eval us = eval qs * eval vs + eval us' /\ 0 <= eval us' < eval vs).
Proof.
  intros Hv Hu Hl Hlt Hq. unfold bignum_divide_unsigned_normalized, BIGNUM_LENGTH. cbn [digits negative_p].
  replace (Z.to_nat (zlength us - zlength vs)) with (length us - length vs)%nat by lia.
  ret_step divide_loop_ok; auto; [lia|].
  intros [qs us'] (K1 & K2 & rs & -> & K3 & K4 & K5 & K6).
  assert (Er : eval (rs ++ repeat 0 (length us - length vs)) = eval rs)
    by (rewrite eval_app, positional_zeros; lia).
  eapply returns_bind with (P := eq (option_map (fun q => Bignum (negative_p q) qs) q)).
  - destruct q as [q|]; [|now ret_now]. rewrite (proj2 (Nat.leb_le _ _)) by lia. ret_now.
    rewrite K2, Hq, Nat.sub_diag. reflexivity.
  - intros q' <-. ret_now. exists qs. eexists. split; [reflexivity|]. rewrite Er. repeat split; auto.
    + apply digits_below_app. split; [assumption|]. apply digits_below_zeros. rlia.
    + rewrite length_app, repeat_length. lia.
Qed.

Lemma scaled_numerator_ok un lo c vn vs q n d s :
  normalized vs -> digits_ok (lo ++ [c]) -> (length vs <= S (length lo))%nat -> c < BIGNUM_RADIX / 2 ->
  0 <= s -> 0 < d -> eval (lo ++ [c]) = n * 2 ^ s -> eval vs = d * 2 ^ s ->
  match q with Some q => length (digits q) = (S (length lo) - length vs)%nat | None => True end ->
  returns (bignum_divide_unsigned_normalized (Bignum un (lo ++ [c])) (Bignum vn vs) q)
    (fun '(u', q') =>
       exists qs us', u' = Bignum un us' /\ digits_ok us' /\ length us' = S (length lo) /\
         q' = option_map (fun q => Bignum (negative_p q) qs) q /\
         digits_ok qs /\ length qs = (S (length lo) - length vs)%nat /\
         eval qs = n / d /\ eval us' = n mod d * 2 ^ s).
Proof.
  intros Hv Hu Hl Hc Hs Hd En Ed Hq.
  assert (L : length (lo ++ [c]) = S (length lo)) by (rewrite length_app; cbn [length]; lia).
  ret_step bignum_divide_unsigned_normalized_ok; auto; rewrite ?L; auto.
  - apply numerator_below; auto. lia.
  - intros [u' q'] (qs & us' & -> & K1 & K2 & -> & K3 & K4 & K5 & K6). exists qs, us'.
    rewrite En, Ed in *. apply scaled_division in K5 as [-> ->]; auto.
    + repeat split; auto; lia.
    + apply Z.pow_pos_nonneg; lia.
Qed.

(** What a division leaves through a result pointer. *)
Definition result_of (wanted neg : bool) (z : Z) (o : option bignum) : Prop :=
  if wanted then exists b, o = Some b /\ represents (if neg then - z else z) b else o = None.

Lemma store_digits_fresh neg x n ds :
  (length ds <= n)%nat ->
  store_digits (Bignum neg (repeat x n)) ds = Return (Bignum neg (ds ++ repeat x (n - length ds))).
Proof.
  intros H. unfold store_digits. cbn [digits negative_p]. rewrite repeat_length, (proj2 (Nat.leb_le _ _)) by lia.
  do 3 f_equal. replace n with (length ds + (n - length ds))%nat at 1 by lia.
  rewrite repeat_app, skipn_app, repeat_length, Nat.sub_diag, skipn_all2 by (rewrite repeat_length; lia).
  reflexivity.
Qed.

Lemma trim_result (neg : bool) ds z :
  digits_ok ds -> ds <> [] -> zlength ds <= BIGNUM_LENGTH_MAX -> eval ds = z ->
  represents (if neg then - z else z) (bignum_trim (Bignum neg ds)).
Proof. intros H Hn Hl <-. apply bignum_trim_represents; auto. congruence. Qed.

Lemma leading_digit_pos x l : wf x -> digits x = l -> l <> [] -> 0 < last l 0 < BIGNUM_RADIX.
Proof.
  intros [Hd Ht _ _] E Hn. rewrite E in *. destruct (snoc_cases l) as [->|(l' & d & ->)]; [congruence|].
  rewrite last_snoc in *. apply digits_below_app in Hd as [_ [Hd _]%digits_below_cons]. lia.
Qed.

(** The state when the digits of quotient and remainder are in place. *)
Definition large_result (n d : bignum) (q0 : option bignum) (r_neg remainder : bool)
  (out : bignum * option bignum) : Prop :=
  let '(u, q) := out in
  exists qs us, q = option_map (fun q => Bignum (negative_p q) qs) q0 /\
    digits_ok qs /\ length qs = (S (length (digits n)) - length (digits d))%nat /\
    eval qs = magnitude n / magnitude d /\
    (remainder = true ->
     u = Bignum r_neg us /\ digits_ok us /\ length us = S (length (digits n)) /\
     eval us = magnitude n mod magnitude d).

Section LargeDenominator.
Context (n d : bignum) (q0 : option bignum) (r_neg remainder : bool).
Hypothesis n_wf : wf n.
Hypothesis d_wf : wf d.
Hypothesis lengths : 2 <= BIGNUM_LENGTH d <= BIGNUM_LENGTH n.
Hypothesis q0_length :
  match q0 with Some q => length (digits q) = (S (length (digits n)) - length (digits d))%nat | None => True end.

Let fresh_u := Bignum r_neg (repeat unwritten_digit (S (length (digits n)))).

Lemma large_unshifted :
  BIGNUM_RADIX / 2 <= last (digits d) 0 ->
  returns (u <- bignum_destructive_copy n fresh_u ;;
           u <- bignum_set u (BIGNUM_LENGTH n + 1 - 1) 0 ;;
           bignum_divide_unsigned_normalized u d q0) (large_result n d q0 r_neg remainder).
Proof.
  intros Htop. pose proof (wf_digits n n_wf) as Nd. pose proof (wf_digits d d_wf) as Dd.
  unfold BIGNUM_LENGTH in *. unfold bignum_destructive_copy, fresh_u.
  rewrite store_digits_fresh by lia. cbn [bind].
  replace (S (length (digits n)) - length (digits n))%nat with 1%nat by lia. cbn [repeat].
  rewrite bignum_set_last by lia. cbn [bind]. destruct d as [dn ds]. cbn [digits] in *.
  ret_step (scaled_numerator_ok r_neg (digits n) 0 dn ds q0 (magnitude n) (eval ds) 0); auto.
  - constructor; auto. lia.
  - apply digits_below_app. split; [assumption|]. constructor; [rlia|constructor].
  - lia.
  - reflexivity.
  - lia.
  - now apply (wf_magnitude_pos (Bignum dn ds)); [|intros E; cbn in E; rewrite E in lengths; cbn in lengths; lia].
  - rewrite eval_app. unfold magnitude. cbn [positional]. lia.
  - lia.
  - intros [u q] (qs & us & -> & H1 & H2 & -> & H3 & H4 & H5 & H6). exists qs, us.
    change (2 ^ 0) with 1 in H6. rewrite Z.mul_1_r in H6. repeat split; auto.
Qed.

Lemma large_shifted s :
  1 <= s <= 61 -> BIGNUM_RADIX / 2 <= last (digits d) 0 * 2 ^ s < BIGNUM_RADIX ->
  returns (v <- bignum_allocate (BIGNUM_LENGTH d) false ;;
           u <- bignum_destructive_normalization n fresh_u s ;;
           v <- bignum_destructive_normalization d v s ;;
           '(u, q) <- bignum_divide_unsigned_normalized u v q0 ;;
           u <- (if remainder then bignum_destructive_unnormalization u s else Return u) ;;
           Return (u, q)) (large_result n d q0 r_neg remainder).
Proof.
  intros Hs Htop. pose proof (wf_digits n n_wf) as Nd. pose proof (wf_digits d d_wf) as Dd.
  pose proof (wf_length d d_wf). unfold BIGNUM_LENGTH in *. ret_step bignum_allocate_ok; [lia|]. intros v ->.
  unfold bignum_destructive_normalization, fresh_u, BIGNUM_LENGTH. cbn [digits]. rewrite !repeat_length.
  pose proof (normalization_loop_ok s (digits n) 0 Hs Nd) as N.
  destruct (normalization_loop s (digits n) 0) as [us c]. destruct N as (N1 & N2 & N3 & N4); [lia|].
  destruct (snoc_cases (digits d)) as [E0|(l & x & Ed)]; [rewrite E0 in lengths; cbn in lengths; lia|].
  rewrite Ed, last_snoc in *.
  pose proof (normalize_denominator s l x Hs) as V. destruct (normalization_loop s (l ++ [x]) 0) as [vs vc].
  rewrite length_app in *. cbn [length] in *.
  destruct V as (-> & V1 & V2 & V3); auto; [intros ->; cbn in *; lia|].
  rewrite (proj2 (Z.ltb_lt _ _)) by lia. rewrite (proj2 (Z.ltb_ge _ _)) by lia.
  rewrite !store_digits_fresh by (rewrite ?length_app; cbn [length]; lia). cbn [bind Z.eqb assert_that].
  rewrite length_app. cbn [length].
  replace (S (length (digits n)) - (length us + 1))%nat with O by lia.
  replace (Z.to_nat _ - length vs)%nat with O by lia. cbn [repeat]. rewrite !app_nil_r.
  assert (P61 : 2 ^ s <= 2 ^ 61) by (apply Z.pow_le_mono_r; lia).
  assert (Dpos : 0 < magnitude d) by (apply wf_magnitude_pos; auto; rewrite Ed; now destruct l).
  ret_step (scaled_numerator_ok r_neg us c false vs q0 (magnitude n) (magnitude d) s); auto.
  - apply digits_below_app. split; [assumption|]. constructor; [rlia|constructor].
  - lia.
  - change (BIGNUM_RADIX / 2) with (2 ^ 61). lia.
  - lia.
  - rewrite eval_app, N2. unfold magnitude. cbn [positional]. lia.
  - unfold magnitude. now rewrite Ed.
  - rewrite N2, V2. destruct q0 as [q|]; [|exact I]. rewrite q0_length. lia.
  - intros [u q] (qs & us' & -> & H1 & H2 & -> & H3 & H4 & H5 & H6).
    eapply returns_bind with (P := fun u => remainder = true ->
      exists us, u = Bignum r_neg us /\ digits_ok us /\ length us = S (length (digits n)) /\
        eval us = magnitude n mod magnitude d).
    + destruct remainder; [|ret_now; discriminate]. unfold bignum_destructive_unnormalization. cbn [digits negative_p].
      pose proof (unnormalization_loop_ok s us' Hs H1) as U. destruct (unnormalization_loop s us') as [out carry].
      destruct U as (U1 & U2 & k & -> & U3 & U4).
      pose proof (Z.pow_pos_nonneg 2 s ltac:(lia) ltac:(lia)).
      assert (k = 0 /\ eval out = magnitude n mod magnitude d) as [-> E].
      { rewrite H6 in U4. assert (eval out = magnitude n mod magnitude d) by (clear - U3 U4; nia).
        split; [nia|assumption]. }
      rewrite Z.mul_0_r. cbn [Z.eqb assert_that bind]. ret_now. intros _. exists out. repeat split; auto. lia.
    + intros u' Hu'. ret_now. destruct remainder.
      * destruct (Hu' eq_refl) as (us2 & -> & K). exists qs, us2. rewrite Ed, length_app. cbn [length].
        repeat split; try tauto; lia.
      * exists qs, []. rewrite Ed, length_app. cbn [length]. repeat split; auto; try discriminate; lia.
Qed.
End LargeDenominator.

Lemma bignum_divide_unsigned_large_denominator_ok n d quotient remainder q_neg r_neg :
  wf n -> wf d -> 2 <= BIGNUM_LENGTH d <= BIGNUM_LENGTH n -> room n ->
  returns (bignum_divide_unsigned_large_denominator n d quotient remainder q_neg r_neg)
    (fun '(q, r) => result_of quotient q_neg (magnitude n / magnitude d) q /\
                    result_of remainder r_neg (magnitude n mod magnitude d) r).
Proof.
  intros Hn Hd Hl Hroom. unfold bignum_divide_unsigned_large_denominator, room, BIGNUM_LENGTH in *.
  set (len_q := (S (length (digits n)) - length (digits d))%nat).
  eapply returns_bind with (P := eq (if quotient then Some (Bignum q_neg (repeat unwritten_digit len_q)) else None)).
  { destruct quotient; [|now ret_now]. ret_step bignum_allocate_ok; [lia|]. intros q ->. ret_now. do 3 f_equal. lia. }
  intros q0 Eq. ret_step bignum_allocate_ok; [lia|]. intros u0 ->. ret_assert; [lia|].
  replace (Z.to_nat (zlength (digits n) + 1)) with (S (length (digits n))) by lia.
  assert (Htop : returns (BIGNUM_REF d (zlength (digits d) - 1)) (eq (last (digits d) 0))).
  { unfold BIGNUM_REF. destruct (snoc_cases (digits d)) as [E0|(l & x & ->)]; [rewrite E0 in Hl; cbn in Hl; lia|].
    rewrite digit_ref_app, last_snoc by (rewrite length_app; cbn [length]; lia). now ret_now. }
  eapply returns_bind; [exact Htop|]. intros v1 <-. clear Htop.
  pose proof (leading_digit_pos d _ Hd eq_refl) as Hx.
  ret_step normalize_fuel_ok; [apply Hx; intros E; rewrite E in Hl; cbn in Hl; lia|].
  intros [v1 s] (Hs & -> & Hv1).
  assert (Hq : match q0 with Some q => length (digits q) = (S (length (digits n)) - length (digits d))%nat | None => True end).
  { subst q0. destruct quotient; [|exact I]. cbn [digits]. apply repeat_length. }
  eapply returns_bind with (P := large_result n d q0 r_neg remainder).
  - destruct (Z.eqb_spec s 0) as [->|].
    + change (2 ^ 0) with 1 in Hv1. apply large_unshifted; auto. lia.
    + apply large_shifted; auto. lia.
  - intros [u q] (qs & us & -> & H1 & H2 & H3 & H4). ret_now. subst q0. split.
    + destruct quotient; [|reflexivity]. cbn [option_map negative_p]. eexists. split; [reflexivity|].
      apply trim_result; auto; [|lia]. intros ->. cbn [length] in H2. lia.
    + destruct remainder; [|reflexivity]. destruct (H4 eq_refl) as (-> & K1 & K2 & K3).
      eexists. split; [reflexivity|]. apply trim_result; auto; [|lia]. intros ->. cbn [length] in K2. lia.
Qed.

(** ** Denominators of one digit *)

Lemma medium_loop_ok dv ds :
  BIGNUM_RADIX / 2 <= dv < BIGNUM_RADIX -> digits_ok ds ->
  returns (medium_loop dv ds)
    (fun '(qs, r) => digits_ok qs /\ length qs = length ds /\ 0 <= r < dv /\ eval ds = eval qs * dv + r).
Proof.
  intros Hdv. pose proof Hdv as Hdv'. change (BIGNUM_RADIX / 2) with 2305843009213693952 in Hdv'.
  induction ds as [|d ds IH]; intros Hd; cbn [medium_loop].
  - ret_now. repeat split; auto; lia.
  - apply digits_below_cons in Hd as [Hd Hds]. ret_step IH; auto. intros [qs r] (K1 & K2 & K3 & K4).
    ret_step bignum_digit_divide_ok; auto. intros [qj r'] (L1 & L2 & L3). ret_now. cbn [length positional].
    split; [now constructor|]. repeat split; lia.
Qed.

Lemma bignum_divide_unsigned_medium_denominator_ok n dv quotient remainder q_neg r_neg :
  wf n -> digits n <> [] -> 0 < dv < BIGNUM_RADIX -> room n ->
  returns (bignum_divide_unsigned_medium_denominator n dv quotient remainder q_neg r_neg)
    (fun '(q, r) => result_of quotient q_neg (magnitude n / dv) q /\
                    result_of remainder r_neg (magnitude n mod dv) r).
Proof.
  intros Hn Hne Hdv Hroom. unfold bignum_divide_unsigned_medium_denominator, room, BIGNUM_LENGTH in *.
  pose proof (wf_digits n Hn) as Nd.
  ret_step normalize_fuel_ok; [exact Hdv|]. intros [dv' s] (Hs & -> & Hv).
  pose proof (Z.pow_pos_nonneg 2 s ltac:(lia) ltac:(lia)) as Hp.
  eapply returns_bind with (P := fun q => exists ds, q = Bignum q_neg ds /\ digits_ok ds /\ ds <> [] /\
    zlength ds <= zlength (digits n) + 1 /\ eval ds = magnitude n * 2 ^ s).
  - destruct (Z.eqb_spec s 0) as [->|].
    + unfold bignum_destructive_copy. apply allocate_and_store; [lia|reflexivity|].
      exists (digits n). unfold magnitude. change (2 ^ 0) with 1. repeat split; auto; lia.
    + ret_step bignum_allocate_ok; [lia|]. intros q ->.
      unfold bignum_destructive_normalization, BIGNUM_LENGTH. cbn [digits].
      pose proof (normalization_loop_ok s (digits n) 0 ltac:(lia) Nd) as N.
      destruct (normalization_loop s (digits n) 0) as [us c]. destruct N as (N1 & N2 & N3 & N4); [lia|].
      rewrite repeat_length, (proj2 (Z.ltb_lt _ _)) by lia.
      rewrite store_digits_fresh by (rewrite length_app; cbn [length]; lia).
      replace (Z.to_nat (zlength (digits n) + 1) - length (us ++ [c]))%nat with O by (rewrite length_app; cbn [length]; lia).
      cbn [repeat]. rewrite app_nil_r. ret_now. exists (us ++ [c]).
      assert (2 ^ s <= 2 ^ 61) by (apply Z.pow_le_mono_r; lia).
      split; [reflexivity|]. split; [apply digits_below_app; split; [assumption|constructor; [rlia|constructor]]|].
      split; [now destruct us|]. rewrite length_app. cbn [length]. split; [lia|].
      rewrite eval_app, N2. unfold magnitude. cbn [positional]. lia.
  - intros q (ds & -> & D1 & D2 & D3 & D4). cbn [digits negative_p].
    ret_step medium_loop_ok; auto. intros [qs r] (K1 & K2 & K3 & K4). rewrite D4 in K4.
    apply scaled_division in K4 as [Eq ->]; auto; try lia.
    assert (Er : (if negb (s =? 0) then Z.shiftr (magnitude n mod dv * 2 ^ s) s else magnitude n mod dv * 2 ^ s)
                 = magnitude n mod dv).
    { destruct (Z.eqb_spec s 0) as [->|]; cbn [negb]; [change (2 ^ 0) with 1; lia|].
      rewrite Z.shiftr_div_pow2, Z.div_mul by lia. reflexivity. }
    rewrite Er. pose proof (Z.mod_pos_bound (magnitude n) dv ltac:(lia)) as B.
    eapply returns_bind with (P := result_of remainder r_neg (magnitude n mod dv)).
    + destruct remainder; [|now ret_now]. ret_step bignum_digit_to_bignum_ok; [lia|].
      intros r Hr. ret_now. now exists r.
    + intros rem Hrem. ret_now. split; [|exact Hrem]. destruct quotient; [|reflexivity].
      eexists. split; [reflexivity|]. apply trim_result; auto; [|lia]. intros ->. destruct ds; [congruence|discriminate].
Qed.

(** One step of the scaling down: two divisions of half digits. *)
Lemma scale_down_step d r x :
  1 < d < BIGNUM_RADIX_ROOT -> 0 <= r < d -> 0 <= x < BIGNUM_RADIX ->
  let n1 := HD_CONS r (HD_HIGH x) in
  let n2 := HD_CONS (Z.rem n1 d) (HD_LOW x) in
  let q := HD_CONS (Z.quot n1 d) (Z.quot n2 d) in
  0 <= q < BIGNUM_RADIX /\ 0 <= Z.rem n2 d < d /\ r * BIGNUM_RADIX + x = q * d + Z.rem n2 d.
Proof.
  intros Hd Hr Hx. cbv zeta. pose proof (HD_split x) as E. pose proof (HD_LOW_range x) as Hl.
  pose proof (HD_HIGH_digit x Hx) as Hh. rewrite (HD_CONS_sum r) by assumption.
  set (n1 := HD_HIGH x + BIGNUM_RADIX_ROOT * r).
  assert (H1 : 0 <= n1 < BIGNUM_RADIX_ROOT * d) by (subst n1; rlia).
  pose proof (Z.quot_rem' n1 d) as E1. pose proof (Z.rem_bound_pos n1 d) as R1.
  set (q1 := Z.quot n1 d) in *. set (r1 := Z.rem n1 d) in *. rewrite (HD_CONS_sum r1) by assumption.
  set (n2 := HD_LOW x + BIGNUM_RADIX_ROOT * r1).
  assert (H2 : 0 <= n2 < BIGNUM_RADIX_ROOT * d) by (subst n2; rlia).
  pose proof (Z.quot_rem' n2 d) as E2. pose proof (Z.rem_bound_pos n2 d) as R2.
  set (q2 := Z.quot n2 d) in *. set (r2 := Z.rem n2 d) in *.
  assert (Q1 : 0 <= q1 < BIGNUM_RADIX_ROOT) by (clearbody q1 r1 n1; nia).
  assert (Q2 : 0 <= q2 < BIGNUM_RADIX_ROOT) by (clearbody q2 r2 n2; nia).
  rewrite HD_CONS_sum by assumption. repeat split; rlia.
Qed.

Lemma scale_down_loop_ok d ds : 1 < d < BIGNUM_RADIX_ROOT -> digits_ok ds ->
  let '(out, r) := scale_down_loop d ds in
  digits_ok out /\ length out = length ds /\ 0 <= r < d /\ eval ds = eval out * d + r.
Proof.
  intros Hd. induction ds as [|x ds IH]; intros Hds; cbn [scale_down_loop].
  - repeat split; auto; lia.
  - apply digits_below_cons in Hds as [Hx Hds]. destruct (scale_down_loop d ds) as [rest r].
    destruct (IH Hds) as (K1 & K2 & K3 & K4). destruct (scale_down_step d r x Hd K3 Hx) as (L1 & L2 & L3).
    cbv zeta in *. split; [now constructor|]. cbn [length positional]. repeat split; lia.
Qed.

Lemma bignum_destructive_scale_down_ok b d :
  1 < d < BIGNUM_RADIX_ROOT -> digits_ok (digits b) ->
  returns (bignum_destructive_scale_down b d)
    (fun '(b', r) => negative_p b' = negative_p b /\ digits_ok (digits b') /\
       length (digits b') = length (digits b) /\ magnitude b' = magnitude b / d /\ r = magnitude b mod d).
Proof.
  intros Hd Hb. unfold bignum_destructive_scale_down. ret_assert; [lia|].
  pose proof (scale_down_loop_ok d (digits b) Hd Hb) as S. destruct (scale_down_loop d (digits b)) as [out r].
  destruct S as (S1 & S2 & S3 & S4). ret_now. unfold magnitude. cbn [digits negative_p]. repeat split; auto.
  - apply Z.div_unique with r; lia.
  - apply Z.mod_unique with (eval out); lia.
Qed.

Lemma bignum_divide_unsigned_small_denominator_ok n d remainder q_neg r_neg :
  wf n -> digits n <> [] -> 1 < d < BIGNUM_RADIX_ROOT ->
  returns (bignum_divide_unsigned_small_denominator n d remainder q_neg r_neg)
    (fun '(q, r) => represents (if q_neg then - (magnitude n / d) else magnitude n / d) q /\
                    result_of remainder r_neg (magnitude n mod d) r).
Proof.
  intros Hn Hne Hd. unfold bignum_divide_unsigned_small_denominator. pose proof (wf_length n Hn).
  ret_step bignum_new_sign_ok; [assumption|]. intros q ->.
  ret_step bignum_destructive_scale_down_ok; [assumption|apply (wf_digits n Hn)|].
  intros [[s ds] r] (H1 & H2 & H3 & H4 & ->). cbn [negative_p digits] in *. subst s.
  pose proof (Z.mod_pos_bound (magnitude n) d ltac:(lia)) as B.
  eapply returns_bind with (P := result_of remainder r_neg (magnitude n mod d)).
  - destruct remainder; [|now ret_now]. ret_step bignum_digit_to_bignum_ok; [unfold magnitude in *; cbn; rlia|].
    intros r Hr. ret_now. now exists r.
  - intros rem Hrem. ret_now. split; [|exact Hrem].
    apply trim_result; auto; [|unfold BIGNUM_LENGTH in *; lia].
    intros ->. destruct (digits n); [congruence|discriminate].
Qed.

Lemma remainder_small_loop_ok d ds :
  1 < d < BIGNUM_RADIX_ROOT -> digits_ok ds -> remainder_small_loop d ds = eval ds mod d.
Proof.
  intros Hd. induction ds as [|x ds IH]; intros Hds; [reflexivity|].
  apply digits_below_cons in Hds as [Hx Hds]. cbn [remainder_small_loop positional].
  rewrite (IH Hds). pose proof (Z.mod_pos_bound (eval ds) d ltac:(lia)) as B.
  pose proof (Z.div_mod (eval ds) d ltac:(lia)) as E.
  destruct (scale_down_step d (eval ds mod d) x Hd B Hx) as (L1 & L2 & L3). cbv zeta in *.
  set (q := HD_CONS (Z.quot _ _) _) in *.
  apply Z.mod_unique with (q + BIGNUM_RADIX * (eval ds / d)); [left; exact L2|].
  rewrite E at 1. clear - L3. lia.
Qed.

Lemma bignum_remainder_unsigned_small_denominator_ok n d neg :
  wf n -> 1 < d < BIGNUM_RADIX_ROOT ->
  returns (bignum_remainder_unsigned_small_denominator n d neg)
    (represents (if neg then - (magnitude n mod d) else magnitude n mod d)).
Proof.
  intros Hn Hd. unfold bignum_remainder_unsigned_small_denominator. ret_assert; [lia|].
  rewrite remainder_small_loop_ok by (auto; apply (wf_digits n Hn)). apply bignum_digit_to_bignum_ok.
  pose proof (Z.mod_pos_bound (magnitude n) d ltac:(lia)). rlia.
Qed.

(** ** The signed operations *)

Lemma signed_division (s t : bool) a b :
  0 <= a -> 0 < b ->
  Z.quot (if s then - a else a) (if t then - b else b)
    = (if (if t then negb s else s) then - (a / b) else a / b) /\
  Z.rem (if s then - a else a) (if t then - b else b) = (if s then - (a mod b) else a mod b).
Proof.
  intros Ha Hb. rewrite <- Z.quot_div_nonneg, <- Z.rem_mod_nonneg by lia.
  destruct s, t; cbn [negb];
    rewrite ?Z.quot_opp_opp, ?Z.quot_opp_l, ?Z.quot_opp_r, ?Z.rem_opp_opp, ?Z.rem_opp_l, ?Z.rem_opp_r by lia; lia.
Qed.

(** The test [(digit & (digit - 1)) == 0] finds the powers of two. *)
Lemma power_of_two_test d : 0 < d -> Z.land d (d - 1) = 0 -> d = 2 ^ Z.log2 d.
Proof.
  intros Hd Hl. destruct (Z.log2_spec d Hd) as [L U]. set (k := Z.log2 d) in *.
  assert (Hk : 0 <= k) by apply Z.log2_nonneg.
  destruct (Z.eq_dec d (2 ^ k)) as [|Hne]; [assumption|exfalso].
  assert (Hlog : Z.log2 (d - 1) = k) by (apply Z.log2_unique; lia).
  assert (B : Z.testbit (Z.land d (d - 1)) k = true).
  { rewrite Z.land_spec. rewrite <- Hlog at 2. unfold k. rewrite !Z.bit_log2; try reflexivity; [|lia].
    assert (0 < 2 ^ k) by (apply Z.pow_pos_nonneg; lia). lia. }
  rewrite Hl, Z.testbit_0_l in B. discriminate.
Qed.

Lemma power_of_two_remainder d ds x :
  digits_ok (x :: ds) -> 0 < d < BIGNUM_RADIX -> Z.land d (d - 1) = 0 ->
  Z.land (d - 1) x = eval (x :: ds) mod d.
Proof.
  intros Hx Hd Hl. pose proof (power_of_two_test d ltac:(lia) Hl) as E. pose proof (Z.log2_nonneg d) as Hk.
  assert (Hlog : Z.log2 d < 62) by (apply Z.log2_lt_pow2; rlia).
  rewrite Z.land_comm, (land_mask (Z.log2 d)) by lia. rewrite <- E. cbn [positional].
  rewrite (radix_split (Z.log2 d)) at 1 by lia. rewrite <- E, <- Z.mul_assoc, (Z.mul_comm d), Z.mod_add by lia.
  reflexivity.
Qed.

(** One-digit denominators, and the sign and size facts of the general case. *)
Section SignedDivision.
Context (n d : bignum).
Hypothesis n_wf : wf n.
Hypothesis d_wf : wf d.
Hypothesis n_room : room n.
Hypothesis n_nonzero : value n <> 0.
Hypothesis d_nonzero : value d <> 0.

Let q_negative_p := if BIGNUM_NEGATIVE_P d then negb (BIGNUM_NEGATIVE_P n) else BIGNUM_NEGATIVE_P n.

Lemma signed_results :
  Z.quot (value n) (value d) = (if q_negative_p then - (magnitude n / magnitude d) else magnitude n / magnitude d) /\
  Z.rem (value n) (value d) = (if BIGNUM_NEGATIVE_P n then - (magnitude n mod magnitude d) else magnitude n mod magnitude d).
Proof.
  apply signed_division; [now apply magnitude_nonneg|].
  apply wf_magnitude_pos; auto. now apply nonzero_digits.
Qed.

Lemma equal_results : magnitude n = magnitude d ->
  represents (Z.quot (value n) (value d)) (BIGNUM_ONE q_negative_p) /\ represents (Z.rem (value n) (value d)) BIGNUM_ZERO.
Proof.
  intros E. destruct signed_results as [-> ->].
  pose proof (wf_magnitude_pos d d_wf (nonzero_digits d d_wf d_nonzero)).
  rewrite E, Z.div_same, Z.mod_same by lia. split; [apply BIGNUM_ONE_represents|].
  destruct (BIGNUM_NEGATIVE_P n); apply BIGNUM_ZERO_represents.
Qed.

Lemma less_results : magnitude n < magnitude d ->
  represents (Z.quot (value n) (value d)) BIGNUM_ZERO /\ represents (Z.rem (value n) (value d)) n.
Proof.
  intros E. destruct signed_results as [-> ->]. pose proof (magnitude_nonneg n n_wf).
  rewrite Z.div_small, Z.mod_small by lia. split; [|split; [assumption|reflexivity]].
  destruct q_negative_p; apply BIGNUM_ZERO_represents.
Qed.

(** The single digit of a denominator of length 1. *)
Lemma one_digit_denominator : BIGNUM_LENGTH d = 1 ->
  returns (BIGNUM_REF d 0) (fun digit => magnitude d = digit /\ 0 < digit < BIGNUM_RADIX).
Proof.
  intros L. pose proof (wf_magnitude_pos d d_wf (nonzero_digits d d_wf d_nonzero)) as P.
  pose proof (wf_digits d d_wf) as D. unfold BIGNUM_REF, BIGNUM_LENGTH, magnitude in *.
  destruct (digits d) as [|x [|y l]]; cbn [length] in L; try lia.
  apply (returns_ret x). apply digits_below_cons in D as [D _]. cbn [positional] in *. lia.
Qed.

Lemma greater_lengths : magnitude d < magnitude n -> BIGNUM_LENGTH d <= BIGNUM_LENGTH n.
Proof.
  intros H. destruct (Z_lt_le_dec (BIGNUM_LENGTH n) (BIGNUM_LENGTH d)) as [L|]; [|assumption].
  apply magnitude_shorter in L; auto. lia.
Qed.

Lemma long_denominator : BIGNUM_LENGTH d <> 1 -> 2 <= BIGNUM_LENGTH d.
Proof.
  pose proof (nonzero_digits d d_wf d_nonzero) as H. unfold BIGNUM_LENGTH.
  destruct (digits d); [congruence|]. cbn [length]. lia.
Qed.
End SignedDivision.

Lemma out_result (neg : bool) z o : result_of true neg z o -> returns (out_parameter o) (represents (if neg then - z else z)).
Proof. intros (b & -> & H). now apply returns_ret. Qed.

Definition quotient_and_remainder (n d : Z) (o : option (bignum * bignum)) : Prop :=
  exists q r, o = Some (q, r) /\ represents (Z.quot n d) q /\ represents (Z.rem n d) r.

Lemma bignum_divide_ok n d : wf n -> wf d -> room n ->
  returns (bignum_divide n d)
    (fun o => if value d =? 0 then o = None else quotient_and_remainder (value n) (value d) o).
Proof.
  intros Hn Hd Hr. unfold bignum_divide. rewrite !BIGNUM_ZERO_P_value by assumption.
  destruct (Z.eqb_spec (value d) 0) as [|Ed]; [now ret_now|].
  destruct (Z.eqb_spec (value n) 0) as [En|En].
  { ret_now. exists n, n. rewrite En, Z.quot_0_l, Z.rem_0_l by assumption. split; [reflexivity|]. split; split; assumption. }
  rewrite bignum_compare_unsigned_ok by assumption.
  destruct (Z.compare_spec (magnitude n) (magnitude d)) as [C|C|C]; cbn [of_comparison].
  - ret_now. do 2 eexists. split; [reflexivity|]. now apply equal_results.
  - ret_now. do 2 eexists. split; [reflexivity|]. now apply less_results.
  - destruct (signed_results n d Hn Hd Ed) as [Eq Er]. unfold quotient_and_remainder. rewrite Eq, Er.
    set (q_neg := if BIGNUM_NEGATIVE_P d then negb (BIGNUM_NEGATIVE_P n) else BIGNUM_NEGATIVE_P n).
    pose proof (nonzero_digits n Hn En) as Hne. pose proof (greater_lengths n d Hn Hd C) as L.
    destruct (Z.eqb_spec (BIGNUM_LENGTH d) 1) as [E1|E1].
    + ret_step one_digit_denominator; auto. intros digit (-> & Hdig).
      destruct (Z.eqb_spec digit 1) as [->|]; [|destruct (Z.ltb_spec digit BIGNUM_RADIX_ROOT)].
      * ret_step (bignum_maybe_new_sign_ok n q_neg); auto. intros q Hq. ret_now. do 2 eexists.
        split; [reflexivity|]. rewrite Z.div_1_r, Z.mod_1_r. split; [exact Hq|].
        destruct (BIGNUM_NEGATIVE_P n); apply BIGNUM_ZERO_represents.
      * ret_step bignum_divide_unsigned_small_denominator_ok; auto; [lia|]. intros [q r] [Hq (r' & -> & Hr')].
        cbn [out_parameter bind]. ret_now. now exists q, r'.
      * ret_step bignum_divide_unsigned_medium_denominator_ok; auto.
        intros [q r] [(q' & -> & Hq') (r' & -> & Hr')]. cbn [out_parameter bind]. ret_now. now exists q', r'.
    + assert (2 <= BIGNUM_LENGTH d) by (apply (long_denominator n d); assumption). ret_step bignum_divide_unsigned_large_denominator_ok; auto.
      intros [q r] [(q' & -> & Hq') (r' & -> & Hr')]. cbn [out_parameter bind]. ret_now. now exists q', r'.
Qed.

Lemma bignum_quotient_ok n d : wf n -> wf d -> room n ->
  returns (bignum_quotient n d)
    (fun o => if value d =? 0 then o = None else exists q, o = Some q /\ represents (Z.quot (value n) (value d)) q).
Proof.
  intros Hn Hd Hr. unfold bignum_quotient. rewrite !BIGNUM_ZERO_P_value by assumption.
  destruct (Z.eqb_spec (value d) 0) as [|Ed]; [now ret_now|].
  destruct (Z.eqb_spec (value n) 0) as [En|En].
  { ret_now. exists n. rewrite En, Z.quot_0_l by assumption. split; [reflexivity|]. split; assumption. }
  rewrite bignum_compare_unsigned_ok by assumption.
  destruct (Z.compare_spec (magnitude n) (magnitude d)) as [C|C|C]; cbn [of_comparison].
  - ret_now. eexists. split; [reflexivity|]. now apply equal_results.
  - ret_now. eexists. split; [reflexivity|]. now apply less_results.
  - destruct (signed_results n d Hn Hd Ed) as [Eq _]. rewrite Eq.
    set (q_neg := if BIGNUM_NEGATIVE_P d then negb (BIGNUM_NEGATIVE_P n) else BIGNUM_NEGATIVE_P n).
    pose proof (nonzero_digits n Hn En) as Hne. pose proof (greater_lengths n d Hn Hd C) as L.
    eapply returns_bind; [|intros q Hq; ret_now; exists q; split; [reflexivity|exact Hq]].
    destruct (Z.eqb_spec (BIGNUM_LENGTH d) 1) as [E1|E1].
    + ret_step one_digit_denominator; auto. intros digit (-> & Hdig).
      destruct (Z.eqb_spec digit 1) as [->|]; [|destruct (Z.ltb_spec digit BIGNUM_RADIX_ROOT)].
      * rewrite Z.div_1_r. now apply bignum_maybe_new_sign_ok.
      * ret_step bignum_divide_unsigned_small_denominator_ok; auto; [lia|]. intros [q r] [Hq _]. now ret_now.
      * ret_step bignum_divide_unsigned_medium_denominator_ok; auto. intros [q r] [Hq _]. now apply out_result.
    + assert (2 <= BIGNUM_LENGTH d) by (apply (long_denominator n d); assumption). ret_step bignum_divide_unsigned_large_denominator_ok; auto.
      intros [q r] [Hq _]. now apply out_result.
Qed.

(** The remainder by a denominator of one digit. *)
Lemma power_of_two_remainder_ok n digit neg :
  wf n -> digits n <> [] -> 0 < digit < BIGNUM_RADIX -> Z.land digit (digit - 1) = 0 ->
  returns (if BIGNUM_LENGTH n =? 0 then Return BIGNUM_ZERO
           else low <- BIGNUM_REF n 0 ;;
                let unsigned_remainder := Z.land (digit - 1) low in
                if unsigned_remainder =? 0 then Return BIGNUM_ZERO
                else bignum_digit_to_bignum unsigned_remainder neg)
    (represents (if neg then - (magnitude n mod digit) else magnitude n mod digit)).
Proof.
  intros Hn Hne Hdig Hl. pose proof (wf_digits n Hn) as Nd. unfold BIGNUM_LENGTH, BIGNUM_REF, magnitude.
  destruct (digits n) as [|x ds]; [congruence|]. destruct (Z.eqb_spec (zlength (x :: ds)) 0); [cbn [length] in *; lia|].
  rewrite (digit_ref_app [] x ds) by reflexivity. cbn [bind].
  rewrite (power_of_two_remainder digit ds x) by assumption.
  pose proof (Z.mod_pos_bound (eval (x :: ds)) digit ltac:(lia)) as B.
  destruct (Z.eqb_spec (eval (x :: ds) mod digit) 0) as [->|].
  - ret_now. destruct neg; apply BIGNUM_ZERO_represents.
  - apply bignum_digit_to_bignum_ok. lia.
Qed.

Lemma bignum_remainder_ok n d : wf n -> wf d -> room n ->
  returns (bignum_remainder n d)
    (fun o => if value d =? 0 then o = None else exists r, o = Some r /\ represents (Z.rem (value n) (value d)) r).
Proof.
  intros Hn Hd Hr. unfold bignum_remainder. rewrite !BIGNUM_ZERO_P_value by assumption.
  destruct (Z.eqb_spec (value d) 0) as [|Ed]; [now ret_now|].
  destruct (Z.eqb_spec (value n) 0) as [En|En].
  { ret_now. exists n. rewrite En, Z.rem_0_l by assumption. split; [reflexivity|]. split; assumption. }
  rewrite bignum_compare_unsigned_ok by assumption.
  destruct (Z.compare_spec (magnitude n) (magnitude d)) as [C|C|C]; cbn [of_comparison].
  - ret_now. eexists. split; [reflexivity|]. now apply equal_results.
  - ret_now. eexists. split; [reflexivity|]. now apply less_results.
  - destruct (signed_results n d Hn Hd Ed) as [_ Er]. rewrite Er.
    pose proof (nonzero_digits n Hn En) as Hne. pose proof (greater_lengths n d Hn Hd C) as L.
    eapply returns_bind; [|intros r Hrr; ret_now; exists r; split; [reflexivity|exact Hrr]].
    destruct (Z.eqb_spec (BIGNUM_LENGTH d) 1) as [E1|E1].
    + ret_step one_digit_denominator; auto. intros digit (-> & Hdig).
      rewrite to_long_small by rlia.
      destruct (Z.eqb_spec (Z.land digit (digit - 1)) 0) as [El|El]; [now apply power_of_two_remainder_ok|].
      assert (digit <> 1) by (intros ->; now apply El).
      destruct (Z.ltb_spec digit BIGNUM_RADIX_ROOT).
      * apply bignum_remainder_unsigned_small_denominator_ok; auto. lia.
      * ret_step bignum_divide_unsigned_medium_denominator_ok; auto. intros [q r] [_ Hq]. now apply out_result.
    + assert (2 <= BIGNUM_LENGTH d) by (apply (long_denominator n d); assumption). ret_step bignum_divide_unsigned_large_denominator_ok; auto.
      intros [q r] [_ Hq]. now apply out_result.
Qed.

(** ** Properties *)

(** Bignum_digit_divide divides a two-digit number by a normalized digit: the double-length division on
    half digits that the long division rests on. *)
Theorem bignum_digit_divide_correct uh ul v :
  BIGNUM_RADIX / 2 <= v < BIGNUM_RADIX -> 0 <= uh < v -> 0 <= ul < BIGNUM_RADIX ->
  returns (bignum_digit_divide uh ul v)
    (fun '(q, r) => q = (uh * BIGNUM_RADIX + ul) / v /\ r = (uh * BIGNUM_RADIX + ul) mod v /\ 0 <= q < BIGNUM_RADIX).
Proof.
  intros Hv Hh Hl. ret_step bignum_digit_divide_ok; [assumption..|]. intros [q r] (Q & R & E).
  split; [|split; [|exact Q]].
  - apply Z.div_unique with r; [left; exact R|lia].
  - apply Z.mod_unique with q; [left; exact R|lia].
Qed.

(** The quotient loop of the long division (Knuth's algorithm D with trial quotients and add-back), run
    for as many steps as there are quotient digits, leaves the quotient and the remainder of the digit
    strings. *)
Theorem long_division_loop_correct steps vs us :
  normalized vs -> digits_ok us -> length us = (steps + length vs)%nat -> eval (skipn steps us) < eval vs ->
  returns (divide_loop steps vs us) (fun '(qs, us') =>
    length qs = steps /\ digits_ok qs /\ digits_ok us' /\ length us' = length us /\
    eval qs = eval us / eval vs /\ eval us' = eval us mod eval vs).
Proof.
  intros Hv Hu Hl Hlt. ret_step divide_loop_ok; [assumption..|].
  intros [qs us'] (Dq & Lq & rs & -> & Dr & Lr & Br & E).
  assert (Z0 : eval (rs ++ repeat 0 steps) = eval rs) by (rewrite eval_app; unfold eval; rewrite positional_zeros; ring).
  assert (R : 0 <= eval rs) by (apply positional_range; [rlia|exact Dr]).
  split; [exact Lq|]. split; [exact Dq|]. split; [apply digits_below_app; split; [exact Dr|apply digits_below_zeros; rlia]|].
  split; [rewrite length_app, repeat_length; lia|]. split.
  - apply Z.div_unique with (eval rs); lia.
  - rewrite Z0. apply Z.mod_unique with (eval qs); lia.
Qed.

(** C5: bignum_divide returns truncated quotient and remainder, or reports a zero divisor, on every
    branch of its case analysis. *)
Theorem bignum_divide_correct n d : wf n -> wf d -> room n ->
  returns (bignum_divide n d) (fun o =>
    if value d =? 0 then o = None
    else exists q r, o = Some (q, r) /\ wf q /\ wf r /\
           value n = value d * value q + value r /\ Z.abs (value r) < Z.abs (value d) /\
           0 <= value r * value n).
Proof.
  intros Hn Hd Rn. ret_step bignum_divide_ok; [assumption..|]. intros o Ho.
  destruct (Z.eqb_spec (value d) 0) as [|D0]; [assumption|]. destruct Ho as (q & r & -> & [Wq Vq] & [Wr Vr]).
  exists q, r. rewrite Vq, Vr. split; [reflexivity|]. split; [assumption|]. split; [assumption|].
  split; [now apply Z.quot_rem|]. split; [now apply Z.rem_bound_abs|]. now apply Z.rem_sign_mul.
Qed.

Lemma bignum_divide_correct_witness :
  let n := Bignum true [5; 0; 7] in let d := Bignum false [3; 4] in
  returns (bignum_divide n d) (fun o =>
    if value d =? 0 then o = None
    else exists q r, o = Some (q, r) /\ wf q /\ wf r /\
           value n = value d * value q + value r /\ Z.abs (value r) < Z.abs (value d) /\
           0 <= value r * value n).
Proof. cbv zeta. apply bignum_divide_correct; [wf_now|wf_now|room_now]. Defined.
