(* ===== verification/BignumBits.v ===== *)
(** * bignum.c: bitwise operations, shifts and bit counts

    Bignums are sign and magnitude; these operations treat them as infinite
    two's-complement integers, like the [Z] operations [Z.land], [Z.lor],
    [Z.lxor], [Z.lnot], [Z.shiftl] and [Z.shiftr] that specify them. *)

From Stdlib Require Import ZArith List Bool Lia.
From S2P Require Import Prelude Object Bits Bignum BignumAdd BignumMul BignumDiv.
Import ListNotations.

#[local] Open Scope Z_scope.
#[local] Open Scope microcode_scope.

(** ** Bitwise operations on magnitudes *)

Definition bignum_bitwise_not (b : bignum) : outcome bignum :=
  bignum_subtract (BIGNUM_ONE true) b.

Definition BITWISE_AND (x y : Z) : Z := Z.land x y.
Definition BITWISE_ANDC2 (x y : Z) : Z := Z.land x (Z.lnot y).
Definition BITWISE_ANDC1 (x y : Z) : Z := Z.land y (Z.lnot x).
Definition BITWISE_XOR (x y : Z) : Z := Z.lxor x y.
Definition BITWISE_IOR (x y : Z) : Z := Z.lor x y.

(** The two loops of [DEFINE_BITWISE_UNSIGNED]. *)
Fixpoint bitwise_digits (op : Z -> Z -> Z) (xs ys : list Z) {struct xs} : list Z :=
  match xs with
  | [] => []
  | x :: xs' =>
      match ys with
      | [] => op x 0 :: bitwise_digits op xs' []
      | y :: ys' => op x y :: bitwise_digits op xs' ys'
      end
  end.

Definition bitwise_unsigned_body (op : Z -> Z -> Z) (x y : bignum) : outcome bignum :=
  r <- bignum_allocate (BIGNUM_LENGTH x) false ;;
  assert_that (BIGNUM_LENGTH x >=? BIGNUM_LENGTH y) ;;
  r <- store_digits r (bitwise_digits op (digits x) (digits y)) ;;
  Return (bignum_trim r).

(** [DEFINE_BITWISE_UNSIGNED]: [commuted] is the operation of the function the
    macro calls with the operands exchanged, whose own length test then fails;
    with [SWAP] it is [op] itself. *)
Definition define_bitwise_unsigned (op commuted : Z -> Z -> Z) (x y : bignum) : outcome bignum :=
  if BIGNUM_LENGTH x <? BIGNUM_LENGTH y
  then bitwise_unsigned_body commuted y x
  else bitwise_unsigned_body op x y.

Definition bignum_bitwise_and_unsigned := define_bitwise_unsigned BITWISE_AND BITWISE_AND.
Definition bignum_bitwise_andc2_unsigned := define_bitwise_unsigned BITWISE_ANDC2 BITWISE_ANDC1.
Definition bignum_bitwise_andc1_unsigned := define_bitwise_unsigned BITWISE_ANDC1 BITWISE_ANDC2.
Definition bignum_bitwise_xor_unsigned := define_bitwise_unsigned BITWISE_XOR BITWISE_XOR.
Definition bignum_bitwise_ior_unsigned := define_bitwise_unsigned BITWISE_IOR BITWISE_IOR.

Definition bignum_bitwise_nor_unsigned (x y : bignum) : outcome bignum :=
  r <- define_bitwise_unsigned BITWISE_IOR BITWISE_IOR x y ;; bignum_bitwise_not r.
Definition bignum_bitwise_eqv_unsigned (x y : bignum) : outcome bignum :=
  r <- define_bitwise_unsigned BITWISE_XOR BITWISE_XOR x y ;; bignum_bitwise_not r.
Definition bignum_bitwise_nand_unsigned (x y : bignum) : outcome bignum :=
  r <- define_bitwise_unsigned BITWISE_AND BITWISE_AND x y ;; bignum_bitwise_not r.

(** ** Signed bitwise operations *)

(** [DEFINE_BITWISE]. *)
Definition define_bitwise (x0 y0 : bignum -> bignum -> outcome bignum)
  (pp pn np nn : bignum -> bignum -> outcome bignum) (x y : bignum) : outcome bignum :=
  if BIGNUM_ZERO_P x then y0 x y
  else if BIGNUM_ZERO_P y then x0 x y
  else if BIGNUM_POSITIVE_P x
  then if BIGNUM_POSITIVE_P y then pp x y
       else ny <- bignum_bitwise_not y ;; pn x ny
  else if BIGNUM_POSITIVE_P y
       then nx <- bignum_bitwise_not x ;; np nx y
       else nx <- bignum_bitwise_not x ;; ny <- bignum_bitwise_not y ;; nn nx ny.

Definition result_zero (_ _ : bignum) : outcome bignum := Return BIGNUM_ZERO.
Definition result_minus_one (_ _ : bignum) : outcome bignum := Return (BIGNUM_ONE true).
Definition result_x (x _ : bignum) : outcome bignum := Return x.
Definition result_y (_ y : bignum) : outcome bignum := Return y.
Definition result_not_x (x _ : bignum) : outcome bignum := bignum_bitwise_not x.
Definition result_not_y (_ y : bignum) : outcome bignum := bignum_bitwise_not y.

Definition bignum_bitwise_and :=
  define_bitwise result_zero result_zero
    bignum_bitwise_and_unsigned bignum_bitwise_andc2_unsigned
    bignum_bitwise_andc1_unsigned bignum_bitwise_nor_unsigned.

Definition bignum_bitwise_andc2 :=
  define_bitwise result_x result_zero
    bignum_bitwise_andc2_unsigned bignum_bitwise_and_unsigned
    bignum_bitwise_nor_unsigned bignum_bitwise_andc1_unsigned.

Definition bignum_bitwise_andc1 :=
  define_bitwise result_zero result_y
    bignum_bitwise_andc1_unsigned bignum_bitwise_nor_unsigned
    bignum_bitwise_and_unsigned bignum_bitwise_andc2_unsigned.

Definition bignum_bitwise_orc2_unsigned (x y : bignum) : outcome bignum :=
  r <- bignum_bitwise_andc1 x y ;; bignum_bitwise_not r.
Definition bignum_bitwise_orc1_unsigned (x y : bignum) : outcome bignum :=
  r <- bignum_bitwise_andc2 x y ;; bignum_bitwise_not r.

Definition bignum_bitwise_xor :=
  define_bitwise result_x result_y
    bignum_bitwise_xor_unsigned bignum_bitwise_eqv_unsigned
    bignum_bitwise_eqv_unsigned bignum_bitwise_xor_unsigned.

Definition bignum_bitwise_ior :=
  define_bitwise result_x result_y
    bignum_bitwise_ior_unsigned bignum_bitwise_orc2_unsigned
    bignum_bitwise_orc1_unsigned bignum_bitwise_nand_unsigned.

Definition bignum_bitwise_nor :=
  define_bitwise result_not_x result_not_y
    bignum_bitwise_nor_unsigned bignum_bitwise_andc1_unsigned
    bignum_bitwise_andc2_unsigned bignum_bitwise_and_unsigned.

Definition bignum_bitwise_eqv :=
  define_bitwise result_not_x result_not_y
    bignum_bitwise_eqv_unsigned bignum_bitwise_xor_unsigned
    bignum_bitwise_xor_unsigned bignum_bitwise_eqv_unsigned.

Definition bignum_bitwise_orc2 :=
  define_bitwise result_minus_one result_not_y
    bignum_bitwise_orc2_unsigned bignum_bitwise_ior_unsigned
    bignum_bitwise_nand_unsigned bignum_bitwise_orc1_unsigned.

Definition bignum_bitwise_orc1 :=
  define_bitwise result_not_x result_minus_one
    bignum_bitwise_orc1_unsigned bignum_bitwise_nand_unsigned
    bignum_bitwise_ior_unsigned bignum_bitwise_orc2_unsigned.

Definition bignum_bitwise_nand :=
  define_bitwise result_minus_one result_minus_one
    bignum_bitwise_nand_unsigned bignum_bitwise_orc1_unsigned
    bignum_bitwise_orc2_unsigned bignum_bitwise_ior_unsigned.

(** ** Lengths and counts *)

Definition bignum_length_in_bits (b : bignum) : outcome Z :=
  if BIGNUM_ZERO_P b then Return 0
  else
    let index := BIGNUM_LENGTH b - 1 in
    msd <- BIGNUM_REF b index ;;
    Return (to_ulong (ulong_length_in_bits msd + BIGNUM_DIGIT_LENGTH * index)).

(** The scan of [bignum_integer_length] over the digits below the last one. *)
Fixpoint low_digits_zero (ds : list Z) : bool :=
  match ds with
  | [] | [_] => true
  | d :: ds' => if negb (0 =? d) then false else low_digits_zero ds'
  end.

Definition bignum_integer_length (b : bignum) : outcome Z :=
  length_in_bits <- bignum_length_in_bits b ;;
  if BIGNUM_ZERO_P b || BIGNUM_POSITIVE_P b then Return length_in_bits
  else if negb (low_digits_zero (digits b)) then Return length_in_bits
  else
    end_ <- BIGNUM_REF b (BIGNUM_LENGTH b - 1) ;;
    Return (to_ulong (length_in_bits - (if 0 =? Z.land end_ (end_ - 1) then 1 else 0))).

(** The scan of [bignum_first_set_bit]: the first nonzero digit and its index. *)
Fixpoint first_nonzero_digit (ds : list Z) (index : Z) : option (Z * Z) :=
  match ds with
  | [] => None
  | d :: ds' => if negb (d =? 0) then Some (d, index) else first_nonzero_digit ds' (index + 1)
  end.

Definition bignum_first_set_bit (b : bignum) : outcome Z :=
  if BIGNUM_ZERO_P b then Return (-1)
  else
    match first_nonzero_digit (digits b) 0 with
    | None => Exception
    | Some (d, index) =>
        Return (to_long (ulong_bit_count (Z.shiftr (Z.lxor d (d - 1)) 1) + index * BIGNUM_DIGIT_LENGTH))
    end.

Fixpoint digits_bit_count (ds : list Z) (bit_count : Z) : Z :=
  match ds with
  | [] => bit_count
  | d :: ds' => digits_bit_count ds' (to_ulong (bit_count + ulong_bit_count d))
  end.

(** Over the length of [ys]; returns the distance and the digits of [x] left. *)
Fixpoint digits_hamming_distance (xs ys : list Z) (distance : Z) {struct ys} : outcome (Z * list Z) :=
  match ys with
  | [] => Return (distance, xs)
  | y :: ys' =>
      match xs with
      | [] => Wild
      | x :: xs' => digits_hamming_distance xs' ys' (to_ulong (distance + ulong_bit_count (Z.lxor x y)))
      end
  end.

Definition bignum_positive_hamming_distance (x y : bignum) : outcome Z :=
  assert_that (negb (BIGNUM_ZERO_P x)) ;;
  assert_that (negb (BIGNUM_ZERO_P y)) ;;
  assert_that (BIGNUM_POSITIVE_P x) ;;
  assert_that (BIGNUM_POSITIVE_P y) ;;
  let '(x, y) := if BIGNUM_LENGTH x <? BIGNUM_LENGTH y then (y, x) else (x, y) in
  '(hamming_distance, rest) <- digits_hamming_distance (digits x) (digits y) 0 ;;
  Return (to_ulong (hamming_distance + digits_bit_count rest 0)).

Definition bignum_bit_count_unsigned (x : bignum) : Z := digits_bit_count (digits x) 0.

Definition bignum_negative_hamming_distance (x y : bignum) : outcome Z :=
  x <- bignum_bitwise_not x ;;
  y <- bignum_bitwise_not y ;;
  if BIGNUM_ZERO_P x then Return (bignum_bit_count_unsigned y)
  else if BIGNUM_ZERO_P y then Return (bignum_bit_count_unsigned x)
  else bignum_positive_hamming_distance x y.

Definition bignum_bit_count (x : bignum) : outcome Z :=
  if BIGNUM_ZERO_P x then Return 0
  else if BIGNUM_NEGATIVE_P x
  then nx <- bignum_bitwise_not x ;; Return (bignum_bit_count_unsigned nx)
  else Return (bignum_bit_count_unsigned x).

(** [same_object] is the pointer comparison [x == y]. *)
Definition bignum_hamming_distance (same_object : bool) (x y : bignum) : outcome Z :=
  if same_object then Return 0
  else if BIGNUM_ZERO_P x
  then Return (if BIGNUM_NEGATIVE_P y then -1 else bignum_bit_count_unsigned y)
  else if BIGNUM_ZERO_P y
  then Return (if BIGNUM_NEGATIVE_P x then -1 else bignum_bit_count_unsigned x)
  else if BIGNUM_POSITIVE_P x
  then if BIGNUM_POSITIVE_P y then bignum_positive_hamming_distance x y else Return (-1)
  else if BIGNUM_POSITIVE_P y then Return (-1) else bignum_negative_hamming_distance x y.

(** ** Shifts *)

(** The loop over the digits after the first: the digits stored and the last [extra]. *)
Fixpoint shift_right_loop (bits : Z) (ds : list Z) (extra : Z) : list Z * Z :=
  let mask := BIGNUM_DIGIT_ONES bits in
  let shift := BIGNUM_DIGIT_LENGTH - bits in
  match ds with
  | [] => ([], extra)
  | digit :: ds' =>
      let '(rest, e) := shift_right_loop bits ds' (Z.shiftr digit bits) in
      (Z.lor (Z.shiftl (Z.land digit mask) shift) extra :: rest, e)
  end.

(** [beyond] is the heap word after the last digit of [n], which the code reads
    when [digits] is the length of [n]. *)
Definition bignum_shift_right_unsigned (beyond : Z) (n : bignum) (digits_ bits : Z) : outcome bignum :=
  let n_length := BIGNUM_LENGTH n in
  let top_empty := (0 <? n_length) && (0 =? Z.shiftr (last (digits n) 0) bits) in
  let r_length := n_length - digits_ - (if top_empty then 1 else 0) in
  r <- bignum_allocate r_length false ;;
  let rest := skipn (Z.to_nat digits_) (digits n) in
  if bits =? 0
  then store_digits r rest
  else
    '(first, rest) <- match rest with
                      | d :: rest => Return (d, rest)
                      | [] => if digits_ =? n_length then Return (beyond, []) else Wild
                      end ;;
    let '(ds, extra) := shift_right_loop bits rest (Z.shiftr first bits) in
    let ds := if negb (extra =? 0) then ds ++ [extra] else ds in
    r <- store_digits r ds ;;
    assert_that (zlength ds =? r_length) ;;
    Return r.

Definition bignum_shift_right (beyond : Z) (n : bignum) (m : Z) : outcome bignum :=
  let digits := m / BIGNUM_DIGIT_LENGTH in
  let bits := m mod BIGNUM_DIGIT_LENGTH in
  if digits >=? BIGNUM_LENGTH n
  then Return (if BIGNUM_NEGATIVE_P n then BIGNUM_ONE true else BIGNUM_ZERO)
  else if BIGNUM_NEGATIVE_P n
  then
    n <- bignum_bitwise_not n ;;
    r <- bignum_shift_right_unsigned beyond n digits bits ;;
    bignum_bitwise_not r
  else bignum_shift_right_unsigned beyond n digits bits.

(** The loop for a shift of less than a digit: the digits stored and the last [temp]. *)
Fixpoint shift_left_loop (shift : Z) (ds : list Z) (temp : Z) : list Z * Z :=
  match ds with
  | [] => ([], temp)
  | digit :: ds' =>
      let '(rest, t) := shift_left_loop shift ds' (Z.shiftr digit (BIGNUM_DIGIT_LENGTH - shift)) in
      (Z.lor (Z.land (to_long (Z.shiftl digit shift)) BIGNUM_DIGIT_MASK) temp :: rest, t)
  end.

Definition bignum_shift_left (n : bignum) (m : Z) : outcome bignum :=
  let ln := BIGNUM_LENGTH n in
  if (m =? 0) || BIGNUM_ZERO_P n then Return n
  else
    msd <- BIGNUM_REF n (ln - 1) ;;
    let delta := ulong_length_in_bits msd in
    let zeroes := m / BIGNUM_DIGIT_LENGTH in
    let shift := m mod BIGNUM_DIGIT_LENGTH in
    let total := to_ulong (delta + m) in
    let ln2 := (ln - 1) + total / BIGNUM_DIGIT_LENGTH
               + (if negb (total mod BIGNUM_DIGIT_LENGTH =? 0) then 1 else 0) in
    result <- bignum_allocate ln2 (BIGNUM_NEGATIVE_P n) ;;
    if shift =? 0
    then store_digits result (repeat 0 (Z.to_nat zeroes) ++ digits n)
    else
      let '(ds, temp) := shift_left_loop shift (digits n) 0 in
      store_digits result (repeat 0 (Z.to_nat zeroes) ++ ds ++ (if negb (temp =? 0) then [temp] else [])).

(** The last loop of [unsigned_long_to_shifted_bignum]. *)
Fixpoint shifted_word_digits (fuel : nat) (n : Z) : outcome (list Z) :=
  if n >? 0
  then match fuel with
       | O => OutOfFuel
       | S fuel => rest <- shifted_word_digits fuel (Z.shiftr n BIGNUM_DIGIT_LENGTH) ;;
                   Return (Z.land n BIGNUM_DIGIT_MASK :: rest)
       end
  else Return [].

(** A word has at most two digits. *)
Definition word_digits_fuel : nat := 2.

Definition unsigned_long_to_shifted_bignum (n m : Z) (sign : bool) : outcome bignum :=
  if n =? 0 then Return BIGNUM_ZERO
  else
    let delta := ulong_length_in_bits n in
    let zeroes := m / BIGNUM_DIGIT_LENGTH in
    let shift := m mod BIGNUM_DIGIT_LENGTH in
    let total := to_ulong (delta + m) in
    let ln := total / BIGNUM_DIGIT_LENGTH + (if negb (total mod BIGNUM_DIGIT_LENGTH =? 0) then 1 else 0) in
    result <- bignum_allocate ln sign ;;
    let first := Z.land (to_ulong (Z.shiftl n shift)) BIGNUM_DIGIT_MASK in
    rest <- shifted_word_digits word_digits_fuel (Z.shiftr n (BIGNUM_DIGIT_LENGTH - shift)) ;;
    store_digits result (repeat 0 (Z.to_nat zeroes) ++ first :: rest).

Definition bignum_nonnegative_one_bits (size position : Z) : outcome bignum :=
  r <- bignum_shift_left (BIGNUM_ONE true) size ;;
  r <- bignum_bitwise_not r ;;
  bignum_shift_left r position.

Definition bignum_negative_zero_bits (n m : Z) : outcome bignum :=
  r <- bignum_nonnegative_one_bits n m ;; bignum_bitwise_not r.

(** ** Range test *)

Definition bignum_fits_in_word_p (b : bignum) (word_length : Z) (twos_complement_p : bool) : outcome bool :=
  let test (n_bits : Z) : outcome bool :=
    assert_that (n_bits >? 0) ;;
    let length := BIGNUM_LENGTH b in
    let max_digits := to_uint (BIGNUM_BITS_TO_DIGITS n_bits) in
    if to_uint length <? max_digits then Return true
    else if to_uint length >? max_digits then Return false
    else
      msd <- BIGNUM_REF b (length - 1) ;;
      let max := to_ulong (Z.shiftl 1 (n_bits - (length - 1) * BIGNUM_DIGIT_LENGTH)) in
      Return ((msd <? max) || (twos_complement_p && (msd =? max) && BIGNUM_NEGATIVE_P b)) in
  if twos_complement_p then test (to_uint (word_length - 1))
  else if BIGNUM_NEGATIVE_P b then Return false
  else test (to_uint word_length).

(** ** Sizes *)

Lemma length_bound b k : wf b -> 0 <= k -> magnitude b < BIGNUM_RADIX ^ k -> BIGNUM_LENGTH b <= k.
Proof.
  intros Hb Hk Hm. destruct (list_eq_dec Z.eq_dec (digits b) []) as [E|E].
  - unfold BIGNUM_LENGTH. rewrite E. cbn. lia.
  - pose proof (magnitude_lower b Hb E) as L.
    apply Z.le_ngt. intros H. pose proof (Z.pow_le_mono_r BIGNUM_RADIX k (BIGNUM_LENGTH b - 1)). rlia.
Qed.

Lemma magnitude_abs b : wf b -> magnitude b = Z.abs (value b).
Proof. intros Hb. pose proof (magnitude_nonneg b Hb). unfold value. destruct (negative_p b); lia. Qed.

(** The values that leave [room] are those below a power of the radix.  The
    power is kept abstract: its numeral would not fit in memory. *)
Lemma room_bound_exists : { k : Z | 2 <= k /\ k = BIGNUM_LENGTH_MAX - 1 }.
Proof. exists (BIGNUM_LENGTH_MAX - 1). split; [rlia|reflexivity]. Qed.

Definition room_digits : Z := proj1_sig room_bound_exists.

Lemma room_digits_eq : 2 <= room_digits /\ room_digits = BIGNUM_LENGTH_MAX - 1.
Proof. exact (proj2_sig room_bound_exists). Qed.

Definition room_bound : Z := BIGNUM_RADIX ^ room_digits.

Lemma room_bound_pow : room_bound = 2 ^ (62 * room_digits).
Proof. pose proof room_digits_eq. unfold room_bound. rewrite RADIX_eq, <- Z.pow_mul_r by lia. reflexivity. Qed.

Lemma room_iff b : wf b -> room b <-> Z.abs (value b) < room_bound.
Proof.
  intros Hb. rewrite <- magnitude_abs by assumption. pose proof room_digits_eq as [E2 E]. unfold room. split.
  - intros Hr. pose proof (eval_upper _ (wf_digits b Hb)) as U. fold (magnitude b) in U.
    apply Z.lt_le_trans with (1 := U). apply Z.pow_le_mono_r; [rlia|]. unfold BIGNUM_LENGTH in Hr. lia.
  - intros Hm. apply length_bound in Hm; [lia|assumption|lia].
Qed.

Lemma room_bound_large : 2 ^ 64 <= room_bound.
Proof. pose proof room_digits_eq. rewrite room_bound_pow. apply Z.pow_le_mono_r; lia. Qed.

(** ** Complement *)

Lemma minus_one_room : room (BIGNUM_ONE true).
Proof. unfold room, BIGNUM_LENGTH. cbn. rlia. Qed.
#[export] Hint Resolve minus_one_room : core.

Lemma bignum_bitwise_not_ok x : wf x -> room x ->
  returns (bignum_bitwise_not x) (represents (Z.lnot (value x))).
Proof.
  intros Hx Hr. unfold bignum_bitwise_not. destruct (BIGNUM_ONE_represents true) as [W V].
  ret_step bignum_subtract_ok; auto. intros r H. eapply represents_eq; [exact H|].
  rewrite V. unfold Z.lnot. lia.
Qed.

(** The complement of a negative number has a complement again. *)
Lemma negative_not_ok x : wf x -> room x -> value x < 0 ->
  returns (bignum_bitwise_not x) (fun r => represents (Z.lnot (value x)) r /\ room r /\ 0 <= value r).
Proof.
  intros Hx Hr Hv. ret_step bignum_bitwise_not_ok; auto. intros r H. split; [exact H|].
  destruct H as [Wr Vr]. apply room_iff in Hr; [|assumption]. unfold Z.lnot in Vr.
  split; [apply room_iff; [assumption|lia]|lia].
Qed.

(** ** Digit-wise operations

    An operation that acts on the bits of a word part by part, keeps words
    within their width and maps zeros to zero. *)

Class Wordwise (op : Z -> Z -> Z) : Prop := {
  op_split : forall k a b x y, 0 <= k -> 0 <= a < 2 ^ k -> 0 <= b < 2 ^ k ->
    op (a + 2 ^ k * x) (b + 2 ^ k * y) = op a b + 2 ^ k * op x y;
  op_range : forall k a b, 0 <= k -> 0 <= a < 2 ^ k -> 0 <= b < 2 ^ k -> 0 <= op a b < 2 ^ k
}.

#[export] Instance Wordwise_AND : Wordwise BITWISE_AND := {| op_split := land_split; op_range := land_range |}.
#[export] Instance Wordwise_IOR : Wordwise BITWISE_IOR := {| op_split := lor_split; op_range := lor_range |}.
#[export] Instance Wordwise_XOR : Wordwise BITWISE_XOR := {| op_split := lxor_split; op_range := lxor_range |}.

#[export] Instance Wordwise_ANDC2 : Wordwise BITWISE_ANDC2.
Proof.
  unfold BITWISE_ANDC2. constructor; intros; rewrite <- !Z.ldiff_land; [now apply ldiff_split|now apply ldiff_range].
Qed.

#[export] Instance Wordwise_ANDC1 : Wordwise BITWISE_ANDC1.
Proof.
  unfold BITWISE_ANDC1. constructor; intros; rewrite <- !Z.ldiff_land; [now apply ldiff_split|now apply ldiff_range].
Qed.

Section Bitwise.
Context (op : Z -> Z -> Z) `{!Wordwise op}.

Lemma op_zero : op 0 0 = 0.
Proof. pose proof (op_range 0 0 0) as H. change (2 ^ 0) with 1 in H. lia. Qed.

Lemma op_digit a b x y :
  0 <= a < BIGNUM_RADIX -> 0 <= b < BIGNUM_RADIX ->
  op (a + BIGNUM_RADIX * x) (b + BIGNUM_RADIX * y) = op a b + BIGNUM_RADIX * op x y.
Proof. rewrite RADIX_eq. apply op_split. lia. Qed.

Lemma op_digit_range a b : 0 <= a < BIGNUM_RADIX -> 0 <= b < BIGNUM_RADIX -> 0 <= op a b < BIGNUM_RADIX.
Proof. rewrite RADIX_eq. apply op_range. lia. Qed.

Lemma bitwise_digits_ok xs : forall ys,
  digits_ok xs -> digits_ok ys -> (length ys <= length xs)%nat ->
  digits_ok (bitwise_digits op xs ys) /\ length (bitwise_digits op xs ys) = length xs /\
  eval (bitwise_digits op xs ys) = op (eval xs) (eval ys).
Proof.
  induction xs as [|x xs IH]; intros ys Hx Hy Hl.
  - destruct ys; [|cbn in Hl; lia]. cbn. rewrite op_zero. auto.
  - apply digits_below_cons in Hx as [Hx Hxs]. destruct ys as [|y ys]; cbn [bitwise_digits length positional] in *.
    + destruct (IH [] Hxs Hy) as (H1 & H2 & H3); [cbn; lia|].
      split; [constructor; [apply op_digit_range; rlia|assumption]|]. split; [lia|].
      rewrite H3. change (positional BIGNUM_RADIX []) with 0.
      replace (op (x + _) 0) with (op (x + BIGNUM_RADIX * eval xs) (0 + BIGNUM_RADIX * 0)) by (f_equal; lia).
      rewrite op_digit by rlia. reflexivity.
    + apply digits_below_cons in Hy as [Hy Hys]. destruct (IH ys Hxs Hys) as (H1 & H2 & H3); [lia|].
      split; [constructor; [now apply op_digit_range|assumption]|]. split; [lia|].
      now rewrite H3, op_digit.
Qed.

Lemma bitwise_unsigned_body_ok x y :
  wf x -> wf y -> BIGNUM_LENGTH y <= BIGNUM_LENGTH x ->
  returns (bitwise_unsigned_body op x y) (represents (op (magnitude x) (magnitude y))).
Proof.
  intros Hx Hy Hl. unfold bitwise_unsigned_body. pose proof (wf_length x Hx).
  unfold BIGNUM_LENGTH in *.
  destruct (bitwise_digits_ok (digits x) (digits y)) as (H1 & H2 & H3); try (now apply wf_digits); [lia|].
  ret_step bignum_allocate_ok; [lia|]. intros r ->. ret_assert; [lia|].
  rewrite store_digits_fresh by lia. cbn [bind]. rewrite H2, Nat2Z.id, Nat.sub_diag, app_nil_r. ret_now.
  unfold magnitude. rewrite <- H3. apply (bignum_trim_represents false); auto. lia.
Qed.
End Bitwise.

(** The operand order of the commuted operation. *)
Lemma define_bitwise_unsigned_ok op commuted `{!Wordwise op} `{!Wordwise commuted} x y :
  (forall a b, commuted b a = op a b) -> wf x -> wf y ->
  returns (define_bitwise_unsigned op commuted x y) (represents (op (magnitude x) (magnitude y))).
Proof.
  intros Hc Hx Hy. unfold define_bitwise_unsigned. destruct (Z.ltb_spec (BIGNUM_LENGTH x) (BIGNUM_LENGTH y)).
  - rewrite <- Hc. apply bitwise_unsigned_body_ok; auto. lia.
  - now apply bitwise_unsigned_body_ok.
Qed.

(** What an operation on two nonnegative bignums must compute. *)
Definition computes (f : bignum -> bignum -> outcome bignum) (g : Z -> Z -> Z) : Prop :=
  forall x y, wf x -> wf y -> room x -> room y -> 0 <= value x -> 0 <= value y ->
  returns (f x y) (represents (g (value x) (value y))).

Lemma nonnegative_magnitude x : wf x -> 0 <= value x -> magnitude x = value x.
Proof. intros Hx Hv. rewrite magnitude_abs by assumption. lia. Qed.

Lemma unsigned_computes op commuted `{!Wordwise op} `{!Wordwise commuted} :
  (forall a b, commuted b a = op a b) -> computes (define_bitwise_unsigned op commuted) op.
Proof.
  intros Hc x y Hx Hy _ _ Vx Vy. rewrite <- !nonnegative_magnitude by assumption.
  now apply define_bitwise_unsigned_ok.
Qed.

Lemma wordwise_room op `{!Wordwise op} x y r :
  room x -> room y -> wf x -> wf y -> 0 <= value x -> 0 <= value y ->
  represents (op (value x) (value y)) r -> room r /\ 0 <= value r.
Proof.
  intros Rx Ry Hx Hy Vx Vy [Wr Vr]. apply room_iff in Rx, Ry; auto. rewrite room_iff by assumption.
  rewrite Vr. rewrite room_bound_pow in *. pose proof room_digits_eq.
  pose proof (op_range (62 * room_digits) (value x) (value y)). lia.
Qed.

Lemma unsigned_not_computes op commuted `{!Wordwise op} `{!Wordwise commuted} :
  (forall a b, commuted b a = op a b) ->
  computes (fun x y => r <- define_bitwise_unsigned op commuted x y ;; bignum_bitwise_not r)
           (fun a b => Z.lnot (op a b)).
Proof.
  intros Hc x y Hx Hy Rx Ry Vx Vy. ret_step (unsigned_computes op commuted Hc); auto. intros r Hr.
  destruct (wordwise_room op x y r) as [Rr Zr]; auto. destruct Hr as [Wr <-]. now apply bignum_bitwise_not_ok.
Qed.

Lemma and_computes : computes bignum_bitwise_and_unsigned Z.land.
Proof. apply unsigned_computes; try exact _. intros. apply Z.land_comm. Qed.
Lemma ior_computes : computes bignum_bitwise_ior_unsigned Z.lor.
Proof. apply unsigned_computes; try exact _. intros. apply Z.lor_comm. Qed.
Lemma xor_computes : computes bignum_bitwise_xor_unsigned Z.lxor.
Proof. apply unsigned_computes; try exact _. intros. apply Z.lxor_comm. Qed.
Lemma andc2_computes : computes bignum_bitwise_andc2_unsigned BITWISE_ANDC2.
Proof. apply unsigned_computes; try exact _. reflexivity. Qed.
Lemma andc1_computes : computes bignum_bitwise_andc1_unsigned BITWISE_ANDC1.
Proof. apply unsigned_computes; try exact _. reflexivity. Qed.
Lemma nor_computes : computes bignum_bitwise_nor_unsigned (fun a b => Z.lnot (Z.lor a b)).
Proof. apply unsigned_not_computes; try exact _. intros. apply Z.lor_comm. Qed.
Lemma eqv_computes : computes bignum_bitwise_eqv_unsigned (fun a b => Z.lnot (Z.lxor a b)).
Proof. apply unsigned_not_computes; try exact _. intros. apply Z.lxor_comm. Qed.
Lemma nand_computes : computes bignum_bitwise_nand_unsigned (fun a b => Z.lnot (Z.land a b)).
Proof. apply unsigned_not_computes; try exact _. intros. apply Z.land_comm. Qed.

(** ** Signed operations *)

(** Bitwise identities, proved bit by bit. *)
Ltac bitwise :=
  intros; apply Z.bits_inj'; intros;
  unfold BITWISE_AND, BITWISE_ANDC1, BITWISE_ANDC2, BITWISE_IOR, BITWISE_XOR;
  rewrite ?Z.bits_0, ?Z.bits_m1 by assumption;
  repeat (rewrite ?Z.land_spec, ?Z.lor_spec, ?Z.lxor_spec, ?Z.lnot_spec, ?Z.bits_0, ?Z.bits_m1 by assumption);
  repeat match goal with |- context [Z.testbit ?a ?n] => destruct (Z.testbit a n) end; reflexivity.

Lemma value_sign x : wf x -> value x <> 0 -> BIGNUM_POSITIVE_P x = false -> value x < 0.
Proof. intros Hx Hv Hp. rewrite BIGNUM_POSITIVE_P_value in Hp by assumption. lia. Qed.

(** The macro [DEFINE_BITWISE]: four quadrants and the two zero cases compute [F]. *)
Lemma define_bitwise_ok F x0 y0 pp pn np nn fpp fpn fnp fnn x y :
  computes pp fpp -> computes pn fpn -> computes np fnp -> computes nn fnn ->
  (forall a b, fpp a b = F a b) -> (forall a b, fpn a (Z.lnot b) = F a b) ->
  (forall a b, fnp (Z.lnot a) b = F a b) -> (forall a b, fnn (Z.lnot a) (Z.lnot b) = F a b) ->
  wf x -> wf y -> room x -> room y ->
  (value x = 0 -> returns (y0 x y) (represents (F 0 (value y)))) ->
  (value y = 0 -> returns (x0 x y) (represents (F (value x) 0))) ->
  returns (define_bitwise x0 y0 pp pn np nn x y) (represents (F (value x) (value y))).
Proof.
  intros Cpp Cpn Cnp Cnn Ipp Ipn Inp Inn Hx Hy Rx Ry Z0x Z0y. unfold define_bitwise.
  rewrite !BIGNUM_ZERO_P_value by assumption.
  destruct (Z.eqb_spec (value x) 0) as [Ex|Ex]; [rewrite Ex; now apply Z0x|].
  destruct (Z.eqb_spec (value y) 0) as [Ey|Ey]; [rewrite Ey; now apply Z0y|].
  rewrite !BIGNUM_POSITIVE_P_value by assumption.
  destruct (Z.ltb_spec 0 (value x)), (Z.ltb_spec 0 (value y)).
  - rewrite <- Ipp. apply Cpp; auto; lia.
  - rewrite <- Ipn. ret_step negative_not_ok; auto; [lia|]. intros ny ([Wn Vn] & Rn & Pn).
    rewrite <- Vn. apply Cpn; auto; lia.
  - rewrite <- Inp. ret_step negative_not_ok; auto; [lia|]. intros nx ([Wn Vn] & Rn & Pn).
    rewrite <- Vn. apply Cnp; auto; lia.
  - rewrite <- Inn. ret_step (negative_not_ok x); auto; [lia|]. intros nx ([Wnx Vnx] & Rnx & Pnx).
    ret_step (negative_not_ok y); auto; [lia|]. intros ny ([Wny Vny] & Rny & Pny).
    rewrite <- Vnx, <- Vny. now apply Cnn.
Qed.

(** The results in the zero cases. *)
Ltac zero_case :=
  intros E; unfold result_zero, result_minus_one, result_x, result_y, result_not_x, result_not_y;
  first [ ret_now; apply (represents_eq 0); [apply BIGNUM_ZERO_represents | bitwise]
        | ret_now; apply (represents_eq (-1)); [apply (BIGNUM_ONE_represents true) | bitwise]
        | ret_now; split; [assumption | bitwise]
        | ret_step bignum_bitwise_not_ok; auto;
          let r := fresh in let H := fresh in intros r H; eapply represents_eq; [exact H | bitwise] ].

Ltac bitwise_operation F :=
  intros Hx Hy Rx Ry; eapply (define_bitwise_ok F);
  first [ eassumption
        | solve [eauto using and_computes, ior_computes, xor_computes, andc1_computes, andc2_computes,
                   nor_computes, eqv_computes, nand_computes]
        | zero_case | bitwise ].

Lemma bignum_bitwise_andc2_ok x y : wf x -> wf y -> room x -> room y ->
  returns (bignum_bitwise_andc2 x y) (represents (BITWISE_ANDC2 (value x) (value y))).
Proof. bitwise_operation BITWISE_ANDC2. Qed.

Lemma bignum_bitwise_andc1_ok x y : wf x -> wf y -> room x -> room y ->
  returns (bignum_bitwise_andc1 x y) (represents (BITWISE_ANDC1 (value x) (value y))).
Proof. bitwise_operation BITWISE_ANDC1. Qed.

(** The complemented forms of the signed operations above, used as unsigned
    operations: their results have room to be complemented. *)
Lemma orc2_computes : computes bignum_bitwise_orc2_unsigned (fun a b => Z.lor a (Z.lnot b)).
Proof.
  intros x y Hx Hy Rx Ry Vx Vy. unfold bignum_bitwise_orc2_unsigned.
  ret_step bignum_bitwise_andc1_ok; auto. intros r Hr.
  destruct (wordwise_room BITWISE_ANDC1 x y r) as [Rr _]; auto. destruct Hr as [Wr Vr].
  ret_step bignum_bitwise_not_ok; auto. intros r' Hr'. eapply represents_eq; [exact Hr'|]. rewrite Vr. bitwise.
Qed.

Lemma orc1_computes : computes bignum_bitwise_orc1_unsigned (fun a b => Z.lor (Z.lnot a) b).
Proof.
  intros x y Hx Hy Rx Ry Vx Vy. unfold bignum_bitwise_orc1_unsigned.
  ret_step bignum_bitwise_andc2_ok; auto. intros r Hr.
  destruct (wordwise_room BITWISE_ANDC2 x y r) as [Rr _]; auto. destruct Hr as [Wr Vr].
  ret_step bignum_bitwise_not_ok; auto. intros r' Hr'. eapply represents_eq; [exact Hr'|]. rewrite Vr. bitwise.
Qed.

(** The ten operations and the [Z] functions they compute, as one relation. *)
Inductive bitwise_operator : (bignum -> bignum -> outcome bignum) -> (Z -> Z -> Z) -> Prop :=
| op_and : bitwise_operator bignum_bitwise_and Z.land
| op_andc2 : bitwise_operator bignum_bitwise_andc2 (fun a b => Z.land a (Z.lnot b))
| op_andc1 : bitwise_operator bignum_bitwise_andc1 (fun a b => Z.land (Z.lnot a) b)
| op_xor : bitwise_operator bignum_bitwise_xor Z.lxor
| op_ior : bitwise_operator bignum_bitwise_ior Z.lor
| op_nor : bitwise_operator bignum_bitwise_nor (fun a b => Z.lnot (Z.lor a b))
| op_eqv : bitwise_operator bignum_bitwise_eqv (fun a b => Z.lnot (Z.lxor a b))
| op_orc2 : bitwise_operator bignum_bitwise_orc2 (fun a b => Z.lor a (Z.lnot b))
| op_orc1 : bitwise_operator bignum_bitwise_orc1 (fun a b => Z.lor (Z.lnot a) b)
| op_nand : bitwise_operator bignum_bitwise_nand (fun a b => Z.lnot (Z.land a b)).

#[local] Hint Resolve orc1_computes orc2_computes : core.

Lemma bitwise_operator_ok f F x y : bitwise_operator f F -> wf x -> wf y -> room x -> room y ->
  returns (f x y) (represents (F (value x) (value y))).
Proof.
  destruct 1.
  - bitwise_operation Z.land.
  - exact (bignum_bitwise_andc2_ok x y).
  - rewrite Z.land_comm. exact (bignum_bitwise_andc1_ok x y).
  - bitwise_operation Z.lxor.
  - bitwise_operation Z.lor.
  - bitwise_operation (fun a b => Z.lnot (Z.lor a b)).
  - bitwise_operation (fun a b => Z.lnot (Z.lxor a b)).
  - bitwise_operation (fun a b => Z.lor a (Z.lnot b)).
  - bitwise_operation (fun a b => Z.lor (Z.lnot a) b).
  - bitwise_operation (fun a b => Z.lnot (Z.land a b)).
Qed.

(** ** Lengths *)

Lemma radix_pow n : 0 <= n -> BIGNUM_RADIX ^ n = 2 ^ (62 * n).
Proof. intros. rewrite RADIX_eq, <- Z.pow_mul_r by lia. reflexivity. Qed.

(** A nonzero bignum by its most significant digit. *)
Lemma msd_split b : wf b -> digits b <> [] ->
  exists l x, digits b = l ++ [x] /\ digits_ok l /\ 0 < x < BIGNUM_RADIX /\
    BIGNUM_LENGTH b = zlength l + 1 /\ magnitude b = x * 2 ^ (62 * zlength l) + eval l /\
    0 <= eval l < 2 ^ (62 * zlength l) /\ BIGNUM_REF b (BIGNUM_LENGTH b - 1) = Return x.
Proof.
  intros Hb Hn. destruct (snoc_cases (digits b)) as [|(l & x & E)]; [congruence|]. exists l, x.
  pose proof (wf_digits b Hb) as D. pose proof (leading_digit_pos b _ Hb E) as Hx. rewrite last_snoc in Hx.
  unfold BIGNUM_LENGTH, magnitude, BIGNUM_REF. rewrite E in *. apply digits_below_app in D as [D _].
  rewrite <- radix_pow by lia. rewrite length_app. cbn [length].
  pose proof (eval_nonneg l D). pose proof (eval_upper l D). repeat split; try lia; auto.
  - apply Hx. now destruct l.
  - apply Hx. now destruct l.
  - rewrite eval_app. cbn [positional]. lia.
  - now rewrite digit_ref_app by lia.
Qed.

Lemma digit_word x : 0 <= x < BIGNUM_RADIX -> ulong_p x.
Proof. unfold ulong_p. rlia. Qed.

Lemma digit_bit_length x : 0 <= x < BIGNUM_RADIX -> 0 <= bit_length x <= 62.
Proof. intros. split; [apply bit_length_nonneg|apply bit_length_le; rlia]. Qed.

Lemma bignum_length_in_bits_ok b : wf b ->
  returns (bignum_length_in_bits b) (fun n => n = bit_length (magnitude b) /\ n <= 62 * BIGNUM_LENGTH_MAX).
Proof.
  intros Hb. unfold bignum_length_in_bits. pose proof (BIGNUM_ZERO_P_nil b) as Z.
  destruct (BIGNUM_ZERO_P b); [ret_now|].
  - unfold magnitude. rewrite (proj1 Z eq_refl). split; [reflexivity|rlia].
  - destruct (msd_split b Hb) as (l & x & E & D & Hx & Hl & Hm & Hlow & Hr); [intros E; apply Z in E; discriminate|].
    rewrite Hr. cbn [bind]. ret_now. rewrite ulong_length_in_bits_spec by (apply digit_word; lia).
    pose proof (digit_bit_length x). pose proof (wf_length b Hb).
    rewrite Hm, bit_length_shift by lia. rewrite Hl in *. change BIGNUM_DIGIT_LENGTH with 62.
    rewrite to_ulong_small by rlia. split; rlia.
Qed.

Lemma low_digits_zero_ok l x : digits_ok l -> low_digits_zero (l ++ [x]) = (eval l =? 0).
Proof.
  induction l as [|d l IH]; intros D; [reflexivity|]. apply digits_below_cons in D as [Hd D].
  assert (U : low_digits_zero ((d :: l) ++ [x]) = if negb (0 =? d) then false else low_digits_zero (l ++ [x]))
    by (now destruct l). rewrite U, IH by assumption. cbn [positional].
  pose proof (eval_nonneg l D). destruct (Z.eqb_spec 0 d), (Z.eqb_spec (eval l) 0); cbn [negb]; symmetry; zcases; rlia || reflexivity.
Qed.

Lemma power_of_two_iff x : 0 < x -> (Z.land x (x - 1) = 0 <-> x = 2 ^ Z.log2 x).
Proof.
  intros Hx. split; [now apply power_of_two_test|]. intros E. pose proof (Z.log2_nonneg x).
  rewrite (land_mask (Z.log2 x)) by lia. rewrite <- E. apply Z.mod_same. lia.
Qed.

(** Taking one from a number shortens it only when it is a power of two. *)
Lemma bit_length_pred x k : 0 < x -> 0 <= k ->
  bit_length (x * 2 ^ k - 1) = bit_length (x * 2 ^ k) - (if 0 =? Z.land x (x - 1) then 1 else 0).
Proof.
  intros Hx Hk. pose proof (Z.pow_pos_nonneg 2 k ltac:(lia) Hk) as P.
  pose proof (Z.log2_nonneg x) as Hj. pose proof (Z.log2_spec x Hx) as [L U].
  replace (x * 2 ^ k) with (x * 2 ^ k + 0) by lia. rewrite bit_length_shift by lia.
  assert (B : bit_length x = Z.log2 x + 1) by (unfold bit_length; destruct (Z.eqb_spec x 0); lia).
  rewrite B, Z.add_0_r. destruct (Z.eqb_spec 0 (Z.land x (x - 1))) as [E|E].
  - symmetry in E. apply power_of_two_iff in E; [|assumption]. set (j := Z.log2 x) in *. clearbody j. subst x.
    rewrite <- Z.pow_add_r by lia. destruct (Z.eq_dec (j + k) 0) as [e|]; [rewrite e; cbn; lia|].
    rewrite (bit_length_unique _ (j + k)); [lia|lia|]. pose proof (Z.pow_pos_nonneg 2 (j + k - 1)).
    replace (2 ^ (j + k)) with (2 * 2 ^ (j + k - 1)) by (rewrite <- Z.pow_succ_r by lia; f_equal; lia). lia.
  - assert (2 ^ Z.log2 x < x).
    { destruct (Z.eq_dec x (2 ^ Z.log2 x)) as [E'|]; [|lia]. apply power_of_two_iff in E'; [congruence|assumption]. }
    set (j := Z.log2 x) in *. clearbody j.
    rewrite (bit_length_unique _ (j + 1 + k)); [lia|lia|].
    replace (j + 1 + k - 1) with (j + k) by lia. replace (j + 1 + k) with (Z.succ j + k) by lia.
    rewrite !Z.pow_add_r by lia. nia.
Qed.

(** Two's-complement length. *)
Definition integer_length_of (z : Z) : Z := if z <? 0 then bit_length (Z.lnot z) else bit_length z.

Lemma bignum_integer_length_ok b : wf b ->
  returns (bignum_integer_length b) (eq (integer_length_of (value b))).
Proof.
  intros Hb. unfold bignum_integer_length, integer_length_of. ret_step bignum_length_in_bits_ok; [assumption|].
  intros n [-> Hn]. rewrite BIGNUM_ZERO_P_value, BIGNUM_POSITIVE_P_value by assumption.
  destruct (Z.ltb_spec (value b) 0) as [Hv|Hv].
  - assert (Hz : (value b =? 0) = false) by lia. assert (Hp : (0 <? value b) = false) by lia. rewrite Hz, Hp. cbn [orb].
    destruct (msd_split b Hb) as (l & x & E & D & Hx & Hl & Hm & Hlow & Hr); [apply nonzero_digits; auto; lia|].
    assert (Hneg : Z.lnot (value b) = magnitude b - 1) by (rewrite magnitude_abs by assumption; unfold Z.lnot; lia).
    rewrite E, low_digits_zero_ok, Hneg by assumption. rewrite Hm in *.
    destruct (Z.eqb_spec (eval l) 0) as [E0|E0]; cbn [negb].
    + rewrite Hr. cbn [bind]. ret_now. rewrite E0, Z.add_0_r in *. rewrite bit_length_pred by lia.
      pose proof (bit_length_pos (x * 2 ^ (62 * zlength l))) as P.
      assert (0 < x * 2 ^ (62 * zlength l)) by (apply Z.mul_pos_pos; lia).
      rewrite to_ulong_small; [reflexivity|]. destruct (0 =? _); rlia.
    + ret_now. rewrite <- Z.add_sub_assoc, !bit_length_shift by lia. reflexivity.
  - rewrite (magnitude_abs b Hb), Z.abs_eq by assumption.
    replace ((value b =? 0) || (0 <? value b)) with true by lia. now ret_now.
Qed.

(** ** The first set bit *)

Lemma trailing_zeros_shift k z : 0 <= k -> z <> 0 -> trailing_zeros (2 ^ k * z) = k + trailing_zeros z.
Proof.
  intros Hk Hz. destruct (trailing_zeros_spec z Hz) as (m & E & H).
  apply trailing_zeros_unique with m; [lia|]. rewrite Z.pow_add_r by lia. rewrite E at 1. ring.
Qed.

Lemma trailing_zeros_low n d r : 0 <= n -> 0 < d < 2 ^ n -> trailing_zeros (d + 2 ^ n * r) = trailing_zeros d.
Proof.
  intros Hn Hd. destruct (trailing_zeros_spec d ltac:(lia)) as (k & E & H). set (t := trailing_zeros d) in *.
  assert (t < n) by (now apply trailing_zeros_lt).
  apply trailing_zeros_unique with (k + 2 ^ (n - t - 1) * r); [assumption|].
  replace n with (t + 1 + (n - t - 1)) at 1 by lia. rewrite !Z.pow_add_r by lia. rewrite E at 1.
  change (2 ^ 1) with 2. ring.
Qed.

Lemma first_nonzero_digit_ok ds : forall i, digits_ok ds ->
  match first_nonzero_digit ds i with
  | None => eval ds = 0
  | Some (d, j) => 0 < d < BIGNUM_RADIX /\ i <= j < i + zlength ds /\ eval ds <> 0 /\
                   trailing_zeros (eval ds) = 62 * (j - i) + trailing_zeros d
  end.
Proof.
  induction ds as [|d ds IH]; intros i D; [reflexivity|]. apply digits_below_cons in D as [Hd D].
  cbn [first_nonzero_digit positional]. pose proof (eval_nonneg ds D). destruct (Z.eqb_spec d 0) as [->|Hn]; cbn [negb].
  - specialize (IH (i + 1) D). destruct (first_nonzero_digit ds (i + 1)) as [[d j]|]; [|lia].
    destruct IH as (H1 & H2 & H3 & H4). cbn [length]. rewrite Z.add_0_l, RADIX_eq, trailing_zeros_shift by (assumption || lia).
    rewrite RADIX_eq in *. repeat split; lia.
  - cbn [length]. rewrite RADIX_eq, trailing_zeros_low by (rewrite <- ?RADIX_eq; rlia). rewrite RADIX_eq in *.
    repeat split; lia.
Qed.

Lemma trailing_zeros_opp z : trailing_zeros (- z) = trailing_zeros z.
Proof. now destruct z. Qed.

Lemma trailing_zeros_magnitude b : trailing_zeros (magnitude b) = trailing_zeros (value b).
Proof. unfold value. destruct (negative_p b); [now rewrite trailing_zeros_opp|reflexivity]. Qed.

Lemma bignum_first_set_bit_ok b : wf b ->
  returns (bignum_first_set_bit b) (eq (if value b =? 0 then -1 else trailing_zeros (value b))).
Proof.
  intros Hb. unfold bignum_first_set_bit. rewrite BIGNUM_ZERO_P_value by assumption.
  destruct (Z.eqb_spec (value b) 0) as [E|E]; [now ret_now|].
  pose proof (wf_magnitude_pos b Hb (nonzero_digits b Hb E)) as P. unfold magnitude in P.
  pose proof (first_nonzero_digit_ok (digits b) 0 (wf_digits b Hb)) as F.
  destruct (first_nonzero_digit (digits b) 0) as [[d j]|]; [|lia]. destruct F as (H1 & H2 & H3 & H4). ret_now.
  rewrite <- trailing_zeros_magnitude. unfold magnitude. rewrite H4.
  destruct (first_set_word d ltac:(lia)) as [-> H0]. pose proof (trailing_zeros_lt d 62 ltac:(lia) H1) as Ht.
  assert (2 ^ trailing_zeros d <= 2 ^ 62) by (apply Z.pow_le_mono_r; lia).
  pose proof (Z.pow_pos_nonneg 2 (trailing_zeros d)). pose proof (wf_length b Hb). unfold BIGNUM_LENGTH in *.
  rewrite ulong_bit_count_spec, popcount_ones by (unfold ulong_p; lia).
  change BIGNUM_DIGIT_LENGTH with 62. rewrite to_long_small by rlia. lia.
Qed.

(** ** Counting bits *)

Lemma popcount_digits d r : 0 <= d < BIGNUM_RADIX -> 0 <= r ->
  popcount (d + BIGNUM_RADIX * r) = popcount d + popcount r.
Proof.
  intros Hd Hr. rewrite RADIX_eq in *. replace (d + 2 ^ 62 * r) with (r * 2 ^ 62 + d) by lia.
  rewrite popcount_split by lia. lia.
Qed.

Lemma popcount_digit d : 0 <= d < BIGNUM_RADIX -> 0 <= popcount d <= 62.
Proof. intros. split; [apply popcount_nonneg|apply popcount_le; rlia]. Qed.

Lemma digits_bit_count_ok ds : forall acc, digits_ok ds -> 0 <= acc -> acc + 62 * zlength ds < 2 ^ 64 ->
  digits_bit_count ds acc = acc + popcount (eval ds) /\ 0 <= popcount (eval ds) <= 62 * zlength ds.
Proof.
  induction ds as [|d ds IH]; intros acc D Ha Hb.
  - cbn [digits_bit_count positional length]. change (popcount 0) with 0. lia.
  - apply digits_below_cons in D as [Hd D]. cbn [digits_bit_count positional length] in *.
    pose proof (popcount_digit d Hd). rewrite popcount_digits by auto.
    rewrite ulong_bit_count_spec by now apply digit_word. rewrite to_ulong_small by lia.
    destruct (IH (acc + popcount d) D) as [-> ?]; lia.
Qed.

Lemma lxor_digits x y xs ys : 0 <= x < BIGNUM_RADIX -> 0 <= y < BIGNUM_RADIX ->
  Z.lxor (x + BIGNUM_RADIX * xs) (y + BIGNUM_RADIX * ys) = Z.lxor x y + BIGNUM_RADIX * Z.lxor xs ys.
Proof. intros. now apply (op_digit BITWISE_XOR). Qed.

Lemma lxor_digit x y : 0 <= x < BIGNUM_RADIX -> 0 <= y < BIGNUM_RADIX -> 0 <= Z.lxor x y < BIGNUM_RADIX.
Proof. intros. now apply (op_digit_range BITWISE_XOR). Qed.

Lemma hamming_loops_ok ys : forall xs acc,
  digits_ok xs -> digits_ok ys -> (length ys <= length xs)%nat -> 0 <= acc -> acc + 62 * zlength xs < 2 ^ 64 ->
  returns ('(distance, rest) <- digits_hamming_distance xs ys acc ;;
           Return (to_ulong (distance + digits_bit_count rest 0)))
    (eq (acc + popcount (Z.lxor (eval xs) (eval ys)))).
Proof.
  induction ys as [|y ys IH]; intros xs acc Hx Hy Hl Ha Hb.
  - cbn [digits_hamming_distance bind positional]. ret_now. rewrite Z.lxor_0_r.
    destruct (digits_bit_count_ok xs 0 Hx) as [-> ?]; [lia..|]. rewrite to_ulong_small; lia.
  - destruct xs as [|x xs]; [cbn in Hl; lia|]. cbn [length] in Hl, Hb.
    apply digits_below_cons in Hx as [Hx Hxs]. apply digits_below_cons in Hy as [Hy Hys].
    cbn [digits_hamming_distance positional]. pose proof (lxor_digit x y Hx Hy) as Hxy.
    pose proof (popcount_digit _ Hxy). rewrite ulong_bit_count_spec by now apply digit_word.
    rewrite to_ulong_small by lia. rewrite lxor_digits, popcount_digits; auto.
    + rewrite Z.add_assoc. apply IH; auto; lia.
    + apply Z.lxor_nonneg. split; intros _; now apply eval_nonneg.
Qed.

(** Two's-complement population count: of the ones of a nonnegative number,
    of the zeros of a negative one. *)
Definition bit_count_of (z : Z) : Z := if z <? 0 then popcount (Z.lnot z) else popcount z.

Lemma word_room b : wf b -> 62 * BIGNUM_LENGTH b < 2 ^ 64.
Proof. intros H%wf_length. rlia. Qed.

Lemma bignum_bit_count_unsigned_ok b : wf b -> 0 <= value b -> bignum_bit_count_unsigned b = popcount (value b).
Proof.
  intros Hb Hv. unfold bignum_bit_count_unsigned. pose proof (word_room b Hb). unfold BIGNUM_LENGTH in *.
  destruct (digits_bit_count_ok (digits b) 0 (wf_digits b Hb)) as [-> _]; [lia..|].
  now rewrite <- (nonnegative_magnitude b Hb Hv).
Qed.

Lemma bignum_bit_count_ok b : wf b -> room b ->
  returns (bignum_bit_count b) (eq (bit_count_of (value b))).
Proof.
  intros Hb Hr. unfold bignum_bit_count, bit_count_of. rewrite BIGNUM_ZERO_P_value, BIGNUM_NEGATIVE_P_value by assumption.
  destruct (Z.eqb_spec (value b) 0) as [->|E]; [now ret_now|]. destruct (Z.ltb_spec (value b) 0).
  - ret_step negative_not_ok; auto. intros r ([Wr Vr] & _ & Pr). ret_now.
    now rewrite <- Vr, bignum_bit_count_unsigned_ok.
  - ret_now. now rewrite bignum_bit_count_unsigned_ok.
Qed.

Lemma bignum_positive_hamming_distance_ok x y : wf x -> wf y -> 0 < value x -> 0 < value y ->
  returns (bignum_positive_hamming_distance x y) (eq (popcount (Z.lxor (value x) (value y)))).
Proof.
  assert (M : forall x y, wf x -> wf y -> 0 < value x -> 0 < value y -> BIGNUM_LENGTH y <= BIGNUM_LENGTH x ->
    returns ('(distance, rest) <- digits_hamming_distance (digits x) (digits y) 0 ;;
             Return (to_ulong (distance + digits_bit_count rest 0)))
      (eq (popcount (Z.lxor (value x) (value y))))).
  { clear. intros x y Hx Hy Vx Vy Hl. pose proof (word_room x Hx). unfold BIGNUM_LENGTH in *.
    rewrite <- !nonnegative_magnitude by (assumption || lia).
    apply (hamming_loops_ok (digits y) (digits x) 0); try (now apply wf_digits); lia. }
  intros Hx Hy Vx Vy. unfold bignum_positive_hamming_distance.
  rewrite !BIGNUM_ZERO_P_value, !BIGNUM_POSITIVE_P_value by assumption.
  do 4 (ret_assert; [lia|]). destruct (Z.ltb_spec (BIGNUM_LENGTH x) (BIGNUM_LENGTH y)).
  - rewrite Z.lxor_comm. apply M; auto. lia.
  - now apply M.
Qed.

Lemma lxor_lnot_lnot a b : Z.lxor (Z.lnot a) (Z.lnot b) = Z.lxor a b.
Proof. bitwise. Qed.

Lemma bignum_negative_hamming_distance_ok x y :
  wf x -> wf y -> room x -> room y -> value x < 0 -> value y < 0 ->
  returns (bignum_negative_hamming_distance x y) (eq (popcount (Z.lxor (value x) (value y)))).
Proof.
  intros Hx Hy Rx Ry Vx Vy. unfold bignum_negative_hamming_distance.
  ret_step (negative_not_ok x); auto. intros nx ([Wx Ex] & _ & Px).
  ret_step (negative_not_ok y); auto. intros ny ([Wy Ey] & _ & Py).
  rewrite <- lxor_lnot_lnot, <- Ex, <- Ey, !BIGNUM_ZERO_P_value by assumption.
  destruct (Z.eqb_spec (value nx) 0) as [->|]; [ret_now; now rewrite Z.lxor_0_l, bignum_bit_count_unsigned_ok|].
  destruct (Z.eqb_spec (value ny) 0) as [->|]; [ret_now; now rewrite Z.lxor_0_r, bignum_bit_count_unsigned_ok|].
  apply bignum_positive_hamming_distance_ok; auto; lia.
Qed.

(** The number of differing bits, or -1 when infinitely many differ. *)
Definition hamming_distance_of (x y : Z) : Z :=
  if Bool.eqb (x <? 0) (y <? 0) then popcount (Z.lxor x y) else -1.

Lemma bignum_hamming_distance_ok same x y :
  wf x -> wf y -> room x -> room y -> (same = true -> x = y) ->
  returns (bignum_hamming_distance same x y) (eq (hamming_distance_of (value x) (value y))).
Proof.
  intros Hx Hy Rx Ry Hs. unfold bignum_hamming_distance, hamming_distance_of.
  destruct same. { rewrite (Hs eq_refl), Bool.eqb_reflx, Z.lxor_nilpotent. now ret_now. } clear Hs.
  rewrite !BIGNUM_ZERO_P_value, !BIGNUM_NEGATIVE_P_value, !BIGNUM_POSITIVE_P_value by assumption.
  destruct (Z.eqb_spec (value x) 0) as [Ex|Ex].
  - ret_now. rewrite Ex, Z.lxor_0_l. destruct (Z.ltb_spec (value y) 0); [reflexivity|].
    symmetry. now apply bignum_bit_count_unsigned_ok.
  - destruct (Z.eqb_spec (value y) 0) as [Ey|Ey].
    + ret_now. rewrite Ey, Z.lxor_0_r. destruct (Z.ltb_spec (value x) 0); [reflexivity|].
      symmetry. now apply bignum_bit_count_unsigned_ok.
    + destruct (Z.ltb_spec 0 (value x)), (Z.ltb_spec 0 (value y)), (Z.ltb_spec (value x) 0), (Z.ltb_spec (value y) 0);
        try lia; cbn [Bool.eqb]; try now ret_now.
      * now apply bignum_positive_hamming_distance_ok.
      * now apply bignum_negative_hamming_distance_ok.
Qed.

(** ** Shifting right *)

Lemma BIGNUM_DIGIT_ONES_eq n : 0 <= n < 62 -> BIGNUM_DIGIT_ONES n = 2 ^ n - 1.
Proof.
  intros Hn. unfold BIGNUM_DIGIT_ONES. rewrite Z.shiftl_mul_pow2 by lia.
  pose proof (Z.pow_lt_mono_r 2 n 62 ltac:(lia)). pose proof (Z.pow_pos_nonneg 2 n).
  change (to_ulong (Z.lnot 0)) with (2 ^ 64 - 1).
  assert (E : to_ulong ((2 ^ 64 - 1) * 2 ^ n) = 2 ^ 64 - 2 ^ n).
  { symmetry. apply Z.mod_unique with (2 ^ n - 1); lia. }
  rewrite E. unfold to_long, Z.lnot. rewrite <- (Z.mod_unique _ (2 ^ 64) (-1) (2 ^ n - 1 + 2 ^ 63)) by lia. lia.
Qed.

Lemma shift_right_loop_ok bits ds : forall extra,
  1 <= bits <= 61 -> digits_ok ds -> 0 <= extra < 2 ^ (62 - bits) ->
  let '(out, e) := shift_right_loop bits ds extra in
  digits_ok out /\ length out = length ds /\ 0 <= e /\
  e = (match ds with [] => extra | _ => Z.shiftr (last ds 0) bits end) /\
  eval out + BIGNUM_RADIX ^ zlength ds * e = extra + 2 ^ (62 - bits) * eval ds.
Proof.
  induction ds as [|d ds IH]; intros extra Hb D He; cbn [shift_right_loop].
  - repeat split; auto; try lia. cbn [length positional]. change (BIGNUM_RADIX ^ Z.of_nat 0) with 1. lia.
  - apply digits_below_cons in D as [Hd D]. change BIGNUM_DIGIT_LENGTH with 62.
    rewrite BIGNUM_DIGIT_ONES_eq by lia. rewrite (land_mask bits) by lia. rewrite shift_in by lia.
    rewrite Z.shiftr_div_pow2 by lia.
    pose proof (radix_split bits ltac:(lia)) as R. pose proof (Z.pow_pos_nonneg 2 bits ltac:(lia) ltac:(lia)).
    pose proof (Z.pow_pos_nonneg 2 (62 - bits) ltac:(lia) ltac:(lia)).
    pose proof (Z.div_mod d (2 ^ bits)) as E. pose proof (Z.mod_pos_bound d (2 ^ bits)) as Hm.
    assert (Hq : 0 <= d / 2 ^ bits < 2 ^ (62 - bits)) by (split; [apply Z.div_pos|apply Z.div_lt_upper_bound]; lia).
    assert (Hs : Z.shiftr d bits = d / 2 ^ bits) by (apply Z.shiftr_div_pow2; lia).
    set (q := d / 2 ^ bits) in *. set (m := d mod 2 ^ bits) in *.
    specialize (IH q Hb D Hq). destruct (shift_right_loop bits ds q) as [out e].
    destruct IH as (K1 & K2 & K3 & K4 & K5). cbn [length]. repeat split; try lia.
    + constructor; [|assumption]. clearbody q m. nia.
    + rewrite K4. destruct ds; [now rewrite <- Hs|reflexivity].
    + cbn [positional]. rewrite Nat2Z.inj_succ, Z.pow_succ_r by lia. clearbody q m.
      assert (Ed : d = 2 ^ bits * q + m) by lia. rewrite Ed. clear Ed E. rewrite R in *. nia.
Qed.

(** A nonnegative bignum from digits whose number needs them all. *)
Lemma full_represents ds z :
  digits_ok ds -> zlength ds <= BIGNUM_LENGTH_MAX -> eval ds = z ->
  (ds = [] \/ BIGNUM_RADIX ^ (zlength ds - 1) <= z) -> represents z (Bignum false ds).
Proof.
  intros D L E H. split; [|exact E]. constructor; cbn [digits negative_p]; auto.
  destruct H as [->|H]; [discriminate|]. apply large_trimmed; auto. now rewrite E.
Qed.

Lemma shift_right_all b m : wf b -> 0 <= value b -> 62 * BIGNUM_LENGTH b <= m -> Z.shiftr (value b) m = 0.
Proof.
  intros Hb Hv Hm. pose proof (eval_upper _ (wf_digits b Hb)) as U. fold (magnitude b) in U.
  rewrite nonnegative_magnitude, radix_pow in U by (assumption || lia).
  assert (0 <= zlength (digits b)) by lia. unfold BIGNUM_LENGTH in Hm.
  rewrite Z.shiftr_div_pow2 by lia. apply Z.div_small. split; [assumption|].
  apply Z.lt_le_trans with (1 := U). apply Z.pow_le_mono_r; lia.
Qed.

Lemma bignum_shift_right_unsigned_ok beyond n d bits :
  wf n -> 0 <= value n -> 0 <= d < BIGNUM_LENGTH n -> 0 <= bits < 62 ->
  returns (bignum_shift_right_unsigned beyond n d bits) (represents (Z.shiftr (value n) (62 * d + bits))).
Proof.
  intros Hn Hv Hd Hb. pose proof (wf_digits n Hn) as D. pose proof (wf_length n Hn) as Lmax.
  rewrite <- Z.shiftr_shiftr by lia. rewrite <- nonnegative_magnitude by assumption.
  replace (62 * d) with (62 * Z.of_nat (Z.to_nat d)) by lia.
  unfold magnitude. rewrite RADIX_eq, positional_shiftr, <- RADIX_eq by (lia || assumption).
  unfold bignum_shift_right_unsigned, BIGNUM_LENGTH in *.
  destruct (snoc_cases (digits n)) as [E|(l & x & E)]; [rewrite E in Hd; cbn in Hd; lia|].
  pose proof (leading_digit_pos n _ Hn E) as Hx. rewrite last_snoc in Hx. specialize (Hx ltac:(now destruct l)).
  rewrite E, last_snoc in *. set (k := Z.to_nat d) in *. rewrite length_app in *. cbn [length] in *.
  replace (0 <? Z.of_nat (length l + 1)) with true by lia. cbn [andb].
  rewrite skipn_app. replace (k - length l)%nat with O by lia. cbn [skipn].
  assert (Dl : digits_ok (skipn k l)).
  { apply digits_below_app in D as [D _]. rewrite <- (firstn_skipn k l) in D. now apply digits_below_app in D. }
  assert (Ll : zlength (skipn k l) = zlength l - d) by (rewrite length_skipn; lia).
  set (t := skipn k l) in *. clearbody t. rewrite (Z.shiftr_div_pow2 (eval _)) by lia.
  assert (Dt : digits_ok (t ++ [x])) by (apply digits_below_app; split; [assumption|constructor; [lia|constructor]]).
  pose proof (leading_digit_lower t x Dl) as Low. pose proof (radix_pow_pos (zlength t) ltac:(lia)) as P.
  ret_step bignum_allocate_ok; [destruct (0 =? _); lia|]. intros r ->.
  destruct (Z.eqb_spec bits 0) as [->|Hbits].
  - rewrite Z.shiftr_0_r. replace (0 =? x) with false by lia. change (2 ^ 0) with 1. rewrite Z.div_1_r.
    rewrite store_digits_fresh by (rewrite length_app; cbn [length]; lia).
    rewrite length_app. cbn [length]. replace (Z.to_nat _ - _)%nat with O by lia. cbn [repeat]. rewrite app_nil_r.
    ret_now. apply full_represents; auto; rewrite length_app; cbn [length]; [lia|].
    right. replace (Z.of_nat (length t + 1) - 1) with (zlength t) by lia. nia.
  - destruct (t ++ [x]) as [|f rest] eqn:Et; [now destruct t|]. cbn [bind].
    pose proof Dt as Dt'. apply digits_below_cons in Dt' as [Hf Drest].
    pose proof (Z.pow_pos_nonneg 2 bits ltac:(lia) ltac:(lia)) as Pb.
    pose proof (radix_split bits ltac:(lia)) as R.
    assert (Hf' : 0 <= Z.shiftr f bits < 2 ^ (62 - bits)).
    { rewrite Z.shiftr_div_pow2 by lia. split; [apply Z.div_pos; lia|apply Z.div_lt_upper_bound; lia]. }
    pose proof (shift_right_loop_ok bits rest _ ltac:(lia) Drest Hf') as L.
    destruct (shift_right_loop bits rest (Z.shiftr f bits)) as [ds e]. destruct L as (L1 & L2 & L3 & L4 & L5).
    assert (Le : e = Z.shiftr x bits).
    { rewrite L4. destruct t as [|f' t']; cbn [app] in Et; injection Et as -> <-; [reflexivity|].
      rewrite last_snoc. now destruct t'. }
    assert (Lr : length rest = length t).
    { apply (f_equal (@length Z)) in Et. rewrite length_app in Et. cbn [length] in Et. lia. }
    assert (V : eval ds + BIGNUM_RADIX ^ zlength t * e = eval (f :: rest) / 2 ^ bits).
    { rewrite Lr in L5. rewrite L5. cbn [positional]. rewrite R, <- Z.mul_assoc, Z.mul_comm, Z.shiftr_div_pow2 by lia.
      rewrite <- Z.div_add by lia. f_equal. ring. }
    rewrite <- Le, <- V. destruct (Z.eqb_spec e 0) as [->|He]; cbn [negb].
    + rewrite Z.eqb_refl. rewrite store_digits_fresh by lia. replace (Z.to_nat _ - length ds)%nat with O by lia.
      cbn [repeat bind]. rewrite app_nil_r. ret_assert; [lia|]. ret_now.
      apply full_represents; auto; [lia|lia|]. destruct ds as [|d0 ds0]; [now left|right].
      rewrite Z.mul_0_r, Z.add_0_r in *. rewrite V. apply Z.div_le_lower_bound; [assumption|].
      rewrite L2, Lr. apply Z.le_trans with (BIGNUM_RADIX ^ zlength t * 1); [|nia].
      replace (zlength t) with (1 + (zlength t - 1)) at 2 by (cbn [length] in L2; lia).
      rewrite Z.pow_add_r, Z.pow_1_r, R by (cbn [length] in L2; lia).
      pose proof (radix_pow_pos (zlength t - 1) ltac:(cbn [length] in L2; lia)) as P'. rewrite R in P'.
      pose proof (Z.pow_pos_nonneg 2 (62 - bits) ltac:(lia) ltac:(lia)). nia.
    + replace (0 =? e) with false by lia.
      assert (He' : e < BIGNUM_RADIX).
      { rewrite Le, Z.shiftr_div_pow2 by lia. apply Z.div_lt_upper_bound; [lia|]. nia. }
      assert (Dde : digits_ok (ds ++ [e])).
      { apply digits_below_app. split; [assumption|]. constructor; [lia|constructor]. }
      rewrite store_digits_fresh by (rewrite length_app; cbn [length]; lia).
      rewrite length_app. cbn [length]. replace (Z.to_nat _ - _)%nat with O by lia. cbn [repeat bind]. rewrite app_nil_r.
      ret_assert; [lia|]. ret_now.
      assert (Ev : eval (ds ++ [e]) = eval ds + BIGNUM_RADIX ^ zlength t * e).
      { rewrite eval_app, L2, Lr. cbn [positional]. lia. }
      apply full_represents; auto; rewrite ?length_app; cbn [length]; [lia|]. right. rewrite <- Ev.
      replace (Z.of_nat (length ds + 1) - 1) with (zlength ds) by lia.
      pose proof (leading_digit_lower ds e L1). pose proof (radix_pow_pos (zlength ds)). nia.
Qed.

(** The number [2^62k - 1] and its only two forms that reach the end of the digits. *)
Lemma all_ones_top l x : digits_ok (l ++ [x]) -> eval (l ++ [x]) = BIGNUM_RADIX ^ zlength (l ++ [x]) - 1 ->
  x = BIGNUM_RADIX - 1.
Proof.
  intros D E. apply digits_below_app in D as [D [Hx _]%digits_below_cons].
  pose proof (leading_digit_upper l x D) as U. rewrite length_app in E. cbn [length] in E.
  rewrite Nat2Z.inj_add, Z.pow_add_r, Z.pow_1_r in E by lia.
  pose proof (radix_pow_pos (zlength l) ltac:(lia)). apply Z.le_antisymm; [lia|].
  assert (BIGNUM_RADIX * BIGNUM_RADIX ^ zlength l <= (x + 1) * BIGNUM_RADIX ^ zlength l) by lia.
  apply Z.mul_le_mono_pos_r in H0; lia.
Qed.

(** The complement of [- 2^62k]: its digits are all ones, and the shift reads
    the word after them.  The [SHARP_F] that [BIGNUM_REDUCE_LENGTH] leaves
    there makes the result right. *)
Lemma shift_right_past_end n d bits :
  wf n -> 0 <= value n -> d = BIGNUM_LENGTH n -> 0 <= bits < 62 ->
  (digits n <> [] -> value n = BIGNUM_RADIX ^ BIGNUM_LENGTH n - 1) ->
  returns (bignum_shift_right_unsigned SHARP_F n d bits) (represents 0).
Proof.
  intros Hn Hv -> Hb Hones. unfold bignum_shift_right_unsigned.
  assert (T : (0 <? BIGNUM_LENGTH n) && (0 =? Z.shiftr (last (digits n) 0) bits) = false).
  { destruct (snoc_cases (digits n)) as [E|(l & x & E)]; [unfold BIGNUM_LENGTH; now rewrite E|].
    apply andb_false_intro2. assert (Hne : digits n <> []) by (rewrite E; now destruct l).
    specialize (Hones Hne). rewrite <- nonnegative_magnitude in Hones by assumption.
    unfold magnitude, BIGNUM_LENGTH in Hones. pose proof (wf_digits n Hn) as D.
    rewrite E in D, Hones |- *. rewrite last_snoc, (all_ones_top l x D Hones), Z.shiftr_div_pow2 by lia.
    rewrite (radix_split bits) by lia. pose proof (Z.pow_pos_nonneg 2 bits ltac:(lia) ltac:(lia)).
    pose proof (Z.pow_lt_mono_r 2 0 (62 - bits)). change (2 ^ 0) with 1 in *.
    rewrite <- (Z.div_unique _ (2 ^ bits) (2 ^ (62 - bits) - 1) (2 ^ bits - 1)) by lia. lia. }
  rewrite T, Z.sub_0_r, Z.sub_diag. unfold BIGNUM_LENGTH. rewrite Nat2Z.id, skipn_all, Z.eqb_refl.
  ret_step bignum_allocate_ok; [rlia|]. intros r ->. destruct (bits =? 0); [now ret_now|].
  cbn [bind shift_right_loop]. change SHARP_F with 0. rewrite Z.shiftr_0_l. cbn. ret_now. auto.
Qed.

Lemma shiftr_lnot z m : 0 <= m -> Z.lnot (Z.shiftr (Z.lnot z) m) = Z.shiftr z m.
Proof.
  intros Hm. apply Z.bits_inj'. intros i Hi. rewrite Z.lnot_spec, !Z.shiftr_spec, Z.lnot_spec by lia.
  apply negb_involutive.
Qed.

Lemma shiftr_room b r m : wf b -> room b -> 0 <= value b -> 0 <= m -> represents (Z.shiftr (value b) m) r -> room r.
Proof.
  intros Hb Hr Hv Hm [Wr Vr]. apply room_iff in Hr; [|assumption]. apply room_iff; [assumption|].
  rewrite Vr, Z.shiftr_div_pow2 in * by assumption. pose proof (Z.pow_pos_nonneg 2 m ltac:(lia) Hm).
  pose proof (Z.div_pos (value b) (2 ^ m) Hv ltac:(lia)). pose proof (Z.div_le_upper_bound (value b) (2 ^ m) (value b)). nia.
Qed.

(** The complement of a negative number has as many digits or, for a power of
    the radix, one fewer. *)
Lemma negative_not_length n nn : wf n -> value n < 0 -> represents (Z.lnot (value n)) nn ->
  BIGNUM_LENGTH nn = BIGNUM_LENGTH n \/
  (BIGNUM_LENGTH n = BIGNUM_LENGTH nn + 1 /\ value nn = BIGNUM_RADIX ^ BIGNUM_LENGTH nn - 1).
Proof.
  intros Hn Hv [Wn Vn]. unfold Z.lnot in Vn. pose proof (magnitude_abs n Hn) as Mn.
  assert (Mnn : magnitude nn = magnitude n - 1) by (rewrite magnitude_abs by assumption; lia).
  pose proof (magnitude_lower n Hn (nonzero_digits n Hn ltac:(lia))) as Ln.
  pose proof (eval_upper _ (wf_digits n Hn)) as Un. fold (magnitude n) in Un.
  pose proof (eval_upper _ (wf_digits nn Wn)) as Unn. fold (magnitude nn) in Unn.
  assert (U : BIGNUM_LENGTH nn <= BIGNUM_LENGTH n).
  { apply length_bound; [assumption|unfold BIGNUM_LENGTH; lia|]. unfold BIGNUM_LENGTH. lia. }
  destruct (Z.eq_dec (BIGNUM_LENGTH nn) (BIGNUM_LENGTH n)) as [|Hne]; [now left|right].
  assert (L : BIGNUM_RADIX ^ BIGNUM_LENGTH nn <= BIGNUM_RADIX ^ (BIGNUM_LENGTH n - 1)) by (apply Z.pow_le_mono_r; rlia).
  unfold BIGNUM_LENGTH in *.
  assert (E : BIGNUM_RADIX ^ (zlength (digits n) - 1) = BIGNUM_RADIX ^ zlength (digits nn)) by lia.
  apply Z.pow_inj_r in E; [|rlia|lia|lia]. split; [lia|]. rewrite <- E in *. lia.
Qed.

Lemma bignum_shift_right_ok n m : wf n -> room n -> 0 <= m ->
  returns (bignum_shift_right SHARP_F n m) (represents (Z.shiftr (value n) m)).
Proof.
  intros Hn Hr Hm. unfold bignum_shift_right. change BIGNUM_DIGIT_LENGTH with 62.
  pose proof (Z.div_mod m 62 ltac:(lia)) as Em. pose proof (Z.mod_pos_bound m 62 ltac:(lia)) as Hb.
  pose proof (Z.div_pos m 62 Hm ltac:(lia)) as Hd.
  set (d := m / 62) in *. set (bits := m mod 62) in *. clearbody d bits. subst m.
  rewrite BIGNUM_NEGATIVE_P_value, Z.geb_leb by assumption.
  destruct (Z.leb_spec (BIGNUM_LENGTH n) d) as [Hend|Hend]; destruct (Z.ltb_spec (value n) 0) as [Hv|Hv].
  - ret_now. apply (represents_eq (-1)); [apply (BIGNUM_ONE_represents true)|].
    destruct (negative_not_ok n Hn Hr Hv) as (nn & _ & Hnn & _ & Vnn). pose proof Hnn as [Wnn Enn].
    rewrite <- shiftr_lnot by lia. rewrite <- Enn, shift_right_all; auto.
    destruct (negative_not_length n nn Hn Hv Hnn); lia.
  - ret_now. rewrite shift_right_all; auto. lia.
  - ret_step negative_not_ok; auto. intros nn (Hnn & Rnn & Vnn). pose proof Hnn as [Wnn Enn].
    rewrite <- shiftr_lnot by lia. rewrite <- Enn.
    eapply returns_bind with (P := represents (Z.shiftr (value nn) (62 * d + bits))).
    + destruct (negative_not_length n nn Hn Hv Hnn) as [L|[L V]].
      * apply bignum_shift_right_unsigned_ok; auto. lia.
      * destruct (Z.eq_dec d (BIGNUM_LENGTH nn)) as [Ed|].
        -- rewrite shift_right_all by (auto; lia). now apply shift_right_past_end.
        -- apply bignum_shift_right_unsigned_ok; auto. lia.
    + intros r Hrr. pose proof (shiftr_room nn r (62 * d + bits) Wnn Rnn Vnn ltac:(lia) Hrr) as Rr. destruct Hrr as [Wr <-].
      now apply bignum_bitwise_not_ok.
  - now apply bignum_shift_right_unsigned_ok.
Qed.

(** ** Shifting left *)

(** The loop is the one that normalizes a divisor. *)
Lemma shift_left_digit d s : 1 <= s < 62 ->
  Z.land (to_long (Z.shiftl d s)) BIGNUM_DIGIT_MASK
  = Z.shiftl (Z.land d (to_ulong (to_ulong (Z.shiftl 1 (62 - s)) - 1))) s.
Proof.
  intros Hs. rewrite digit_mask, (land_mask 62), !Z.shiftl_mul_pow2 by (reflexivity || lia).
  rewrite <- Z.mul_mod_distr_r, <- Z.pow_add_r by (lia || (apply Z.pow_nonzero; lia)).
  replace (62 - s + s) with 62 by lia. unfold to_long.
  set (z := d * 2 ^ s). rewrite (Z.mod_eq (z + 2 ^ 63)) by lia.
  replace (z + 2 ^ 63 - 2 ^ 64 * ((z + 2 ^ 63) / 2 ^ 64) - 2 ^ 63)
    with (z + (- 4 * ((z + 2 ^ 63) / 2 ^ 64)) * 2 ^ 62) by lia.
  now rewrite Z.mod_add.
Qed.

Lemma shift_left_loop_eq s ds : forall temp, 1 <= s < 62 ->
  shift_left_loop s ds temp = normalization_loop s ds temp.
Proof.
  induction ds as [|d ds IH]; intros temp Hs; [reflexivity|]. cbn [shift_left_loop normalization_loop].
  change BIGNUM_DIGIT_LENGTH with 62. rewrite IH, shift_left_digit by lia. reflexivity.
Qed.

(** A trimmed digit list has just the digits its number needs. *)
Lemma trimmed_length l : digits_ok l -> l <> [] -> last l 1 <> 0 ->
  zlength l = BIGNUM_BITS_TO_DIGITS (bit_length (eval l)).
Proof.
  intros D Hn Hl. destruct (snoc_cases l) as [->|(l' & x & ->)]; [congruence|]. rewrite last_snoc in Hl.
  apply digits_below_app in D as [D [Hx _]%digits_below_cons].
  pose proof (eval_upper l' D) as U. pose proof (eval_nonneg l' D). rewrite radix_pow in U by lia.
  rewrite eval_app, radix_pow by lia. cbn [positional].
  replace (eval l' + _) with (x * 2 ^ (62 * zlength l') + eval l') by lia.
  rewrite bit_length_shift by lia. pose proof (bit_length_pos x ltac:(lia)). pose proof (digit_bit_length x ltac:(lia)).
  rewrite length_app. cbn [length]. unfold BIGNUM_BITS_TO_DIGITS. change BIGNUM_DIGIT_LENGTH with 62. dlia.
Qed.

Lemma represents_digits neg ds z :
  digits_ok ds -> ds <> [] -> last ds 1 <> 0 -> zlength ds <= BIGNUM_LENGTH_MAX ->
  (if neg : bool then - eval ds else eval ds) = z -> represents z (Bignum neg ds).
Proof. intros D Hn Hl L <-. split; [constructor; cbn [digits negative_p]; auto; congruence|reflexivity]. Qed.

(** A fresh bignum of the length the code computes, filled with trimmed digits. *)
Lemma store_shifted neg n ds z :
  digits_ok ds -> ds <> [] -> last ds 1 <> 0 -> (if neg : bool then - eval ds else eval ds) = z ->
  n = BIGNUM_BITS_TO_DIGITS (bit_length (eval ds)) -> n <= BIGNUM_LENGTH_MAX ->
  returns (result <- bignum_allocate n neg ;; store_digits result ds) (represents z).
Proof.
  intros D Hne Hl Hz Hn Hmax. rewrite <- trimmed_length in Hn by assumption.
  apply allocate_and_store; [lia|lia|]. apply represents_digits; auto. lia.
Qed.

Lemma eval_leading_zeros n ds : 0 <= n -> eval (repeat 0 (Z.to_nat n) ++ ds) = 2 ^ (62 * n) * eval ds.
Proof.
  intros Hn. rewrite eval_app, positional_zeros, repeat_length, radix_pow by lia. rewrite Z2Nat.id by lia. lia.
Qed.

Lemma last_app_nonempty {A} (l l' : list A) d : l' <> [] -> last (l ++ l') d = last l' d.
Proof. destruct l'; [congruence|]. intros _. apply last_app_cons. Qed.

Lemma shifted_digits_length L m : 0 < L -> 0 <= m ->
  (L + m) / 62 + (if negb ((L + m) mod 62 =? 0) then 1 else 0) = BIGNUM_BITS_TO_DIGITS (L + m).
Proof.
  intros. unfold BIGNUM_BITS_TO_DIGITS. change BIGNUM_DIGIT_LENGTH with 62.
  destruct (Z.eqb_spec ((L + m) mod 62) 0); cbn [negb]; dlia.
Qed.

(** The digits [bignum_shift_left] stores after the zeros. *)
Definition shifted_left (s : Z) (ds : list Z) : list Z :=
  if s =? 0 then ds
  else let '(out, temp) := shift_left_loop s ds 0 in out ++ (if negb (temp =? 0) then [temp] else []).

Lemma shifted_left_ok s ds : 0 <= s < 62 -> digits_ok ds -> ds <> [] -> last ds 1 <> 0 ->
  digits_ok (shifted_left s ds) /\ shifted_left s ds <> [] /\ last (shifted_left s ds) 1 <> 0 /\
  eval (shifted_left s ds) = eval ds * 2 ^ s.
Proof.
  intros Hs D Hn Hl. unfold shifted_left. destruct (Z.eqb_spec s 0) as [->|Hs0].
  { change (2 ^ 0) with 1. repeat split; auto. lia. }
  rewrite shift_left_loop_eq by lia. pose proof (normalization_loop_ok s ds 0 ltac:(lia) D) as N.
  pose proof (Z.pow_pos_nonneg 2 s ltac:(lia) ltac:(lia)) as Ps.
  pose proof (Z.pow_lt_mono_r 2 s 62 ltac:(lia)) as P62. rewrite <- RADIX_eq in P62.
  destruct (normalization_loop s ds 0) as [out t]. destruct N as (N1 & N2 & N3 & N4); [lia|].
  destruct (Z.eqb_spec t 0) as [->|Ht]; cbn [negb].
  - rewrite app_nil_r. rewrite Z.mul_0_r, !Z.add_0_r in N4. repeat split; auto.
    + intros ->. destruct ds; [congruence|discriminate].
    + apply large_trimmed; [assumption|]. rewrite N4, N2. pose proof (eval_lower ds D Hn Hl).
      pose proof (eval_nonneg ds D). nia.
  - rewrite last_snoc, eval_app, N2. cbn [positional]. repeat split; auto; try lia.
    + apply digits_below_app. split; [assumption|]. constructor; [lia|constructor].
    + now destruct out.
Qed.

Lemma bignum_shift_left_ok n m :
  wf n -> 0 <= m -> m + 62 * BIGNUM_LENGTH n <= 62 * (BIGNUM_LENGTH_MAX - 1) ->
  returns (bignum_shift_left n m) (represents (Z.shiftl (value n) m)).
Proof.
  intros Hn Hm Hroom. unfold bignum_shift_left. rewrite BIGNUM_ZERO_P_value by assumption.
  destruct (Z.eqb_spec m 0) as [->|Hm0]; [ret_now; now rewrite Z.shiftl_0_r|].
  destruct (Z.eqb_spec (value n) 0) as [E|E]; [ret_now; rewrite E, Z.shiftl_0_l; now split|]. cbn [orb].
  pose proof (nonzero_digits n Hn E) as Hne.
  destruct (msd_split n Hn Hne) as (l & x & El & D & Hx & Hl & HM & Hlow & Hr). rewrite Hr. cbn [bind].
  rewrite ulong_length_in_bits_spec by (apply digit_word; lia). pose proof (digit_bit_length x ltac:(lia)).
  pose proof (bit_length_pos x ltac:(lia)). change BIGNUM_DIGIT_LENGTH with 62.
  rewrite to_ulong_small by (unfold BIGNUM_LENGTH in *; rlia).
  pose proof (Z.mod_pos_bound m 62 ltac:(lia)) as Hb.
  destruct (shifted_left_ok (m mod 62) (digits n)) as (S1 & S2 & S3 & S4); auto; try (now apply (wf_digits n)).
  { now apply (wf_trimmed n). }
  rewrite <- Z.add_assoc, shifted_digits_length by lia.
  set (ds := repeat 0 (Z.to_nat (m / 62)) ++ shifted_left (m mod 62) (digits n)).
  assert (Hm62 : 0 <= m / 62) by (apply Z.div_pos; lia).
  assert (Ev : eval ds = magnitude n * 2 ^ m).
  { unfold ds. rewrite eval_leading_zeros, S4 by lia. unfold magnitude.
    replace m with (62 * (m / 62) + m mod 62) at 3 by (symmetry; apply Z.div_mod; lia).
    rewrite Z.pow_add_r by lia. ring. }
  assert (G : returns (result <- bignum_allocate (BIGNUM_LENGTH n - 1 + BIGNUM_BITS_TO_DIGITS (bit_length x + m))
                        (BIGNUM_NEGATIVE_P n) ;; store_digits result ds) (represents (Z.shiftl (value n) m))).
  { apply store_shifted; unfold ds.
    - apply digits_below_app. split; [apply digits_below_zeros; rlia|assumption].
    - intros F. apply app_eq_nil in F. tauto.
    - now rewrite last_app_nonempty.
    - fold ds. rewrite Ev, Z.shiftl_mul_pow2 by lia. unfold value, BIGNUM_NEGATIVE_P. destruct (negative_p n); lia.
    - fold ds. rewrite Ev, HM. pose proof (Z.pow_pos_nonneg 2 m ltac:(lia) Hm).
      replace ((x * 2 ^ (62 * zlength l) + eval l) * 2 ^ m) with ((x * 2 ^ (62 * zlength l) + eval l) * 2 ^ m + 0) by lia.
      rewrite !bit_length_shift by nia. rewrite Hl. unfold BIGNUM_BITS_TO_DIGITS. change BIGNUM_DIGIT_LENGTH with 62.
      dlia.
    - unfold BIGNUM_BITS_TO_DIGITS. change BIGNUM_DIGIT_LENGTH with 62. dlia. }
  unfold ds, shifted_left in G. destruct (m mod 62 =? 0); [exact G|].
  now destruct (shift_left_loop (m mod 62) (digits n) 0).
Qed.

(** ** A shifted word *)

Lemma shifted_word_digits_ok fuel : forall n, 0 <= n < 2 ^ (62 * Z.of_nat fuel) ->
  returns (shifted_word_digits fuel n) (fun ds => digits_ok ds /\ eval ds = n /\ last ds 1 <> 0).
Proof.
  induction fuel as [|fuel IH]; intros n Hn; cbn [shifted_word_digits]; rewrite Z.gtb_ltb;
    (destruct (Z.ltb_spec 0 n) as [Hp|]; [|ret_now; assert (n = 0) as -> by lia; repeat split; auto; discriminate]).
  - change (2 ^ (62 * Z.of_nat 0)) with 1 in Hn. lia.
  - rewrite (land_mask 62), Z.shiftr_div_pow2 by (reflexivity || (change BIGNUM_DIGIT_LENGTH with 62; lia)).
    change BIGNUM_DIGIT_LENGTH with 62. change (2 ^ 62) with BIGNUM_RADIX.
    pose proof (Z.div_mod n BIGNUM_RADIX ltac:(rlia)) as E. pose proof (Z.mod_pos_bound n BIGNUM_RADIX ltac:(rlia)) as B.
    replace (62 * Z.of_nat (S fuel)) with (62 + 62 * Z.of_nat fuel) in Hn by lia.
    rewrite Z.pow_add_r, <- RADIX_eq in Hn by lia.
    ret_step IH; [split; [apply Z.div_pos; rlia|apply Z.div_lt_upper_bound; rlia]|].
    intros ds (D1 & D2 & D3). ret_now. split; [now constructor|]. cbn [positional]. rewrite D2. split; [lia|].
    destruct ds as [|d ds]; [|exact D3]. cbn [positional last] in *. lia.
Qed.

Lemma unsigned_long_to_shifted_bignum_ok n m sign :
  ulong_p n -> 0 <= m <= 62 * (BIGNUM_LENGTH_MAX - 2) ->
  returns (unsigned_long_to_shifted_bignum n m sign)
    (represents (if sign then - Z.shiftl n m else Z.shiftl n m)).
Proof.
  intros Hn Hm. unfold ulong_p in Hn. unfold unsigned_long_to_shifted_bignum.
  destruct (Z.eqb_spec n 0) as [->|Hn0]; [ret_now; rewrite Z.shiftl_0_l; now destruct sign|].
  rewrite ulong_length_in_bits_spec by exact Hn. pose proof (bit_length_pos n ltac:(lia)).
  pose proof (bit_length_le n 64 ltac:(lia) Hn). change BIGNUM_DIGIT_LENGTH with 62.
  rewrite (to_ulong_small (bit_length n + m)) by rlia.
  pose proof (Z.mod_pos_bound m 62 ltac:(lia)) as Hb. pose proof (Z.div_mod m 62 ltac:(lia)) as Em.
  pose proof (Z.div_pos m 62 ltac:(lia) ltac:(lia)) as Hd. rewrite shifted_digits_length by lia.
  set (s := m mod 62) in *. set (k := m / 62) in *. clearbody s k.
  pose proof (Z.pow_pos_nonneg 2 s ltac:(lia) ltac:(lia)) as Ps. pose proof (Z.pow_pos_nonneg 2 (62 - s) ltac:(lia) ltac:(lia)) as Pr.
  pose proof (radix_split s ltac:(lia)) as R.
  assert (F : Z.land (to_ulong (Z.shiftl n s)) BIGNUM_DIGIT_MASK = (n * 2 ^ s) mod BIGNUM_RADIX).
  { rewrite (land_mask 62), Z.shiftl_mul_pow2 by (reflexivity || lia). unfold to_ulong.
    change BIGNUM_RADIX with (2 ^ 62). rewrite (Z.mod_eq (n * 2 ^ s) (2 ^ 64)) by lia.
    replace (n * 2 ^ s - 2 ^ 64 * (n * 2 ^ s / 2 ^ 64)) with (n * 2 ^ s + (- 4 * (n * 2 ^ s / 2 ^ 64)) * 2 ^ 62) by lia.
    now rewrite Z.mod_add. }
  assert (G : Z.shiftr n (62 - s) = n * 2 ^ s / BIGNUM_RADIX).
  { rewrite Z.shiftr_div_pow2, R, (Z.mul_comm (2 ^ s)), Z.div_mul_cancel_r by lia. reflexivity. }
  rewrite F, G. set (z := n * 2 ^ s) in *. assert (Hz : 0 < z) by (unfold z; nia).
  pose proof (Z.div_mod z BIGNUM_RADIX ltac:(rlia)) as E. pose proof (Z.mod_pos_bound z BIGNUM_RADIX ltac:(rlia)) as B.
  destruct (shifted_word_digits_ok word_digits_fuel (z / BIGNUM_RADIX)) as (rest & -> & D1 & D2 & D3).
  { split; [apply Z.div_pos; rlia|]. apply Z.div_lt_upper_bound; [rlia|].
    change (62 * Z.of_nat word_digits_fuel) with (62 * 2). unfold z. pose proof (Z.pow_lt_mono_r 2 s 62 ltac:(lia)).
    rlia. }
  cbn [bind]. set (ds := z mod BIGNUM_RADIX :: rest).
  assert (Ed : eval ds = z) by (unfold ds; cbn [positional]; lia).
  assert (Ld : last ds 1 <> 0) by (unfold ds; destruct rest; [change (eval []) with 0 in D2; cbn [last]; lia|exact D3]).
  assert (Dd : digits_ok ds) by now constructor.
  apply store_shifted; rewrite ?eval_leading_zeros by lia.
  - apply digits_below_app. split; [apply digits_below_zeros; rlia|assumption].
  - intros Q. apply app_eq_nil in Q. now destruct Q.
  - now rewrite last_app_nonempty.
  - rewrite Ed, Z.shiftl_mul_pow2 by lia. unfold z. rewrite Em, Z.pow_add_r by lia. destruct sign; ring.
  - rewrite Ed. unfold z. replace (2 ^ (62 * k) * (n * 2 ^ s)) with (n * 2 ^ m + 0)
      by (rewrite Em, Z.pow_add_r by lia; ring).
    rewrite bit_length_shift by (lia || (split; [lia|apply Z.pow_pos_nonneg; lia])). reflexivity.
  - unfold BIGNUM_BITS_TO_DIGITS. change BIGNUM_DIGIT_LENGTH with 62. dlia.
Qed.

(** ** Masks *)

Lemma bignum_nonnegative_one_bits_ok size position :
  0 <= size -> 0 <= position -> size + position <= 62 * (BIGNUM_LENGTH_MAX - 4) ->
  returns (bignum_nonnegative_one_bits size position) (represents ((2 ^ size - 1) * 2 ^ position)).
Proof.
  intros Hs Hp Hroom. unfold bignum_nonnegative_one_bits.
  destruct (BIGNUM_ONE_represents true) as [W1 V1].
  ret_step bignum_shift_left_ok; auto; [change (BIGNUM_LENGTH (BIGNUM_ONE true)) with 1; rlia|].
  intros r [Wr Vr]. rewrite V1, Z.shiftl_mul_pow2 in Vr by assumption.
  pose proof (Z.pow_pos_nonneg 2 size ltac:(lia) Hs) as P.
  assert (P' : 2 ^ size <= 2 ^ (62 * ((size + 62) / 62))) by (apply Z.pow_le_mono_r; dlia).
  assert (Hd : 0 <= (size + 62) / 62) by (apply Z.div_pos; lia).
  assert (Lr : BIGNUM_LENGTH r <= (size + 62) / 62 + 1).
  { apply length_bound; [assumption|lia|]. rewrite magnitude_abs, Vr, radix_pow by (assumption || lia).
    apply Z.le_lt_trans with (1 := ltac:(lia) : Z.abs (-1 * 2 ^ size) <= 2 ^ size).
    apply Z.pow_lt_mono_r; dlia. }
  ret_step bignum_bitwise_not_ok; auto; [unfold room; dlia|]. intros r' [Wr' Vr'].
  assert (V' : value r' = 2 ^ size - 1) by (rewrite Vr', Vr; unfold Z.lnot; lia).
  assert (Lr' : BIGNUM_LENGTH r' <= (size + 62) / 62).
  { apply length_bound; [assumption|lia|]. rewrite magnitude_abs, V', radix_pow by (assumption || lia). lia. }
  ret_step bignum_shift_left_ok; auto; [dlia|]. intros r'' Hr''. eapply represents_eq; [exact Hr''|].
  now rewrite V', Z.shiftl_mul_pow2.
Qed.

(** ** The range test *)

Section FitsInWord.
Context (b : bignum) (n : Z).
Hypothesis b_wf : wf b.
Hypothesis n_range : 0 < n < 2 ^ 32.
Hypothesis b_length : BIGNUM_LENGTH b < 2 ^ 32.

Let k := BIGNUM_BITS_TO_DIGITS n.

Lemma fits_digits : 1 <= k /\ 62 * (k - 1) < n <= 62 * k /\ to_uint k = k /\
  to_uint (BIGNUM_LENGTH b) = BIGNUM_LENGTH b.
Proof.
  unfold k, BIGNUM_BITS_TO_DIGITS. change BIGNUM_DIGIT_LENGTH with 62.
  pose proof b_length. unfold BIGNUM_LENGTH in *.
  rewrite !to_uint_small; repeat split; dlia.
Qed.

Lemma fits_shorter : BIGNUM_LENGTH b < k -> magnitude b < 2 ^ (62 * (k - 1)).
Proof.
  intros Hl. pose proof fits_digits. pose proof (eval_upper _ (wf_digits b b_wf)) as U. fold (magnitude b) in U.
  rewrite radix_pow in U by lia. apply Z.lt_le_trans with (1 := U). apply Z.pow_le_mono_r; unfold BIGNUM_LENGTH in *; lia.
Qed.

Lemma fits_longer : k < BIGNUM_LENGTH b -> 2 ^ (62 * k) <= magnitude b.
Proof.
  intros Hl. pose proof fits_digits. pose proof (magnitude_lower b b_wf) as L.
  rewrite radix_pow in L by lia. apply Z.le_trans with (2 ^ (62 * (BIGNUM_LENGTH b - 1))).
  - apply Z.pow_le_mono_r; lia.
  - apply L. intros E. unfold BIGNUM_LENGTH in Hl. rewrite E in Hl. cbn in Hl. lia.
Qed.

(** The most significant digit compared with [max]. *)
Lemma fits_same : BIGNUM_LENGTH b = k ->
  exists msd, BIGNUM_REF b (BIGNUM_LENGTH b - 1) = Return msd /\
    let max := to_ulong (Z.shiftl 1 (n - (BIGNUM_LENGTH b - 1) * BIGNUM_DIGIT_LENGTH)) in
    (msd <? max) = (magnitude b <? 2 ^ n) /\
    (msd =? max) = ((2 ^ n <=? magnitude b) && (magnitude b <? 2 ^ n + 2 ^ (62 * (k - 1)))).
Proof.
  intros Hl. destruct fits_digits as (K1 & K2 & _ & _).
  destruct (msd_split b b_wf) as (l & x & _ & _ & Hx & Hlen & Hm & Hlow & Hr).
  { intros E. unfold BIGNUM_LENGTH in Hl. rewrite E in Hl. cbn in Hl. lia. }
  exists x. split; [exact Hr|]. cbv zeta. change BIGNUM_DIGIT_LENGTH with 62.
  replace (zlength l) with (k - 1) in * by lia. rewrite Hl.
  set (P := 2 ^ (62 * (k - 1))) in *. assert (HP : 0 < P) by lia.
  set (j := n - (k - 1) * 62). assert (Hj : 1 <= j <= 62) by (unfold j; lia).
  assert (En : 2 ^ n = 2 ^ j * P) by (unfold P, j; rewrite <- Z.pow_add_r by lia; f_equal; lia).
  pose proof (Z.pow_le_mono_r 2 j 62 ltac:(lia) ltac:(lia)). pose proof (Z.pow_pos_nonneg 2 j ltac:(lia) ltac:(lia)).
  rewrite Z.shiftl_mul_pow2, Z.mul_1_l, to_ulong_small by lia. rewrite En, Hm. split.
  - destruct (Z.ltb_spec x (2 ^ j)); symmetry; [apply Z.ltb_lt|apply Z.ltb_ge]; nia.
  - destruct (Z.eqb_spec x (2 ^ j)) as [->|].
    + symmetry. apply andb_true_intro. rewrite Z.leb_le, Z.ltb_lt. nia.
    + symmetry. apply andb_false_iff. rewrite Z.leb_gt, Z.ltb_ge.
      destruct (Z_lt_le_dec x (2 ^ j)); [left|right]; nia.
Qed.
End FitsInWord.

(** The values [bignum_fits_in_word_p] accepts as [word_length]-bit two's-complement
    words: it looks at no digit below the most significant one, so below the
    range it accepts more than the range. *)
Definition accepted_low (n : Z) : Z := 2 ^ n + 2 ^ (62 * (BIGNUM_BITS_TO_DIGITS n - 1)).

Lemma bignum_fits_in_word_p_signed_ok b w :
  wf b -> 1 < w <= 2 ^ 32 -> (w - 1) mod 62 <> 0 -> BIGNUM_LENGTH b < 2 ^ 32 ->
  returns (bignum_fits_in_word_p b w true)
    (fun r => r = true <-> - accepted_low (w - 1) < value b < 2 ^ (w - 1)).
Proof.
  intros Hb Hw Hmod Hlen. unfold bignum_fits_in_word_p, accepted_low. set (n := w - 1) in *.
  assert (Hn : 0 < n < 2 ^ 32) by lia. rewrite (to_uint_small n) by lia. ret_assert; [lia|].
  destruct (fits_digits b n Hn Hlen) as (K1 & K2 & -> & ->). rewrite !Z.gtb_ltb.
  pose proof (magnitude_abs b Hb) as M. pose proof (BIGNUM_NEGATIVE_P_value b Hb) as N.
  assert (P : 0 < 2 ^ (62 * (BIGNUM_BITS_TO_DIGITS n - 1)) < 2 ^ n).
  { split; [apply Z.pow_pos_nonneg; lia|apply Z.pow_lt_mono_r; lia]. }
  destruct (Z.ltb_spec (BIGNUM_LENGTH b) (BIGNUM_BITS_TO_DIGITS n)) as [L|L].
  - pose proof (fits_shorter b n Hb Hn Hlen L). ret_now. split; [intros _|reflexivity]. lia.
  - destruct (Z.ltb_spec (BIGNUM_BITS_TO_DIGITS n) (BIGNUM_LENGTH b)) as [L'|L'].
    + pose proof (fits_longer b n Hb Hn Hlen L').
      assert (2 ^ (n + 1) <= 2 ^ (62 * BIGNUM_BITS_TO_DIGITS n)).
      { apply Z.pow_le_mono_r; [lia|]. assert (n <> 62 * BIGNUM_BITS_TO_DIGITS n).
        { intros E. apply Hmod. rewrite E, Z.mul_comm. apply Z.mod_mul. lia. } lia. }
      rewrite Z.pow_add_r in * by lia. change (2 ^ 1) with 2 in *. ret_now. split; [discriminate|]. lia.
    + destruct (fits_same b n Hb Hn Hlen ltac:(lia)) as (msd & -> & E1 & E2). cbn [bind]. cbv zeta in *. rewrite E1, E2.
      ret_now. rewrite N, M. destruct (Z.ltb_spec (value b) 0); lia.
Qed.

Lemma bignum_fits_in_word_p_unsigned_ok b w :
  wf b -> 0 < w < 2 ^ 32 -> BIGNUM_LENGTH b < 2 ^ 32 ->
  returns (bignum_fits_in_word_p b w false) (fun r => r = true <-> 0 <= value b < 2 ^ w).
Proof.
  intros Hb Hw Hlen. unfold bignum_fits_in_word_p. rewrite BIGNUM_NEGATIVE_P_value by assumption.
  destruct (Z.ltb_spec (value b) 0) as [Hv|Hv]; [ret_now; split; [discriminate|lia]|].
  rewrite (to_uint_small w) by lia. ret_assert; [lia|].
  destruct (fits_digits b w Hw Hlen) as (K1 & K2 & -> & ->). rewrite !Z.gtb_ltb.
  rewrite <- (nonnegative_magnitude b Hb Hv) in *. pose proof (magnitude_nonneg b Hb).
  destruct (Z.ltb_spec (BIGNUM_LENGTH b) (BIGNUM_BITS_TO_DIGITS w)) as [L|L].
  - pose proof (fits_shorter b w Hb Hw Hlen L).
    pose proof (Z.pow_lt_mono_r 2 (62 * (BIGNUM_BITS_TO_DIGITS w - 1)) w). ret_now. split; [|reflexivity]. lia.
  - destruct (Z.ltb_spec (BIGNUM_BITS_TO_DIGITS w) (BIGNUM_LENGTH b)) as [L'|L'].
    + pose proof (fits_longer b w Hb Hw Hlen L').
      pose proof (Z.pow_le_mono_r 2 w (62 * BIGNUM_BITS_TO_DIGITS w)). ret_now. split; [discriminate|]. lia.
    + destruct (fits_same b w Hb Hw Hlen ltac:(lia)) as (msd & -> & E1 & E2). cbn [bind andb]. cbv zeta in *. rewrite E1.
      ret_now. rewrite orb_false_r. lia.
Qed.

(** ** Properties *)

(** Each of the ten bitwise operations on sign-magnitude bignums agrees with the operation on
    two's-complement integers, bit by bit. *)
Theorem bitwise_operations_correct f F x y : bitwise_operator f F -> wf x -> wf y -> room x -> room y ->
  exists r, f x y = Return r /\ wf r /\
    forall i, 0 <= i -> Z.testbit (value r) i = Z.testbit (F (value x) (value y)) i.
Proof.
  intros Hf Hx Hy Rx Ry. destruct (bitwise_operator_ok f F x y Hf Hx Hy Rx Ry) as (r & E & Wr & Vr).
  exists r. split; [exact E|]. split; [exact Wr|]. intros i _. now rewrite Vr.
Qed.

(** Bignum_shift_left and bignum_shift_right shift the two's-complement integer; the right shift is
    correct given the filler word after the digits that shortening a bignum leaves there. *)
Theorem bignum_shifts_correct n m : wf n -> room n -> 0 <= m ->
  returns (bignum_shift_right SHARP_F n m) (fun r => wf r /\ value r = value n / 2 ^ m) /\
  (m + 62 * BIGNUM_LENGTH n <= 62 * (BIGNUM_LENGTH_MAX - 1) ->
   returns (bignum_shift_left n m) (fun r => wf r /\ value r = value n * 2 ^ m)).
Proof.
  intros Hn Rn Hm. rewrite <- Z.shiftr_div_pow2, <- Z.shiftl_mul_pow2 by assumption. split.
  - now apply bignum_shift_right_ok.
  - intros H. now apply bignum_shift_left_ok.
Qed.

(** Bignum_fits_in_word_p is exact for unsigned words; for signed words it looks at the most significant
    digit only and so also accepts integers below -2^(w-1). *)
Theorem fits_in_word_correct b w : wf b -> 1 < w < 2 ^ 32 -> BIGNUM_LENGTH b < 2 ^ 32 ->
  returns (bignum_fits_in_word_p b w false) (fun r => r = true <-> 0 <= value b < 2 ^ w) /\
  ((w - 1) mod 62 <> 0 ->
   returns (bignum_fits_in_word_p b w true) (fun r => r = true <-> - accepted_low (w - 1) < value b < 2 ^ (w - 1))).
Proof.
  intros Hb Hw Hl. split.
  - apply bignum_fits_in_word_p_unsigned_ok; [assumption|lia|assumption].
  - intros Hm. apply bignum_fits_in_word_p_signed_ok; [assumption|lia|assumption|assumption].
Qed.

(** Length in bits, two's-complement integer length, first set bit, bit count and Hamming distance of
    bignums are those of the integers they denote. *)
Theorem bit_counts_correct x y : wf x -> wf y -> room x -> room y ->
  returns (bignum_length_in_bits x) (eq (bit_length (Z.abs (value x)))) /\
  returns (bignum_integer_length x) (eq (integer_length_of (value x))) /\
  returns (bignum_first_set_bit x) (eq (if value x =? 0 then -1 else trailing_zeros (value x))) /\
  returns (bignum_bit_count x) (eq (bit_count_of (value x))) /\
  returns (bignum_hamming_distance false x y) (eq (hamming_distance_of (value x) (value y))).
Proof.
  intros Hx Hy Rx Ry. split.
  { ret_step bignum_length_in_bits_ok; [assumption|]. intros n [-> _]. now rewrite magnitude_abs. }
  split; [now apply bignum_integer_length_ok|]. split; [now apply bignum_first_set_bit_ok|].
  split; [now apply bignum_bit_count_ok|]. apply bignum_hamming_distance_ok; auto. discriminate.
Qed.
