(* ===== verification/BignumConv.v ===== *)
(** * bignum.c: conversions

    Machine words to bignums and back, and the digit streams that the reader
    and printer of integers use. *)

From Stdlib Require Import ZArith List Bool Lia.
From S2P Require Import Prelude Object Bits Bignum BignumAdd BignumMul BignumDiv BignumBits.
Import ListNotations.

#[local] Open Scope Z_scope.
#[local] Open Scope microcode_scope.

(** ** Words *)

(** [BIGNUM_DIGITS_FOR_TYPE (long)]. *)
Definition BIGNUM_DIGITS_FOR_TYPE : nat := Z.to_nat (BIGNUM_BITS_TO_DIGITS (SIZEOF_LONG * CHAR_BIT)).

(** The [do ... while] loop that splits [accumulator] into the array
    [result_digits], of which [space] elements are left. *)
Fixpoint accumulator_digits (space : nat) (accumulator : Z) : outcome (list Z) :=
  match space with
  | O => Wild
  | S space =>
      let digit := Z.land accumulator BIGNUM_DIGIT_MASK in
      let accumulator := Z.shiftr accumulator BIGNUM_DIGIT_LENGTH in
      if negb (accumulator =? 0)
      then rest <- accumulator_digits space accumulator ;; Return (digit :: rest)
      else Return [digit]
  end.

Definition bignum_from_digits (ds : list Z) (neg : bool) : outcome bignum :=
  result <- bignum_allocate (zlength ds) neg ;; store_digits result ds.

Definition long_to_bignum (n : Z) : outcome bignum :=
  if n =? 0 then Return BIGNUM_ZERO
  else if n =? 1 then Return (BIGNUM_ONE false)
  else if n =? -1 then Return (BIGNUM_ONE true)
  else
    let negative_p := n <? 0 in
    let accumulator := to_ulong (if negative_p then to_long (- n) else n) in
    ds <- accumulator_digits BIGNUM_DIGITS_FOR_TYPE accumulator ;;
    bignum_from_digits ds negative_p.

Definition ulong_to_bignum (n : Z) : outcome bignum :=
  if n =? 0 then Return BIGNUM_ZERO
  else if n =? 1 then Return (BIGNUM_ONE false)
  else
    ds <- accumulator_digits BIGNUM_DIGITS_FOR_TYPE n ;;
    bignum_from_digits ds false.

(** The scan of the digits from the most significant one down. *)
Fixpoint accumulate (ds : list Z) : Z :=
  match ds with
  | [] => 0
  | d :: ds' => to_ulong (to_ulong (Z.shiftl (accumulate ds') BIGNUM_DIGIT_LENGTH) + d)
  end.

Definition bignum_to_long (b : bignum) : Z :=
  if BIGNUM_ZERO_P b then 0
  else
    let accumulator := accumulate (digits b) in
    if BIGNUM_NEGATIVE_P b then to_long (- to_long accumulator) else to_long accumulator.

Definition bignum_to_ulong (b : bignum) : outcome Z :=
  if BIGNUM_ZERO_P b then Return 0
  else
    assert_that (BIGNUM_POSITIVE_P b) ;;
    Return (accumulate (digits b)).

(** ** Digit streams *)

(** [producer context] returns a digit and the new state of the context. *)
Section Producer.
Context {C : Type} (producer : C -> Z * C).

Fixpoint digit_stream_loop (n_digits : nat) (radix : Z) (context : C) (result : bignum) : outcome bignum :=
  match n_digits with
  | O => Return result
  | S n_digits =>
      result <- bignum_destructive_scale_up result radix ;;
      let '(digit, context) := producer context in
      result <- bignum_destructive_add result digit ;;
      digit_stream_loop n_digits radix context result
  end.

Definition digit_stream_to_bignum (n_digits : nat) (context : C) (radix : Z) (neg : bool) : outcome bignum :=
  assert_that ((radix >? 1) && (radix <=? BIGNUM_RADIX_ROOT)) ;;
  if Nat.eqb n_digits 0 then Return BIGNUM_ZERO
  else if Nat.eqb n_digits 1
  then let '(digit, _) := producer context in long_to_bignum (if neg then to_long (- digit) else digit)
  else
    let length := BIGNUM_BITS_TO_DIGITS (to_uint (Z.of_nat n_digits * ulong_length_in_bits radix)) in
    result <- bignum_allocate_zeroed length neg ;;
    result <- digit_stream_loop n_digits radix context result ;;
    Return (bignum_trim result).
End Producer.

(** The loop of [bignum_to_digit_stream]: the digits passed to the consumer, in
    that order.  [scan] counts the digits before the scan pointer. *)
Fixpoint consume_digits (fuel : nat) (radix : Z) (working_copy : bignum) (scan : Z) : outcome (list Z) :=
  if 0 <? scan
  then
    match fuel with
    | O => OutOfFuel
    | S fuel =>
        d <- BIGNUM_REF working_copy (scan - 1) ;;
        if d =? 0 then consume_digits fuel radix working_copy (scan - 1)
        else
          '(working_copy, digit) <- bignum_destructive_scale_down working_copy radix ;;
          rest <- consume_digits fuel radix working_copy scan ;;
          Return (digit :: rest)
    end
  else Return [].

(** Every turn takes a bit off the number or a digit off the scan. *)
Definition consume_fuel (b : bignum) : nat := 63 * length (digits b).

Definition bignum_to_digit_stream (b : bignum) (radix : Z) : outcome (list Z) :=
  assert_that ((radix >? 1) && (radix <=? BIGNUM_RADIX_ROOT)) ;;
  if BIGNUM_ZERO_P b then Return []
  else
    working_copy <- bignum_copy b ;;
    consume_digits (consume_fuel b) radix working_copy (BIGNUM_LENGTH working_copy).

Definition bignum_max_digit_stream_radix : Z := BIGNUM_RADIX_ROOT.

(** ** Words: proofs *)

Lemma accumulator_digits_ok space : forall a, 0 <= a < 2 ^ (62 * Z.of_nat space) -> (0 < space)%nat -> 0 < a ->
  returns (accumulator_digits space a)
    (fun ds => digits_ok ds /\ eval ds = a /\ last ds 1 <> 0 /\ ds <> [] /\ (length ds <= space)%nat).
Proof.
  induction space as [|space IH]; intros a Ha Hs Hp; [lia|]. cbn [accumulator_digits].
  rewrite (land_mask 62), Z.shiftr_div_pow2 by (reflexivity || (change BIGNUM_DIGIT_LENGTH with 62; lia)).
  change BIGNUM_DIGIT_LENGTH with 62. rewrite <- RADIX_eq.
  pose proof (Z.div_mod a BIGNUM_RADIX ltac:(rlia)) as E. pose proof (Z.mod_pos_bound a BIGNUM_RADIX ltac:(rlia)) as B.
  replace (62 * Z.of_nat (S space)) with (62 + 62 * Z.of_nat space) in Ha by lia.
  rewrite Z.pow_add_r, <- RADIX_eq in Ha by lia.
  assert (Hq : 0 <= a / BIGNUM_RADIX < 2 ^ (62 * Z.of_nat space))
    by (split; [apply Z.div_pos; rlia|apply Z.div_lt_upper_bound; rlia]).
  destruct (Z.eqb_spec (a / BIGNUM_RADIX) 0) as [E0|E0]; cbn [negb].
  - ret_now. cbn [positional last length]. repeat split; try discriminate; try lia. now constructor.
  - destruct space as [|space]; [change (2 ^ (62 * Z.of_nat 0)) with 1 in Hq; lia|].
    ret_step IH; [lia..|]. intros ds (D1 & D2 & D3 & D4 & D5). ret_now. cbn [positional length].
    repeat split; try discriminate; try lia; [now constructor|]. destruct ds; [congruence|exact D3].
Qed.

Lemma word_to_bignum_ok a neg : 0 < a < 2 ^ 64 ->
  returns (ds <- accumulator_digits BIGNUM_DIGITS_FOR_TYPE a ;; bignum_from_digits ds neg)
    (represents (if neg then - a else a)).
Proof.
  intros Ha. change BIGNUM_DIGITS_FOR_TYPE with 2%nat.
  ret_step accumulator_digits_ok; [split; [lia|]; change (62 * Z.of_nat 2) with 124; lia|lia|lia|].
  intros ds (D1 & D2 & D3 & D4 & D5). unfold bignum_from_digits.
  apply allocate_and_store; [rlia|reflexivity|]. apply represents_digits; auto; [rlia|]. now rewrite D2.
Qed.

Lemma long_to_bignum_ok n : long_p n -> returns (long_to_bignum n) (represents n).
Proof.
  intros Hn. unfold long_p in Hn. unfold long_to_bignum.
  destruct (Z.eqb_spec n 0) as [->|]; [ret_now; auto|].
  destruct (Z.eqb_spec n 1) as [->|]; [ret_now; exact (BIGNUM_ONE_represents false)|].
  destruct (Z.eqb_spec n (-1)) as [->|]; [ret_now; exact (BIGNUM_ONE_represents true)|].
  destruct (Z.ltb_spec n 0).
  - rewrite to_ulong_to_long, to_ulong_small by lia. replace n with (- - n) at 2 by lia.
    apply (word_to_bignum_ok (- n) true). lia.
  - rewrite to_ulong_small by lia. apply (word_to_bignum_ok n false). lia.
Qed.

Lemma ulong_to_bignum_ok n : ulong_p n -> returns (ulong_to_bignum n) (represents n).
Proof.
  intros Hn. unfold ulong_p in Hn. unfold ulong_to_bignum.
  destruct (Z.eqb_spec n 0) as [->|]; [ret_now; auto|].
  destruct (Z.eqb_spec n 1) as [->|]; [ret_now; exact (BIGNUM_ONE_represents false)|].
  apply (word_to_bignum_ok n false). lia.
Qed.

Lemma accumulate_ok ds : accumulate ds = to_ulong (eval ds).
Proof.
  induction ds as [|d ds IH]; [reflexivity|]. cbn [accumulate positional]. rewrite IH.
  change BIGNUM_DIGIT_LENGTH with 62. rewrite Z.shiftl_mul_pow2, RADIX_eq by lia. unfold to_ulong.
  rewrite Zplus_mod_idemp_l, (Zplus_mod (_ * _)), Zmult_mod_idemp_l, <- Zplus_mod. f_equal. lia.
Qed.

Lemma to_long_congruent z w : to_ulong z = to_ulong w -> to_long z = to_long w.
Proof. intros E. now rewrite <- (to_long_to_ulong z), E, to_long_to_ulong. Qed.

(** A bignum read as a [long] is its value modulo the word. *)
Lemma bignum_to_long_ok b : wf b -> bignum_to_long b = to_long (value b).
Proof.
  intros Hb. unfold bignum_to_long. rewrite BIGNUM_ZERO_P_value by assumption.
  destruct (Z.eqb_spec (value b) 0) as [->|]; [reflexivity|].
  rewrite accumulate_ok, to_long_to_ulong. unfold BIGNUM_NEGATIVE_P, value, magnitude.
  destruct (negative_p b); [|reflexivity]. apply to_long_congruent. unfold to_ulong, to_long.
  rewrite (Z.mod_eq (_ + 2 ^ 63)) by lia. set (q := (eval (digits b) + 2 ^ 63) / 2 ^ 64).
  replace (- (eval (digits b) + 2 ^ 63 - 2 ^ 64 * q - 2 ^ 63)) with (- eval (digits b) + q * 2 ^ 64) by lia.
  now rewrite Z.mod_add.
Qed.

Lemma bignum_to_ulong_ok b : wf b -> 0 <= value b ->
  returns (bignum_to_ulong b) (eq (to_ulong (value b))).
Proof.
  intros Hb Hv. unfold bignum_to_ulong. rewrite BIGNUM_ZERO_P_value by assumption.
  destruct (Z.eqb_spec (value b) 0) as [->|]; [now ret_now|].
  rewrite BIGNUM_POSITIVE_P_value by assumption. ret_assert; [lia|]. ret_now.
  rewrite accumulate_ok. unfold value, magnitude in *. destruct (negative_p b) eqn:N; [|reflexivity].
  pose proof (eval_nonneg _ (wf_digits b Hb)). lia.
Qed.

(** ** Digit streams: proofs *)

(** The digits a producer yields, in order. *)
Fixpoint produced {C} (producer : C -> Z * C) (n : nat) (context : C) : list Z :=
  match n with
  | O => []
  | S n => let '(d, context) := producer context in d :: produced producer n context
  end.

(** The number denoted by digits given most significant first. *)
Definition horner (radix : Z) (ds : list Z) (acc : Z) : Z := fold_left (fun a d => a * radix + d) ds acc.

Lemma horner_rev radix ds : horner radix (rev ds) 0 = positional radix ds.
Proof.
  unfold horner. rewrite fold_left_rev_right || rewrite <- fold_left_rev_right. rewrite rev_involutive.
  induction ds as [|d ds IH]; [reflexivity|]. cbn [fold_right positional]. rewrite IH. lia.
Qed.

Section Stream.
Context {C : Type} (producer : C -> Z * C) (radix : Z).
Hypothesis radix_range : 1 < radix < BIGNUM_RADIX_ROOT.

Lemma digit_stream_loop_ok n : forall context b,
  digits_below radix (produced producer n context) -> digits_ok (digits b) -> digits b <> [] ->
  (magnitude b + 1) * radix ^ Z.of_nat n <= BIGNUM_RADIX ^ BIGNUM_LENGTH b ->
  returns (digit_stream_loop producer n radix context b)
    (fun r => negative_p r = negative_p b /\ digits_ok (digits r) /\ BIGNUM_LENGTH r = BIGNUM_LENGTH b /\
              magnitude r = horner radix (produced producer n context) (magnitude b)).
Proof.
  induction n as [|n IH]; intros context b Hp D Hne Hb.
  - cbn [digit_stream_loop]. ret_now. auto.
  - cbn [digit_stream_loop produced] in *. destruct (producer context) as [d context'].
    apply digits_below_cons in Hp as [Hd Hp]. rewrite Nat2Z.inj_succ, Z.pow_succ_r in Hb by lia.
    pose proof (eval_nonneg _ D) as Hm. fold (magnitude b) in Hm.
    pose proof (Z.pow_pos_nonneg radix (Z.of_nat n) ltac:(lia) ltac:(lia)) as P.
    assert (Hlt : (magnitude b + 1) * radix <= BIGNUM_RADIX ^ BIGNUM_LENGTH b) by nia.
    ret_step bignum_destructive_scale_up_ok; [lia|assumption|lia|].
    intros b1 (S1 & S2 & S3 & S4).
    ret_step bignum_destructive_add_ok; [rlia|assumption| | |].
    + intros E. apply Hne. apply length_zero_iff_nil. unfold BIGNUM_LENGTH in S3. rewrite E in S3. cbn in S3. lia.
    + rewrite S3, S4. lia.
    + intros b2 (A1 & A2 & A3 & A4). ret_step IH; auto.
      * intros E. apply Hne. apply length_zero_iff_nil. unfold BIGNUM_LENGTH in *. rewrite E in A3. cbn in A3. lia.
      * rewrite A4, A3, S3, S4. apply Z.le_trans with (2 := Hb). nia.
      * intros r (R1 & R2 & R3 & R4). unfold horner. cbn [fold_left]. fold (horner radix).
        repeat split; try congruence; auto. rewrite R4, A4, S4. unfold horner. do 2 f_equal. lia.
Qed.

(** The room the code allocates: [n_digits] times the bits of the radix. *)
Lemma stream_room n : (0 < n)%nat ->
  radix ^ Z.of_nat n <= BIGNUM_RADIX ^ BIGNUM_BITS_TO_DIGITS (Z.of_nat n * bit_length radix).
Proof.
  intros Hn. pose proof (bit_length_spec radix ltac:(lia)) as [_ U]. pose proof (bit_length_pos radix ltac:(lia)).
  apply Z.le_trans with ((2 ^ bit_length radix) ^ Z.of_nat n); [apply Z.pow_le_mono_l; lia|].
  rewrite <- Z.pow_mul_r, radix_pow by (try lia; unfold BIGNUM_BITS_TO_DIGITS; change BIGNUM_DIGIT_LENGTH with 62; dlia).
  apply Z.pow_le_mono_r; [lia|]. unfold BIGNUM_BITS_TO_DIGITS. change BIGNUM_DIGIT_LENGTH with 62. dlia.
Qed.

Lemma digit_stream_to_bignum_ok n context (neg : bool) :
  digits_below radix (produced producer n context) -> Z.of_nat n * bit_length radix < 2 ^ 32 ->
  returns (digit_stream_to_bignum producer n context radix neg)
    (represents (let z := horner radix (produced producer n context) 0 in if neg then - z else z)).
Proof.
  intros Hp Hn. unfold digit_stream_to_bignum. ret_assert; [rlia|].
  destruct n as [|[|n]]; cbn [Nat.eqb].
  - ret_now. cbn. destruct neg; exact BIGNUM_ZERO_represents.
  - cbn [produced] in *. destruct (producer context) as [d context']. apply digits_below_cons in Hp as [Hd _].
    rewrite to_long_small by rlia. ret_step long_to_bignum_ok; [unfold long_p; destruct neg; rlia|].
    intros r Hr. eapply represents_eq; [exact Hr|]. unfold horner. cbn [fold_left]. destruct neg; lia.
  - remember (S (S n)) as m eqn:Em. assert (Hm : (1 < m)%nat) by lia. clear Em n.
    pose proof (bit_length_pos radix ltac:(lia)). rewrite ulong_length_in_bits_spec by (unfold ulong_p; rlia).
    rewrite to_uint_small by lia. pose proof (stream_room m ltac:(lia)) as Room.
    set (L := BIGNUM_BITS_TO_DIGITS (Z.of_nat m * bit_length radix)) in *.
    assert (HL : 1 <= L <= BIGNUM_LENGTH_MAX).
    { unfold L, BIGNUM_BITS_TO_DIGITS. change BIGNUM_DIGIT_LENGTH with 62. radix. dlia. }
    ret_step bignum_allocate_zeroed_ok; [lia|]. intros b ->.
    assert (Z0 : magnitude (Bignum neg (repeat 0 (Z.to_nat L))) = 0) by apply positional_zeros.
    assert (L0 : BIGNUM_LENGTH (Bignum neg (repeat 0 (Z.to_nat L))) = L)
      by (unfold BIGNUM_LENGTH; cbn [digits]; rewrite repeat_length; lia).
    ret_step digit_stream_loop_ok; auto.
    + cbn [digits]. apply digits_below_zeros. rlia.
    + cbn [digits]. destruct (Z.to_nat L) eqn:E; [lia|discriminate].
    + rewrite Z0, L0. lia.
    + rewrite Z0, L0. intros [s ds] (S1 & S2 & S3 & S4). cbn [negative_p digits] in *. subst s. ret_now.
      cbv zeta. rewrite <- S4. unfold BIGNUM_LENGTH in S3. cbn [digits] in S3.
      apply bignum_trim_represents; [assumption|lia|]. intros ->. cbn in S3. lia.
Qed.
End Stream.

(** Dividing by the radix takes a bit at least. *)
Lemma bit_length_div z radix : 0 < z -> 1 < radix -> bit_length (z / radix) + 1 <= bit_length z.
Proof.
  intros Hz Hr. pose proof (bit_length_spec z Hz) as [_ U]. pose proof (bit_length_pos z Hz) as P.
  assert (H : 0 <= z / radix < 2 ^ (bit_length z - 1)).
  { split; [apply Z.div_pos; lia|]. apply Z.div_lt_upper_bound; [lia|].
    replace (2 ^ bit_length z) with (2 * 2 ^ (bit_length z - 1)) in U by (rewrite <- Z.pow_succ_r by lia; f_equal; lia).
    pose proof (Z.pow_pos_nonneg 2 (bit_length z - 1)). nia. }
  pose proof (bit_length_le _ (bit_length z - 1) ltac:(lia) H). lia.
Qed.

(** Digits above the [k]-th are zero exactly when the number is below [radix^k]. *)
Lemma high_digits_zero ds k : digits_ok ds -> (k <= length ds)%nat ->
  eval (skipn k ds) = 0 <-> eval ds < BIGNUM_RADIX ^ Z.of_nat k.
Proof.
  intros D Hk. assert (D' : digits_ok (firstn k ds) /\ digits_ok (skipn k ds))
    by (rewrite <- (firstn_skipn k ds) in D; now apply digits_below_app in D).
  destruct D' as [D1 D2]. pose proof (eval_upper _ D1) as U. pose proof (eval_nonneg _ D1).
  pose proof (eval_nonneg _ D2). rewrite length_firstn, Nat.min_l in U by assumption.
  assert (E : eval ds = eval (firstn k ds) + BIGNUM_RADIX ^ Z.of_nat k * eval (skipn k ds)).
  { rewrite <- (firstn_skipn k ds) at 1. rewrite eval_app, length_firstn, Nat.min_l by assumption. reflexivity. }
  rewrite E. split; [intros ->; lia|]. intros Hlt. nia.
Qed.

Lemma consume_digits_ok fuel radix : forall b scan,
  1 < radix < BIGNUM_RADIX_ROOT -> digits_ok (digits b) -> 0 <= scan <= BIGNUM_LENGTH b ->
  magnitude b < BIGNUM_RADIX ^ scan -> bit_length (magnitude b) + scan <= Z.of_nat fuel ->
  returns (consume_digits fuel radix b scan)
    (fun ds => digits_below radix ds /\ positional radix ds = magnitude b /\ last ds 1 <> 0).
Proof.
  induction fuel as [|fuel IH]; intros b scan Hr D Hs Hz Hf; cbn [consume_digits];
    pose proof (bit_length_nonneg (magnitude b)); pose proof (eval_nonneg _ D) as Hm; fold (magnitude b) in Hm;
    (destruct (Z.ltb_spec 0 scan) as [Hpos|];
     [|ret_now; assert (scan = 0) as -> by lia; change (BIGNUM_RADIX ^ 0) with 1 in Hz;
       repeat split; [constructor|cbn [positional]; lia|discriminate]]); [lia|].
  unfold BIGNUM_REF, BIGNUM_LENGTH in *.
  destruct (nth_error (digits b) (Z.to_nat (scan - 1))) as [d|] eqn:N; [|apply nth_error_None in N; lia].
  destruct (nth_error_split _ _ N) as (l1 & l2 & E & Hl1).
  assert (Ref : digit_ref (digits b) (scan - 1) = Return d) by (rewrite E; apply digit_ref_app; lia).
  rewrite Ref. cbn [bind]. destruct (Z.eqb_spec d 0) as [->|Hd].
  - apply IH; auto; [lia| |lia]. replace (scan - 1) with (Z.of_nat (Z.to_nat (scan - 1))) by lia.
    apply high_digits_zero; [assumption|lia|]. replace scan with (Z.of_nat (Z.to_nat scan)) in Hz by lia.
    apply high_digits_zero in Hz; [|assumption|lia]. rewrite E in Hz |- *.
    rewrite skipn_app, skipn_all2 in Hz |- * by lia. replace (Z.to_nat scan - length l1)%nat with 1%nat in Hz by lia.
    rewrite Hl1, Nat.sub_diag. cbn [app skipn positional] in *. lia.
  - assert (Hmp : 0 < magnitude b).
    { unfold magnitude. rewrite E in *. apply digits_below_app in D as [D1 [D2 D3]%digits_below_cons].
      rewrite eval_app. cbn [positional]. pose proof (eval_nonneg _ D1). pose proof (eval_nonneg _ D3).
      pose proof (radix_pow_pos (zlength l1) ltac:(lia)). rnia. }
    ret_step bignum_destructive_scale_down_ok; [assumption|assumption|].
    intros [b' r] (S1 & S2 & S3 & S4 & ->). pose proof (bit_length_div (magnitude b) radix Hmp ltac:(lia)).
    pose proof (Z.div_mod (magnitude b) radix ltac:(lia)) as Dm. pose proof (Z.mod_pos_bound (magnitude b) radix ltac:(lia)) as Bm.
    ret_step IH; auto.
    + rewrite S3. lia.
    + rewrite S4. apply Z.le_lt_trans with (2 := Hz). apply Z.div_le_upper_bound; [lia|]. nia.
    + rewrite S4. lia.
    + intros ds (R1 & R2 & R3). ret_now. rewrite S4 in R2. split; [now constructor|]. cbn [positional]. rewrite R2.
      split; [lia|]. destruct ds as [|d1 ds]; [|exact R3]. cbn [positional last] in *. lia.
Qed.

Lemma bignum_to_digit_stream_ok b radix : wf b -> 1 < radix < BIGNUM_RADIX_ROOT ->
  returns (bignum_to_digit_stream b radix)
    (fun ds => digits_below radix ds /\ positional radix ds = magnitude b /\ last ds 1 <> 0).
Proof.
  intros Hb Hr. unfold bignum_to_digit_stream. ret_assert; [lia|].
  pose proof (BIGNUM_ZERO_P_nil b) as Zb. destruct (BIGNUM_ZERO_P b).
  - ret_now. unfold magnitude. rewrite (proj1 Zb eq_refl). repeat split; [constructor|discriminate].
  - ret_step bignum_copy_ok; [assumption|]. intros c ->. pose proof (wf_digits b Hb) as D.
    pose proof (eval_upper _ D) as U. fold (magnitude b) in U. pose proof (magnitude_nonneg b Hb).
    apply consume_digits_ok; auto; unfold BIGNUM_LENGTH; [lia|].
    rewrite radix_pow in U by lia. pose proof (bit_length_le (magnitude b) (62 * zlength (digits b)) ltac:(lia) ltac:(lia)).
    unfold consume_fuel. lia.
Qed.

(** The context of a producer that reads a list, and its stream. *)
Definition list_producer (context : list Z) : Z * list Z :=
  match context with
  | [] => (0, [])
  | d :: context => (d, context)
  end.

Lemma produced_list ds : produced list_producer (length ds) ds = ds.
Proof. induction ds as [|d ds IH]; [reflexivity|]. cbn [length produced list_producer]. now rewrite IH. Qed.

(** Printing and reading back in a radix: the digits of a bignum, most
    significant first, make the same bignum again. *)
Lemma digit_stream_round_trip_ok b radix ds :
  wf b -> 1 < radix < BIGNUM_RADIX_ROOT -> bignum_to_digit_stream b radix = Return ds ->
  zlength ds * bit_length radix < 2 ^ 32 ->
  digit_stream_to_bignum list_producer (length ds) (rev ds) radix (BIGNUM_NEGATIVE_P b) = Return b.
Proof.
  intros Hb Hr E Hlen. pose proof (bignum_to_digit_stream_ok b radix Hb Hr) as S. rewrite E in S.
  apply returns_inv in S as (S1 & S2 & _).
  assert (P : produced list_producer (length ds) (rev ds) = rev ds)
    by (rewrite <- (length_rev ds); apply produced_list).
  destruct (digit_stream_to_bignum_ok list_producer radix Hr (length ds) (rev ds) (BIGNUM_NEGATIVE_P b))
    as (r & -> & Wr & Vr); [rewrite P; now apply Forall_rev|assumption|].
  f_equal. apply value_inj; auto. rewrite Vr, P, horner_rev, S2. unfold value. reflexivity.
Qed.

(** ** Properties *)

(** The digits bignum_to_digit_stream sends to its consumer, given back most significant first to
    digit_stream_to_bignum, make the same bignum. *)
Theorem digit_streams_round_trip b radix : wf b -> 1 < radix < BIGNUM_RADIX_ROOT ->
  exists ds, bignum_to_digit_stream b radix = Return ds /\ digits_below radix ds /\
    (zlength ds * bit_length radix < 2 ^ 32 ->
     digit_stream_to_bignum list_producer (length ds) (rev ds) radix (BIGNUM_NEGATIVE_P b) = Return b).
Proof.
  intros Hb Hr. destruct (bignum_to_digit_stream_ok b radix Hb Hr) as (ds & E & D & _).
  exists ds. split; [exact E|]. split; [exact D|]. now apply digit_stream_round_trip_ok.
Qed.
