(* ===== verification/Bytes.v ===== *)
(** * object.h: bytes in words

    Strings and bytevectors keep their bytes in the words of a block, least
    significant byte first. *)

From Stdlib Require Import ZArith List Bool Lia.
From S2P Require Import Prelude.
Import ListNotations.

#[local] Open Scope Z_scope.
#[local] Open Scope microcode_scope.

Definition SIZEOF_SCHEME_OBJECT : Z := 8.
Definition BYTES_TO_WORDS (nbytes : Z) : Z := (nbytes + (SIZEOF_SCHEME_OBJECT - 1)) / SIZEOF_SCHEME_OBJECT.
Definition BYTEVECTOR_LENGTH_TO_GC_LENGTH (n_chars : Z) : Z := BYTES_TO_WORDS n_chars + 1.
Definition STRING_LENGTH_TO_GC_LENGTH (n_chars : Z) : Z := BYTEVECTOR_LENGTH_TO_GC_LENGTH (n_chars + 1).

(** The bytes of a word in memory (least significant first), and back. *)
Definition word_bytes (w : Z) : list Z :=
  map (fun i => Z.land (Z.shiftr w (8 * Z.of_nat i)) 255) (seq 0 8).

Fixpoint pack (n_words : nat) (bytes : list Z) : list Z :=
  match n_words with
  | O => []
  | S n => positional 256 (firstn 8 bytes) :: pack n (skipn 8 bytes)
  end.

(** [memcpy] of bytes to the start of a block of words. *)
Definition copy_bytes (bytes words : list Z) : outcome (list Z) :=
  let old := concat (map word_bytes words) in
  if Nat.leb (length bytes) (length old)
  then Return (pack (length words) (bytes ++ skipn (length bytes) old))
  else Wild.

(** The C string at the start of a block of bytes. *)
Fixpoint read_c_string (bytes : list Z) : outcome (list Z) :=
  match bytes with
  | [] => Wild
  | b :: bytes => if b =? 0 then Return [] else s <- read_c_string bytes ;; Return (b :: s)
  end.

(** ** Proofs *)

Definition bytes_ok (bytes : list Z) : Prop := digits_below 256 bytes.

Lemma word_bytes_length w : length (word_bytes w) = 8%nat.
Proof. reflexivity. Qed.

Lemma word_bytes_ok w : bytes_ok (word_bytes w).
Proof.
  apply Forall_forall. intros b (i & <- & _)%in_map_iff. rewrite (land_mask 8 255) by lia.
  apply Z.mod_pos_bound. lia.
Qed.

Lemma positional_digit b l i : 1 < b -> digits_below b l -> (i < length l)%nat ->
  positional b l / b ^ Z.of_nat i mod b = nth i l 0.
Proof.
  intros Hb. revert i. induction l as [|d l IH]; intros i Hl Hi; cbn [length] in Hi; [lia|].
  apply digits_below_cons in Hl as [Hd Hl]. destruct i as [|i]; cbn [positional nth].
  - rewrite Z.div_1_r, Z.mul_comm, Z.mod_add, Z.mod_small by lia. reflexivity.
  - rewrite Nat2Z.inj_succ, Z.pow_succ_r, <- Z.div_div by lia.
    replace (d + b * positional b l) with (positional b l * b + d) by lia.
    rewrite Z.div_add_l, (Z.div_small d) by lia. rewrite Z.add_0_r. apply IH; [assumption|lia].
Qed.

(** Eight bytes make a word, and are its bytes. *)
Lemma word_bytes_positional bs : bytes_ok bs -> length bs = 8%nat -> word_bytes (positional 256 bs) = bs.
Proof.
  intros Hb Hl. assert (E : map (fun i => nth i bs 0) (seq 0 8) = bs).
  { clear Hb. do 8 (destruct bs as [|? bs]; [discriminate|]). destruct bs; [reflexivity|discriminate]. }
  rewrite <- E at 2. unfold word_bytes. apply map_ext_in. intros i Hi%in_seq.
  rewrite (land_mask 8 255), Z.shiftr_div_pow2, Z.pow_mul_r by lia. change (2 ^ 8) with 256.
  apply positional_digit; [lia|assumption|lia].
Qed.

Lemma Forall_cut {A} (P : A -> Prop) n l : Forall P l -> Forall P (firstn n l) /\ Forall P (skipn n l).
Proof. intros H. apply Forall_app. now rewrite firstn_skipn. Qed.

Lemma pack_bytes n : forall bs, bytes_ok bs -> length bs = (8 * n)%nat -> concat (map word_bytes (pack n bs)) = bs.
Proof.
  induction n as [|n IH]; intros bs Hb Hl; cbn [pack map concat].
  - destruct bs; [reflexivity|discriminate].
  - rewrite <- (firstn_skipn 8 bs) at 3.
    rewrite word_bytes_positional; [|now apply Forall_cut|rewrite length_firstn; lia].
    f_equal. apply IH; [now apply Forall_cut|rewrite length_skipn; lia].
Qed.

Lemma pack_length n bs : length (pack n bs) = n.
Proof. revert bs. induction n as [|n IH]; intros bs; cbn [pack length]; auto. Qed.

Lemma words_bytes_length words : length (concat (map word_bytes words)) = (8 * length words)%nat.
Proof.
  induction words as [|w words IH]; [reflexivity|]. cbn [map concat]. rewrite length_app, word_bytes_length, IH.
  cbn [length]. lia.
Qed.

Lemma words_bytes_ok words : bytes_ok (concat (map word_bytes words)).
Proof.
  induction words as [|w words IH]; [constructor|]. cbn [map concat]. apply Forall_app. split; [apply word_bytes_ok|exact IH].
Qed.

Lemma copy_bytes_ok bs words : bytes_ok bs -> (length bs <= 8 * length words)%nat ->
  exists words' rest, copy_bytes bs words = Return words' /\ length words' = length words /\
    concat (map word_bytes words') = bs ++ rest.
Proof.
  intros Hb Hl. unfold copy_bytes. rewrite words_bytes_length.
  destruct (Nat.leb_spec (length bs) (8 * length words)); [|lia]. eexists. eexists. split; [reflexivity|].
  split; [apply pack_length|]. apply pack_bytes.
  - apply Forall_app. split; [assumption|]. apply Forall_cut, words_bytes_ok.
  - rewrite length_app, length_skipn, words_bytes_length. lia.
Qed.

Lemma read_c_string_ok s rest : Forall (fun b => b <> 0) s -> read_c_string (s ++ 0 :: rest) = Return s.
Proof.
  induction 1 as [|b s Hb Hs IH]; [reflexivity|]. cbn [app read_c_string].
  destruct (Z.eqb_spec b 0); [contradiction|]. rewrite IH. reflexivity.
Qed.

Lemma string_words n : 0 <= n ->
  0 < STRING_LENGTH_TO_GC_LENGTH n - 1 /\ n + 1 <= 8 * (STRING_LENGTH_TO_GC_LENGTH n - 1) <= n + 8.
Proof.
  intros Hn. unfold STRING_LENGTH_TO_GC_LENGTH, BYTEVECTOR_LENGTH_TO_GC_LENGTH, BYTES_TO_WORDS.
  change SIZEOF_SCHEME_OBJECT with 8. dlia.
Qed.
