(* ===== verification/Primitive.v ===== *)
(** * prims.h: results of primitive procedures

    A primitive either returns an object or signals one of the errors that
    abort it: [error_wrong_type_arg (n)] or [error_bad_range_arg (n)] for
    argument [n].  [primitive_fault] is a primitive that does not return
    because an operation it calls does not (an [outcome] other than [Return]). *)

From Stdlib Require Import ZArith List Bool Lia.
From S2P Require Import Prelude Object.

#[local] Open Scope Z_scope.

Inductive primitive (A : Type) : Type :=
| PRIMITIVE_RETURN (a : A)
| error_wrong_type_arg (n : Z)
| error_bad_range_arg (n : Z)
| primitive_fault.

Arguments PRIMITIVE_RETURN {A} a.
Arguments error_wrong_type_arg {A} n.
Arguments error_bad_range_arg {A} n.
Arguments primitive_fault {A}.

Definition pbind {A B} (m : primitive A) (k : A -> primitive B) : primitive B :=
  match m with
  | PRIMITIVE_RETURN a => k a
  | error_wrong_type_arg n => error_wrong_type_arg n
  | error_bad_range_arg n => error_bad_range_arg n
  | primitive_fault => primitive_fault
  end.

(** A call of an operation of the microcode from a primitive. *)
Definition call {A} (m : outcome A) : primitive A :=
  match m with Return a => PRIMITIVE_RETURN a | _ => primitive_fault end.

Declare Scope primitive_scope.
Delimit Scope primitive_scope with primitive.

Notation "x <- m ;; k" := (pbind m (fun x => k))
  (at level 60, m at next level, right associativity) : primitive_scope.
Notation "' p <- m ;; k" := (pbind m (fun x => match x with p => k end))
  (at level 60, p pattern, m at next level, right associativity) : primitive_scope.
Notation "m ;; k" := (pbind m (fun _ => k))
  (at level 60, right associativity) : primitive_scope.

(** [if (! ok) error_...]. *)
Definition require (ok : bool) (error : primitive unit) : primitive unit :=
  if ok then PRIMITIVE_RETURN tt else error.

(** [CHECK_ARG (n, P)]. *)
Definition CHECK_ARG {A} (n : Z) (p : A -> bool) (argument : A) : primitive unit :=
  require (p argument) (error_wrong_type_arg n).

Lemma call_returns {A} (m : outcome A) (P : A -> Prop) :
  returns m P -> exists a, call m = PRIMITIVE_RETURN a /\ P a.
Proof. intros (a & -> & H). now exists a. Qed.

(** [answers p P]: the primitive returns, and its result satisfies [P]. *)
Definition answers {A} (p : primitive A) (P : A -> Prop) : Prop :=
  exists a, p = PRIMITIVE_RETURN a /\ P a.

Lemma answers_return {A} (a : A) (P : A -> Prop) : P a -> answers (PRIMITIVE_RETURN a) P.
Proof. intros H. now exists a. Qed.

Lemma answers_call {A} (m : outcome A) (P : A -> Prop) : returns m P -> answers (call m) P.
Proof. intros (a & -> & H). now exists a. Qed.

Lemma answers_step {A B} (m : primitive A) (k : A -> primitive B) (P : A -> Prop) (Q : B -> Prop) :
  answers m P -> (forall a, P a -> answers (k a) Q) -> answers (pbind m k) Q.
Proof. intros (a & -> & HP) Hk. exact (Hk a HP). Qed.

Lemma call_returns_eq {A} (m : outcome A) a : returns m (eq a) -> call m = PRIMITIVE_RETURN a.
Proof. intros (b & -> & ->). reflexivity. Qed.

Lemma require_true {A} e (k : unit -> primitive A) : pbind (require true e) k = k tt.
Proof. reflexivity. Qed.

Lemma CHECK_ARG_true {A B} n (p : A -> bool) x (k : unit -> primitive B) :
  p x = true -> pbind (CHECK_ARG n p x) k = k tt.
Proof. unfold CHECK_ARG. now intros ->. Qed.

Lemma CHECK_ARG_false {A B} n (p : A -> bool) x (k : unit -> primitive B) :
  p x = false -> pbind (CHECK_ARG n p x) k = error_wrong_type_arg n.
Proof. unfold CHECK_ARG. now intros ->. Qed.
