(* ===== verification/Fixnum.v ===== *)
(** * fixnum.c, fixnum.h, mul.c: fixnum primitives

    Objects are words; [fixnum x] below is the object of the small integer [x].
    The theorems say, for every pair of fixnum arguments, which fixnum each
    primitive returns or which error it signals. *)

From Stdlib Require Import ZArith List Bool Lia.
From S2P Require Import Prelude Bits Object Primitive.
Import ListNotations.

#[local] Open Scope Z_scope.
#[local] Open Scope primitive_scope.

(** ** fixnum.h *)

Definition MAX_BIT_SHIFT : Z := DATUM_LENGTH.

Definition RIGHT_SHIFT (source number : Z) : Z :=
  if number >? MAX_BIT_SHIFT then 0
  else if source <? 0
  then to_long (to_ulong (Z.lnot (Z.shiftr (to_ulong (Z.lnot (to_ulong source))) number)))
  else Z.shiftr source number.

Definition LEFT_SHIFT (source number : Z) : Z :=
  if number >? MAX_BIT_SHIFT then 0 else to_long (Z.shiftl source number).

Definition FIXNUM_LSH (source number : Z) : Z :=
  if number >=? 0 then LEFT_SHIFT source number else RIGHT_SHIFT source (- number).

Definition FIXNUM_REMAINDER (source1 source2 : Z) : Z :=
  if source2 >? 0
  then if source1 >=? 0 then Z.rem source1 source2 else - Z.rem (- source1) source2
  else if source1 >=? 0 then Z.rem source1 (- source2) else - Z.rem (- source1) (- source2).

Definition FIXNUM_QUOTIENT (source1 source2 : Z) : Z :=
  if source2 >? 0
  then if source1 >=? 0 then Z.quot source1 source2 else - Z.quot (- source1) source2
  else if source1 >=? 0 then - Z.quot source1 (- source2) else Z.quot (- source1) (- source2).

(** ** mul.c *)

Definition HALF_WORD_SIZE : Z := SIZEOF_LONG * CHAR_BIT / 2.
Definition HALF_WORD_MASK : Z := Z.shiftl 1 HALF_WORD_SIZE - 1.
Definition MAX_MIDDLE : Z := Z.shiftl 1 ((DATUM_LENGTH - 1) - HALF_WORD_SIZE).
Definition MAX_FIXNUM : Z := Z.shiftl 1 DATUM_LENGTH.
Definition ABS (x : Z) : Z := if x <? 0 then - x else x.

Definition Mul (Arg1 Arg2 : Z) : Z :=
  let A := FIXNUM_TO_LONG Arg1 in
  let B := FIXNUM_TO_LONG Arg2 in
  let Sign := Bool.eqb (A <? 0) (B <? 0) in
  let A := ABS A in
  let B := ABS B in
  let Hi_A := Z.land (Z.shiftr A HALF_WORD_SIZE) HALF_WORD_MASK in
  let Hi_B := Z.land (Z.shiftr B HALF_WORD_SIZE) HALF_WORD_MASK in
  if (Hi_A >? 0) && (Hi_B >? 0) then SHARP_F
  else
    let Lo_A := Z.land A HALF_WORD_MASK in
    let Lo_B := Z.land B HALF_WORD_MASK in
    let Lo_C := to_ulong (Lo_A * Lo_B) in
    if Lo_C >=? FIXNUM_SIGN_BIT then SHARP_F
    else
      let Middle_C := to_ulong (Lo_A * Hi_B + Hi_A * Lo_B) in
      if Middle_C >=? MAX_MIDDLE then SHARP_F
      else
        let C := to_long (Lo_C + to_ulong (Z.shiftl Middle_C HALF_WORD_SIZE)) in
        if LONG_TO_FIXNUM_P C
        then if Sign || (C =? 0) then LONG_TO_UNSIGNED_FIXNUM C
             else LONG_TO_UNSIGNED_FIXNUM (MAX_FIXNUM - C)
        else SHARP_F.

(** ** fixnum.c *)

Definition arg_fixnum (n argument : Z) : primitive Z :=
  if negb (FIXNUM_P argument) then error_wrong_type_arg n
  else PRIMITIVE_RETURN (FIXNUM_TO_LONG argument).

Definition arg_unsigned_fixnum (n argument : Z) : primitive Z :=
  if negb (FIXNUM_P argument) then error_wrong_type_arg n
  else PRIMITIVE_RETURN (OBJECT_DATUM argument).

Definition BOOLEAN_RESULT (expr : bool) : primitive Z := PRIMITIVE_RETURN (BOOLEAN_TO_OBJECT expr).

Definition FIXNUM_RESULT (result : Z) : primitive Z :=
  if negb (LONG_TO_FIXNUM_P result) then error_bad_range_arg 1
  else PRIMITIVE_RETURN (LONG_TO_FIXNUM result).

Definition LOGICAL_RESULT (fixnum : Z) : primitive Z :=
  PRIMITIVE_RETURN (MAKE_OBJECT TC_FIXNUM (Z.land fixnum DATUM_MASK)).

Definition Prim_zero_fixnum_p (a1 : Z) : primitive Z := BOOLEAN_RESULT (FIXNUM_P a1).
Definition Prim_index_fixnum_p (a1 : Z) : primitive Z := BOOLEAN_RESULT (UNSIGNED_FIXNUM_P a1).
Definition Prim_zero_fixnum (a1 : Z) : primitive Z := x <- arg_fixnum 1 a1 ;; BOOLEAN_RESULT (x =? 0).
Definition Prim_negative_fixnum (a1 : Z) : primitive Z := x <- arg_fixnum 1 a1 ;; BOOLEAN_RESULT (x <? 0).
Definition Prim_positive_fixnum (a1 : Z) : primitive Z := x <- arg_fixnum 1 a1 ;; BOOLEAN_RESULT (x >? 0).
Definition Prim_equal_fixnum (a1 a2 : Z) : primitive Z :=
  x <- arg_fixnum 1 a1 ;; y <- arg_fixnum 2 a2 ;; BOOLEAN_RESULT (x =? y).
Definition Prim_less_fixnum (a1 a2 : Z) : primitive Z :=
  x <- arg_fixnum 1 a1 ;; y <- arg_fixnum 2 a2 ;; BOOLEAN_RESULT (x <? y).
Definition Prim_greater_fixnum (a1 a2 : Z) : primitive Z :=
  x <- arg_fixnum 1 a1 ;; y <- arg_fixnum 2 a2 ;; BOOLEAN_RESULT (x >? y).

Definition Prim_one_plus_fixnum (a1 : Z) : primitive Z :=
  x <- arg_fixnum 1 a1 ;; FIXNUM_RESULT (x + 1).
Definition Prim_m_1_plus_fixnum (a1 : Z) : primitive Z :=
  x <- arg_fixnum 1 a1 ;; FIXNUM_RESULT (x - 1).
Definition Prim_plus_fixnum (a1 a2 : Z) : primitive Z :=
  x <- arg_fixnum 1 a1 ;; y <- arg_fixnum 2 a2 ;; FIXNUM_RESULT (x + y).
Definition Prim_minus_fixnum (a1 a2 : Z) : primitive Z :=
  x <- arg_fixnum 1 a1 ;; y <- arg_fixnum 2 a2 ;; FIXNUM_RESULT (x - y).
Definition Prim_fixnum_negate (a1 : Z) : primitive Z :=
  x <- arg_fixnum 1 a1 ;; FIXNUM_RESULT (- x).

Definition Prim_multiply_fixnum (a1 a2 : Z) : primitive Z :=
  CHECK_ARG 1 FIXNUM_P a1 ;;
  CHECK_ARG 2 FIXNUM_P a2 ;;
  let result := Mul a1 a2 in
  if result =? SHARP_F then error_bad_range_arg 1 else PRIMITIVE_RETURN result.

(** The pair it conses, as a pair. *)
Definition Prim_divide_fixnum (a1 a2 : Z) : primitive (Z * Z) :=
  numerator <- arg_fixnum 1 a1 ;;
  denominator <- arg_fixnum 2 a2 ;;
  if denominator =? 0 then error_bad_range_arg 2
  else
    let '(quotient, remainder) :=
      if numerator <? 0
      then
        let numerator := - numerator in
        let '(quotient, denominator) :=
          if denominator <? 0
          then let denominator := - denominator in (Z.quot numerator denominator, denominator)
          else (- Z.quot numerator denominator, denominator) in
        (quotient, - Z.rem numerator denominator)
      else
        let '(quotient, denominator) :=
          if denominator <? 0
          then let denominator := - denominator in (- Z.quot numerator denominator, denominator)
          else (Z.quot numerator denominator, denominator) in
        (quotient, Z.rem numerator denominator) in
    if negb (LONG_TO_FIXNUM_P quotient) then error_bad_range_arg 1
    else PRIMITIVE_RETURN (LONG_TO_FIXNUM quotient, LONG_TO_FIXNUM remainder).

Definition Prim_fixnum_quotient (a1 a2 : Z) : primitive Z :=
  numerator <- arg_fixnum 1 a1 ;;
  denominator <- arg_fixnum 2 a2 ;;
  if denominator =? 0 then error_bad_range_arg 2
  else FIXNUM_RESULT (FIXNUM_QUOTIENT numerator denominator).

Definition Prim_fixnum_remainder (a1 a2 : Z) : primitive Z :=
  numerator <- arg_fixnum 1 a1 ;;
  denominator <- arg_fixnum 2 a2 ;;
  if denominator =? 0 then error_bad_range_arg 2
  else FIXNUM_RESULT (FIXNUM_REMAINDER numerator denominator).

(** The loop of [GCD-FIXNUM]. *)
Fixpoint gcd_loop (fuel : nat) (x y : Z) : outcome Z :=
  if negb (y =? 0)
  then match fuel with O => OutOfFuel | S fuel => gcd_loop fuel y (Z.rem x y) end
  else Return x.

(** The second operand shrinks by half in two turns. *)
Definition gcd_fuel : nat := 2 * Z.to_nat DATUM_LENGTH + 2.

Definition Prim_gcd_fixnum (a1 a2 : Z) : primitive Z :=
  x <- arg_fixnum 1 a1 ;;
  y <- arg_fixnum 2 a2 ;;
  let x := if x <? 0 then - x else x in
  let y := if y <? 0 then - y else y in
  x <- call (gcd_loop gcd_fuel x y) ;;
  PRIMITIVE_RETURN (LONG_TO_FIXNUM x).

Definition BINARY_LOGICAL_OP (operation : Z -> Z -> Z) (a1 a2 : Z) : primitive Z :=
  x <- arg_unsigned_fixnum 1 a1 ;; y <- arg_unsigned_fixnum 2 a2 ;; LOGICAL_RESULT (operation x y).

Definition Prim_fixnum_andc := BINARY_LOGICAL_OP (fun x y => Z.land x (to_ulong (Z.lnot y))).
Definition Prim_fixnum_and := BINARY_LOGICAL_OP Z.land.
Definition Prim_fixnum_or := BINARY_LOGICAL_OP Z.lor.
Definition Prim_fixnum_xor := BINARY_LOGICAL_OP Z.lxor.
Definition Prim_fixnum_not (a1 : Z) : primitive Z :=
  x <- arg_unsigned_fixnum 1 a1 ;; LOGICAL_RESULT (to_ulong (Z.lnot x)).

Definition Prim_fixnum_lsh (a1 a2 : Z) : primitive Z :=
  x <- arg_fixnum 1 a1 ;; y <- arg_fixnum 2 a2 ;; LOGICAL_RESULT (to_ulong (FIXNUM_LSH x y)).

Definition Prim_fxbit_count (a1 : Z) : primitive Z :=
  x <- arg_fixnum 1 a1 ;; FIXNUM_RESULT (ulong_bit_count (to_ulong x)).
Definition Prim_fxlength (a1 : Z) : primitive Z :=
  n <- arg_fixnum 1 a1 ;;
  FIXNUM_RESULT (ulong_length_in_bits (to_ulong (if n <? 0 then Z.lnot n else n))).
Definition fxfirst_set_bit (a1 : Z) : primitive Z :=
  x <- arg_fixnum 1 a1 ;; FIXNUM_RESULT (ulong_first_set_bit (to_ulong x)).

(** ** Arguments and results *)

Notation fixnum := LONG_TO_FIXNUM.

Definition fixnum_range_b (z : Z) : bool := (SMALLEST_FIXNUM <=? z) && (z <=? BIGGEST_FIXNUM).

(** A result that must be a fixnum. *)
Definition checked (z : Z) : primitive Z :=
  if fixnum_range_b z then PRIMITIVE_RETURN (fixnum z) else error_bad_range_arg 1.

Lemma fixnum_range_b_iff z : fixnum_range_b z = true <-> fixnum_range z.
Proof. unfold fixnum_range_b, fixnum_range. lia. Qed.

Lemma arg_fixnum_ok n x : fixnum_range x -> arg_fixnum n (fixnum x) = PRIMITIVE_RETURN x.
Proof. intros H. unfold arg_fixnum. now rewrite FIXNUM_P_LONG_TO_FIXNUM, FIXNUM_TO_LONG_TO_FIXNUM. Qed.

Lemma fixnum_datum x : OBJECT_DATUM (fixnum x) = x mod 2 ^ 58.
Proof.
  rewrite OBJECT_DATUM_mod, LONG_TO_FIXNUM_sum, Z.mul_comm, Z.mod_add by lia. apply Z.mod_mod. lia.
Qed.

Lemma arg_unsigned_fixnum_ok n x : arg_unsigned_fixnum n (fixnum x) = PRIMITIVE_RETURN (x mod 2 ^ 58).
Proof. unfold arg_unsigned_fixnum. now rewrite FIXNUM_P_LONG_TO_FIXNUM, fixnum_datum. Qed.

Lemma FIXNUM_RESULT_ok z : long_p z -> FIXNUM_RESULT z = checked z.
Proof.
  intros Hz. unfold FIXNUM_RESULT, checked.
  pose proof (LONG_TO_FIXNUM_P_spec z Hz). pose proof (fixnum_range_b_iff z).
  destruct (LONG_TO_FIXNUM_P z), (fixnum_range_b z); cbn [negb]; intuition congruence.
Qed.

Lemma checked_ok z : fixnum_range z -> checked z = PRIMITIVE_RETURN (fixnum z).
Proof. intros H%fixnum_range_b_iff. unfold checked. now rewrite H. Qed.

(** Words that agree modulo [2^58] make the same fixnum. *)
Lemma fixnum_congruent u z : u mod 2 ^ 58 = z mod 2 ^ 58 ->
  LOGICAL_RESULT u = PRIMITIVE_RETURN (fixnum z).
Proof.
  intros E. unfold LOGICAL_RESULT. f_equal. rewrite (land_mask 58) by (reflexivity || lia). rewrite E.
  rewrite LONG_TO_FIXNUM_sum. apply MAKE_OBJECT_sum; [unfold TC_FIXNUM; lia|apply Z.mod_pos_bound; lia].
Qed.

Lemma ulong_mod_58 z : to_ulong z mod 2 ^ 58 = z mod 2 ^ 58.
Proof. unfold to_ulong. apply Z.mod_mod_divide. exists (2 ^ 6). reflexivity. Qed.

(** ** Multiplication *)

Lemma half_words n : 0 <= n < 2 ^ 58 ->
  Z.land n HALF_WORD_MASK = n mod 2 ^ 32 /\
  Z.land (Z.shiftr n HALF_WORD_SIZE) HALF_WORD_MASK = n / 2 ^ 32 /\ n / 2 ^ 32 < 2 ^ 26.
Proof.
  intros Hn. change HALF_WORD_SIZE with 32. rewrite !(land_mask 32), Z.shiftr_div_pow2 by (reflexivity || lia).
  assert (n / 2 ^ 32 < 2 ^ 26) by (apply Z.div_lt_upper_bound; lia).
  repeat split; auto. apply Z.mod_small. split; [apply Z.div_pos; lia|lia].
Qed.

Lemma ABS_abs x : ABS x = Z.abs x.
Proof. unfold ABS. destruct (Z.ltb_spec x 0); lia. Qed.

(** The overflow tests on the parts of the product. *)
Lemma product_parts a b : 0 <= a <= 2 ^ 57 -> 0 <= b <= 2 ^ 57 ->
  let ah := a / 2 ^ 32 in let al := a mod 2 ^ 32 in
  let bh := b / 2 ^ 32 in let bl := b mod 2 ^ 32 in
  a * b = al * bl + (al * bh + ah * bl) * 2 ^ 32 + ah * bh * 2 ^ 64 /\
  0 <= al * bl < 2 ^ 64 /\ 0 <= al * bh < 2 ^ 58 /\ 0 <= ah * bl < 2 ^ 58 /\ 0 <= ah /\ 0 <= bh.
Proof.
  intros Ha Hb. cbv zeta.
  pose proof (Z.div_mod a (2 ^ 32) ltac:(lia)) as Ea. pose proof (Z.mod_pos_bound a (2 ^ 32) ltac:(lia)).
  pose proof (Z.div_mod b (2 ^ 32) ltac:(lia)) as Eb. pose proof (Z.mod_pos_bound b (2 ^ 32) ltac:(lia)).
  assert (0 <= a / 2 ^ 32 < 2 ^ 26) by (split; [apply Z.div_pos|apply Z.div_lt_upper_bound]; lia).
  assert (0 <= b / 2 ^ 32 < 2 ^ 26) by (split; [apply Z.div_pos|apply Z.div_lt_upper_bound]; lia).
  set (ah := a / 2 ^ 32) in *. set (al := a mod 2 ^ 32) in *. set (bh := b / 2 ^ 32) in *. set (bl := b mod 2 ^ 32) in *.
  clearbody ah al bh bl. subst a b. repeat split; try lia; nia.
Qed.

Lemma fixnum_mod z z' : z mod 2 ^ 58 = z' mod 2 ^ 58 -> fixnum z = fixnum z'.
Proof. intros E. now rewrite !LONG_TO_FIXNUM_sum, E. Qed.

Lemma LONG_TO_UNSIGNED_FIXNUM_ok z : 0 <= z < 2 ^ 58 -> LONG_TO_UNSIGNED_FIXNUM z = fixnum z.
Proof.
  intros Hz. unfold LONG_TO_UNSIGNED_FIXNUM. rewrite to_ulong_small by lia.
  rewrite MAKE_OBJECT_sum, LONG_TO_FIXNUM_sum, Z.mod_small by (unfold TC_FIXNUM; lia). reflexivity.
Qed.

(** [Mul] returns the product when its magnitude is a fixnum, and [SHARP_F]
    otherwise: also for the product [SMALLEST_FIXNUM]. *)
Lemma Mul_ok x y : fixnum_range x -> fixnum_range y ->
  Mul (fixnum x) (fixnum y) = if Z.abs (x * y) <=? BIGGEST_FIXNUM then fixnum (x * y) else SHARP_F.
Proof.
  intros Hx Hy. unfold Mul. rewrite !FIXNUM_TO_LONG_TO_FIXNUM, !ABS_abs by assumption.
  unfold fixnum_range, SMALLEST_FIXNUM, BIGGEST_FIXNUM in *. rewrite Z.abs_mul.
  assert (Ha : 0 <= Z.abs x <= 2 ^ 57) by lia. assert (Hb : 0 <= Z.abs y <= 2 ^ 57) by lia.
  destruct (half_words (Z.abs x) ltac:(lia)) as (-> & -> & _).
  destruct (half_words (Z.abs y) ltac:(lia)) as (-> & -> & _).
  destruct (product_parts _ _ Ha Hb) as (E & P1 & P2 & P3 & P4 & P5). cbv zeta in *. rewrite E.
  set (ah := Z.abs x / 2 ^ 32) in *. set (al := Z.abs x mod 2 ^ 32) in *.
  set (bh := Z.abs y / 2 ^ 32) in *. set (bl := Z.abs y mod 2 ^ 32) in *.
  rewrite <- E. set (p := Z.abs x * Z.abs y) in *.
  assert (R : 2 ^ 57 <= p -> SHARP_F = if p <=? 144115188075855871 then fixnum (x * y) else SHARP_F)
    by (intros; destruct (Z.leb_spec p 144115188075855871); [lia|reflexivity]).
  rewrite !Z.gtb_ltb, !Z.geb_leb. change FIXNUM_SIGN_BIT with (2 ^ 57). change MAX_MIDDLE with (2 ^ 25).
  assert (Hhh : 0 < ah -> 0 < bh -> 1 <= ah * bh) by nia.
  assert (Z0 : 0 <= ah * bh /\ (ah <= 0 \/ bh <= 0 -> ah * bh = 0 /\ al * bh + ah * bl < 2 ^ 58)) by nia.
  rewrite (to_ulong_small (al * bl)), (to_ulong_small (al * bh + ah * bl)) by lia.
  destruct ((0 <? ah) && (0 <? bh)) eqn:C1; [apply R; lia|].
  destruct (Z.leb_spec (2 ^ 57) (al * bl)); [apply R; lia|].
  destruct (Z.leb_spec (2 ^ 25) (al * bh + ah * bl)); [apply R; lia|].
  rewrite Z.shiftl_mul_pow2 by (cbv; discriminate). change (2 ^ HALF_WORD_SIZE) with (2 ^ 32).
  rewrite (to_ulong_small ((al * bh + ah * bl) * 2 ^ 32)), to_long_small by lia.
  replace (al * bl + (al * bh + ah * bl) * 2 ^ 32) with p by lia. assert (Hp : 0 <= p < 2 ^ 58) by lia.
  assert (Hxy : x * y = if Bool.eqb (x <? 0) (y <? 0) then p else - p).
  { subst p. rewrite <- Z.abs_mul. destruct (Z.ltb_spec x 0), (Z.ltb_spec y 0); cbn [Bool.eqb]; nia. }
  clearbody p ah al bh bl. clear - R Hp Hxy.
  pose proof (LONG_TO_FIXNUM_P_spec p ltac:(unfold long_p; lia)) as F.
  unfold fixnum_range, SMALLEST_FIXNUM, BIGGEST_FIXNUM in F.
  destruct (LONG_TO_FIXNUM_P p); [|apply R; lia].
  destruct (Z.leb_spec p 144115188075855871); [|lia]. rewrite Hxy.
  destruct (Bool.eqb (x <? 0) (y <? 0)); cbn [orb]; [apply LONG_TO_UNSIGNED_FIXNUM_ok; lia|].
  destruct (Z.eqb_spec p 0) as [->|]; [reflexivity|]. change MAX_FIXNUM with (2 ^ 58).
  rewrite LONG_TO_UNSIGNED_FIXNUM_ok by lia. apply fixnum_mod.
  replace (2 ^ 58 - p) with (- p + 1 * 2 ^ 58) by lia. apply Z.mod_add. lia.
Qed.

(** ** Greatest common divisors *)

Lemma gcd_loop_ok k : forall fuel x y, 0 <= x -> 0 <= y < 2 ^ Z.of_nat k -> (2 * k <= fuel)%nat ->
  gcd_loop fuel x y = Return (Z.gcd x y).
Proof.
  assert (B : forall fuel x, 0 <= x -> gcd_loop fuel x 0 = Return (Z.gcd x 0)).
  { intros fuel x Hx. rewrite Z.gcd_0_r_nonneg by assumption. now destruct fuel. }
  induction k as [|k IH]; intros fuel x y Hx Hy Hf.
  - change (2 ^ Z.of_nat 0) with 1 in Hy. assert (y = 0) as -> by lia. now apply B.
  - destruct (Z.eq_dec y 0) as [->|Hy0]; [now apply B|].
    destruct fuel as [|[|fuel]]; [lia..|]. cbn [gcd_loop].
    destruct (Z.eqb_spec y 0); [contradiction|]. cbn [negb]. rewrite (Z.rem_mod_nonneg x y) by lia.
    pose proof (Z.mod_pos_bound x y ltac:(lia)) as Hr. rewrite (Z.gcd_comm x y), <- (Z.gcd_mod x y) by lia.
    destruct (Z.eqb_spec (x mod y) 0) as [E|E]; cbn [negb].
    + rewrite E. rewrite Z.gcd_0_l_nonneg by lia. reflexivity.
    + rewrite Z.rem_mod_nonneg by lia. rewrite <- (Z.gcd_mod y) by lia. rewrite Z.gcd_comm.
      pose proof (Z.mod_pos_bound y (x mod y) ltac:(lia)) as Hr'.
      rewrite Nat2Z.inj_succ, Z.pow_succ_r in Hy by lia.
      apply IH; [lia| |lia]. pose proof (Z.mod_eq y (x mod y) ltac:(lia)) as Em.
      assert (1 <= y / (x mod y)) by (apply Z.div_le_lower_bound; lia). nia.
Qed.

(** ** The primitives on two fixnums *)

(** The primitive, and what it returns on fixnums [x] and [y]. *)
Inductive fixnum_operation : (Z -> Z -> primitive Z) -> (Z -> Z -> primitive Z) -> Prop :=
| op_equal : fixnum_operation Prim_equal_fixnum (fun x y => BOOLEAN_RESULT (x =? y))
| op_less : fixnum_operation Prim_less_fixnum (fun x y => BOOLEAN_RESULT (x <? y))
| op_greater : fixnum_operation Prim_greater_fixnum (fun x y => BOOLEAN_RESULT (y <? x))
| op_plus : fixnum_operation Prim_plus_fixnum (fun x y => checked (x + y))
| op_minus : fixnum_operation Prim_minus_fixnum (fun x y => checked (x - y))
| op_multiply : fixnum_operation Prim_multiply_fixnum
    (fun x y => if x * y =? SMALLEST_FIXNUM then error_bad_range_arg 1 else checked (x * y))
| op_quotient : fixnum_operation Prim_fixnum_quotient
    (fun x y => if y =? 0 then error_bad_range_arg 2 else checked (Z.quot x y))
| op_remainder : fixnum_operation Prim_fixnum_remainder
    (fun x y => if y =? 0 then error_bad_range_arg 2 else checked (Z.rem x y))
| op_gcd : fixnum_operation Prim_gcd_fixnum (fun x y => PRIMITIVE_RETURN (fixnum (Z.gcd x y)))
| op_andc : fixnum_operation Prim_fixnum_andc (fun x y => PRIMITIVE_RETURN (fixnum (Z.land x (Z.lnot y))))
| op_and : fixnum_operation Prim_fixnum_and (fun x y => PRIMITIVE_RETURN (fixnum (Z.land x y)))
| op_or : fixnum_operation Prim_fixnum_or (fun x y => PRIMITIVE_RETURN (fixnum (Z.lor x y)))
| op_xor : fixnum_operation Prim_fixnum_xor (fun x y => PRIMITIVE_RETURN (fixnum (Z.lxor x y)))
| op_lsh : fixnum_operation Prim_fixnum_lsh
    (fun x y => PRIMITIVE_RETURN (fixnum (if y <? - MAX_BIT_SHIFT then 0 else Z.shiftl x y))).

Lemma FIXNUM_QUOTIENT_ok x y : y <> 0 -> FIXNUM_QUOTIENT x y = Z.quot x y.
Proof.
  intros Hy. unfold FIXNUM_QUOTIENT. rewrite Z.gtb_ltb, Z.geb_leb.
  destruct (Z.ltb_spec 0 y), (Z.leb_spec 0 x);
    rewrite ?Z.quot_opp_l, ?Z.quot_opp_r by lia; rewrite ?Z.quot_opp_r by lia; lia.
Qed.

Lemma FIXNUM_REMAINDER_ok x y : y <> 0 -> FIXNUM_REMAINDER x y = Z.rem x y.
Proof.
  intros Hy. unfold FIXNUM_REMAINDER. rewrite Z.gtb_ltb, Z.geb_leb.
  destruct (Z.ltb_spec 0 y), (Z.leb_spec 0 x);
    rewrite ?Z.rem_opp_l, ?Z.rem_opp_r by lia; rewrite ?Z.rem_opp_r by lia; lia.
Qed.

(** Bit operations on data, that is modulo [2^58]. *)
Lemma datum_op (op : Z -> Z -> Z) (bop : bool -> bool -> bool) x y :
  (forall a b n, 0 <= n -> Z.testbit (op a b) n = bop (Z.testbit a n) (Z.testbit b n)) ->
  LOGICAL_RESULT (op (x mod 2 ^ 58) (y mod 2 ^ 58)) = PRIMITIVE_RETURN (fixnum (op x y)).
Proof.
  intros Hop. apply fixnum_congruent. apply Z.bits_inj'. intros n Hn.
  destruct (Z_lt_le_dec n 58).
  - now rewrite !Z.mod_pow2_bits_low, !Hop, !Z.mod_pow2_bits_low by assumption.
  - now rewrite !Z.mod_pow2_bits_high by lia.
Qed.

Lemma FIXNUM_LSH_ok x y : fixnum_range x -> fixnum_range y ->
  FIXNUM_LSH x y mod 2 ^ 58 = (if y <? - MAX_BIT_SHIFT then 0 else Z.shiftl x y) mod 2 ^ 58.
Proof.
  unfold fixnum_range, SMALLEST_FIXNUM, BIGGEST_FIXNUM. intros Hx Hy.
  unfold FIXNUM_LSH, LEFT_SHIFT, RIGHT_SHIFT. change (- MAX_BIT_SHIFT) with (-58). change MAX_BIT_SHIFT with 58. rewrite Z.geb_leb, !Z.gtb_ltb.
  destruct (Z.leb_spec 0 y).
  - destruct (Z.ltb_spec y (-58)); [lia|]. destruct (Z.ltb_spec 58 y).
    + rewrite Z.shiftl_mul_pow2 by lia. assert (E : x * 2 ^ y = x * 2 ^ (y - 58) * 2 ^ 58)
        by (rewrite <- Z.mul_assoc, <- Z.pow_add_r by lia; do 2 f_equal; lia).
      rewrite E, Z.mod_mul by lia. reflexivity.
    + rewrite <- ulong_mod_58, to_ulong_to_long. apply ulong_mod_58.
  - destruct (Z.ltb_spec 58 (- y)), (Z.ltb_spec y (-58)); try lia.
    destruct (Z.ltb_spec x 0).
    + rewrite <- ulong_mod_58, to_ulong_to_long, ulong_mod_58, ulong_mod_58. f_equal.
      assert (E1 : to_ulong x = x + 2 ^ 64) by (symmetry; apply Z.mod_unique with (-1); lia). rewrite E1.
      assert (E2 : to_ulong (Z.lnot (x + 2 ^ 64)) = Z.lnot x)
        by (symmetry; apply Z.mod_unique with (-1); unfold Z.lnot; lia). rewrite E2.
      apply Z.bits_inj'. intros n Hn. rewrite Z.lnot_spec, !Z.shiftr_spec, Z.lnot_spec, Z.shiftl_spec by lia.
      rewrite negb_involutive. f_equal.
    + now rewrite Z.shiftr_opp_r.
Qed.

Lemma checked_quot x y : fixnum_range x -> y <> 0 -> long_p (Z.quot x y) /\ fixnum_range (Z.rem x y).
Proof.
  unfold fixnum_range, SMALLEST_FIXNUM, BIGGEST_FIXNUM, long_p. intros Hx Hy.
  assert (Z.abs (Z.quot x y) <= Z.abs x).
  { rewrite <- Z.quot_abs by assumption. apply Z.quot_le_upper_bound; [lia|]. nia. }
  assert (Z.abs (Z.rem x y) <= Z.abs x).
  { rewrite <- Z.rem_abs by assumption. rewrite Z.rem_mod_nonneg by lia. apply Z.mod_le; lia. }
  destruct (Z.eq_dec (Z.rem x y) 0) as [E|E]; [lia|].
  assert (Z.sgn (Z.rem x y) = Z.sgn x) by (apply Z.rem_sign_nz; assumption). lia.
Qed.

Lemma fixnum_operation_ok prim spec x y :
  fixnum_operation prim spec -> fixnum_range x -> fixnum_range y ->
  prim (fixnum x) (fixnum y) = spec x y.
Proof.
  intros Hop Hx Hy. destruct Hop;
    repeat (unfold Prim_equal_fixnum, Prim_less_fixnum, Prim_greater_fixnum, Prim_plus_fixnum, Prim_minus_fixnum,
      Prim_fixnum_quotient, Prim_fixnum_remainder, Prim_gcd_fixnum, Prim_fixnum_lsh, Prim_fixnum_andc, Prim_fixnum_and,
      Prim_fixnum_or, Prim_fixnum_xor, BINARY_LOGICAL_OP);
    rewrite ?arg_unsigned_fixnum_ok, ?arg_fixnum_ok by assumption; cbn [pbind]; try reflexivity.
  - now rewrite Z.gtb_ltb.
  - apply FIXNUM_RESULT_ok. unfold fixnum_range, SMALLEST_FIXNUM, BIGGEST_FIXNUM, long_p in *. lia.
  - apply FIXNUM_RESULT_ok. unfold fixnum_range, SMALLEST_FIXNUM, BIGGEST_FIXNUM, long_p in *. lia.
  - unfold Prim_multiply_fixnum, CHECK_ARG. rewrite !FIXNUM_P_LONG_TO_FIXNUM. cbn [require pbind].
    rewrite Mul_ok by assumption. unfold checked, fixnum_range_b.
    assert (Hne : fixnum (x * y) <> SHARP_F).
    { intros E. apply (f_equal OBJECT_TYPE) in E. now rewrite LONG_TO_FIXNUM_type in E. }
    unfold SMALLEST_FIXNUM, BIGGEST_FIXNUM.
    destruct (Z.leb_spec (Z.abs (x * y)) 144115188075855871).
    + destruct (Z.eqb_spec (fixnum (x * y)) SHARP_F); [contradiction|].
      destruct (Z.eqb_spec (x * y) (-144115188075855872)); [lia|]. now replace (_ && _) with true by lia.
    + rewrite Z.eqb_refl. destruct (Z.eqb_spec (x * y) (-144115188075855872)); [reflexivity|].
      now replace (_ && _) with false by lia.
  - destruct (Z.eqb_spec y 0); [reflexivity|]. rewrite FIXNUM_QUOTIENT_ok by assumption.
    apply FIXNUM_RESULT_ok. now apply checked_quot.
  - destruct (Z.eqb_spec y 0); [reflexivity|]. rewrite FIXNUM_REMAINDER_ok by assumption.
    apply FIXNUM_RESULT_ok. destruct (checked_quot x y Hx n) as [_ R]. unfold fixnum_range, long_p in *.
    unfold SMALLEST_FIXNUM, BIGGEST_FIXNUM in R. lia.
  - unfold fixnum_range, SMALLEST_FIXNUM, BIGGEST_FIXNUM in *.
    replace (if x <? 0 then - x else x) with (Z.abs x) by (destruct (Z.ltb_spec x 0); lia).
    replace (if y <? 0 then - y else y) with (Z.abs y) by (destruct (Z.ltb_spec y 0); lia).
    rewrite (gcd_loop_ok 58) by (cbn; lia). cbn [call pbind]. now rewrite Z.gcd_abs_l, Z.gcd_abs_r.
  - apply fixnum_congruent. apply Z.bits_inj'. intros n Hn. destruct (Z_lt_le_dec n 58).
    + rewrite !Z.mod_pow2_bits_low, !Z.land_spec, Z.mod_pow2_bits_low, Z.lnot_spec by assumption. f_equal.
      unfold to_ulong. rewrite Z.mod_pow2_bits_low, Z.lnot_spec, Z.mod_pow2_bits_low by lia. reflexivity.
    + now rewrite !Z.mod_pow2_bits_high by lia.
  - apply (datum_op Z.land andb). intros. apply Z.land_spec.
  - apply (datum_op Z.lor orb). intros. apply Z.lor_spec.
  - apply (datum_op Z.lxor xorb). intros. apply Z.lxor_spec.
  - apply fixnum_congruent. rewrite ulong_mod_58. now apply FIXNUM_LSH_ok.
Qed.

(** ** The primitives on one fixnum *)

Definition int_bit_length (z : Z) : Z := bit_length (if z <? 0 then Z.lnot z else z).

Inductive fixnum_function : (Z -> primitive Z) -> (Z -> primitive Z) -> Prop :=
| fn_zero : fixnum_function Prim_zero_fixnum (fun x => BOOLEAN_RESULT (x =? 0))
| fn_negative : fixnum_function Prim_negative_fixnum (fun x => BOOLEAN_RESULT (x <? 0))
| fn_positive : fixnum_function Prim_positive_fixnum (fun x => BOOLEAN_RESULT (0 <? x))
| fn_one_plus : fixnum_function Prim_one_plus_fixnum (fun x => checked (x + 1))
| fn_minus_one_plus : fixnum_function Prim_m_1_plus_fixnum (fun x => checked (x - 1))
| fn_negate : fixnum_function Prim_fixnum_negate (fun x => checked (- x))
| fn_not : fixnum_function Prim_fixnum_not (fun x => PRIMITIVE_RETURN (fixnum (Z.lnot x)))
| fn_bit_count : fixnum_function Prim_fxbit_count
    (fun x => PRIMITIVE_RETURN (fixnum (popcount (x mod 2 ^ 64))))
| fn_length : fixnum_function Prim_fxlength (fun x => PRIMITIVE_RETURN (fixnum (int_bit_length x)))
| fn_first_set_bit : fixnum_function fxfirst_set_bit
    (fun x => PRIMITIVE_RETURN (fixnum (if x =? 0 then -1 else trailing_zeros x))).

Lemma small_checked z : -1 <= z <= 64 -> FIXNUM_RESULT z = PRIMITIVE_RETURN (fixnum z).
Proof.
  intros Hz. rewrite FIXNUM_RESULT_ok by (unfold long_p; lia). apply checked_ok.
  unfold fixnum_range, SMALLEST_FIXNUM, BIGGEST_FIXNUM. lia.
Qed.

(** The trailing zeros of a negative number are those of its word. *)
Lemma trailing_zeros_word x : - 2 ^ 63 <= x < 0 -> trailing_zeros (x + 2 ^ 64) = trailing_zeros x.
Proof.
  intros Hx. destruct (trailing_zeros_spec x ltac:(lia)) as (k & E & Ht).
  set (t := trailing_zeros x) in *. clearbody t. pose proof (Z.pow_pos_nonneg 2 t ltac:(lia) Ht).
  assert (K : 2 * k + 1 < 0) by nia.
  assert (T : t <= 63).
  { apply Z.le_ngt. intros H'. pose proof (Z.pow_le_mono_r 2 64 t ltac:(lia) ltac:(lia)). nia. }
  apply trailing_zeros_unique with (k + 2 ^ (63 - t)); [assumption|].
  rewrite E at 1. replace (2 ^ 64) with (2 ^ t * (2 * 2 ^ (63 - t))); [ring|].
  rewrite <- Z.pow_succ_r, <- Z.pow_add_r by lia. f_equal. lia.
Qed.

Lemma first_set_bit_long x : long_p x ->
  ulong_first_set_bit (to_ulong x) = (if x =? 0 then -1 else trailing_zeros x)
  /\ -1 <= (if x =? 0 then -1 else trailing_zeros x) <= 64.
Proof.
  unfold long_p. intros Hx. rewrite ulong_first_set_bit_spec by apply to_ulong_range.
  assert (E : trailing_zeros (to_ulong x) = if x =? 0 then -1 else trailing_zeros x).
  { destruct (Z.eqb_spec x 0) as [->|]; [reflexivity|]. destruct (Z_lt_le_dec x 0).
    - rewrite <- (trailing_zeros_word x) by lia. f_equal. symmetry. apply Z.mod_unique with (-1); lia.
    - now rewrite to_ulong_small by lia. }
  rewrite <- E. split; [reflexivity|].
  destruct (Z.eq_dec (to_ulong x) 0) as [->|]; [cbn; lia|].
  pose proof (to_ulong_range x) as R. unfold ulong_p in R.
  pose proof (trailing_zeros_lt (to_ulong x) 64 ltac:(lia) ltac:(lia)).
  destruct (first_set_word (to_ulong x)) as [_ T]; lia.
Qed.

Lemma fixnum_function_ok prim spec x :
  fixnum_function prim spec -> fixnum_range x -> prim (fixnum x) = spec x.
Proof.
  intros Hfn Hx. destruct Hfn;
    unfold Prim_zero_fixnum, Prim_negative_fixnum, Prim_positive_fixnum, Prim_one_plus_fixnum, Prim_m_1_plus_fixnum,
      Prim_fixnum_negate, Prim_fixnum_not, Prim_fxbit_count, Prim_fxlength, fxfirst_set_bit;
    rewrite ?arg_unsigned_fixnum_ok, ?arg_fixnum_ok by assumption; cbn [pbind];
    pose proof Hx as Hx'; unfold fixnum_range, SMALLEST_FIXNUM, BIGGEST_FIXNUM in Hx'.
  - reflexivity.
  - reflexivity.
  - now rewrite Z.gtb_ltb.
  - apply FIXNUM_RESULT_ok. unfold long_p. lia.
  - apply FIXNUM_RESULT_ok. unfold long_p. lia.
  - apply FIXNUM_RESULT_ok. unfold long_p. lia.
  - apply fixnum_congruent. rewrite ulong_mod_58. apply Z.bits_inj'. intros n Hn. destruct (Z_lt_le_dec n 58).
    + now rewrite !Z.mod_pow2_bits_low, !Z.lnot_spec, Z.mod_pow2_bits_low by assumption.
    + now rewrite !Z.mod_pow2_bits_high by lia.
  - rewrite ulong_bit_count_spec by apply to_ulong_range. fold (to_ulong x).
    pose proof (popcount_nonneg (to_ulong x)). pose proof (popcount_le (to_ulong x) 64 ltac:(lia) (to_ulong_range x)).
    apply small_checked. lia.
  - set (m := if x <? 0 then Z.lnot x else x).
    assert (Hm : 0 <= m < 2 ^ 57) by (subst m; destruct (Z.ltb_spec x 0); unfold Z.lnot; lia).
    rewrite to_ulong_small, ulong_length_in_bits_spec by (unfold ulong_p; lia). fold m.
    pose proof (bit_length_nonneg m). pose proof (bit_length_le m 57 ltac:(lia) Hm).
    change (int_bit_length x) with (bit_length m). clearbody m. apply small_checked. lia.
  - destruct (first_set_bit_long x) as [-> B]; [unfold long_p; lia|]. now apply small_checked.
Qed.

(** [DIVIDE-FIXNUM] conses quotient and remainder. *)
Lemma Prim_divide_fixnum_ok x y : fixnum_range x -> fixnum_range y ->
  Prim_divide_fixnum (fixnum x) (fixnum y) =
    if y =? 0 then error_bad_range_arg 2
    else if fixnum_range_b (Z.quot x y) then PRIMITIVE_RETURN (fixnum (Z.quot x y), fixnum (Z.rem x y))
    else error_bad_range_arg 1.
Proof.
  intros Hx Hy. unfold Prim_divide_fixnum. rewrite !arg_fixnum_ok by assumption. cbn [pbind].
  destruct (Z.eqb_spec y 0) as [|Hn]; [reflexivity|]. destruct (checked_quot x y Hx Hn) as [Q R].
  pose proof (LONG_TO_FIXNUM_P_spec _ Q). pose proof (fixnum_range_b_iff (Z.quot x y)).
  assert (E : forall q r, q = Z.quot x y -> r = Z.rem x y ->
    (if negb (LONG_TO_FIXNUM_P q) then error_bad_range_arg 1 else PRIMITIVE_RETURN (fixnum q, fixnum r)) =
    if fixnum_range_b (Z.quot x y) then PRIMITIVE_RETURN (fixnum (Z.quot x y), fixnum (Z.rem x y))
    else error_bad_range_arg 1).
  { intros q r -> ->. destruct (LONG_TO_FIXNUM_P _), (fixnum_range_b _); cbn [negb]; intuition congruence. }
  destruct (Z.ltb_spec x 0), (Z.ltb_spec y 0); apply E;
    rewrite ?Z.quot_opp_opp, ?Z.rem_opp_opp by assumption;
    rewrite ?Z.quot_opp_l, ?Z.rem_opp_l by assumption; rewrite ?Z.quot_opp_r, ?Z.rem_opp_r by assumption; lia.
Qed.

(** ** Arguments that are not fixnums *)

Lemma arg_fixnum_error n w : FIXNUM_P w = false ->
  arg_fixnum n w = error_wrong_type_arg n /\ arg_unsigned_fixnum n w = error_wrong_type_arg n.
Proof. intros H. unfold arg_fixnum, arg_unsigned_fixnum. now rewrite H. Qed.

Lemma fixnum_operation_error prim spec a1 a2 : fixnum_operation prim spec -> object_p a1 ->
  FIXNUM_P a1 && FIXNUM_P a2 = false ->
  prim a1 a2 = error_wrong_type_arg (if FIXNUM_P a1 then 2 else 1).
Proof.
  intros Hop H1 Hf.
  destruct (FIXNUM_P a1) eqn:F1; cbn [andb] in Hf.
  - destruct Hop; cbv beta delta [Prim_equal_fixnum Prim_less_fixnum Prim_greater_fixnum Prim_plus_fixnum Prim_minus_fixnum
      Prim_multiply_fixnum Prim_fixnum_quotient Prim_fixnum_remainder Prim_gcd_fixnum Prim_fixnum_lsh Prim_fixnum_andc
      Prim_fixnum_and Prim_fixnum_or Prim_fixnum_xor BINARY_LOGICAL_OP arg_fixnum arg_unsigned_fixnum CHECK_ARG require];
      rewrite F1, Hf; reflexivity.
  - destruct Hop; cbv beta delta [Prim_equal_fixnum Prim_less_fixnum Prim_greater_fixnum Prim_plus_fixnum Prim_minus_fixnum
      Prim_multiply_fixnum Prim_fixnum_quotient Prim_fixnum_remainder Prim_gcd_fixnum Prim_fixnum_lsh Prim_fixnum_andc
      Prim_fixnum_and Prim_fixnum_or Prim_fixnum_xor BINARY_LOGICAL_OP arg_fixnum arg_unsigned_fixnum CHECK_ARG require];
      rewrite F1; reflexivity.
Qed.

(** The only quotient of fixnums that is not one. *)
Lemma quotient_in_range x y : fixnum_range x -> fixnum_range y -> y <> 0 ->
  fixnum_range_b (Z.quot x y) = negb ((x =? SMALLEST_FIXNUM) && (y =? -1)).
Proof.
  intros Hx Hy Y0. apply eq_true_iff_eq. rewrite fixnum_range_b_iff.
  unfold fixnum_range, SMALLEST_FIXNUM, BIGGEST_FIXNUM in *.
  assert (A : Z.abs (Z.quot x y) <= Z.abs x /\ (1 < Z.abs y -> 2 * Z.abs (Z.quot x y) <= Z.abs x)).
  { rewrite <- Z.quot_abs, Z.quot_div_nonneg by lia. pose proof (Z.div_mod (Z.abs x) (Z.abs y) ltac:(lia)).
    pose proof (Z.mod_pos_bound (Z.abs x) (Z.abs y) ltac:(lia)). pose proof (Z.div_pos (Z.abs x) (Z.abs y)). nia. }
  destruct (Z.eq_dec y 1) as [->|]; [rewrite Z.quot_1_r; destruct (Z.eqb_spec x (-144115188075855872)); cbn; lia|].
  destruct (Z.eqb_spec y (-1)) as [->|].
  - change (-1) with (- (1)). rewrite Z.quot_opp_r, Z.quot_1_r by lia. destruct (Z.eqb_spec x (-144115188075855872)); cbn; lia.
  - rewrite andb_false_r. cbn. lia.
Qed.

(** ** Properties *)

(** The two-argument fixnum primitives compute their operation, checking the range of the result and the
    zero divisor, and the gcd loop terminates; multiplication rejects the product SMALLEST-FIXNUM, and a
    right shift by more than 58 gives 0. *)
Theorem fixnum_operations_correct prim spec x y : fixnum_operation prim spec -> fixnum_range x -> fixnum_range y ->
  prim (LONG_TO_FIXNUM x) (LONG_TO_FIXNUM y) = spec x y /\
  (forall w, object_p w -> FIXNUM_P w = false ->
     prim w (LONG_TO_FIXNUM y) = error_wrong_type_arg 1 /\ prim (LONG_TO_FIXNUM x) w = error_wrong_type_arg 2).
Proof.
  intros Hop Hx Hy. split; [now apply fixnum_operation_ok|]. intros w Hw Fw. split.
  - rewrite (fixnum_operation_error prim spec w _ Hop Hw); rewrite Fw; reflexivity.
  - rewrite (fixnum_operation_error prim spec _ w Hop (LONG_TO_FIXNUM_object x)); rewrite FIXNUM_P_LONG_TO_FIXNUM, ?Fw; reflexivity.
Qed.

(** The one-argument fixnum primitives (tests, successor, predecessor, negation, not, bit count, length,
    first set bit) compute their function. *)
Theorem fixnum_functions_correct prim spec x : fixnum_function prim spec -> fixnum_range x ->
  prim (LONG_TO_FIXNUM x) = spec x.
Proof. exact (fixnum_function_ok prim spec x). Qed.

(** DIVIDE-FIXNUM returns quotient and remainder, rejects a zero divisor, and rejects the one quotient
    that is no fixnum, SMALLEST-FIXNUM divided by -1. *)
Theorem divide_fixnum_correct x y : fixnum_range x -> fixnum_range y ->
  Prim_divide_fixnum (LONG_TO_FIXNUM x) (LONG_TO_FIXNUM y)
  = if y =? 0 then error_bad_range_arg 2
    else if (x =? SMALLEST_FIXNUM) && (y =? -1) then error_bad_range_arg 1
    else PRIMITIVE_RETURN (LONG_TO_FIXNUM (Z.quot x y), LONG_TO_FIXNUM (Z.rem x y)).
Proof.
  intros Hx Hy. rewrite Prim_divide_fixnum_ok by assumption. destruct (Z.eqb_spec y 0) as [|Y0]; [reflexivity|].
  rewrite (quotient_in_range x y Hx Hy Y0). now destruct ((x =? SMALLEST_FIXNUM) && (y =? -1)).
Qed.

(** C40: Mul multiplies on half words without overflow: it returns the product exactly when its absolute
    value is at most BIGGEST_FIXNUM, and #F otherwise (also for the product SMALLEST_FIXNUM). *)
Theorem Mul_correct x y : fixnum_range x -> fixnum_range y ->
  Mul (LONG_TO_FIXNUM x) (LONG_TO_FIXNUM y)
  = if Z.abs (x * y) <=? BIGGEST_FIXNUM then LONG_TO_FIXNUM (x * y) else SHARP_F.
Proof. exact (Mul_ok x y). Qed.

Lemma Mul_correct_witness :
  Mul (LONG_TO_FIXNUM SMALLEST_FIXNUM) (LONG_TO_FIXNUM 1)
  = if Z.abs (SMALLEST_FIXNUM * 1) <=? BIGGEST_FIXNUM then LONG_TO_FIXNUM (SMALLEST_FIXNUM * 1) else SHARP_F.
Proof. apply Mul_correct; vm_compute; split; discriminate. Defined.
