(* ===== verification/Integer.v ===== *)
(** * artutl.c, intprm.c, bigprm.c: exact integers of any size

    An exact integer is a fixnum or a bignum.  The generic operations of
    artutl.c choose the fixnum arithmetic when both operands are fixnums and
    bignum arithmetic otherwise, and reduce a bignum that fits to a fixnum.
    Modelled on the data type [scheme_object], whose constructor [Big] is a
    pointer to a bignum.  The primitives of intprm.c and bigprm.c and the
    argument decoding of utils.c that concerns integers are here too. *)

From Stdlib Require Import ZArith List Bool Lia.
From S2P Require Import Prelude Bits Object Bignum BignumAdd BignumMul BignumDiv BignumBits BignumConv.
From S2P Require Import Primitive Fixnum.
Import ListNotations.

#[local] Open Scope Z_scope.
#[local] Open Scope microcode_scope.

(** ** Objects *)

Inductive scheme_object : Type :=
| Word (w : Z)
| Big (b : bignum)
| Pair (car cdr : scheme_object).

Definition fixnum_object_p (n : scheme_object) : bool :=
  match n with Word w => FIXNUM_P w | _ => false end.
Definition bignum_object_p (n : scheme_object) : bool :=
  match n with Big _ => true | _ => false end.
Definition pair_object_p (n : scheme_object) : bool :=
  match n with Pair _ _ => true | _ => false end.
Definition INTEGER_P (n : scheme_object) : bool := fixnum_object_p n || bignum_object_p n.

Definition FIXNUM_TO_BIGNUM (fixnum : Z) : outcome bignum := long_to_bignum (FIXNUM_TO_LONG fixnum).

(** The pattern of the unary operations: [f] on a fixnum, [g] on a bignum
    (an object that is neither is read as if it were a bignum: [Wild]). *)
Definition on_integer {A} (f : Z -> outcome A) (g : bignum -> outcome A) (n : scheme_object) : outcome A :=
  match n with
  | Word w => if FIXNUM_P w then f w else Wild
  | Big b => g b
  | Pair _ _ => Wild
  end.

(** [((FIXNUM_P (n)) ? (FIXNUM_TO_BIGNUM (n)) : n)]. *)
Definition integer_to_bignum : scheme_object -> outcome bignum := on_integer FIXNUM_TO_BIGNUM Return.

(** The pattern of the binary operations: [f] on two fixnums, else [g] on the
    operands as bignums. *)
Definition on_integers {A} (f : Z -> Z -> outcome A) (g : bignum -> bignum -> outcome A)
    (n m : scheme_object) : outcome A :=
  let as_bignums := b <- integer_to_bignum n ;; c <- integer_to_bignum m ;; g b c in
  match n, m with
  | Word v, Word w => if FIXNUM_P v && FIXNUM_P w then f v w else as_bignums
  | _, _ => as_bignums
  end.

(** ** Conversions *)

Definition BIGNUM_TO_LONG_P (b : bignum) : outcome bool :=
  bignum_fits_in_word_p b (SIZEOF_LONG * CHAR_BIT) true.
Definition BIGNUM_TO_ULONG_P (b : bignum) : outcome bool :=
  bignum_fits_in_word_p b (SIZEOF_LONG * CHAR_BIT) false.
Definition BIGNUM_TO_FIXNUM_P (b : bignum) : outcome bool :=
  bignum_fits_in_word_p b (FIXNUM_LENGTH + 1) true.
Definition BIGNUM_TO_FIXNUM (b : bignum) : Z := LONG_TO_FIXNUM (bignum_to_long b).

Definition integer_to_long_p : scheme_object -> outcome bool :=
  on_integer (fun _ => Return true) BIGNUM_TO_LONG_P.

Definition integer_to_long : scheme_object -> outcome Z :=
  on_integer (fun w => Return (FIXNUM_TO_LONG w)) (fun b => Return (bignum_to_long b)).

Definition long_to_integer (number : Z) : outcome scheme_object :=
  if LONG_TO_FIXNUM_P number then Return (Word (LONG_TO_FIXNUM number))
  else b <- long_to_bignum number ;; Return (Big b).

Definition integer_to_ulong_p : scheme_object -> outcome bool :=
  on_integer (fun w => Return (negb (FIXNUM_NEGATIVE_P w))) BIGNUM_TO_ULONG_P.

Definition integer_to_ulong : scheme_object -> outcome Z :=
  on_integer (fun w => Return (to_ulong (FIXNUM_TO_LONG w))) bignum_to_ulong.

Definition ulong_to_integer (number : Z) : outcome scheme_object :=
  let s_number := to_long number in
  if s_number >=? 0
  then if LONG_TO_FIXNUM_P s_number then Return (Word (LONG_TO_FIXNUM s_number))
       else b <- long_to_bignum s_number ;; Return (Big b)
  else b <- ulong_to_bignum number ;; Return (Big b).

Definition bignum_to_fixnum (b : bignum) : outcome scheme_object :=
  fits <- BIGNUM_TO_FIXNUM_P b ;;
  Return (if fits : bool then Word (BIGNUM_TO_FIXNUM b) else Word SHARP_F).

Definition bignum_to_integer (b : bignum) : outcome scheme_object :=
  fits <- BIGNUM_TO_FIXNUM_P b ;;
  Return (if fits : bool then Word (BIGNUM_TO_FIXNUM b) else Big b).

(** ** Predicates *)

Definition is_equal (c : bignum_comparison) : bool :=
  match c with bignum_comparison_equal => true | _ => false end.
Definition is_less (c : bignum_comparison) : bool :=
  match c with bignum_comparison_less => true | _ => false end.
Definition is_greater (c : bignum_comparison) : bool :=
  match c with bignum_comparison_greater => true | _ => false end.

(** The macros of object.h, defined from [bignum_test] and [bignum_compare]. *)
Definition OBJECT_BIGNUM_ZERO_P (b : bignum) : bool := is_equal (bignum_test b).
Definition OBJECT_BIGNUM_NEGATIVE_P (b : bignum) : bool := is_less (bignum_test b).
Definition OBJECT_BIGNUM_POSITIVE_P (b : bignum) : bool := is_greater (bignum_test b).
Definition BIGNUM_LESS_P (x y : bignum) : bool := is_less (bignum_compare x y).

Definition integer_zero_p : scheme_object -> outcome bool :=
  on_integer (fun w => Return (FIXNUM_ZERO_P w)) (fun b => Return (OBJECT_BIGNUM_ZERO_P b)).
Definition integer_negative_p : scheme_object -> outcome bool :=
  on_integer (fun w => Return (FIXNUM_NEGATIVE_P w)) (fun b => Return (OBJECT_BIGNUM_NEGATIVE_P b)).
Definition integer_positive_p : scheme_object -> outcome bool :=
  on_integer (fun w => Return (FIXNUM_POSITIVE_P w)) (fun b => Return (OBJECT_BIGNUM_POSITIVE_P b)).

Definition integer_equal_p : scheme_object -> scheme_object -> outcome bool :=
  on_integers (fun v w => Return (FIXNUM_EQUAL_P v w)) (fun b c => Return (bignum_equal_p b c)).
Definition integer_less_p : scheme_object -> scheme_object -> outcome bool :=
  on_integers (fun v w => Return (FIXNUM_LESS_P v w)) (fun b c => Return (BIGNUM_LESS_P b c)).

(** ** Arithmetic *)

Definition integer_negate : scheme_object -> outcome scheme_object :=
  on_integer (fun w => long_to_integer (- FIXNUM_TO_LONG w))
    (fun b => r <- bignum_negate b ;; bignum_to_integer r).

Definition integer_add : scheme_object -> scheme_object -> outcome scheme_object :=
  on_integers (fun v w => long_to_integer (FIXNUM_TO_LONG v + FIXNUM_TO_LONG w))
    (fun b c => r <- bignum_add b c ;; bignum_to_integer r).

Definition integer_add_1 : scheme_object -> outcome scheme_object :=
  on_integer (fun w => long_to_integer (FIXNUM_TO_LONG w + 1))
    (fun b => one <- long_to_bignum 1 ;; r <- bignum_add b one ;; bignum_to_integer r).

Definition integer_subtract : scheme_object -> scheme_object -> outcome scheme_object :=
  on_integers (fun v w => long_to_integer (FIXNUM_TO_LONG v - FIXNUM_TO_LONG w))
    (fun b c => r <- bignum_subtract b c ;; bignum_to_integer r).

Definition integer_subtract_1 : scheme_object -> outcome scheme_object :=
  on_integer (fun w => long_to_integer (FIXNUM_TO_LONG w - 1))
    (fun b => one <- long_to_bignum 1 ;; r <- bignum_subtract b one ;; bignum_to_integer r).

Definition integer_multiply : scheme_object -> scheme_object -> outcome scheme_object :=
  on_integers
    (fun v w =>
       let result := Mul v w in
       if negb (result =? SHARP_F) then Return (Word result)
       else b <- FIXNUM_TO_BIGNUM v ;; c <- FIXNUM_TO_BIGNUM w ;;
            r <- bignum_multiply b c ;; bignum_to_integer r)
    (fun b c => r <- bignum_multiply b c ;; bignum_to_integer r).

(** [None] is the return value [true]: division by zero. *)
Definition integer_divide : scheme_object -> scheme_object -> outcome (option (scheme_object * scheme_object)) :=
  on_integers
    (fun v w =>
       let lx := FIXNUM_TO_LONG v in
       let ly := FIXNUM_TO_LONG w in
       if ly =? 0 then Return None
       else
         let '(quotient, remainder) :=
           if lx <? 0 then
             let lx := - lx in
             if ly <? 0 then let ly := - ly in (Z.quot lx ly, - Z.rem lx ly)
             else (- Z.quot lx ly, - Z.rem lx ly)
           else
             if ly <? 0 then let ly := - ly in (- Z.quot lx ly, Z.rem lx ly)
             else (Z.quot lx ly, Z.rem lx ly) in
         q <- long_to_integer quotient ;;
         Return (Some (q, Word (LONG_TO_FIXNUM remainder))))
    (fun b c =>
       qr <- bignum_divide b c ;;
       match qr with
       | None => Return None
       | Some (quotient, remainder) =>
           q <- bignum_to_integer quotient ;;
           r <- bignum_to_integer remainder ;;
           Return (Some (q, r))
       end).

(** The result of [integer_quotient] and [integer_remainder]: [#F] for a zero divisor. *)
Definition bignum_result (o : option bignum) : outcome scheme_object :=
  match o with None => Return (Word SHARP_F) | Some b => bignum_to_integer b end.

Definition integer_quotient : scheme_object -> scheme_object -> outcome scheme_object :=
  on_integers
    (fun v w =>
       let lx := FIXNUM_TO_LONG v in
       let ly := FIXNUM_TO_LONG w in
       if ly =? 0 then Return (Word SHARP_F)
       else long_to_integer
              (if lx <? 0
               then if ly <? 0 then Z.quot (- lx) (- ly) else - Z.quot (- lx) ly
               else if ly <? 0 then - Z.quot lx (- ly) else Z.quot lx ly))
    (fun b c => o <- bignum_quotient b c ;; bignum_result o).

Definition integer_remainder : scheme_object -> scheme_object -> outcome scheme_object :=
  on_integers
    (fun v w =>
       let lx := FIXNUM_TO_LONG v in
       let ly := FIXNUM_TO_LONG w in
       if ly =? 0 then Return (Word SHARP_F)
       else long_to_integer
              (if lx <? 0
               then - Z.rem (- lx) (if ly <? 0 then - ly else ly)
               else Z.rem lx (if ly <? 0 then - ly else ly)))
    (fun b c => o <- bignum_remainder b c ;; bignum_result o).

(** ** Lengths and bit counts *)

Definition integer_length_in_bits : scheme_object -> outcome scheme_object :=
  on_integer
    (fun w =>
       let n1 := FIXNUM_TO_LONG w in
       Return (Word (ULONG_TO_FIXNUM (ulong_length_in_bits (to_ulong (if n1 <? 0 then - n1 else n1))))))
    (fun b => l <- bignum_length_in_bits b ;; ulong_to_integer l).

Definition integer_length : scheme_object -> outcome scheme_object :=
  on_integer
    (fun w =>
       let n1 := FIXNUM_TO_LONG w in
       Return (Word (ULONG_TO_FIXNUM (ulong_length_in_bits (to_ulong (if n1 <? 0 then Z.lnot n1 else n1))))))
    (fun b => l <- bignum_integer_length b ;; ulong_to_integer l).

Definition integer_first_set_bit : scheme_object -> outcome scheme_object :=
  on_integer
    (fun w =>
       let n1 := FIXNUM_TO_LONG w in
       Return (Word (LONG_TO_FIXNUM (ulong_first_set_bit
         (if n1 <? 0 then to_ulong (Z.lnot (to_ulong (Z.lnot n1))) else to_ulong n1)))))
    (fun b => i <- bignum_first_set_bit b ;; long_to_integer i).

Definition integer_bit_count : scheme_object -> outcome scheme_object :=
  on_integer
    (fun w =>
       let n1 := FIXNUM_TO_LONG w in
       Return (Word (ULONG_TO_FIXNUM (ulong_bit_count (to_ulong (if n1 <? 0 then Z.lnot n1 else n1))))))
    (fun b => c <- bignum_bit_count b ;; ulong_to_integer c).

(** [same_object]: both arguments are the same pointer (a converted fixnum is a new object). *)
Definition integer_hamming_distance (same_object : bool) (n m : scheme_object) : outcome scheme_object :=
  on_integers
    (fun v w =>
       let x := Z.lxor (FIXNUM_TO_LONG v) (FIXNUM_TO_LONG w) in
       Return (Word (if x <? 0 then LONG_TO_FIXNUM (-1) else ULONG_TO_FIXNUM (ulong_bit_count (to_ulong x)))))
    (fun b c =>
       d <- bignum_hamming_distance (same_object && bignum_object_p n && bignum_object_p m) b c ;;
       long_to_integer d)
    n m.

(** ** Bitwise operations *)

Definition integer_bitwise_not : scheme_object -> outcome scheme_object :=
  on_integer (fun w => Return (Word (LONG_TO_FIXNUM (Z.lnot (FIXNUM_TO_LONG w)))))
    (fun b => r <- bignum_bitwise_not b ;; Return (Big r)).

Definition DEFINE_BITWISE (op : Z -> Z -> Z) (bignum_op : bignum -> bignum -> outcome bignum) :
    scheme_object -> scheme_object -> outcome scheme_object :=
  on_integers (fun v w => Return (Word (LONG_TO_FIXNUM (op (FIXNUM_TO_LONG v) (FIXNUM_TO_LONG w)))))
    (fun b c => r <- bignum_op b c ;; bignum_to_integer r).

Definition integer_bitwise_and := DEFINE_BITWISE Z.land bignum_bitwise_and.
Definition integer_bitwise_andc2 := DEFINE_BITWISE (fun x y => Z.land x (Z.lnot y)) bignum_bitwise_andc2.
Definition integer_bitwise_andc1 := DEFINE_BITWISE (fun x y => Z.land y (Z.lnot x)) bignum_bitwise_andc1.
Definition integer_bitwise_xor := DEFINE_BITWISE Z.lxor bignum_bitwise_xor.
Definition integer_bitwise_ior := DEFINE_BITWISE Z.lor bignum_bitwise_ior.
Definition integer_bitwise_nor := DEFINE_BITWISE (fun x y => Z.lnot (Z.lor x y)) bignum_bitwise_nor.
Definition integer_bitwise_eqv := DEFINE_BITWISE (fun x y => Z.lnot (Z.lxor x y)) bignum_bitwise_eqv.
Definition integer_bitwise_orc2 := DEFINE_BITWISE (fun x y => Z.lor x (Z.lnot y)) bignum_bitwise_orc2.
Definition integer_bitwise_orc1 := DEFINE_BITWISE (fun x y => Z.lor y (Z.lnot x)) bignum_bitwise_orc1.
Definition integer_bitwise_nand := DEFINE_BITWISE (fun x y => Z.lnot (Z.land x y)) bignum_bitwise_nand.

(** [x << n] on [unsigned long]: undefined when [n] is the width or more. *)
Definition ulong_shift_left (x n : Z) : outcome Z :=
  if n <? LONG_BITS then Return (to_ulong (Z.shiftl x n)) else Wild.

Definition integer_nonnegative_one_bits (n m : Z) : outcome scheme_object :=
  if n =? 0 then Return (Word (LONG_TO_FIXNUM 0))
  else if to_ulong (n + m) <=? FIXNUM_LENGTH
  then x <- ulong_shift_left (to_ulong (Z.lnot 0)) n ;;
       y <- ulong_shift_left (to_ulong (Z.lnot x)) m ;;
       Return (Word (ULONG_TO_FIXNUM y))
  else r <- bignum_nonnegative_one_bits n m ;; Return (Big r).

Definition integer_negative_zero_bits (n m : Z) : outcome scheme_object :=
  if n =? 0 then Return (Word (LONG_TO_FIXNUM (-1)))
  else if to_ulong (n + m) <=? FIXNUM_LENGTH
  then x <- ulong_shift_left (to_ulong (Z.lnot 0)) n ;;
       y <- ulong_shift_left (to_ulong (Z.lnot x)) m ;;
       Return (Word (LONG_TO_FIXNUM (Z.lnot (to_long y))))
  else r <- bignum_negative_zero_bits n m ;; Return (Big r).

(** [x << m] for a nonnegative [long]. *)
Definition long_shift_left (x m : Z) : outcome Z :=
  if m <? LONG_BITS then Return (to_long (Z.shiftl x m)) else Wild.

Definition integer_shift_left (n : scheme_object) (m : Z) : outcome scheme_object :=
  if m =? 0 then Return n
  else on_integer
    (fun w =>
       let n1 := FIXNUM_TO_LONG w in
       if n1 <? 0 then
         if to_ulong (m + ulong_length_in_bits (to_ulong (Z.lnot n1))) <=? FIXNUM_LENGTH
         then x <- long_shift_left (- n1) m ;; Return (Word (LONG_TO_FIXNUM (- x)))
         else r <- unsigned_long_to_shifted_bignum (to_ulong (- n1)) m false ;;
              r <- bignum_negate r ;; Return (Big r)
       else if 0 <? n1 then
         if to_ulong (m + ulong_length_in_bits (to_ulong n1)) <=? FIXNUM_LENGTH
         then x <- long_shift_left n1 m ;; Return (Word (LONG_TO_FIXNUM x))
         else r <- unsigned_long_to_shifted_bignum (to_ulong n1) m false ;; Return (Big r)
       else Return (Word (LONG_TO_FIXNUM 0)))
    (fun b => r <- bignum_shift_left b m ;; Return (Big r))
    n.

(** A right shift of a bignum may read the filler past the digits, [#F]
    (see [bignum_shift_right_unsigned]). *)
Definition integer_shift_right (n : scheme_object) (m : Z) : outcome scheme_object :=
  if m =? 0 then Return n
  else on_integer
    (fun w =>
       let n1 := FIXNUM_TO_LONG w in
       Return (Word (LONG_TO_FIXNUM
         (if m >=? CHAR_BIT * SIZEOF_LONG then (if n1 <? 0 then -1 else 0)
          else if n1 <? 0 then Z.lnot (Z.shiftr (Z.lnot n1) m) else Z.shiftr n1 m))))
    (fun b => r <- bignum_shift_right SHARP_F b m ;; bignum_to_integer r)
    n.

(** ** What an object denotes

    [integer z n]: the object [n] is the integer [z].  [canonical z n]: it is
    also in the one form the generic operations return, a fixnum whenever [z]
    fits in one. *)

Inductive integer : Z -> scheme_object -> Prop :=
| integer_fixnum z : fixnum_range z -> integer z (Word (LONG_TO_FIXNUM z))
| integer_bignum z b : represents z b -> integer z (Big b).

Inductive canonical : Z -> scheme_object -> Prop :=
| canonical_fixnum z : fixnum_range z -> canonical z (Word (LONG_TO_FIXNUM z))
| canonical_bignum z b : represents z b -> ~ fixnum_range z -> canonical z (Big b).

Lemma canonical_integer z n : canonical z n -> integer z n.
Proof. destruct 1; now constructor. Qed.

Lemma canonical_unique z n m : canonical z n -> canonical z m -> n = m.
Proof.
  destruct 1; inversion 1; subst; try contradiction; [reflexivity|].
  unfold represents in *. f_equal. apply value_inj; intuition congruence.
Qed.

#[export] Hint Resolve canonical_integer : core.
#[export] Hint Constructors integer canonical : core.

(** The sizes of integers.  A bignum whose length does not fit in 32 bits is
    misjudged by [bignum_fits_in_word_p], which truncates the length: the
    operations are correct on [moderate] operands, whose results are [large]
    at most and are normalized correctly. *)
Lemma moderate_digits_exists : { k : Z | 2 <= k /\ k = 2 ^ 31 - 1 }.
Proof. exists (2 ^ 31 - 1). lia. Qed.

Definition moderate_digits : Z := proj1_sig moderate_digits_exists.
Definition moderate_bound : Z := BIGNUM_RADIX ^ moderate_digits.
Definition moderate (z : Z) : Prop := Z.abs z < moderate_bound.
Definition large (z : Z) : Prop := Z.abs z < moderate_bound * moderate_bound.

Lemma moderate_digits_eq : 2 <= moderate_digits /\ moderate_digits = 2 ^ 31 - 1.
Proof. exact (proj2_sig moderate_digits_exists). Qed.

Lemma moderate_bound_large : 2 ^ 64 <= moderate_bound.
Proof.
  pose proof moderate_digits_eq as [E _]. unfold moderate_bound. rewrite RADIX_eq, <- Z.pow_mul_r by lia.
  apply Z.pow_le_mono_r; lia.
Qed.

Lemma moderate_long z : Z.abs z < 2 ^ 64 -> moderate z.
Proof. pose proof moderate_bound_large. unfold moderate. lia. Qed.

Lemma moderate_large z : moderate z -> large z.
Proof. pose proof moderate_bound_large. unfold moderate, large. nia. Qed.

Lemma large_2 z x y : moderate x -> moderate y -> Z.abs z <= Z.abs x + Z.abs y + 1 -> large z.
Proof. pose proof moderate_bound_large. unfold moderate, large. nia. Qed.

Lemma large_mul x y : moderate x -> moderate y -> large (x * y).
Proof. unfold moderate, large. rewrite Z.abs_mul. pose proof (Z.abs_nonneg x). nia. Qed.

Lemma moderate_length b : wf b -> moderate (value b) -> BIGNUM_LENGTH b <= moderate_digits.
Proof.
  intros Hb H. pose proof moderate_digits_eq as [E _]. apply length_bound; [assumption|lia|].
  now rewrite magnitude_abs.
Qed.

Lemma large_length b : wf b -> large (value b) -> BIGNUM_LENGTH b <= 2 * moderate_digits.
Proof.
  intros Hb H. pose proof moderate_digits_eq as [E _]. apply length_bound; [assumption|lia|].
  rewrite magnitude_abs by assumption. unfold large, moderate_bound in H.
  rewrite <- Z.pow_add_r in H by lia. now replace (2 * moderate_digits) with (moderate_digits + moderate_digits) by lia.
Qed.

Lemma LENGTH_MAX_large : 2 ^ 40 <= BIGNUM_LENGTH_MAX.
Proof. vm_compute. discriminate. Qed.

Lemma moderate_room b : wf b -> moderate (value b) -> room b.
Proof.
  intros Hb H%moderate_length; [|assumption]. pose proof moderate_digits_eq. pose proof LENGTH_MAX_large.
  unfold room. lia.
Qed.

(** ** Conversions *)

Lemma fixnum_accepted z : fixnum_range z <-> - accepted_low (FIXNUM_LENGTH + 1 - 1) < z < 2 ^ (FIXNUM_LENGTH + 1 - 1).
Proof.
  change (accepted_low _) with (2 ^ 57 + 1). change (2 ^ (_ - 1)) with (2 ^ 57).
  unfold fixnum_range, SMALLEST_FIXNUM, BIGGEST_FIXNUM. lia.
Qed.

Lemma BIGNUM_TO_FIXNUM_P_ok b : wf b -> large (value b) ->
  returns (BIGNUM_TO_FIXNUM_P b) (fun r => r = true <-> fixnum_range (value b)).
Proof.
  intros Hb Hl. pose proof (large_length b Hb Hl) as L. pose proof moderate_digits_eq.
  unfold BIGNUM_TO_FIXNUM_P.
  ret_step bignum_fits_in_word_p_signed_ok; [assumption|unfold FIXNUM_LENGTH; lia|now vm_compute|lia|].
  intros r Hr. now rewrite fixnum_accepted.
Qed.

Lemma fixnum_long z : fixnum_range z -> long_p z.
Proof. unfold fixnum_range, SMALLEST_FIXNUM, BIGGEST_FIXNUM, long_p. lia. Qed.

Lemma BIGNUM_TO_FIXNUM_ok b : wf b -> fixnum_range (value b) -> BIGNUM_TO_FIXNUM b = LONG_TO_FIXNUM (value b).
Proof.
  intros Hb Hr. unfold BIGNUM_TO_FIXNUM. rewrite bignum_to_long_ok by assumption.
  now rewrite to_long_small by now apply fixnum_long.
Qed.

Lemma bignum_to_integer_ok z b : represents z b -> large z -> returns (bignum_to_integer b) (canonical z).
Proof.
  intros [Hb <-] Hl. unfold bignum_to_integer. ret_step BIGNUM_TO_FIXNUM_P_ok; [assumption|assumption|].
  intros r Hr. ret_now. destruct r.
  - rewrite BIGNUM_TO_FIXNUM_ok by tauto. constructor. tauto.
  - constructor; [now split|]. intros F. apply Hr in F. discriminate.
Qed.

Lemma bignum_to_fixnum_ok z b : represents z b -> large z ->
  returns (bignum_to_fixnum b)
    (fun r => r = Word (if fixnum_range_b z then LONG_TO_FIXNUM z else SHARP_F)).
Proof.
  intros [Hb <-] Hl. unfold bignum_to_fixnum. ret_step BIGNUM_TO_FIXNUM_P_ok; [assumption|assumption|].
  intros r Hr. ret_now. rewrite <- fixnum_range_b_iff in Hr.
  destruct r, (fixnum_range_b (value b)) eqn:E; try (exfalso; intuition congruence); [|reflexivity].
  apply fixnum_range_b_iff in E. now rewrite BIGNUM_TO_FIXNUM_ok.
Qed.

Lemma long_to_integer_ok z : long_p z -> returns (long_to_integer z) (canonical z).
Proof.
  intros Hz. unfold long_to_integer. pose proof (LONG_TO_FIXNUM_P_spec z Hz) as S.
  destruct (LONG_TO_FIXNUM_P z).
  - ret_now. constructor. tauto.
  - ret_step long_to_bignum_ok; [assumption|]. intros b Hb. ret_now. constructor; [assumption|].
    intros F. apply S in F. discriminate.
Qed.

Lemma ulong_to_integer_ok z : ulong_p z -> returns (ulong_to_integer z) (canonical z).
Proof.
  unfold ulong_p. intros Hz. unfold ulong_to_integer. destruct (Z_lt_le_dec z (2 ^ 63)).
  - rewrite to_long_small by lia. destruct (Z.geb_spec z 0); [|lia].
    apply long_to_integer_ok. unfold long_p. lia.
  - replace (to_long z) with (z - 2 ^ 64) by (unfold to_long; dlia). destruct (Z.geb_spec (z - 2 ^ 64) 0); [lia|].
    ret_step ulong_to_bignum_ok; [exact Hz|]. intros b Hb. ret_now. constructor; [assumption|].
    unfold fixnum_range, BIGGEST_FIXNUM. lia.
Qed.

(** ** The calling patterns *)

Lemma FIXNUM_TO_BIGNUM_ok z : fixnum_range z ->
  returns (FIXNUM_TO_BIGNUM (LONG_TO_FIXNUM z)) (represents z).
Proof.
  intros Hz. unfold FIXNUM_TO_BIGNUM. rewrite FIXNUM_TO_LONG_TO_FIXNUM by assumption.
  now apply long_to_bignum_ok, fixnum_long.
Qed.

Lemma on_integer_ok {A} f g x n (P : A -> Prop) :
  integer x n -> (fixnum_range x -> returns (f (LONG_TO_FIXNUM x)) P) ->
  (forall b, represents x b -> returns (g b) P) -> returns (on_integer f g n) P.
Proof.
  intros Hn Hf Hg. destruct Hn; cbn [on_integer]; [|auto]. rewrite FIXNUM_P_LONG_TO_FIXNUM. auto.
Qed.

Lemma integer_to_bignum_ok x n : integer x n -> returns (integer_to_bignum n) (represents x).
Proof. intros Hn. apply (on_integer_ok _ _ x); [assumption|apply FIXNUM_TO_BIGNUM_ok|intros; now ret_now]. Qed.

Lemma on_integers_ok {A} f g x y n m (P : A -> Prop) :
  integer x n -> integer y m ->
  (fixnum_range x -> fixnum_range y -> returns (f (LONG_TO_FIXNUM x) (LONG_TO_FIXNUM y)) P) ->
  (forall b c, represents x b -> represents y c -> returns (g b c) P) ->
  returns (on_integers f g n m) P.
Proof.
  intros Hn Hm Hf Hg.
  assert (E : returns (b <- integer_to_bignum n ;; c <- integer_to_bignum m ;; g b c) P).
  { ret_step integer_to_bignum_ok; [exact Hn|]. intros b Hb.
    ret_step integer_to_bignum_ok; [exact Hm|]. intros c Hc. auto. }
  destruct Hn; [|exact E]. destruct Hm; [|exact E].
  cbn [on_integers]. rewrite !FIXNUM_P_LONG_TO_FIXNUM. cbn [andb]. auto.
Qed.

(** ** Bounds of the bitwise operations *)

Inductive bitwise_function : (Z -> Z -> Z) -> Prop :=
| fn_and : bitwise_function Z.land
| fn_andc2 : bitwise_function (fun a b => Z.land a (Z.lnot b))
| fn_andc1 : bitwise_function (fun a b => Z.land b (Z.lnot a))
| fn_xor : bitwise_function Z.lxor
| fn_ior : bitwise_function Z.lor
| fn_nor : bitwise_function (fun a b => Z.lnot (Z.lor a b))
| fn_eqv : bitwise_function (fun a b => Z.lnot (Z.lxor a b))
| fn_orc2 : bitwise_function (fun a b => Z.lor a (Z.lnot b))
| fn_orc1 : bitwise_function (fun a b => Z.lor b (Z.lnot a))
| fn_nand : bitwise_function (fun a b => Z.lnot (Z.land a b)).

(** A number fits in [k] bits and a sign when nothing but copies of the sign is above. *)
Lemma sign_extension k z : 0 <= k -> (- 2 ^ k <= z < 2 ^ k <-> Z.shiftr z k = 0 \/ Z.shiftr z k = -1).
Proof.
  intros Hk. rewrite Z.shiftr_div_pow2 by lia. pose proof (Z.pow_pos_nonneg 2 k ltac:(lia) Hk).
  pose proof (Z.div_mod z (2 ^ k) ltac:(lia)). pose proof (Z.mod_pos_bound z (2 ^ k) ltac:(lia)). nia.
Qed.

Lemma bitwise_range F k x y : bitwise_function F -> 0 <= k ->
  - 2 ^ k <= x < 2 ^ k -> - 2 ^ k <= y < 2 ^ k -> - 2 ^ k <= F x y < 2 ^ k.
Proof.
  intros HF Hk Hx%sign_extension Hy%sign_extension; try assumption. apply sign_extension; [assumption|].
  destruct HF; rewrite ?Z.shiftr_land, ?Z.shiftr_lor, ?Z.shiftr_lxor, <- ?Z.lnot_shiftr by assumption;
    rewrite ?Z.shiftr_land, ?Z.shiftr_lor, ?Z.shiftr_lxor, <- ?Z.lnot_shiftr by assumption;
    destruct Hx as [-> | ->], Hy as [-> | ->]; auto.
Qed.

(** ** Binary operations *)

Lemma fixnum_bitwise F x y : bitwise_function F -> fixnum_range x -> fixnum_range y -> fixnum_range (F x y).
Proof.
  unfold fixnum_range, SMALLEST_FIXNUM, BIGGEST_FIXNUM. intros HF Hx Hy.
  pose proof (bitwise_range F 57 x y HF). lia.
Qed.

Lemma large_bitwise F x y : bitwise_function F -> moderate x -> moderate y -> large (F x y).
Proof.
  intros HF Hx Hy. pose proof moderate_digits_eq as [E _]. pose proof moderate_bound_large.
  assert (B : moderate_bound = 2 ^ (62 * moderate_digits)).
  { unfold moderate_bound. rewrite RADIX_eq, <- Z.pow_mul_r by lia. reflexivity. }
  unfold moderate in *. pose proof (bitwise_range F (62 * moderate_digits) x y HF ltac:(lia)).
  unfold large. rewrite <- B in *. nia.
Qed.

(** ** The table of binary operations

    Each generic operation with the function on integers it computes. *)

Inductive integer_operation : (scheme_object -> scheme_object -> outcome scheme_object) -> (Z -> Z -> Z) -> Prop :=
| int_add : integer_operation integer_add Z.add
| int_subtract : integer_operation integer_subtract Z.sub
| int_multiply : integer_operation integer_multiply Z.mul
| int_and : integer_operation integer_bitwise_and Z.land
| int_andc2 : integer_operation integer_bitwise_andc2 (fun a b => Z.land a (Z.lnot b))
| int_andc1 : integer_operation integer_bitwise_andc1 (fun a b => Z.land b (Z.lnot a))
| int_xor : integer_operation integer_bitwise_xor Z.lxor
| int_ior : integer_operation integer_bitwise_ior Z.lor
| int_nor : integer_operation integer_bitwise_nor (fun a b => Z.lnot (Z.lor a b))
| int_eqv : integer_operation integer_bitwise_eqv (fun a b => Z.lnot (Z.lxor a b))
| int_orc2 : integer_operation integer_bitwise_orc2 (fun a b => Z.lor a (Z.lnot b))
| int_orc1 : integer_operation integer_bitwise_orc1 (fun a b => Z.lor b (Z.lnot a))
| int_nand : integer_operation integer_bitwise_nand (fun a b => Z.lnot (Z.land a b)).

Lemma represents_moderate z b : represents z b -> moderate z -> wf b /\ room b.
Proof. intros [Hb <-] Hm. split; [assumption|now apply moderate_room]. Qed.

Lemma represents_wf z b : represents z b -> wf b.
Proof. now intros [Hb _]. Qed.

Lemma fixnum_moderate z : fixnum_range z -> moderate z.
Proof. unfold fixnum_range, SMALLEST_FIXNUM, BIGGEST_FIXNUM. intros. apply moderate_long. lia. Qed.

#[export] Hint Resolve represents_wf fixnum_moderate moderate_large fixnum_long : core.

(** A bignum operation followed by the reduction to a fixnum. *)
Lemma reduced_ok {A} (m : outcome A) (k : A -> outcome bignum) z :
  returns (a <- m ;; k a) (represents z) -> large z ->
  returns (a <- m ;; r <- k a ;; bignum_to_integer r) (canonical z).
Proof.
  intros H L. rewrite <- bind_assoc. eapply returns_bind; [exact H|]. intros r Hr. now apply bignum_to_integer_ok.
Qed.

Lemma reduced_1_ok m z : returns m (represents z) -> large z ->
  returns (r <- m ;; bignum_to_integer r) (canonical z).
Proof. intros H L. eapply returns_bind; [exact H|]. intros r Hr. now apply bignum_to_integer_ok. Qed.

Lemma DEFINE_BITWISE_ok op f F x y n m :
  bitwise_function op -> bitwise_operator f F -> (forall a b, op a b = F a b) ->
  integer x n -> integer y m -> moderate x -> moderate y ->
  returns (DEFINE_BITWISE op f n m) (canonical (op x y)).
Proof.
  intros Hop Hf E Hn Hm Mx My. apply (on_integers_ok _ _ x y); [assumption|assumption| |].
  - intros Fx Fy. rewrite !FIXNUM_TO_LONG_TO_FIXNUM by assumption. ret_now. constructor. now apply fixnum_bitwise.
  - intros b c Hb Hc. apply reduced_1_ok; [|now apply large_bitwise]. rewrite E.
    destruct (represents_moderate x b Hb Mx), (represents_moderate y c Hc My).
    destruct Hb as [_ <-], Hc as [_ <-]. now apply bitwise_operator_ok.
Qed.

Lemma bignum_multiply_moderate x y b c : represents x b -> represents y c -> moderate x -> moderate y ->
  returns (bignum_multiply b c) (represents (x * y)).
Proof.
  intros [Hb <-] [Hc <-] Mx My. apply bignum_multiply_ok; [assumption|assumption|].
  pose proof (moderate_length b Hb Mx). pose proof (moderate_length c Hc My).
  pose proof moderate_digits_eq. pose proof LENGTH_MAX_large. lia.
Qed.

Lemma integer_multiply_ok x y n m : integer x n -> integer y m -> moderate x -> moderate y ->
  returns (integer_multiply n m) (canonical (x * y)).
Proof.
  intros Hn Hm Mx My. pose proof (large_mul x y Mx My) as L. apply (on_integers_ok _ _ x y); [assumption|assumption| |].
  - intros Fx Fy. cbv zeta. rewrite Mul_ok by assumption. destruct (Z.leb_spec (Z.abs (x * y)) BIGGEST_FIXNUM).
    + assert (Hne : LONG_TO_FIXNUM (x * y) <> SHARP_F).
      { intros E. apply (f_equal OBJECT_TYPE) in E. now rewrite LONG_TO_FIXNUM_type in E. }
      destruct (Z.eqb_spec (LONG_TO_FIXNUM (x * y)) SHARP_F); [contradiction|]. ret_now. constructor.
      unfold fixnum_range, SMALLEST_FIXNUM, BIGGEST_FIXNUM in *. lia.
    + rewrite Z.eqb_refl. cbn [negb]. ret_step FIXNUM_TO_BIGNUM_ok; [assumption|]. intros b Hb.
      ret_step FIXNUM_TO_BIGNUM_ok; [assumption|]. intros c Hc.
      apply reduced_1_ok; [now apply bignum_multiply_moderate|assumption].
  - intros b c Hb Hc. apply reduced_1_ok; [now apply bignum_multiply_moderate|assumption].
Qed.

(** Exposes the [DEFINE_BITWISE] behind a name, and the operation on integers. *)
Ltac bitwise_head x y :=
  lazymatch goal with
  | |- returns (?h _ _) (canonical ?z) =>
      unfold h; let F := eval pattern x, y in z in
      lazymatch F with ?op x y => change z with (op x y) end
  end.

Lemma integer_operation_ok f F x y n m : integer_operation f F ->
  integer x n -> integer y m -> moderate x -> moderate y ->
  returns (f n m) (canonical (F x y)).
Proof.
  intros Hop Hn Hm Mx My. destruct Hop.
  3: now apply integer_multiply_ok.
  3-12: bitwise_head x y.
  3-12: (eapply DEFINE_BITWISE_ok; [constructor|solve [constructor]| |eassumption..]);
    cbv beta; intros; solve [reflexivity | apply Z.land_comm | apply Z.lor_comm].
  all: apply (on_integers_ok _ _ x y); [assumption|assumption| |].
  1,3: intros Fx Fy; rewrite !FIXNUM_TO_LONG_TO_FIXNUM by assumption; apply long_to_integer_ok;
    unfold fixnum_range, SMALLEST_FIXNUM, BIGGEST_FIXNUM, long_p in *; lia.
  all: intros b c Hb Hc; apply reduced_1_ok; [|apply (large_2 _ x y); [assumption|assumption|lia]];
    destruct (represents_moderate x b Hb Mx), (represents_moderate y c Hc My);
    destruct Hb as [_ <-], Hc as [_ <-]; (now apply bignum_add_ok) || now apply bignum_subtract_ok.
Qed.

(** ** Predicates *)

Inductive integer_comparison : (scheme_object -> scheme_object -> outcome bool) -> (Z -> Z -> bool) -> Prop :=
| int_equal : integer_comparison integer_equal_p Z.eqb
| int_less : integer_comparison integer_less_p Z.ltb.

Inductive integer_test : (scheme_object -> outcome bool) -> (Z -> bool) -> Prop :=
| int_zero : integer_test integer_zero_p (fun z => z =? 0)
| int_negative : integer_test integer_negative_p (fun z => z <? 0)
| int_positive : integer_test integer_positive_p (fun z => 0 <? z).

Lemma FIXNUM_EQUAL_P_ok x y : fixnum_range x -> fixnum_range y ->
  FIXNUM_EQUAL_P (LONG_TO_FIXNUM x) (LONG_TO_FIXNUM y) = (x =? y).
Proof.
  unfold FIXNUM_EQUAL_P, fixnum_range, SMALLEST_FIXNUM, BIGGEST_FIXNUM. intros Hx Hy. rewrite !fixnum_datum.
  destruct (Z.eqb_spec x y) as [->|]; [apply Z.eqb_refl|]. apply Z.eqb_neq. dlia.
Qed.

Lemma FIXNUM_ZERO_P_ok x : fixnum_range x -> FIXNUM_ZERO_P (LONG_TO_FIXNUM x) = (x =? 0).
Proof.
  unfold FIXNUM_ZERO_P, fixnum_range, SMALLEST_FIXNUM, BIGGEST_FIXNUM. intros Hx. rewrite fixnum_datum.
  destruct (Z.eqb_spec x 0) as [->|]; [reflexivity|]. apply Z.eqb_neq. dlia.
Qed.

Lemma FIXNUM_NEGATIVE_P_ok x : fixnum_range x -> FIXNUM_NEGATIVE_P (LONG_TO_FIXNUM x) = (x <? 0).
Proof.
  intros Hx. rewrite FIXNUM_NEGATIVE_P_spec by (apply LONG_TO_FIXNUM_object || apply FIXNUM_P_LONG_TO_FIXNUM).
  now rewrite FIXNUM_TO_LONG_TO_FIXNUM.
Qed.

Lemma is_equal_compare a b : is_equal (of_comparison (a ?= b)) = (a =? b).
Proof. destruct (Z.compare_spec a b), (Z.eqb_spec a b); cbn; lia. Qed.
Lemma is_less_compare a b : is_less (of_comparison (a ?= b)) = (a <? b).
Proof. destruct (Z.compare_spec a b), (Z.ltb_spec a b); cbn; lia. Qed.
Lemma is_greater_compare a b : is_greater (of_comparison (a ?= b)) = (b <? a).
Proof. destruct (Z.compare_spec a b), (Z.ltb_spec b a); cbn; lia. Qed.

#[export] Hint Rewrite is_equal_compare is_less_compare is_greater_compare : comparison.

Lemma integer_comparison_ok f F x y n m : integer_comparison f F -> integer x n -> integer y m ->
  returns (f n m) (eq (F x y)).
Proof.
  intros Hop Hn Hm. destruct Hop; (apply (on_integers_ok _ _ x y); [assumption|assumption| |]).
  - intros Fx Fy. ret_now. now rewrite FIXNUM_EQUAL_P_ok.
  - intros b c [Hb <-] [Hc <-]. ret_now. now rewrite bignum_equal_p_ok.
  - intros Fx Fy. ret_now. unfold FIXNUM_LESS_P. now rewrite !FIXNUM_TO_LONG_TO_FIXNUM.
  - intros b c [Hb <-] [Hc <-]. ret_now. unfold BIGNUM_LESS_P. rewrite bignum_compare_ok by assumption.
    symmetry. apply is_less_compare.
Qed.

Lemma integer_test_ok f F x n : integer_test f F -> integer x n -> returns (f n) (eq (F x)).
Proof.
  intros Hop Hn. destruct Hop; (apply (on_integer_ok _ _ x); [assumption| |]);
    try (intros b [Hb <-]; ret_now; unfold OBJECT_BIGNUM_ZERO_P, OBJECT_BIGNUM_NEGATIVE_P, OBJECT_BIGNUM_POSITIVE_P;
         rewrite bignum_test_ok by assumption; now autorewrite with comparison).
  - intros Fx. ret_now. now rewrite FIXNUM_ZERO_P_ok.
  - intros Fx. ret_now. now rewrite FIXNUM_NEGATIVE_P_ok.
  - intros Fx. ret_now. unfold FIXNUM_POSITIVE_P. rewrite FIXNUM_ZERO_P_ok, FIXNUM_NEGATIVE_P_ok by assumption. lia.
Qed.

(** ** Division *)

Definition integer_quotient_and_remainder (x y : Z) (o : option (scheme_object * scheme_object)) : Prop :=
  if y =? 0 then o = None
  else exists q r, o = Some (q, r) /\ canonical (Z.quot x y) q /\ canonical (Z.rem x y) r.

Definition quotient_or_false (y z : Z) (o : scheme_object) : Prop :=
  if y =? 0 then o = Word SHARP_F else canonical z o.

Lemma quot_signs x y : y <> 0 ->
  Z.quot x y = (if x <? 0 then if y <? 0 then Z.quot (- x) (- y) else - Z.quot (- x) y
                else if y <? 0 then - Z.quot x (- y) else Z.quot x y).
Proof.
  intros Hy. destruct (x <? 0), (y <? 0); rewrite ?Z.quot_opp_opp, ?Z.quot_opp_l, ?Z.quot_opp_r by lia; lia.
Qed.

Lemma rem_signs x y : y <> 0 ->
  Z.rem x y = (if x <? 0 then - Z.rem (- x) (if y <? 0 then - y else y) else Z.rem x (if y <? 0 then - y else y)).
Proof.
  intros Hy. destruct (x <? 0), (y <? 0); rewrite ?Z.rem_opp_opp, ?Z.rem_opp_l, ?Z.rem_opp_r by lia; lia.
Qed.

Lemma quot_large x y : moderate x -> y <> 0 -> large (Z.quot x y) /\ large (Z.rem x y).
Proof.
  intros Mx Hy. assert (Z.abs (Z.quot x y) <= Z.abs x).
  { rewrite <- Z.quot_abs by assumption. rewrite Z.quot_div_nonneg by lia.
    pose proof (Z.div_le_upper_bound (Z.abs x) (Z.abs y) (Z.abs x)). nia. }
  assert (Z.abs (Z.rem x y) <= Z.abs x).
  { rewrite <- Z.rem_abs by assumption. rewrite Z.rem_mod_nonneg by lia. apply Z.mod_le; lia. }
  split; apply (large_2 _ x x); auto; lia.
Qed.

Lemma integer_quotient_ok x y n m : integer x n -> integer y m -> moderate x ->
  returns (integer_quotient n m) (quotient_or_false y (Z.quot x y)).
Proof.
  intros Hn Hm Mx. unfold quotient_or_false. apply (on_integers_ok _ _ x y); [assumption|assumption| |].
  - intros Fx Fy. cbv zeta. rewrite !FIXNUM_TO_LONG_TO_FIXNUM by assumption.
    destruct (Z.eqb_spec y 0); [now ret_now|]. rewrite <- quot_signs by assumption.
    apply long_to_integer_ok. now apply checked_quot.
  - intros b c Hb [Hc <-]. destruct (represents_moderate x b Hb Mx) as [Wb Rb]. destruct Hb as [_ <-].
    ret_step bignum_quotient_ok; [assumption|assumption|assumption|]. intros o Ho.
    destruct (Z.eqb_spec (value c) 0); [subst; now ret_now|]. destruct Ho as (q & -> & Hq).
    apply bignum_to_integer_ok; [assumption|now apply quot_large].
Qed.

Lemma integer_remainder_ok x y n m : integer x n -> integer y m -> moderate x ->
  returns (integer_remainder n m) (quotient_or_false y (Z.rem x y)).
Proof.
  intros Hn Hm Mx. unfold quotient_or_false. apply (on_integers_ok _ _ x y); [assumption|assumption| |].
  - intros Fx Fy. cbv zeta. rewrite !FIXNUM_TO_LONG_TO_FIXNUM by assumption.
    destruct (Z.eqb_spec y 0); [now ret_now|]. rewrite <- rem_signs by assumption.
    apply long_to_integer_ok. apply fixnum_long. now apply checked_quot.
  - intros b c Hb [Hc <-]. destruct (represents_moderate x b Hb Mx) as [Wb Rb]. destruct Hb as [_ <-].
    ret_step bignum_remainder_ok; [assumption|assumption|assumption|]. intros o Ho.
    destruct (Z.eqb_spec (value c) 0); [subst; now ret_now|]. destruct Ho as (q & -> & Hq).
    apply bignum_to_integer_ok; [assumption|now apply quot_large].
Qed.

Lemma integer_divide_ok x y n m : integer x n -> integer y m -> moderate x ->
  returns (integer_divide n m) (integer_quotient_and_remainder x y).
Proof.
  intros Hn Hm Mx. unfold integer_quotient_and_remainder. apply (on_integers_ok _ _ x y); [assumption|assumption| |].
  - intros Fx Fy. cbv zeta. rewrite !FIXNUM_TO_LONG_TO_FIXNUM by assumption.
    destruct (Z.eqb_spec y 0); [now ret_now|].
    destruct (checked_quot x y Fx n0) as [Lq Fr]. pose proof (quot_signs x y n0). pose proof (rem_signs x y n0).
    match goal with |- returns (let '(_, _) := ?p in _) _ => assert (E : p = (Z.quot x y, Z.rem x y)) end.
    { destruct (x <? 0), (y <? 0); congruence. }
    rewrite E. ret_step long_to_integer_ok; [assumption|]. intros q Hq. ret_now. eauto 6.
  - intros b c Hb [Hc <-]. destruct (represents_moderate x b Hb Mx) as [Wb Rb]. destruct Hb as [_ <-].
    ret_step bignum_divide_ok; [assumption|assumption|assumption|]. intros o Ho.
    destruct (Z.eqb_spec (value c) 0) as [|Hc0]; [subst; now ret_now|]. destruct Ho as (q & r & -> & Hq & Hr).
    destruct (quot_large (value b) (value c) Mx Hc0).
    ret_step bignum_to_integer_ok; [exact Hq|assumption|]. intros q' Hq'.
    ret_step bignum_to_integer_ok; [exact Hr|assumption|]. intros r' Hr'. ret_now. eauto 6.
Qed.

(** ** Lengths, counts and the other unary operations *)

Inductive integer_function : (scheme_object -> outcome scheme_object) -> (Z -> Z) -> Prop :=
| int_negate : integer_function integer_negate Z.opp
| int_add_1 : integer_function integer_add_1 (fun x => x + 1)
| int_subtract_1 : integer_function integer_subtract_1 (fun x => x - 1)
| int_length_in_bits : integer_function integer_length_in_bits (fun x => bit_length (Z.abs x))
| int_length : integer_function integer_length integer_length_of
| int_first_set_bit : integer_function integer_first_set_bit (fun x => if x =? 0 then -1 else trailing_zeros x)
| int_bit_count : integer_function integer_bit_count bit_count_of
| int_not : integer_function integer_bitwise_not Z.lnot.

Definition moderate_bits : Z := 62 * moderate_digits.

Lemma moderate_bits_range : 0 <= moderate_bits < 2 ^ 40.
Proof. pose proof moderate_digits_eq. unfold moderate_bits. lia. Qed.

Lemma moderate_pow z : moderate z <-> Z.abs z < 2 ^ moderate_bits.
Proof.
  pose proof moderate_digits_eq. unfold moderate, moderate_bound, moderate_bits.
  rewrite RADIX_eq, <- Z.pow_mul_r by lia. reflexivity.
Qed.

(** A count of a fixnum's bits is a fixnum. *)
Lemma fixnum_count c : 0 <= c < 2 ^ 57 -> ULONG_TO_FIXNUM c = LONG_TO_FIXNUM c.
Proof.
  intros Hc. rewrite <- LONG_TO_UNSIGNED_FIXNUM_ok by lia. unfold LONG_TO_UNSIGNED_FIXNUM.
  now rewrite to_ulong_small by lia.
Qed.

Lemma fixnum_count_ok c P : 0 <= c <= 64 -> P = canonical c -> returns (Return (Word (ULONG_TO_FIXNUM c))) P.
Proof.
  intros Hc ->. ret_now. rewrite fixnum_count by lia. constructor.
  unfold fixnum_range, SMALLEST_FIXNUM, BIGGEST_FIXNUM. lia.
Qed.

Lemma bits_of_moderate z : moderate z -> 0 <= z ->
  0 <= bit_length z < 2 ^ 40 /\ 0 <= popcount z < 2 ^ 40.
Proof.
  intros Hm%moderate_pow Hz. pose proof moderate_bits_range. rewrite Z.abs_eq in Hm by assumption.
  pose proof (bit_length_le z moderate_bits ltac:(lia) ltac:(lia)). pose proof (bit_length_nonneg z).
  pose proof (popcount_le z moderate_bits ltac:(lia) ltac:(lia)). pose proof (popcount_nonneg z). lia.
Qed.

Lemma trailing_of_moderate z : moderate z -> z <> 0 -> 0 <= trailing_zeros z < 2 ^ 40.
Proof.
  intros Hm%moderate_pow Hz. pose proof moderate_bits_range.
  destruct (trailing_zeros_spec z Hz) as (k & E & Ht). split; [assumption|].
  apply Z.lt_le_trans with (moderate_bits); [|lia]. apply Z.nle_gt. intros H'.
  pose proof (Z.pow_le_mono_r 2 _ _ ltac:(lia) H'). rewrite E in Hm at 1. rewrite Z.abs_mul in Hm.
  rewrite (Z.abs_eq (2 ^ _)) in Hm by (apply Z.pow_nonneg; lia). nia.
Qed.

Lemma moderate_lnot z : moderate z -> z < 0 -> moderate (Z.lnot z).
Proof. unfold moderate, Z.lnot. lia. Qed.

Lemma moderate_abs z : moderate z -> moderate (Z.abs z).
Proof. unfold moderate. now rewrite Z.abs_idemp. Qed.

Lemma word_of_fixnum x : fixnum_range x -> ulong_p (if x <? 0 then - x else x) /\ ulong_p (if x <? 0 then Z.lnot x else x).
Proof.
  unfold fixnum_range, SMALLEST_FIXNUM, BIGGEST_FIXNUM, ulong_p, Z.lnot. destruct (Z.ltb_spec x 0); lia.
Qed.

Lemma word_counts u : ulong_p u -> 0 <= bit_length u <= 64 /\ 0 <= popcount u <= 64.
Proof.
  intros Hu. pose proof (bit_length_le u 64 ltac:(lia) Hu). pose proof (popcount_le u 64 ltac:(lia) Hu).
  pose proof (bit_length_nonneg u). pose proof (popcount_nonneg u). lia.
Qed.

(** The operations that count bits, all of one shape: a count of the bits of
    a word, or of a bignum. *)
Lemma count_operation_ok (F : Z -> Z) fw g x n :
  integer x n ->
  (fixnum_range x -> fw (LONG_TO_FIXNUM x) = Return (Word (ULONG_TO_FIXNUM (F x))) /\ 0 <= F x <= 64) ->
  (forall b, represents x b -> returns (g b) (eq (F x))) -> 0 <= F x < 2 ^ 40 ->
  returns (on_integer fw (fun b => l <- g b ;; ulong_to_integer l) n) (canonical (F x)).
Proof.
  intros Hn Hf Hg HF. apply (on_integer_ok _ _ x); [assumption| |].
  - intros Fx. destruct (Hf Fx) as (-> & B). now apply fixnum_count_ok.
  - intros b Hb. eapply returns_bind; [now apply Hg|]. intros l <-. apply ulong_to_integer_ok. unfold ulong_p. lia.
Qed.

Lemma integer_first_set_bit_ok x n : integer x n -> moderate x ->
  returns (integer_first_set_bit n) (canonical (if x =? 0 then -1 else trailing_zeros x)).
Proof.
  intros Hn Mx. apply (on_integer_ok _ _ x); [assumption| |].
  - intros Fx. cbv zeta. rewrite !FIXNUM_TO_LONG_TO_FIXNUM by assumption.
    assert (E : (if x <? 0 then to_ulong (Z.lnot (to_ulong (Z.lnot x))) else to_ulong x) = to_ulong x).
    { apply fixnum_long in Fx. unfold long_p in Fx. destruct (Z.ltb_spec x 0); [|reflexivity].
      rewrite (to_ulong_small (Z.lnot x)) by (unfold Z.lnot; lia). now rewrite Z.lnot_involutive. }
    rewrite E. destruct (first_set_bit_long x (fixnum_long x Fx)) as [-> B]. ret_now. constructor.
    unfold fixnum_range, SMALLEST_FIXNUM, BIGGEST_FIXNUM. lia.
  - intros b [Hb <-]. ret_step bignum_first_set_bit_ok; [assumption|]. intros i <-. apply long_to_integer_ok.
    unfold long_p. destruct (Z.eqb_spec (value b) 0); [lia|].
    pose proof (trailing_of_moderate (value b) Mx). lia.
Qed.

Lemma integer_bitwise_not_ok x n : canonical x n -> moderate x ->
  returns (integer_bitwise_not n) (canonical (Z.lnot x)).
Proof.
  intros Hn Mx. destruct Hn as [x Fx|x b Hb Nx]; unfold integer_bitwise_not; cbn [on_integer].
  - rewrite FIXNUM_P_LONG_TO_FIXNUM, FIXNUM_TO_LONG_TO_FIXNUM by assumption. ret_now. constructor.
    unfold fixnum_range, SMALLEST_FIXNUM, BIGGEST_FIXNUM, Z.lnot in *. lia.
  - destruct (represents_moderate x b Hb Mx). destruct Hb as [_ <-].
    ret_step bignum_bitwise_not_ok; [assumption|assumption|]. intros r Hr. ret_now. constructor; [assumption|].
    unfold fixnum_range, SMALLEST_FIXNUM, BIGGEST_FIXNUM, Z.lnot in *. lia.
Qed.

(** Adding or subtracting one. *)
Lemma bignum_one_ok f F x b :
  (forall y z, wf y -> wf z -> room y -> room z -> returns (f y z) (represents (F (value y) (value z)))) ->
  represents x b -> moderate x -> large (F x 1) ->
  returns (one <- long_to_bignum 1 ;; r <- f b one ;; bignum_to_integer r) (canonical (F x 1)).
Proof.
  intros Hf Hb Mx L. ret_step long_to_bignum_ok; [unfold long_p; lia|]. intros one Hone.
  destruct (represents_moderate x b Hb Mx), (represents_moderate 1 one Hone ltac:(apply moderate_long; lia)).
  apply reduced_1_ok; [|assumption]. destruct Hb as [_ <-], Hone as [_ <-]. now apply Hf.
Qed.

Lemma integer_function_ok f F x n : integer_function f F -> canonical x n -> moderate x ->
  returns (f n) (canonical (F x)).
Proof.
  intros Hf Hn Mx. pose proof (canonical_integer x n Hn) as Hi.
  destruct Hf; [| | | | |now apply integer_first_set_bit_ok| |now apply integer_bitwise_not_ok].
  1-3: apply (on_integer_ok _ _ x); [assumption|intros Fx|intros b Hb].
  1,3,5: rewrite FIXNUM_TO_LONG_TO_FIXNUM by assumption; apply long_to_integer_ok;
    unfold fixnum_range, SMALLEST_FIXNUM, BIGGEST_FIXNUM, long_p in *; lia.
  - apply reduced_1_ok; [|apply (large_2 _ x x); auto; lia]. destruct Hb as [Hb <-]. now apply bignum_negate_ok.
  - apply (bignum_one_ok bignum_add Z.add); auto using bignum_add_ok. apply (large_2 _ x x); auto; lia.
  - apply (bignum_one_ok bignum_subtract Z.sub); auto using bignum_subtract_ok. apply (large_2 _ x x); auto; lia.
  - apply (count_operation_ok (fun x => bit_length (Z.abs x))); [assumption| | |].
    + intros Fx. destruct (word_of_fixnum x Fx) as [U _]. rewrite FIXNUM_TO_LONG_TO_FIXNUM by assumption. cbv zeta.
      rewrite to_ulong_small, ulong_length_in_bits_spec by exact U.
      replace (if x <? 0 then - x else x) with (Z.abs x) in * by (destruct (Z.ltb_spec x 0); lia).
      split; [reflexivity|now apply word_counts].
    + intros b [Hb <-]. ret_step bignum_length_in_bits_ok; [assumption|]. intros l [-> _]. now rewrite magnitude_abs.
    + apply bits_of_moderate; [now apply moderate_abs|lia].
  - apply (count_operation_ok integer_length_of); [assumption| | |].
    + intros Fx. destruct (word_of_fixnum x Fx) as [_ U]. rewrite FIXNUM_TO_LONG_TO_FIXNUM by assumption. cbv zeta.
      rewrite to_ulong_small, ulong_length_in_bits_spec by exact U. unfold integer_length_of.
      destruct (x <? 0); (split; [reflexivity|now apply word_counts]).
    + intros b [Hb <-]. now apply bignum_integer_length_ok.
    + unfold integer_length_of. destruct (Z.ltb_spec x 0); apply bits_of_moderate; auto using moderate_lnot.
      unfold Z.lnot. lia.
  - apply (count_operation_ok bit_count_of); [assumption| | |].
    + intros Fx. destruct (word_of_fixnum x Fx) as [_ U]. rewrite FIXNUM_TO_LONG_TO_FIXNUM by assumption. cbv zeta.
      rewrite to_ulong_small, ulong_bit_count_spec by exact U. unfold bit_count_of.
      destruct (x <? 0); (split; [reflexivity|now apply word_counts]).
    + intros b Hb. destruct (represents_moderate x b Hb Mx). destruct Hb as [_ <-]. now apply bignum_bit_count_ok.
    + unfold bit_count_of. destruct (Z.ltb_spec x 0); apply bits_of_moderate; auto using moderate_lnot.
      unfold Z.lnot. lia.
Qed.

(** ** Hamming distance *)

Lemma hamming_range x y : moderate x -> moderate y -> -1 <= hamming_distance_of x y < 2 ^ 40.
Proof.
  intros Mx My. unfold hamming_distance_of. destruct (Bool.eqb _ _) eqn:E; [|lia]. apply eqb_prop in E.
  rewrite moderate_pow in *. pose proof moderate_bits_range.
  assert (B : - 2 ^ moderate_bits <= Z.lxor x y < 2 ^ moderate_bits)
    by (apply (bitwise_range Z.lxor); [constructor|lia..]).
  assert (0 <= Z.lxor x y).
  { apply Z.lxor_nonneg. destruct (Z.ltb_spec x 0), (Z.ltb_spec y 0); try discriminate; lia. }
  pose proof (popcount_le (Z.lxor x y) moderate_bits ltac:(lia) ltac:(lia)). pose proof (popcount_nonneg (Z.lxor x y)).
  lia.
Qed.

Lemma hamming_fixnum x y : fixnum_range x -> fixnum_range y ->
  (if Z.lxor x y <? 0 then LONG_TO_FIXNUM (-1) else ULONG_TO_FIXNUM (ulong_bit_count (to_ulong (Z.lxor x y))))
  = LONG_TO_FIXNUM (hamming_distance_of x y).
Proof.
  intros Fx Fy. pose proof (Z.lxor_nonneg x y) as N. unfold hamming_distance_of.
  pose proof (fixnum_bitwise Z.lxor x y fn_xor Fx Fy) as Fz%fixnum_long. unfold long_p in Fz.
  assert (S : Bool.eqb (x <? 0) (y <? 0) = negb (Z.lxor x y <? 0)).
  { destruct (Z.ltb_spec x 0), (Z.ltb_spec y 0), (Z.ltb_spec (Z.lxor x y) 0); cbn; lia. }
  rewrite S. destruct (Z.ltb_spec (Z.lxor x y) 0); cbn [negb]; [reflexivity|].
  rewrite to_ulong_small, ulong_bit_count_spec by (unfold ulong_p; lia).
  apply fixnum_count. pose proof (word_counts (Z.lxor x y)) as W. unfold ulong_p in W. lia.
Qed.

Lemma integer_functional x y n : integer x n -> integer y n -> x = y.
Proof.
  destruct 1 as [x Fx|x b [_ <-]]; intros Hy; inversion Hy as [? Fy E|? ? [_ <-]]; [|reflexivity].
  rewrite <- (FIXNUM_TO_LONG_TO_FIXNUM x Fx), <- (FIXNUM_TO_LONG_TO_FIXNUM y Fy). congruence.
Qed.

Lemma integer_hamming_distance_ok same x y n m :
  integer x n -> integer y m -> moderate x -> moderate y -> (same = true -> n = m) ->
  returns (integer_hamming_distance same n m) (canonical (hamming_distance_of x y)).
Proof.
  intros Hn Hm Mx My Hs. pose proof (hamming_range x y Mx My) as R.
  apply (on_integers_ok _ _ x y); [assumption|assumption| |].
  - intros Fx Fy. rewrite !FIXNUM_TO_LONG_TO_FIXNUM by assumption. cbv zeta.
    rewrite hamming_fixnum by assumption. ret_now. constructor.
    unfold fixnum_range, SMALLEST_FIXNUM, BIGGEST_FIXNUM. lia.
  - intros b c Hb Hc. destruct (represents_moderate x b Hb Mx), (represents_moderate y c Hc My).
    destruct Hb as [_ <-], Hc as [_ <-]. ret_step bignum_hamming_distance_ok; [assumption..| |].
    + intros E. apply value_inj; [assumption..|]. apply integer_functional with n; [assumption|].
      destruct same; [|discriminate]. now rewrite Hs.
    + intros d <-. apply long_to_integer_ok. unfold long_p. lia.
Qed.

(** ** Shifts *)

Lemma shift_bounds u m : 0 <= u -> 0 <= m ->
  let l := bit_length u in
  (m + l <= FIXNUM_LENGTH -> (u + 1) * 2 ^ m <= 2 ^ 57) /\ (FIXNUM_LENGTH < m + l -> 0 < u -> 2 ^ 57 <= u * 2 ^ m).
Proof.
  intros Hu Hm l. subst l. unfold FIXNUM_LENGTH. pose proof (Z.pow_pos_nonneg 2 m ltac:(lia) Hm) as P.
  destruct (Z.eq_dec u 0) as [->|].
  - change (bit_length 0) with 0. split; [|lia]. intros. pose proof (Z.pow_le_mono_r 2 m 57). lia.
  - pose proof (bit_length_spec u ltac:(lia)). pose proof (bit_length_pos u ltac:(lia)). split; intros.
    + apply Z.le_trans with (2 ^ (bit_length u + m)); [|apply Z.pow_le_mono_r; lia].
      rewrite Z.pow_add_r by lia. nia.
    + apply Z.le_trans with (2 ^ (bit_length u - 1 + m)); [apply Z.pow_le_mono_r; lia|].
      rewrite Z.pow_add_r by lia. nia.
Qed.

Lemma long_shift_left_ok x m : 0 <= m < LONG_BITS -> 0 <= x * 2 ^ m < 2 ^ 63 ->
  long_shift_left x m = Return (x * 2 ^ m).
Proof.
  unfold long_shift_left. intros Hm Hx. destruct (Z.ltb_spec m LONG_BITS); [|lia].
  rewrite Z.shiftl_mul_pow2 by lia. rewrite to_long_small by lia. reflexivity.
Qed.

Lemma moderate_bits_max k : k <= moderate_bits -> 0 <= k -> k <= 62 * (BIGNUM_LENGTH_MAX - 4).
Proof. intros. pose proof moderate_bits_range. pose proof LENGTH_MAX_large. lia. Qed.

Lemma fixnum_shift_left_ok x m : fixnum_range x -> 0 < m <= moderate_bits ->
  returns (integer_shift_left (Word (LONG_TO_FIXNUM x)) m) (canonical (x * 2 ^ m)).
Proof.
  intros Fx Hm. pose proof moderate_bits_range. pose proof LENGTH_MAX_large.
  pose proof (Z.pow_pos_nonneg 2 m ltac:(lia) ltac:(lia)) as P.
  unfold integer_shift_left. destruct (Z.eqb_spec m 0); [lia|]. cbn [on_integer].
  rewrite FIXNUM_P_LONG_TO_FIXNUM, FIXNUM_TO_LONG_TO_FIXNUM by assumption. cbv zeta.
  unfold fixnum_range, SMALLEST_FIXNUM, BIGGEST_FIXNUM in Fx.
  destruct (Z.ltb_spec x 0); [|destruct (Z.ltb_spec 0 x)].
  - assert (U : ulong_p (Z.lnot x)) by (unfold ulong_p, Z.lnot; lia).
    rewrite (to_ulong_small (Z.lnot x)), ulong_length_in_bits_spec by exact U.
    pose proof (word_counts _ U) as [L _]. rewrite (to_ulong_small (m + _)) by lia.
    destruct (shift_bounds (Z.lnot x) m) as [S1 S2]; [unfold Z.lnot; lia..|]. cbv zeta in *.
    replace (Z.lnot x + 1) with (- x) in S1 by (unfold Z.lnot; lia).
    destruct (Z.leb_spec (m + bit_length (Z.lnot x)) FIXNUM_LENGTH) as [Le|Gt]; [specialize (S1 Le)|].
    + rewrite long_shift_left_ok by (unfold FIXNUM_LENGTH, LONG_BITS, SIZEOF_LONG, CHAR_BIT in *; nia).
      cbn [bind]. ret_now. replace (- (- x * 2 ^ m)) with (x * 2 ^ m) by lia. constructor.
      unfold fixnum_range, SMALLEST_FIXNUM, BIGGEST_FIXNUM. nia.
    + rewrite to_ulong_small by lia. ret_step unsigned_long_to_shifted_bignum_ok; [unfold ulong_p; lia|lia|].
      intros r Hr. cbn [negb] in Hr. rewrite Z.shiftl_mul_pow2 in Hr by lia. destruct Hr as [Wr Vr].
      ret_step bignum_negate_ok; [assumption|]. intros r' Hr'. ret_now. rewrite Vr in Hr'.
      replace (- (- x * 2 ^ m)) with (x * 2 ^ m) in Hr' by lia. constructor; [assumption|].
      unfold fixnum_range, SMALLEST_FIXNUM. destruct (Z.eq_dec x (-1)) as [->|].
      * change (bit_length (Z.lnot (-1))) with 0 in Gt. unfold FIXNUM_LENGTH in Gt.
        pose proof (Z.pow_le_mono_r 2 58 m). lia.
      * specialize (S2 Gt). unfold Z.lnot in *. nia.
  - assert (U : ulong_p x) by (unfold ulong_p; lia).
    rewrite !(to_ulong_small x), ulong_length_in_bits_spec by exact U.
    pose proof (word_counts _ U) as [L _]. rewrite (to_ulong_small (m + _)) by lia.
    destruct (shift_bounds x m) as [S1 S2]; [lia..|]. cbv zeta in *.
    destruct (Z.leb_spec (m + bit_length x) FIXNUM_LENGTH) as [Le|Gt]; [specialize (S1 Le)|specialize (S2 Gt)].
    + rewrite long_shift_left_ok by (unfold FIXNUM_LENGTH, LONG_BITS, SIZEOF_LONG, CHAR_BIT in *; nia).
      cbn [bind]. ret_now. constructor. unfold fixnum_range, SMALLEST_FIXNUM, BIGGEST_FIXNUM. nia.
    + ret_step unsigned_long_to_shifted_bignum_ok; [exact U|lia|]. intros r Hr.
      rewrite Z.shiftl_mul_pow2 in Hr by lia. ret_now. constructor; [assumption|].
      unfold fixnum_range, BIGGEST_FIXNUM. lia.
  - assert (x = 0) as -> by lia. ret_now. now constructor.
Qed.

Lemma integer_shift_left_ok x n m : canonical x n -> moderate x -> 0 <= m <= moderate_bits ->
  returns (integer_shift_left n m) (canonical (x * 2 ^ m)).
Proof.
  intros Hn Mx Hm. destruct (Z.eq_dec m 0) as [->|].
  { unfold integer_shift_left. rewrite Z.eqb_refl. ret_now. now rewrite Z.mul_1_r. }
  destruct Hn as [x Fx|x b Hb Nx]; [apply fixnum_shift_left_ok; [assumption|lia]|].
  unfold integer_shift_left. destruct (Z.eqb_spec m 0); [lia|]. cbn [on_integer]. destruct Hb as [Wb <-].
  pose proof (moderate_length b Wb Mx). pose proof moderate_digits_eq. pose proof moderate_bits_range.
  pose proof LENGTH_MAX_large.
  ret_step bignum_shift_left_ok; [assumption|lia|lia|]. intros r Hr. rewrite Z.shiftl_mul_pow2 in Hr by lia.
  ret_now. constructor; [assumption|]. pose proof (Z.pow_pos_nonneg 2 m ltac:(lia) ltac:(lia)).
  unfold fixnum_range, SMALLEST_FIXNUM, BIGGEST_FIXNUM in *. nia.
Qed.

Lemma shiftr_abs x m : 0 <= m -> Z.abs (Z.shiftr x m) <= Z.abs x.
Proof.
  intros Hm. rewrite Z.shiftr_div_pow2 by assumption. pose proof (Z.pow_pos_nonneg 2 m ltac:(lia) Hm).
  pose proof (Z.div_mod x (2 ^ m) ltac:(lia)). pose proof (Z.mod_pos_bound x (2 ^ m) ltac:(lia)). nia.
Qed.

Lemma shiftr_sign x m : 0 <= m -> - 2 ^ m <= x < 2 ^ m -> Z.shiftr x m = if x <? 0 then -1 else 0.
Proof.
  intros Hm Hx. destruct (proj1 (sign_extension m x Hm) Hx) as [E|E]; rewrite E;
    pose proof (Z.shiftr_nonneg x m); destruct (Z.ltb_spec x 0); lia.
Qed.

Lemma integer_shift_right_ok x n m : canonical x n -> moderate x -> 0 <= m ->
  returns (integer_shift_right n m) (canonical (Z.shiftr x m)).
Proof.
  intros Hn Mx Hm. unfold integer_shift_right. destruct (Z.eqb_spec m 0) as [->|]; [now ret_now|].
  pose proof (shiftr_abs x m Hm) as A. apply (on_integer_ok _ _ x); [auto| |].
  - intros Fx. rewrite FIXNUM_TO_LONG_TO_FIXNUM by assumption. cbv zeta. ret_now.
    match goal with |- canonical _ (Word (LONG_TO_FIXNUM ?z)) => replace z with (Z.shiftr x m) end.
    + constructor. unfold fixnum_range, SMALLEST_FIXNUM, BIGGEST_FIXNUM in *. pose proof (Z.shiftr_nonneg x m). 
      destruct (Z.eq_dec x SMALLEST_FIXNUM); unfold SMALLEST_FIXNUM in *; lia.
    + destruct (Z.geb_spec m (CHAR_BIT * SIZEOF_LONG)) as [G|G].
      * apply shiftr_sign; [assumption|]. pose proof (Z.pow_le_mono_r 2 64 m ltac:(lia) G).
        unfold fixnum_range, SMALLEST_FIXNUM, BIGGEST_FIXNUM in Fx. lia.
      * destruct (x <? 0); [|reflexivity]. now rewrite Z.lnot_shiftr, Z.lnot_involutive.
  - intros b Hb. destruct (represents_moderate x b Hb Mx). apply reduced_1_ok; [|apply (large_2 _ x x); auto; lia].
    destruct Hb as [_ <-]. now apply bignum_shift_right_ok.
Qed.

(** ** Runs of one bits *)

Lemma ones_in_word n m : 0 < n -> 0 <= m -> n + m <= FIXNUM_LENGTH ->
  (x <- ulong_shift_left (to_ulong (Z.lnot 0)) n ;; ulong_shift_left (to_ulong (Z.lnot x)) m)
  = Return ((2 ^ n - 1) * 2 ^ m) /\ 0 <= (2 ^ n - 1) * 2 ^ m < 2 ^ 57.
Proof.
  unfold FIXNUM_LENGTH. intros Hn Hm H. unfold ulong_shift_left. change LONG_BITS with 64.
  destruct (Z.ltb_spec n 64), (Z.ltb_spec m 64); try lia. cbn [bind].
  assert (P : 2 ^ n * 2 ^ m = 2 ^ (n + m)) by (rewrite Z.pow_add_r by lia; reflexivity).
  pose proof (Z.pow_le_mono_r 2 (n + m) 57 ltac:(lia) ltac:(lia)).
  pose proof (Z.pow_pos_nonneg 2 n ltac:(lia) ltac:(lia)). pose proof (Z.pow_pos_nonneg 2 m ltac:(lia) Hm).
  assert (E : to_ulong (Z.lnot (to_ulong (Z.shiftl (to_ulong (Z.lnot 0)) n))) = 2 ^ n - 1).
  { rewrite Z.shiftl_mul_pow2 by lia. change (to_ulong (Z.lnot 0)) with (2 ^ 64 - 1).
    replace (to_ulong ((2 ^ 64 - 1) * 2 ^ n)) with (2 ^ 64 - 2 ^ n).
    - unfold Z.lnot, to_ulong. symmetry. apply Z.mod_unique with (-1); nia.
    - unfold to_ulong. apply Z.mod_unique with (2 ^ n - 1); nia. }
  rewrite E, Z.shiftl_mul_pow2, to_ulong_small by nia. split; [reflexivity|nia].
Qed.

Lemma integer_ones_ok n m : 0 <= n -> 0 <= m -> n + m <= moderate_bits ->
  returns (integer_nonnegative_one_bits n m) (canonical ((2 ^ n - 1) * 2 ^ m)) /\
  returns (integer_negative_zero_bits n m) (canonical (Z.lnot ((2 ^ n - 1) * 2 ^ m))).
Proof.
  intros Hn Hm H. pose proof moderate_bits_range as MB. pose proof (moderate_bits_max (n + m) H ltac:(lia)) as MM.
  unfold integer_nonnegative_one_bits, integer_negative_zero_bits.
  destruct (Z.eqb_spec n 0) as [->|]; [split; ret_now; now constructor|].
  rewrite to_ulong_small by lia. pose proof (Z.pow_pos_nonneg 2 n ltac:(lia) ltac:(lia)).
  pose proof (Z.pow_pos_nonneg 2 m ltac:(lia) Hm). destruct (Z.leb_spec (n + m) FIXNUM_LENGTH) as [Le|Gt].
  - destruct (ones_in_word n m) as [E B]; [lia..|]. set (z := (2 ^ n - 1) * 2 ^ m) in *. clearbody z.
    rewrite <- !bind_assoc, E. cbn [bind]. split; ret_now.
    + rewrite fixnum_count by lia. constructor.
      unfold fixnum_range, SMALLEST_FIXNUM, BIGGEST_FIXNUM. lia.
    + rewrite to_long_small by lia. constructor. unfold fixnum_range, SMALLEST_FIXNUM, BIGGEST_FIXNUM, Z.lnot. lia.
  - assert (B : 2 ^ 57 <= (2 ^ n - 1) * 2 ^ m < 2 ^ moderate_bits).
    { unfold FIXNUM_LENGTH in Gt. split.
      - apply Z.le_trans with (2 ^ (n - 1 + m)); [apply Z.pow_le_mono_r; lia|]. rewrite Z.pow_add_r by lia.
        apply Z.mul_le_mono_nonneg_r; [lia|]. pose proof (Z.pow_pos_nonneg 2 (n - 1)).
        replace n with (1 + (n - 1)) at 2 by lia. rewrite Z.pow_add_r by lia. change (2 ^ 1) with 2. lia.
      - apply Z.lt_le_trans with (2 ^ (n + m)); [rewrite Z.pow_add_r by lia; nia|apply Z.pow_le_mono_r; lia]. }
    set (z := (2 ^ n - 1) * 2 ^ m) in *.
    assert (S : returns (bignum_nonnegative_one_bits n m) (represents z))
      by (apply bignum_nonnegative_one_bits_ok; lia).
    clearbody z. split.
    + eapply returns_bind; [exact S|]. intros r Hr. ret_now. constructor; [assumption|].
      unfold fixnum_range, BIGGEST_FIXNUM. lia.
    + unfold bignum_negative_zero_bits. rewrite bind_assoc. eapply returns_bind; [exact S|]. intros r Hr.
      destruct (represents_moderate z r Hr) as [Wr Rr]; [apply moderate_pow; lia|]. destruct Hr as [_ <-].
      ret_step bignum_bitwise_not_ok; [assumption|assumption|]. intros r' Hr'. ret_now. constructor; [assumption|].
      unfold fixnum_range, SMALLEST_FIXNUM, Z.lnot. lia.
Qed.

(** ** Conversions to machine words, and the decoding of arguments *)

(** What [bignum_fits_in_word_p] accepts as a [long]. *)
Definition long_accepted (z : Z) : Prop := - accepted_low 63 < z < 2 ^ 63.

Lemma integer_to_long_ok x n : integer x n -> moderate x ->
  returns (integer_to_long_p n) (fun r => r = true <-> long_accepted x) /\
  returns (integer_to_long n) (eq (to_long x)).
Proof.
  intros Hn Mx. pose proof moderate_digits_eq. split.
  - apply (on_integer_ok _ _ x); [assumption|intros Fx|intros b [Wb <-]].
    + ret_now. apply fixnum_long in Fx. unfold long_p, long_accepted in *. change (accepted_low 63) with (2 ^ 63 + 2 ^ 62).
      split; [lia|reflexivity].
    + pose proof (moderate_length b Wb Mx). apply (bignum_fits_in_word_p_signed_ok b 64); [assumption|lia|now vm_compute|lia].
  - apply (on_integer_ok _ _ x); [assumption|intros Fx|intros b [Wb <-]]; ret_now.
    + rewrite FIXNUM_TO_LONG_TO_FIXNUM by assumption. now apply to_long_small, fixnum_long.
    + now rewrite bignum_to_long_ok.
Qed.

Lemma integer_to_ulong_ok x n : integer x n -> moderate x ->
  returns (integer_to_ulong_p n) (fun r => r = true <-> ulong_p x) /\
  (ulong_p x -> returns (integer_to_ulong n) (eq x)).
Proof.
  intros Hn Mx. pose proof moderate_digits_eq. unfold ulong_p. split.
  - apply (on_integer_ok _ _ x); [assumption|intros Fx|intros b [Wb <-]].
    + ret_now. rewrite FIXNUM_NEGATIVE_P_ok by assumption. apply fixnum_long in Fx. unfold long_p in Fx. lia.
    + pose proof (moderate_length b Wb Mx). apply (bignum_fits_in_word_p_unsigned_ok b 64); [assumption|lia|lia].
  - intros U. apply (on_integer_ok _ _ x); [assumption|intros Fx|intros b [Wb <-]].
    + ret_now. rewrite FIXNUM_TO_LONG_TO_FIXNUM by assumption. now rewrite to_ulong_small.
    + ret_step bignum_to_ulong_ok; [assumption|lia|]. intros u <-. now rewrite to_ulong_small.
Qed.

Lemma INTEGER_P_ok x n : integer x n -> INTEGER_P n = true.
Proof. destruct 1; [|reflexivity]. unfold INTEGER_P. cbn [fixnum_object_p]. now rewrite FIXNUM_P_LONG_TO_FIXNUM. Qed.

(** ** Properties *)

(** Every generic unary operation (negate, add-1, subtract-1, length-in-bits, length, first-set-bit,
    bit-count, bitwise-not) computes its function on Z and returns the canonical object. *)
Theorem integer_functions_correct f F x n : integer_function f F -> canonical x n -> moderate x ->
  exists r, f n = Return r /\ canonical (F x) r /\ forall r', canonical (F x) r' -> r' = r.
Proof.
  intros Hf Hn Mx. destruct (integer_function_ok f F x n Hf Hn Mx) as (r & E & Hr).
  exists r. split; [exact E|]. split; [exact Hr|]. intros r' Hr'. now apply canonical_unique with (F x).
Qed.

(** Integer_shift_left multiplies by a power of two and integer_shift_right is the floor of the division
    by one, with canonical results, for every shift amount within range. *)
Theorem integer_shifts_correct x n m : canonical x n -> moderate x -> 0 <= m <= moderate_bits ->
  returns (integer_shift_left n m) (canonical (x * 2 ^ m)) /\
  returns (integer_shift_right n m) (canonical (x / 2 ^ m)).
Proof.
  intros Hn Mx Hm. split; [now apply integer_shift_left_ok|]. rewrite <- Z.shiftr_div_pow2 by lia.
  apply integer_shift_right_ok; [assumption|assumption|lia].
Qed.

(** The generic comparisons and sign tests agree with those on Z for any mixture of fixnums and bignums,
    canonical or not. *)
Theorem integer_predicates_correct x y n m : integer x n -> integer y m ->
  integer_equal_p n m = Return (x =? y) /\ integer_less_p n m = Return (x <? y) /\
  integer_zero_p n = Return (x =? 0) /\ integer_negative_p n = Return (x <? 0) /\
  integer_positive_p n = Return (0 <? x).
Proof.
  intros Hn Hm.
  assert (R : forall (m : outcome bool) b, returns m (eq b) -> m = Return b) by (intros ? ? (a & -> & <-); reflexivity).
  pose proof (fun f F T => R _ _ (integer_comparison_ok f F x y n m T Hn Hm)) as C.
  pose proof (fun f F T => R _ _ (integer_test_ok f F x n T Hn)) as T.
  split; [exact (C _ _ int_equal)|]. split; [exact (C _ _ int_less)|].
  split; [exact (T _ _ int_zero)|]. split; [exact (T _ _ int_negative)|exact (T _ _ int_positive)].
Qed.

(** Long_to_integer and ulong_to_integer give the canonical object of a machine integer, which
    integer_to_long and integer_to_ulong convert back; the unsigned test is exact. *)
Theorem integer_word_conversions :
  (forall z, long_p z -> exists n, long_to_integer z = Return n /\ canonical z n /\
     integer_to_long_p n = Return true /\ integer_to_long n = Return z) /\
  (forall z, ulong_p z -> exists n, ulong_to_integer z = Return n /\ canonical z n /\
     integer_to_ulong_p n = Return true /\ integer_to_ulong n = Return z) /\
  (forall z n, integer z n -> moderate z -> returns (integer_to_ulong_p n) (fun r => r = true <-> ulong_p z)).
Proof.
  split; [|split].
  - intros z Hz. destruct (long_to_integer_ok z Hz) as (n & E & Hn). exists n. unfold long_p in Hz.
    destruct (integer_to_long_ok z n (canonical_integer z n Hn)) as [(r & P & R) (l & L & <-)]; [apply moderate_long; lia|].
    rewrite P, L, to_long_small by lia. split; [exact E|]. split; [exact Hn|]. split; [|reflexivity]. f_equal. apply R.
    unfold long_accepted. change (accepted_low 63) with (2 ^ 63 + 2 ^ 62). lia.
  - intros z Hz. destruct (ulong_to_integer_ok z Hz) as (n & E & Hn). exists n.
    assert (M : moderate z) by (unfold ulong_p in Hz; apply moderate_long; lia).
    destruct (integer_to_ulong_ok z n (canonical_integer z n Hn) M) as [(r & P & R) U]. destruct (U Hz) as (l & L & <-).
    rewrite P, L. split; [exact E|]. split; [exact Hn|]. split; [|reflexivity]. f_equal. now apply R.
  - intros z n Hn M. now apply integer_to_ulong_ok.
Qed.

(** Integer_nonnegative_one_bits and integer_negative_zero_bits build runs of one or zero bits, in a
    word when they fit in a fixnum and as bignums otherwise. *)
Theorem runs_of_bits_correct n m : 0 <= n -> 0 <= m -> n + m <= moderate_bits ->
  returns (integer_nonnegative_one_bits n m) (canonical ((2 ^ n - 1) * 2 ^ m)) /\
  returns (integer_negative_zero_bits n m) (canonical (- ((2 ^ n - 1) * 2 ^ m) - 1)).
Proof.
  intros Hn Hm H. destruct (integer_ones_ok n m Hn Hm H) as [P Q]. split; [exact P|].
  eapply returns_weaken; [exact Q|]. cbv beta. intros r. unfold Z.lnot. now replace (Z.pred (- _)) with (- ((2 ^ n - 1) * 2 ^ m) - 1) by lia.
Qed.

(** C17: every generic binary operation on exact integers (add, subtract, multiply and the ten bitwise
    operations) computes the operation on Z and returns the canonical object, across the fixnum/bignum
    border. *)
Theorem integer_operations_correct f F x y n m : integer_operation f F ->
  integer x n -> integer y m -> moderate x -> moderate y ->
  exists r, f n m = Return r /\ canonical (F x y) r /\ forall r', canonical (F x y) r' -> r' = r.
Proof.
  intros Hop Hn Hm Mx My. destruct (integer_operation_ok f F x y n m Hop Hn Hm Mx My) as (r & E & Hr).
  exists r. split; [exact E|]. split; [exact Hr|]. intros r' Hr'. now apply canonical_unique with (F x y).
Qed.

Lemma integer_operations_correct_witness :
  exists r, integer_multiply (Word (LONG_TO_FIXNUM (2 ^ 56))) (Word (LONG_TO_FIXNUM (-2))) = Return r /\
    canonical (2 ^ 56 * -2) r /\ forall r', canonical (2 ^ 56 * -2) r' -> r' = r.
Proof.
  apply (integer_operations_correct integer_multiply Z.mul (2 ^ 56) (-2));
    [constructor|constructor; vm_compute; split; discriminate|constructor; vm_compute; split; discriminate
    |apply moderate_long; lia|apply moderate_long; lia].
Defined.

(** C39: integer_divide, integer_quotient and integer_remainder truncate towards zero, agree with one
    another, and signal a zero divisor, for fixnum and bignum operands. *)
Theorem integer_division_correct x y n m : integer x n -> integer y m -> moderate x ->
  if y =? 0
  then integer_divide n m = Return None /\ integer_quotient n m = Return (Word SHARP_F)
       /\ integer_remainder n m = Return (Word SHARP_F)
  else exists q r, integer_divide n m = Return (Some (q, r)) /\ integer_quotient n m = Return q /\
         integer_remainder n m = Return r /\ canonical (Z.quot x y) q /\ canonical (Z.rem x y) r.
Proof.
  intros Hn Hm Mx. destruct (integer_divide_ok x y n m Hn Hm Mx) as (o & E & Ho).
  destruct (integer_quotient_ok x y n m Hn Hm Mx) as (q & Eq & Hq).
  destruct (integer_remainder_ok x y n m Hn Hm Mx) as (r & Er & Hr).
  unfold integer_quotient_and_remainder, quotient_or_false in *. rewrite E, Eq, Er. destruct (y =? 0).
  - subst. now split.
  - destruct Ho as (q' & r' & -> & Hq' & Hr'). exists q', r'. 
    rewrite (canonical_unique _ _ _ Hq Hq'), (canonical_unique _ _ _ Hr Hr'). auto.
Qed.

Lemma integer_division_correct_witness :
  let x := -7 in let y := 2 ^ 62 in
  let n := Word (LONG_TO_FIXNUM x) in let m := Big (Bignum false [0; 1]) in
  if y =? 0
  then integer_divide n m = Return None /\ integer_quotient n m = Return (Word SHARP_F)
       /\ integer_remainder n m = Return (Word SHARP_F)
  else exists q r, integer_divide n m = Return (Some (q, r)) /\ integer_quotient n m = Return q /\
         integer_remainder n m = Return r /\ canonical (Z.quot x y) q /\ canonical (Z.rem x y) r.
Proof.
  cbv zeta. apply integer_division_correct;
    [constructor; vm_compute; split; discriminate|constructor; split; [wf_now|vm_compute; reflexivity]
    |apply moderate_long; lia].
Defined.
