(* ===== verification/IntPrim.v ===== *)
(** * intprm.c, bigprm.c, utils.c: the primitives on exact integers

    The primitive procedures of intprm.c and bigprm.c (those that do not
    involve flonums), and the functions of utils.c that decode an integer
    argument.  C leaves open in which order two arguments of a call are
    decoded; here it is left to right. *)

From Stdlib Require Import ZArith List Bool Lia.
From S2P Require Import Prelude Bits Object Bignum BignumAdd BignumMul BignumDiv BignumBits BignumConv.
From S2P Require Import Primitive Fixnum Integer.
Import ListNotations.

#[local] Open Scope Z_scope.
#[local] Open Scope primitive_scope.

(** ** utils.c: integer arguments *)

Definition arg_integer (arg_number : Z) (object : scheme_object) : primitive Z :=
  require (INTEGER_P object) (error_wrong_type_arg arg_number) ;;
  ok <- call (integer_to_long_p object) ;;
  require ok (error_bad_range_arg arg_number) ;;
  call (integer_to_long object).

Definition arg_nonnegative_integer (arg_number : Z) (object : scheme_object) : primitive Z :=
  result <- arg_integer arg_number object ;;
  require (negb (result <? 0)) (error_bad_range_arg arg_number) ;;
  PRIMITIVE_RETURN result.

Definition arg_index_integer (arg_number upper_limit : Z) (object : scheme_object) : primitive Z :=
  result <- arg_integer arg_number object ;;
  require (negb ((result <? 0) || (result >=? upper_limit))) (error_bad_range_arg arg_number) ;;
  PRIMITIVE_RETURN result.

Definition arg_integer_in_range (arg_number lower_limit upper_limit : Z) (object : scheme_object) : primitive Z :=
  result <- arg_integer arg_number object ;;
  require (negb ((result <? lower_limit) || (result >=? upper_limit))) (error_bad_range_arg arg_number) ;;
  PRIMITIVE_RETURN result.

Definition arg_ulong_integer (arg_number : Z) (object : scheme_object) : primitive Z :=
  require (INTEGER_P object) (error_wrong_type_arg arg_number) ;;
  ok <- call (integer_to_ulong_p object) ;;
  require ok (error_bad_range_arg arg_number) ;;
  call (integer_to_ulong object).

Definition arg_ulong_index_integer (arg_number upper_limit : Z) (object : scheme_object) : primitive Z :=
  result <- arg_ulong_integer arg_number object ;;
  require (negb (result >=? upper_limit)) (error_bad_range_arg arg_number) ;;
  PRIMITIVE_RETURN result.

Definition arg_ulong_integer_in_range (arg_number lower_limit upper_limit : Z) (object : scheme_object) : primitive Z :=
  result <- arg_ulong_integer arg_number object ;;
  require ((result >=? lower_limit) && (result <? upper_limit)) (error_bad_range_arg arg_number) ;;
  PRIMITIVE_RETURN result.

(** ** intprm.c *)

Definition boolean (b : bool) : scheme_object := Word (BOOLEAN_TO_OBJECT b).

Definition INTEGER_TEST (test : scheme_object -> outcome bool) (a1 : scheme_object) : primitive scheme_object :=
  CHECK_ARG 1 INTEGER_P a1 ;;
  b <- call (test a1) ;; PRIMITIVE_RETURN (boolean b).

Definition Prim_integer_zero_p := INTEGER_TEST integer_zero_p.
Definition Prim_integer_negative_p := INTEGER_TEST integer_negative_p.
Definition Prim_integer_positive_p := INTEGER_TEST integer_positive_p.

Definition INTEGER_COMPARISON (comparison : scheme_object -> scheme_object -> outcome bool)
    (a1 a2 : scheme_object) : primitive scheme_object :=
  CHECK_ARG 1 INTEGER_P a1 ;; CHECK_ARG 2 INTEGER_P a2 ;;
  b <- call (comparison a1 a2) ;; PRIMITIVE_RETURN (boolean b).

Definition Prim_integer_equal_p := INTEGER_COMPARISON integer_equal_p.
Definition Prim_integer_less_p := INTEGER_COMPARISON integer_less_p.
Definition Prim_integer_greater_p := INTEGER_COMPARISON (fun x y => integer_less_p y x).

Definition INTEGER_BINARY_OPERATION (operator : scheme_object -> scheme_object -> outcome scheme_object)
    (a1 a2 : scheme_object) : primitive scheme_object :=
  CHECK_ARG 1 INTEGER_P a1 ;; CHECK_ARG 2 INTEGER_P a2 ;; call (operator a1 a2).

Definition Prim_integer_add := INTEGER_BINARY_OPERATION integer_add.
Definition Prim_integer_subtract := INTEGER_BINARY_OPERATION integer_subtract.
Definition Prim_integer_multiply := INTEGER_BINARY_OPERATION integer_multiply.
Definition Prim_integer_hamming_distance (same_object : bool) :=
  INTEGER_BINARY_OPERATION (integer_hamming_distance same_object).
Definition Prim_integer_bitwise_and := INTEGER_BINARY_OPERATION integer_bitwise_and.
Definition Prim_integer_bitwise_andc2 := INTEGER_BINARY_OPERATION integer_bitwise_andc2.
Definition Prim_integer_bitwise_andc1 := INTEGER_BINARY_OPERATION integer_bitwise_andc1.
Definition Prim_integer_bitwise_xor := INTEGER_BINARY_OPERATION integer_bitwise_xor.
Definition Prim_integer_bitwise_ior := INTEGER_BINARY_OPERATION integer_bitwise_ior.
Definition Prim_integer_bitwise_nor := INTEGER_BINARY_OPERATION integer_bitwise_nor.
Definition Prim_integer_bitwise_eqv := INTEGER_BINARY_OPERATION integer_bitwise_eqv.
Definition Prim_integer_bitwise_orc2 := INTEGER_BINARY_OPERATION integer_bitwise_orc2.
Definition Prim_integer_bitwise_orc1 := INTEGER_BINARY_OPERATION integer_bitwise_orc1.
Definition Prim_integer_bitwise_nand := INTEGER_BINARY_OPERATION integer_bitwise_nand.

Definition INTEGER_UNARY_OPERATION (operator : scheme_object -> outcome scheme_object)
    (a1 : scheme_object) : primitive scheme_object :=
  CHECK_ARG 1 INTEGER_P a1 ;; call (operator a1).

Definition Prim_integer_negate := INTEGER_UNARY_OPERATION integer_negate.
Definition Prim_integer_add_1 := INTEGER_UNARY_OPERATION integer_add_1.
Definition Prim_integer_subtract_1 := INTEGER_UNARY_OPERATION integer_subtract_1.
Definition Prim_integer_length_in_bits := INTEGER_UNARY_OPERATION integer_length_in_bits.
Definition Prim_integer_length := INTEGER_UNARY_OPERATION integer_length.
Definition Prim_integer_first_set_bit := INTEGER_UNARY_OPERATION integer_first_set_bit.
Definition Prim_integer_bit_count := INTEGER_UNARY_OPERATION integer_bit_count.
Definition Prim_integer_bitwise_not := INTEGER_UNARY_OPERATION integer_bitwise_not.

Definition Prim_integer_divide (a1 a2 : scheme_object) : primitive scheme_object :=
  CHECK_ARG 1 INTEGER_P a1 ;; CHECK_ARG 2 INTEGER_P a2 ;;
  qr <- call (integer_divide a1 a2) ;;
  match qr with
  | None => error_bad_range_arg 2
  | Some (quotient, remainder) => PRIMITIVE_RETURN (Pair quotient remainder)
  end.

Definition sharp_f_p (object : scheme_object) : bool :=
  match object with Word w => w =? SHARP_F | _ => false end.

Definition INTEGER_QR (operator : scheme_object -> scheme_object -> outcome scheme_object)
    (a1 a2 : scheme_object) : primitive scheme_object :=
  CHECK_ARG 1 INTEGER_P a1 ;; CHECK_ARG 2 INTEGER_P a2 ;;
  result <- call (operator a1 a2) ;;
  if sharp_f_p result then error_bad_range_arg 2 else PRIMITIVE_RETURN result.

Definition Prim_integer_quotient := INTEGER_QR integer_quotient.
Definition Prim_integer_remainder := INTEGER_QR integer_remainder.

Definition Prim_integer_p (a1 : scheme_object) : primitive scheme_object :=
  PRIMITIVE_RETURN (boolean (INTEGER_P a1)).

Definition Prim_integer_nonnegative_one_bits (a1 a2 : scheme_object) : primitive scheme_object :=
  n <- arg_ulong_integer 1 a1 ;; m <- arg_ulong_integer 2 a2 ;; call (integer_nonnegative_one_bits n m).

Definition Prim_integer_negative_zero_bits (a1 a2 : scheme_object) : primitive scheme_object :=
  n <- arg_ulong_integer 1 a1 ;; m <- arg_ulong_integer 2 a2 ;; call (integer_negative_zero_bits n m).

Definition Prim_integer_shift_left (a1 a2 : scheme_object) : primitive scheme_object :=
  CHECK_ARG 1 INTEGER_P a1 ;;
  m <- arg_ulong_integer 2 a2 ;; call (integer_shift_left a1 m).

Definition Prim_integer_shift_right (a1 a2 : scheme_object) : primitive scheme_object :=
  CHECK_ARG 1 INTEGER_P a1 ;;
  match a2 with
  | Word m =>
      if FIXNUM_P m
      then if FIXNUM_NEGATIVE_P m then error_bad_range_arg 2
           else call (integer_shift_right a1 (FIXNUM_TO_ULONG m))
      else error_wrong_type_arg 2
  | Big m =>
      if OBJECT_BIGNUM_NEGATIVE_P m then error_bad_range_arg 2
      else PRIMITIVE_RETURN (Word FIXNUM_ZERO)
  | Pair _ _ => error_wrong_type_arg 2
  end.

(** The producer reads the next digit of the list, whose pairs have been
    checked and counted before it is called. *)
Definition list_to_integer_producer (digits : scheme_object) : Z * scheme_object :=
  match digits with
  | Pair (Word digit) rest => (to_uint (UNSIGNED_FIXNUM_TO_LONG digit), rest)
  | _ => (0, digits)
  end.

Definition object_to_boolean (object : scheme_object) : bool := negb (sharp_f_p object).

(** The scan that checks and counts the digits, in an [unsigned int]. *)
Fixpoint scan_digits (radix : Z) (scan : scheme_object) (n_digits : Z) : primitive Z :=
  match scan with
  | Pair digit rest =>
      match digit with
      | Word d =>
          require (UNSIGNED_FIXNUM_P d) (error_wrong_type_arg 1) ;;
          require (negb (to_ulong (UNSIGNED_FIXNUM_TO_LONG d) >=? radix)) (error_bad_range_arg 1) ;;
          let n_digits := to_uint (n_digits + 1) in
          match rest with
          | Word w => if w =? EMPTY_LIST then PRIMITIVE_RETURN n_digits else error_wrong_type_arg 1
          | Big _ => error_wrong_type_arg 1
          | Pair _ _ => scan_digits radix rest n_digits
          end
      | _ => error_wrong_type_arg 1
      end
  | _ => primitive_fault
  end.

Definition Prim_list_to_integer (a1 a2 a3 : scheme_object) : primitive scheme_object :=
  CHECK_ARG 1 pair_object_p a1 ;;
  radix <- arg_ulong_integer 2 a2 ;;
  require (negb ((radix <? 2) || (radix >=? bignum_max_digit_stream_radix))) (error_bad_range_arg 2) ;;
  n_digits <- scan_digits radix a1 0 ;;
  b <- call (digit_stream_to_bignum list_to_integer_producer (Z.to_nat n_digits) a1 radix (object_to_boolean a3)) ;;
  call (bignum_to_integer b).

(** ** bigprm.c *)

(** A primitive on bignums, which the argument check extracts. *)
Definition arg_bignum (n : Z) (object : scheme_object) : primitive bignum :=
  match object with Big b => PRIMITIVE_RETURN b | _ => error_wrong_type_arg n end.

Definition BIGNUM_TEST (predicate : bignum -> bool) (a1 : scheme_object) : primitive scheme_object :=
  b <- arg_bignum 1 a1 ;; PRIMITIVE_RETURN (boolean (predicate b)).

Definition Prim_bignum_zero_p := BIGNUM_TEST OBJECT_BIGNUM_ZERO_P.
Definition Prim_bignum_negative_p := BIGNUM_TEST OBJECT_BIGNUM_NEGATIVE_P.
Definition Prim_bignum_positive_p := BIGNUM_TEST OBJECT_BIGNUM_POSITIVE_P.

Definition BIGNUM_COMPARISON (predicate : bignum -> bignum -> bool) (a1 a2 : scheme_object) : primitive scheme_object :=
  b <- arg_bignum 1 a1 ;; c <- arg_bignum 2 a2 ;; PRIMITIVE_RETURN (boolean (predicate b c)).

Definition Prim_bignum_equal_p := BIGNUM_COMPARISON bignum_equal_p.
Definition Prim_bignum_less_p := BIGNUM_COMPARISON BIGNUM_LESS_P.

Definition BIGNUM_BINARY (operator : bignum -> bignum -> outcome bignum) (a1 a2 : scheme_object) :
    primitive scheme_object :=
  b <- arg_bignum 1 a1 ;; c <- arg_bignum 2 a2 ;;
  r <- call (operator b c) ;; PRIMITIVE_RETURN (Big r).

Definition Prim_bignum_add := BIGNUM_BINARY bignum_add.
Definition Prim_bignum_subtract := BIGNUM_BINARY bignum_subtract.
Definition Prim_bignum_multiply := BIGNUM_BINARY bignum_multiply.

Definition Prim_bignum_divide (a1 a2 : scheme_object) : primitive scheme_object :=
  b <- arg_bignum 1 a1 ;; c <- arg_bignum 2 a2 ;;
  qr <- call (bignum_divide b c) ;;
  match qr with
  | None => error_bad_range_arg 2
  | Some (quotient, remainder) => PRIMITIVE_RETURN (Pair (Big quotient) (Big remainder))
  end.

Definition BIGNUM_QR (operator : bignum -> bignum -> outcome (option bignum)) (a1 a2 : scheme_object) :
    primitive scheme_object :=
  b <- arg_bignum 1 a1 ;; c <- arg_bignum 2 a2 ;;
  result <- call (operator b c) ;;
  match result with
  | None => error_bad_range_arg 2
  | Some r => PRIMITIVE_RETURN (Big r)
  end.

Definition Prim_bignum_quotient := BIGNUM_QR bignum_quotient.
Definition Prim_bignum_remainder := BIGNUM_QR bignum_remainder.

Definition listify_bignum_consumer (previous_cdr : scheme_object) (digit : Z) : scheme_object :=
  Pair (Word (LONG_TO_UNSIGNED_FIXNUM digit)) previous_cdr.

Definition Prim_listify_bignum (a1 a2 : scheme_object) : primitive scheme_object :=
  b <- arg_bignum 1 a1 ;;
  radix <- arg_integer_in_range 2 2 bignum_max_digit_stream_radix a2 ;;
  if OBJECT_BIGNUM_ZERO_P b
  then PRIMITIVE_RETURN (Pair (Word (LONG_TO_UNSIGNED_FIXNUM 0)) (Word EMPTY_LIST))
  else
    digits <- call (bignum_to_digit_stream b radix) ;;
    PRIMITIVE_RETURN (fold_left listify_bignum_consumer digits (Word EMPTY_LIST)).

Definition Prim_fixnum_to_bignum (a1 : scheme_object) : primitive scheme_object :=
  match a1 with
  | Word w =>
      require (FIXNUM_P w) (error_wrong_type_arg 1) ;;
      b <- call (FIXNUM_TO_BIGNUM w) ;; PRIMITIVE_RETURN (Big b)
  | _ => error_wrong_type_arg 1
  end.

Definition Prim_bignum_to_fixnum (a1 : scheme_object) : primitive scheme_object :=
  b <- arg_bignum 1 a1 ;; call (bignum_to_fixnum b).

(** The length itself, a machine integer that is no tagged object, is returned. *)
Definition Prim_bignum_length_in_bits (a1 : scheme_object) : primitive scheme_object :=
  b <- arg_bignum 1 a1 ;; l <- call (bignum_length_in_bits b) ;; PRIMITIVE_RETURN (Word l).

(** ** Arguments: proofs *)

(** A test of the code decides a property, and the primitive goes on. *)
Lemma test_step {B} (m : outcome bool) (b : bool) (k : bool -> primitive B) :
  returns m (fun r => r = true <-> b = true) -> pbind (call m) k = k b.
Proof. intros (r & -> & H). cbn [call pbind]. f_equal. destruct r, b; intuition congruence. Qed.

Lemma arg_ulong_integer_ok i x n : integer x n -> moderate x ->
  arg_ulong_integer i n = if (0 <=? x) && (x <? 2 ^ 64) then PRIMITIVE_RETURN x else error_bad_range_arg i.
Proof.
  intros Hn Mx. destruct (integer_to_ulong_ok x n Hn Mx) as [P Q]. unfold arg_ulong_integer.
  rewrite (INTEGER_P_ok x n Hn), require_true. unfold ulong_p in *.
  rewrite (test_step _ ((0 <=? x) && (x <? 2 ^ 64))) by (eapply returns_weaken; [exact P|cbv beta; intros; lia]).
  destruct ((0 <=? x) && (x <? 2 ^ 64)) eqn:E; [|reflexivity]. rewrite require_true. apply call_returns_eq, Q. lia.
Qed.

Lemma arg_integer_ok i x n : integer x n -> moderate x ->
  arg_integer i n = if (- accepted_low 63 <? x) && (x <? 2 ^ 63) then PRIMITIVE_RETURN (to_long x) else error_bad_range_arg i.
Proof.
  intros Hn Mx. destruct (integer_to_long_ok x n Hn Mx) as [P Q]. unfold arg_integer.
  rewrite (INTEGER_P_ok x n Hn), require_true. unfold long_accepted in *.
  rewrite (test_step _ ((- accepted_low 63 <? x) && (x <? 2 ^ 63)))
    by (eapply returns_weaken; [exact P|cbv beta; intros; lia]).
  destruct ((- accepted_low 63 <? x) && (x <? 2 ^ 63)) eqn:E; [|reflexivity]. rewrite require_true.
  now apply call_returns_eq.
Qed.

(** Within bounds that stay below [2^62] the integers misjudged as [long]s do
    not pass the second check. *)
Lemma arg_integer_in_range_ok i lower upper x n : integer x n -> moderate x ->
  - 2 ^ 63 <= lower -> upper <= 2 ^ 62 ->
  arg_integer_in_range i lower upper n
  = if (lower <=? x) && (x <? upper) then PRIMITIVE_RETURN x else error_bad_range_arg i.
Proof.
  intros Hn Mx Hl Hu. unfold arg_integer_in_range. rewrite (arg_integer_ok i x n Hn Mx).
  change (accepted_low 63) with (2 ^ 63 + 2 ^ 62).
  destruct (Z.ltb_spec (- (2 ^ 63 + 2 ^ 62)) x), (Z.ltb_spec x (2 ^ 63)); cbn [andb pbind];
    try (replace ((lower <=? x) && (x <? upper)) with false by lia; reflexivity).
  destruct (Z_lt_le_dec x (- 2 ^ 63)).
  - replace (to_long x) with (x + 2 ^ 64) by (unfold to_long; dlia).
    replace ((lower <=? x) && (x <? upper)) with false by lia.
    replace (x + 2 ^ 64 >=? upper) with true by lia. rewrite orb_true_r. reflexivity.
  - rewrite to_long_small by lia. rewrite Z.geb_leb.
    destruct (Z.leb_spec lower x), (Z.ltb_spec x upper), (Z.ltb_spec x lower), (Z.leb_spec upper x); try lia; reflexivity.
Qed.

Lemma arg_index_integer_ok i upper x n : integer x n -> moderate x -> upper <= 2 ^ 62 ->
  arg_index_integer i upper n = if (0 <=? x) && (x <? upper) then PRIMITIVE_RETURN x else error_bad_range_arg i.
Proof. intros Hn Mx Hu. now apply (arg_integer_in_range_ok i 0 upper x n). Qed.

Lemma arg_type_error i n : INTEGER_P n = false ->
  arg_integer i n = error_wrong_type_arg i /\ arg_ulong_integer i n = error_wrong_type_arg i.
Proof. intros H. unfold arg_integer, arg_ulong_integer. rewrite H. now split. Qed.

(** ** The primitives: proofs *)

Inductive binary_primitive : (scheme_object -> scheme_object -> primitive scheme_object) -> (Z -> Z -> Z) -> Prop :=
| binary f F : integer_operation f F -> binary_primitive (INTEGER_BINARY_OPERATION f) F.

Inductive unary_primitive : (scheme_object -> primitive scheme_object) -> (Z -> Z) -> Prop :=
| unary f F : integer_function f F -> unary_primitive (INTEGER_UNARY_OPERATION f) F.

Inductive comparison_primitive : (scheme_object -> scheme_object -> primitive scheme_object) -> (Z -> Z -> bool) -> Prop :=
| prim_equal : comparison_primitive Prim_integer_equal_p Z.eqb
| prim_less : comparison_primitive Prim_integer_less_p Z.ltb
| prim_greater : comparison_primitive Prim_integer_greater_p Z.gtb.

Inductive test_primitive : (scheme_object -> primitive scheme_object) -> (Z -> bool) -> Prop :=
| prim_test f F : integer_test f F -> test_primitive (INTEGER_TEST f) F.

Lemma binary_primitive_ok prim F x y n m : binary_primitive prim F ->
  integer x n -> integer y m -> moderate x -> moderate y -> answers (prim n m) (canonical (F x y)).
Proof.
  intros Hp Hn Hm Mx My. destruct Hp. unfold INTEGER_BINARY_OPERATION.
  rewrite !CHECK_ARG_true by eauto using INTEGER_P_ok. apply answers_call. now apply integer_operation_ok.
Qed.

Lemma unary_primitive_ok prim F x n : unary_primitive prim F ->
  canonical x n -> moderate x -> answers (prim n) (canonical (F x)).
Proof.
  intros Hp Hn Mx. destruct Hp. unfold INTEGER_UNARY_OPERATION.
  rewrite CHECK_ARG_true by eauto using INTEGER_P_ok. apply answers_call. now apply integer_function_ok.
Qed.

Lemma comparison_primitive_ok prim F x y n m : comparison_primitive prim F ->
  integer x n -> integer y m -> prim n m = PRIMITIVE_RETURN (boolean (F x y)).
Proof.
  intros Hp Hn Hm.
  assert (L : call (integer_less_p n m) = PRIMITIVE_RETURN (x <? y) /\ call (integer_less_p m n) = PRIMITIVE_RETURN (y <? x)
              /\ call (integer_equal_p n m) = PRIMITIVE_RETURN (x =? y))
    by (repeat split; apply call_returns_eq; eapply integer_comparison_ok; eauto using integer_comparison).
  destruct L as (L1 & L2 & L3).
  destruct Hp; unfold Prim_integer_equal_p, Prim_integer_less_p, Prim_integer_greater_p, INTEGER_COMPARISON;
    rewrite !CHECK_ARG_true by eauto using INTEGER_P_ok; rewrite ?L1, ?L2, ?L3; cbn [pbind]; try reflexivity.
  now rewrite Z.gtb_ltb.
Qed.

Lemma test_primitive_ok prim F x n : test_primitive prim F -> integer x n ->
  prim n = PRIMITIVE_RETURN (boolean (F x)).
Proof.
  intros Hp Hn. destruct Hp as [f F Hf]. unfold INTEGER_TEST. rewrite CHECK_ARG_true by eauto using INTEGER_P_ok.
  rewrite (call_returns_eq _ (F x)); [reflexivity|]. now apply integer_test_ok.
Qed.

(** Every one of them checks its arguments from left to right. *)
Lemma integer_primitive_error prim F n m : binary_primitive prim F ->
  INTEGER_P n && INTEGER_P m = false ->
  prim n m = error_wrong_type_arg (if INTEGER_P n then 2 else 1).
Proof.
  intros Hp H. destruct Hp. unfold INTEGER_BINARY_OPERATION. destruct (INTEGER_P n) eqn:E1.
  - rewrite CHECK_ARG_true by assumption. cbn [andb] in H. now rewrite CHECK_ARG_false.
  - now rewrite CHECK_ARG_false.
Qed.

Lemma Prim_integer_divide_ok x y n m : integer x n -> integer y m -> moderate x ->
  if y =? 0 then Prim_integer_divide n m = error_bad_range_arg 2
  else answers (Prim_integer_divide n m)
         (fun r => exists q s, r = Pair q s /\ canonical (Z.quot x y) q /\ canonical (Z.rem x y) s).
Proof.
  intros Hn Hm Mx. unfold Prim_integer_divide. rewrite !CHECK_ARG_true by eauto using INTEGER_P_ok.
  destruct (integer_divide_ok x y n m Hn Hm Mx) as (o & -> & Ho). cbn [call pbind].
  unfold integer_quotient_and_remainder in Ho. destruct (y =? 0); [now rewrite Ho|].
  destruct Ho as (q & r & -> & Hq & Hr). apply answers_return. eauto 6.
Qed.

Lemma canonical_not_false z n : canonical z n -> sharp_f_p n = false.
Proof.
  destruct 1 as [z F|]; [|reflexivity]. apply Z.eqb_neq. intros E. apply (f_equal OBJECT_TYPE) in E.
  now rewrite LONG_TO_FIXNUM_type in E.
Qed.

Lemma INTEGER_QR_ok f y z n m : INTEGER_P n = true -> INTEGER_P m = true ->
  returns (f n m) (quotient_or_false y z) ->
  if y =? 0 then INTEGER_QR f n m = error_bad_range_arg 2 else answers (INTEGER_QR f n m) (canonical z).
Proof.
  intros Hn Hm (r & E & Hr). unfold INTEGER_QR. rewrite !CHECK_ARG_true, E by assumption. cbn [call pbind].
  unfold quotient_or_false in Hr. destruct (y =? 0); [now rewrite Hr|].
  rewrite (canonical_not_false z r Hr). now apply answers_return.
Qed.

(** ** Shifts *)

Lemma Prim_integer_shift_left_ok x m n k : canonical x n -> integer m k -> moderate x -> moderate m ->
  if m <? 0 then Prim_integer_shift_left n k = error_bad_range_arg 2
  else m <= moderate_bits -> answers (Prim_integer_shift_left n k) (canonical (x * 2 ^ m)).
Proof.
  intros Hn Hk Mx Mm. unfold Prim_integer_shift_left. rewrite CHECK_ARG_true by eauto using INTEGER_P_ok.
  rewrite (arg_ulong_integer_ok 2 m k Hk Mm). pose proof moderate_bits_range.
  destruct (Z.ltb_spec m 0).
  - now replace (_ && _) with false by lia.
  - intros Hm. replace (_ && _) with true by lia. cbn [pbind]. apply answers_call.
    apply integer_shift_left_ok; [assumption|assumption|lia].
Qed.

(** A shift by a fixnum is the floor of the division by a power of two.  A
    shift by a (nonnegative) bignum gives zero, also for a negative number. *)
Lemma Prim_integer_shift_right_ok x m n k : canonical x n -> canonical m k -> moderate x ->
  if m <? 0 then Prim_integer_shift_right n k = error_bad_range_arg 2
  else answers (Prim_integer_shift_right n k)
         (canonical (if fixnum_range_b m then Z.shiftr x m else 0)).
Proof.
  intros Hn Hk Mx. unfold Prim_integer_shift_right. rewrite CHECK_ARG_true by eauto using INTEGER_P_ok.
  destruct Hk as [m Fm|m b [Wb <-] Nm].
  - rewrite FIXNUM_P_LONG_TO_FIXNUM, FIXNUM_NEGATIVE_P_ok by assumption.
    destruct (Z.ltb_spec m 0); [reflexivity|]. rewrite (proj2 (fixnum_range_b_iff m) Fm). apply answers_call.
    unfold FIXNUM_TO_ULONG. rewrite fixnum_datum, Z.mod_small
      by (unfold fixnum_range, BIGGEST_FIXNUM in Fm; lia).
    now apply integer_shift_right_ok.
  - unfold OBJECT_BIGNUM_NEGATIVE_P. rewrite bignum_test_ok, is_less_compare by assumption.
    destruct (value b <? 0); [reflexivity|]. apply answers_return.
    destruct (fixnum_range_b (value b)) eqn:E; [now apply fixnum_range_b_iff in E|].
    apply (canonical_fixnum 0). unfold fixnum_range, SMALLEST_FIXNUM, BIGGEST_FIXNUM. lia.
Qed.

Lemma Prim_integer_ones_ok i j n m : integer i n -> integer j m -> 0 <= i -> 0 <= j -> i + j <= moderate_bits ->
  answers (Prim_integer_nonnegative_one_bits n m) (canonical ((2 ^ i - 1) * 2 ^ j)) /\
  answers (Prim_integer_negative_zero_bits n m) (canonical (Z.lnot ((2 ^ i - 1) * 2 ^ j))).
Proof.
  intros Hn Hm Hi Hj H. pose proof moderate_bits_range.
  unfold Prim_integer_nonnegative_one_bits, Prim_integer_negative_zero_bits.
  rewrite (arg_ulong_integer_ok 1 i n), (arg_ulong_integer_ok 2 j m) by (assumption || apply moderate_long; lia).
  replace (_ && _) with true by lia. replace (_ && _) with true by lia. cbn [pbind].
  destruct (integer_ones_ok i j Hi Hj H). split; now apply answers_call.
Qed.

(** ** Lists of digits *)

(** A list of digits as a Scheme list. *)
Fixpoint digit_list (ds : list Z) : scheme_object :=
  match ds with
  | [] => Word EMPTY_LIST
  | d :: ds => Pair (Word (LONG_TO_FIXNUM d)) (digit_list ds)
  end.

Lemma UNSIGNED_FIXNUM_ok d : 0 <= d <= BIGGEST_FIXNUM ->
  UNSIGNED_FIXNUM_P (LONG_TO_FIXNUM d) = true /\ UNSIGNED_FIXNUM_TO_LONG (LONG_TO_FIXNUM d) = d.
Proof.
  intros Hd. assert (F : fixnum_range d) by (unfold fixnum_range, SMALLEST_FIXNUM; lia).
  unfold UNSIGNED_FIXNUM_P, UNSIGNED_FIXNUM_TO_LONG.
  rewrite FIXNUM_P_LONG_TO_FIXNUM, FIXNUM_NEGATIVE_P_ok, fixnum_datum by assumption. unfold BIGGEST_FIXNUM in Hd.
  rewrite Z.mod_small, to_long_small by lia. split; [|reflexivity]. destruct (Z.ltb_spec d 0); [lia|reflexivity].
Qed.

Lemma small_radix d radix : 0 <= d < radix -> radix < BIGNUM_RADIX_ROOT -> 0 <= d <= BIGGEST_FIXNUM /\ 0 <= d < 2 ^ 32.
Proof. change BIGNUM_RADIX_ROOT with (2 ^ 31). unfold BIGGEST_FIXNUM. lia. Qed.

Lemma scan_digits_step radix d ds count : radix < BIGNUM_RADIX_ROOT -> 0 <= d < radix -> 0 <= count < 2 ^ 32 - 1 ->
  scan_digits radix (digit_list (d :: ds)) count
  = match ds with
    | [] => PRIMITIVE_RETURN (count + 1)
    | _ => scan_digits radix (digit_list ds) (count + 1)
    end.
Proof.
  intros Hr Hd Hc. destruct (small_radix d radix Hd Hr) as [S _]. destruct (UNSIGNED_FIXNUM_ok d S) as [E1 E2].
  unfold BIGGEST_FIXNUM in S. rewrite <- (to_uint_small (count + 1)) by lia.
  destruct ds; cbn [digit_list scan_digits]; rewrite E1, require_true, E2, to_ulong_small by lia;
    destruct (Z.geb_spec d radix); try lia; cbn [negb]; rewrite require_true, ?Z.eqb_refl; reflexivity.
Qed.

Lemma scan_digits_ok radix : 2 <= radix < BIGNUM_RADIX_ROOT -> forall ds d count,
  digits_below radix (d :: ds) -> 0 <= count -> count + zlength (d :: ds) < 2 ^ 32 ->
  scan_digits radix (digit_list (d :: ds)) count = PRIMITIVE_RETURN (count + zlength (d :: ds)).
Proof.
  intros Hr. induction ds as [|e ds IH]; intros d count [Hd D]%digits_below_cons Hc Hl; cbn [length] in Hl;
    rewrite scan_digits_step by lia; [reflexivity|].
  rewrite IH by (try assumption; cbn [length]; lia). f_equal. cbn [length]. lia.
Qed.

(** A digit out of place is an error. *)
Lemma scan_digits_bad_digit radix d ds count : radix <= d -> 0 <= d <= BIGGEST_FIXNUM ->
  scan_digits radix (digit_list (d :: ds)) count = error_bad_range_arg 1.
Proof.
  intros Hd S. destruct (UNSIGNED_FIXNUM_ok d S) as [E1 E2]. unfold BIGGEST_FIXNUM in S.
  cbn [digit_list scan_digits]. rewrite E1, require_true, E2, to_ulong_small by lia.
  now destruct (Z.geb_spec d radix); [|lia].
Qed.

Lemma produced_digits radix ds : radix < BIGNUM_RADIX_ROOT -> digits_below radix ds ->
  produced list_to_integer_producer (length ds) (digit_list ds) = ds.
Proof.
  intros Hr. induction ds as [|d ds IH]; [reflexivity|]. intros [Hd D]%digits_below_cons.
  destruct (small_radix d radix Hd Hr) as [S S']. destruct (UNSIGNED_FIXNUM_ok d S) as [_ E].
  cbn [length produced digit_list list_to_integer_producer]. rewrite E, to_uint_small by assumption. now rewrite IH.
Qed.

Lemma horner_bound radix ds : 1 < radix -> digits_below radix ds -> forall acc, 0 <= acc ->
  0 <= horner radix ds acc < (acc + 1) * radix ^ zlength ds.
Proof.
  intros Hr. induction 1 as [|d ds Hd D IH]; intros acc Ha.
  - cbn. lia.
  - cbn [length]. rewrite Nat2Z.inj_succ, Z.pow_succ_r by lia. unfold horner. cbn [fold_left]. fold (horner radix).
    specialize (IH (acc * radix + d) ltac:(nia)). pose proof (Z.pow_pos_nonneg radix (zlength ds) ltac:(lia) ltac:(lia)).
    unfold horner in *. split; [lia|]. apply Z.lt_le_trans with (1 := proj2 IH). nia.
Qed.

Lemma horner_moderate radix ds : 1 < radix -> digits_below radix ds -> zlength ds * bit_length radix < 2 ^ 32 ->
  moderate (horner radix ds 0).
Proof.
  intros Hr D Hl. pose proof moderate_digits_eq. apply moderate_pow. destruct (horner_bound radix ds Hr D 0 ltac:(lia)) as [B1 B2].
  rewrite Z.abs_eq by assumption. apply Z.lt_le_trans with (1 := B2). rewrite Z.mul_1_l.
  pose proof (bit_length_spec radix ltac:(lia)) as [_ U]. pose proof (bit_length_pos radix ltac:(lia)).
  apply Z.le_trans with ((2 ^ bit_length radix) ^ zlength ds); [apply Z.pow_le_mono_l; lia|].
  rewrite <- Z.pow_mul_r by lia. apply Z.pow_le_mono_r; [lia|]. unfold moderate_bits. lia.
Qed.

Lemma Prim_list_to_integer_ok radix ds r sign : 2 <= radix < BIGNUM_RADIX_ROOT -> integer radix r ->
  ds <> [] -> digits_below radix ds -> zlength ds * bit_length radix < 2 ^ 32 ->
  answers (Prim_list_to_integer (digit_list ds) r sign)
    (canonical (if object_to_boolean sign then - horner radix ds 0 else horner radix ds 0)).
Proof.
  intros Hr Hi Hne D Hl. pose proof (bit_length_pos radix ltac:(lia)). pose proof (horner_moderate radix ds ltac:(lia) D Hl) as M.
  destruct ds as [|d ds]; [congruence|]. unfold Prim_list_to_integer. rewrite CHECK_ARG_true by reflexivity.
  change BIGNUM_RADIX_ROOT with (2 ^ 31) in *. change bignum_max_digit_stream_radix with (2 ^ 31).
  rewrite (arg_ulong_integer_ok 2 radix r Hi) by (apply moderate_long; lia).
  replace (_ && _) with true by lia. cbn [pbind]. replace (_ || _) with false by lia. cbn [negb].
  rewrite require_true. rewrite scan_digits_ok by (assumption || (try nia)). cbn [pbind].
  replace (Z.to_nat _) with (length (d :: ds)) by lia.
  assert (P : produced list_to_integer_producer (length (d :: ds)) (digit_list (d :: ds)) = d :: ds)
    by (apply (produced_digits radix); [change BIGNUM_RADIX_ROOT with (2 ^ 31); lia|assumption]).
  eapply answers_step.
  - apply answers_call. apply digit_stream_to_bignum_ok with (radix := radix);
      [change BIGNUM_RADIX_ROOT with (2 ^ 31); lia|rewrite P; assumption|assumption].
  - intros b Hb. rewrite P in Hb. apply answers_call. apply bignum_to_integer_ok; [exact Hb|].
    destruct (object_to_boolean sign); apply moderate_large; [|assumption].
    unfold moderate in *. now rewrite Z.abs_opp.
Qed.

Lemma listify_fold radix ds : radix < BIGNUM_RADIX_ROOT -> digits_below radix ds -> forall es,
  fold_left listify_bignum_consumer ds (digit_list es) = digit_list (rev ds ++ es).
Proof.
  intros Hr. induction 1 as [|d ds Hd D IH]; intros es; [reflexivity|]. cbn [fold_left rev].
  destruct (small_radix d radix Hd Hr) as [S _]. unfold BIGGEST_FIXNUM in S.
  replace (listify_bignum_consumer (digit_list es) d) with (digit_list (d :: es))
    by (unfold listify_bignum_consumer; now rewrite LONG_TO_UNSIGNED_FIXNUM_ok by lia).
  now rewrite IH, <- app_assoc.
Qed.

Lemma Prim_listify_bignum_ok radix r b : wf b -> integer radix r -> moderate radix ->
  if (2 <=? radix) && (radix <? BIGNUM_RADIX_ROOT) then
    answers (Prim_listify_bignum (Big b) r)
      (fun l => exists ds, l = digit_list ds /\ ds <> [] /\ digits_below radix ds /\
                horner radix ds 0 = Z.abs (value b) /\ (hd 0 ds = 0 -> ds = [0]))
  else Prim_listify_bignum (Big b) r = error_bad_range_arg 2.
Proof.
  intros Hb Hi Mr. unfold Prim_listify_bignum. cbn [arg_bignum pbind].
  rewrite (arg_integer_in_range_ok 2 2 bignum_max_digit_stream_radix radix r Hi Mr)
    by (unfold bignum_max_digit_stream_radix; now vm_compute).
  change bignum_max_digit_stream_radix with BIGNUM_RADIX_ROOT.
  destruct ((2 <=? radix) && (radix <? BIGNUM_RADIX_ROOT)) eqn:E; [cbn [pbind]|reflexivity].
  unfold OBJECT_BIGNUM_ZERO_P. rewrite bignum_test_ok, is_equal_compare by assumption.
  destruct (Z.eqb_spec (value b) 0) as [V0|V0].
  - apply answers_return. exists [0]. rewrite V0. split; [reflexivity|]. split; [discriminate|].
    split; [constructor; [lia|constructor]|]. split; [reflexivity|auto].
  - eapply answers_step; [apply answers_call, (bignum_to_digit_stream_ok b radix Hb); lia|].
    intros ds (D & P & L). apply answers_return. exists (rev ds).
    change (Word EMPTY_LIST) with (digit_list []). rewrite (listify_fold radix) by (assumption || lia).
    rewrite app_nil_r, horner_rev, P, magnitude_abs by assumption.
    destruct (snoc_cases ds) as [->|(ds' & x & ->)].
    + exfalso. cbn [positional] in P. rewrite magnitude_abs in P by assumption. lia.
    + rewrite rev_app_distr. cbn [rev app hd]. rewrite last_snoc in L.
      split; [reflexivity|]. split; [discriminate|]. split; [rewrite <- rev_unit; now apply Forall_rev|].
      split; [reflexivity|]. intros ->. contradiction.
Qed.

(** ** Properties *)

(** LIST->INTEGER applied to the list LISTIFY-BIGNUM makes, with the sign, gives the integer back in
    canonical form. *)
Theorem digit_lists_round_trip radix r b : wf b -> integer radix r -> 2 <= radix < BIGNUM_RADIX_ROOT ->
  exists ds, Prim_listify_bignum (Big b) r = PRIMITIVE_RETURN (digit_list ds) /\
    (zlength ds * bit_length radix < 2 ^ 32 ->
     answers (Prim_list_to_integer (digit_list ds) r (boolean (value b <? 0))) (canonical (value b))).
Proof.
  intros Hb Hi Hr. assert (Hr' : radix < 2 ^ 32) by (change BIGNUM_RADIX_ROOT with (2 ^ 31) in Hr; lia).
  pose proof (Prim_listify_bignum_ok radix r b Hb Hi ltac:(apply moderate_long; lia)) as P.
  replace (_ && _) with true in P by lia. destruct P as (l & E & ds & -> & Hne & D & V & _).
  exists ds. split; [exact E|]. intros Hl.
  destruct (Prim_list_to_integer_ok radix ds r (boolean (value b <? 0)) Hr Hi Hne D Hl) as (n & En & Hn).
  exists n. split; [exact En|]. rewrite V in Hn. revert Hn.
  replace (object_to_boolean (boolean (value b <? 0))) with (value b <? 0) by (now destruct (value b <? 0)).
  destruct (Z.ltb_spec (value b) 0); intros Hn; [replace (value b) with (- Z.abs (value b)) by lia|replace (value b) with (Z.abs (value b)) by lia]; exact Hn.
Qed.

(** INTEGER-SHIFT-LEFT and INTEGER-SHIFT-RIGHT reject a negative shift as a bad range of argument 2 and
    compute the shift otherwise; a right shift by a bignum gives 0 whatever the sign of the number. *)
Theorem shift_primitives_correct x m n k : canonical x n -> canonical m k -> moderate x -> moderate m ->
  if m <? 0
  then Prim_integer_shift_left n k = error_bad_range_arg 2 /\ Prim_integer_shift_right n k = error_bad_range_arg 2
  else (m <= moderate_bits -> answers (Prim_integer_shift_left n k) (canonical (x * 2 ^ m))) /\
       answers (Prim_integer_shift_right n k) (canonical (if fixnum_range_b m then x / 2 ^ m else 0)).
Proof.
  intros Hn Hk Mx Mm. pose proof (Prim_integer_shift_left_ok x m n k Hn (canonical_integer m k Hk) Mx Mm) as L.
  pose proof (Prim_integer_shift_right_ok x m n k Hn Hk Mx) as R. destruct (Z.ltb_spec m 0); [now split|].
  rewrite Z.shiftr_div_pow2 in R by assumption. now split.
Qed.

(** The argument decoders accept exactly the integers of the stated range and report a non-integer as a
    wrong type and an integer out of range as a bad range of that argument. *)
Theorem argument_decoding_correct i lower upper x n : integer x n -> moderate x ->
  - 2 ^ 63 <= lower -> upper <= 2 ^ 62 ->
  arg_integer_in_range i lower upper n
    = (if (lower <=? x) && (x <? upper) then PRIMITIVE_RETURN x else error_bad_range_arg i) /\
  arg_index_integer i upper n
    = (if (0 <=? x) && (x <? upper) then PRIMITIVE_RETURN x else error_bad_range_arg i) /\
  arg_ulong_index_integer i upper n
    = (if (0 <=? x) && (x <? upper) then PRIMITIVE_RETURN x else error_bad_range_arg i) /\
  forall w, INTEGER_P w = false ->
    arg_integer_in_range i lower upper w = error_wrong_type_arg i /\
    arg_ulong_index_integer i upper w = error_wrong_type_arg i.
Proof.
  intros Hn Mx Hl Hu. split; [now apply arg_integer_in_range_ok|]. split; [now apply arg_index_integer_ok|]. split.
  - unfold arg_ulong_index_integer. rewrite (arg_ulong_integer_ok i x n Hn Mx).
    destruct (Z.leb_spec 0 x), (Z.ltb_spec x (2 ^ 64)), (Z.ltb_spec x upper); cbn [andb pbind]; try lia; try reflexivity;
      rewrite Z.geb_leb; destruct (Z.leb_spec upper x); try lia; reflexivity.
  - intros w Hw. destruct (arg_type_error i w Hw) as [E1 E2]. unfold arg_integer_in_range, arg_ulong_index_integer.
    rewrite E1, E2. now split.
Qed.

(** The binary integer primitives return the canonical result of their operation and check their
    arguments from left to right, reporting the first that is no integer. *)
Theorem integer_primitives_correct prim F n m : binary_primitive prim F ->
  (INTEGER_P n && INTEGER_P m = false -> prim n m = error_wrong_type_arg (if INTEGER_P n then 2 else 1)) /\
  (forall x y, integer x n -> integer y m -> moderate x -> moderate y -> answers (prim n m) (canonical (F x y))).
Proof.
  intros Hp. split; [now apply integer_primitive_error with F|]. intros x y. now apply binary_primitive_ok.
Qed.
