(* ===== verification/AvlTree.v ===== *)
(** * avltree.c: the AVL trees that map primitive names to indices

    A tree is owned by its root pointer and its nodes are never shared, so the
    destructive updates of avltree.c are a function from trees to trees.
    [malloc] may fail: the state counts the nodes it can still supply, next to
    the error message and the [static] variable [bias] of [tree_build]. *)

From Stdlib Require Import ZArith List Bool Lia Sorting.Sorted RelationClasses.
From S2P Require Import Prelude Bits.
Import ListNotations.

#[local] Open Scope Z_scope.
#[local] Open Scope microcode_scope.

(** ** primutl.c: comparing names without regard to case

    A C string is the list of its bytes up to the terminating zero. *)

Definition c_string : Type := list Z.

(** [toupper] of <ctype.h> in the "C" locale. *)
Definition toupper (c : Z) : Z := if (97 <=? c) && (c <=? 122) then c - 32 else c.

Fixpoint strcmp_ci (s1 s2 : c_string) {struct s1} : Z :=
  match s1, s2 with
  | [], [] => 0
  | [], _ :: _ => -1
  | _ :: _, [] => 1
  | c1 :: s1, c2 :: s2 =>
      let c1 := toupper c1 in
      let c2 := toupper c2 in
      if c1 <? c2 then -1
      else if c1 >? c2 then 1
      else strcmp_ci s1 s2
  end.

(** ** Trees *)

(** [struct tree_node_s]; [Null] is the null pointer. *)
Inductive tree_node : Type :=
| Null
| Node (height : Z) (left : tree_node) (name : c_string) (value : Z) (rite : tree_node).

Inductive tree_message : Type :=
| leaf_make_malloc_failed
| tree_insert_duplicate_entry (name : c_string).

Record tree_state : Type := TreeState {
  bias : Z;
  free_nodes : nat;
  tree_error_message : option tree_message
}.

Definition tree_error (message : tree_message) (s : tree_state) : tree_state :=
  TreeState (bias s) (free_nodes s) (Some message).

Definition BRANCH_HEIGHT (tree : tree_node) : Z :=
  match tree with Null => 0 | Node h _ _ _ _ => h end.

Definition MAX (a b : Z) : Z := if a >=? b then a else b.

Definition update_height (tree : tree_node) : outcome tree_node :=
  match tree with
  | Null => Wild
  | Node _ l n v r => Return (Node (1 + MAX (BRANCH_HEIGHT l) (BRANCH_HEIGHT r)) l n v r)
  end.

Definition leaf_make (name : c_string) (value : Z) (s : tree_state) : tree_node * tree_state :=
  match free_nodes s with
  | O => (Null, tree_error leaf_make_malloc_failed s)
  | S k => (Node 1 Null name value Null, TreeState (bias s) k (tree_error_message s))
  end.

Definition rotate_left (tree : tree_node) : outcome tree_node :=
  match tree with
  | Node h l n v (Node rh beta rn rv rr) =>
      tree <- update_height (Node h l n v beta) ;;
      update_height (Node rh tree rn rv rr)
  | _ => Wild
  end.

Definition rotate_rite (tree : tree_node) : outcome tree_node :=
  match tree with
  | Node h (Node lh ll ln lv beta) n v r =>
      tree <- update_height (Node h beta n v r) ;;
      update_height (Node lh ll ln lv tree)
  | _ => Wild
  end.

Definition rebalance_left (tree : tree_node) : outcome tree_node :=
  match tree with
  | Null => Wild
  | Node h l n v r =>
      if 1 + BRANCH_HEIGHT r >=? BRANCH_HEIGHT l then update_height tree
      else
        match l with
        | Null => Wild
        | Node _ ql _ _ qr =>
            l <- (if BRANCH_HEIGHT qr >? BRANCH_HEIGHT ql then rotate_left l else Return l) ;;
            rotate_rite (Node h l n v r)
        end
  end.

Definition rebalance_rite (tree : tree_node) : outcome tree_node :=
  match tree with
  | Null => Wild
  | Node h l n v r =>
      if 1 + BRANCH_HEIGHT l >=? BRANCH_HEIGHT r then update_height tree
      else
        match r with
        | Null => Wild
        | Node _ ql _ _ qr =>
            r <- (if BRANCH_HEIGHT ql >? BRANCH_HEIGHT qr then rotate_rite r else Return r) ;;
            rotate_left (Node h l n v r)
        end
  end.

(** The [switch] on the result of [strcmp_ci] has no other case: past it the
    code returns a null pointer. *)
Fixpoint tree_insert (tree : tree_node) (name : c_string) (value : Z) (s : tree_state) :
    outcome (tree_node * tree_state) :=
  match tree with
  | Null => Return (leaf_make name value s)
  | Node h l n v r =>
      let c := strcmp_ci name n in
      if c =? 0 then Return (tree, tree_error (tree_insert_duplicate_entry name) s)
      else if c =? -1 then
        '(l, s) <- tree_insert l name value s ;;
        tree <- rebalance_left (Node h l n v r) ;; Return (tree, s)
      else if c =? 1 then
        '(r, s) <- tree_insert r name value s ;;
        tree <- rebalance_rite (Node h l n v r) ;; Return (tree, s)
      else Return (Null, s)
  end.

(** The [while] loop descends: it is structural. *)
Fixpoint tree_lookup (tree : tree_node) (name : c_string) : outcome tree_node :=
  match tree with
  | Null => Return Null
  | Node _ l n _ r =>
      let c := strcmp_ci name n in
      if c =? 0 then Return tree
      else if c =? -1 then tree_lookup l name
      else if c =? 1 then tree_lookup r name
      else OutOfFuel
  end.

Definition name_ref (names : list c_string) (index : Z) : outcome c_string :=
  if index <? 0 then Wild
  else match nth_error names (Z.to_nat index) with Some n => Return n | None => Wild end.

(** [fuel] bounds the depth of the recursion; [high] is enough of it. *)
Fixpoint tree_build (fuel : nat) (high : Z) (names : list c_string) (value : Z) (s : tree_state) :
    outcome (tree_node * tree_state) :=
  match fuel with
  | O => OutOfFuel
  | S fuel =>
      if high >? 1 then
        let middle := high / 2 in
        let '(middle, s) :=
          if Z.land high 1 =? 0
          then (middle - bias s, TreeState (1 - bias s) (free_nodes s) (tree_error_message s))
          else (middle, s) in
        let next := middle + 1 in
        n <- name_ref names middle ;;
        let '(tree, s) := leaf_make n (value + middle) s in
        match tree with
        | Null => Wild
        | Node h _ n v _ =>
            '(l, s) <- tree_build fuel middle names value s ;;
            '(r, s) <- tree_build fuel (high - next) (skipn (Z.to_nat next) names) (value + next) s ;;
            tree <- update_height (Node h l n v r) ;; Return (tree, s)
        end
      else if high =? 1 then n <- name_ref names 0 ;; Return (leaf_make n value s)
      else Return (Null, s)
  end.

(** [tree_free] releases every node once. *)
Fixpoint tree_free (tree : tree_node) (s : tree_state) : tree_state :=
  match tree with
  | Null => s
  | Node _ l _ _ r =>
      let s := tree_free r (tree_free l s) in
      TreeState (bias s) (S (free_nodes s)) (tree_error_message s)
  end.

(** ** The order of names *)

(** Names are the same when they differ in case only. *)
Definition same_name (a b : c_string) : Prop := map toupper a = map toupper b.
Definition before (a b : c_string) : Prop := strcmp_ci a b = -1.

Lemma strcmp_ci_values a b : strcmp_ci a b = -1 \/ strcmp_ci a b = 0 \/ strcmp_ci a b = 1.
Proof.
  revert b. induction a as [|c a IH]; intros [|d b]; cbn [strcmp_ci]; auto.
  destruct (_ <? _); [auto|]. destruct (_ >? _); auto.
Qed.

Lemma strcmp_ci_opp a b : strcmp_ci b a = - strcmp_ci a b.
Proof.
  revert b. induction a as [|c a IH]; intros [|d b]; cbn [strcmp_ci]; try reflexivity.
  rewrite !Z.gtb_ltb. destruct (Z.ltb_spec (toupper c) (toupper d)), (Z.ltb_spec (toupper d) (toupper c)); try lia. auto.
Qed.

Lemma strcmp_ci_zero a b : strcmp_ci a b = 0 <-> same_name a b.
Proof.
  unfold same_name. revert b. induction a as [|c a IH]; intros [|d b]; cbn [strcmp_ci map]; try (split; [lia|discriminate]).
  - now split.
  - rewrite Z.gtb_ltb. specialize (IH b). destruct (Z.ltb_spec (toupper c) (toupper d)).
    + split; [lia|]. intros [= E _]. lia.
    + destruct (Z.ltb_spec (toupper d) (toupper c)).
      * split; [lia|]. intros [= E _]. lia.
      * rewrite IH. assert (toupper c = toupper d) as -> by lia. split; [now intros ->|now intros [= ->]].
Qed.

Lemma before_trans a b c : before a b -> before b c -> before a c.
Proof.
  unfold before. revert b c. induction a as [|x a IH]; intros [|y b] [|z c]; cbn [strcmp_ci]; try congruence; try lia.
  rewrite !Z.gtb_ltb. specialize (IH b c).
  destruct (Z.ltb_spec (toupper x) (toupper y)), (Z.ltb_spec (toupper y) (toupper x)),
    (Z.ltb_spec (toupper y) (toupper z)), (Z.ltb_spec (toupper z) (toupper y)),
    (Z.ltb_spec (toupper x) (toupper z)), (Z.ltb_spec (toupper z) (toupper x)); intros; try lia; auto.
Qed.

Lemma strcmp_ci_same_l a a' b : same_name a a' -> strcmp_ci a b = strcmp_ci a' b.
Proof.
  unfold same_name. revert a' b. induction a as [|x a IH]; intros [|x' a'] b; cbn [map]; try discriminate; [reflexivity|].
  intros [= E1 E2]. destruct b as [|y b]; cbn [strcmp_ci]; [reflexivity|]. rewrite E1. now rewrite (IH a' b).
Qed.

Lemma before_after a b : strcmp_ci a b = 1 <-> before b a.
Proof. unfold before. rewrite (strcmp_ci_opp a b). lia. Qed.

Lemma before_irrefl a : ~ before a a.
Proof. unfold before. replace (strcmp_ci a a) with 0; [lia|]. symmetry. now apply strcmp_ci_zero. Qed.

#[export] Instance before_transitive : Transitive before := before_trans.

(** Case analysis on the comparison of two names. *)
Lemma strcmp_cases a b (P : Z -> Prop) :
  (before a b -> P (-1)) -> (same_name a b -> P 0) -> (before b a -> P 1) -> P (strcmp_ci a b).
Proof.
  intros H1 H2 H3. destruct (strcmp_ci_values a b) as [E|[E|E]].
  - rewrite E. now apply H1.
  - rewrite E. now apply H2, strcmp_ci_zero.
  - rewrite E. now apply H3, before_after.
Qed.

(** ** What a tree holds *)

Notation entry := (c_string * Z)%type.

Fixpoint elements (tree : tree_node) : list entry :=
  match tree with
  | Null => []
  | Node _ l n v r => elements l ++ (n, v) :: elements r
  end.

Definition entry_before (p q : entry) : Prop := before (fst p) (fst q).
Definition ordered (l : list entry) : Prop := StronglySorted entry_before l.
Definition sorted (tree : tree_node) : Prop := ordered (elements tree).

(** The specification of lookup and insertion, on sequences of entries. *)
Definition find_name (name : c_string) (l : list entry) : option entry :=
  find (fun p => strcmp_ci name (fst p) =? 0) l.

Fixpoint insert_entry (name : c_string) (value : Z) (l : list entry) : list entry :=
  match l with
  | [] => [(name, value)]
  | p :: l' => if strcmp_ci name (fst p) =? -1 then (name, value) :: l else p :: insert_entry name value l'
  end.

Definition node_entry (tree : tree_node) : option entry :=
  match tree with Null => None | Node _ _ n v _ => Some (n, v) end.

(** The AVL condition, with heights stored correctly. *)
Inductive avl : tree_node -> Prop :=
| avl_null : avl Null
| avl_node h l n v r :
    avl l -> avl r -> h = 1 + Z.max (BRANCH_HEIGHT l) (BRANCH_HEIGHT r) ->
    Z.abs (BRANCH_HEIGHT l - BRANCH_HEIGHT r) <= 1 -> avl (Node h l n v r).

#[export] Hint Constructors avl : core.

Lemma MAX_max a b : MAX a b = Z.max a b.
Proof. unfold MAX. rewrite Z.geb_leb. destruct (Z.leb_spec b a); lia. Qed.

Lemma avl_height t : avl t -> 0 <= BRANCH_HEIGHT t.
Proof. induction 1; cbn [BRANCH_HEIGHT]; lia. Qed.

(** ** Ordered sequences *)

Lemma ordered_app l1 l2 : ordered (l1 ++ l2) <->
  ordered l1 /\ ordered l2 /\ Forall (fun p => Forall (entry_before p) l2) l1.
Proof.
  unfold ordered. induction l1 as [|p l1 IH]; cbn [app].
  - split; [intros H; repeat split; [constructor|exact H|constructor]|now intros (_ & H & _)].
  - split.
    + intros H. inversion_clear H as [|? ? S F]. apply IH in S as (S1 & S2 & S3). apply Forall_app in F as [F1 F2].
      repeat split; try constructor; assumption.
    + intros (S1 & S2 & S3). inversion_clear S1 as [|? ? T1 T2]. inversion_clear S3 as [|? ? U1 U2].
      constructor; [apply IH; auto|apply Forall_app; auto].
Qed.

Lemma ordered_node l p r : ordered (l ++ p :: r) <->
  ordered l /\ ordered r /\ Forall (fun q => entry_before q p) l /\ Forall (entry_before p) r.
Proof.
  rewrite ordered_app. split.
  - intros (S1 & S2 & S3). inversion_clear S2 as [|? ? T1 T2]. repeat split; try assumption.
    eapply Forall_impl; [|exact S3]. intros q F. now inversion_clear F.
  - intros (S1 & S2 & S3 & S4). repeat split; [assumption|constructor; assumption|].
    eapply Forall_impl; [|exact S3]. intros q F. constructor; [assumption|].
    eapply Forall_impl; [|exact S4]. intros q'. apply before_trans. exact F.
Qed.

Lemma find_name_none name l : (forall p, In p l -> strcmp_ci name (fst p) <> 0) -> find_name name l = None.
Proof.
  unfold find_name. intros H. destruct (find _ l) as [p|] eqn:E; [|reflexivity].
  apply find_some in E as [I E]. apply Z.eqb_eq in E. now apply H in I.
Qed.

Lemma find_name_app name l1 l2 :
  find_name name (l1 ++ l2) = match find_name name l1 with Some p => Some p | None => find_name name l2 end.
Proof.
  unfold find_name. induction l1 as [|p l1 IH]; [reflexivity|]. cbn [app find].
  destruct (strcmp_ci name (fst p) =? 0); [reflexivity|apply IH].
Qed.

(** In an ordered sequence, a name is found on its side of an entry. *)
Lemma find_name_node name l p r : ordered (l ++ p :: r) ->
  find_name name (l ++ p :: r)
  = if strcmp_ci name (fst p) =? 0 then Some p
    else if strcmp_ci name (fst p) =? -1 then find_name name l else find_name name r.
Proof.
  intros (_ & _ & Fl & Fr)%ordered_node. rewrite Forall_forall in Fl, Fr. unfold entry_before in *.
  rewrite find_name_app. unfold find_name at 2. cbn [find]. fold (find_name name r).
  assert (L : strcmp_ci name (fst p) <> -1 -> find_name name l = None).
  { intros H. apply find_name_none. intros q Hq Z0. apply H. apply strcmp_ci_zero in Z0.
    rewrite (strcmp_ci_same_l _ _ _ Z0). now apply Fl. }
  assert (R : strcmp_ci name (fst p) = -1 -> find_name name r = None).
  { intros H. apply find_name_none. intros q Hq Z0. apply strcmp_ci_zero in Z0.
    apply (before_irrefl (fst q)). unfold before. rewrite <- (strcmp_ci_same_l _ _ (fst q) Z0).
    apply before_trans with (fst p); auto. }
  destruct (Z.eqb_spec (strcmp_ci name (fst p)) 0) as [E|E].
  - now rewrite L by lia.
  - destruct (Z.eqb_spec (strcmp_ci name (fst p)) (-1)) as [E'|E'].
    + rewrite R by assumption. now destruct (find_name name l).
    + now rewrite L by assumption.
Qed.

Lemma insert_entry_left name v l p r : before name (fst p) ->
  insert_entry name v (l ++ p :: r) = insert_entry name v l ++ p :: r.
Proof.
  unfold before. intros H. induction l as [|q l IH]; cbn [app insert_entry].
  - now rewrite H.
  - destruct (_ =? -1); [reflexivity|]. now rewrite IH.
Qed.

Lemma insert_entry_right name v l p r : ordered (l ++ p :: r) -> before (fst p) name ->
  insert_entry name v (l ++ p :: r) = l ++ p :: insert_entry name v r.
Proof.
  intros (_ & _ & Fl & _)%ordered_node H. induction Fl as [|q l Hq Fl IH]; cbn [app insert_entry].
  - apply before_after in H. rewrite H. reflexivity.
  - assert (B : before (fst q) name) by (apply before_trans with (fst p); assumption).
    apply before_after in B. rewrite B. cbn [Z.eqb]. now rewrite IH.
Qed.

Lemma insert_entry_ordered name v l : ordered l -> find_name name l = None -> ordered (insert_entry name v l).
Proof.
  unfold ordered. induction 1 as [|p l S IH F]; cbn [insert_entry]; intros N.
  - repeat constructor.
  - unfold find_name in N. cbn [find] in N. fold (find_name name l) in N.
    revert N. apply (strcmp_cases name (fst p)); intros C; cbn [Z.eqb]; intros N; try discriminate.
    + constructor; [constructor; assumption|]. constructor; [assumption|].
      eapply Forall_impl; [|exact F]. intros q. now apply before_trans.
    + constructor; [auto|]. clear IH S N. induction F as [|q l Hq F IH]; cbn [insert_entry].
      * constructor; [assumption|constructor].
      * destruct (_ =? -1); repeat constructor; assumption.
Qed.

Lemma find_insert_entry name v name' l : find_name name l = None ->
  find_name name' (insert_entry name v l)
  = if strcmp_ci name' name =? 0 then Some (name, v) else find_name name' l.
Proof.
  unfold find_name. induction l as [|p l IH]; cbn [insert_entry find]; [reflexivity|].
  destruct (Z.eqb_spec (strcmp_ci name (fst p)) 0) as [|Np]; [discriminate|]. intros N.
  destruct (Z.eqb_spec (strcmp_ci name (fst p)) (-1)); cbn [find fst].
  - destruct (strcmp_ci name' name =? 0); reflexivity.
  - rewrite IH by assumption. destruct (Z.eqb_spec (strcmp_ci name' (fst p)) 0) as [Z0|]; [|reflexivity].
    destruct (Z.eqb_spec (strcmp_ci name' name) 0) as [Z1|]; [|reflexivity].
    exfalso. apply Np. rewrite strcmp_ci_zero in *. unfold same_name in *. congruence.
Qed.

(** ** Lookup *)

Lemma tree_lookup_ok t name : sorted t ->
  returns (tree_lookup t name) (fun x => node_entry x = find_name name (elements t)).
Proof.
  unfold sorted. induction t as [|h l IHl n v r IHr]; cbn [tree_lookup elements]; intros S.
  - now ret_now.
  - pose proof S as (Sl & Sr & _)%ordered_node. rewrite (find_name_node name _ _ _ S). cbn [fst].
    destruct (strcmp_ci_values name n) as [E|[E|E]]; rewrite E; cbn [Z.eqb Z.pos_sub Pos.eqb].
    + now apply IHl.
    + now ret_now.
    + now apply IHr.
Qed.

(** ** Rotations and rebalancing *)

Ltac avl_inv :=
  repeat match goal with
         | H : avl (Node _ _ _ _ _) |- _ => inversion H; clear H; subst
         end.

Lemma app_cons_assoc {A} (l1 l2 l3 : list A) x y :
  l1 ++ x :: l2 ++ y :: l3 = (l1 ++ x :: l2) ++ y :: l3.
Proof. now rewrite <- app_assoc. Qed.

Lemma update_height_ok h l n v r : avl l -> avl r -> Z.abs (BRANCH_HEIGHT l - BRANCH_HEIGHT r) <= 1 ->
  exists t, update_height (Node h l n v r) = Return t /\ avl t /\
    elements t = elements (Node h l n v r) /\ BRANCH_HEIGHT t = 1 + Z.max (BRANCH_HEIGHT l) (BRANCH_HEIGHT r).
Proof.
  intros Hl Hr Hb. eexists. split; [reflexivity|]. rewrite MAX_max. repeat split. now constructor.
Qed.

(** What rebalancing promises: an AVL tree of the same entries, whose height is
    that of the unbalanced tree or one less. *)
Definition rebalanced (l : tree_node) (p : entry) (r : tree_node) (t : tree_node) : Prop :=
  avl t /\ elements t = elements l ++ p :: elements r /\
  let hl := BRANCH_HEIGHT l in let hr := BRANCH_HEIGHT r in
  if Z.abs (hl - hr) <=? 1 then BRANCH_HEIGHT t = 1 + Z.max hl hr
  else Z.max hl hr <= BRANCH_HEIGHT t <= 1 + Z.max hl hr.

Ltac heights :=
  cbn [BRANCH_HEIGHT] in *;
  repeat match goal with H : avl ?t |- _ => lazymatch goal with
         | _ : 0 <= BRANCH_HEIGHT t |- _ => fail
         | _ => pose proof (avl_height t H) end end;
  rewrite ?MAX_max in *.

Lemma rotate_rite_simple h lh ll ln lv lr n v r :
  avl (Node lh ll ln lv lr) -> avl r -> BRANCH_HEIGHT lr <= BRANCH_HEIGHT ll ->
  lh = BRANCH_HEIGHT r + 2 ->
  returns (rotate_rite (Node h (Node lh ll ln lv lr) n v r)) (rebalanced (Node lh ll ln lv lr) (n, v) r).
Proof.
  intros Hl Hr Hb Hh. inversion Hl as [|? ? ? ? ? All Alr Eh Eb]; subst. cbn [rotate_rite update_height bind]. ret_now.
  unfold rebalanced. cbv zeta. heights. cbn [elements]. rewrite <- app_cons_assoc. split; [|split; [reflexivity|]].
  - constructor; [assumption|constructor; auto; lia| |]; cbn [BRANCH_HEIGHT]; lia.
  - match goal with |- context [?a <=? 1] => destruct (Z.leb_spec a 1) end; lia.
Qed.

Lemma rotate_left_simple h l n v rh rl rn rv rr :
  avl l -> avl (Node rh rl rn rv rr) -> BRANCH_HEIGHT rl <= BRANCH_HEIGHT rr ->
  rh = BRANCH_HEIGHT l + 2 ->
  returns (rotate_left (Node h l n v (Node rh rl rn rv rr))) (rebalanced l (n, v) (Node rh rl rn rv rr)).
Proof.
  intros Hl Hr Hb Hh. inversion Hr as [|? ? ? ? ? Arl Arr Eh Eb]; subst. cbn [rotate_left update_height bind]. ret_now.
  unfold rebalanced. cbv zeta. heights. cbn [elements]. rewrite app_cons_assoc. split; [|split; [reflexivity|]].
  - constructor; [constructor; auto; lia|assumption| |]; cbn [BRANCH_HEIGHT]; lia.
  - match goal with |- context [?a <=? 1] => destruct (Z.leb_spec a 1) end; lia.
Qed.

Lemma rebalance_left_ok h l n v r : avl l -> avl r ->
  -1 <= BRANCH_HEIGHT l - BRANCH_HEIGHT r <= 2 ->
  returns (rebalance_left (Node h l n v r)) (rebalanced l (n, v) r).
Proof.
  intros Hl Hr Hb. unfold rebalance_left. rewrite Z.geb_leb.
  destruct (Z.leb_spec (BRANCH_HEIGHT l) (1 + BRANCH_HEIGHT r)).
  - destruct (update_height_ok h l n v r Hl Hr ltac:(lia)) as (t & -> & At & Et & Ht). ret_now.
    split; [assumption|]. split; [exact Et|]. cbv zeta. destruct (Z.leb_spec (Z.abs (BRANCH_HEIGHT l - BRANCH_HEIGHT r)) 1); lia.
  - destruct l as [|lh ll ln lv lr]; [heights; lia|]. rewrite Z.gtb_ltb.
    destruct (Z.ltb_spec (BRANCH_HEIGHT ll) (BRANCH_HEIGHT lr)).
    + destruct lr as [|qh ql qn qv qr]; [avl_inv; heights; lia|]. avl_inv.
      cbn [rotate_left rotate_rite update_height bind]. ret_now. unfold rebalanced. cbv zeta. heights. cbn [elements].
      split; [|split; [now repeat (rewrite <- app_assoc; cbn [app])|]].
      * constructor; [constructor; auto; lia|constructor; auto; lia| |]; cbn [BRANCH_HEIGHT]; lia.
      * match goal with |- context [?a <=? 1] => destruct (Z.leb_spec a 1) end; lia.
    + cbn [bind]. apply rotate_rite_simple; heights; auto; lia.
Qed.

Lemma rebalance_rite_ok h l n v r : avl l -> avl r ->
  -1 <= BRANCH_HEIGHT r - BRANCH_HEIGHT l <= 2 ->
  returns (rebalance_rite (Node h l n v r)) (rebalanced l (n, v) r).
Proof.
  intros Hl Hr Hb. unfold rebalance_rite. rewrite Z.geb_leb.
  destruct (Z.leb_spec (BRANCH_HEIGHT r) (1 + BRANCH_HEIGHT l)).
  - destruct (update_height_ok h l n v r Hl Hr ltac:(lia)) as (t & -> & At & Et & Ht). ret_now.
    split; [assumption|]. split; [exact Et|]. cbv zeta. destruct (Z.leb_spec (Z.abs (BRANCH_HEIGHT l - BRANCH_HEIGHT r)) 1); lia.
  - destruct r as [|rh rl rn rv rr]; [heights; lia|]. rewrite Z.gtb_ltb.
    destruct (Z.ltb_spec (BRANCH_HEIGHT rr) (BRANCH_HEIGHT rl)).
    + destruct rl as [|qh ql qn qv qr]; [avl_inv; heights; lia|]. avl_inv.
      cbn [rotate_left rotate_rite update_height bind]. ret_now. unfold rebalanced. cbv zeta. heights. cbn [elements].
      split; [|split; [now repeat (rewrite <- app_assoc; cbn [app])|]].
      * constructor; [constructor; auto; lia|constructor; auto; lia| |]; cbn [BRANCH_HEIGHT]; lia.
      * match goal with |- context [?a <=? 1] => destruct (Z.leb_spec a 1) end; lia.
    + cbn [bind]. apply rotate_left_simple; heights; auto; lia.
Qed.

(** Rebalancing an AVL tree changes nothing. *)
Lemma rebalance_same h l n v r : avl (Node h l n v r) ->
  rebalance_left (Node h l n v r) = Return (Node h l n v r) /\
  rebalance_rite (Node h l n v r) = Return (Node h l n v r).
Proof.
  intros H. inversion H as [|? ? ? ? ? Al Ar Eh Eb]; subst. unfold rebalance_left, rebalance_rite. rewrite !Z.geb_leb.
  destruct (Z.leb_spec (BRANCH_HEIGHT l) (1 + BRANCH_HEIGHT r)); [|lia].
  destruct (Z.leb_spec (BRANCH_HEIGHT r) (1 + BRANCH_HEIGHT l)); [|lia].
  cbn [update_height]. now rewrite MAX_max.
Qed.

(** ** Insertion *)

Definition inserted (t : tree_node) (name : c_string) (value : Z) (s : tree_state) (out : tree_node * tree_state) : Prop :=
  let (t', s') := out in
  match find_name name (elements t), free_nodes s with
  | Some _, _ => t' = t /\ s' = tree_error (tree_insert_duplicate_entry name) s
  | None, O => t' = t /\ s' = tree_error leaf_make_malloc_failed s
  | None, S k =>
      avl t' /\ elements t' = insert_entry name value (elements t) /\
      BRANCH_HEIGHT t <= BRANCH_HEIGHT t' <= BRANCH_HEIGHT t + 1 /\
      s' = TreeState (bias s) k (tree_error_message s)
  end.

Lemma tree_insert_ok t name value s : avl t -> sorted t ->
  returns (tree_insert t name value s) (inserted t name value s).
Proof.
  unfold sorted, inserted. intros Ht. induction Ht as [|h l n v r Hl IHl Hr IHr Eh Eb]; cbn [tree_insert elements]; intros S.
  - ret_now. unfold leaf_make, find_name. cbn [find]. destruct (free_nodes s); [now split|].
    split; [|split; [reflexivity|split; [cbn; lia|reflexivity]]]. constructor; auto; cbn; lia.
  - pose proof S as (Sl & Sr & _)%ordered_node. rewrite (find_name_node name _ _ _ S). cbn [fst].
    assert (A : avl (Node h l n v r)) by now constructor. destruct (rebalance_same h l n v r A) as [RL RR].
    destruct (strcmp_ci_values name n) as [E|[E|E]]; rewrite E; cbn [Z.eqb Z.pos_sub Pos.eqb].
    + ret_step IHl; [assumption|]. intros [l' s'] H. destruct (find_name name (elements l)) as [p|].
      { destruct H as [-> ->]. rewrite RL. cbn [bind]. ret_now. now split. }
      destruct (free_nodes s) as [|k]; [destruct H as [-> ->]; rewrite RL; cbn [bind]; ret_now; now split|].
      destruct H as (Al & El & Bl & ->). ret_step rebalance_left_ok; [assumption|assumption|lia|].
      intros t' (At & Et & Bt). ret_now. split; [assumption|]. split.
      * rewrite Et, El. symmetry. now apply insert_entry_left.
      * split; [|reflexivity]. heights. cbv zeta in Bt. revert Bt.
        destruct (Z.leb_spec (Z.abs (BRANCH_HEIGHT l' - BRANCH_HEIGHT r)) 1); lia.
    + ret_now. now split.
    + ret_step IHr; [assumption|]. intros [r' s'] H. destruct (find_name name (elements r)) as [p|].
      { destruct H as [-> ->]. rewrite RR. cbn [bind]. ret_now. now split. }
      destruct (free_nodes s) as [|k]; [destruct H as [-> ->]; rewrite RR; cbn [bind]; ret_now; now split|].
      destruct H as (Ar & Er & Br & ->). ret_step rebalance_rite_ok; [assumption|assumption|lia|].
      intros t' (At & Et & Bt). ret_now. split; [assumption|]. split.
      * rewrite Et, Er. symmetry. apply insert_entry_right; [assumption|]. now apply before_after.
      * split; [|reflexivity]. heights. cbv zeta in Bt. revert Bt.
        destruct (Z.leb_spec (Z.abs (BRANCH_HEIGHT l - BRANCH_HEIGHT r')) 1); lia.
Qed.

(** ** The height of an AVL tree *)

Fixpoint fib (n : nat) : Z :=
  match n with
  | O => 0
  | S m => match m with O => 1 | S k => fib m + fib k end
  end.

Lemma fib_step n : fib (S (S n)) = fib (S n) + fib n.
Proof. reflexivity. Qed.

Lemma fib_nonneg n : 0 <= fib n /\ 0 <= fib (S n).
Proof. induction n as [|n IH]; [cbn; lia|]. rewrite fib_step. lia. Qed.

Lemma fib_mono a b : (a <= b)%nat -> fib (S a) <= fib (S b).
Proof.
  induction 1 as [|b _ IH]; [lia|]. rewrite fib_step. pose proof (fib_nonneg b). lia.
Qed.

(** "The least-balanced AVL tree has Fibonacci-sized branches". *)
Lemma fibonacci_size t : avl t -> fib (Z.to_nat (BRANCH_HEIGHT t) + 2) <= zlength (elements t) + 1.
Proof.
  induction 1 as [|h l n v r Hl IHl Hr IHr Eh Eb]; [cbn; lia|]. cbn [BRANCH_HEIGHT elements].
  pose proof (avl_height l Hl). pose proof (avl_height r Hr). rewrite length_app. cbn [length].
  set (m := Nat.min (Z.to_nat (BRANCH_HEIGHT l)) (Z.to_nat (BRANCH_HEIGHT r))).
  assert (F : fib (Z.to_nat h + 2) <= fib (Z.to_nat (BRANCH_HEIGHT l) + 2) + fib (Z.to_nat (BRANCH_HEIGHT r) + 2)); [|lia].
  replace (Z.to_nat h + 2)%nat with (S (S (Z.to_nat h))) by lia. rewrite fib_step.
  replace (Z.to_nat (BRANCH_HEIGHT l) + 2)%nat with (S (S (Z.to_nat (BRANCH_HEIGHT l)))) by lia.
  replace (Z.to_nat (BRANCH_HEIGHT r) + 2)%nat with (S (S (Z.to_nat (BRANCH_HEIGHT r)))) by lia.
  destruct (Z_le_gt_dec (BRANCH_HEIGHT r) (BRANCH_HEIGHT l)).
  - replace (Z.to_nat h) with (S (Z.to_nat (BRANCH_HEIGHT l))) by lia.
    assert (fib (S (Z.to_nat (BRANCH_HEIGHT l))) <= fib (S (S (Z.to_nat (BRANCH_HEIGHT r)))))
      by (apply fib_mono; lia). lia.
  - replace (Z.to_nat h) with (S (Z.to_nat (BRANCH_HEIGHT r))) by lia.
    assert (fib (S (Z.to_nat (BRANCH_HEIGHT r))) <= fib (S (S (Z.to_nat (BRANCH_HEIGHT l)))))
      by (apply fib_mono; lia). lia.
Qed.

(** ** Building a tree from a sorted table *)

(** The entries of a table of names numbered from [value]. *)
Fixpoint numbered (names : list c_string) (value : Z) : list entry :=
  match names with
  | [] => []
  | n :: names => (n, value) :: numbered names (value + 1)
  end.

Lemma numbered_app l1 l2 value : numbered (l1 ++ l2) value = numbered l1 value ++ numbered l2 (value + zlength l1).
Proof.
  revert value. induction l1 as [|n l1 IH]; intros value; cbn [app numbered length].
  - f_equal. lia.
  - rewrite IH. do 3 f_equal. lia.
Qed.

Lemma firstn_split {A} (k m : nat) (l : list A) x : nth_error l k = Some x -> (k < m)%nat -> (m <= length l)%nat ->
  firstn m l = firstn k l ++ x :: firstn (m - k - 1) (skipn (S k) l).
Proof.
  revert m l. induction k as [|k IH]; intros [|m] [|y l] E Hk Hm; try lia; try discriminate.
  - injection E as ->. cbn [firstn skipn app]. do 2 f_equal. lia.
  - cbn [nth_error length] in *. cbn [firstn skipn app]. f_equal. rewrite (IH m l E) by lia. do 3 f_equal.
Qed.

Lemma bit_length_halves a b : 0 <= a -> 0 <= b -> Z.abs (a - b) <= 1 ->
  bit_length (a + b + 1) = 1 + Z.max (bit_length a) (bit_length b) /\ Z.abs (bit_length a - bit_length b) <= 1.
Proof.
  assert (M : forall a b, 0 <= b -> b <= a <= b + 1 ->
    bit_length (a + b + 1) = 1 + bit_length a /\ bit_length b <= bit_length a <= bit_length b + 1).
  { intros a' b' Hb' H. destruct (Z.eq_dec a' 0) as [->|Na].
    - assert (b' = 0) as -> by lia. split; [reflexivity|lia].
    - pose proof (bit_length_spec a' ltac:(lia)) as [La Ua]. pose proof (bit_length_pos a' ltac:(lia)) as Pa.
      assert (P2 : 2 ^ bit_length a' = 2 * 2 ^ (bit_length a' - 1)) by (rewrite <- Z.pow_succ_r by lia; f_equal; lia).
      split.
      + rewrite (Z.add_comm 1). apply bit_length_unique; [lia|].
        replace (bit_length a' + 1 - 1) with (bit_length a') by lia. rewrite Z.pow_add_r by lia. lia.
      + split; [apply bit_length_le; lia|]. destruct (Z.eq_dec b' 0) as [->|Nb].
        * assert (a' = 1) as -> by lia. cbn. lia.
        * pose proof (bit_length_spec b' ltac:(lia)) as [Lb Ub]. pose proof (bit_length_pos b' ltac:(lia)).
          apply bit_length_le; [lia|]. rewrite Z.pow_add_r by lia. change (2 ^ 1) with 2. lia. }
  intros Ha Hb H. destruct (Z_le_gt_dec b a).
  - destruct (M a b) as [E ?]; lia.
  - destruct (M b a) as [E ?]; [lia..|]. replace (a + b + 1) with (b + a + 1) by lia. lia.
Qed.

Definition built (names : list c_string) (high value : Z) (s : tree_state) (out : tree_node * tree_state) : Prop :=
  let (t, s') := out in
  avl t /\ elements t = numbered (firstn (Z.to_nat high) names) value /\ BRANCH_HEIGHT t = bit_length high /\
  Z.of_nat (free_nodes s') = Z.of_nat (free_nodes s) - high /\ 0 <= bias s' <= 1 /\
  tree_error_message s' = tree_error_message s.

(** The size of the left subtree: half, less the [bias] when [high] is even. *)
Lemma middle_split high b : 1 < high -> 0 <= b <= 1 ->
  let middle := high / 2 - (if Z.land high 1 =? 0 then b else 0) in
  0 <= middle < high /\ Z.abs (middle - (high - (middle + 1))) <= 1.
Proof.
  intros Hh Hb. cbv zeta. change 1 with (2 ^ 1 - 1) at 2 5. rewrite !(land_mask 1 (2 ^ 1 - 1)) by lia. change (2 ^ 1) with 2.
  destruct (Z.eqb_spec (high mod 2) 0); dlia.
Qed.

Lemma tree_build_ok fuel : forall high names value s,
  0 <= high < Z.of_nat fuel -> high <= zlength names -> high <= Z.of_nat (free_nodes s) -> 0 <= bias s <= 1 ->
  returns (tree_build fuel high names value s) (built names high value s).
Proof.
  induction fuel as [|fuel IH]; intros high names value s Hh Hn Hf Hb; [lia|]. cbn [tree_build].
  rewrite Z.gtb_ltb. destruct (Z.ltb_spec 1 high) as [H1|H1].
  - destruct (middle_split high (bias s) H1 Hb) as [Hm Hd]. cbv zeta in Hm, Hd.
    set (s1 := if Z.land high 1 =? 0 then TreeState (1 - bias s) (free_nodes s) (tree_error_message s) else s).
    assert (E : (if Z.land high 1 =? 0
                 then (high / 2 - bias s, TreeState (1 - bias s) (free_nodes s) (tree_error_message s))
                 else (high / 2, s)) = (high / 2 - (if Z.land high 1 =? 0 then bias s else 0), s1)).
    { unfold s1. destruct (Z.land high 1 =? 0); [reflexivity|]. now rewrite Z.sub_0_r. }
    cbv zeta. rewrite E. set (middle := high / 2 - _) in *. clearbody middle.
    assert (F1 : free_nodes s1 = free_nodes s /\ 0 <= bias s1 <= 1 /\ tree_error_message s1 = tree_error_message s).
    { unfold s1. destruct (Z.land high 1 =? 0); cbn [free_nodes bias tree_error_message]; repeat split; lia. }
    clearbody s1. clear E. destruct F1 as (F1 & B1 & M1).
    destruct (nth_error names (Z.to_nat middle)) as [n|] eqn:En; [|apply nth_error_None in En; lia].
    unfold name_ref. destruct (Z.ltb_spec middle 0); [lia|]. rewrite En. cbn [bind].
    destruct (free_nodes s1) as [|k] eqn:Ek; [lia|]. unfold leaf_make. rewrite Ek.
    ret_step IH; cbn [free_nodes bias]; [lia|lia|lia|lia|]. intros [l s2] (Al & El & Hl & Fl & Bl & Ml).
    cbn [free_nodes bias tree_error_message] in *.
    ret_step IH; [lia|rewrite length_skipn; lia|lia|lia|]. intros [r s3] (Ar & Er & Hr & Fr & Br & Mr).
    destruct (bit_length_halves middle (high - (middle + 1))) as [EB AB]; [lia..|].
    destruct (update_height_ok 1 l n (value + middle) r Al Ar ltac:(lia)) as (t & -> & At & Et & Ht). cbn [bind].
    ret_now. split; [assumption|]. split.
    + rewrite Et. cbn [elements]. rewrite El, Er.
      rewrite (firstn_split (Z.to_nat middle) (Z.to_nat high) names n En) by lia.
      rewrite numbered_app. cbn [numbered]. rewrite length_firstn.
      replace (Z.of_nat (Nat.min (Z.to_nat middle) (length names))) with middle by lia.
      replace (Z.to_nat (high - (middle + 1))) with (Z.to_nat high - Z.to_nat middle - 1)%nat by lia.
      replace (Z.to_nat (middle + 1)) with (S (Z.to_nat middle)) by lia.
      now replace (value + (middle + 1)) with (value + middle + 1) by lia.
    + replace (middle + (high - (middle + 1)) + 1) with high in EB by lia. rewrite Ht, Hl, Hr, <- EB.
      repeat split; try lia. congruence.
  - destruct (Z.eqb_spec high 1) as [->|].
    + unfold name_ref. destruct names as [|n names]; [cbn in Hn; lia|]. cbn [Z.ltb Z.compare Z.to_nat nth_error bind].
      unfold leaf_make. destruct (free_nodes s) as [|k] eqn:Ek; [lia|]. ret_now.
      split; [constructor; auto; cbn; lia|]. cbn. repeat split; lia.
    + assert (high = 0) as -> by lia. ret_now. split; [constructor|]. cbn. repeat split; lia.
Qed.

(** A table in order makes an ordered tree. *)
Lemma numbered_ordered names value : StronglySorted before names -> ordered (numbered names value).
Proof.
  unfold ordered. intros S. revert value. induction S as [|n names S IH F]; intros value; cbn [numbered]; [constructor|].
  constructor; [apply IH|]. clear S IH. revert value. induction F as [|m names Hm F IH]; intros value; cbn [numbered]; [constructor|].
  constructor; [exact Hm|]. specialize (IH (value + 1)). exact IH.
Qed.

Lemma tree_free_ok t s : tree_free t s = TreeState (bias s) (length (elements t) + free_nodes s) (tree_error_message s).
Proof.
  revert s. induction t as [|h l IHl n v r IHr]; intros s; [now destruct s|]. cbn [tree_free elements].
  rewrite IHr, IHl. cbn [bias free_nodes tree_error_message]. rewrite length_app. cbn [length]. f_equal. lia.
Qed.

(** An ordered sequence has one entry for a name. *)
Lemma ordered_functional l name p q : ordered l -> In p l -> In q l ->
  same_name name (fst p) -> same_name name (fst q) -> q = p.
Proof.
  intros S. induction S as [|a l S IH F]; intros Ip Iq Np Nq; [destruct Ip|].
  rewrite Forall_forall in F. assert (X : forall b, In b l -> same_name name (fst a) -> same_name name (fst b) -> False).
  { intros b Ib Na Nb. specialize (F b Ib). unfold entry_before, before, same_name in *.
    replace (strcmp_ci (fst a) (fst b)) with 0 in F by (symmetry; apply strcmp_ci_zero; unfold same_name; congruence). lia. }
  destruct Ip as [<-|Ip], Iq as [<-|Iq]; auto; exfalso; eauto.
Qed.

(** The entry of a name in a sorted table. *)
Lemma static_lookup names value name i n : StronglySorted before names -> nth_error names i = Some n -> same_name name n ->
  find_name name (numbered names value) = Some (n, value + Z.of_nat i).
Proof.
  intros S. revert value i. induction S as [|m names S IH F]; intros value i E N; [destruct i; discriminate|].
  unfold find_name. cbn [numbered find fst]. destruct i as [|i]; cbn [nth_error] in E.
  - injection E as ->. rewrite (proj2 (strcmp_ci_zero name n) N). cbn [Z.eqb]. do 2 f_equal. lia.
  - destruct (Z.eqb_spec (strcmp_ci name m) 0) as [Z0|].
    + exfalso. rewrite Forall_forall in F. specialize (F n (nth_error_In _ _ E)). apply (before_irrefl n).
      apply strcmp_ci_zero in Z0. unfold before in *. rewrite <- (strcmp_ci_same_l name n n N).
      now rewrite (strcmp_ci_same_l name m n Z0).
    + fold (find_name name (numbered names (value + 1))). rewrite (IH (value + 1) i E N). do 2 f_equal. lia.
Qed.

(** ** Properties *)

(** Tree_build makes of a sorted table of names a search tree holding every name under its number, of
    the least possible height, with the AVL condition. *)
Theorem tree_build_correct names value s :
  StronglySorted before names -> (length names <= free_nodes s)%nat -> 0 <= bias s <= 1 ->
  returns (tree_build (S (length names)) (zlength names) names value s) (fun '(t, s') =>
    avl t /\ sorted t /\ BRANCH_HEIGHT t = bit_length (zlength names) /\
    tree_error_message s' = tree_error_message s /\
    forall i n name, nth_error names i = Some n -> same_name name n ->
      find_name name (elements t) = Some (n, value + Z.of_nat i)).
Proof.
  intros So F B. ret_step tree_build_ok; [lia|lia|lia|exact B|]. intros [t s'] (A & E & H & _ & _ & M).
  rewrite Nat2Z.id, firstn_all in E. split; [exact A|]. unfold sorted. rewrite E.
  split; [now apply numbered_ordered|]. split; [exact H|]. split; [exact M|].
  intros i n name Hi Hn. now apply static_lookup.
Qed.

(** Tree_lookup returns the node whose name is the given one up to case, or null when there is none: the
    binary search finds what a linear search of the entries finds. *)
Theorem tree_lookup_correct t name : sorted t ->
  exists x, tree_lookup t name = Return x /\
    match node_entry x with
    | Some p => In p (elements t) /\ same_name name (fst p) /\ forall q, In q (elements t) -> same_name name (fst q) -> q = p
    | None => forall q, In q (elements t) -> ~ same_name name (fst q)
    end.
Proof.
  intros S. destruct (tree_lookup_ok t name S) as (x & E & H). exists x. split; [exact E|]. rewrite H.
  destruct (find_name name (elements t)) as [p|] eqn:F.
  - pose proof (find_some _ _ F) as [I Z0]. apply Z.eqb_eq, strcmp_ci_zero in Z0. split; [exact I|]. split; [exact Z0|].
    intros q Iq Sq. now apply (ordered_functional (elements t) name).
  - intros q Iq Sq. apply (find_none _ _ F) in Iq. apply strcmp_ci_zero in Sq. rewrite Sq in Iq. discriminate.
Qed.

(** An AVL tree of height h has at least fib(h+2)-1 entries, the bound the comment in avltree.c gives. *)
Theorem avl_height_fibonacci t : avl t ->
  fib (Z.to_nat (BRANCH_HEIGHT t) + 2) <= zlength (elements t) + 1.
Proof. exact (fibonacci_size t). Qed.

(** C35: tree_insert keeps the AVL condition, the stored heights and the order of names, inserts the
    entry in order, grows the height by one at most, and leaves the tree as it was when the name is a
    duplicate or malloc fails. *)
Theorem tree_insert_correct t name value s : avl t -> sorted t ->
  exists t' s', tree_insert t name value s = Return (t', s') /\ avl t' /\ sorted t' /\
    BRANCH_HEIGHT t <= BRANCH_HEIGHT t' <= BRANCH_HEIGHT t + 1 /\
    match find_name name (elements t), free_nodes s with
    | None, S _ =>
        elements t' = insert_entry name value (elements t) /\ tree_error_message s' = tree_error_message s /\
        forall other, find_name other (elements t')
                      = if strcmp_ci other name =? 0 then Some (name, value) else find_name other (elements t)
    | Some _, _ => t' = t /\ tree_error_message s' = Some (tree_insert_duplicate_entry name)
    | None, O => t' = t /\ tree_error_message s' = Some leaf_make_malloc_failed
    end.
Proof.
  intros Ht St. destruct (tree_insert_ok t name value s Ht St) as ([t' s'] & E & H). exists t', s'.
  split; [exact E|]. unfold inserted in H. destruct (find_name name (elements t)) eqn:F.
  - destruct H as [-> ->]. repeat split; auto; lia.
  - destruct (free_nodes s) as [|k]; [destruct H as [-> ->]; repeat split; auto; lia|].
    destruct H as (A & El & B & ->). split; [exact A|]. split.
    + unfold sorted. rewrite El. now apply insert_entry_ordered.
    + split; [exact B|]. split; [exact El|]. split; [reflexivity|]. intros other. rewrite El. now apply find_insert_entry.
Qed.

Lemma tree_insert_correct_witness :
  let t := Node 2 Null [97] 0 (Node 1 Null [98] 1 Null) in let s := TreeState 0 1 None in let name := [67] in
  exists t' s', tree_insert t name 2 s = Return (t', s') /\ avl t' /\ sorted t' /\
    BRANCH_HEIGHT t <= BRANCH_HEIGHT t' <= BRANCH_HEIGHT t + 1 /\
    match find_name name (elements t), free_nodes s with
    | None, S _ =>
        elements t' = insert_entry name 2 (elements t) /\ tree_error_message s' = tree_error_message s /\
        forall other, find_name other (elements t')
                      = if strcmp_ci other name =? 0 then Some (name, 2) else find_name other (elements t)
    | Some _, _ => t' = t /\ tree_error_message s' = Some (tree_insert_duplicate_entry name)
    | None, O => t' = t /\ tree_error_message s' = Some leaf_make_malloc_failed
    end.
Proof.
  cbv zeta. apply tree_insert_correct.
  - repeat constructor; cbn; lia.
  - repeat constructor.
Defined.
