(* ===== verification/PrimTable.v ===== *)
(** * primutl.c: the table of primitive procedures

    Primitives are known by name outside the microcode and by number inside.
    The state is [primitive_table]: the AVL tree from names to numbers and the
    five parallel tables indexed by number, here one list of entries whose
    length is [prim_table_size]; the entries a reallocation adds are [None]
    until they are written.  A primitive procedure is a code address; the
    static tables that the build generates are parameters. *)

From Stdlib Require Import ZArith List Bool Lia Sorting.Sorted.
From S2P Require Import Prelude Bits Object Bytes AvlTree.
Import ListNotations.

#[local] Open Scope Z_scope.
#[local] Open Scope microcode_scope.

(** ** prim.h, const.h, types.h *)

Definition TC_PRIMITIVE : Z := 0x18.
Definition UNKNOWN_PRIMITIVE_ARITY : Z := -2.

(** The address of the procedure [Prim_unimplemented]; no other primitive has it. *)
Definition Prim_unimplemented : Z := 0.

Definition PRIMITIVE_P (object : Z) : bool := OBJECT_TYPE object =? TC_PRIMITIVE.
Definition PRIMITIVE_NUMBER (primitive : Z) : Z := OBJECT_DATUM primitive.
Definition MAKE_PRIMITIVE_OBJECT (index : Z) : Z := MAKE_OBJECT TC_PRIMITIVE index.

Record prim_entry : Type := PrimEntry {
  procedure : Z;
  arity : Z;
  count : Z;
  primitive_name : c_string;
  documentation : option c_string
}.

Record primitive_table : Type := PrimitiveTable {
  prim_procedure_tree : tree_node;
  MAX_PRIMITIVE : Z;
  entries : list (option prim_entry);
  trees : tree_state
}.

Definition prim_table_size (t : primitive_table) : Z := zlength (entries t).

Definition entry_ref (t : primitive_table) (index : Z) : outcome prim_entry :=
  if index <? 0 then Wild
  else match nth_error (entries t) (Z.to_nat index) with Some (Some e) => Return e | _ => Wild end.

Definition entry_set (t : primitive_table) (index : Z) (e : prim_entry) : outcome primitive_table :=
  if (0 <=? index) && (index <? prim_table_size t)
  then Return (PrimitiveTable (prim_procedure_tree t) (MAX_PRIMITIVE t)
                 (update (Z.to_nat index) (Some e) (entries t)) (trees t))
  else Wild.

Definition PRIMITIVE_ARITY (t : primitive_table) (primitive : Z) : outcome Z :=
  e <- entry_ref t (PRIMITIVE_NUMBER primitive) ;; Return (arity e).

Definition IMPLEMENTED_PRIMITIVE_P (t : primitive_table) (primitive : Z) : outcome bool :=
  e <- entry_ref t (PRIMITIVE_NUMBER primitive) ;; Return (negb (procedure e =? Prim_unimplemented)).

(** ** Growing the tables *)

(** The tables hold [MAX_PRIMITIVE] entries and a tenth more afterwards. *)
Definition grow_primitive_tables (t : primitive_table) : primitive_table :=
  let new_size := Z.to_nat (MAX_PRIMITIVE t + MAX_PRIMITIVE t / 10) in
  PrimitiveTable (prim_procedure_tree t) (MAX_PRIMITIVE t)
    (firstn new_size (entries t ++ repeat None new_size)) (trees t).

Definition set_tree (t : primitive_table) (tree : tree_node) (max : Z) (s : tree_state) : primitive_table :=
  PrimitiveTable tree max (entries t) s.

Definition clear_error (s : tree_state) : tree_state := TreeState (bias s) (free_nodes s) None.

(** ** Declaring primitives *)

Definition node_value (n : tree_node) : outcome Z :=
  match n with Null => Wild | Node _ _ _ v _ => Return v end.

(** The stores common to both cases of [declare_primitive_internal]. *)
Definition fill_entry (t : primitive_table) (index code nargs_hi : Z) (name : c_string) (docstr : option c_string) :
    outcome primitive_table :=
  entry_set t index (PrimEntry code nargs_hi (nargs_hi * 8) name docstr).

Definition declare_primitive_internal (override_p : bool) (name : c_string) (code nargs_lo nargs_hi : Z)
    (docstr : option c_string) (t : primitive_table) : outcome (Z * primitive_table) :=
  prim <- tree_lookup (prim_procedure_tree t) name ;;
  match prim with
  | Node _ _ _ index _ =>
      let primitive := MAKE_PRIMITIVE_OBJECT index in
      a <- PRIMITIVE_ARITY t primitive ;;
      implemented <- IMPLEMENTED_PRIMITIVE_P t primitive ;;
      if (negb (a =? nargs_hi) && negb (a =? UNKNOWN_PRIMITIVE_ARITY)) || (implemented && negb override_p)
      then Return (LONG_TO_UNSIGNED_FIXNUM (PRIMITIVE_NUMBER primitive), t)
      else
        e <- entry_ref t index ;;
        let ndocstr := match docstr with None => documentation e | Some _ => docstr end in
        t <- fill_entry t index code nargs_hi (primitive_name e) ndocstr ;;
        Return (primitive, t)
  | Null =>
      let t := if MAX_PRIMITIVE t =? prim_table_size t then grow_primitive_tables t else t in
      let index := MAX_PRIMITIVE t in
      '(prim, s) <- tree_insert (prim_procedure_tree t) name index (trees t) ;;
      match tree_error_message s with
      | Some _ => Return (SHARP_F, set_tree t (prim_procedure_tree t) (MAX_PRIMITIVE t) (clear_error s))
      | None =>
          let t := set_tree t prim (MAX_PRIMITIVE t + 1) s in
          let primitive := MAKE_PRIMITIVE_OBJECT index in
          t <- fill_entry t index code nargs_hi name docstr ;;
          Return (primitive, t)
      end
  end.

Definition declare_primitive := declare_primitive_internal false.
Definition install_primitive := declare_primitive_internal true.

Definition make_primitive (name : c_string) (arity : Z) (t : primitive_table) : outcome (Z * primitive_table) :=
  prim <- tree_lookup (prim_procedure_tree t) name ;;
  let cname := match prim with Node _ _ n _ _ => n | Null => name end in
  '(result, t) <- declare_primitive cname Prim_unimplemented arity arity None t ;;
  Return (if result =? SHARP_F then SHARP_F else OBJECT_NEW_TYPE TC_PRIMITIVE result, t).

(** [Exception] is the error signalled when memory is exhausted. *)
Definition find_primitive_cname (name : c_string) (intern_p allow_p : bool) (arity_ : Z) (t : primitive_table) :
    outcome (Z * primitive_table) :=
  prim <- tree_lookup (prim_procedure_tree t) name ;;
  match prim with
  | Node _ _ _ value _ =>
      let primitive := MAKE_PRIMITIVE_OBJECT value in
      implemented <- IMPLEMENTED_PRIMITIVE_P t primitive ;;
      if negb allow_p && negb implemented then Return (SHARP_F, t)
      else
        a <- PRIMITIVE_ARITY t primitive ;;
        if (arity_ =? UNKNOWN_PRIMITIVE_ARITY) || (arity_ =? a) then Return (primitive, t)
        else if a =? UNKNOWN_PRIMITIVE_ARITY then
          e <- entry_ref t (PRIMITIVE_NUMBER primitive) ;;
          t <- entry_set t (PRIMITIVE_NUMBER primitive)
                 (PrimEntry (procedure e) arity_ (count e) (primitive_name e) (documentation e)) ;;
          Return (primitive, t)
        else Return (LONG_TO_FIXNUM a, t)
  | Null =>
      if negb intern_p then Return (SHARP_F, t)
      else
        '(primitive, t) <- declare_primitive name Prim_unimplemented (if arity_ <? 0 then 0 else arity_) arity_ None t ;;
        if primitive =? SHARP_F then Exception else Return (primitive, t)
  end.

(** ** Initialization

    [static_table] has the entries of the generated static tables,
    [MAX_STATIC_PRIMITIVE + 1] of them, and [aliases] the rows
    [(alias, name)] of [primitive_aliases].  A failure terminates the process
    ([Exception]). *)

Fixpoint alias_loop (aliases : list (c_string * c_string)) (t : primitive_table) : outcome primitive_table :=
  match aliases with
  | [] => Return t
  | (alias, name) :: aliases =>
      orig <- tree_lookup (prim_procedure_tree t) name ;;
      '(index, t) <-
        match orig with
        | Node _ _ _ value _ => Return (value, t)
        | Null =>
            '(old, t) <- make_primitive name UNKNOWN_PRIMITIVE_ARITY t ;;
            if old =? SHARP_F then Exception else Return (PRIMITIVE_NUMBER old, t)
        end ;;
      '(new, s) <- tree_insert (prim_procedure_tree t) alias index (trees t) ;;
      match tree_error_message s with
      | Some _ => Exception
      | None => alias_loop aliases (set_tree t new (MAX_PRIMITIVE t) s)
      end
  end.

Definition initialize_primitives (static_table : list prim_entry) (aliases : list (c_string * c_string))
    (s : tree_state) : outcome primitive_table :=
  let max := zlength static_table in
  let t := grow_primitive_tables (PrimitiveTable Null max (map Some static_table) (clear_error s)) in
  '(tree, s) <- tree_build (S (length static_table)) max (map primitive_name static_table) 0 (trees t) ;;
  match tree_error_message s with
  | Some _ => Exception
  | None => alias_loop aliases (set_tree t tree max s)
  end.

(** ** Renumbering, for the fasl dumper *)

Definition ULONG_MAX : Z := 2 ^ 64 - 1.

Record prim_renumber : Type := PrimRenumber {
  internal : list Z;
  external : list Z;
  next_code : Z
}.

Definition make_prim_renumber_1 (n_entries : Z) : prim_renumber :=
  PrimRenumber (repeat ULONG_MAX (Z.to_nat n_entries)) (repeat ULONG_MAX (Z.to_nat n_entries)) 0.

Definition make_prim_renumber (t : primitive_table) : prim_renumber := make_prim_renumber_1 (MAX_PRIMITIVE t).

Definition code_ref (l : list Z) (index : Z) : outcome Z :=
  if index <? 0 then Wild else match nth_error l (Z.to_nat index) with Some c => Return c | None => Wild end.

Definition code_set (l : list Z) (index code : Z) : outcome (list Z) :=
  if (0 <=? index) && (index <? zlength l) then Return (update (Z.to_nat index) code l) else Wild.

Definition renumber_primitive (primitive : Z) (pr : prim_renumber) : outcome (Z * prim_renumber) :=
  let old := OBJECT_DATUM primitive in
  new <- code_ref (internal pr) old ;;
  if new =? ULONG_MAX then
    let new := next_code pr in
    internal' <- code_set (internal pr) old new ;;
    external' <- code_set (external pr) new old ;;
    Return (OBJECT_NEW_DATUM primitive new, PrimRenumber internal' external' (new + 1))
  else Return (OBJECT_NEW_DATUM primitive new, pr).

(** ** Exporting and importing the table *)

(** [memory] is the space from [start] on; the result is the words written by
    the entry and the space left. *)
Definition make_table_entry (t : primitive_table) (code : Z) (memory : list Z) : outcome (list Z * list Z) :=
  e <- entry_ref t code ;;
  let source := primitive_name e in
  let n_chars := zlength source in
  let n_words := STRING_LENGTH_TO_GC_LENGTH n_chars in
  match memory with
  | _ :: _ :: _ :: rest =>
      let data := Z.to_nat (n_words - 1) in
      if Nat.ltb (length rest) data then Wild
      else
        string <- copy_bytes (source ++ [0]) (firstn data rest) ;;
        Return (LONG_TO_FIXNUM (arity e) :: MAKE_OBJECT TC_MANIFEST_NM_VECTOR n_words
                  :: MAKE_OBJECT 0 n_chars :: string,
                skipn data rest)
  | _ => Wild
  end.

Definition table_entry_length (t : primitive_table) (code : Z) : outcome Z :=
  e <- entry_ref t code ;; Return (STRING_LENGTH_TO_GC_LENGTH (zlength (primitive_name e)) + 2).

(** The loops over codes, for a renumbering and for the whole table. *)
Fixpoint export_length (t : primitive_table) (codes : list Z) (result : Z) : outcome Z :=
  match codes with
  | [] => Return result
  | code :: codes => l <- table_entry_length t code ;; export_length t codes (result + l)
  end.

Fixpoint export_entries (t : primitive_table) (codes memory : list Z) : outcome (list Z * list Z) :=
  match codes with
  | [] => Return ([], memory)
  | code :: codes =>
      '(words, memory) <- make_table_entry t code memory ;;
      '(rest, memory) <- export_entries t codes memory ;;
      Return (words ++ rest, memory)
  end.

Definition renumbered_codes (pr : prim_renumber) : list Z := firstn (Z.to_nat (next_code pr)) (external pr).
Definition all_codes (t : primitive_table) : list Z := map Z.of_nat (seq 0 (Z.to_nat (MAX_PRIMITIVE t))).

Definition renumbered_primitives_export_length (t : primitive_table) (pr : prim_renumber) : outcome Z :=
  export_length t (renumbered_codes pr) 0.
Definition export_renumbered_primitives (t : primitive_table) (pr : prim_renumber) (start : list Z) :=
  export_entries t (renumbered_codes pr) start.
Definition primitive_table_export_length (t : primitive_table) : outcome Z := export_length t (all_codes t) 0.
Definition export_primitive_table (t : primitive_table) (start : list Z) := export_entries t (all_codes t) start.

(** [Exception] is also the error for a primitive of another arity. *)
Fixpoint import_primitive_table (n_entries : nat) (words : list Z) (t : primitive_table) :
    outcome (list Z * primitive_table) :=
  match n_entries with
  | O => Return ([], t)
  | S n =>
      match words with
      | arity_word :: header :: rest =>
          let arity_ := FIXNUM_TO_LONG arity_word in
          name <- read_c_string (concat (map word_bytes (skipn 1 rest))) ;;
          '(prim, t) <- find_primitive_cname name true true arity_ t ;;
          if negb (PRIMITIVE_P prim) then Exception
          else
            '(primitives, t) <- import_primitive_table n (skipn (Z.to_nat (OBJECT_DATUM header)) rest) t ;;
            Return (prim :: primitives, t)
      | _ => Wild
      end
  end.

(** ** The invariant of the table *)

Definition lookup_name (t : primitive_table) (name : c_string) : option (c_string * Z) :=
  find_name name (elements (prim_procedure_tree t)).

Record table_ok (t : primitive_table) : Prop := {
  ok_avl : avl (prim_procedure_tree t);
  ok_sorted : sorted (prim_procedure_tree t);
  ok_size : 10 <= MAX_PRIMITIVE t <= prim_table_size t;
  ok_datum : prim_table_size t < 2 ^ 57;
  ok_entries : forall i, 0 <= i < MAX_PRIMITIVE t ->
    exists e v, nth_error (entries t) (Z.to_nat i) = Some (Some e) /\
                lookup_name t (primitive_name e) = Some v /\ snd v = i;
  ok_values : forall p, In p (elements (prim_procedure_tree t)) -> 0 <= snd p < MAX_PRIMITIVE t;
  ok_message : tree_error_message (trees t) = None
}.

Lemma lookup_value t name p : table_ok t -> lookup_name t name = Some p -> 0 <= snd p < MAX_PRIMITIVE t.
Proof. intros Ht H. apply find_some in H as [I _]. now apply (ok_values t Ht). Qed.

Lemma ok_entry t i : table_ok t -> 0 <= i < MAX_PRIMITIVE t ->
  exists e, nth_error (entries t) (Z.to_nat i) = Some (Some e) /\ entry_ref t i = Return e.
Proof.
  intros Ht Hi. destruct (ok_entries t Ht i Hi) as (e & v & E & _). exists e. split; [assumption|].
  unfold entry_ref. destruct (Z.ltb_spec i 0); [lia|]. now rewrite E.
Qed.

Lemma number_of_object i : 0 <= i < 2 ^ 57 -> PRIMITIVE_NUMBER (MAKE_PRIMITIVE_OBJECT i) = i.
Proof. intros Hi. apply OBJECT_DATUM_MAKE; unfold TC_PRIMITIVE; lia. Qed.

Lemma object_is_primitive i : 0 <= i < 2 ^ 57 -> PRIMITIVE_P (MAKE_PRIMITIVE_OBJECT i) = true.
Proof.
  intros Hi. unfold PRIMITIVE_P, MAKE_PRIMITIVE_OBJECT. rewrite OBJECT_TYPE_MAKE by (unfold TC_PRIMITIVE; lia).
  reflexivity.
Qed.

Lemma object_not_false i : 0 <= i < 2 ^ 57 -> (MAKE_PRIMITIVE_OBJECT i =? SHARP_F) = false.
Proof.
  intros Hi. apply Z.eqb_neq. intros E. apply object_is_primitive in Hi. rewrite E in Hi. discriminate.
Qed.

Lemma tree_lookup_name t name : table_ok t ->
  exists x, tree_lookup (prim_procedure_tree t) name = Return x /\ node_entry x = lookup_name t name.
Proof. intros Ht. apply (tree_lookup_ok _ _ (ok_sorted t Ht)). Qed.

Lemma zlength_update {A} n (x : A) l : zlength (update n x l) = zlength l.
Proof. now rewrite length_update. Qed.

Definition with_entries (t : primitive_table) (es : list (option prim_entry)) : primitive_table :=
  PrimitiveTable (prim_procedure_tree t) (MAX_PRIMITIVE t) es (trees t).

Lemma entry_set_ok t i e : 0 <= i < prim_table_size t ->
  entry_set t i e = Return (with_entries t (update (Z.to_nat i) (Some e) (entries t))).
Proof. intros Hi. unfold entry_set. now replace (_ && _) with true by lia. Qed.

(** Rewriting an entry without renaming it keeps the invariant. *)
Lemma update_entry_ok t i e e' : table_ok t -> 0 <= i < MAX_PRIMITIVE t ->
  nth_error (entries t) (Z.to_nat i) = Some (Some e) -> primitive_name e' = primitive_name e ->
  table_ok (with_entries t (update (Z.to_nat i) (Some e') (entries t))).
Proof.
  intros Ht Hi E N. pose proof (ok_size t Ht) as Sz. unfold prim_table_size in Sz.
  constructor; cbn [prim_procedure_tree MAX_PRIMITIVE entries trees with_entries]; try apply Ht.
  - unfold prim_table_size. cbn [entries with_entries]. now rewrite length_update.
  - unfold prim_table_size. cbn [entries with_entries]. rewrite length_update. apply Ht.
  - intros j Hj. rewrite nth_error_update by lia. destruct (Nat.eqb_spec (Z.to_nat i) (Z.to_nat j)).
    + assert (j = i) as -> by lia. destruct (ok_entries t Ht i Hi) as (e1 & v & E1 & L & V). rewrite E in E1.
      injection E1 as <-. exists e', v. rewrite N. auto.
    + apply (ok_entries t Ht j Hj).
Qed.

(** ** Declaring a primitive that the table has *)

(** [declare_primitive_internal] leaves an implemented primitive, or one of
    another known arity, and says so by returning its number as a fixnum. *)
Definition refused (e : prim_entry) (override_p : bool) (nargs_hi : Z) : bool :=
  (negb (arity e =? nargs_hi) && negb (arity e =? UNKNOWN_PRIMITIVE_ARITY))
  || (negb (procedure e =? Prim_unimplemented) && negb override_p).

Definition redeclared (t : primitive_table) (i code nargs_hi : Z) (e : prim_entry) (docstr : option c_string) :=
  with_entries t (update (Z.to_nat i)
    (Some (PrimEntry code nargs_hi (nargs_hi * 8) (primitive_name e)
             (match docstr with None => documentation e | Some _ => docstr end))) (entries t)).

Lemma declare_existing_ok override_p name code nargs_lo nargs_hi docstr t n i e :
  table_ok t -> lookup_name t name = Some (n, i) -> nth_error (entries t) (Z.to_nat i) = Some (Some e) ->
  declare_primitive_internal override_p name code nargs_lo nargs_hi docstr t
  = Return (if refused e override_p nargs_hi then (LONG_TO_UNSIGNED_FIXNUM i, t)
            else (MAKE_PRIMITIVE_OBJECT i, redeclared t i code nargs_hi e docstr)).
Proof.
  intros Ht L E. pose proof (lookup_value t name _ Ht L) as Hi. cbn [snd] in Hi.
  pose proof (ok_size t Ht). pose proof (ok_datum t Ht).
  destruct (tree_lookup_name t name Ht) as (x & Ex & Nx). unfold declare_primitive_internal. rewrite Ex. cbn [bind].
  rewrite L in Nx. destruct x as [|h l n' i' r]; [discriminate|]. injection Nx as -> ->.
  unfold PRIMITIVE_ARITY, IMPLEMENTED_PRIMITIVE_P. rewrite !number_of_object by lia.
  destruct (ok_entry t i Ht Hi) as (e1 & E1 & R). rewrite E in E1. injection E1 as <-. rewrite R. cbn [bind].
  fold (refused e override_p nargs_hi). destruct (refused e override_p nargs_hi); [reflexivity|].
  unfold fill_entry. rewrite entry_set_ok by lia. reflexivity.
Qed.

Lemma redeclared_ok t i code nargs_hi e docstr : table_ok t -> 0 <= i < MAX_PRIMITIVE t ->
  nth_error (entries t) (Z.to_nat i) = Some (Some e) -> table_ok (redeclared t i code nargs_hi e docstr).
Proof. intros Ht Hi E. now apply update_entry_ok with e. Qed.

(** ** Declaring a new primitive *)

Definition grown (t : primitive_table) : primitive_table :=
  if MAX_PRIMITIVE t =? prim_table_size t then grow_primitive_tables t else t.

Lemma grown_ok t : table_ok t -> 11 * MAX_PRIMITIVE t < 2 ^ 57 ->
  table_ok (grown t) /\ prim_procedure_tree (grown t) = prim_procedure_tree t /\ MAX_PRIMITIVE (grown t) = MAX_PRIMITIVE t
  /\ trees (grown t) = trees t /\ MAX_PRIMITIVE t < prim_table_size (grown t)
  /\ forall i, 0 <= i < MAX_PRIMITIVE t -> nth_error (entries (grown t)) (Z.to_nat i) = nth_error (entries t) (Z.to_nat i).
Proof.
  intros Ht Hm. pose proof (ok_size t Ht) as Sz. pose proof (ok_datum t Ht). unfold grown.
  destruct (Z.eqb_spec (MAX_PRIMITIVE t) (prim_table_size t)) as [Eq|].
  2: { split; [assumption|]. repeat split; auto. lia. }
  set (new_size := MAX_PRIMITIVE t + MAX_PRIMITIVE t / 10).
  assert (Hn : MAX_PRIMITIVE t < new_size <= 2 * MAX_PRIMITIVE t) by (unfold new_size; dlia).
  assert (Len : zlength (firstn (Z.to_nat new_size) (entries t ++ repeat None (Z.to_nat new_size))) = new_size).
  { rewrite length_firstn, length_app, repeat_length. unfold prim_table_size in *. lia. }
  assert (Ref : forall i, 0 <= i < MAX_PRIMITIVE t ->
    nth_error (firstn (Z.to_nat new_size) (entries t ++ repeat None (Z.to_nat new_size))) (Z.to_nat i)
    = nth_error (entries t) (Z.to_nat i)).
  { intros i Hi. unfold prim_table_size in *. rewrite nth_error_firstn. destruct (Nat.ltb_spec (Z.to_nat i) (Z.to_nat new_size)); [|lia].
    rewrite nth_error_app1 by lia. reflexivity. }
  unfold grow_primitive_tables. cbv zeta. fold new_size. clearbody new_size.
  split; [|cbn [prim_procedure_tree MAX_PRIMITIVE entries trees]; unfold prim_table_size; cbn [entries]; rewrite Len;
           repeat split; auto; lia].
  constructor; cbn [prim_procedure_tree MAX_PRIMITIVE entries trees]; try apply Ht; try (unfold prim_table_size; cbn [entries]; lia).
  intros i Hi. destruct (ok_entries t Ht i Hi) as (e & v & E & L). exists e, v. rewrite Ref by assumption. auto.
Qed.

(** The table after a new primitive has been added to [t]. *)
Definition added (t : primitive_table) (name : c_string) (e : prim_entry) (t' : primitive_table) : Prop :=
  MAX_PRIMITIVE t' = MAX_PRIMITIVE t + 1 /\
  nth_error (entries t') (Z.to_nat (MAX_PRIMITIVE t)) = Some (Some e) /\
  (forall i, 0 <= i < MAX_PRIMITIVE t -> nth_error (entries t') (Z.to_nat i) = nth_error (entries t) (Z.to_nat i)) /\
  (forall n, lookup_name t' n = if strcmp_ci n name =? 0 then Some (name, MAX_PRIMITIVE t) else lookup_name t n) /\
  S (free_nodes (trees t')) = free_nodes (trees t).

Lemma insert_values name v l p : In p (insert_entry name v l) -> p = (name, v) \/ In p l.
Proof.
  induction l as [|q l IH]; cbn [insert_entry].
  - intros [<-|[]]. now left.
  - destruct (_ =? -1); intros [<-|H]; auto; [now right; left|]. destruct (IH H); auto. right. now right.
Qed.

Lemma added_ok t name e t' : table_ok t -> lookup_name t name = None -> primitive_name e = name ->
  avl (prim_procedure_tree t') ->
  elements (prim_procedure_tree t') = insert_entry name (MAX_PRIMITIVE t) (elements (prim_procedure_tree t)) ->
  added t name e t' -> MAX_PRIMITIVE t' <= prim_table_size t' < 2 ^ 57 -> tree_error_message (trees t') = None ->
  table_ok t'.
Proof.
  intros Ht L N At Et (Max & New & Old & Look & _) Sz Msg. pose proof (ok_size t Ht).
  constructor; try (assumption || lia).
  - unfold sorted. rewrite Et. apply insert_entry_ordered; [apply Ht|assumption].
  - intros i Hi. destruct (Z.eq_dec i (MAX_PRIMITIVE t)) as [->|].
    + exists e, (name, MAX_PRIMITIVE t). rewrite Look, N.
      replace (strcmp_ci name name) with 0 by (symmetry; now apply strcmp_ci_zero). auto.
    + destruct (ok_entries t Ht i ltac:(lia)) as (e1 & v & E1 & L1 & V1). exists e1, v. rewrite Old by lia.
      split; [assumption|]. rewrite Look. destruct (Z.eqb_spec (strcmp_ci (primitive_name e1) name) 0) as [Z0|]; [|auto].
      exfalso. unfold lookup_name, find_name in L1, L. apply find_some in L1 as [I1 S1]. apply Z.eqb_eq in S1.
      apply (find_none _ _ L) in I1. apply strcmp_ci_zero in Z0. rewrite (strcmp_ci_same_l _ _ _ Z0) in S1.
      rewrite S1 in I1. discriminate.
  - rewrite Et. intros p [->|I]%insert_values; [cbn [snd]; lia|]. pose proof (ok_values t Ht p I). lia.
Qed.

Lemma declare_new_ok override_p name code nargs_lo nargs_hi docstr t :
  table_ok t -> lookup_name t name = None -> (0 < free_nodes (trees t))%nat -> 11 * MAX_PRIMITIVE t < 2 ^ 57 ->
  returns (declare_primitive_internal override_p name code nargs_lo nargs_hi docstr t)
    (fun '(result, t') => result = MAKE_PRIMITIVE_OBJECT (MAX_PRIMITIVE t) /\ table_ok t' /\
       added t name (PrimEntry code nargs_hi (nargs_hi * 8) name docstr) t').
Proof.
  intros Ht L F Hm. destruct (tree_lookup_name t name Ht) as (x & Ex & Nx).
  unfold declare_primitive_internal. rewrite Ex. cbn [bind]. rewrite L in Nx. destruct x; [|discriminate].
  destruct (grown_ok t Ht Hm) as (Gt & Gtree & Gmax & Gs & Gsize & Gref). fold (grown t). set (g := grown t) in *. clearbody g.
  pose proof (ok_size t Ht) as Sz. pose proof (ok_datum g Gt) as Dat.
  ret_step tree_insert_ok; [apply Gt|apply Gt|]. intros [tree s]. unfold inserted.
  rewrite Gtree, Gs, Gmax. fold (lookup_name t name). rewrite L. destruct (free_nodes (trees t)) as [|k] eqn:Ek; [lia|].
  intros (At & Et & _ & ->). cbn [tree_error_message]. rewrite (ok_message t Ht).
  unfold fill_entry. rewrite entry_set_ok
    by (unfold prim_table_size in *; cbn [set_tree entries]; lia). cbn [bind]. ret_now.
  split; [reflexivity|]. set (e := PrimEntry code nargs_hi (nargs_hi * 8) name docstr).
  set (t' := with_entries _ _).
  assert (Ent : forall i, 0 <= i -> nth_error (entries t') (Z.to_nat i)
                = if i =? MAX_PRIMITIVE t then Some (Some e) else nth_error (entries g) (Z.to_nat i)).
  { intros i Hi. unfold t', prim_table_size in *. cbn [with_entries set_tree entries]. rewrite nth_error_update by lia.
    destruct (Nat.eqb_spec (Z.to_nat (MAX_PRIMITIVE t)) (Z.to_nat i)), (Z.eqb_spec i (MAX_PRIMITIVE t)); try lia; reflexivity. }
  assert (Add : added t name e t').
  { split; [reflexivity|]. split; [rewrite Ent, Z.eqb_refl by lia; reflexivity|].
    split; [intros i Hi; rewrite Ent by lia; destruct (Z.eqb_spec i (MAX_PRIMITIVE t)); [lia|]; now apply Gref|].
    split; [|symmetry; exact Ek]. intros n. unfold lookup_name, t'. cbn [with_entries set_tree prim_procedure_tree].
    rewrite Et. now apply find_insert_entry. }
  split; [|exact Add]. apply (added_ok t name e); auto.
  unfold prim_table_size, t' in *. cbn [with_entries set_tree MAX_PRIMITIVE entries]. rewrite length_update. lia.
Qed.

(** When no node can be allocated nothing is declared and [#F] is returned. *)
Lemma declare_no_memory_ok override_p name code nargs_lo nargs_hi docstr t :
  table_ok t -> lookup_name t name = None -> free_nodes (trees t) = O -> 11 * MAX_PRIMITIVE t < 2 ^ 57 ->
  returns (declare_primitive_internal override_p name code nargs_lo nargs_hi docstr t)
    (fun '(result, t') => result = SHARP_F /\ table_ok t' /\ MAX_PRIMITIVE t' = MAX_PRIMITIVE t /\
       prim_procedure_tree t' = prim_procedure_tree t /\
       forall i, 0 <= i < MAX_PRIMITIVE t -> nth_error (entries t') (Z.to_nat i) = nth_error (entries t) (Z.to_nat i)).
Proof.
  intros Ht L F Hm. destruct (tree_lookup_name t name Ht) as (x & Ex & Nx).
  unfold declare_primitive_internal. rewrite Ex. cbn [bind]. rewrite L in Nx. destruct x; [|discriminate].
  destruct (grown_ok t Ht Hm) as (Gt & Gtree & Gmax & Gs & _ & Gref). fold (grown t). set (g := grown t) in *. clearbody g.
  ret_step tree_insert_ok; [apply Gt|apply Gt|]. intros [tree s]. unfold inserted. rewrite Gtree, Gs, Gmax.
  fold (lookup_name t name). rewrite L, F. intros [-> ->]. cbn [tree_error tree_error_message]. ret_now.
  split; [reflexivity|]. split; [|split; [reflexivity|split; [reflexivity|exact Gref]]].
  rewrite <- Gmax, <- Gtree. destruct Gt; constructor; cbn [set_tree prim_procedure_tree MAX_PRIMITIVE entries trees]; auto.
Qed.

(** ** Finding a primitive by name *)

Definition found (e : prim_entry) (i : Z) (allow_p : bool) (arity_ : Z) (t : primitive_table) : Z * primitive_table :=
  if negb allow_p && (procedure e =? Prim_unimplemented) then (SHARP_F, t)
  else if (arity_ =? UNKNOWN_PRIMITIVE_ARITY) || (arity_ =? arity e) then (MAKE_PRIMITIVE_OBJECT i, t)
  else if arity e =? UNKNOWN_PRIMITIVE_ARITY
  then (MAKE_PRIMITIVE_OBJECT i,
        with_entries t (update (Z.to_nat i)
          (Some (PrimEntry (procedure e) arity_ (count e) (primitive_name e) (documentation e))) (entries t)))
  else (LONG_TO_FIXNUM (arity e), t).

Lemma find_existing_ok name intern_p allow_p arity_ t n i e : table_ok t -> lookup_name t name = Some (n, i) ->
  nth_error (entries t) (Z.to_nat i) = Some (Some e) ->
  find_primitive_cname name intern_p allow_p arity_ t = Return (found e i allow_p arity_ t) /\
  table_ok (snd (found e i allow_p arity_ t)).
Proof.
  intros Ht L E. pose proof (lookup_value t name _ Ht L) as Hi. cbn [snd] in Hi.
  pose proof (ok_size t Ht). pose proof (ok_datum t Ht). split.
  - destruct (tree_lookup_name t name Ht) as (x & Ex & Nx). unfold find_primitive_cname. rewrite Ex. cbn [bind].
    rewrite L in Nx. destruct x as [|h l n' i' r]; [discriminate|]. injection Nx as -> ->.
    unfold PRIMITIVE_ARITY, IMPLEMENTED_PRIMITIVE_P. rewrite !number_of_object by lia.
    destruct (ok_entry t i Ht Hi) as (e1 & E1 & R). rewrite E in E1. injection E1 as <-. rewrite R. cbn [bind].
    rewrite negb_involutive. unfold found. destruct (_ && _); [reflexivity|]. destruct (_ || _); [reflexivity|].
    destruct (arity e =? UNKNOWN_PRIMITIVE_ARITY); [|reflexivity]. rewrite entry_set_ok by lia. reflexivity.
  - unfold found. destruct (_ && _); [assumption|]. destruct (_ || _); [assumption|].
    destruct (arity e =? UNKNOWN_PRIMITIVE_ARITY); [|assumption]. now apply update_entry_ok with e.
Qed.

(** A name that is not known is declared, unimplemented, when it may be interned. *)
Lemma find_new_ok name intern_p allow_p arity_ t : table_ok t -> lookup_name t name = None ->
  (0 < free_nodes (trees t))%nat -> 11 * MAX_PRIMITIVE t < 2 ^ 57 ->
  returns (find_primitive_cname name intern_p allow_p arity_ t)
    (fun '(result, t') =>
       if intern_p then result = MAKE_PRIMITIVE_OBJECT (MAX_PRIMITIVE t) /\ table_ok t' /\
         added t name (PrimEntry Prim_unimplemented arity_ (arity_ * 8) name None) t'
       else result = SHARP_F /\ t' = t).
Proof.
  intros Ht L F Hm. destruct (tree_lookup_name t name Ht) as (x & Ex & Nx). unfold find_primitive_cname.
  rewrite Ex. cbn [bind]. rewrite L in Nx. destruct x; [|discriminate]. destruct intern_p; cbn [negb]; [|now ret_now].
  ret_step declare_new_ok; [assumption|assumption|assumption|assumption|]. intros [result t'] (-> & Ok & Add).
  pose proof (ok_size t Ht). rewrite object_not_false by lia. ret_now. auto.
Qed.

(** ** Renumbering *)

Record renumber_ok (n : Z) (pr : prim_renumber) : Prop := {
  renumber_internal : zlength (internal pr) = n;
  renumber_external : zlength (external pr) = n;
  renumber_next : 0 <= next_code pr <= n;
  renumber_nodup : NoDup (renumbered_codes pr);
  renumber_range : forall old, In old (renumbered_codes pr) -> 0 <= old < n;
  renumber_map : forall old, 0 <= old < n ->
    exists new, nth_error (internal pr) (Z.to_nat old) = Some new /\
      if new =? ULONG_MAX then ~ In old (renumbered_codes pr)
      else 0 <= new /\ nth_error (renumbered_codes pr) (Z.to_nat new) = Some old
}.

Lemma make_prim_renumber_ok n : 0 <= n -> renumber_ok n (make_prim_renumber_1 n).
Proof.
  intros Hn. constructor; unfold renumbered_codes, make_prim_renumber_1; cbn [internal external next_code].
  - rewrite repeat_length. lia.
  - rewrite repeat_length. lia.
  - lia.
  - constructor.
  - intros old [].
  - intros old Ho. exists ULONG_MAX. split; [|rewrite Z.eqb_refl; intros []]. apply nth_error_repeat. lia.
Qed.

(** A code not yet assigned leaves room for another: the codes are distinct numbers below [n]. *)
Lemma renumber_room n pr old : renumber_ok n pr -> 0 <= old < n -> ~ In old (renumbered_codes pr) -> next_code pr < n.
Proof.
  intros Hp Ho Hn. pose proof (renumber_next n pr Hp). pose proof (renumber_external n pr Hp).
  assert (L : (length (old :: renumbered_codes pr) <= length (map Z.of_nat (seq 0 (Z.to_nat n))))%nat).
  { apply NoDup_incl_length; [constructor; [assumption|apply Hp]|]. intros k Hk.
    assert (0 <= k < n) by (destruct Hk as [<-|Hk]; [assumption|now apply (renumber_range n pr Hp)]).
    apply in_map_iff. exists (Z.to_nat k). split; [lia|]. apply in_seq. lia. }
  rewrite length_map, length_seq in L. cbn [length] in L. unfold renumbered_codes in L. rewrite length_firstn in L. lia.
Qed.

Lemma firstn_update_snoc {A} k (x : A) l : (k < length l)%nat -> firstn (S k) (update k x l) = firstn k l ++ [x].
Proof.
  revert k. induction l as [|y l IH]; intros [|k] H; cbn [length] in H; try lia; [reflexivity|].
  cbn [update]. change (firstn (S (S k)) (y :: update k x l)) with (y :: firstn (S k) (update k x l)).
  rewrite IH by lia. reflexivity.
Qed.

(** [new] is the external code of [old], and stays so. *)
Definition renumbered (pr : prim_renumber) (old new : Z) : Prop :=
  0 <= new /\ nth_error (renumbered_codes pr) (Z.to_nat new) = Some old.

Lemma renumber_primitive_ok n pr primitive : n < 2 ^ 57 -> renumber_ok n pr -> 0 <= OBJECT_DATUM primitive < n ->
  returns (renumber_primitive primitive pr) (fun '(object, pr') =>
    exists new, object = OBJECT_NEW_DATUM primitive new /\ renumber_ok n pr' /\
      renumbered pr' (OBJECT_DATUM primitive) new /\ exists more, renumbered_codes pr' = renumbered_codes pr ++ more).
Proof.
  intros Hn Hp Ho. set (old := OBJECT_DATUM primitive) in *. pose proof (renumber_internal n pr Hp) as Li.
  pose proof (renumber_external n pr Hp) as Le. pose proof (renumber_next n pr Hp) as Nx.
  unfold renumber_primitive. fold old. unfold code_ref. destruct (Z.ltb_spec old 0); [lia|].
  destruct (renumber_map n pr Hp old Ho) as (new & E & M). rewrite E. cbn [bind].
  destruct (Z.eqb_spec new ULONG_MAX) as [->|]; [|ret_now; exists new;
    split; [reflexivity|]; split; [assumption|]; split; [exact M|]; exists []; now rewrite app_nil_r].
  pose proof (renumber_room n pr old Hp Ho M) as Room. unfold code_set.
  replace ((0 <=? old) && _) with true by lia. replace ((0 <=? next_code pr) && _) with true by lia. cbn [bind]. ret_now.
  exists (next_code pr). split; [reflexivity|]. set (pr' := PrimRenumber _ _ _).
  assert (C : renumbered_codes pr' = renumbered_codes pr ++ [old]).
  { unfold renumbered_codes, pr'. cbn [external next_code].
    replace (Z.to_nat (next_code pr + 1)) with (S (Z.to_nat (next_code pr))) by lia. apply firstn_update_snoc. lia. }
  assert (Lc : length (renumbered_codes pr) = Z.to_nat (next_code pr)).
  { unfold renumbered_codes. rewrite length_firstn. lia. }
  split; [|split; [split; [lia|rewrite C, nth_error_app2, Lc, Nat.sub_diag by lia; reflexivity]|now exists [old]]].
  constructor; try (unfold pr'; cbn [internal external next_code]; rewrite ?length_update; (assumption || lia)).
  - rewrite C. apply NoDup_app; [apply Hp|repeat constructor; auto|]. intros x Hx [<-|[]]. contradiction.
  - rewrite C. intros x [Hx|[<-|[]]]%in_app_or; [now apply (renumber_range n pr Hp)|assumption].
  - intros old' Ho'. destruct (Z.eq_dec old' old) as [->|Ne].
    + exists (next_code pr). unfold pr' at 1. cbn [internal]. rewrite nth_error_update_eq by lia. split; [reflexivity|].
      unfold ULONG_MAX. destruct (Z.eqb_spec (next_code pr) (2 ^ 64 - 1)); [lia|]. split; [lia|].
      rewrite C, nth_error_app2, Lc, Nat.sub_diag by lia. reflexivity.
    + destruct (renumber_map n pr Hp old' Ho') as (new' & E' & M'). exists new'. unfold pr' at 1. cbn [internal].
      rewrite nth_error_update_ne by lia. split; [assumption|]. rewrite C. destruct (new' =? ULONG_MAX).
      * intros [Hx|[Hx|[]]]%in_app_or; [contradiction|congruence].
      * destruct M' as [M1 M2]. split; [assumption|]. rewrite nth_error_app1; [assumption|].
        apply nth_error_Some. congruence.
Qed.

(** ** Export *)

(** What the layout of the table entry can hold. *)
Definition exportable (e : prim_entry) : Prop :=
  Forall (fun b => 0 < b < 256) (primitive_name e) /\ zlength (primitive_name e) < 2 ^ 50 /\ fixnum_range (arity e).

(** The words of an entry as [import_primitive_table] reads them. *)
Definition entry_words (e : prim_entry) (words : list Z) : Prop :=
  let n := STRING_LENGTH_TO_GC_LENGTH (zlength (primitive_name e)) in
  exists string rest,
    words = LONG_TO_FIXNUM (arity e) :: MAKE_OBJECT TC_MANIFEST_NM_VECTOR n
              :: MAKE_OBJECT 0 (zlength (primitive_name e)) :: string /\
    zlength string = n - 1 /\ concat (map word_bytes string) = primitive_name e ++ 0 :: rest.

Lemma make_table_entry_ok t code e memory : entry_ref t code = Return e -> exportable e ->
  STRING_LENGTH_TO_GC_LENGTH (zlength (primitive_name e)) + 2 <= zlength memory ->
  returns (make_table_entry t code memory) (fun '(words, rest) => entry_words e words /\
    table_entry_length t code = Return (zlength words) /\ exists used, memory = used ++ rest /\ length used = length words).
Proof.
  intros E (Hb & Hl & _) Hm. destruct (string_words (zlength (primitive_name e))) as [S1 S2]; [lia|].
  unfold make_table_entry, table_entry_length. rewrite E. cbn [bind]. set (n := STRING_LENGTH_TO_GC_LENGTH _) in *.
  destruct memory as [|w1 [|w2 [|w3 memory]]]; cbn [length] in Hm; try lia.
  destruct (Nat.ltb_spec (length memory) (Z.to_nat (n - 1))); [lia|].
  assert (Lm : length (firstn (Z.to_nat (n - 1)) memory) = Z.to_nat (n - 1)) by (rewrite length_firstn; lia).
  destruct (copy_bytes_ok (primitive_name e ++ [0]) (firstn (Z.to_nat (n - 1)) memory)) as (ws & rest & -> & L & B).
  - apply Forall_app. split; [eapply Forall_impl; [|exact Hb]; cbv beta; lia|repeat constructor; lia].
  - rewrite length_app, Lm. cbn [length]. lia.
  - cbn [bind]. ret_now. rewrite Lm in L. split; [|split].
    + exists ws, rest. split; [reflexivity|]. split; [fold n; lia|]. now rewrite B, <- app_assoc.
    + f_equal. cbn [length]. lia.
    + exists (w1 :: w2 :: w3 :: firstn (Z.to_nat (n - 1)) memory). split; [|cbn [length]; lia].
      cbn [app]. now rewrite firstn_skipn.
Qed.

(** The words of several entries, one after another. *)
Inductive exported (t : primitive_table) : list Z -> list Z -> Prop :=
| exported_nil : exported t [] []
| exported_cons code codes e words rest :
    entry_ref t code = Return e -> exportable e -> entry_words e words -> exported t codes rest ->
    exported t (code :: codes) (words ++ rest).

Definition all_exportable (t : primitive_table) (codes : list Z) : Prop :=
  Forall (fun code => exists e, entry_ref t code = Return e /\ exportable e) codes.

Lemma export_length_acc t codes : all_exportable t codes -> forall r,
  exists n, 0 <= n /\ export_length t codes r = Return (r + n) /\
    forall memory, n <= zlength memory ->
      returns (export_entries t codes memory) (fun '(words, rest) => exported t codes words /\ zlength words = n).
Proof.
  induction 1 as [|code codes (e & E & X) H IH]; intros r; cbn [export_length export_entries].
  - exists 0. split; [lia|]. split; [f_equal; lia|]. intros memory _. ret_now. split; [constructor|reflexivity].
  - unfold table_entry_length at 1. rewrite E. cbn [bind].
    set (k := STRING_LENGTH_TO_GC_LENGTH (zlength (primitive_name e)) + 2).
    destruct (string_words (zlength (primitive_name e))) as [S1 _]; [lia|].
    destruct (IH (r + k)) as (n & Hn & EL & EE). exists (k + n). split; [lia|]. split; [rewrite EL; f_equal; lia|].
    intros memory Hm. ret_step make_table_entry_ok; [exact E|exact X|lia|].
    intros [words rest] (W & TL & used & -> & U). rewrite length_app in Hm.
    unfold table_entry_length in TL. rewrite E in TL. cbn [bind] in TL. injection TL as TL. fold k in TL.
    eapply returns_bind; [apply EE; lia|]. intros [words' rest'] [X' L']. ret_now.
    split; [now apply exported_cons with e|]. rewrite length_app. lia.
Qed.

(** ** Import *)

Lemma find_own_name t code e : table_ok t -> 0 <= code < MAX_PRIMITIVE t -> entry_ref t code = Return e ->
  find_primitive_cname (primitive_name e) true true (arity e) t = Return (MAKE_PRIMITIVE_OBJECT code, t).
Proof.
  intros Ht Hc E. destruct (ok_entries t Ht code Hc) as (e1 & [n i] & E1 & L & V). cbn [snd] in V. subst i.
  unfold entry_ref in E. destruct (Z.ltb_spec code 0); [lia|]. rewrite E1 in E. injection E as ->.
  destruct (find_existing_ok (primitive_name e) true true (arity e) t n code e Ht L E1) as [-> _].
  unfold found. cbn [negb andb]. now rewrite Z.eqb_refl, orb_true_r.
Qed.

Lemma import_exported_ok t codes words : table_ok t -> Forall (fun code => 0 <= code < MAX_PRIMITIVE t) codes ->
  exported t codes words -> forall rest,
  import_primitive_table (length codes) (words ++ rest) t = Return (map MAKE_PRIMITIVE_OBJECT codes, t).
Proof.
  intros Ht Hc X. induction X as [|code codes e words rest' E (Hb & Hl & Ha) W X IH]; intros rest; [reflexivity|].
  inversion_clear Hc as [|? ? C1 C2]. pose proof (ok_size t Ht). pose proof (ok_datum t Ht).
  destruct W as (string & tail & -> & Ls & B). destruct (string_words (zlength (primitive_name e))) as [S1 S2]; [lia|].
  set (n := STRING_LENGTH_TO_GC_LENGTH _) in *. cbn [length import_primitive_table app]. cbn [skipn].
  rewrite <- app_assoc, map_app, concat_app, B, <- app_assoc.
  cbn [app]. rewrite read_c_string_ok by (eapply Forall_impl; [|exact Hb]; cbv beta; lia). cbn [bind].
  rewrite FIXNUM_TO_LONG_TO_FIXNUM by exact Ha. rewrite (find_own_name t code e Ht C1 E). cbn [bind].
  rewrite object_is_primitive by lia. cbn [negb].
  rewrite OBJECT_DATUM_MAKE by (unfold TC_MANIFEST_NM_VECTOR; lia).
  replace (Z.to_nat n) with (S (length string)) by lia. cbn [skipn]. rewrite skipn_app, skipn_all, Nat.sub_diag.
  cbn [app skipn]. rewrite IH by assumption. reflexivity.
Qed.

(** ** Initialization *)

Lemma lookup_same_name t a b : same_name a b -> lookup_name t a = lookup_name t b.
Proof.
  intros H. unfold lookup_name, find_name. induction (elements _) as [|p l IH]; [reflexivity|]. cbn [find].
  rewrite (strcmp_ci_same_l a b _ H). destruct (_ =? 0); [reflexivity|exact IH].
Qed.

(** Entering another name for a number that the table has. *)
Lemma alias_ok t alias i : table_ok t -> lookup_name t alias = None -> 0 <= i < MAX_PRIMITIVE t ->
  (0 < free_nodes (trees t))%nat ->
  returns (tree_insert (prim_procedure_tree t) alias i (trees t)) (fun '(tree, s) =>
    tree_error_message s = None /\ S (free_nodes s) = free_nodes (trees t) /\
    let t' := set_tree t tree (MAX_PRIMITIVE t) s in
    table_ok t' /\ forall n, lookup_name t' n = if strcmp_ci n alias =? 0 then Some (alias, i) else lookup_name t n).
Proof.
  intros Ht L Hi F. ret_step tree_insert_ok; [apply Ht|apply Ht|]. intros [tree s]. unfold inserted.
  fold (lookup_name t alias). rewrite L. destruct (free_nodes (trees t)) as [|k] eqn:Ek; [lia|].
  intros (At & Et & _ & ->). pose proof (ok_message t Ht) as M. split; [exact M|]. split; [reflexivity|]. cbv zeta.
  set (t' := set_tree _ _ _ _).
  assert (Look : forall n, lookup_name t' n = if strcmp_ci n alias =? 0 then Some (alias, i) else lookup_name t n).
  { intros n. unfold lookup_name, t'. cbn [set_tree prim_procedure_tree]. rewrite Et. now apply find_insert_entry. }
  split; [|exact Look]. constructor; unfold t'; cbn [set_tree prim_procedure_tree MAX_PRIMITIVE entries trees]; try apply Ht; auto.
  - unfold sorted. rewrite Et. apply insert_entry_ordered; [apply Ht|exact L].
  - intros j Hj. destruct (ok_entries t Ht j Hj) as (e & v & E & Le & V). exists e, v. split; [assumption|].
    split; [|assumption]. fold t'. rewrite Look. destruct (Z.eqb_spec (strcmp_ci (primitive_name e) alias) 0) as [Z0|]; [|assumption].
    apply strcmp_ci_zero in Z0. rewrite (lookup_same_name t _ _ Z0) in Le. congruence.
  - rewrite Et. intros p [->|I]%insert_values; [exact Hi|]. now apply (ok_values t Ht).
Qed.

(** The alias of a name, if it is one. *)
Definition find_alias (aliases : list (c_string * c_string)) (name : c_string) : option (c_string * c_string) :=
  find (fun p => strcmp_ci name (fst p) =? 0) aliases.

Definition aliased (t : primitive_table) (aliases : list (c_string * c_string)) (name : c_string) : option (c_string * Z) :=
  match find_alias aliases name with
  | Some (alias, target) => option_map (fun p => (alias, snd p)) (lookup_name t target)
  | None => lookup_name t name
  end.

(** The aliases are new names, all different, for names in the table. *)
Definition aliases_ok (t : primitive_table) (aliases : list (c_string * c_string)) : Prop :=
  ForallOrdPairs (fun p q => ~ same_name (fst p) (fst q)) aliases /\
  Forall (fun p => lookup_name t (fst p) = None /\ lookup_name t (snd p) <> None) aliases.

Lemma alias_loop_ok aliases : forall t, table_ok t -> aliases_ok t aliases ->
  (length aliases <= free_nodes (trees t))%nat ->
  returns (alias_loop aliases t) (fun t' => table_ok t' /\ MAX_PRIMITIVE t' = MAX_PRIMITIVE t /\
    entries t' = entries t /\ forall n, lookup_name t' n = aliased t aliases n).
Proof.
  induction aliases as [|[alias target] aliases IH]; intros t Ht [D A] F; cbn [alias_loop length] in *; [now ret_now|].
  inversion_clear D as [|? ? D1 D2]. inversion_clear A as [|? ? [A1 A2] A3]. cbn [fst snd] in *.
  destruct (tree_lookup_name t target Ht) as (nd & Ex & Nx). rewrite Ex. cbn [bind].
  destruct (lookup_name t target) as [[n i]|] eqn:Lt; [|congruence]. destruct nd as [|h l n' i' r]; [discriminate|].
  injection Nx as -> ->. cbn [bind]. pose proof (lookup_value t target _ Ht Lt) as Hi. cbn [snd] in Hi.
  ret_step alias_ok; [assumption|assumption|exact Hi|lia|]. intros [tree s] (M & Fs & T' & Look). cbv zeta in T', Look.
  rewrite M. set (t' := set_tree _ _ _ _) in *.
  assert (Ne : forall m, lookup_name t m <> None -> lookup_name t' m = lookup_name t m).
  { intros m Hm. rewrite Look. destruct (Z.eqb_spec (strcmp_ci m alias) 0) as [Z0|]; [|reflexivity].
    apply strcmp_ci_zero in Z0. rewrite (lookup_same_name t m alias Z0) in Hm. contradiction. }
  ret_step IH; [assumption| |unfold t'; cbn [set_tree trees]; lia|].
  - split; [assumption|]. rewrite Forall_forall in *. intros [a g] I. destruct (A3 _ I) as [B1 B2]. specialize (D1 _ I).
    cbn [fst snd] in *. split; [|now rewrite Ne]. rewrite Look.
    destruct (Z.eqb_spec (strcmp_ci a alias) 0) as [Z0|]; [|assumption]. apply strcmp_ci_zero in Z0. exfalso. apply D1.
    unfold same_name in *. congruence.
  - intros t2 (T2 & Max & Ent & Look2). split; [assumption|]. split; [exact Max|]. split; [exact Ent|].
    intros m. rewrite Look2. unfold aliased, find_alias. cbn [find fst].
    destruct (Z.eqb_spec (strcmp_ci m alias) 0) as [Z0|Z0].
    + assert (N : find (fun p => strcmp_ci m (fst p) =? 0) aliases = None).
      { destruct (find _ aliases) as [[a g]|] eqn:Ef; [|reflexivity]. apply find_some in Ef as [I Ea]. apply Z.eqb_eq in Ea.
        rewrite Forall_forall in D1. exfalso. apply (D1 _ I). cbn [fst] in *. apply strcmp_ci_zero in Z0, Ea.
        unfold same_name in *. congruence. }
      rewrite N, Look. replace (strcmp_ci m alias) with 0 by auto. cbn [Z.eqb]. now rewrite Lt.
    + destruct (find _ aliases) as [[a g]|] eqn:Ef.
      * apply find_some in Ef as [I _]. rewrite Forall_forall in A3. destruct (A3 _ I) as [_ B2]. cbn [snd] in B2.
        now rewrite Ne.
      * rewrite Look. now destruct (Z.eqb_spec (strcmp_ci m alias) 0).
Qed.

Lemma numbered_values names : forall value p, In p (numbered names value) -> value <= snd p < value + zlength names.
Proof.
  induction names as [|n names IH]; intros value p; cbn [numbered length]; [intros []|].
  intros [<-|I]; [cbn [snd]; lia|]. specialize (IH (value + 1) p I). lia.
Qed.

Definition static_table_ok (static_table : list prim_entry) : Prop :=
  10 <= zlength static_table < 2 ^ 50 /\ StronglySorted before (map primitive_name static_table).

(** The table holds the static primitives, each under its own number. *)
Lemma static_tree_ok static_table tree s :
  static_table_ok static_table -> avl tree -> elements tree = numbered (map primitive_name static_table) 0 ->
  tree_error_message s = None ->
  table_ok (set_tree (grow_primitive_tables (PrimitiveTable Null (zlength static_table) (map Some static_table) s))
              tree (zlength static_table) s).
Proof.
  intros [Sz So] At Et Ms. set (max := zlength static_table) in *.
  assert (Hn : max <= max + max / 10 <= 2 * max) by dlia.
  assert (Len : zlength (firstn (Z.to_nat (max + max / 10)) (map Some static_table ++ repeat None (Z.to_nat (max + max / 10))))
                = max + max / 10).
  { rewrite length_firstn, length_app, length_map, repeat_length. lia. }
  constructor; cbn [set_tree grow_primitive_tables prim_procedure_tree MAX_PRIMITIVE entries trees];
    unfold prim_table_size; cbn [set_tree grow_primitive_tables MAX_PRIMITIVE entries]; try (assumption || lia).
  - unfold sorted. rewrite Et. now apply numbered_ordered.
  - intros i Hi. destruct (nth_error static_table (Z.to_nat i)) as [e|] eqn:E; [|apply nth_error_None in E; lia].
    exists e, (primitive_name e, 0 + Z.of_nat (Z.to_nat i)). split; [|split; [|cbn [snd]; lia]].
    + rewrite nth_error_firstn. destruct (Nat.ltb_spec (Z.to_nat i) (Z.to_nat (max + max / 10))); [|lia].
      rewrite nth_error_app1 by (rewrite length_map; lia). rewrite nth_error_map, E. reflexivity.
    + unfold lookup_name. cbn [set_tree prim_procedure_tree]. rewrite Et.
      apply static_lookup; [assumption| |reflexivity]. now rewrite nth_error_map, E.
  - rewrite Et. intros p I%numbered_values. rewrite length_map in I. lia.
Qed.

(** The number of a name in the static table. *)
Definition static_name (static_table : list prim_entry) (name : c_string) : option (c_string * Z) :=
  find_name name (numbered (map primitive_name static_table) 0).

Lemma initialize_primitives_ok static_table aliases s :
  static_table_ok static_table -> 0 <= bias s <= 1 ->
  ForallOrdPairs (fun p q => ~ same_name (fst p) (fst q)) aliases ->
  Forall (fun p => static_name static_table (fst p) = None /\ static_name static_table (snd p) <> None) aliases ->
  (length static_table + length aliases <= free_nodes s)%nat ->
  returns (initialize_primitives static_table aliases s) (fun t =>
    table_ok t /\ MAX_PRIMITIVE t = zlength static_table /\
    (forall name, lookup_name t name =
       match find_alias aliases name with
       | Some (alias, target) => option_map (fun p => (alias, snd p)) (static_name static_table target)
       | None => static_name static_table name
       end)).
Proof.
  intros St Hb D A F. pose proof St as [Sz So]. unfold initialize_primitives. cbv zeta. cbn [trees grow_primitive_tables].
  ret_step tree_build_ok; [lia|rewrite length_map; lia|cbn [clear_error free_nodes]; lia|exact Hb|].
  intros [tree s'] (At & Et & _ & Fs & _ & Ms). cbn [clear_error tree_error_message free_nodes] in Ms, Fs. rewrite Ms.
  rewrite firstn_all2 in Et by (rewrite length_map; lia). 
  set (t := set_tree _ tree _ s').
  assert (T : table_ok t).
  { pose proof (static_tree_ok static_table tree s' St At Et Ms) as T. destruct T; constructor; auto. }
  assert (Look : forall name, lookup_name t name = static_name static_table name).
  { intros name. unfold lookup_name, static_name, t. cbn [set_tree prim_procedure_tree]. now rewrite Et. }
  ret_step alias_loop_ok; [exact T| |unfold t; cbn [set_tree trees]; lia|].
  - split; [assumption|]. eapply Forall_impl; [|exact A]. intros p. now rewrite !Look.
  - intros t' (T' & Max & _ & L'). split; [assumption|]. split; [exact Max|]. intros name. rewrite L'. unfold aliased.
    destruct (find_alias aliases name) as [[alias target]|]; now rewrite Look.
Qed.

(** ** A small table

    Ten static primitives named [A] to [J], for the concrete instances of the
    properties. *)
Definition sample_table : list prim_entry :=
  map (fun c => PrimEntry 1 0 0 [c] None) [65; 66; 67; 68; 69; 70; 71; 72; 73; 74].

Definition sample : primitive_table :=
  match initialize_primitives sample_table [] (TreeState 0 20 None) with
  | Return t => t
  | _ => PrimitiveTable Null 0 [] (TreeState 0 0 None)
  end.

Lemma sample_static_ok : static_table_ok sample_table.
Proof.
  split; [vm_compute; split; [discriminate|reflexivity]|].
  repeat (constructor; [|repeat (constructor; [vm_compute; reflexivity|]); constructor]). constructor.
Qed.

Lemma sample_ok : table_ok sample.
Proof.
  destruct (initialize_primitives_ok sample_table [] (TreeState 0 20 None)) as (t & E & T & _).
  - exact sample_static_ok.
  - cbn. lia.
  - constructor.
  - constructor.
  - apply Nat.leb_le. vm_compute. reflexivity.
  - unfold sample. rewrite E. exact T.
Qed.

(** ** Properties *)

(** Initialize_primitives establishes the table invariant, every static primitive is found under its own
    number and every alias under the number of its target. *)
Theorem initialize_primitives_correct static_table aliases s :
  static_table_ok static_table -> 0 <= bias s <= 1 ->
  ForallOrdPairs (fun p q => ~ same_name (fst p) (fst q)) aliases ->
  Forall (fun p => static_name static_table (fst p) = None /\ static_name static_table (snd p) <> None) aliases ->
  (length static_table + length aliases <= free_nodes s)%nat ->
  returns (initialize_primitives static_table aliases s) (fun t =>
    table_ok t /\ MAX_PRIMITIVE t = zlength static_table /\
    (forall i e, nth_error static_table i = Some e -> find_alias aliases (primitive_name e) = None ->
       option_map snd (lookup_name t (primitive_name e)) = Some (Z.of_nat i)) /\
    (forall name alias target, find_alias aliases name = Some (alias, target) ->
       option_map snd (lookup_name t name) = option_map snd (static_name static_table target))).
Proof.
  intros St B D A F. ret_step initialize_primitives_ok; [assumption..|]. intros t (T & M & L).
  split; [exact T|]. split; [exact M|]. split.
  - intros i e E N. rewrite L, N. unfold static_name. destruct St as [_ So].
    rewrite (static_lookup _ 0 _ i (primitive_name e) So); [reflexivity| |reflexivity]. now rewrite nth_error_map, E.
  - intros name alias target E. rewrite L, E. now destruct (static_name static_table target).
Qed.

(** Declaring an unknown name adds one entry under the next number, keeps the invariant and every other
    name and entry, and grows the tables when they are full; out of memory nothing is declared and #F is
    returned. *)
Theorem declare_primitive_new override_p name code nargs_lo nargs_hi docstr t :
  table_ok t -> lookup_name t name = None -> 11 * MAX_PRIMITIVE t < 2 ^ 57 ->
  returns (declare_primitive_internal override_p name code nargs_lo nargs_hi docstr t) (fun '(result, t') =>
    table_ok t' /\
    match free_nodes (trees t) with
    | O => result = SHARP_F /\ MAX_PRIMITIVE t' = MAX_PRIMITIVE t /\ forall n, lookup_name t' n = lookup_name t n
    | S _ => result = MAKE_PRIMITIVE_OBJECT (MAX_PRIMITIVE t) /\
             added t name (PrimEntry code nargs_hi (nargs_hi * 8) name docstr) t'
    end).
Proof.
  intros Ht L Hm. destruct (free_nodes (trees t)) as [|k] eqn:F.
  - ret_step declare_no_memory_ok; [assumption..|]. intros [result t'] (R & T & M & E & _).
    split; [exact T|]. split; [exact R|]. split; [exact M|]. intros n. unfold lookup_name. now rewrite E.
  - ret_step declare_new_ok; [assumption|assumption|lia|assumption|]. intros [result t'] (R & T & A). auto.
Qed.

(** Declaring a known name either fills in its entry (unimplemented, or overridden, and of a compatible
    arity) or changes nothing and returns the number as a fixnum. *)
Theorem declare_primitive_existing override_p name code nargs_lo nargs_hi docstr t n i e :
  table_ok t -> lookup_name t name = Some (n, i) -> nth_error (entries t) (Z.to_nat i) = Some (Some e) ->
  exists result t', declare_primitive_internal override_p name code nargs_lo nargs_hi docstr t = Return (result, t') /\
    table_ok t' /\ (forall m, lookup_name t' m = lookup_name t m) /\
    if refused e override_p nargs_hi then result = LONG_TO_UNSIGNED_FIXNUM i /\ t' = t
    else result = MAKE_PRIMITIVE_OBJECT i /\
         exists e', nth_error (entries t') (Z.to_nat i) = Some (Some e') /\ procedure e' = code /\
           arity e' = nargs_hi /\ primitive_name e' = primitive_name e /\
           documentation e' = match docstr with None => documentation e | Some _ => docstr end /\
           forall j, 0 <= j -> j <> i -> nth_error (entries t') (Z.to_nat j) = nth_error (entries t) (Z.to_nat j).
Proof.
  intros Ht L E. rewrite (declare_existing_ok override_p name code nargs_lo nargs_hi docstr t n i e Ht L E).
  pose proof (lookup_value t name _ Ht L) as Hi. cbn [snd] in Hi. pose proof (ok_size t Ht) as Sz. unfold prim_table_size in Sz.
  destruct (refused e override_p nargs_hi); [now exists (LONG_TO_UNSIGNED_FIXNUM i), t|].
  exists (MAKE_PRIMITIVE_OBJECT i), (redeclared t i code nargs_hi e docstr). split; [reflexivity|].
  split; [now apply redeclared_ok|]. split; [reflexivity|]. split; [reflexivity|]. eexists. unfold redeclared at 1.
  cbn [entries with_entries]. rewrite nth_error_update_eq by lia. repeat (split; [reflexivity|]).
  intros j Hj Ne. apply nth_error_update_ne. lia.
Qed.

(** Find_primitive_cname on a known name returns the primitive, learns an unknown arity, hides an
    unimplemented primitive when asked, and reports a conflicting arity as a fixnum; on an unknown name
    it declares one or returns #F. *)
Theorem find_primitive_correct name intern_p allow_p arity_ t : table_ok t ->
  (0 < free_nodes (trees t))%nat -> 11 * MAX_PRIMITIVE t < 2 ^ 57 ->
  returns (find_primitive_cname name intern_p allow_p arity_ t) (fun '(result, t') =>
    table_ok t' /\
    match lookup_name t name with
    | Some (n, i) => exists e, nth_error (entries t) (Z.to_nat i) = Some (Some e) /\ (result, t') = found e i allow_p arity_ t
    | None => if intern_p then result = MAKE_PRIMITIVE_OBJECT (MAX_PRIMITIVE t) /\
                added t name (PrimEntry Prim_unimplemented arity_ (arity_ * 8) name None) t'
              else result = SHARP_F /\ t' = t
    end).
Proof.
  intros Ht F Hm. destruct (lookup_name t name) as [[n i]|] eqn:L.
  - pose proof (lookup_value t name _ Ht L) as Hi. destruct (ok_entry t i Ht Hi) as (e & E & _).
    destruct (find_existing_ok name intern_p allow_p arity_ t n i e Ht L E) as [-> Ok]. ret_now.
    destruct (found e i allow_p arity_ t) as [result t'] eqn:Ef. split; [exact Ok|]. exists e. now split.
  - ret_step find_new_ok; [assumption..|]. intros [result t'] H. destruct intern_p.
    + destruct H as (R & T & A). auto.
    + destruct H as [R ->]. auto.
Qed.

(** Renumbering assigns each primitive one external code, dense from 0, that later calls keep; the
    external table is its inverse and is never written out of bounds. *)
Theorem renumber_primitive_correct n pr primitive : n < 2 ^ 57 -> renumber_ok n pr -> 0 <= OBJECT_DATUM primitive < n ->
  returns (renumber_primitive primitive pr) (fun '(object, pr') =>
    exists new, object = OBJECT_NEW_DATUM primitive new /\ renumber_ok n pr' /\ 0 <= new < next_code pr' /\
      renumbered pr' (OBJECT_DATUM primitive) new /\
      (forall old' new', renumbered pr old' new' -> renumbered pr' old' new') /\
      (forall new', renumbered pr' (OBJECT_DATUM primitive) new' -> new' = new)).
Proof.
  intros Hn Hp Ho. ret_step renumber_primitive_ok; [exact Hn|exact Hp|exact Ho|].
  intros [object pr'] (new & E & Hp' & [N0 N1] & more & M). exists new. split; [exact E|]. split; [exact Hp'|].
  assert (B : (Z.to_nat new < length (renumbered_codes pr'))%nat) by (apply nth_error_Some; congruence).
  split; [unfold renumbered_codes in B; rewrite length_firstn in B; lia|]. split; [now split|]. split.
  - intros old' new' [P0 P1]. split; [exact P0|]. rewrite M, nth_error_app1; [exact P1|]. apply nth_error_Some. congruence.
  - intros new' [P0 P1]. pose proof (renumber_nodup n pr' Hp') as ND. rewrite NoDup_nth_error in ND.
    specialize (ND (Z.to_nat new) (Z.to_nat new') B). rewrite N1, P1 in ND. specialize (ND eq_refl). lia.
Qed.

(** C34: importing what export_primitive_table or export_renumbered_primitives wrote gives back the
    primitive objects of the exported codes and leaves the table as it was; the export length computed
    beforehand is exact. *)
Theorem primitive_table_round_trip t codes memory n : table_ok t ->
  Forall (fun code => 0 <= code < MAX_PRIMITIVE t) codes -> all_exportable t codes ->
  export_length t codes 0 = Return n -> n <= zlength memory ->
  exists words rest, export_entries t codes memory = Return (words, rest) /\ zlength words = n /\
    import_primitive_table (length codes) words t = Return (map MAKE_PRIMITIVE_OBJECT codes, t).
Proof.
  intros Ht Hc X El Hm. destruct (export_length_acc t codes X 0) as (k & Hk & Ek & W).
  rewrite Ek in El. injection El as <-. destruct (W memory ltac:(lia)) as ([words rest] & E & Xp & L).
  exists words, rest. split; [exact E|]. split; [lia|].
  pose proof (import_exported_ok t codes words Ht Hc Xp []) as I. now rewrite app_nil_r in I.
Qed.

Lemma primitive_table_round_trip_witness :
  exists words rest, export_entries sample [3; 1] (repeat 0 10) = Return (words, rest) /\ zlength words = 8 /\
    import_primitive_table (length [3; 1]) words sample = Return (map MAKE_PRIMITIVE_OBJECT [3; 1], sample).
Proof.
  apply primitive_table_round_trip.
  - exact sample_ok.
  - repeat constructor; vm_compute; (discriminate || reflexivity).
  - repeat constructor; (eexists; split; [reflexivity|]); (split; [repeat constructor|split; [reflexivity|vm_compute; split; discriminate]]).
  - reflexivity.
  - vm_compute. discriminate.
Defined.
