(* ===== verification/Heap.v ===== *)
(** * The heap of Scheme objects

    The storage that environments, pairs, vectors and symbols live in.  It is
    divided into blocks, one for each object allocated, numbered in order of
    allocation; a pointer object has a type code and the number of the block it
    points to, any other object is a word.  An address ([SCHEME_OBJECT *]) is
    a block and an offset in it.  [available] is [heap_alloc_limit - Free];
    an allocation without a preceding check may go below zero, into the
    reserve between [heap_alloc_limit] and [heap_end].

    The second part of the file relates loads to stores and allocations, in
    terms of the total functions [block_of] and [content]. *)

From Stdlib Require Import ZArith List Bool Lia.
From S2P Require Import Prelude Object.
Import ListNotations.

#[local] Open Scope Z_scope.
#[local] Open Scope microcode_scope.

(** ** Objects and addresses *)

Inductive object : Type :=
| Immediate (word : Z)
| Pointer (type : Z) (block : nat).

Definition address : Type := nat * nat.

Definition object_eq_dec (a b : object) : {a = b} + {a <> b}.
Proof. decide equality; (apply Z.eq_dec || apply Nat.eq_dec). Defined.

(** The C comparison of two objects. *)
Definition object_eqb (a b : object) : bool := if object_eq_dec a b then true else false.

Definition address_eq_dec (a b : address) : {a = b} + {a <> b}.
Proof. decide equality; apply Nat.eq_dec. Defined.

Definition OBJECT_TYPE (object : object) : Z :=
  match object with Immediate w => Object.OBJECT_TYPE w | Pointer type _ => type end.

(** The datum of a pointer is its address, which no code here computes with. *)
Definition OBJECT_DATUM (object : object) : outcome Z :=
  match object with Immediate w => Return (Object.OBJECT_DATUM w) | Pointer _ _ => Wild end.

Definition MAKE_OBJECT (type datum : Z) : object := Immediate (Object.MAKE_OBJECT type datum).

Definition OBJECT_NEW_TYPE (type : Z) (object : object) : Heap.object :=
  match object with
  | Immediate w => Immediate (Object.OBJECT_NEW_TYPE type w)
  | Pointer _ b => Pointer type b
  end.

Definition SHARP_F : object := Immediate Object.SHARP_F.
Definition SHARP_T : object := Immediate Object.SHARP_T.
Definition EMPTY_LIST : object := Immediate Object.EMPTY_LIST.
Definition LONG_TO_UNSIGNED_FIXNUM (n : Z) : object := Immediate (Object.LONG_TO_UNSIGNED_FIXNUM n).

Definition TC_VECTOR : Z := 0x0A.
Definition TC_MANIFEST_VECTOR : Z := TC_FALSE.
Definition TC_HUNK3 : Z := 0x24.

Definition PAIR_P (object : object) : bool := OBJECT_TYPE object =? TC_LIST.
Definition WEAK_PAIR_P (object : object) : bool := OBJECT_TYPE object =? TC_WEAK_CONS.
Definition VECTOR_P (object : object) : bool := OBJECT_TYPE object =? TC_VECTOR.
Definition INTERNED_SYMBOL_P (object : object) : bool := OBJECT_TYPE object =? TC_INTERNED_SYMBOL.
Definition UNINTERNED_SYMBOL_P (object : object) : bool := OBJECT_TYPE object =? TC_UNINTERNED_SYMBOL.
Definition SYMBOL_P (object : object) : bool := INTERNED_SYMBOL_P object || UNINTERNED_SYMBOL_P object.

(** ** The heap *)

(** [gc_space_needed] is the request of a garbage collection, if there is one;
    [non_object] and [obarray] are two of the fixed objects. *)
Record heap : Type := Heap {
  blocks : list (list object);
  available : Z;
  gc_enabled : bool;
  gc_space_needed : option Z;
  non_object : object;
  obarray : object
}.

Definition with_blocks (h : heap) (bs : list (list object)) : heap :=
  Heap bs (available h) (gc_enabled h) (gc_space_needed h) (non_object h) (obarray h).

(** Operations on the heap. *)
Definition operation (A : Type) : Type := heap -> outcome (A * heap).

Definition ret {A} (a : A) : operation A := fun h => Return (a, h).

Definition andthen {A B} (m : operation A) (k : A -> operation B) : operation B :=
  fun h => '(a, h') <- m h ;; k a h'.

(** A computation that reads no memory. *)
Definition pure {A} (m : outcome A) : operation A := fun h => a <- m ;; Return (a, h).

Declare Scope heap_scope.
Delimit Scope heap_scope with heap.

Notation "x <- m ;; k" := (andthen m (fun x => k))
  (at level 60, m at next level, right associativity) : heap_scope.
Notation "' p <- m ;; k" := (andthen m (fun x => match x with p => k end))
  (at level 60, p pattern, m at next level, right associativity) : heap_scope.
Notation "m ;; k" := (andthen m (fun _ => k))
  (at level 60, right associativity) : heap_scope.

#[local] Open Scope heap_scope.

Definition load (a : address) : operation object := fun h =>
  match nth_error (blocks h) (fst a) with
  | Some b => match nth_error b (snd a) with Some o => Return (o, h) | None => Wild end
  | None => Wild
  end.

Definition store (a : address) (value : object) : operation unit := fun h =>
  match nth_error (blocks h) (fst a) with
  | Some b =>
      if Nat.ltb (snd a) (length b)
      then Return (tt, with_blocks h (update (fst a) (update (snd a) value b) (blocks h)))
      else Wild
  | None => Wild
  end.

(** [*Free++ = ...] for each word, and the object that points to the first. *)
Definition allocate (type : Z) (words : list object) : operation object := fun h =>
  Return (Pointer type (length (blocks h)),
          Heap (blocks h ++ [words]) (available h - zlength words) (gc_enabled h)
               (gc_space_needed h) (non_object h) (obarray h)).

(** The address of word [i] of the block an object points to. *)
Definition MEMORY_LOC (object : object) (i : nat) : operation address :=
  match object with Pointer _ b => ret (b, i) | Immediate _ => fun _ => Wild end.

Definition MEMORY_REF (object : object) (i : nat) : operation Heap.object :=
  a <- MEMORY_LOC object i ;; load a.

Definition MEMORY_SET (object : object) (i : nat) (value : Heap.object) : operation unit :=
  a <- MEMORY_LOC object i ;; store a value.

Definition PAIR_CAR (pair : object) : operation object := MEMORY_REF pair 0.
Definition PAIR_CDR (pair : object) : operation object := MEMORY_REF pair 1.
Definition PAIR_CDR_LOC (pair : object) : operation address := MEMORY_LOC pair 1.

Definition VECTOR_LENGTH (v : object) : operation Z :=
  header <- MEMORY_REF v 0 ;; pure (OBJECT_DATUM header).

(** ** Space *)

Definition HEAP_AVAILABLE_P (n : Z) (h : heap) : bool := (0 <? available h) && (n <=? available h).
Definition GC_NEEDED_P (n : Z) (h : heap) : bool := negb (HEAP_AVAILABLE_P n h) && gc_enabled h.

Definition REQUEST_GC (n : Z) (h : heap) : heap :=
  Heap (blocks h) (available h) (gc_enabled h) (Some n) (non_object h) (obarray h).

(** In a primitive, a collection aborts the primitive. *)
Definition Primitive_GC_If_Needed (n : Z) : operation unit := fun h =>
  if GC_NEEDED_P n h then Exception else Return (tt, h).

Definition cons (car cdr : object) : operation object :=
  Primitive_GC_If_Needed 2 ;; allocate TC_LIST [car; cdr].

Definition make_marked_vector (type : Z) (length : nat) (fill_value : object) (gc_check_p : bool) : operation object :=
  (if gc_check_p then Primitive_GC_If_Needed (Z.of_nat length + 1) else ret tt) ;;
  allocate type (MAKE_OBJECT TC_MANIFEST_VECTOR (Z.of_nat length) :: repeat fill_value length).

Definition make_vector (length : nat) (filler : object) (gc_check_p : bool) : operation object :=
  make_marked_vector TC_VECTOR length filler gc_check_p.

(** The words that hold raw data are [Immediate]s. *)
Fixpoint raw_words (words : list object) : option (list Z) :=
  match words with
  | [] => Some []
  | Immediate w :: words => option_map (List.cons w) (raw_words words)
  | Pointer _ _ :: _ => None
  end.

(** ** Running operations *)

Definition block_of (h : heap) (b : nat) : option (list object) := nth_error (blocks h) b.

Definition content (h : heap) (a : address) : option object :=
  match block_of h (fst a) with Some words => nth_error words (snd a) | None => None end.

Lemma raw_words_map data : raw_words (map Immediate data) = Some data.
Proof. induction data as [|w data IH]; [reflexivity|]. cbn [map raw_words]. now rewrite IH. Qed.

Lemma andthen_return {A B} (m : operation A) (k : A -> operation B) h a h' :
  m h = Return (a, h') -> andthen m k h = k a h'.
Proof. unfold andthen. now intros ->. Qed.

Lemma andthen_assoc {A B C} (m : operation A) (f : A -> operation B) (g : B -> operation C) h :
  andthen (andthen m f) g h = andthen m (fun a => andthen (f a) g) h.
Proof. unfold andthen. destruct (m h) as [[a h']| | |]; reflexivity. Qed.

Lemma load_ok h a o : content h a = Some o -> load a h = Return (o, h).
Proof. unfold content, load, block_of. destruct (nth_error (blocks h) (fst a)); [|discriminate]. now intros ->. Qed.

Lemma MEMORY_REF_ok h t b i o : content h (b, i) = Some o -> MEMORY_REF (Pointer t b) i h = Return (o, h).
Proof. intros E. unfold MEMORY_REF, MEMORY_LOC, ret, andthen. cbn [bind]. now apply load_ok. Qed.

Lemma pure_return {A} (a : A) (m : outcome A) h : m = Return a -> pure m h = Return (a, h).
Proof. unfold pure. now intros ->. Qed.

(** The heap after a store. *)
Definition stored (h : heap) (a : address) (value : object) : heap :=
  match block_of h (fst a) with
  | Some words => with_blocks h (update (fst a) (update (snd a) value words) (blocks h))
  | None => h
  end.

Lemma content_block h b i o : content h (b, i) = Some o -> exists words, block_of h b = Some words /\ nth_error words i = Some o.
Proof. unfold content. cbn [fst snd]. destruct (block_of h b) as [words|]; [|discriminate]. intros E. now exists words. Qed.

Lemma store_ok h a old value : content h a = Some old -> store a value h = Return (tt, stored h a value).
Proof.
  destruct a as [b i]. intros (words & Eb & Ei)%content_block. unfold store, stored. unfold block_of in *. cbn [fst snd].
  rewrite Eb. destruct (Nat.ltb_spec i (length words)) as [|G]; [reflexivity|].
  apply nth_error_None in G. congruence.
Qed.

Lemma MEMORY_SET_ok h t b i old value :
  content h (b, i) = Some old -> MEMORY_SET (Pointer t b) i value h = Return (tt, stored h (b, i) value).
Proof. intros E. unfold MEMORY_SET, MEMORY_LOC, ret, andthen. cbn [bind]. now apply store_ok with old. Qed.

Lemma block_stored h b i value c :
  block_of (stored h (b, i) value) c =
  if Nat.eqb b c then option_map (update i value) (block_of h c) else block_of h c.
Proof.
  unfold stored. cbn [fst snd]. destruct (block_of h b) as [words|] eqn:E.
  - unfold block_of, with_blocks in *. cbn [blocks]. assert (b < length (blocks h))%nat by (apply nth_error_Some; congruence).
    rewrite nth_error_update by assumption. destruct (Nat.eqb_spec b c) as [<-|]; [now rewrite E|reflexivity].
  - destruct (Nat.eqb_spec b c) as [<-|]; [now rewrite E|reflexivity].
Qed.

Lemma content_stored_eq h a old value : content h a = Some old -> content (stored h a value) a = Some value.
Proof.
  destruct a as [b i]. intros (words & Eb & Ei)%content_block. unfold content. cbn [fst snd].
  rewrite block_stored, Nat.eqb_refl, Eb. cbn [option_map]. apply nth_error_update_eq. apply nth_error_Some. congruence.
Qed.

Lemma content_stored_ne h a c value : c <> a -> content (stored h a value) c = content h c.
Proof.
  destruct a as [b i], c as [c j]. intros Ne. unfold content. cbn [fst snd]. rewrite block_stored.
  destruct (Nat.eqb_spec b c) as [->|]; [|reflexivity]. destruct (block_of h c) as [words|]; [|reflexivity].
  cbn [option_map]. apply nth_error_update_ne. congruence.
Qed.

Lemma length_stored h a value : length (blocks (stored h a value)) = length (blocks h).
Proof. unfold stored. destruct (block_of h (fst a)); [|reflexivity]. unfold with_blocks. cbn [blocks]. apply length_update. Qed.

(** The heap after an allocation. *)
Definition allocated (h : heap) (words : list object) : heap :=
  Heap (blocks h ++ [words]) (available h - zlength words) (gc_enabled h) (gc_space_needed h) (non_object h) (obarray h).

Lemma allocate_ok h t words : allocate t words h = Return (Pointer t (length (blocks h)), allocated h words).
Proof. reflexivity. Qed.

Lemma block_allocated_old h words b : (b < length (blocks h))%nat -> block_of (allocated h words) b = block_of h b.
Proof. intros Hb. unfold block_of, allocated. cbn [blocks]. now rewrite nth_error_app1. Qed.

Lemma block_allocated_new h words : block_of (allocated h words) (length (blocks h)) = Some words.
Proof. unfold block_of, allocated. cbn [blocks]. now rewrite nth_error_app2, Nat.sub_diag by lia. Qed.

Lemma block_lt h b words : block_of h b = Some words -> (b < length (blocks h))%nat.
Proof. intros E. apply nth_error_Some. unfold block_of in E. congruence. Qed.

Lemma content_lt h b i o : content h (b, i) = Some o -> (b < length (blocks h))%nat.
Proof. intros (words & E & _)%content_block. now apply block_lt with words. Qed.

Lemma content_allocated h words a o : content h a = Some o -> content (allocated h words) a = Some o.
Proof.
  destruct a as [b i]. intros E. unfold content in *. cbn [fst snd] in *.
  destruct (block_of h b) as [ws|] eqn:Eb; [|discriminate]. rewrite block_allocated_old by (now apply block_lt with ws).
  now rewrite Eb.
Qed.

Lemma HEAP_AVAILABLE_enough n h : 0 < n -> n <= available h -> GC_NEEDED_P n h = false.
Proof. intros Hn Ha. unfold GC_NEEDED_P, HEAP_AVAILABLE_P. destruct (Z.ltb_spec 0 (available h)), (Z.leb_spec n (available h)); try lia; reflexivity. Qed.

(** Run the first operation of a sequence by an equation for it. *)
Ltac run E := erewrite andthen_return; [|eapply E]; cbv beta iota.
Ltac run_assoc := rewrite andthen_assoc.

(** ** Changes of the heap *)

(** [h'] has the blocks of [h], and differs from it at the addresses in
    [changed] only. *)
Record changes (changed : address -> Prop) (h h' : heap) : Prop := {
  same_content : forall a, ~ changed a -> content h' a = content h a;
  same_length : length (blocks h') = length (blocks h);
  same_available : available h' = available h;
  same_gc_enabled : gc_enabled h' = gc_enabled h;
  same_non_object : non_object h' = non_object h;
  same_obarray : obarray h' = obarray h
}.

Lemma changes_refl P h : changes P h h.
Proof. constructor; auto. Qed.

Lemma changes_trans P h1 h2 h3 : changes P h1 h2 -> changes P h2 h3 -> changes P h1 h3.
Proof.
  intros [C1 ? ? ? ? ?] [C2 ? ? ? ? ?]. constructor; try congruence. intros a Ha. rewrite C2 by assumption. now apply C1.
Qed.

Lemma changes_weaken P Q h h' : changes P h h' -> (forall a, P a -> Q a) -> changes Q h h'.
Proof. intros [] I. constructor; auto. Qed.

Lemma changes_stored (P : address -> Prop) h a value : P a -> changes P h (stored h a value).
Proof.
  intros Pa. constructor; try (unfold stored; destruct (block_of h (fst a)); reflexivity).
  - intros c Hc. apply content_stored_ne. intros ->. contradiction.
  - apply length_stored.
Qed.

(** Blocks are equal when all their words are. *)
Lemma block_content h h' b : length (blocks h') = length (blocks h) ->
  (forall i, content h' (b, i) = content h (b, i)) -> block_of h' b = block_of h b.
Proof.
  intros L H. destruct (block_of h' b) as [w'|] eqn:E', (block_of h b) as [w|] eqn:E.
  - f_equal. apply nth_error_ext. intros i. specialize (H i). unfold content in H. cbn [fst snd] in H. now rewrite E, E' in H.
  - apply block_lt in E'. apply nth_error_None in E. lia.
  - apply block_lt in E. apply nth_error_None in E'. lia.
  - reflexivity.
Qed.

Lemma changes_block P h h' b : changes P h h' -> (forall i, ~ P (b, i)) -> block_of h' b = block_of h b.
Proof. intros C H. apply block_content; [apply (same_length _ _ _ C)|]. intros i. now apply (same_content _ _ _ C). Qed.

(** ** Shapes

    The structures of the microcode do not share blocks.  The shape of a heap
    says what each block is part of, with what never changes of its contents;
    it is not stored anywhere, and grows with the heap. *)

Inductive kind : Type :=
| KObarray
| KBucket (index : nat)
| KSymbol
| KString
| KFormals (names : list object)
| KLambda (names : list object)
| KProcedure (names : list object) (environment : object)
| KFrame (names : list object) (parent : object)
| KExtension (frame : nat)
| KBinding (name : object)
| KTrap
| KMacro
| KCache
| KReferences
| KOther.

Definition shape : Type := nat -> kind.

(** The shape after the allocation of block [n]. *)
Definition extended (sh : shape) (n : nat) (k : kind) : shape := fun b => if Nat.eqb b n then k else sh b.

Lemma extended_new sh n k : extended sh n k n = k.
Proof. unfold extended. now rewrite Nat.eqb_refl. Qed.

Lemma extended_old sh n k b : (b < n)%nat -> extended sh n k b = sh b.
Proof. intros H. unfold extended. destruct (Nat.eqb_spec b n); [lia|reflexivity]. Qed.

(** ** Growth *)

(** [h'] has the blocks of [h] unchanged and more. *)
Record grows (h : heap) (sh : shape) (h' : heap) (sh' : shape) : Prop := {
  grow_block : forall b words, block_of h b = Some words -> block_of h' b = Some words;
  grow_shape : forall b, (b < length (blocks h))%nat -> sh' b = sh b;
  grow_obarray : obarray h' = obarray h;
  grow_non_object : non_object h' = non_object h
}.

Lemma grow_content h sh h' sh' a o : grows h sh h' sh' -> content h a = Some o -> content h' a = Some o.
Proof.
  intros G. unfold content. destruct (block_of h (fst a)) as [w|] eqn:E; [|discriminate]. now rewrite (grow_block _ _ _ _ G _ _ E).
Qed.

Lemma grow_kind h sh h' sh' b i o : grows h sh h' sh' -> content h (b, i) = Some o -> sh' b = sh b.
Proof. intros G E. apply (grow_shape _ _ _ _ G). exact (content_lt _ _ _ _ E). Qed.

Lemma grows_refl h sh : grows h sh h sh.
Proof. constructor; auto. Qed.

Lemma grows_trans h1 s1 h2 s2 h3 s3 : grows h1 s1 h2 s2 -> grows h2 s2 h3 s3 -> grows h1 s1 h3 s3.
Proof.
  intros [A1 A2 A3 A4] [B1 B2 B3 B4]. constructor; try congruence; [auto|]. intros b Hb. rewrite B2; [now apply A2|].
  apply nth_error_Some in Hb. destruct (nth_error (blocks h1) b) eqn:E; [|contradiction]. now apply A1, block_lt in E.
Qed.

Lemma grows_allocated h sh words k : grows h sh (allocated h words) (extended sh (length (blocks h)) k).
Proof.
  constructor; try reflexivity.
  - intros b w E. rewrite block_allocated_old; [exact E|now apply block_lt with w].
  - intros b Hb. now apply extended_old.
Qed.
