(* ===== verification/Intern.v ===== *)
(** * intern.c: the table of interned symbols

    The obarray is a vector of buckets; a bucket is a list of weak or ordinary
    pairs whose elements are symbols.  The garbage collector drops symbols that
    only weak pairs hold and leaves something else in their place; a search
    removes such pairs from the bucket. *)

From Stdlib Require Import ZArith List Bool Lia.
From S2P Require Import Prelude Object Bytes Heap.
Import ListNotations.

#[local] Open Scope Z_scope.
#[local] Open Scope heap_scope.

(** ** utils.c: the hash function *)

Definition memory_hash_step (result byte : Z) : Z := to_uint (Z.lxor result byte * 16777619).
Definition memory_hash (bytes : list Z) : Z := fold_left memory_hash_step bytes 2166136261.

(** ** Strings *)

Definition TC_CHARACTER_STRING : Z := 0x1E.
Definition TC_BYTEVECTOR : Z := 0x33.
Definition SYMBOL_NAME : nat := 0.
Definition SYMBOL_GLOBAL_VALUE : nat := 1.
Definition BYTEVECTOR_LENGTH_INDEX : nat := 1.
Definition BYTEVECTOR_DATA : nat := 2.

Definition STRING_LENGTH (s : object) : operation Z :=
  word <- MEMORY_REF s BYTEVECTOR_LENGTH_INDEX ;; pure (OBJECT_DATUM word).

(** The [n] bytes from [STRING_POINTER (s)] on. *)
Definition string_bytes (s : object) (n : Z) : operation (list Z) := fun h =>
  match s with
  | Immediate _ => Wild
  | Pointer _ b =>
      match block_of h b with
      | None => Wild
      | Some words =>
          match raw_words (skipn BYTEVECTOR_DATA words) with
          | None => Wild
          | Some data =>
              let bytes := concat (map word_bytes data) in
              if (0 <=? n) && (n <=? zlength bytes) then Return (firstn (Z.to_nat n) bytes, h) else Wild
          end
      end
  end.

(** The bytes of a string, [STRING_LENGTH] of them. *)
Definition string_contents (s : object) : operation (list Z) :=
  length <- STRING_LENGTH s ;; string_bytes s length.

Definition list_eqb (a b : list Z) : bool := if list_eq_dec Z.eq_dec a b then true else false.

(** ** The table *)

Definition initial_bucket (name : list Z) : operation address := fun h =>
  (length <- VECTOR_LENGTH (obarray h) ;;
   if length =? 0 then fun _ => Wild
   else MEMORY_LOC (obarray h) (Z.to_nat (memory_hash name mod length) + 1)) h.

(** The loop of [find_symbol_internal]. *)
Fixpoint find_symbol_loop (fuel : nat) (name : list Z) (bucket : address) : operation address :=
  match fuel with
  | O => fun _ => OutOfFuel
  | S fuel =>
      list <- load bucket ;;
      if WEAK_PAIR_P list || PAIR_P list then
        symbol <- PAIR_CAR list ;;
        if INTERNED_SYMBOL_P symbol then
          name2 <- MEMORY_REF symbol SYMBOL_NAME ;;
          length2 <- STRING_LENGTH name2 ;;
          equal <- (if length2 =? zlength name
                    then bytes <- string_bytes name2 (zlength name) ;; ret (list_eqb bytes name)
                    else ret false) ;;
          if equal then MEMORY_LOC list 0
          else bucket <- PAIR_CDR_LOC list ;; find_symbol_loop fuel name bucket
        else
          cdr <- PAIR_CDR list ;;
          store bucket cdr ;;
          find_symbol_loop fuel name bucket
      else ret bucket
  end.

(** Every turn leaves a pair behind: there are no more than blocks. *)
Definition bucket_fuel (h : heap) : nat := S (length (blocks h)).

Definition find_symbol_internal (name : list Z) : operation address := fun h =>
  (bucket <- initial_bucket name ;; find_symbol_loop (bucket_fuel h) name bucket) h.

(** The loop of [replace_symbol_bucket_type]. *)
Fixpoint replace_loop (fuel : nat) (symbol : object) (type : Z) (bucket : address) : operation unit :=
  match fuel with
  | O => fun _ => OutOfFuel
  | S fuel =>
      list <- load bucket ;;
      if WEAK_PAIR_P list || PAIR_P list then
        element <- PAIR_CAR list ;;
        if INTERNED_SYMBOL_P element then
          if object_eqb element symbol then store bucket (OBJECT_NEW_TYPE type list)
          else bucket <- PAIR_CDR_LOC list ;; replace_loop fuel symbol type bucket
        else
          cdr <- PAIR_CDR list ;;
          store bucket cdr ;;
          replace_loop fuel symbol type bucket
      else fun _ => Exception
  end.

Definition replace_symbol_bucket_type (symbol : object) (type : Z) : operation unit := fun h =>
  (if UNINTERNED_SYMBOL_P symbol then ret tt
   else
     pure (assert_that (INTERNED_SYMBOL_P symbol)) ;;
     name <- MEMORY_REF symbol SYMBOL_NAME ;;
     name <- string_contents name ;;
     bucket <- initial_bucket name ;;
     replace_loop (bucket_fuel h) symbol type bucket) h.

Definition strengthen_symbol (symbol : object) : operation unit := replace_symbol_bucket_type symbol TC_LIST.
Definition weaken_symbol (symbol : object) : operation unit := replace_symbol_bucket_type symbol TC_WEAK_CONS.

(** ** Making symbols *)

Definition TC_REFERENCE_TRAP : Z := 0x32.
Definition TRAP_UNBOUND : Z := 2.
Definition UNBOUND_OBJECT : object := MAKE_OBJECT TC_REFERENCE_TRAP TRAP_UNBOUND.

Definition system_pair_cons (type : Z) (car cdr : object) : operation object :=
  Primitive_GC_If_Needed 2 ;; allocate type [car; cdr].

Definition make_symbol (name : object) (cell : address) : operation object :=
  Primitive_GC_If_Needed 4 ;;
  symbol <- allocate TC_INTERNED_SYMBOL [name; UNBOUND_OBJECT] ;;
  pair <- system_pair_cons TC_WEAK_CONS symbol EMPTY_LIST ;;
  store cell pair ;;
  ret symbol.

Definition find_symbol (name : list Z) : operation object :=
  cell <- find_symbol_internal name ;;
  symbol <- load cell ;;
  ret (if INTERNED_SYMBOL_P symbol then symbol else SHARP_F).

(** bytevector.c; the model's fresh memory holds zeros. *)
Definition memory_to_bytevector (bytes : list Z) : operation object :=
  let length := BYTES_TO_WORDS (zlength bytes + 1) + 1 in
  Primitive_GC_If_Needed (1 + length) ;;
  allocate TC_BYTEVECTOR
    (MAKE_OBJECT TC_MANIFEST_NM_VECTOR length :: MAKE_OBJECT 0 (zlength bytes)
       :: map Immediate (pack (Z.to_nat (length - 1)) (bytes ++ [0]))).

Definition memory_to_symbol (name : list Z) : operation object :=
  cell <- find_symbol_internal name ;;
  symbol <- load cell ;;
  if INTERNED_SYMBOL_P symbol then ret symbol
  else string <- memory_to_bytevector name ;; make_symbol string cell.

Definition string_to_symbol (name : object) : operation object :=
  bytes <- string_contents name ;;
  cell <- find_symbol_internal bytes ;;
  symbol <- load cell ;;
  if INTERNED_SYMBOL_P symbol then ret symbol else make_symbol name cell.

Definition LEGACY_STRING_P (object : object) : bool := OBJECT_TYPE object =? TC_CHARACTER_STRING.

Definition intern_symbol (symbol : object) : operation object :=
  name <- MEMORY_REF symbol SYMBOL_NAME ;;
  bytes <- string_contents name ;;
  cell <- find_symbol_internal bytes ;;
  found <- load cell ;;
  if INTERNED_SYMBOL_P found then ret found
  else
    (if LEGACY_STRING_P name
     then MEMORY_SET symbol SYMBOL_NAME (OBJECT_NEW_TYPE TC_BYTEVECTOR name)
     else ret tt) ;;
    let result := OBJECT_NEW_TYPE TC_INTERNED_SYMBOL symbol in
    pair <- system_pair_cons TC_WEAK_CONS result EMPTY_LIST ;;
    store cell pair ;;
    ret result.

(** ** The invariant of the table *)

Definition pair_type (t : Z) : Prop := t = TC_LIST \/ t = TC_WEAK_CONS.
Definition pair_object (o : object) : bool := WEAK_PAIR_P o || PAIR_P o.

(** What follows the last pair. *)
Definition list_end (e : object) : Prop := pair_object e = false /\ INTERNED_SYMBOL_P e = false.

(** The pairs of a bucket from the address [a] on, each with its element, up
    to the address of the tail. *)
Inductive chain (h : heap) (sh : shape) (i : nat) : address -> list (nat * object) -> address -> Prop :=
| chain_nil a : chain h sh i a [] a
| chain_cons a t b car pairs tail :
    content h a = Some (Pointer t b) -> pair_type t -> sh b = KBucket i ->
    content h (b, 0%nat) = Some car -> chain h sh i (b, 1%nat) pairs tail ->
    chain h sh i a ((b, car) :: pairs) tail.

Definition live (pairs : list (nat * object)) : list object := filter INTERNED_SYMBOL_P (map snd pairs).

(** The words of a string block, and the string that an object is. *)
Definition string_words (words : list object) (bytes : list Z) : Prop :=
  exists header lw data rest, words = header :: Immediate lw :: map Immediate data /\
    Object.OBJECT_DATUM lw = zlength bytes /\ concat (map word_bytes data) = bytes ++ rest.

Definition string_object (h : heap) (sh : shape) (s : object) (bytes : list Z) : Prop :=
  exists t b words, s = Pointer t b /\ sh b = KString /\ block_of h b = Some words /\ string_words words bytes.

Definition symbol_named (h : heap) (sh : shape) (symbol : object) (name : list Z) : Prop :=
  exists t b s, symbol = Pointer t b /\ SYMBOL_P symbol = true /\ sh b = KSymbol /\
    content h (b, SYMBOL_NAME) = Some s /\ string_object h sh s name.

(** A bucket, the address it starts at, its pairs and the address of its tail. *)
Record bucket (h : heap) (sh : shape) (n : Z) (i : nat) (a : address) (pairs : list (nat * object)) (tail : address) : Prop := {
  bucket_chain : chain h sh i a pairs tail;
  bucket_pairs : NoDup (map fst pairs);
  bucket_end : exists e, content h tail = Some e /\ list_end e;
  bucket_names : forall symbol, In symbol (live pairs) ->
    exists name, symbol_named h sh symbol name /\ memory_hash name mod n = Z.of_nat i;
  bucket_symbols : NoDup (live pairs);
  bucket_unique : forall s1 s2 name, In s1 (live pairs) -> In s2 (live pairs) ->
    symbol_named h sh s1 name -> symbol_named h sh s2 name -> s1 = s2
}.

Record obarray_ok (h : heap) (sh : shape) (ob : nat) (n : Z) : Prop := {
  obarray_pointer : obarray h = Pointer TC_VECTOR ob;
  obarray_shape : sh ob = KObarray;
  obarray_header : exists w, content h (ob, 0%nat) = Some (Immediate w) /\ Object.OBJECT_DATUM w = n;
  obarray_positive : 0 < n;
  obarray_buckets : forall i, Z.of_nat i < n -> exists pairs tail, bucket h sh n i (ob, S i) pairs tail
}.

(** The interned symbol of a name. *)
Definition interned (h : heap) (sh : shape) (ob : nat) (n : Z) (name : list Z) (symbol : object) : Prop :=
  exists i pairs tail, Z.of_nat i = memory_hash name mod n /\
    bucket h sh n i (ob, S i) pairs tail /\ In symbol (live pairs) /\ symbol_named h sh symbol name.

(** ** Strings and symbols *)

Lemma STRING_LENGTH_ok h sh s bytes : string_object h sh s bytes -> STRING_LENGTH s h = Return (zlength bytes, h).
Proof.
  intros (t & b & words & -> & _ & Eb & header & lw & data & rest & -> & El & _). unfold STRING_LENGTH.
  run MEMORY_REF_ok; [|unfold content; cbn [fst snd]; rewrite Eb; reflexivity]. apply pure_return. cbn [OBJECT_DATUM]. now rewrite El.
Qed.

Lemma string_bytes_ok h sh s bytes : string_object h sh s bytes -> string_bytes s (zlength bytes) h = Return (bytes, h).
Proof.
  intros (t & b & words & -> & _ & Eb & header & lw & data & rest & -> & _ & E). unfold string_bytes. rewrite Eb.
  cbn [skipn BYTEVECTOR_DATA]. rewrite raw_words_map, E. cbv zeta. rewrite length_app.
  destruct (Z.leb_spec 0 (zlength bytes)); [|lia]. destruct (Z.leb_spec (zlength bytes) (Z.of_nat (length bytes + length rest))); [|lia].
  cbn [andb]. rewrite Nat2Z.id, firstn_app, Nat.sub_diag, firstn_all. cbn [firstn]. now rewrite app_nil_r.
Qed.

Lemma string_contents_ok h sh s bytes : string_object h sh s bytes -> string_contents s h = Return (bytes, h).
Proof. intros H. unfold string_contents. run STRING_LENGTH_ok; [|exact H]. now apply string_bytes_ok with sh. Qed.

Lemma string_object_unique h sh s x y : string_object h sh s x -> string_object h sh s y -> x = y.
Proof. intros Hx%string_contents_ok Hy%string_contents_ok. congruence. Qed.

Lemma symbol_named_unique h sh s x y : symbol_named h sh s x -> symbol_named h sh s y -> x = y.
Proof.
  intros (t & b & n & -> & _ & _ & En & Sx) (t' & b' & n' & [= <- <-] & _ & _ & En' & Sy).
  assert (n' = n) as -> by congruence. now apply string_object_unique with h sh n.
Qed.

(** The addresses the table is made of, but for the symbols and their names. *)
Definition table_address (sh : shape) (a : address) : Prop :=
  sh (fst a) = KObarray \/ exists i, sh (fst a) = KBucket i.

Lemma string_object_changes P h h' sh s bytes :
  changes P h h' -> (forall a, P a -> sh (fst a) <> KString) -> string_object h sh s bytes -> string_object h' sh s bytes.
Proof.
  intros C HP (t & b & words & -> & Hs & Eb & W). exists t, b, words. repeat split; [exact Hs| |exact W].
  rewrite <- Eb. apply (changes_block P); [exact C|]. intros i Pi. now apply HP in Pi.
Qed.

Lemma symbol_named_changes P h h' sh s name :
  changes P h h' -> (forall a, P a -> sh (fst a) <> KString /\ (sh (fst a) = KSymbol -> snd a <> SYMBOL_NAME)) ->
  symbol_named h sh s name -> symbol_named h' sh s name.
Proof.
  intros C HP (t & b & n & -> & Sy & Hs & En & So). exists t, b, n. repeat split; [exact Sy|exact Hs| |].
  - rewrite <- En. apply (same_content _ _ _ C). intros Pi. apply HP in Pi as [_ Pi]. now apply Pi.
  - eapply string_object_changes; [exact C| |exact So]. intros a Pa. now apply HP.
Qed.

(** ** Chains *)

Lemma chain_app h sh i p1 p2 : forall a tail,
  chain h sh i a (p1 ++ p2) tail <-> exists mid, chain h sh i a p1 mid /\ chain h sh i mid p2 tail.
Proof.
  induction p1 as [|[b car] p1 IH]; intros a tail; cbn [app].
  - split; [intros H; exists a; split; [constructor|exact H]|]. intros (mid & H1 & H2). now inversion H1; subst.
  - split.
    + inversion 1 as [|? t ? ? ? ? E T S C R]; subst. apply IH in R as (mid & R1 & R2). exists mid. split; [|exact R2].
      now apply chain_cons with t.
    + intros (mid & H1 & H2). inversion H1 as [|? t ? ? ? ? E T S C R]; subst. apply chain_cons with t; try assumption.
      apply IH. now exists mid.
Qed.

Lemma chain_tail h sh i pairs : forall a tail, chain h sh i a pairs tail ->
  (pairs = [] /\ tail = a) \/ (exists b, In b (map fst pairs) /\ tail = (b, 1%nat)).
Proof.
  induction pairs as [|[b car] pairs IH]; intros a tail; inversion 1 as [|? t ? ? ? ? E T S C R]; subst; [now left|].
  right. apply IH in R as [[-> ->]|(b' & I & ->)]; [exists b|exists b']; cbn [map fst In]; auto.
Qed.

Lemma chain_kinds h sh i pairs : forall a tail b, chain h sh i a pairs tail -> In b (map fst pairs) -> sh b = KBucket i.
Proof.
  induction pairs as [|[b' car] pairs IH]; intros a tail b; inversion 1 as [|? t ? ? ? ? E T S C R]; subst; cbn [map fst In];
    [contradiction|]. intros [<-|I]; [exact S|]. now apply IH with (b', 1%nat) tail.
Qed.

Lemma chain_changes h h' sh i pairs : forall a tail, chain h sh i a pairs tail ->
  NoDup (map fst pairs) -> ~ In (fst a) (map fst pairs) ->
  (forall x, x <> tail -> x = a \/ In (fst x) (map fst pairs) -> content h' x = content h x) ->
  chain h' sh i a pairs tail.
Proof.
  induction pairs as [|[b car] pairs IH]; intros a tail; inversion 1 as [|? t ? ? ? ? E T S C R]; subst; intros ND NI Same; [constructor|].
  cbn [map fst In] in *. apply NoDup_cons_iff in ND as [Nb ND].
  assert (Ta : tail <> a /\ tail <> (b, 0%nat)).
  { apply chain_tail in R as [[-> ->]|(b' & I & ->)]; (split; [intros <-; apply NI; auto|congruence]). }
  apply chain_cons with t; [|exact T|exact S| |].
  - rewrite Same; [exact E|intuition congruence|now left].
  - rewrite Same; [exact C|intuition congruence|right; now left].
  - apply IH; [exact R|exact ND|exact Nb|]. intros x Hx [->|I]; apply Same; auto; right; cbn [fst]; auto.
Qed.

Lemma live_app p1 p2 : live (p1 ++ p2) = live p1 ++ live p2.
Proof. unfold live. now rewrite map_app, filter_app. Qed.

Lemma live_in b s pairs : In (b, s) pairs -> INTERNED_SYMBOL_P s = true -> In s (live pairs).
Proof. intros I Is. apply filter_In. split; [|exact Is]. apply in_map_iff. now exists (b, s). Qed.

Lemma pair_object_pointer t b : pair_type t -> pair_object (Pointer t b) = true.
Proof. intros [->| ->]; reflexivity. Qed.

(** ** Searching a bucket *)

(** The part of the invariant of a bucket that a search maintains: the pairs
    before and after the address [c] it has reached. *)
Record scanning (h : heap) (sh : shape) (i : nat) (a c : address) (before after : list (nat * object)) (tail : address) : Prop := {
  scan_before : chain h sh i a before c;
  scan_after : chain h sh i c after tail;
  scan_pairs : NoDup (map fst (before ++ after));
  scan_start : sh (fst a) = KObarray;
  scan_end : exists e, content h tail = Some e /\ list_end e;
  scan_names : forall symbol, In symbol (live (before ++ after)) -> exists name, symbol_named h sh symbol name
}.

Lemma scanning_chain h sh i a c before after tail : scanning h sh i a c before after tail -> chain h sh i a (before ++ after) tail.
Proof. intros []. apply chain_app. now exists c. Qed.

Lemma scanning_start h sh i a c before after tail : scanning h sh i a c before after tail -> ~ In (fst a) (map fst (before ++ after)).
Proof.
  intros S I. pose proof (chain_kinds _ _ _ _ _ _ _ (scanning_chain _ _ _ _ _ _ _ _ S) I) as K. pose proof (scan_start _ _ _ _ _ _ _ _ S). congruence.
Qed.

Lemma scanning_address h sh i a c before after tail : scanning h sh i a c before after tail ->
  c = a \/ (exists b, In b (map fst before) /\ c = (b, 1%nat)).
Proof. intros S. destruct (chain_tail _ _ _ _ _ _ (scan_before _ _ _ _ _ _ _ _ S)) as [[_ ->]|H]; [now left|now right]. Qed.

(** One step forward. *)
Lemma scanning_next h sh i a c before b car after tail : scanning h sh i a c before ((b, car) :: after) tail ->
  scanning h sh i a (b, 1%nat) (before ++ [(b, car)]) after tail.
Proof.
  intros [B A P S E N]. inversion A as [|? t ? ? ? ? Ec T K C R]; subst.
  constructor; [apply chain_app; exists c; split; [exact B|apply chain_cons with t; auto; constructor]|exact R| |exact S|exact E|].
  - now rewrite <- app_assoc.
  - now rewrite <- app_assoc.
Qed.

(** The addresses of a search: the start of the bucket and the tails of pairs. *)
Definition bucket_address (sh : shape) (i : nat) (a x : address) : Prop :=
  x = a \/ (sh (fst x) = KBucket i /\ snd x = 1%nat).

Lemma bucket_symbol_named sh i a h h' s name : sh (fst a) = KObarray -> changes (bucket_address sh i a) h h' ->
  symbol_named h sh s name -> symbol_named h' sh s name.
Proof.
  intros Sa C. apply symbol_named_changes with (1 := C). intros x [->|[K _]]; rewrite ?Sa, ?K; split; congruence.
Qed.

Lemma scanning_in_bucket h sh i a c before after tail : scanning h sh i a c before after tail -> bucket_address sh i a c.
Proof.
  intros S. destruct (scanning_address _ _ _ _ _ _ _ _ S) as [->|(b & I & ->)]; [now left|right]. split; [|reflexivity].
  exact (chain_kinds _ _ _ _ _ _ _ (scan_before _ _ _ _ _ _ _ _ S) I).
Qed.

(** A pair whose element is dead is unlinked. *)
Lemma scanning_unlink h sh i a c before b car after tail cdr : scanning h sh i a c before ((b, car) :: after) tail ->
  INTERNED_SYMBOL_P car = false -> content h (b, 1%nat) = Some cdr ->
  exists tail', scanning (stored h c cdr) sh i a c before after tail'.
Proof.
  intros S Dead Ecdr. pose proof (scanning_start _ _ _ _ _ _ _ _ S) as NI. pose proof (scanning_in_bucket _ _ _ _ _ _ _ _ S) as Hc.
  pose proof (scanning_address _ _ _ _ _ _ _ _ S) as Ac.
  destruct S as [B A P Sa (e & Ee & Pe) N]. inversion A as [|? t ? ? ? ? Ec T K C R]; subst.
  assert (Cb : fst c <> b).
  { rewrite map_app in P, NI. cbn [map fst] in P, NI. destruct Ac as [->|(b' & I & ->)]; cbn [fst]; intros <-.
    - apply NI. apply in_or_app. right. now left.
    - apply NoDup_remove_2 in P. apply P. apply in_or_app. now left. }
  assert (ND : NoDup (map fst before) /\ NoDup (map fst after) /\ (forall x, In x (map fst before) -> ~ In x (b :: map fst after))).
  { rewrite map_app in P. cbn [map fst] in P. apply NoDup_app_split in P as (P1 & P2 & P3). apply NoDup_cons_iff in P2 as [P4 P2]. auto. }
  destruct ND as (ND1 & ND2 & Disj).
  assert (B' : chain (stored h c cdr) sh i a before c).
  { apply chain_changes with h; [exact B|exact ND1| |intros x Hx _; now apply content_stored_ne].
    intros I. apply NI. rewrite map_app. apply in_or_app. now left. }
  assert (Cin : ~ In (fst c) (map fst after)).
  { destruct Ac as [->|(b' & I & ->)]; cbn [fst]; intros I'.
    - apply NI. rewrite map_app. apply in_or_app. right. now right.
    - apply (Disj b' I). now right. }
  assert (Names : forall s, In s (live (before ++ after)) -> exists name, symbol_named (stored h c cdr) sh s name).
  { intros s I. destruct (N s) as (name & Hn).
    - rewrite live_app in *. apply in_app_iff in I as [I|I]; apply in_or_app; [now left|right].
      unfold live in *. cbn [map snd filter]. now rewrite Dead.
    - exists name. apply (bucket_symbol_named sh i a h); [exact Sa|now apply changes_stored|exact Hn]. }
  assert (Pairs : NoDup (map fst (before ++ after))).
  { rewrite map_app in *. cbn [map fst] in P. now apply NoDup_remove_1 in P. }
  destruct after as [|[b2 car2] after].
  - inversion R; subst. exists c. constructor; auto; [constructor|]. exists e. split; [|exact Pe].
    rewrite content_stored_eq with (old := Pointer t b) by assumption. congruence.
  - inversion R as [|? t2 ? ? ? ? Ec2 T2 K2 C2 R2]; subst. exists tail.
    assert (Tail : tail <> c).
    { destruct (chain_tail _ _ _ _ _ _ R2) as [[_ ->]|(b' & I & ->)]; intros <-; apply Cin; cbn [map fst]; [now left|now right]. }
    constructor; auto.
    + assert (cdr = Pointer t2 b2) as -> by congruence.
      apply chain_cons with t2; [now rewrite content_stored_eq with (old := Pointer t b)|exact T2|exact K2| |].
      * rewrite content_stored_ne; [exact C2|]. intros E. apply Cin. rewrite <- E. now left.
      * cbn [map fst] in ND2, Cin. apply NoDup_cons_iff in ND2 as [ND3 ND2].
        apply chain_changes with h; [exact R2|exact ND2|exact ND3|]. intros x _ Hx. apply content_stored_ne. intros ->.
        destruct Hx as [Hx|Hx]; [apply Cin; left; now rewrite Hx|apply Cin; now right].
    + exists e. split; [|exact Pe]. now rewrite content_stored_ne.
Qed.

(** What one turn of a search reads. *)
Lemma scanning_pair h sh i a c before b car after tail : scanning h sh i a c before ((b, car) :: after) tail ->
  exists t, pair_type t /\ content h c = Some (Pointer t b) /\ content h (b, 0%nat) = Some car /\
    exists cdr, content h (b, 1%nat) = Some cdr.
Proof.
  intros [B A P Sa (e & Ee & Pe) N]. inversion A as [|? t ? ? ? ? Ec T K C R]; subst. exists t. repeat split; try assumption.
  inversion R; subst; eauto.
Qed.

Lemma compare_name h sh s name : symbol_named h sh s name -> forall wanted,
  (name2 <- MEMORY_REF s SYMBOL_NAME ;;
   length2 <- STRING_LENGTH name2 ;;
   (if length2 =? zlength wanted
    then bytes <- string_bytes name2 (zlength wanted) ;; ret (list_eqb bytes wanted)
    else ret false)) h = Return (list_eqb name wanted, h).
Proof.
  intros (t & b & n & -> & _ & _ & En & Sn) wanted. run MEMORY_REF_ok; [|exact En]. run STRING_LENGTH_ok; [|exact Sn].
  unfold list_eqb. destruct (Z.eqb_spec (zlength name) (zlength wanted)) as [E|E].
  - rewrite <- E. run string_bytes_ok; [|exact Sn]. reflexivity.
  - destruct (list_eq_dec Z.eq_dec name wanted) as [->|]; [lia|reflexivity].
Qed.

(** The outcome of a search for [name] in the bucket at [a]: the address of the
    symbol, or of the tail when no symbol has the name. *)
Definition searched (sh : shape) (i : nat) (a : address) (pairs : list (nat * object)) (name : list Z) (h : heap)
    (out : address * heap) : Prop :=
  let '(cell, h') := out in
  changes (bucket_address sh i a) h h' /\
  exists before after tail c, scanning h' sh i a c before after tail /\ live (before ++ after) = live pairs /\
    ((exists b s after', after = (b, s) :: after' /\ cell = (b, 0%nat) /\ INTERNED_SYMBOL_P s = true /\ symbol_named h' sh s name) \/
     (after = [] /\ cell = tail /\ forall s, In s (live pairs) -> ~ symbol_named h' sh s name)).

Lemma find_symbol_loop_ok name sh i a : forall after fuel h before c tail,
  scanning h sh i a c before after tail ->
  (forall s, In s (live before) -> ~ symbol_named h sh s name) -> (length after < fuel)%nat ->
  returns (find_symbol_loop fuel name c h) (searched sh i a (before ++ after) name h).
Proof.
  induction after as [|[b car] after IH]; intros fuel h before c tail S Old F; (destruct fuel as [|fuel]; [cbn [length] in F; lia|]);
    cbn [find_symbol_loop].
  - pose proof (scan_end _ _ _ _ _ _ _ _ S) as (e & Ee & Pe). pose proof (scan_after _ _ _ _ _ _ _ _ S) as A. inversion A; subst.
    run load_ok; [|exact Ee]. destruct Pe as [Pe _]. unfold pair_object in Pe. rewrite Pe. ret_now. split; [apply changes_refl|].
    exists before, [], tail, tail. split; [exact S|]. split; [reflexivity|]. right. split; [reflexivity|]. split; [reflexivity|].
    now rewrite app_nil_r.
  - pose proof (scanning_pair _ _ _ _ _ _ _ _ _ _ S) as (t & T & Ec & Ecar & cdr & Ecdr). pose proof (scan_start _ _ _ _ _ _ _ _ S) as Sa.
    run load_ok; [|exact Ec]. change (WEAK_PAIR_P (Pointer t b) || PAIR_P (Pointer t b)) with (pair_object (Pointer t b)).
    rewrite pair_object_pointer by exact T. unfold PAIR_CAR, PAIR_CDR. run MEMORY_REF_ok; [|exact Ecar].
    destruct (INTERNED_SYMBOL_P car) eqn:Live.
    + destruct (scan_names _ _ _ _ _ _ _ _ S car) as (name' & Hn).
      { rewrite live_app. apply in_or_app. right. unfold live. cbn [map snd filter]. rewrite Live. now left. }
      pose proof (compare_name h sh car name' Hn name) as Cmp. destruct Hn as (tc & bc & n' & -> & Hn). rename Hn into Hn'.
      assert (Hn : symbol_named h sh (Pointer tc bc) name') by (exists tc, bc, n'; split; [reflexivity|exact Hn']).
      destruct Hn' as (_ & _ & En & Sn). run MEMORY_REF_ok; [|exact En]. run STRING_LENGTH_ok; [|exact Sn].
      erewrite andthen_return in Cmp by (eapply MEMORY_REF_ok; exact En). erewrite andthen_return in Cmp by (eapply STRING_LENGTH_ok; exact Sn).
      erewrite andthen_return by exact Cmp. unfold list_eqb. destruct (list_eq_dec Z.eq_dec name' name) as [->|Ne].
      * ret_now. split; [apply changes_refl|]. exists before, ((b, Pointer tc bc) :: after), tail, c. split; [exact S|]. split; [reflexivity|].
        left. exists b, (Pointer tc bc), after. auto.
      * unfold PAIR_CDR_LOC, MEMORY_LOC. erewrite andthen_return by reflexivity.
        eapply returns_weaken; [apply (IH fuel h (before ++ [(b, Pointer tc bc)]) (b, 1%nat) tail)|].
        -- now apply scanning_next with c.
        -- intros s I. rewrite live_app in I. apply in_app_iff in I as [I|I]; [now apply Old|].
           unfold live in I. cbn [map snd filter] in I. rewrite Live in I. destruct I as [<-|[]]. intros H.
           apply Ne. exact (symbol_named_unique _ _ _ _ _ Hn H).
        -- cbn [length] in F. lia.
        -- now rewrite <- app_assoc.
    + run MEMORY_REF_ok; [|exact Ecdr]. run store_ok; [|exact Ec].
      destruct (scanning_unlink _ _ _ _ _ _ _ _ _ _ _ S Live Ecdr) as (tail' & S').
      pose proof (scanning_in_bucket _ _ _ _ _ _ _ _ S) as Hc.
      assert (C : changes (bucket_address sh i a) h (stored h c cdr)) by now apply changes_stored.
      eapply returns_weaken; [apply (IH fuel _ before c tail' S')|].
      * intros s I H. apply (Old s I). apply (bucket_symbol_named sh i a (stored h c cdr)); [exact Sa| |exact H].
        destruct C as [C1 C2 C3 C4 C5 C6]. constructor; try congruence. intros x Hx. symmetry. now apply C1.
      * cbn [length] in F. lia.
      * intros [cell h'] (C' & bf & af & tl & cc & S2 & L & R). split; [now apply changes_trans with (stored h c cdr)|].
        exists bf, af, tl, cc. split; [exact S2|]. assert (L' : live (before ++ (b, car) :: after) = live (before ++ after)).
        { rewrite !live_app. unfold live at 2. cbn [map snd filter]. now rewrite Live. }
        rewrite L'. split; [exact L|]. exact R.
Qed.

(** ** The operations on a bucket *)

Lemma NoDup_blocks_length h (l : list nat) : NoDup l -> (forall b, In b l -> (b < length (blocks h))%nat) -> (length l <= length (blocks h))%nat.
Proof.
  intros ND H. rewrite <- (length_seq (length (blocks h)) 0). apply NoDup_incl_length; [exact ND|]. intros b I. apply in_seq. specialize (H b I). lia.
Qed.

Lemma chain_block_lt h sh i pairs : forall a tail b, chain h sh i a pairs tail -> In b (map fst pairs) -> (b < length (blocks h))%nat.
Proof.
  induction pairs as [|[b' car] pairs IH]; intros a tail b; inversion 1 as [|? t ? ? ? ? E T S C R]; subst; cbn [map fst In];
    [contradiction|]. intros [<-|I]; [exact (content_lt _ _ _ _ C)|]. now apply IH with (b', 1%nat) tail.
Qed.

(** A bucket at the start of a search, and a bucket after one. *)
Lemma bucket_scanning h sh n i a pairs tail : sh (fst a) = KObarray -> bucket h sh n i a pairs tail -> scanning h sh i a a [] pairs tail.
Proof.
  intros Sa [C P E N S U]. constructor; auto; [constructor|]. cbn [app]. intros s I. destruct (N s I) as (name & Hn & _). now exists name.
Qed.

Lemma bucket_fuel_ok h sh n i a pairs tail : bucket h sh n i a pairs tail -> (length pairs < bucket_fuel h)%nat.
Proof.
  intros [C P E N S U]. unfold bucket_fuel. rewrite <- (length_map fst). enough (length (map fst pairs) <= length (blocks h))%nat by lia.
  apply NoDup_blocks_length; [exact P|]. intros b I. now apply (chain_block_lt h sh i pairs a tail).
Qed.

Lemma changes_sym P h h' : changes P h h' -> changes P h' h.
Proof. intros [C1 C2 C3 C4 C5 C6]. constructor; try congruence. intros x Hx. symmetry. now apply C1. Qed.

(** The names of symbols survive a search, in both directions. *)
Lemma searched_names sh i a h h' : sh (fst a) = KObarray -> changes (bucket_address sh i a) h h' ->
  forall s name, symbol_named h' sh s name <-> symbol_named h sh s name.
Proof. intros Sa C s name. split; apply bucket_symbol_named with i a; auto. now apply changes_sym. Qed.

Lemma scanning_bucket h h' sh n i a c before after pairs tail tail' : sh (fst a) = KObarray ->
  changes (bucket_address sh i a) h h' -> bucket h sh n i a pairs tail ->
  scanning h' sh i a c before after tail' -> live (before ++ after) = live pairs -> bucket h' sh n i a (before ++ after) tail'.
Proof.
  intros Sa C [B1 B2 B3 B4 B5 B6] S L. pose proof (searched_names _ _ _ _ _ Sa C) as Nm.
  constructor; rewrite ?L; [exact (scanning_chain _ _ _ _ _ _ _ _ S)|exact (scan_pairs _ _ _ _ _ _ _ _ S)|exact (scan_end _ _ _ _ _ _ _ _ S)| |exact B5|].
  - intros s I. destruct (B4 s I) as (name & H1 & H2). exists name. split; [now apply Nm|exact H2].
  - intros s1 s2 name I1 I2 H1%Nm H2%Nm. now apply B6 with name.
Qed.

(** Other buckets and other structures do not notice. *)
Lemma bucket_other h h' sh n i j a a' pairs tail : sh (fst a) = KObarray -> sh (fst a') = KObarray -> a <> a' -> i <> j ->
  changes (bucket_address sh i a) h h' -> bucket h sh n j a' pairs tail -> bucket h' sh n j a' pairs tail.
Proof.
  intros Sa Sa' Na Nij C [B1 B2 (e & Ee & Pe) B4 B5 B6].
  assert (Out : forall x, x = a' \/ In (fst x) (map fst pairs) -> content h' x = content h x).
  { intros x Hx. apply (same_content _ _ _ C). intros [->|[K _]].
    - destruct Hx as [->|I]; [contradiction|]. pose proof (chain_kinds _ _ _ _ _ _ _ B1 I). congruence.
    - destruct Hx as [->|I]; [congruence|]. pose proof (chain_kinds _ _ _ _ _ _ _ B1 I). congruence. }
  pose proof (searched_names _ _ _ _ _ Sa C) as Nm. constructor; auto.
  - apply chain_changes with h; auto. intros I. pose proof (chain_kinds _ _ _ _ _ _ _ B1 I). congruence.
  - exists e. split; [|exact Pe]. rewrite Out; [exact Ee|]. destruct (chain_tail _ _ _ _ _ _ B1) as [[_ ->]|(b & I & ->)]; [now left|right; exact I].
  - intros s I. destruct (B4 s I) as (name & H1 & H2). exists name. split; [now apply Nm|exact H2].
  - intros s1 s2 name I1 I2 H1%Nm H2%Nm. now apply B6 with name.
Qed.

(** The table after a change of one bucket. *)
Lemma obarray_bucket h h' sh ob n i : obarray_ok h sh ob n -> Z.of_nat i < n ->
  changes (bucket_address sh i (ob, S i)) h h' ->
  (exists pairs tail, bucket h' sh n i (ob, S i) pairs tail) -> obarray_ok h' sh ob n.
Proof.
  intros [O1 O2 (w & O3 & O3') O4 O5] Hi C B. constructor; auto.
  - rewrite (same_obarray _ _ _ C). exact O1.
  - exists w. split; [|exact O3']. rewrite <- O3. apply (same_content _ _ _ C). intros [[=]|[K _]]. cbn [fst] in K. congruence.
  - intros j Hj. destruct (Nat.eq_dec j i) as [->|Ne]; [exact B|]. destruct (O5 j Hj) as (pairs & tail & Bj). exists pairs, tail.
    apply (bucket_other h h' sh n i j (ob, S i)); auto. congruence.
Qed.

Lemma initial_bucket_ok h sh ob n name : obarray_ok h sh ob n ->
  initial_bucket name h = Return ((ob, S (Z.to_nat (memory_hash name mod n))), h) /\ 0 <= memory_hash name mod n < n.
Proof.
  intros [O1 O2 (w & O3 & O3') O4 O5]. split; [|now apply Z.mod_pos_bound]. unfold initial_bucket, VECTOR_LENGTH. rewrite O1.
  run_assoc. run MEMORY_REF_ok; [|exact O3]. run @pure_return; [|reflexivity]. cbn [OBJECT_DATUM]. rewrite O3'.
  destruct (Z.eqb_spec n 0); [lia|]. unfold MEMORY_LOC, ret. now rewrite Nat.add_1_r.
Qed.

(** ** Growth of the heap around the table *)

Lemma string_object_grows h sh h' sh' s bytes : grows h sh h' sh' -> string_object h sh s bytes -> string_object h' sh' s bytes.
Proof.
  intros G (t & b & words & -> & Hs & Eb & W). exists t, b, words. repeat split; [|now apply (grow_block _ _ _ _ G)|exact W].
  rewrite (grow_shape _ _ _ _ G); [exact Hs|now apply block_lt with words].
Qed.

Lemma symbol_named_grows h sh h' sh' s name : grows h sh h' sh' -> symbol_named h sh s name -> symbol_named h' sh' s name.
Proof.
  intros G (t & b & n & -> & Sy & Hs & En & So). exists t, b, n. repeat split; [exact Sy| | |].
  - rewrite (grow_kind _ _ _ _ _ _ _ G En). exact Hs.
  - now apply (grow_content _ _ _ _ _ _ G).
  - now apply string_object_grows with h sh.
Qed.

Lemma chain_grows h sh h' sh' i pairs : forall a tail, grows h sh h' sh' -> chain h sh i a pairs tail -> chain h' sh' i a pairs tail.
Proof.
  induction pairs as [|[b car] pairs IH]; intros a tail G; inversion 1 as [|? t ? ? ? ? E T S C R]; subst; [constructor|].
  apply chain_cons with t; [now apply (grow_content _ _ _ _ _ _ G)|exact T| |now apply (grow_content _ _ _ _ _ _ G)|now apply IH].
  rewrite (grow_kind _ _ _ _ _ _ _ G C). exact S.
Qed.

(** A name that a symbol of the bucket has later is the one it had before. *)
Lemma bucket_name_before h sh h' sh' n i a pairs tail s name : bucket h sh n i a pairs tail -> In s (live pairs) ->
  (forall name, symbol_named h sh s name -> symbol_named h' sh' s name) ->
  symbol_named h' sh' s name -> symbol_named h sh s name.
Proof.
  intros B I Up Hn. destruct (bucket_names _ _ _ _ _ _ _ B s I) as (name' & Hn' & _).
  now rewrite (symbol_named_unique _ _ _ _ _ Hn (Up _ Hn')).
Qed.

Lemma bucket_grows h sh h' sh' n i a pairs tail : grows h sh h' sh' -> bucket h sh n i a pairs tail -> bucket h' sh' n i a pairs tail.
Proof.
  intros G B. pose proof B as [B1 B2 (e & Ee & Pe) B4 B5 B6].
  assert (Up : forall s name, symbol_named h sh s name -> symbol_named h' sh' s name) by (intros; now apply symbol_named_grows with h sh).
  constructor; auto.
  - now apply chain_grows with h sh.
  - exists e. split; [now apply (grow_content _ _ _ _ _ _ G)|exact Pe].
  - intros s I. destruct (B4 s I) as (name & H1 & H2). exists name. auto.
  - intros s1 s2 name I1 I2 H1 H2. apply B6 with name; auto; apply (bucket_name_before h sh h' sh' n i a pairs tail); auto.
Qed.

Lemma obarray_grows h sh h' sh' ob n : grows h sh h' sh' -> obarray_ok h sh ob n -> obarray_ok h' sh' ob n.
Proof.
  intros G [O1 O2 (w & O3 & O3') O4 O5]. constructor; auto.
  - rewrite (grow_obarray _ _ _ _ G). exact O1.
  - rewrite (grow_kind _ _ _ _ _ _ _ G O3). exact O2.
  - exists w. split; [now apply (grow_content _ _ _ _ _ _ G)|exact O3'].
  - intros i Hi. destruct (O5 i Hi) as (pairs & tail & B). exists pairs, tail. now apply bucket_grows with h sh.
Qed.

(** ** Adding a symbol at the end of its bucket *)

Lemma bucket_tail h sh n i a pairs tail : bucket h sh n i a pairs tail -> bucket_address sh i a tail.
Proof.
  intros B. destruct (chain_tail _ _ _ _ _ _ (bucket_chain _ _ _ _ _ _ _ B)) as [[_ ->]|(b & I & ->)]; [now left|right].
  split; [|reflexivity]. exact (chain_kinds _ _ _ _ _ _ _ (bucket_chain _ _ _ _ _ _ _ B) I).
Qed.

Lemma live_snoc pairs b s : INTERNED_SYMBOL_P s = true -> live (pairs ++ [(b, s)]) = live pairs ++ [s].
Proof. intros H. rewrite live_app. unfold live at 2. cbn [map snd filter]. now rewrite H. Qed.

Lemma add_symbol h sh ob n i pairs tail s name :
  obarray_ok h sh ob n -> bucket h sh n i (ob, S i) pairs tail -> Z.of_nat i = memory_hash name mod n ->
  symbol_named h sh s name -> INTERNED_SYMBOL_P s = true -> (forall s', In s' (live pairs) -> ~ symbol_named h sh s' name) ->
  let b := length (blocks h) in let sh' := extended sh b (KBucket i) in
  let h' := stored (allocated h [s; EMPTY_LIST]) tail (Pointer TC_WEAK_CONS b) in
  obarray_ok h' sh' ob n /\ bucket h' sh' n i (ob, S i) (pairs ++ [(b, s)]) (b, 1%nat).
Proof.
  intros O B Hi Hs Is New b sh' h'. set (h1 := allocated h [s; EMPTY_LIST]).
  assert (G : grows h sh h1 sh') by apply grows_allocated.
  pose proof (bucket_grows _ _ _ _ _ _ _ _ _ G B) as B1. pose proof (obarray_grows _ _ _ _ _ _ G O) as O1.
  assert (Sa : sh' ob = KObarray) by apply (obarray_shape _ _ _ _ O1).
  assert (C : changes (bucket_address sh' i (ob, S i)) h1 h') by (apply changes_stored; now apply bucket_tail with h1 n pairs).
  pose proof (searched_names sh' i (ob, S i) h1 h' Sa C) as Nm.
  pose proof B1 as [B2 B3 (e & Ee & Pe) B5 B6 B7].
  assert (Old : ~ In b (map fst pairs)).
  { intros I. pose proof (chain_block_lt _ _ _ _ _ _ _ (bucket_chain _ _ _ _ _ _ _ B) I). unfold b in *. lia. }
  assert (Tb : fst tail <> b).
  { pose proof (bucket_end _ _ _ _ _ _ _ B) as (e' & Ee' & _). destruct tail as [tb ti]. apply content_lt in Ee'. cbn [fst]. unfold b. lia. }
  assert (Cb : forall j, content h' (b, j) = nth_error [s; EMPTY_LIST] j).
  { intros j. unfold h'. rewrite content_stored_ne by (intros <-; now apply Tb). unfold content. cbn [fst snd]. unfold h1, b.
    now rewrite block_allocated_new. }
  assert (Hs' : symbol_named h' sh' s name) by (apply Nm; now apply symbol_named_grows with h sh).
  assert (New' : forall s', In s' (live pairs) -> ~ symbol_named h' sh' s' name).
  { intros s' I H%Nm. apply (New s' I). apply (bucket_name_before h sh h1 sh' n i (ob, S i) pairs tail); auto.
    intros. now apply symbol_named_grows with h sh. }
  assert (Bk : bucket h' sh' n i (ob, S i) (pairs ++ [(b, s)]) (b, 1%nat)).
  { constructor.
    - apply chain_app. exists tail. split.
      + apply chain_changes with h1; auto.
        * intros I. pose proof (chain_kinds _ _ _ _ _ _ _ B2 I). cbn [fst] in *. congruence.
        * intros x Hx _. now apply content_stored_ne.
      + apply chain_cons with TC_WEAK_CONS; [now apply content_stored_eq with e|now right|apply extended_new|exact (Cb 0%nat)|constructor].
    - rewrite map_app. apply NoDup_app; [exact B3|repeat constructor; intros []|]. intros x I [<-|[]]. contradiction.
    - exists EMPTY_LIST. split; [exact (Cb 1%nat)|split; reflexivity].
    - rewrite live_snoc by exact Is. intros x [I|[<-|[]]]%in_app_iff; [|now exists name].
      destruct (B5 x I) as (nm & H1 & H2). exists nm. split; [now apply Nm|exact H2].
    - rewrite live_snoc by exact Is. apply NoDup_app; [exact B6|repeat constructor; intros []|]. intros x I [<-|[]]. now apply (New' s I).
    - rewrite live_snoc by exact Is. intros s1 s2 nm I1 I2 H1 H2. apply in_app_iff in I1, I2.
      destruct I1 as [I1|[<-|[]]], I2 as [I2|[<-|[]]]; [apply B7 with nm; auto; now apply Nm| | |reflexivity].
      + rewrite (symbol_named_unique _ _ _ _ _ H2 Hs') in H1. now apply New' in H1.
      + rewrite (symbol_named_unique _ _ _ _ _ H1 Hs') in H2. now apply New' in H2. }
  split; [|exact Bk]. apply (obarray_bucket h1 h' sh' ob n i); [exact O1| |exact C|eauto].
  pose proof (obarray_positive _ _ _ _ O). rewrite Hi. now apply Z.mod_pos_bound.
Qed.

(** ** Searching the table *)

(** The outcome of [find_symbol_internal]. *)
Definition found_symbol (sh : shape) (ob : nat) (n : Z) (name : list Z) (h : heap) (out : address * heap) : Prop :=
  let '(cell, h') := out in
  exists i pairs tail, Z.of_nat i = memory_hash name mod n /\ changes (bucket_address sh i (ob, S i)) h h' /\
    obarray_ok h' sh ob n /\ bucket h' sh n i (ob, S i) pairs tail /\
    (exists pairs0 tail0, bucket h sh n i (ob, S i) pairs0 tail0 /\ live pairs = live pairs0) /\
    ((exists b s, cell = (b, 0%nat) /\ In (b, s) pairs /\ content h' cell = Some s /\ INTERNED_SYMBOL_P s = true /\
                  symbol_named h' sh s name) \/
     (cell = tail /\ (exists e, content h' cell = Some e /\ INTERNED_SYMBOL_P e = false) /\
      forall s, In s (live pairs) -> ~ symbol_named h' sh s name)).

Lemma find_symbol_internal_ok h sh ob n name : obarray_ok h sh ob n ->
  returns (find_symbol_internal name h) (found_symbol sh ob n name h).
Proof.
  intros O. unfold find_symbol_internal. destruct (initial_bucket_ok h sh ob n name O) as [E Hm].
  erewrite andthen_return by exact E. set (i := Z.to_nat (memory_hash name mod n)) in *.
  assert (Hi : Z.of_nat i = memory_hash name mod n) by (unfold i; lia).
  pose proof (obarray_shape _ _ _ _ O) as Sa.
  destruct (obarray_buckets _ _ _ _ O i) as (pairs & tail & B); [lia|].
  eapply returns_weaken.
  - apply (find_symbol_loop_ok name sh i (ob, S i) pairs (bucket_fuel h) h [] (ob, S i) tail).
    + now apply (bucket_scanning h sh n).
    + intros s [].
    + now apply (bucket_fuel_ok h sh n i (ob, S i) pairs tail).
  - cbn [app]. intros [cell h'] (C & before & after & tail' & c & Sc & L & R). 
    assert (B' : bucket h' sh n i (ob, S i) (before ++ after) tail') by (apply (scanning_bucket h h' sh n i (ob, S i) c before after pairs tail tail'); auto).
    exists i, (before ++ after), tail'. split; [exact Hi|]. split; [exact C|].
    split; [apply (obarray_bucket h h' sh ob n i); eauto; lia|]. split; [exact B'|]. split; [eauto|].
    destruct R as [(b & s & after' & -> & -> & Is & Hn)|(-> & -> & New)].
    + left. exists b, s. destruct (scanning_pair _ _ _ _ _ _ _ _ _ _ Sc) as (t & _ & _ & Ec & _).
      repeat split; auto. apply in_or_app. right. now left.
    + right. split; [reflexivity|]. split; [|rewrite L; exact New].
      destruct (bucket_end _ _ _ _ _ _ _ B') as (e & Ee & _ & Ie). now exists e.
Qed.

(** ** The table as a map from names to symbols *)

Lemma chain_unique h sh i p1 : forall a t1 p2 t2 e1 e2, chain h sh i a p1 t1 -> chain h sh i a p2 t2 ->
  content h t1 = Some e1 -> list_end e1 -> content h t2 = Some e2 -> list_end e2 -> p1 = p2 /\ t1 = t2.
Proof.
  induction p1 as [|[b car] p1 IH]; intros a t1 p2 t2 e1 e2 H1 H2 E1 L1 E2 L2;
    inversion H1 as [|? t ? ? ? ? A T S C R]; inversion H2 as [|? t' ? car' ? ? A' T' S' C' R']; subst.
  - now split.
  - assert (e1 = Pointer t' b) as -> by congruence. destruct L1 as [L1 _]. now rewrite pair_object_pointer in L1.
  - assert (e2 = Pointer t b) as -> by congruence. destruct L2 as [L2 _]. now rewrite pair_object_pointer in L2.
  - rewrite A in A'. injection A' as <- <-. assert (car' = car) as -> by congruence.
    destruct (IH _ _ _ _ _ _ R R' E1 L1 E2 L2) as [-> ->]. now split.
Qed.

Lemma bucket_unique_pairs h sh n i a p1 t1 p2 t2 : bucket h sh n i a p1 t1 -> bucket h sh n i a p2 t2 -> p1 = p2 /\ t1 = t2.
Proof.
  intros [C1 _ (e1 & E1 & L1) _ _ _] [C2 _ (e2 & E2 & L2) _ _ _]. now apply (chain_unique h sh i p1 a t1 p2 t2 e1 e2).
Qed.

Lemma interned_unique h sh ob n name s1 s2 : interned h sh ob n name s1 -> interned h sh ob n name s2 -> s1 = s2.
Proof.
  intros (i & p & t & Hi & B & I1 & N1) (i' & p' & t' & Hi' & B' & I2 & N2). assert (i' = i) as -> by lia.
  destruct (bucket_unique_pairs _ _ _ _ _ _ _ _ _ B B') as [<- <-]. exact (bucket_unique _ _ _ _ _ _ _ B s1 s2 name I1 I2 N1 N2).
Qed.

(** The clauses of [interned]. *)
Ltac in_map := split; [try solve [auto]|split; [try solve [auto]|split; [try solve [auto]|try solve [auto]]]].

(** The map is the same when a bucket keeps its live symbols. *)
Lemma same_live_map h h' sh ob n i pairs tail pairs' tail' : sh ob = KObarray -> changes (bucket_address sh i (ob, S i)) h h' ->
  bucket h sh n i (ob, S i) pairs tail -> bucket h' sh n i (ob, S i) pairs' tail' -> live pairs' = live pairs ->
  forall other s, interned h' sh ob n other s <-> interned h sh ob n other s.
Proof.
  intros Sa C B B' L other s. pose proof (searched_names sh i (ob, S i) h h' Sa C) as Nm.
  split; intros (j & p & t & Hj & Bj & I & Hn); (destruct (Nat.eq_dec j i) as [->|Ne]).
  - destruct (bucket_unique_pairs _ _ _ _ _ _ _ _ _ B' Bj) as [<- <-]. exists i, pairs, tail. in_map; [now rewrite <- L|now apply Nm].
  - exists j, p, t. in_map; [|now apply Nm]. apply (bucket_other h' h sh n i j (ob, S i)); auto; [congruence|now apply changes_sym].
  - destruct (bucket_unique_pairs _ _ _ _ _ _ _ _ _ B Bj) as [<- <-]. exists i, pairs', tail'. in_map; [now rewrite L|now apply Nm].
  - exists j, p, t. in_map; [|now apply Nm]. apply (bucket_other h h' sh n i j (ob, S i)); auto; congruence.
Qed.

(** A search does not change the map. *)
Lemma found_same_map sh ob n name h cell h' : obarray_ok h sh ob n -> found_symbol sh ob n name h (cell, h') ->
  forall other s, interned h' sh ob n other s <-> interned h sh ob n other s.
Proof.
  intros O (i & pairs & tail & Hi & C & O' & B' & (pairs0 & tail0 & B & L) & _).
  apply (same_live_map h h' sh ob n i pairs0 tail0 pairs tail); auto. exact (obarray_shape _ _ _ _ O).
Qed.

(** What [find_symbol_internal] finds, in terms of the map. *)
Lemma found_interned sh ob n name h cell h' : obarray_ok h sh ob n -> found_symbol sh ob n name h (cell, h') ->
  exists o, content h' cell = Some o /\
    ((INTERNED_SYMBOL_P o = true /\ interned h' sh ob n name o) \/
     (INTERNED_SYMBOL_P o = false /\ forall s, ~ interned h' sh ob n name s)).
Proof.
  intros O (i & pairs & tail & Hi & C & O' & B' & _ & [(b & s & -> & I & Ec & Is & Hn)|(-> & (e & Ee & Ie) & New)]).
  - exists s. split; [exact Ec|]. left. split; [exact Is|]. exists i, pairs, tail. in_map. now apply live_in with b.
  - exists e. split; [exact Ee|]. right. split; [exact Ie|]. intros s (j & p & t & Hj & Bj & I & Hn).
    assert (j = i) as -> by lia. destruct (bucket_unique_pairs _ _ _ _ _ _ _ _ _ B' Bj) as [<- <-]. now apply (New s).
Qed.

(** The map after a symbol is added to the end of its bucket. *)
Lemma add_symbol_map h sh ob n i pairs tail s name :
  obarray_ok h sh ob n -> bucket h sh n i (ob, S i) pairs tail -> Z.of_nat i = memory_hash name mod n ->
  symbol_named h sh s name -> INTERNED_SYMBOL_P s = true -> (forall s', In s' (live pairs) -> ~ symbol_named h sh s' name) ->
  let b := length (blocks h) in let sh' := extended sh b (KBucket i) in
  let h' := stored (allocated h [s; EMPTY_LIST]) tail (Pointer TC_WEAK_CONS b) in
  interned h' sh' ob n name s /\ (forall other s', interned h sh ob n other s' -> interned h' sh' ob n other s') /\
  (forall other s', other <> name -> interned h' sh' ob n other s' -> interned h sh ob n other s').
Proof.
  intros O B Hi Hs Is New b sh' h'. destruct (add_symbol h sh ob n i pairs tail s name O B Hi Hs Is New) as [O' B'].
  fold b sh' h' in O', B'. set (h1 := allocated h [s; EMPTY_LIST]) in *.
  assert (G : grows h sh h1 sh') by apply grows_allocated.
  pose proof (obarray_grows _ _ _ _ _ _ G O) as O1. pose proof (obarray_shape _ _ _ _ O1) as Sa.
  assert (C : changes (bucket_address sh' i (ob, S i)) h1 h').
  { apply changes_stored, (bucket_tail h1 sh' n i (ob, S i) pairs). now apply bucket_grows with h sh. }
  assert (Up : forall x nm, symbol_named h sh x nm -> symbol_named h' sh' x nm).
  { intros x nm H. apply (searched_names sh' i (ob, S i) h1 h' Sa C). now apply symbol_named_grows with h sh. }
  assert (Other : forall j p t, j <> i -> bucket h sh n j (ob, S j) p t -> bucket h' sh' n j (ob, S j) p t).
  { intros j p t Ne Bj. apply (bucket_other h1 h' sh' n i j (ob, S i)); auto; [congruence|]. now apply bucket_grows with h sh. }
  split; [|split].
  - exists i, (pairs ++ [(b, s)]), (b, 1%nat). in_map. rewrite live_snoc by exact Is. apply in_or_app. right. now left.
  - intros other s' (j & p & t & Hj & Bj & I & Hn). destruct (Nat.eq_dec j i) as [->|Ne].
    + destruct (bucket_unique_pairs _ _ _ _ _ _ _ _ _ B Bj) as [<- <-]. exists i, (pairs ++ [(b, s)]), (b, 1%nat).
      in_map. rewrite live_snoc by exact Is. apply in_or_app. now left.
    + exists j, p, t. auto.
  - intros other s' Ne (j & p & t & Hj & Bj & I & Hn). destruct (Nat.eq_dec j i) as [->|Nj].
    + destruct (bucket_unique_pairs _ _ _ _ _ _ _ _ _ B' Bj) as [<- <-]. rewrite live_snoc in I by exact Is.
      apply in_app_iff in I as [I|[<-|[]]].
      * exists i, pairs, tail. in_map. apply (bucket_name_before h sh h' sh' n i (ob, S i) pairs tail); auto.
      * exfalso. apply Ne. apply (symbol_named_unique h' sh' s); auto.
    + destruct (obarray_buckets _ _ _ _ O j) as (p0 & t0 & B0); [rewrite Hj; apply Z.mod_pos_bound, (obarray_positive _ _ _ _ O)|].
      destruct (bucket_unique_pairs _ _ _ _ _ _ _ _ _ (Other j p0 t0 Nj B0) Bj) as [<- <-].
      exists j, p0, t0. in_map. apply (bucket_name_before h sh h' sh' n j (ob, S j) p0 t0); auto.
Qed.

Lemma interned_grows h sh h' sh' ob n name s : obarray_ok h sh ob n -> grows h sh h' sh' ->
  interned h' sh' ob n name s <-> interned h sh ob n name s.
Proof.
  intros O G. assert (Up : forall x nm, symbol_named h sh x nm -> symbol_named h' sh' x nm) by (intros; now apply symbol_named_grows with h sh).
  split; intros (i & p & t & Hi & B & I & Hn).
  - destruct (obarray_buckets _ _ _ _ O i) as (p0 & t0 & B0); [rewrite Hi; apply Z.mod_pos_bound, (obarray_positive _ _ _ _ O)|].
    destruct (bucket_unique_pairs _ _ _ _ _ _ _ _ _ (bucket_grows _ _ _ _ _ _ _ _ _ G B0) B) as [<- <-].
    exists i, p0, t0. in_map. apply (bucket_name_before h sh h' sh' n i (ob, S i) p0 t0); auto.
  - exists i, p, t. in_map. now apply bucket_grows with h sh.
Qed.

(** [new] is the map of [old] with the symbol [s] for [name]. *)
Definition map_extended (ob : nat) (n : Z) (h : heap) (sh : shape) (h' : heap) (sh' : shape) (name : list Z) (s : object) : Prop :=
  obarray_ok h' sh' ob n /\ interned h' sh' ob n name s /\
  forall other s', other <> name -> interned h' sh' ob n other s' <-> interned h sh ob n other s'.

(** Cell [cell] is the place where a search for [name] in [h] ended without a
    symbol. *)
Definition free_cell (ob : nat) (n : Z) (h : heap) (sh : shape) (name : list Z) (cell : address) : Prop :=
  exists i pairs, Z.of_nat i = memory_hash name mod n /\ bucket h sh n i (ob, S i) pairs cell /\
    forall s, In s (live pairs) -> ~ symbol_named h sh s name.

Lemma free_cell_grows ob n h sh h' sh' name cell : grows h sh h' sh' -> free_cell ob n h sh name cell -> free_cell ob n h' sh' name cell.
Proof.
  intros G (i & pairs & Hi & B & New). exists i, pairs. split; [exact Hi|]. split; [now apply bucket_grows with h sh|].
  intros s I Hn. apply (New s I). apply (bucket_name_before h sh h' sh' n i (ob, S i) pairs cell); auto.
  intros. now apply symbol_named_grows with h sh.
Qed.

(** The last steps of [make_symbol] and [intern_symbol]. *)
Lemma enter_symbol ob n h sh name cell s : obarray_ok h sh ob n -> free_cell ob n h sh name cell ->
  symbol_named h sh s name -> INTERNED_SYMBOL_P s = true -> 2 <= available h ->
  returns ((pair <- system_pair_cons TC_WEAK_CONS s EMPTY_LIST ;; store cell pair ;; ret s) h)
    (fun '(r, h') => r = s /\ exists sh', map_extended ob n h sh h' sh' name s /\ (forall b, (b < length (blocks h))%nat -> sh' b = sh b) /\
       (forall a, (fst a < length (blocks h))%nat -> ~ table_address sh a -> content h' a = content h a)).
Proof.
  intros O (i & pairs & Hi & B & New) Hs Is Av. unfold system_pair_cons. rewrite andthen_assoc.
  erewrite andthen_return; [|unfold Primitive_GC_If_Needed; rewrite HEAP_AVAILABLE_enough by lia; reflexivity].
  erewrite andthen_return; [|apply allocate_ok]. set (h1 := allocated h [s; EMPTY_LIST]).
  pose proof (bucket_end _ _ _ _ _ _ _ B) as (e & Ee & _).
  erewrite andthen_return; [|apply store_ok with e; now apply content_allocated].
  ret_now. split; [reflexivity|]. set (b := length (blocks h)). exists (extended sh b (KBucket i)).
  destruct (add_symbol h sh ob n i pairs cell s name) as [O' B']; auto.
  destruct (add_symbol_map h sh ob n i pairs cell s name) as (M1 & M2 & M3); auto.
  split; [|split].
  - split; [exact O'|]. split; [exact M1|]. intros other s' Ne. split; [now apply M3|apply M2].
  - intros c Hc. now apply extended_old.
  - intros [c j] Hc Out. cbn [fst] in Hc. rewrite content_stored_ne.
    + unfold content. cbn [fst snd]. unfold h1. now rewrite block_allocated_old.
    + intros <-. apply Out. destruct (bucket_tail _ _ _ _ _ _ _ B) as [E|[K _]]; [left|right; eauto].
      rewrite E. apply (obarray_shape _ _ _ _ O).
Qed.

Lemma found_free sh ob n name h cell h' : obarray_ok h sh ob n -> found_symbol sh ob n name h (cell, h') ->
  exists o, content h' cell = Some o /\
    ((INTERNED_SYMBOL_P o = true /\ interned h sh ob n name o) \/
     (INTERNED_SYMBOL_P o = false /\ free_cell ob n h' sh name cell /\ forall s, ~ interned h sh ob n name s)).
Proof.
  intros O F. destruct (found_interned _ _ _ _ _ _ _ O F) as (o & Eo & R). exists o. split; [exact Eo|].
  pose proof (found_same_map _ _ _ _ _ _ _ O F) as Same.
  destruct R as [[Io I]|[Io No]]; [left|right]; (split; [exact Io|]); [now apply Same|]. split; [|intros s I; now apply (No s), Same].
  destruct F as (i & pairs & tail & Hi & C & O' & B' & _ & [(b & s & -> & I & Ec & Is & Hn)|(-> & _ & New)]); [congruence|].
  now exists i, pairs.
Qed.

(** The available space and the objects outside the table survive a search. *)
Lemma found_changes sh ob n name h cell h' : obarray_ok h sh ob n -> found_symbol sh ob n name h (cell, h') ->
  obarray_ok h' sh ob n /\ changes (table_address sh) h h'.
Proof.
  intros O (i & pairs & tail & Hi & C & O' & _). split; [exact O'|]. eapply changes_weaken; [exact C|].
  intros x [->|[K _]]; [left; exact (obarray_shape _ _ _ _ O)|right; now exists i].
Qed.

Lemma table_string_object sh h h' s bytes : changes (table_address sh) h h' -> string_object h sh s bytes -> string_object h' sh s bytes.
Proof. intros C. apply string_object_changes with (1 := C). intros a [->|(i & ->)]; congruence. Qed.

(** ** The operations *)

Lemma find_symbol_ok h sh ob n name : obarray_ok h sh ob n ->
  returns (find_symbol name h) (fun '(r, h') => obarray_ok h' sh ob n /\
    (forall other s, interned h' sh ob n other s <-> interned h sh ob n other s) /\
    (interned h sh ob n name r \/ (r = SHARP_F /\ forall s, ~ interned h sh ob n name s))).
Proof.
  intros O. unfold find_symbol. destruct (find_symbol_internal_ok h sh ob n name O) as ([cell h'] & E & F).
  erewrite andthen_return by exact E. destruct (found_free _ _ _ _ _ _ _ O F) as (o & Eo & R).
  erewrite andthen_return by (apply load_ok; exact Eo). ret_now. split; [apply (found_changes _ _ _ _ _ _ _ O F)|].
  split; [exact (found_same_map _ _ _ _ _ _ _ O F)|]. destruct R as [[-> I]|(-> & _ & No)]; auto.
Qed.

(** The result of interning [name]: the symbol of that name if there is one,
    and otherwise the symbol [new] at that name. *)
Definition interning (ob : nat) (n : Z) (h : heap) (sh : shape) (name : list Z) (new : heap -> shape -> object -> Prop)
    (out : object * heap) : Prop :=
  let '(r, h') := out in
  exists sh', map_extended ob n h sh h' sh' name r /\
    (interned h sh ob n name r \/ ((forall s, ~ interned h sh ob n name s) /\ new h' sh' r)).

Lemma interning_found sh ob n name h cell h' r new : obarray_ok h sh ob n -> found_symbol sh ob n name h (cell, h') ->
  interned h sh ob n name r -> interning ob n h sh name new (r, h').
Proof.
  intros O F I. exists sh. pose proof (found_same_map _ _ _ _ _ _ _ O F) as Same. split; [|now left].
  split; [apply (found_changes _ _ _ _ _ _ _ O F)|]. split; [now apply Same|]. intros other s' _. apply Same.
Qed.

Definition unbound_symbol (h : heap) (sh : shape) (s : object) : Prop :=
  exists b, s = Pointer TC_INTERNED_SYMBOL b /\ content h (b, SYMBOL_GLOBAL_VALUE) = Some UNBOUND_OBJECT.

Lemma make_symbol_ok ob n h h0 sh name bytes cell : obarray_ok h sh ob n -> free_cell ob n h sh bytes cell ->
  string_object h sh name bytes -> 6 <= available h ->
  (forall other s, interned h sh ob n other s <-> interned h0 sh ob n other s) -> (forall s, ~ interned h0 sh ob n bytes s) ->
  returns (make_symbol name cell h) (interning ob n h0 sh bytes unbound_symbol).
Proof.
  intros O Fc Sn Av Same No. unfold make_symbol.
  erewrite andthen_return; [|unfold Primitive_GC_If_Needed; rewrite HEAP_AVAILABLE_enough by lia; reflexivity].
  erewrite andthen_return by apply allocate_ok. set (b := length (blocks h)). set (h1 := allocated h [name; UNBOUND_OBJECT]).
  set (sh1 := extended sh b KSymbol). assert (G : grows h sh h1 sh1) by apply grows_allocated.
  assert (Cb : forall j, content h1 (b, j) = nth_error [name; UNBOUND_OBJECT] j).
  { intros j. unfold content. cbn [fst snd]. unfold h1, b. now rewrite block_allocated_new. }
  eapply returns_weaken; [apply (enter_symbol ob n h1 sh1 bytes cell (Pointer TC_INTERNED_SYMBOL b))|].
  - now apply obarray_grows with h sh.
  - now apply free_cell_grows with h sh.
  - exists TC_INTERNED_SYMBOL, b, name. repeat split; [apply extended_new|apply Cb|now apply string_object_grows with h sh].
  - reflexivity.
  - cbn. lia.
  - intros [r h'] (-> & sh' & (M1 & M2 & M3) & _ & Ct). exists sh'. split.
    + split; [exact M1|]. split; [exact M2|]. intros other s' Ne. rewrite M3 by exact Ne.
      rewrite (interned_grows h sh h1 sh1) by assumption. apply Same.
    + right. split; [exact No|]. exists b. split; [reflexivity|]. rewrite Ct; [apply Cb| |].
      * cbn [fst]. unfold h1, allocated, b. cbn [blocks]. rewrite length_app. cbn [length]. lia.
      * cbn [fst]. intros [K|(i & K)]; unfold sh1 in K; cbn [fst] in K; rewrite extended_new in K; discriminate.
Qed.

Lemma string_to_symbol_ok h sh ob n name bytes : obarray_ok h sh ob n -> string_object h sh name bytes -> 6 <= available h ->
  returns (string_to_symbol name h) (interning ob n h sh bytes unbound_symbol).
Proof.
  intros O Sn Av. unfold string_to_symbol. erewrite andthen_return by (apply (string_contents_ok h sh); exact Sn).
  destruct (find_symbol_internal_ok h sh ob n bytes O) as ([cell h'] & E & F). erewrite andthen_return by exact E.
  destruct (found_free _ _ _ _ _ _ _ O F) as (o & Eo & R). erewrite andthen_return by (apply load_ok; exact Eo).
  destruct (found_changes _ _ _ _ _ _ _ O F) as [O' C]. destruct R as [[-> I]|(-> & Fc & No)].
  - ret_now. now apply interning_found with cell.
  - apply make_symbol_ok; auto; [now apply table_string_object with h|rewrite (same_available _ _ _ C); lia|].
    exact (found_same_map _ _ _ _ _ _ _ O F).
Qed.

(** ** Changes elsewhere in the heap *)

Lemma bucket_outside P h h' sh n i a pairs tail : sh (fst a) = KObarray -> changes P h h' ->
  (forall x, P x -> ~ table_address sh x) -> (forall s nm, symbol_named h' sh s nm <-> symbol_named h sh s nm) ->
  bucket h sh n i a pairs tail -> bucket h' sh n i a pairs tail.
Proof.
  intros Sa C Out Nm [B1 B2 (e & Ee & Le) B4 B5 B6].
  assert (Same : forall x, table_address sh x -> content h' x = content h x).
  { intros x T. apply (same_content _ _ _ C). intros Px. now apply (Out x). }
  assert (Kin : forall x, x = a \/ In (fst x) (map fst pairs) -> table_address sh x).
  { intros x [->|I]; [now left|right]. exists i. exact (chain_kinds _ _ _ _ _ _ _ B1 I). }
  constructor; auto.
  - apply chain_changes with h; auto. intros I. pose proof (chain_kinds _ _ _ _ _ _ _ B1 I). congruence.
  - exists e. split; [|exact Le]. rewrite Same; [exact Ee|]. apply Kin.
    destruct (chain_tail _ _ _ _ _ _ B1) as [[_ ->]|(b & I & ->)]; [now left|right; exact I].
  - intros s I. destruct (B4 s I) as (name & H1 & H2). exists name. split; [now apply Nm|exact H2].
  - intros s1 s2 name I1 I2 H1%Nm H2%Nm. now apply B6 with name.
Qed.

Lemma obarray_outside P h h' sh ob n : changes P h h' -> (forall x, P x -> ~ table_address sh x) ->
  (forall s nm, symbol_named h' sh s nm <-> symbol_named h sh s nm) -> obarray_ok h sh ob n -> obarray_ok h' sh ob n.
Proof.
  intros C Out Nm [O1 O2 (w & O3 & O3') O4 O5]. constructor; auto.
  - rewrite (same_obarray _ _ _ C). exact O1.
  - exists w. split; [|exact O3']. rewrite <- O3. apply (same_content _ _ _ C). intros Px. apply (Out _ Px). now left.
  - intros i Hi. destruct (O5 i Hi) as (p & t & B). exists p, t. now apply (bucket_outside P h).
Qed.

Lemma interned_outside P h h' sh ob n name s : sh ob = KObarray -> changes P h h' -> (forall x, P x -> ~ table_address sh x) ->
  (forall s nm, symbol_named h' sh s nm <-> symbol_named h sh s nm) ->
  interned h' sh ob n name s <-> interned h sh ob n name s.
Proof.
  intros Sa C Out Nm. split; intros (i & p & t & Hi & B & I & Hn); exists i, p, t; in_map.
  - apply (bucket_outside P h' h); auto; [now apply changes_sym|]. intros. symmetry. apply Nm.
  - now apply Nm.
  - now apply (bucket_outside P h h').
  - now apply Nm.
Qed.

(** Changing the type of the name of a symbol changes nothing of this. *)
Lemma retyped_name h sh b name bytes t : content h (b, SYMBOL_NAME) = Some name -> string_object h sh name bytes -> sh b = KSymbol ->
  let h' := stored h (b, SYMBOL_NAME) (OBJECT_NEW_TYPE t name) in
  forall s nm, symbol_named h' sh s nm <-> symbol_named h sh s nm.
Proof.
  intros En So Hb h'. assert (C : changes (fun x => x = (b, SYMBOL_NAME)) h h') by now apply changes_stored.
  assert (Str : forall s bs, string_object h' sh s bs <-> string_object h sh s bs).
  { intros s bs. split; (eapply string_object_changes; [apply changes_sym + idtac; exact C|intros x ->; cbn [fst]; congruence]). }
  assert (Rt : forall o bs u, string_object h sh o bs -> string_object h sh (OBJECT_NEW_TYPE u o) bs).
  { intros o bs u (t0 & b0 & w & -> & R). exists u, b0, w. now split. }
  intros s nm. split; intros (t1 & b1 & n1 & -> & Sy & Hs & E1 & S1).
  - destruct (Nat.eq_dec b1 b) as [->|Ne].
    + unfold h' in E1. rewrite content_stored_eq with (old := name) in E1 by exact En. injection E1 as <-.
      apply Str in S1. destruct So as (t0 & b0 & w & -> & R). exists t1, b, (Pointer t0 b0). repeat split; auto.
      destruct S1 as (t2 & b2 & w2 & [= <- <-] & R2). exists t0, b0, w2. now split.
    + exists t1, b1, n1. apply Str in S1. repeat split; auto. unfold h' in E1. rewrite content_stored_ne in E1; congruence.
  - destruct (Nat.eq_dec b1 b) as [->|Ne].
    + assert (n1 = name) as -> by congruence. exists t1, b, (OBJECT_NEW_TYPE t name). repeat split; auto.
      * unfold h'. now apply content_stored_eq with name.
      * now apply Str, Rt.
    + exists t1, b1, n1. apply Str in S1. repeat split; auto. unfold h'. rewrite content_stored_ne; congruence.
Qed.

Lemma intern_symbol_ok h sh ob n symbol bytes : obarray_ok h sh ob n -> symbol_named h sh symbol bytes -> 2 <= available h ->
  returns (intern_symbol symbol h)
    (interning ob n h sh bytes (fun _ _ r => r = OBJECT_NEW_TYPE TC_INTERNED_SYMBOL symbol)).
Proof.
  intros O Hs Av. pose proof Hs as (t & b & name & -> & Sy & Hb & En & Sn). unfold intern_symbol.
  erewrite andthen_return by (apply MEMORY_REF_ok; exact En). erewrite andthen_return by (apply (string_contents_ok h sh); exact Sn).
  destruct (find_symbol_internal_ok h sh ob n bytes O) as ([cell h1] & E & F). erewrite andthen_return by exact E.
  destruct (found_free _ _ _ _ _ _ _ O F) as (o & Eo & R). erewrite andthen_return by (apply load_ok; exact Eo).
  destruct (found_changes _ _ _ _ _ _ _ O F) as [O1 C]. pose proof (found_same_map _ _ _ _ _ _ _ O F) as Same.
  destruct R as [[-> I]|(-> & Fc & No)]; [ret_now; now apply interning_found with cell|].
  assert (En1 : content h1 (b, SYMBOL_NAME) = Some name).
  { rewrite <- En. apply (same_content _ _ _ C). intros [K|(i & K)]; cbn [fst] in K; congruence. }
  assert (Sn1 : string_object h1 sh name bytes) by now apply table_string_object with h.
  set (h2 := if LEGACY_STRING_P name then stored h1 (b, SYMBOL_NAME) (OBJECT_NEW_TYPE TC_BYTEVECTOR name) else h1).
  erewrite andthen_return with (h' := h2) (a := tt).
  2:{ unfold h2. destruct (LEGACY_STRING_P name); [now apply MEMORY_SET_ok with name|reflexivity]. }
  assert (C2 : changes (fun x => x = (b, SYMBOL_NAME)) h1 h2) by (unfold h2; destruct (LEGACY_STRING_P name); [now apply changes_stored|apply changes_refl]).
  assert (Out : forall x, x = (b, SYMBOL_NAME) -> ~ table_address sh x).
  { intros x -> [K|(i & K)]; cbn [fst] in K; congruence. }
  assert (Nm : forall s nm, symbol_named h2 sh s nm <-> symbol_named h1 sh s nm).
  { unfold h2. destruct (LEGACY_STRING_P name); [now apply retyped_name with bytes|reflexivity]. }
  pose proof (obarray_shape _ _ _ _ O) as Sa.
  assert (Hr : symbol_named h2 sh (Pointer TC_INTERNED_SYMBOL b) bytes).
  { apply Nm. exists TC_INTERNED_SYMBOL, b, name. repeat split; auto. }
  cbv zeta. eapply returns_weaken; [apply (enter_symbol ob n h2 sh bytes cell (Pointer TC_INTERNED_SYMBOL b))|].
  - now apply (obarray_outside _ h1 h2 sh ob n C2).
  - destruct Fc as (i & pairs & Hi & B & New). exists i, pairs. split; [exact Hi|]. split; [now apply (bucket_outside _ h1 h2 sh n i (ob, S i) pairs cell Sa C2)|].
    intros s I Hn%Nm. now apply (New s).
  - exact Hr.
  - reflexivity.
  - rewrite (same_available _ _ _ C2), (same_available _ _ _ C). lia.
  - intros [r h'] (-> & sh' & (M1 & M2 & M3) & _). exists sh'. split; [|right; now split].
    split; [exact M1|]. split; [exact M2|]. intros other s' Ne. rewrite M3 by exact Ne.
    rewrite (interned_outside _ h1 h2 sh ob n other s' Sa C2 Out Nm). apply Same.
Qed.

(** ** Strong and weak entries *)

(** A change of the type of a pair keeps the pairs of the bucket. *)
Lemma scanning_retype h sh i a c before b car after tail t : scanning h sh i a c before ((b, car) :: after) tail -> pair_type t ->
  scanning (stored h c (Pointer t b)) sh i a c before ((b, car) :: after) tail.
Proof.
  intros S T. pose proof (scanning_start _ _ _ _ _ _ _ _ S) as NI. pose proof (scanning_in_bucket _ _ _ _ _ _ _ _ S) as Hc.
  pose proof (scanning_address _ _ _ _ _ _ _ _ S) as Ac.
  destruct S as [B A P Sa (e & Ee & Pe) N]. inversion A as [|? t0 ? ? ? ? Ec T0 K C R]; subst.
  rewrite map_app in P, NI. pose proof P as P0. apply NoDup_app_split in P as (P1 & P2 & P3).
  assert (Cin : ~ In (fst c) (map fst ((b, car) :: after))).
  { destruct Ac as [->|(b' & I & ->)]; cbn [fst]; intros I'; [apply NI, in_or_app; now right|]. exact (P3 b' I I'). }
  assert (Tail : tail <> c).
  { destruct (chain_tail _ _ _ _ _ _ A) as [[Q _]|(b' & I & ->)]; [discriminate|]. intros <-. now apply Cin. }
  cbn [map fst] in P2, Cin. apply NoDup_cons_iff in P2 as [P4 P2].
  constructor; auto.
  - apply chain_changes with h; [exact B|exact P1| |intros x Hx _; now apply content_stored_ne].
    intros I. apply NI, in_or_app. now left.
  - apply chain_cons with t; [now apply content_stored_eq with (Pointer t0 b)|exact T|exact K| |].
    + rewrite content_stored_ne; [exact C|]. intros E. apply Cin. left. now rewrite <- E.
    + apply chain_changes with h; [exact R|exact P2|exact P4|]. intros x _ Hx. apply content_stored_ne. intros ->.
      destruct Hx as [Hx|Hx]; [apply Cin; left; now rewrite Hx|apply Cin; now right].
  - now rewrite map_app.
  - exists e. split; [|exact Pe]. now rewrite content_stored_ne.
  - intros s I. destruct (N s I) as (name & Hn). exists name.
    apply (bucket_symbol_named sh i a h); [exact Sa|now apply changes_stored|exact Hn].
Qed.

Lemma live_dead b car pairs rest : INTERNED_SYMBOL_P car = false -> live (pairs ++ (b, car) :: rest) = live (pairs ++ rest).
Proof. intros D. rewrite !live_app. unfold live at 2. cbn [map snd filter]. now rewrite D. Qed.

(** The pair that holds [s] is of type [t]. *)
Definition held (h : heap) (sh : shape) (i : nat) (t : Z) (s : object) : Prop :=
  exists c b, content h c = Some (Pointer t b) /\ sh b = KBucket i /\ content h (b, 0%nat) = Some s.

Lemma replace_loop_ok sh i a s t : INTERNED_SYMBOL_P s = true -> pair_type t -> forall after fuel h before c tail,
  scanning h sh i a c before after tail -> In s (live after) -> (length after < fuel)%nat ->
  returns (replace_loop fuel s t c h) (fun '(_, h') => changes (bucket_address sh i a) h h' /\ held h' sh i t s /\
    exists before' after' tail' c', scanning h' sh i a c' before' after' tail' /\ live (before' ++ after') = live (before ++ after)).
Proof.
  intros Is T. induction after as [|[b car] after IH]; intros fuel h before c tail S I F; [contradiction|].
  destruct fuel as [|fuel]; [cbn [length] in F; lia|]. cbn [replace_loop].
  pose proof (scanning_pair _ _ _ _ _ _ _ _ _ _ S) as (t0 & T0 & Ec & Ecar & cdr & Ecdr).
  pose proof (scanning_in_bucket _ _ _ _ _ _ _ _ S) as Hc.
  run load_ok; [|exact Ec]. change (WEAK_PAIR_P (Pointer t0 b) || PAIR_P (Pointer t0 b)) with (pair_object (Pointer t0 b)).
  rewrite pair_object_pointer by exact T0. unfold PAIR_CAR, PAIR_CDR. run MEMORY_REF_ok; [|exact Ecar].
  unfold live in I. cbn [map snd filter] in I. destruct (INTERNED_SYMBOL_P car) eqn:Live.
  - unfold object_eqb. destruct (object_eq_dec car s) as [->|Ne].
    + cbn [OBJECT_NEW_TYPE]. erewrite store_ok by exact Ec. eexists. split; [reflexivity|].
      pose proof (scanning_retype _ _ _ _ _ _ _ _ _ _ _ S T) as S'. pose proof (scan_after _ _ _ _ _ _ _ _ S') as A.
      inversion A as [|? t1 ? ? ? ? Ec1 T1 K1 C1 R1]; subst.
      split; [now apply changes_stored|]. split; [exists c, b; repeat split; [now apply content_stored_eq with (Pointer t0 b)|exact K1|exact C1]|].
      exists before, ((b, s) :: after), tail, c. now split.
    + destruct I as [->|I]; [contradiction|]. unfold PAIR_CDR_LOC, MEMORY_LOC. erewrite andthen_return by reflexivity.
      eapply returns_weaken; [apply (IH fuel h (before ++ [(b, car)]) (b, 1%nat) tail); auto|].
      * now apply scanning_next with c.
      * cbn [length] in F. lia.
      * intros [u h']. now rewrite <- app_assoc.
  - run MEMORY_REF_ok; [|exact Ecdr]. run store_ok; [|exact Ec].
    destruct (scanning_unlink _ _ _ _ _ _ _ _ _ _ _ S Live Ecdr) as (tail' & S').
    eapply returns_weaken; [apply (IH fuel _ before c tail' S' I)|].
    + cbn [length] in F. lia.
    + intros [u h'] (C' & H & R). split; [apply changes_trans with (stored h c cdr); [now apply changes_stored|exact C']|].
      split; [exact H|]. now rewrite live_dead.
Qed.

Lemma replace_symbol_bucket_type_ok h sh ob n name s t : obarray_ok h sh ob n -> interned h sh ob n name s -> pair_type t ->
  returns (replace_symbol_bucket_type s t h) (fun '(_, h') => obarray_ok h' sh ob n /\
    (forall other x, interned h' sh ob n other x <-> interned h sh ob n other x) /\ (exists i, held h' sh i t s) /\
    changes (table_address sh) h h').
Proof.
  intros O (i & pairs & tail & Hi & B & I & Hn) T. pose proof (obarray_shape _ _ _ _ O) as Sa.
  assert (Is : INTERNED_SYMBOL_P s = true) by (unfold live in I; now apply filter_In in I).
  destruct Hn as (ts & bs & nm & -> & Sy & Ks & En & Sn). unfold replace_symbol_bucket_type.
  assert (UNINTERNED_SYMBOL_P (Pointer ts bs) = false) as ->.
  { unfold INTERNED_SYMBOL_P, UNINTERNED_SYMBOL_P in *. apply Z.eqb_eq in Is. cbn [OBJECT_TYPE] in *. now rewrite Is. }
  rewrite Is. erewrite andthen_return by reflexivity. erewrite andthen_return by (apply MEMORY_REF_ok; exact En).
  erewrite andthen_return by (apply (string_contents_ok h sh); exact Sn).
  destruct (initial_bucket_ok h sh ob n name O) as [E Hm]. erewrite andthen_return by exact E. rewrite <- Hi, Nat2Z.id.
  eapply returns_weaken; [apply (replace_loop_ok sh i (ob, S i) (Pointer ts bs) t Is T pairs (bucket_fuel h) h [] (ob, S i) tail)|].
  - now apply (bucket_scanning h sh n).
  - exact I.
  - now apply (bucket_fuel_ok h sh n i (ob, S i) pairs tail).
  - intros [u h'] (C & H & before & after & tail' & c & Sc & L). cbn [app] in L.
    assert (B' : bucket h' sh n i (ob, S i) (before ++ after) tail') by (apply (scanning_bucket h h' sh n i (ob, S i) c before after pairs tail tail'); auto).
    split; [apply (obarray_bucket h h' sh ob n i); eauto; lia|]. split; [now apply (same_live_map h h' sh ob n i pairs tail (before ++ after) tail')|].
    split; [now exists i|]. eapply changes_weaken; [exact C|]. intros x [->|[K _]]; [now left|right; now exists i].
Qed.
