(* ===== verification/Environment.v ===== *)
(** * sdata.h, lookup.c: environment frames and the search for a binding

    A frame ([TC_ENVIRONMENT]) holds the procedure that made it and its
    arguments; the names of the arguments are in the lambda expression of the
    procedure, the parent of the frame in the procedure.  Internal definitions
    are in an extension (a vector) that then takes the place of the procedure
    and has a copy of the parent.  A chain of frames ends with the global
    environment, where the value of a variable is in the symbol, or with the
    null environment.

    The value in a cell may be a reference trap: unassigned, unbound, a macro,
    or a cache, a separate block that has the value and can be shared by
    several cells. *)

From Stdlib Require Import ZArith List Bool Lia.
From S2P Require Import Prelude Object Heap Intern.
Import ListNotations.

#[local] Open Scope Z_scope.
#[local] Open Scope heap_scope.

(** ** Constants *)

Definition TC_ENVIRONMENT : Z := 0x12.
Definition GLOBAL_ENV : Z := Object.OBJECT_TYPE Object.SHARP_F.
Definition THE_GLOBAL_ENV : object := MAKE_OBJECT GLOBAL_ENV (Object.OBJECT_DATUM Object.SHARP_F).
Definition THE_NULL_ENV : object := MAKE_OBJECT GLOBAL_ENV (Z.lxor (Object.OBJECT_DATUM Object.SHARP_F) 1).

Definition ENVIRONMENT_FUNCTION : nat := 1.
Definition ENVIRONMENT_FIRST_ARG : nat := 2.
Definition ENV_EXTENSION_PARENT_FRAME : nat := 1.
Definition ENV_EXTENSION_PROCEDURE : nat := 2.
Definition ENV_EXTENSION_COUNT : nat := 3.
Definition ENV_EXTENSION_MIN_SIZE : nat := 4.
Definition PROCEDURE_LAMBDA_EXPR : nat := 0.
Definition PROCEDURE_ENVIRONMENT : nat := 1.
Definition LAMBDA_FORMALS : nat := 1.
Definition VECTOR_DATA : nat := 1.

Definition TRAP_UNASSIGNED : Z := 0.
Definition TRAP_EXPENSIVE : Z := 6.
Definition TRAP_MAX_IMMEDIATE : Z := 9.
Definition TRAP_COMPILER_CACHED : Z := 14.
Definition TRAP_MACRO : Z := 15.
Definition NON_TRAP_KIND : Z := 32.
Definition UNASSIGNED_OBJECT : object := MAKE_OBJECT TC_REFERENCE_TRAP TRAP_UNASSIGNED.
Definition EXPENSIVE_OBJECT : object := MAKE_OBJECT TC_REFERENCE_TRAP TRAP_EXPENSIVE.
Definition TRAP_TAG : nat := 0.
Definition TRAP_EXTRA : nat := 1.

(** ** Frames *)

Definition REFERENCE_TRAP_P (object : object) : bool := OBJECT_TYPE object =? TC_REFERENCE_TRAP.
Definition GLOBAL_FRAME_P (frame : object) : bool := object_eqb frame THE_GLOBAL_ENV.
Definition NULL_FRAME_P (frame : object) : bool := object_eqb frame THE_NULL_ENV.
Definition PROCEDURE_FRAME_P (frame : object) : bool := OBJECT_TYPE frame =? TC_ENVIRONMENT.
Definition ENVIRONMENT_P (env : object) : bool := (OBJECT_TYPE env =? TC_ENVIRONMENT) || GLOBAL_FRAME_P env.

Definition GET_PROCEDURE_LAMBDA (procedure : object) : operation object := MEMORY_REF procedure PROCEDURE_LAMBDA_EXPR.
Definition GET_PROCEDURE_ENVIRONMENT (procedure : object) : operation object := MEMORY_REF procedure PROCEDURE_ENVIRONMENT.
Definition GET_LAMBDA_FORMALS (lambda : object) : operation object := MEMORY_REF lambda LAMBDA_FORMALS.
Definition GET_LAMBDA_PARAMETERS (lambda : object) : operation address :=
  formals <- GET_LAMBDA_FORMALS lambda ;; MEMORY_LOC formals (VECTOR_DATA + 1).
Definition GET_LAMBDA_N_PARAMETERS (lambda : object) : operation Z :=
  formals <- GET_LAMBDA_FORMALS lambda ;; length <- VECTOR_LENGTH formals ;; ret (length - 1).

Definition GET_FRAME_PROCEDURE (frame : object) : operation object := MEMORY_REF frame ENVIRONMENT_FUNCTION.
Definition GET_FRAME_PARENT (frame : object) : operation object :=
  procedure <- GET_FRAME_PROCEDURE frame ;; GET_PROCEDURE_ENVIRONMENT procedure.
Definition SET_FRAME_EXTENSION (frame extension : object) : operation unit := MEMORY_SET frame ENVIRONMENT_FUNCTION extension.
Definition GET_FRAME_ARG_CELL (frame : object) (index : nat) : operation address :=
  MEMORY_LOC frame (ENVIRONMENT_FIRST_ARG + index).

Definition FRAME_EXTENSION_P : object -> bool := VECTOR_P.
Definition EXTENDED_FRAME_P (frame : object) : operation bool :=
  procedure <- GET_FRAME_PROCEDURE frame ;; ret (FRAME_EXTENSION_P procedure).
Definition GET_FRAME_EXTENSION_BINDINGS (extension : object) : operation address := MEMORY_LOC extension ENV_EXTENSION_MIN_SIZE.
Definition GET_EXTENDED_FRAME_BINDINGS (frame : object) : operation address :=
  extension <- GET_FRAME_PROCEDURE frame ;; GET_FRAME_EXTENSION_BINDINGS extension.

(** [(long) (OBJECT_DATUM (fixnum))] *)
Definition UNSIGNED_FIXNUM_TO_LONG (fixnum : object) : outcome Z :=
  match OBJECT_DATUM fixnum with Return d => Return (to_long d) | m => m end.

Definition GET_FRAME_EXTENSION_LENGTH (extension : object) : operation Z :=
  count <- MEMORY_REF extension ENV_EXTENSION_COUNT ;; pure (UNSIGNED_FIXNUM_TO_LONG count).
Definition GET_EXTENDED_FRAME_LENGTH (frame : object) : operation Z :=
  extension <- GET_FRAME_PROCEDURE frame ;; GET_FRAME_EXTENSION_LENGTH extension.
Definition SET_FRAME_EXTENSION_LENGTH (extension : object) (length : Z) : operation unit :=
  MEMORY_SET extension ENV_EXTENSION_COUNT (LONG_TO_UNSIGNED_FIXNUM length).
Definition SET_EXTENDED_FRAME_LENGTH (frame : object) (length : Z) : operation unit :=
  extension <- GET_FRAME_PROCEDURE frame ;; SET_FRAME_EXTENSION_LENGTH extension length.
Definition GET_MAX_FRAME_EXTENSION_LENGTH (extension : object) : operation Z :=
  length <- VECTOR_LENGTH extension ;; ret (length - (Z.of_nat ENV_EXTENSION_MIN_SIZE - 1)).
Definition GET_MAX_EXTENDED_FRAME_LENGTH (frame : object) : operation Z :=
  extension <- GET_FRAME_PROCEDURE frame ;; GET_MAX_FRAME_EXTENSION_LENGTH extension.
Definition GET_FRAME_EXTENSION_PROCEDURE (extension : object) : operation object := MEMORY_REF extension ENV_EXTENSION_PROCEDURE.
Definition GET_EXTENDED_FRAME_PROCEDURE (frame : object) : operation object :=
  extension <- GET_FRAME_PROCEDURE frame ;; GET_FRAME_EXTENSION_PROCEDURE extension.
Definition SET_FRAME_EXTENSION_PROCEDURE (extension procedure : object) : operation unit :=
  MEMORY_SET extension ENV_EXTENSION_PROCEDURE procedure.
Definition SET_FRAME_EXTENSION_PARENT_FRAME (extension frame : object) : operation unit :=
  MEMORY_SET extension ENV_EXTENSION_PARENT_FRAME frame.

Definition SYMBOL_GLOBAL_VALUE_CELL (symbol : object) : operation address := MEMORY_LOC symbol SYMBOL_GLOBAL_VALUE.

(** ** Traps *)

Definition GET_TRAP_TAG (object : object) : operation Heap.object := MEMORY_REF object TRAP_TAG.
Definition GET_TRAP_CACHE (object : object) : operation Heap.object := MEMORY_REF object TRAP_EXTRA.
Definition SET_TRAP_CACHE (object extra : object) : operation unit := MEMORY_SET object TRAP_EXTRA extra.

(** The datum of a pointer, an address, is above [TRAP_MAX_IMMEDIATE]. *)
Definition get_trap_kind (object : object) : operation Z :=
  if REFERENCE_TRAP_P object then
    match object with
    | Immediate w =>
        let datum := Object.OBJECT_DATUM w in
        if datum <=? TRAP_MAX_IMMEDIATE then ret datum else fun _ => Wild
    | Pointer _ _ => tag <- GET_TRAP_TAG object ;; pure (OBJECT_DATUM tag)
    end
  else ret NON_TRAP_KIND.

(** ** The search for a binding *)

Definition next (a : address) : address := (fst a, S (snd a)).

(** The loop over the bindings of an extension, [n] of them left. *)
Fixpoint scan_extension (n : nat) (scan : address) (symbol : object) : operation (option address) :=
  match n with
  | O => ret None
  | S n =>
      binding <- load scan ;;
      name <- PAIR_CAR binding ;;
      if object_eqb name symbol then cell <- PAIR_CDR_LOC binding ;; ret (Some cell)
      else scan_extension n (next scan) symbol
  end.

(** The loop over the parameters of a lambda expression; [index] is [scan - start]. *)
Fixpoint scan_parameters (n : nat) (scan : address) (index : nat) (frame symbol : object) (find_unbound_p : bool)
    : operation (option address) :=
  match n with
  | O => ret None
  | S n =>
      name <- load scan ;;
      if object_eqb name symbol then
        cell <- GET_FRAME_ARG_CELL frame index ;;
        found <- (if find_unbound_p then ret true else value <- load cell ;; ret (negb (object_eqb value UNBOUND_OBJECT))) ;;
        if found then ret (Some cell) else scan_parameters n (next scan) (S index) frame symbol find_unbound_p
      else scan_parameters n (next scan) (S index) frame symbol find_unbound_p
  end.

Definition scan_procedure_bindings (procedure frame symbol : object) (find_unbound_p : bool) : operation (option address) :=
  lambda <- GET_PROCEDURE_LAMBDA procedure ;;
  start <- GET_LAMBDA_PARAMETERS lambda ;;
  n <- GET_LAMBDA_N_PARAMETERS lambda ;;
  scan_parameters (Z.to_nat n) start 0 frame symbol find_unbound_p.

Definition scan_frame (frame symbol : object) (find_unbound_p : bool) : operation (option address) :=
  if PROCEDURE_FRAME_P frame then
    extended <- EXTENDED_FRAME_P frame ;;
    if extended then
      scan <- GET_EXTENDED_FRAME_BINDINGS frame ;;
      length <- GET_EXTENDED_FRAME_LENGTH frame ;;
      cell <- scan_extension (Z.to_nat length) scan symbol ;;
      match cell with
      | Some cell => ret (Some cell)
      | None =>
          procedure <- GET_EXTENDED_FRAME_PROCEDURE frame ;;
          scan_procedure_bindings procedure frame symbol find_unbound_p
      end
    else
      procedure <- GET_FRAME_PROCEDURE frame ;;
      scan_procedure_bindings procedure frame symbol find_unbound_p
  else
    pure (assert_that (GLOBAL_FRAME_P frame)) ;;
    cell <- SYMBOL_GLOBAL_VALUE_CELL symbol ;; ret (Some cell).

(** The loop of [find_binding_cell]; the second result is [*frame_ret]. *)
Fixpoint find_binding_loop (fuel : nat) (frame symbol : object) : operation (option address * object) :=
  match fuel with
  | O => fun _ => OutOfFuel
  | S fuel =>
      cell <- scan_frame frame symbol false ;;
      match cell with
      | Some cell => ret (Some cell, frame)
      | None =>
          parent <- GET_FRAME_PARENT frame ;;
          if ENVIRONMENT_P parent then find_binding_loop fuel parent symbol else ret (None, frame)
      end
  end.

(** A frame is younger than its parent: a chain has fewer frames than there are blocks. *)
Definition find_binding_cell (environment symbol : object) : operation (option address * object) := fun h =>
  if NULL_FRAME_P environment then Return ((None, environment), h)
  else (pure (assert_that (ENVIRONMENT_P environment)) ;; find_binding_loop (S (length (blocks h))) environment symbol) h.

(** ** The invariant

    What a block of each kind holds.  The predicate looks at one block and the
    shape, so that it follows stores and allocations block by block. *)

(** An environment older than block [b]. *)
Definition environment_before (sh : shape) (b : nat) (env : object) : Prop :=
  env = THE_GLOBAL_ENV \/ env = THE_NULL_ENV \/
  exists f names parent, env = Pointer TC_ENVIRONMENT f /\ (f < b)%nat /\ sh f = KFrame names parent.

(** Values of variables: no trap, or a trap other than a cache. *)
Definition value_ok (sh : shape) (v : object) : Prop :=
  REFERENCE_TRAP_P v = false \/ v = UNASSIGNED_OBJECT \/ v = UNBOUND_OBJECT \/
  exists m, v = Pointer TC_REFERENCE_TRAP m /\ sh m = KMacro.

(** Contents of cells: values, and caches. *)
Definition cell_ok (sh : shape) (v : object) : Prop :=
  value_ok sh v \/ exists t, v = Pointer TC_REFERENCE_TRAP t /\ sh t = KTrap.

(** A pair of an extension, and the name it has. *)
Definition binding_of (sh : shape) (slot name : object) : Prop :=
  exists q, slot = Pointer TC_LIST q /\ sh q = KBinding name.

Record frame_words (sh : shape) (b : nat) (names : list object) (parent : object) (words : list object) : Prop := {
  frame_parent : environment_before sh b parent;
  frame_layout : exists header function args, words = header :: function :: args /\
    (length names <= length args)%nat /\ Forall (cell_ok sh) args /\
    ((exists t p, function = Pointer t p /\ t <> TC_VECTOR /\ sh p = KProcedure names parent) \/
     (exists e, function = Pointer TC_VECTOR e /\ sh e = KExtension b))
}.

(** The slots of an extension that are in use, and its free slots. *)
Record extension_words (sh : shape) (f : nat) (slots free : list object) (words : list object) : Prop := {
  extension_layout : exists names parent t p header count, sh f = KFrame names parent /\ sh p = KProcedure names parent /\
    words = Immediate header :: parent :: Pointer t p :: Immediate count :: slots ++ free /\
    Object.OBJECT_DATUM header = 3 + zlength slots + zlength free /\
    Object.OBJECT_DATUM count = zlength slots /\ zlength slots + zlength free < 2 ^ 56 /\ 0 < zlength slots + zlength free;
  extension_names : exists defined, Forall2 (binding_of sh) slots defined /\ NoDup defined /\
    forall names parent, sh f = KFrame names parent -> forall x, In x defined -> ~ In x names
}.

Definition block_ok (sh : shape) (b : nat) (words : list object) : Prop :=
  match sh b with
  | KSymbol => exists name v rest, words = name :: v :: rest /\ cell_ok sh v
  | KFormals names => exists header name, words = Immediate header :: name :: names /\
      Object.OBJECT_DATUM header = zlength names + 1 /\ NoDup names
  | KLambda names => exists body t fo rest, words = body :: Pointer t fo :: rest /\ sh fo = KFormals names
  | KProcedure names env => exists t l rest, words = Pointer t l :: env :: rest /\ sh l = KLambda names
  | KFrame names parent => frame_words sh b names parent words
  | KExtension f => exists slots free, extension_words sh f slots free words
  | KBinding name => exists v, words = [name; v] /\ cell_ok sh v
  | KTrap => exists tag t c rest, words = Immediate tag :: Pointer t c :: rest /\
      Object.OBJECT_DATUM tag = TRAP_COMPILER_CACHED /\ sh c = KCache
  | KMacro => exists tag rest, words = Immediate tag :: rest /\ Object.OBJECT_DATUM tag = TRAP_MACRO
  | KCache => exists v t r rest, words = v :: SHARP_F :: Pointer t r :: rest /\ value_ok sh v /\ sh r = KReferences
  | KReferences => words = [EMPTY_LIST; EMPTY_LIST; EMPTY_LIST]
  | _ => True
  end.

Definition well_formed (h : heap) (sh : shape) : Prop :=
  forall b, match block_of h b with Some words => block_ok sh b words | None => sh b = KOther end.

(** ** What the names of a frame denote *)

(** The pairs in use in the extension at block [e]. *)
Definition extension_slots (h : heap) (e : nat) : list object :=
  match block_of h e with
  | Some (_ :: _ :: _ :: Immediate count :: slots) => firstn (Z.to_nat (Object.OBJECT_DATUM count)) slots
  | _ => []
  end.

Definition slot_binding (sh : shape) (slot : object) : list (object * address) :=
  match slot with
  | Pointer _ q => match sh q with KBinding name => [(name, (q, 1%nat))] | _ => [] end
  | Immediate _ => []
  end.

Definition extension_cells (h : heap) (sh : shape) (f : nat) : list (object * address) :=
  match content h (f, ENVIRONMENT_FUNCTION) with
  | Some (Pointer t e) => if t =? TC_VECTOR then flat_map (slot_binding sh) (extension_slots h e) else []
  | _ => []
  end.

Fixpoint numbered (names : list object) (f index : nat) : list (object * address) :=
  match names with
  | [] => []
  | name :: names => (name, (f, ENVIRONMENT_FIRST_ARG + index)%nat) :: numbered names f (S index)
  end.

Definition visible_cell (h : heap) (find_unbound_p : bool) (binding : object * address) : bool :=
  find_unbound_p ||
  match content h (snd binding) with Some v => negb (object_eqb v UNBOUND_OBJECT) | None => false end.

Definition frame_cells (h : heap) (sh : shape) (f : nat) (names : list object) (find_unbound_p : bool) : list (object * address) :=
  extension_cells h sh f ++ filter (visible_cell h find_unbound_p) (numbered names f 0).

Fixpoint cell_named (symbol : object) (cells : list (object * address)) : option address :=
  match cells with
  | [] => None
  | (name, cell) :: cells => if object_eqb name symbol then Some cell else cell_named symbol cells
  end.

Definition symbol_cell (symbol : object) : option address :=
  match symbol with Pointer _ b => Some (b, SYMBOL_GLOBAL_VALUE) | Immediate _ => None end.

(** The cell of [symbol] in the frame [env] itself. *)
Definition local_cell (h : heap) (sh : shape) (env symbol : object) (find_unbound_p : bool) : option address :=
  match env with
  | Pointer _ f =>
      match sh f with
      | KFrame names _ => cell_named symbol (frame_cells h sh f names find_unbound_p)
      | _ => None
      end
  | Immediate _ => symbol_cell symbol
  end.

(** The frame a search for [symbol] from [env] ends in, and the cell it finds. *)
Inductive resolves (h : heap) (sh : shape) (symbol : object) : object -> option address -> object -> Prop :=
| resolves_global : resolves h sh symbol THE_GLOBAL_ENV (symbol_cell symbol) THE_GLOBAL_ENV
| resolves_here f names parent cell :
    sh f = KFrame names parent -> local_cell h sh (Pointer TC_ENVIRONMENT f) symbol false = Some cell ->
    resolves h sh symbol (Pointer TC_ENVIRONMENT f) (Some cell) (Pointer TC_ENVIRONMENT f)
| resolves_end f names :
    sh f = KFrame names THE_NULL_ENV -> local_cell h sh (Pointer TC_ENVIRONMENT f) symbol false = None ->
    resolves h sh symbol (Pointer TC_ENVIRONMENT f) None (Pointer TC_ENVIRONMENT f)
| resolves_parent f names parent cell frame :
    sh f = KFrame names parent -> local_cell h sh (Pointer TC_ENVIRONMENT f) symbol false = None ->
    resolves h sh symbol parent cell frame -> resolves h sh symbol (Pointer TC_ENVIRONMENT f) cell frame.

Definition environment_ok (sh : shape) (env : object) : Prop :=
  env = THE_GLOBAL_ENV \/ exists f names parent, env = Pointer TC_ENVIRONMENT f /\ sh f = KFrame names parent.

Definition symbol_ok (sh : shape) (symbol : object) : Prop :=
  exists t b, symbol = Pointer t b /\ SYMBOL_P symbol = true /\ sh b = KSymbol.

(** Where the value of the variable with this cell is kept, and what it is. *)
Definition location (h : heap) (sh : shape) (cell : address) : address :=
  match content h cell with
  | Some (Pointer t b) =>
      if t =? TC_REFERENCE_TRAP then
        match sh b with
        | KTrap => match content h (b, TRAP_EXTRA) with Some (Pointer _ c) => (c, 0%nat) | _ => cell end
        | _ => cell
        end
      else cell
  | _ => cell
  end.

(** ** Reading well-formed blocks *)

Lemma well_formed_block h sh b : well_formed h sh -> sh b <> KOther ->
  exists words, block_of h b = Some words /\ block_ok sh b words.
Proof. intros W K. specialize (W b). destruct (block_of h b) as [words|]; [now exists words|contradiction]. Qed.

(** [shaped W E]: the words of the block that [E] gives the kind of. *)
Ltac shaped W E :=
  let words := fresh "words" in let Eb := fresh "Eb" in let B := fresh "B" in
  destruct (well_formed_block _ _ _ W ltac:(rewrite E; discriminate)) as (words & Eb & B); unfold block_ok in B; rewrite E in B.

Lemma content_of h b words i : block_of h b = Some words -> content h (b, i) = nth_error words i.
Proof. unfold content. cbn [fst snd]. now intros ->. Qed.

Lemma content_nth h b words i o : block_of h b = Some words -> nth_error words i = Some o -> content h (b, i) = Some o.
Proof. intros E. now rewrite (content_of _ _ _ _ E). Qed.

(** [word E]: a word of the block that [E] gives. *)
Ltac word E := eapply content_nth; [exact E|first [reflexivity|eassumption]].

Lemma object_eqb_spec a b : reflect (a = b) (object_eqb a b).
Proof. unfold object_eqb. destruct (object_eq_dec a b); now constructor. Qed.

Lemma object_eqb_refl a : object_eqb a a = true.
Proof. destruct (object_eqb_spec a a); congruence. Qed.

(** The two shapes of the word that leads from a frame to its procedure. *)
Lemma frame_function h sh f names parent : well_formed h sh -> sh f = KFrame names parent ->
  exists function, content h (f, ENVIRONMENT_FUNCTION) = Some function /\
    ((exists t p, function = Pointer t p /\ t <> TC_VECTOR /\ sh p = KProcedure names parent) \/
     (exists e, function = Pointer TC_VECTOR e /\ sh e = KExtension f)).
Proof.
  intros W E. shaped W E. destruct B as [_ (hd & fn & args & -> & _ & _ & F)]. exists fn. split; [|exact F].
  word Eb.
Qed.

Lemma procedure_parent h sh p names env t : well_formed h sh -> sh p = KProcedure names env ->
  GET_PROCEDURE_ENVIRONMENT (Pointer t p) h = Return (env, h).
Proof.
  intros W E. shaped W E. destruct B as (t' & l & rest & -> & _). apply MEMORY_REF_ok. word Eb.
Qed.

(** The words of an extension in use. *)
Record extension_state (h : heap) (sh : shape) (f e : nat) (names : list object) (parent : object) (slots free : list object) : Prop := {
  extension_block : exists header t p count, block_of h e = Some (Immediate header :: parent :: Pointer t p :: Immediate count :: slots ++ free) /\
    Object.OBJECT_DATUM header = 3 + zlength slots + zlength free /\ Object.OBJECT_DATUM count = zlength slots /\
    sh p = KProcedure names parent;
  extension_defined : exists defined, Forall2 (binding_of sh) slots defined /\ NoDup defined /\ (forall x, In x defined -> ~ In x names);
  extension_size : zlength slots + zlength free < 2 ^ 56 /\ 0 < zlength slots + zlength free
}.

Lemma extension_read h sh f e names parent : well_formed h sh -> sh f = KFrame names parent -> sh e = KExtension f ->
  exists slots free, extension_state h sh f e names parent slots free.
Proof.
  intros W Ef Ee. shaped W Ee. destruct B as (slots & free & [(nm & pa & t & p & hd & ct & E1 & E2 & -> & H1 & H2 & H3 & H4) (df & F & N & D)]).
  rewrite Ef in E1. injection E1 as <- <-. exists slots, free. constructor; [exists hd, t, p, ct; repeat split; auto| |now split].
  exists df. repeat split; auto. now apply D with parent.
Qed.

Lemma extension_slots_ok h sh f e names parent slots free : extension_state h sh f e names parent slots free ->
  extension_slots h e = slots.
Proof.
  intros [(hd & t & p & ct & Eb & _ & Ec & _) _ _]. unfold extension_slots. rewrite Eb, Ec, Nat2Z.id.
  rewrite firstn_app, Nat.sub_diag, firstn_all, firstn_O. apply app_nil_r.
Qed.

Lemma GET_FRAME_PARENT_ok h sh f t names parent : well_formed h sh -> sh f = KFrame names parent ->
  GET_FRAME_PARENT (Pointer t f) h = Return (parent, h).
Proof.
  intros W E. destruct (frame_function _ _ _ _ _ W E) as (fn & Ef & [(t' & p & -> & _ & Ep)|(e & -> & Ee)]);
    unfold GET_FRAME_PARENT, GET_FRAME_PROCEDURE; (run MEMORY_REF_ok; [|exact Ef]).
  - now apply procedure_parent with sh names.
  - destruct (extension_read _ _ _ _ _ _ W E Ee) as (slots & free & [(hd & t' & p & ct & Eb & _) _ _]).
    apply MEMORY_REF_ok. word Eb.
Qed.

Lemma frame_names h sh f names parent : well_formed h sh -> sh f = KFrame names parent -> NoDup names.
Proof.
  intros W E. assert (exists p, sh p = KProcedure names parent) as (p & Ep).
  { destruct (frame_function _ _ _ _ _ W E) as (fn & _ & [(t & p & _ & _ & Ep)|(e & _ & Ee)]); [eauto|].
    destruct (extension_read _ _ _ _ _ _ W E Ee) as (slots & free & [(hd & t & p & ct & _ & _ & _ & Ep) _ _]). eauto. }
  shaped W Ep. destruct B as (t & l & rest & -> & El). shaped W El. destruct B as (bd & tf & fo & rest' & -> & Ef).
  shaped W Ef. now destruct B as (hd & nm & _ & _ & N).
Qed.

(** ** Scanning a frame *)

Lemma skipn_nth {A} (l : list A) i x rest : skipn i l = x :: rest -> nth_error l i = Some x /\ skipn (S i) l = rest.
Proof.
  revert i. induction l as [|y l IH]; intros [|i]; cbn [skipn nth_error]; try discriminate; [now intros [= -> ->]|]. apply IH.
Qed.

Lemma scan_extension_ok h sh e words symbol : well_formed h sh -> block_of h e = Some words ->
  forall slots defined i rest, Forall2 (binding_of sh) slots defined -> skipn i words = slots ++ rest ->
  scan_extension (length slots) (e, i) symbol h = Return (cell_named symbol (flat_map (slot_binding sh) slots), h).
Proof.
  intros W Ee. induction slots as [|slot slots IH]; intros defined i rest F Sk; [reflexivity|].
  inversion F as [|? name ? df (q & -> & Eq) F']; subst. cbn [app] in Sk. apply skipn_nth in Sk as [En Sk].
  cbn [length scan_extension]. run load_ok; [|word Ee].
  shaped W Eq. destruct B as (v & -> & _). unfold PAIR_CAR. run MEMORY_REF_ok; [|word Eb].
  cbn [flat_map slot_binding]. rewrite Eq. cbn [app cell_named]. destruct (object_eqb_spec name symbol); [reflexivity|].
  unfold next. cbn [fst snd]. now apply IH with df rest.
Qed.

Lemma scan_parameters_ok h f t fo words symbol fu : block_of h fo = Some words ->
  (exists header function args, block_of h f = Some (header :: function :: args) /\ True) ->
  forall names i index, skipn i words = names -> (forall header function args, block_of h f = Some (header :: function :: args) ->
    (index + length names <= length args)%nat) ->
  scan_parameters (length names) (fo, i) index (Pointer t f) symbol fu h =
    Return (cell_named symbol (filter (visible_cell h fu) (numbered names f index)), h).
Proof.
  intros Efo (hd & fn & args & Ef & _). induction names as [|name names IH]; intros i index Sk Len; [reflexivity|].
  apply skipn_nth in Sk as [En Sk]. specialize (Len _ _ _ Ef) as Len'. cbn [length] in Len'.
  cbn [length scan_parameters numbered filter]. run load_ok; [|word Efo].
  assert (IH' : scan_parameters (length names) (next (fo, i)) (S index) (Pointer t f) symbol fu h =
    Return (cell_named symbol (filter (visible_cell h fu) (numbered names f (S index))), h)).
  { apply IH; [exact Sk|]. intros hd' fn' args' E'. rewrite Ef in E'. injection E' as <- <- <-. lia. }
  assert (exists v, content h (f, (ENVIRONMENT_FIRST_ARG + index)%nat) = Some v) as (v & Ev).
  { rewrite (content_of _ _ _ _ Ef). cbn [ENVIRONMENT_FIRST_ARG Nat.add nth_error].
    destruct (nth_error args index) as [v|] eqn:E; [now exists v|]. apply nth_error_None in E. lia. }
  destruct (object_eqb_spec name symbol) as [->|Ne].
  - unfold GET_FRAME_ARG_CELL, MEMORY_LOC. erewrite andthen_return by reflexivity.
    unfold visible_cell at 1. cbn [snd]. rewrite Ev. destruct fu; cbn [orb].
    + erewrite andthen_return by reflexivity. cbn [cell_named]. now rewrite object_eqb_refl.
    + erewrite andthen_return by (erewrite andthen_return by (apply load_ok; exact Ev); reflexivity).
      destruct (object_eqb v UNBOUND_OBJECT); cbn [negb]; [exact IH'|]. cbn [cell_named]. now rewrite object_eqb_refl.
  - destruct (visible_cell h fu _); [|exact IH']. cbn [cell_named]. destruct (object_eqb_spec name symbol); [contradiction|exact IH'].
Qed.

Lemma scan_procedure_bindings_ok h sh f t tp p names parent symbol fu : well_formed h sh -> sh f = KFrame names parent ->
  sh p = KProcedure names parent ->
  scan_procedure_bindings (Pointer tp p) (Pointer t f) symbol fu h =
    Return (cell_named symbol (filter (visible_cell h fu) (numbered names f 0)), h).
Proof.
  intros W Ef Ep. unfold scan_procedure_bindings, GET_PROCEDURE_LAMBDA.
  shaped W Ep. destruct B as (tl & l & rest & -> & El). run MEMORY_REF_ok; [|word Eb].
  shaped W El. destruct B as (body & tf & fo & rest' & -> & Efo).
  assert (GL : GET_LAMBDA_FORMALS (Pointer tl l) h = Return (Pointer tf fo, h)) by (apply MEMORY_REF_ok; word Eb0).
  shaped W Efo. destruct B as (hd & nm & -> & Eh & _).
  unfold GET_LAMBDA_PARAMETERS, GET_LAMBDA_N_PARAMETERS.
  erewrite andthen_return by (erewrite andthen_return by exact GL; reflexivity).
  erewrite andthen_return with (a := zlength names) (h' := h).
  2:{ erewrite andthen_return by exact GL. unfold VECTOR_LENGTH. run_assoc.
      run MEMORY_REF_ok; [|word Eb1]. run @pure_return; [|reflexivity].
      unfold ret. do 2 f_equal. cbn [OBJECT_DATUM]. lia. }
  rewrite Nat2Z.id. shaped W Ef. destruct B as [_ (hd' & fn & args & -> & Len & _)].
  apply scan_parameters_ok with (words := Immediate hd :: nm :: names); auto.
  - now exists hd', fn, args.
  - intros ? ? ? E. rewrite Eb2 in E. injection E as <- <- <-. lia.
Qed.

Lemma cell_named_app symbol l1 l2 :
  cell_named symbol (l1 ++ l2) = match cell_named symbol l1 with Some c => Some c | None => cell_named symbol l2 end.
Proof. induction l1 as [|[name c] l1 IH]; [reflexivity|]. cbn [app cell_named]. now destruct (object_eqb name symbol). Qed.

Lemma scan_frame_ok h sh f names parent symbol fu : well_formed h sh -> sh f = KFrame names parent ->
  scan_frame (Pointer TC_ENVIRONMENT f) symbol fu h = Return (local_cell h sh (Pointer TC_ENVIRONMENT f) symbol fu, h).
Proof.
  intros W Ef. unfold scan_frame, local_cell, frame_cells, extension_cells. rewrite Ef.
  destruct (frame_function _ _ _ _ _ W Ef) as (fn & Efn & F). rewrite Efn, cell_named_app.
  unfold EXTENDED_FRAME_P, GET_EXTENDED_FRAME_BINDINGS, GET_EXTENDED_FRAME_LENGTH, GET_EXTENDED_FRAME_PROCEDURE.
  assert (Gp : GET_FRAME_PROCEDURE (Pointer TC_ENVIRONMENT f) h = Return (fn, h)) by now apply MEMORY_REF_ok.
  change (PROCEDURE_FRAME_P (Pointer TC_ENVIRONMENT f)) with true. cbv iota. erewrite andthen_return by (erewrite andthen_return by exact Gp; reflexivity).
  destruct F as [(t & p & -> & Nt & Ep)|(e & -> & Ee)]; unfold FRAME_EXTENSION_P, VECTOR_P; cbn [OBJECT_TYPE].
  - destruct (Z.eqb_spec t TC_VECTOR); [contradiction|]. erewrite andthen_return by exact Gp. cbn [cell_named].
    now apply (scan_procedure_bindings_ok h sh f _ _ _ names parent).
  - change (TC_VECTOR =? TC_VECTOR) with true. cbv iota. destruct (extension_read _ _ _ _ _ _ W Ef Ee) as (slots & free & X).
    rewrite (extension_slots_ok _ _ _ _ _ _ _ _ X). destruct X as [(hd & t & p & ct & Eb & _ & Ec & Ep) (df & F & _) Sz].
    erewrite andthen_return by (erewrite andthen_return by exact Gp; reflexivity).
    erewrite andthen_return with (a := zlength slots) (h' := h).
    2:{ erewrite andthen_return by exact Gp. unfold GET_FRAME_EXTENSION_LENGTH.
        run MEMORY_REF_ok; [|word Eb]. apply pure_return.
        unfold UNSIGNED_FIXNUM_TO_LONG. cbn [OBJECT_DATUM]. rewrite Ec, to_long_small by lia. reflexivity. }
    rewrite Nat2Z.id. erewrite andthen_return by (apply (scan_extension_ok h sh e _ symbol W Eb slots df 4 free F); reflexivity).
    destruct (cell_named symbol _) as [c|]; [reflexivity|]. erewrite andthen_return by
      (erewrite andthen_return by exact Gp; apply MEMORY_REF_ok; word Eb).
    now apply (scan_procedure_bindings_ok h sh f _ _ _ names parent).
Qed.

(** ** Finding a binding *)

Lemma scan_global_ok h sh symbol fu : symbol_ok sh symbol ->
  scan_frame THE_GLOBAL_ENV symbol fu h = Return (symbol_cell symbol, h).
Proof. intros (t & b & -> & _ & _). reflexivity. Qed.

Lemma frame_before h sh f names parent : well_formed h sh -> sh f = KFrame names parent -> environment_before sh f parent.
Proof. intros W E. shaped W E. apply B. Qed.

Lemma frame_allocated h sh f names parent : well_formed h sh -> sh f = KFrame names parent -> (f < length (blocks h))%nat.
Proof. intros W E. shaped W E. now apply block_lt with words. Qed.

Lemma find_binding_loop_ok h sh symbol : well_formed h sh -> symbol_ok sh symbol -> forall f fuel names parent,
  (S f < fuel)%nat -> sh f = KFrame names parent ->
  exists cell frame, find_binding_loop fuel (Pointer TC_ENVIRONMENT f) symbol h = Return ((cell, frame), h) /\
    resolves h sh symbol (Pointer TC_ENVIRONMENT f) cell frame.
Proof.
  intros W Sy. induction f as [f IH] using lt_wf_ind. intros [|fuel] names parent Hf E; [lia|]. cbn [find_binding_loop].
  erewrite andthen_return by (apply (scan_frame_ok h sh f names parent); assumption).
  destruct (local_cell h sh (Pointer TC_ENVIRONMENT f) symbol false) as [c|] eqn:El.
  { exists (Some c), (Pointer TC_ENVIRONMENT f). split; [reflexivity|]. now apply resolves_here with names parent. }
  erewrite andthen_return by (apply (GET_FRAME_PARENT_ok h sh f _ names parent); assumption).
  destruct (frame_before _ _ _ _ _ W E) as [->|[->|(g & nm & pa & -> & Hg & Eg)]].
  - change (ENVIRONMENT_P THE_GLOBAL_ENV) with true. cbv iota.
    exists (symbol_cell symbol), THE_GLOBAL_ENV. destruct fuel as [|fuel]; [lia|].
    cbn [find_binding_loop]. erewrite andthen_return by (apply scan_global_ok with sh; exact Sy).
    destruct Sy as (t & b & -> & _). split; [reflexivity|]. apply resolves_parent with names THE_GLOBAL_ENV; auto. constructor.
  - change (ENVIRONMENT_P THE_NULL_ENV) with false. exists None, (Pointer TC_ENVIRONMENT f). split; [reflexivity|].
    now apply resolves_end with names.
  - change (ENVIRONMENT_P (Pointer TC_ENVIRONMENT g)) with true. cbv iota.
    destruct (IH g Hg fuel nm pa) as (cell & frame & E1 & R); [lia|exact Eg|]. exists cell, frame. split; [exact E1|].
    now apply resolves_parent with names (Pointer TC_ENVIRONMENT g).
Qed.

Lemma find_binding_cell_ok h sh symbol env : well_formed h sh -> symbol_ok sh symbol -> environment_ok sh env ->
  exists cell frame, find_binding_cell env symbol h = Return ((cell, frame), h) /\ resolves h sh symbol env cell frame.
Proof.
  intros W Sy [->|(f & names & parent & -> & E)]; unfold find_binding_cell.
  - exists (symbol_cell symbol), THE_GLOBAL_ENV. split; [|constructor]. change (NULL_FRAME_P THE_GLOBAL_ENV) with false. cbv iota.
    erewrite andthen_return by reflexivity. cbn [find_binding_loop].
    erewrite andthen_return by (apply scan_global_ok with sh; exact Sy). now destruct Sy as (t & b & -> & _).
  - change (NULL_FRAME_P (Pointer TC_ENVIRONMENT f)) with false. cbv iota. erewrite andthen_return by reflexivity.
    apply find_binding_loop_ok with names parent; auto. pose proof (frame_allocated _ _ _ _ _ W E). lia.
Qed.

Lemma find_binding_null h symbol : find_binding_cell THE_NULL_ENV symbol h = Return ((None, THE_NULL_ENV), h).
Proof. reflexivity. Qed.

Lemma resolves_unique h sh symbol env c1 f1 c2 f2 :
  resolves h sh symbol env c1 f1 -> resolves h sh symbol env c2 f2 -> c1 = c2 /\ f1 = f2.
Proof.
  intros R1. revert c2 f2. induction R1 as [|f nm pa c E L|f nm E L|f nm pa c fr E L R IH]; intros c2 f2 R2;
    inversion R2 as [|f' nm' pa' c' E' L'|f' nm' E' L'|f' nm' pa' c' fr' E' L' R']; subst; try congruence; try now split.
  - split; congruence.
  - assert (pa' = THE_NULL_ENV) as -> by congruence. inversion R'.
  - assert (pa = THE_NULL_ENV) as -> by congruence. inversion R.
  - assert (pa' = pa) as -> by congruence. now apply IH.
Qed.

(** ** Stores and allocations *)

(** The shape of a later heap. *)
Definition extends (sh sh' : shape) : Prop := forall b, sh b <> KOther -> sh' b = sh b.

Lemma extends_refl sh : extends sh sh.
Proof. intros b _. reflexivity. Qed.

Lemma extends_trans s1 s2 s3 : extends s1 s2 -> extends s2 s3 -> extends s1 s3.
Proof. intros A B b K. rewrite B; [now apply A|]. now rewrite A. Qed.

Lemma extends_kind sh sh' b k : extends sh sh' -> sh b = k -> k <> KOther -> sh' b = k.
Proof. intros X <- K. now apply X. Qed.

(** [kinds X]: the kinds known of the shape [sh] hold of the later shape. *)
Ltac kinds X := repeat match goal with
  | E : ?sh ?b = ?k |- ?sh' ?b = ?k => apply (extends_kind _ _ _ _ X E); discriminate
  end.

Lemma value_ok_extends sh sh' v : extends sh sh' -> value_ok sh v -> value_ok sh' v.
Proof.
  intros X [H|[H|[H|(m & -> & E)]]]; [now left|now right; left|now right; right; left|]. right. right. right. exists m. split; [reflexivity|kinds X].
Qed.

Lemma cell_ok_extends sh sh' v : extends sh sh' -> cell_ok sh v -> cell_ok sh' v.
Proof.
  intros X [H|(t & -> & E)]; [left; now apply value_ok_extends with sh|right]. exists t. split; [reflexivity|kinds X].
Qed.

Lemma environment_before_extends sh sh' b env : extends sh sh' -> environment_before sh b env -> environment_before sh' b env.
Proof.
  intros X [H|[H|(f & nm & pa & -> & L & E)]]; [now left|now right; left|right; right]. exists f, nm, pa. repeat split; [exact L|kinds X].
Qed.

Lemma environment_ok_extends sh sh' env : extends sh sh' -> environment_ok sh env -> environment_ok sh' env.
Proof. intros X [H|(f & nm & pa & -> & E)]; [now left|right]. exists f, nm, pa. split; [reflexivity|kinds X]. Qed.

Lemma symbol_ok_extends sh sh' s : extends sh sh' -> symbol_ok sh s -> symbol_ok sh' s.
Proof. intros X (t & b & -> & Sy & E). exists t, b. repeat split; [exact Sy|kinds X]. Qed.

Lemma frame_words_extends sh sh' b names parent words : extends sh sh' ->
  frame_words sh b names parent words -> frame_words sh' b names parent words.
Proof.
  intros X [P (hd & fn & args & E & L & A & F)]. constructor; [now apply environment_before_extends with sh|].
  exists hd, fn, args. split; [exact E|]. split; [exact L|]. split.
  - eapply Forall_impl; [|exact A]. intros v. now apply cell_ok_extends.
  - destruct F as [(t & p & -> & Nt & Ep)|(e & -> & Ee)]; [left; exists t, p|right; exists e]; repeat split; auto; kinds X.
Qed.

Lemma extension_words_extends sh sh' f slots free words : extends sh sh' ->
  extension_words sh f slots free words -> extension_words sh' f slots free words.
Proof.
  intros X [(nm & pa & t & p & hd & ct & E1 & E2 & L & H1 & H2 & H3 & H4) (df & F & N & D)]. constructor.
  - exists nm, pa, t, p, hd, ct. split; [kinds X|]. split; [kinds X|]. auto.
  - exists df. split; [|split; [exact N|]].
    + eapply Forall2_impl; [|exact F]. intros s n (q & -> & Eq). exists q. split; [reflexivity|kinds X].
    + intros nm' pa' E'. apply D with pa. assert (E1' : sh' f = KFrame nm pa) by kinds X. congruence.
Qed.

Lemma block_ok_extends sh sh' b words : extends sh sh' -> sh b <> KOther -> block_ok sh b words -> block_ok sh' b words.
Proof.
  intros X K. unfold block_ok. rewrite (X b K). destruct (sh b); auto.
  - intros (n & v & r & -> & V). exists n, v, r. split; [reflexivity|now apply cell_ok_extends with sh].
  - intros (bd & t & fo & r & -> & E). exists bd, t, fo, r. split; [reflexivity|kinds X].
  - intros (t & l & r & -> & E). exists t, l, r. split; [reflexivity|kinds X].
  - now apply frame_words_extends.
  - intros (sl & fr & E). exists sl, fr. now apply extension_words_extends with sh.
  - intros (v & -> & V). exists v. split; [reflexivity|now apply cell_ok_extends with sh].
  - intros (tg & t & c & r & -> & T & E). exists tg, t, c, r. split; [reflexivity|]. split; [exact T|kinds X].
  - intros (v & t & r & rest & -> & V & E). exists v, t, r, rest. split; [reflexivity|]. split; [now apply value_ok_extends with sh|kinds X].
Qed.

Lemma well_formed_stored h sh b i v words : well_formed h sh -> block_of h b = Some words ->
  block_ok sh b (update i v words) -> well_formed (stored h (b, i) v) sh.
Proof.
  intros W Eb B c. rewrite block_stored. destruct (Nat.eqb_spec b c) as [<-|Ne].
  - rewrite Eb. exact B.
  - apply W.
Qed.

Lemma well_formed_fresh h sh : well_formed h sh -> sh (length (blocks h)) = KOther.
Proof.
  intros W. specialize (W (length (blocks h))). destruct (block_of h (length (blocks h))) as [w|] eqn:E; [|exact W].
  apply block_lt in E. lia.
Qed.

Lemma extended_extends h sh k : well_formed h sh -> extends sh (extended sh (length (blocks h)) k).
Proof.
  intros W b K. unfold extended. destruct (Nat.eqb_spec b (length (blocks h))) as [->|]; [|reflexivity].
  now rewrite (well_formed_fresh h sh W) in K.
Qed.

Lemma well_formed_allocated h sh words k : well_formed h sh -> block_ok (extended sh (length (blocks h)) k) (length (blocks h)) words ->
  well_formed (allocated h words) (extended sh (length (blocks h)) k).
Proof.
  intros W B b. pose proof (extended_extends h sh k W) as X. destruct (Nat.lt_trichotomy b (length (blocks h))) as [L|[->|G]].
  - rewrite block_allocated_old by exact L. pose proof (W b) as Wb. destruct (block_of h b) as [w|] eqn:E.
    + destruct (sh b) eqn:K; try (apply block_ok_extends with sh; auto; congruence).
      unfold block_ok. rewrite extended_old, K by exact L. exact I.
    + now rewrite extended_old.
  - now rewrite block_allocated_new.
  - assert (block_of (allocated h words) b = None) as ->.
    { unfold block_of, allocated. cbn [blocks]. apply nth_error_None. rewrite length_app. cbn [length]. lia. }
    unfold extended. destruct (Nat.eqb_spec b (length (blocks h))); [lia|]. specialize (W b).
    destruct (block_of h b) as [w|] eqn:E; [|exact W]. apply block_lt in E. lia.
Qed.
