(* ===== verification/Lookup.v ===== *)
(** * lookup.c: variables

    Reference, assignment, definition, linking and removal of variables, in
    the configuration without compiled code ([NO_CC_SUPPORT_P]): caches exist,
    because linked variables share one, but no compiled code refers to them.
    A function that may store a result through a pointer returns it as an
    option, after the return code. *)

From Stdlib Require Import ZArith List Bool Lia.
From S2P Require Import Prelude Object Heap Intern Environment.
Import ListNotations.

#[local] Open Scope Z_scope.
#[local] Open Scope heap_scope.

(** ** Return codes and constants *)

Definition PRIM_DONE : Z := -1.
Definition PRIM_INTERRUPT : Z := -4.
Definition ERR_UNBOUND_VARIABLE : Z := 0x01.
Definition ERR_UNASSIGNED_VARIABLE : Z := 0x02.
Definition ERR_BAD_FRAME : Z := 0x06.
Definition ERR_MACRO_BINDING : Z := 0x13.
Definition ERR_ILLEGAL_REFERENCE_TRAP : Z := 0x34.

Definition SPACE_PER_UUO_LINK : Z := 10.
Definition SPACE_PER_CACHE : Z := 3.
Definition CACHE_TYPE : Z := TC_HUNK3.
Definition CACHE_REFERENCES_TYPE : Z := TC_HUNK3.
Definition GC_RECLAIMED : object := MAKE_OBJECT TC_CONSTANT 10.

Definition CACHE_CELL : nat := 0.
Definition CACHE_CLONE : nat := 1.
Definition CACHE_REFERENCES : nat := 2.
Definition CACHE_REFERENCES_LOOKUP : nat := 0.
Definition CACHE_REFERENCES_ASSIGNMENT : nat := 1.
Definition CACHE_REFERENCES_OPERATOR : nat := 2.

Definition result : Type := Z * option object.

(** ** Control macros *)

Definition RETURN_IF_ERROR (expression : operation Z) (rest : operation Z) : operation Z :=
  code <- expression ;; if code =? PRIM_DONE then rest else ret code.

(** The alternative is a fatal exit of the microcode. *)
Definition DIE_IF_ERROR (expression : operation Z) : operation unit :=
  code <- expression ;; if code =? PRIM_DONE then ret tt else fun _ => Exception.

(** [interrupted] is [PRIM_INTERRUPT], as the function returns it. *)
Definition GC_CHECK {A} (n : Z) (interrupted : A) (rest : operation A) : operation A := fun h =>
  if GC_NEEDED_P n h then Return (interrupted, REQUEST_GC n h) else rest h.

Definition EXTERNAL_UNASSIGNED_OBJECT : operation object := fun h => Return (non_object h, h).

Definition MAP_TO_UNASSIGNED (value : object) : operation object :=
  external <- EXTERNAL_UNASSIGNED_OBJECT ;;
  ret (if object_eqb value external then UNASSIGNED_OBJECT else value).

Definition MAP_FROM_UNASSIGNED (value : object) : operation object :=
  external <- EXTERNAL_UNASSIGNED_OBJECT ;;
  ret (if object_eqb value UNASSIGNED_OBJECT then external else value).

(** ** Caches *)

Definition GET_CACHE_VALUE (cache : object) : operation object := MEMORY_REF cache CACHE_CELL.
Definition SET_CACHE_VALUE (cache value : object) : operation unit := MEMORY_SET cache CACHE_CELL value.
Definition GET_CACHE_CLONE (cache : object) : operation object := MEMORY_REF cache CACHE_CLONE.
Definition SET_CACHE_CLONE (cache clone : object) : operation unit := MEMORY_SET cache CACHE_CLONE clone.
Definition GET_CACHE_REFERENCES_OBJECT (cache : object) : operation object := MEMORY_REF cache CACHE_REFERENCES.
Definition GET_CACHE_REFERENCES (cache : object) (kind : nat) : operation address :=
  references <- GET_CACHE_REFERENCES_OBJECT cache ;; MEMORY_LOC references kind.
Definition GET_CACHE_LOOKUP_REFERENCES (cache : object) : operation address := GET_CACHE_REFERENCES cache CACHE_REFERENCES_LOOKUP.
Definition GET_CACHE_ASSIGNMENT_REFERENCES (cache : object) : operation address :=
  GET_CACHE_REFERENCES cache CACHE_REFERENCES_ASSIGNMENT.
Definition GET_CACHE_OPERATOR_REFERENCES (cache : object) : operation address :=
  GET_CACHE_REFERENCES cache CACHE_REFERENCES_OPERATOR.
Definition GET_CACHE_REFERENCE_BLOCK (reference : object) : operation object := PAIR_CAR reference.

(** [count_references]: the two loops of [WALK_REFERENCES], over the
    references of one name and over the names.  A turn advances along a list
    or unlinks a pair from it: no list has more pairs than there are blocks. *)
Fixpoint count_prefs (fuel : nat) (prefs : address) (n_references : Z) : operation Z :=
  match fuel with
  | O => fun _ => OutOfFuel
  | S fuel =>
      list <- load prefs ;;
      if PAIR_P list then
        reference <- PAIR_CAR list ;;
        block <- GET_CACHE_REFERENCE_BLOCK reference ;;
        if object_eqb block GC_RECLAIMED then
          cdr <- PAIR_CDR list ;; store prefs cdr ;; count_prefs fuel prefs n_references
        else
          list <- load prefs ;;
          prefs <- PAIR_CDR_LOC list ;; count_prefs fuel prefs (n_references + 1)
      else ret n_references
  end.

Fixpoint count_palist (fuel inner : nat) (palist : address) (n_references : Z) : operation Z :=
  match fuel with
  | O => fun _ => OutOfFuel
  | S fuel =>
      list <- load palist ;;
      if PAIR_P list then
        entry <- PAIR_CAR list ;;
        prefs <- PAIR_CDR_LOC entry ;;
        n_references <- count_prefs inner prefs n_references ;;
        list <- load palist ;;
        entry <- PAIR_CAR list ;;
        references <- PAIR_CDR entry ;;
        if PAIR_P references then palist <- PAIR_CDR_LOC list ;; count_palist fuel inner palist n_references
        else cdr <- PAIR_CDR list ;; store palist cdr ;; count_palist fuel inner palist n_references
      else ret n_references
  end.

Definition count_references (palist : address) : operation Z := fun h =>
  let fuel := S (length (blocks h)) in count_palist fuel fuel palist 0 h.

(** Without compiled code there is nothing to update. *)
Definition update_assignment_references (cache : object) : operation unit := ret tt.

Definition make_cache (value clone references : object) : operation result :=
  GC_CHECK 3 (PRIM_INTERRUPT, None)
    (cache <- allocate CACHE_TYPE [value; clone; references] ;; ret (PRIM_DONE, Some cache)).

(** [RETURN_IF_ERROR] and [DIE_IF_ERROR] for a function with a result. *)
Definition result_or_return (expression : operation result) (rest : object -> operation Z) : operation Z :=
  '(code, value) <- expression ;;
  match value with
  | Some value => if code =? PRIM_DONE then rest value else ret code
  | None => ret code
  end.

Definition result_or_die (expression : operation result) : operation object :=
  '(code, value) <- expression ;;
  match value with
  | Some value => if code =? PRIM_DONE then ret value else fun _ => Exception
  | None => fun _ => Exception
  end.

Definition guarantee_cache (cell : address) : operation Z :=
  value <- load cell ;;
  kind <- get_trap_kind value ;;
  if kind =? TRAP_COMPILER_CACHED then ret PRIM_DONE
  else
    GC_CHECK 3 PRIM_INTERRUPT
      (references <- allocate CACHE_REFERENCES_TYPE [EMPTY_LIST; EMPTY_LIST; EMPTY_LIST] ;;
       value <- load cell ;;
       result_or_return (make_cache value SHARP_F references) (fun cache =>
         GC_CHECK 2 PRIM_INTERRUPT
           (trap <- allocate TC_REFERENCE_TRAP [LONG_TO_UNSIGNED_FIXNUM TRAP_COMPILER_CACHED; cache] ;;
            store cell trap ;;
            ret PRIM_DONE))).

Definition update_clone (cache : object) : operation unit :=
  assignments <- GET_CACHE_ASSIGNMENT_REFERENCES cache ;;
  assignments <- load assignments ;;
  operators <- (if PAIR_P assignments
                then operators <- GET_CACHE_OPERATOR_REFERENCES cache ;; load operators
                else ret SHARP_F) ;;
  clone <- GET_CACHE_CLONE cache ;;
  if PAIR_P assignments && PAIR_P operators then
    if object_eqb clone SHARP_F then
      references <- GET_CACHE_REFERENCES_OBJECT cache ;;
      clone <- result_or_die (make_cache EXPENSIVE_OBJECT cache references) ;;
      SET_CACHE_CLONE cache clone ;;
      update_assignment_references cache
    else ret tt
  else
    if negb (object_eqb clone SHARP_F) then
      SET_CACHE_CLONE cache SHARP_F ;;
      update_assignment_references cache
    else ret tt.

Definition update_cache_refs_space (from_cache environment symbol : object) : Z := 0.

Definition update_cache_references (from_cache : object) (to_cell : option address) (environment symbol : object) : operation Z :=
  match to_cell with
  | Some to_cell =>
      DIE_IF_ERROR (guarantee_cache to_cell) ;;
      trap <- load to_cell ;;
      to_cache <- GET_TRAP_CACHE trap ;;
      update_clone to_cache
  | None => ret tt
  end ;;
  update_clone from_cache ;;
  ret PRIM_DONE.

(** ** Reference *)

Definition lookup_variable_cache (cache : object) : operation result :=
  value <- GET_CACHE_VALUE cache ;;
  kind <- get_trap_kind value ;;
  ret (if kind =? NON_TRAP_KIND then (PRIM_DONE, Some value)
       else if kind =? TRAP_UNASSIGNED then (ERR_UNASSIGNED_VARIABLE, None)
       else if kind =? TRAP_UNBOUND then (ERR_UNBOUND_VARIABLE, None)
       else if kind =? TRAP_MACRO then (ERR_MACRO_BINDING, Some value)
       else (ERR_ILLEGAL_REFERENCE_TRAP, None)).

Definition lookup_variable (environment symbol : object) : operation result :=
  if negb (ENVIRONMENT_P environment && SYMBOL_P symbol) then ret (ERR_BAD_FRAME, None)
  else
    '(cell, _) <- find_binding_cell environment symbol ;;
    match cell with
    | None => ret (ERR_UNBOUND_VARIABLE, None)
    | Some cell =>
        value <- load cell ;;
        kind <- get_trap_kind value ;;
        if kind =? NON_TRAP_KIND then ret (PRIM_DONE, Some value)
        else if kind =? TRAP_UNASSIGNED then ret (ERR_UNASSIGNED_VARIABLE, None)
        else if kind =? TRAP_UNBOUND then ret (ERR_UNBOUND_VARIABLE, None)
        else if kind =? TRAP_MACRO then ret (ERR_MACRO_BINDING, Some value)
        else if kind =? TRAP_COMPILER_CACHED then cache <- GET_TRAP_CACHE value ;; lookup_variable_cache cache
        else ret (ERR_ILLEGAL_REFERENCE_TRAP, None)
    end.

Definition safe_lookup_variable (environment symbol : object) : operation result :=
  '(result, value) <- lookup_variable environment symbol ;;
  if result =? ERR_UNASSIGNED_VARIABLE
  then external <- EXTERNAL_UNASSIGNED_OBJECT ;; ret (PRIM_DONE, Some external)
  else ret (result, value).

Definition variable_unassigned_p (environment symbol : object) : operation result :=
  '(result, _) <- lookup_variable environment symbol ;;
  ret (if result =? ERR_UNASSIGNED_VARIABLE then (PRIM_DONE, Some SHARP_T)
       else if result =? PRIM_DONE then (PRIM_DONE, Some SHARP_F)
       else (result, None)).

Definition variable_unbound_p (environment symbol : object) : operation result :=
  '(result, _) <- lookup_variable environment symbol ;;
  ret (if result =? ERR_UNBOUND_VARIABLE then (PRIM_DONE, Some SHARP_T)
       else if (result =? ERR_UNASSIGNED_VARIABLE) || (result =? ERR_MACRO_BINDING) || (result =? PRIM_DONE)
            then (PRIM_DONE, Some SHARP_F)
       else (result, None)).

Definition variable_unreferenceable_p (environment symbol : object) : operation result :=
  '(result, _) <- lookup_variable environment symbol ;;
  ret (if (result =? ERR_UNBOUND_VARIABLE) || (result =? ERR_UNASSIGNED_VARIABLE) || (result =? ERR_MACRO_BINDING)
       then (PRIM_DONE, Some SHARP_T)
       else if result =? PRIM_DONE then (PRIM_DONE, Some SHARP_F)
       else (result, None)).

(** ** Assignment *)

Definition assign_variable_cache (cache value : object) (force_p : bool) : operation result :=
  old_value <- GET_CACHE_VALUE cache ;;
  kind <- get_trap_kind old_value ;;
  let assign :=
    old <- MAP_FROM_UNASSIGNED old_value ;;
    value <- MAP_TO_UNASSIGNED value ;;
    SET_CACHE_VALUE cache value ;;
    ret (PRIM_DONE, Some old) in
  if (kind =? NON_TRAP_KIND) || (kind =? TRAP_UNASSIGNED) then assign
  else if kind =? TRAP_UNBOUND then if force_p then assign else ret (ERR_UNBOUND_VARIABLE, None)
  else if kind =? TRAP_MACRO then if force_p then assign else ret (ERR_MACRO_BINDING, None)
  else ret (ERR_ILLEGAL_REFERENCE_TRAP, None).

Definition assign_variable_end (cell : address) (value : object) (force_p : bool) : operation result :=
  old_value <- load cell ;;
  kind <- get_trap_kind old_value ;;
  let assign :=
    old <- MAP_FROM_UNASSIGNED old_value ;;
    value <- MAP_TO_UNASSIGNED value ;;
    store cell value ;;
    ret (PRIM_DONE, Some old) in
  if (kind =? NON_TRAP_KIND) || (kind =? TRAP_UNASSIGNED) then assign
  else if kind =? TRAP_UNBOUND then if force_p then assign else ret (ERR_UNBOUND_VARIABLE, None)
  else if kind =? TRAP_MACRO then if force_p then assign else ret (ERR_MACRO_BINDING, None)
  else if kind =? TRAP_COMPILER_CACHED then
    cache <- GET_TRAP_CACHE old_value ;; assign_variable_cache cache value force_p
  else ret (ERR_ILLEGAL_REFERENCE_TRAP, None).

Definition assign_variable (environment symbol value : object) : operation result :=
  if negb (ENVIRONMENT_P environment || SYMBOL_P symbol) then ret (ERR_BAD_FRAME, None)
  else
    '(cell, _) <- find_binding_cell environment symbol ;;
    match cell with
    | None => ret (ERR_UNBOUND_VARIABLE, None)
    | Some cell => assign_variable_end cell value false
    end.

(** ** Definition *)

Definition allocate_frame_extension (length : Z) (procedure : object) : operation result :=
  let n_words := Z.of_nat ENV_EXTENSION_MIN_SIZE + length in
  GC_CHECK n_words (PRIM_INTERRUPT, None)
    (extension <- make_vector (Z.to_nat (n_words - 1)) SHARP_F false ;;
     parent <- GET_PROCEDURE_ENVIRONMENT procedure ;;
     SET_FRAME_EXTENSION_PARENT_FRAME extension parent ;;
     SET_FRAME_EXTENSION_PROCEDURE extension procedure ;;
     SET_FRAME_EXTENSION_LENGTH extension 0 ;;
     ret (PRIM_DONE, Some extension)).

(** [memcpy] of [n] words. *)
Fixpoint copy_words (n : nat) (to from : address) : operation unit :=
  match n with
  | O => ret tt
  | S n => word <- load from ;; store to word ;; copy_words n (next to) (next from)
  end.

Definition guarantee_extension_space (environment : object) : operation Z :=
  extended <- EXTENDED_FRAME_P environment ;;
  if extended then
    length <- GET_EXTENDED_FRAME_LENGTH environment ;;
    maximum <- GET_MAX_EXTENDED_FRAME_LENGTH environment ;;
    if length =? maximum then
      procedure <- GET_EXTENDED_FRAME_PROCEDURE environment ;;
      result_or_return (allocate_frame_extension (2 * length) procedure) (fun extension =>
        to <- GET_FRAME_EXTENSION_BINDINGS extension ;;
        from <- GET_EXTENDED_FRAME_BINDINGS environment ;;
        copy_words (Z.to_nat length) to from ;;
        SET_FRAME_EXTENSION_LENGTH extension length ;;
        SET_FRAME_EXTENSION environment extension ;;
        ret PRIM_DONE)
    else ret PRIM_DONE
  else
    procedure <- GET_FRAME_PROCEDURE environment ;;
    result_or_return (allocate_frame_extension 16 procedure) (fun extension =>
      SET_FRAME_EXTENSION environment extension ;;
      ret PRIM_DONE).

Definition extend_environment (environment symbol value : object) : operation address :=
  value <- MAP_TO_UNASSIGNED value ;;
  pair <- cons symbol value ;;
  length <- GET_EXTENDED_FRAME_LENGTH environment ;;
  bindings <- GET_EXTENDED_FRAME_BINDINGS environment ;;
  store (fst bindings, snd bindings + Z.to_nat length)%nat pair ;;
  SET_EXTENDED_FRAME_LENGTH environment (length + 1) ;;
  PAIR_CDR_LOC pair.

(** The last part of [define_variable]: no binding in the frame yet. *)
Definition define_new (environment symbol value : object) : operation Z :=
  RETURN_IF_ERROR (guarantee_extension_space environment)
    (parent <- GET_FRAME_PARENT environment ;;
     '(shadowed_cell, _) <- find_binding_cell parent symbol ;;
     old_cache <- match shadowed_cell with
                  | None => ret SHARP_F
                  | Some shadowed_cell =>
                      trap <- load shadowed_cell ;;
                      kind <- get_trap_kind trap ;;
                      if kind =? TRAP_COMPILER_CACHED then GET_TRAP_CACHE trap else ret SHARP_F
                  end ;;
     let cached := negb (object_eqb old_cache SHARP_F) in
     GC_CHECK (2 + (if cached then update_cache_refs_space old_cache environment symbol else 0)) PRIM_INTERRUPT
       (cell <- extend_environment environment symbol value ;;
        if cached then update_cache_references old_cache (Some cell) environment symbol else ret PRIM_DONE)).

Definition define_variable (environment symbol value : object) : operation Z :=
  if negb (ENVIRONMENT_P environment || SYMBOL_P symbol) then ret ERR_BAD_FRAME
  else
    cell <- scan_frame environment symbol true ;;
    match cell with
    | Some cell =>
        (if GLOBAL_FRAME_P environment then strengthen_symbol symbol else ret tt) ;;
        '(code, _) <- assign_variable_end cell value true ;;
        ret code
    | None => define_new environment symbol value
    end.

(** ** Linking *)

Definition cached_p (cell : address) : operation bool :=
  value <- load cell ;; kind <- get_trap_kind value ;; ret (kind =? TRAP_COMPILER_CACHED).

(** The target cell has a cache already. *)
Definition link_cached (source_cell target_cell : address) (source_kind : Z) : operation Z :=
  target <- load target_cell ;;
  target_cache <- GET_TRAP_CACHE target ;;
  let share := target <- load target_cell ;; store source_cell target ;; ret PRIM_DONE in
  if source_kind =? TRAP_COMPILER_CACHED then
    source <- load source_cell ;;
    source_cache <- GET_TRAP_CACHE source ;;
    if object_eqb source_cache target_cache then ret PRIM_DONE
    else
      operators <- GET_CACHE_OPERATOR_REFERENCES target_cache ;;
      n <- count_references operators ;;
      GC_CHECK (n * SPACE_PER_UUO_LINK + 2 * SPACE_PER_CACHE) PRIM_INTERRUPT
        (value <- GET_CACHE_VALUE source_cache ;;
         SET_CACHE_VALUE target_cache value ;;
         update_clone source_cache ;;
         update_clone target_cache ;;
         source <- load source_cell ;;
         SET_TRAP_CACHE source target_cache ;;
         share)
  else
    source <- load source_cell ;;
    SET_CACHE_VALUE target_cache source ;;
    share.

Definition link_variables (target_environment target_symbol source_environment source_symbol : object) : operation Z :=
  if negb (ENVIRONMENT_P target_environment && ENVIRONMENT_P source_environment
           && SYMBOL_P target_symbol && SYMBOL_P source_symbol) then ret ERR_BAD_FRAME
  else
    '(source_cell, _) <- find_binding_cell source_environment source_symbol ;;
    match source_cell with
    | None => ret ERR_UNBOUND_VARIABLE
    | Some source_cell =>
        source <- load source_cell ;;
        source_kind <- get_trap_kind source ;;
        if source_kind =? TRAP_UNBOUND then ret ERR_UNBOUND_VARIABLE
        else
          target_cell <- scan_frame target_environment target_symbol true ;;
          let define :=
            RETURN_IF_ERROR (guarantee_cache source_cell)
              (value <- load source_cell ;; define_variable target_environment target_symbol value) in
          match target_cell with
          | None => define
          | Some target_cell =>
              if address_eq_dec target_cell source_cell then ret PRIM_DONE
              else
                (if GLOBAL_FRAME_P target_environment then strengthen_symbol target_symbol else ret tt) ;;
                cached <- cached_p target_cell ;;
                if cached then link_cached source_cell target_cell source_kind else define
          end
    end.

(** ** Removal *)

(** The loop of [unbind_variable_1]; [start] is the first binding of the extension. *)
Fixpoint unbind_loop (n : nat) (index : nat) (start : address) (length : Z) (frame symbol : object) (not_found : operation unit)
    : operation unit :=
  match n with
  | O => not_found
  | S n =>
      binding <- load (fst start, snd start + index)%nat ;;
      name <- PAIR_CAR binding ;;
      if object_eqb name symbol then
        let last := (fst start, snd start + Z.to_nat (length - 1))%nat in
        (if Z.of_nat index <? length - 1
         then binding <- load last ;; store (fst start, snd start + index)%nat binding
         else ret tt) ;;
        SET_EXTENDED_FRAME_LENGTH frame (length - 1) ;;
        store last SHARP_F
      else unbind_loop n (S index) start length frame symbol not_found
  end.

Definition unbind_variable_1 (cell : address) (frame symbol : object) : operation unit :=
  extended <- (if PROCEDURE_FRAME_P frame then EXTENDED_FRAME_P frame else ret false) ;;
  if extended then
    start <- GET_EXTENDED_FRAME_BINDINGS frame ;;
    length <- GET_EXTENDED_FRAME_LENGTH frame ;;
    unbind_loop (Z.to_nat length) 0 start length frame symbol (store cell UNBOUND_OBJECT)
  else store cell UNBOUND_OBJECT.

Definition unbind_cached_variable (cell : address) (frame symbol : object) : operation Z :=
  trap <- load cell ;;
  cache <- GET_TRAP_CACHE trap ;;
  parent <- GET_FRAME_PARENT frame ;;
  '(shadowed_cell, _) <- find_binding_cell parent symbol ;;
  GC_CHECK (update_cache_refs_space cache frame symbol) PRIM_INTERRUPT
    (unbind_variable_1 cell frame symbol ;;
     update_cache_references cache shadowed_cell frame symbol).

Definition unbind_variable (environment symbol : object) : operation result :=
  '(cell, frame) <- find_binding_cell environment symbol ;;
  (if GLOBAL_FRAME_P frame then weaken_symbol symbol else ret tt) ;;
  match cell with
  | None => ret (PRIM_DONE, Some SHARP_F)
  | Some cell =>
      value <- load cell ;;
      kind <- get_trap_kind value ;;
      if kind =? TRAP_UNBOUND then ret (PRIM_DONE, Some SHARP_F)
      else if (kind =? NON_TRAP_KIND) || (kind =? TRAP_UNASSIGNED) || (kind =? TRAP_MACRO) then
        unbind_variable_1 cell frame symbol ;;
        ret (PRIM_DONE, Some SHARP_T)
      else if kind =? TRAP_COMPILER_CACHED then
        cache <- GET_TRAP_CACHE value ;;
        value <- GET_CACHE_VALUE cache ;;
        kind <- get_trap_kind value ;;
        if kind =? TRAP_UNBOUND then ret (PRIM_DONE, Some SHARP_F)
        else if (kind =? NON_TRAP_KIND) || (kind =? TRAP_UNASSIGNED) || (kind =? TRAP_MACRO) then
          if PROCEDURE_FRAME_P frame then
            code <- unbind_cached_variable cell frame symbol ;;
            ret (if code =? PRIM_DONE then (PRIM_DONE, Some SHARP_T) else (code, None))
          else
            SET_CACHE_VALUE cache UNBOUND_OBJECT ;;
            ret (PRIM_DONE, Some SHARP_T)
        else ret (ERR_ILLEGAL_REFERENCE_TRAP, None)
      else ret (ERR_ILLEGAL_REFERENCE_TRAP, None)
  end.

(** ** Cells and where their values are *)

Definition is_cell (sh : shape) (a : address) : Prop :=
  match sh (fst a) with
  | KFrame _ _ => (ENVIRONMENT_FIRST_ARG <= snd a)%nat
  | KBinding _ => snd a = 1%nat
  | KSymbol => snd a = SYMBOL_GLOBAL_VALUE
  | _ => False
  end.

Definition value_of (h : heap) (sh : shape) (cell : address) : option object := content h (location h sh cell).

Lemma is_cell_extends sh sh' a : extends sh sh' -> is_cell sh a -> is_cell sh' a.
Proof.
  unfold is_cell. intros X H. destruct (sh (fst a)) eqn:E; try contradiction; rewrite (X (fst a)) by congruence; now rewrite E.
Qed.

Lemma in_numbered x f names : forall i, In x (numbered names f i) -> exists j, (i <= j < i + length names)%nat /\ snd x = (f, ENVIRONMENT_FIRST_ARG + j)%nat.
Proof.
  induction names as [|n names IH]; intros i; cbn [numbered In length]; [contradiction|]. intros [<-|H].
  - exists i. split; [lia|reflexivity].
  - destruct (IH _ H) as (j & L & E). exists j. split; [lia|exact E].
Qed.

Lemma cell_named_in s cells c : cell_named s cells = Some c -> In (s, c) cells.
Proof.
  induction cells as [|[n c'] cells IH]; cbn [cell_named]; [discriminate|]. destruct (object_eqb_spec n s) as [->|].
  - intros [= ->]. now left.
  - right. auto.
Qed.

Lemma in_slots sh x slots : In x (flat_map (slot_binding sh) slots) -> exists q, sh q = KBinding (fst x) /\ snd x = (q, 1%nat).
Proof.
  intros (s & _ & H)%in_flat_map. unfold slot_binding in H. destruct s as [|t q]; [contradiction|].
  destruct (sh q) eqn:E; try contradiction. destruct H as [<-|[]]. now exists q.
Qed.

Lemma in_extension_cells h sh f x : In x (extension_cells h sh f) -> exists q, sh q = KBinding (fst x) /\ snd x = (q, 1%nat).
Proof.
  unfold extension_cells. destruct (content h _) as [[|t e]|]; try contradiction.
  destruct (t =? TC_VECTOR); [apply in_slots|contradiction].
Qed.

Lemma binding_content h sh q name : well_formed h sh -> sh q = KBinding name ->
  exists v, content h (q, 1%nat) = Some v /\ cell_ok sh v.
Proof. intros W E. shaped W E. destruct B as (v & -> & V). exists v. split; [word Eb|exact V]. Qed.

Lemma symbol_content h sh b : well_formed h sh -> sh b = KSymbol ->
  exists v, content h (b, SYMBOL_GLOBAL_VALUE) = Some v /\ cell_ok sh v.
Proof. intros W E. shaped W E. destruct B as (n & v & r & -> & V). exists v. split; [word Eb|exact V]. Qed.

Lemma argument_content h sh f names parent i : well_formed h sh -> sh f = KFrame names parent -> (i < length names)%nat ->
  exists v, content h (f, ENVIRONMENT_FIRST_ARG + i)%nat = Some v /\ cell_ok sh v.
Proof.
  intros W E L. shaped W E. destruct B as [_ (hd & fn & args & -> & L' & F & _)].
  destruct (nth_error args i) as [v|] eqn:En; [|apply nth_error_None in En; lia]. exists v. split; [word Eb|].
  rewrite Forall_forall in F. apply F. now apply nth_error_In with i.
Qed.

Lemma local_cell_ok h sh t f names parent s fu c : well_formed h sh -> sh f = KFrame names parent ->
  local_cell h sh (Pointer t f) s fu = Some c -> is_cell sh c /\ exists v, content h c = Some v /\ cell_ok sh v.
Proof.
  intros W E. unfold local_cell. rewrite E. unfold frame_cells. intros [I|I]%cell_named_in%in_app_iff.
  - apply in_extension_cells in I as (q & Eq & Ec). cbn [fst snd] in Eq, Ec. subst c. split; [unfold is_cell; cbn [fst snd]; now rewrite Eq|].
    now apply binding_content with s.
  - apply filter_In in I as [I _]. apply in_numbered in I as (j & L & Ec). cbn [snd] in Ec. subst c. split.
    + unfold is_cell. cbn [fst snd]. rewrite E. lia.
    + apply argument_content with names parent; auto. lia.
Qed.

Lemma resolves_cell h sh s env c frame : well_formed h sh -> symbol_ok sh s -> resolves h sh s env (Some c) frame ->
  is_cell sh c /\ exists v, content h c = Some v /\ cell_ok sh v.
Proof.
  intros W Sy R. remember (Some c) as oc eqn:Ec. induction R as [|f nm pa c' E L|f nm E L|f nm pa c' fr E L R IH]; auto; try discriminate.
  - destruct Sy as (t & b & -> & _ & Es). injection Ec as <-. split; [unfold is_cell; cbn [fst]; now rewrite Es|].
    now apply symbol_content.
  - injection Ec as ->. now apply local_cell_ok with TC_ENVIRONMENT f nm pa s false.
Qed.

(** ** Kinds of values *)

Definition value_kind (v : object) : Z :=
  if REFERENCE_TRAP_P v then
    if object_eqb v UNASSIGNED_OBJECT then TRAP_UNASSIGNED
    else if object_eqb v UNBOUND_OBJECT then TRAP_UNBOUND else TRAP_MACRO
  else NON_TRAP_KIND.

Lemma get_trap_kind_value h sh v : well_formed h sh -> value_ok sh v -> get_trap_kind v h = Return (value_kind v, h).
Proof.
  intros W [H|[->|[->|(m & -> & E)]]]; unfold get_trap_kind, value_kind.
  - now rewrite H.
  - reflexivity.
  - reflexivity.
  - change (REFERENCE_TRAP_P (Pointer TC_REFERENCE_TRAP m)) with true. cbv iota.
    change (object_eqb (Pointer TC_REFERENCE_TRAP m) UNASSIGNED_OBJECT) with false.
    change (object_eqb (Pointer TC_REFERENCE_TRAP m) UNBOUND_OBJECT) with false. cbv iota.
    shaped W E. destruct B as (tag & rest & -> & T). unfold GET_TRAP_TAG. run MEMORY_REF_ok; [|word Eb].
    apply pure_return. cbn [OBJECT_DATUM]. now rewrite T.
Qed.

(** What a cell that holds a cache leads to. *)
Lemma cached_cell h sh a t : well_formed h sh -> content h a = Some (Pointer TC_REFERENCE_TRAP t) -> sh t = KTrap ->
  get_trap_kind (Pointer TC_REFERENCE_TRAP t) h = Return (TRAP_COMPILER_CACHED, h) /\
  exists tc c v, content h (t, TRAP_EXTRA) = Some (Pointer tc c) /\ sh c = KCache /\ location h sh a = (c, 0%nat) /\
    content h (c, 0%nat) = Some v /\ value_ok sh v.
Proof.
  intros W Ea E. shaped W E. destruct B as (tag & tc & c & rest & -> & T & Ec). split.
  - unfold get_trap_kind. change (REFERENCE_TRAP_P (Pointer TC_REFERENCE_TRAP t)) with true. cbv iota.
    unfold GET_TRAP_TAG. run MEMORY_REF_ok; [|word Eb]. apply pure_return. cbn [OBJECT_DATUM]. now rewrite T.
  - assert (Et : content h (t, TRAP_EXTRA) = Some (Pointer tc c)) by word Eb.
    shaped W Ec. destruct B as (v & tr & r & rest' & -> & V & _). exists tc, c, v. repeat split; auto.
    + unfold location. now rewrite Ea, Z.eqb_refl, E, Et.
    + word Eb0.
Qed.

Lemma value_not_cached sh v t : value_ok sh v -> v = Pointer TC_REFERENCE_TRAP t -> sh t <> KTrap.
Proof.
  intros [H|[->|[->|(m & -> & E)]]]; try discriminate.
  - intros ->. discriminate.
  - intros [= ->]. congruence.
Qed.

Lemma location_value h sh a v : content h a = Some v -> value_ok sh v -> location h sh a = a.
Proof.
  intros E V. unfold location. rewrite E. destruct v as [|t b]; [reflexivity|]. destruct (Z.eqb_spec t TC_REFERENCE_TRAP) as [->|]; [|reflexivity].
  destruct (sh b) eqn:K; try reflexivity. now apply (value_not_cached sh _ b V) in K.
Qed.

(** The two ways a cell has its value. *)
Lemma cell_cases h sh a w : well_formed h sh -> content h a = Some w -> cell_ok sh w ->
  (value_ok sh w /\ location h sh a = a) \/ (exists t, w = Pointer TC_REFERENCE_TRAP t /\ sh t = KTrap).
Proof. intros W E [V|H]; [left|now right]. split; [exact V|now apply location_value with w]. Qed.

Lemma value_of_ok h sh a w : well_formed h sh -> content h a = Some w -> cell_ok sh w ->
  exists v, value_of h sh a = Some v /\ value_ok sh v.
Proof.
  intros W E C. unfold value_of. destruct (cell_cases h sh a w W E C) as [[V ->]|(t & -> & Et)]; [now exists w|].
  destruct (cached_cell h sh a t W E Et) as [_ (tc & c & v & _ & _ & -> & Ev & V)]. now exists v.
Qed.

(** ** Reference *)

(** What a lookup of a variable with the value [v] returns. *)
Definition read_value (v : object) : result :=
  let kind := value_kind v in
  if kind =? NON_TRAP_KIND then (PRIM_DONE, Some v)
  else if kind =? TRAP_UNASSIGNED then (ERR_UNASSIGNED_VARIABLE, None)
  else if kind =? TRAP_UNBOUND then (ERR_UNBOUND_VARIABLE, None)
  else (ERR_MACRO_BINDING, Some v).

(** The result of looking up [symbol] in [env]. *)
Definition denotes (h : heap) (sh : shape) (env symbol : object) (r : result) : Prop :=
  exists cell frame, resolves h sh symbol env cell frame /\
    match cell with
    | None => r = (ERR_UNBOUND_VARIABLE, None)
    | Some c => exists v, value_of h sh c = Some v /\ r = read_value v
    end.

Lemma denotes_unique h sh env s r1 r2 : denotes h sh env s r1 -> denotes h sh env s r2 -> r1 = r2.
Proof.
  intros (c1 & f1 & R1 & H1) (c2 & f2 & R2 & H2). destruct (resolves_unique _ _ _ _ _ _ _ _ R1 R2) as [<- _].
  destruct c1 as [c|]; [|congruence]. destruct H1 as (v1 & E1 & ->), H2 as (v2 & E2 & ->). congruence.
Qed.

Lemma value_kind_cases v : value_kind v = NON_TRAP_KIND \/ value_kind v = TRAP_UNASSIGNED \/ value_kind v = TRAP_UNBOUND \/ value_kind v = TRAP_MACRO.
Proof. unfold value_kind. destruct (REFERENCE_TRAP_P v), (object_eqb v UNASSIGNED_OBJECT), (object_eqb v UNBOUND_OBJECT); auto. Qed.

Lemma lookup_variable_ok h sh env s : well_formed h sh -> environment_ok sh env -> symbol_ok sh s ->
  returns (lookup_variable env s h) (fun '(r, h') => h' = h /\ denotes h sh env s r).
Proof.
  intros W E Sy. unfold lookup_variable.
  assert (Ep : ENVIRONMENT_P env = true) by (destruct E as [->|(f & nm & pa & -> & _)]; reflexivity).
  destruct (find_binding_cell_ok h sh s env W Sy E) as (cell & frame & Ef & R).
  assert (Sp : SYMBOL_P s = true) by (destruct Sy as (t & b & -> & Sp & _); exact Sp).
  rewrite Ep, Sp. cbn [andb negb]. erewrite andthen_return by exact Ef. destruct cell as [c|].
  2:{ ret_now. split; [reflexivity|]. exists None, frame. now split. }
  destruct (resolves_cell _ _ _ _ _ _ W Sy R) as (_ & w & Ew & C). run load_ok; [|exact Ew].
  destruct (cell_cases h sh c w W Ew C) as [[V L]|(t & -> & Et)].
  - erewrite andthen_return by (now apply get_trap_kind_value with sh).
    exists (read_value w, h). split; [|split; [reflexivity|exists (Some c), frame; split; [exact R|exists w; split; [unfold value_of; now rewrite L|reflexivity]]]].
    unfold read_value. destruct (value_kind_cases w) as [K|[K|[K|K]]]; rewrite K; reflexivity.
  - destruct (cached_cell h sh c t W Ew Et) as [G (tc & cb & v & Ec & _ & L & Ev & V)].
    erewrite andthen_return by exact G. cbn -[get_trap_kind]. unfold GET_TRAP_CACHE. run MEMORY_REF_ok; [|exact Ec].
    unfold lookup_variable_cache, GET_CACHE_VALUE. run MEMORY_REF_ok; [|exact Ev].
    erewrite andthen_return by (now apply get_trap_kind_value with sh).
    exists (read_value v, h). split; [|split; [reflexivity|exists (Some c), frame; split; [exact R|exists v; split; [unfold value_of; now rewrite L|reflexivity]]]].
    unfold read_value. destruct (value_kind_cases v) as [K|[K|[K|K]]]; rewrite K; reflexivity.
Qed.
