(* ===== verification/Variables.v ===== *)
(** * lookup.c: what changes when a variable does

    The proofs about assignment, definition, linking and removal.  The state
    of the variables has three parts: the cell of a name in each frame, which
    cells share a value, and the values.  Each operation is described by what
    it does to the three. *)

From Stdlib Require Import ZArith List Bool Lia.
From S2P Require Import Prelude Object Heap Intern Environment Lookup.
Import ListNotations.

#[local] Open Scope Z_scope.
#[local] Open Scope heap_scope.

(** ** Evolution of the heap

    The operations write to words of environments only and allocate. *)

Definition environment_word (sh : shape) (a : address) : Prop :=
  match sh (fst a) with
  | KFrame _ _ => True
  | KExtension _ => True
  | KBinding _ => True
  | KSymbol => snd a = SYMBOL_GLOBAL_VALUE
  | KTrap => True
  | KCache => True
  | _ => False
  end.

Inductive evolves (h : heap) (sh : shape) : heap -> shape -> Prop :=
| evolves_refl : evolves h sh h sh
| evolves_stored h' sh' a v : evolves h sh h' sh' -> environment_word sh' a -> evolves h sh (stored h' a v) sh'
| evolves_allocated h' sh' words k : evolves h sh h' sh' ->
    evolves h sh (allocated h' words) (extended sh' (length (blocks h')) k)
| evolves_gc h' sh' n : evolves h sh h' sh' -> evolves h sh (REQUEST_GC n h') sh'.

Lemma evolves_trans h1 s1 h2 s2 h3 s3 : evolves h1 s1 h2 s2 -> evolves h2 s2 h3 s3 -> evolves h1 s1 h3 s3.
Proof. intros A B. induction B; try constructor; auto. Qed.

Lemma environment_word_outside sh a : environment_word sh a -> ~ table_address sh a.
Proof. unfold environment_word. intros H [E|(i & E)]; rewrite E in H; contradiction. Qed.

Lemma environment_word_names h h' sh : changes (environment_word sh) h h' ->
  forall s nm, symbol_named h' sh s nm <-> symbol_named h sh s nm.
Proof.
  intros C s nm. assert (Out : forall a, environment_word sh a -> sh (fst a) <> KString /\ (sh (fst a) = KSymbol -> snd a <> SYMBOL_NAME)).
  { intros a. unfold environment_word. destruct (sh (fst a)); try contradiction; intros H; split; try discriminate. intros _. rewrite H. discriminate. }
  split; apply symbol_named_changes with (environment_word sh); auto. now apply changes_sym.
Qed.

Lemma changes_gc P n h : changes P h (REQUEST_GC n h).
Proof. now constructor. Qed.

Lemma evolves_obarray h sh h' sh' ob n : evolves h sh h' sh' -> obarray_ok h sh ob n -> obarray_ok h' sh' ob n.
Proof.
  intros E O. induction E as [|h1 s1 a v E IH Ea|h1 s1 w k E IH|h1 s1 m E IH]; [exact O| | |].
  - assert (C : changes (environment_word s1) h1 (stored h1 a v)) by now apply changes_stored.
    apply (obarray_outside _ h1 _ s1 ob n C); auto using environment_word_outside. now apply environment_word_names.
  - apply obarray_grows with h1 s1; [apply grows_allocated|exact IH].
  - assert (C : changes (environment_word s1) h1 (REQUEST_GC m h1)) by apply changes_gc.
    apply (obarray_outside _ h1 _ s1 ob n C); auto using environment_word_outside. now apply environment_word_names.
Qed.

Lemma evolves_interned h sh h' sh' ob n name s : evolves h sh h' sh' -> obarray_ok h sh ob n ->
  (interned h' sh' ob n name s <-> interned h sh ob n name s).
Proof.
  intros E O. induction E as [|h1 s1 a v E IH Ea|h1 s1 w k E IH|h1 s1 m E IH]; [reflexivity| | |];
    pose proof (evolves_obarray _ _ _ _ _ _ E O) as O1; rewrite <- IH.
  - assert (C : changes (environment_word s1) h1 (stored h1 a v)) by now apply changes_stored.
    apply (interned_outside _ h1 _ s1 ob n _ _ (obarray_shape _ _ _ _ O1) C); auto using environment_word_outside. now apply environment_word_names.
  - apply interned_grows; [exact O1|apply grows_allocated].
  - assert (C : changes (environment_word s1) h1 (REQUEST_GC m h1)) by apply changes_gc.
    apply (interned_outside _ h1 _ s1 ob n _ _ (obarray_shape _ _ _ _ O1) C); auto using environment_word_outside. now apply environment_word_names.
Qed.

Lemma evolves_non_object h sh h' sh' : evolves h sh h' sh' -> non_object h' = non_object h.
Proof. induction 1 as [|h1 s1 a v E IH Ea| |]; auto. rewrite <- IH. unfold stored. now destruct (block_of h1 (fst a)). Qed.

(** ** Cells of frames *)

Lemma evolves_gc_enabled h sh h' sh' : evolves h sh h' sh' -> gc_enabled h' = gc_enabled h.
Proof. induction 1; [reflexivity| |exact IHevolves|exact IHevolves]. unfold stored. now destruct (block_of _ _). Qed.

Lemma cell_content_ok h sh a w : well_formed h sh -> is_cell sh a -> content h a = Some w -> cell_ok sh w.
Proof.
  destruct a as [b i]. intros W C E. unfold is_cell in C. cbn [fst snd] in C. destruct (sh b) eqn:K; try contradiction.
  - subst i. destruct (symbol_content h sh b W K) as (v & Ev & V). congruence.
  - shaped W K. destruct B as [_ (hd & fn & args & -> & _ & F & _)]. rewrite (content_of _ _ _ _ Eb) in E.
    destruct i as [|[|i]]; unfold ENVIRONMENT_FIRST_ARG in C; try lia. cbn [nth_error] in E. rewrite Forall_forall in F.
    apply F. now apply nth_error_In with i.
  - subst i. destruct (binding_content h sh b name W K) as (v & Ev & V). congruence.
Qed.

Lemma slots_same sh sh' slots defined : extends sh sh' -> Forall2 (binding_of sh) slots defined ->
  flat_map (slot_binding sh') slots = flat_map (slot_binding sh) slots.
Proof.
  intros X. induction 1 as [|s n slots df (q & -> & E) F IH]; [reflexivity|]. cbn [flat_map slot_binding].
  rewrite E, IH. rewrite (extends_kind _ _ _ _ X E) by discriminate. reflexivity.
Qed.

Lemma extension_cells_same h sh h' sh' f names parent : well_formed h sh -> sh f = KFrame names parent -> extends sh sh' ->
  content h' (f, ENVIRONMENT_FUNCTION) = content h (f, ENVIRONMENT_FUNCTION) ->
  (forall e, sh e = KExtension f -> block_of h' e = block_of h e) ->
  extension_cells h' sh' f = extension_cells h sh f.
Proof.
  intros W E X Ef Ee. unfold extension_cells. rewrite Ef.
  destruct (frame_function _ _ _ _ _ W E) as (fn & -> & [(t & p & -> & Nt & _)|(e & -> & K)]).
  - destruct (Z.eqb_spec t TC_VECTOR); [contradiction|reflexivity].
  - rewrite Z.eqb_refl. destruct (extension_read _ _ _ _ _ _ W E K) as (slots & free & S).
    assert (extension_slots h' e = slots) as ->.
    { rewrite <- (extension_slots_ok _ _ _ _ _ _ _ _ S). unfold extension_slots. now rewrite (Ee e K). }
    rewrite (extension_slots_ok _ _ _ _ _ _ _ _ S). destruct (extension_defined _ _ _ _ _ _ _ _ S) as (df & F & _).
    now apply slots_same with df.
Qed.

Lemma parameters_same h h' sh f names parent fu : sh f = KFrame names parent ->
  (fu = true \/ forall name a, is_cell sh a -> fst a = f -> visible_cell h' false (name, a) = visible_cell h false (name, a)) ->
  filter (visible_cell h' fu) (numbered names f 0) = filter (visible_cell h fu) (numbered names f 0).
Proof.
  intros E H. apply filter_ext_in. intros [name a] I. destruct H as [->|H]; [reflexivity|].
  unfold visible_cell in *. cbn [snd] in *. destruct fu; [reflexivity|]. apply (H name).
  - apply in_numbered in I as (j & _ & Ea). cbn [snd] in Ea. subst a. unfold is_cell. cbn [fst snd]. rewrite E. lia.
  - apply in_numbered in I as (j & _ & Ea). cbn [snd] in Ea. now subst a.
Qed.

Lemma local_cell_same h sh h' sh' t f names parent s fu : well_formed h sh -> sh f = KFrame names parent -> extends sh sh' ->
  content h' (f, ENVIRONMENT_FUNCTION) = content h (f, ENVIRONMENT_FUNCTION) ->
  (forall e, sh e = KExtension f -> block_of h' e = block_of h e) ->
  (fu = true \/ forall name a, is_cell sh a -> fst a = f -> visible_cell h' false (name, a) = visible_cell h false (name, a)) ->
  local_cell h' sh' (Pointer t f) s fu = local_cell h sh (Pointer t f) s fu.
Proof.
  intros W E X Ef Ee V. unfold local_cell, frame_cells. rewrite (extends_kind _ _ _ _ X E) by discriminate. rewrite E.
  rewrite (extension_cells_same h sh h' sh' f names parent) by assumption.
  now rewrite (parameters_same h h' sh f names parent fu).
Qed.

Lemma location_same h sh h' sh' c : extends sh sh' -> content h' c = content h c ->
  (forall w, content h c = Some w -> cell_ok sh w) ->
  (forall t, sh t = KTrap -> content h' (t, TRAP_EXTRA) = content h (t, TRAP_EXTRA)) ->
  location h' sh' c = location h sh c.
Proof.
  intros X Ec Ok T. unfold location. rewrite Ec. destruct (content h c) as [w|]; [|reflexivity]. specialize (Ok w eq_refl).
  destruct w as [|ty b]; [reflexivity|]. destruct (Z.eqb_spec ty TC_REFERENCE_TRAP) as [->|]; [|reflexivity].
  destruct Ok as [[H|[H|[H|(m & [= <-] & K)]]]|(t & [= <-] & K)]; try discriminate.
  - rewrite (extends_kind _ _ _ _ X K) by discriminate. now rewrite K.
  - rewrite (extends_kind _ _ _ _ X K) by discriminate. rewrite K, T by exact K. reflexivity.
Qed.

(** ** Storing a value *)

(** The places values are kept in. *)
Definition is_location (sh : shape) (a : address) : Prop := is_cell sh a \/ (sh (fst a) = KCache /\ snd a = 0%nat).

Lemma location_ok h sh c w : well_formed h sh -> is_cell sh c -> content h c = Some w ->
  is_location sh (location h sh c) /\ exists v, content h (location h sh c) = Some v /\ value_ok sh v.
Proof.
  intros W C E. destruct (cell_cases h sh c w W E) as [[V L]|(t & -> & K)]; [now apply cell_content_ok with h c| |].
  - rewrite L. split; [now left|now exists w].
  - destruct (cached_cell h sh c t W E K) as [_ (tc & b & v & _ & Kb & -> & Ev & V)]. split; [now right|now exists v].
Qed.

Lemma Forall_update {A} (P : A -> Prop) n x l : P x -> Forall P l -> Forall P (update n x l).
Proof.
  intros Px F. revert n. induction F as [|y l Py F IH]; intros n; [destruct n; constructor|]. destruct n; cbn [update]; constructor; auto.
Qed.

Lemma well_formed_cell_stored h sh c v w : well_formed h sh -> is_cell sh c -> content h c = Some w -> cell_ok sh v ->
  well_formed (stored h c v) sh.
Proof.
  destruct c as [b i]. intros W C E V. destruct (content_block _ _ _ _ E) as (words & Eb & _).
  apply well_formed_stored with words; auto. specialize (W b). rewrite Eb in W.
  unfold is_cell in C. unfold block_ok in *. cbn [fst snd] in C. destruct (sh b) eqn:K; try contradiction.
  - subst i. destruct W as (n & u & r & -> & U). exists n, v, r. split; [reflexivity|exact V].
  - destruct W as [P (hd & fn & args & -> & L & F & R)]. destruct i as [|[|i]]; unfold ENVIRONMENT_FIRST_ARG in C; try lia.
    constructor; [exact P|]. exists hd, fn, (update i v args). split; [reflexivity|]. rewrite length_update. split; [exact L|].
    split; [now apply Forall_update|exact R].
  - subst i. destruct W as (u & -> & U). exists v. split; [reflexivity|exact V].
Qed.

Lemma well_formed_cache_stored h sh b v : well_formed h sh -> sh b = KCache -> value_ok sh v -> well_formed (stored h (b, 0%nat) v) sh.
Proof.
  intros W K V. shaped W K. apply well_formed_stored with words; auto. unfold block_ok. rewrite K.
  destruct B as (u & t & r & rest & -> & U & Kr). exists v, t, r, rest. repeat split; auto.
Qed.

Lemma well_formed_location_stored h sh a v w : well_formed h sh -> is_location sh a -> content h a = Some w -> value_ok sh v ->
  well_formed (stored h a v) sh.
Proof.
  intros W [C|[K Z]] E V; [apply well_formed_cell_stored with w; auto; now left|]. destruct a as [b i]. cbn [fst snd] in *. subst i.
  now apply well_formed_cache_stored.
Qed.

Lemma location_word sh a : is_location sh a -> environment_word sh a.
Proof. intros [C|[K _]]; unfold environment_word, is_cell in *; [|now rewrite K]. destruct (sh (fst a)); auto. Qed.

(** A location is no part of the structure of frames. *)
Lemma location_structure h sh a v : is_location sh a -> forall h', h' = stored h a v ->
  (forall f names parent, sh f = KFrame names parent -> content h' (f, ENVIRONMENT_FUNCTION) = content h (f, ENVIRONMENT_FUNCTION)) /\
  (forall f e, sh e = KExtension f -> block_of h' e = block_of h e) /\
  (forall t, sh t = KTrap -> content h' (t, TRAP_EXTRA) = content h (t, TRAP_EXTRA)).
Proof.
  destruct a as [b i]. intros L h' ->. repeat split.
  - intros f names parent E. apply content_stored_ne. intros [= <- <-]. destruct L as [C|[K _]]; [|cbn [fst] in K; congruence].
    unfold is_cell in C. cbn [fst snd] in C. rewrite E in C. unfold ENVIRONMENT_FIRST_ARG, ENVIRONMENT_FUNCTION in C. lia.
  - intros f e E. rewrite block_stored. destruct (Nat.eqb_spec b e) as [->|]; [|reflexivity].
    destruct L as [C|[K _]]; [|cbn [fst] in K; congruence]. unfold is_cell in C. cbn [fst snd] in C. now rewrite E in C.
  - intros t E. apply content_stored_ne. intros [= <- <-].
    destruct L as [C|[K _]]; [|cbn [fst] in K; congruence]. unfold is_cell in C. cbn [fst snd] in C. now rewrite E in C.
Qed.

Lemma local_cell_stored h sh a v t f names parent s fu : well_formed h sh -> sh f = KFrame names parent -> is_location sh a ->
  (fu = true \/ forall name, visible_cell (stored h a v) false (name, a) = visible_cell h false (name, a)) ->
  local_cell (stored h a v) sh (Pointer t f) s fu = local_cell h sh (Pointer t f) s fu.
Proof.
  intros W E L V. destruct (location_structure h sh a v L _ eq_refl) as (S1 & S2 & S3).
  apply local_cell_same with names parent; auto using extends_refl.
  - now apply S1 with names parent.
  - intros e K. now apply S2 with f.
  - destruct V as [->|V]; [now left|right]. intros name c C Fc. destruct (address_eq_dec c a) as [->|Ne]; [apply V|].
    unfold visible_cell. cbn [snd]. now rewrite content_stored_ne.
Qed.

(** [v] becomes the value of the variables that share the location [a]. *)
Record value_stored (h : heap) (sh : shape) (a : address) (v : object) (h' : heap) : Prop := {
  vs_well_formed : well_formed h' sh;
  vs_evolves : evolves h sh h' sh;
  vs_location : forall c w, is_cell sh c -> content h c = Some w -> location h' sh c = location h sh c;
  vs_value : forall c w, is_cell sh c -> content h c = Some w ->
    value_of h' sh c = if address_eq_dec (location h sh c) a then Some v else value_of h sh c;
  vs_cells : forall t f names parent s, sh f = KFrame names parent ->
    local_cell h' sh (Pointer t f) s true = local_cell h sh (Pointer t f) s true;
  vs_visible : (content h a = Some UNBOUND_OBJECT <-> v = UNBOUND_OBJECT) ->
    forall t f names parent s, sh f = KFrame names parent ->
    local_cell h' sh (Pointer t f) s false = local_cell h sh (Pointer t f) s false
}.

Lemma store_value h sh c v w : well_formed h sh -> is_cell sh c -> content h c = Some w -> value_ok sh v ->
  value_stored h sh (location h sh c) v (stored h (location h sh c) v).
Proof.
  intros W C E V. destruct (location_ok h sh c w W C E) as [L (u & Eu & U)]. set (a := location h sh c) in *.
  destruct (location_structure h sh a v L _ eq_refl) as (S1 & S2 & S3).
  assert (Loc : forall d x, is_cell sh d -> content h d = Some x -> location (stored h a v) sh d = location h sh d).
  { intros d x D Ed. destruct (address_eq_dec d a) as [->|Ne].
    - rewrite (location_value h sh a u Eu U). apply location_value with v; [now apply content_stored_eq with u|exact V].
    - apply location_same; auto using extends_refl; [now apply content_stored_ne|]. intros y Ey. now apply cell_content_ok with h d. }
  constructor.
  - now apply well_formed_location_stored with u.
  - apply evolves_stored; [constructor|now apply location_word].
  - exact Loc.
  - intros d x D Ed. unfold value_of. rewrite (Loc d x D Ed). destruct (address_eq_dec (location h sh d) a) as [->|Ne].
    + now apply content_stored_eq with u.
    + now apply content_stored_ne.
  - intros t f names parent s K. apply local_cell_stored with names parent; auto.
  - intros Iff t f names parent s K. apply local_cell_stored with names parent; auto. right. intros name. unfold visible_cell. cbn [snd orb].
    rewrite content_stored_eq with (old := u) by exact Eu. rewrite Eu in *. f_equal.
    destruct Iff as [I1 I2]. destruct (object_eqb_spec v UNBOUND_OBJECT) as [Hv|Hv], (object_eqb_spec u UNBOUND_OBJECT) as [Hu|Hu];
      try congruence; exfalso; ((specialize (I2 Hv); congruence) || (specialize (I1 (f_equal Some Hu)); congruence)).
Qed.

(** ** Searches that meet the same cells *)

Lemma resolves_same h sh h' sh' s : well_formed h sh -> extends sh sh' ->
  (forall f names parent, sh f = KFrame names parent ->
     local_cell h' sh' (Pointer TC_ENVIRONMENT f) s false = local_cell h sh (Pointer TC_ENVIRONMENT f) s false) ->
  forall env c frame, resolves h sh s env c frame -> resolves h' sh' s env c frame.
Proof.
  intros W X Same env c frame R. induction R as [|f nm pa c E L|f nm E L|f nm pa c fr E L R IH].
  - constructor.
  - apply resolves_here with nm pa; [kinds X|]. now rewrite Same with (1 := E).
  - apply resolves_end with nm; [kinds X|]. now rewrite Same with (1 := E).
  - apply resolves_parent with nm pa; [kinds X| |exact IH]. now rewrite Same with (1 := E).
Qed.

Lemma resolves_total h sh s env : well_formed h sh -> symbol_ok sh s -> environment_ok sh env -> exists c frame, resolves h sh s env c frame.
Proof. intros W Sy E. destruct (find_binding_cell_ok h sh s env W Sy E) as (c & f & _ & R). eauto. Qed.

Lemma denotes_total h sh s env : well_formed h sh -> symbol_ok sh s -> environment_ok sh env -> exists r, denotes h sh env s r.
Proof.
  intros W Sy E. destruct (resolves_total h sh s env W Sy E) as ([c|] & f & R).
  - destruct (resolves_cell _ _ _ _ _ _ W Sy R) as (_ & w & Ew & C). destruct (value_of_ok h sh c w W Ew C) as (v & Ev & _).
    exists (read_value v), (Some c), f. split; [exact R|now exists v].
  - exists (ERR_UNBOUND_VARIABLE, None), None, f. now split.
Qed.

(** ** Assignment *)

(** The fixed object [NON_OBJECT] stands for the unassigned object outside of cells. *)
Definition mapped (h : heap) (value : object) : object := if object_eqb value (non_object h) then UNASSIGNED_OBJECT else value.
Definition unmapped (h : heap) (value : object) : object := if object_eqb value UNASSIGNED_OBJECT then non_object h else value.

Lemma MAP_TO_UNASSIGNED_ok value h : MAP_TO_UNASSIGNED value h = Return (mapped h value, h).
Proof. reflexivity. Qed.

Lemma MAP_FROM_UNASSIGNED_ok value h : MAP_FROM_UNASSIGNED value h = Return (unmapped h value, h).
Proof. reflexivity. Qed.

(** The outcome of an assignment to a variable with the value [u]. *)
Definition assignable (u : object) : bool := (value_kind u =? NON_TRAP_KIND) || (value_kind u =? TRAP_UNASSIGNED).

Definition assignment (h : heap) (a : address) (u value : object) (force_p : bool) : result * heap :=
  if assignable u || force_p then ((PRIM_DONE, Some (unmapped h u)), stored h a (mapped h value))
  else ((if value_kind u =? TRAP_UNBOUND then ERR_UNBOUND_VARIABLE else ERR_MACRO_BINDING, None), h).

Lemma assign_variable_end_ok h sh c w value force_p : well_formed h sh -> content h c = Some w -> cell_ok sh w ->
  exists u, value_of h sh c = Some u /\ value_ok sh u /\
    assign_variable_end c value force_p h = Return (assignment h (location h sh c) u value force_p).
Proof.
  intros W E C. unfold assign_variable_end. run load_ok; [|exact E]. destruct (cell_cases h sh c w W E C) as [[V L]|(t & -> & K)].
  - exists w. split; [unfold value_of; now rewrite L|]. split; [exact V|]. rewrite L.
    erewrite andthen_return by (now apply get_trap_kind_value with sh). unfold assignment, assignable.
    assert (Done : (old <- MAP_FROM_UNASSIGNED w ;; value <- MAP_TO_UNASSIGNED value ;; store c value ;; ret (PRIM_DONE, Some old)) h
      = Return ((PRIM_DONE, Some (unmapped h w)), stored h c (mapped h value))).
    { erewrite andthen_return by apply MAP_FROM_UNASSIGNED_ok. erewrite andthen_return by apply MAP_TO_UNASSIGNED_ok.
      erewrite andthen_return by (apply store_ok with w; exact E). reflexivity. }
    destruct (value_kind_cases w) as [Kd|[Kd|[Kd|Kd]]]; rewrite Kd; cbn -[store MAP_FROM_UNASSIGNED MAP_TO_UNASSIGNED stored]; try exact Done;
      destruct force_p; try exact Done; reflexivity.
  - destruct (cached_cell h sh c t W E K) as [G (tc & b & v & Ec & Kc & L & Ev & V)].
    exists v. split; [unfold value_of; now rewrite L|]. split; [exact V|]. rewrite L. erewrite andthen_return by exact G.
    cbn -[GET_TRAP_CACHE assign_variable_cache assignment]. unfold GET_TRAP_CACHE. run MEMORY_REF_ok; [|exact Ec].
    unfold assign_variable_cache, GET_CACHE_VALUE, SET_CACHE_VALUE. run MEMORY_REF_ok; [|exact Ev].
    erewrite andthen_return by (now apply get_trap_kind_value with sh). unfold assignment, assignable.
    assert (Done : (old <- MAP_FROM_UNASSIGNED v ;; value <- MAP_TO_UNASSIGNED value ;; MEMORY_SET (Pointer tc b) CACHE_CELL value ;;
        ret (PRIM_DONE, Some old)) h = Return ((PRIM_DONE, Some (unmapped h v)), stored h (b, 0%nat) (mapped h value))).
    { erewrite andthen_return by apply MAP_FROM_UNASSIGNED_ok. erewrite andthen_return by apply MAP_TO_UNASSIGNED_ok.
      erewrite andthen_return by (apply MEMORY_SET_ok with v; exact Ev). reflexivity. }
    destruct (value_kind_cases v) as [Kd|[Kd|[Kd|Kd]]]; rewrite Kd; cbn -[MEMORY_SET MAP_FROM_UNASSIGNED MAP_TO_UNASSIGNED stored]; try exact Done;
      destruct force_p; try exact Done; reflexivity.
Qed.

(** Two names in two environments are the same variable. *)
Definition same_variable (h : heap) (sh : shape) (env s env' s' : object) : Prop :=
  exists c f c' f', resolves h sh s env (Some c) f /\ resolves h sh s' env' (Some c') f' /\ location h sh c = location h sh c'.

(** [value] may be stored by the functions here. *)
Definition storable (h : heap) (sh : shape) (value : object) : Prop :=
  value_ok sh (mapped h value) /\ mapped h value <> UNBOUND_OBJECT.

(** The new value of a variable, and nothing else, changes. *)
Record assigned (h : heap) (sh : shape) (env s v : object) (h' : heap) : Prop := {
  assigned_well_formed : well_formed h' sh;
  assigned_evolves : evolves h sh h' sh;
  assigned_variable : forall env' s', symbol_ok sh s' -> same_variable h sh env s env' s' -> denotes h' sh env' s' (read_value v);
  assigned_others : forall env' s' r, symbol_ok sh s' -> ~ same_variable h sh env s env' s' ->
    (denotes h' sh env' s' r <-> denotes h sh env' s' r);
  assigned_same : forall e1 s1 e2 s2, symbol_ok sh s1 -> symbol_ok sh s2 ->
    (same_variable h' sh e1 s1 e2 s2 <-> same_variable h sh e1 s1 e2 s2)
}.

Lemma read_value_done v r : read_value v = (PRIM_DONE, r) -> assignable v = true /\ r = Some v.
Proof.
  unfold read_value, assignable. destruct (value_kind_cases v) as [K|[K|[K|K]]]; rewrite K; cbn; intros [= <-]. now split.
Qed.

Lemma stored_assigned h sh env s c f v h' : well_formed h sh -> symbol_ok sh s -> resolves h sh s env (Some c) f ->
  value_stored h sh (location h sh c) v h' ->
  (forall g names parent s, sh g = KFrame names parent ->
     local_cell h' sh (Pointer TC_ENVIRONMENT g) s false = local_cell h sh (Pointer TC_ENVIRONMENT g) s false) ->
  assigned h sh env s v h'.
Proof.
  intros W Sy R [W' Ev Loc Val _ _] Vis.
  assert (To : forall env s c f, resolves h sh s env c f -> resolves h' sh s env c f).
  { intros e1 s1 c1 f1. apply resolves_same; auto using extends_refl. intros. now apply Vis with names parent. }
  assert (From : forall env s c f, resolves h' sh s env c f -> resolves h sh s env c f).
  { intros e1 s1 c1 f1. apply resolves_same; auto using extends_refl. intros. symmetry. now apply Vis with names parent. }
  assert (Cell : forall s' env' c' f', symbol_ok sh s' -> resolves h sh s' env' (Some c') f' -> is_cell sh c' /\ exists w, content h c' = Some w).
  { intros s' env' c' f' Sy' R'. destruct (resolves_cell _ _ _ _ _ _ W Sy' R') as (C' & w' & Ew' & _). eauto. }
  constructor; auto.
  - intros env' s' Sy' (c1 & f1 & c2 & f2 & R1 & R2 & L). destruct (resolves_unique _ _ _ _ _ _ _ _ R R1) as [[= <-] _].
    destruct (Cell _ _ _ _ Sy' R2) as (C2 & w2 & Ew2). exists (Some c2), f2. split; [now apply To|]. exists v. split; [|reflexivity].
    rewrite (Val c2 w2 C2 Ew2), L. now destruct (address_eq_dec _ _).
  - intros env' s' r Sy' Ns.
    assert (Same : forall c2 f2, resolves h sh s' env' (Some c2) f2 -> value_of h' sh c2 = value_of h sh c2).
    { intros c2 f2 R2. destruct (Cell _ _ _ _ Sy' R2) as (C2 & w2 & Ew2). rewrite (Val c2 w2 C2 Ew2).
      destruct (address_eq_dec (location h sh c2) (location h sh c)) as [L|]; [|reflexivity]. exfalso. apply Ns. now exists c, f, c2, f2. }
    split; intros (c2 & f2 & R2 & D).
    + exists c2, f2. pose proof (From _ _ _ _ R2) as R2'. split; [exact R2'|]. destruct c2 as [c2|]; [|exact D].
      now rewrite <- (Same c2 f2).
    + exists c2, f2. split; [now apply To|]. destruct c2 as [c2|]; [|exact D]. now rewrite (Same c2 f2).
  - intros e1 s1 e2 s2 Sy1 Sy2. split; intros (c1 & f1 & c2 & f2 & R1 & R2 & L); exists c1, f1, c2, f2.
    + pose proof (From _ _ _ _ R1) as R1'. pose proof (From _ _ _ _ R2) as R2'. split; [exact R1'|]. split; [exact R2'|].
      destruct (Cell _ _ _ _ Sy1 R1') as (C1 & w1 & E1), (Cell _ _ _ _ Sy2 R2') as (C2 & w2 & E2).
      now rewrite (Loc c1 w1 C1 E1), (Loc c2 w2 C2 E2) in L.
    + destruct (Cell _ _ _ _ Sy1 R1) as (C1 & w1 & E1), (Cell _ _ _ _ Sy2 R2) as (C2 & w2 & E2).
      split; [now apply To|]. split; [now apply To|]. now rewrite (Loc c1 w1 C1 E1), (Loc c2 w2 C2 E2).
Qed.

Lemma assign_cell h sh env s c f u v : well_formed h sh -> symbol_ok sh s -> resolves h sh s env (Some c) f ->
  value_of h sh c = Some u -> assignable u = true -> value_ok sh v -> v <> UNBOUND_OBJECT ->
  assigned h sh env s v (stored h (location h sh c) v).
Proof.
  intros W Sy R Eu As V Nu. destruct (resolves_cell _ _ _ _ _ _ W Sy R) as (C & w & Ew & Ok).
  pose proof (store_value h sh c v w W C Ew V) as St. apply stored_assigned with c f; auto.
  intros g names parent s' Eg. apply (vs_visible _ _ _ _ _ St) with names parent; [|exact Eg].
  split; [|contradiction]. unfold value_of in Eu. rewrite Eu. intros [= ->]. discriminate.
Qed.

(** [ENVIRONMENT_P] and [SYMBOL_P] of what the operations are given. *)
Lemma environment_ok_p sh env : environment_ok sh env -> ENVIRONMENT_P env = true.
Proof. intros [->|(f & nm & pa & -> & _)]; reflexivity. Qed.

Lemma symbol_ok_p sh s : symbol_ok sh s -> SYMBOL_P s = true.
Proof. now intros (t & b & -> & Sp & _). Qed.

Lemma assign_variable_ok h sh env s value : well_formed h sh -> environment_ok sh env -> symbol_ok sh s -> storable h sh value ->
  returns (assign_variable env s value h) (fun '((code, old), h') =>
    (exists u, denotes h sh env s (read_value u) /\ assignable u = true /\ code = PRIM_DONE /\ old = Some (unmapped h u) /\
       assigned h sh env s (mapped h value) h') \/
    (code <> PRIM_DONE /\ old = None /\ h' = h /\ exists v, denotes h sh env s (code, v))).
Proof.
  intros W E Sy [V Nu]. unfold assign_variable. rewrite (environment_ok_p _ _ E). cbn [orb negb].
  destruct (find_binding_cell_ok h sh s env W Sy E) as (cell & frame & Ef & R). erewrite andthen_return by exact Ef.
  destruct cell as [c|].
  2:{ ret_now. right. repeat split; [discriminate|]. exists None, None, frame. now split. }
  destruct (resolves_cell _ _ _ _ _ _ W Sy R) as (C & w & Ew & Ok).
  destruct (assign_variable_end_ok h sh c w value false W Ew Ok) as (u & Eu & Vu & ->). unfold assignment. rewrite orb_false_r.
  assert (D : denotes h sh env s (read_value u)) by (exists (Some c), frame; split; [exact R|now exists u]).
  destruct (assignable u) eqn:As.
  - ret_now. left. exists u. do 4 (split; [assumption || reflexivity|]). now apply assign_cell with frame u.
  - ret_now. right. unfold assignable in As. unfold read_value in D.
    destruct (value_kind_cases u) as [K|[K|[K|K]]]; rewrite K in *; try discriminate; repeat split; try discriminate; eexists; exact D.
Qed.

(** ** Changes that no variable shows *)

(** Contents kept keep the values of variables. *)
Definition contents_kept (h : heap) (sh : shape) (h' : heap) : Prop :=
  forall a o, is_location sh a \/ sh (fst a) = KTrap -> content h a = Some o -> content h' a = Some o.

Record same_variables (h : heap) (sh : shape) (h' : heap) (sh' : shape) : Prop := {
  sv_content : contents_kept h sh h';
  sv_cells : forall t f names parent s fu, sh f = KFrame names parent ->
    local_cell h' sh' (Pointer t f) s fu = local_cell h sh (Pointer t f) s fu
}.

Lemma same_variables_refl h sh : same_variables h sh h sh.
Proof. now constructor. Qed.

Lemma kept_location h sh h' sh' c w : well_formed h sh -> extends sh sh' -> contents_kept h sh h' -> is_cell sh c -> content h c = Some w ->
  location h' sh' c = location h sh c.
Proof.
  intros W X S C E. apply location_same; auto.
  - rewrite E. apply S; [now left; left|exact E].
  - intros x Ex. now apply cell_content_ok with h c.
  - intros t K. shaped W K. destruct B as (tg & tc & b & rest & -> & _).
    assert (Et : content h (t, TRAP_EXTRA) = Some (Pointer tc b)) by word Eb. rewrite Et. apply S; [now right|exact Et].
Qed.

Lemma kept_value h sh h' sh' c w : well_formed h sh -> extends sh sh' -> contents_kept h sh h' -> is_cell sh c -> content h c = Some w ->
  value_of h' sh' c = value_of h sh c.
Proof.
  intros W X S C E. unfold value_of. rewrite (kept_location h sh h' sh' c w) by assumption.
  destruct (location_ok h sh c w W C E) as (L & v & Ev & _). rewrite Ev. apply S; [now left|exact Ev].
Qed.

(** ** Allocating and filling a block *)

Lemma stored_allocated h words i v : stored (allocated h words) (length (blocks h), i) v = allocated h (update i v words).
Proof.
  unfold stored. cbn [fst snd]. rewrite block_allocated_new. unfold allocated, with_blocks. cbn [blocks available gc_enabled gc_space_needed non_object obarray].
  rewrite length_update. f_equal. induction (blocks h) as [|b bs IH]; [reflexivity|]. cbn [length app update]. now rewrite IH.
Qed.

Lemma new_word h words i o : nth_error words i = Some o -> content (allocated h words) (length (blocks h), i) = Some o.
Proof. intros E. apply content_nth with words; [apply block_allocated_new|exact E]. Qed.

Lemma update_app {A} (pre : list A) x y post : update (length pre) x (pre ++ y :: post) = pre ++ x :: post.
Proof. induction pre as [|a pre IH]; [reflexivity|]. cbn [length app update]. now rewrite IH. Qed.

(** [memcpy] from block [e] to the new block. *)
Lemma copy_words_ok h e : forall src pre old post epre epost, length old = length src -> (e < length (blocks h))%nat ->
  block_of h e = Some (epre ++ src ++ epost) ->
  copy_words (length src) (length (blocks h), length pre) (e, length epre) (allocated h (pre ++ old ++ post)) =
    Return (tt, allocated h (pre ++ src ++ post)).
Proof.
  induction src as [|x src IH]; intros pre [|y old] post epre epost L He Ee; try discriminate; [reflexivity|].
  cbn [length copy_words app] in *. run load_ok.
  2:{ apply content_nth with (epre ++ x :: src ++ epost); [rewrite block_allocated_old; [exact Ee|exact He]|].
      now rewrite nth_error_app2, Nat.sub_diag by lia. }
  run store_ok; [|apply new_word; now rewrite nth_error_app2, Nat.sub_diag by lia].
  rewrite stored_allocated, update_app. unfold next. cbn [fst snd].
  specialize (IH (pre ++ [x]) old post (epre ++ [x]) epost). rewrite !length_app in IH. cbn [length] in IH.
  rewrite !Nat.add_1_r, <- !app_assoc in IH. cbn [app] in IH. apply IH; auto.
Qed.

Lemma fixnum_word n : 0 <= n < 2 ^ 58 -> LONG_TO_UNSIGNED_FIXNUM n = Immediate (Object.LONG_TO_UNSIGNED_FIXNUM n) /\
  Object.OBJECT_DATUM (Object.LONG_TO_UNSIGNED_FIXNUM n) = n.
Proof.
  intros H. split; [reflexivity|]. unfold Object.LONG_TO_UNSIGNED_FIXNUM. rewrite to_ulong_small by lia.
  apply OBJECT_DATUM_MAKE; [unfold TC_FIXNUM; lia|exact H].
Qed.

Lemma vector_header n : 0 <= n < 2 ^ 58 -> exists w, MAKE_OBJECT TC_MANIFEST_VECTOR n = Immediate w /\ Object.OBJECT_DATUM w = n.
Proof. intros H. exists (Object.MAKE_OBJECT TC_MANIFEST_VECTOR n). split; [reflexivity|]. apply OBJECT_DATUM_MAKE; [unfold TC_MANIFEST_VECTOR, TC_FALSE; lia|exact H]. Qed.

(** The words [allocate_frame_extension] leaves in the new vector. *)
Definition new_extension (length : nat) (parent procedure : object) (count : Z) (slots : list object) : list object :=
  MAKE_OBJECT TC_MANIFEST_VECTOR (Z.of_nat length) :: parent :: procedure :: LONG_TO_UNSIGNED_FIXNUM count :: slots.

Lemma allocate_frame_extension_ok h sh names parent t p length : well_formed h sh -> sh p = KProcedure names parent ->
  0 <= length -> (GC_NEEDED_P (4 + length) h = false) ->
  allocate_frame_extension length (Pointer t p) h =
    Return ((PRIM_DONE, Some (Pointer TC_VECTOR (List.length (blocks h)))),
            allocated h (new_extension (3 + Z.to_nat length) parent (Pointer t p) 0 (repeat SHARP_F (Z.to_nat length)))).
Proof.
  intros W E Hl G. unfold allocate_frame_extension, GC_CHECK. change (Z.of_nat ENV_EXTENSION_MIN_SIZE) with 4. rewrite G.
  replace (Z.to_nat (4 + length - 1)) with (3 + Z.to_nat length)%nat by lia. unfold make_vector, make_marked_vector.
  rewrite !andthen_assoc. erewrite andthen_return by reflexivity. erewrite andthen_return by apply allocate_ok.
  assert (Lp : (p < List.length (blocks h))%nat) by (shaped W E; now apply block_lt with words).
  erewrite andthen_return with (a := parent).
  2:{ shaped W E. destruct B as (tl & l & rest & -> & _). apply MEMORY_REF_ok. apply content_allocated. word Eb. }
  unfold SET_FRAME_EXTENSION_PARENT_FRAME, SET_FRAME_EXTENSION_PROCEDURE, SET_FRAME_EXTENSION_LENGTH.
  run MEMORY_SET_ok; [|now apply new_word]. rewrite stored_allocated.
  run MEMORY_SET_ok; [|now apply new_word]. rewrite stored_allocated.
  run MEMORY_SET_ok; [|now apply new_word]. rewrite stored_allocated. reflexivity.
Qed.

(** ** Extensions *)

Lemma GET_FRAME_PROCEDURE_ok h t f fn : content h (f, ENVIRONMENT_FUNCTION) = Some fn -> GET_FRAME_PROCEDURE (Pointer t f) h = Return (fn, h).
Proof. intros E. now apply MEMORY_REF_ok. Qed.

(** A new extension block takes its place in the frame [f]. *)
Lemma install_extension h sh f names parent words slots free : well_formed h sh -> sh f = KFrame names parent ->
  let n := length (blocks h) in let sh' := extended sh n (KExtension f) in
  extension_words sh' f slots free words -> flat_map (slot_binding sh) slots = extension_cells h sh f ->
  (exists defined, Forall2 (binding_of sh) slots defined) ->
  let h' := stored (allocated h words) (f, ENVIRONMENT_FUNCTION) (Pointer TC_VECTOR n) in
  well_formed h' sh' /\ extends sh sh' /\ evolves h sh h' sh' /\ same_variables h sh h' sh' /\
  content h' (f, ENVIRONMENT_FUNCTION) = Some (Pointer TC_VECTOR n) /\ block_of h' n = Some words.
Proof.
  intros W E n sh' Ew Sl (df & F) h'. assert (X : extends sh sh') by now apply extended_extends.
  assert (W1 : well_formed (allocated h words) sh').
  { apply well_formed_allocated; [exact W|]. unfold block_ok. rewrite extended_new. now exists slots, free. }
  assert (Lf : (f < n)%nat) by now apply (frame_allocated h sh f names parent).
  assert (E' : sh' f = KFrame names parent) by kinds X.
  destruct (frame_function _ _ _ _ _ W E) as (fn & Efn & _).
  assert (Efn1 : content (allocated h words) (f, ENVIRONMENT_FUNCTION) = Some fn) by now apply content_allocated.
  assert (W' : well_formed h' sh').
  { pose proof W1 as W2. shaped W2 E'. apply well_formed_stored with words0; auto. unfold block_ok. rewrite E'.
    destruct B as [P (hd & fn0 & args & -> & L & Fa & _)]. constructor; [exact P|]. exists hd, (Pointer TC_VECTOR n), args.
    repeat split; auto. right. exists n. split; [reflexivity|apply extended_new]. }
  assert (En : block_of h' n = Some words).
  { unfold h'. rewrite block_stored. destruct (Nat.eqb_spec f n); [lia|]. apply block_allocated_new. }
  assert (Ef : content h' (f, ENVIRONMENT_FUNCTION) = Some (Pointer TC_VECTOR n)) by now apply content_stored_eq with fn.
  assert (Old : forall a o, a <> (f, ENVIRONMENT_FUNCTION) -> content h a = Some o -> content h' a = Some o).
  { intros a o Ne Ea. unfold h'. rewrite content_stored_ne by exact Ne. now apply content_allocated. }
  split; [exact W'|]. split; [exact X|]. split.
  { apply evolves_stored; [apply evolves_allocated; constructor|]. unfold environment_word. cbn [fst]. now rewrite E'. }
  split; [|now split]. constructor.
  - intros a o H. apply Old. intros ->. unfold is_location, is_cell in H. cbn [fst snd] in H. rewrite E in H.
    unfold ENVIRONMENT_FIRST_ARG, ENVIRONMENT_FUNCTION in H. destruct H as [[H|[H _]]|H]; [lia|discriminate|discriminate].
  - intros t g nm pa s fu Eg. assert (Lg : (g < n)%nat) by now apply (frame_allocated h sh g nm pa).
    assert (Vis : forall name a, is_cell sh a -> fst a = g -> visible_cell h' fu (name, a) = visible_cell h fu (name, a)).
    { intros name a C Ea. unfold visible_cell. cbn [snd]. f_equal. unfold h'. rewrite content_stored_ne.
      - unfold content. rewrite block_allocated_old by (unfold n in Lg; lia). reflexivity.
      - intros ->. unfold is_cell in C. cbn [fst snd] in C. rewrite E in C. unfold ENVIRONMENT_FIRST_ARG, ENVIRONMENT_FUNCTION in C. lia. }
    destruct (Nat.eq_dec g f) as [->|Ng].
    + unfold local_cell, frame_cells. rewrite (extends_kind _ _ _ _ X Eg), Eg by discriminate.
      rewrite <- Sl. unfold extension_cells. rewrite Ef, Z.eqb_refl.
      destruct Ew as [(nm' & pa' & tp & p & hd & ct & _ & _ & -> & _ & H2 & _ & _) _].
      unfold extension_slots. rewrite En, H2, Nat2Z.id, firstn_app, Nat.sub_diag, firstn_all, firstn_O, app_nil_r.
      assert (Sl' : flat_map (slot_binding sh') slots = flat_map (slot_binding sh) slots).
      { now apply slots_same with df. }
      rewrite Sl'. f_equal. f_equal. apply filter_ext_in. intros [name a] I. apply in_numbered in I as (j & _ & Ea). cbn [snd] in Ea. subst a.
      apply Vis; [|reflexivity]. unfold is_cell. cbn [fst snd]. rewrite Eg. lia.
    + apply local_cell_same with nm pa; auto.
      * unfold h'. rewrite content_stored_ne by congruence. unfold content. cbn [fst snd]. now rewrite block_allocated_old by (unfold n in Lg; lia).
      * intros e Ke. unfold h'. rewrite block_stored. destruct (Nat.eqb_spec f e) as [->|]; [congruence|].
        apply block_allocated_old. pose proof W as W2. shaped W2 Ke. now apply block_lt with words0.
      * destruct fu; [now left|right]. exact Vis.
Qed.

(** The extension of [f] has room for one more binding. *)
Definition room (h : heap) (sh : shape) (f : nat) (names : list object) (parent : object) : Prop :=
  exists e slots x free, content h (f, ENVIRONMENT_FUNCTION) = Some (Pointer TC_VECTOR e) /\
    sh e = KExtension f /\ extension_state h sh f e names parent slots (x :: free).

Lemma extension_lengths h sh f t e names parent slots free : content h (f, ENVIRONMENT_FUNCTION) = Some (Pointer TC_VECTOR e) ->
  extension_state h sh f e names parent slots free ->
  GET_EXTENDED_FRAME_LENGTH (Pointer t f) h = Return (zlength slots, h) /\
  GET_MAX_EXTENDED_FRAME_LENGTH (Pointer t f) h = Return (zlength slots + zlength free, h) /\
  GET_EXTENDED_FRAME_BINDINGS (Pointer t f) h = Return ((e, ENV_EXTENSION_MIN_SIZE), h).
Proof.
  intros Ef [(hd & tp & p & ct & Eb & H1 & H2 & _) _ S]. pose proof (GET_FRAME_PROCEDURE_ok h t f _ Ef) as G.
  split; [|split].
  - unfold GET_EXTENDED_FRAME_LENGTH, GET_FRAME_EXTENSION_LENGTH. erewrite andthen_return by exact G.
    run MEMORY_REF_ok; [|word Eb]. apply pure_return. unfold UNSIGNED_FIXNUM_TO_LONG. cbn [OBJECT_DATUM]. rewrite H2, to_long_small by lia. reflexivity.
  - unfold GET_MAX_EXTENDED_FRAME_LENGTH, GET_MAX_FRAME_EXTENSION_LENGTH, VECTOR_LENGTH. erewrite andthen_return by exact G. run_assoc.
    run MEMORY_REF_ok; [|word Eb]. run @pure_return; [|reflexivity]. unfold ret. cbn [OBJECT_DATUM]. rewrite H1. do 2 f_equal.
    change (Z.of_nat ENV_EXTENSION_MIN_SIZE) with 4. lia.
  - unfold GET_EXTENDED_FRAME_BINDINGS. now erewrite andthen_return by exact G.
Qed.

Lemma slots_cells h sh f e names parent slots free : content h (f, ENVIRONMENT_FUNCTION) = Some (Pointer TC_VECTOR e) ->
  extension_state h sh f e names parent slots free -> extension_cells h sh f = flat_map (slot_binding sh) slots.
Proof.
  intros Ef S. unfold extension_cells. rewrite Ef, Z.eqb_refl. now rewrite (extension_slots_ok _ _ _ _ _ _ _ _ S).
Qed.

(** The words of a new extension satisfy the invariant. *)
Lemma new_extension_words h sh f names parent tp p slots free df : well_formed h sh -> sh f = KFrame names parent -> sh p = KProcedure names parent ->
  Forall2 (binding_of sh) slots df -> NoDup df -> (forall x, In x df -> ~ In x names) ->
  zlength slots + zlength free < 2 ^ 56 -> 0 < zlength slots + zlength free ->
  extension_words (extended sh (length (blocks h)) (KExtension f)) f slots free
    (new_extension (3 + length slots + length free) parent (Pointer tp p) (zlength slots) (slots ++ free)).
Proof.
  intros W E Ep F N D L1 L2. pose proof (extended_extends h sh (KExtension f) W) as X. constructor.
  - destruct (vector_header (Z.of_nat (3 + length slots + length free))) as (w & Ew & Dw); [lia|].
    destruct (fixnum_word (zlength slots)) as [Ec Dc]; [lia|].
    exists names, parent, tp, p, w, (Object.LONG_TO_UNSIGNED_FIXNUM (zlength slots)). split; [kinds X|]. split; [kinds X|].
    split; [unfold new_extension; now rewrite Ew, Ec|]. rewrite Dw, Dc. repeat split; lia.
  - exists df. split; [|split; [exact N|]].
    + eapply Forall2_impl; [|exact F]. intros s n (q & -> & K). exists q. split; [reflexivity|kinds X].
    + intros nm pa E'. assert (E1 : extended sh (length (blocks h)) (KExtension f) f = KFrame names parent) by kinds X.
      assert (nm = names) as -> by congruence. exact D.
Qed.

(** What [guarantee_extension_space] allocates at most. *)
Definition extension_space (h : heap) (f : nat) : Z :=
  match content h (f, ENVIRONMENT_FUNCTION) with
  | Some (Pointer t e) =>
      if t =? TC_VECTOR then match block_of h e with Some words => 2 * zlength words | None => 0 end else 20
  | _ => 0
  end.

Lemma available_stored h a v : available (stored h a v) = available h.
Proof. unfold stored. now destruct (block_of h (fst a)). Qed.

Lemma gc_enabled_stored h a v : gc_enabled (stored h a v) = gc_enabled h.
Proof. unfold stored. now destruct (block_of h (fst a)). Qed.

(** The outcome of an operation that may be interrupted by a garbage
    collection before it changes anything. *)
Definition interrupted (h : heap) (code : Z) (h' : heap) : Prop := code = PRIM_INTERRUPT /\ exists n, h' = REQUEST_GC n h.

Definition space_guaranteed (h : heap) (sh : shape) (f : nat) (names : list object) (parent : object) (out : Z * heap) : Prop :=
  let '(code, h') := out in
  interrupted h code h' \/
  (code = PRIM_DONE /\ available h - extension_space h f <= available h' <= available h /\ gc_enabled h' = gc_enabled h /\
   exists sh', well_formed h' sh' /\ extends sh sh' /\ evolves h sh h' sh' /\ same_variables h sh h' sh' /\ room h' sh' f names parent).

Lemma enough_space n h : gc_enabled h = true -> GC_NEEDED_P n h = false -> n <= available h.
Proof. unfold GC_NEEDED_P, HEAP_AVAILABLE_P. intros -> G. rewrite andb_true_r, negb_false_iff, andb_true_iff in G. lia. Qed.

Lemma install_room h sh f names parent tp p slots free df : well_formed h sh -> sh f = KFrame names parent -> sh p = KProcedure names parent ->
  Forall2 (binding_of sh) slots df -> NoDup df -> (forall x, In x df -> ~ In x names) ->
  zlength slots + zlength free < 2 ^ 56 -> free <> [] -> flat_map (slot_binding sh) slots = extension_cells h sh f ->
  let words := new_extension (3 + length slots + length free) parent (Pointer tp p) (zlength slots) (slots ++ free) in
  let h' := stored (allocated h words) (f, ENVIRONMENT_FUNCTION) (Pointer TC_VECTOR (length (blocks h))) in
  exists sh', well_formed h' sh' /\ extends sh sh' /\ evolves h sh h' sh' /\ same_variables h sh h' sh' /\ room h' sh' f names parent.
Proof.
  intros W E Ep F N D L1 Nf Sl words h'. set (n := length (blocks h)) in *.
  assert (L2 : 0 < zlength slots + zlength free) by (destruct free; [contradiction|cbn [length]; lia]).
  pose proof (new_extension_words h sh f names parent tp p slots free df W E Ep F N D L1 L2) as Ew. fold words in Ew.
  destruct (install_extension h sh f names parent words slots free W E Ew Sl (ex_intro _ df F)) as (W' & X & Ev & S & Ef & En).
  fold n in W', X, Ev, S, Ef, En. fold h' in W', Ev, S, Ef, En.
  exists (extended sh n (KExtension f)). do 4 (split; [assumption|]).
  assert (E' : extended sh n (KExtension f) f = KFrame names parent) by kinds X.
  destruct (extension_read h' _ f n names parent W' E' (extended_new _ _ _)) as (slots' & free' & S').
  assert (slots' = slots /\ free' = free) as [-> ->].
  { destruct S' as [(hd & t & p' & ct & Eb & _ & H2 & _) _ _]. rewrite En in Eb. unfold words, new_extension in Eb. 
    assert (Ec : LONG_TO_UNSIGNED_FIXNUM (zlength slots) = Immediate ct) by congruence.
    assert (Es : slots ++ free = slots' ++ free') by congruence.
    destruct (fixnum_word (zlength slots)) as [Ec' Dc]; [lia|].
    assert (length slots' = length slots) as Ll by (rewrite Ec' in Ec; injection Ec as <-; lia).
    apply app_eq_app in Es. destruct Es as (l & [[-> ->]|[-> ->]]); destruct l as [|y l];
      try (rewrite length_app in Ll; cbn [length] in Ll; lia); now rewrite ?app_nil_r. }
  destruct free as [|x free]; [contradiction|]. exists n, slots, x, free. split; [exact Ef|]. split; [apply extended_new|exact S'].
Qed.

Lemma length_new_extension length parent procedure count slots :
  zlength (new_extension length parent procedure count slots) = 4 + zlength slots.
Proof. unfold new_extension. cbn [List.length]. lia. Qed.

Lemma allocate_frame_extension_gc h length procedure : GC_NEEDED_P (4 + length) h = true ->
  allocate_frame_extension length procedure h = Return ((PRIM_INTERRUPT, None), REQUEST_GC (4 + length) h).
Proof. intros G. unfold allocate_frame_extension, GC_CHECK. change (Z.of_nat ENV_EXTENSION_MIN_SIZE) with 4. now rewrite G. Qed.

Lemma guarantee_extension_space_ok h sh f names parent : well_formed h sh -> sh f = KFrame names parent ->
  gc_enabled h = true -> available h < 2 ^ 56 ->
  returns (guarantee_extension_space (Pointer TC_ENVIRONMENT f) h) (space_guaranteed h sh f names parent).
Proof.
  intros W E Gc Av. unfold guarantee_extension_space, EXTENDED_FRAME_P.
  destruct (frame_function _ _ _ _ _ W E) as (fn & Ef & Fn). pose proof (GET_FRAME_PROCEDURE_ok h TC_ENVIRONMENT f _ Ef) as G.
  erewrite andthen_return by (erewrite andthen_return by exact G; reflexivity). unfold FRAME_EXTENSION_P, VECTOR_P.
  destruct Fn as [(t & p & -> & Nt & Ep)|(e & -> & Ke)]; cbn [OBJECT_TYPE].
  - destruct (Z.eqb_spec t TC_VECTOR); [contradiction|]. erewrite andthen_return by exact G. unfold result_or_return.
    destruct (GC_NEEDED_P (4 + 16) h) eqn:Gn.
    { erewrite andthen_return by (apply allocate_frame_extension_gc; exact Gn). ret_now. left. split; [reflexivity|now exists (4 + 16)]. }
    pose proof (enough_space _ _ Gc Gn). erewrite andthen_return by (apply (allocate_frame_extension_ok h sh names parent); auto; lia).
    cbv beta iota. change (PRIM_DONE =? PRIM_DONE) with true. cbv iota. unfold SET_FRAME_EXTENSION.
    run MEMORY_SET_ok; [|apply content_allocated; exact Ef]. ret_now. right. split; [reflexivity|].
    rewrite available_stored, gc_enabled_stored. split; [unfold allocated, extension_space; rewrite Ef; cbn [available]; rewrite length_new_extension, repeat_length|split; [reflexivity|]].
    + destruct (Z.eqb_spec t TC_VECTOR); [contradiction|]. lia.
    + apply (install_room h sh f names parent t p [] (repeat SHARP_F 16) []); auto; try (constructor || discriminate || (cbn; lia)).
      unfold extension_cells. rewrite Ef. cbn [flat_map]. destruct (Z.eqb_spec t TC_VECTOR); [contradiction|reflexivity].
  - change (TC_VECTOR =? TC_VECTOR) with true. cbv iota. destruct (extension_read _ _ _ _ _ _ W E Ke) as (slots & free & S).
    destruct (extension_lengths h sh f TC_ENVIRONMENT e names parent slots free Ef S) as (G1 & G2 & G3).
    erewrite andthen_return by exact G1. erewrite andthen_return by exact G2. destruct (Z.eqb_spec (zlength slots) (zlength slots + zlength free)) as [Full|].
    2:{ ret_now. right. split; [reflexivity|]. split; [|split; [reflexivity|]].
        - unfold extension_space. rewrite Ef. change (TC_VECTOR =? TC_VECTOR) with true. cbv iota. destruct (block_of h e); lia.
        - exists sh. do 4 (split; [auto using extends_refl, evolves_refl, same_variables_refl|]). destruct free as [|x free]; [cbn [length] in *; lia|].
          now exists e, slots, x, free. }
    assert (free = []) as -> by (destruct free; [reflexivity|cbn [length] in Full; lia]).
    pose proof (slots_cells h sh f e names parent slots [] Ef S) as Sl.
    destruct S as [(hd & tp & p & ct & Eb & H1 & H2 & Ep) (df & F & N & D) (Sz1 & Sz2)]. rewrite app_nil_r in Eb.
    unfold GET_EXTENDED_FRAME_PROCEDURE, GET_FRAME_EXTENSION_PROCEDURE.
    erewrite andthen_return by (erewrite andthen_return by exact G; apply MEMORY_REF_ok; word Eb). unfold result_or_return.
    destruct (GC_NEEDED_P (4 + 2 * zlength slots) h) eqn:Gn.
    { erewrite andthen_return by (apply allocate_frame_extension_gc; exact Gn). ret_now. left. split; [reflexivity|now exists (4 + 2 * zlength slots)]. }
    pose proof (enough_space _ _ Gc Gn). erewrite andthen_return by (apply (allocate_frame_extension_ok h sh names parent); auto; lia).
    cbv beta iota. change (PRIM_DONE =? PRIM_DONE) with true. cbv iota.
    replace (Z.to_nat (2 * zlength slots)) with (length slots + length slots)%nat by lia.
    erewrite andthen_return by reflexivity. assert (Le : (e < length (blocks h))%nat) by now apply block_lt with (1 := Eb).
    erewrite andthen_return with (a := (e, 4%nat)).
    2:{ unfold GET_EXTENDED_FRAME_BINDINGS. erewrite andthen_return by (apply GET_FRAME_PROCEDURE_ok; apply content_allocated; exact Ef). reflexivity. }
    rewrite Nat2Z.id. unfold new_extension. rewrite repeat_app.
    erewrite andthen_return.
    2:{ apply (copy_words_ok h e slots [MAKE_OBJECT TC_MANIFEST_VECTOR _; parent; Pointer tp p; LONG_TO_UNSIGNED_FIXNUM 0]
          (repeat SHARP_F (length slots)) (repeat SHARP_F (length slots)) [Immediate hd; parent; Pointer tp p; Immediate ct] []);
          [apply repeat_length|exact Le|]. rewrite app_nil_r. exact Eb. }
    cbn [app]. unfold SET_FRAME_EXTENSION_LENGTH, SET_FRAME_EXTENSION.
    run MEMORY_SET_ok; [|now apply new_word]. rewrite stored_allocated. cbn [update ENV_EXTENSION_COUNT].
    run MEMORY_SET_ok; [|apply content_allocated; exact Ef]. ret_now. right. split; [reflexivity|].
    rewrite available_stored, gc_enabled_stored. split; [|split; [reflexivity|]].
    + unfold allocated, extension_space. rewrite Ef. change (TC_VECTOR =? TC_VECTOR) with true. cbv iota. rewrite Eb.
      cbn [available length]. rewrite length_app, repeat_length. lia.
    + pose proof (install_room h sh f names parent tp p slots (repeat SHARP_F (length slots)) df W E Ep F N D) as Room.
      unfold new_extension in Room. rewrite repeat_length, <- Nat.add_assoc in Room. apply Room; auto.
      * cbn [length] in *. lia.
      * destruct slots; [cbn [length] in Sz2; lia|discriminate].
Qed.

(** ** A new binding *)

(** The cell of [s] in the frame [f] is now [cell]; the cells that were there
    before keep their contents. *)
Record binding_added (h : heap) (sh : shape) (f : nat) (s w : object) (cell : address) (h' : heap) (sh' : shape) : Prop := {
  ba_well_formed : well_formed h' sh';
  ba_extends : extends sh sh';
  ba_evolves : evolves h sh h' sh';
  ba_content : contents_kept h sh h';
  ba_cell : content h' cell = Some w /\ is_cell sh' cell /\ sh' (fst cell) = KBinding s;
  ba_new : forall t fu, local_cell h' sh' (Pointer t f) s fu = Some cell;
  ba_fresh : content h cell = None;
  ba_others : forall t g names parent s' fu, sh g = KFrame names parent -> g <> f \/ s' <> s ->
    local_cell h' sh' (Pointer t g) s' fu = local_cell h sh (Pointer t g) s' fu
}.

Lemma cell_named_filter s P cells : cell_named s cells = None -> cell_named s (filter P cells) = None.
Proof.
  induction cells as [|[n c] cells IH]; [reflexivity|]. cbn [cell_named filter]. destruct (object_eqb_spec n s); [discriminate|].
  intros H. destruct (P (n, c)); [|now apply IH]. cbn [cell_named]. destruct (object_eqb_spec n s); [contradiction|now apply IH].
Qed.

Lemma filter_true {A} (P : A -> bool) l : (forall x, P x = true) -> filter P l = l.
Proof. intros H. induction l as [|x l IH]; [reflexivity|]. cbn [filter]. now rewrite H, IH. Qed.

Lemma local_none h sh t f names parent s : sh f = KFrame names parent -> local_cell h sh (Pointer t f) s true = None ->
  cell_named s (extension_cells h sh f) = None /\ cell_named s (numbered names f 0) = None.
Proof.
  intros E. unfold local_cell, frame_cells. rewrite E, cell_named_app, filter_true by reflexivity.
  destruct (cell_named s (extension_cells h sh f)); [discriminate|auto].
Qed.

Lemma cell_named_none s cells : cell_named s cells = None <-> ~ In s (map fst cells).
Proof.
  induction cells as [|[n c] cells IH]; cbn [cell_named map fst In]; [intuition|]. destruct (object_eqb_spec n s) as [->|Ne].
  - split; [discriminate|]. intros H. exfalso. apply H. now left.
  - rewrite IH. intuition.
Qed.

Lemma slot_names sh slots df : Forall2 (binding_of sh) slots df -> map fst (flat_map (slot_binding sh) slots) = df.
Proof.
  induction 1 as [|x n slots df (q & -> & E) F IH]; [reflexivity|]. cbn [flat_map slot_binding]. rewrite E. cbn [app map fst]. now rewrite IH.
Qed.

Lemma numbered_names names f : forall i, map fst (numbered names f i) = names.
Proof. induction names as [|n names IH]; intros i; [reflexivity|]. cbn [numbered map fst]. now rewrite IH. Qed.

(** The slots of a block after one more is in use. *)
Lemma update_slots (slots free : list object) x y (a b c d : object) : 
  update (4 + length slots) x (a :: b :: c :: d :: slots ++ y :: free) = a :: b :: c :: d :: slots ++ x :: free.
Proof. cbn [Nat.add update]. do 4 f_equal. apply update_app. Qed.

Section Extend.
Context (h : heap) (sh : shape) (f e : nat) (names : list object) (parent : object) (slots : list object) (y : object) (free : list object).
Context (s w : object).
Hypothesis W : well_formed h sh.
Hypothesis E : sh f = KFrame names parent.
Hypothesis Ef : content h (f, ENVIRONMENT_FUNCTION) = Some (Pointer TC_VECTOR e).
Hypothesis Ke : sh e = KExtension f.
Hypothesis S : extension_state h sh f e names parent slots (y :: free).
Hypothesis No : local_cell h sh (Pointer TC_ENVIRONMENT f) s true = None.
Hypothesis Cw : cell_ok sh w.

Let n := length (blocks h).
Let pair := Pointer TC_LIST n.
Let h1 := allocated h [s; w].
Let sh' := extended sh n (KBinding s).
Let h2 := stored h1 (e, 4 + length slots)%nat pair.
Let h' := stored h2 (e, ENV_EXTENSION_COUNT) (LONG_TO_UNSIGNED_FIXNUM (zlength slots + 1)).

Lemma extend_extends : extends sh sh'.
Proof. now apply extended_extends. Qed.

Lemma extend_lt : (e < n)%nat /\ (f < n)%nat.
Proof.
  split; [|now apply (frame_allocated h sh f names parent)]. destruct (extension_block _ _ _ _ _ _ _ _ S) as (hd & t & p & ct & Eb & _).
  now apply block_lt with (1 := Eb).
Qed.


Lemma extend_words : exists header tp p count, block_of h e = Some (Immediate header :: parent :: Pointer tp p :: Immediate count :: slots ++ y :: free) /\
  Object.OBJECT_DATUM header = 3 + zlength slots + zlength (y :: free) /\ sh p = KProcedure names parent /\
  block_of h' e = Some (Immediate header :: parent :: Pointer tp p ::
    Immediate (Object.LONG_TO_UNSIGNED_FIXNUM (zlength slots + 1)) :: slots ++ pair :: free).
Proof.
  destruct (extension_block _ _ _ _ _ _ _ _ S) as (hd & t & p & ct & Eb & H1 & _ & Ep). exists hd, t, p, ct. repeat split; auto.
  unfold h', h2, h1. rewrite !block_stored, Nat.eqb_refl, block_allocated_old by apply extend_lt. rewrite Eb. cbn [option_map].
  now rewrite update_slots.
Qed.

Lemma extend_other b : b <> e -> block_of h' b = block_of h1 b.
Proof. intros Ne. unfold h', h2. rewrite !block_stored. destruct (Nat.eqb_spec e b); [congruence|reflexivity]. Qed.

Lemma extend_content a o : fst a <> e -> content h a = Some o -> content h' a = Some o.
Proof.
  intros Ne Ea. destruct a as [b i]. unfold content in *. cbn [fst snd] in *. destruct (block_of h b) as [words|] eqn:Eb; [|discriminate].
  rewrite extend_other by exact Ne. unfold h1. rewrite block_allocated_old by (now apply block_lt with words). now rewrite Eb.
Qed.

Lemma extend_size : zlength slots + 1 < 2 ^ 56.
Proof. pose proof (extension_size _ _ _ _ _ _ _ _ S) as [Sz _]. cbn [length] in Sz. lia. Qed.

Lemma extend_unused : forall df, Forall2 (binding_of sh) slots df -> ~ In s df /\ ~ In s names.
Proof.
  intros df F. destruct (local_none _ _ _ _ _ _ _ E No) as [N1 N2]. rewrite (slots_cells _ _ _ _ _ _ _ _ Ef S) in N1.
  apply cell_named_none in N1, N2. rewrite (slot_names _ _ _ F) in N1. now rewrite numbered_names in N2.
Qed.

Lemma extend_extension_words : exists words, block_of h' e = Some words /\ extension_words sh' f (slots ++ [pair]) free words.
Proof.
  pose proof extend_extends as X. destruct extend_words as (hd & t & p & ct & _ & H1 & Ep & Eb).
  eexists. split; [exact Eb|]. destruct (extension_defined _ _ _ _ _ _ _ _ S) as (df & F & N & D). destruct (extend_unused df F) as [N1 N2].
  pose proof (extension_size _ _ _ _ _ _ _ _ S) as [Sz1 Sz2]. constructor.
  - exists names, parent, t, p, hd, (Object.LONG_TO_UNSIGNED_FIXNUM (zlength slots + 1)). split; [kinds X|]. split; [kinds X|].
    rewrite <- app_assoc, length_app. cbn [length app] in *. destruct (fixnum_word (zlength slots + 1)) as [_ ->]; [lia|]. repeat split; lia.
  - exists (df ++ [s]). split; [|split].
    + apply Forall2_app; [|repeat constructor; exists n; split; [reflexivity|apply extended_new]].
      eapply Forall2_impl; [|exact F]. intros x m (q & -> & K). exists q. split; [reflexivity|kinds X].
    + apply NoDup_app; [exact N|repeat constructor; intros []|]. intros x I [<-|[]]. contradiction.
    + intros nm pa E'. assert (E1 : sh' f = KFrame names parent) by kinds X. assert (nm = names) as -> by congruence.
      intros x [I|[<-|[]]]%in_app_iff; [now apply D|exact N2].
Qed.

Lemma extend_well_formed : well_formed h' sh'.
Proof.
  assert (W1 : well_formed h1 sh').
  { apply well_formed_allocated; [exact W|]. unfold block_ok. rewrite extended_new. exists w. split; [reflexivity|].
    apply cell_ok_extends with sh; [apply extend_extends|exact Cw]. }
  intros b. destruct (Nat.eq_dec b e) as [->|Ne].
  - destruct extend_extension_words as (words & -> & Ew). unfold block_ok. assert (sh' e = KExtension f) as -> by (pose proof extend_extends as X; kinds X).
    eauto.
  - rewrite extend_other by exact Ne. apply W1.
Qed.

Lemma extend_pair i : content h' (n, i) = nth_error [s; w] i.
Proof.
  unfold content. cbn [fst snd]. rewrite extend_other by (pose proof extend_lt; lia). unfold h1, n. now rewrite block_allocated_new.
Qed.

Lemma extend_function : content h' (f, ENVIRONMENT_FUNCTION) = Some (Pointer TC_VECTOR e).
Proof. apply extend_content; [cbn [fst]; congruence|exact Ef]. Qed.

Lemma extend_cells : extension_cells h' sh' f = extension_cells h sh f ++ [(s, (n, 1%nat))].
Proof.
  pose proof extend_extends as X. destruct extend_extension_words as (words & Eb & [(nm & pa & t & p & hd & ct & _ & _ & -> & _ & H2 & _ & _) _]).
  unfold extension_cells at 1. rewrite extend_function, Z.eqb_refl. unfold extension_slots. rewrite Eb, H2, Nat2Z.id.
  rewrite firstn_app, Nat.sub_diag, firstn_all, firstn_O, app_nil_r, flat_map_app. f_equal.
  - rewrite (slots_cells _ _ _ _ _ _ _ _ Ef S). destruct (extension_defined _ _ _ _ _ _ _ _ S) as (df & F & _). now apply slots_same with df.
  - cbn [flat_map slot_binding pair]. unfold sh'. rewrite extended_new. now rewrite app_nil_r.
Qed.

Lemma extend_visible g names' parent' fu x : sh g = KFrame names' parent' -> is_cell sh (snd x) -> fst (snd x) = g ->
  content h (snd x) <> None -> visible_cell h' fu x = visible_cell h fu x.
Proof.
  intros Eg C Ex Ne. unfold visible_cell. f_equal. destruct (content h (snd x)) as [v|] eqn:Ec; [|contradiction].
  rewrite (extend_content _ v); [reflexivity| |exact Ec]. intros K. congruence.
Qed.

Lemma parameter_visible g names' parent' fu : sh g = KFrame names' parent' ->
  filter (visible_cell h' fu) (numbered names' g 0) = filter (visible_cell h fu) (numbered names' g 0).
Proof.
  intros Eg. apply filter_ext_in. intros x I. apply in_numbered in I as (j & L & Ea).
  apply extend_visible with g names' parent'; rewrite ?Ea; cbn [fst snd]; auto.
  - unfold is_cell. cbn [fst snd]. rewrite Eg. lia.
  - destruct (argument_content h sh g names' parent' j W Eg) as (v & Ev & _); [lia|]. congruence.
Qed.

Lemma extend_binding : binding_added h sh f s w (n, 1%nat) h' sh'.
Proof.
  pose proof extend_extends as X. constructor.
  - apply extend_well_formed.
  - exact X.
  - apply evolves_stored; [apply evolves_stored; [apply evolves_allocated; constructor|]|]; unfold environment_word; cbn [fst];
      (assert (sh' e = KExtension f) as -> by kinds X); exact I.
  - intros a o H. apply extend_content. intros Ea. unfold is_location, is_cell in H. rewrite Ea, Ke in H. destruct H as [[[]|[H _]]|H]; discriminate.
  - split; [apply extend_pair|]. unfold is_cell. cbn [fst snd]. unfold sh'. rewrite extended_new. now split.
  - intros t fu. unfold local_cell, frame_cells. assert (sh' f = KFrame names parent) as -> by kinds X. rewrite extend_cells, cell_named_app, cell_named_app.
    destruct (local_none _ _ _ _ _ _ _ E No) as [-> _]. cbn [cell_named]. now rewrite object_eqb_refl.
  - unfold content. cbn [fst snd]. assert (block_of h n = None) as ->; [|reflexivity]. unfold block_of, n. now apply nth_error_None.
  - intros t g nm pa s' fu Eg Ne. unfold local_cell, frame_cells. rewrite (extends_kind _ _ _ _ X Eg), Eg by discriminate.
    rewrite (parameter_visible g nm pa fu Eg), !cell_named_app. destruct (Nat.eq_dec g f) as [->|Ng].
    + rewrite extend_cells, cell_named_app. cbn [cell_named]. destruct Ne as [|Ne]; [contradiction|].
      destruct (object_eqb_spec s s') as [->|]; [contradiction|]. now destruct (cell_named s' (extension_cells h sh f)).
    + rewrite (extension_cells_same h sh h' sh' g nm pa); auto.
      * destruct (frame_function _ _ _ _ _ W Eg) as (fn & Efn & _). rewrite Efn. apply extend_content; [cbn [fst]; congruence|exact Efn].
      * intros e' Ke'. rewrite extend_other by congruence. unfold h1. apply block_allocated_old. pose proof W as W2. shaped W2 Ke'. now apply block_lt with words.
Qed.

Lemma extend_environment_run value : mapped h value = w -> GC_NEEDED_P 2 h = false ->
  extend_environment (Pointer TC_ENVIRONMENT f) s value h = Return ((n, 1%nat), h').
Proof.
  intros Hw G. unfold extend_environment. erewrite andthen_return by apply MAP_TO_UNASSIGNED_ok. rewrite Hw.
  unfold cons. erewrite andthen_return with (a := pair) (h' := h1).
  2:{ erewrite andthen_return; [|unfold Primitive_GC_If_Needed; rewrite G; reflexivity]. reflexivity. }
  destruct extend_words as (hd & t & p & ct & Eb & H1 & Ep & _). pose proof extend_lt as [Le Lf].
  assert (Ef1 : content h1 (f, ENVIRONMENT_FUNCTION) = Some (Pointer TC_VECTOR e)) by now apply content_allocated.
  assert (Eb1 : block_of h1 e = Some (Immediate hd :: parent :: Pointer t p :: Immediate ct :: slots ++ y :: free)).
  { unfold h1. now rewrite block_allocated_old. }
  assert (Len : GET_EXTENDED_FRAME_LENGTH (Pointer TC_ENVIRONMENT f) h1 = Return (zlength slots, h1)).
  { unfold GET_EXTENDED_FRAME_LENGTH, GET_FRAME_EXTENSION_LENGTH. erewrite andthen_return by (apply GET_FRAME_PROCEDURE_ok; exact Ef1).
    run MEMORY_REF_ok; [|word Eb1]. apply pure_return. unfold UNSIGNED_FIXNUM_TO_LONG. cbn [OBJECT_DATUM].
    destruct (extension_block _ _ _ _ _ _ _ _ S) as (hd' & t' & p' & ct' & Eb' & _ & H2 & _). assert (ct' = ct) as -> by congruence.
    rewrite H2, to_long_small; [reflexivity|]. pose proof extend_size. lia. }
  erewrite andthen_return by exact Len. unfold GET_EXTENDED_FRAME_BINDINGS.
  erewrite andthen_return by (erewrite andthen_return by (apply GET_FRAME_PROCEDURE_ok; exact Ef1); reflexivity).
  cbn [fst snd]. rewrite Nat2Z.id. erewrite andthen_return.
  2:{ apply store_ok with y. apply content_nth with (1 := Eb1). change ENV_EXTENSION_MIN_SIZE with 4%nat. cbn [Nat.add nth_error].
      now rewrite nth_error_app2, Nat.sub_diag by lia. }
  change (ENV_EXTENSION_MIN_SIZE + length slots)%nat with (4 + length slots)%nat. fold h2.
  assert (Ef2 : content h2 (f, ENVIRONMENT_FUNCTION) = Some (Pointer TC_VECTOR e)).
  { unfold h2. rewrite content_stored_ne; [exact Ef1|congruence]. }
  assert (Ec2 : content h2 (e, ENV_EXTENSION_COUNT) = Some (Immediate ct)).
  { unfold h2. rewrite content_stored_ne; [word Eb1|]. unfold ENV_EXTENSION_COUNT. injection. lia. }
  unfold SET_EXTENDED_FRAME_LENGTH, SET_FRAME_EXTENSION_LENGTH.
  erewrite andthen_return by (erewrite andthen_return by (apply GET_FRAME_PROCEDURE_ok; exact Ef2); apply MEMORY_SET_ok with (Immediate ct); exact Ec2).
  reflexivity.
Qed.
End Extend.

(** ** Caches *)

(** The variable with the cell [c] has its value in a cache, and no variable
    has changed. *)
Record cell_cached (h : heap) (sh : shape) (c : address) (h' : heap) (sh' : shape) : Prop := {
  cc_well_formed : well_formed h' sh';
  cc_extends : extends sh sh';
  cc_evolves : evolves h sh h' sh';
  cc_trap : exists t, content h' c = Some (Pointer TC_REFERENCE_TRAP t) /\ sh' t = KTrap;
  cc_value : forall d x, is_cell sh d -> content h d = Some x -> value_of h' sh' d = value_of h sh d;
  cc_sharing : forall d1 x1 d2 x2, is_cell sh d1 -> content h d1 = Some x1 -> is_cell sh d2 -> content h d2 = Some x2 ->
    (location h' sh' d1 = location h' sh' d2 <-> location h sh d1 = location h sh d2);
  cc_cells : (content h c = Some UNBOUND_OBJECT -> forall names parent, sh (fst c) <> KFrame names parent) ->
    forall t g names parent s fu, sh g = KFrame names parent ->
    local_cell h' sh' (Pointer t g) s fu = local_cell h sh (Pointer t g) s fu;
  cc_content : forall a o, a <> c -> content h a = Some o -> content h' a = Some o;
  cc_blocks : forall b, sh b <> KOther -> fst c <> b -> block_of h' b = block_of h b
}.

Lemma cached_already h sh c t : well_formed h sh -> content h c = Some (Pointer TC_REFERENCE_TRAP t) -> sh t = KTrap -> cell_cached h sh c h sh.
Proof. intros W E K. constructor; auto using extends_refl, evolves_refl; [eauto|intros; reflexivity]. Qed.

(** Where the values of other cells are. *)
Lemma location_cell h sh d x : well_formed h sh -> is_cell sh d -> content h d = Some x ->
  location h sh d = d \/ sh (fst (location h sh d)) = KCache.
Proof.
  intros W C E. destruct (cell_cases h sh d x W E) as [[_ L]|(t & -> & K)]; [now apply cell_content_ok with h d|now left|right].
  destruct (cached_cell h sh d t W E K) as [_ (tc & b & v & _ & Kb & -> & _)]. exact Kb.
Qed.

Lemma block_stored_ne h a v b : fst a <> b -> block_of (stored h a v) b = block_of h b.
Proof. destruct a as [c i]. intros Ne. rewrite block_stored. cbn [fst] in Ne. destruct (Nat.eqb_spec c b); [contradiction|reflexivity]. Qed.

Section NewCache.
Context (h : heap) (sh : shape) (c : address) (w : object).
Hypothesis W : well_formed h sh.
Hypothesis C : is_cell sh c.
Hypothesis Ec : content h c = Some w.
Hypothesis V : value_ok sh w.

Let n := length (blocks h).
Let h1 := allocated h [EMPTY_LIST; EMPTY_LIST; EMPTY_LIST].
Let sh1 := extended sh n KReferences.
Let h2 := allocated h1 [w; SHARP_F; Pointer CACHE_REFERENCES_TYPE n].
Let sh2 := extended sh1 (S n) KCache.
Let h3 := allocated h2 [LONG_TO_UNSIGNED_FIXNUM TRAP_COMPILER_CACHED; Pointer CACHE_TYPE (S n)].
Let sh3 := extended sh2 (S (S n)) KTrap.
Let h' := stored h3 c (Pointer TC_REFERENCE_TRAP (S (S n))).

Lemma new_cache_lengths : length (blocks h1) = S n /\ length (blocks h2) = S (S n).
Proof. unfold h2, h1, allocated, n. cbn [blocks]. rewrite !length_app. cbn [length]. lia. Qed.

Lemma new_cache_shapes : well_formed h3 sh3 /\ extends sh sh3 /\ evolves h sh h3 sh3.
Proof.
  destruct new_cache_lengths as [L1 L2].
  assert (W1 : well_formed h1 sh1) by (apply well_formed_allocated; [exact W|]; unfold block_ok; now rewrite extended_new).
  assert (X1 : extends sh sh1) by now apply extended_extends.
  assert (W2 : well_formed h2 sh2).
  { unfold h2, sh2. rewrite <- L1. apply well_formed_allocated; [exact W1|]. unfold block_ok. rewrite extended_new.
    exists w, CACHE_REFERENCES_TYPE, n, []. split; [reflexivity|]. split.
    - apply value_ok_extends with sh; [|exact V]. intros b K. rewrite <- (X1 b K). apply extended_extends; [exact W1|]. now rewrite (X1 b K).
    - rewrite extended_old by (rewrite L1; lia). apply extended_new. }
  assert (X2 : extends sh1 sh2) by (unfold sh2; rewrite <- L1; now apply extended_extends).
  assert (W3 : well_formed h3 sh3).
  { unfold h3, sh3. rewrite <- L2. apply well_formed_allocated; [exact W2|]. unfold block_ok. rewrite extended_new.
    exists (Object.LONG_TO_UNSIGNED_FIXNUM TRAP_COMPILER_CACHED), CACHE_TYPE, (S n), []. split; [reflexivity|]. split; [reflexivity|].
    rewrite extended_old by (rewrite L2; lia). apply extended_new. }
  assert (X3 : extends sh2 sh3) by (unfold sh3; rewrite <- L2; now apply extended_extends).
  split; [exact W3|]. split; [apply extends_trans with sh1; [exact X1|now apply extends_trans with sh2]|].
  unfold sh3, sh2, sh1. rewrite <- L2, <- L1. repeat constructor.
Qed.

Lemma new_cache_old a o : content h a = Some o -> content h3 a = Some o.
Proof. intros E. now do 3 apply content_allocated. Qed.

Lemma new_cache_block b : sh b <> KOther -> fst c <> b -> block_of h' b = block_of h b.
Proof.
  intros K Ne. destruct new_cache_lengths as [L1 L2]. destruct (well_formed_block h sh b W K) as (words & Eb & _). apply block_lt in Eb.
  fold n in Eb. unfold h'. rewrite block_stored_ne by exact Ne. unfold h3. rewrite block_allocated_old by lia.
  unfold h2. rewrite block_allocated_old by lia. unfold h1. now rewrite block_allocated_old.
Qed.

Lemma new_cache_content_eq a : sh (fst a) <> KOther -> a <> c -> content h' a = content h a.
Proof.
  intros K Ne. destruct new_cache_lengths as [L1 L2]. destruct (well_formed_block h sh (fst a) W K) as (words & Eb & _). apply block_lt in Eb.
  fold n in Eb. unfold h'. rewrite content_stored_ne by exact Ne. unfold content, h3. rewrite block_allocated_old by lia.
  unfold h2. rewrite block_allocated_old by lia. unfold h1. now rewrite block_allocated_old.
Qed.

Lemma new_cache_cell : content h' c = Some (Pointer TC_REFERENCE_TRAP (S (S n))).
Proof. apply content_stored_eq with w. now apply new_cache_old. Qed.

Lemma new_cache_content a o : a <> c -> content h a = Some o -> content h' a = Some o.
Proof. intros Ne E. unfold h'. rewrite content_stored_ne by exact Ne. now apply new_cache_old. Qed.

Lemma new_cache_word b i o : (n <= b)%nat -> content h3 (b, i) = Some o -> content h' (b, i) = Some o.
Proof.
  intros L E. unfold h'. rewrite content_stored_ne; [exact E|]. intros <-. apply content_lt in Ec. unfold n in L. lia.
Qed.

Lemma new_cache_location : location h' sh3 c = (S n, 0%nat) /\ value_of h' sh3 c = Some w.
Proof.
  destruct new_cache_lengths as [L1 L2].
  assert (Et : content h' (S (S n), TRAP_EXTRA) = Some (Pointer CACHE_TYPE (S n))).
  { apply new_cache_word; [lia|]. unfold h3. rewrite <- L2. now apply new_word. }
  assert (El : location h' sh3 c = (S n, 0%nat)).
  { unfold location. rewrite new_cache_cell, Z.eqb_refl. unfold sh3 at 1. rewrite extended_new. now rewrite Et. }
  split; [exact El|]. unfold value_of. rewrite El. apply new_cache_word; [lia|]. unfold h3. apply content_allocated. unfold h2. rewrite <- L1. now apply new_word.
Qed.

Lemma new_cache_others d x : is_cell sh d -> content h d = Some x -> d <> c ->
  location h' sh3 d = location h sh d /\ value_of h' sh3 d = value_of h sh d.
Proof.
  intros D Ed Ne. destruct new_cache_shapes as (W3 & X & _).
  assert (El : location h' sh3 d = location h sh d).
  { apply location_same; auto.
    - rewrite Ed. now apply new_cache_content.
    - intros y Ey. now apply cell_content_ok with h d.
    - intros t K. shaped W K. destruct B as (tg & tc & b & rest & -> & _).
      assert (Et : content h (t, TRAP_EXTRA) = Some (Pointer tc b)) by word Eb. rewrite Et. apply new_cache_content; [|exact Et].
      intros <-. unfold is_cell in C. cbn [fst] in C. now rewrite K in C. }
  split; [exact El|]. unfold value_of. rewrite El. destruct (location_ok h sh d x W D Ed) as (_ & v & Ev & _). rewrite Ev.
  apply new_cache_content; [|exact Ev]. intros El'. destruct (location_cell h sh d x W D Ed) as [L|K]; [congruence|].
  rewrite El' in K. unfold is_cell in C. now rewrite K in C.
Qed.

Lemma new_cache_fresh d x : is_cell sh d -> content h d = Some x -> location h sh d <> (S n, 0%nat).
Proof.
  intros D Ed El. destruct (location_ok h sh d x W D Ed) as (_ & v & Ev & _). rewrite El in Ev. apply content_lt in Ev. unfold n in Ev. lia.
Qed.

Lemma new_cache_alone d x : is_cell sh d -> content h d = Some x -> location h sh d = location h sh c -> d = c.
Proof.
  intros D Ed El. rewrite (location_value h sh c w Ec V) in El. destruct (location_cell h sh d x W D Ed) as [L|K]; [congruence|].
  rewrite El in K. unfold is_cell in C. now rewrite K in C.
Qed.

Lemma new_cache : cell_cached h sh c h' sh3.
Proof.
  destruct new_cache_shapes as (W3 & X & Ev). destruct new_cache_location as [Lc Vc].
  assert (C3 : is_cell sh3 c) by now apply is_cell_extends with sh.
  constructor; auto.
  - apply well_formed_cell_stored with w; auto; [now apply new_cache_old|]. right. eexists. split; [reflexivity|apply extended_new].
  - apply evolves_stored; [exact Ev|]. apply location_word. now left.
  - exists (S (S n)). split; [apply new_cache_cell|apply extended_new].
  - intros d x D Ed. destruct (address_eq_dec d c) as [->|Ne]; [|now apply new_cache_others with x].
    rewrite Vc. unfold value_of. now rewrite (location_value h sh c w Ec V).
  - intros d1 x1 d2 x2 D1 E1 D2 E2. pose proof (new_cache_alone d1 x1 D1 E1). pose proof (new_cache_alone d2 x2 D2 E2).
    pose proof (new_cache_fresh d1 x1 D1 E1). pose proof (new_cache_fresh d2 x2 D2 E2).
    destruct (address_eq_dec d1 c) as [->|N1], (address_eq_dec d2 c) as [->|N2]; [tauto| | |].
    + destruct (new_cache_others d2 x2 D2 E2 N2) as [-> _]. rewrite Lc. split; intros Q; exfalso; [now apply H2|now apply N2, H0].
    + destruct (new_cache_others d1 x1 D1 E1 N1) as [-> _]. rewrite Lc. split; intros Q; exfalso; [now apply H1|now apply N1, H].
    + destruct (new_cache_others d1 x1 D1 E1 N1) as [-> _], (new_cache_others d2 x2 D2 E2 N2) as [-> _]. reflexivity.
  - intros Vis t g nm pa s fu Eg. apply local_cell_same with nm pa; auto.
    + destruct (frame_function _ _ _ _ _ W Eg) as (fn & Efn & _). rewrite Efn. apply new_cache_content; [|exact Efn].
      intros <-. unfold is_cell in C. cbn [fst snd] in C. rewrite Eg in C. unfold ENVIRONMENT_FIRST_ARG, ENVIRONMENT_FUNCTION in C. lia.
    + intros e Ke. apply new_cache_block; [now rewrite Ke|]. intros K. unfold is_cell in C. now rewrite K, Ke in C.
    + right. intros name a Ca Fa. unfold visible_cell. cbn [snd]. destruct (address_eq_dec a c) as [->|Ne].
      * rewrite new_cache_cell, Ec. destruct (object_eqb_spec w UNBOUND_OBJECT) as [->|]; [|reflexivity]. exfalso.
        apply (Vis Ec nm pa). now rewrite Fa.
      * rewrite new_cache_content_eq; [reflexivity| |exact Ne]. rewrite Fa, Eg. discriminate.
  - apply new_cache_content.
  - apply new_cache_block.
Qed.
End NewCache.

Lemma value_kind_not_cached v : (value_kind v =? TRAP_COMPILER_CACHED) = false.
Proof. destruct (value_kind_cases v) as [-> | [-> | [-> | ->]]]; reflexivity. Qed.

Lemma guarantee_cache_ok h sh c w : well_formed h sh -> is_cell sh c -> content h c = Some w -> 8 <= available h ->
  returns (guarantee_cache c h) (fun '(code, h') => code = PRIM_DONE /\ available h - 8 <= available h' <= available h /\
    gc_enabled h' = gc_enabled h /\ exists sh', cell_cached h sh c h' sh').
Proof.
  intros W C Ec Av. unfold guarantee_cache. run load_ok; [|exact Ec].
  destruct (cell_cases h sh c w W Ec) as [[V L]|(t & -> & K)]; [now apply cell_content_ok with h c| |].
  - erewrite andthen_return by (now apply get_trap_kind_value with sh). rewrite value_kind_not_cached. unfold GC_CHECK at 1.
    rewrite HEAP_AVAILABLE_enough by lia. erewrite andthen_return by apply allocate_ok. set (h1 := allocated h _).
    run load_ok; [|apply content_allocated; exact Ec]. unfold result_or_return, make_cache, GC_CHECK.
    erewrite andthen_return.
    2:{ rewrite HEAP_AVAILABLE_enough by (cbn; lia). erewrite andthen_return by apply allocate_ok. reflexivity. }
    cbv beta iota. change (PRIM_DONE =? PRIM_DONE) with true. cbv beta iota. set (h2 := allocated h1 _).
    rewrite HEAP_AVAILABLE_enough by (cbn; lia). erewrite andthen_return by apply allocate_ok. set (h3 := allocated h2 _).
    erewrite andthen_return by (apply store_ok with w; now do 3 apply content_allocated).
    ret_now. split; [reflexivity|]. rewrite available_stored, gc_enabled_stored. split; [cbn; lia|]. split; [reflexivity|].
    destruct (new_cache_lengths h w) as [L1 L2]. pose proof (new_cache h sh c w W C Ec V) as N. eexists.
    unfold h3, h2, h1. rewrite L2, L1. exact N.
  - destruct (cached_cell h sh c t W Ec K) as [G _]. erewrite andthen_return by exact G.
    change (TRAP_COMPILER_CACHED =? TRAP_COMPILER_CACHED) with true. cbv iota. ret_now. split; [reflexivity|]. split; [lia|]. split; [reflexivity|].
    exists sh. now apply cached_already with t.
Qed.

(** ** Clones

    Without compiled code the reference lists are empty, and there is nothing to do. *)

Lemma update_clone_ok h sh t c : well_formed h sh -> sh c = KCache -> update_clone (Pointer t c) h = Return (tt, h).
Proof.
  intros W K. shaped W K. destruct B as (v & tr & r & rest & -> & _ & Kr).
  assert (Gr : forall k, GET_CACHE_REFERENCES (Pointer t c) k h = Return ((r, k), h)).
  { intros k. unfold GET_CACHE_REFERENCES, GET_CACHE_REFERENCES_OBJECT. run MEMORY_REF_ok; [|word Eb]. reflexivity. }
  shaped W Kr. subst words. unfold update_clone, GET_CACHE_ASSIGNMENT_REFERENCES, GET_CACHE_CLONE. erewrite andthen_return by apply Gr.
  run load_ok; [|word Eb0]. change (PAIR_P EMPTY_LIST) with false. cbv iota. erewrite andthen_return by reflexivity.
  run MEMORY_REF_ok; [|word Eb]. reflexivity.
Qed.

Lemma trap_cache h sh t : well_formed h sh -> sh t = KTrap -> exists tc c, GET_TRAP_CACHE (Pointer TC_REFERENCE_TRAP t) h = Return (Pointer tc c, h) /\
  sh c = KCache /\ content h (t, TRAP_EXTRA) = Some (Pointer tc c).
Proof.
  intros W K. shaped W K. destruct B as (tg & tc & c & rest & -> & _ & Kc). exists tc, c.
  assert (Et : content h (t, TRAP_EXTRA) = Some (Pointer tc c)) by word Eb. repeat split; auto. now apply MEMORY_REF_ok.
Qed.

Lemma update_cache_references_some h sh tf cf c w env s : well_formed h sh -> sh cf = KCache -> is_cell sh c -> content h c = Some w ->
  8 <= available h ->
  returns (update_cache_references (Pointer tf cf) (Some c) env s h) (fun '(code, h') => code = PRIM_DONE /\ exists sh', cell_cached h sh c h' sh').
Proof.
  intros W Kf C Ec Av. unfold update_cache_references, DIE_IF_ERROR.
  destruct (guarantee_cache_ok h sh c w W C Ec Av) as ([code h'] & E & -> & _ & _ & sh' & Cc).
  destruct (cc_trap _ _ _ _ _ Cc) as (t & Et & Kt). pose proof (cc_well_formed _ _ _ _ _ Cc) as W'.
  destruct (trap_cache h' sh' t W' Kt) as (tc & b & G & Kb & _).
  erewrite andthen_return with (a := tt) (h' := h').
  2:{ erewrite andthen_return by (erewrite andthen_return by exact E; reflexivity). run load_ok; [|exact Et].
      erewrite andthen_return by exact G. now apply update_clone_ok with sh'. }
  erewrite andthen_return by (apply update_clone_ok with sh'; [exact W'|]; pose proof (cc_extends _ _ _ _ _ Cc) as X; kinds X).
  ret_now. split; [reflexivity|now exists sh'].
Qed.

Lemma update_cache_references_none h sh tf cf env s : well_formed h sh -> sh cf = KCache ->
  update_cache_references (Pointer tf cf) None env s h = Return (PRIM_DONE, h).
Proof.
  intros W Kf. unfold update_cache_references. erewrite andthen_return by reflexivity.
  now erewrite andthen_return by (apply update_clone_ok with sh; assumption).
Qed.

(** ** Definition *)

(** The search for [s] from the first environment comes to the second. *)
Inductive reaches (h : heap) (sh : shape) (s : object) : object -> object -> Prop :=
| reaches_here env : reaches h sh s env env
| reaches_parent f names parent env :
    sh f = KFrame names parent -> local_cell h sh (Pointer TC_ENVIRONMENT f) s false = None ->
    reaches h sh s parent env -> reaches h sh s (Pointer TC_ENVIRONMENT f) env.

(** The name [s] of [env] denotes [cell] and [v], and nothing else changes,
    except for the variables that shared their value with it before. *)
Record defines (h : heap) (sh : shape) (env s : object) (cell : address) (v : object) (h' : heap) (sh' : shape) : Prop := {
  def_well_formed : well_formed h' sh';
  def_extends : extends sh sh';
  def_cell : local_cell h' sh' env s false = Some cell;
  def_others : forall g names parent s', sh g = KFrame names parent -> Pointer TC_ENVIRONMENT g <> env \/ s' <> s ->
    local_cell h' sh' (Pointer TC_ENVIRONMENT g) s' false = local_cell h sh (Pointer TC_ENVIRONMENT g) s' false;
  def_value : value_of h' sh' cell = Some v;
  def_values : forall d x, is_cell sh d -> content h d = Some x ->
    (local_cell h sh env s true = Some cell -> location h sh d <> location h sh cell) -> value_of h' sh' d = value_of h sh d
}.

(** The variable of [s'] in [env'] shares its value with the name [s] of the frame [env]. *)
Definition shares (h : heap) (sh : shape) (env s env' s' : object) : Prop :=
  exists c c' f', local_cell h sh env s true = Some c /\ resolves h sh s' env' (Some c') f' /\ location h sh c' = location h sh c.

Lemma defines_reached h sh env s cell v h' sh' env' : defines h sh env s cell v h' sh' -> environment_ok sh env ->
  reaches h sh s env' env -> resolves h' sh' s env' (Some cell) env.
Proof.
  intros D E R. pose proof (def_extends _ _ _ _ _ _ _ _ D) as X. pose proof (def_cell _ _ _ _ _ _ _ _ D) as Dc.
  assert (Here : resolves h' sh' s env (Some cell) env).
  { destruct E as [->|(f & nm & pa & -> & Ef)].
    - cbn [local_cell THE_GLOBAL_ENV MAKE_OBJECT] in Dc. rewrite <- Dc. constructor.
    - apply resolves_here with nm pa; [kinds X|exact Dc]. }
  induction R as [env|f nm pa env Ef L R IH]; [exact Here|].
  destruct (object_eq_dec (Pointer TC_ENVIRONMENT f) env) as [<-|Ne]; [exact Here|].
  apply resolves_parent with nm pa; [kinds X| |now apply IH].
  rewrite (def_others _ _ _ _ _ _ _ _ D f nm pa s Ef) by now left. exact L.
Qed.

Lemma defines_unreached h sh env s cell v h' sh' env' s' c fr : defines h sh env s cell v h' sh' ->
  resolves h sh s' env' c fr -> s' <> s \/ ~ reaches h sh s env' env -> resolves h' sh' s' env' c fr.
Proof.
  intros D R. pose proof (def_extends _ _ _ _ _ _ _ _ D) as X.
  assert (Same : forall f nm pa, sh f = KFrame nm pa -> s' <> s \/ ~ reaches h sh s (Pointer TC_ENVIRONMENT f) env ->
    local_cell h' sh' (Pointer TC_ENVIRONMENT f) s' false = local_cell h sh (Pointer TC_ENVIRONMENT f) s' false).
  { intros f nm pa Ef H. apply (def_others _ _ _ _ _ _ _ _ D f nm pa s' Ef). destruct H as [H|H]; [now right|left]. intros <-. apply H. constructor. }
  induction R as [|f nm pa c E L|f nm E L|f nm pa c fr E L R IH]; intros H.
  - constructor.
  - apply resolves_here with nm pa; [kinds X|]. now rewrite (Same f nm pa E H).
  - apply resolves_end with nm; [kinds X|]. now rewrite (Same f nm THE_NULL_ENV E H).
  - apply resolves_parent with nm pa; [kinds X|now rewrite (Same f nm pa E H)|]. apply IH.
    destruct (object_eq_dec s' s) as [->|]; [right|now left]. destruct H as [H|H]; [congruence|]. intros K. apply H.
    now apply reaches_parent with nm pa.
Qed.

(** What the definition means for every variable. *)
Lemma defines_denotes h sh env s cell v h' sh' : well_formed h sh -> environment_ok sh env -> defines h sh env s cell v h' sh' ->
  (forall env', reaches h sh s env' env -> denotes h' sh' env' s (read_value v)) /\
  (forall env' s' r, environment_ok sh env' -> symbol_ok sh s' -> ~ (s' = s /\ reaches h sh s env' env) -> ~ shares h sh env s env' s' ->
     (denotes h' sh' env' s' r <-> denotes h sh env' s' r)).
Proof.
  intros W E D. split.
  - intros env' R. exists (Some cell), env. split; [now apply defines_reached with h sh v|]. exists v. split; [|reflexivity].
    apply (def_value _ _ _ _ _ _ _ _ D).
  - intros env' s' r E' Sy' Nr Ns. assert (H : s' <> s \/ ~ reaches h sh s env' env).
    { destruct (object_eq_dec s' s) as [->|]; [right|now left]. intros R. now apply Nr. }
    destruct (resolves_total h sh s' env' W Sy' E') as (c & f & R). pose proof (defines_unreached _ _ _ _ _ _ _ _ _ _ _ _ D R H) as R'.
    assert (Same : forall d, c = Some d -> value_of h' sh' d = value_of h sh d).
    { intros d ->. destruct (resolves_cell _ _ _ _ _ _ W Sy' R) as (Cd & x & Ex & _).
      apply (def_values _ _ _ _ _ _ _ _ D d x Cd Ex). intros Lc El. apply Ns. now exists cell, d, f. }
    split; intros (c2 & f2 & R2 & Dn).
    + destruct (resolves_unique _ _ _ _ _ _ _ _ R' R2) as [<- <-]. exists c, f. split; [exact R|]. destruct c as [d|]; [|exact Dn].
      now rewrite <- (Same d eq_refl).
    + destruct (resolves_unique _ _ _ _ _ _ _ _ R R2) as [<- <-]. exists c, f. split; [exact R'|]. destruct c as [d|]; [|exact Dn].
      now rewrite (Same d eq_refl).
Qed.

(** The variables are what they were. *)
Record unchanged (h : heap) (sh : shape) (h' : heap) (sh' : shape) : Prop := {
  un_well_formed : well_formed h' sh';
  un_extends : extends sh sh';
  un_evolves : evolves h sh h' sh';
  un_variables : same_variables h sh h' sh'
}.

Lemma unchanged_refl h sh : well_formed h sh -> unchanged h sh h sh.
Proof. constructor; auto using extends_refl, evolves_refl, same_variables_refl. Qed.

Lemma unchanged_gc h sh h' sh' n : unchanged h sh h' sh' -> unchanged h sh (REQUEST_GC n h') sh'.
Proof.
  intros [W X E [S1 S2]]. constructor; auto; [now apply evolves_gc|]. constructor; auto.
Qed.

Lemma sv_resolves h sh h' sh' s env c f : well_formed h sh -> extends sh sh' -> same_variables h sh h' sh' ->
  resolves h sh s env c f -> resolves h' sh' s env c f.
Proof. intros W X [_ S2]. apply resolves_same; auto. intros. now apply S2 with names parent. Qed.

Lemma unchanged_resolves h sh h' sh' s env c f : well_formed h sh -> unchanged h sh h' sh' -> resolves h sh s env c f -> resolves h' sh' s env c f.
Proof. intros W U. apply sv_resolves; auto; apply U. Qed.

Lemma denotes_transfer h sh h' sh' env s env' s' c fr : resolves h sh s env c fr -> resolves h' sh' s' env' c fr ->
  (forall d, c = Some d -> value_of h' sh' d = value_of h sh d) -> forall r, denotes h' sh' env' s' r <-> denotes h sh env s r.
Proof.
  intros R R' Same r. split; intros (c2 & f2 & R2 & Dn).
  - destruct (resolves_unique _ _ _ _ _ _ _ _ R' R2) as [<- <-]. exists c, fr. split; [exact R|]. destruct c as [d|]; [|exact Dn].
    now rewrite <- (Same d eq_refl).
  - destruct (resolves_unique _ _ _ _ _ _ _ _ R R2) as [<- <-]. exists c, fr. split; [exact R'|]. destruct c as [d|]; [|exact Dn].
    now rewrite (Same d eq_refl).
Qed.

Lemma sv_denotes h sh h' sh' s env r : well_formed h sh -> extends sh sh' -> same_variables h sh h' sh' -> environment_ok sh env -> symbol_ok sh s ->
  (denotes h' sh' env s r <-> denotes h sh env s r).
Proof.
  intros W X S E Sy. destruct (resolves_total h sh s env W Sy E) as (c & f & R).
  apply (denotes_transfer h sh h' sh' env s env s c f R); [now apply (sv_resolves h sh)|].
  intros d ->. destruct (resolves_cell _ _ _ _ _ _ W Sy R) as (Cd & x & Ex & _). apply kept_value with x; auto. apply S.
Qed.

Lemma unchanged_denotes h sh h' sh' s env r : well_formed h sh -> unchanged h sh h' sh' -> environment_ok sh env -> symbol_ok sh s ->
  (denotes h' sh' env s r <-> denotes h sh env s r).
Proof. intros W U. apply sv_denotes; auto; apply U. Qed.

Lemma sv_same_variable h sh h' sh' e1 s1 e2 s2 : well_formed h sh -> extends sh sh' -> same_variables h sh h' sh' ->
  environment_ok sh e1 -> symbol_ok sh s1 -> environment_ok sh e2 -> symbol_ok sh s2 ->
  (same_variable h' sh' e1 s1 e2 s2 <-> same_variable h sh e1 s1 e2 s2).
Proof.
  intros W X S E1 Y1 E2 Y2.
  assert (Loc : forall e s c f, symbol_ok sh s -> resolves h sh s e (Some c) f -> location h' sh' c = location h sh c).
  { intros e s c f Y R. destruct (resolves_cell _ _ _ _ _ _ W Y R) as (C & x & Ex & _). apply kept_location with x; auto. apply S. }
  destruct (resolves_total h sh s1 e1 W Y1 E1) as (c1 & f1 & R1), (resolves_total h sh s2 e2 W Y2 E2) as (c2 & f2 & R2).
  pose proof (sv_resolves _ _ _ _ _ _ _ _ W X S R1) as R1'. pose proof (sv_resolves _ _ _ _ _ _ _ _ W X S R2) as R2'.
  split; intros (d1 & g1 & d2 & g2 & Q1 & Q2 & L).
  - destruct (resolves_unique _ _ _ _ _ _ _ _ R1' Q1) as [-> ->], (resolves_unique _ _ _ _ _ _ _ _ R2' Q2) as [-> ->].
    rewrite (Loc _ _ _ _ Y1 R1), (Loc _ _ _ _ Y2 R2) in L. now exists d1, g1, d2, g2.
  - destruct (resolves_unique _ _ _ _ _ _ _ _ R1 Q1) as [-> ->], (resolves_unique _ _ _ _ _ _ _ _ R2 Q2) as [-> ->].
    exists d1, g1, d2, g2. split; [exact R1'|]. split; [exact R2'|]. now rewrite (Loc _ _ _ _ Y1 R1), (Loc _ _ _ _ Y2 R2).
Qed.

(** A new binding in an unchanged state, and then perhaps a cache for it. *)
Lemma added_defines h sh h1 sh1 f s v cell h2 sh2 : well_formed h sh -> unchanged h sh h1 sh1 ->
  (exists names parent, sh f = KFrame names parent) -> binding_added h1 sh1 f s v cell h2 sh2 -> value_ok sh2 v ->
  defines h sh (Pointer TC_ENVIRONMENT f) s cell v h2 sh2.
Proof.
  intros W [W1 X1 E1 [S1 S2]] (nm & pa & Ef) [W2 X2 E2 K2 (Ec & Cc & Kc) New Fresh Oth] V. constructor; auto.
  - now apply extends_trans with sh1.
  - intros g nm' pa' s' Eg Ne. assert (Eg1 : sh1 g = KFrame nm' pa') by kinds X1. rewrite (Oth _ g nm' pa' s' false Eg1).
    + now apply S2 with nm' pa'.
    + destruct Ne as [Ne|Ne]; [left; congruence|now right].
  - unfold value_of. now rewrite (location_value h2 sh2 cell v Ec V).
  - intros d x Cd Ed _. rewrite <- (kept_value h sh h1 sh1 d x) by assumption. apply kept_value with x; auto; [now apply is_cell_extends with sh|].
    apply S1; [now left; left|exact Ed].
Qed.

Lemma defines_cached h sh env s cell v h2 sh2 h3 sh3 : well_formed h sh -> content h cell = None -> content h2 cell = Some v ->
  is_cell sh2 cell -> (forall names parent, sh2 (fst cell) <> KFrame names parent) ->
  (exists f names parent, env = Pointer TC_ENVIRONMENT f /\ sh f = KFrame names parent) ->
  (forall a o, content h a = Some o -> is_cell sh a -> exists o', content h2 a = Some o') ->
  defines h sh env s cell v h2 sh2 -> cell_cached h2 sh2 cell h3 sh3 -> defines h sh env s cell v h3 sh3.
Proof.
  intros W Fr Ec Cc Nf (f & nm & pa & -> & Ef) Keep [W2 X2 Dc Do Dv Ds] [W3 X3 E3 _ Cv _ Cl _ _].
  assert (Cl' := Cl (fun _ => Nf)). clear Cl. constructor; auto.
  - now apply extends_trans with sh2.
  - assert (Ef2 : sh2 f = KFrame nm pa) by kinds X2. now rewrite (Cl' _ f nm pa s false Ef2).
  - intros g nm' pa' s' Eg Ne. assert (Eg2 : sh2 g = KFrame nm' pa') by kinds X2. rewrite (Cl' _ g nm' pa' s' false Eg2). now apply Do with nm' pa'.
  - now rewrite (Cv cell v).
  - intros d x Cd Ed Ne. destruct (Keep d x Ed Cd) as (y & Ey). rewrite (Cv d y); [now apply Ds with x|now apply is_cell_extends with sh|exact Ey].
Qed.

(** The space to move the references of a shadowed variable to a new cache is
    not all covered by the checks of the code. *)
Definition shadow_space (h : heap) (sh : shape) (f : nat) (parent s : object) : Prop :=
  forall c fr t, resolves h sh s parent (Some c) fr -> content h c = Some (Pointer TC_REFERENCE_TRAP t) -> sh t = KTrap ->
  extension_space h f + 10 <= available h.

Lemma binding_lookup h sh s parent b : well_formed h sh -> symbol_ok sh s -> environment_before sh b parent ->
  exists c fr, find_binding_cell parent s h = Return ((c, fr), h) /\ (c = None \/ resolves h sh s parent c fr).
Proof.
  intros W Sy [->|[->|(g & nm & pa & -> & _ & Eg)]].
  - destruct (find_binding_cell_ok h sh s THE_GLOBAL_ENV W Sy) as (c & fr & E & R); [now left|]. exists c, fr. auto.
  - exists None, THE_NULL_ENV. split; [reflexivity|now left].
  - destruct (find_binding_cell_ok h sh s (Pointer TC_ENVIRONMENT g) W Sy) as (c & fr & E & R); [right; eauto|]. exists c, fr. auto.
Qed.

(** The cache of the shadowed variable, or [SHARP_F]. *)
Lemma shadowed_cache h sh s parent fr c : well_formed h sh -> symbol_ok sh s -> c = None \/ resolves h sh s parent c fr ->
  exists o, match c with
            | None => ret SHARP_F
            | Some c => trap <- load c ;; kind <- get_trap_kind trap ;; if kind =? TRAP_COMPILER_CACHED then GET_TRAP_CACHE trap else ret SHARP_F
            end h = Return (o, h) /\
    (o = SHARP_F \/ exists d t tc b, c = Some d /\ content h d = Some (Pointer TC_REFERENCE_TRAP t) /\ sh t = KTrap /\ o = Pointer tc b /\ sh b = KCache).
Proof.
  intros W Sy H. destruct c as [c|]; [|exists SHARP_F; split; [reflexivity|now left]]. destruct H as [|R]; [discriminate|].
  destruct (resolves_cell _ _ _ _ _ _ W Sy R) as (C & w & Ew & Ok). destruct (cell_cases h sh c w W Ew Ok) as [[V _]|(t & -> & K)].
  - exists SHARP_F. split; [|now left]. run load_ok; [|exact Ew]. erewrite andthen_return by (now apply get_trap_kind_value with sh).
    now rewrite value_kind_not_cached.
  - destruct (cached_cell h sh c t W Ew K) as [G _]. destruct (trap_cache h sh t W K) as (tc & b & Gc & Kb & _).
    exists (Pointer tc b). split; [|right; exists c, t, tc, b; auto]. run load_ok; [|exact Ew]. erewrite andthen_return by exact G. exact Gc.
Qed.

Lemma evolves_length h sh h' sh' : evolves h sh h' sh' -> (length (blocks h) <= length (blocks h'))%nat.
Proof. induction 1 as [| |h1 s1 w k E IH|]; auto; [now rewrite length_stored|]. unfold allocated. cbn [blocks]. rewrite length_app. lia. Qed.

(** Words do not disappear. *)
Lemma evolves_domain h sh h' sh' a o : evolves h sh h' sh' -> content h a = Some o -> exists o', content h' a = Some o'.
Proof.
  intros E Ea. induction E as [|h1 s1 c v E IH Ec|h1 s1 w k E IH|h1 s1 m E IH]; [eauto| | |].
  - destruct IH as (o' & Eo). destruct (address_eq_dec a c) as [->|Ne]; [exists v; now apply content_stored_eq with o'|].
    exists o'. now rewrite content_stored_ne.
  - destruct IH as (o' & Eo). exists o'. now apply content_allocated.
  - exact IH.
Qed.

Lemma parent_environment sh b parent : environment_before sh b parent -> parent = THE_NULL_ENV \/ environment_ok sh parent.
Proof. intros [->|[->|(g & nm & pa & -> & _ & Eg)]]; [right; now left|now left|right; right; eauto]. Qed.

(** A shadowed variable that has a cache had it before the extension was made. *)
Lemma shadow_before h sh h1 sh1 f names parent s d fr t : well_formed h sh -> sh f = KFrame names parent -> symbol_ok sh s ->
  unchanged h sh h1 sh1 -> resolves h1 sh1 s parent (Some d) fr ->
  content h1 d = Some (Pointer TC_REFERENCE_TRAP t) -> sh1 t = KTrap ->
  exists fr', resolves h sh s parent (Some d) fr' /\ content h d = Some (Pointer TC_REFERENCE_TRAP t) /\ sh t = KTrap.
Proof.
  intros W Ef Sy U R Ed Kt. destruct (parent_environment _ _ _ (frame_before _ _ _ _ _ W Ef)) as [->|Ep]; [inversion R|].
  destruct (resolves_total h sh s parent W Sy Ep) as (c & fr' & R0). pose proof (unchanged_resolves _ _ _ _ _ _ _ _ W U R0) as R1.
  destruct (resolves_unique _ _ _ _ _ _ _ _ R R1) as [<- <-]. exists fr. split; [exact R0|].
  destruct (resolves_cell _ _ _ _ _ _ W Sy R0) as (Cd & x & Ex & Ok). destruct U as [_ X _ [S1 _]].
  assert (Ex1 : content h1 d = Some x) by (apply S1; [now left; left|exact Ex]). assert (x = Pointer TC_REFERENCE_TRAP t) as -> by congruence.
  split; [exact Ex|]. destruct Ok as [[H|[H|[H|(m & [= <-] & K)]]]|(t' & [= <-] & K)]; try discriminate; [|exact K].
  assert (sh1 t = KMacro) by kinds X. congruence.
Qed.

(** A binding of [s] to [w] is new in the frame [f], perhaps with a cache. *)
Definition added (h : heap) (sh : shape) (f : nat) (s w : object) (cell : address) (h' : heap) (sh' : shape) : Prop :=
  exists h1 sh1 h2 sh2, unchanged h sh h1 sh1 /\ binding_added h1 sh1 f s w cell h2 sh2 /\
    ((h' = h2 /\ sh' = sh2) \/ cell_cached h2 sh2 cell h' sh').

Lemma define_new_added h sh f names parent s value : well_formed h sh -> sh f = KFrame names parent -> symbol_ok sh s ->
  local_cell h sh (Pointer TC_ENVIRONMENT f) s true = None -> cell_ok sh (mapped h value) ->
  gc_enabled h = true -> available h < 2 ^ 56 -> shadow_space h sh f parent s ->
  returns (define_new (Pointer TC_ENVIRONMENT f) s value h) (fun '(code, h') =>
    exists sh', (code = PRIM_INTERRUPT /\ unchanged h sh h' sh') \/ (code = PRIM_DONE /\ exists cell, added h sh f s (mapped h value) cell h' sh')).
Proof.
  intros W Ef Sy No V Gc Av Sp. unfold define_new, RETURN_IF_ERROR.
  destruct (guarantee_extension_space_ok h sh f names parent W Ef Gc Av) as ([code h1] & E1 & [[-> (n & ->)]|(-> & Av1 & Gc1 & sh1 & W1 & X1 & Ev1 & S1 & Rm)]).
  { erewrite andthen_return by exact E1. ret_now. exists sh. left. split; [reflexivity|].
    now apply unchanged_gc, unchanged_refl. }
  assert (U1 : unchanged h sh h1 sh1) by (now constructor). erewrite andthen_return by exact E1.
  change (PRIM_DONE =? PRIM_DONE) with true. cbv iota.
  assert (Ef1 : sh1 f = KFrame names parent) by kinds X1. assert (Sy1 : symbol_ok sh1 s) by now apply symbol_ok_extends with sh.
  erewrite andthen_return by (apply (GET_FRAME_PARENT_ok h1 sh1 f _ names parent); assumption).
  destruct (binding_lookup h1 sh1 s parent f W1 Sy1 (frame_before _ _ _ _ _ W1 Ef1)) as (c & fr & Ec & Rc).
  erewrite andthen_return by exact Ec. destruct (shadowed_cache h1 sh1 s parent fr c W1 Sy1 Rc) as (o & Eo & Ho).
  erewrite andthen_return by exact Eo. unfold GC_CHECK.
  assert (Zero : (2 + (if negb (object_eqb o SHARP_F) then update_cache_refs_space o (Pointer TC_ENVIRONMENT f) s else 0)) = 2).
  { unfold update_cache_refs_space. destruct (negb _); reflexivity. }
  rewrite Zero. destruct (GC_NEEDED_P 2 h1) eqn:Gn.
  { ret_now. exists sh1. left. split; [reflexivity|]. now apply unchanged_gc. }
  destruct Rm as (e & slots & y & free & Efn & Ke & St). set (w := mapped h value) in *.
  assert (Hw : mapped h1 value = w) by (unfold w, mapped; now rewrite (evolves_non_object _ _ _ _ Ev1)).
  assert (No1 : local_cell h1 sh1 (Pointer TC_ENVIRONMENT f) s true = None) by (rewrite (sv_cells _ _ _ _ S1 _ f names parent s true Ef); exact No).
  assert (Cw : cell_ok sh1 w) by now apply cell_ok_extends with sh.
  pose proof (extend_binding h1 sh1 f e names parent slots y free s w W1 Ef1 Efn Ke St No1 Cw) as Ba.
  pose proof (extend_environment_run h1 sh1 f e names parent slots y free s w W1 Ef1 Efn Ke St value Hw Gn) as Er.
  set (cell := (length (blocks h1), 1%nat)) in *. set (h2 := stored _ (e, ENV_EXTENSION_COUNT) _) in *. set (sh2 := extended sh1 _ _) in *.
  erewrite andthen_return by exact Er.
  destruct Ho as [->|(d & t & tc & b & -> & Ed & Kt & -> & Kb)].
  - change (object_eqb SHARP_F SHARP_F) with true. cbn [negb]. ret_now. exists sh2. right. split; [reflexivity|]. exists cell, h1, sh1, h2, sh2. auto.
  - destruct (object_eqb_spec (Pointer tc b) SHARP_F) as [Q|_]; [discriminate|]. cbn [negb].
    destruct Rc as [|Rc]; [discriminate|]. pose proof Ba as [W2 X2 E2 K2 (Ecell & Cc & Kc) New Fresh Oth].
    assert (Space : 8 <= available h2).
    { pose proof (shadow_before h sh h1 sh1 f names parent s d fr t W Ef Sy U1 Rc Ed Kt) as (fr' & R & Eh & Kh). specialize (Sp _ _ _ R Eh Kh).
      unfold h2. rewrite !available_stored. unfold allocated. cbn [available length]. lia. }
    assert (Kb2 : sh2 b = KCache) by kinds X2.
    destruct (update_cache_references_some h2 sh2 tc b cell w (Pointer TC_ENVIRONMENT f) s W2 Kb2 Cc Ecell Space) as ([code h3] & E3 & -> & sh3 & Cl).
    exists (PRIM_DONE, h3). split; [exact E3|]. exists sh3. right. split; [reflexivity|]. exists cell, h1, sh1, h2, sh2. auto.
Qed.

Lemma added_evolves h sh f s w cell h' sh' : added h sh f s w cell h' sh' -> evolves h sh h' sh' /\ well_formed h' sh' /\ extends sh sh'.
Proof.
  intros (h1 & sh1 & h2 & sh2 & U & Ba & H). assert (E2 : evolves h sh h2 sh2) by (apply evolves_trans with h1 sh1; [apply U|apply Ba]).
  assert (X2 : extends sh sh2) by (apply extends_trans with sh1; [apply U|apply Ba]). destruct H as [[-> ->]|Cc].
  - split; [exact E2|]. split; [apply Ba|exact X2].
  - split; [apply evolves_trans with h2 sh2; [exact E2|apply Cc]|]. split; [apply Cc|]. apply extends_trans with sh2; [exact X2|apply Cc].
Qed.

Lemma added_value_defines h sh f s v cell h' sh' : well_formed h sh -> (exists names parent, sh f = KFrame names parent) ->
  added h sh f s v cell h' sh' -> value_ok sh v -> defines h sh (Pointer TC_ENVIRONMENT f) s cell v h' sh'.
Proof.
  intros W Ef (h1 & sh1 & h2 & sh2 & U & Ba & H) V. pose proof U as [W1 X1 Ev1 S1]. pose proof Ba as [W2 X2 E2 K2 (Ecell & Cc & Kc) New Fresh Oth].
  assert (V2 : value_ok sh2 v) by (apply value_ok_extends with sh1; [exact X2|now apply value_ok_extends with sh]).
  pose proof (added_defines h sh h1 sh1 f s v cell h2 sh2 W U Ef Ba V2) as D. destruct H as [[-> ->]|Cl]; [exact D|].
  apply defines_cached with h2 sh2; auto.
  - destruct (content h cell) as [o|] eqn:Q; [|reflexivity]. destruct (evolves_domain _ _ _ _ _ _ Ev1 Q) as (o' & Q'). congruence.
  - intros nm pa K. congruence.
  - destruct Ef as (nm & pa & Ef). eauto 6.
  - intros a x Ea Ca. exists x. apply K2; [left; left; now apply is_cell_extends with sh|]. apply (sv_content _ _ _ _ S1); [now left; left|exact Ea].
Qed.

(** ** Definition of a name that has a cell *)

Lemma cell_named_filter_agree s P Q cells : (forall x, In x cells -> fst x = s -> P x = Q x) ->
  cell_named s (filter P cells) = cell_named s (filter Q cells).
Proof.
  induction cells as [|[n c] cells IH]; intros H; [reflexivity|]. cbn [filter].
  assert (IH' := IH (fun x I => H x (or_intror I))). destruct (object_eqb_spec n s) as [->|Ne].
  - rewrite (H (s, c)) by (cbn [In fst]; auto). destruct (Q (s, c)); [|exact IH']. cbn [cell_named]. now rewrite object_eqb_refl.
  - destruct (P (n, c)), (Q (n, c)); cbn [cell_named]; destruct (object_eqb_spec n s); try contradiction; exact IH'.
Qed.

Lemma cell_named_filter_some s P cells c : cell_named s cells = Some c -> P (s, c) = true -> cell_named s (filter P cells) = Some c.
Proof.
  induction cells as [|[n a] cells IH]; cbn [cell_named filter]; [discriminate|]. destruct (object_eqb_spec n s) as [->|Ne].
  - intros [= ->] ->. cbn [cell_named]. now rewrite object_eqb_refl.
  - intros H Hp. destruct (P (n, a)); [|now apply IH]. cbn [cell_named]. destruct (object_eqb_spec n s); [contradiction|now apply IH].
Qed.

Lemma numbered_nth f names x : forall i, In x (numbered names f i) -> exists j, nth_error names j = Some (fst x) /\ snd x = (f, ENVIRONMENT_FIRST_ARG + (i + j))%nat.
Proof.
  induction names as [|n names IH]; intros i; cbn [numbered In]; [contradiction|]. intros [<-|I].
  - exists 0%nat. cbn [fst snd nth_error]. now rewrite Nat.add_0_r.
  - destruct (IH _ I) as (j & E & L). exists (S j). split; [exact E|]. rewrite L. f_equal. lia.
Qed.

Lemma numbered_name f g names names' n1 n2 a : In (n1, a) (numbered names f 0) -> In (n2, a) (numbered names' g 0) -> names = names' -> f = g /\ n1 = n2.
Proof.
  intros (j & E1 & L1)%numbered_nth (k & E2 & L2)%numbered_nth <-. cbn [fst snd] in *. rewrite L1 in L2. injection L2 as -> L2.
  split; [reflexivity|]. assert (j = k) as -> by lia. congruence.
Qed.

(** [c] is the cell of [s] in the frame [env] itself. *)
Definition own_cell (h : heap) (sh : shape) (env s : object) (c : address) : Prop :=
  (env = THE_GLOBAL_ENV /\ symbol_cell s = Some c) \/
  (exists f names parent, env = Pointer TC_ENVIRONMENT f /\ sh f = KFrame names parent /\ local_cell h sh env s true = Some c).

Lemma own_cell_ok h sh env s c : well_formed h sh -> symbol_ok sh s -> own_cell h sh env s c ->
  is_cell sh c /\ exists w, content h c = Some w /\ cell_ok sh w.
Proof.
  intros W Sy [[-> Ec]|(f & nm & pa & -> & Ef & Ec)].
  - apply (resolves_cell h sh s THE_GLOBAL_ENV c THE_GLOBAL_ENV W Sy). rewrite <- Ec. constructor.
  - now apply local_cell_ok with TC_ENVIRONMENT f nm pa s true.
Qed.

Lemma own_parameter h sh env s c g names parent s' : well_formed h sh -> symbol_ok sh s -> own_cell h sh env s c -> sh g = KFrame names parent ->
  In (s', c) (numbered names g 0) -> Pointer TC_ENVIRONMENT g = env /\ s' = s.
Proof.
  intros W Sy O Eg I. assert (Kc : sh (fst c) = KFrame names parent).
  { apply numbered_nth in I as (j & _ & L). cbn [snd] in L. rewrite L. exact Eg. }
  destruct O as [[-> Ec]|(f & nm & pa & -> & Ef & Ec)].
  - destruct Sy as (t & b & -> & _ & Kb). injection Ec as <-. cbn [fst] in Kc. congruence.
  - unfold local_cell, frame_cells in Ec. rewrite Ef in Ec. apply cell_named_in, in_app_iff in Ec as [Ec|Ec].
    + apply in_extension_cells in Ec as (q & Kq & L). cbn [fst snd] in *. rewrite L in Kc. cbn [fst] in Kc. congruence.
    + apply filter_In in Ec as [Ec _]. assert (f = g) as ->.
      { apply numbered_nth in Ec as (j & _ & L), I as (k & _ & L'). cbn [snd] in *. congruence. }
      assert (nm = names) as -> by congruence. destruct (numbered_name _ _ _ _ _ _ _ Ec I eq_refl) as [_ ->]. now split.
Qed.

Lemma local_cell_named h sh h' sh' t f names parent s fu : well_formed h sh -> sh f = KFrame names parent -> extends sh sh' ->
  content h' (f, ENVIRONMENT_FUNCTION) = content h (f, ENVIRONMENT_FUNCTION) ->
  (forall e, sh e = KExtension f -> block_of h' e = block_of h e) ->
  (forall a, In (s, a) (numbered names f 0) -> visible_cell h' fu (s, a) = visible_cell h fu (s, a)) ->
  local_cell h' sh' (Pointer t f) s fu = local_cell h sh (Pointer t f) s fu.
Proof.
  intros W E X Ef Ee V. unfold local_cell, frame_cells. rewrite (extends_kind _ _ _ _ X E), E by discriminate.
  rewrite (extension_cells_same h sh h' sh' f names parent), !cell_named_app by assumption.
  destruct (cell_named s (extension_cells h sh f)); [reflexivity|]. apply cell_named_filter_agree. intros [n a] I En. cbn [fst] in En. subst n. now apply V.
Qed.

Lemma own_cell_defines h sh env s c w v : well_formed h sh -> symbol_ok sh s -> own_cell h sh env s c -> content h c = Some w ->
  value_ok sh v -> (location h sh c = c -> v <> UNBOUND_OBJECT) -> defines h sh env s c v (stored h (location h sh c) v) sh.
Proof.
  intros W Sy O Ec V Nu. destruct (own_cell_ok _ _ _ _ _ W Sy O) as (C & w' & Ec' & Ok). assert (w' = w) as -> by congruence. clear Ec'.
  destruct (store_value h sh c v w W C Ec V) as [W' Ev Loc Val Cells _]. destruct (location_ok h sh c w W C Ec) as [L (u & Eu & U)].
  destruct (location_structure h sh _ v L _ eq_refl) as (S1 & S2 & S3). set (h' := stored h (location h sh c) v) in *.
  assert (Vis : visible_cell h' false (s, c) = true).
  { unfold visible_cell. cbn [orb snd]. destruct (address_eq_dec c (location h sh c)) as [Q|Ne].
    - unfold h'. rewrite <- Q. rewrite content_stored_eq with (old := w) by exact Ec. destruct (object_eqb_spec v UNBOUND_OBJECT); [exfalso; now apply (Nu (eq_sym Q))|reflexivity].
    - unfold h'. rewrite content_stored_ne by exact Ne. rewrite Ec. destruct (cell_cases h sh c w W Ec Ok) as [[_ Q]|(t & -> & _)]; [congruence|reflexivity]. }
  constructor; auto using extends_refl.
  - destruct O as [[-> Es]|(f & nm & pa & -> & Ef & El)]; [exact Es|]. rewrite <- (Cells TC_ENVIRONMENT f nm pa s Ef) in El.
    unfold local_cell, frame_cells in *. rewrite Ef, cell_named_app in *. destruct (cell_named s (extension_cells h' sh f)); [exact El|].
    rewrite filter_true in El by reflexivity. now apply cell_named_filter_some.
  - intros g nm pa s' Eg Ne. apply local_cell_named with nm pa; auto using extends_refl; [now apply S1 with nm pa|intros e Ke; now apply S2 with g|].
    intros a I. unfold visible_cell. cbn [snd]. destruct (address_eq_dec a (location h sh c)) as [->|Na]; [|unfold h'; now rewrite content_stored_ne].
    exfalso. assert (location h sh c = c) as Q.
    { destruct (location_cell h sh c w W C Ec) as [Q|K]; [exact Q|]. apply numbered_nth in I as (j & _ & La). cbn [snd] in La. rewrite La in K. cbn [fst] in K. congruence. }
    rewrite Q in I. destruct (own_parameter h sh env s c g nm pa s' W Sy O Eg I) as [E1 E2]. destruct Ne; contradiction.
  - rewrite (Val c w C Ec). now destruct (address_eq_dec _ _).
  - intros d x D Ed Ne. rewrite (Val d x D Ed). destruct (address_eq_dec _ _) as [Q|]; [|reflexivity]. exfalso. apply Ne; [|exact Q].
    destruct O as [[-> Es]|(f & nm & pa & -> & Ef & El)]; [exact Es|exact El].
Qed.

(** ** The state of variables and symbols *)

Section Symbols.
(* The symbols of the table, by their names. *)
Context (table : list Z -> object -> Prop).

Record state (h : heap) (sh : shape) (ob : nat) (n : Z) : Prop := {
  state_variables : well_formed h sh;
  state_symbols : obarray_ok h sh ob n;
  state_table : forall name s, interned h sh ob n name s <-> table name s;
  state_external : REFERENCE_TRAP_P (non_object h) = false;
  state_gc : gc_enabled h = true
}.

(** Symbols that [strengthen_symbol] and [weaken_symbol] accept. *)
Definition known_symbol (s : object) : Prop :=
  UNINTERNED_SYMBOL_P s = true \/ exists name, table name s.

Lemma evolves_state h sh h' sh' ob n : evolves h sh h' sh' -> well_formed h' sh' -> state h sh ob n -> state h' sh' ob n.
Proof.
  intros E W [_ O T Ex G]. constructor; [exact W|now apply evolves_obarray with h sh| |now rewrite (evolves_non_object _ _ _ _ E)|now rewrite (evolves_gc_enabled _ _ _ _ E)].
  intros name s. rewrite <- T. now apply (evolves_interned h sh h' sh' ob n name s).
Qed.

Lemma table_changes h sh h1 : well_formed h sh -> changes (table_address sh) h h1 -> well_formed h1 sh /\ same_variables h sh h1 sh.
Proof.
  intros W C. assert (Bl : forall b, sh b <> KObarray -> (forall i, sh b <> KBucket i) -> block_of h1 b = block_of h b).
  { intros b N1 N2. apply (changes_block _ _ _ _ C). intros i [K|(j & K)]; [contradiction|]. now apply N2 in K. }
  assert (Ct : forall a, sh (fst a) <> KObarray -> (forall i, sh (fst a) <> KBucket i) -> content h1 a = content h a).
  { intros [b i] N1 N2. unfold content. cbn [fst snd] in *. now rewrite Bl. }
  split.
  - intros b. specialize (W b). destruct (sh b) eqn:K.
    1, 2: destruct (block_of h1 b) as [w|] eqn:E1; [unfold block_ok; rewrite K; exact I|];
      destruct (block_of h b) as [w|] eqn:E; [|congruence]; exfalso; apply block_lt in E; rewrite <- (same_length _ _ _ C) in E;
      apply nth_error_None in E1; lia.
    all: rewrite Bl by (rewrite K; discriminate); destruct (block_of h b); congruence || exact W.
  - constructor.
    + intros a o H E. rewrite Ct; [exact E| |]; destruct H as [[H|[H _]]|H]; try (rewrite H; discriminate);
        unfold is_cell in H; intros; intros K; rewrite K in H; contradiction.
    + intros t g nm pa s fu Eg. apply local_cell_same with nm pa; auto using extends_refl.
      * apply Ct; cbn [fst]; rewrite Eg; discriminate.
      * intros e Ke. apply Bl; rewrite Ke; discriminate.
      * right. intros name a Ca Fa. unfold visible_cell. cbn [snd]. rewrite Ct; [reflexivity| |]; rewrite Fa, Eg; discriminate.
Qed.

Lemma strengthen_ok h sh ob n s t : state h sh ob n -> known_symbol s -> pair_type t ->
  returns (replace_symbol_bucket_type s t h) (fun '(_, h1) => state h1 sh ob n /\ same_variables h sh h1 sh /\ changes (table_address sh) h h1).
Proof.
  intros St [Un|(name & I)] T.
  - unfold replace_symbol_bucket_type. rewrite Un. ret_now. split; [exact St|]. split; [apply same_variables_refl|apply changes_refl].
  - destruct St as [W O Tb Ex G]. apply Tb in I. eapply returns_weaken; [apply (replace_symbol_bucket_type_ok h sh ob n name s t O I T)|].
    intros [u h1] (O1 & M & _ & C). destruct (table_changes h sh h1 W C) as [W1 S].
    split; [|now split]. constructor; [exact W1|exact O1| |now rewrite (same_non_object _ _ _ C)|now rewrite (same_gc_enabled _ _ _ C)].
    intros other x. now rewrite M.
Qed.

Lemma defines_after h sh h1 env s cell v h' sh' : well_formed h sh -> same_variables h sh h1 sh -> environment_ok sh env -> symbol_ok sh s ->
  defines h1 sh env s cell v h' sh' -> defines h sh env s cell v h' sh'.
Proof.
  intros W [S1 S2] E Sy [W' X Dc Do Dv Ds]. constructor; auto.
  - intros g nm pa s' Eg Ne. rewrite (Do g nm pa s' Eg Ne). now apply S2 with nm pa.
  - intros d x D Ed Ne. assert (Ed1 : content h1 d = Some x) by (apply S1; [now left; left|exact Ed]).
    rewrite <- (kept_value h sh h1 sh d x W (extends_refl sh) S1 D Ed). apply Ds with x; auto.
    intros Lc El. rewrite (kept_location h sh h1 sh d x W (extends_refl sh) S1 D Ed) in El.
    assert (Lc0 : local_cell h sh env s true = Some cell).
    { destruct E as [->|(f & nm & pa & -> & Ef)]; [exact Lc|]. now rewrite <- (S2 _ f nm pa s true Ef). }
    apply Ne; [exact Lc0|]. rewrite El. assert (Cc : is_cell sh cell /\ exists y, content h cell = Some y).
    { assert (O : own_cell h sh env s cell).
      { destruct E as [->|(f & nm & pa & -> & Ef)]; [now left|right]. now exists f, nm, pa. }
      destruct (own_cell_ok h sh env s cell W Sy O) as (Cc & y & Ey & _). eauto. }
    destruct Cc as [Cc (y & Ey)]. now apply kept_location with y.
Qed.

(** ** [define_variable] *)

(** The global environment and the frames, with what a definition needs in them. *)
Definition definable (h : heap) (sh : shape) (env s : object) : Prop :=
  (env = THE_GLOBAL_ENV /\ known_symbol s) \/
  (exists f names parent, env = Pointer TC_ENVIRONMENT f /\ sh f = KFrame names parent /\ shadow_space h sh f parent s).

Lemma definable_environment h sh env s : definable h sh env s -> environment_ok sh env.
Proof. intros [[-> _]|(f & nm & pa & -> & E & _)]; [now left|right; eauto]. Qed.

Definition variable_defined (h : heap) (sh : shape) (ob : nat) (n : Z) (env s v : object) (out : Z * heap) : Prop :=
  let '(code, h') := out in
  exists sh', state h' sh' ob n /\ extends sh sh' /\
    ((code = PRIM_INTERRUPT /\ unchanged h sh h' sh') \/ (code = PRIM_DONE /\ exists cell, defines h sh env s cell v h' sh')).

Lemma define_variable_ok h sh ob n env s value : state h sh ob n -> definable h sh env s -> symbol_ok sh s -> storable h sh value ->
  gc_enabled h = true -> available h < 2 ^ 56 ->
  returns (define_variable env s value h) (variable_defined h sh ob n env s (mapped h value)).
Proof.
  intros St D Sy [V Nu] Gc Av. pose proof (state_variables _ _ _ _ St) as W. pose proof (definable_environment _ _ _ _ D) as E. unfold define_variable.
  rewrite (environment_ok_p _ _ E). cbn [orb negb]. destruct D as [[-> Kn]|(f & nm & pa & -> & Ef & Sp)].
  - erewrite andthen_return by (apply scan_global_ok with sh; exact Sy). pose proof Sy as (t & b & -> & Sp & Kb). cbn [symbol_cell].
    change (GLOBAL_FRAME_P THE_GLOBAL_ENV) with true. cbv iota. set (s := Pointer t b) in *. set (c := (b, SYMBOL_GLOBAL_VALUE)) in *.
    destruct (strengthen_ok h sh ob n s TC_LIST St Kn) as ([[] h1] & E1 & St1 & S1 & C1); [now left|].
    erewrite andthen_return by exact E1. pose proof (state_variables _ _ _ _ St1) as W1.
    assert (Own : own_cell h1 sh THE_GLOBAL_ENV s c) by (left; now split).
    destruct (own_cell_ok _ _ _ _ _ W1 Sy Own) as (C & w & Ew & Ok).
    destruct (assign_variable_end_ok h1 sh c w value true W1 Ew Ok) as (u & _ & _ & Ea). unfold assignment in Ea. rewrite orb_true_r in Ea.
    erewrite andthen_return by exact Ea. ret_now. assert (Hm : mapped h1 value = mapped h value) by (unfold mapped; now rewrite (same_non_object _ _ _ C1)).
    rewrite Hm. pose proof (own_cell_defines h1 sh THE_GLOBAL_ENV s c w (mapped h value) W1 Sy Own Ew V (fun _ => Nu)) as Df.
    exists sh. split; [apply evolves_state with h1 sh; [|apply Df|exact St1]|].
    { apply evolves_stored; [constructor|]. apply location_word. now apply location_ok with w. }
    split; [apply extends_refl|]. right. split; [reflexivity|]. exists c. now apply defines_after with h1.
  - erewrite andthen_return by (apply (scan_frame_ok h sh f nm pa); assumption).
    destruct (local_cell h sh (Pointer TC_ENVIRONMENT f) s true) as [c|] eqn:El.
    + change (GLOBAL_FRAME_P (Pointer TC_ENVIRONMENT f)) with false. cbv iota. erewrite andthen_return by reflexivity.
      assert (Own : own_cell h sh (Pointer TC_ENVIRONMENT f) s c) by (right; now exists f, nm, pa).
      destruct (own_cell_ok _ _ _ _ _ W Sy Own) as (C & w & Ew & Ok).
      destruct (assign_variable_end_ok h sh c w value true W Ew Ok) as (u & _ & _ & Ea). unfold assignment in Ea. rewrite orb_true_r in Ea.
      erewrite andthen_return by exact Ea. ret_now. pose proof (own_cell_defines h sh _ s c w (mapped h value) W Sy Own Ew V (fun _ => Nu)) as Df.
      exists sh. split; [apply evolves_state with h sh; [|apply Df|exact St]|].
      { apply evolves_stored; [constructor|]. apply location_word. now apply location_ok with w. }
      split; [apply extends_refl|]. right. split; [reflexivity|]. now exists c.
    + destruct (define_new_added h sh f nm pa s value W Ef Sy El (or_introl V) Gc Av Sp) as ([code h'] & En & sh' & [[-> U]|[-> (c & Ad)]]).
      * exists (PRIM_INTERRUPT, h'). split; [exact En|]. exists sh'. split; [apply evolves_state with h sh; [apply U|apply U|exact St]|].
        split; [apply U|]. left. now split.
      * exists (PRIM_DONE, h'). split; [exact En|]. destruct (added_evolves _ _ _ _ _ _ _ _ Ad) as (Ev & W' & X). exists sh'.
        split; [now apply evolves_state with h sh|]. split; [exact X|]. right. split; [reflexivity|]. exists c. apply added_value_defines; eauto.
Qed.

(** ** Removal of a slot of an extension *)

(** What [unbind_loop] leaves of the slots when it finds the one at [length pre]. *)
Definition without_slot (pre post : list object) : list object :=
  match rev post with
  | [] => pre
  | z :: rest => pre ++ z :: rev rest
  end.

Lemma without_slot_snoc pre post z : without_slot pre (post ++ [z]) = pre ++ z :: post.
Proof. unfold without_slot. rewrite rev_app_distr. cbn [rev app]. now rewrite rev_involutive. Qed.

Lemma without_slot_length pre x post : zlength (without_slot pre post) = zlength (pre ++ x :: post) - 1.
Proof.
  destruct (snoc_cases post) as [->|(p & z & ->)]; [unfold without_slot; cbn [rev]|rewrite without_slot_snoc]; rewrite !length_app; cbn [length];
    rewrite ?length_app; cbn [length]; lia.
Qed.

Lemma without_slot_in pre post z : In z (without_slot pre post) <-> In z pre \/ In z post.
Proof.
  destruct (snoc_cases post) as [->|(p & y & ->)]; [unfold without_slot; cbn [rev In]; tauto|].
  rewrite without_slot_snoc, !in_app_iff. cbn [In]. tauto.
Qed.

(** The block [e] of [h] has new words, of the same number. *)
Record block_replaced (h : heap) (sh : shape) (e : nat) (words : list object) (h' : heap) : Prop := {
  br_block : block_of h' e = Some words;
  br_others : forall b, b <> e -> block_of h' b = block_of h b;
  br_evolves : evolves h sh h' sh;
  br_available : available h' = available h
}.

Lemma block_replaced_stored h sh e words i v words0 h0 : block_replaced h0 sh e words0 h -> environment_word sh (e, i) ->
  words = update i v words0 -> block_replaced h0 sh e words (stored h (e, i) v).
Proof.
  intros [B O E A] Ew ->. constructor.
  - now rewrite block_stored, Nat.eqb_refl, B.
  - intros b Ne. rewrite block_stored_ne by (cbn [fst]; congruence). now apply O.
  - now apply evolves_stored.
  - now rewrite available_stored.
Qed.

Lemma block_replaced_refl h sh e words : block_of h e = Some words -> block_replaced h sh e words h.
Proof. intros E. constructor; auto using evolves_refl. Qed.

Lemma replaced_content h sh e words h' a o : block_replaced h sh e words h' -> fst a <> e -> content h a = Some o -> content h' a = Some o.
Proof. intros R Ne. unfold content. now rewrite (br_others _ _ _ _ _ R). Qed.

(** The words of an extension with [count] of its slots in use. *)
Definition extension_block_words (header : object) (parent procedure : object) (count : Z) (slots : list object) : list object :=
  header :: parent :: procedure :: LONG_TO_UNSIGNED_FIXNUM count :: slots.

Section Unbind.
Context (h : heap) (sh : shape) (f e : nat) (s : object) (header parent procedure : object) (not_found : operation unit).
Hypothesis W : well_formed h sh.
Hypothesis Ef : content h (f, ENVIRONMENT_FUNCTION) = Some (Pointer TC_VECTOR e).
Hypothesis Ke : sh e = KExtension f.
Hypothesis Nfe : f <> e.

Lemma unbind_found pre x post free count : binding_of sh x s ->
  block_of h e = Some (header :: parent :: procedure :: count :: (pre ++ x :: post) ++ free) ->
  returns (unbind_loop (length (x :: post)) (length pre) (e, 4%nat) (zlength (pre ++ x :: post)) (Pointer TC_ENVIRONMENT f) s not_found h)
    (fun '(_, h') => block_replaced h sh e
       (extension_block_words header parent procedure (zlength (pre ++ x :: post) - 1) (without_slot pre post ++ SHARP_F :: free)) h').
Proof.
  intros (q & -> & Kq) Eb. cbn [length unbind_loop fst snd]. rewrite <- app_assoc in Eb. cbn [app] in Eb.
  assert (Wd : forall i, environment_word sh (e, i)) by (intros i; unfold environment_word; cbn [fst]; now rewrite Ke).
  run load_ok.
  2:{ apply content_nth with (1 := Eb). cbn [Nat.add nth_error]. now rewrite nth_error_app2, Nat.sub_diag by lia. }
  unfold PAIR_CAR. shaped W Kq. destruct B as (v & -> & _). run MEMORY_REF_ok; [|word Eb0]. rewrite object_eqb_refl.
  set (len := zlength (pre ++ Pointer TC_LIST q :: post)). assert (El : len = zlength pre + 1 + zlength post) by (unfold len; rewrite length_app; cbn [length]; lia).
  assert (Last : (4 + Z.to_nat (len - 1))%nat = (4 + (length pre + length post))%nat) by lia. cbv zeta. rewrite Last.
  assert (exists h1 slots1, (if Z.of_nat (length pre) <? len - 1
      then binding <- load (e, (4 + (length pre + length post))%nat) ;; store (e, (4 + length pre)%nat) binding else ret tt) h = Return (tt, h1) /\
      block_replaced h sh e (header :: parent :: procedure :: count :: slots1) h1 /\
      update (length pre + length post) SHARP_F slots1 = without_slot pre post ++ SHARP_F :: free) as (h1 & slots1 & E1 & B1 & U1).
  { destruct (snoc_cases post) as [->|(p & z & ->)].
    - exists h, (pre ++ Pointer TC_LIST q :: free). cbn [length app] in *. destruct (Z.ltb_spec (Z.of_nat (length pre)) (len - 1)); [lia|].
      split; [reflexivity|]. split; [now apply block_replaced_refl|]. rewrite Nat.add_0_r. apply update_app.
    - rewrite length_app in *. cbn [length] in *. destruct (Z.ltb_spec (Z.of_nat (length pre)) (len - 1)); [|lia].
      assert (Ez : content h (e, (4 + (length pre + (length p + 1)))%nat) = Some z).
      { apply content_nth with (1 := Eb). cbn [Nat.add nth_error]. rewrite nth_error_app2 by lia.
        replace (length pre + (length p + 1) - length pre)%nat with (S (length p)) by lia. cbn [nth_error].
        now rewrite <- app_assoc, nth_error_app2, Nat.sub_diag by lia. }
      eexists. exists (pre ++ z :: p ++ z :: free). split; [|split].
      + run load_ok; [|exact Ez]. apply store_ok with (Pointer TC_LIST q). apply content_nth with (1 := Eb). cbn [Nat.add nth_error].
        now rewrite nth_error_app2, Nat.sub_diag by lia.
      + eapply block_replaced_stored; [apply block_replaced_refl; exact Eb|apply Wd|]. cbn [Nat.add update]. rewrite update_app.
        now rewrite <- app_assoc.
      + rewrite without_slot_snoc, <- app_assoc. cbn [app].
        replace (length pre + (length p + 1))%nat with (length (pre ++ z :: p)) by (rewrite length_app; cbn [length]; lia).
        replace (pre ++ z :: p ++ z :: free) with ((pre ++ z :: p) ++ z :: free) by (rewrite <- app_assoc; reflexivity).
        rewrite update_app. now rewrite <- app_assoc. }
  erewrite andthen_return by exact E1.
  assert (Ef1 : content h1 (f, ENVIRONMENT_FUNCTION) = Some (Pointer TC_VECTOR e)) by (apply (replaced_content _ _ _ _ _ _ _ B1); [exact Nfe|exact Ef]).
  unfold SET_EXTENDED_FRAME_LENGTH, SET_FRAME_EXTENSION_LENGTH. pose proof (br_block _ _ _ _ _ B1) as Eb1.
  erewrite andthen_return by (erewrite andthen_return by (apply GET_FRAME_PROCEDURE_ok; exact Ef1); apply MEMORY_SET_ok with count; word Eb1).
  set (h2 := stored h1 _ _).
  assert (B2 : block_replaced h sh e (header :: parent :: procedure :: LONG_TO_UNSIGNED_FIXNUM (len - 1) :: slots1) h2).
  { eapply block_replaced_stored; [exact B1|apply Wd|reflexivity]. }
  assert (exists y, nth_error slots1 (length pre + length post) = Some y) as (y & Ey).
  { destruct (nth_error slots1 (length pre + length post)) eqn:Q; [eauto|]. exfalso. apply nth_error_None in Q.
    rewrite <- (length_update (length pre + length post) SHARP_F slots1), U1, length_app in Q. cbn [length] in Q.
    pose proof (without_slot_length pre (Pointer TC_LIST q) post). fold len in H. lia. }
  pose proof (br_block _ _ _ _ _ B2) as Eb2.
  erewrite store_ok by (apply content_nth with (1 := Eb2); cbn [Nat.add nth_error]; exact Ey).
  eexists. split; [reflexivity|]. eapply block_replaced_stored; [exact B2|apply Wd|]. unfold extension_block_words. cbn [Nat.add update]. now rewrite U1.
Qed.

Lemma unbind_search free count : forall after df pre, Forall2 (binding_of sh) after df ->
  block_of h e = Some (header :: parent :: procedure :: count :: (pre ++ after) ++ free) ->
  (~ In s df /\ unbind_loop (length after) (length pre) (e, 4%nat) (zlength (pre ++ after)) (Pointer TC_ENVIRONMENT f) s not_found h = not_found h) \/
  (exists pre' x post, pre ++ after = (pre ++ pre') ++ x :: post /\ binding_of sh x s /\
     returns (unbind_loop (length after) (length pre) (e, 4%nat) (zlength (pre ++ after)) (Pointer TC_ENVIRONMENT f) s not_found h)
      (fun '(_, h') => block_replaced h sh e
         (extension_block_words header parent procedure (zlength (pre ++ after) - 1) (without_slot (pre ++ pre') post ++ SHARP_F :: free)) h')).
Proof.
  induction after as [|x after IH]; intros df pre F Eb.
  - left. inversion F; subst. split; [intros []|reflexivity].
  - inversion F as [|? m ? df' Bx F']; subst. destruct (object_eqb_spec m s) as [->|Ne].
    + right. exists [], x, after. rewrite !app_nil_r. split; [reflexivity|]. split; [exact Bx|]. now apply unbind_found with count.
    + specialize (IH df' (pre ++ [x]) F'). rewrite <- !app_assoc in IH. cbn [app] in IH. rewrite <- app_assoc in Eb. cbn [app] in Eb.
      specialize (IH Eb).
      assert (Step : unbind_loop (length (x :: after)) (length pre) (e, 4%nat) (zlength (pre ++ x :: after)) (Pointer TC_ENVIRONMENT f) s not_found h =
        unbind_loop (length after) (length (pre ++ [x])) (e, 4%nat) (zlength (pre ++ x :: after)) (Pointer TC_ENVIRONMENT f) s not_found h).
      { destruct Bx as (q & -> & Kq). cbn [length unbind_loop fst snd]. run load_ok.
        2:{ apply content_nth with (1 := Eb). cbn [Nat.add nth_error]. now rewrite nth_error_app2, Nat.sub_diag by lia. }
        unfold PAIR_CAR. shaped W Kq. destruct B as (v & -> & _). run MEMORY_REF_ok; [|word Eb0]. destruct (object_eqb_spec m s); [contradiction|].
        replace (length (pre ++ [Pointer TC_LIST q])) with (S (length pre)) by (rewrite length_app; cbn [length]; lia). reflexivity. }
      rewrite Step. destruct IH as [[Nin E]|(pre' & y & post & Q & By & R)].
      * left. split; [|exact E]. intros [->|I]; contradiction.
      * right. exists (x :: pre'), y, post. rewrite <- !(app_assoc pre [x] pre') in *. cbn [app] in *. split; [exact Q|]. split; [exact By|exact R].
Qed.
End Unbind.

(** ** Removal of a name from a frame *)

(** The frame [f] has no visible cell for [s] any more, and nothing else changes. *)
Record name_removed (h : heap) (sh : shape) (f : nat) (s : object) (h' : heap) (sh' : shape) : Prop := {
  nr_well_formed : well_formed h' sh';
  nr_extends : extends sh sh';
  nr_evolves : evolves h sh h' sh';
  nr_none : local_cell h' sh' (Pointer TC_ENVIRONMENT f) s false = None;
  nr_others : forall g names parent s', sh g = KFrame names parent -> g <> f \/ s' <> s ->
    local_cell h' sh' (Pointer TC_ENVIRONMENT g) s' false = local_cell h sh (Pointer TC_ENVIRONMENT g) s' false;
  nr_values : forall s' env d fr, symbol_ok sh s' -> resolves h sh s' env (Some d) fr -> fr <> Pointer TC_ENVIRONMENT f \/ s' <> s ->
    value_of h' sh' d = value_of h sh d;
  nr_cells : forall a x, is_cell sh a -> content h a = Some x -> exists y, content h' a = Some y
}.

Lemma resolves_reaches h sh s env c fr : resolves h sh s env c fr -> reaches h sh s env fr.
Proof. induction 1 as [| | |f nm pa c fr E L R IH]; try constructor. now apply reaches_parent with nm pa. Qed.

(** What the name denotes without the binding in the frame: what it denotes in the parent. *)
Definition denotes_outside (h : heap) (sh : shape) (parent s : object) (r : result) : Prop :=
  (parent = THE_NULL_ENV /\ r = (ERR_UNBOUND_VARIABLE, None)) \/ denotes h sh parent s r.

Lemma removed_unreached h sh f s h' sh' env' s' c fr : name_removed h sh f s h' sh' ->
  resolves h sh s' env' c fr -> s' <> s \/ ~ reaches h sh s env' (Pointer TC_ENVIRONMENT f) -> resolves h' sh' s' env' c fr.
Proof.
  intros D R. pose proof (nr_extends _ _ _ _ _ _ D) as X.
  assert (Same : forall g nm pa, sh g = KFrame nm pa -> s' <> s \/ ~ reaches h sh s (Pointer TC_ENVIRONMENT g) (Pointer TC_ENVIRONMENT f) ->
    local_cell h' sh' (Pointer TC_ENVIRONMENT g) s' false = local_cell h sh (Pointer TC_ENVIRONMENT g) s' false).
  { intros g nm pa Eg H. apply (nr_others _ _ _ _ _ _ D g nm pa s' Eg). destruct H as [H|H]; [now right|left]. intros ->. apply H. constructor. }
  induction R as [|g nm pa c E L|g nm E L|g nm pa c fr E L R IH]; intros H.
  - constructor.
  - apply resolves_here with nm pa; [kinds X|]. now rewrite (Same g nm pa E H).
  - apply resolves_end with nm; [kinds X|]. now rewrite (Same g nm THE_NULL_ENV E H).
  - apply resolves_parent with nm pa; [kinds X|now rewrite (Same g nm pa E H)|]. apply IH.
    destruct (object_eq_dec s' s) as [->|]; [right|now left]. destruct H as [H|H]; [congruence|]. intros K. apply H.
    now apply reaches_parent with nm pa.
Qed.

(** A frame is not in the search from its parent. *)
Lemma reaches_le h sh s env env' : well_formed h sh -> reaches h sh s env env' ->
  forall b g, environment_before sh b env -> env' = Pointer TC_ENVIRONMENT g -> (g < b)%nat.
Proof.
  intros W R. induction R as [env|f nm pa env E L R IH]; intros b g B Eg.
  - subst env. destruct B as [Q|[Q|(f & nm & pa & [= ->] & Lt & _)]]; [discriminate|discriminate|exact Lt].
  - destruct B as [Q|[Q|(f' & nm' & pa' & [= <-] & Lt & _)]]; [discriminate|discriminate|].
    pose proof (IH f g (frame_before _ _ _ _ _ W E) Eg). lia.
Qed.

Lemma removed_denotes h sh f names parent s h' sh' : well_formed h sh -> sh f = KFrame names parent -> symbol_ok sh s ->
  name_removed h sh f s h' sh' ->
  (forall env' r, reaches h sh s env' (Pointer TC_ENVIRONMENT f) -> (denotes h' sh' env' s r <-> denotes_outside h sh parent s r)) /\
  (forall env' s' r, environment_ok sh env' -> symbol_ok sh s' -> ~ (s' = s /\ reaches h sh s env' (Pointer TC_ENVIRONMENT f)) ->
     (denotes h' sh' env' s' r <-> denotes h sh env' s' r)).
Proof.
  intros W Ef Sy D. pose proof (nr_extends _ _ _ _ _ _ D) as X. split.
  - intros env' r R. assert (Own : forall b, environment_before sh b parent -> (b <= f)%nat -> ~ reaches h sh s parent (Pointer TC_ENVIRONMENT f)).
    { intros b B Lb K. pose proof (reaches_le _ _ _ _ _ W K b f B eq_refl). lia. }
    assert (Up : forall c fr, resolves h' sh' s (Pointer TC_ENVIRONMENT f) c fr -> resolves h' sh' s env' c fr).
    { intros c fr Rf. remember (Pointer TC_ENVIRONMENT f) as ef eqn:Eef. induction R as [e|g nm pa e Eg L R IH]; [exact Rf|].
      destruct (Nat.eq_dec g f) as [->|Ng]; [congruence|]. apply resolves_parent with nm pa; [kinds X| |now apply IH].
      rewrite (nr_others _ _ _ _ _ _ D g nm pa s Eg) by now left. exact L. }
    pose proof (frame_before _ _ _ _ _ W Ef) as Bp. assert (Ef' : sh' f = KFrame names parent) by kinds X.
    destruct (parent_environment _ _ _ Bp) as [->|Ep].
    + assert (R' : resolves h' sh' s env' None (Pointer TC_ENVIRONMENT f)) by (apply Up, resolves_end with names; [exact Ef'|apply D]).
      split.
      * intros (c & fr & R2 & Dn). destruct (resolves_unique _ _ _ _ _ _ _ _ R' R2) as [<- _]. left. now split.
      * intros [[_ ->]|(c & fr & R2 & _)]; [|inversion R2]. exists None, (Pointer TC_ENVIRONMENT f). now split.
    + destruct (resolves_total h sh s parent W Sy Ep) as (c & fr & R0).
      assert (R1 : resolves h' sh' s parent c fr).
      { apply (removed_unreached h sh f s h' sh' parent s c fr D R0). right. now apply (Own f). }
      assert (R' : resolves h' sh' s env' c fr) by (apply Up, resolves_parent with names parent; [exact Ef'|apply D|exact R1]).
      rewrite (denotes_transfer h sh h' sh' parent s env' s c fr R0 R').
      * split; [now right|]. intros [[-> ->]|H]; [inversion R0|exact H].
      * intros d ->. apply (nr_values _ _ _ _ _ _ D s parent d fr Sy R0). left. intros ->. apply (Own f Bp); [lia|]. now apply resolves_reaches with (Some d).
  - intros env' s' r E' Sy' Nr. assert (H : s' <> s \/ ~ reaches h sh s env' (Pointer TC_ENVIRONMENT f)).
    { destruct (object_eq_dec s' s) as [->|]; [right|now left]. intros R. now apply Nr. }
    destruct (resolves_total h sh s' env' W Sy' E') as (c & fr & R).
    apply (denotes_transfer h sh h' sh' env' s' env' s' c fr R).
    + now apply (removed_unreached h sh f s h' sh' env' s' c fr).
    + intros d ->. apply (nr_values _ _ _ _ _ _ D s' env' d fr Sy' R). destruct (object_eq_dec s' s) as [->|]; [left|now right].
      destruct H as [H|H]; [congruence|]. intros ->. apply H. now apply resolves_reaches with (Some d).
Qed.

(** *** A slot *)

Lemma cell_named_nodup s cells c : NoDup (map fst cells) -> (cell_named s cells = Some c <-> In (s, c) cells).
Proof.
  induction cells as [|[n a] cells IH]; cbn [cell_named map fst In]; intros N; [split; [discriminate|contradiction]|].
  apply NoDup_cons_iff in N as [N1 N2]. destruct (object_eqb_spec n s) as [->|Ne].
  - split; [intros [= ->]; now left|]. intros [[= ->]|I]; [reflexivity|]. exfalso. apply N1. apply in_map_iff. now exists (s, c).
  - rewrite IH by exact N2. split; [now right|]. intros [[= -> _]|I]; [contradiction|exact I].
Qed.

Lemma cell_named_same s l1 l2 : NoDup (map fst l1) -> NoDup (map fst l2) -> (forall c, In (s, c) l1 <-> In (s, c) l2) ->
  cell_named s l1 = cell_named s l2.
Proof.
  intros N1 N2 H. destruct (cell_named s l1) as [c|] eqn:E1.
  - symmetry. apply cell_named_nodup; [exact N2|]. apply H. now apply cell_named_nodup.
  - destruct (cell_named s l2) as [c|] eqn:E2; [|reflexivity]. exfalso. apply cell_named_nodup in E2; [|exact N2]. apply H in E2.
    apply cell_named_nodup in E2; [congruence|exact N1].
Qed.

Lemma without_slot_names sh pre x post df s : Forall2 (binding_of sh) (pre ++ x :: post) df -> NoDup df -> binding_of sh x s ->
  exists df', Forall2 (binding_of sh) (without_slot pre post) df' /\ NoDup df' /\ (forall y, In y df' <-> In y df /\ y <> s).
Proof.
  intros F N Bx. apply Forall2_app_inv_l in F as (d1 & d2 & F1 & F2 & ->). inversion F2 as [|? m ? d3 Bx' F3]; subst.
  assert (m = s) as ->. { destruct Bx as (q & -> & K), Bx' as (q' & [= <-] & K'). congruence. }
  pose proof (NoDup_remove_1 _ _ _ N) as N1. pose proof (NoDup_remove_2 _ _ _ N) as N2.
  assert (Ins : forall y, In y (d1 ++ d3) <-> In y (d1 ++ s :: d3) /\ y <> s).
  { intros y. rewrite !in_app_iff. cbn [In]. split; [intros I; split; [tauto|intros ->; apply N2, in_app_iff, I]|]. intros [[I|[->|I]] Ne]; tauto. }
  destruct (snoc_cases post) as [->|(p & z & ->)].
  - inversion F3; subst. exists d1. rewrite app_nil_r in *. split; [exact F1|]. now split.
  - rewrite without_slot_snoc. apply Forall2_app_inv_l in F3 as (d4 & d5 & F4 & F5 & ->). inversion F5 as [|? zn ? d6 Bz F6]; subst. inversion F6; subst.
    exists (d1 ++ zn :: d4). split; [apply Forall2_app; [exact F1|now constructor]|].
    assert (Pm : forall y, In y (d1 ++ zn :: d4) <-> In y (d1 ++ d4 ++ [zn])) by (intros y; rewrite !in_app_iff; cbn [In]; tauto).
    split; [|intros y; now rewrite Pm, Ins]. rewrite app_assoc in N1. apply NoDup_app_split in N1 as (N3 & _ & N5).
    apply NoDup_app_split in N3 as (N6 & N7 & N8). apply NoDup_app; [exact N6| |].
    + apply NoDup_cons; [|exact N7]. intros I. apply (N5 zn); [apply in_app_iff; now right|now left].
    + intros y I [<-|I']; [apply (N5 zn); [apply in_app_iff; now left|now left]|now apply (N8 y I)].
Qed.

Lemma in_slot_cells sh slots n a : In (n, a) (flat_map (slot_binding sh) slots) <-> exists q t, In (Pointer t q) slots /\ sh q = KBinding n /\ a = (q, 1%nat).
Proof.
  rewrite in_flat_map. split.
  - intros (x & I & H). destruct x as [|t q]; [contradiction|]. cbn [slot_binding] in H. destruct (sh q) eqn:K; try contradiction.
    destruct H as [[= <- <-]|[]]. eauto.
  - intros (q & t & I & K & ->). exists (Pointer t q). split; [exact I|]. cbn [slot_binding]. rewrite K. now left.
Qed.

Lemma slot_removed h sh f e names parent pre x post free s hd tp p h' : well_formed h sh -> sh f = KFrame names parent ->
  content h (f, ENVIRONMENT_FUNCTION) = Some (Pointer TC_VECTOR e) -> sh e = KExtension f ->
  extension_state h sh f e names parent (pre ++ x :: post) free -> binding_of sh x s ->
  Object.OBJECT_DATUM hd = 3 + zlength (pre ++ x :: post) + zlength free -> sh p = KProcedure names parent ->
  block_replaced h sh e (extension_block_words (Immediate hd) parent (Pointer tp p) (zlength (pre ++ x :: post) - 1)
    (without_slot pre post ++ SHARP_F :: free)) h' -> name_removed h sh f s h' sh.
Proof.
  intros W E Ef Ke S Bx Hd Kp R. destruct (extension_defined _ _ _ _ _ _ _ _ S) as (df & F & N & D).
  destruct (without_slot_names sh pre x post df s F N Bx) as (df' & F' & N' & In').
  pose proof (without_slot_length pre x post) as Len. pose proof (extension_size _ _ _ _ _ _ _ _ S) as [Sz1 Sz2].
  set (slots := pre ++ x :: post) in *. set (slots' := without_slot pre post) in *.
  assert (Ewords : extension_words sh f slots' (SHARP_F :: free) (extension_block_words (Immediate hd) parent (Pointer tp p) (zlength slots - 1) (slots' ++ SHARP_F :: free))).
  { destruct (fixnum_word (zlength slots - 1)) as [Ec Dc]; [lia|]. constructor.
    - exists names, parent, tp, p, hd, (Object.LONG_TO_UNSIGNED_FIXNUM (zlength slots - 1)). unfold extension_block_words. rewrite Ec.
      split; [exact E|]. split; [exact Kp|]. split; [reflexivity|]. rewrite Dc. cbn [length]. repeat split; lia.
    - exists df'. split; [exact F'|]. split; [exact N'|]. intros nm pa E2 y I. assert (nm = names) as -> by congruence. apply D. now apply In'. }
  assert (Nfe : f <> e) by congruence.
  assert (Kept : contents_kept h sh h').
  { intros a o Ha. apply (replaced_content _ _ _ _ _ _ _ R). intros Ea. unfold is_location, is_cell in Ha. rewrite Ea, Ke in Ha. destruct Ha as [[[]|[Q _]]|Q]; discriminate. }
  assert (W' : well_formed h' sh).
  { intros b. destruct (Nat.eq_dec b e) as [->|Ne].
    - rewrite (br_block _ _ _ _ _ R). unfold block_ok. rewrite Ke. eauto.
    - rewrite (br_others _ _ _ _ _ R b Ne). apply W. }
  assert (Efn : content h' (f, ENVIRONMENT_FUNCTION) = Some (Pointer TC_VECTOR e)) by now apply (replaced_content _ _ _ _ _ _ _ R).
  assert (Cells : extension_cells h' sh f = flat_map (slot_binding sh) slots').
  { destruct (extension_read h' sh f e names parent W' E Ke) as (sl & fr & S'). rewrite (slots_cells _ _ _ _ _ _ _ _ Efn S'). f_equal.
    destruct S' as [(hd' & t' & p' & ct & Eb & _ & H2 & _) _ _]. rewrite (br_block _ _ _ _ _ R) in Eb. unfold extension_block_words in Eb.
    destruct (fixnum_word (zlength slots - 1)) as [Ec Dc]; [lia|]. rewrite Ec in Eb. injection Eb as _ _ _ <- Es.
    assert (Ll : length sl = length slots') by lia. symmetry in Es. apply app_eq_app in Es as (l & [[-> _]|[-> _]]);
      rewrite length_app in Ll; (destruct l; [now rewrite ?app_nil_r|cbn [length] in Ll; lia]). }
  pose proof (slots_cells _ _ _ _ _ _ _ _ Ef S) as Cells0.
  assert (Par : forall g nm pa fu, sh g = KFrame nm pa -> filter (visible_cell h' fu) (numbered nm g 0) = filter (visible_cell h fu) (numbered nm g 0)).
  { intros g nm pa fu Eg. apply filter_ext_in. intros [m a] I. unfold visible_cell. cbn [snd]. f_equal.
    apply in_numbered in I as (j & L & Ea). cbn [snd] in Ea. subst a. destruct (argument_content h sh g nm pa j W Eg) as (v & Ev & _); [lia|].
    rewrite Ev, (Kept _ v); [reflexivity| |exact Ev]. left. left. unfold is_cell. cbn [fst snd]. rewrite Eg. lia. }
  constructor; auto using extends_refl.
  - apply R.
  - unfold local_cell, frame_cells. rewrite E, Cells, cell_named_app, (Par f names parent) by exact E.
    assert (cell_named s (flat_map (slot_binding sh) slots') = None) as ->.
    { apply cell_named_none. rewrite (slot_names _ _ _ F'). intros I. now apply In' in I. }
    apply cell_named_filter. apply cell_named_none. rewrite numbered_names. apply D.
    apply Forall2_app_inv_l in F as (d1 & d2 & F1 & F2 & ->). inversion F2 as [|? m ? d3 Bx' F3]; subst.
    assert (m = s) as ->. { destruct Bx as (q & -> & K), Bx' as (q' & [= <-] & K'). congruence. } apply in_app_iff. right. now left.
  - intros g nm pa s' Eg Ne. unfold local_cell, frame_cells. rewrite Eg, (Par g nm pa false Eg), !cell_named_app.
    destruct (Nat.eq_dec g f) as [->|Ng].
    + rewrite Cells, Cells0. destruct Ne as [|Ne]; [contradiction|].
      rewrite (cell_named_same s' (flat_map (slot_binding sh) slots') (flat_map (slot_binding sh) slots)); [reflexivity| | |].
      * now rewrite (slot_names _ _ _ F').
      * now rewrite (slot_names _ _ _ F).
      * intros c. rewrite !in_slot_cells. split; intros (q & t & I & K & ->); exists q, t; repeat split; auto; unfold slots, slots' in *.
        -- apply without_slot_in in I. apply in_app_iff. cbn [In]. tauto.
        -- apply without_slot_in. apply in_app_iff in I as [I|[->|I]]; [now left| |now right]. exfalso.
           destruct Bx as (q' & [= -> <-] & K'). congruence.
    + rewrite (extension_cells_same h sh h' sh g nm pa); auto using extends_refl.
      * unfold content. cbn [fst snd]. now rewrite (br_others _ _ _ _ _ R) by congruence.
      * intros e' Ke'. apply (br_others _ _ _ _ _ R). congruence.
  - intros s' env d fr Sy' Rs _. destruct (resolves_cell _ _ _ _ _ _ W Sy' Rs) as (Cd & y & Ey & _). apply (kept_value h sh h' sh d y); auto using extends_refl.
  - intros a y Ca Ea. exists y. apply Kept; [now left; left|exact Ea].
Qed.

(** *** A parameter *)

Lemma parameter_removed h sh f names parent s c : well_formed h sh -> sh f = KFrame names parent ->
  local_cell h sh (Pointer TC_ENVIRONMENT f) s false = Some c -> cell_named s (extension_cells h sh f) = None ->
  name_removed h sh f s (stored h c UNBOUND_OBJECT) sh.
Proof.
  intros W E El Nx. pose proof (local_cell_ok h sh _ f names parent s false c W E El) as (C & w & Ew & Ok).
  unfold local_cell, frame_cells in El. rewrite E, cell_named_app, Nx in El. apply cell_named_in, filter_In in El as [I _].
  assert (Vu : value_ok sh UNBOUND_OBJECT) by (right; right; now left).
  assert (W' : well_formed (stored h c UNBOUND_OBJECT) sh) by (apply well_formed_cell_stored with w; auto; now left).
  assert (Kc : fst c = f) by (apply numbered_nth in I as (j & _ & L); cbn [snd] in L; now rewrite L).
  destruct (location_structure h sh c UNBOUND_OBJECT (or_introl C) _ eq_refl) as (S1 & S2 & S3). set (h' := stored h c UNBOUND_OBJECT) in *.
  assert (Ec' : content h' c = Some UNBOUND_OBJECT) by now apply content_stored_eq with w.
  constructor; auto using extends_refl.
  - apply evolves_stored; [constructor|]. apply location_word. now left.
  - unfold local_cell, frame_cells. rewrite E, cell_named_app.
    rewrite (extension_cells_same h sh h' sh f names parent), Nx; auto using extends_refl; [|now apply S1 with names parent|intros e Ke; now apply S2 with f].
    destruct (cell_named s (filter (visible_cell h' false) (numbered names f 0))) as [d|] eqn:Q; [|reflexivity]. exfalso.
    apply cell_named_in, filter_In in Q as [I' V]. assert (d = c) as ->.
    { apply numbered_nth in I as (j & Ej & L), I' as (k & Ek & L'). cbn [fst snd Nat.add] in *. rewrite L, L'. do 2 f_equal.
      pose proof (frame_names _ _ _ _ _ W E) as ND. rewrite NoDup_nth_error in ND. apply ND; [apply nth_error_Some|]; congruence. }
    unfold visible_cell in V. cbn [snd] in V. rewrite Ec' in V. discriminate.
  - intros g nm pa s' Eg Ne. apply local_cell_named with nm pa; auto using extends_refl; [now apply S1 with nm pa|intros e Ke; now apply S2 with g|].
    intros a Ia. unfold visible_cell. cbn [snd]. destruct (address_eq_dec a c) as [->|Na]; [|unfold h'; now rewrite content_stored_ne].
    exfalso. assert (g = f) as -> by (apply numbered_nth in Ia as (j & _ & L); cbn [snd] in L; rewrite L in Kc; exact Kc).
    assert (nm = names) as -> by congruence. destruct (numbered_name _ _ _ _ _ _ _ Ia I eq_refl) as [_ ->]. destruct Ne; contradiction.
  - intros s' env d fr Sy' R Ne. destruct (resolves_cell _ _ _ _ _ _ W Sy' R) as (Cd & y & Ey & _).
    assert (Nd : d <> c).
    { intros ->. assert (Own : exists g nm pa, fr = Pointer TC_ENVIRONMENT g /\ sh g = KFrame nm pa /\ local_cell h sh fr s' false = Some c).
      { clear Ne. remember (Some c) as oc eqn:Q. induction R as [|g nm pa c' Eg L|g nm Eg L|g nm pa c' fr Eg L R IH]; try discriminate; auto.
        - destruct Sy' as (t & b & -> & _ & Kb). injection Q as <-. cbn [fst] in Kc. congruence.
        - injection Q as ->. now exists g, nm, pa. }
      destruct Own as (g & nm & pa & -> & Eg & L). unfold local_cell, frame_cells in L. rewrite Eg in L. apply cell_named_in, in_app_iff in L as [L|L].
      - apply in_extension_cells in L as (q & Kq & Lq). cbn [fst snd] in *. rewrite Lq in Kc. cbn [fst] in Kc. congruence.
      - apply filter_In in L as [L _]. assert (g = f) as -> by (apply numbered_nth in L as (j & _ & Lj); cbn [snd] in Lj; rewrite Lj in Kc; exact Kc).
        assert (nm = names) as -> by congruence. destruct (numbered_name _ _ _ _ _ _ _ L I eq_refl) as [_ ->]. destruct Ne; contradiction. }
    assert (Ld : location h' sh d = location h sh d).
    { apply location_same; auto using extends_refl; [now apply content_stored_ne|]. intros x Ex. now apply cell_content_ok with h d. }
    unfold value_of. rewrite Ld. apply content_stored_ne. intros Q. destruct (location_cell h sh d y W Cd Ey) as [L|K]; [congruence|].
    rewrite Q, Kc, E in K. discriminate.
  - intros a x Ca Ea. destruct (address_eq_dec a c) as [->|Na]; [now exists UNBOUND_OBJECT|]. exists x. unfold h'. now rewrite content_stored_ne.
Qed.

Lemma unbind_variable_1_ok h sh f names parent s c : well_formed h sh -> sh f = KFrame names parent ->
  local_cell h sh (Pointer TC_ENVIRONMENT f) s false = Some c ->
  returns (unbind_variable_1 c (Pointer TC_ENVIRONMENT f) s h) (fun '(_, h') => name_removed h sh f s h' sh /\ available h' = available h).
Proof.
  intros W E El. pose proof (local_cell_ok h sh _ f names parent s false c W E El) as (C & w & Ew & Ok).
  unfold unbind_variable_1, EXTENDED_FRAME_P. change (PROCEDURE_FRAME_P (Pointer TC_ENVIRONMENT f)) with true. cbv iota.
  assert (Par : cell_named s (extension_cells h sh f) = None ->
    returns (store c UNBOUND_OBJECT h) (fun '(_, h') => name_removed h sh f s h' sh /\ available h' = available h)).
  { intros Nx. exists (tt, stored h c UNBOUND_OBJECT). split; [now apply store_ok with w|]. split; [now apply (parameter_removed h sh f names parent)|apply available_stored]. }
  destruct (frame_function _ _ _ _ _ W E) as (fn & Ef & Fn). pose proof (GET_FRAME_PROCEDURE_ok h TC_ENVIRONMENT f _ Ef) as G.
  erewrite andthen_return by (erewrite andthen_return by exact G; reflexivity). unfold FRAME_EXTENSION_P, VECTOR_P.
  destruct Fn as [(t & p & -> & Nt & Ep)|(e & -> & Ke)]; cbn [OBJECT_TYPE].
  - destruct (Z.eqb_spec t TC_VECTOR); [contradiction|]. apply Par. unfold extension_cells. rewrite Ef. now destruct (Z.eqb_spec t TC_VECTOR).
  - change (TC_VECTOR =? TC_VECTOR) with true. cbv iota. destruct (extension_read _ _ _ _ _ _ W E Ke) as (slots & free & S).
    destruct (extension_lengths h sh f TC_ENVIRONMENT e names parent slots free Ef S) as (G1 & _ & G3).
    erewrite andthen_return by exact G3. erewrite andthen_return by exact G1. rewrite Nat2Z.id.
    destruct (extension_block _ _ _ _ _ _ _ _ S) as (hd & tp & p & ct & Eb & H1 & H2 & Ep). destruct (extension_defined _ _ _ _ _ _ _ _ S) as (df & F & N & D).
    assert (Nfe : f <> e) by congruence.
    pose proof (unbind_search h sh f e s (Immediate hd) parent (Pointer tp p) (store c UNBOUND_OBJECT) W Ef Ke Nfe free (Immediate ct) slots df [] F Eb) as U.
    cbn [length app] in U. change ENV_EXTENSION_MIN_SIZE with 4%nat. destruct U as [[Nin ->]|(pre & x & post & Q & Bx & [[[] h'] [Er R]])].
    + apply Par. rewrite (slots_cells _ _ _ _ _ _ _ _ Ef S). apply cell_named_none. now rewrite (slot_names _ _ _ F).
    + subst slots. exists (tt, h'). split; [exact Er|]. split; [|apply R]. now apply (slot_removed h sh f e names parent pre x post free s hd tp p).
Qed.

(** *** [unbind_variable] *)

Lemma resolves_visible h sh s env c fr : resolves h sh s env (Some c) fr -> symbol_ok sh s ->
  content h c = Some UNBOUND_OBJECT -> forall names parent, sh (fst c) <> KFrame names parent.
Proof.
  intros R Sy Ec nm pa K. remember (Some c) as oc eqn:Q. induction R as [|f nm' pa' c' E L|f nm' E L|f nm' pa' c' fr E L R IH]; try discriminate; auto.
  - destruct Sy as (t & b & -> & _ & Kb). injection Q as <-. cbn [fst] in K. congruence.
  - injection Q as ->. unfold local_cell, frame_cells in L. rewrite E in L. apply cell_named_in, in_app_iff in L as [L|L].
    + apply in_extension_cells in L as (q & Kq & Lq). cbn [fst snd] in *. rewrite Lq in K. cbn [fst] in K. congruence.
    + apply filter_In in L as [_ V]. unfold visible_cell in V. cbn [snd] in V. rewrite Ec in V. discriminate.
Qed.

Lemma removed_cached h sh f s h1 d h2 sh2 : name_removed h sh f s h1 sh -> cell_cached h1 sh d h2 sh2 ->
  (exists names parent, sh f = KFrame names parent) -> well_formed h sh ->
  (content h1 d = Some UNBOUND_OBJECT -> forall names parent, sh (fst d) <> KFrame names parent) -> name_removed h sh f s h2 sh2.
Proof.
  intros [W1 X1 E1 No Oth Val Ce] Cc (nm & pa & Ef) W Vis. pose proof (cc_cells _ _ _ _ _ Cc Vis) as Lc. constructor.
  - apply Cc.
  - apply Cc.
  - apply evolves_trans with h1 sh; [exact E1|apply Cc].
  - now rewrite (Lc _ f nm pa s false Ef).
  - intros g nm' pa' s' Eg Ne. rewrite (Lc _ g nm' pa' s' false Eg). now apply Oth with nm' pa'.
  - intros s' env c fr Sy' R Ne. destruct (resolves_cell _ _ _ _ _ _ W Sy' R) as (C & x & Ex & _). destruct (Ce c x C Ex) as (y & Ey).
    rewrite (cc_value _ _ _ _ _ Cc c y C Ey). now apply Val with s' env fr.
  - intros a x Ca Ea. destruct (Ce a x Ca Ea) as (y & Ey). destruct (address_eq_dec a d) as [->|Na].
    + destruct (cc_trap _ _ _ _ _ Cc) as (t & Et & _). eauto.
    + exists y. now apply (cc_content _ _ _ _ _ Cc).
Qed.

Lemma unbind_cached_variable_ok h sh f names parent s c t : well_formed h sh -> sh f = KFrame names parent -> symbol_ok sh s ->
  local_cell h sh (Pointer TC_ENVIRONMENT f) s false = Some c -> content h c = Some (Pointer TC_REFERENCE_TRAP t) -> sh t = KTrap ->
  8 <= available h ->
  returns (unbind_cached_variable c (Pointer TC_ENVIRONMENT f) s h) (fun '(code, h') => code = PRIM_DONE /\ exists sh', name_removed h sh f s h' sh').
Proof.
  intros W E Sy El Et Kt Av. unfold unbind_cached_variable. run load_ok; [|exact Et].
  destruct (trap_cache h sh t W Kt) as (tc & b & Gc & Kb & _). erewrite andthen_return by exact Gc.
  erewrite andthen_return by (apply (GET_FRAME_PARENT_ok h sh f _ names parent); assumption).
  destruct (binding_lookup h sh s parent f W Sy (frame_before _ _ _ _ _ W E)) as (d & fr & Ed & Rd). erewrite andthen_return by exact Ed.
  unfold GC_CHECK, update_cache_refs_space. assert (GC_NEEDED_P 0 h = false) as ->.
  { unfold GC_NEEDED_P, HEAP_AVAILABLE_P. destruct (Z.ltb_spec 0 (available h)), (Z.leb_spec 0 (available h)); try lia; reflexivity. }
  destruct (unbind_variable_1_ok h sh f names parent s c W E El) as ([[] h1] & E1 & Nr & Av1). erewrite andthen_return by exact E1.
  pose proof (nr_well_formed _ _ _ _ _ _ Nr) as W1. destruct d as [d|].
  - destruct Rd as [|Rd]; [discriminate|].
    assert (R1 : resolves h1 sh s parent (Some d) fr).
    { apply (removed_unreached h sh f s h1 sh parent s (Some d) fr Nr Rd). right. intros K.
      pose proof (reaches_le _ _ _ _ _ W K f f (frame_before _ _ _ _ _ W E) eq_refl). lia. }
    destruct (resolves_cell _ _ _ _ _ _ W1 Sy R1) as (Cd & x & Ex & _).
    destruct (update_cache_references_some h1 sh tc b d x (Pointer TC_ENVIRONMENT f) s W1 Kb Cd Ex) as ([code h2] & E2 & -> & sh2 & Cc); [lia|].
    exists (PRIM_DONE, h2). split; [exact E2|]. split; [reflexivity|]. exists sh2. apply removed_cached with h1 d; eauto.
    intros Q. now apply (resolves_visible h1 sh s parent d fr).
  - erewrite update_cache_references_none by eassumption. ret_now. split; [reflexivity|]. now exists sh.
Qed.

(** The frame a search ends in has the cell. *)
Lemma resolves_frame h sh s env c fr : resolves h sh s env (Some c) fr ->
  (fr = THE_GLOBAL_ENV /\ symbol_cell s = Some c) \/
  (exists f names parent, fr = Pointer TC_ENVIRONMENT f /\ sh f = KFrame names parent /\ local_cell h sh fr s false = Some c).
Proof.
  intros R. remember (Some c) as oc eqn:Q. induction R as [|f nm' pa' c' E L|f nm' E L|f nm' pa' c' fr E L R IH]; try discriminate; auto.
  right. injection Q as ->. eauto 6.
Qed.

Lemma resolves_none h sh s env fr : resolves h sh s env None fr -> symbol_ok sh s -> exists f, fr = Pointer TC_ENVIRONMENT f.
Proof.
  intros R Sy. remember None as oc eqn:Q. induction R as [|f nm' pa' c' E L|f nm' E L|f nm' pa' c' fr E L R IH]; try discriminate; auto.
  - destruct Sy as (t & b & -> & _). discriminate.
  - eauto.
Qed.

(** What is left after the variable with the cell [c] of [frame] is unbound: in
    the global environment the cell, with no value; elsewhere no cell. *)
Inductive unbound (h : heap) (sh : shape) (s : object) : object -> heap -> shape -> Prop :=
| unbound_local f h' sh' : name_removed h sh f s h' sh' -> unbound h sh s (Pointer TC_ENVIRONMENT f) h' sh'
| unbound_global h1 h' : same_variables h sh h1 sh -> assigned h1 sh THE_GLOBAL_ENV s UNBOUND_OBJECT h' ->
    unbound h sh s THE_GLOBAL_ENV h' sh.

Definition variable_unbound (h : heap) (sh : shape) (ob : nat) (n : Z) (env s : object) (out : result * heap) : Prop :=
  let '((code, r), h') := out in
  code = PRIM_DONE /\ exists sh', state h' sh' ob n /\ extends sh sh' /\
    ((r = Some SHARP_F /\ denotes h sh env s (ERR_UNBOUND_VARIABLE, None) /\ same_variables h sh h' sh') \/
     (r = Some SHARP_T /\ exists c frame u, resolves h sh s env (Some c) frame /\ value_of h sh c = Some u /\ u <> UNBOUND_OBJECT /\
        unbound h sh s frame h' sh')).

Lemma value_kind_unbound u : value_kind u = TRAP_UNBOUND -> u = UNBOUND_OBJECT.
Proof.
  unfold value_kind. destruct (REFERENCE_TRAP_P u); [|discriminate]. destruct (object_eqb_spec u UNASSIGNED_OBJECT); [discriminate|].
  destruct (object_eqb_spec u UNBOUND_OBJECT); [auto|discriminate].
Qed.

Lemma bound_kind u : value_kind u = TRAP_UNBOUND \/
  (u <> UNBOUND_OBJECT /\ (value_kind u =? TRAP_UNBOUND) = false /\
   ((value_kind u =? NON_TRAP_KIND) || (value_kind u =? TRAP_UNASSIGNED) || (value_kind u =? TRAP_MACRO)) = true).
Proof.
  destruct (value_kind_cases u) as [K|[K|[K|K]]]; rewrite K; [right|right|now left|right]; (split; [intros ->; discriminate|now split]).
Qed.

Lemma clear_global h sh s c w : well_formed h sh -> symbol_ok sh s -> symbol_cell s = Some c -> content h c = Some w ->
  assigned h sh THE_GLOBAL_ENV s UNBOUND_OBJECT (stored h (location h sh c) UNBOUND_OBJECT).
Proof.
  intros W Sy Ec Ew. assert (R : resolves h sh s THE_GLOBAL_ENV (Some c) THE_GLOBAL_ENV) by (rewrite <- Ec; constructor).
  destruct (resolves_cell _ _ _ _ _ _ W Sy R) as (C & _). assert (Vu : value_ok sh UNBOUND_OBJECT) by (right; right; now left).
  pose proof (store_value h sh c UNBOUND_OBJECT w W C Ew Vu) as St. apply stored_assigned with c THE_GLOBAL_ENV; auto.
  intros g nm pa s' Eg. destruct (location_ok h sh c w W C Ew) as [L _]. apply local_cell_named with nm pa; auto using extends_refl.
  - now apply (location_structure h sh _ UNBOUND_OBJECT L _ eq_refl) with nm pa.
  - intros e Ke. now apply (location_structure h sh _ UNBOUND_OBJECT L _ eq_refl) with g.
  - intros a I. unfold visible_cell. cbn [snd]. rewrite content_stored_ne; [reflexivity|]. intros ->.
    apply numbered_nth in I as (j & _ & La). cbn [snd] in La. destruct Sy as (t & b & -> & _ & Kb). injection Ec as <-.
    destruct (location_cell h sh (b, SYMBOL_GLOBAL_VALUE) w W C Ew) as [Q|Q]; rewrite La in Q; [injection Q as -> _|cbn [fst] in Q]; congruence.
Qed.

(** The end of [unbind_variable] for a variable with the cell [c]. *)
Definition unbind_cell (c : address) (frame s : object) : operation result :=
  value <- load c ;;
  kind <- get_trap_kind value ;;
  if kind =? TRAP_UNBOUND then ret (PRIM_DONE, Some SHARP_F)
  else if (kind =? NON_TRAP_KIND) || (kind =? TRAP_UNASSIGNED) || (kind =? TRAP_MACRO) then
    unbind_variable_1 c frame s ;;
    ret (PRIM_DONE, Some SHARP_T)
  else if kind =? TRAP_COMPILER_CACHED then
    cache <- GET_TRAP_CACHE value ;;
    value <- GET_CACHE_VALUE cache ;;
    kind <- get_trap_kind value ;;
    if kind =? TRAP_UNBOUND then ret (PRIM_DONE, Some SHARP_F)
    else if (kind =? NON_TRAP_KIND) || (kind =? TRAP_UNASSIGNED) || (kind =? TRAP_MACRO) then
      if PROCEDURE_FRAME_P frame then
        code <- unbind_cached_variable c frame s ;;
        ret (if code =? PRIM_DONE then (PRIM_DONE, Some SHARP_T) else (code, None))
      else
        SET_CACHE_VALUE cache UNBOUND_OBJECT ;;
        ret (PRIM_DONE, Some SHARP_T)
    else ret (ERR_ILLEGAL_REFERENCE_TRAP, None)
  else ret (ERR_ILLEGAL_REFERENCE_TRAP, None).

(** One run of it, up to the removal itself. *)
Lemma unbind_cell_ok h sh c frame s w P : well_formed h sh -> content h c = Some w -> cell_ok sh w ->
  (value_of h sh c = Some UNBOUND_OBJECT -> P ((PRIM_DONE, Some SHARP_F), h)) ->
  (location h sh c = c -> w <> UNBOUND_OBJECT ->
     returns (unbind_variable_1 c frame s h) (fun '(_, h') => P ((PRIM_DONE, Some SHARP_T), h'))) ->
  (forall t u tc b, w = Pointer TC_REFERENCE_TRAP t -> sh t = KTrap -> value_of h sh c = Some u -> u <> UNBOUND_OBJECT ->
     location h sh c = (b, 0%nat) -> content h (t, TRAP_EXTRA) = Some (Pointer tc b) ->
     if PROCEDURE_FRAME_P frame
     then returns (unbind_cached_variable c frame s h) (fun '(code, h') => code = PRIM_DONE /\ P ((PRIM_DONE, Some SHARP_T), h'))
     else P ((PRIM_DONE, Some SHARP_T), stored h (location h sh c) UNBOUND_OBJECT)) ->
  returns (unbind_cell c frame s h) P.
Proof.
  intros W Ew Ok Pf Pv Pc. unfold unbind_cell. run load_ok; [|exact Ew].
  destruct (cell_cases h sh c w W Ew Ok) as [[V L]|(t & -> & K)].
  - erewrite andthen_return by (now apply get_trap_kind_value with sh). destruct (bound_kind w) as [Kd|(Nu & K1 & K2)].
    + rewrite Kd. change (TRAP_UNBOUND =? TRAP_UNBOUND) with true. cbv iota. ret_now. apply Pf. unfold value_of. rewrite L, Ew. f_equal. now apply value_kind_unbound.
    + rewrite K1, K2. destruct (Pv L Nu) as ([[] h'] & E & Hp). erewrite andthen_return by exact E. now ret_now.
  - destruct (cached_cell h sh c t W Ew K) as [G (tc & b & u & Ec & Kb & Lc & Eu & Vu)]. erewrite andthen_return by exact G.
    change (TRAP_COMPILER_CACHED =? TRAP_UNBOUND) with false.
    change ((TRAP_COMPILER_CACHED =? NON_TRAP_KIND) || (TRAP_COMPILER_CACHED =? TRAP_UNASSIGNED) || (TRAP_COMPILER_CACHED =? TRAP_MACRO)) with false.
    change (TRAP_COMPILER_CACHED =? TRAP_COMPILER_CACHED) with true. cbv iota.
    unfold GET_TRAP_CACHE, GET_CACHE_VALUE. run MEMORY_REF_ok; [|exact Ec]. run MEMORY_REF_ok; [|exact Eu].
    erewrite andthen_return by (now apply get_trap_kind_value with sh). assert (Vc : value_of h sh c = Some u) by (unfold value_of; now rewrite Lc).
    destruct (bound_kind u) as [Kd|(Nu & K1 & K2)].
    + rewrite Kd. change (TRAP_UNBOUND =? TRAP_UNBOUND) with true. cbv iota. ret_now. apply Pf. rewrite Vc. f_equal. now apply value_kind_unbound.
    + rewrite K1, K2. specialize (Pc t u tc b eq_refl K Vc Nu Lc Ec). destruct (PROCEDURE_FRAME_P frame).
      * destruct Pc as ([code h'] & E & -> & Hp). erewrite andthen_return by exact E. change (PRIM_DONE =? PRIM_DONE) with true. now ret_now.
      * unfold SET_CACHE_VALUE. run MEMORY_SET_ok; [|exact Eu]. ret_now. rewrite Lc in Pc. exact Pc.
Qed.

Lemma unbind_variable_ok h sh ob n env s : state h sh ob n -> environment_ok sh env -> symbol_ok sh s -> known_symbol s ->
  8 <= available h ->
  returns (unbind_variable env s h) (variable_unbound h sh ob n env s).
Proof.
  intros St E Sy Kn Av. pose proof (state_variables _ _ _ _ St) as W. unfold unbind_variable. destruct (find_binding_cell_ok h sh s env W Sy E) as (cell & frame & Ef & R).
  erewrite andthen_return by exact Ef. destruct cell as [c|].
  2:{ destruct (resolves_none _ _ _ _ _ R Sy) as (f & ->). change (GLOBAL_FRAME_P (Pointer TC_ENVIRONMENT f)) with false. cbv iota.
      erewrite andthen_return by reflexivity. ret_now. split; [reflexivity|]. exists sh. split; [assumption|]. split; [apply extends_refl|]. left.
      split; [reflexivity|]. split; [|apply same_variables_refl]. exists None, (Pointer TC_ENVIRONMENT f). now split. }
  destruct (resolves_cell _ _ _ _ _ _ W Sy R) as (C & w & Ew & Ok).
  destruct (resolves_frame _ _ _ _ _ _ R) as [[-> Es]|(f & nm & pa & -> & Eg & El)].
  - change (GLOBAL_FRAME_P THE_GLOBAL_ENV) with true. cbv iota.
    destruct (strengthen_ok h sh ob n s TC_WEAK_CONS St Kn) as ([[] h1] & E1 & St1 & S1 & C1); [now right|].
    erewrite andthen_return by exact E1. pose proof (state_variables _ _ _ _ St1) as W1.
    assert (Ew1 : content h1 c = Some w) by (apply (sv_content _ _ _ _ S1); [now left; left|exact Ew]).
    assert (Vs : value_of h1 sh c = value_of h sh c) by (apply kept_value with w; auto using extends_refl; apply S1).
    pose proof (clear_global h1 sh s c w W1 Sy Es Ew1) as Cl.
    assert (Ps : forall u, value_of h sh c = Some u -> u <> UNBOUND_OBJECT ->
      variable_unbound h sh ob n env s ((PRIM_DONE, Some SHARP_T), stored h1 (location h1 sh c) UNBOUND_OBJECT)).
    { intros u Eu Nu. split; [reflexivity|]. exists sh. split; [apply evolves_state with h1 sh; [apply Cl|apply Cl|exact St1]|].
      split; [apply extends_refl|]. right. split; [reflexivity|]. exists c, THE_GLOBAL_ENV, u. split; [exact R|]. split; [exact Eu|]. split; [exact Nu|].
      now apply unbound_global with h1. }
    apply (unbind_cell_ok h1 sh c THE_GLOBAL_ENV s w); auto.
    + intros Eu. rewrite Vs in Eu. split; [reflexivity|]. exists sh. split; [assumption|]. split; [apply extends_refl|]. left.
      split; [reflexivity|]. split; [|exact S1]. exists (Some c), THE_GLOBAL_ENV. split; [exact R|]. now exists UNBOUND_OBJECT.
    + intros Lc Nu. unfold unbind_variable_1. change (PROCEDURE_FRAME_P THE_GLOBAL_ENV) with false. cbv iota.
      erewrite andthen_return by reflexivity. exists (tt, stored h1 c UNBOUND_OBJECT). split; [now apply store_ok with w|]. rewrite Lc in Ps.
      apply (Ps w); [|exact Nu]. rewrite <- Vs. unfold value_of. now rewrite Lc.
    + intros t u tc b _ _ Eu Nu _ _. change (PROCEDURE_FRAME_P THE_GLOBAL_ENV) with false. cbv iota. apply (Ps u); [now rewrite <- Vs|exact Nu].
  - change (GLOBAL_FRAME_P (Pointer TC_ENVIRONMENT f)) with false. cbv iota. erewrite andthen_return by reflexivity.
    assert (Ps : forall u h' sh', value_of h sh c = Some u -> u <> UNBOUND_OBJECT -> name_removed h sh f s h' sh' ->
      variable_unbound h sh ob n env s ((PRIM_DONE, Some SHARP_T), h')).
    { intros u h' sh' Eu Nu Nr. split; [reflexivity|]. exists sh'. split; [apply evolves_state with h sh; [apply Nr|apply Nr|exact St]|].
      split; [apply Nr|]. right. split; [reflexivity|]. exists c, (Pointer TC_ENVIRONMENT f), u. split; [exact R|]. split; [exact Eu|]. split; [exact Nu|].
      now apply unbound_local. }
    apply (unbind_cell_ok h sh c (Pointer TC_ENVIRONMENT f) s w); auto.
    + intros Eu. split; [reflexivity|]. exists sh. split; [assumption|]. split; [apply extends_refl|]. left.
      split; [reflexivity|]. split; [|apply same_variables_refl]. exists (Some c), (Pointer TC_ENVIRONMENT f). split; [exact R|]. now exists UNBOUND_OBJECT.
    + intros Lc Nu. eapply returns_weaken; [now apply (unbind_variable_1_ok h sh f nm pa)|]. intros [[] h'] [Nr _].
      apply (Ps w h' sh); auto. unfold value_of. now rewrite Lc.
    + intros t u tc b -> Kt Eu Nu _ _. change (PROCEDURE_FRAME_P (Pointer TC_ENVIRONMENT f)) with true. cbv iota.
      eapply returns_weaken; [now apply (unbind_cached_variable_ok h sh f nm pa s c t)|]. intros [code h'] (-> & sh' & Nr). split; [reflexivity|].
      now apply (Ps u h' sh').
Qed.
End Symbols.
