(* ===== verification/Linking.v ===== *)
(** * lookup.c: linked variables

    The proofs about [link_variables]: afterwards the target denotes what the
    source denotes, the two share a location, and no variable changes that did
    not share its value with the target before. *)

From Stdlib Require Import ZArith List Bool Lia.
From S2P Require Import Prelude Object Heap Intern Environment Lookup Variables.
Import ListNotations.

#[local] Open Scope Z_scope.
#[local] Open Scope heap_scope.

(** The target name denotes the source's value, in the source's location. *)
Definition linked (h : heap) (sh : shape) (env s : object) (sc : address) (h' : heap) (sh' : shape) : Prop :=
  exists cell v, value_of h sh sc = Some v /\ defines h sh env s cell v h' sh' /\ location h' sh' cell = location h' sh' sc.

(** ** A cell that has a value is visible *)

Lemma own_visible h sh env s c w : own_cell h sh env s c -> content h c = Some w -> w <> UNBOUND_OBJECT -> local_cell h sh env s false = Some c.
Proof.
  intros [[-> Es]|(f & nm & pa & -> & Ef & El)] Ew Nu; [exact Es|]. unfold local_cell, frame_cells in *. rewrite Ef, cell_named_app in *.
  destruct (cell_named s (extension_cells h sh f)); [exact El|]. rewrite filter_true in El by reflexivity.
  apply cell_named_filter_some; [exact El|]. unfold visible_cell. cbn [orb snd]. rewrite Ew. destruct (object_eqb_spec w UNBOUND_OBJECT); [contradiction|reflexivity].
Qed.

(** The definition that changes nothing. *)
Lemma defines_same h sh env s c v w : well_formed h sh -> own_cell h sh env s c -> content h c = Some w -> w <> UNBOUND_OBJECT ->
  value_of h sh c = Some v -> defines h sh env s c v h sh.
Proof. intros W O Ew Nu Ev. constructor; auto using extends_refl. now apply own_visible with w. Qed.

(** ** A second cell for a cache *)

Section Share.
Context (h : heap) (sh : shape) (c : address) (w : object) (t : nat).
Hypothesis W : well_formed h sh.
Hypothesis C : is_cell sh c.
Hypothesis Ec : content h c = Some w.
Hypothesis Kt : sh t = KTrap.

Let h' := stored h c (Pointer TC_REFERENCE_TRAP t).

Lemma share_well_formed : well_formed h' sh.
Proof. apply well_formed_cell_stored with w; auto. right. now exists t. Qed.

Lemma share_evolves : evolves h sh h' sh.
Proof. apply evolves_stored; [constructor|]. apply location_word. now left. Qed.

Lemma share_cell : content h' c = Some (Pointer TC_REFERENCE_TRAP t).
Proof. now apply content_stored_eq with w. Qed.

Lemma share_other d x : is_cell sh d -> content h d = Some x -> d <> c ->
  location h' sh d = location h sh d /\ value_of h' sh d = value_of h sh d.
Proof.
  intros D Ed Ne. destruct (location_structure h sh c (Pointer TC_REFERENCE_TRAP t) (or_introl C) _ eq_refl) as (_ & _ & S3).
  assert (L : location h' sh d = location h sh d).
  { apply location_same; auto using extends_refl; [now apply content_stored_ne|]. intros y Ey. now apply cell_content_ok with h d. }
  split; [exact L|]. unfold value_of. rewrite L. apply content_stored_ne. intros Q.
  destruct (location_cell h sh d x W D Ed) as [L'|K]; [congruence|]. rewrite Q in K. unfold is_cell in C. now rewrite K in C.
Qed.

(** [a]: a cell of the cache. *)
Lemma share_location a : a <> c -> content h a = Some (Pointer TC_REFERENCE_TRAP t) -> is_cell sh a ->
  location h' sh c = location h sh a /\ value_of h' sh c = value_of h sh a.
Proof.
  intros Ne Ea Ca. destruct (share_other a _ Ca Ea Ne) as [La Va].
  assert (L : location h' sh c = location h' sh a).
  { destruct (cached_cell h' sh c t share_well_formed share_cell Kt) as [_ (tc & b & v & Et & _ & -> & _)].
    assert (Ea' : content h' a = Some (Pointer TC_REFERENCE_TRAP t)) by (unfold h'; now rewrite content_stored_ne).
    destruct (cached_cell h' sh a t share_well_formed Ea' Kt) as [_ (tc' & b' & v' & Et' & _ & -> & _)]. congruence. }
  split; [congruence|]. unfold value_of in *. now rewrite L.
Qed.

Lemma share_structure : (forall f names parent, sh f = KFrame names parent -> content h' (f, ENVIRONMENT_FUNCTION) = content h (f, ENVIRONMENT_FUNCTION)) /\
  (forall f e, sh e = KExtension f -> block_of h' e = block_of h e).
Proof. destruct (location_structure h sh c (Pointer TC_REFERENCE_TRAP t) (or_introl C) _ eq_refl) as (S1 & S2 & _). now split. Qed.

(** A visible cell stays visible. *)
Lemma share_cells ty f names parent s fu : w <> UNBOUND_OBJECT -> sh f = KFrame names parent ->
  local_cell h' sh (Pointer ty f) s fu = local_cell h sh (Pointer ty f) s fu.
Proof.
  intros Nu Ef. destruct share_structure as [S1 S2]. apply local_cell_same with names parent; auto using extends_refl.
  - now apply S1 with names parent.
  - intros e Ke. now apply S2 with f.
  - right. intros name a Ca _. unfold visible_cell. cbn [snd orb]. destruct (address_eq_dec a c) as [->|Ne].
    + rewrite share_cell, Ec. destruct (object_eqb_spec w UNBOUND_OBJECT); [contradiction|reflexivity].
    + unfold h'. now rewrite content_stored_ne.
Qed.

(** The cell of the name [s] of [env]. *)
Lemma share_defines env s a v : symbol_ok sh s -> own_cell h sh env s c -> a <> c -> content h a = Some (Pointer TC_REFERENCE_TRAP t) ->
  is_cell sh a -> value_of h sh a = Some v -> defines h sh env s c v h' sh.
Proof.
  intros Sy O Ne Ea Ca Ev. destruct share_structure as [S1 S2]. destruct (share_location a Ne Ea Ca) as [Lc Vc]. constructor.
  - apply share_well_formed.
  - apply extends_refl.
  - apply own_visible with (Pointer TC_REFERENCE_TRAP t); [|apply share_cell|discriminate].
    destruct O as [[-> Es]|(f & nm & pa & -> & Ef & El)]; [left; now split|right]. exists f, nm, pa. split; [reflexivity|]. split; [exact Ef|].
    rewrite <- El. apply local_cell_same with nm pa; auto using extends_refl; [now apply S1 with nm pa|intros e Ke; now apply S2 with f].
  - intros g nm pa s' Eg Nn. apply local_cell_named with nm pa; auto using extends_refl; [now apply S1 with nm pa|intros e Ke; now apply S2 with g|].
    intros x I. unfold visible_cell. cbn [snd]. unfold h'. rewrite content_stored_ne; [reflexivity|]. intros ->.
    destruct (own_parameter h sh env s c g nm pa s' W Sy O Eg I) as [E1 E2]. destruct Nn; contradiction.
  - now rewrite Vc.
  - intros d x D Ed Nl. destruct (address_eq_dec d c) as [->|Nd]; [|now apply share_other with x].
    exfalso. assert (Lc' : local_cell h sh env s true = Some c) by (destruct O as [[-> Es]|(f & nm & pa & -> & _ & El)]; [exact Es|exact El]).
    now apply Nl.
Qed.
End Share.

(** ** Definition of a name with the cache of another variable *)

Lemma same_trap h sh a b t : well_formed h sh -> sh t = KTrap -> content h a = Some (Pointer TC_REFERENCE_TRAP t) ->
  content h b = Some (Pointer TC_REFERENCE_TRAP t) -> location h sh a = location h sh b.
Proof.
  intros W K Ea Eb. destruct (cached_cell h sh a t W Ea K) as [_ (tc & c & v & Et & _ & -> & _)].
  destruct (cached_cell h sh b t W Eb K) as [_ (tc' & c' & v' & Et' & _ & -> & _)]. congruence.
Qed.

Lemma cell_cached_defines h sh env s cell v h2 sh2 h3 sh3 : well_formed h sh -> defines h sh env s cell v h2 sh2 -> cell_cached h2 sh2 cell h3 sh3 ->
  environment_ok sh env -> (content h2 cell = Some UNBOUND_OBJECT -> forall names parent, sh2 (fst cell) <> KFrame names parent) ->
  (exists f names parent, env = Pointer TC_ENVIRONMENT f /\ sh f = KFrame names parent) -> is_cell sh2 cell -> (exists x, content h2 cell = Some x) ->
  evolves h sh h2 sh2 -> defines h sh env s cell v h3 sh3.
Proof.
  intros W [W2 X2 Dc Do Dv Ds] Cc E Vis (f & nm & pa & -> & Ef) Ccell (y & Ey) Ev2. pose proof (cc_cells _ _ _ _ _ Cc Vis) as Cl. constructor.
  - apply Cc.
  - apply extends_trans with sh2; [exact X2|apply Cc].
  - assert (Ef2 : sh2 f = KFrame nm pa) by kinds X2. now rewrite (Cl _ f nm pa s false Ef2).
  - intros g nm' pa' s' Eg Ne. assert (Eg2 : sh2 g = KFrame nm' pa') by kinds X2. rewrite (Cl _ g nm' pa' s' false Eg2). now apply Do with nm' pa'.
  - now rewrite (cc_value _ _ _ _ _ Cc cell y Ccell Ey).
  - intros d x D Ed Ne. destruct (evolves_domain _ _ _ _ d x Ev2 Ed) as (y' & Ey').
    rewrite (cc_value _ _ _ _ _ Cc d y'); [now apply Ds with x|now apply is_cell_extends with sh|exact Ey'].
Qed.

Lemma added_trap h sh f s t cell h' sh' sc v : well_formed h sh -> (exists names parent, sh f = KFrame names parent) ->
  sh t = KTrap -> is_cell sh sc -> content h sc = Some (Pointer TC_REFERENCE_TRAP t) -> value_of h sh sc = Some v ->
  added h sh f s (Pointer TC_REFERENCE_TRAP t) cell h' sh' ->
  defines h sh (Pointer TC_ENVIRONMENT f) s cell v h' sh' /\ location h' sh' cell = location h' sh' sc.
Proof.
  intros W (nm & pa & Ef) Kt Csc Esc Vsc (h1 & sh1 & h2 & sh2 & U & Ba & H). pose proof U as [W1 X1 Ev1 [S1 S2]].
  pose proof Ba as [W2 X2 E2 K2 (Ecell & Cc & Kc) New Fresh Oth].
  assert (Esc1 : content h1 sc = Some (Pointer TC_REFERENCE_TRAP t)) by (apply S1; [now left; left|exact Esc]).
  assert (Csc1 : is_cell sh1 sc) by now apply is_cell_extends with sh.
  assert (Esc2 : content h2 sc = Some (Pointer TC_REFERENCE_TRAP t)) by (apply K2; [now left; left|exact Esc1]).
  assert (Kept : forall d x, is_cell sh d -> content h d = Some x -> value_of h2 sh2 d = value_of h sh d).
  { intros d x D Ed. rewrite <- (kept_value h sh h1 sh1 d x) by assumption.
    apply kept_value with x; auto; [now apply is_cell_extends with sh|]. apply S1; [now left; left|exact Ed]. }
  assert (Kt2 : sh2 t = KTrap) by (assert (sh1 t = KTrap) by kinds X1; kinds X2).
  pose proof (same_trap h2 sh2 cell sc t W2 Kt2 Ecell Esc2) as L2.
  assert (D2 : defines h sh (Pointer TC_ENVIRONMENT f) s cell v h2 sh2).
  { constructor; auto.
    - now apply extends_trans with sh1.
    - intros g nm' pa' s' Eg Ne. assert (Eg1 : sh1 g = KFrame nm' pa') by kinds X1. rewrite (Oth _ g nm' pa' s' false Eg1).
      + now apply S2 with nm' pa'.
      + destruct Ne as [Ne|Ne]; [left; congruence|now right].
    - unfold value_of. rewrite L2. rewrite <- Vsc, <- (Kept sc _ Csc Esc). reflexivity.
    - intros d x D Ed _. now apply Kept with x. }
  destruct H as [[-> ->]|Cl]; [now split|]. split.
  - apply cell_cached_defines with h2 sh2; eauto 6.
    + right. eauto.
    + intros Q. congruence.
    + now apply evolves_trans with h1 sh1.
  - apply (cc_sharing _ _ _ _ _ Cl cell (Pointer TC_REFERENCE_TRAP t) sc (Pointer TC_REFERENCE_TRAP t)); auto. now apply is_cell_extends with sh1.
Qed.

Section Symbols.
Context (table : list Z -> object -> Prop).

(** The result of a definition that links. *)
Definition linked_or_interrupted (h : heap) (sh : shape) (ob : nat) (n : Z) (env s : object) (sc : address) (out : Z * heap) : Prop :=
  let '(code, h') := out in
  exists sh', state table h' sh' ob n /\ extends sh sh' /\
    ((code = PRIM_INTERRUPT /\ unchanged h sh h' sh') \/ (code = PRIM_DONE /\ linked h sh env s sc h' sh')).

Lemma mapped_trap h t : REFERENCE_TRAP_P (non_object h) = false -> mapped h (Pointer TC_REFERENCE_TRAP t) = Pointer TC_REFERENCE_TRAP t.
Proof. intros N. unfold mapped. destruct (object_eqb_spec (Pointer TC_REFERENCE_TRAP t) (non_object h)) as [Q|]; [rewrite <- Q in N; discriminate|reflexivity]. Qed.

Lemma assign_uncached h sh c w value : well_formed h sh -> content h c = Some w -> value_ok sh w ->
  exists old, assign_variable_end c value true h = Return ((PRIM_DONE, old), stored h c (mapped h value)).
Proof.
  intros W Ec V. destruct (assign_variable_end_ok h sh c w value true W Ec (or_introl V)) as (u & _ & _ & Ea). unfold assignment in Ea.
  rewrite orb_true_r, (location_value h sh c w Ec V) in Ea. eauto.
Qed.

Lemma define_trap_ok h sh ob n env s sc t v : state table h sh ob n -> definable table h sh env s -> symbol_ok sh s ->
  sh t = KTrap -> is_cell sh sc -> content h sc = Some (Pointer TC_REFERENCE_TRAP t) -> value_of h sh sc = Some v ->
  (forall c, own_cell h sh env s c -> c <> sc /\ exists w, content h c = Some w /\ value_ok sh w) ->
  REFERENCE_TRAP_P (non_object h) = false -> gc_enabled h = true -> available h < 2 ^ 56 ->
  returns (define_variable env s (Pointer TC_REFERENCE_TRAP t) h) (linked_or_interrupted h sh ob n env s sc).
Proof.
  intros St D Sy Kt Csc Esc Vsc Own Nn Gc Av. pose proof (state_variables _ _ _ _ _ St) as W. pose proof (definable_environment _ _ _ _ _ D) as E. unfold define_variable.
  rewrite (environment_ok_p _ _ E). cbn [orb negb]. destruct D as [[-> Kn]|(f & nm & pa & -> & Ef & Sp)].
  - erewrite andthen_return by (apply scan_global_ok with sh; exact Sy). pose proof Sy as (ty & b & -> & Sp & Kb). cbn [symbol_cell].
    change (GLOBAL_FRAME_P THE_GLOBAL_ENV) with true. cbv iota. set (s := Pointer ty b) in *. set (c := (b, SYMBOL_GLOBAL_VALUE)) in *.
    assert (Oc : own_cell h sh THE_GLOBAL_ENV s c) by (left; now split). destruct (Own c Oc) as (Ne & w & Ew & V).
    destruct (own_cell_ok _ _ _ _ _ W Sy Oc) as (C & _).
    destruct (strengthen_ok table h sh ob n s TC_LIST St Kn) as ([[] h1] & E1 & St1 & S1 & C1); [now left|].
    erewrite andthen_return by exact E1. pose proof (state_variables _ _ _ _ _ St1) as W1.
    assert (Ew1 : content h1 c = Some w) by (apply (sv_content _ _ _ _ S1); [now left; left|exact Ew]).
    assert (Esc1 : content h1 sc = Some (Pointer TC_REFERENCE_TRAP t)) by (apply (sv_content _ _ _ _ S1); [now left; left|exact Esc]).
    assert (Vsc1 : value_of h1 sh sc = Some v).
    { rewrite <- Vsc. apply (kept_value h sh h1 sh sc _ W (extends_refl sh)) with (2 := Csc) (3 := Esc). apply S1. }
    destruct (assign_uncached h1 sh c w (Pointer TC_REFERENCE_TRAP t) W1 Ew1 V) as (old & Ea). erewrite andthen_return by exact Ea.
    rewrite mapped_trap by (now rewrite (same_non_object _ _ _ C1)). ret_now.
    assert (Own1 : own_cell h1 sh THE_GLOBAL_ENV s c) by (left; now split). assert (Nsc : sc <> c) by congruence.
    pose proof (share_defines h1 sh c w t W1 C Ew1 Kt THE_GLOBAL_ENV s sc v Sy Own1 Nsc Esc1 Csc Vsc1) as Df.
    exists sh. split; [apply evolves_state with h1 sh; [now apply share_evolves|apply Df|exact St1]|]. split; [apply extends_refl|]. right. split; [reflexivity|].
    exists c, v. split; [exact Vsc|]. split; [now apply defines_after with h1|].
    destruct (share_location h1 sh c w t W1 C Ew1 Kt sc Nsc Esc1 Csc) as [L _]. rewrite L. symmetry. now apply (share_other h1 sh c t W1 C sc (Pointer TC_REFERENCE_TRAP t)).
  - erewrite andthen_return by (apply (scan_frame_ok h sh f nm pa); assumption).
    destruct (local_cell h sh (Pointer TC_ENVIRONMENT f) s true) as [c|] eqn:El.
    + change (GLOBAL_FRAME_P (Pointer TC_ENVIRONMENT f)) with false. cbv iota. erewrite andthen_return by reflexivity.
      assert (Oc : own_cell h sh (Pointer TC_ENVIRONMENT f) s c) by (right; now exists f, nm, pa).
      destruct (own_cell_ok _ _ _ _ _ W Sy Oc) as (C & _). destruct (Own c Oc) as (Ne & w & Ew & V).
      destruct (assign_uncached h sh c w (Pointer TC_REFERENCE_TRAP t) W Ew V) as (old & Ea). erewrite andthen_return by exact Ea.
      rewrite mapped_trap by exact Nn. ret_now. assert (Nsc : sc <> c) by congruence.
      pose proof (share_defines h sh c w t W C Ew Kt (Pointer TC_ENVIRONMENT f) s sc v Sy Oc Nsc Esc Csc Vsc) as Df.
      exists sh. split; [apply evolves_state with h sh; [now apply share_evolves|apply Df|exact St]|]. split; [apply extends_refl|]. right. split; [reflexivity|].
      exists c, v. split; [exact Vsc|]. split; [exact Df|].
      destruct (share_location h sh c w t W C Ew Kt sc Nsc Esc Csc) as [L _]. rewrite L. symmetry. now apply (share_other h sh c t W C sc (Pointer TC_REFERENCE_TRAP t)).
    + assert (Ct : cell_ok sh (mapped h (Pointer TC_REFERENCE_TRAP t))) by (rewrite mapped_trap by exact Nn; right; eauto).
      destruct (define_new_added h sh f nm pa s (Pointer TC_REFERENCE_TRAP t) W Ef Sy El Ct Gc Av Sp) as ([code h'] & En & sh' & [[-> U]|[-> (c & Ad)]]).
      * exists (PRIM_INTERRUPT, h'). split; [exact En|]. exists sh'. split; [apply evolves_state with h sh; [apply U|apply U|exact St]|].
        split; [apply U|]. left. now split.
      * exists (PRIM_DONE, h'). split; [exact En|]. destruct (added_evolves _ _ _ _ _ _ _ _ Ad) as (Ev & W' & X). exists sh'.
        split; [now apply evolves_state with h sh|]. split; [exact X|]. right. split; [reflexivity|]. rewrite mapped_trap in Ad by exact Nn.
        destruct (added_trap h sh f s t c h' sh' sc v W) as [Df L]; eauto. exists c, v. auto.
Qed.

(** ** What linking means for variables *)

(** Whether the search from an environment reaches another can be decided. *)
Lemma reaches_dec h sh s env tenv c fr : environment_ok sh tenv -> resolves h sh s env c fr ->
  reaches h sh s env tenv \/ ~ reaches h sh s env tenv.
Proof.
  intros Et R. induction R as [|f nm pa c E Lc|f nm E Lc|f nm pa c fr E Lc R IH].
  - destruct (object_eq_dec THE_GLOBAL_ENV tenv) as [<-|Ne]; [left; constructor|right]. intros K. inversion K; subst; contradiction.
  - destruct (object_eq_dec (Pointer TC_ENVIRONMENT f) tenv) as [<-|Ne]; [left; constructor|right]. intros K. inversion K; subst; congruence.
  - destruct (object_eq_dec (Pointer TC_ENVIRONMENT f) tenv) as [<-|Ne]; [left; constructor|right]. intros K.
    inversion K as [|f' nm' pa' e' E' Lc' K']; subst; [contradiction|]. assert (pa' = THE_NULL_ENV) as -> by congruence.
    inversion K'; subst. destruct Et as [Q|(f2 & nm2 & pa2 & Q & _)]; discriminate.
  - destruct (object_eq_dec (Pointer TC_ENVIRONMENT f) tenv) as [<-|Ne]; [left; constructor|]. destruct IH as [IH|IH].
    + left. now apply reaches_parent with nm pa.
    + right. intros K. inversion K as [|f' nm' pa' e' E' Lc' K']; subst; [contradiction|]. assert (pa' = pa) as -> by congruence. contradiction.
Qed.

Lemma linked_reads h sh tenv ts senv ss sc fr h' sh' : well_formed h sh -> environment_ok sh tenv -> symbol_ok sh ss ->
  resolves h sh ss senv (Some sc) fr -> linked h sh tenv ts sc h' sh' ->
  same_variable h' sh' tenv ts senv ss /\ (forall r, denotes h' sh' tenv ts r <-> denotes h sh senv ss r) /\
  (forall env' s' r, environment_ok sh env' -> symbol_ok sh s' -> ~ (s' = ts /\ reaches h sh ts env' tenv) -> ~ shares h sh tenv ts env' s' ->
     (denotes h' sh' env' s' r <-> denotes h sh env' s' r)).
Proof.
  intros W Et Sy R (cell & v & Ev & D & L).
  assert (Rt : resolves h' sh' ts tenv (Some cell) tenv) by (apply (defines_reached h sh tenv ts cell v h' sh' tenv D Et); constructor).
  split; [|split].
  - destruct (object_eq_dec ss ts) as [->|Ns].
    2:{ exists cell, tenv, sc, fr. split; [exact Rt|]. split; [|exact L]. apply (defines_unreached h sh tenv ts cell v h' sh' senv ss (Some sc) fr D R). now left. }
    destruct (reaches_dec h sh ts senv tenv (Some sc) fr Et R) as [K|K].
    + exists cell, tenv, cell, tenv. split; [exact Rt|]. split; [now apply (defines_reached h sh tenv ts cell v h' sh' senv D)|reflexivity].
    + exists cell, tenv, sc, fr. split; [exact Rt|]. split; [|exact L]. apply (defines_unreached h sh tenv ts cell v h' sh' senv ts (Some sc) fr D R). now right.
  - intros r. split; intros (c2 & f2 & R2 & Dn).
    + destruct (resolves_unique _ _ _ _ _ _ _ _ Rt R2) as [<- <-]. destruct Dn as (u & Eu & ->). exists (Some sc), fr. split; [exact R|].
      exists v. split; [exact Ev|]. f_equal. rewrite (def_value _ _ _ _ _ _ _ _ D) in Eu. congruence.
    + destruct (resolves_unique _ _ _ _ _ _ _ _ R R2) as [<- <-]. destruct Dn as (u & Eu & ->). exists (Some cell), tenv. split; [exact Rt|].
      exists v. split; [apply D|]. congruence.
  - now apply (defines_denotes h sh tenv ts cell v h' sh').
Qed.

(** The variables denote what they did. *)
Definition unaffected (h : heap) (sh : shape) (h' : heap) (sh' : shape) : Prop :=
  forall env s r, environment_ok sh env -> symbol_ok sh s -> (denotes h' sh' env s r <-> denotes h sh env s r).

Lemma cached_unaffected h sh c h' sh' : well_formed h sh -> cell_cached h sh c h' sh' ->
  (content h c = Some UNBOUND_OBJECT -> forall names parent, sh (fst c) <> KFrame names parent) -> unaffected h sh h' sh'.
Proof.
  intros W Cc Vis env s r E Sy. destruct (resolves_total h sh s env W Sy E) as (d & fr & R).
  apply (denotes_transfer h sh h' sh' env s env s d fr R).
  - apply (resolves_same h sh); auto; [apply Cc|]. intros f nm pa Ef. now apply (cc_cells _ _ _ _ _ Cc Vis) with nm pa.
  - intros c' ->. destruct (resolves_cell _ _ _ _ _ _ W Sy R) as (C & x & Ex & _). now apply (cc_value _ _ _ _ _ Cc) with x.
Qed.

Lemma unaffected_trans h sh h1 sh1 h2 sh2 : extends sh sh1 -> unaffected h sh h1 sh1 -> unaffected h1 sh1 h2 sh2 -> unaffected h sh h2 sh2.
Proof.
  intros X A B env s r E Sy. rewrite (B env s r); [now apply A|now apply environment_ok_extends with sh|now apply symbol_ok_extends with sh].
Qed.

(** ** Composition *)

Lemma linked_after h sh h1 env s sc x h' sh' : well_formed h sh -> same_variables h sh h1 sh -> environment_ok sh env -> symbol_ok sh s ->
  is_cell sh sc -> content h sc = Some x -> linked h1 sh env s sc h' sh' -> linked h sh env s sc h' sh'.
Proof.
  intros W S E Sy C Ex (cell & v & Ev & D & L). exists cell, v. split; [|split; [now apply defines_after with h1|exact L]].
  rewrite <- Ev. symmetry. apply kept_value with x; auto using extends_refl. apply S.
Qed.

Lemma linked_after_cached h sh h1 sh1 env s sc x h' sh' : well_formed h sh -> cell_cached h sh sc h1 sh1 ->
  (content h sc = Some UNBOUND_OBJECT -> forall names parent, sh (fst sc) <> KFrame names parent) ->
  environment_ok sh env -> symbol_ok sh s -> is_cell sh sc -> content h sc = Some x ->
  linked h1 sh1 env s sc h' sh' -> linked h sh env s sc h' sh'.
Proof.
  intros W Cc Vis E Sy C Ex (cell & v & Ev & [W' X Dc Do Dv Ds] & L). pose proof (cc_extends _ _ _ _ _ Cc) as X1.
  pose proof (cc_cells _ _ _ _ _ Cc Vis) as Cl. exists cell, v. split; [now rewrite <- (cc_value _ _ _ _ _ Cc sc x C Ex)|]. split; [|exact L]. constructor; auto.
  - now apply extends_trans with sh1.
  - intros g nm pa s' Eg Ne. assert (Eg1 : sh1 g = KFrame nm pa) by kinds X1. rewrite (Do g nm pa s' Eg1 Ne). now apply Cl with nm pa.
  - intros d y D Ed Ne. destruct (evolves_domain _ _ _ _ d y (cc_evolves _ _ _ _ _ Cc) Ed) as (y1 & Ey1).
    rewrite <- (cc_value _ _ _ _ _ Cc d y D Ed). apply Ds with y1; [now apply is_cell_extends with sh|exact Ey1|]. intros Lc Q.
    assert (O : own_cell h sh env s cell).
    { destruct E as [->|(f & nm & pa & -> & Ef)]; [now left|right]. exists f, nm, pa. split; [reflexivity|]. split; [exact Ef|]. now rewrite <- (Cl _ f nm pa s true Ef). }
    destruct (own_cell_ok h sh env s cell W Sy O) as (Cc' & z & Ez & _).
    apply Ne; [destruct O as [[-> Es]|(f & nm & pa & -> & _ & El)]; [exact Es|exact El]|].
    now apply (cc_sharing _ _ _ _ _ Cc d y cell z).
Qed.

(** Space enough for [link_variables] not to run out of it. *)
Definition link_space (h : heap) (env : object) : Prop :=
  match env with Pointer _ f => extension_space h f + 18 <= available h | Immediate _ => 8 <= available h end.

Definition link_outcome (h : heap) (sh : shape) (ob : nat) (n : Z) (env s : object) (sc : address) (out : Z * heap) : Prop :=
  let '(code, h') := out in
  exists sh', state table h' sh' ob n /\ extends sh sh' /\
    ((code = PRIM_INTERRUPT /\ unaffected h sh h' sh') \/ (code = PRIM_DONE /\ linked h sh env s sc h' sh')).

(** The last step of [link_variables]: a cache for the source, and a definition with it. *)
Lemma link_define_ok h sh ob n tenv ts ss senv fr sc w : state table h sh ob n -> environment_ok sh tenv -> symbol_ok sh ts -> symbol_ok sh ss ->
  (tenv = THE_GLOBAL_ENV -> known_symbol table ts) -> link_space h tenv ->
  resolves h sh ss senv (Some sc) fr -> content h sc = Some w ->
  (forall c, own_cell h sh tenv ts c -> c <> sc /\ exists u, content h c = Some u /\ value_ok sh u) ->
  REFERENCE_TRAP_P (non_object h) = false -> gc_enabled h = true -> available h < 2 ^ 56 ->
  returns (RETURN_IF_ERROR (guarantee_cache sc) (value <- load sc ;; define_variable tenv ts value) h) (link_outcome h sh ob n tenv ts sc).
Proof.
  intros St Et Sy Sys Kn Sp R Ew Own Nn Gc Av. pose proof (state_variables _ _ _ _ _ St) as W. destruct (resolves_cell _ _ _ _ _ _ W Sys R) as (C & _).
  assert (Av8 : 8 <= available h).
  { unfold link_space in Sp. destruct tenv as [|ty f]; [exact Sp|]. assert (0 <= extension_space h f); [|lia].
    unfold extension_space. destruct (content h (f, ENVIRONMENT_FUNCTION)) as [[|ty' e]|]; try lia. destruct (ty' =? TC_VECTOR); [|lia]. destruct (block_of h e); lia. }
  pose proof (resolves_visible h sh ss senv sc fr R Sys) as Vis. unfold RETURN_IF_ERROR.
  destruct (guarantee_cache_ok h sh sc w W C Ew Av8) as ([code h1] & E1 & -> & Av1 & Gc1 & sh1 & Cc). erewrite andthen_return by exact E1.
  change (PRIM_DONE =? PRIM_DONE) with true. cbv iota. destruct (cc_trap _ _ _ _ _ Cc) as (t & Etr & Kt). run load_ok; [|exact Etr].
  pose proof Cc as [W1 X1 Ev1 _ Cv Cs Cl Ct Cb]. specialize (Cl Vis).
  assert (St1 : state table h1 sh1 ob n) by (apply evolves_state with h sh; [exact Ev1|exact W1|exact St]).
  destruct (value_of_ok h sh sc w W Ew (cell_content_ok h sh sc w W C Ew)) as (v & Evh & _).
  assert (Ev1' : value_of h1 sh1 sc = Some v) by (now rewrite (Cv sc w C Ew)).
  assert (Own1 : forall c, own_cell h1 sh1 tenv ts c -> c <> sc /\ exists u, content h1 c = Some u /\ value_ok sh1 u).
  { intros c Oc. assert (Oh : own_cell h sh tenv ts c).
    { destruct Oc as [[-> Es]|(f & nm & pa & -> & Ef & El)]; [now left|right]. destruct Et as [|(f' & nm' & pa' & [= <-] & Ef')]; [discriminate|].
      exists f, nm', pa'. split; [reflexivity|]. split; [exact Ef'|]. now rewrite <- (Cl _ f nm' pa' ts true Ef'). }
    destruct (Own c Oh) as (Ne & u & Eu & Vu). split; [exact Ne|]. exists u. split; [now apply Ct|now apply value_ok_extends with sh]. }
  assert (Def : definable table h1 sh1 tenv ts).
  { destruct Et as [->|(f & nm & pa & -> & Ef)].
    - left. split; [reflexivity|now apply Kn].
    - right. assert (Ef1 : sh1 f = KFrame nm pa) by kinds X1. exists f, nm, pa. split; [reflexivity|]. split; [exact Ef1|]. intros d fr' t' _ _ _.
      cbn [link_space] in Sp. assert (extension_space h1 f = extension_space h f); [|lia]. unfold extension_space.
      destruct (frame_function _ _ _ _ _ W Ef) as (fn & Efn & Fn).
      assert (Efn1 : content h1 (f, ENVIRONMENT_FUNCTION) = Some fn).
      { apply Ct; [|exact Efn]. intros <-. unfold is_cell in C. cbn [fst snd] in C. rewrite Ef in C. unfold ENVIRONMENT_FIRST_ARG, ENVIRONMENT_FUNCTION in C. lia. }
      rewrite Efn, Efn1. destruct Fn as [(ty & p & -> & Nt & _)|(e & -> & Ke)].
      + destruct (Z.eqb_spec ty TC_VECTOR); [contradiction|reflexivity].
      + rewrite Cb; [reflexivity|congruence|]. intros K. unfold is_cell in C. now rewrite K, Ke in C. }
  eapply returns_weaken; [apply (define_trap_ok h1 sh1 ob n tenv ts sc t v St1 Def)|]; auto.
  - now apply symbol_ok_extends with sh.
  - now apply is_cell_extends with sh.
  - now rewrite (evolves_non_object _ _ _ _ Ev1).
  - now rewrite Gc1.
  - lia.
  - intros [code h'] (sh' & St' & X' & H). exists sh'. split; [exact St'|]. split; [now apply extends_trans with sh1|].
    destruct H as [[-> U]|[-> L]]; [left|right]; (split; [reflexivity|]).
    + apply unaffected_trans with h1 sh1; [exact X1|now apply cached_unaffected with sc|]. intros e s' r E' Sy'. now apply unchanged_denotes.
    + now apply linked_after_cached with h1 sh1 w.
Qed.

(** ** A trap made to point to another cache *)

Section Retarget.
Context (h : heap) (sh : shape) (ts : nat) (ty : Z) (ct : nat) (v : object).
Hypothesis W : well_formed h sh.
Hypothesis Kt : sh ts = KTrap.
Hypothesis Kc : sh ct = KCache.
Hypothesis Vt : content h (ct, 0%nat) = Some v.
(* The cache the trap points to has the same value. *)
Hypothesis Vs : forall t b, content h (ts, TRAP_EXTRA) = Some (Pointer t b) -> content h (b, 0%nat) = Some v.

Let h' := stored h (ts, TRAP_EXTRA) (Pointer ty ct).

Lemma retarget_content a : a <> (ts, TRAP_EXTRA) -> content h' a = content h a.
Proof. intros Ne. now apply content_stored_ne. Qed.

Lemma retarget_extra : content h' (ts, TRAP_EXTRA) = Some (Pointer ty ct).
Proof. shaped W Kt. destruct B as (tag & tc & b & rest & -> & _). apply content_stored_eq with (old := Pointer tc b). word Eb. Qed.

Lemma retarget_well_formed : well_formed h' sh.
Proof.
  shaped W Kt. destruct B as (tag & tc & b & rest & -> & T & _). apply well_formed_stored with (Immediate tag :: Pointer tc b :: rest); auto.
  unfold block_ok. rewrite Kt. exists tag, ty, ct, rest. now split.
Qed.

Lemma retarget_cell d x : is_cell sh d -> content h d = Some x -> content h' d = Some x.
Proof. intros D Ed. rewrite retarget_content; [exact Ed|]. intros ->. unfold is_cell in D. cbn [fst] in D. now rewrite Kt in D. Qed.

Lemma retarget_value d x : is_cell sh d -> content h d = Some x -> value_of h' sh d = value_of h sh d.
Proof.
  intros D Ed. pose proof (retarget_cell d x D Ed) as Ed'.
  destruct (cell_cases h sh d x W Ed (cell_content_ok h sh d x W D Ed)) as [[V L]|(t & -> & K)].
  - unfold value_of. rewrite L, (location_value h' sh d x Ed' V). congruence.
  - destruct (cached_cell h sh d t W Ed K) as [_ (tc & b & u & Et & Kb & L & Eu & _)].
    destruct (cached_cell h' sh d t retarget_well_formed Ed' K) as [_ (tc' & b' & u' & Et' & Kb' & L' & Eu' & _)].
    unfold value_of. rewrite L, L', retarget_content by (intros [= Q]; congruence). destruct (Nat.eq_dec t ts) as [->|Ne].
    + rewrite retarget_extra in Et'. injection Et' as <- <-. rewrite Vt, (Vs _ _ Et). reflexivity.
    + rewrite retarget_content in Et' by congruence. congruence.
Qed.

Lemma retarget_cells f names parent s fu : sh f = KFrame names parent ->
  local_cell h' sh (Pointer TC_ENVIRONMENT f) s fu = local_cell h sh (Pointer TC_ENVIRONMENT f) s fu.
Proof.
  intros Ef. apply local_cell_same with names parent; auto using extends_refl.
  - apply retarget_content. congruence.
  - intros e Ke. unfold h'. rewrite block_stored. destruct (Nat.eqb_spec ts e) as [<-|]; [congruence|reflexivity].
  - right. intros name a Ca _. unfold visible_cell. cbn [snd]. rewrite retarget_content; [reflexivity|].
    intros ->. unfold is_cell in Ca. cbn [fst] in Ca. now rewrite Kt in Ca.
Qed.
End Retarget.

(** ** The target has a cache already *)

Lemma defines_then h sh env s cell v h1 h2 : defines h sh env s cell v h1 sh -> environment_ok sh env -> is_cell sh cell -> (exists y, content h1 cell = Some y) ->
  well_formed h2 sh -> evolves h sh h1 sh ->
  (forall f names parent s', sh f = KFrame names parent ->
     local_cell h2 sh (Pointer TC_ENVIRONMENT f) s' false = local_cell h1 sh (Pointer TC_ENVIRONMENT f) s' false) ->
  (forall d x, is_cell sh d -> content h1 d = Some x -> value_of h2 sh d = value_of h1 sh d) ->
  defines h sh env s cell v h2 sh.
Proof.
  intros [W1 X1 Dc Do Dv Ds] E C (y & Ey) W2 Ev Cl Vl. constructor; auto.
  - destruct E as [->|(f & nm & pa & -> & Ef)]; [exact Dc|]. now rewrite (Cl f nm pa s Ef).
  - intros g nm pa s' Eg Ne. rewrite (Cl g nm pa s' Eg). now apply Do with nm pa.
  - now rewrite (Vl cell y).
  - intros d x D Ed Ne. destruct (evolves_domain _ _ _ _ d x Ev Ed) as (z & Ez). rewrite (Vl d z D Ez). now apply Ds with x.
Qed.

(** The source cell is given the trap of the target cell. *)
Lemma share_linked h sh env s tc v h1 sc w t : environment_ok sh env -> value_of h sh sc = Some v ->
  defines h sh env s tc v h1 sh -> evolves h sh h1 sh -> is_cell sh tc -> is_cell sh sc -> tc <> sc -> sh t = KTrap ->
  content h1 tc = Some (Pointer TC_REFERENCE_TRAP t) -> content h1 sc = Some w -> w <> UNBOUND_OBJECT -> value_of h1 sh sc = Some v ->
  linked h sh env s sc (stored h1 sc (Pointer TC_REFERENCE_TRAP t)) sh /\ evolves h sh (stored h1 sc (Pointer TC_REFERENCE_TRAP t)) sh /\
  well_formed (stored h1 sc (Pointer TC_REFERENCE_TRAP t)) sh.
Proof.
  intros E Ev D Evo Ct Cs Ne Kt Et Es Nu Vs. pose proof (def_well_formed _ _ _ _ _ _ _ _ D) as W1.
  pose proof (share_location h1 sh sc w t W1 Cs Es Kt tc Ne Et Ct) as [Ls Vsc]. pose proof (share_well_formed h1 sh sc w t W1 Cs Es Kt) as W2.
  split; [|split; [apply evolves_trans with h1 sh; [exact Evo|now apply share_evolves]|exact W2]]. exists tc, v. split; [exact Ev|]. split.
  - apply defines_then with h1; auto; [eauto| |].
    + intros f nm pa s' Ef. apply (share_cells h1 sh sc w t W1 Cs Es TC_ENVIRONMENT f nm pa s' false Nu Ef).
    + intros d x C Ed. destruct (address_eq_dec d sc) as [->|Nd]; [|now apply (share_other h1 sh sc t W1 Cs d x)].
      rewrite Vsc, Vs. apply D.
  - rewrite Ls. now apply (share_other h1 sh sc t W1 Cs tc (Pointer TC_REFERENCE_TRAP t)).
Qed.

(** The cells of the two names, the target's with a cache at [ct]. *)
Record linking (h : heap) (sh : shape) (env s : object) (tc sc : address) (v : object) (tt ct : nat) : Prop := {
  lk_target : own_cell h sh env s tc;
  lk_cell : is_cell sh sc;
  lk_differ : tc <> sc;
  lk_trap : content h tc = Some (Pointer TC_REFERENCE_TRAP tt);
  lk_kind : sh tt = KTrap;
  lk_cache : exists ty, content h (tt, TRAP_EXTRA) = Some (Pointer ty ct);
  lk_cache_kind : sh ct = KCache;
  lk_value : value_of h sh sc = Some v;
  lk_value_ok : value_ok sh v
}.

(** The target cache is given the source's value. *)
Lemma cache_assigned h sh env s tc sc v tt ct : well_formed h sh -> symbol_ok sh s -> linking h sh env s tc sc v tt ct ->
  exists u, content h (ct, 0%nat) = Some u /\
  let h1 := stored h (ct, 0%nat) v in
  defines h sh env s tc v h1 sh /\ evolves h sh h1 sh /\ is_cell sh tc /\ content h1 tc = Some (Pointer TC_REFERENCE_TRAP tt) /\
  (forall a, sh (fst a) <> KCache -> content h1 a = content h a) /\ content h1 (ct, 0%nat) = Some v /\ value_of h1 sh sc = Some v /\
  location h sh tc = (ct, 0%nat).
Proof.
  intros W Sy [O Cs Ne Et Kt (ty & Ex) Kc Ev V]. destruct (own_cell_ok _ _ _ _ _ W Sy O) as (Ct & _).
  destruct (cached_cell h sh tc tt W Et Kt) as [_ (ty' & b & u & Ex' & _ & L & Eu & _)]. rewrite Ex in Ex'. injection Ex' as <- <-.
  exists u. split; [exact Eu|]. cbv zeta.
  assert (NL : location h sh tc <> tc). { rewrite L. intros Q. rewrite <- Q in Ct. unfold is_cell in Ct. cbn [fst] in Ct. now rewrite Kc in Ct. }
  pose proof (own_cell_defines h sh env s tc _ v W Sy O Et V (fun Q => match NL Q with end)) as D.
  destruct (store_value h sh tc v _ W Ct Et V) as [_ Evo _ Val _ _]. rewrite L in *.
  assert (Oth : forall a, sh (fst a) <> KCache -> content (stored h (ct, 0%nat) v) a = content h a) by (intros a Na; apply content_stored_ne; intros ->; contradiction).
  split; [exact D|]. split; [exact Evo|]. split; [exact Ct|]. split.
  { rewrite Oth; [exact Et|]. intros Q. unfold is_cell in Ct. now rewrite Q in Ct. }
  split; [exact Oth|]. split; [now apply content_stored_eq with u|]. split; [|reflexivity].
  assert (exists x, content h sc = Some x) as (x & Es).
  { destruct (content h sc) as [x|] eqn:Q; [eauto|]. unfold value_of, location in Ev. rewrite Q in Ev. cbv iota in Ev. congruence. }
  rewrite (Val sc x Cs Es). now destruct (address_eq_dec _ _).
Qed.

Lemma no_references h sh c ty k : well_formed h sh -> sh c = KCache -> (k < 3)%nat ->
  exists a, GET_CACHE_REFERENCES (Pointer ty c) k h = Return (a, h) /\ count_references a h = Return (0, h).
Proof.
  intros W K L. shaped W K. destruct B as (v & t & r & rest & -> & _ & Kr). shaped W Kr. subst words. exists (r, k). split.
  - unfold GET_CACHE_REFERENCES, GET_CACHE_REFERENCES_OBJECT. run MEMORY_REF_ok; [|word Eb]. reflexivity.
  - unfold count_references. cbn [count_palist]. assert (E : content h (r, k) = Some EMPTY_LIST).
    { apply content_nth with [EMPTY_LIST; EMPTY_LIST; EMPTY_LIST]; [exact Eb0|]. destruct k as [|[|[|k]]]; [reflexivity..|lia]. }
    run load_ok; [|exact E]. reflexivity.
Qed.

Lemma trap_of h sh a t : well_formed h sh -> content h a = Some (Pointer TC_REFERENCE_TRAP t) -> sh t = KTrap ->
  exists ty b v, GET_TRAP_CACHE (Pointer TC_REFERENCE_TRAP t) h = Return (Pointer ty b, h) /\ content h (t, TRAP_EXTRA) = Some (Pointer ty b) /\
    sh b = KCache /\ content h (b, 0%nat) = Some v /\ value_of h sh a = Some v /\ value_ok sh v /\ location h sh a = (b, 0%nat).
Proof.
  intros W E K. destruct (cached_cell h sh a t W E K) as [_ (ty & b & v & Ex & Kb & L & Ev & V)]. exists ty, b, v.
  split; [|unfold value_of; rewrite L; auto 10]. unfold GET_TRAP_CACHE. now apply MEMORY_REF_ok.
Qed.

Lemma source_kind_ok h sh sc w : well_formed h sh -> content h sc = Some w -> cell_ok sh w ->
  exists kind, get_trap_kind w h = Return (kind, h) /\
  ((kind = TRAP_UNBOUND /\ w = UNBOUND_OBJECT) \/
   (kind <> TRAP_UNBOUND /\ w <> UNBOUND_OBJECT /\
    ((kind <> TRAP_COMPILER_CACHED /\ value_ok sh w /\ value_of h sh sc = Some w) \/
     (kind = TRAP_COMPILER_CACHED /\ exists t, w = Pointer TC_REFERENCE_TRAP t /\ sh t = KTrap)))).
Proof.
  intros W E C. destruct (cell_cases h sh sc w W E C) as [[V L]|(t & -> & K)].
  - exists (value_kind w). split; [now apply get_trap_kind_value with sh|].
    destruct (object_eq_dec w UNBOUND_OBJECT) as [->|Nu]; [left; now split|right].
    assert (Nk : value_kind w <> TRAP_UNBOUND) by (intros Q; now apply value_kind_unbound in Q). split; [exact Nk|]. split; [exact Nu|]. left.
    split; [|split; [exact V|unfold value_of; now rewrite L]]. destruct (value_kind_cases w) as [Q|[Q|[Q|Q]]]; rewrite Q; discriminate.
  - destruct (cached_cell h sh sc t W E K) as [G _]. exists TRAP_COMPILER_CACHED. split; [exact G|]. right. split; [discriminate|]. split; [discriminate|].
    right. split; [reflexivity|eauto].
Qed.

Lemma link_cached_ok h sh ob n env s sc w kind tc tt : state table h sh ob n -> environment_ok sh env -> symbol_ok sh s -> own_cell h sh env s tc ->
  is_cell sh sc -> tc <> sc -> content h sc = Some w -> get_trap_kind w h = Return (kind, h) ->
  kind <> TRAP_UNBOUND -> content h tc = Some (Pointer TC_REFERENCE_TRAP tt) -> sh tt = KTrap -> 8 <= available h ->
  returns (link_cached sc tc kind h) (fun '(code, h') => code = PRIM_DONE /\ state table h' sh ob n /\ linked h sh env s sc h' sh).
Proof.
  intros St Et Sy O Cs Ne Es Gk Nk Ett Kt Av. pose proof (state_variables _ _ _ _ _ St) as W. destruct (source_kind_ok h sh sc w W Es (cell_content_ok h sh sc w W Cs Es)) as (kind' & Gk' & Ck).
  assert (kind' = kind) as -> by congruence. destruct Ck as [[Q _]|(_ & Nu & Ck)]; [contradiction|].
  destruct (own_cell_ok _ _ _ _ _ W Sy O) as (Ct & _). destruct (trap_of h sh tc tt W Ett Kt) as (ty & ct & u & Gt & Ext & Kct & Ect & Evt & Vu & Lt).
  unfold link_cached. run load_ok; [|exact Ett]. erewrite andthen_return by exact Gt. cbv zeta.
  destruct Ck as [(Nc & V & Ev)|(-> & ts & -> & Ks)].
  - destruct (Z.eqb_spec kind TRAP_COMPILER_CACHED); [contradiction|]. run load_ok; [|exact Es].
    assert (Lk : linking h sh env s tc sc w tt ct) by (constructor; eauto).
    destruct (cache_assigned h sh env s tc sc w tt ct W Sy Lk) as (u' & Eu' & D & Evo & _ & Etc & Oth & _ & Vs & _).
    unfold SET_CACHE_VALUE. run MEMORY_SET_ok; [|exact Eu']. run load_ok; [|exact Etc].
    assert (Es1 : content (stored h (ct, 0%nat) w) sc = Some w) by (rewrite Oth; [exact Es|intros K; unfold is_cell in Cs; now rewrite K in Cs]).
    run store_ok; [|exact Es1]. ret_now. split; [reflexivity|].
    destruct (share_linked h sh env s tc w _ sc w tt Et Ev D Evo Ct Cs Ne Kt Etc Es1 Nu Vs) as (L & Ev2 & W2).
    split; [apply evolves_state with h sh; [exact Ev2|exact W2|exact St]|exact L].
  - change (TRAP_COMPILER_CACHED =? TRAP_COMPILER_CACHED) with true. cbv iota. run load_ok; [|exact Es].
    destruct (trap_of h sh sc ts W Es Ks) as (ty' & cs & v & Gs & Exs & Kcs & Ecs & Evs & V & Ls). erewrite andthen_return by exact Gs.
    destruct (object_eqb_spec (Pointer ty' cs) (Pointer ty ct)) as [[= -> ->]|Nq].
    { ret_now. split; [reflexivity|]. split; [exact St|]. exists tc, u. rewrite Ecs in Ect. injection Ect as ->. split; [exact Evs|]. split; [|congruence].
      apply defines_same with (Pointer TC_REFERENCE_TRAP tt); auto. discriminate. }
    destruct (no_references h sh ct ty CACHE_REFERENCES_OPERATOR W Kct) as (a & Ga & Na); [unfold CACHE_REFERENCES_OPERATOR; lia|].
    unfold GET_CACHE_OPERATOR_REFERENCES. erewrite andthen_return by exact Ga. erewrite andthen_return by exact Na.
    unfold GC_CHECK. assert (GC_NEEDED_P (0 * SPACE_PER_UUO_LINK + 2 * SPACE_PER_CACHE) h = false) as ->.
    { apply HEAP_AVAILABLE_enough; unfold SPACE_PER_UUO_LINK, SPACE_PER_CACHE; lia. }
    unfold GET_CACHE_VALUE at 1. run MEMORY_REF_ok; [|exact Ecs].
    assert (Lk : linking h sh env s tc sc v tt ct) by (constructor; eauto).
    destruct (cache_assigned h sh env s tc sc v tt ct W Sy Lk) as (u' & Eu' & D & Evo & _ & Etc & Oth & Ect1 & Vs & _).
    unfold SET_CACHE_VALUE. run MEMORY_SET_ok; [|exact Eu']. set (h1 := stored h (ct, 0%nat) v) in *. pose proof (def_well_formed _ _ _ _ _ _ _ _ D) as W1.
    erewrite andthen_return by (now apply update_clone_ok with sh). erewrite andthen_return by (now apply update_clone_ok with sh).
    assert (Es1 : content h1 sc = Some (Pointer TC_REFERENCE_TRAP ts)) by (rewrite Oth; [exact Es|intros K; unfold is_cell in Cs; now rewrite K in Cs]).
    run load_ok; [|exact Es1]. assert (Exs1 : content h1 (ts, TRAP_EXTRA) = Some (Pointer ty' cs)) by (rewrite Oth; [exact Exs|cbn [fst]; congruence]).
    unfold SET_TRAP_CACHE. run MEMORY_SET_ok; [|exact Exs1].
    assert (Sv : forall t b, content h1 (ts, TRAP_EXTRA) = Some (Pointer t b) -> content h1 (b, 0%nat) = Some v).
    { intros t b Q. rewrite Exs1 in Q. injection Q as <- <-. destruct (Nat.eq_dec cs ct) as [->|Nb]; [exact Ect1|].
      unfold h1. rewrite content_stored_ne by congruence. exact Ecs. }
    pose proof (retarget_well_formed h1 sh ts ty ct W1 Ks Kct) as W2. set (h2 := stored h1 (ts, TRAP_EXTRA) (Pointer ty ct)) in *.
    assert (D2 : defines h sh env s tc v h2 sh).
    { apply defines_then with h1; auto; [eauto| |].
      - intros f nm pa s' Ef. now apply retarget_cells with nm pa.
      - intros d x Cd Ed. now apply retarget_value with v x. }
    assert (Etc2 : content h2 tc = Some (Pointer TC_REFERENCE_TRAP tt)) by (apply retarget_cell with (sh := sh); auto).
    assert (Es2 : content h2 sc = Some (Pointer TC_REFERENCE_TRAP ts)) by (apply retarget_cell with (sh := sh); auto).
    assert (Vs2 : value_of h2 sh sc = Some v) by (rewrite <- Vs; now apply retarget_value with v (Pointer TC_REFERENCE_TRAP ts)).
    assert (Evo2 : evolves h sh h2 sh) by (apply evolves_stored; [exact Evo|unfold environment_word; cbn [fst]; now rewrite Ks]).
    run load_ok; [|exact Etc2]. run store_ok; [|exact Es2]. ret_now. split; [reflexivity|].
    destruct (share_linked h sh env s tc v h2 sc _ tt Et Evs D2 Evo2 Ct Cs Ne Kt Etc2 Es2 Nu Vs2) as (L & Ev3 & W3).
    split; [apply evolves_state with h sh; [exact Ev3|exact W3|exact St]|exact L].
Qed.

Lemma own_cell_unique h sh env s c d : own_cell h sh env s c -> own_cell h sh env s d -> c = d.
Proof.
  intros [[-> A]|(f & nm & pa & -> & _ & A)] [[E B]|(g & nm' & pa' & E & _ & B)]; try discriminate; congruence.
Qed.

Lemma link_space_8 h env : link_space h env -> 8 <= available h.
Proof.
  destruct env as [|ty f]; [easy|]. cbn [link_space]. assert (0 <= extension_space h f); [|lia].
  unfold extension_space. destruct (content h (f, ENVIRONMENT_FUNCTION)) as [[|ty' e]|]; try lia. destruct (ty' =? TC_VECTOR); [|lia]. destruct (block_of h e); lia.
Qed.

Lemma trap_kind_kept h h' sh w kind : well_formed h sh -> well_formed h' sh -> cell_ok sh w ->
  get_trap_kind w h = Return (kind, h) -> get_trap_kind w h' = Return (kind, h').
Proof.
  intros W W' C G. destruct C as [V|(t & -> & K)].
  - rewrite (get_trap_kind_value h sh w W V) in G. injection G as <-. now apply get_trap_kind_value with sh.
  - assert (Q : forall g, well_formed g sh -> get_trap_kind (Pointer TC_REFERENCE_TRAP t) g = Return (TRAP_COMPILER_CACHED, g)).
    { intros g Wg. shaped Wg K. destruct B as (tag & tc & b & rest & -> & T & _). unfold get_trap_kind.
      change (REFERENCE_TRAP_P (Pointer TC_REFERENCE_TRAP t)) with true. cbv iota. unfold GET_TRAP_TAG. run MEMORY_REF_ok; [|word Eb].
      apply pure_return. cbn [OBJECT_DATUM]. now rewrite T. }
    rewrite (Q h W) in G. injection G as <-. now apply Q.
Qed.

(** What is left to do once the target has a cell that is not the source's. *)
Lemma link_cell_ok h sh ob n tenv ts ss senv fr sc w kind tc : state table h sh ob n -> environment_ok sh tenv -> symbol_ok sh ts -> symbol_ok sh ss ->
  (tenv = THE_GLOBAL_ENV -> known_symbol table ts) -> link_space h tenv -> REFERENCE_TRAP_P (non_object h) = false -> gc_enabled h = true ->
  available h < 2 ^ 56 -> resolves h sh ss senv (Some sc) fr -> content h sc = Some w -> get_trap_kind w h = Return (kind, h) -> kind <> TRAP_UNBOUND ->
  own_cell h sh tenv ts tc -> tc <> sc ->
  returns ((cached <- cached_p tc ;;
            (if cached then link_cached sc tc kind
             else RETURN_IF_ERROR (guarantee_cache sc) (value <- load sc ;; define_variable tenv ts value))) h) (link_outcome h sh ob n tenv ts sc).
Proof.
  intros St Et Sy Sys Kn Sp Nn Gc Av R Ew Gk Nk O Ne. pose proof (state_variables _ _ _ _ _ St) as W. destruct (resolves_cell _ _ _ _ _ _ W Sys R) as (Cs & _).
  destruct (own_cell_ok _ _ _ _ _ W Sy O) as (Ct & x & Ex & Cx). unfold cached_p. rewrite !andthen_assoc. run load_ok; [|exact Ex]. rewrite !andthen_assoc.
  destruct (cell_cases h sh tc x W Ex Cx) as [[V L]|(t & -> & Kt)].
  - erewrite andthen_return by (now apply get_trap_kind_value with sh). erewrite andthen_return by reflexivity.
    assert ((value_kind x =? TRAP_COMPILER_CACHED) = false) as -> by (destruct (value_kind_cases x) as [Q|[Q|[Q|Q]]]; rewrite Q; reflexivity).
    apply (link_define_ok h sh ob n tenv ts ss senv fr sc w); auto.
    intros c Oc. rewrite <- (own_cell_unique _ _ _ _ _ _ O Oc). split; [exact Ne|eauto].
  - destruct (cached_cell h sh tc t W Ex Kt) as [G _]. erewrite andthen_return by exact G. erewrite andthen_return by reflexivity.
    change (TRAP_COMPILER_CACHED =? TRAP_COMPILER_CACHED) with true. cbv iota.
    eapply returns_weaken; [apply (link_cached_ok h sh ob n tenv ts sc w kind tc t); auto; now apply link_space_8 with tenv|].
    intros [code h'] (-> & St' & Lk). exists sh. split; [exact St'|]. split; [apply extends_refl|]. right. now split.
Qed.

(** The outcomes of [link_variables]. *)
Definition variables_linked (h : heap) (sh : shape) (ob : nat) (n : Z) (tenv ts senv ss : object) (out : Z * heap) : Prop :=
  let '(code, h') := out in
  exists sh', state table h' sh' ob n /\ extends sh sh' /\
    ((code = ERR_UNBOUND_VARIABLE /\ h' = h /\ denotes h sh senv ss (ERR_UNBOUND_VARIABLE, None)) \/
     (code = PRIM_INTERRUPT /\ unaffected h sh h' sh') \/
     (code = PRIM_DONE /\ exists sc fr, resolves h sh ss senv (Some sc) fr /\ linked h sh tenv ts sc h' sh')).

Lemma link_outcome_linked h sh ob n tenv ts senv ss sc fr out : resolves h sh ss senv (Some sc) fr -> link_outcome h sh ob n tenv ts sc out ->
  variables_linked h sh ob n tenv ts senv ss out.
Proof. destruct out as [code h']. intros R (sh' & St & X & H). exists sh'. split; [exact St|]. split; [exact X|]. destruct H as [H|[-> H]]; [auto|right; right; eauto]. Qed.

Lemma link_variables_ok h sh ob n tenv ts senv ss : state table h sh ob n -> environment_ok sh tenv -> symbol_ok sh ts -> environment_ok sh senv -> symbol_ok sh ss ->
  (tenv = THE_GLOBAL_ENV -> known_symbol table ts) -> link_space h tenv -> REFERENCE_TRAP_P (non_object h) = false -> gc_enabled h = true ->
  available h < 2 ^ 56 ->
  returns (link_variables tenv ts senv ss h) (variables_linked h sh ob n tenv ts senv ss).
Proof.
  intros St Et Sy Es Sys Kn Sp Nn Gc Av. pose proof (state_variables _ _ _ _ _ St) as W. unfold link_variables.
  rewrite (environment_ok_p _ _ Et), (environment_ok_p _ _ Es), (symbol_ok_p _ _ Sy), (symbol_ok_p _ _ Sys). cbn [andb negb].
  destruct (find_binding_cell_ok h sh ss senv W Sys Es) as (cell & fr & Ef & R). erewrite andthen_return by exact Ef. destruct cell as [sc|].
  2:{ ret_now. exists sh. split; [exact St|]. split; [apply extends_refl|]. left. split; [reflexivity|]. split; [reflexivity|]. now exists None, fr. }
  destruct (resolves_cell _ _ _ _ _ _ W Sys R) as (Cs & w & Ew & Ok). run load_ok; [|exact Ew].
  destruct (source_kind_ok h sh sc w W Ew Ok) as (kind & Gk & Ck). erewrite andthen_return by exact Gk. destruct Ck as [[-> ->]|(Nk & Nu & _)].
  { ret_now. exists sh. split; [exact St|]. split; [apply extends_refl|]. left. split; [reflexivity|]. split; [reflexivity|]. exists (Some sc), fr. split; [exact R|].
    exists UNBOUND_OBJECT. split; [|reflexivity]. unfold value_of. rewrite (location_value h sh sc UNBOUND_OBJECT Ew); [exact Ew|]. right. right. now left. }
  destruct (Z.eqb_spec kind TRAP_UNBOUND); [contradiction|].
  assert (Same : own_cell h sh tenv ts sc -> variables_linked h sh ob n tenv ts senv ss (PRIM_DONE, h)).
  { intros O. apply link_outcome_linked with sc fr; [exact R|]. exists sh. split; [exact St|]. split; [apply extends_refl|]. right. split; [reflexivity|].
    destruct (value_of_ok h sh sc w W Ew Ok) as (v & Ev & _). exists sc, v. split; [exact Ev|]. split; [now apply defines_same with w|reflexivity]. }
  destruct Et as [->|(f & nm & pa & -> & Ekf)].
  - erewrite andthen_return by (apply scan_global_ok with sh; exact Sy). pose proof Sy as (ty & b & -> & Spt & Kb). cbn [symbol_cell].
    set (s := Pointer ty b) in *. set (tc := (b, SYMBOL_GLOBAL_VALUE)) in *. assert (O : own_cell h sh THE_GLOBAL_ENV s tc) by (left; now split).
    destruct (address_eq_dec tc sc) as [Q|Ne]; [ret_now; apply Same; now rewrite <- Q|].
    change (GLOBAL_FRAME_P THE_GLOBAL_ENV) with true. cbv iota.
    destruct (strengthen_ok table h sh ob n s TC_LIST St (Kn eq_refl)) as ([[] h1] & E1 & St1 & S1 & C1); [now left|].
    unfold strengthen_symbol. erewrite andthen_return by exact E1.
    assert (R1 : resolves h1 sh ss senv (Some sc) fr).
    { apply (resolves_same h sh h1 sh); auto using extends_refl. intros g nm pa Eg. now apply (sv_cells _ _ _ _ S1) with nm pa. }
    assert (Ew1 : content h1 sc = Some w) by (apply (sv_content _ _ _ _ S1); [now left; left|exact Ew]).
    assert (W1 : well_formed h1 sh) by apply St1. pose proof (trap_kind_kept h h1 sh w kind W W1 Ok Gk) as Gk1.
    eapply returns_weaken; [apply (link_cell_ok h1 sh ob n THE_GLOBAL_ENV s ss senv fr sc w kind tc); auto|].
    + now left.
    + change (8 <= available h1). rewrite (same_available _ _ _ C1). exact Sp.
    + now rewrite (same_non_object _ _ _ C1).
    + now rewrite (same_gc_enabled _ _ _ C1).
    + now rewrite (same_available _ _ _ C1).
    + intros [code h'] (sh' & St' & X & H). exists sh'. split; [exact St'|]. split; [exact X|]. right. destruct H as [[-> U]|[-> L]].
      * left. split; [reflexivity|]. apply unaffected_trans with h1 sh; [apply extends_refl| |exact U]. intros e s' r E' Sy'.
        apply sv_denotes; auto using extends_refl.
      * right. split; [reflexivity|]. exists sc, fr. split; [exact R|]. apply linked_after with h1 w; auto. now left.
  - erewrite andthen_return by (apply (scan_frame_ok h sh f nm pa); assumption).
    destruct (local_cell h sh (Pointer TC_ENVIRONMENT f) ts true) as [tc|] eqn:El.
    + assert (O : own_cell h sh (Pointer TC_ENVIRONMENT f) ts tc) by (right; now exists f, nm, pa).
      destruct (address_eq_dec tc sc) as [Q|Ne]; [ret_now; apply Same; now rewrite <- Q|].
      change (GLOBAL_FRAME_P (Pointer TC_ENVIRONMENT f)) with false. cbv iota. erewrite andthen_return by reflexivity.
      eapply returns_weaken; [apply (link_cell_ok h sh ob n (Pointer TC_ENVIRONMENT f) ts ss senv fr sc w kind tc); auto|].
      * right. eauto.
      * intros out. now apply link_outcome_linked with fr.
    + eapply returns_weaken; [apply (link_define_ok h sh ob n (Pointer TC_ENVIRONMENT f) ts ss senv fr sc w); auto|].
      * right. eauto.
      * intros c [[Q _]|(g & nm' & pa' & [= <-] & _ & El')]; [discriminate|congruence].
      * intros out. now apply link_outcome_linked with fr.
Qed.
End Symbols.
