(* ===== verification/SampleHeap.v ===== *)
(** * A small heap

    A table of two symbols and two frames, one the parent of the other, on
    which the properties of symbols and variables are tried. *)

From Stdlib Require Import ZArith List Bool Lia.
From S2P Require Import Prelude Object Bytes Heap Intern Environment Lookup Variables.
Import ListNotations.

#[local] Open Scope Z_scope.

Definition TC_PROCEDURE : Z := 0x0F.
Definition TC_LAMBDA : Z := 0x17.

Definition sample_symbol (b : nat) : object := Pointer TC_INTERNED_SYMBOL b.
Definition sample_fixnum (n : Z) : object := LONG_TO_UNSIGNED_FIXNUM n.
Definition sample_string (bytes word : Z) : list object := [MAKE_OBJECT TC_MANIFEST_VECTOR 2; Immediate bytes; Immediate word].

(** The names [x], [y] and the symbols of these names. *)
Definition name_x : list Z := [120].
Definition name_y : list Z := [121].
Definition symbol_x : object := sample_symbol 3.
Definition symbol_y : object := sample_symbol 5.

(** The outer frame binds [x]; the inner frame binds [y]. *)
Definition outer_frame : object := Pointer TC_ENVIRONMENT 11.
Definition inner_frame : object := Pointer TC_ENVIRONMENT 15.

Definition sample_blocks : list (list object) :=
  [ [MAKE_OBJECT TC_MANIFEST_VECTOR 1; Pointer TC_LIST 1];
    [symbol_x; Pointer TC_WEAK_CONS 6];
    sample_string 1 120;
    [Pointer TC_CHARACTER_STRING 2; sample_fixnum 10];
    sample_string 1 121;
    [Pointer TC_CHARACTER_STRING 4; UNASSIGNED_OBJECT];
    [symbol_y; EMPTY_LIST];
    sample_string 1 122;
    [MAKE_OBJECT TC_MANIFEST_VECTOR 2; SHARP_F; symbol_x];
    [SHARP_F; Pointer TC_VECTOR 8];
    [Pointer TC_LAMBDA 9; THE_GLOBAL_ENV];
    [MAKE_OBJECT TC_MANIFEST_VECTOR 2; Pointer TC_PROCEDURE 10; sample_fixnum 1];
    [MAKE_OBJECT TC_MANIFEST_VECTOR 2; SHARP_F; symbol_y];
    [SHARP_F; Pointer TC_VECTOR 12];
    [Pointer TC_LAMBDA 13; outer_frame];
    [MAKE_OBJECT TC_MANIFEST_VECTOR 2; Pointer TC_PROCEDURE 14; sample_fixnum 2] ].

Definition sample_heap : heap := Heap sample_blocks 1000 true None SHARP_T (Pointer TC_VECTOR 0).

Definition sample_kinds : list kind :=
  [ KObarray; KBucket 0; KString; KSymbol; KString; KSymbol; KBucket 0; KString;
    KFormals [symbol_x]; KLambda [symbol_x]; KProcedure [symbol_x] THE_GLOBAL_ENV; KFrame [symbol_x] THE_GLOBAL_ENV;
    KFormals [symbol_y]; KLambda [symbol_y]; KProcedure [symbol_y] outer_frame; KFrame [symbol_y] outer_frame ].

Definition sample_shape : shape := fun b => nth b sample_kinds KOther.

(** ** It is well formed *)

Lemma sample_shape_bounded b : (16 <= b)%nat -> sample_shape b = KOther.
Proof. intros L. unfold sample_shape. now apply nth_overflow. Qed.

Lemma sample_before b env : env = THE_GLOBAL_ENV \/ (env = outer_frame /\ (11 < b)%nat) -> environment_before sample_shape b env.
Proof. intros [->|[-> L]]; [now left|]. right. right. exists 11%nat, [symbol_x], THE_GLOBAL_ENV. auto. Qed.

Lemma sample_frame names parent b procedure value : environment_before sample_shape b parent ->
  (exists p, procedure = Pointer TC_PROCEDURE p /\ sample_shape p = KProcedure names parent) -> length names = 1%nat -> REFERENCE_TRAP_P value = false ->
  frame_words sample_shape b names parent [MAKE_OBJECT TC_MANIFEST_VECTOR 2; procedure; value].
Proof.
  intros B (p & -> & K) L V. constructor; [exact B|]. exists (MAKE_OBJECT TC_MANIFEST_VECTOR 2), (Pointer TC_PROCEDURE p), [value].
  split; [reflexivity|]. split; [cbn; lia|]. split; [constructor; [left; now left|constructor]|]. left. exists TC_PROCEDURE, p. now split.
Qed.

Lemma sample_well_formed : well_formed sample_heap sample_shape.
Proof.
  intros b. unfold block_of, sample_heap. cbn [blocks]. destruct (Nat.lt_ge_cases b 16) as [L|L].
  2:{ replace (nth_error sample_blocks b) with (@None (list object)); [now apply sample_shape_bounded|]. symmetry. now apply nth_error_None. }
  do 16 (try (destruct b as [|b]; [cbn; try exact I|])); [..|lia].
  - exists (Pointer TC_CHARACTER_STRING 2), (sample_fixnum 10), []. split; [reflexivity|]. left. now left.
  - exists (Pointer TC_CHARACTER_STRING 4), UNASSIGNED_OBJECT, []. split; [reflexivity|]. left. right. now left.
  - exists (Object.MAKE_OBJECT TC_MANIFEST_VECTOR 2), SHARP_F. split; [reflexivity|]. split; [reflexivity|]. repeat constructor. intros [].
  - exists SHARP_F, TC_VECTOR, 8%nat, []. now split.
  - exists TC_LAMBDA, 9%nat, []. now split.
  - apply sample_frame; [now apply sample_before; left|now exists 10%nat|reflexivity|reflexivity].
  - exists (Object.MAKE_OBJECT TC_MANIFEST_VECTOR 2), SHARP_F. split; [reflexivity|]. split; [reflexivity|]. repeat constructor. intros [].
  - exists SHARP_F, TC_VECTOR, 12%nat, []. now split.
  - exists TC_LAMBDA, 13%nat, []. now split.
  - apply sample_frame; [apply sample_before; right; split; [reflexivity|lia]|now exists 14%nat|reflexivity|reflexivity].
Qed.

(** ** Its table of symbols *)

Lemma sample_string_object b t bytes word : nth_error sample_blocks b = Some (sample_string (zlength bytes) word) -> sample_shape b = KString ->
  (exists rest, word_bytes word = bytes ++ rest) -> Object.OBJECT_DATUM (zlength bytes) = zlength bytes ->
  string_object sample_heap sample_shape (Pointer t b) bytes.
Proof.
  intros E K (rest & R) D. exists t, b, (sample_string (zlength bytes) word). split; [reflexivity|]. split; [exact K|]. split; [exact E|].
  exists (MAKE_OBJECT TC_MANIFEST_VECTOR 2), (zlength bytes), [word], rest. split; [reflexivity|]. split; [exact D|]. cbn [map concat]. now rewrite app_nil_r.
Qed.

Lemma sample_named_x : symbol_named sample_heap sample_shape symbol_x name_x.
Proof.
  exists TC_INTERNED_SYMBOL, 3%nat, (Pointer TC_CHARACTER_STRING 2). repeat (split; [reflexivity|]).
  apply (sample_string_object 2 TC_CHARACTER_STRING name_x 120); try reflexivity. now eexists.
Qed.

Lemma sample_named_y : symbol_named sample_heap sample_shape symbol_y name_y.
Proof.
  exists TC_INTERNED_SYMBOL, 5%nat, (Pointer TC_CHARACTER_STRING 4). repeat (split; [reflexivity|]).
  apply (sample_string_object 4 TC_CHARACTER_STRING name_y 121); try reflexivity. now eexists.
Qed.

Definition sample_pairs : list (nat * object) := [(1%nat, symbol_x); (6%nat, symbol_y)].

Lemma sample_bucket : bucket sample_heap sample_shape 1 0 (0, 1)%nat sample_pairs (6, 1)%nat.
Proof.
  constructor.
  - apply chain_cons with TC_LIST; [reflexivity|now left|reflexivity|reflexivity|].
    apply chain_cons with TC_WEAK_CONS; [reflexivity|now right|reflexivity|reflexivity|]. constructor.
  - repeat constructor; cbn; intuition discriminate.
  - exists EMPTY_LIST. now split.
  - intros s [<-|[<-|[]]]; [exists name_x|exists name_y]; split; auto using sample_named_x, sample_named_y; now rewrite Z.mod_1_r.
  - repeat constructor; cbn; intuition discriminate.
  - intros s1 s2 name I1 I2 N1 N2.
    assert (H : forall s, In s (live sample_pairs) -> symbol_named sample_heap sample_shape s name -> (s = symbol_x /\ name = name_x) \/ (s = symbol_y /\ name = name_y)).
    { intros s [<-|[<-|[]]] N; [left|right]; (split; [reflexivity|]).
      - apply (symbol_named_unique _ _ _ _ _ N sample_named_x).
      - apply (symbol_named_unique _ _ _ _ _ N sample_named_y). }
    destruct (H s1 I1 N1) as [[-> ->]|[-> ->]], (H s2 I2 N2) as [[-> Q]|[-> Q]]; reflexivity || discriminate.
Qed.

Lemma sample_obarray : obarray_ok sample_heap sample_shape 0 1.
Proof.
  constructor; try reflexivity.
  - exists (Object.MAKE_OBJECT TC_MANIFEST_VECTOR 1). now split.
  - intros i L. assert (i = 0%nat) as -> by lia. exists sample_pairs, (6, 1)%nat. apply sample_bucket.
Qed.

Lemma sample_interned_x : interned sample_heap sample_shape 0 1 name_x symbol_x.
Proof. exists 0%nat, sample_pairs, (6, 1)%nat. split; [now rewrite Z.mod_1_r|]. split; [apply sample_bucket|]. split; [now left|apply sample_named_x]. Qed.

Lemma sample_interned_y : interned sample_heap sample_shape 0 1 name_y symbol_y.
Proof. exists 0%nat, sample_pairs, (6, 1)%nat. split; [now rewrite Z.mod_1_r|]. split; [apply sample_bucket|]. split; [right; now left|apply sample_named_y]. Qed.

(** The symbols of the table. *)
Definition sample_table (name : list Z) (s : object) : Prop := (name = name_x /\ s = symbol_x) \/ (name = name_y /\ s = symbol_y).

Lemma sample_state : state sample_table sample_heap sample_shape 0 1.
Proof.
  constructor; [apply sample_well_formed|apply sample_obarray| |reflexivity|reflexivity]. intros name s. split.
  - intros (i & pairs & tail & Ei & B & I & N). rewrite Z.mod_1_r in Ei. assert (i = 0%nat) as -> by lia.
    destruct (bucket_unique_pairs _ _ _ _ _ _ _ _ _ sample_bucket B) as [<- _].
    destruct I as [<-|[<-|[]]]; [left|right]; (split; [|reflexivity]).
    + apply (symbol_named_unique _ _ _ _ _ N sample_named_x).
    + apply (symbol_named_unique _ _ _ _ _ N sample_named_y).
  - intros [[-> ->]|[-> ->]]; [apply sample_interned_x|apply sample_interned_y].
Qed.

Lemma sample_known_x : known_symbol sample_table symbol_x.
Proof. right. exists name_x. now left. Qed.

Lemma sample_known_y : known_symbol sample_table symbol_y.
Proof. right. exists name_y. now right. Qed.

Lemma sample_symbol_x : symbol_ok sample_shape symbol_x.
Proof. now exists TC_INTERNED_SYMBOL, 3%nat. Qed.

Lemma sample_symbol_y : symbol_ok sample_shape symbol_y.
Proof. now exists TC_INTERNED_SYMBOL, 5%nat. Qed.

Lemma sample_outer : environment_ok sample_shape outer_frame.
Proof. right. now exists 11%nat, [symbol_x], THE_GLOBAL_ENV. Qed.

Lemma sample_inner : environment_ok sample_shape inner_frame.
Proof. right. now exists 15%nat, [symbol_y], outer_frame. Qed.

Lemma sample_global : environment_ok sample_shape THE_GLOBAL_ENV.
Proof. now left. Qed.

Create HintDb sample.

#[export] Hint Resolve sample_well_formed sample_obarray sample_state sample_interned_x sample_interned_y sample_known_x sample_known_y sample_symbol_x sample_symbol_y
  sample_outer sample_inner sample_global : sample.
