(* ===== verification/VariableSafety.v ===== *)
(** * Sequences of operations on variables

    The commands that [lookup.c] offers, and runs of them one after another
    from a state in which the table of symbols and the frames are well formed. *)

From Stdlib Require Import ZArith List Bool Lia.
From S2P Require Import Prelude Object Heap Intern Environment Lookup Variables Linking SampleHeap.
Import ListNotations.

#[local] Open Scope Z_scope.
#[local] Open Scope heap_scope.

(** ** The predicates, from the reference *)

Lemma after_reference (g : Z * option object -> operation result) env s h r : lookup_variable env s h = Return (r, h) ->
  (x <- lookup_variable env s ;; g x) h = g r h.
Proof. intros E. now erewrite andthen_return by exact E. Qed.

(** The results of [lookup_variable], [safe_lookup_variable], [variable_unassigned_p],
    [variable_unbound_p] and [variable_unreferenceable_p] for a variable with
    the value [v], or for a name without a variable. *)
Definition reference_results (external : object) (v : option object) : list result :=
  let answer b := (PRIM_DONE, Some (if b : bool then SHARP_T else SHARP_F)) in
  let unbound := [(ERR_UNBOUND_VARIABLE, None); (ERR_UNBOUND_VARIABLE, None); (ERR_UNBOUND_VARIABLE, None); answer true; answer true] in
  match v with
  | None => unbound
  | Some v =>
      let kind := value_kind v in
      if kind =? NON_TRAP_KIND then [(PRIM_DONE, Some v); (PRIM_DONE, Some v); answer false; answer false; answer false]
      else if kind =? TRAP_UNASSIGNED then
        [(ERR_UNASSIGNED_VARIABLE, None); (PRIM_DONE, Some external); answer true; answer false; answer true]
      else if kind =? TRAP_UNBOUND then unbound
      else [(ERR_MACRO_BINDING, Some v); (ERR_MACRO_BINDING, Some v); (ERR_MACRO_BINDING, None); answer false; answer true]
  end.

Definition variable_value (h : heap) (sh : shape) (env s : object) (v : option object) : Prop :=
  exists cell frame, resolves h sh s env cell frame /\
    match cell with None => v = None | Some c => v = value_of h sh c /\ v <> None end.

Lemma reference_results_ok h sh env s : well_formed h sh -> environment_ok sh env -> symbol_ok sh s ->
  exists v, variable_value h sh env s v /\
    Forall2 (fun (f : object -> object -> operation result) r => f env s h = Return (r, h))
      [lookup_variable; safe_lookup_variable; variable_unassigned_p; variable_unbound_p; variable_unreferenceable_p]
      (reference_results (non_object h) v).
Proof.
  intros W E Sy. destruct (lookup_variable_ok h sh env s W E Sy) as ([r h'] & El & -> & cell & frame & R & V).
  assert (All : Forall2 (fun (f : object -> object -> operation result) r => f env s h = Return (r, h))
    [lookup_variable; safe_lookup_variable; variable_unassigned_p; variable_unbound_p; variable_unreferenceable_p]
    (reference_results (non_object h) (match cell with None => None | Some c => value_of h sh c end))).
  { destruct cell as [c|]; [destruct V as (v & -> & ->)|subst r].
    - unfold read_value, reference_results in *. destruct (value_kind_cases v) as [K|[K|[K|K]]]; rewrite K in *;
        (constructor; [exact El|]); repeat constructor; (etransitivity; [apply (after_reference _ env s h _ El)|reflexivity]).
    - (constructor; [exact El|]); repeat constructor; (etransitivity; [apply (after_reference _ env s h _ El)|reflexivity]). }
  exists (match cell with None => None | Some c => value_of h sh c end). split; [|exact All].
  exists cell, frame. split; [exact R|]. destruct cell as [c|]; [|reflexivity]. destruct V as (v & -> & _). now split.
Qed.

(** ** Commands *)

Inductive command : Type :=
| Reference (environment symbol : object)
| Assignment (environment symbol value : object)
| Define (environment symbol value : object)
| Link (target_environment target_symbol source_environment source_symbol : object)
| Unbind (environment symbol : object).

Definition without_value (m : operation Z) : operation result := code <- m ;; ret (code, None).

Definition perform (c : command) : operation result :=
  match c with
  | Reference environment symbol => lookup_variable environment symbol
  | Assignment environment symbol value => assign_variable environment symbol value
  | Define environment symbol value => without_value (define_variable environment symbol value)
  | Link tenv ts senv ss => without_value (link_variables tenv ts senv ss)
  | Unbind environment symbol => unbind_variable environment symbol
  end.

(** Every symbol here is one of the table or is uninterned, and a value is no
    trap; the values of macros enter the cells through [Link] only. *)
Definition command_ok (table : list Z -> object -> Prop) (sh : shape) (c : command) : Prop :=
  let symbol s := symbol_ok sh s /\ known_symbol table s in
  match c with
  | Reference environment s | Unbind environment s => environment_ok sh environment /\ symbol s
  | Assignment environment s value | Define environment s value =>
      environment_ok sh environment /\ symbol s /\ REFERENCE_TRAP_P value = false
  | Link tenv ts senv ss => environment_ok sh tenv /\ symbol ts /\ environment_ok sh senv /\ symbol ss
  end.

(** Enough space for the caches and the new binding. *)
Definition space_for (h : heap) (c : command) : Prop :=
  match c with
  | Reference environment _ | Assignment environment _ _ => True
  | Define environment _ _ | Link environment _ _ _ | Unbind environment _ => link_space h environment
  end.

(** The heap a run of commands can lead to. *)
Inductive reachable (table : list Z -> object -> Prop) (sh0 : shape) (h0 : heap) : heap -> Prop :=
| reachable_start : reachable table sh0 h0 h0
| reachable_step h c r h' : reachable table sh0 h0 h -> command_ok table sh0 c -> space_for h c -> available h < 2 ^ 56 ->
    perform c h = Return (r, h') -> reachable table sh0 h0 h'.

(** ** Every command that is permitted returns, and keeps the state *)

Lemma plain_storable h sh value : REFERENCE_TRAP_P value = false -> storable h sh value.
Proof.
  intros V. unfold storable, mapped. destruct (object_eqb value (non_object h)).
  - split; [right; now left|discriminate].
  - split; [now left|]. intros ->. discriminate.
Qed.

Lemma space_definable table h sh ob n env s : state table h sh ob n -> environment_ok sh env -> known_symbol table s -> link_space h env ->
  definable table h sh env s.
Proof.
  intros St [->|(f & nm & pa & -> & Ef)] Kn Sp; [now left|right]. exists f, nm, pa. split; [reflexivity|]. split; [exact Ef|].
  intros c fr t _ _ _. cbn [link_space] in Sp. lia.
Qed.

Lemma perform_ok table h sh ob n c : state table h sh ob n -> command_ok table sh c -> space_for h c -> available h < 2 ^ 56 ->
  returns (perform c h) (fun '(_, h') => exists sh', extends sh sh' /\ state table h' sh' ob n).
Proof.
  intros St Ok Sp Av. pose proof (state_variables _ _ _ _ _ St) as W. destruct c as [env s|env s v|env s v|tenv ts senv ss|env s]; cbn [perform].
  - destruct Ok as (E & Sy & _). eapply returns_weaken; [now apply (lookup_variable_ok h sh env s)|]. intros [r h'] (-> & _).
    exists sh. split; [apply extends_refl|exact St].
  - destruct Ok as (E & [Sy _] & V). eapply returns_weaken; [now apply (assign_variable_ok h sh env s v W E Sy), plain_storable|].
    intros [[code old] h'] H. exists sh. split; [apply extends_refl|]. destruct H as [(u & _ & _ & _ & _ & A)|(_ & _ & -> & _)]; [|exact St].
    apply evolves_state with h sh; [apply A|apply A|exact St].
  - destruct Ok as (E & [Sy Kn] & V). destruct (define_variable_ok table h sh ob n env s v St) as ([code h'] & Ed & sh' & St' & X & _);
      auto using plain_storable; [now apply space_definable with ob n|apply St|].
    exists ((code, None), h'). split; [unfold without_value; now erewrite andthen_return by exact Ed|]. now exists sh'.
  - destruct Ok as (Et & [Syt Kn] & Es & [Sys _]).
    destruct (link_variables_ok table h sh ob n tenv ts senv ss St Et Syt Es Sys) as ([code h'] & El & sh' & St' & X & _); auto; try apply St.
    exists ((code, None), h'). split; [unfold without_value; now erewrite andthen_return by exact El|]. now exists sh'.
  - destruct Ok as (E & [Sy Kn]). eapply returns_weaken; [apply (unbind_variable_ok table h sh ob n env s St E Sy Kn); now apply link_space_8 with env|].
    intros [[code r] h'] (_ & sh' & St' & X & _). now exists sh'.
Qed.

Lemma command_ok_extends table sh sh' c : extends sh sh' -> command_ok table sh c -> command_ok table sh' c.
Proof.
  intros X. assert (Es : forall env, environment_ok sh env -> environment_ok sh' env) by (intros env; now apply environment_ok_extends).
  assert (Sy : forall s, symbol_ok sh s -> symbol_ok sh' s) by (intros s; now apply symbol_ok_extends). destruct c; cbn [command_ok]; intuition auto.
Qed.

Lemma reachable_state table sh0 h0 ob n h : state table h0 sh0 ob n -> reachable table sh0 h0 h ->
  exists sh, extends sh0 sh /\ state table h sh ob n.
Proof.
  intros St R. induction R as [|h c r h' R (sh & X & Sth) Ok Sp Av E].
  - exists sh0. split; [apply extends_refl|exact St].
  - destruct (perform_ok table h sh ob n c Sth) as ([r' h''] & E' & sh' & X' & St'); auto; [now apply command_ok_extends with sh0|].
    rewrite E in E'. injection E' as <- <-. exists sh'. split; [now apply extends_trans with sh|exact St'].
Qed.
