(* ===== verification/LookupProperties.v ===== *)
(** * Symbols and variables: what the microcode promises

    The properties of the table of symbols (intern.c) and of variables
    (lookup.c), each tried on the heap of SampleHeap.v. *)

From Stdlib Require Import ZArith List Bool Lia.
From S2P Require Import Prelude Object Bytes Heap Intern Environment Lookup Variables Linking SampleHeap VariableSafety.
Import ListNotations.

#[local] Open Scope Z_scope.
#[local] Open Scope heap_scope.

(** ** Links that are undone by a later link *)

(** [x] and [y] global are linked, and [x] of the outer frame with [y] of the
    same frame; then the two pairs.  All four share a cache, through two traps. *)
Definition two_links : operation (list Z) :=
  a <- link_variables THE_GLOBAL_ENV symbol_y THE_GLOBAL_ENV symbol_x ;;
  b <- link_variables outer_frame symbol_y outer_frame symbol_x ;;
  c <- link_variables outer_frame symbol_x THE_GLOBAL_ENV symbol_x ;;
  ret [a; b; c].

(** Two variables of the inner frame are linked, and the second with [y] global. *)
Definition two_more_links : operation (list Z) :=
  a <- link_variables inner_frame symbol_x inner_frame symbol_y ;;
  b <- link_variables inner_frame symbol_y THE_GLOBAL_ENV symbol_y ;;
  ret [a; b].

(** The values of [y] and [x] global after [x] is assigned. *)
Definition assigned_values (value : object) : operation (list result) :=
  a <- assign_variable THE_GLOBAL_ENV symbol_x value ;;
  b <- lookup_variable THE_GLOBAL_ENV symbol_x ;;
  c <- lookup_variable THE_GLOBAL_ENV symbol_y ;;
  ret [b; c].

Definition result_of {A} (m : operation A) : option A := match m sample_heap with Return (r, _) => Some r | _ => None end.

(** Before the later links an assignment to [x] is seen in [y]; after them it is not. *)
Lemma links_undone :
  result_of (two_links ;; assigned_values (sample_fixnum 77)) =
    Some [(PRIM_DONE, Some (sample_fixnum 77)); (PRIM_DONE, Some (sample_fixnum 77))] /\
  result_of (two_links ;; two_more_links) = Some [PRIM_DONE; PRIM_DONE] /\
  result_of (two_links ;; two_more_links ;; assigned_values (sample_fixnum 77)) =
    Some [(PRIM_DONE, Some (sample_fixnum 77)); (PRIM_DONE, Some (sample_fixnum 10))].
Proof. vm_compute. auto. Qed.

(** ** Properties *)

(** Intern_symbol returns the interned symbol of the name of its argument, making the argument itself
    the interned symbol when the name has none, and keeps the table and the other names. *)
Theorem intern_symbol_correct h sh ob n symbol bytes : obarray_ok h sh ob n -> symbol_named h sh symbol bytes -> 2 <= available h ->
  returns (intern_symbol symbol h) (fun '(s, h') => exists sh', obarray_ok h' sh' ob n /\
    (forall s', interned h' sh' ob n bytes s' <-> s' = s) /\
    (forall other s', other <> bytes -> interned h' sh' ob n other s' <-> interned h sh ob n other s') /\
    (interned h sh ob n bytes s \/ ((forall s', ~ interned h sh ob n bytes s') /\ s = OBJECT_NEW_TYPE TC_INTERNED_SYMBOL symbol))).
Proof.
  intros O S Av. eapply returns_weaken; [now apply (intern_symbol_ok h sh ob n symbol bytes)|].
  intros [s h'] (sh' & (O' & I & Oth) & New). exists sh'. split; [exact O'|]. split; [|now split].
  intros s'. split; [intros I'; now apply (interned_unique h' sh' ob n bytes)|now intros ->].
Qed.

(** Strengthen_symbol and weaken_symbol give the pair that holds an interned symbol the type asked for
    and terminate; the table stays well formed and keeps every name and symbol. *)
Theorem replace_symbol_bucket_type_correct h sh ob n name s : obarray_ok h sh ob n -> interned h sh ob n name s ->
  forall op t, (op = strengthen_symbol /\ t = TC_LIST) \/ (op = weaken_symbol /\ t = TC_WEAK_CONS) ->
  returns (op s h) (fun '(_, h') => obarray_ok h' sh ob n /\ (forall other x, interned h' sh ob n other x <-> interned h sh ob n other x) /\
    (exists i, held h' sh i t s) /\ changes (table_address sh) h h').
Proof. intros O I op t [[-> ->]|[-> ->]]; (eapply replace_symbol_bucket_type_ok; [exact O|exact I|]); [now left|now right]. Qed.

(** Lookup_variable, safe_lookup_variable and the three predicates return, for the value of the variable
    (or none), the results and error codes of the table reference_results, and change nothing. *)
Theorem lookup_variable_correct h sh env s : well_formed h sh -> environment_ok sh env -> symbol_ok sh s ->
  exists v, variable_value h sh env s v /\
    Forall2 (fun (f : object -> object -> operation result) r => f env s h = Return (r, h))
      [lookup_variable; safe_lookup_variable; variable_unassigned_p; variable_unbound_p; variable_unreferenceable_p]
      (reference_results (non_object h) v).
Proof. exact (reference_results_ok h sh env s). Qed.

(** Link_variables reports an unbound source and changes nothing, or asks for a garbage collection and
    changes no variable, or makes the target name the same variable as the source: it denotes what the
    source denoted, and every variable that neither resolves to the target nor shared its cell keeps its
    value; the state stays well formed. *)
Theorem link_variables_correct table h sh ob n tenv ts senv ss : state table h sh ob n -> environment_ok sh tenv -> symbol_ok sh ts -> environment_ok sh senv ->
  symbol_ok sh ss -> (tenv = THE_GLOBAL_ENV -> known_symbol table ts) -> link_space h tenv -> available h < 2 ^ 56 ->
  returns (link_variables tenv ts senv ss h) (fun '(code, h') => exists sh', state table h' sh' ob n /\ extends sh sh' /\
    ((code = ERR_UNBOUND_VARIABLE /\ h' = h /\ denotes h sh senv ss (ERR_UNBOUND_VARIABLE, None)) \/
     (code = PRIM_INTERRUPT /\ forall env s r, environment_ok sh env -> symbol_ok sh s -> (denotes h' sh' env s r <-> denotes h sh env s r)) \/
     (code = PRIM_DONE /\ same_variable h' sh' tenv ts senv ss /\ (forall r, denotes h' sh' tenv ts r <-> denotes h sh senv ss r) /\
      (forall env s r, environment_ok sh env -> symbol_ok sh s -> ~ (s = ts /\ reaches h sh ts env tenv) -> ~ shares h sh tenv ts env s ->
         (denotes h' sh' env s r <-> denotes h sh env s r))))).
Proof.
  intros St Et Syt Es Sys Kn Sp Av. pose proof (state_variables _ _ _ _ _ St) as W.
  eapply returns_weaken; [apply (link_variables_ok table h sh ob n tenv ts senv ss); auto; apply St|].
  intros [code h'] (sh' & St' & X & H). exists sh'. split; [exact St'|]. split; [exact X|]. destruct H as [H|[H|(-> & sc & fr & R & L)]]; [now left|right; now left|].
  right. right. split; [reflexivity|]. now apply (linked_reads h sh tenv ts senv ss sc fr h' sh').
Qed.

(** C6: no sequence of lookups, assignments, definitions, links and removals goes wrong: from a well-
    formed state, with arguments of the right types and enough space at each step, every command returns
    (no wild access, no failed assertion, no fatal exit, no endless loop) and leads to a well-formed
    state with the same table of symbols. *)
Theorem variables_safe table h0 sh0 ob n h c : state table h0 sh0 ob n -> reachable table sh0 h0 h -> command_ok table sh0 c -> space_for h c ->
  available h < 2 ^ 56 ->
  exists r h', perform c h = Return (r, h') /\ reachable table sh0 h0 h' /\ exists sh', extends sh0 sh' /\ state table h' sh' ob n.
Proof.
  intros St R Ok Sp Av. destruct (reachable_state table sh0 h0 ob n h St R) as (sh & X & Sth).
  destruct (perform_ok table h sh ob n c Sth) as ([r h'] & E & _); auto; [now apply command_ok_extends with sh0|]. exists r, h'. split; [exact E|].
  assert (R' : reachable table sh0 h0 h') by now apply (reachable_step table sh0 h0 h c r h'). split; [exact R'|]. now apply (reachable_state table sh0 h0 ob n h').
Qed.

Lemma variables_safe_witness :
  exists r h', perform (Link inner_frame symbol_x THE_GLOBAL_ENV symbol_y) sample_heap = Return (r, h') /\
    reachable sample_table sample_shape sample_heap h' /\ exists sh', extends sample_shape sh' /\ state sample_table h' sh' 0 1.
Proof.
  apply (variables_safe sample_table sample_heap sample_shape 0 1 sample_heap (Link inner_frame symbol_x THE_GLOBAL_ENV symbol_y)).
  - auto with sample.
  - apply reachable_start.
  - cbn [command_ok]. auto 8 with sample.
  - vm_compute. discriminate.
  - reflexivity.
Defined.



(** C19: string_to_symbol keeps the table of symbols well formed and returns the symbol of that name,
    which is the one it had or a new unbound one; the symbols of other names stay, and no name has two
    symbols. *)
Theorem string_to_symbol_correct h sh ob n name bytes : obarray_ok h sh ob n -> string_object h sh name bytes -> 6 <= available h ->
  returns (string_to_symbol name h) (fun '(s, h') => exists sh', obarray_ok h' sh' ob n /\
    (forall s', interned h' sh' ob n bytes s' <-> s' = s) /\
    (forall other s', other <> bytes -> interned h' sh' ob n other s' <-> interned h sh ob n other s') /\
    (interned h sh ob n bytes s \/ ((forall s', ~ interned h sh ob n bytes s') /\ unbound_symbol h' sh' s))).
Proof.
  intros O S Av. eapply returns_weaken; [now apply (string_to_symbol_ok h sh ob n name bytes)|].
  intros [s h'] (sh' & (O' & I & Oth) & New). exists sh'. split; [exact O'|]. split; [|now split].
  intros s'. split; [intros I'; now apply (interned_unique h' sh' ob n bytes)|now intros ->].
Qed.

Lemma string_to_symbol_correct_witness :
  returns (string_to_symbol (Pointer TC_CHARACTER_STRING 7) sample_heap) (fun '(s, h') => exists sh', obarray_ok h' sh' 0 1 /\
    (forall s', interned h' sh' 0 1 [122] s' <-> s' = s) /\
    (forall other s', other <> [122] -> interned h' sh' 0 1 other s' <-> interned sample_heap sample_shape 0 1 other s') /\
    (interned sample_heap sample_shape 0 1 [122] s \/
     ((forall s', ~ interned sample_heap sample_shape 0 1 [122] s') /\ unbound_symbol h' sh' s))).
Proof.
  apply string_to_symbol_correct; [auto with sample| |vm_compute; discriminate].
  apply (sample_string_object 7 TC_CHARACTER_STRING [122] 122); try reflexivity. now eexists.
Defined.





(** C37: find_binding_cell terminates: as many turns as there are blocks are enough to reach the end of
    the chain of frames, and it returns the one cell and frame that the name resolves to, innermost
    frame first, skipping removed bindings. *)
Theorem find_binding_cell_correct h sh env s : well_formed h sh -> symbol_ok sh s -> environment_ok sh env ->
  exists cell frame, find_binding_cell env s h = Return ((cell, frame), h) /\
    forall c f, resolves h sh s env c f <-> c = cell /\ f = frame.
Proof.
  intros W Sy E. destruct (find_binding_cell_ok h sh s env W Sy E) as (cell & frame & Ef & R). exists cell, frame. split; [exact Ef|].
  intros c f. split; [intros R'; exact (resolves_unique _ _ _ _ _ _ _ _ R' R)|intros [-> ->]; exact R].
Qed.

Lemma find_binding_cell_correct_witness :
  exists cell frame, find_binding_cell inner_frame symbol_x sample_heap = Return ((cell, frame), sample_heap) /\
    forall c f, resolves sample_heap sample_shape symbol_x inner_frame c f <-> c = cell /\ f = frame.
Proof. apply find_binding_cell_correct; auto with sample. Defined.
