(* ===== verification/HeapPrim.v ===== *)
(** * prims.h: primitive procedures on the heap

    A primitive procedure reads and writes the heap, and returns an object or
    signals: an argument of a wrong type or a bad range, an error code, or the
    interrupt that makes the interpreter collect garbage and try again.  The
    stores made before a signal stay. *)

From Stdlib Require Import ZArith List Bool Lia.
From S2P Require Import Prelude Object Bignum BignumBits Primitive Integer IntPrim Heap.
Import ListNotations.

#[local] Open Scope Z_scope.

Inductive signal : Type :=
| wrong_type_arg (n : Z)
| bad_range_arg (n : Z)
| primitive_error (code : Z)
| primitive_interrupt.

Definition procedure (A : Type) : Type := heap -> outcome ((A + signal) * heap).

Definition PRIMITIVE_RETURN {A} (a : A) : procedure A := fun h => Return (inl a, h).
Definition signals {A} (s : signal) : procedure A := fun h => Return (inr s, h).

Definition pthen {A B} (m : procedure A) (k : A -> procedure B) : procedure B := fun h =>
  bind (m h) (fun '(r, h') => match r with inl a => k a h' | inr s => Return (inr s, h') end).

(** A call of an operation of the microcode. *)
Definition run_operation {A} (m : operation A) : procedure A := fun h =>
  bind (m h) (fun '(a, h') => Return (inl a, h')).

Declare Scope procedure_scope.
Delimit Scope procedure_scope with procedure.

Notation "x <- m ;; k" := (pthen m (fun x => k))
  (at level 60, m at next level, right associativity) : procedure_scope.
Notation "' p <- m ;; k" := (pthen m (fun x => match x with p => k end))
  (at level 60, p pattern, m at next level, right associativity) : procedure_scope.
Notation "m ;; k" := (pthen m (fun _ => k))
  (at level 60, right associativity) : procedure_scope.

#[local] Open Scope procedure_scope.

Definition error_wrong_type_arg {A} (n : Z) : procedure A := signals (wrong_type_arg n).
Definition error_bad_range_arg {A} (n : Z) : procedure A := signals (bad_range_arg n).
Definition signal_error_from_primitive {A} (code : Z) : procedure A := signals (primitive_error code).
Definition signal_interrupt_from_primitive {A} : procedure A := signals primitive_interrupt.

(** [if (! ok) ...]. *)
Definition unless (ok : bool) (otherwise : procedure unit) : procedure unit :=
  if ok then PRIMITIVE_RETURN tt else otherwise.

Definition CHECK_ARG (n : Z) (p : object -> bool) (argument : object) : procedure unit :=
  unless (p argument) (error_wrong_type_arg n).

Definition BOOLEAN_TO_OBJECT (b : bool) : object := if b then SHARP_T else SHARP_F.
Definition OBJECT_TO_BOOLEAN (o : object) : bool := negb (object_eqb o SHARP_F).
Definition UNSPECIFIC : object := MAKE_OBJECT TC_CONSTANT 1.

(** ** Integer arguments *)

Definition FIXNUM_P (o : object) : bool := OBJECT_TYPE o =? TC_FIXNUM.
Definition BIGNUM_P (o : object) : bool := OBJECT_TYPE o =? TC_BIG_FIXNUM.

(** An argument of a type that is neither is no integer, whatever it holds. *)
Definition not_an_integer : scheme_object := Word Object.SHARP_F.

(** The integer object an argument is: a word, or the bignum in a block. *)
Definition integer_argument (o : object) : operation scheme_object := fun h =>
  match o with
  | Immediate w => Return (Word w, h)
  | Pointer t b =>
      if t =? TC_BIG_FIXNUM then
        match block_of h b with
        | Some (_ :: Immediate header :: words) =>
            match raw_words (firstn (Z.to_nat (header_length header)) words) with
            | Some digits => Return (Big (Bignum (header_negative_p header) digits), h)
            | None => Wild
            end
        | _ => Wild
        end
      else Return (not_an_integer, h)
  end.

(** The functions of utils.c that decode an argument, on the heap. *)
Definition decode {A} (m : primitive A) : procedure A :=
  match m with
  | Primitive.PRIMITIVE_RETURN a => PRIMITIVE_RETURN a
  | Primitive.error_wrong_type_arg n => error_wrong_type_arg n
  | Primitive.error_bad_range_arg n => error_bad_range_arg n
  | primitive_fault => fun _ => Wild
  end.

Definition with_integer {A} (f : scheme_object -> primitive A) (o : object) : procedure A :=
  n <- run_operation (integer_argument o) ;; decode (f n).

Definition arg_integer (n : Z) (o : object) : procedure Z := with_integer (IntPrim.arg_integer n) o.
Definition arg_nonnegative_integer (n : Z) (o : object) : procedure Z := with_integer (IntPrim.arg_nonnegative_integer n) o.
Definition arg_index_integer (n upper_limit : Z) (o : object) : procedure Z := with_integer (IntPrim.arg_index_integer n upper_limit) o.
Definition arg_ulong_integer (n : Z) (o : object) : procedure Z := with_integer (IntPrim.arg_ulong_integer n) o.
Definition arg_ulong_index_integer (n upper_limit : Z) (o : object) : procedure Z :=
  with_integer (IntPrim.arg_ulong_index_integer n upper_limit) o.

(** ** Running procedures *)

Lemma pthen_return {A B} (m : procedure A) (k : A -> procedure B) h a h' :
  m h = Return (inl a, h') -> pthen m k h = k a h'.
Proof. unfold pthen. now intros ->. Qed.

Lemma pthen_signal {A B} (m : procedure A) (k : A -> procedure B) h s h' :
  m h = Return (inr s, h') -> pthen m k h = Return (inr s, h').
Proof. unfold pthen. now intros ->. Qed.

Lemma run_operation_ok {A} (m : operation A) h a h' : m h = Return (a, h') -> run_operation m h = Return (inl a, h').
Proof. unfold run_operation. now intros ->. Qed.

Lemma unless_true {B} e (k : unit -> procedure B) h : pthen (unless true e) k h = k tt h.
Proof. reflexivity. Qed.

Lemma unless_false {B} (s : signal) (k : unit -> procedure B) h : pthen (unless false (signals s)) k h = Return (inr s, h).
Proof. reflexivity. Qed.

Lemma CHECK_ARG_passes {B} n p o (k : unit -> procedure B) h : p o = true -> pthen (CHECK_ARG n p o) k h = k tt h.
Proof. unfold CHECK_ARG. now intros ->. Qed.

Lemma CHECK_ARG_fails {B} n p o (k : unit -> procedure B) h : p o = false -> pthen (CHECK_ARG n p o) k h = Return (inr (wrong_type_arg n), h).
Proof. unfold CHECK_ARG. now intros ->. Qed.

(** [prun E]: run the first call of a primitive by an equation for it. *)
Ltac prun E := erewrite pthen_return; [|eapply E]; cbv beta iota.

(** The object [o] denotes the integer [z] in the heap [h]. *)
Definition denotes_integer (h : heap) (o : object) (z : Z) : Prop :=
  exists i, integer_argument o h = Return (i, h) /\ integer z i.

Lemma fixnum_denotes h z : fixnum_range z -> denotes_integer h (Immediate (Object.LONG_TO_FIXNUM z)) z.
Proof. intros R. exists (Word (Object.LONG_TO_FIXNUM z)). split; [reflexivity|]. now constructor. Qed.

(** An argument that is no integer. *)
Definition no_integer (h : heap) (o : object) : Prop := exists i, integer_argument o h = Return (i, h) /\ INTEGER_P i = false.

Lemma with_integer_ok {A} (f : scheme_object -> primitive A) o h i p : integer_argument o h = Return (i, h) -> f i = p ->
  with_integer f o h = decode p h.
Proof. intros E <-. unfold with_integer. now rewrite (pthen_return _ _ h i h) by now apply run_operation_ok. Qed.

(** What a decoded argument is, or the error. *)
Definition decoded (ok : bool) (n z : Z) (h : heap) : outcome ((Z + signal) * heap) :=
  Return (if ok then inl z else inr (bad_range_arg n), h).

Lemma arg_nonnegative_integer_ok n h o z : denotes_integer h o z -> moderate z -> - 2 ^ 63 <= z ->
  arg_nonnegative_integer n o h = decoded ((0 <=? z) && (z <? 2 ^ 63)) n z h.
Proof.
  intros (i & E & I) M L. unfold arg_nonnegative_integer. eapply eq_trans; [eapply with_integer_ok; [exact E|reflexivity]|].
  unfold IntPrim.arg_nonnegative_integer. rewrite (arg_integer_ok n z i I M). change (accepted_low 63) with (2 ^ 63 + 2 ^ 62).
  destruct (Z.ltb_spec (- (2 ^ 63 + 2 ^ 62)) z); [|lia]. destruct (Z.ltb_spec z (2 ^ 63)); cbn [andb pbind].
  - rewrite to_long_small by lia. unfold decoded. destruct (Z.ltb_spec z 0), (Z.leb_spec 0 z); try lia; reflexivity.
  - unfold decoded. rewrite andb_false_r. reflexivity.
Qed.

Lemma decoded_index_ok n upper h o z : denotes_integer h o z -> moderate z -> upper <= 2 ^ 62 ->
  arg_index_integer n upper o h = decoded ((0 <=? z) && (z <? upper)) n z h.
Proof.
  intros (i & E & I) M L. unfold arg_index_integer. eapply eq_trans; [eapply with_integer_ok; [exact E|exact (IntPrim.arg_index_integer_ok n upper z i I M L)]|].
  unfold decoded. now destruct ((0 <=? z) && (z <? upper)).
Qed.

Lemma decoded_ulong_ok n h o z : denotes_integer h o z -> moderate z ->
  arg_ulong_integer n o h = decoded ((0 <=? z) && (z <? 2 ^ 64)) n z h.
Proof.
  intros (i & E & I) M. unfold arg_ulong_integer. eapply eq_trans; [eapply with_integer_ok; [exact E|exact (IntPrim.arg_ulong_integer_ok n z i I M)]|].
  unfold decoded. now destruct ((0 <=? z) && (z <? 2 ^ 64)).
Qed.

Lemma arg_ulong_index_integer_ok n upper h o z : denotes_integer h o z -> moderate z -> upper <= 2 ^ 64 ->
  arg_ulong_index_integer n upper o h = decoded ((0 <=? z) && (z <? upper)) n z h.
Proof.
  intros (i & E & I) M L. unfold arg_ulong_index_integer. eapply eq_trans; [eapply with_integer_ok; [exact E|reflexivity]|].
  unfold IntPrim.arg_ulong_index_integer. rewrite (IntPrim.arg_ulong_integer_ok n z i I M). unfold decoded.
  destruct (Z.leb_spec 0 z), (Z.ltb_spec z (2 ^ 64)), (Z.ltb_spec z upper); cbn [andb pbind]; try lia; try reflexivity;
    rewrite Z.geb_leb; destruct (Z.leb_spec upper z); try lia; reflexivity.
Qed.

Lemma arg_integer_type_error n h o : no_integer h o ->
  arg_nonnegative_integer n o h = Return (inr (wrong_type_arg n), h) /\ arg_ulong_integer n o h = Return (inr (wrong_type_arg n), h) /\
  forall upper, arg_index_integer n upper o h = Return (inr (wrong_type_arg n), h).
Proof.
  intros (i & E & N). destruct (arg_type_error n i N) as [A B]. split; [|split]; [| |intros upper];
    (eapply eq_trans; [eapply with_integer_ok; [exact E|reflexivity]|]);
    unfold IntPrim.arg_nonnegative_integer, IntPrim.arg_index_integer; rewrite ?A, ?B; reflexivity.
Qed.

(** [parg E n z]: decode argument [n], known to denote [z]. *)
Lemma decoded_true {B} n z h ok (m : procedure Z) (k : Z -> procedure B) : m h = decoded ok n z h -> ok = true -> pthen m k h = k z h.
Proof. intros E ->. now apply pthen_return. Qed.

Lemma decoded_false {B} n z h ok (m : procedure Z) (k : Z -> procedure B) : m h = decoded ok n z h -> ok = false ->
  pthen m k h = Return (inr (bad_range_arg n), h).
Proof. intros E ->. now apply pthen_signal. Qed.
