(* ===== verification/LookupPrim.v ===== *)
(** * lookprm.c: the primitives on environments

    Each primitive checks its arguments, calls the operation of Lookup.v and
    turns its result code into a value, an error or an interrupt.  The local
    variable [value] of the code is an option here: it is read only after a
    result code that says it was set. *)

From Stdlib Require Import ZArith List Bool Lia.
From S2P Require Import Prelude Object Heap Intern Environment Lookup Variables Linking HeapPrim SampleHeap VariableSafety.
Import ListNotations.

#[local] Open Scope Z_scope.
#[local] Open Scope procedure_scope.

(** ** The primitives *)

Definition signal_lookup {A} (SL_result : Z) : procedure A :=
  if SL_result =? PRIM_INTERRUPT then signal_interrupt_from_primitive
  else signal_error_from_primitive SL_result.

Definition STD_LOOKUP (expression : operation Z) : procedure unit :=
  SL_result <- run_operation expression ;;
  if negb (SL_result =? PRIM_DONE) then signal_lookup SL_result else PRIMITIVE_RETURN tt.

(** The same for the operations that set [value]. *)
Definition STD_LOOKUP_VALUE (expression : operation result) : procedure (option object) :=
  '(SL_result, value) <- run_operation expression ;;
  if negb (SL_result =? PRIM_DONE) then signal_lookup SL_result else PRIMITIVE_RETURN value.

Definition return_value (value : option object) : procedure object :=
  match value with Some v => PRIMITIVE_RETURN v | None => fun _ => Wild end.

Definition Prim_lexical_reference (environment symbol : object) : procedure object :=
  CHECK_ARG 1 ENVIRONMENT_P environment ;;
  CHECK_ARG 2 SYMBOL_P symbol ;;
  value <- STD_LOOKUP_VALUE (lookup_variable environment symbol) ;;
  return_value value.

Definition Prim_local_reference (environment symbol : object) : procedure object :=
  CHECK_ARG 1 ENVIRONMENT_P environment ;;
  CHECK_ARG 2 SYMBOL_P symbol ;;
  value <- STD_LOOKUP_VALUE (lookup_variable environment symbol) ;;
  return_value value.

Definition Prim_lexical_assignment (environment symbol new_value : object) : procedure object :=
  CHECK_ARG 1 ENVIRONMENT_P environment ;;
  CHECK_ARG 2 SYMBOL_P symbol ;;
  value <- STD_LOOKUP_VALUE (assign_variable environment symbol new_value) ;;
  return_value value.

Definition Prim_local_assignment (environment symbol value : object) : procedure object :=
  CHECK_ARG 1 ENVIRONMENT_P environment ;;
  CHECK_ARG 2 SYMBOL_P symbol ;;
  STD_LOOKUP (define_variable environment symbol value) ;;
  PRIMITIVE_RETURN symbol.

Definition small_index (n : Z) : procedure object := PRIMITIVE_RETURN (Immediate (Object.LONG_TO_UNSIGNED_FIXNUM n)).

Definition Prim_lexical_reference_type (environment symbol : object) : procedure object :=
  CHECK_ARG 1 ENVIRONMENT_P environment ;;
  CHECK_ARG 2 SYMBOL_P symbol ;;
  '(result, _) <- run_operation (lookup_variable environment symbol) ;;
  if result =? ERR_UNBOUND_VARIABLE then small_index 0
  else if result =? ERR_UNASSIGNED_VARIABLE then small_index 1
  else if result =? PRIM_DONE then small_index 2
  else if result =? ERR_MACRO_BINDING then small_index 3
  else signal_lookup result.

Definition Prim_safe_lexical_reference (environment symbol : object) : procedure object :=
  CHECK_ARG 1 ENVIRONMENT_P environment ;;
  CHECK_ARG 2 SYMBOL_P symbol ;;
  '(result, value) <- run_operation (lookup_variable environment symbol) ;;
  if (result =? PRIM_DONE) || (result =? ERR_MACRO_BINDING) then return_value value
  else if result =? ERR_UNASSIGNED_VARIABLE then PRIMITIVE_RETURN UNASSIGNED_OBJECT
  else signal_lookup result.

Definition Prim_unassigned_test (environment symbol : object) : procedure object :=
  CHECK_ARG 1 ENVIRONMENT_P environment ;;
  CHECK_ARG 2 SYMBOL_P symbol ;;
  value <- STD_LOOKUP_VALUE (variable_unassigned_p environment symbol) ;;
  return_value value.

Definition Prim_unbound_test (environment symbol : object) : procedure object :=
  CHECK_ARG 1 ENVIRONMENT_P environment ;;
  CHECK_ARG 2 SYMBOL_P symbol ;;
  value <- STD_LOOKUP_VALUE (variable_unbound_p environment symbol) ;;
  return_value value.

(** This one does not check its arguments itself. *)
Definition Prim_unreferenceable_test (environment symbol : object) : procedure object :=
  value <- STD_LOOKUP_VALUE (variable_unreferenceable_p environment symbol) ;;
  return_value value.

Definition Prim_link_variables (target_env target_name source_env source_name : object) : procedure object :=
  CHECK_ARG 1 ENVIRONMENT_P target_env ;;
  CHECK_ARG 2 SYMBOL_P target_name ;;
  CHECK_ARG 3 ENVIRONMENT_P source_env ;;
  CHECK_ARG 4 SYMBOL_P source_name ;;
  STD_LOOKUP (link_variables target_env target_name source_env source_name) ;;
  PRIMITIVE_RETURN UNSPECIFIC.

Definition Prim_environment_link_name (env1 env2 symbol : object) : procedure object :=
  CHECK_ARG 1 ENVIRONMENT_P env1 ;;
  CHECK_ARG 2 ENVIRONMENT_P env2 ;;
  CHECK_ARG 3 SYMBOL_P symbol ;;
  STD_LOOKUP (link_variables env1 symbol env2 symbol) ;;
  PRIMITIVE_RETURN UNSPECIFIC.

Definition Prim_unbind_variable (environment symbol : object) : procedure object :=
  CHECK_ARG 1 ENVIRONMENT_P environment ;;
  CHECK_ARG 2 SYMBOL_P symbol ;;
  value <- STD_LOOKUP_VALUE (unbind_variable environment symbol) ;;
  return_value value.

(** ** Calls *)

Lemma checked_arguments {A} env s (k : procedure A) h : ENVIRONMENT_P env = true -> SYMBOL_P s = true ->
  (CHECK_ARG 1 ENVIRONMENT_P env ;; CHECK_ARG 2 SYMBOL_P s ;; k) h = k h.
Proof. intros E S. now rewrite CHECK_ARG_passes, CHECK_ARG_passes. Qed.

Lemma refused_arguments {A} env s (k : procedure A) h : ENVIRONMENT_P env && SYMBOL_P s = false ->
  (CHECK_ARG 1 ENVIRONMENT_P env ;; CHECK_ARG 2 SYMBOL_P s ;; k) h =
    Return (inr (wrong_type_arg (if ENVIRONMENT_P env then 2 else 1)), h).
Proof.
  intros H. destruct (ENVIRONMENT_P env) eqn:E; [rewrite CHECK_ARG_passes by exact E|]; now apply CHECK_ARG_fails.
Qed.

(** What a result code and a value become. *)
Definition answer (r : result) : object + signal :=
  match r with
  | (code, Some v) => if code =? PRIM_DONE then inl v else inr (primitive_error code)
  | (code, None) => inr (if code =? PRIM_INTERRUPT then primitive_interrupt else primitive_error code)
  end.

Definition sensible (r : result) : Prop :=
  match r with (code, Some _) => code <> PRIM_INTERRUPT | (code, None) => code <> PRIM_DONE end.

Lemma STD_LOOKUP_VALUE_ok m h r h' : m h = Return (r, h') -> sensible r ->
  (value <- STD_LOOKUP_VALUE m ;; return_value value) h = Return (answer r, h').
Proof.
  intros E S. destruct r as [code v]. unfold STD_LOOKUP_VALUE, pthen, run_operation. rewrite E. cbn [bind sensible answer] in *.
  unfold signal_lookup. destruct (Z.eqb_spec code PRIM_DONE) as [->|]; destruct v; cbn [negb bind]; try contradiction; try reflexivity.
  - now destruct (Z.eqb_spec code PRIM_INTERRUPT).
  - now destruct (Z.eqb_spec code PRIM_INTERRUPT).
Qed.

Lemma STD_LOOKUP_ok {A} m h code h' (k : procedure A) : m h = Return (code, h') ->
  (STD_LOOKUP m ;; k) h = if code =? PRIM_DONE then k h'
                          else Return (inr (if code =? PRIM_INTERRUPT then primitive_interrupt else primitive_error code), h').
Proof.
  intros E. unfold STD_LOOKUP, pthen, run_operation. rewrite E. cbn [bind].
  unfold signal_lookup. destruct (Z.eqb_spec code PRIM_DONE); [reflexivity|]. now destruct (Z.eqb_spec code PRIM_INTERRUPT).
Qed.

(** ** Reading *)

(** The answers of LEXICAL-REFERENCE, LOCAL-REFERENCE, LEXICAL-REFERENCE-TYPE,
    SAFE-LEXICAL-REFERENCE, LEXICAL-UNASSIGNED?, LEXICAL-UNBOUND? and
    LEXICAL-UNREFERENCEABLE? for a variable with the value [v], or for none. *)
Definition reference_answers (v : option object) : list (object + signal) :=
  let error code := inr (primitive_error code) in
  let type n := inl (LONG_TO_UNSIGNED_FIXNUM n) in
  let yes := inl SHARP_T in
  let no := inl SHARP_F in
  let unbound := let e := error ERR_UNBOUND_VARIABLE in [e; e; type 0; e; e; yes; yes] in
  match v with
  | None => unbound
  | Some v =>
      let kind := value_kind v in
      if kind =? NON_TRAP_KIND then [inl v; inl v; type 2; inl v; no; no; no]
      else if kind =? TRAP_UNASSIGNED then
        let e := error ERR_UNASSIGNED_VARIABLE in [e; e; type 1; inl UNASSIGNED_OBJECT; yes; no; yes]
      else if kind =? TRAP_UNBOUND then unbound
      else let e := error ERR_MACRO_BINDING in [e; e; type 3; inl v; e; no; yes]
  end.

Definition reference_primitives : list (object -> object -> procedure object) :=
  [Prim_lexical_reference; Prim_local_reference; Prim_lexical_reference_type; Prim_safe_lexical_reference; Prim_unassigned_test;
   Prim_unbound_test; Prim_unreferenceable_test].

Lemma refused_references env s h : ENVIRONMENT_P env && SYMBOL_P s = false ->
  Forall (fun f : object -> object -> procedure object =>
            f env s h = Return (inr (wrong_type_arg (if ENVIRONMENT_P env then 2 else 1)), h)) (removelast reference_primitives) /\
  Prim_unreferenceable_test env s h = Return (inr (primitive_error ERR_BAD_FRAME), h).
Proof.
  intros H. split.
  - cbn [removelast reference_primitives]. repeat constructor; now apply refused_arguments.
  - unfold Prim_unreferenceable_test. rewrite (STD_LOOKUP_VALUE_ok _ h (ERR_BAD_FRAME, None) h); [reflexivity| |discriminate].
    unfold variable_unreferenceable_p, lookup_variable. now rewrite H.
Qed.

(** A primitive that decides itself what to do with the result of [lookup_variable]. *)
Lemma on_lookup {A} (k : result -> procedure A) env s h r : ENVIRONMENT_P env = true -> SYMBOL_P s = true ->
  lookup_variable env s h = Return (r, h) ->
  (CHECK_ARG 1 ENVIRONMENT_P env ;; CHECK_ARG 2 SYMBOL_P s ;; x <- run_operation (lookup_variable env s) ;; k x) h = k r h.
Proof. intros E S L. rewrite checked_arguments by assumption. now rewrite (pthen_return _ _ h r h (run_operation_ok _ _ _ _ L)). Qed.

Lemma references_ok h sh env s : well_formed h sh -> environment_ok sh env -> symbol_ok sh s ->
  exists v, variable_value h sh env s v /\
    Forall2 (fun (f : object -> object -> procedure object) r => f env s h = Return (r, h)) reference_primitives (reference_answers v).
Proof.
  intros W E Sy. pose proof (environment_ok_p _ _ E) as Ep. pose proof (symbol_ok_p _ _ Sy) as Sp.
  destruct (reference_results_ok h sh env s W E Sy) as (v & Hv & All). exists v. split; [exact Hv|].
  assert (Five : forall r1 r2 r3 r4 r5, Forall2 (fun (f : object -> object -> operation result) r => f env s h = Return (r, h))
      [lookup_variable; safe_lookup_variable; variable_unassigned_p; variable_unbound_p; variable_unreferenceable_p] [r1; r2; r3; r4; r5] ->
    sensible r1 -> sensible r3 -> sensible r4 -> sensible r5 ->
    Prim_lexical_reference env s h = Return (answer r1, h) /\ Prim_local_reference env s h = Return (answer r1, h) /\
    (forall (k : result -> procedure object),
       (CHECK_ARG 1 ENVIRONMENT_P env ;; CHECK_ARG 2 SYMBOL_P s ;; x <- run_operation (lookup_variable env s) ;; k x) h = k r1 h) /\
    Prim_unassigned_test env s h = Return (answer r3, h) /\ Prim_unbound_test env s h = Return (answer r4, h) /\
    Prim_unreferenceable_test env s h = Return (answer r5, h)).
  { intros r1 r2 r3 r4 r5 F S1 S3 S4 S5. inversion F as [|? ? ? ? L1 F1]; subst. inversion F1 as [|? ? ? ? L2 F2]; subst.
    inversion F2 as [|? ? ? ? L3 F3]; subst. inversion F3 as [|? ? ? ? L4 F4]; subst. inversion F4 as [|? ? ? ? L5 _]; subst.
    unfold Prim_lexical_reference, Prim_local_reference, Prim_unassigned_test, Prim_unbound_test, Prim_unreferenceable_test.
    rewrite !checked_arguments by assumption. repeat split; try now apply STD_LOOKUP_VALUE_ok. intros k. now apply on_lookup. }
  unfold reference_results, reference_answers in *. destruct v as [v|].
  - destruct (value_kind_cases v) as [K|[K|[K|K]]]; rewrite K in *; cbn -[Prim_lexical_reference_type Prim_safe_lexical_reference] in All |- *;
      destruct (Five _ _ _ _ _ All) as (P1 & P2 & P3 & P4 & P5 & P6); try discriminate;
      repeat (constructor; try assumption); (etransitivity; [apply P3|reflexivity]).
  - destruct (Five _ _ _ _ _ All) as (P1 & P2 & P3 & P4 & P5 & P6); try discriminate;
      repeat (constructor; try assumption); (etransitivity; [apply P3|reflexivity]).
Qed.

(** ** What a program can see of a variable *)

Definition observes (h : heap) (env s : object) (q : object + signal) : Prop := Prim_lexical_reference env s h = Return (q, h).

Lemma denotes_sensible h sh env s r : denotes h sh env s r -> sensible r.
Proof.
  intros (c & f & _ & H). destruct c as [c|]; [|now subst r]. destruct H as (v & _ & ->). unfold read_value.
  destruct (value_kind_cases v) as [K|[K|[K|K]]]; rewrite K; discriminate.
Qed.

Lemma denotes_observed h sh env s r : well_formed h sh -> environment_ok sh env -> symbol_ok sh s ->
  denotes h sh env s r -> observes h env s (answer r).
Proof.
  intros W E Sy D. destruct (lookup_variable_ok h sh env s W E Sy) as ([r' h'] & El & -> & D').
  rewrite <- (denotes_unique _ _ _ _ _ _ D D') in El. unfold observes, Prim_lexical_reference.
  rewrite checked_arguments by (eauto using environment_ok_p, symbol_ok_p). apply STD_LOOKUP_VALUE_ok; [exact El|]. now apply denotes_sensible with h sh env s.
Qed.

Lemma observed_denotes h sh env s q : well_formed h sh -> environment_ok sh env -> symbol_ok sh s ->
  observes h env s q -> exists r, denotes h sh env s r /\ q = answer r.
Proof.
  intros W E Sy O. destruct (lookup_variable_ok h sh env s W E Sy) as ([r h'] & _ & _ & D). exists r. split; [exact D|].
  pose proof (denotes_observed _ _ _ _ _ W E Sy D) as O'. unfold observes in *. congruence.
Qed.

(** The same denotations are the same observations. *)
Lemma same_observations h sh env s h' sh' env' s' : well_formed h sh -> environment_ok sh env -> symbol_ok sh s ->
  well_formed h' sh' -> environment_ok sh' env' -> symbol_ok sh' s' ->
  (forall r, denotes h' sh' env' s' r <-> denotes h sh env s r) -> forall q, observes h' env' s' q <-> observes h env s q.
Proof.
  intros W E Sy W' E' Sy' D q.
  split; intros O; [destruct (observed_denotes h' sh' env' s' q) as (r & Dr & ->)|destruct (observed_denotes h sh env s q) as (r & Dr & ->)]; auto;
    [apply (denotes_observed h sh)|apply (denotes_observed h' sh')]; auto; now apply D.
Qed.

(** [value] is what a program stores: no trap, and not the object that stands for no value. *)
Definition ordinary (h : heap) (value : object) : Prop := REFERENCE_TRAP_P value = false /\ value <> non_object h.

Lemma ordinary_storable h sh value : ordinary h value -> storable h sh value.
Proof. intros [T _]. now apply plain_storable. Qed.

Lemma ordinary_answer h value : ordinary h value -> answer (read_value (mapped h value)) = inl value.
Proof.
  intros [T N]. unfold mapped. destruct (object_eqb_spec value (non_object h)); [contradiction|]. unfold read_value, value_kind. now rewrite T.
Qed.

(** ** Assignment *)

(** The old value as LEXICAL-ASSIGNMENT returns it and as LEXICAL-REFERENCE shows it. *)
Definition previous (h : heap) (env s old : object) : Prop :=
  observes h env s (inl old) \/ (observes h env s (inr (primitive_error ERR_UNASSIGNED_VARIABLE)) /\ old = non_object h).

Definition assignment_seen (h : heap) (sh : shape) (env s value : object) (out : (object + signal) * heap) : Prop :=
  match out with
  | (inl old, h') => well_formed h' sh /\ previous h env s old /\
      (forall env' s', environment_ok sh env' -> symbol_ok sh s' -> same_variable h sh env s env' s' -> observes h' env' s' (inl value)) /\
      (forall env' s', environment_ok sh env' -> symbol_ok sh s' -> ~ same_variable h sh env s env' s' ->
         forall q, observes h' env' s' q <-> observes h env' s' q)
  | (inr e, h') => h' = h /\ observes h env s (inr e)
  end.

Lemma previous_ok h sh env s u : well_formed h sh -> environment_ok sh env -> symbol_ok sh s -> denotes h sh env s (read_value u) ->
  assignable u = true -> previous h env s (unmapped h u).
Proof.
  intros W E Sy D A. pose proof (denotes_observed h sh env s _ W E Sy D) as O. unfold assignable, read_value, previous in *.
  destruct (value_kind_cases u) as [K|[K|[K|K]]]; rewrite K in *; try discriminate; [left|right].
  - unfold unmapped. destruct (object_eqb_spec u UNASSIGNED_OBJECT) as [->|]; [discriminate|exact O].
  - split; [exact O|]. unfold unmapped, value_kind in *. destruct (REFERENCE_TRAP_P u); [|discriminate].
    destruct (object_eqb u UNASSIGNED_OBJECT); [reflexivity|]. now destruct (object_eqb u UNBOUND_OBJECT).
Qed.

Lemma assignment_observed h sh env s value : well_formed h sh -> environment_ok sh env -> symbol_ok sh s -> ordinary h value ->
  returns (Prim_lexical_assignment env s value h) (assignment_seen h sh env s value).
Proof.
  intros W E Sy V. destruct (assign_variable_ok h sh env s value W E Sy (ordinary_storable h sh value V)) as ([[code old] h'] & Ea & H).
  assert (S : sensible (code, old)).
  { destruct H as [(u & _ & _ & -> & -> & _)|(C & -> & _)]; [discriminate|exact C]. }
  exists (answer (code, old), h'). split.
  { unfold Prim_lexical_assignment. rewrite checked_arguments by eauto using environment_ok_p, symbol_ok_p. now apply STD_LOOKUP_VALUE_ok. }
  destruct H as [(u & D & A & -> & -> & As)|(C & -> & -> & v & D)].
  - change (answer (PRIM_DONE, Some (unmapped h u))) with (inl (unmapped h u) : object + signal). cbn [assignment_seen].
    pose proof (assigned_well_formed _ _ _ _ _ _ As) as W'. split; [exact W'|].
    split; [now apply previous_ok with sh|]. split; intros env' s' E' Sy' Sm.
    + rewrite <- (ordinary_answer h value V). apply (denotes_observed h' sh); auto. now apply As.
    + apply same_observations with sh sh; auto. intros r. now apply As.
  - pose proof (denotes_observed h sh env s _ W E Sy D) as O. pose proof (denotes_sensible _ _ _ _ _ D) as S'. cbn [answer assignment_seen] in *.
    destruct v as [v|]; cbn [answer sensible] in *.
    + apply Z.eqb_neq in C. rewrite C in O. apply Z.eqb_neq in S'. rewrite S'. now split.
    + now split.
Qed.

Lemma same_variable_sym h sh env s env' s' : same_variable h sh env s env' s' -> same_variable h sh env' s' env s.
Proof. intros (c & f & c' & f' & R & R' & L). exists c', f', c, f. repeat split; auto. Qed.

Lemma same_variable_refl h sh env s env' s' : same_variable h sh env s env' s' -> same_variable h sh env s env s.
Proof. intros (c & f & _ & _ & R & _). exists c, f, c, f. repeat split; auto. Qed.

Lemma same_variable_denotes h sh env s env' s' r : same_variable h sh env s env' s' -> denotes h sh env s r -> denotes h sh env' s' r.
Proof.
  intros (c & f & c' & f' & R & R' & L) (c2 & f2 & R2 & D). destruct (resolves_unique _ _ _ _ _ _ _ _ R R2) as [<- <-].
  destruct D as (v & Ev & ->). exists (Some c'), f'. split; [exact R'|]. exists v. split; [|reflexivity]. unfold value_of in *. now rewrite <- L.
Qed.

(** An assignment to one of two names of a variable is seen under both. *)
Lemma assignment_shared h sh env s env1 s1 env2 s2 value : well_formed h sh -> environment_ok sh env -> symbol_ok sh s ->
  environment_ok sh env1 -> symbol_ok sh s1 -> environment_ok sh env2 -> symbol_ok sh s2 -> ordinary h value ->
  same_variable h sh env s env1 s1 -> same_variable h sh env s env2 s2 ->
  returns (Prim_lexical_assignment env s value h) (fun '(r, h') =>
    match r with
    | inl _ => observes h' env1 s1 (inl value) /\ observes h' env2 s2 (inl value)
    | inr e => h' = h /\ observes h env1 s1 (inr e) /\ observes h env2 s2 (inr e)
    end).
Proof.
  intros W E Sy E1 Sy1 E2 Sy2 V S1 S2. eapply returns_weaken; [now apply (assignment_observed h sh env s value)|].
  intros [[old|e] h'] H; cbn [assignment_seen] in H.
  - destruct H as (_ & _ & H & _). split; now apply H.
  - destruct H as [-> O]. destruct (observed_denotes h sh env s _ W E Sy O) as (r & D & ->).
    split; [reflexivity|]. split; apply (denotes_observed h sh); auto; now apply (same_variable_denotes h sh env s).
Qed.

(** ** Links *)

Definition unseen (h : heap) (sh : shape) (h' : heap) : Prop :=
  forall env s q, environment_ok sh env -> symbol_ok sh s -> observes h' env s q <-> observes h env s q.

Definition link_seen (table : list Z -> object -> Prop) (h : heap) (sh : shape) (ob : nat) (n : Z) (tenv ts senv ss : object)
  (out : (object + signal) * heap) : Prop :=
  let '(r, h') := out in
  exists sh', state table h' sh' ob n /\ extends sh sh' /\
    match r with
    | inl _ =>
        (forall q, observes h' tenv ts q <-> observes h senv ss q) /\
        (forall env s q, environment_ok sh env -> symbol_ok sh s -> ~ (s = ts /\ reaches h sh ts env tenv) -> ~ shares h sh tenv ts env s ->
           observes h' env s q <-> observes h env s q) /\
        (forall env s value, In (env, s) [(tenv, ts); (senv, ss)] -> ordinary h' value ->
           returns (Prim_lexical_assignment env s value h') (fun '(r, h2) =>
             match r with
             | inl _ => observes h2 tenv ts (inl value) /\ observes h2 senv ss (inl value)
             | inr e => h2 = h' /\ observes h' tenv ts (inr e) /\ observes h' senv ss (inr e)
             end))
    | inr e =>
        (e = primitive_interrupt /\ unseen h sh h') \/
        (e = primitive_error ERR_UNBOUND_VARIABLE /\ h' = h /\ observes h senv ss (inr e))
    end.

Lemma unseen_ok h sh h' sh' : well_formed h sh -> well_formed h' sh' -> extends sh sh' ->
  (forall env s r, environment_ok sh env -> symbol_ok sh s -> (denotes h' sh' env s r <-> denotes h sh env s r)) -> unseen h sh h'.
Proof.
  intros W W' X D env s q E Sy. apply same_observations with sh sh'; eauto using environment_ok_extends, symbol_ok_extends.
Qed.

Lemma link_observed table h sh ob n tenv ts senv ss : state table h sh ob n -> environment_ok sh tenv -> symbol_ok sh ts ->
  environment_ok sh senv -> symbol_ok sh ss -> (tenv = THE_GLOBAL_ENV -> known_symbol table ts) -> link_space h tenv -> available h < 2 ^ 56 ->
  returns (Prim_link_variables tenv ts senv ss h) (link_seen table h sh ob n tenv ts senv ss).
Proof.
  intros St Et Syt Es Sys Kn Sp Av. pose proof (state_variables _ _ _ _ _ St) as W.
  destruct (link_variables_ok table h sh ob n tenv ts senv ss) as ([code h'] & El & sh' & St' & X & H); auto; try apply St.
  pose proof (state_variables _ _ _ _ _ St') as W'. unfold Prim_link_variables.
  rewrite CHECK_ARG_passes by eauto using environment_ok_p. rewrite CHECK_ARG_passes by eauto using symbol_ok_p.
  rewrite CHECK_ARG_passes by eauto using environment_ok_p. rewrite CHECK_ARG_passes by eauto using symbol_ok_p.
  rewrite (STD_LOOKUP_ok _ _ _ _ _ El). pose proof (fun e => environment_ok_extends sh sh' e X) as Xe. pose proof (fun s => symbol_ok_extends sh sh' s X) as Xs.
  destruct H as [(-> & -> & D)|[(-> & U)|(-> & sc & fr & R & L)]].
  - eexists (_, _). split; [reflexivity|]. exists sh'. split; [exact St'|]. split; [exact X|]. right. split; [reflexivity|]. split; [reflexivity|].
    exact (denotes_observed h sh senv ss _ W Es Sys D).
  - eexists (_, _). split; [reflexivity|]. exists sh'. split; [exact St'|]. split; [exact X|]. left. split; [reflexivity|].
    now apply unseen_ok with sh'.
  - eexists (_, _). split; [reflexivity|]. exists sh'. split; [exact St'|]. split; [exact X|].
    destruct (linked_reads h sh tenv ts senv ss sc fr h' sh' W Et Sys R L) as (Sm & D & O). split; [|split].
    + apply same_observations with sh sh'; auto.
    + intros env s q E Sy N1 N2. apply same_observations with sh sh'; auto.
    + intros env s value [[= <- <-]|[[= <- <-]|[]]] V; apply assignment_shared with sh'; auto;
        eauto using same_variable_refl, same_variable_sym.
Qed.

(** ENVIRONMENT-LINK-NAME links a name with the same name. *)
Lemma environment_link_name_ok env1 env2 s h : ENVIRONMENT_P env1 = true -> ENVIRONMENT_P env2 = true -> SYMBOL_P s = true ->
  Prim_environment_link_name env1 env2 s h = Prim_link_variables env1 s env2 s h.
Proof. intros E1 E2 S. unfold Prim_environment_link_name, Prim_link_variables. now rewrite !CHECK_ARG_passes. Qed.

(** ** Definition and removal *)

Lemma reaches_after h sh env s cell v h' sh' env' : environment_ok sh env' -> well_formed h sh -> defines h sh env s cell v h' sh' ->
  (reaches h' sh' s env' env <-> reaches h sh s env' env).
Proof.
  intros E' W D. pose proof (def_extends _ _ _ _ _ _ _ _ D) as X. split; intros R.
  - induction R as [env'|f nm pa env Ef L R IH]; [constructor|]. destruct E' as [Q|(f' & nm' & pa' & [= <-] & Ef')]; [discriminate|].
    assert (Q : sh' f = KFrame nm' pa') by kinds X. rewrite Ef in Q. injection Q as -> ->.
    destruct (object_eq_dec (Pointer TC_ENVIRONMENT f) env) as [<-|Ne]; [constructor|]. apply reaches_parent with nm' pa'; [exact Ef'| |].
    + rewrite <- (def_others _ _ _ _ _ _ _ _ D f nm' pa' s Ef') by now left. exact L.
    + destruct (parent_environment sh f pa' (frame_before _ _ _ _ _ W Ef')) as [->|Ep]; [|now apply IH].
      inversion R; subst. constructor.
  - induction R as [env'|f nm pa env Ef L R IH]; [constructor|].
    destruct (object_eq_dec (Pointer TC_ENVIRONMENT f) env) as [<-|Ne]; [constructor|]. apply reaches_parent with nm pa; [kinds X| |].
    + rewrite (def_others _ _ _ _ _ _ _ _ D f nm pa s Ef) by now left. exact L.
    + destruct (parent_environment sh f pa (frame_before _ _ _ _ _ W Ef)) as [->|Ep]; [|now apply IH].
      inversion R; subst. constructor.
Qed.

Lemma no_cell_hidden h sh env s : local_cell h sh env s true = None -> local_cell h sh env s false = None.
Proof.
  destruct env as [w|t f]; [exact id|]. unfold local_cell, frame_cells. destruct (sh f); try reflexivity.
  rewrite !cell_named_app, filter_true by reflexivity. destruct (cell_named s (extension_cells h sh f)); [discriminate|]. apply cell_named_filter.
Qed.

Lemma denotes_beyond h sh f names parent s env r : sh f = KFrame names parent ->
  local_cell h sh (Pointer TC_ENVIRONMENT f) s false = None -> reaches h sh s env (Pointer TC_ENVIRONMENT f) ->
  (denotes h sh env s r <-> denotes_outside h sh parent s r).
Proof.
  intros Ef L R. remember (Pointer TC_ENVIRONMENT f) as ef eqn:Q. induction R as [e|g nm pa e Eg Lg R IH].
  - subst e. split.
    + intros (c & fr & K & D). inversion K; subst; try congruence.
      * assert (parent = THE_NULL_ENV) as -> by congruence. left. now split.
      * assert (parent0 = parent) as -> by congruence. right. now exists c, fr.
    + intros [[-> ->]|(c & fr & K & D)].
      * exists None, (Pointer TC_ENVIRONMENT f). split; [now apply resolves_end with names|reflexivity].
      * exists c, fr. split; [now apply resolves_parent with names parent|exact D].
  - rewrite <- (IH Q L). split; intros (c & fr & K & D).
    + inversion K; subst; try congruence.
      * assert (pa = THE_NULL_ENV) as -> by congruence. inversion R.
      * assert (parent0 = pa) as -> by congruence. now exists c, fr.
    + exists c, fr. split; [now apply resolves_parent with nm pa|exact D].
Qed.

(** A definition in a frame without the name, and its removal, leave every variable as it was. *)
Lemma definition_undone h sh f names parent s cell v h1 sh1 h2 sh2 : well_formed h sh -> sh f = KFrame names parent -> symbol_ok sh s ->
  local_cell h sh (Pointer TC_ENVIRONMENT f) s true = None -> local_cell h sh (Pointer TC_ENVIRONMENT f) s false = None ->
  defines h sh (Pointer TC_ENVIRONMENT f) s cell v h1 sh1 -> name_removed h1 sh1 f s h2 sh2 ->
  forall env' s' r, environment_ok sh env' -> symbol_ok sh s' -> (denotes h2 sh2 env' s' r <-> denotes h sh env' s' r).
Proof.
  intros W Ef Sy Lt Lf D N env' s' r E' Sy'. set (env := Pointer TC_ENVIRONMENT f) in *.
  pose proof (def_extends _ _ _ _ _ _ _ _ D) as X. pose proof (def_well_formed _ _ _ _ _ _ _ _ D) as W1.
  assert (Eo : environment_ok sh env) by (right; unfold env; eauto). assert (Ef1 : sh1 f = KFrame names parent) by kinds X.
  destruct (defines_denotes h sh env s cell v h1 sh1 W Eo D) as [_ Others].
  destruct (removed_denotes h1 sh1 f names parent s h2 sh2 W1 Ef1) as [Gone Rest]; [now apply symbol_ok_extends with sh|exact N|].
  assert (Ns : forall e x, ~ shares h sh env s e x) by (intros e x (c & c' & f' & Lc & _); congruence).
  assert (Out : denotes_outside h1 sh1 parent s r <-> denotes_outside h sh parent s r).
  { unfold denotes_outside. pose proof (frame_before _ _ _ _ _ W Ef) as Bp. destruct (parent_environment _ _ _ Bp) as [->|Ep].
    - split; (intros [H|(c & fr & R & _)]; [now left|inversion R]).
    - rewrite (Others parent s r Ep Sy); [tauto| |apply Ns]. intros [_ R]. pose proof (reaches_le _ _ _ _ _ W R f f Bp eq_refl). lia. }
  destruct (object_eq_dec s' s) as [->|Ne].
  - destruct (resolves_total h sh s env' W Sy E') as (c & fr & R). destruct (reaches_dec h sh s env' env c fr Eo R) as [K|K].
    + rewrite (denotes_beyond h sh f names parent s env' r Ef Lf K), <- Out. apply Gone. now apply (reaches_after h sh env s cell v).
    + rewrite Rest; eauto using environment_ok_extends, symbol_ok_extends.
      * apply Others; auto. intros [_ Q]. contradiction.
      * intros [_ Q]. apply K. now apply (reaches_after h sh env s cell v h1 sh1 env' E' W D).
  - rewrite Rest; eauto using environment_ok_extends, symbol_ok_extends.
    + apply Others; auto. intros [Q _]. contradiction.
    + intros [Q _]. contradiction.
Qed.

Definition definition_seen (table : list Z -> object -> Prop) (h : heap) (sh : shape) (ob : nat) (n : Z) (env s value : object)
  (out : (object + signal) * heap) : Prop :=
  match out with
  | (inl name, h1) => name = s /\ observes h1 env s (inl value) /\
      (8 <= available h1 ->
       returns (Prim_unbind_variable env s h1) (fun '(r, h2) => r = inl SHARP_T /\ unseen h sh h2 /\
         exists sh2, state table h2 sh2 ob n /\ extends sh sh2))
  | (inr e, h1) => e = primitive_interrupt /\ unseen h sh h1
  end.

Lemma definition_observed table h sh ob n f names parent s value : let env := Pointer TC_ENVIRONMENT f in
  state table h sh ob n -> sh f = KFrame names parent -> symbol_ok sh s -> known_symbol table s ->
  local_cell h sh env s true = None -> ordinary h value -> link_space h env -> available h < 2 ^ 56 ->
  returns (Prim_local_assignment env s value h) (definition_seen table h sh ob n env s value).
Proof.
  intros env St Ef Sy Kn Lt V Sp Av. pose proof (state_variables _ _ _ _ _ St) as W. assert (Eo : environment_ok sh env) by (right; unfold env; eauto).
  pose proof (space_definable table h sh ob n env s St Eo Kn Sp) as Df.
  destruct (define_variable_ok table h sh ob n env s value St Df Sy (ordinary_storable h sh value V) ltac:(apply St) Av) as ([code h1] & Ed & sh1 & St1 & X & H).
  pose proof (state_variables _ _ _ _ _ St1) as W1. unfold Prim_local_assignment.
  rewrite checked_arguments by eauto using environment_ok_p, symbol_ok_p. rewrite (STD_LOOKUP_ok _ _ _ _ _ Ed). destruct H as [(-> & U)|(-> & cell & D)].
  - eexists (_, _). split; [reflexivity|]. split; [reflexivity|]. apply unseen_ok with sh1; auto. intros e x r E' Sy'. now apply unchanged_denotes.
  - eexists (_, _). split; [reflexivity|]. split; [reflexivity|].
    destruct (defines_denotes h sh env s cell (mapped h value) h1 sh1 W Eo D) as [Seen _]. specialize (Seen env (reaches_here _ _ _ _)).
    assert (E1 : environment_ok sh1 env) by now apply environment_ok_extends with sh. assert (Sy1 : symbol_ok sh1 s) by now apply symbol_ok_extends with sh.
    split; [rewrite <- (ordinary_answer h value V); now apply (denotes_observed h1 sh1)|]. intros A8.
    destruct (unbind_variable_ok table h1 sh1 ob n env s St1 E1 Sy1 Kn A8) as ([[c2 r] h2] & Eu & -> & sh2 & St2 & X2 & H2).
    assert (S : sensible (PRIM_DONE, r)) by (destruct H2 as [(-> & _)|(-> & _)]; discriminate).
    exists (answer (PRIM_DONE, r), h2). split.
    { unfold Prim_unbind_variable. rewrite checked_arguments by eauto using environment_ok_p, symbol_ok_p. now apply STD_LOOKUP_VALUE_ok. }
    destruct H2 as [(-> & Du & _)|(-> & c & fr & u & R & _ & _ & U)].
    + pose proof (denotes_unique _ _ _ _ _ _ Seen Du) as Q. pose proof (ordinary_answer h value V) as A. rewrite Q in A. discriminate.
    + split; [reflexivity|]. split; [|exists sh2; eauto using extends_trans].
      pose proof (defines_reached h sh env s cell _ h1 sh1 env D Eo (reaches_here _ _ _ _)) as R'.
      destruct (resolves_unique _ _ _ _ _ _ _ _ R R') as [_ Q]. subst fr.
      apply unseen_ok with sh2; eauto using extends_trans; [apply St2|]. inversion U as [f' h' sh' N|]; subst.
      apply (definition_undone h sh f names parent s cell (mapped h value) h1 sh1 h2 sh2); auto.
      now apply no_cell_hidden.
Qed.

(** ** Properties *)






