(* ===== verification/BitString.v ===== *)
(** * bitstr.c: bit strings

    A bit string is a non-marked vector: its header, its length in bits and
    the words that hold the bits, bit 0 lowest.  The loops run from the most
    significant word down on pointers that are off by one, as bitstr.h has
    them for little-endian machines. *)

From Stdlib Require Import ZArith List Bool Lia.
From S2P Require Import Prelude Object Heap HeapPrim.
Import ListNotations.

#[local] Open Scope Z_scope.
#[local] Open Scope heap_scope.

(** ** bitstr.h *)

Definition OBJECT_LENGTH : Z := 64.
Definition TC_BIT_STRING : Z := 0x2F.
Definition BIT_STRING_LENGTH_OFFSET : nat := 1.
Definition BIT_STRING_FIRST_WORD : nat := 2.

Definition BIT_STRING_P (object : object) : bool := OBJECT_TYPE object =? TC_BIT_STRING.

(** A word of raw data. *)
Definition load_word (a : address) : operation Z :=
  o <- load a ;; match o with Immediate w => ret w | Pointer _ _ => fun _ => Wild end.

(** A value is converted to an object when it is stored. *)
Definition store_word (a : address) (w : Z) : operation unit := store a (Immediate (to_ulong w)).

Definition BIT_STRING_LENGTH_TO_GC_LENGTH (bits : Z) : Z := Z.quot (bits + (OBJECT_LENGTH - 1)) OBJECT_LENGTH.

(** A shift by less than zero or by more than 63 is undefined. *)
Definition shift_left (w n : Z) : outcome Z := if (0 <=? n) && (n <? OBJECT_LENGTH) then Return (to_ulong (Z.shiftl w n)) else Wild.
Definition shift_right (w n : Z) : outcome Z := if (0 <=? n) && (n <? OBJECT_LENGTH) then Return (Z.shiftr w n) else Wild.

Definition LOW_MASK (nbits : Z) : outcome Z := bind (shift_left 1 nbits) (fun w => Return (to_ulong (w - 1))).
Definition ANY_MASK (nbits offset : Z) : outcome Z := bind (LOW_MASK nbits) (fun w => shift_left w offset).

Definition BIT_STRING_LENGTH (bit_string : object) : operation Z :=
  a <- MEMORY_LOC bit_string BIT_STRING_LENGTH_OFFSET ;; w <- load_word a ;; ret (to_long w).

Definition BIT_STRING_HIGH_PTR (bit_string : object) : operation address :=
  n <- VECTOR_LENGTH bit_string ;; MEMORY_LOC bit_string (Z.to_nat (n + 1)).

Definition BIT_STRING_LOW_PTR (bit_string : object) : operation address := MEMORY_LOC bit_string BIT_STRING_FIRST_WORD.

Definition DEC_BIT_STRING_PTR (ptr : address) : address := (fst ptr, pred (snd ptr)).
Definition INC_BIT_STRING_PTR (ptr : address) : address := (fst ptr, S (snd ptr)).

(** [* (ptr - 1)]. *)
Definition BIT_STRING_WORD (ptr : address) : operation Z :=
  match snd ptr with O => fun _ => Wild | S i => load_word (fst ptr, i) end.
Definition SET_BIT_STRING_WORD (ptr : address) (w : Z) : operation unit :=
  match snd ptr with O => fun _ => Wild | S i => store_word (fst ptr, i) w end.

(** Division of C: towards zero. *)
Definition BIT_STRING_INDEX_TO_WORD (index : Z) : Z := Z.of_nat BIT_STRING_FIRST_WORD + 1 + Z.quot index OBJECT_LENGTH.
Definition BIT_STRING_INDEX_PAIR_TO_INDEX (word bit : Z) : Z := (word - (Z.of_nat BIT_STRING_FIRST_WORD + 1)) * OBJECT_LENGTH + bit.

Definition BIT_STRING_MSW (bit_string : object) : operation Z := ptr <- BIT_STRING_HIGH_PTR bit_string ;; BIT_STRING_WORD ptr.
Definition BIT_STRING_LSW_PTR (bit_string : object) : operation address := MEMORY_LOC bit_string (Z.to_nat (BIT_STRING_INDEX_TO_WORD 0)).

(** ** copy_bits *)

Definition MASKED_TRANSFER (source destination : address) (nbits offset : Z) : operation unit :=
  mask <- pure (ANY_MASK nbits offset) ;;
  s <- BIT_STRING_WORD source ;;
  d <- BIT_STRING_WORD destination ;;
  SET_BIT_STRING_WORD destination (Z.lor (Z.land s mask) (Z.ldiff d mask)).

(** The whole words, when source and destination are aligned. *)
Fixpoint copy_aligned_loop (fuel : nat) (source destination : address) (nbits : Z) : operation (address * address * Z) :=
  match fuel with
  | O => fun _ => OutOfFuel
  | S fuel =>
      if nbits >=? OBJECT_LENGTH then
        s <- BIT_STRING_WORD source ;;
        SET_BIT_STRING_WORD destination s ;;
        copy_aligned_loop fuel (DEC_BIT_STRING_PTR source) (DEC_BIT_STRING_PTR destination) (nbits - OBJECT_LENGTH)
      else ret (source, destination, nbits)
  end.

Definition loop_fuel (nbits : Z) : nat := S (Z.to_nat (nbits / OBJECT_LENGTH)).

Definition copy_aligned (source : address) (source_offset : Z) (destination : address) (nbits : Z) : operation unit :=
  '(source, destination, nbits) <-
    (if negb (source_offset =? 0) then
       let head := OBJECT_LENGTH - source_offset in
       if nbits <=? head then
         MASKED_TRANSFER source destination nbits (head - nbits) ;;
         ret (source, destination, 0)
       else
         mask <- pure (LOW_MASK head) ;;
         temp <- BIT_STRING_WORD destination ;;
         s <- BIT_STRING_WORD source ;;
         SET_BIT_STRING_WORD destination (Z.lor (Z.land s mask) (Z.ldiff temp mask)) ;;
         ret (DEC_BIT_STRING_PTR source, DEC_BIT_STRING_PTR destination, nbits - head)
     else ret (source, destination, nbits)) ;;
  '(source, destination, nbits) <- copy_aligned_loop (loop_fuel nbits) source destination nbits ;;
  if nbits >? 0 then MASKED_TRANSFER source destination nbits (OBJECT_LENGTH - nbits) else ret tt.

(** The whole words, when the bits move down in their words. *)
Fixpoint copy_down_loop (fuel : nat) (source destination : address) (offset1 offset2 mask1 mask2 nbits : Z)
    : operation (address * address * Z) :=
  match fuel with
  | O => fun _ => OutOfFuel
  | S fuel =>
      if nbits >=? OBJECT_LENGTH then
        s <- BIT_STRING_WORD source ;;
        i <- pure (shift_left (Z.land s mask1) offset2) ;;
        let source := DEC_BIT_STRING_PTR source in
        s <- BIT_STRING_WORD source ;;
        s <- pure (shift_right s offset1) ;;
        SET_BIT_STRING_WORD destination (Z.lor (Z.land s mask2) i) ;;
        copy_down_loop fuel source (DEC_BIT_STRING_PTR destination) offset1 offset2 mask1 mask2 (nbits - OBJECT_LENGTH)
      else ret (source, destination, nbits)
  end.

(** The bits that are left. *)
Definition copy_down_tail (source destination : address) (offset1 offset2 mask1 nbits : Z) : operation unit :=
  if nbits >? 0 then
    d <- BIT_STRING_WORD destination ;;
    mask <- pure (LOW_MASK (OBJECT_LENGTH - nbits)) ;;
    let dest_tail := Z.land d mask in
    if nbits <=? offset1 then
      mask <- pure (ANY_MASK nbits (offset1 - nbits)) ;;
      s <- BIT_STRING_WORD source ;;
      s <- pure (shift_left (Z.land s mask) offset2) ;;
      SET_BIT_STRING_WORD destination (Z.lor s dest_tail)
    else
      s <- BIT_STRING_WORD source ;;
      i <- pure (shift_left (Z.land s mask1) offset2) ;;
      let source := DEC_BIT_STRING_PTR source in
      let j := nbits - offset1 in
      mask <- pure (ANY_MASK j (OBJECT_LENGTH - j)) ;;
      s <- BIT_STRING_WORD source ;;
      s <- pure (shift_right (Z.land s mask) offset1) ;;
      SET_BIT_STRING_WORD destination (Z.lor (Z.lor s i) dest_tail)
  else ret tt.

(** [source_offset < destination_offset]. *)
Definition copy_down (source : address) (source_offset : Z) (destination : address) (destination_offset nbits : Z) : operation unit :=
  let offset1 := destination_offset - source_offset in
  let offset2 := OBJECT_LENGTH - offset1 in
  let head := OBJECT_LENGTH - destination_offset in
  if nbits <=? head then
    mask <- pure (ANY_MASK nbits (head - nbits)) ;;
    s <- BIT_STRING_WORD source ;;
    s <- pure (shift_right s offset1) ;;
    d <- BIT_STRING_WORD destination ;;
    SET_BIT_STRING_WORD destination (Z.lor (Z.land s mask) (Z.ldiff d mask))
  else
    mask1 <- pure (LOW_MASK offset1) ;;
    mask2 <- pure (LOW_MASK offset2) ;;
    mask <- pure (LOW_MASK head) ;;
    temp <- BIT_STRING_WORD destination ;;
    s <- BIT_STRING_WORD source ;;
    s <- pure (shift_right s offset1) ;;
    SET_BIT_STRING_WORD destination (Z.lor (Z.land s mask) (Z.ldiff temp mask)) ;;
    '(source, destination, nbits) <-
      copy_down_loop (loop_fuel (nbits - head)) source (DEC_BIT_STRING_PTR destination) offset1 offset2 mask1 mask2 (nbits - head) ;;
    copy_down_tail source destination offset1 offset2 mask1 nbits.

(** The whole words, when the bits move up in their words. *)
Fixpoint copy_up_loop (fuel : nat) (source destination : address) (offset1 offset2 mask1 dest_buffer nbits : Z)
    : operation (address * address * Z * Z) :=
  match fuel with
  | O => fun _ => OutOfFuel
  | S fuel =>
      if nbits >=? OBJECT_LENGTH then
        s <- BIT_STRING_WORD source ;;
        s <- pure (shift_right s offset2) ;;
        SET_BIT_STRING_WORD destination (Z.lor dest_buffer (Z.land s mask1)) ;;
        s <- BIT_STRING_WORD source ;;
        dest_buffer <- pure (shift_left s offset1) ;;
        copy_up_loop fuel (DEC_BIT_STRING_PTR source) (DEC_BIT_STRING_PTR destination) offset1 offset2 mask1 dest_buffer
          (nbits - OBJECT_LENGTH)
      else ret (source, destination, dest_buffer, nbits)
  end.

Definition copy_up_tail (source destination : address) (offset1 offset2 mask1 dest_buffer nbits : Z) : operation unit :=
  if nbits <=? offset1 then
    d <- BIT_STRING_WORD destination ;;
    mask <- pure (LOW_MASK (offset1 - nbits)) ;;
    s <- BIT_STRING_WORD source ;;
    s <- pure (shift_right s offset2) ;;
    any <- pure (ANY_MASK nbits (offset1 - nbits)) ;;
    SET_BIT_STRING_WORD destination (Z.lor (Z.lor dest_buffer (Z.land d mask)) (Z.land s any))
  else
    s <- BIT_STRING_WORD source ;;
    s <- pure (shift_right s offset2) ;;
    SET_BIT_STRING_WORD destination (Z.lor dest_buffer (Z.land s mask1)) ;;
    let destination := DEC_BIT_STRING_PTR destination in
    let nbits := nbits - offset1 in
    mask <- pure (LOW_MASK (OBJECT_LENGTH - nbits)) ;;
    d <- BIT_STRING_WORD destination ;;
    s <- BIT_STRING_WORD source ;;
    s <- pure (shift_left s offset1) ;;
    SET_BIT_STRING_WORD destination (Z.lor (Z.land d mask) (Z.ldiff s mask)).

(** [source_offset > destination_offset]. *)
Definition copy_up (source : address) (source_offset : Z) (destination : address) (destination_offset nbits : Z) : operation unit :=
  let offset1 := source_offset - destination_offset in
  let offset2 := OBJECT_LENGTH - offset1 in
  let head := OBJECT_LENGTH - source_offset in
  if nbits <=? head then
    mask <- pure (ANY_MASK nbits (offset1 + (head - nbits))) ;;
    s <- BIT_STRING_WORD source ;;
    s <- pure (shift_left s offset1) ;;
    d <- BIT_STRING_WORD destination ;;
    SET_BIT_STRING_WORD destination (Z.lor (Z.land s mask) (Z.ldiff d mask))
  else
    mask1 <- pure (LOW_MASK offset1) ;;
    dest_buffer <- (if head + offset1 <? OBJECT_LENGTH then
                      d <- BIT_STRING_WORD destination ;;
                      mask <- pure (LOW_MASK (head + offset1)) ;;
                      ret (Z.ldiff d mask)
                    else ret 0) ;;
    s <- BIT_STRING_WORD source ;;
    mask <- pure (LOW_MASK head) ;;
    s <- pure (shift_left (Z.land s mask) offset1) ;;
    '(source, destination, dest_buffer, nbits) <-
      copy_up_loop (loop_fuel (nbits - head)) (DEC_BIT_STRING_PTR source) destination offset1 offset2 mask1 (Z.lor dest_buffer s)
        (nbits - head) ;;
    copy_up_tail source destination offset1 offset2 mask1 dest_buffer nbits.

(** Offsets are measured from the most significant bit of the first word of each. *)
Definition copy_bits (source : address) (source_offset : Z) (destination : address) (destination_offset nbits : Z) : operation unit :=
  if nbits =? 0 then ret tt
  else if source_offset =? destination_offset then copy_aligned source source_offset destination nbits
  else if source_offset <? destination_offset then copy_down source source_offset destination destination_offset nbits
  else copy_up source source_offset destination destination_offset nbits.

(** ** Masks and shifts *)

Lemma andthen_returns {A B} (m : operation A) (k : A -> operation B) h (P : A * heap -> Prop) (Q : B * heap -> Prop) :
  returns (m h) P -> (forall a h', P (a, h') -> returns (k a h') Q) -> returns (andthen m k h) Q.
Proof. intros ([a h'] & E & H) K. rewrite (andthen_return _ _ _ _ _ E). now apply K. Qed.

Lemma LOW_MASK_ok n : 0 <= n < 64 -> LOW_MASK n = Return (Z.ones n).
Proof.
  intros H. unfold LOW_MASK, shift_left, OBJECT_LENGTH. destruct (Z.leb_spec 0 n), (Z.ltb_spec n 64); try lia. cbn [andb bind].
  assert (2 ^ n < 2 ^ 64) by (apply Z.pow_lt_mono_r; lia). assert (0 < 2 ^ n) by (apply Z.pow_pos_nonneg; lia).
  rewrite Z.shiftl_1_l, (to_ulong_small (2 ^ n)) by lia. rewrite to_ulong_small by lia. now rewrite Z.ones_equiv.
Qed.

Lemma shift_left_ok w n : 0 <= n < 64 -> shift_left w n = Return (to_ulong (Z.shiftl w n)).
Proof. intros H. unfold shift_left, OBJECT_LENGTH. destruct (Z.leb_spec 0 n), (Z.ltb_spec n 64); try lia; reflexivity. Qed.

Lemma shift_right_ok w n : 0 <= n < 64 -> shift_right w n = Return (Z.shiftr w n).
Proof. intros H. unfold shift_right, OBJECT_LENGTH. destruct (Z.leb_spec 0 n), (Z.ltb_spec n 64); try lia; reflexivity. Qed.

Lemma ANY_MASK_ok n o : 0 <= n < 64 -> 0 <= o < 64 -> ANY_MASK n o = Return (to_ulong (Z.shiftl (Z.ones n) o)).
Proof. intros Hn Ho. unfold ANY_MASK. rewrite LOW_MASK_ok by exact Hn. now apply shift_left_ok. Qed.

Lemma bit_ones n t : 0 <= n -> Z.testbit (Z.ones n) t = (0 <=? t) && (t <? n).
Proof.
  intros Hn. destruct (Z.leb_spec 0 t); [|now apply Z.testbit_neg_r].
  destruct (Z.ltb_spec t n); [apply Z.ones_spec_low|apply Z.ones_spec_high]; lia.
Qed.

Lemma bit_ulong w t : 0 <= t < 64 -> Z.testbit (to_ulong w) t = Z.testbit w t.
Proof. intros H. unfold to_ulong. rewrite Z.mod_pow2_bits_low by lia. reflexivity. Qed.

Lemma bit_shl w n t : 0 <= t -> Z.testbit (Z.shiftl w n) t = Z.testbit w (t - n).
Proof. intros H. now apply Z.shiftl_spec. Qed.

Lemma bit_shr w n t : 0 <= t -> Z.testbit (Z.shiftr w n) t = Z.testbit w (t + n).
Proof. intros H. now apply Z.shiftr_spec. Qed.

Lemma bit_ulong_any w t : Z.testbit (to_ulong w) t = (0 <=? t) && ((t <? 64) && Z.testbit w t).
Proof.
  destruct (Z.leb_spec 0 t); [|now apply Z.testbit_neg_r]. destruct (Z.ltb_spec t 64); [apply bit_ulong; lia|].
  unfold to_ulong. now apply Z.mod_pow2_bits_high.
Qed.

Lemma bit_shl_any w n t : Z.testbit (Z.shiftl w n) t = (0 <=? t) && Z.testbit w (t - n).
Proof. destruct (Z.leb_spec 0 t); [now apply bit_shl|now apply Z.testbit_neg_r]. Qed.

Lemma bit_high w t : ulong_p w -> 64 <= t -> Z.testbit w t = false.
Proof.
  intros [H0 H1] Ht. destruct (Z.eq_dec w 0) as [->|]; [apply Z.bits_0|]. apply Z.bits_above_log2; [lia|].
  apply Z.log2_lt_pow2; [lia|]. apply Z.lt_le_trans with (2 ^ 64); [lia|]. apply Z.pow_le_mono_r; lia.
Qed.

Lemma bit_low w t : t < 0 -> Z.testbit w t = false.
Proof. intros H. now apply Z.testbit_neg_r. Qed.

(** ** Blocks of raw words *)

Definition raw (h : heap) (b : nat) (ws : list Z) : Prop := block_of h b = Some (map Immediate ws) /\ Forall ulong_p ws.

(** Bit [p] of a block, from its first word on. *)
Definition bit_at (h : heap) (b : nat) (p : Z) : bool :=
  match content h (b, Z.to_nat (p / 64)) with Some (Immediate w) => Z.testbit w (p mod 64) | _ => false end.

Lemma raw_content h b ws i w : raw h b ws -> nth_error ws i = Some w -> content h (b, i) = Some (Immediate w) /\ ulong_p w.
Proof.
  intros [E F] N. split.
  - unfold content. cbn [fst snd]. rewrite E. now apply map_nth_error.
  - rewrite Forall_forall in F. apply F. now apply nth_error_In with i.
Qed.

Lemma word_position i t : 0 <= t < 64 -> (64 * Z.of_nat i + t) / 64 = Z.of_nat i /\ (64 * Z.of_nat i + t) mod 64 = t.
Proof.
  intros H. rewrite Z.add_comm, Z.mul_comm, Z.div_add, Z.div_small, Z.mod_add, Z.mod_small by lia. split; lia.
Qed.

Lemma bit_at_word h b i w t : content h (b, i) = Some (Immediate w) -> 0 <= t < 64 -> bit_at h b (64 * Z.of_nat i + t) = Z.testbit w t.
Proof. intros E H. unfold bit_at. destruct (word_position i t H) as [-> ->]. now rewrite Nat2Z.id, E. Qed.

Lemma bit_at_same h h' b p : content h' (b, Z.to_nat (p / 64)) = content h (b, Z.to_nat (p / 64)) -> bit_at h' b p = bit_at h b p.
Proof. unfold bit_at. now intros ->. Qed.

Lemma raw_word h b ws i : raw h b ws -> (i < length ws)%nat ->
  exists w, BIT_STRING_WORD (b, S i) h = Return (w, h) /\ ulong_p w /\ forall t, 0 <= t < 64 -> Z.testbit w t = bit_at h b (64 * Z.of_nat i + t).
Proof.
  intros R L. destruct (nth_error ws i) as [w|] eqn:E; [|apply nth_error_None in E; lia]. destruct (raw_content h b ws i w R E) as [C U].
  exists w. split; [|split; [exact U|intros t H; symmetry; now apply bit_at_word]].
  cbn [BIT_STRING_WORD snd fst]. unfold load_word. run load_ok; [|exact C]. reflexivity.
Qed.

Lemma map_update {A B} (f : A -> B) i x l : map f (update i x l) = update i (f x) (map f l).
Proof. revert i. induction l as [|y l IH]; intros [|i]; cbn; congruence. Qed.

Lemma raw_stored h b ws i v : raw h b ws -> (i < length ws)%nat ->
  SET_BIT_STRING_WORD (b, S i) v h = Return (tt, stored h (b, i) (Immediate (to_ulong v))) /\
  raw (stored h (b, i) (Immediate (to_ulong v))) b (update i (to_ulong v) ws).
Proof.
  intros R L. destruct (nth_error ws i) as [w|] eqn:E; [|apply nth_error_None in E; lia]. destruct (raw_content h b ws i w R E) as [C U].
  split; [cbn [SET_BIT_STRING_WORD snd fst]; now apply store_ok with (Immediate w)|]. destruct R as [Eb F]. split.
  - rewrite block_stored, Nat.eqb_refl, Eb. cbn [option_map]. now rewrite map_update.
  - clear E C L Eb. revert i F. induction ws as [|x ws IH]; intros i F; [destruct i; constructor|]. inversion_clear F.
    destruct i; constructor; auto using to_ulong_range.
Qed.

(** The bits of a block after a store. *)
Lemma stored_bits h b ws i v : raw h b ws -> (i < length ws)%nat ->
  exists h', SET_BIT_STRING_WORD (b, S i) v h = Return (tt, h') /\ changes (fun a => fst a = b) h h' /\
    (exists ws', raw h' b ws' /\ length ws' = length ws) /\
    forall p, 0 <= p -> bit_at h' b p =
      if (64 * Z.of_nat i <=? p) && (p <? 64 * Z.of_nat i + 64) then Z.testbit v (p - 64 * Z.of_nat i) else bit_at h b p.
Proof.
  intros R L. destruct (raw_stored h b ws i v R L) as [E R2]. eexists. split; [exact E|]. split; [now apply changes_stored|].
  split; [exists (update i (to_ulong v) ws); split; [exact R2|apply length_update]|]. intros p Hp.
  destruct (nth_error ws i) as [w|] eqn:N; [|apply nth_error_None in N; lia]. destruct (raw_content _ _ _ _ _ R N) as [C _].
  destruct (Z.leb_spec (64 * Z.of_nat i) p) as [A|A]; [destruct (Z.ltb_spec p (64 * Z.of_nat i + 64)) as [B|B]|]; cbn [andb].
  - replace p with (64 * Z.of_nat i + (p - 64 * Z.of_nat i)) at 1 by lia.
    rewrite (bit_at_word _ b i (to_ulong v)); [apply bit_ulong; lia|now apply content_stored_eq with (Immediate w)|lia].
  - apply bit_at_same, content_stored_ne. intros [= Q]. assert (p / 64 = Z.of_nat i) by (rewrite <- Q; rewrite Z2Nat.id; [reflexivity|apply Z.div_pos; lia]).
    assert (Z.of_nat i + 1 <= p / 64) by (apply Z.div_le_lower_bound; lia). lia.
  - apply bit_at_same, content_stored_ne. intros [= Q]. assert (p / 64 = Z.of_nat i) by (rewrite <- Q; rewrite Z2Nat.id; [reflexivity|apply Z.div_pos; lia]).
    assert (p / 64 < Z.of_nat i) by (apply Z.div_lt_upper_bound; lia). lia.
Qed.

(** [bits]: the bits of masks and shifts. *)
Ltac bits :=
  repeat first
    [ rewrite Z.lor_spec | rewrite Z.land_spec | rewrite Z.ldiff_spec
    | rewrite bit_ulong by lia | rewrite bit_ones by lia | rewrite bit_shl by lia | rewrite bit_shr by lia | rewrite Z.bits_0
    | rewrite bit_ulong_any | rewrite bit_shl_any ].

(** ** Progress of a copy

    [n] bits that end at [e1] in the block [bs] go to the [n] bits that end at
    [e2] in [bd]; the blocks differ, or the bits move up. *)

Section Copy.
Context (h : heap) (bs bd : nat) (ws wd : list Z) (e1 e2 n : Z).
Hypothesis Rs : raw h bs ws.
Hypothesis Rd : raw h bd wd.
Hypothesis Up : bs = bd -> e1 <= e2.
Hypothesis Ns : 64 <= e1 - n.
Hypothesis Nd : 64 <= e2 - n.
Hypothesis Ls : e1 <= 64 * zlength ws.
Hypothesis Ld : e2 <= 64 * zlength wd.
Hypothesis Nn : 0 <= n.

(** The bits of [bd] after the copy. *)
Definition target (p : Z) : bool := if (e2 - n <=? p) && (p <? e2) then bit_at h bs (p - e2 + e1) else bit_at h bd p.

(** The bits from [x] on are copied. *)
Record progress (x : Z) (h1 : heap) : Prop := {
  pr_changes : changes (fun a => fst a = bd) h h1;
  pr_raw : exists wd1, raw h1 bd wd1 /\ length wd1 = length wd;
  pr_high : forall p, 0 <= p -> x <= p -> bit_at h1 bd p = target p;
  pr_low : forall p, 0 <= p < x -> bit_at h1 bd p = bit_at h bd p
}.

Lemma progress_start : progress e2 h.
Proof.
  constructor; [apply changes_refl|now exists wd| |reflexivity]. intros p _ H. unfold target. destruct (Z.ltb_spec p e2); [lia|]. now rewrite andb_false_r.
Qed.

(** Reading a word of the source. *)
Lemma read_source x h1 i : progress x h1 -> (i < length ws)%nat ->
  exists s, BIT_STRING_WORD (bs, S i) h1 = Return (s, h1) /\ ulong_p s /\
    forall t, 0 <= t < 64 -> bs <> bd \/ 64 * Z.of_nat i + t < x -> Z.testbit s t = bit_at h bs (64 * Z.of_nat i + t).
Proof.
  intros [C (wd1 & R1 & L1) _ Lo] L. destruct (Nat.eq_dec bs bd) as [Q|Ne].
  - subst bd. assert (Lw : length wd = length ws).
    { destruct Rs as [E _], Rd as [E' _]. rewrite E in E'. injection E' as E'. apply (f_equal (@length _)) in E'. now rewrite !length_map in E'. }
    destruct (raw_word h1 bs wd1 i R1 ltac:(lia)) as (w & Ew & U & B). exists w. split; [exact Ew|]. split; [exact U|]. intros t Ht [K|K]; [contradiction|].
    rewrite B by exact Ht. apply Lo. lia.
  - assert (R1s : raw h1 bs ws).
    { destruct Rs as [E F]. split; [|exact F]. rewrite (changes_block _ _ _ _ C); [exact E|]. intros j K. now apply Ne. }
    destruct (raw_word h1 bs ws i R1s L) as (w & Ew & U & B). exists w. split; [exact Ew|]. split; [exact U|]. intros t Ht _. rewrite B by exact Ht.
    apply bit_at_same. apply (same_content _ _ _ C). cbn [fst]. congruence.
Qed.

(** Reading a word of the destination. *)
Lemma read_destination x h1 j : progress x h1 -> (j < length wd)%nat ->
  exists d, BIT_STRING_WORD (bd, S j) h1 = Return (d, h1) /\ ulong_p d /\
    forall t, 0 <= t < 64 -> Z.testbit d t = if x <=? 64 * Z.of_nat j + t then target (64 * Z.of_nat j + t) else bit_at h bd (64 * Z.of_nat j + t).
Proof.
  intros [C (wd1 & R1 & L1) Hi Lo] L. destruct (raw_word h1 bd wd1 j R1 ltac:(lia)) as (w & Ew & U & B). exists w. split; [exact Ew|]. split; [exact U|].
  intros t Ht. rewrite B by exact Ht. destruct (Z.leb_spec x (64 * Z.of_nat j + t)); [apply Hi|apply Lo]; lia.
Qed.

(** Storing the next word. *)
Lemma write_destination x y h1 j v : progress x h1 -> (j < length wd)%nat -> x <= 64 * Z.of_nat j + 64 -> y <= x -> 64 * Z.of_nat j <= y ->
  (forall t, 0 <= t < 64 -> Z.testbit v t = if y <=? 64 * Z.of_nat j + t then target (64 * Z.of_nat j + t) else bit_at h bd (64 * Z.of_nat j + t)) ->
  exists h2, SET_BIT_STRING_WORD (bd, S j) v h1 = Return (tt, h2) /\ progress y h2.
Proof.
  intros [C (wd1 & R1 & L1) Hi Lo] L X Y1 Y2 V.
  destruct (stored_bits h1 bd wd1 j v R1 ltac:(lia)) as (h2 & E & C2 & (wd2 & R2 & L2) & B2). exists h2. split; [exact E|].
  assert (In : forall p, 64 * Z.of_nat j <= p < 64 * Z.of_nat j + 64 ->
    Z.testbit v (p - 64 * Z.of_nat j) = if y <=? p then target p else bit_at h bd p).
  { intros p Hp. rewrite V by lia. now replace (64 * Z.of_nat j + (p - 64 * Z.of_nat j)) with p by lia. }
  constructor.
  - now apply changes_trans with h1.
  - exists wd2. split; [exact R2|congruence].
  - intros p Hp K. rewrite B2 by exact Hp. destruct (Z.leb_spec (64 * Z.of_nat j) p), (Z.ltb_spec p (64 * Z.of_nat j + 64)); cbn [andb]; try lia.
    + rewrite In by lia. destruct (Z.leb_spec y p); [reflexivity|lia].
    + apply Hi; lia.
  - intros p Hp. rewrite B2 by lia. destruct (Z.leb_spec (64 * Z.of_nat j) p), (Z.ltb_spec p (64 * Z.of_nat j + 64)); cbn [andb]; try (apply Lo; lia).
    rewrite In by lia. destruct (Z.leb_spec y p); [lia|reflexivity].
Qed.

(** [word_bits H]: the bits of a stored word, case by case; [H] gives those of a word that was read. *)
Lemma target_in p : e2 - n <= p < e2 -> target p = bit_at h bs (p - e2 + e1).
Proof. intros H. unfold target. destruct (Z.leb_spec (e2 - n) p), (Z.ltb_spec p e2); try lia; reflexivity. Qed.

Lemma target_out p : p < e2 - n \/ e2 <= p -> target p = bit_at h bd p.
Proof. intros H. unfold target. destruct (Z.leb_spec (e2 - n) p), (Z.ltb_spec p e2); try lia; reflexivity. Qed.

(** The words that were read, by their bits. *)
Definition source_word (x : Z) (i : nat) (s : Z) : Prop :=
  ulong_p s /\ forall t, 0 <= t < 64 -> bs <> bd \/ 64 * Z.of_nat i + t < x -> Z.testbit s t = bit_at h bs (64 * Z.of_nat i + t).

Definition destination_word (x : Z) (j : nat) (d : Z) : Prop :=
  ulong_p d /\ (forall t, 0 <= t < 64 -> x <= 64 * Z.of_nat j + t -> Z.testbit d t = target (64 * Z.of_nat j + t)) /\
  (forall t, 0 <= t < 64 -> 64 * Z.of_nat j + t < x -> Z.testbit d t = bit_at h bd (64 * Z.of_nat j + t)).

Lemma read_source_word x h1 i : progress x h1 -> (i < length ws)%nat -> exists s, BIT_STRING_WORD (bs, S i) h1 = Return (s, h1) /\ source_word x i s.
Proof. intros P L. destruct (read_source x h1 i P L) as (s & E & U & B). now exists s. Qed.

Lemma read_destination_word x h1 j : progress x h1 -> (j < length wd)%nat ->
  exists d, BIT_STRING_WORD (bd, S j) h1 = Return (d, h1) /\ destination_word x j d.
Proof.
  intros P L. destruct (read_destination x h1 j P L) as (d & E & U & B). exists d. split; [exact E|]. split; [exact U|].
  split; intros t Ht K; rewrite B by exact Ht; destruct (Z.leb_spec x (64 * Z.of_nat j + t)); reflexivity || lia.
Qed.

(** A bit of the source that is where it was. *)
Lemma source_bit x i s t : source_word x i s -> 0 <= t < 64 -> (bs = bd -> 64 * Z.of_nat i + t < x) -> Z.testbit s t = bit_at h bs (64 * Z.of_nat i + t).
Proof. intros [_ H] Ht K. apply H; [exact Ht|]. destruct (Nat.eq_dec bs bd) as [Q|]; [right; now apply K|now left]. Qed.

Ltac simplify_bools :=
  cbn [andb orb negb]; rewrite ?andb_false_r, ?andb_true_r, ?orb_false_r, ?orb_true_r, ?orb_false_l, ?orb_true_l, ?andb_false_l, ?andb_true_l.

Ltac cases :=
  simplify_bools;
  try match goal with
      | |- context [?a <? ?b] =>
          first [ rewrite (proj2 (Z.ltb_lt a b)) by lia | rewrite (proj2 (Z.ltb_ge a b)) by lia | destruct (Z.ltb_spec a b) ]; cases
      | |- context [?a <=? ?b] =>
          first [ rewrite (proj2 (Z.leb_le a b)) by lia | rewrite (proj2 (Z.leb_gt a b)) by lia | destruct (Z.leb_spec a b) ]; cases
      end.

(** Close the equation of one bit: [s] is a word of the source, [d] one of the destination. *)
Ltac bit_of x :=
  first
    [ reflexivity
    | f_equal; lia
    | match goal with
      | H : source_word x ?i ?s |- context [Z.testbit ?s ?t] =>
          first [ rewrite (source_bit x i s t H) by (intros; lia) | rewrite (bit_high s t) by (apply H || lia) | rewrite (bit_low s t) by lia ]
      | H : destination_word x ?j ?d |- context [Z.testbit ?d ?t] =>
          first [ rewrite (proj1 (proj2 H) t) by lia | rewrite (proj2 (proj2 H) t) by lia ]
      end; bit_of x
    | rewrite target_out by lia; bit_of x ].

(** The bits of a word to store. *)
Ltac word_now x :=
  let t := fresh "t" in let Ht := fresh "Ht" in intros t Ht; bits; cases;
  try (rewrite target_in by lia); try (rewrite target_out by lia); bit_of x.

Lemma aligned_transfer x h1 i j nbits offset : progress x h1 -> (i < length ws)%nat -> (j < length wd)%nat -> 64 * Z.of_nat j - e2 = 64 * Z.of_nat i - e1 ->
  0 < nbits < 64 -> 0 <= offset -> offset + nbits <= 64 -> 64 * Z.of_nat j + offset + nbits = x -> e2 - n <= x - nbits -> x <= e2 ->
  returns (MASKED_TRANSFER (bs, S i) (bd, S j) nbits offset h1) (fun '(_, h2) => progress (x - nbits) h2).
Proof.
  intros P Li Lj Al Hn Ho Hb Hx Hl Hh. unfold MASKED_TRANSFER. erewrite andthen_return by (apply pure_return, ANY_MASK_ok; lia).
  destruct (read_source_word x h1 i P Li) as (s & Es & Hs). destruct (read_destination_word x h1 j P Lj) as (d & Ed & Hd).
  erewrite andthen_return by exact Es. erewrite andthen_return by exact Ed.
  destruct (write_destination x (x - nbits) h1 j (Z.lor (Z.land s (to_ulong (Z.shiftl (Z.ones nbits) offset))) (Z.ldiff d (to_ulong (Z.shiftl (Z.ones nbits) offset))))) as (h2 & E2 & P2); auto; try lia.
  - word_now x.
  - now exists (tt, h2).
Qed.

Lemma source_in i : 64 * Z.of_nat i < e1 -> (i < length ws)%nat.
Proof. generalize Ls, Ld. lia. Qed.

Lemma destination_in j : 64 * Z.of_nat j < e2 -> (j < length wd)%nat.
Proof. generalize Ls, Ld. lia. Qed.

Definition at_rest (d1 d2 : Z) '(((source, destination), nbits), h2) : Prop :=
  exists i j, source = (bs, S i) /\ destination = (bd, S j) /\ 0 <= nbits < 64 /\
    64 * Z.of_nat i + 64 - nbits = e1 - n + d1 /\ 64 * Z.of_nat j + 64 - nbits = e2 - n + d2 /\ progress (e2 - n + nbits) h2.

Lemma copy_aligned_loop_ok fuel : forall h1 i j nbits, progress (64 * Z.of_nat j + 64) h1 -> 64 * Z.of_nat i + 64 - nbits = e1 - n ->
  64 * Z.of_nat j + 64 - nbits = e2 - n -> 0 <= nbits <= n -> nbits / 64 < Z.of_nat fuel ->
  returns (copy_aligned_loop fuel (bs, S i) (bd, S j) nbits h1) (at_rest 0 0).
Proof.
  induction fuel as [|fuel IH]; intros h1 i j nbits P Ei Ej Hn F; [assert (0 <= nbits / 64) by (apply Z.div_pos; lia); lia|].
  cbn [copy_aligned_loop]. unfold OBJECT_LENGTH. destruct (Z.geb_spec nbits 64).
  - destruct (read_source_word _ h1 i P (source_in i ltac:(lia))) as (s & Es & Hs). erewrite andthen_return by exact Es.
    destruct (write_destination _ (64 * Z.of_nat j) h1 j s P (destination_in j ltac:(lia))) as (h2 & E2 & P2); try lia.
    { word_now (64 * Z.of_nat j + 64). }
    erewrite andthen_return by exact E2. destruct i as [|i]; [lia|]. destruct j as [|j]; [lia|]. unfold DEC_BIT_STRING_PTR. cbn [fst snd pred].
    apply IH; try lia.
    + now replace (64 * Z.of_nat j + 64) with (64 * Z.of_nat (S j)) by lia.
    + replace nbits with (nbits - 64 + 1 * 64) in F by lia. rewrite Z.div_add in F; lia.
  - eexists. split; [reflexivity|]. exists i, j. replace (e2 - n + nbits) with (64 * Z.of_nat j + 64) by lia.
    do 5 (split; [reflexivity || lia|]). exact P.
Qed.

Lemma copy_aligned_ok i j o : e1 = 64 * Z.of_nat i + 64 - o -> e2 = 64 * Z.of_nat j + 64 - o -> 0 <= o < 64 -> 0 < n ->
  returns (copy_aligned (bs, S i) o (bd, S j) n h) (fun '(_, h2) => progress (e2 - n) h2).
Proof.
  intros Ei Ej Ho Hp. unfold copy_aligned, OBJECT_LENGTH.
  assert (Tail : forall h1 i j nbits, progress (64 * Z.of_nat j + 64) h1 -> 64 * Z.of_nat i + 64 - nbits = e1 - n ->
    64 * Z.of_nat j + 64 - nbits = e2 - n -> 0 <= nbits <= n ->
    returns (('(source, destination, nbits) <- copy_aligned_loop (loop_fuel nbits) (bs, S i) (bd, S j) nbits ;;
              if nbits >? 0 then MASKED_TRANSFER source destination nbits (64 - nbits) else ret tt) h1) (fun '(_, h2) => progress (e2 - n) h2)).
  { clear i j Ei Ej. intros h1 i j nbits P Ei Ej Hn. eapply andthen_returns.
    - apply (copy_aligned_loop_ok (loop_fuel nbits)); try assumption. unfold loop_fuel, OBJECT_LENGTH.
      assert (0 <= nbits / 64) by (apply Z.div_pos; lia). lia.
    - intros [[source destination] r] h2 (i' & j' & -> & -> & Hr & Ei' & Ej' & P'). destruct (Z.gtb_spec r 0).
      + replace (e2 - n) with (e2 - n + r - r) by lia.
        apply (aligned_transfer (e2 - n + r)); try lia. exact P'.
      + exists (tt, h2). split; [reflexivity|]. now replace (e2 - n) with (e2 - n + r) by lia. }
  pose proof progress_start as P. destruct (Z.eqb_spec o 0) as [->|Ne]; cbn [negb].
  - erewrite andthen_return by reflexivity. apply Tail; try lia. now replace (64 * Z.of_nat j + 64) with e2 by lia.
  - destruct (Z.leb_spec n (64 - o)).
    + destruct (aligned_transfer e2 h i j n (64 - o - n)) as ([[] h2] & E & P2); try lia; [exact P|].
      erewrite andthen_return by (erewrite andthen_return by exact E; reflexivity). exists (tt, h2). now split.
    + destruct (read_source_word _ h i P (source_in i ltac:(lia))) as (s & Es & Hs).
      destruct (read_destination_word _ h j P (destination_in j ltac:(lia))) as (d & Ed & Hd).
      destruct (write_destination _ (64 * Z.of_nat j) h j (Z.lor (Z.land s (Z.ones (64 - o))) (Z.ldiff d (Z.ones (64 - o)))) P (destination_in j ltac:(lia))) as (h2 & E2 & P2); try lia.
      { word_now e2. }
      erewrite andthen_return.
      2: { erewrite andthen_return by (apply pure_return, LOW_MASK_ok; lia). erewrite andthen_return by exact Ed. erewrite andthen_return by exact Es.
           erewrite andthen_return by exact E2. reflexivity. }
      unfold DEC_BIT_STRING_PTR. cbn [fst snd pred]. destruct i as [|i]; [lia|]. destruct j as [|j]; [lia|].
      apply Tail; try lia. now replace (64 * Z.of_nat j + 64) with (64 * Z.of_nat (S j)) by lia.
Qed.

Lemma copy_down_loop_ok fuel o1 : 0 < o1 < 64 -> forall h1 i j nbits, progress (64 * Z.of_nat j + 64) h1 ->
  64 * Z.of_nat i + o1 - nbits = e1 - n -> 64 * Z.of_nat j + 64 - nbits = e2 - n -> 0 <= nbits <= n -> nbits / 64 < Z.of_nat fuel ->
  returns (copy_down_loop fuel (bs, S i) (bd, S j) o1 (64 - o1) (Z.ones o1) (Z.ones (64 - o1)) nbits h1) (at_rest (64 - o1) 0).
Proof.
  intros Ho. induction fuel as [|fuel IH]; intros h1 i j nbits P Ei Ej Hn F; [assert (0 <= nbits / 64) by (apply Z.div_pos; lia); lia|].
  cbn [copy_down_loop]. unfold OBJECT_LENGTH. destruct (Z.geb_spec nbits 64).
  - destruct (read_source_word _ h1 i P (source_in i ltac:(lia))) as (s & Es & Hs). erewrite andthen_return by exact Es.
    erewrite andthen_return by (apply pure_return, shift_left_ok; lia). destruct i as [|i]; [lia|].
    unfold DEC_BIT_STRING_PTR at 1 2. cbn [fst snd pred].
    destruct (read_source_word _ h1 i P (source_in i ltac:(lia))) as (s' & Es' & Hs'). erewrite andthen_return by exact Es'.
    erewrite andthen_return by (apply pure_return, shift_right_ok; lia).
    destruct (write_destination _ (64 * Z.of_nat j) h1 j
      (Z.lor (Z.land (Z.shiftr s' o1) (Z.ones (64 - o1))) (to_ulong (Z.shiftl (Z.land s (Z.ones o1)) (64 - o1)))) P (destination_in j ltac:(lia)))
      as (h2 & E2 & P2); try lia.
    { word_now (64 * Z.of_nat j + 64). }
    erewrite andthen_return by exact E2. destruct j as [|j]; [lia|]. unfold DEC_BIT_STRING_PTR. cbn [fst snd pred].
    apply IH; try lia.
    + now replace (64 * Z.of_nat j + 64) with (64 * Z.of_nat (S j)) by lia.
    + replace nbits with (nbits - 64 + 1 * 64) in F by lia. rewrite Z.div_add in F; lia.
  - eexists. split; [reflexivity|]. exists i, j. replace (e2 - n + nbits) with (64 * Z.of_nat j + 64) by lia.
    do 5 (split; [reflexivity || lia|]). exact P.
Qed.

Lemma copy_down_tail_ok o1 h1 i j nbits : 0 < o1 < 64 -> progress (64 * Z.of_nat j + 64) h1 ->
  64 * Z.of_nat i + o1 - nbits = e1 - n -> 64 * Z.of_nat j + 64 - nbits = e2 - n -> 0 <= nbits <= n -> nbits < 64 ->
  returns (copy_down_tail (bs, S i) (bd, S j) o1 (64 - o1) (Z.ones o1) nbits h1) (fun '(_, h2) => progress (e2 - n) h2).
Proof.
  intros Ho P Ei Ej Hn Lt. unfold copy_down_tail, OBJECT_LENGTH. destruct (Z.gtb_spec nbits 0).
  2: { exists (tt, h1). split; [reflexivity|]. now replace (e2 - n) with (64 * Z.of_nat j + 64) by lia. }
  destruct (read_destination_word _ h1 j P (destination_in j ltac:(lia))) as (d & Ed & Hd). erewrite andthen_return by exact Ed.
  erewrite andthen_return by (apply pure_return, LOW_MASK_ok; lia).
  destruct (read_source_word _ h1 i P (source_in i ltac:(lia))) as (s & Es & Hs). destruct (Z.leb_spec nbits o1).
  - erewrite andthen_return by (apply pure_return, ANY_MASK_ok; lia). erewrite andthen_return by exact Es.
    erewrite andthen_return by (apply pure_return, shift_left_ok; lia).
    edestruct (write_destination (64 * Z.of_nat j + 64) (e2 - n) h1 j) as (h2 & E2 & P2);
      [exact P|apply destination_in; lia| | | | |exists (tt, h2); split; [exact E2|exact P2]]; try lia.
    word_now (64 * Z.of_nat j + 64).
  - erewrite andthen_return by exact Es. erewrite andthen_return by (apply pure_return, shift_left_ok; lia). destruct i as [|i]; [lia|].
    unfold DEC_BIT_STRING_PTR. cbn [fst snd pred]. erewrite andthen_return by (apply pure_return, ANY_MASK_ok; lia).
    destruct (read_source_word _ h1 i P (source_in i ltac:(lia))) as (s' & Es' & Hs'). erewrite andthen_return by exact Es'.
    erewrite andthen_return by (apply pure_return, shift_right_ok; lia).
    edestruct (write_destination (64 * Z.of_nat j + 64) (e2 - n) h1 j) as (h2 & E2 & P2);
      [exact P|apply destination_in; lia| | | | |exists (tt, h2); split; [exact E2|exact P2]]; try lia.
    word_now (64 * Z.of_nat j + 64).
Qed.

Lemma copy_down_ok i j so do : e1 = 64 * Z.of_nat i + 64 - so -> e2 = 64 * Z.of_nat j + 64 - do -> 0 <= so < do -> do < 64 -> 0 < n ->
  returns (copy_down (bs, S i) so (bd, S j) do n h) (fun '(_, h2) => progress (e2 - n) h2).
Proof.
  intros Ei Ej Hs Hd Hp. unfold copy_down, OBJECT_LENGTH. pose proof progress_start as P.
  destruct (read_source_word _ h i P (source_in i ltac:(lia))) as (s & Es & Ws).
  destruct (read_destination_word _ h j P (destination_in j ltac:(lia))) as (d & Ed & Wd). destruct (Z.leb_spec n (64 - do)).
  - erewrite andthen_return by (apply pure_return, ANY_MASK_ok; lia). erewrite andthen_return by exact Es.
    erewrite andthen_return by (apply pure_return, shift_right_ok; lia). erewrite andthen_return by exact Ed.
    edestruct (write_destination e2 (e2 - n) h j) as (h2 & E2 & P2);
      [exact P|apply destination_in; lia| | | | |exists (tt, h2); split; [exact E2|exact P2]]; try lia.
    word_now e2.
  - erewrite andthen_return by (apply pure_return, LOW_MASK_ok; lia). erewrite andthen_return by (apply pure_return, LOW_MASK_ok; lia).
    erewrite andthen_return by (apply pure_return, LOW_MASK_ok; lia). erewrite andthen_return by exact Ed. erewrite andthen_return by exact Es.
    erewrite andthen_return by (apply pure_return, shift_right_ok; lia).
    destruct (write_destination e2 (64 * Z.of_nat j) h j
      (Z.lor (Z.land (Z.shiftr s (do - so)) (Z.ones (64 - do))) (Z.ldiff d (Z.ones (64 - do)))) P (destination_in j ltac:(lia)))
      as (h2 & E2 & P2); try lia.
    { word_now e2. }
    erewrite andthen_return by exact E2. unfold DEC_BIT_STRING_PTR. cbn [fst snd pred]. destruct j as [|j]; [lia|].
    eapply andthen_returns.
    + apply (copy_down_loop_ok (loop_fuel (n - (64 - do))) (do - so) ltac:(lia)); try lia.
      * now replace (64 * Z.of_nat j + 64) with (64 * Z.of_nat (S j)) by lia.
      * unfold loop_fuel, OBJECT_LENGTH. assert (0 <= (n - (64 - do)) / 64) by (apply Z.div_pos; lia). lia.
    + intros [[source destination] r] h3 (i' & j' & -> & -> & Hr & Ei' & Ej' & P3). apply copy_down_tail_ok; try lia.
      now replace (64 * Z.of_nat j' + 64) with (e2 - n + r) by lia.
Qed.

(** The high bits of word [j], ready to be stored. *)
Definition buffered (o1 : Z) (j : nat) (b : Z) : Prop :=
  forall t, 0 <= t < 64 -> Z.testbit b t = if o1 <=? t then target (64 * Z.of_nat j + t) else false.

Definition at_rest_up (o1 : Z) '((((source, destination), b), nbits), h2) : Prop :=
  exists i j x, source = (bs, S i) /\ destination = (bd, S j) /\ 0 <= nbits < 64 /\
    64 * Z.of_nat i + 64 - nbits = e1 - n /\ 64 * Z.of_nat j + o1 - nbits = e2 - n /\
    64 * Z.of_nat j + o1 <= x <= 64 * Z.of_nat j + 64 /\ 64 * Z.of_nat j < e2 /\ buffered o1 j b /\ progress x h2.

Lemma copy_up_loop_ok fuel o1 : 0 < o1 < 64 -> forall h1 i j x b nbits, progress x h1 -> buffered o1 j b ->
  64 * Z.of_nat j + o1 <= x <= 64 * Z.of_nat j + 64 -> 64 * Z.of_nat j < e2 ->
  64 * Z.of_nat i + 64 - nbits = e1 - n -> 64 * Z.of_nat j + o1 - nbits = e2 - n -> 0 <= nbits <= n -> nbits / 64 < Z.of_nat fuel ->
  returns (copy_up_loop fuel (bs, S i) (bd, S j) o1 (64 - o1) (Z.ones o1) b nbits h1) (at_rest_up o1).
Proof.
  intros Ho. induction fuel as [|fuel IH]; intros h1 i j x b nbits P B Hx Hj Ei Ej Hn F; [assert (0 <= nbits / 64) by (apply Z.div_pos; lia); lia|].
  cbn [copy_up_loop]. unfold OBJECT_LENGTH. destruct (Z.geb_spec nbits 64).
  - destruct (read_source_word _ h1 i P (source_in i ltac:(lia))) as (s & Es & Hs). erewrite andthen_return by exact Es.
    erewrite andthen_return by (apply pure_return, shift_right_ok; lia).
    destruct (write_destination x (64 * Z.of_nat j) h1 j (Z.lor b (Z.land (Z.shiftr s (64 - o1)) (Z.ones o1))) P (destination_in j ltac:(lia)))
      as (h2 & E2 & P2); try lia.
    { intros t Ht. bits. rewrite (B t) by lia. cases; try reflexivity; rewrite target_in by lia; bit_of x. }
    erewrite andthen_return by exact E2.
    destruct (read_source_word _ h2 i P2 (source_in i ltac:(lia))) as (s' & Es' & Hs'). erewrite andthen_return by exact Es'.
    erewrite andthen_return by (apply pure_return, shift_left_ok; lia).
    destruct i as [|i]; [lia|]. destruct j as [|j]; [lia|]. unfold DEC_BIT_STRING_PTR. cbn [fst snd pred].
    apply IH with (64 * Z.of_nat (S j)); try lia; [exact P2| |].
    + intros t Ht. bits. cases; try rewrite target_in by lia; bit_of (64 * Z.of_nat (S j)).
    + replace nbits with (nbits - 64 + 1 * 64) in F by lia. rewrite Z.div_add in F; lia.
  - eexists. split; [reflexivity|]. exists i, j, x. do 7 (split; [reflexivity || lia|]). now split.
Qed.

Lemma copy_up_tail_ok o1 h1 i j x b nbits : 0 < o1 < 64 -> progress x h1 -> buffered o1 j b ->
  64 * Z.of_nat j + o1 <= x <= 64 * Z.of_nat j + 64 -> 64 * Z.of_nat j < e2 ->
  64 * Z.of_nat i + 64 - nbits = e1 - n -> 64 * Z.of_nat j + o1 - nbits = e2 - n -> 0 <= nbits <= n -> nbits < 64 ->
  returns (copy_up_tail (bs, S i) (bd, S j) o1 (64 - o1) (Z.ones o1) b nbits h1) (fun '(_, h2) => progress (e2 - n) h2).
Proof.
  intros Ho P B Hx Hj Ei Ej Hn Lt. unfold copy_up_tail, OBJECT_LENGTH.
  assert (Li : (i < length ws)%nat) by (apply source_in; lia).
  destruct (read_source_word _ h1 i P Li) as (s & Es & Hs). destruct (Z.leb_spec nbits o1).
  - destruct (read_destination_word _ h1 j P (destination_in j ltac:(lia))) as (d & Ed & Hd). erewrite andthen_return by exact Ed.
    erewrite andthen_return by (apply pure_return, LOW_MASK_ok; lia). erewrite andthen_return by exact Es.
    erewrite andthen_return by (apply pure_return, shift_right_ok; lia). erewrite andthen_return by (apply pure_return, ANY_MASK_ok; lia).
    edestruct (write_destination x (e2 - n) h1 j) as (h2 & E2 & P2);
      [exact P|apply destination_in; lia| | | | |exists (tt, h2); split; [exact E2|exact P2]]; try lia.
    intros t Ht. bits. rewrite (B t) by lia. cases; try rewrite target_in by lia; bit_of x.
  - erewrite andthen_return by exact Es. erewrite andthen_return by (apply pure_return, shift_right_ok; lia).
    destruct (write_destination x (64 * Z.of_nat j) h1 j (Z.lor b (Z.land (Z.shiftr s (64 - o1)) (Z.ones o1))) P (destination_in j ltac:(lia)))
      as (h2 & E2 & P2); try lia.
    { intros t Ht. bits. rewrite (B t) by lia. cases; try reflexivity; rewrite target_in by lia; bit_of x. }
    erewrite andthen_return by exact E2. unfold DEC_BIT_STRING_PTR. cbn [fst snd pred]. destruct j as [|j]; [lia|].
    erewrite andthen_return by (apply pure_return, LOW_MASK_ok; lia).
    destruct (read_destination_word _ h2 j P2 (destination_in j ltac:(lia))) as (d & Ed & Hd). erewrite andthen_return by exact Ed.
    destruct (read_source_word _ h2 i P2 Li) as (s' & Es' & Hs'). erewrite andthen_return by exact Es'.
    erewrite andthen_return by (apply pure_return, shift_left_ok; lia).
    edestruct (write_destination (64 * Z.of_nat (S j)) (e2 - n) h2 j) as (h3 & E3 & P3);
      [exact P2|apply destination_in; lia| | | | |exists (tt, h3); split; [exact E3|exact P3]]; try lia.
    word_now (64 * Z.of_nat (S j)).
Qed.

Lemma copy_up_ok i j so do : e1 = 64 * Z.of_nat i + 64 - so -> e2 = 64 * Z.of_nat j + 64 - do -> 0 <= do < so -> so < 64 -> 0 < n ->
  returns (copy_up (bs, S i) so (bd, S j) do n h) (fun '(_, h2) => progress (e2 - n) h2).
Proof.
  intros Ei Ej Hd Hs Hp. unfold copy_up, OBJECT_LENGTH. pose proof progress_start as P.
  destruct (read_source_word _ h i P (source_in i ltac:(lia))) as (s & Es & Ws).
  destruct (read_destination_word _ h j P (destination_in j ltac:(lia))) as (d & Ed & Wd). destruct (Z.leb_spec n (64 - so)).
  - erewrite andthen_return by (apply pure_return, ANY_MASK_ok; lia). erewrite andthen_return by exact Es.
    erewrite andthen_return by (apply pure_return, shift_left_ok; lia). erewrite andthen_return by exact Ed.
    edestruct (write_destination e2 (e2 - n) h j) as (h2 & E2 & P2);
      [exact P|apply destination_in; lia| | | | |exists (tt, h2); split; [exact E2|exact P2]]; try lia.
    word_now e2.
  - erewrite andthen_return by (apply pure_return, LOW_MASK_ok; lia).
    erewrite andthen_return with (a := if 64 - so + (so - do) <? 64 then Z.ldiff d (Z.ones (64 - so + (so - do))) else 0) (h' := h).
    2: { destruct (Z.ltb_spec (64 - so + (so - do)) 64); [|reflexivity]. erewrite andthen_return by exact Ed.
         erewrite andthen_return by (apply pure_return, LOW_MASK_ok; lia). reflexivity. }
    erewrite andthen_return by exact Es. erewrite andthen_return by (apply pure_return, LOW_MASK_ok; lia).
    erewrite andthen_return by (apply pure_return, shift_left_ok; lia). destruct i as [|i]; [lia|].
    unfold DEC_BIT_STRING_PTR. cbn [fst snd pred]. eapply andthen_returns.
    + apply (copy_up_loop_ok (loop_fuel (n - (64 - so))) (so - do) ltac:(lia)) with (x := e2); try lia; [exact P| |].
      * intros t Ht. destruct (Z.ltb_spec (64 - so + (so - do)) 64);
          bits; cases; try (rewrite target_in by lia); try (rewrite target_out by lia); bit_of e2.
      * unfold loop_fuel, OBJECT_LENGTH. assert (0 <= (n - (64 - so)) / 64) by (apply Z.div_pos; lia). lia.
    + intros [[[source destination] b] r] h3 (i' & j' & x & -> & -> & Hr & Ei' & Ej' & Hx & Hj & B & P3).
      apply copy_up_tail_ok with x; try lia; assumption.
Qed.

Lemma copied i j so do : e1 = 64 * Z.of_nat i + 64 - so -> e2 = 64 * Z.of_nat j + 64 - do -> 0 <= so < 64 -> 0 <= do < 64 ->
  returns (copy_bits (bs, S i) so (bd, S j) do n h) (fun '(_, h2) => progress (e2 - n) h2).
Proof.
  intros Ei Ej Hs Hd. unfold copy_bits. destruct (Z.eqb_spec n 0).
  { exists (tt, h). split; [reflexivity|]. replace (e2 - n) with e2 by lia. apply progress_start. }
  destruct (Z.eqb_spec so do) as [->|]; [now apply copy_aligned_ok; try lia|].
  destruct (Z.ltb_spec so do); [apply copy_down_ok|apply copy_up_ok]; lia.
Qed.

End Copy.

(** Copying [n] bits that end at bit [e1] of [bs] to those that end at bit [e2]
    of [bd]: they are the bits of the source before the copy, and no other bit
    of the heap changes. *)
Lemma copy_bits_ok h bs bd ws wd i j so do n : raw h bs ws -> raw h bd wd -> (i < length ws)%nat -> (j < length wd)%nat ->
  0 <= so < 64 -> 0 <= do < 64 -> 0 <= n <= 64 * Z.of_nat i - so -> n <= 64 * Z.of_nat j - do ->
  (bs = bd -> 64 * Z.of_nat i - so <= 64 * Z.of_nat j - do) ->
  returns (copy_bits (bs, S i) so (bd, S j) do n h) (fun '(_, h') =>
    changes (fun a => fst a = bd) h h' /\ (exists wd', raw h' bd wd' /\ length wd' = length wd) /\
    forall p, 0 <= p -> bit_at h' bd p =
      target h bs bd (64 * Z.of_nat i + 64 - so) (64 * Z.of_nat j + 64 - do) n p).
Proof.
  intros Rs Rd Li Lj Hs Hd Hn Hn2 Up.
  eapply returns_weaken;
    [apply (copied h bs bd ws wd (64 * Z.of_nat i + 64 - so) (64 * Z.of_nat j + 64 - do) n); auto; lia|].
  intros [_ h'] [C R Hi Lo]. split; [exact C|]. split; [exact R|]. intros p Hp.
  destruct (Z.lt_ge_cases p (64 * Z.of_nat j + 64 - do - n)); [|now apply Hi]. rewrite Lo by lia. unfold target.
  destruct (Z.leb_spec (64 * Z.of_nat j + 64 - do - n) p); [lia|reflexivity].
Qed.
