(* ===== verification/BitStringPrim.v ===== *)
(** * bitstr.c: the primitives on bit strings *)

From Stdlib Require Import ZArith List Bool Lia.
From S2P Require Import Prelude Object Bignum BignumBits BignumConv Integer Heap HeapPrim BitString.
Import ListNotations.

#[local] Open Scope Z_scope.
#[local] Open Scope procedure_scope.

(** ** Allocation

    The words of a non-marked vector are not initialized: [stale] gives what
    the free part of a heap holds. *)

Section Uninitialized.
Context (stale : heap -> nat -> Z).

Definition allocate_vector_nm (type length : Z) : operation object := fun h =>
  allocate type (MAKE_OBJECT TC_MANIFEST_NM_VECTOR length :: map (fun i => Immediate (to_ulong (stale h i))) (seq 0 (Z.to_nat length))) h.

Definition allocate_non_marked_vector (type length : Z) (gc_check_p : bool) : operation object :=
  ((if gc_check_p then Primitive_GC_If_Needed (1 + length) else ret tt) ;; allocate_vector_nm type length)%heap.

Definition allocate_bit_string (length : Z) : operation object :=
  (let total_pointers := 1 + to_ulong (length + (OBJECT_LENGTH - 1)) / OBJECT_LENGTH in
   result <- allocate_non_marked_vector TC_BIT_STRING total_pointers true ;;
   MEMORY_SET result BIT_STRING_LENGTH_OFFSET (Immediate length) ;;
   ret result)%heap.

Definition Prim_bit_string_allocate (length : object) : procedure object :=
  length <- arg_ulong_integer 1 length ;; run_operation (allocate_bit_string length).

Definition Prim_bit_string_p (object : object) : procedure Heap.object := PRIMITIVE_RETURN (BOOLEAN_TO_OBJECT (BIT_STRING_P object)).

(** The loop that stores [filler] in [n] words, from the one before [scanner] down. *)
Fixpoint fill_words (n : nat) (scanner : address) (filler : Z) : operation unit :=
  match n with
  | O => ret tt
  | S n => (SET_BIT_STRING_WORD scanner filler ;; fill_words n (DEC_BIT_STRING_PTR scanner) filler)%heap
  end.

Definition fill_bit_string (bit_string : object) (sense : bool) : operation unit :=
  (let filler := if sense then to_ulong (Z.lnot 0) else 0 in
   scanner <- BIT_STRING_HIGH_PTR bit_string ;;
   length <- BIT_STRING_LENGTH bit_string ;;
   fill_words (Z.to_nat (BIT_STRING_LENGTH_TO_GC_LENGTH length)) scanner filler)%heap.

Definition clear_bit_string (bit_string : object) : operation unit :=
  (scanner <- BIT_STRING_HIGH_PTR bit_string ;;
   length <- BIT_STRING_LENGTH bit_string ;;
   fill_words (Z.to_nat (BIT_STRING_LENGTH_TO_GC_LENGTH length)) scanner 0)%heap.

Definition Prim_make_bit_string (size initialization : object) : procedure object :=
  length <- arg_ulong_integer 1 size ;;
  result <- run_operation (allocate_bit_string length) ;;
  run_operation (fill_bit_string result (OBJECT_TO_BOOLEAN initialization)) ;;
  PRIMITIVE_RETURN result.

Definition Prim_bit_string_fill_x (bit_string initialization : object) : procedure object :=
  CHECK_ARG 1 BIT_STRING_P bit_string ;;
  run_operation (fill_bit_string bit_string (OBJECT_TO_BOOLEAN initialization)) ;;
  PRIMITIVE_RETURN UNSPECIFIC.

Definition Prim_bit_string_length (bit_string : object) : procedure object :=
  CHECK_ARG 1 BIT_STRING_P bit_string ;;
  length <- run_operation (BIT_STRING_LENGTH bit_string) ;;
  PRIMITIVE_RETURN (LONG_TO_UNSIGNED_FIXNUM length).

(** ** Single bits *)

Definition REF_INITIALIZATION (bit_string index : object) : procedure (address * Z) :=
  CHECK_ARG 1 BIT_STRING_P bit_string ;;
  index <- arg_nonnegative_integer 2 index ;;
  length <- run_operation (BIT_STRING_LENGTH bit_string) ;;
  unless (negb (index >=? length)) (error_bad_range_arg 2) ;;
  ptr <- run_operation (MEMORY_LOC bit_string (Z.to_nat (BIT_STRING_INDEX_TO_WORD index))) ;;
  mask <- run_operation (pure (shift_left 1 (Z.rem index OBJECT_LENGTH))) ;;
  PRIMITIVE_RETURN (ptr, mask).

Definition Prim_bit_string_ref (bit_string index : object) : procedure object :=
  '(ptr, mask) <- REF_INITIALIZATION bit_string index ;;
  w <- run_operation (BIT_STRING_WORD ptr) ;;
  PRIMITIVE_RETURN (BOOLEAN_TO_OBJECT (negb (Z.land w mask =? 0))).

Definition Prim_bit_string_clear_x (bit_string index : object) : procedure object :=
  '(ptr, mask) <- REF_INITIALIZATION bit_string index ;;
  w <- run_operation (BIT_STRING_WORD ptr) ;;
  if Z.land w mask =? 0 then PRIMITIVE_RETURN SHARP_F
  else run_operation (SET_BIT_STRING_WORD ptr (Z.ldiff w mask)) ;; PRIMITIVE_RETURN SHARP_T.

Definition Prim_bit_string_set_x (bit_string index : object) : procedure object :=
  '(ptr, mask) <- REF_INITIALIZATION bit_string index ;;
  w <- run_operation (BIT_STRING_WORD ptr) ;;
  if negb (Z.land w mask =? 0) then PRIMITIVE_RETURN SHARP_T
  else run_operation (SET_BIT_STRING_WORD ptr (Z.lor w mask)) ;; PRIMITIVE_RETURN SHARP_F.

(** ** Whole strings *)

Fixpoint ZERO_SECTION_P (i : nat) (scan : address) : operation bool :=
  match i with
  | O => ret true
  | S i => (w <- BIT_STRING_WORD scan ;; if negb (w =? 0) then ret false else ZERO_SECTION_P i (DEC_BIT_STRING_PTR scan))%heap
  end.

Definition bit_string_zero_p (bit_string : object) : operation bool :=
  (length <- BIT_STRING_LENGTH bit_string ;;
   let odd_bits := Z.rem length OBJECT_LENGTH in
   scan <- BIT_STRING_HIGH_PTR bit_string ;;
   let words := Z.to_nat (Z.quot length OBJECT_LENGTH) in
   if odd_bits =? 0 then ZERO_SECTION_P words scan
   else
     w <- BIT_STRING_WORD scan ;;
     mask <- pure (LOW_MASK odd_bits) ;;
     if negb (Z.land w mask =? 0) then ret false
     else ZERO_SECTION_P words (DEC_BIT_STRING_PTR scan))%heap.

Definition Prim_bit_string_zero_p (bit_string : object) : procedure object :=
  CHECK_ARG 1 BIT_STRING_P bit_string ;;
  b <- run_operation (bit_string_zero_p bit_string) ;;
  PRIMITIVE_RETURN (BOOLEAN_TO_OBJECT b).

Fixpoint EQUAL_SECTIONS_P (i : nat) (scan1 scan2 : address) : operation bool :=
  match i with
  | O => ret true
  | S i =>
      (w1 <- BIT_STRING_WORD scan1 ;;
       w2 <- BIT_STRING_WORD scan2 ;;
       if negb (w1 =? w2) then ret false else EQUAL_SECTIONS_P i (DEC_BIT_STRING_PTR scan1) (DEC_BIT_STRING_PTR scan2))%heap
  end.

Definition bit_string_equal_p (bit_string_1 bit_string_2 : object) : operation bool :=
  (length <- BIT_STRING_LENGTH bit_string_1 ;;
   length_2 <- BIT_STRING_LENGTH bit_string_2 ;;
   if negb (length =? length_2) then ret false
   else
     scan1 <- BIT_STRING_HIGH_PTR bit_string_1 ;;
     scan2 <- BIT_STRING_HIGH_PTR bit_string_2 ;;
     let odd_bits := Z.rem length OBJECT_LENGTH in
     let words := Z.to_nat (Z.quot length OBJECT_LENGTH) in
     if odd_bits =? 0 then EQUAL_SECTIONS_P words scan1 scan2
     else
       mask <- pure (LOW_MASK odd_bits) ;;
       w1 <- BIT_STRING_MSW bit_string_1 ;;
       w2 <- BIT_STRING_MSW bit_string_2 ;;
       if negb (Z.land w1 mask =? Z.land w2 mask) then ret false
       else EQUAL_SECTIONS_P words (DEC_BIT_STRING_PTR scan1) (DEC_BIT_STRING_PTR scan2))%heap.

Definition Prim_bit_string_equal_p (bit_string_1 bit_string_2 : object) : procedure object :=
  CHECK_ARG 1 BIT_STRING_P bit_string_1 ;;
  CHECK_ARG 2 BIT_STRING_P bit_string_2 ;;
  b <- run_operation (bit_string_equal_p bit_string_1 bit_string_2) ;;
  PRIMITIVE_RETURN (BOOLEAN_TO_OBJECT b).

(** The loop over the words of two strings. *)
Fixpoint bitwise_words (action : Z -> Z -> Z) (i : nat) (scan1 scan2 : address) : operation unit :=
  match i with
  | O => ret tt
  | S i =>
      (w1 <- BIT_STRING_WORD scan1 ;;
       w2 <- BIT_STRING_WORD scan2 ;;
       SET_BIT_STRING_WORD scan1 (action w1 w2) ;;
       bitwise_words action i (DEC_BIT_STRING_PTR scan1) (DEC_BIT_STRING_PTR scan2))%heap
  end.

Definition BITWISE_OP (action : Z -> Z -> Z) (bit_string_1 bit_string_2 : object) : procedure object :=
  CHECK_ARG 1 BIT_STRING_P bit_string_1 ;;
  CHECK_ARG 2 BIT_STRING_P bit_string_2 ;;
  length_1 <- run_operation (BIT_STRING_LENGTH bit_string_1) ;;
  length_2 <- run_operation (BIT_STRING_LENGTH bit_string_2) ;;
  unless (length_1 =? length_2) (error_bad_range_arg 1) ;;
  scan1 <- run_operation (BIT_STRING_HIGH_PTR bit_string_1) ;;
  scan2 <- run_operation (BIT_STRING_HIGH_PTR bit_string_2) ;;
  n <- run_operation (VECTOR_LENGTH bit_string_1) ;;
  run_operation (bitwise_words action (Z.to_nat (n - 1)) scan1 scan2) ;;
  PRIMITIVE_RETURN UNSPECIFIC.

Definition Prim_bit_string_move_x : object -> object -> procedure object := BITWISE_OP (fun _ w2 => w2).
Definition Prim_bit_string_movec_x : object -> object -> procedure object := BITWISE_OP (fun _ w2 => Z.lnot w2).
Definition Prim_bit_string_or_x : object -> object -> procedure object := BITWISE_OP Z.lor.
Definition Prim_bit_string_and_x : object -> object -> procedure object := BITWISE_OP Z.land.
Definition Prim_bit_string_andc_x : object -> object -> procedure object := BITWISE_OP Z.ldiff.
Definition Prim_bit_string_xor_x : object -> object -> procedure object := BITWISE_OP Z.lxor.

(** ** Substrings *)

(** The address of the word that holds the bit before [end_index], and where
    that bit is in it. *)
Definition end_offset (end_index : Z) : Z :=
  let end_mod := Z.rem end_index OBJECT_LENGTH in if end_mod =? 0 then 0 else OBJECT_LENGTH - end_mod.

Definition end_location (bit_string : object) (end_index : Z) : operation address :=
  let word := BIT_STRING_INDEX_TO_WORD (to_long (end_index - 1)) in
  if word <? 0 then fun _ => Wild else MEMORY_LOC bit_string (Z.to_nat word).

Definition Prim_bit_substring_move_right_x (bit_string_1 start1 end1 bit_string_2 start2 : object) : procedure object :=
  CHECK_ARG 1 BIT_STRING_P bit_string_1 ;;
  start1 <- arg_nonnegative_integer 2 start1 ;;
  end1 <- arg_nonnegative_integer 3 end1 ;;
  CHECK_ARG 4 BIT_STRING_P bit_string_2 ;;
  start2 <- arg_nonnegative_integer 5 start2 ;;
  let nbits := end1 - start1 in
  let end2 := to_long (start2 + nbits) in
  unless (negb ((start1 <? 0) || (start1 >? end1))) (error_bad_range_arg 2) ;;
  length_1 <- run_operation (BIT_STRING_LENGTH bit_string_1) ;;
  unless (negb (end1 >? length_1)) (error_bad_range_arg 3) ;;
  length_2 <- run_operation (BIT_STRING_LENGTH bit_string_2) ;;
  unless (negb ((start2 <? 0) || (end2 >? length_2))) (error_bad_range_arg 5) ;;
  source <- run_operation (end_location bit_string_1 end1) ;;
  destination <- run_operation (end_location bit_string_2 end2) ;;
  run_operation (copy_bits source (end_offset end1) destination (end_offset end2) nbits) ;;
  PRIMITIVE_RETURN UNSPECIFIC.

(** ** Conversions to and from nonnegative integers *)

Fixpoint significant_bits_loop (fuel : nat) (number limit nbits : Z) : outcome Z :=
  if number <=? limit then Return nbits
  else
    match fuel with
    | O => OutOfFuel
    | S fuel => significant_bits_loop fuel number (to_ulong (limit * 2 + 1)) (nbits + 1)
    end.

Definition ulong_significant_bits (number : Z) : outcome Z := significant_bits_loop 63 number 1 1.

Definition zero_to_bit_string (length : Z) : operation object :=
  (result <- allocate_bit_string length ;; clear_bit_string result ;; ret result)%heap.

Definition ulong_to_bit_string (length number : Z) : procedure object :=
  if number =? 0 then run_operation (zero_to_bit_string length)
  else
    significant <- run_operation (pure (ulong_significant_bits number)) ;;
    unless (negb (length <? significant)) (error_bad_range_arg 2) ;;
    result <- run_operation (zero_to_bit_string length) ;;
    lsw <- run_operation (BIT_STRING_LSW_PTR result) ;;
    run_operation (SET_BIT_STRING_WORD lsw number) ;;
    PRIMITIVE_RETURN result.

(** The bytes of words, least significant first: the address of a byte is a
    block and the number of the byte in it. *)
Definition byte_pointer (a : address) : address := (fst a, (8 * snd a)%nat).

Definition load_byte (p : address) : operation Z :=
  (w <- load_word (fst p, (snd p / 8)%nat) ;; ret (Z.land (Z.shiftr w (8 * Z.of_nat (snd p mod 8))) 255))%heap.

Definition store_byte (p : address) (byte : Z) : operation unit :=
  (let shift := 8 * Z.of_nat (snd p mod 8) in
   w <- load_word (fst p, (snd p / 8)%nat) ;;
   store_word (fst p, (snd p / 8)%nat) (Z.lor (Z.ldiff w (Z.shiftl 255 shift)) (Z.shiftl (Z.land byte 255) shift)))%heap.

(** [btbs_consumer], on each digit of the stream. *)
Fixpoint btbs_consumer (result_ptr : address) (digits : list Z) : operation unit :=
  match digits with
  | [] => ret tt
  | digit :: digits => (store_byte result_ptr digit ;; btbs_consumer (INC_BIT_STRING_PTR result_ptr) digits)%heap
  end.

Definition bignum_to_bit_string (length : Z) (bignum : Bignum.bignum) : procedure object :=
  match bignum_test bignum with
  | bignum_comparison_equal => run_operation (zero_to_bit_string length)
  | bignum_comparison_less => error_bad_range_arg 2
  | bignum_comparison_greater =>
      fits <- run_operation (pure (bignum_fits_in_word_p bignum length false)) ;;
      unless fits (error_bad_range_arg 2) ;;
      result <- run_operation (zero_to_bit_string length) ;;
      low <- run_operation (BIT_STRING_LOW_PTR result) ;;
      digits <- run_operation (pure (bignum_to_digit_stream bignum 256)) ;;
      run_operation (btbs_consumer (byte_pointer low) digits) ;;
      PRIMITIVE_RETURN result
  end.

Definition FIXNUM_TO_ULONG_P (fixnum : Z) : bool := Z.land (Object.OBJECT_DATUM fixnum) SIGN_MASK =? 0.

Definition Prim_unsigned_to_bit_string (length object : object) : procedure Heap.object :=
  length <- arg_ulong_integer 1 length ;;
  n <- run_operation (integer_argument object) ;;
  match n with
  | Word w =>
      if Object.FIXNUM_P w then
        if negb (FIXNUM_TO_ULONG_P w) then error_bad_range_arg 2
        else ulong_to_bit_string length (Object.FIXNUM_TO_ULONG w)
      else error_wrong_type_arg 2
  | Big b => bignum_to_bit_string length b
  | Integer.Pair _ _ => error_wrong_type_arg 2
  end.

(** The digits that [bstb_producer] reads, each from the byte before the pointer. *)
Fixpoint bstb_producer (n : nat) (source_ptr : address) (mask : Z) : operation (list Z) :=
  match n with
  | O => ret []
  | S n =>
      (if Nat.eqb (snd source_ptr) 0 then fun _ => Wild
       else
         byte <- load_byte (DEC_BIT_STRING_PTR source_ptr) ;;
         rest <- bstb_producer n (DEC_BIT_STRING_PTR source_ptr) 255 ;;
         ret (Z.land mask byte :: rest))%heap
  end.

Definition bit_string_to_bignum (nbits : Z) (bitstr : object) : operation Bignum.bignum :=
  (let ndigits := (nbits + 7) / 8 in
   mask <- pure (LOW_MASK ((nbits - 1) mod 8 + 1)) ;;
   source_ptr <- MEMORY_LOC bitstr (Z.to_nat (BIT_STRING_INDEX_TO_WORD (nbits - 1))) ;;
   let skip := if negb (ndigits =? 0) then 8 - ((ndigits - 1) mod 8 + 1) else 0 in
   digits <- bstb_producer (Z.to_nat ndigits) (fst source_ptr, (8 * snd source_ptr - Z.to_nat skip)%nat) mask ;;
   pure (digit_stream_to_bignum list_producer (Z.to_nat ndigits) digits 256 false))%heap.

Fixpoint significant_word (nwords : nat) (scan : address) (word : Z) : operation (nat * Z) :=
  match nwords with
  | O => ret (O, word)
  | S n =>
      (if negb (word =? 0) then ret (nwords, word)
       else
         word <- BIT_STRING_WORD scan ;;
         significant_word n (DEC_BIT_STRING_PTR scan) word)%heap
  end.

(** The result is an integer object by value. *)
Definition Prim_bit_string_to_unsigned (bit_string : object) : procedure scheme_object :=
  CHECK_ARG 1 BIT_STRING_P bit_string ;;
  scan <- run_operation (BIT_STRING_HIGH_PTR bit_string) ;;
  length <- run_operation (BIT_STRING_LENGTH bit_string) ;;
  let nbits := Z.rem length OBJECT_LENGTH in
  word <- run_operation (BIT_STRING_WORD scan) ;;
  mask <- run_operation (if nbits >? 0 then pure (LOW_MASK nbits) else ret (to_ulong (Z.lnot 0))) ;;
  n <- run_operation (VECTOR_LENGTH bit_string) ;;
  '(nwords, word) <- run_operation (significant_word (Z.to_nat (n - 1)) (DEC_BIT_STRING_PTR scan) (Z.land word mask)) ;;
  if Nat.eqb nwords 0 then PRIMITIVE_RETURN (Word (Object.LONG_TO_UNSIGNED_FIXNUM 0))
  else
    significant <- run_operation (pure (ulong_significant_bits word)) ;;
    let nbits := (Z.of_nat nwords - 1) * OBJECT_LENGTH + significant in
    if nbits <=? FIXNUM_LENGTH then PRIMITIVE_RETURN (Word (Object.LONG_TO_UNSIGNED_FIXNUM word))
    else b <- run_operation (bit_string_to_bignum nbits bit_string) ;; PRIMITIVE_RETURN (Big b).

(** ** Search *)

Fixpoint FIND_NEXT_SET_LOOP (fuel : nat) (scan : address) (bit mask : Z) : operation Z :=
  match fuel with
  | O => fun _ => OutOfFuel
  | S fuel =>
      (w <- BIT_STRING_WORD scan ;;
       if negb (Z.land w mask =? 0) then ret bit
       else FIND_NEXT_SET_LOOP fuel scan (bit + 1) (to_ulong (Z.shiftl mask 1)))%heap
  end.

(** [win:], when the word is not zero where the mask is set. *)
Definition find_set_bit (scan : address) (word init_bit : Z) : operation (option Z) :=
  (mask <- pure (shift_left 1 init_bit) ;;
   bit <- FIND_NEXT_SET_LOOP 64 scan init_bit mask ;;
   ret (Some (BIT_STRING_INDEX_PAIR_TO_INDEX word bit)))%heap.

(** The words after the first; [n] of them come before the last. *)
Fixpoint find_next_words (n : nat) (scan : address) (word end_bit : Z) : operation (option Z) :=
  let scan := INC_BIT_STRING_PTR scan in
  match n with
  | O =>
      (w <- BIT_STRING_WORD scan ;;
       mask <- (if end_bit =? OBJECT_LENGTH then ret (to_ulong (Z.lnot 0)) else pure (LOW_MASK end_bit)) ;;
       if negb (Z.land w mask =? 0) then find_set_bit scan word 0 else ret None)%heap
  | S n =>
      (w <- BIT_STRING_WORD scan ;;
       if negb (w =? 0) then find_set_bit scan word 0 else find_next_words n scan (word + 1) end_bit)%heap
  end.

Definition find_next_set_bit (bit_string : object) (start end_index : Z) : operation (option Z) :=
  (let word := BIT_STRING_INDEX_TO_WORD start in
   let bit := Z.rem start OBJECT_LENGTH in
   let end_word := BIT_STRING_INDEX_TO_WORD (end_index - 1) in
   let end_bit := Z.rem (end_index - 1) OBJECT_LENGTH + 1 in
   scan <- MEMORY_LOC bit_string (Z.to_nat word) ;;
   w <- BIT_STRING_WORD scan ;;
   if word =? end_word then
     win <- (if (end_bit - bit =? OBJECT_LENGTH) && negb (w =? 0) then ret true
             else mask <- pure (ANY_MASK (end_bit - bit) bit) ;; ret (negb (Z.land w mask =? 0))) ;;
     if win then find_set_bit scan word bit else ret None
   else
     mask <- (if bit =? 0 then ret (to_ulong (Z.lnot 0)) else pure (ANY_MASK (OBJECT_LENGTH - bit) bit)) ;;
     if negb (Z.land w mask =? 0) then find_set_bit scan word bit
     else find_next_words (Z.to_nat (end_word - word - 1)) scan (word + 1) end_bit)%heap.

Definition Prim_bitstr_find_next_set_bit (bit_string start end_index : object) : procedure object :=
  CHECK_ARG 1 BIT_STRING_P bit_string ;;
  start <- arg_nonnegative_integer 2 start ;;
  end_index <- arg_nonnegative_integer 3 end_index ;;
  length <- run_operation (BIT_STRING_LENGTH bit_string) ;;
  unless (negb (end_index >? length)) (error_bad_range_arg 3) ;;
  unless (negb (start >? end_index)) (error_bad_range_arg 2) ;;
  if start =? end_index then PRIMITIVE_RETURN SHARP_F
  else
    r <- run_operation (find_next_set_bit bit_string start end_index) ;;
    PRIMITIVE_RETURN (match r with Some i => LONG_TO_UNSIGNED_FIXNUM i | None => SHARP_F end).

End Uninitialized.

(** ** Bit strings *)

Definition bit_string_header (n : Z) : Z := Object.MAKE_OBJECT TC_MANIFEST_NM_VECTOR (n + 1).

(** Block [b] is a bit string of [length] bits. *)
Record bit_string (h : heap) (b : nat) (length : Z) (ws : list Z) : Prop := {
  bs_raw : raw h b (bit_string_header (zlength ws) :: length :: ws);
  bs_words : zlength ws = (length + 63) / 64;
  bs_length : 0 <= length < 2 ^ 57
}.

(** Bit [k] of the string in block [b]. *)
Definition bit (h : heap) (b : nat) (k : Z) : bool := bit_at h b (128 + k).

Section Strings.
Context {h : heap} {b : nat} {length : Z} {ws : list Z} (B : bit_string h b length ws).

Lemma header_datum n : 0 <= n < 2 ^ 58 -> Object.OBJECT_DATUM (Object.MAKE_OBJECT TC_MANIFEST_NM_VECTOR n) = n.
Proof. intros H. rewrite OBJECT_DATUM_mod, MAKE_OBJECT_sum by (unfold TC_MANIFEST_NM_VECTOR; lia). rewrite (Z.mul_comm (2 ^ 58)), Z.mod_add, Z.mod_small by lia. reflexivity. Qed.

Lemma bit_string_words : 0 <= zlength ws < 2 ^ 52 /\ 64 * zlength ws - 63 <= length + 0 <= 64 * zlength ws.
Proof. destruct B as [_ E L]. rewrite E. assert (0 <= (length + 63) / 64) by (apply Z.div_pos; lia). split; dlia. Qed.

Lemma bit_string_length_ok t : BIT_STRING_LENGTH (Pointer t b) h = Return (length, h).
Proof.
  destruct B as [R E L]. unfold BIT_STRING_LENGTH, MEMORY_LOC. erewrite andthen_return by reflexivity.
  destruct (raw_content _ _ _ 1 length R eq_refl) as [C _]. unfold load_word. rewrite andthen_assoc.
  run load_ok; [|exact C]. erewrite andthen_return by reflexivity. unfold ret. rewrite to_long_small by lia. reflexivity.
Qed.

Lemma bit_string_vector_length t : VECTOR_LENGTH (Pointer t b) h = Return (zlength ws + 1, h).
Proof.
  destruct B as [R E L]. pose proof bit_string_words. unfold VECTOR_LENGTH. destruct (raw_content _ _ _ 0 _ R eq_refl) as [C _].
  run MEMORY_REF_ok; [|exact C]. unfold pure. cbn [OBJECT_DATUM bind]. unfold bit_string_header. rewrite header_datum by lia. reflexivity.
Qed.

Lemma bit_string_high_ptr t : BIT_STRING_HIGH_PTR (Pointer t b) h = Return ((b, S (S (List.length ws))), h).
Proof. unfold BIT_STRING_HIGH_PTR. erewrite andthen_return by apply bit_string_vector_length. unfold MEMORY_LOC, ret. repeat f_equal. lia. Qed.

End Strings.

Lemma word_ext v w : ulong_p v -> ulong_p w -> (forall t, 0 <= t < 64 -> Z.testbit v t = Z.testbit w t) -> v = w.
Proof.
  intros Hv Hw E. apply Z.bits_inj'. intros t Ht. destruct (Z.lt_ge_cases t 64); [apply E; lia|]. now rewrite !bit_high.
Qed.

(** A block is still a bit string when its first two words are the same. *)
Lemma bit_string_kept {h b length ws} (B : bit_string h b length ws) h' ws' : raw h' b ws' -> List.length ws' = S (S (List.length ws)) ->
  (forall p, 0 <= p < 128 -> bit_at h' b p = bit_at h b p) -> exists ws2, bit_string h' b length ws2 /\ List.length ws2 = List.length ws.
Proof.
  intros R' L' E. destruct ws' as [|w0 [|w1 ws2]]; try discriminate. exists ws2. assert (L2 : List.length ws2 = List.length ws) by (cbn in L'; lia).
  split; [|exact L2]. destruct B as [R W L].
  assert (K : forall i v w, (i < 2)%nat -> nth_error (w0 :: w1 :: ws2) i = Some v ->
    nth_error (bit_string_header (zlength ws) :: length :: ws) i = Some w -> v = w).
  { intros i v w Hi Ev Ew. destruct (raw_content _ _ _ _ _ R' Ev) as [Cv Uv]. destruct (raw_content _ _ _ _ _ R Ew) as [Cw Uw].
    apply word_ext; [exact Uv|exact Uw|]. intros t Ht. rewrite <- (bit_at_word h' b i v t Cv Ht), <- (bit_at_word h b i w t Cw Ht). apply E. lia. }
  assert (w0 = bit_string_header (zlength ws)) by (apply (K 0%nat); auto; lia). assert (w1 = length) by (apply (K 1%nat); auto; lia). subst.
  constructor; rewrite ?L2; assumption.
Qed.

Lemma arg_fixnum n z h : fixnum_range z -> arg_nonnegative_integer n (Immediate (Object.LONG_TO_FIXNUM z)) h = decoded (0 <=? z) n z h.
Proof.
  intros R. pose proof R as R'. unfold fixnum_range, SMALLEST_FIXNUM, BIGGEST_FIXNUM in R'. rewrite (arg_nonnegative_integer_ok n h _ z).
  - destruct (Z.ltb_spec z (2 ^ 63)); [now rewrite andb_true_r|lia].
  - now apply fixnum_denotes.
  - now apply fixnum_moderate.
  - lia.
Qed.

Lemma end_offset_ok e : 0 < e -> end_offset e = 64 * ((e - 1) / 64) + 64 - e /\ 0 <= end_offset e < 64.
Proof. intros H. unfold end_offset, OBJECT_LENGTH. rewrite Z.rem_mod_nonneg by lia. destruct (Z.eqb_spec (e mod 64) 0); dlia. Qed.

Lemma end_location_ok t b e h : 0 <= e < 2 ^ 58 -> end_location (Pointer t b) e h = Return ((b, S (2 + Z.to_nat ((e - 1) / 64 + if e =? 0 then 1 else 0))), h).
Proof.
  intros H. unfold end_location, BIT_STRING_INDEX_TO_WORD, BIT_STRING_FIRST_WORD, OBJECT_LENGTH. rewrite to_long_small by lia.
  destruct (Z.eqb_spec e 0) as [->|]; [reflexivity|]. rewrite Z.quot_div_nonneg by lia. assert (0 <= (e - 1) / 64) by (apply Z.div_pos; lia).
  destruct (Z.ltb_spec (Z.of_nat 2 + 1 + (e - 1) / 64) 0); [lia|]. unfold MEMORY_LOC, ret. repeat f_equal. lia.
Qed.

Definition fix_object (z : Z) : object := Immediate (Object.LONG_TO_FIXNUM z).

(** The argument that is out of range, in the order of the checks. *)
Definition move_right_error (start1 end1 length1 start2 length2 : Z) : option Z :=
  if start1 <? 0 then Some 2 else if end1 <? 0 then Some 3 else if start2 <? 0 then Some 5
  else if end1 <? start1 then Some 2 else if length1 <? end1 then Some 3
  else if length2 <? start2 + (end1 - start1) then Some 5 else None.

Lemma copy_substring {h b1 l1 ws1 b2 l2 ws2} start1 end1 start2 :
  bit_string h b1 l1 ws1 -> bit_string h b2 l2 ws2 -> 0 <= start1 <= end1 -> end1 <= l1 -> 0 <= start2 -> start2 + (end1 - start1) <= l2 ->
  (b1 = b2 -> start1 <= start2) ->
  returns ((source <- end_location (Pointer TC_BIT_STRING b1) end1 ;;
            destination <- end_location (Pointer TC_BIT_STRING b2) (start2 + (end1 - start1)) ;;
            copy_bits source (end_offset end1) destination (end_offset (start2 + (end1 - start1))) (end1 - start1))%heap h) (fun '(_, h') =>
    changes (fun a => fst a = b2) h h' /\ (exists ws2', bit_string h' b2 l2 ws2' /\ List.length ws2' = List.length ws2) /\
    forall k, 0 <= k -> bit h' b2 k =
      if (start2 <=? k) && (k <? start2 + (end1 - start1)) then bit h b1 (start1 + (k - start2)) else bit h b2 k).
Proof.
  intros B1 B2 H1 H2 H3 H4 Up. pose proof (bs_length _ _ _ _ B1). pose proof (bs_length _ _ _ _ B2).
  pose proof (bit_string_words B1). pose proof (bit_string_words B2). set (n := end1 - start1) in *.
  rewrite (andthen_return _ _ _ _ _ (end_location_ok TC_BIT_STRING b1 end1 h ltac:(lia))).
  rewrite (andthen_return _ _ _ _ _ (end_location_ok TC_BIT_STRING b2 (start2 + n) h ltac:(lia))). destruct (Z.eq_dec n 0) as [E|Ne].
  { unfold copy_bits. rewrite E. cbn [Z.eqb]. exists (tt, h). split; [reflexivity|]. split; [apply changes_refl|]. split; [now exists ws2|].
    intros k Hk. destruct (Z.leb_spec start2 k), (Z.ltb_spec k (start2 + 0)); try lia; reflexivity. }
  destruct (Z.eqb_spec end1 0); [lia|]. destruct (Z.eqb_spec (start2 + n) 0); [lia|]. rewrite !Z.add_0_r.
  destruct (end_offset_ok end1 ltac:(lia)) as [E1 R1]. destruct (end_offset_ok (start2 + n) ltac:(lia)) as [E2 R2].
  assert (0 <= (end1 - 1) / 64) by (apply Z.div_pos; lia). assert (0 <= (start2 + n - 1) / 64) by (apply Z.div_pos; lia).
  eapply returns_weaken.
  - apply (copy_bits_ok h b1 b2 _ _ (2 + Z.to_nat ((end1 - 1) / 64)) (2 + Z.to_nat ((start2 + n - 1) / 64)) _ _ n (bs_raw _ _ _ _ B1) (bs_raw _ _ _ _ B2));
      cbn [List.length]; try lia.
  - intros [_ h'] (C & (ws' & R' & L') & Bits). split; [exact C|].
    replace (64 * Z.of_nat (2 + Z.to_nat ((end1 - 1) / 64)) + 64 - end_offset end1) with (128 + end1) in Bits by lia.
    replace (64 * Z.of_nat (2 + Z.to_nat ((start2 + n - 1) / 64)) + 64 - end_offset (start2 + n)) with (128 + (start2 + n)) in Bits by lia.
    split.
    + apply (bit_string_kept B2 h' ws' R' L'). intros p Hp. rewrite Bits by lia. unfold target. destruct (Z.leb_spec (128 + (start2 + n) - n) p); [lia|reflexivity].
    + intros k Hk. unfold bit. rewrite Bits by lia. unfold target.
      replace (128 + (start2 + n) - n <=? 128 + k) with (start2 <=? k) by (apply eq_true_iff_eq; rewrite !Z.leb_le; lia).
      replace (128 + k <? 128 + (start2 + n)) with (k <? start2 + n) by (apply eq_true_iff_eq; rewrite !Z.ltb_lt; lia).
      destruct ((start2 <=? k) && (k <? start2 + n)); [|reflexivity]. f_equal. lia.
Qed.

Lemma Prim_bit_substring_move_right_x_ok {h b1 l1 ws1 b2 l2 ws2} start1 end1 start2 :
  bit_string h b1 l1 ws1 -> bit_string h b2 l2 ws2 -> fixnum_range start1 -> fixnum_range end1 -> fixnum_range start2 ->
  (b1 = b2 -> start1 <= start2) ->
  let result := Prim_bit_substring_move_right_x (Pointer TC_BIT_STRING b1) (fix_object start1) (fix_object end1)
                  (Pointer TC_BIT_STRING b2) (fix_object start2) h in
  match move_right_error start1 end1 l1 start2 l2 with
  | Some n => result = Return (inr (bad_range_arg n), h)
  | None => returns result (fun '(r, h') => r = inl UNSPECIFIC /\
      changes (fun a => fst a = b2) h h' /\ (exists ws2', bit_string h' b2 l2 ws2' /\ List.length ws2' = List.length ws2) /\
      forall k, 0 <= k -> bit h' b2 k =
        if (start2 <=? k) && (k <? start2 + (end1 - start1)) then bit h b1 (start1 + (k - start2)) else bit h b2 k)
  end.
Proof.
  intros B1 B2 F1 F2 F3 Up. unfold Prim_bit_substring_move_right_x, move_right_error.
  rewrite CHECK_ARG_passes by reflexivity.
  destruct (Z.ltb_spec start1 0); [apply (decoded_false 2 start1 h (0 <=? start1)); [now apply arg_fixnum|now apply Z.leb_gt]|].
  rewrite (decoded_true 2 start1 h (0 <=? start1) _ _ (arg_fixnum 2 start1 h F1)) by now apply Z.leb_le.
  destruct (Z.ltb_spec end1 0); [apply (decoded_false 3 end1 h (0 <=? end1)); [now apply arg_fixnum|now apply Z.leb_gt]|].
  rewrite (decoded_true 3 end1 h (0 <=? end1) _ _ (arg_fixnum 3 end1 h F2)) by now apply Z.leb_le.
  rewrite CHECK_ARG_passes by reflexivity.
  destruct (Z.ltb_spec start2 0); [apply (decoded_false 5 start2 h (0 <=? start2)); [now apply arg_fixnum|now apply Z.leb_gt]|].
  rewrite (decoded_true 5 start2 h (0 <=? start2) _ _ (arg_fixnum 5 start2 h F3)) by now apply Z.leb_le.
  unfold fixnum_range, SMALLEST_FIXNUM, BIGGEST_FIXNUM in *. rewrite to_long_small by lia.
  rewrite !Z.gtb_ltb. destruct (Z.ltb_spec start1 0); [lia|]. destruct (Z.ltb_spec start2 0); [lia|]. cbn [orb].
  destruct (Z.ltb_spec end1 start1); cbn [negb]; [apply unless_false|]. rewrite unless_true.
  rewrite (pthen_return _ _ _ _ _ (run_operation_ok _ _ _ _ (bit_string_length_ok B1 _))). rewrite Z.gtb_ltb.
  destruct (Z.ltb_spec l1 end1); cbn [negb]; [apply unless_false|]. rewrite unless_true.
  rewrite (pthen_return _ _ _ _ _ (run_operation_ok _ _ _ _ (bit_string_length_ok B2 _))). rewrite Z.gtb_ltb.
  destruct (Z.ltb_spec l2 (start2 + (end1 - start1))); cbn [negb]; [apply unless_false|]. rewrite unless_true.
  destruct (copy_substring start1 end1 start2 B1 B2) as ([[] h'] & E & K); try assumption; try lia.
  exists (inl UNSPECIFIC, h'). split; [|now split]. revert E. unfold pthen, andthen, run_operation, PRIMITIVE_RETURN.
  destruct (end_location (Pointer TC_BIT_STRING b1) end1 h) as [[source h1]| | |]; cbn [bind]; try discriminate.
  destruct (end_location (Pointer TC_BIT_STRING b2) (start2 + (end1 - start1)) h1) as [[destination h2]| | |]; cbn [bind]; try discriminate.
  now intros ->.
Qed.

(** ** Loops over the words *)

Lemma other_bits {h h' b c p} : changes (fun a => fst a = b) h h' -> c <> b -> bit_at h' c p = bit_at h c p.
Proof. intros C Ne. apply bit_at_same, (same_content _ _ _ C). exact Ne. Qed.

Lemma other_raw {h h' b c ws} : changes (fun a => fst a = b) h h' -> c <> b -> raw h c ws -> raw h' c ws.
Proof. intros C Ne [E F]. split; [|exact F]. rewrite (changes_block _ _ _ _ C); [exact E|]. intros i. exact Ne. Qed.

Lemma bitwise_words_ok action g b1 b2 lo n :
  (forall w1 w2 t, 0 <= t -> Z.testbit (action w1 w2) t = g (Z.testbit w1 t) (Z.testbit w2 t)) ->
  forall h ws1 ws2, raw h b1 ws1 -> raw h b2 ws2 -> (lo + n <= List.length ws1)%nat -> (lo + n <= List.length ws2)%nat ->
  returns (bitwise_words action n (b1, (lo + n)%nat) (b2, (lo + n)%nat) h) (fun '(_, h') =>
    changes (fun a => fst a = b1) h h' /\ (exists ws', raw h' b1 ws' /\ List.length ws' = List.length ws1) /\
    forall p, 0 <= p -> bit_at h' b1 p =
      if (64 * Z.of_nat lo <=? p) && (p <? 64 * Z.of_nat (lo + n)) then g (bit_at h b1 p) (bit_at h b2 p) else bit_at h b1 p).
Proof.
  intros G. induction n as [|n IH]; intros h ws1 ws2 R1 R2 L1 L2; cbn [bitwise_words].
  { exists (tt, h). split; [reflexivity|]. split; [apply changes_refl|]. split; [now exists ws1|]. intros p Hp.
    destruct (Z.leb_spec (64 * Z.of_nat lo) p), (Z.ltb_spec p (64 * Z.of_nat (lo + 0))); try lia; reflexivity. }
  rewrite Nat.add_succ_r in *.
  destruct (raw_word h b1 ws1 (lo + n) R1 ltac:(lia)) as (w1 & E1 & _ & V1). destruct (raw_word h b2 ws2 (lo + n) R2 ltac:(lia)) as (w2 & E2 & _ & V2).
  erewrite andthen_return by exact E1. erewrite andthen_return by exact E2.
  destruct (stored_bits h b1 ws1 (lo + n) (action w1 w2) R1 ltac:(lia)) as (h1 & E3 & C1 & (ws1' & R1' & L1') & S1).
  erewrite andthen_return by exact E3. unfold DEC_BIT_STRING_PTR. cbn [fst snd pred].
  assert (R2' : exists ws2', raw h1 b2 ws2' /\ (lo + n <= List.length ws2')%nat).
  { destruct (Nat.eq_dec b2 b1) as [->|Ne]; [exists ws1'; split; [exact R1'|lia]|exists ws2; split; [now apply (other_raw C1)|lia]]. }
  destruct R2' as (ws2' & R2' & L2').
  eapply returns_weaken; [apply (IH h1 ws1' ws2' R1' R2'); lia|]. intros [_ h'] (C2 & (ws' & R' & L') & S2).
  split; [now apply changes_trans with h1|]. split; [exists ws'; split; [exact R'|congruence]|]. intros p Hp. rewrite S2 by exact Hp.
  assert (O : p < 64 * Z.of_nat (lo + n) -> bit_at h1 b2 p = bit_at h b2 p).
  { intros K. destruct (Nat.eq_dec b2 b1) as [->|Ne]; [|now apply (other_bits C1)]. rewrite S1 by exact Hp.
    destruct (Z.leb_spec (64 * Z.of_nat (lo + n)) p); [lia|reflexivity]. }
  rewrite S1 by exact Hp. set (t := p - 64 * Z.of_nat (lo + n)).
  destruct (Z.leb_spec (64 * Z.of_nat lo) p), (Z.ltb_spec p (64 * Z.of_nat (lo + n))), (Z.leb_spec (64 * Z.of_nat (lo + n)) p),
    (Z.ltb_spec p (64 * Z.of_nat (lo + n) + 64)), (Z.ltb_spec p (64 * Z.of_nat (S (lo + n)))); try lia; cbn [andb]; try reflexivity.
  - now rewrite O.
  - rewrite G by lia. rewrite V1, V2 by lia. unfold t. now replace (64 * Z.of_nat (lo + n) + (p - 64 * Z.of_nat (lo + n))) with p by lia.
Qed.

Lemma fill_words_ok b lo n filler (sense : bool) : (forall t, 0 <= t < 64 -> Z.testbit filler t = sense) ->
  forall h ws, raw h b ws -> (lo + n <= List.length ws)%nat ->
  returns (fill_words n (b, (lo + n)%nat) filler h) (fun '(_, h') =>
    changes (fun a => fst a = b) h h' /\ (exists ws', raw h' b ws' /\ List.length ws' = List.length ws) /\
    forall p, 0 <= p -> bit_at h' b p = if (64 * Z.of_nat lo <=? p) && (p <? 64 * Z.of_nat (lo + n)) then sense else bit_at h b p).
Proof.
  intros G. induction n as [|n IH]; intros h ws R L; cbn [fill_words].
  { exists (tt, h). split; [reflexivity|]. split; [apply changes_refl|]. split; [now exists ws|]. intros p Hp.
    destruct (Z.leb_spec (64 * Z.of_nat lo) p), (Z.ltb_spec p (64 * Z.of_nat (lo + 0))); try lia; reflexivity. }
  rewrite Nat.add_succ_r in *. destruct (stored_bits h b ws (lo + n) filler R ltac:(lia)) as (h1 & E & C1 & (ws1 & R1 & L1) & S1).
  erewrite andthen_return by exact E. unfold DEC_BIT_STRING_PTR. cbn [fst snd pred].
  eapply returns_weaken; [apply (IH h1 ws1 R1); lia|]. intros [_ h'] (C2 & (ws' & R' & L') & S2).
  split; [now apply changes_trans with h1|]. split; [exists ws'; split; [exact R'|congruence]|]. intros p Hp. rewrite S2, S1 by exact Hp.
  destruct (Z.leb_spec (64 * Z.of_nat lo) p), (Z.ltb_spec p (64 * Z.of_nat (lo + n))), (Z.leb_spec (64 * Z.of_nat (lo + n)) p),
    (Z.ltb_spec p (64 * Z.of_nat (lo + n) + 64)), (Z.ltb_spec p (64 * Z.of_nat (S (lo + n)))); try lia; cbn [andb]; try reflexivity.
  rewrite G by lia. reflexivity.
Qed.

(** The bits from word [lo] on, in [n] words, are the same. *)
Lemma EQUAL_SECTIONS_P_ok h b1 b2 ws1 ws2 lo n : raw h b1 ws1 -> raw h b2 ws2 ->
  (lo + n <= List.length ws1)%nat -> (lo + n <= List.length ws2)%nat ->
  exists r, EQUAL_SECTIONS_P n (b1, (lo + n)%nat) (b2, (lo + n)%nat) h = Return (r, h) /\
    (r = true <-> forall p, 64 * Z.of_nat lo <= p < 64 * Z.of_nat (lo + n) -> bit_at h b1 p = bit_at h b2 p).
Proof.
  intros R1 R2. induction n as [|n IH]; intros L1 L2; cbn [EQUAL_SECTIONS_P].
  { exists true. split; [reflexivity|]. split; [|reflexivity]. intros _ p Hp. lia. }
  rewrite Nat.add_succ_r in *.
  destruct (raw_word h b1 ws1 (lo + n) R1 ltac:(lia)) as (w1 & E1 & U1 & V1). destruct (raw_word h b2 ws2 (lo + n) R2 ltac:(lia)) as (w2 & E2 & U2 & V2).
  erewrite andthen_return by exact E1. erewrite andthen_return by exact E2. unfold DEC_BIT_STRING_PTR. cbn [fst snd pred].
  destruct (Z.eqb_spec w1 w2) as [Q|Ne]; cbn [negb].
  - destruct IH as (r & -> & H); [lia|lia|]. exists r. split; [reflexivity|]. rewrite H. split; intros K p Hp; [|apply K; lia].
    destruct (Z.lt_ge_cases p (64 * Z.of_nat (lo + n))); [apply K; lia|]. replace p with (64 * Z.of_nat (lo + n) + (p - 64 * Z.of_nat (lo + n))) by lia.
    rewrite <- V1, <- V2 by lia. now rewrite Q.
  - exists false. split; [reflexivity|]. split; [discriminate|]. intros K. exfalso. apply Ne, word_ext; [exact U1|exact U2|]. intros t Ht.
    rewrite V1, V2 by exact Ht. apply K. lia.
Qed.

Lemma ZERO_SECTION_P_ok h b ws lo n : raw h b ws -> (lo + n <= List.length ws)%nat ->
  exists r, ZERO_SECTION_P n (b, (lo + n)%nat) h = Return (r, h) /\
    (r = true <-> forall p, 64 * Z.of_nat lo <= p < 64 * Z.of_nat (lo + n) -> bit_at h b p = false).
Proof.
  intros R. induction n as [|n IH]; intros L; cbn [ZERO_SECTION_P].
  { exists true. split; [reflexivity|]. split; [|reflexivity]. intros _ p Hp. lia. }
  rewrite Nat.add_succ_r in *. destruct (raw_word h b ws (lo + n) R ltac:(lia)) as (w & E & U & V).
  erewrite andthen_return by exact E. unfold DEC_BIT_STRING_PTR. cbn [fst snd pred].
  destruct (Z.eqb_spec w 0) as [Q|Ne]; cbn [negb].
  - destruct IH as (r & -> & H); [lia|]. exists r. split; [reflexivity|]. rewrite H. split; intros K p Hp; [|apply K; lia].
    destruct (Z.lt_ge_cases p (64 * Z.of_nat (lo + n))); [apply K; lia|]. replace p with (64 * Z.of_nat (lo + n) + (p - 64 * Z.of_nat (lo + n))) by lia.
    rewrite <- V by lia. rewrite Q. apply Z.bits_0.
  - exists false. split; [reflexivity|]. split; [discriminate|]. intros K. exfalso. apply Ne, word_ext; [exact U|split; lia|]. intros t Ht.
    rewrite V by exact Ht. rewrite Z.bits_0. apply K. lia.
Qed.

(** ** Single bits *)

Lemma bit_pow2 m t : 0 <= m -> Z.testbit (2 ^ m) t = (t =? m).
Proof. intros H. rewrite Z.pow2_bits_eqb by exact H. apply Z.eqb_sym. Qed.

Lemma land_pow2 w m : 0 <= m -> negb (Z.land w (2 ^ m) =? 0) = Z.testbit w m.
Proof.
  intros H. destruct (Z.eqb_spec (Z.land w (2 ^ m)) 0) as [E|E]; cbn [negb].
  - assert (K : Z.testbit (Z.land w (2 ^ m)) m = false) by (rewrite E; apply Z.bits_0).
    rewrite Z.land_spec, bit_pow2, Z.eqb_refl, andb_true_r in K by exact H. now symmetry.
  - destruct (Z.testbit w m) eqn:K; [reflexivity|]. exfalso. apply E. apply Z.bits_inj'. intros t Ht. rewrite Z.land_spec, bit_pow2, Z.bits_0 by exact H.
    destruct (Z.eqb_spec t m) as [->|]; [now rewrite K|apply andb_false_r].
Qed.

Lemma index_mask k : 0 <= k -> shift_left 1 (Z.rem k OBJECT_LENGTH) = Return (2 ^ (k mod 64)).
Proof.
  intros H. unfold OBJECT_LENGTH. rewrite Z.rem_mod_nonneg by lia. pose proof (Z.mod_pos_bound k 64 ltac:(lia)).
  rewrite shift_left_ok by lia. rewrite Z.shiftl_1_l, to_ulong_small; [reflexivity|].
  assert (2 ^ (k mod 64) < 2 ^ 64) by (apply Z.pow_lt_mono_r; lia). assert (0 < 2 ^ (k mod 64)) by (apply Z.pow_pos_nonneg; lia). lia.
Qed.

(** The word that holds bit [k], and where it is in it. *)
Definition word_index (k : Z) : nat := (2 + Z.to_nat (k / 64))%nat.

Lemma word_index_position k : 0 <= k -> 64 * Z.of_nat (word_index k) + k mod 64 = 128 + k.
Proof. intros H. unfold word_index. assert (0 <= k / 64) by (apply Z.div_pos; lia). pose proof (Z.div_mod k 64). lia. Qed.

Section SingleBits.
Context {h : heap} {b : nat} {length : Z} {ws : list Z} (B : bit_string h b length ws) (k : Z) (F : fixnum_range k).

Lemma word_index_lt : 0 <= k < length -> (word_index k < S (S (List.length ws)))%nat.
Proof.
  intros H. pose proof (bit_string_words B). unfold word_index. assert (k / 64 < zlength ws) by (apply Z.div_lt_upper_bound; lia). lia.
Qed.

Lemma REF_INITIALIZATION_ok {A} (cont : address * Z -> procedure A) :
  pthen (REF_INITIALIZATION (Pointer TC_BIT_STRING b) (fix_object k)) cont h =
  if (0 <=? k) && (k <? length) then cont ((b, S (word_index k)), 2 ^ (k mod 64)) h else Return (inr (bad_range_arg 2), h).
Proof.
  unfold REF_INITIALIZATION. pose proof (bs_length _ _ _ _ B). destruct (Z.leb_spec 0 k) as [H0|H0]; cbn [andb].
  2: { apply pthen_signal. rewrite CHECK_ARG_passes by reflexivity. apply (decoded_false 2 k h (0 <=? k)); [now apply arg_fixnum|now apply Z.leb_gt]. }
  destruct (Z.ltb_spec k length) as [H1|H1].
  - erewrite pthen_return; [reflexivity|]. rewrite CHECK_ARG_passes by reflexivity.
    rewrite (decoded_true 2 k h (0 <=? k) _ _ (arg_fixnum 2 k h F)) by now apply Z.leb_le.
    rewrite (pthen_return _ _ _ _ _ (run_operation_ok _ _ _ _ (bit_string_length_ok B _))). rewrite Z.geb_leb.
    destruct (Z.leb_spec length k); [lia|]. cbn [negb]. rewrite unless_true. erewrite pthen_return by (apply run_operation_ok; reflexivity).
    erewrite pthen_return by (apply run_operation_ok, pure_return, index_mask; lia).
    unfold PRIMITIVE_RETURN, BIT_STRING_INDEX_TO_WORD, BIT_STRING_FIRST_WORD, OBJECT_LENGTH, word_index. rewrite Z.quot_div_nonneg by lia.
    assert (0 <= k / 64) by (apply Z.div_pos; lia). repeat f_equal. lia.
  - apply pthen_signal. rewrite CHECK_ARG_passes by reflexivity.
    rewrite (decoded_true 2 k h (0 <=? k) _ _ (arg_fixnum 2 k h F)) by now apply Z.leb_le.
    rewrite (pthen_return _ _ _ _ _ (run_operation_ok _ _ _ _ (bit_string_length_ok B _))). rewrite Z.geb_leb.
    destruct (Z.leb_spec length k); [|lia]. apply unless_false.
Qed.

(** The word that holds bit [k] is read. *)
Lemma index_word : 0 <= k < length -> exists w, BIT_STRING_WORD (b, S (word_index k)) h = Return (w, h) /\
  Z.testbit w (k mod 64) = bit h b k /\ forall t, 0 <= t < 64 -> Z.testbit w t = bit_at h b (64 * Z.of_nat (word_index k) + t).
Proof.
  intros H. destruct (raw_word h b _ (word_index k) (bs_raw _ _ _ _ B) (word_index_lt H)) as (w & E & _ & V). exists w. split; [exact E|].
  split; [|exact V]. rewrite V by (apply Z.mod_pos_bound; lia). unfold bit. f_equal. apply word_index_position. lia.
Qed.

Lemma Prim_bit_string_ref_ok :
  Prim_bit_string_ref (Pointer TC_BIT_STRING b) (fix_object k) h =
  Return (if (0 <=? k) && (k <? length) then inl (BOOLEAN_TO_OBJECT (bit h b k)) else inr (bad_range_arg 2), h).
Proof.
  unfold Prim_bit_string_ref. rewrite REF_INITIALIZATION_ok. destruct (Z.leb_spec 0 k), (Z.ltb_spec k length); try reflexivity. cbn [andb].
  destruct (index_word ltac:(lia)) as (w & E & V & _). erewrite pthen_return by (apply run_operation_ok; exact E).
  rewrite land_pow2 by (apply Z.mod_pos_bound; lia). now rewrite V.
Qed.

(** A word with the bit replaced. *)
Lemma replace_bit w v sense : 0 <= k < length -> (forall t, 0 <= t < 64 -> Z.testbit w t = bit_at h b (64 * Z.of_nat (word_index k) + t)) ->
  (forall t, 0 <= t < 64 -> Z.testbit v t = if t =? k mod 64 then sense else Z.testbit w t) ->
  exists h', SET_BIT_STRING_WORD (b, S (word_index k)) v h = Return (tt, h') /\ changes (fun a => fst a = b) h h' /\
    (exists ws', bit_string h' b length ws') /\ forall j, 0 <= j -> bit h' b j = if j =? k then sense else bit h b j.
Proof.
  intros H W V. destruct (stored_bits h b _ (word_index k) v (bs_raw _ _ _ _ B) (word_index_lt H)) as (h' & E & C & (ws' & R' & L') & S).
  exists h'. split; [exact E|]. split; [exact C|]. pose proof (word_index_position k ltac:(lia)) as P. pose proof (Z.mod_pos_bound k 64 ltac:(lia)).
  assert (2 <= Z.of_nat (word_index k)) by (unfold word_index; lia). split.
  - destruct (bit_string_kept B h' ws' R' L') as (ws2 & B2 & _); [|now exists ws2]. intros p Hp. rewrite S by lia.
    destruct (Z.leb_spec (64 * Z.of_nat (word_index k)) p); [lia|reflexivity].
  - intros j Hj. unfold bit. rewrite S by lia. destruct (Z.leb_spec (64 * Z.of_nat (word_index k)) (128 + j)); [destruct (Z.ltb_spec (128 + j) (64 * Z.of_nat (word_index k) + 64))|]; cbn [andb].
    + rewrite V by lia. destruct (Z.eqb_spec j k), (Z.eqb_spec (128 + j - 64 * Z.of_nat (word_index k)) (k mod 64)); try reflexivity; try lia.
      rewrite W by lia. f_equal. lia.
    + destruct (Z.eqb_spec j k); [lia|reflexivity].
    + destruct (Z.eqb_spec j k); [lia|reflexivity].
Qed.

(** What setting or clearing a bit does. *)
Definition bit_replaced (sense : bool) '((r, h') : (object + signal) * heap) : Prop :=
  r = inl (BOOLEAN_TO_OBJECT (bit h b k)) /\ changes (fun a => fst a = b) h h' /\
  (exists ws', bit_string h' b length ws') /\ forall j, 0 <= j -> bit h' b j = if j =? k then sense else bit h b j.

Lemma bit_unchanged sense : bit h b k = sense -> bit_replaced sense (inl (BOOLEAN_TO_OBJECT sense), h).
Proof.
  intros E. split; [now rewrite E|]. split; [apply changes_refl|]. split; [now exists ws|]. intros j _. destruct (Z.eqb_spec j k) as [->|]; [exact E|reflexivity].
Qed.

Lemma Prim_bit_string_clear_x_ok : 0 <= k < length -> returns (Prim_bit_string_clear_x (Pointer TC_BIT_STRING b) (fix_object k) h) (bit_replaced false).
Proof.
  intros H. unfold Prim_bit_string_clear_x. rewrite REF_INITIALIZATION_ok. destruct (Z.leb_spec 0 k), (Z.ltb_spec k length); try lia. cbn [andb].
  destruct (index_word H) as (w & E & V & W). erewrite pthen_return by (apply run_operation_ok; exact E).
  pose proof (Z.mod_pos_bound k 64 ltac:(lia)). pose proof (land_pow2 w (k mod 64) ltac:(lia)) as T. rewrite V in T.
  destruct (Z.land w (2 ^ (k mod 64)) =? 0); cbn [negb] in T.
  - eexists. split; [reflexivity|]. now apply bit_unchanged.
  - destruct (replace_bit w (Z.ldiff w (2 ^ (k mod 64))) false H W) as (h' & E' & K).
    { intros t Ht. rewrite Z.ldiff_spec, bit_pow2 by lia. destruct (t =? k mod 64); [apply andb_false_r|apply andb_true_r]. }
    erewrite pthen_return by (apply run_operation_ok; exact E'). eexists. split; [reflexivity|]. split; [now rewrite <- T|exact K].
Qed.

Lemma Prim_bit_string_set_x_ok : 0 <= k < length -> returns (Prim_bit_string_set_x (Pointer TC_BIT_STRING b) (fix_object k) h) (bit_replaced true).
Proof.
  intros H. unfold Prim_bit_string_set_x. rewrite REF_INITIALIZATION_ok. destruct (Z.leb_spec 0 k), (Z.ltb_spec k length); try lia. cbn [andb].
  destruct (index_word H) as (w & E & V & W). erewrite pthen_return by (apply run_operation_ok; exact E).
  pose proof (Z.mod_pos_bound k 64 ltac:(lia)). rewrite land_pow2 by lia. rewrite V. destruct (bit h b k) eqn:T.
  - eexists. split; [reflexivity|]. now apply bit_unchanged.
  - destruct (replace_bit w (Z.lor w (2 ^ (k mod 64))) true H W) as (h' & E' & K).
    { intros t Ht. rewrite Z.lor_spec, bit_pow2 by lia. destruct (t =? k mod 64); [apply orb_true_r|apply orb_false_r]. }
    erewrite pthen_return by (apply run_operation_ok; exact E'). eexists. split; [reflexivity|]. split; [now rewrite T|exact K].
Qed.

End SingleBits.

(** ** Whole strings *)

Section WholeStrings.
Context {h : heap} {b : nat} {length : Z} {ws : list Z} (B : bit_string h b length ws).

Lemma words_of_length : Z.to_nat (BIT_STRING_LENGTH_TO_GC_LENGTH length) = List.length ws.
Proof.
  pose proof (bs_length _ _ _ _ B). pose proof (bs_words _ _ _ _ B). unfold BIT_STRING_LENGTH_TO_GC_LENGTH, OBJECT_LENGTH.
  rewrite Z.quot_div_nonneg by lia. replace (length + (64 - 1)) with (length + 63) by lia. lia.
Qed.

(** A change of the words of the string. *)
Definition bits_changed (f : Z -> bool) '((_, h') : unit * heap) : Prop :=
  changes (fun a => fst a = b) h h' /\ (exists ws', bit_string h' b length ws') /\
  forall k, 0 <= k < 64 * zlength ws -> bit h' b k = f k.

Lemma bits_changed_words f h' : changes (fun a => fst a = b) h h' ->
  (exists ws', raw h' b ws' /\ List.length ws' = S (S (List.length ws))) ->
  (forall p, 0 <= p -> bit_at h' b p = if (64 * Z.of_nat 2 <=? p) && (p <? 64 * Z.of_nat (2 + List.length ws)) then f (p - 128) else bit_at h b p) ->
  bits_changed f (tt, h').
Proof.
  intros C (ws' & R' & L') V. split; [exact C|]. split.
  - destruct (bit_string_kept B h' ws' R' L') as (ws2 & B2 & _); [|now exists ws2]. intros p Hp. rewrite V by lia.
    destruct (Z.leb_spec (64 * Z.of_nat 2) p); [lia|reflexivity].
  - intros k Hk. unfold bit. rewrite V by lia. destruct (Z.leb_spec (64 * Z.of_nat 2) (128 + k)), (Z.ltb_spec (128 + k) (64 * Z.of_nat (2 + List.length ws))); try lia.
    cbn [andb]. f_equal. lia.
Qed.

Lemma filler_bits (sense : bool) t : 0 <= t < 64 -> Z.testbit (if sense then to_ulong (Z.lnot 0) else 0) t = sense.
Proof. intros H. destruct sense; [rewrite bit_ulong by lia; rewrite Z.lnot_spec, Z.bits_0 by lia; reflexivity|apply Z.bits_0]. Qed.

Lemma fill_bit_string_ok t sense : returns (fill_bit_string (Pointer t b) sense h) (bits_changed (fun _ => sense)).
Proof.
  unfold fill_bit_string. erewrite andthen_return by apply (bit_string_high_ptr B). erewrite andthen_return by apply (bit_string_length_ok B).
  rewrite words_of_length. eapply returns_weaken.
  - apply (fill_words_ok b 2 (List.length ws) _ sense (filler_bits sense) h _ (bs_raw _ _ _ _ B)). cbn [List.length]. lia.
  - intros [[] h'] (C & R & V). now apply bits_changed_words.
Qed.

Lemma clear_bit_string_ok t : returns (clear_bit_string (Pointer t b) h) (bits_changed (fun _ => false)).
Proof. exact (fill_bit_string_ok t false). Qed.

Lemma last_word : Z.rem length OBJECT_LENGTH <> 0 -> exists n, List.length ws = S n /\ n = Z.to_nat (Z.quot length OBJECT_LENGTH) /\
  length = 64 * Z.of_nat n + Z.rem length OBJECT_LENGTH /\ 0 < Z.rem length OBJECT_LENGTH < 64.
Proof.
  intros H. pose proof (bit_string_words B). pose proof (bs_length _ _ _ _ B). unfold OBJECT_LENGTH in *.
  rewrite Z.rem_mod_nonneg, Z.quot_div_nonneg in * by lia. exists (Z.to_nat (length / 64)).
  pose proof (Z.div_mod length 64). pose proof (Z.mod_pos_bound length 64). assert (0 <= length / 64) by (apply Z.div_pos; lia). repeat split; lia.
Qed.

Lemma all_words : Z.rem length OBJECT_LENGTH = 0 -> List.length ws = Z.to_nat (Z.quot length OBJECT_LENGTH) /\ length = 64 * zlength ws.
Proof.
  intros H. pose proof (bit_string_words B). pose proof (bs_length _ _ _ _ B). unfold OBJECT_LENGTH in *.
  rewrite Z.rem_mod_nonneg, Z.quot_div_nonneg in * by lia. pose proof (Z.div_mod length 64). assert (0 <= length / 64) by (apply Z.div_pos; lia). split; lia.
Qed.

Lemma masked_word m w v : 0 <= m < 64 -> (Z.land w (Z.ones m) = Z.land v (Z.ones m) <-> forall t, 0 <= t < m -> Z.testbit w t = Z.testbit v t).
Proof.
  intros H. split.
  - intros E t Ht. apply (f_equal (fun z => Z.testbit z t)) in E. rewrite !Z.land_spec, !bit_ones in E by lia.
    destruct (Z.leb_spec 0 t), (Z.ltb_spec t m); lia || (cbn [andb] in E; now rewrite !andb_true_r in E).
  - intros E. apply Z.bits_inj'. intros t Ht. rewrite !Z.land_spec, !bit_ones by lia. destruct (Z.leb_spec 0 t), (Z.ltb_spec t m); try lia; cbn [andb].
    now rewrite E by lia.
Qed.

Lemma bit_string_zero_p_ok t : exists r, bit_string_zero_p (Pointer t b) h = Return (r, h) /\ (r = true <-> forall k, 0 <= k < length -> bit h b k = false).
Proof.
  unfold bit_string_zero_p. erewrite andthen_return by apply (bit_string_length_ok B). erewrite andthen_return by apply (bit_string_high_ptr B).
  destruct (Z.eqb_spec (Z.rem length OBJECT_LENGTH) 0) as [E|E].
  - destruct (all_words E) as [<- L]. destruct (ZERO_SECTION_P_ok h b _ 2 (List.length ws) (bs_raw _ _ _ _ B)) as (r & Q & H); [cbn [List.length]; lia|].
    exists r. split; [exact Q|]. rewrite H. split; intros K p Hp.
    + unfold bit. apply K. lia.
    + specialize (K (p - 128)). unfold bit in K. replace (128 + (p - 128)) with p in K by lia. apply K. lia.
  - destruct (last_word E) as (n & L & En & Ln & M). rewrite <- En, L.
    destruct (raw_word h b _ (2 + n) (bs_raw _ _ _ _ B)) as (w & Ew & U & W); [cbn [List.length]; lia|].
    change (S (S (S n))) with (S (2 + n)). erewrite andthen_return by exact Ew. erewrite andthen_return by (apply pure_return, LOW_MASK_ok; lia).
    pose proof (masked_word (Z.rem length OBJECT_LENGTH) w 0 ltac:(lia)) as Mask. rewrite Z.land_0_l in Mask.
    destruct (Z.eqb_spec (Z.land w (Z.ones (Z.rem length OBJECT_LENGTH))) 0) as [Z0|Z0]; cbn [negb].
    + destruct (ZERO_SECTION_P_ok h b _ 2 n (bs_raw _ _ _ _ B)) as (r & Q & H); [cbn [List.length]; lia|]. exists r. split; [exact Q|]. rewrite H.
      split; intros K p Hp.
      * unfold bit. destruct (Z.lt_ge_cases p (64 * Z.of_nat n)); [apply K; lia|].
        replace (128 + p) with (64 * Z.of_nat (2 + n) + (p - 64 * Z.of_nat n)) by lia. rewrite <- W by lia.
        rewrite (proj1 Mask Z0) by lia. apply Z.bits_0.
      * specialize (K (p - 128)). unfold bit in K. replace (128 + (p - 128)) with p in K by lia. apply K. lia.
    + exists false. split; [reflexivity|]. split; [discriminate|]. intros K. exfalso. apply Z0, Mask. intros u Hu. rewrite W, Z.bits_0 by lia.
      replace (64 * Z.of_nat (2 + n) + u) with (128 + (64 * Z.of_nat n + u)) by lia. apply K. lia.
Qed.

End WholeStrings.

Lemma bit_string_msw {h b length ws} (B : bit_string h b length ws) t :
  BIT_STRING_MSW (Pointer t b) h = BIT_STRING_WORD (b, S (S (List.length ws))) h.
Proof. unfold BIT_STRING_MSW. erewrite andthen_return by apply (bit_string_high_ptr B). reflexivity. Qed.

Lemma bit_string_equal_p_ok {h b1 l1 ws1 b2 l2 ws2} (B1 : bit_string h b1 l1 ws1) (B2 : bit_string h b2 l2 ws2) t1 t2 :
  exists r, bit_string_equal_p (Pointer t1 b1) (Pointer t2 b2) h = Return (r, h) /\
    (r = true <-> l1 = l2 /\ forall k, 0 <= k < l1 -> bit h b1 k = bit h b2 k).
Proof.
  unfold bit_string_equal_p. erewrite andthen_return by apply (bit_string_length_ok B1). erewrite andthen_return by apply (bit_string_length_ok B2).
  destruct (Z.eqb_spec l1 l2) as [<-|Ne]; cbn [negb].
  2: { exists false. split; [reflexivity|]. split; [discriminate|]. now intros []. }
  erewrite andthen_return by apply (bit_string_high_ptr B1). erewrite andthen_return by apply (bit_string_high_ptr B2).
  destruct (Z.eqb_spec (Z.rem l1 OBJECT_LENGTH) 0) as [E|E].
  - destruct (all_words B1 E) as [<- L1]. destruct (all_words B2 E) as [L2 _].
    assert (L : List.length ws2 = List.length ws1) by (destruct (all_words B1 E); lia). rewrite L.
    destruct (EQUAL_SECTIONS_P_ok h b1 b2 _ _ 2 (List.length ws1) (bs_raw _ _ _ _ B1) (bs_raw _ _ _ _ B2)) as (r & Q & H); [cbn [List.length]; lia..|].
    exists r. split; [exact Q|]. rewrite H. split.
    + intros K. split; [reflexivity|]. intros p Hp. unfold bit. apply K. lia.
    + intros [_ K] p Hp. specialize (K (p - 128)). unfold bit in K. replace (128 + (p - 128)) with p in K by lia. apply K. lia.
  - destruct (last_word B1 E) as (n & L1 & En & Ln & M). destruct (last_word B2 E) as (n2 & L2 & En2 & _ & _). replace n2 with n in L2 by lia.
    erewrite andthen_return by (apply pure_return, LOW_MASK_ok; lia).
    destruct (raw_word h b1 _ (2 + n) (bs_raw _ _ _ _ B1)) as (w1 & Ew1 & U1 & W1); [cbn [List.length]; lia|].
    destruct (raw_word h b2 _ (2 + n) (bs_raw _ _ _ _ B2)) as (w2 & Ew2 & U2 & W2); [cbn [List.length]; lia|].
    erewrite andthen_return by (rewrite (bit_string_msw B1), L1; exact Ew1). erewrite andthen_return by (rewrite (bit_string_msw B2), L2; exact Ew2).
    rewrite <- En, L1, L2. pose proof (masked_word (Z.rem l1 OBJECT_LENGTH) w1 w2 ltac:(lia)) as Mask.
    destruct (Z.eqb_spec (Z.land w1 (Z.ones (Z.rem l1 OBJECT_LENGTH))) (Z.land w2 (Z.ones (Z.rem l1 OBJECT_LENGTH)))) as [Z0|Z0]; cbn [negb].
    + destruct (EQUAL_SECTIONS_P_ok h b1 b2 _ _ 2 n (bs_raw _ _ _ _ B1) (bs_raw _ _ _ _ B2)) as (r & Q & H); [cbn [List.length]; lia..|].
      exists r. split; [exact Q|]. rewrite H. split.
      * intros K. split; [reflexivity|]. intros p Hp. unfold bit. destruct (Z.lt_ge_cases p (64 * Z.of_nat n)); [apply K; lia|].
        replace (128 + p) with (64 * Z.of_nat (2 + n) + (p - 64 * Z.of_nat n)) by lia. rewrite <- W1, <- W2 by lia. apply (proj1 Mask Z0). lia.
      * intros [_ K] p Hp. specialize (K (p - 128)). unfold bit in K. replace (128 + (p - 128)) with p in K by lia. apply K. lia.
    + exists false. split; [reflexivity|]. split; [discriminate|]. intros [_ K]. exfalso. apply Z0, Mask. intros u Hu. rewrite W1, W2 by lia.
      replace (64 * Z.of_nat (2 + n) + u) with (128 + (64 * Z.of_nat n + u)) by lia. apply K. lia.
Qed.

(** The six operations, with the function of two bits that each computes. *)
Inductive bitwise_primitive : (object -> object -> procedure object) -> (bool -> bool -> bool) -> Prop :=
| op_move : bitwise_primitive Prim_bit_string_move_x (fun _ y => y)
| op_movec : bitwise_primitive Prim_bit_string_movec_x (fun _ y => negb y)
| op_or : bitwise_primitive Prim_bit_string_or_x orb
| op_and : bitwise_primitive Prim_bit_string_and_x andb
| op_andc : bitwise_primitive Prim_bit_string_andc_x (fun x y => x && negb y)
| op_xor : bitwise_primitive Prim_bit_string_xor_x xorb.

Lemma bitwise_action prim g : bitwise_primitive prim g -> exists action, prim = BITWISE_OP action /\
  forall w1 w2 t, 0 <= t -> Z.testbit (action w1 w2) t = g (Z.testbit w1 t) (Z.testbit w2 t).
Proof.
  intros []; (eexists; split; [reflexivity|]; intros w1 w2 t Ht; cbv beta).
  - reflexivity.
  - now apply Z.lnot_spec.
  - apply Z.lor_spec.
  - apply Z.land_spec.
  - apply Z.ldiff_spec.
  - apply Z.lxor_spec.
Qed.

Lemma BITWISE_OP_ok prim g {h b1 l1 ws1 b2 l2 ws2} (B1 : bit_string h b1 l1 ws1) (B2 : bit_string h b2 l2 ws2) : bitwise_primitive prim g ->
  let result := prim (Pointer TC_BIT_STRING b1) (Pointer TC_BIT_STRING b2) h in
  if l1 =? l2 then
    returns result (fun '(r, h') => r = inl UNSPECIFIC /\ changes (fun a => fst a = b1) h h' /\ (exists ws', bit_string h' b1 l1 ws') /\
      forall k, 0 <= k < l1 -> bit h' b1 k = g (bit h b1 k) (bit h b2 k))
  else result = Return (inr (bad_range_arg 1), h).
Proof.
  intros (action & -> & G)%bitwise_action. cbv zeta. unfold BITWISE_OP. rewrite !CHECK_ARG_passes by reflexivity.
  rewrite (pthen_return _ _ _ _ _ (run_operation_ok _ _ _ _ (bit_string_length_ok B1 _))).
  rewrite (pthen_return _ _ _ _ _ (run_operation_ok _ _ _ _ (bit_string_length_ok B2 _))).
  destruct (Z.eqb_spec l1 l2) as [<-|Ne]; [rewrite unless_true|apply unless_false].
  rewrite (pthen_return _ _ _ _ _ (run_operation_ok _ _ _ _ (bit_string_high_ptr B1 _))).
  rewrite (pthen_return _ _ _ _ _ (run_operation_ok _ _ _ _ (bit_string_high_ptr B2 _))).
  rewrite (pthen_return _ _ _ _ _ (run_operation_ok _ _ _ _ (bit_string_vector_length B1 _))).
  assert (L : List.length ws2 = List.length ws1) by (pose proof (bs_words _ _ _ _ B1); pose proof (bs_words _ _ _ _ B2); lia). rewrite L.
  replace (Z.to_nat (zlength ws1 + 1 - 1)) with (List.length ws1) by lia.
  destruct (bitwise_words_ok action g b1 b2 2 (List.length ws1) G h _ _ (bs_raw _ _ _ _ B1) (bs_raw _ _ _ _ B2)) as ([[] h'] & E & C & R & V);
    [cbn [List.length]; lia..|].
  erewrite pthen_return by (apply run_operation_ok; exact E). eexists. split; [reflexivity|]. split; [reflexivity|].
  destruct (bits_changed_words B1 (fun k => g (bit h b1 k) (bit h b2 k)) h' C R) as (_ & B' & K).
  { intros p Hp. rewrite V by exact Hp. unfold bit. now replace (128 + (p - 128)) with p by lia. }
  split; [exact C|]. split; [exact B'|]. intros k Hk. apply K. pose proof (bit_string_words B1). lia.
Qed.

(** ** Search *)

Lemma least_bit w lo n : forall hi, hi = lo + Z.of_nat n ->
  (exists t, lo <= t < hi /\ Z.testbit w t = true /\ forall u, lo <= u < t -> Z.testbit w u = false) \/
  (forall u, lo <= u < hi -> Z.testbit w u = false).
Proof.
  induction n as [|n IH]; intros hi ->; [right; lia|]. destruct (IH (lo + Z.of_nat n) eq_refl) as [(t & Ht & K)|K]; [left; exists t; split; [lia|exact K]|].
  destruct (Z.testbit w (lo + Z.of_nat n)) eqn:E; [left; exists (lo + Z.of_nat n); split; [lia|]; split; [exact E|exact K]|]. right. intros u Hu.
  destruct (Z.eq_dec u (lo + Z.of_nat n)) as [->|]; [exact E|apply K; lia].
Qed.

(** A mask of the bits from [lo] to [hi]. *)
Definition mask_of (lo hi mask : Z) : Prop := forall t, 0 <= t < 64 -> Z.testbit mask t = (lo <=? t) && (t <? hi).

Lemma mask_bits w mask lo hi : ulong_p w -> mask_of lo hi mask -> 0 <= lo <= hi -> hi <= 64 ->
  if Z.land w mask =? 0 then forall u, lo <= u < hi -> Z.testbit w u = false
  else exists t, lo <= t < hi /\ Z.testbit w t = true /\ forall u, lo <= u < t -> Z.testbit w u = false.
Proof.
  intros U M H1 H2. destruct (Z.eqb_spec (Z.land w mask) 0) as [E|E].
  - intros u Hu. apply (f_equal (fun z => Z.testbit z u)) in E. rewrite Z.land_spec, M, Z.bits_0 in E by lia.
    destruct (Z.leb_spec lo u), (Z.ltb_spec u hi); lia || (cbn [andb] in E; now rewrite andb_true_r in E).
  - destruct (least_bit w lo (Z.to_nat (hi - lo)) hi ltac:(lia)) as [K|K]; [exact K|]. exfalso. apply E. apply Z.bits_inj'. intros t Ht.
    rewrite Z.land_spec, Z.bits_0. destruct (Z.lt_ge_cases t 64); [|now rewrite (bit_high w)]. rewrite M by lia.
    destruct (Z.leb_spec lo t); [|apply andb_false_r]. destruct (Z.ltb_spec t hi); [|apply andb_false_r]. now rewrite K by lia.
Qed.

Lemma mask_all : mask_of 0 64 (to_ulong (Z.lnot 0)).
Proof.
  intros t Ht. rewrite bit_ulong, Z.lnot_spec, Z.bits_0 by lia. destruct (Z.leb_spec 0 t), (Z.ltb_spec t 64); lia || reflexivity.
Qed.

Lemma mask_low n : 0 <= n -> mask_of 0 n (Z.ones n).
Proof. intros H t Ht. now apply bit_ones. Qed.

Lemma mask_any n o : 0 <= n -> 0 <= o -> mask_of o (o + n) (to_ulong (Z.shiftl (Z.ones n) o)).
Proof.
  intros Hn Ho t Ht. rewrite bit_ulong, bit_shl, bit_ones by lia. f_equal; apply eq_true_iff_eq; rewrite ?Z.leb_le, ?Z.ltb_lt; lia.
Qed.

Lemma FIND_NEXT_SET_LOOP_ok h scan w fuel : BIT_STRING_WORD scan h = Return (w, h) -> forall lo t, 0 <= lo <= t -> t < 64 ->
  Z.testbit w t = true -> (forall u, lo <= u < t -> Z.testbit w u = false) -> t - lo < Z.of_nat fuel ->
  FIND_NEXT_SET_LOOP fuel scan lo (2 ^ lo) h = Return (t, h).
Proof.
  intros E. induction fuel as [|fuel IH]; intros lo t H1 H2 Ht K F; [lia|]. cbn [FIND_NEXT_SET_LOOP]. erewrite andthen_return by exact E.
  rewrite land_pow2 by lia. destruct (Z.eq_dec lo t) as [->|Ne]; [now rewrite Ht|]. rewrite K by lia.
  assert (2 ^ (lo + 1) < 2 ^ 64) by (apply Z.pow_lt_mono_r; lia). assert (0 < 2 ^ (lo + 1)) by (apply Z.pow_pos_nonneg; lia).
  rewrite Z.shiftl_mul_pow2, <- Z.pow_add_r, to_ulong_small by lia. apply IH; try lia. intros u Hu. apply K. lia.
Qed.

(** The first bit set from [lo] to [hi]. *)
Definition first_set (h : heap) (b : nat) (lo hi : Z) (r : option Z) : Prop :=
  match r with
  | Some i => lo <= i < hi /\ bit h b i = true /\ forall j, lo <= j < i -> bit h b j = false
  | None => forall j, lo <= j < hi -> bit h b j = false
  end.

Lemma first_set_next h b lo mid hi r : lo <= mid -> (forall j, lo <= j < mid -> bit h b j = false) -> first_set h b mid hi r -> first_set h b lo hi r.
Proof.
  intros L Z0. destruct r as [i|]; cbn [first_set].
  - intros (H & B & K). split; [lia|]. split; [exact B|]. intros j Hj. destruct (Z.lt_ge_cases j mid); [apply Z0|apply K]; lia.
  - intros K j Hj. destruct (Z.lt_ge_cases j mid); [apply Z0|apply K]; lia.
Qed.

Section Search.
Context {h : heap} {b : nat} {length : Z} {ws : list Z} (B : bit_string h b length ws).

(** Bit [t] of word [2 + q] is bit [64 * q + t] of the string. *)
Lemma string_word q : (q < List.length ws)%nat -> exists w, BIT_STRING_WORD (b, S (2 + q)) h = Return (w, h) /\ ulong_p w /\
  forall t, 0 <= t < 64 -> Z.testbit w t = bit h b (64 * Z.of_nat q + t).
Proof.
  intros L. destruct (raw_word h b _ (2 + q) (bs_raw _ _ _ _ B)) as (w & E & U & W); [cbn [List.length]; lia|]. exists w.
  split; [exact E|]. split; [exact U|]. intros t Ht. rewrite W by exact Ht. unfold bit. f_equal. lia.
Qed.

(** A word with a mask: the search succeeds in it, or no bit is set there. *)
Lemma search_word q w lo hi mask : BIT_STRING_WORD (b, S (2 + q)) h = Return (w, h) -> ulong_p w ->
  (forall t, 0 <= t < 64 -> Z.testbit w t = bit h b (64 * Z.of_nat q + t)) -> mask_of lo hi mask -> 0 <= lo <= hi -> hi <= 64 ->
  if Z.land w mask =? 0 then forall j, 64 * Z.of_nat q + lo <= j < 64 * Z.of_nat q + hi -> bit h b j = false
  else exists i, find_set_bit (b, S (2 + q)) (Z.of_nat (3 + q)) lo h = Return (Some i, h) /\
    first_set h b (64 * Z.of_nat q + lo) (64 * Z.of_nat q + hi) (Some i).
Proof.
  intros E U W M H1 H2. pose proof (mask_bits w mask lo hi U M H1 H2) as K. destruct (Z.land w mask =? 0).
  - intros j Hj. replace j with (64 * Z.of_nat q + (j - 64 * Z.of_nat q)) by lia. rewrite <- W by lia. apply K. lia.
  - destruct K as (t & Ht & T & K). exists (64 * Z.of_nat q + t). split.
    + unfold find_set_bit. erewrite andthen_return by (apply pure_return, shift_left_ok; lia).
      assert (2 ^ lo < 2 ^ 64) by (apply Z.pow_lt_mono_r; lia). assert (0 < 2 ^ lo) by (apply Z.pow_pos_nonneg; lia).
      rewrite Z.shiftl_1_l, to_ulong_small by lia.
      erewrite andthen_return by (apply (FIND_NEXT_SET_LOOP_ok h _ w 64 E lo t); auto; lia).
      unfold ret, BIT_STRING_INDEX_PAIR_TO_INDEX, BIT_STRING_FIRST_WORD, OBJECT_LENGTH.
      now replace ((Z.of_nat (3 + q) - (Z.of_nat 2 + 1)) * 64 + t) with (64 * Z.of_nat q + t) by lia.
    + split; [lia|]. split; [now rewrite <- W by lia|]. intros j Hj. replace j with (64 * Z.of_nat q + (j - 64 * Z.of_nat q)) by lia.
      rewrite <- W by lia. apply K. lia.
Qed.

Lemma find_next_words_ok n : forall q end_bit, (q + n < List.length ws)%nat -> 0 < end_bit <= 64 ->
  exists r, find_next_words n (b, (2 + q)%nat) (Z.of_nat (3 + q)) end_bit h = Return (r, h) /\
    first_set h b (64 * Z.of_nat q) (64 * Z.of_nat (q + n) + end_bit) r.
Proof.
  induction n as [|n IH]; intros q end_bit L H; cbn [find_next_words]; unfold INC_BIT_STRING_PTR; cbn [fst snd];
    destruct (string_word q ltac:(lia)) as (w & E & U & W); erewrite andthen_return by exact E.
  - erewrite andthen_return with (a := if end_bit =? 64 then to_ulong (Z.lnot 0) else Z.ones end_bit).
    2: { unfold OBJECT_LENGTH. destruct (Z.eqb_spec end_bit 64); [reflexivity|apply pure_return, LOW_MASK_ok; lia]. }
    assert (M : mask_of 0 end_bit (if end_bit =? 64 then to_ulong (Z.lnot 0) else Z.ones end_bit)).
    { destruct (Z.eqb_spec end_bit 64) as [->|]; [apply mask_all|apply mask_low; lia]. }
    pose proof (search_word q w 0 end_bit _ E U W M ltac:(lia) ltac:(lia)) as K. rewrite Z.add_0_r, Nat.add_0_r in *.
    destruct (Z.land w _ =? 0); cbn [negb]; [now exists None|]. destruct K as (i & Ei & K). now exists (Some i).
  - pose proof (search_word q w 0 64 _ E U W mask_all ltac:(lia) ltac:(lia)) as K. rewrite Z.add_0_r in K.
    assert (Q : Z.land w (to_ulong (Z.lnot 0)) = w).
    { change (to_ulong (Z.lnot 0)) with (Z.ones 64). rewrite Z.land_ones by lia. apply Z.mod_small. exact U. }
    rewrite Q in K. destruct (w =? 0); cbn [negb].
    + destruct (IH (S q) end_bit ltac:(lia) H) as (r & Er & F). exists r.
      replace (Z.of_nat (3 + q) + 1) with (Z.of_nat (3 + S q)) by lia. split; [exact Er|].
      apply first_set_next with (64 * Z.of_nat q + 64); [lia|exact K|].
      replace (64 * Z.of_nat q + 64) with (64 * Z.of_nat (S q)) by lia. now replace (q + S n)%nat with (S q + n)%nat by lia.
    + destruct K as (i & Ei & (F1 & F2 & F3)). exists (Some i). split; [exact Ei|]. split; [lia|]. now split.
Qed.

(** [ANY_MASK (64, 0)] shifts by 64: the code reaches it when the range is one
    whole word and the word is zero. *)
Definition whole_zero_word (s e : Z) : Prop := e - s = 64 /\ s mod 64 = 0 /\ forall k, s <= k < e -> bit h b k = false.

Lemma search_one_word q w lo hi : BIT_STRING_WORD (b, S (2 + q)) h = Return (w, h) -> ulong_p w ->
  (forall t, 0 <= t < 64 -> Z.testbit w t = bit h b (64 * Z.of_nat q + t)) -> 0 <= lo < hi -> hi <= 64 ->
  ~ whole_zero_word (64 * Z.of_nat q + lo) (64 * Z.of_nat q + hi) ->
  exists r, (win <- (if (hi - lo =? OBJECT_LENGTH) && negb (w =? 0) then ret true
             else mask <- pure (ANY_MASK (hi - lo) lo) ;; ret (negb (Z.land w mask =? 0))) ;;
     if win then find_set_bit (b, S (2 + q)) (Z.of_nat (3 + q)) lo else ret None)%heap h = Return (r, h) /\
    first_set h b (64 * Z.of_nat q + lo) (64 * Z.of_nat q + hi) r.
Proof.
  intros E U W H1 H2 N. unfold OBJECT_LENGTH. destruct (Z.eqb_spec (hi - lo) 64) as [Q|Q]; cbn [andb].
  - replace hi with 64 in * by lia. replace lo with 0 in * by lia.
    pose proof (search_word q w 0 64 _ E U W mask_all ltac:(lia) ltac:(lia)) as K.
    assert (A : Z.land w (to_ulong (Z.lnot 0)) = w).
    { change (to_ulong (Z.lnot 0)) with (Z.ones 64). rewrite Z.land_ones by lia. apply Z.mod_small. exact U. }
    rewrite A in K. destruct (w =? 0); cbn [negb].
    + exfalso. apply N. split; [lia|]. split; [|exact K]. rewrite Z.add_0_r, Z.mul_comm. apply Z.mod_mul. lia.
    + erewrite andthen_return by reflexivity. destruct K as (i & Ei & K). now exists (Some i).
  - erewrite andthen_return by (erewrite andthen_return by (apply pure_return, ANY_MASK_ok; lia); reflexivity).
    assert (M : mask_of lo hi (to_ulong (Z.shiftl (Z.ones (hi - lo)) lo))).
    { replace hi with (lo + (hi - lo)) at 1 by lia. apply mask_any; lia. }
    pose proof (search_word q w lo hi _ E U W M ltac:(lia) ltac:(lia)) as K.
    destruct (Z.land w _ =? 0); cbn [negb]; [now exists None|]. destruct K as (i & Ei & K). now exists (Some i).
Qed.

Lemma find_next_set_bit_ok t s e : 0 <= s < e -> e <= length -> ~ whole_zero_word s e ->
  exists r, find_next_set_bit (Pointer t b) s e h = Return (r, h) /\ first_set h b s e r.
Proof.
  intros H1 H2 N. pose proof (bit_string_words B). pose proof (bs_length _ _ _ _ B). unfold find_next_set_bit, BIT_STRING_INDEX_TO_WORD, BIT_STRING_FIRST_WORD.
  pose proof (Z.div_mod s 64). pose proof (Z.div_mod (e - 1) 64). pose proof (Z.mod_pos_bound s 64). pose proof (Z.mod_pos_bound (e - 1) 64).
  assert (0 <= s / 64) by (apply Z.div_pos; lia). assert (s / 64 <= (e - 1) / 64) by (apply Z.div_le_mono; lia).
  assert (E1 : Z.rem s OBJECT_LENGTH = s mod 64) by (unfold OBJECT_LENGTH; apply Z.rem_mod_nonneg; lia).
  assert (E2 : Z.rem (e - 1) OBJECT_LENGTH = (e - 1) mod 64) by (unfold OBJECT_LENGTH; apply Z.rem_mod_nonneg; lia).
  assert (E3 : Z.quot s OBJECT_LENGTH = s / 64) by (unfold OBJECT_LENGTH; apply Z.quot_div_nonneg; lia).
  assert (E4 : Z.quot (e - 1) OBJECT_LENGTH = (e - 1) / 64) by (unfold OBJECT_LENGTH; apply Z.quot_div_nonneg; lia).
  rewrite E1, E2, E3, E4.
  set (q := Z.to_nat (s / 64)). set (n := Z.to_nat ((e - 1) / 64 - s / 64)).
  replace (Z.of_nat 2 + 1 + s / 64) with (Z.of_nat (3 + q)) by lia. replace (Z.of_nat 2 + 1 + (e - 1) / 64) with (Z.of_nat (3 + q + n)) by lia.
  rewrite Nat2Z.id. erewrite andthen_return by reflexivity. change (3 + q)%nat with (S (2 + q)) at 1.
  destruct (string_word q ltac:(lia)) as (w & E & U & W). erewrite andthen_return by exact E.
  destruct (Z.eqb_spec (Z.of_nat (3 + q)) (Z.of_nat (3 + q + n))) as [Q|Q].
  - replace s with (64 * Z.of_nat q + s mod 64) in N by lia. replace e with (64 * Z.of_nat q + ((e - 1) mod 64 + 1)) in N at 1 by lia.
    destruct (search_one_word q w (s mod 64) ((e - 1) mod 64 + 1) E U W) as (r & Er & F); try lia; [exact N|]. exists r. split; [exact Er|].
    now replace s with (64 * Z.of_nat q + s mod 64) by lia; replace e with (64 * Z.of_nat q + ((e - 1) mod 64 + 1)) by lia.
  - erewrite andthen_return with (a := if s mod 64 =? 0 then to_ulong (Z.lnot 0) else to_ulong (Z.shiftl (Z.ones (64 - s mod 64)) (s mod 64))).
    2: { unfold OBJECT_LENGTH. destruct (Z.eqb_spec (s mod 64) 0); [reflexivity|apply pure_return, ANY_MASK_ok; lia]. }
    assert (M : mask_of (s mod 64) 64 (if s mod 64 =? 0 then to_ulong (Z.lnot 0) else to_ulong (Z.shiftl (Z.ones (64 - s mod 64)) (s mod 64)))).
    { destruct (Z.eqb_spec (s mod 64) 0) as [->|]; [apply mask_all|]. replace 64 with (s mod 64 + (64 - s mod 64)) at 2 by lia. apply mask_any; lia. }
    pose proof (search_word q w (s mod 64) 64 _ E U W M ltac:(lia) ltac:(lia)) as K. replace (64 * Z.of_nat q + s mod 64) with s in K by lia.
    destruct (Z.land w _ =? 0); cbn [negb].
    + destruct (find_next_words_ok (n - 1) (S q) ((e - 1) mod 64 + 1)) as (r & Er & F); try lia. exists r.
      replace (Z.to_nat (Z.of_nat (3 + q + n) - Z.of_nat (3 + q) - 1)) with (n - 1)%nat by lia.
      replace (Z.of_nat (3 + q) + 1) with (Z.of_nat (3 + S q)) by lia. split; [exact Er|].
      apply first_set_next with (64 * Z.of_nat q + 64); [lia|exact K|]. replace (64 * Z.of_nat q + 64) with (64 * Z.of_nat (S q)) by lia.
      now replace (64 * Z.of_nat (S q + (n - 1)) + ((e - 1) mod 64 + 1)) with e in F by lia.
    + destruct K as (i & Ei & (F1 & F2 & F3)). exists (Some i). split; [exact Ei|]. split; [lia|]. now split.
Qed.

End Search.

Definition find_error (start end_index length : Z) : option Z :=
  if start <? 0 then Some 2 else if end_index <? 0 then Some 3 else if length <? end_index then Some 3
  else if end_index <? start then Some 2 else None.

Lemma Prim_bitstr_find_next_set_bit_ok {h b length ws} (B : bit_string h b length ws) s e : fixnum_range s -> fixnum_range e ->
  ~ whole_zero_word (h := h) (b := b) s e ->
  let result := Prim_bitstr_find_next_set_bit (Pointer TC_BIT_STRING b) (fix_object s) (fix_object e) h in
  match find_error s e length with
  | Some n => result = Return (inr (bad_range_arg n), h)
  | None => exists r, result = Return (inl (match r with Some i => LONG_TO_UNSIGNED_FIXNUM i | None => SHARP_F end), h) /\ first_set h b s e r
  end.
Proof.
  intros F1 F2 N. cbv zeta. unfold Prim_bitstr_find_next_set_bit, find_error. rewrite CHECK_ARG_passes by reflexivity.
  destruct (Z.ltb_spec s 0); [apply (decoded_false 2 s h (0 <=? s)); [now apply arg_fixnum|now apply Z.leb_gt]|].
  rewrite (decoded_true 2 s h (0 <=? s) _ _ (arg_fixnum 2 s h F1)) by now apply Z.leb_le.
  destruct (Z.ltb_spec e 0); [apply (decoded_false 3 e h (0 <=? e)); [now apply arg_fixnum|now apply Z.leb_gt]|].
  rewrite (decoded_true 3 e h (0 <=? e) _ _ (arg_fixnum 3 e h F2)) by now apply Z.leb_le.
  rewrite (pthen_return _ _ _ _ _ (run_operation_ok _ _ _ _ (bit_string_length_ok B _))). rewrite !Z.gtb_ltb.
  destruct (Z.ltb_spec length e); cbn [negb]; [apply unless_false|]. rewrite unless_true.
  destruct (Z.ltb_spec e s); cbn [negb]; [apply unless_false|]. rewrite unless_true.
  destruct (Z.eqb_spec s e) as [->|Ne]; [exists None; split; [reflexivity|intros j Hj; lia]|].
  destruct (find_next_set_bit_ok B TC_BIT_STRING s e) as (r & E & F); try lia; [exact N|].
  erewrite pthen_return by (apply run_operation_ok; exact E). now exists r.
Qed.

(** ** Allocation *)

(** The blocks of [h] are those of [h'], which has one more. *)
Definition one_more (h h' : heap) : Prop :=
  List.length (blocks h') = S (List.length (blocks h)) /\ forall c, (c < List.length (blocks h))%nat -> block_of h' c = block_of h c.

Definition new_bit_string (h : heap) (length : Z) (bits : Z -> bool -> Prop) '((o, h') : object * heap) : Prop :=
  o = Pointer TC_BIT_STRING (List.length (blocks h)) /\ one_more h h' /\
  exists ws, bit_string h' (List.length (blocks h)) length ws /\
    forall k, 0 <= k < 64 * zlength ws -> bits k (bit h' (List.length (blocks h)) k).

Lemma allocate_bit_string_ok stale h length : 0 <= length < 2 ^ 57 -> (length + 63) / 64 + 2 <= available h ->
  returns (allocate_bit_string stale length h) (new_bit_string h length (fun _ _ => True)).
Proof.
  intros L A. unfold allocate_bit_string, OBJECT_LENGTH. rewrite to_ulong_small by lia. replace (length + (64 - 1)) with (length + 63) by lia.
  set (n := (length + 63) / 64) in *. assert (0 <= n) by (apply Z.div_pos; lia). assert (n < 2 ^ 57) by (apply Z.div_lt_upper_bound; lia).
  set (data := map (fun i => to_ulong (stale h i)) (seq 1 (Z.to_nat n))).
  assert (E : allocate_non_marked_vector stale TC_BIT_STRING (1 + n) true h =
    Return (Pointer TC_BIT_STRING (List.length (blocks h)),
            allocated h (map Immediate (bit_string_header (zlength data) :: to_ulong (stale h 0%nat) :: data)))).
  { unfold allocate_non_marked_vector. erewrite andthen_return by (unfold Primitive_GC_If_Needed; rewrite HEAP_AVAILABLE_enough by lia; reflexivity).
    unfold allocate_vector_nm, allocate, allocated, data. rewrite !map_cons, length_map, length_seq, map_map.
    unfold bit_string_header, MAKE_OBJECT. replace (Z.to_nat (1 + n)) with (S (Z.to_nat n)) by lia. cbn [seq map].
    now replace (Z.of_nat (Z.to_nat n) + 1) with (1 + n) by lia. }
  erewrite andthen_return by exact E. clear E. set (b := List.length (blocks h)). set (words' := map Immediate _). set (h1 := allocated h words').
  assert (D : zlength data = n) by (unfold data; rewrite length_map, length_seq; lia).
  assert (B1 : block_of h1 b = Some words') by apply block_allocated_new.
  erewrite andthen_return.
  2: { unfold BIT_STRING_LENGTH_OFFSET. apply (MEMORY_SET_ok h1 TC_BIT_STRING b 1 (Immediate (to_ulong (stale h 0%nat)))).
       unfold content. cbn [fst snd]. now rewrite B1. }
  eexists. split; [reflexivity|]. split; [reflexivity|]. split.
  - split; [rewrite length_stored; unfold h1, allocated; cbn [blocks]; rewrite length_app; cbn [List.length]; lia|].
    intros c Hc. rewrite block_stored. destruct (Nat.eqb_spec b c); [unfold b in *; lia|]. now apply block_allocated_old.
  - exists data. split; [|auto]. constructor; [split| |]; try lia.
    + fold b. now rewrite block_stored, Nat.eqb_refl, B1.
    + repeat constructor; try lia.
      * unfold bit_string_header. rewrite MAKE_OBJECT_sum; unfold TC_MANIFEST_NM_VECTOR; lia.
      * unfold bit_string_header. rewrite MAKE_OBJECT_sum; unfold TC_MANIFEST_NM_VECTOR; lia.
      * apply Forall_forall. intros w (i & <- & _)%in_map_iff. apply to_ulong_range.
Qed.

(** A new string, once its bits are set. *)
Lemma new_bits_changed h length (o : object) h1 f (m : operation unit) : new_bit_string h length (fun _ _ => True) (o, h1) ->
  (forall ws, bit_string h1 (List.length (blocks h)) length ws ->
     returns (m h1) (bits_changed (h := h1) (b := List.length (blocks h)) (length := length) (ws := ws) f)) ->
  returns ((m ;; ret o)%heap h1) (new_bit_string h length (fun k v => v = f k)).
Proof.
  intros (-> & (L & O) & ws & B & _) M. destruct (M ws B) as ([[] h2] & E & C & (ws' & B') & K). erewrite andthen_return by exact E.
  eexists. split; [reflexivity|]. split; [reflexivity|]. split.
  - split; [now rewrite (same_length _ _ _ C)|]. intros c Hc. rewrite (changes_block _ _ _ _ C); [now apply O|]. cbn [fst]. lia.
  - exists ws'. split; [exact B'|]. intros k Hk. apply K. pose proof (bs_words _ _ _ _ B). pose proof (bs_words _ _ _ _ B'). lia.
Qed.

Lemma zero_to_bit_string_ok stale h length : 0 <= length < 2 ^ 57 -> (length + 63) / 64 + 2 <= available h ->
  returns (zero_to_bit_string stale length h) (new_bit_string h length (fun _ v => v = false)).
Proof.
  intros L A. unfold zero_to_bit_string. destruct (allocate_bit_string_ok stale h length L A) as ([o h1] & E & N). erewrite andthen_return by exact E.
  apply (new_bits_changed h length o h1 (fun _ => false)); [exact N|]. intros ws B. destruct N as (-> & _). now apply clear_bit_string_ok.
Qed.

(** MAKE-BIT-STRING makes a string of equal bits, BIT-STRING-FILL! fills one. *)
Lemma Prim_make_bit_string_ok stale h length initialization : 0 <= length < 2 ^ 57 -> (length + 63) / 64 + 2 <= available h ->
  returns (Prim_make_bit_string stale (Immediate (Object.LONG_TO_FIXNUM length)) initialization h)
    (fun '(r, h') => exists o, r = inl o /\ new_bit_string h length (fun _ v => v = OBJECT_TO_BOOLEAN initialization) (o, h')).
Proof.
  intros L A. assert (F : fixnum_range length) by (unfold fixnum_range, SMALLEST_FIXNUM, BIGGEST_FIXNUM; lia).
  unfold Prim_make_bit_string. rewrite (pthen_return _ _ _ length h).
  2: { rewrite (decoded_ulong_ok 1 h _ length (fixnum_denotes h length F) (fixnum_moderate length F)). unfold decoded.
       destruct (Z.leb_spec 0 length), (Z.ltb_spec length (2 ^ 64)); try lia; reflexivity. }
  destruct (allocate_bit_string_ok stale h length L A) as ([o h1] & E & N).
  rewrite (pthen_return _ _ _ _ _ (run_operation_ok _ _ _ _ E)).
  destruct (new_bits_changed h length o h1 (fun _ => OBJECT_TO_BOOLEAN initialization) (fill_bit_string o (OBJECT_TO_BOOLEAN initialization)) N) as ([o' h2] & E2 & N2).
  { intros ws B. destruct N as (-> & _). now apply fill_bit_string_ok. }
  revert E2. unfold andthen, pthen, run_operation. destruct (fill_bit_string o _ h1) as [[u h3]| | |]; cbn [bind]; try discriminate.
  intros [= -> ->]. eexists. split; [reflexivity|]. now exists o'.
Qed.

Lemma Prim_bit_string_fill_x_ok {h b length ws} (B : bit_string h b length ws) initialization :
  returns (Prim_bit_string_fill_x (Pointer TC_BIT_STRING b) initialization h) (fun '(r, h') => r = inl UNSPECIFIC /\
    changes (fun a => fst a = b) h h' /\ (exists ws', bit_string h' b length ws') /\
    forall k, 0 <= k < length -> bit h' b k = OBJECT_TO_BOOLEAN initialization).
Proof.
  unfold Prim_bit_string_fill_x. rewrite CHECK_ARG_passes by reflexivity.
  destruct (fill_bit_string_ok B TC_BIT_STRING (OBJECT_TO_BOOLEAN initialization)) as ([u h'] & E & C & B' & K).
  rewrite (pthen_return _ _ _ _ _ (run_operation_ok _ _ _ _ E)). eexists. split; [reflexivity|]. split; [reflexivity|]. split; [exact C|].
  split; [exact B'|]. intros k Hk. apply K. pose proof (bit_string_words B). lia.
Qed.

Lemma Prim_bit_string_length_ok {h b length ws} (B : bit_string h b length ws) :
  Prim_bit_string_length (Pointer TC_BIT_STRING b) h = Return (inl (LONG_TO_UNSIGNED_FIXNUM length), h).
Proof.
  unfold Prim_bit_string_length. rewrite CHECK_ARG_passes by reflexivity.
  now rewrite (pthen_return _ _ _ _ _ (run_operation_ok _ _ _ _ (bit_string_length_ok B _))).
Qed.

Lemma Prim_bit_string_zero_p_ok {h b length ws} (B : bit_string h b length ws) :
  exists r, Prim_bit_string_zero_p (Pointer TC_BIT_STRING b) h = Return (inl (BOOLEAN_TO_OBJECT r), h) /\
    (r = true <-> forall k, 0 <= k < length -> bit h b k = false).
Proof.
  unfold Prim_bit_string_zero_p. rewrite CHECK_ARG_passes by reflexivity. destruct (bit_string_zero_p_ok B TC_BIT_STRING) as (r & E & H).
  exists r. split; [|exact H]. now rewrite (pthen_return _ _ _ _ _ (run_operation_ok _ _ _ _ E)).
Qed.

(** An argument that is no bit string. *)
Lemma bit_string_type_error h o : BIT_STRING_P o = false -> forall o2,
  Prim_bit_string_length o h = Return (inr (wrong_type_arg 1), h) /\ Prim_bit_string_zero_p o h = Return (inr (wrong_type_arg 1), h) /\
  Prim_bit_string_fill_x o o2 h = Return (inr (wrong_type_arg 1), h) /\ Prim_bit_string_equal_p o o2 h = Return (inr (wrong_type_arg 1), h) /\
  Prim_bit_string_ref o o2 h = Return (inr (wrong_type_arg 1), h) /\ forall prim g, bitwise_primitive prim g -> prim o o2 h = Return (inr (wrong_type_arg 1), h).
Proof.
  intros T o2. repeat split; try (now apply CHECK_ARG_fails).
  - unfold Prim_bit_string_ref. apply pthen_signal. now apply CHECK_ARG_fails.
  - intros prim g (action & -> & _)%bitwise_action. now apply CHECK_ARG_fails.
Qed.
