(* ===== verification/BitStringConv.v ===== *)
(** * bitstr.c: proofs about the conversions

    Between nonnegative integers and bit strings: the bits of the string are
    those of the integer, and the conversions are inverse to each other. *)

From Stdlib Require Import ZArith List Bool Lia.
From S2P Require Import Prelude Bits Object Fixnum Bignum BignumBits BignumConv Integer IntPrim Heap HeapPrim BitString BitStringPrim.
Import ListNotations.

#[local] Open Scope Z_scope.

(** ** Significant bits *)

Lemma significant_bits_loop_ok fuel : forall number nbits, ulong_p number -> 1 <= nbits <= 64 -> 64 <= Z.of_nat fuel + nbits ->
  (nbits = 1 \/ 2 ^ (nbits - 1) <= number) ->
  exists n, significant_bits_loop fuel number (2 ^ nbits - 1) nbits = Return n /\ 1 <= n <= 64 /\ number < 2 ^ n /\ (n = 1 \/ 2 ^ (n - 1) <= number).
Proof.
  induction fuel as [|fuel IH]; intros number nbits U Hn F L; cbn [significant_bits_loop]; destruct (Z.leb_spec number (2 ^ nbits - 1)).
  - exists nbits. repeat split; auto; lia.
  - replace nbits with 64 in * by lia. unfold ulong_p in U. lia.
  - exists nbits. repeat split; auto; lia.
  - assert (nbits < 64). { destruct (Z.eq_dec nbits 64) as [->|]; [unfold ulong_p in U; lia|lia]. }
    assert (P : 2 ^ (nbits + 1) = 2 * 2 ^ nbits) by (rewrite Z.pow_add_r by lia; change (2 ^ 1) with 2; lia).
    assert (2 ^ (nbits + 1) <= 2 ^ 64) by (apply Z.pow_le_mono_r; lia). assert (0 < 2 ^ nbits) by (apply Z.pow_pos_nonneg; lia).
    rewrite to_ulong_small by lia. replace ((2 ^ nbits - 1) * 2 + 1) with (2 ^ (nbits + 1) - 1) by lia.
    apply IH; try lia; [exact U|]. right. replace (nbits + 1 - 1) with nbits by lia. lia.
Qed.

Lemma ulong_significant_bits_ok number : ulong_p number ->
  exists n, ulong_significant_bits number = Return n /\ 1 <= n <= 64 /\ number < 2 ^ n /\ (n = 1 \/ 2 ^ (n - 1) <= number).
Proof. intros U. apply (significant_bits_loop_ok 63 number 1 U); lia. Qed.

(** ** Numerals in base 256 *)

Lemma positional_bit l p : digits_below 256 l -> 0 <= p -> Z.testbit (positional 256 l) p = Z.testbit (nth (Z.to_nat (p / 8)) l 0) (p mod 8).
Proof.
  intros D Hp. set (k := Z.to_nat (p / 8)). assert (0 <= p / 8) by (apply Z.div_pos; lia). pose proof (Z.div_mod p 8). pose proof (Z.mod_pos_bound p 8).
  replace p with (p mod 8 + 8 * Z.of_nat k) at 1 by lia. rewrite <- Z.shiftr_spec by lia. change 256 with (2 ^ 8).
  rewrite positional_shiftr by (lia || exact D). rewrite <- (firstn_skipn k l) in D. apply digits_below_app in D as [_ D].
  rewrite <- (Nat.add_0_r k) at 2. rewrite <- nth_skipn. destruct (skipn k l) as [|d l']; [cbn [positional nth]; now rewrite Z.bits_0|].
  cbn [positional nth]. apply digits_below_cons in D as [Hd _].
  rewrite <- (Z.mod_pow2_bits_low (d + 2 ^ 8 * positional (2 ^ 8) l') 8) by lia.
  rewrite Z.mul_comm, Z.mod_add, Z.mod_small by lia. reflexivity.
Qed.

(** ** From integers *)

Lemma bits_below z n t : 0 <= z < 2 ^ n -> n <= t -> Z.testbit z t = false.
Proof.
  intros H Ht. destruct (Z.eq_dec z 0) as [->|]; [apply Z.bits_0|]. apply Z.bits_above_log2; [lia|].
  apply Z.lt_le_trans with n; [apply Z.log2_lt_pow2; lia|exact Ht].
Qed.

(** A new string that holds the integer [z]. *)
Definition holds (h : heap) (length z : Z) : object * heap -> Prop := new_bit_string h length (fun k v => v = Z.testbit z k).

Lemma new_bit_string_weaken h length (P Q : Z -> bool -> Prop) r : new_bit_string h length P r -> (forall k v, P k v -> Q k v) -> new_bit_string h length Q r.
Proof. destruct r as [o h']. intros (E & O & ws & B & K) I. split; [exact E|]. split; [exact O|]. exists ws. split; [exact B|]. intros k Hk. now apply I, K. Qed.

Lemma run_operation_returns {A B} (m : operation A) (k : A -> procedure B) h (P : A * heap -> Prop) (Q : (B + signal) * heap -> Prop) :
  returns (m h) P -> (forall a h', P (a, h') -> returns (k a h') Q) -> returns (pthen (run_operation m) k h) Q.
Proof. intros ([a h'] & E & H) K. rewrite (pthen_return _ _ _ _ _ (run_operation_ok _ _ _ _ E)). now apply K. Qed.

(** The outcome of a conversion: the string, or the integer is too large. *)
Definition converted (h : heap) (length z : Z) (m : outcome ((object + signal) * heap)) : Prop :=
  if z <? 2 ^ length then returns m (fun '(r, h') => exists o, r = inl o /\ holds h length z (o, h'))
  else m = Return (inr (bad_range_arg 2), h).

Lemma ulong_to_bit_string_ok stale h length z : 0 <= length < 2 ^ 57 -> (length + 63) / 64 + 2 <= available h -> ulong_p z ->
  converted h length z (ulong_to_bit_string stale length z h).
Proof.
  intros L A U. assert (0 < 2 ^ length) by (apply Z.pow_pos_nonneg; lia). unfold converted, ulong_to_bit_string. destruct (Z.eqb_spec z 0) as [->|Ne].
  { destruct (Z.ltb_spec 0 (2 ^ length)); [|lia]. destruct (zero_to_bit_string_ok stale h length L A) as ([o h'] & E & N).
    exists (inl o, h'). split; [now apply run_operation_ok|]. exists o. split; [reflexivity|]. apply new_bit_string_weaken with (1 := N).
    intros k v ->. now rewrite Z.bits_0. }
  destruct (ulong_significant_bits_ok z U) as (n & E & Hn & Up & Lo). rewrite (pthen_return _ _ _ n h) by (apply run_operation_ok, pure_return, E).
  assert (C : (length <? n) = negb (z <? 2 ^ length)).
  { destruct (Z.ltb_spec length n), (Z.ltb_spec z (2 ^ length)); try reflexivity; exfalso.
    - destruct Lo as [->|Lo]; [replace length with 0 in * by lia; change (2 ^ 0) with 1 in *; unfold ulong_p in U; lia|].
      assert (2 ^ length <= 2 ^ (n - 1)) by (apply Z.pow_le_mono_r; lia). lia.
    - assert (2 ^ n <= 2 ^ length) by (apply Z.pow_le_mono_r; lia). lia. }
  rewrite C, negb_involutive. destruct (Z.ltb_spec z (2 ^ length)); [rewrite unless_true|apply unless_false].
  apply run_operation_returns with (1 := zero_to_bit_string_ok stale h length L A). intros o h1 (-> & O & ws & B & K).
  assert (Hw : (0 < List.length ws)%nat).
  { pose proof (bit_string_words B). assert (0 < length); [|lia]. destruct (Z.eq_dec length 0) as [->|]; [|lia]. change (2 ^ 0) with 1 in *. unfold ulong_p in U. lia. }
  erewrite pthen_return by (apply run_operation_ok; reflexivity). change (Z.to_nat (BIT_STRING_INDEX_TO_WORD 0)) with 3%nat.
  destruct (stored_bits h1 _ _ 2 z (bs_raw _ _ _ _ B)) as (h2 & E2 & C2 & (ws2 & R2 & L2) & V2); [cbn [List.length]; lia|].
  erewrite pthen_return by (apply run_operation_ok; exact E2). eexists. split; [reflexivity|]. eexists. split; [reflexivity|].
  split; [reflexivity|]. split.
  - destruct O as [O1 O2]. split; [now rewrite (same_length _ _ _ C2)|]. intros c Hc. rewrite (changes_block _ _ _ _ C2); [now apply O2|]. cbn [fst]. lia.
  - destruct (bit_string_kept B h2 ws2 R2 L2) as (ws3 & B3 & L3).
    { intros p Hp. rewrite V2 by lia. destruct (Z.leb_spec (64 * Z.of_nat 2) p); [lia|reflexivity]. }
    exists ws3. split; [exact B3|]. intros k Hk. unfold bit. rewrite V2 by lia. destruct (Z.leb_spec (64 * Z.of_nat 2) (128 + k)); [|lia].
    destruct (Z.ltb_spec (128 + k) (64 * Z.of_nat 2 + 64)); cbn [andb]; [f_equal; lia|]. rewrite (bit_high z) by (assumption || lia). apply K. lia.
Qed.

(** A byte stored in a block. *)
Lemma store_byte_ok h b ws n byte : raw h b ws -> (n < 8 * List.length ws)%nat -> 0 <= byte < 256 ->
  returns (store_byte (b, n) byte h) (fun '(_, h') => changes (fun a => fst a = b) h h' /\
    (exists ws', raw h' b ws' /\ List.length ws' = List.length ws) /\
    forall p, 0 <= p -> bit_at h' b p =
      if (8 * Z.of_nat n <=? p) && (p <? 8 * Z.of_nat n + 8) then Z.testbit byte (p - 8 * Z.of_nat n) else bit_at h b p).
Proof.
  intros R L H. unfold store_byte. cbn [fst snd]. pose proof (Nat.div_mod_eq n 8). pose proof (Nat.mod_upper_bound n 8 ltac:(lia)).
  assert (Li : (n / 8 < List.length ws)%nat) by lia. destruct (raw_word h b ws (n / 8) R Li) as (w & E & U & W).
  assert (Lw : load_word (b, (n / 8)%nat) h = Return (w, h)) by exact E. erewrite andthen_return by exact Lw.
  set (v := Z.lor _ _). destruct (stored_bits h b ws (n / 8) v R Li) as (h' & E' & C & R' & V).
  exists (tt, h'). split; [exact E'|]. split; [exact C|]. split; [exact R'|]. intros p Hp. rewrite V by exact Hp. clear V E' E Lw.
  set (i := Z.of_nat (n / 8)) in *. set (s := Z.of_nat (n mod 8)) in *. replace (Z.of_nat n) with (8 * i + s) by lia.
  destruct (Z.leb_spec (64 * i) p), (Z.ltb_spec p (64 * i + 64)), (Z.leb_spec (8 * (8 * i + s)) p), (Z.ltb_spec p (8 * (8 * i + s) + 8)); try lia; cbn [andb];
    try reflexivity; unfold v; rewrite Z.lor_spec, Z.ldiff_spec, !bit_shl by lia.
  - change 255 with (Z.ones 8). rewrite Z.land_spec, !bit_ones by lia.
    destruct (Z.leb_spec 0 (p - 64 * i - 8 * s)), (Z.ltb_spec (p - 64 * i - 8 * s) 8); try lia. cbn [andb negb]. rewrite andb_false_r, andb_true_r.
    cbn [orb]. f_equal. lia.
  - change 255 with (Z.ones 8). rewrite Z.land_spec, !bit_ones by lia.
    destruct (Z.ltb_spec (p - 64 * i - 8 * s) 8); try lia. rewrite !andb_false_r, orb_false_r, andb_true_r, W by lia. f_equal. lia.
  - rewrite !(bit_low _ (p - 64 * i - 8 * s)) by lia. rewrite orb_false_r, andb_true_r, W by lia. f_equal. lia.
Qed.

Lemma positional_cons_bit d l t : digits_below 256 (d :: l) -> 0 <= t ->
  Z.testbit (positional 256 (d :: l)) t = if t <? 8 then Z.testbit d t else Z.testbit (positional 256 l) (t - 8).
Proof.
  intros D Ht. rewrite positional_bit by assumption. apply digits_below_cons in D as [_ D]. destruct (Z.ltb_spec t 8).
  - rewrite Z.div_small, Z.mod_small by lia. reflexivity.
  - rewrite positional_bit by (assumption || lia). assert (1 <= t / 8) by (apply Z.div_le_lower_bound; lia).
    replace (t - 8) with (t + (-1) * 8) by lia. rewrite Z.div_add, Z.mod_add by lia.
    replace (Z.to_nat (t / 8)) with (S (Z.to_nat (t / 8 + -1))) by lia. reflexivity.
Qed.

Lemma btbs_consumer_ok b ds : forall h ws n, raw h b ws -> (n + length ds <= 8 * length ws)%nat -> digits_below 256 ds ->
  returns (btbs_consumer (b, n) ds h) (fun '(_, h') => changes (fun a => fst a = b) h h' /\
    (exists ws', raw h' b ws' /\ length ws' = length ws) /\
    forall p, 0 <= p -> bit_at h' b p =
      if (8 * Z.of_nat n <=? p) && (p <? 8 * Z.of_nat (n + length ds)) then Z.testbit (positional 256 ds) (p - 8 * Z.of_nat n) else bit_at h b p).
Proof.
  induction ds as [|d ds IH]; intros h ws n R L D; cbn [btbs_consumer length] in *.
  { exists (tt, h). split; [reflexivity|]. split; [apply changes_refl|]. split; [now exists ws|]. intros p Hp.
    destruct (Z.leb_spec (8 * Z.of_nat n) p), (Z.ltb_spec p (8 * Z.of_nat (n + 0))); try lia; reflexivity. }
  pose proof D as [Hd D']%digits_below_cons.
  destruct (store_byte_ok h b ws n d R ltac:(lia) Hd) as ([[] h1] & E & C1 & (ws1 & R1 & L1) & V1). erewrite andthen_return by exact E.
  unfold INC_BIT_STRING_PTR. cbn [fst snd]. eapply returns_weaken; [apply (IH h1 ws1 (S n) R1); [lia|exact D']|].
  intros [_ h'] (C2 & (ws' & R' & L') & V2). split; [now apply changes_trans with h1|]. split; [exists ws'; split; [exact R'|congruence]|].
  intros p Hp. rewrite V2, V1 by exact Hp.
  destruct (Z.leb_spec (8 * Z.of_nat (S n)) p), (Z.ltb_spec p (8 * Z.of_nat (S n + length ds))), (Z.leb_spec (8 * Z.of_nat n) p),
    (Z.ltb_spec p (8 * Z.of_nat n + 8)), (Z.ltb_spec p (8 * Z.of_nat (n + S (length ds)))); try lia; cbn [andb]; try reflexivity;
    rewrite positional_cons_bit by (assumption || lia).
  - destruct (Z.ltb_spec (p - 8 * Z.of_nat n) 8); [lia|]. f_equal. lia.
  - destruct (Z.ltb_spec (p - 8 * Z.of_nat n) 8); [reflexivity|lia].
Qed.

(** A number below [256 ^ n] has at most [n] digits. *)
Lemma stream_length ds n : digits_below 256 ds -> last ds 1 <> 0 -> positional 256 ds < 256 ^ Z.of_nat n -> (length ds <= n)%nat.
Proof.
  revert n. induction ds as [|d ds IH]; intros n D La Hp; [cbn; lia|]. apply digits_below_cons in D as [Hd D].
  cbn [positional length] in *. destruct n as [|n].
  - exfalso. change (256 ^ Z.of_nat 0) with 1 in Hp. destruct ds as [|d2 ds]; [cbn [positional last] in *; lia|].
    pose proof (positional_range 256 (d2 :: ds) ltac:(lia) D). assert (positional 256 (d2 :: ds) = 0) by lia.
    specialize (IH 0%nat D La). cbn [length] in IH. change (256 ^ Z.of_nat 0) with 1 in IH. lia.
  - rewrite Nat2Z.inj_succ, Z.pow_succ_r in Hp by lia. destruct ds as [|d2 ds]; [cbn; lia|].
    apply le_n_S, IH; [exact D|exact La|]. pose proof (positional_range 256 (d2 :: ds) ltac:(lia) D). lia.
Qed.

Lemma bignum_to_bit_string_ok stale h length z b : 0 < length < 2 ^ 32 -> (length + 63) / 64 + 2 <= available h ->
  represents z b -> moderate z -> 0 <= z -> converted h length z (bignum_to_bit_string stale length b h).
Proof.
  intros L A Rb M Hz. destruct Rb as [Wb Vb]. assert (0 < 2 ^ length) by (apply Z.pow_pos_nonneg; lia).
  assert (L57 : 0 <= length < 2 ^ 57) by lia. unfold converted, bignum_to_bit_string. rewrite bignum_test_ok, Vb by exact Wb.
  destruct (Z.compare_spec z 0) as [->|?|Hp]; [|lia|]; cbn [of_comparison].
  { destruct (Z.ltb_spec 0 (2 ^ length)); [|lia]. destruct (zero_to_bit_string_ok stale h length L57 A) as ([o h'] & E & N).
    exists (inl o, h'). split; [now apply run_operation_ok|]. exists o. split; [reflexivity|]. apply new_bit_string_weaken with (1 := N).
    intros k v ->. now rewrite Z.bits_0. }
  assert (BL : BIGNUM_LENGTH b < 2 ^ 32).
  { pose proof (moderate_length b Wb ltac:(now rewrite Vb)). pose proof moderate_digits_eq. lia. }
  destruct (bignum_fits_in_word_p_unsigned_ok b length Wb ltac:(lia) BL) as (fits & E & F). rewrite Vb in F.
  rewrite (pthen_return _ _ _ fits h) by (apply run_operation_ok, pure_return, E).
  destruct (Z.ltb_spec z (2 ^ length)) as [Hl|Hl].
  2: { replace fits with false; [apply unless_false|]. destruct fits; [|reflexivity]. lia. }
  replace fits with true by (symmetry; apply F; lia). rewrite unless_true.
  apply run_operation_returns with (1 := zero_to_bit_string_ok stale h length L57 A). intros o h1 (-> & O & ws & B & K).
  erewrite pthen_return by (apply run_operation_ok; reflexivity).
  destruct (bignum_to_digit_stream_ok b 256 Wb) as (ds & Es & D & P & La); [vm_compute; now split|].
  assert (Pz : positional 256 ds = z). { rewrite P, <- Vb. apply nonnegative_magnitude; [exact Wb|lia]. }
  rewrite (pthen_return _ _ _ ds h1) by (apply run_operation_ok, pure_return, Es).
  pose proof (bit_string_words B). assert (Ld : (List.length ds <= 8 * List.length ws)%nat).
  { apply stream_length; [exact D|exact La|]. rewrite Pz. apply Z.lt_le_trans with (1 := Hl). change 256 with (2 ^ 8).
    rewrite <- Z.pow_mul_r by lia. apply Z.pow_le_mono_r; lia. }
  destruct (btbs_consumer_ok (List.length (blocks h)) ds h1 _ 16 (bs_raw _ _ _ _ B)) as ([[] h2] & E2 & C2 & (ws2 & R2 & L2) & V2);
    [cbn [List.length]; lia|exact D|].
  erewrite pthen_return by (apply run_operation_ok; exact E2). eexists. split; [reflexivity|]. eexists. split; [reflexivity|].
  split; [reflexivity|]. split.
  - destruct O as [O1 O2]. split; [now rewrite (same_length _ _ _ C2)|]. intros c Hc. rewrite (changes_block _ _ _ _ C2); [now apply O2|]. cbn [fst]. lia.
  - destruct (bit_string_kept B h2 ws2 R2 L2) as (ws3 & B3 & L3).
    { intros p Hp2. rewrite V2 by lia. destruct (Z.leb_spec (8 * Z.of_nat 16) p); [lia|reflexivity]. }
    exists ws3. split; [exact B3|]. intros k Hk. unfold bit. rewrite V2 by lia. destruct (Z.leb_spec (8 * Z.of_nat 16) (128 + k)); [|lia].
    destruct (Z.ltb_spec (128 + k) (8 * Z.of_nat (16 + List.length ds))); cbn [andb]; [rewrite Pz; f_equal; lia|].
    rewrite (bits_below z (8 * zlength ds)).
    + apply K. lia.
    + pose proof (positional_range 256 ds ltac:(lia) D) as Pr. change 256 with (2 ^ 8) in Pr at 3. rewrite <- Z.pow_mul_r in Pr by lia. lia.
    + lia.
Qed.

(** ** To integers *)

(** The integer whose bits are those of the string. *)
Definition string_value (h : heap) (b : nat) (length z : Z) : Prop :=
  0 <= z < 2 ^ length /\ forall k, 0 <= k < length -> Z.testbit z k = bit h b k.

Lemma load_byte_ok h b ws n : raw h b ws -> (n < 8 * List.length ws)%nat ->
  exists v, load_byte (b, n) h = Return (v, h) /\ 0 <= v < 256 /\ forall t, 0 <= t < 8 -> Z.testbit v t = bit_at h b (8 * Z.of_nat n + t).
Proof.
  intros R L. pose proof (Nat.div_mod_eq n 8). pose proof (Nat.mod_upper_bound n 8 ltac:(lia)).
  destruct (raw_word h b ws (n / 8) R ltac:(lia)) as (w & E & U & W). unfold load_byte. cbn [fst snd].
  assert (Lw : load_word (b, (n / 8)%nat) h = Return (w, h)) by exact E. erewrite andthen_return by exact Lw.
  eexists. split; [reflexivity|]. split; [change 255 with (Z.ones 8); rewrite Z.land_ones by lia; apply Z.mod_pos_bound; lia|].
  intros t Ht. change 255 with (Z.ones 8). rewrite Z.land_spec, bit_ones, bit_shr by lia.
  destruct (Z.leb_spec 0 t), (Z.ltb_spec t 8); try lia. cbn [andb]. rewrite andb_true_r, W by lia. f_equal. lia.
Qed.

(** The bytes before a pointer, from the last to the first. *)
Lemma bstb_producer_ok h b ws base n : raw h b ws -> forall m, (base + n <= 8 * List.length ws)%nat -> 0 <= m <= 8 ->
  exists ds, bstb_producer n (b, (base + n)%nat) (Z.ones m) h = Return (rev ds, h) /\ List.length ds = n /\ digits_below 256 ds /\
    forall p, 0 <= p < 8 * Z.of_nat n -> Z.testbit (positional 256 ds) p =
      (p <? 8 * Z.of_nat n - 8 + m) && bit_at h b (8 * Z.of_nat base + p).
Proof.
  intros R. induction n as [|n IH]; intros m L Hm; cbn [bstb_producer].
  { exists []. repeat split; try constructor. intros p Hp. lia. }
  cbn [snd]. rewrite Nat.add_succ_r in *. cbn [Nat.eqb]. unfold DEC_BIT_STRING_PTR. cbn [fst snd pred].
  destruct (load_byte_ok h b ws (base + n) R ltac:(lia)) as (v & E & Hv & V). erewrite andthen_return by exact E.
  change 255 with (Z.ones 8). destruct (IH 8 ltac:(lia) ltac:(lia)) as (ds & Er & Ld & D & K). erewrite andthen_return by exact Er.
  assert (Mv : 0 <= Z.land (Z.ones m) v < 256).
  { rewrite Z.land_comm, Z.land_ones by lia. pose proof (Z.mod_pos_bound v (2 ^ m) ltac:(apply Z.pow_pos_nonneg; lia)).
    assert (2 ^ m <= 2 ^ 8) by (apply Z.pow_le_mono_r; lia). lia. }
  exists (ds ++ [Z.land (Z.ones m) v]). split; [now rewrite rev_app_distr|]. split; [rewrite length_app; cbn; lia|].
  assert (D2 : digits_below 256 (ds ++ [Z.land (Z.ones m) v])) by (apply digits_below_app; split; [exact D|now repeat constructor]).
  split; [exact D2|]. intros p Hp. rewrite positional_bit by (assumption || lia).
  destruct (Z.ltb_spec p (8 * Z.of_nat (S n) - 8 + m)); cbn [andb].
  - destruct (Z.lt_ge_cases p (8 * Z.of_nat n)).
    + rewrite app_nth1 by (rewrite Ld; assert (p / 8 < Z.of_nat n) by (apply Z.div_lt_upper_bound; lia); assert (0 <= p / 8) by (apply Z.div_pos; lia); lia).
      rewrite <- positional_bit by (assumption || lia). rewrite K by lia. destruct (Z.ltb_spec p (8 * Z.of_nat n - 8 + 8)); [reflexivity|lia].
    + assert (Q : p / 8 = Z.of_nat n) by (symmetry; apply Z.div_unique with (p - 8 * Z.of_nat n); lia).
      assert (Q2 : p mod 8 = p - 8 * Z.of_nat n) by (pose proof (Z.div_mod p 8); lia).
      rewrite app_nth2 by (rewrite Ld; lia). rewrite Q, Q2, Ld, Nat2Z.id, Nat.sub_diag. cbn [nth].
      rewrite Z.land_spec, bit_ones by lia. destruct (Z.leb_spec 0 (p - 8 * Z.of_nat n)), (Z.ltb_spec (p - 8 * Z.of_nat n) m); try lia.
      cbn [andb]. rewrite V by lia. f_equal. lia.
  - assert (Q : p / 8 = Z.of_nat n) by (symmetry; apply Z.div_unique with (p - 8 * Z.of_nat n); lia).
    assert (Q2 : p mod 8 = p - 8 * Z.of_nat n) by (pose proof (Z.div_mod p 8); lia).
    rewrite app_nth2 by (rewrite Ld; lia). rewrite Q, Q2, Ld, Nat2Z.id, Nat.sub_diag. cbn [nth].
    rewrite Z.land_spec, bit_ones by lia. destruct (Z.ltb_spec (p - 8 * Z.of_nat n) m); [lia|]. rewrite andb_false_r. reflexivity.
Qed.

Section ToInteger.
Context {h : heap} {b : nat} {length : Z} {ws : list Z} (B : bit_string h b length ws) (z : Z) (V : string_value h b length z).

Lemma bit_string_to_bignum_ok t nbits : length < 2 ^ 28 -> 57 < nbits <= length -> z < 2 ^ nbits ->
  exists r, bit_string_to_bignum nbits (Pointer t b) h = Return (r, h) /\ represents z r.
Proof.
  intros L Hn Hz. pose proof (bit_string_words B). unfold bit_string_to_bignum, BIT_STRING_INDEX_TO_WORD, BIT_STRING_FIRST_WORD, OBJECT_LENGTH.
  set (m := (nbits - 1) mod 8 + 1). pose proof (Z.mod_pos_bound (nbits - 1) 8). pose proof (Z.div_mod (nbits - 1) 8).
  set (nd := (nbits + 7) / 8). assert (Nd : nd = (nbits - 1) / 8 + 1).
  { unfold nd. replace (nbits + 7) with (nbits - 1 + 1 * 8) by lia. apply Z.div_add. lia. }
  assert (Nw : (nbits - 1) / 64 = (nd - 1) / 8).
  { replace (nd - 1) with ((nbits - 1) / 8) by lia. rewrite Z.div_div by lia. reflexivity. }
  pose proof (Z.mod_pos_bound (nd - 1) 8). pose proof (Z.div_mod (nd - 1) 8).
  erewrite andthen_return by (apply pure_return, LOW_MASK_ok; lia). erewrite andthen_return by reflexivity. cbn [fst snd].
  destruct (Z.eqb_spec nd 0); [lia|]. cbn [negb]. rewrite Z.quot_div_nonneg, Nw by lia.
  replace (8 * Z.to_nat (Z.of_nat 2 + 1 + (nd - 1) / 8) - Z.to_nat (8 - ((nd - 1) mod 8 + 1)))%nat with (16 + Z.to_nat nd)%nat by lia.
  destruct (bstb_producer_ok h b _ 16 (Z.to_nat nd) (bs_raw _ _ _ _ B) m) as (ds & E & Ld & D & K); [cbn [List.length]; lia|lia|].
  erewrite andthen_return by exact E.
  assert (P : produced list_producer (Z.to_nat nd) (rev ds) = rev ds) by (rewrite <- Ld, <- length_rev; apply produced_list).
  destruct (digit_stream_to_bignum_ok list_producer 256 ltac:(vm_compute; now split) (Z.to_nat nd) (rev ds) false) as (r & Er & Rr).
  { rewrite P. now apply Forall_rev. }
  { change (bit_length 256) with 9. lia. }
  exists r. split; [now apply pure_return|]. cbv zeta in Rr. rewrite P, horner_rev in Rr. replace z with (positional 256 ds); [exact Rr|].
  apply Z.bits_inj'. intros p Hp. destruct V as [Vz Vb]. destruct (Z.lt_ge_cases p (8 * Z.of_nat (Z.to_nat nd))).
  - rewrite K by lia. destruct (Z.ltb_spec p (8 * Z.of_nat (Z.to_nat nd) - 8 + m)); cbn [andb].
    + rewrite Vb by lia. unfold bit. reflexivity.
    + symmetry. apply (bits_below z nbits); lia.
  - rewrite (bits_below z nbits) by lia. apply (bits_below _ (8 * Z.of_nat (Z.to_nat nd))); [|lia].
    pose proof (positional_range 256 ds ltac:(lia) D) as Pr. change 256 with (2 ^ 8) in Pr at 3. rewrite <- Z.pow_mul_r, Ld in Pr by lia. lia.
Qed.

(** The word that the scan finds. *)
Lemma significant_word_ok n : forall w, (n <= List.length ws)%nat -> 0 <= z < 2 ^ (64 * Z.of_nat n) ->
  64 * Z.of_nat n <= length + 63 -> ulong_p w ->
  ((0 < n)%nat -> forall t, 0 <= t < 64 -> Z.testbit w t = Z.testbit z (64 * (Z.of_nat n - 1) + t)) ->
  exists n' w', significant_word n (b, S n) w h = Return ((n', w'), h) /\
    ((n' = 0%nat /\ z = 0) \/ ((0 < n' <= n)%nat /\ 0 < w' /\ ulong_p w' /\ Z.shiftr z (64 * (Z.of_nat n' - 1)) = w')).
Proof.
  induction n as [|n IH]; intros w L Hz Hl U W; cbn [significant_word].
  { exists 0%nat, w. split; [reflexivity|]. left. split; [reflexivity|]. change (2 ^ (64 * Z.of_nat 0)) with 1 in Hz. lia. }
  specialize (W ltac:(lia)). destruct (Z.eqb_spec w 0) as [->|Ne]; cbn [negb].
  - assert (Hz2 : 0 <= z < 2 ^ (64 * Z.of_nat n)).
    { split; [lia|]. destruct (Z.lt_ge_cases z (2 ^ (64 * Z.of_nat n))) as [|G]; [assumption|exfalso].
      pose proof (Z.log2_le_mono _ _ G) as Q. rewrite Z.log2_pow2 in Q by lia. assert (Q2 : Z.log2 z < 64 * Z.of_nat (S n)) by (apply Z.log2_lt_pow2; lia).
      assert (T : Z.testbit z (Z.log2 z) = true) by (apply Z.bit_log2; assert (0 < 2 ^ (64 * Z.of_nat n)) by (apply Z.pow_pos_nonneg; lia); lia).
      specialize (W (Z.log2 z - 64 * Z.of_nat n) ltac:(lia)). rewrite Z.bits_0 in W.
      replace (64 * (Z.of_nat (S n) - 1) + (Z.log2 z - 64 * Z.of_nat n)) with (Z.log2 z) in W by lia. congruence. }
    assert (In : (n < S (S (List.length ws)))%nat) by lia.
    destruct (raw_word h b _ (S n) (bs_raw _ _ _ _ B)) as (w' & E & U' & W'); [cbn [List.length]; lia|].
    erewrite andthen_return by exact E. unfold DEC_BIT_STRING_PTR. cbn [fst snd pred].
    destruct (IH w' ltac:(lia) Hz2 ltac:(lia) U') as (n' & w2 & E2 & K).
    { intros Hn t Ht. rewrite W' by exact Ht. destruct V as [_ Vb]. rewrite Vb by lia. unfold bit. f_equal. lia. }
    exists n', w2. split; [exact E2|]. destruct K as [K|(K1 & K2)]; [now left|right; split; [lia|exact K2]].
  - exists (S n), w. split; [reflexivity|]. right. split; [lia|]. split; [unfold ulong_p in U; lia|]. split; [exact U|].
    apply Z.bits_inj'. intros t Ht. rewrite bit_shr by lia. destruct (Z.lt_ge_cases t 64).
    + rewrite W by lia. f_equal. lia.
    + rewrite (bit_high w), (bits_below z (64 * Z.of_nat (S n))) by (assumption || lia). reflexivity.
Qed.

End ToInteger.

Lemma FIXNUM_TO_ULONG_P_ok z : fixnum_range z -> FIXNUM_TO_ULONG_P (Object.LONG_TO_FIXNUM z) = (0 <=? z).
Proof.
  intros R. unfold FIXNUM_TO_ULONG_P. rewrite fixnum_datum. unfold fixnum_range, SMALLEST_FIXNUM, BIGGEST_FIXNUM in R.
  rewrite SIGN_MASK_field by (pose proof (Z.mod_pos_bound z (2 ^ 58)); lia). apply eq_true_iff_eq. rewrite Z.eqb_eq, Z.leb_le. dlia.
Qed.

(** The outcome of a conversion of any integer. *)
Definition conversion (h : heap) (length z : Z) (m : outcome ((object + signal) * heap)) : Prop :=
  if (0 <=? z) && (z <? 2 ^ length) then returns m (fun '(r, h') => exists o, r = inl o /\ holds h length z (o, h'))
  else m = Return (inr (bad_range_arg 2), h).

Lemma converted_conversion h length z m : 0 <= z -> converted h length z m -> conversion h length z m.
Proof. unfold converted, conversion. intros H. now rewrite (proj2 (Z.leb_le 0 z) H). Qed.

Lemma conversion_negative h length z : z < 0 -> conversion h length z (Return (inr (bad_range_arg 2), h)).
Proof. intros H. unfold conversion. now rewrite (proj2 (Z.leb_gt 0 z) H). Qed.

Lemma arg_ulong_fixnum n z h : fixnum_range z -> 0 <= z -> arg_ulong_integer n (fix_object z) h = Return (inl z, h).
Proof.
  intros R H. pose proof R as R'. unfold fixnum_range, SMALLEST_FIXNUM, BIGGEST_FIXNUM in R'.
  unfold fix_object. rewrite (decoded_ulong_ok n h _ z (fixnum_denotes h z R) (fixnum_moderate z R)). unfold decoded.
  now rewrite (proj2 (Z.leb_le 0 z) H), (proj2 (Z.ltb_lt z (2 ^ 64)) ltac:(lia)).
Qed.

Lemma Prim_unsigned_to_bit_string_ok stale h length o z : 0 < length < 2 ^ 32 -> (length + 63) / 64 + 2 <= available h ->
  denotes_integer h o z -> moderate z -> conversion h length z (Prim_unsigned_to_bit_string stale (fix_object length) o h).
Proof.
  intros L A (i & E & I) M. unfold Prim_unsigned_to_bit_string. assert (F : fixnum_range length) by (unfold fixnum_range, SMALLEST_FIXNUM, BIGGEST_FIXNUM; lia).
  rewrite (pthen_return _ _ _ _ _ (arg_ulong_fixnum 1 length h F ltac:(lia))). rewrite (pthen_return _ _ _ _ _ (run_operation_ok _ _ _ _ E)).
  destruct I as [z R|z b R].
  - rewrite FIXNUM_P_LONG_TO_FIXNUM, FIXNUM_TO_ULONG_P_ok by exact R. destruct (Z.leb_spec 0 z); cbn [negb]; [|now apply conversion_negative].
    apply converted_conversion; [assumption|]. unfold FIXNUM_TO_ULONG. rewrite fixnum_datum.
    unfold fixnum_range, SMALLEST_FIXNUM, BIGGEST_FIXNUM in R. rewrite Z.mod_small by lia. apply ulong_to_bit_string_ok; unfold ulong_p; lia.
  - destruct (Z.lt_ge_cases z 0) as [N|N].
    + unfold bignum_to_bit_string. destruct R as [Wb Vb]. rewrite bignum_test_ok, Vb by exact Wb.
      destruct (Z.compare_spec z 0); [lia| |lia]. now apply conversion_negative.
    + apply converted_conversion; [assumption|]. apply bignum_to_bit_string_ok; auto.
Qed.

Lemma unsigned_fixnum_object_ok z : 0 <= z -> fixnum_range z -> Object.LONG_TO_UNSIGNED_FIXNUM z = Object.LONG_TO_FIXNUM z.
Proof.
  intros H R. unfold fixnum_range, SMALLEST_FIXNUM, BIGGEST_FIXNUM in R. unfold Object.LONG_TO_UNSIGNED_FIXNUM, Object.LONG_TO_FIXNUM.
  rewrite to_ulong_small by lia. change DATUM_MASK with (Z.ones 58). now rewrite Z.land_ones, Z.mod_small by lia.
Qed.

Lemma Prim_bit_string_to_unsigned_ok {h b length ws} (B : bit_string h b length ws) z : string_value h b length z -> length < 2 ^ 28 ->
  returns (Prim_bit_string_to_unsigned (Pointer TC_BIT_STRING b) h) (fun '(r, h') => h' = h /\ exists i, r = inl i /\ canonical z i).
Proof.
  intros V L. pose proof (bit_string_words B) as BW. pose proof V as [Vz Vb]. pose proof (bs_length _ _ _ _ B) as BL.
  unfold Prim_bit_string_to_unsigned. rewrite CHECK_ARG_passes by reflexivity.
  rewrite (pthen_return _ _ _ _ _ (run_operation_ok _ _ _ _ (bit_string_high_ptr B _))).
  rewrite (pthen_return _ _ _ _ _ (run_operation_ok _ _ _ _ (bit_string_length_ok B _))).
  set (N := List.length ws) in *. set (nb := Z.rem length OBJECT_LENGTH).
  assert (Hnb : nb = length mod 64) by (apply Z.rem_mod_nonneg; unfold OBJECT_LENGTH; lia). pose proof (Z.mod_pos_bound length 64).
  destruct (raw_word h b _ (S N) (bs_raw _ _ _ _ B)) as (w & E & U & W); [cbn [List.length]; lia|].
  rewrite (pthen_return _ _ _ _ _ (run_operation_ok _ _ _ _ E)).
  set (m := if nb >? 0 then nb else 64). assert (Hm : 0 < m <= 64 /\ ((0 < N)%nat -> 64 * (Z.of_nat N - 1) + m = length)).
  { unfold m. pose proof (Z.div_mod length 64). destruct (Z.gtb_spec nb 0); lia. }
  rewrite (pthen_return _ _ _ (Z.ones m) h).
  2: { apply run_operation_ok. unfold m. destruct (Z.gtb_spec nb 0); [apply pure_return, LOW_MASK_ok; lia|reflexivity]. }
  rewrite (pthen_return _ _ _ _ _ (run_operation_ok _ _ _ _ (bit_string_vector_length B _))). fold N.
  replace (Z.to_nat (Z.of_nat N + 1 - 1)) with N by lia. unfold DEC_BIT_STRING_PTR. cbn [fst snd pred].
  destruct (significant_word_ok B z V N (Z.land w (Z.ones m))) as (n' & w' & Es & K); fold N.
  - lia.
  - split; [lia|]. apply Z.lt_le_trans with (2 ^ length); [lia|]. apply Z.pow_le_mono_r; lia.
  - lia.
  - rewrite Z.land_ones by lia. assert (2 ^ m <= 2 ^ 64) by (apply Z.pow_le_mono_r; lia).
    pose proof (Z.mod_pos_bound w (2 ^ m) ltac:(apply Z.pow_pos_nonneg; lia)). unfold ulong_p. lia.
  - intros HN t Ht. rewrite Z.land_spec, bit_ones, W by lia. destruct (Z.leb_spec 0 t); [|lia]. destruct (Z.ltb_spec t m); cbn [andb].
    + rewrite andb_true_r, Vb by lia. unfold bit. f_equal. lia.
    + rewrite andb_false_r. symmetry. apply (bits_below z length); lia.
  - rewrite (pthen_return _ _ _ _ _ (run_operation_ok _ _ _ _ Es)). destruct K as [[-> ->]|(K1 & K2 & K3 & K4)]; cbn [Nat.eqb].
    { eexists. split; [reflexivity|]. split; [reflexivity|]. eexists. split; [reflexivity|].
      rewrite unsigned_fixnum_object_ok by (unfold fixnum_range, SMALLEST_FIXNUM, BIGGEST_FIXNUM; lia). constructor.
      unfold fixnum_range, SMALLEST_FIXNUM, BIGGEST_FIXNUM. lia. }
    destruct (Nat.eqb_spec n' 0); [lia|]. destruct (ulong_significant_bits_ok w' K3) as (s & Ss & Hs & Up & Lo).
    rewrite (pthen_return _ _ _ s h) by (apply run_operation_ok, pure_return, Ss). unfold OBJECT_LENGTH.
    set (e := 64 * (Z.of_nat n' - 1)) in *. rewrite Z.shiftr_div_pow2 in K4 by lia.
    assert (0 < 2 ^ e) by (apply Z.pow_pos_nonneg; lia). pose proof (Z.div_mod z (2 ^ e) ltac:(lia)) as Dm. pose proof (Z.mod_pos_bound z (2 ^ e) ltac:(lia)).
    assert (Lo' : 2 ^ (s - 1) <= w') by (destruct Lo as [->|Lo]; [change (2 ^ (1 - 1)) with 1; lia|exact Lo]).
    assert (Z1 : z < 2 ^ (e + s)) by (rewrite Z.pow_add_r by lia; nia).
    assert (Z2 : 2 ^ (e + s - 1) <= z) by (replace (e + s - 1) with (e + (s - 1)) by lia; rewrite Z.pow_add_r by lia; nia).
    replace ((Z.of_nat n' - 1) * 64 + s) with (e + s) by lia. unfold FIXNUM_LENGTH. destruct (Z.leb_spec (e + s) 57).
    + assert (e = 0) by lia. assert (Q : w' = z) by (rewrite <- K4; replace e with 0 by lia; apply Z.div_1_r).
      assert (z < 2 ^ 57) by (apply Z.lt_le_trans with (1 := Z1); apply Z.pow_le_mono_r; lia).
      assert (fixnum_range z) by (unfold fixnum_range, SMALLEST_FIXNUM, BIGGEST_FIXNUM; lia).
      eexists. split; [reflexivity|]. split; [reflexivity|]. eexists. split; [reflexivity|].
      rewrite Q, unsigned_fixnum_object_ok by (lia || assumption). now constructor.
    + assert (2 ^ 57 <= z) by (apply Z.le_trans with (2 := Z2); apply Z.pow_le_mono_r; lia).
      assert (e + s <= length).
      { destruct (Z.lt_ge_cases length (e + s)) as [G|]; [exfalso|assumption]. assert (2 ^ length <= 2 ^ (e + s - 1)) by (apply Z.pow_le_mono_r; lia). lia. }
      destruct (bit_string_to_bignum_ok B z V TC_BIT_STRING (e + s) L ltac:(lia) Z1) as (r & Er & Rr).
      rewrite (pthen_return _ _ _ _ _ (run_operation_ok _ _ _ _ Er)). eexists. split; [reflexivity|]. split; [reflexivity|].
      eexists. split; [reflexivity|]. constructor; [exact Rr|]. unfold fixnum_range, SMALLEST_FIXNUM, BIGGEST_FIXNUM. lia.
Qed.

(** ** A heap with two bit strings and a bignum *)

Definition bits_heap : heap :=
  Heap [ map Immediate [bit_string_header 3; 130; 0xDEADBEEF; 7; 1];
         map Immediate [bit_string_header 3; 130; 0xFF00FF; 0; 2];
         map Immediate [Object.MAKE_OBJECT TC_MANIFEST_NM_VECTOR 3; BIGNUM_SET_HEADER 2 false; 2 ^ 62 - 1; 1];
         map Immediate [bit_string_header 1; 64; 0] ]
       1000 true None SHARP_F SHARP_F.

Lemma bits_heap_0 : bit_string bits_heap 0 130 [0xDEADBEEF; 7; 1].
Proof.
  split; [split; [reflexivity|]|reflexivity|lia].
  repeat (apply Forall_cons; [split; [vm_compute; discriminate|reflexivity]|]). apply Forall_nil.
Qed.

Lemma bits_heap_1 : bit_string bits_heap 1 130 [0xFF00FF; 0; 2].
Proof.
  split; [split; [reflexivity|]|reflexivity|lia].
  repeat (apply Forall_cons; [split; [vm_compute; discriminate|reflexivity]|]). apply Forall_nil.
Qed.

(** The sum of the start and the length is not checked for overflow: a bit is
    moved to a place outside the heap. *)
Example move_right_overflow :
  Prim_bit_substring_move_right_x (Pointer TC_BIT_STRING 0) (fix_object 0) (fix_object 1) (Pointer TC_BIT_STRING 1) (Pointer TC_BIG_FIXNUM 2) bits_heap = Wild.
Proof.
  unfold Prim_bit_substring_move_right_x. rewrite CHECK_ARG_passes by reflexivity.
  rewrite (pthen_return _ _ _ 0 bits_heap) by (vm_compute; reflexivity). rewrite (pthen_return _ _ _ 1 bits_heap) by (vm_compute; reflexivity).
  rewrite CHECK_ARG_passes by reflexivity. rewrite (pthen_return _ _ _ (2 ^ 63 - 1) bits_heap) by (vm_compute; reflexivity).
  change (to_long (2 ^ 63 - 1 + (1 - 0))) with (- 2 ^ 63). cbv zeta. cbn [Z.ltb Z.gtb Z.compare orb negb]. rewrite unless_true.
  rewrite (pthen_return _ _ _ 130 bits_heap) by (vm_compute; reflexivity). rewrite unless_true.
  rewrite (pthen_return _ _ _ 130 bits_heap) by (vm_compute; reflexivity). rewrite unless_true.
  rewrite (pthen_return _ _ _ (0%nat, 3%nat) bits_heap) by (vm_compute; reflexivity).
  assert (E : exists k, (5 < k)%nat /\ end_location (Pointer TC_BIT_STRING 1) (- 2 ^ 63) bits_heap = Return ((1%nat, S k), bits_heap)).
  { assert (Q : exists x, BIT_STRING_INDEX_TO_WORD (to_long (- 2 ^ 63 - 1)) = x /\ 10 < x) by (eexists; split; [reflexivity|reflexivity]).
    destruct Q as (x & Q & Hx). unfold end_location. rewrite Q. destruct (Z.ltb_spec x 0); [lia|].
    exists (Nat.pred (Z.to_nat x)). split; [lia|]. unfold MEMORY_LOC, ret. now rewrite Nat.succ_pred by lia. }
  destruct E as (k & Hk & E). rewrite (pthen_return _ _ _ _ _ (run_operation_ok _ _ _ _ E)).
  assert (W : BIT_STRING_WORD (1%nat, S k) bits_heap = Wild).
  { cbn [BIT_STRING_WORD snd fst]. unfold load_word, andthen, load. cbn [fst snd nth_error blocks bits_heap map bind].
    do 6 (destruct k as [|k]; [lia|]). destruct k; reflexivity. }
  assert (K : copy_bits (0%nat, 3%nat) (end_offset 1) (1%nat, S k) (end_offset (- 2 ^ 63)) (1 - 0) bits_heap = Wild).
  { replace (end_offset (- 2 ^ 63)) with 0 by reflexivity. change (copy_up (0%nat, 3%nat) 63 (1%nat, S k) 0 1 bits_heap = Wild).
    unfold copy_up, OBJECT_LENGTH. replace (1 <=? 64 - 63) with true by reflexivity.
    erewrite andthen_return by (apply pure_return, ANY_MASK_ok; lia). rewrite (andthen_return _ _ _ 0xDEADBEEF bits_heap) by (vm_compute; reflexivity).
    erewrite andthen_return by (apply pure_return, shift_left_ok; lia). 
    unfold andthen at 1. now rewrite W. }
  unfold pthen, run_operation. now rewrite K.
Qed.

(** The search in one aligned word that is zero shifts by 64. *)
Example find_next_undefined :
  Prim_bitstr_find_next_set_bit (Pointer TC_BIT_STRING 3) (fix_object 0) (fix_object 64) bits_heap = Wild.
Proof. vm_compute. reflexivity. Qed.

(** A length near [2 ^ 64] wraps to zero words. *)
Example allocate_wraps :
  exists h', allocate_bit_string (fun _ _ => 0) (2 ^ 64 - 1) bits_heap = Return (Pointer TC_BIT_STRING 4, h') /\
    block_of h' 4 = Some (map Immediate [bit_string_header 0; 2 ^ 64 - 1]).
Proof. eexists. split; vm_compute; reflexivity. Qed.

(** ** Properties *)

(** The six bitwise operations replace each bit of the first string by the function of the two bits that
    their name says, also when both arguments are the same string, or signal a bad range when the
    lengths differ; bit-string=? then tells whether all bits agree. *)
Theorem bit_string_operations_correct h b1 l1 ws1 b2 l2 ws2 : bit_string h b1 l1 ws1 -> bit_string h b2 l2 ws2 ->
  (exists r, Prim_bit_string_equal_p (Pointer TC_BIT_STRING b1) (Pointer TC_BIT_STRING b2) h = Return (inl (BOOLEAN_TO_OBJECT r), h) /\
     (r = true <-> l1 = l2 /\ forall k, 0 <= k < l1 -> bit h b1 k = bit h b2 k)) /\
  forall prim g, bitwise_primitive prim g ->
    let result := prim (Pointer TC_BIT_STRING b1) (Pointer TC_BIT_STRING b2) h in
    if l1 =? l2 then
      returns result (fun '(r, h') => r = inl UNSPECIFIC /\ changes (fun a => fst a = b1) h h' /\ (exists ws', bit_string h' b1 l1 ws') /\
        forall k, 0 <= k < l1 -> bit h' b1 k = g (bit h b1 k) (bit h b2 k))
    else result = Return (inr (bad_range_arg 1), h).
Proof.
  intros B1 B2. split; [|intros prim g P; exact (BITWISE_OP_ok prim g B1 B2 P)].
  destruct (bit_string_equal_p_ok B1 B2 TC_BIT_STRING TC_BIT_STRING) as (r & E & H). exists r. split; [|exact H].
  unfold Prim_bit_string_equal_p. rewrite !CHECK_ARG_passes by reflexivity. now rewrite (pthen_return _ _ _ _ _ (run_operation_ok _ _ _ _ E)).
Qed.

(** Bit-substring-find-next-set-bit returns the index of the first bit that is set from start to end, or
    false when there is none, and signals each argument that is out of range; the range of one aligned
    word that is zero is left out, where the code shifts by 64. *)
Theorem find_next_set_bit_correct h b length ws s e : bit_string h b length ws -> fixnum_range s -> fixnum_range e ->
  ~ whole_zero_word (h := h) (b := b) s e ->
  let result := Prim_bitstr_find_next_set_bit (Pointer TC_BIT_STRING b) (fix_object s) (fix_object e) h in
  match find_error s e length with
  | Some n => result = Return (inr (bad_range_arg n), h)
  | None => exists r, result = Return (inl (match r with Some i => LONG_TO_UNSIGNED_FIXNUM i | None => SHARP_F end), h) /\ first_set h b s e r
  end.
Proof. intros B F1 F2 N. exact (Prim_bitstr_find_next_set_bit_ok B s e F1 F2 N). Qed.




