(* ===== verification/ExternalTable.v ===== *)
(** * string.c: the table of external strings

    A hash table with chains.  A record stands for a block of [malloc]; its key
    is the address after its header.  New blocks for the buckets may be refused
    by [malloc], in which case the table keeps its size. *)

From Stdlib Require Import ZArith List Bool Lia Permutation.
From S2P Require Import Prelude.
Import ListNotations.

#[local] Open Scope Z_scope.
#[local] Open Scope microcode_scope.

Record ht_record : Type := Record_ { HT_RECORD_KEY : Z; HT_RECORD_N_BYTES : Z }.

Record hash_table : Type := HashTable { HT_N_RECORDS : Z; HT_BUCKETS : list (list ht_record) }.

Definition HT_N_BUCKETS (table : hash_table) : Z := zlength (HT_BUCKETS table).
Definition HT_BUCKET_INDEX (table : hash_table) (key : Z) : nat := Z.to_nat (key mod HT_N_BUCKETS table).
Definition HT_BUCKET_REF (table : hash_table) (index : nat) : list ht_record := nth index (HT_BUCKETS table) [].
Definition HT_SHRINK_POINT (table : hash_table) : Z := (HT_N_BUCKETS table + 1) / 2 - 1.

Definition HT_MIN_EXPT : Z := 4.
Definition HT_MAX_EXPT : Z := 24.
Definition EXPT_TO_N (e : Z) : Z := Z.shiftl 1 e - 1.

(** The exponents, in the order of the loop that makes the table larger. *)
Definition expts : list Z := map (fun i => HT_MIN_EXPT + Z.of_nat i) (seq 0 21).

(** [zero_ht_buckets] of new buckets. *)
Definition zero_ht_buckets (n : Z) : hash_table := HashTable 0 (repeat [] (Z.to_nat n)).

(** The process is aborted when there is no memory for it. *)
Definition make_hash_table (enough : bool) : outcome hash_table :=
  if enough then Return (zero_ht_buckets (EXPT_TO_N HT_MIN_EXPT)) else Exception.

(** Each record is put before those met so far. *)
Definition ht_records_list (table : hash_table) : list ht_record :=
  fold_left (fun result bucket => fold_left (fun result record => record :: result) bucket result) (HT_BUCKETS table) [].

Definition ht_lookup (table : hash_table) (key : Z) : option ht_record :=
  find (fun record => HT_RECORD_KEY record =? key) (HT_BUCKET_REF table (HT_BUCKET_INDEX table key)).

Section WithMalloc.

(** Whether [malloc] grants a block of buckets. *)
Context (malloc_buckets : hash_table -> Z -> bool).

Fixpoint insert_all (insert : hash_table -> ht_record -> outcome hash_table) (table : hash_table) (records : list ht_record) : outcome hash_table :=
  match records with
  | [] => Return table
  | record :: next => table <- insert table record ;; insert_all insert table next
  end.

Definition ht_resize (insert : hash_table -> ht_record -> outcome hash_table) (table : hash_table) (new_n_buckets : Z) : outcome hash_table :=
  if malloc_buckets table new_n_buckets
  then insert_all insert (zero_ht_buckets new_n_buckets) (ht_records_list table)
  else Return table.

(** The fuel bounds the nesting of ht_insert and ht_resize. *)
Fixpoint ht_insert (fuel : nat) (table : hash_table) (record : ht_record) : outcome hash_table :=
  let index := HT_BUCKET_INDEX table (HT_RECORD_KEY record) in
  let table := HashTable (HT_N_RECORDS table + 1) (update index (HT_BUCKET_REF table index ++ [record]) (HT_BUCKETS table)) in
  if (HT_N_RECORDS table >=? HT_N_BUCKETS table) && (HT_N_BUCKETS table <? EXPT_TO_N HT_MAX_EXPT) then
    match find (fun e => EXPT_TO_N e >? HT_N_BUCKETS table) expts with
    | Some e => match fuel with O => OutOfFuel | S fuel => ht_resize (ht_insert fuel) table (EXPT_TO_N e) end
    | None => Return table
    end
  else Return table.

Definition ht_fuel : nat := 21.

(** A chain without the first record for [key]. *)
Fixpoint unlink (key : Z) (chain : list ht_record) : option (ht_record * list ht_record) :=
  match chain with
  | [] => None
  | scan :: next =>
      if HT_RECORD_KEY scan =? key then Some (scan, next)
      else match unlink key next with Some (record, next) => Some (record, scan :: next) | None => None end
  end.

Definition ht_delete (table : hash_table) (key : Z) : outcome (option ht_record * hash_table) :=
  let index := HT_BUCKET_INDEX table key in
  match unlink key (HT_BUCKET_REF table index) with
  | None => Return (None, table)
  | Some (scan, chain) =>
      let table := HashTable (HT_N_RECORDS table - 1) (update index chain (HT_BUCKETS table)) in
      table <- (if (HT_N_RECORDS table <? HT_SHRINK_POINT table) && (HT_N_BUCKETS table >? EXPT_TO_N HT_MIN_EXPT) then
                  match find (fun e => EXPT_TO_N e <? HT_N_BUCKETS table) (rev expts) with
                  | Some e => ht_resize (ht_insert ht_fuel) table (EXPT_TO_N e)
                  | None => Return table
                  end
                else Return table) ;;
      Return (Some scan, table)
  end.

End WithMalloc.

(** ** The invariant *)

Definition records (table : hash_table) : list ht_record := concat (HT_BUCKETS table).
Definition keys (table : hash_table) : list Z := map HT_RECORD_KEY (records table).

Record table_ok (table : hash_table) : Prop := {
  table_size : exists e, HT_MIN_EXPT <= e <= HT_MAX_EXPT /\ HT_N_BUCKETS table = 2 ^ e - 1;
  table_count : HT_N_RECORDS table = zlength (records table);
  table_keys : NoDup (keys table);
  table_placed : forall i chain record, nth_error (HT_BUCKETS table) i = Some chain -> In record chain -> i = HT_BUCKET_INDEX table (HT_RECORD_KEY record)
}.

(** Fewer records than buckets, as long as the table can grow. *)
Definition sparse (table : hash_table) : Prop := HT_N_RECORDS table < HT_N_BUCKETS table \/ HT_N_BUCKETS table = EXPT_TO_N HT_MAX_EXPT.

(** ** Chains *)

Lemma EXPT_TO_N_pow e : 0 <= e -> EXPT_TO_N e = 2 ^ e - 1.
Proof. intros H. unfold EXPT_TO_N. now rewrite Z.shiftl_mul_pow2, Z.mul_1_l by exact H. Qed.

Lemma expt_positive e : HT_MIN_EXPT <= e -> 15 <= 2 ^ e - 1.
Proof. intros H. enough (2 ^ 4 <= 2 ^ e) by (change (2 ^ 4) with 16 in *; lia). apply Z.pow_le_mono_r; [lia|exact H]. Qed.

Lemma nth_nth_error {A} (l : list A) i d : (i < length l)%nat -> nth_error l i = Some (nth i l d).
Proof. revert i. induction l as [|x l IH]; intros [|i] H; cbn [length] in H; try lia; [reflexivity|]. cbn. apply IH. lia. Qed.

Lemma concat_update {A} (bs : list (list A)) i c : (i < length bs)%nat ->
  exists l1 l2, concat bs = l1 ++ nth i bs [] ++ l2 /\ concat (update i c bs) = l1 ++ c ++ l2.
Proof.
  revert i. induction bs as [|b bs IH]; intros [|i] H; cbn [length] in H; try lia.
  - exists [], (concat bs). now split.
  - destruct (IH i ltac:(lia)) as (l1 & l2 & E1 & E2). exists (b ++ l1), l2. cbn [concat nth update]. rewrite E1, E2, <- !app_assoc. now split.
Qed.

Section Invariant.

Context (table : hash_table) (ok : table_ok table).

Lemma n_buckets_positive : 15 <= HT_N_BUCKETS table.
Proof. destruct (table_size _ ok) as (e & R & ->). apply expt_positive. lia. Qed.

Lemma index_in_range key : (HT_BUCKET_INDEX table key < length (HT_BUCKETS table))%nat.
Proof. pose proof n_buckets_positive as N. unfold HT_BUCKET_INDEX. pose proof (Z.mod_pos_bound key (HT_N_BUCKETS table)). unfold HT_N_BUCKETS in *. lia. Qed.

Lemma in_its_bucket record : In record (records table) <-> In record (HT_BUCKET_REF table (HT_BUCKET_INDEX table (HT_RECORD_KEY record))).
Proof.
  unfold records. rewrite in_concat. split.
  - intros (chain & C & R). apply In_nth_error in C as (i & C). pose proof (table_placed _ ok i chain record C R) as ->. unfold HT_BUCKET_REF. now rewrite (nth_error_nth _ _ _ C).
  - intros R. eexists. split; [|exact R]. unfold HT_BUCKET_REF. apply nth_In, index_in_range.
Qed.

Lemma records_unique r1 r2 : In r1 (records table) -> In r2 (records table) -> HT_RECORD_KEY r1 = HT_RECORD_KEY r2 -> r1 = r2.
Proof.
  pose proof (table_keys _ ok) as N. unfold keys in N. revert N. generalize (records table). induction l as [|x l IH]; intros N I1 I2 E; [destruct I1|].
  cbn [map] in N. inversion N as [|? ? Nx Nl]; subst. destruct I1 as [->|I1], I2 as [->|I2]; auto; destruct Nx; [rewrite E|rewrite <- E]; now apply in_map.
Qed.

Lemma ht_lookup_ok key record : ht_lookup table key = Some record <-> In record (records table) /\ HT_RECORD_KEY record = key.
Proof.
  unfold ht_lookup. split.
  - intros F. apply find_some in F as [I E]. apply Z.eqb_eq in E. split; [|exact E]. apply in_its_bucket. now rewrite E.
  - intros [I <-]. destruct (find _ _) as [r|] eqn:F.
    + apply find_some in F as [I' E]. apply Z.eqb_eq in E. f_equal. apply records_unique; auto. apply in_its_bucket. now rewrite E.
    + pose proof (find_none _ _ F record) as N. cbv beta in N. rewrite Z.eqb_refl in N. discriminate N. now apply in_its_bucket.
Qed.

End Invariant.

(** ** A record at the end of its chain *)

Definition placed (table : hash_table) (record : ht_record) : hash_table :=
  let index := HT_BUCKET_INDEX table (HT_RECORD_KEY record) in
  HashTable (HT_N_RECORDS table + 1) (update index (HT_BUCKET_REF table index ++ [record]) (HT_BUCKETS table)).

Lemma same_index t t' key : HT_N_BUCKETS t' = HT_N_BUCKETS t -> HT_BUCKET_INDEX t' key = HT_BUCKET_INDEX t key.
Proof. intros E. unfold HT_BUCKET_INDEX. now rewrite E. Qed.

(** A chain is replaced by one with the same index for all its records. *)
Lemma rechained_ok t i chain n : table_ok t -> (i < length (HT_BUCKETS t))%nat ->
  (forall r, In r chain -> i = HT_BUCKET_INDEX t (HT_RECORD_KEY r)) ->
  let t' := HashTable n (update i chain (HT_BUCKETS t)) in n = zlength (records t') -> NoDup (keys t') -> table_ok t'.
Proof.
  intros Ok I P t' N D. assert (S : HT_N_BUCKETS t' = HT_N_BUCKETS t) by (unfold t', HT_N_BUCKETS; cbn [HT_BUCKETS]; now rewrite length_update). constructor; auto.
  - rewrite S. exact (table_size _ Ok).
  - intros j c r E Ir. rewrite (same_index t t' _ S). cbn [HT_BUCKETS t'] in E. destruct (Nat.eq_dec i j) as [->|Ne].
    + rewrite nth_error_update_eq in E by exact I. injection E as <-. now apply P.
    + rewrite nth_error_update_ne in E by exact Ne. now apply (table_placed _ Ok) with c.
Qed.

Lemma placed_ok t r : table_ok t -> ~ In (HT_RECORD_KEY r) (keys t) ->
  table_ok (placed t r) /\ Permutation (records (placed t r)) (r :: records t) /\ HT_N_BUCKETS (placed t r) = HT_N_BUCKETS t.
Proof.
  intros Ok N. pose proof (index_in_range t Ok (HT_RECORD_KEY r)) as I. set (i := HT_BUCKET_INDEX t (HT_RECORD_KEY r)) in *.
  assert (P : Permutation (records (placed t r)) (r :: records t)).
  { unfold records, placed. fold i. cbn [HT_BUCKETS]. destruct (concat_update (HT_BUCKETS t) i (HT_BUCKET_REF t i ++ [r]) I) as (l1 & l2 & E1 & E2). unfold HT_BUCKET_REF in *.
    rewrite E1, E2, <- app_assoc. cbn [app]. rewrite !app_assoc. symmetry. apply Permutation_middle. }
  split; [|split; [exact P|unfold placed, HT_N_BUCKETS; cbn [HT_BUCKETS]; now rewrite length_update]].
  apply rechained_ok; auto.
  - intros x [X|[<-|[]]]%in_app_iff; [|reflexivity]. apply (table_placed _ Ok) with (HT_BUCKET_REF t i); [|exact X]. unfold HT_BUCKET_REF. now apply nth_nth_error.
  - change (HashTable _ _) with (placed t r). rewrite (Permutation_length P), (table_count _ Ok). cbn [length]. lia.
  - change (HashTable _ _) with (placed t r). apply (Permutation_NoDup (l := map HT_RECORD_KEY (r :: records t))); [now apply Permutation_map, Permutation_sym|].
    cbn [map]. constructor; [exact N|exact (table_keys _ Ok)].
Qed.

Lemma records_list_permutation t : Permutation (ht_records_list t) (records t).
Proof.
  unfold ht_records_list, records. rewrite <- (app_nil_r (concat _)). generalize (@nil ht_record). generalize (HT_BUCKETS t). induction l as [|b l IH]; intros acc; cbn [fold_left concat]; [reflexivity|].
  rewrite IH. assert (F : forall acc, Permutation (fold_left (fun result record => record :: result) b acc) (b ++ acc)).
  { induction b as [|x b Hb]; intros a; cbn [fold_left app]; [reflexivity|]. rewrite Hb. symmetry. apply Permutation_middle. }
  rewrite F, <- app_assoc. rewrite !app_assoc. apply Permutation_app_tail, Permutation_app_comm.
Qed.

Lemma zero_ok e : HT_MIN_EXPT <= e <= HT_MAX_EXPT ->
  table_ok (zero_ht_buckets (2 ^ e - 1)) /\ records (zero_ht_buckets (2 ^ e - 1)) = [] /\ HT_N_BUCKETS (zero_ht_buckets (2 ^ e - 1)) = 2 ^ e - 1.
Proof.
  intros R. pose proof (expt_positive e ltac:(lia)) as P. set (n := 2 ^ e - 1) in *.
  assert (E : records (zero_ht_buckets n) = []) by (unfold records, zero_ht_buckets; cbn [HT_BUCKETS]; generalize (Z.to_nat n); induction n0 as [|k IH]; [reflexivity|exact IH]).
  assert (L : HT_N_BUCKETS (zero_ht_buckets n) = n) by (unfold HT_N_BUCKETS, zero_ht_buckets; cbn [HT_BUCKETS]; rewrite repeat_length; lia).
  split; [|now split]. constructor.
  - exists e. split; [exact R|exact L].
  - now rewrite E.
  - unfold keys. rewrite E. constructor.
  - intros i chain r C I. apply nth_error_In, repeat_spec in C. subst chain. destruct I.
Qed.

(** ** Growth *)

Lemma expt_range e : HT_MIN_EXPT <= e <= HT_MAX_EXPT -> In e expts.
Proof.
  intros R. unfold expts. apply in_map_iff. exists (Z.to_nat (e - HT_MIN_EXPT)). unfold HT_MIN_EXPT, HT_MAX_EXPT in *. split; [lia|]. apply in_seq. lia.
Qed.

Lemma larger_expt e : HT_MIN_EXPT <= e < HT_MAX_EXPT -> find (fun e' => EXPT_TO_N e' >? 2 ^ e - 1) expts = Some (e + 1).
Proof.
  intros R. assert (I : In e (removelast expts)).
  { pose proof (expt_range e ltac:(lia)) as I. rewrite (app_removelast_last 0 (l := expts)) in I by discriminate. apply in_app_iff in I as [I|[E|[]]]; [exact I|].
    vm_compute in E. unfold HT_MAX_EXPT in R. lia. }
  revert I. clear R. revert e. apply Forall_forall. vm_compute removelast. repeat constructor.
Qed.

Lemma smaller_expt e : HT_MIN_EXPT < e <= HT_MAX_EXPT -> find (fun e' => EXPT_TO_N e' <? 2 ^ e - 1) (rev expts) = Some (e - 1).
Proof.
  intros R. assert (I : In e (tl expts)).
  { pose proof (expt_range e ltac:(lia)) as I. destruct I as [E|I]; [vm_compute in E; unfold HT_MIN_EXPT in R; lia|exact I]. }
  revert I. clear R. revert e. apply Forall_forall. vm_compute tl. repeat constructor.
Qed.

Section Operations.

Context (malloc_buckets : hash_table -> Z -> bool).

Notation always := (forall table n, malloc_buckets table n = true).

(** [t'] has the records of [t] and [added] as well. *)
Definition extends (added : list ht_record) (t t' : hash_table) : Prop :=
  table_ok t' /\ Permutation (records t') (added ++ records t) /\ (always -> sparse t -> sparse t').

Definition expt_of (t : hash_table) (e : Z) : Prop := HT_MIN_EXPT <= e <= HT_MAX_EXPT /\ HT_N_BUCKETS t = 2 ^ e - 1.

(** What a call with [f] units of fuel does for tables that can grow [f] times. *)
Definition inserts (insert : hash_table -> ht_record -> outcome hash_table) (f : Z) : Prop :=
  forall t r e, table_ok t -> expt_of t e -> HT_MAX_EXPT - e <= f -> ~ In (HT_RECORD_KEY r) (keys t) ->
  exists t' e', insert t r = Return t' /\ extends [r] t t' /\ expt_of t' e' /\ e <= e'.

Lemma keys_extended l t t' : Permutation (records t') (l ++ records t) -> Permutation (keys t') (map HT_RECORD_KEY l ++ keys t).
Proof. intros P. unfold keys. rewrite <- map_app. now apply Permutation_map. Qed.

Lemma insert_all_ok insert f : inserts insert f -> forall l t e, table_ok t -> expt_of t e -> HT_MAX_EXPT - e <= f -> NoDup (map HT_RECORD_KEY l ++ keys t) ->
  exists t' e', insert_all insert t l = Return t' /\ extends l t t' /\ expt_of t' e' /\ e <= e'.
Proof.
  intros Hi. induction l as [|r l IH]; intros t e Ok E F N; cbn [insert_all].
  - exists t, e. repeat split; auto; try apply E; try apply Ok; lia.
  - cbn [map app] in N. inversion N as [|? ? Nr Nl]; subst. destruct (Hi t r e Ok E F) as (t1 & e1 & -> & (Ok1 & P1 & S1) & E1 & L1); [intros I; apply Nr, in_or_app; now right|]. cbn [bind].
    pose proof (keys_extended [r] t t1 P1) as K1. cbn [map app] in K1.
    destruct (IH t1 e1 Ok1 E1 ltac:(lia)) as (t' & e' & E' & (Ok' & P' & S') & Ex & L').
    { apply (Permutation_NoDup (l := HT_RECORD_KEY r :: map HT_RECORD_KEY l ++ keys t)); [rewrite K1; apply Permutation_middle|exact N]. }
    exists t', e'. split; [exact E'|]. split; [|split; [exact Ex|lia]]. split; [exact Ok'|]. split; [|auto].
    rewrite P', P1. symmetry. apply Permutation_middle.
Qed.

(** The table is built anew with [2 ^ e - 1] buckets. *)
Lemma ht_resize_ok insert f t e0 e : inserts insert f -> table_ok t -> expt_of t e0 -> HT_MIN_EXPT <= e <= HT_MAX_EXPT -> HT_MAX_EXPT - e <= f ->
  exists t' e', ht_resize malloc_buckets insert t (EXPT_TO_N e) = Return t' /\ table_ok t' /\ Permutation (records t') (records t) /\ expt_of t' e' /\
    (e <= e' \/ t' = t) /\ (always -> sparse t').
Proof.
  intros Hi Ok E0 R F. unfold ht_resize. rewrite EXPT_TO_N_pow by (unfold HT_MIN_EXPT in R; lia).
  destruct (malloc_buckets t (2 ^ e - 1)) eqn:M.
  - destruct (zero_ok e R) as (Z0 & Zr & Zn). destruct (insert_all_ok insert f Hi (ht_records_list t) _ e Z0 (conj R Zn) F) as (t' & e' & E' & (Ok' & P' & S') & Ex & L').
    { unfold keys at 1. rewrite Zr. cbn [map]. rewrite app_nil_r. apply (Permutation_NoDup (l := keys t)); [apply Permutation_map, Permutation_sym, records_list_permutation|exact (table_keys _ Ok)]. }
    exists t', e'. split; [exact E'|]. split; [exact Ok'|]. split; [rewrite P', Zr, app_nil_r; apply records_list_permutation|]. split; [exact Ex|]. split; [now left|].
    intros A. apply S'; [exact A|]. left. rewrite Zn. pose proof (expt_positive e ltac:(lia)). cbn [zero_ht_buckets HT_N_RECORDS]. lia.
  - exists t, e0. split; [reflexivity|]. split; [exact Ok|]. split; [reflexivity|]. split; [exact E0|]. split; [now right|]. intros A. now rewrite A in M.
Qed.

Lemma ht_insert_ok fuel : inserts (ht_insert malloc_buckets fuel) (Z.of_nat fuel).
Proof.
  induction fuel as [|fuel IH]; intros t r e Ok E F N; destruct (placed_ok t r Ok N) as (Ok1 & P1 & S1).
  all: assert (E1 : expt_of (placed t r) e) by (unfold expt_of; now rewrite S1); destruct E as [R B].
  all: assert (Stay : HT_N_RECORDS (placed t r) < HT_N_BUCKETS (placed t r) \/ e = HT_MAX_EXPT -> sparse (placed t r))
      by (intros [L|L]; [now left|right; rewrite S1, B, L; reflexivity]).
  all: assert (Big : 0 <= e) by (unfold HT_MIN_EXPT in R; lia).
  all: cbn [ht_insert]; fold (placed t r); rewrite S1, B, (EXPT_TO_N_pow HT_MAX_EXPT) by (unfold HT_MAX_EXPT; lia).
  all: destruct (Z.geb_spec (HT_N_RECORDS (placed t r)) (2 ^ e - 1)) as [G|G]; cbn [andb].
  all: try (exists (placed t r), e; split; [reflexivity|]; split; [|split; [exact E1|lia]]; split; [exact Ok1|]; split; [exact P1|]; intros _ _; apply Stay; left; rewrite S1, B; exact G).
  all: destruct (Z.ltb_spec (2 ^ e - 1) (2 ^ HT_MAX_EXPT - 1)) as [M|M].
  all: try (exists (placed t r), e; split; [reflexivity|]; split; [|split; [exact E1|lia]]; split; [exact Ok1|]; split; [exact P1|]; intros _ _; apply Stay; right;
      assert (2 ^ HT_MAX_EXPT <= 2 ^ e) as Q by lia; apply Z.pow_le_mono_r_iff in Q; lia).
  all: assert (Lt : e < HT_MAX_EXPT) by (apply (Z.pow_lt_mono_r_iff 2); unfold HT_MAX_EXPT in *; lia).
  all: rewrite larger_expt by lia.
  - lia.
  - destruct (ht_resize_ok _ _ (placed t r) e (e + 1) IH Ok1 E1 ltac:(lia) ltac:(lia)) as (t' & e' & E' & Ok' & P' & Ex & Mono & Sp).
    exists t', e'. split; [exact E'|]. split; [|split; [exact Ex|]].
    + split; [exact Ok'|]. split; [now rewrite P'|auto].
    + destruct Mono as [L| ->]; [lia|]. destruct E1 as [_ B1], Ex as [Re B2]. apply (Z.pow_le_mono_r_iff 2); unfold HT_MIN_EXPT in *; lia.
Qed.

Lemma fuel_enough e : HT_MIN_EXPT <= e <= HT_MAX_EXPT -> HT_MAX_EXPT - e <= Z.of_nat ht_fuel.
Proof. unfold HT_MIN_EXPT, HT_MAX_EXPT, ht_fuel. lia. Qed.

Lemma inserted t r : table_ok t -> ~ In (HT_RECORD_KEY r) (keys t) ->
  exists t', ht_insert malloc_buckets ht_fuel t r = Return t' /\ extends [r] t t'.
Proof.
  intros Ok N. destruct (table_size _ Ok) as (e & R & B). destruct (ht_insert_ok ht_fuel t r e Ok (conj R B) (fuel_enough e R) N) as (t' & e' & E & X & _). now exists t'.
Qed.

(** ** Deletion *)

Lemma unlink_ok key chain : NoDup (map HT_RECORD_KEY chain) ->
  match unlink key chain with
  | Some (r, rest) => HT_RECORD_KEY r = key /\ Permutation chain (r :: rest)
  | None => ~ In key (map HT_RECORD_KEY chain)
  end.
Proof.
  induction chain as [|x chain IH]; intros N; cbn [unlink map]; [auto|]. cbn [map] in N. inversion N as [|? ? Nx Nl]; subst.
  destruct (Z.eqb_spec (HT_RECORD_KEY x) key) as [E|E]; [now split|]. specialize (IH Nl). destruct (unlink key chain) as [[r rest]|].
  - destruct IH as [K P]. split; [exact K|]. rewrite P. apply perm_swap.
  - intros [I|I]; [contradiction|now apply IH].
Qed.

Lemma NoDup_middle {A} (l1 l l2 : list A) : NoDup (l1 ++ l ++ l2) -> NoDup l.
Proof. induction l1 as [|x l1 IH]; intros N; [exact (NoDup_app_remove_r l l2 N)|]. inversion N. now apply IH. Qed.

(** The result of a deletion: the record that was there is gone. *)
Definition deleted (t : hash_table) (key : Z) (found : option ht_record) (t' : hash_table) : Prop :=
  match found with
  | Some r => HT_RECORD_KEY r = key /\ Permutation (records t) (r :: records t') /\ (always -> sparse t -> sparse t')
  | None => ~ In key (keys t) /\ t' = t
  end.

Lemma ht_delete_ok t key : table_ok t ->
  exists found t', ht_delete malloc_buckets t key = Return (found, t') /\ table_ok t' /\ deleted t key found t'.
Proof.
  intros Ok. pose proof (index_in_range t Ok key) as I. unfold ht_delete. set (i := HT_BUCKET_INDEX t key) in *.
  destruct (concat_update (HT_BUCKETS t) i [] I) as (l1 & l2 & E1 & _).
  assert (Nc : NoDup (map HT_RECORD_KEY (HT_BUCKET_REF t i))).
  { pose proof (table_keys _ Ok) as N. unfold keys, records in N. rewrite E1, !map_app in N. unfold HT_BUCKET_REF. now apply NoDup_middle in N. }
  pose proof (unlink_ok key _ Nc) as U. destruct (unlink key (HT_BUCKET_REF t i)) as [[r chain]|].
  2:{ exists None, t. repeat split; auto; try apply Ok. intros K. unfold keys in K. apply in_map_iff in K as (r & Kr & K). apply (in_its_bucket t Ok) in K. rewrite Kr in K. apply U, in_map_iff. now exists r. }
  destruct U as [K P]. set (t1 := HashTable _ _).
  assert (P1 : Permutation (records t) (r :: records t1)).
  { destruct (concat_update (HT_BUCKETS t) i chain I) as (m1 & m2 & F1 & F2). unfold records, t1. cbn [HT_BUCKETS]. unfold HT_BUCKET_REF in P. rewrite F1, F2, P. cbn [app]. symmetry. apply Permutation_middle. }
  assert (B1 : HT_N_BUCKETS t1 = HT_N_BUCKETS t) by (unfold t1, HT_N_BUCKETS; cbn [HT_BUCKETS]; now rewrite length_update).
  assert (C1 : HT_N_RECORDS t1 = zlength (records t1)).
  { pose proof (Permutation_length P1) as L. cbn [length] in L. unfold t1 at 1. cbn [HT_N_RECORDS]. rewrite (table_count _ Ok). lia. }
  assert (Ok1 : table_ok t1).
  { apply rechained_ok; auto.
    - intros x X. apply (table_placed _ Ok) with (HT_BUCKET_REF t i); [unfold HT_BUCKET_REF; now apply nth_nth_error|]. rewrite P. now right.
    - change (HashTable _ _) with t1. pose proof (table_keys _ Ok) as N. apply (Permutation_NoDup (l' := map HT_RECORD_KEY (r :: records t1))) in N; [now inversion N|now apply Permutation_map]. }
  assert (S1 : sparse t -> sparse t1) by (unfold sparse; rewrite B1; unfold t1; cbn [HT_N_RECORDS]; intros [L|L]; [left; lia|now right]).
  assert (Done : exists t', (if (HT_N_RECORDS t1 <? HT_SHRINK_POINT t1) && (HT_N_BUCKETS t1 >? EXPT_TO_N HT_MIN_EXPT)
      then match find (fun e => EXPT_TO_N e <? HT_N_BUCKETS t1) (rev expts) with
           | Some e => ht_resize malloc_buckets (ht_insert malloc_buckets ht_fuel) t1 (EXPT_TO_N e) | None => Return t1 end
      else Return t1) = Return t' /\ table_ok t' /\ Permutation (records t') (records t1) /\ (always -> sparse t1 -> sparse t')).
  { destruct ((HT_N_RECORDS t1 <? HT_SHRINK_POINT t1) && (HT_N_BUCKETS t1 >? EXPT_TO_N HT_MIN_EXPT)) eqn:Sh; [|exists t1; now repeat split; auto; try apply Ok1].
    apply andb_prop in Sh as [_ Sh]. destruct (table_size _ Ok1) as (e & R & Be).
    assert (HT_MIN_EXPT < e) as Lt.
    { rewrite Be, (EXPT_TO_N_pow HT_MIN_EXPT), Z.gtb_ltb, Z.ltb_lt in Sh by (unfold HT_MIN_EXPT; lia). apply (Z.pow_lt_mono_r_iff 2); unfold HT_MIN_EXPT in *; lia. }
    rewrite Be, smaller_expt by lia.
    destruct (ht_resize_ok _ _ t1 e (e - 1) (ht_insert_ok ht_fuel) Ok1 (conj R Be) ltac:(lia) (fuel_enough (e - 1) ltac:(lia))) as (t' & e' & E' & Ok' & P' & _ & _ & Sp).
    exists t'. auto. }
  destruct Done as (t' & E' & Ok' & P' & Sp). exists (Some r), t'. rewrite E'. cbn [bind]. split; [reflexivity|]. split; [exact Ok'|]. split; [exact K|].
  split; [now rewrite P'|auto].
Qed.

(** ** The table as a finite map *)

Lemma lookup_none t key : table_ok t -> (ht_lookup t key = None <-> ~ In key (keys t)).
Proof.
  intros Ok. split.
  - intros N I. unfold keys in I. apply in_map_iff in I as (r & K & I). assert (E : ht_lookup t key = Some r) by now apply ht_lookup_ok. congruence.
  - intros N. destruct (ht_lookup t key) as [r|] eqn:E; [|reflexivity]. destruct N. apply (ht_lookup_ok t Ok) in E as [I <-]. now apply in_map.
Qed.

(** Two tables of which the records for [key] are the same. *)
Lemma lookup_same t t' key : table_ok t -> table_ok t' -> (forall r, HT_RECORD_KEY r = key -> In r (records t') <-> In r (records t)) -> ht_lookup t' key = ht_lookup t key.
Proof.
  intros Ok Ok' S. destruct (ht_lookup t key) as [r|] eqn:E.
  - apply (ht_lookup_ok t Ok) in E as [I K]. apply (ht_lookup_ok t' Ok'). split; [now apply S|exact K].
  - apply (lookup_none t' key Ok'). apply (lookup_none t key Ok) in E. intros I. apply E. unfold keys in *. apply in_map_iff in I as (r & K & I).
    apply in_map_iff. exists r. split; [exact K|now apply S].
Qed.

Lemma lookup_extended t t' r key : table_ok t -> extends [r] t t' -> ht_lookup t' key = if key =? HT_RECORD_KEY r then Some r else ht_lookup t key.
Proof.
  intros Ok (Ok' & P & _). destruct (Z.eqb_spec key (HT_RECORD_KEY r)) as [->|Ne].
  - apply (ht_lookup_ok t' Ok'). split; [|reflexivity]. rewrite P. now left.
  - apply lookup_same; auto. intros x K. rewrite P. cbn [app In]. split; [intros [<-|I]; [congruence|exact I]|now right].
Qed.

Lemma lookup_deleted t t' key found k : table_ok t -> table_ok t' -> deleted t key found t' ->
  found = ht_lookup t key /\ ht_lookup t' k = if k =? key then None else ht_lookup t k.
Proof.
  intros Ok Ok' D. destruct found as [r|]; cbn [deleted] in D.
  - destruct D as (K & P & _). split; [symmetry; apply (ht_lookup_ok t Ok); split; [rewrite P; now left|exact K]|]. destruct (Z.eqb_spec k key) as [->|Ne].
    + apply (lookup_none t' key Ok'). pose proof (table_keys _ Ok) as N. apply (Permutation_NoDup (l' := map HT_RECORD_KEY (r :: records t'))) in N; [|now apply Permutation_map].
      cbn [map] in N. inversion N. now rewrite <- K.
    + apply lookup_same; auto. intros x Kx. rewrite P. cbn [In]. split; [now right|]. intros [<-|I]; [congruence|exact I].
  - destruct D as [N ->]. apply (lookup_none t key Ok) in N. split; [now symmetry|]. destruct (Z.eqb_spec k key) as [->|]; [exact N|reflexivity].
Qed.

End Operations.

(** A table of three records, two in one chain. *)
Definition sample_external_table : hash_table :=
  HashTable 3 ([[Record_ 4110 5; Record_ 8220 3]] ++ [[]; [Record_ 4112 9]] ++ repeat [] 12).

Lemma sample_external_table_ok : table_ok sample_external_table.
Proof.
  constructor.
  - exists 4. split; [split; vm_compute; discriminate|reflexivity].
  - reflexivity.
  - unfold keys, records, sample_external_table. cbn. repeat constructor; cbn; intuition discriminate.
  - intros i chain r E I. do 15 (destruct i as [|i]; [injection E as <-; cbn in I; repeat (destruct I as [<-|I]; [reflexivity|]); destruct I|]). cbn in E. now destruct i.
Qed.

(** ** Properties *)

(** C27: the table of external strings is a finite map from addresses to records: an insertion of a new
    key, with all the growth and rehashing it causes, and a deletion, with the shrinking, return within
    the nesting that is allowed for, keep the invariant and change the map at that key alone, also when
    malloc refuses new buckets; when it never does, the table stays less than full as long as it can
    grow. *)
Theorem external_string_table_correct malloc_buckets t : table_ok t ->
  (forall key r, ht_lookup t key = Some r <-> In r (records t) /\ HT_RECORD_KEY r = key) /\
  (forall r, ht_lookup t (HT_RECORD_KEY r) = None ->
     exists t', ht_insert malloc_buckets ht_fuel t r = Return t' /\ table_ok t' /\
       (forall key, ht_lookup t' key = if key =? HT_RECORD_KEY r then Some r else ht_lookup t key) /\
       ((forall table n, malloc_buckets table n = true) -> sparse t -> sparse t')) /\
  (forall key, exists t', ht_delete malloc_buckets t key = Return (ht_lookup t key, t') /\ table_ok t' /\
     (forall k, ht_lookup t' k = if k =? key then None else ht_lookup t k) /\
     ((forall table n, malloc_buckets table n = true) -> sparse t -> sparse t')).
Proof.
  intros Ok. split; [|split].
  - intros key r. now apply ht_lookup_ok.
  - intros r N. apply (lookup_none t _ Ok) in N. destruct (inserted malloc_buckets t r Ok N) as (t' & E & X). exists t'. split; [exact E|].
    split; [apply X|]. split; [|apply X]. intros key. now apply lookup_extended with malloc_buckets.
  - intros key. destruct (ht_delete_ok malloc_buckets t key Ok) as (found & t' & E & Ok' & D). exists t'.
    destruct (lookup_deleted malloc_buckets t t' key found key Ok Ok' D) as [<- _]. split; [exact E|]. split; [exact Ok'|].
    split; [intros k; now apply (lookup_deleted malloc_buckets t t' key found k Ok Ok' D)|]. intros A S. destruct found as [r|]; cbn [deleted] in D; [now apply D|]. destruct D as [_ ->]. exact S.
Qed.

Lemma external_string_table_correct_witness :
  exists t', ht_delete (fun _ _ => true) sample_external_table 8220 = Return (Some (Record_ 8220 3), t') /\ table_ok t' /\
    ht_lookup t' 8220 = None /\ ht_lookup t' 4110 = Some (Record_ 4110 5).
Proof.
  destruct (external_string_table_correct (fun _ _ => true) sample_external_table sample_external_table_ok) as (_ & _ & D).
  destruct (D 8220) as (t' & E & Ok & L & _). exists t'. split; [exact E|]. split; [exact Ok|]. split; rewrite L; reflexivity.
Defined.
