(* ===== verification/Strings.v ===== *)
(** * string.c, bytevector.c, char.c: strings, bytevectors and characters

    A string has its bytes in the words of a block, or in a block of [malloc]
    (an external string, which its address stands for).  The primitives walk
    over bytes with pointers; an access outside the bytes of the block that a
    pointer points into is [Wild]. *)

From Stdlib Require Import ZArith List Bool Lia.
From S2P Require Import Prelude Object Bytes Integer Heap HeapPrim Intern BitStringPrim ExternalTable.
Import ListNotations.

#[local] Open Scope Z_scope.

(** ** The heap and the external strings *)

(** [chunks] has the bytes of each external string, by its address. *)
Record world : Type := World { scheme : heap; external_strings : option hash_table; chunks : list (Z * list Z) }.

Definition with_scheme (h : heap) (w : world) : world := World h (external_strings w) (chunks w).

Definition string_procedure (A : Type) : Type := world -> outcome ((A + signal) * world).

Definition sreturn {A} (a : A) : string_procedure A := fun w => Return (inl a, w).
Definition ssignal {A} (s : signal) : string_procedure A := fun w => Return (inr s, w).

Definition sthen {A B} (m : string_procedure A) (k : A -> string_procedure B) : string_procedure B := fun w =>
  bind (m w) (fun '(r, w') => match r with inl a => k a w' | inr s => Return (inr s, w') end).

(** A procedure, or an operation, on the heap. *)
Definition on_heap {A} (p : procedure A) : string_procedure A := fun w =>
  bind (p (scheme w)) (fun '(r, h) => Return (r, with_scheme h w)).
Definition in_scheme {A} (op : operation A) : string_procedure A := on_heap (run_operation op).

Definition pure_outcome {A} (x : outcome A) : string_procedure A := fun w => bind x (fun a => Return (inl a, w)).

Declare Scope string_procedure_scope.
Delimit Scope string_procedure_scope with sproc.

Notation "x <- m ;; k" := (sthen m (fun x => k))
  (at level 60, m at next level, right associativity) : string_procedure_scope.
Notation "' p <- m ;; k" := (sthen m (fun x => match x with p => k end))
  (at level 60, p pattern, m at next level, right associativity) : string_procedure_scope.
Notation "m ;; k" := (sthen m (fun _ => k))
  (at level 60, right associativity) : string_procedure_scope.

#[local] Open Scope string_procedure_scope.

Definition error_bad_range {A} (n : Z) : string_procedure A := ssignal (bad_range_arg n).
Definition error_wrong_type {A} (n : Z) : string_procedure A := ssignal (wrong_type_arg n).
Definition range_check (ok : bool) (n : Z) : string_procedure unit := if ok then sreturn tt else error_bad_range n.
Definition type_check (ok : bool) (n : Z) : string_procedure unit := if ok then sreturn tt else error_wrong_type n.

(** ** Bytes *)

(** Where a pointer to bytes points into, and the distance from its start. *)
Inductive byte_base : Type := In_block (b : nat) | In_chunk (key : Z).
Definition byte_pointer : Type := byte_base * Z.
Definition byte_offset (p : byte_pointer) (n : Z) : byte_pointer := (fst p, snd p + n).

Definition data_bytes (words : list object) : option (list Z) :=
  option_map (fun data => concat (map word_bytes data)) (raw_words (skipn BYTEVECTOR_DATA words)).

Definition chunk_bytes (key : Z) (w : world) : option (list Z) := option_map snd (find (fun c => fst c =? key) (chunks w)).

Definition bytes_of (base : byte_base) (w : world) : option (list Z) :=
  match base with
  | In_block b => match block_of (scheme w) b with Some words => data_bytes words | None => None end
  | In_chunk key => chunk_bytes key w
  end.

Definition set_block_bytes (b : nat) (bytes : list Z) (h : heap) : heap :=
  match block_of h b with
  | Some words => with_blocks h (update b (firstn BYTEVECTOR_DATA words ++ map Immediate (pack (length words - BYTEVECTOR_DATA) bytes)) (blocks h))
  | None => h
  end.

Definition set_bytes (base : byte_base) (bytes : list Z) (w : world) : world :=
  match base with
  | In_block b => with_scheme (set_block_bytes b bytes (scheme w)) w
  | In_chunk key => World (scheme w) (external_strings w) (map (fun c => if fst c =? key then (key, bytes) else c) (chunks w))
  end.

Definition load_byte (p : byte_pointer) : string_procedure Z := fun w =>
  match bytes_of (fst p) w with
  | Some bytes => if (0 <=? snd p) && (snd p <? zlength bytes) then Return (inl (nth (Z.to_nat (snd p)) bytes 0), w) else Wild
  | None => Wild
  end.

(** The value is converted to [unsigned char]. *)
Definition store_byte (p : byte_pointer) (value : Z) : string_procedure unit := fun w =>
  match bytes_of (fst p) w with
  | Some bytes =>
      if (0 <=? snd p) && (snd p <? zlength bytes) then Return (inl tt, set_bytes (fst p) (update (Z.to_nat (snd p)) (Z.land value 255) bytes) w) else Wild
  | None => Wild
  end.

(** [memmove], which [memcpy] is when the two ranges are apart, and [memset]. *)
Definition memmove (to from : byte_pointer) (n : Z) : string_procedure unit := fun w =>
  match bytes_of (fst from) w, bytes_of (fst to) w with
  | Some source, Some target =>
      if (0 <=? snd from) && (snd from + n <=? zlength source) && (0 <=? snd to) && (snd to + n <=? zlength target) then
        let t := Z.to_nat (snd to) in let k := Z.to_nat n in
        Return (inl tt, set_bytes (fst to) (firstn t target ++ firstn k (skipn (Z.to_nat (snd from)) source) ++ skipn (t + k) target) w)
      else Wild
  | _, _ => Wild
  end.

Definition memset (to : byte_pointer) (value n : Z) : string_procedure unit := fun w =>
  match bytes_of (fst to) w with
  | Some target =>
      if (0 <=? snd to) && (snd to + n <=? zlength target) then
        let t := Z.to_nat (snd to) in let k := Z.to_nat n in
        Return (inl tt, set_bytes (fst to) (firstn t target ++ repeat (Z.land value 255) k ++ skipn (t + k) target) w)
      else Wild
  | None => Wild
  end.

(** ** Objects *)

Definition TC_UNICODE_STRING : Z := 0x1B.

Definition BYTEVECTOR_P (object : object) : bool := OBJECT_TYPE object =? TC_BYTEVECTOR.
Definition UNICODE_STRING_P (object : object) : bool := OBJECT_TYPE object =? TC_UNICODE_STRING.

Definition UNICODE_STRING_FLAGS (u : object) : operation Z := (word <- MEMORY_REF u BYTEVECTOR_LENGTH_INDEX ;; ret (OBJECT_TYPE word))%heap.

Definition UNICODE_STRING_BYTES_PER_CP (u : object) : operation Z :=
  (flags <- UNICODE_STRING_FLAGS u ;; ret (if Z.land flags 3 =? 0 then 3 else Z.land flags 3))%heap.

Definition string_p (object : Heap.object) : operation bool :=
  if LEGACY_STRING_P object || BYTEVECTOR_P object then ret true
  else if UNICODE_STRING_P object then (n <- UNICODE_STRING_BYTES_PER_CP object ;; ret (n =? 1))%heap
  else ret false.

(** [MEMORY_LOC (v, BYTEVECTOR_DATA)] as a pointer to bytes. *)
Definition STRING_POINTER (s : object) : string_procedure byte_pointer :=
  match s with Pointer _ b => sreturn (In_block b, 0) | Immediate _ => fun _ => Wild end.

Definition STRING_LENGTH_OF (s : object) : string_procedure Z := in_scheme (STRING_LENGTH s).

Definition STRING_REF (s : object) (i : Z) : string_procedure Z := p <- STRING_POINTER s ;; load_byte (byte_offset p i).
Definition STRING_SET (s : object) (i c : Z) : string_procedure unit := p <- STRING_POINTER s ;; store_byte (byte_offset p i) c.

Definition SET_BYTEVECTOR_LENGTH (v : object) (n_bytes : Z) : string_procedure unit := in_scheme (MEMORY_SET v BYTEVECTOR_LENGTH_INDEX (MAKE_OBJECT 0 n_bytes)).
Definition SET_STRING_LENGTH (s : object) (n_chars : Z) : string_procedure unit := SET_BYTEVECTOR_LENGTH s n_chars ;; STRING_SET s n_chars 0.

Definition BYTEVECTOR_DATA_LENGTH (v : object) : string_procedure Z := n <- in_scheme (VECTOR_LENGTH v) ;; sreturn (to_ulong (n - 1)).
Definition MAXIMUM_STRING_LENGTH (s : object) : string_procedure Z :=
  n <- BYTEVECTOR_DATA_LENGTH s ;; sreturn (to_ulong (n * SIZEOF_SCHEME_OBJECT - 1)).

(** [CHECK_ARG (n, STRING_P)]. *)
Definition check_string (n : Z) (o : object) : string_procedure unit := ok <- in_scheme (string_p o) ;; type_check ok n.

Section WithMemory.

(** What the free part of the heap holds; what [malloc] returns for a number of
    bytes: an address and what the memory holds there; whether there is memory
    for the table; and for its buckets. *)
Context (stale : heap -> nat -> Z) (malloc : world -> Z -> option (Z * list Z)) (enough : bool) (malloc_buckets : hash_table -> Z -> bool).

(** ** Allocation *)

Definition allocate_string (nbytes : Z) : string_procedure object :=
  result <- in_scheme (allocate_non_marked_vector stale TC_CHARACTER_STRING (STRING_LENGTH_TO_GC_LENGTH nbytes) true) ;;
  SET_STRING_LENGTH result nbytes ;;
  sreturn result.

Definition allocate_string_no_gc (nbytes : Z) : string_procedure object :=
  result <- in_scheme (allocate_non_marked_vector stale TC_CHARACTER_STRING (STRING_LENGTH_TO_GC_LENGTH nbytes) false) ;;
  SET_STRING_LENGTH result nbytes ;;
  sreturn result.

(** The additions of [nbytes + 1] and in BYTES_TO_WORDS are of [unsigned long]. *)
Definition allocate_bytevector (nbytes : Z) : string_procedure object :=
  let words := to_ulong (to_ulong (nbytes + 1) + (SIZEOF_SCHEME_OBJECT - 1)) / SIZEOF_SCHEME_OBJECT in
  result <- in_scheme (allocate_non_marked_vector stale TC_BYTEVECTOR (words + 1) true) ;;
  SET_BYTEVECTOR_LENGTH result nbytes ;;
  STRING_SET result nbytes 0 ;;
  sreturn result.

Definition memory_to_bytevector (n_bytes : Z) (vp : byte_pointer) : string_procedure object :=
  result <- allocate_bytevector n_bytes ;;
  to <- STRING_POINTER result ;;
  memmove to vp n_bytes ;;
  sreturn result.

Definition memory_to_string (n_bytes : Z) (vp : byte_pointer) : string_procedure object :=
  result <- allocate_string n_bytes ;;
  to <- STRING_POINTER result ;;
  memmove to vp n_bytes ;;
  sreturn result.

Definition memory_to_string_no_gc (n_bytes : Z) (vp : byte_pointer) : string_procedure object :=
  result <- allocate_string_no_gc n_bytes ;;
  to <- STRING_POINTER result ;;
  memmove to vp n_bytes ;;
  sreturn result.

(** [strlen]; a null pointer is [None]. *)
Definition strlen (p : byte_pointer) : string_procedure Z := fun w =>
  match bytes_of (fst p) w with
  | Some bytes => if 0 <=? snd p then bind (read_c_string (skipn (Z.to_nat (snd p)) bytes)) (fun s => Return (inl (zlength s), w)) else Wild
  | None => Wild
  end.

Definition char_pointer_to_string (cp : option byte_pointer) : string_procedure object :=
  match cp with
  | None => allocate_string 0
  | Some cp => n <- strlen cp ;; memory_to_string n cp
  end.

Definition char_pointer_to_string_no_gc (cp : option byte_pointer) : string_procedure object :=
  match cp with
  | None => allocate_string_no_gc 0
  | Some cp => n <- strlen cp ;; memory_to_string_no_gc n cp
  end.

Definition string_to_char_pointer (string : object) : string_procedure (byte_pointer * Z) :=
  length <- STRING_LENGTH_OF string ;; p <- STRING_POINTER string ;; sreturn (p, length).

(** ** External strings *)

Definition the_table : string_procedure hash_table := fun w =>
  match external_strings w with
  | Some table => Return (inl table, w)
  | None => bind (make_hash_table enough) (fun table => Return (inl table, World (scheme w) (Some table) (chunks w)))
  end.

Definition set_table (table : hash_table) : string_procedure unit := fun w => Return (inl tt, World (scheme w) (Some table) (chunks w)).

(** The header of a record has two words. *)
Definition SIZEOF_HT_RECORD : Z := 16.

(** The bytes of a new block, after its header. *)
Definition add_chunk (key : Z) (bytes : list Z) : string_procedure unit := fun w => Return (inl tt, World (scheme w) (external_strings w) ((key, bytes) :: chunks w)).
Definition free_chunk (key : Z) : string_procedure unit := fun w =>
  Return (inl tt, World (scheme w) (external_strings w) (filter (fun c => negb (fst c =? key)) (chunks w))).

Definition Prim_alloc_external_string (n_bytes : object) : string_procedure scheme_object :=
  n_bytes <- on_heap (arg_ulong_integer 1 n_bytes) ;;
  result <- (fun w => Return (inl (malloc w (to_ulong (n_bytes + 1 + SIZEOF_HT_RECORD))), w)) ;;
  match result with
  | None => error_bad_range 1
  | Some (address, bytes) =>
      table <- the_table ;;
      if zlength bytes <? SIZEOF_HT_RECORD then fun _ => Wild
      else
        let key := address + SIZEOF_HT_RECORD in
        add_chunk key (skipn (Z.to_nat SIZEOF_HT_RECORD) bytes) ;;
        store_byte (In_chunk key, n_bytes) 0 ;;
        table <- pure_outcome (ht_insert malloc_buckets ht_fuel table (Record_ key n_bytes)) ;;
        set_table table ;;
        pure_outcome (ulong_to_integer key)
  end.

(** [(INTEGER_P (x)) && (integer_to_ulong_p (x))], and its value. *)
Definition ulong_argument (o : object) : string_procedure (option Z) :=
  x <- in_scheme (integer_argument o) ;;
  if Integer.INTEGER_P x then
    fits <- pure_outcome (integer_to_ulong_p x) ;;
    if fits then n <- pure_outcome (integer_to_ulong x) ;; sreturn (Some n) else sreturn None
  else sreturn None.

Definition Prim_external_string_p (x : object) : string_procedure object :=
  n <- ulong_argument x ;;
  match n with
  | None => sreturn SHARP_F
  | Some n =>
      table <- the_table ;;
      sreturn (BOOLEAN_TO_OBJECT (match ht_lookup table n with Some _ => true | None => false end))
  end.

Definition Prim_dealloc_external_string (n : object) : string_procedure object :=
  n <- on_heap (arg_ulong_integer 1 n) ;;
  table <- the_table ;;
  '(record, table) <- pure_outcome (ht_delete malloc_buckets table n) ;;
  match record with
  | None => error_wrong_type 1
  | Some record => set_table table ;; free_chunk (HT_RECORD_KEY record) ;; sreturn UNSPECIFIC
  end.

Definition lookup_external_string (n : Z) : string_procedure (option (byte_pointer * Z)) :=
  table <- the_table ;;
  sreturn (match ht_lookup table n with
           | None => None
           | Some record => Some ((In_chunk (HT_RECORD_KEY record), 0), HT_RECORD_N_BYTES record)
           end).

Definition arg_extended_string (n : Z) (object : Heap.object) : string_procedure (byte_pointer * Z) :=
  is_string <- in_scheme (string_p object) ;;
  if is_string then
    length <- STRING_LENGTH_OF object ;; p <- STRING_POINTER object ;; sreturn (p, length)
  else
    address <- ulong_argument object ;;
    match address with
    | None => error_wrong_type n
    | Some address =>
        result <- lookup_external_string address ;;
        match result with None => error_wrong_type n | Some result => sreturn result end
    end.

Definition Prim_extended_string_length (o : object) : string_procedure scheme_object :=
  '(_, length) <- arg_extended_string 1 o ;; pure_outcome (ulong_to_integer length).

End WithMemory.
