(* ===== verification/StringPrim.v ===== *)
(** * string.c, bytevector.c, char.c: the primitives *)

From Stdlib Require Import ZArith List Bool Lia.
From S2P Require Import Prelude Object Bytes Integer Heap HeapPrim Intern BitStringPrim ExternalTable Strings.
Import ListNotations.

#[local] Open Scope Z_scope.
#[local] Open Scope procedure_scope.

(** ** char.c *)

Definition MAX_CODE : Z := Z.shiftl 1 CODE_LENGTH.
Definition MAX_BITS : Z := Z.shiftl 1 BITS_LENGTH.
Definition MIT_ASCII_LENGTH : Z := 25.
Definition MAX_MIT_ASCII : Z := Z.shiftl 1 MIT_ASCII_LENGTH.
Definition MASK_MIT_ASCII : Z := MAX_MIT_ASCII - 1.
Definition MASK_ASCII : Z := MAX_ASCII - 1.

Definition CHARACTER_P (o : object) : bool := OBJECT_TYPE o =? TC_CHARACTER.
Definition ASCII_TO_CHAR (ascii : Z) : object := MAKE_OBJECT TC_CHARACTER ascii.

(** The word of an immediate object. *)
Definition object_word (o : object) : outcome Z := match o with Immediate w => Return w | Pointer _ _ => Wild end.

(** <ctype.h> in the "C" locale; the argument must be the value of a byte. *)
Definition isupper (c : Z) : outcome bool := if (0 <=? c) && (c <=? 255) then Return ((65 <=? c) && (c <=? 90)) else Wild.
Definition islower (c : Z) : outcome bool := if (0 <=? c) && (c <=? 255) then Return ((97 <=? c) && (c <=? 122)) else Wild.

Definition char_downcase (c : Z) : outcome Z := bind (isupper c) (fun b => Return (if b then (c - 65) + 97 else c)).
Definition char_upcase (c : Z) : outcome Z := bind (islower c) (fun b => Return (if b then (c - 97) + 65 else c)).

Definition in_word {A} (x : outcome A) : procedure A := fun h => bind x (fun a => Return (inl a, h)).

Definition arg_ascii_char (n : Z) (o : object) : procedure Z :=
  CHECK_ARG n CHARACTER_P o ;;
  word <- in_word (object_word o) ;;
  unless (CHAR_TO_ASCII_P word) (error_bad_range_arg n) ;;
  PRIMITIVE_RETURN (Z.land word MASK_ASCII).

Definition arg_ascii_integer (n : Z) (o : object) : procedure Z := arg_index_integer n MAX_ASCII o.

Definition fixnum_result (n : Z) : procedure object := PRIMITIVE_RETURN (Immediate (Object.LONG_TO_UNSIGNED_FIXNUM n)).

Definition Prim_char_p (o : object) : procedure object := PRIMITIVE_RETURN (BOOLEAN_TO_OBJECT (CHARACTER_P o)).

(** C does not fix the order in which the operands of the [|] in MAKE_CHAR are
    evaluated, so not which error is signalled when both are wrong; here the
    first argument is decoded first. *)
Definition Prim_make_char (code bits : object) : procedure object :=
  code <- arg_index_integer 1 MAX_CODE code ;;
  bits <- arg_index_integer 2 MAX_BITS bits ;;
  PRIMITIVE_RETURN (Immediate (MAKE_CHAR bits code)).

Definition char_primitive (f : Z -> outcome object) (o : object) : procedure object :=
  CHECK_ARG 1 CHARACTER_P o ;; word <- in_word (object_word o) ;; in_word (f word).

Definition fixnum_of (n : Z) : outcome object := Return (Immediate (Object.LONG_TO_UNSIGNED_FIXNUM n)).

Definition Prim_char_bits : object -> procedure object := char_primitive (fun c => fixnum_of (CHAR_BITS c)).
Definition Prim_char_code : object -> procedure object := char_primitive (fun c => fixnum_of (CHAR_CODE c)).
Definition Prim_char_to_integer : object -> procedure object := char_primitive (fun c => fixnum_of (Z.land c MASK_MIT_ASCII)).

Definition Prim_integer_to_char (n : object) : procedure object :=
  n <- arg_index_integer 1 MAX_MIT_ASCII n ;; PRIMITIVE_RETURN (MAKE_OBJECT TC_CHARACTER n).

Definition change_case (f : Z -> outcome Z) (c : Z) : outcome object :=
  bind (f (CHAR_CODE c)) (fun code => Return (Immediate (MAKE_CHAR (CHAR_BITS c) code))).

Definition Prim_char_downcase : object -> procedure object := char_primitive (change_case char_downcase).
Definition Prim_char_upcase : object -> procedure object := char_primitive (change_case char_upcase).

Definition Prim_ascii_to_char (n : object) : procedure object := n <- arg_index_integer 1 MAX_ASCII n ;; PRIMITIVE_RETURN (ASCII_TO_CHAR n).
Definition Prim_char_to_ascii (o : object) : procedure object := n <- arg_ascii_char 1 o ;; fixnum_result n.

Definition Prim_char_ascii_p : object -> procedure object :=
  char_primitive (fun c => if Object.OBJECT_DATUM c >=? MAX_ASCII then Return SHARP_F else fixnum_of (Z.land c MASK_ASCII)).

(** ** Bytes of arguments *)

#[local] Open Scope string_procedure_scope.

Definition index_argument (n limit : Z) (o : object) : string_procedure Z := on_heap (arg_index_integer n (to_long limit) o).
Definition ulong_index_argument (n limit : Z) (o : object) : string_procedure Z := on_heap (arg_ulong_index_integer n (to_ulong limit) o).
Definition nonnegative_argument (n : Z) (o : object) : string_procedure Z := on_heap (arg_nonnegative_integer n o).

Definition arg_byte (n : Z) (o : object) : string_procedure Z :=
  type_check (FIXNUM_P o) n ;;
  argument <- pure_outcome (object_word o) ;;
  range_check (FIXNUM_TO_ULONG_P argument) n ;;
  let value := Object.OBJECT_DATUM argument in
  range_check (negb (value >=? 256)) n ;;
  sreturn value.

Definition arg_bytevector (n : Z) (o : object) : string_procedure (byte_pointer * Z) :=
  type_check (BYTEVECTOR_P o) n ;;
  length <- STRING_LENGTH_OF o ;;
  v <- STRING_POINTER o ;;
  sreturn (v, length).

(** ** Loops over bytes

    [n] is the number of turns that are left: how far the pointer is from its
    limit. *)

Fixpoint copy_bytes_up (n : nat) (scan1 scan2 : byte_pointer) : string_procedure unit :=
  match n with
  | O => sreturn tt
  | S n => c <- load_byte scan1 ;; store_byte scan2 c ;; copy_bytes_up n (byte_offset scan1 1) (byte_offset scan2 1)
  end.

Fixpoint copy_bytes_down (n : nat) (scan1 scan2 : byte_pointer) : string_procedure unit :=
  match n with
  | O => sreturn tt
  | S n =>
      let scan2 := byte_offset scan2 (-1) in let scan1 := byte_offset scan1 (-1) in
      c <- load_byte scan1 ;; store_byte scan2 c ;; copy_bytes_down n scan1 scan2
  end.

Fixpoint modify (char_map : Z -> outcome Z) (n : nat) (scan : byte_pointer) : string_procedure unit :=
  match n with
  | O => sreturn tt
  | S n => temp <- load_byte scan ;; c <- pure_outcome (char_map temp) ;; store_byte scan c ;; modify char_map n (byte_offset scan 1)
  end.

Fixpoint fill (value : Z) (n : nat) (scan : byte_pointer) : string_procedure unit :=
  match n with O => sreturn tt | S n => store_byte scan value ;; fill value n (byte_offset scan 1) end.

(** The searches return where the byte is that was found. *)
Fixpoint search_up (found : Z -> string_procedure bool) (n : nat) (scan : byte_pointer) : string_procedure (option byte_pointer) :=
  match n with
  | O => sreturn None
  | S n => c <- load_byte scan ;; b <- found c ;; if b then sreturn (Some scan) else search_up found n (byte_offset scan 1)
  end.

Fixpoint search_down (found : Z -> string_procedure bool) (n : nat) (scan : byte_pointer) : string_procedure (option byte_pointer) :=
  match n with
  | O => sreturn None
  | S n =>
      let scan := byte_offset scan (-1) in
      c <- load_byte scan ;; b <- found c ;; if b then sreturn (Some scan) else search_down found n scan
  end.

(** How many bytes are the same, and the first two that differ. *)
Fixpoint compare_up (same : Z -> Z -> outcome bool) (n : nat) (scan1 scan2 : byte_pointer) : string_procedure (Z * option (Z * Z)) :=
  match n with
  | O => sreturn (0, None)
  | S n =>
      c1 <- load_byte scan1 ;; c2 <- load_byte scan2 ;; b <- pure_outcome (same c1 c2) ;;
      if b then '(k, d) <- compare_up same n (byte_offset scan1 1) (byte_offset scan2 1) ;; sreturn (k + 1, d)
      else sreturn (0, Some (c1, c2))
  end.

Fixpoint compare_down (same : Z -> Z -> outcome bool) (n : nat) (scan1 scan2 : byte_pointer) : string_procedure Z :=
  match n with
  | O => sreturn 0
  | S n =>
      let scan1 := byte_offset scan1 (-1) in let scan2 := byte_offset scan2 (-1) in
      c1 <- load_byte scan1 ;; c2 <- load_byte scan2 ;; b <- pure_outcome (same c1 c2) ;;
      if b then k <- compare_down same n scan1 scan2 ;; sreturn (k + 1) else sreturn 0
  end.

Definition same_byte (c1 c2 : Z) : outcome bool := Return (c1 =? c2).
Definition same_letter (c1 c2 : Z) : outcome bool := bind (char_upcase c1) (fun u1 => bind (char_upcase c2) (fun u2 => Return (u1 =? u2))).

(** ** string.c *)

Section WithMemory.

Context (stale : heap -> nat -> Z) (enough : bool).

Definition Prim_string_allocate (n : object) : string_procedure object := n <- nonnegative_argument 1 n ;; allocate_string stale n.

Definition Prim_string_p (o : object) : string_procedure object := b <- in_scheme (string_p o) ;; sreturn (BOOLEAN_TO_OBJECT b).

Definition Prim_string_length (s : object) : string_procedure object :=
  check_string 1 s ;; n <- STRING_LENGTH_OF s ;; on_heap (fixnum_result n).

Definition Prim_string_maximum_length (s : object) : string_procedure object :=
  check_string 1 s ;; n <- MAXIMUM_STRING_LENGTH s ;; on_heap (fixnum_result n).

Definition Prim_set_string_length (string length : object) : string_procedure object :=
  check_string 1 string ;;
  maximum <- MAXIMUM_STRING_LENGTH string ;;
  n <- index_argument 2 (maximum + 1) length ;;
  SET_STRING_LENGTH string n ;;
  sreturn UNSPECIFIC.

(** The comparison of the [long] with the [unsigned long] is one of [unsigned long]. *)
Definition Prim_set_string_maximum_length (string length : object) : string_procedure object :=
  check_string 1 string ;;
  maximum <- MAXIMUM_STRING_LENGTH string ;;
  n <- index_argument 2 (maximum + 1) length ;;
  old <- STRING_LENGTH_OF string ;;
  (if to_ulong n <? old then SET_STRING_LENGTH string n else sreturn tt) ;;
  in_scheme (MEMORY_SET string 0 (MAKE_OBJECT TC_MANIFEST_NM_VECTOR (BYTES_TO_WORDS (n + 1) + 1))) ;;
  sreturn UNSPECIFIC.

Definition STRING_REF_BODY (process_result : Z -> object) (string index : object) : string_procedure object :=
  check_string 1 string ;;
  length <- STRING_LENGTH_OF string ;;
  i <- index_argument 2 length index ;;
  c <- STRING_REF string i ;;
  sreturn (process_result c).

Definition Prim_string_ref : object -> object -> string_procedure object := STRING_REF_BODY ASCII_TO_CHAR.
Definition Prim_vec_8b_ref : object -> object -> string_procedure object := STRING_REF_BODY (fun c => Immediate (Object.LONG_TO_UNSIGNED_FIXNUM c)).

(** The index and the value are operands of one assignment; the index is taken to be decoded first. *)
Definition STRING_SET_BODY (get_ascii : Z -> object -> procedure Z) (string index value : object) : string_procedure object :=
  check_string 1 string ;;
  length <- STRING_LENGTH_OF string ;;
  i <- index_argument 2 length index ;;
  c <- on_heap (get_ascii 3 value) ;;
  STRING_SET string i c ;;
  sreturn UNSPECIFIC.

Definition Prim_string_set : object -> object -> object -> string_procedure object := STRING_SET_BODY arg_ascii_char.
Definition Prim_vec_8b_set : object -> object -> object -> string_procedure object := STRING_SET_BODY arg_ascii_integer.

(** *** Moves *)

(** The starts of the two strings, the two ranges and their length. *)
Definition SUBSTRING_MOVE_PREFIX (string1 start1 end1 string2 start2 : object) : string_procedure (byte_pointer * Z * Z * byte_pointer * Z * Z * Z) :=
  '(ptr1, len1) <- arg_extended_string enough 1 string1 ;;
  end1 <- ulong_index_argument 3 (len1 + 1) end1 ;;
  start1 <- ulong_index_argument 2 (end1 + 1) start1 ;;
  '(ptr2, len2) <- arg_extended_string enough 4 string2 ;;
  start2 <- ulong_index_argument 5 (len2 + 1) start2 ;;
  let length := end1 - start1 in
  let end2 := to_ulong (start2 + length) in
  range_check (negb (end2 >? len2)) 5 ;;
  sreturn (ptr1, start1, end1, ptr2, start2, end2, length).

Definition Prim_substring_move_right (string1 start1 end1 string2 start2 : object) : string_procedure object :=
  '(ptr1, start1, end1, ptr2, start2, end2, length) <- SUBSTRING_MOVE_PREFIX string1 start1 end1 string2 start2 ;;
  copy_bytes_down (Z.to_nat length) (byte_offset ptr1 end1) (byte_offset ptr2 end2) ;;
  sreturn UNSPECIFIC.

Definition Prim_substring_move_left (string1 start1 end1 string2 start2 : object) : string_procedure object :=
  '(ptr1, start1, end1, ptr2, start2, end2, length) <- SUBSTRING_MOVE_PREFIX string1 start1 end1 string2 start2 ;;
  copy_bytes_up (Z.to_nat length) (byte_offset ptr1 start1) (byte_offset ptr2 start2) ;;
  sreturn UNSPECIFIC.

(** *** Changes in place *)

Definition SUBSTRING_MODIFIER (char_map : Z -> outcome Z) (string start end_index : object) : string_procedure object :=
  check_string 1 string ;;
  start <- nonnegative_argument 2 start ;;
  end_index <- nonnegative_argument 3 end_index ;;
  length <- STRING_LENGTH_OF string ;;
  range_check (negb (end_index >? length)) 3 ;;
  range_check (negb (start >? end_index)) 2 ;;
  p <- STRING_POINTER string ;;
  modify char_map (Z.to_nat (end_index - start)) (byte_offset p start) ;;
  sreturn UNSPECIFIC.

Definition Prim_substring_upcase : object -> object -> object -> string_procedure object := SUBSTRING_MODIFIER char_upcase.
Definition Prim_substring_downcase : object -> object -> object -> string_procedure object := SUBSTRING_MODIFIER char_downcase.

(** *** Searches *)

(** The start of the string, the range and the byte. *)
Definition VECTOR_8B_SUBSTRING_PREFIX (string start end_index ascii : object) : string_procedure (byte_pointer * Z * Z * Z) :=
  '(string_start, length) <- arg_extended_string enough 1 string ;;
  start <- nonnegative_argument 2 start ;;
  end_index <- nonnegative_argument 3 end_index ;;
  ascii <- on_heap (arg_ascii_integer 4 ascii) ;;
  range_check (negb (end_index >? length)) 3 ;;
  range_check (negb (start >? end_index)) 2 ;;
  sreturn (string_start, start, end_index, ascii).

Definition Prim_vec_8b_fill (string start end_index ascii : object) : string_procedure object :=
  '(string_start, start, end_index, ascii) <- VECTOR_8B_SUBSTRING_PREFIX string start end_index ascii ;;
  fill ascii (Z.to_nat (end_index - start)) (byte_offset string_start start) ;;
  sreturn UNSPECIFIC.

Definition found_at (string_start : byte_pointer) (r : option byte_pointer) : string_procedure object :=
  sreturn (match r with Some scan => Immediate (Object.LONG_TO_UNSIGNED_FIXNUM (snd scan - snd string_start)) | None => SHARP_F end).

Definition search_next (found : Z -> string_procedure bool) (string_start : byte_pointer) (start end_index : Z) : string_procedure object :=
  r <- search_up found (Z.to_nat (end_index - start)) (byte_offset string_start start) ;; found_at string_start r.

Definition search_previous (found : Z -> string_procedure bool) (string_start : byte_pointer) (start end_index : Z) : string_procedure object :=
  r <- search_down found (Z.to_nat (end_index - start)) (byte_offset string_start end_index) ;; found_at string_start r.

Definition is_char (ascii c : Z) : string_procedure bool := sreturn (c =? ascii).

(** [char1] is converted to [unsigned char]. *)
Definition is_letter (char1 c : Z) : string_procedure bool := u <- pure_outcome (char_upcase c) ;; sreturn (u =? char1).

Definition Prim_vec_8b_find_next_char (string start end_index ascii : object) : string_procedure object :=
  '(string_start, start, end_index, ascii) <- VECTOR_8B_SUBSTRING_PREFIX string start end_index ascii ;;
  search_next (is_char ascii) string_start start end_index.

Definition Prim_vec_8b_find_prev_char (string start end_index ascii : object) : string_procedure object :=
  '(string_start, start, end_index, ascii) <- VECTOR_8B_SUBSTRING_PREFIX string start end_index ascii ;;
  search_previous (is_char ascii) string_start start end_index.

Definition Prim_vec_8b_find_next_char_ci (string start end_index ascii : object) : string_procedure object :=
  '(string_start, start, end_index, ascii) <- VECTOR_8B_SUBSTRING_PREFIX string start end_index ascii ;;
  char1 <- pure_outcome (char_upcase ascii) ;;
  search_next (is_letter (Z.land char1 255)) string_start start end_index.

Definition Prim_vec_8b_find_prev_char_ci (string start end_index ascii : object) : string_procedure object :=
  '(string_start, start, end_index, ascii) <- VECTOR_8B_SUBSTRING_PREFIX string start end_index ascii ;;
  char1 <- pure_outcome (char_upcase ascii) ;;
  search_previous (is_letter (Z.land char1 255)) string_start start end_index.

Definition SUBSTR_FIND_CHAR_IN_SET_PREFIX (string start end_index char_set : object) : string_procedure (byte_pointer * Z * Z * byte_pointer) :=
  '(string_start, length) <- arg_extended_string enough 1 string ;;
  start <- nonnegative_argument 2 start ;;
  end_index <- nonnegative_argument 3 end_index ;;
  check_string 4 char_set ;;
  set <- STRING_POINTER char_set ;;
  range_check (negb (end_index >? length)) 3 ;;
  range_check (negb (start >? end_index)) 2 ;;
  n <- STRING_LENGTH_OF char_set ;;
  range_check (n =? MAX_ASCII) 4 ;;
  sreturn (string_start, start, end_index, set).

Definition in_set (set : byte_pointer) (c : Z) : string_procedure bool := b <- load_byte (byte_offset set c) ;; sreturn (negb (b =? 0)).

Definition Prim_find_next_char_in_set (string start end_index char_set : object) : string_procedure object :=
  '(string_start, start, end_index, set) <- SUBSTR_FIND_CHAR_IN_SET_PREFIX string start end_index char_set ;;
  search_next (in_set set) string_start start end_index.

Definition Prim_find_prev_char_in_set (string start end_index char_set : object) : string_procedure object :=
  '(string_start, start, end_index, set) <- SUBSTR_FIND_CHAR_IN_SET_PREFIX string start end_index char_set ;;
  search_previous (in_set set) string_start start end_index.

End WithMemory.

(** *** Comparisons *)

Definition SUBSTRING_COMPARE_PREFIX (string1 start1 end1 string2 start2 end2 : object) : string_procedure (byte_pointer * Z * Z * byte_pointer * Z * Z) :=
  check_string 1 string1 ;;
  string1_start <- STRING_POINTER string1 ;;
  start1 <- nonnegative_argument 2 start1 ;;
  end1 <- nonnegative_argument 3 end1 ;;
  check_string 4 string2 ;;
  string2_start <- STRING_POINTER string2 ;;
  start2 <- nonnegative_argument 5 start2 ;;
  end2 <- nonnegative_argument 6 end2 ;;
  length1 <- STRING_LENGTH_OF string1 ;;
  range_check (negb (end1 >? length1)) 3 ;;
  range_check (negb (start1 >? end1)) 2 ;;
  length2 <- STRING_LENGTH_OF string2 ;;
  range_check (negb (end2 >? length2)) 6 ;;
  range_check (negb (start2 >? end2)) 5 ;;
  sreturn (string1_start, start1, end1, string2_start, start2, end2).

Definition substring_equal (same : Z -> Z -> outcome bool) (string1 start1 end1 string2 start2 end2 : object) : string_procedure object :=
  '(p1, start1, end1, p2, start2, end2) <- SUBSTRING_COMPARE_PREFIX string1 start1 end1 string2 start2 end2 ;;
  if negb (end1 - start1 =? end2 - start2) then sreturn SHARP_F
  else
    '(_, d) <- compare_up same (Z.to_nat (end1 - start1)) (byte_offset p1 start1) (byte_offset p2 start2) ;;
    sreturn (match d with Some _ => SHARP_F | None => SHARP_T end).

Definition Prim_substring_equal : object -> object -> object -> object -> object -> object -> string_procedure object := substring_equal same_byte.
Definition Prim_substring_ci_equal : object -> object -> object -> object -> object -> object -> string_procedure object := substring_equal same_letter.

Definition substring_length_min (start1 end1 start2 end2 : Z) : Z :=
  let length1 := end1 - start1 in let length2 := end2 - start2 in if length1 <? length2 then length1 else length2.

Definition Prim_substring_less (string1 start1 end1 string2 start2 end2 : object) : string_procedure object :=
  '(p1, start1, end1, p2, start2, end2) <- SUBSTRING_COMPARE_PREFIX string1 start1 end1 string2 start2 end2 ;;
  let length1 := end1 - start1 in
  let length2 := end2 - start2 in
  '(_, d) <- compare_up same_byte (Z.to_nat (if length1 <? length2 then length1 else length2)) (byte_offset p1 start1) (byte_offset p2 start2) ;;
  sreturn (BOOLEAN_TO_OBJECT (match d with Some (c1, c2) => c1 <? c2 | None => length1 <? length2 end)).

Definition match_forward (same : Z -> Z -> outcome bool) (string1 start1 end1 string2 start2 end2 : object) : string_procedure object :=
  '(p1, start1, end1, p2, start2, end2) <- SUBSTRING_COMPARE_PREFIX string1 start1 end1 string2 start2 end2 ;;
  '(k, _) <- compare_up same (Z.to_nat (substring_length_min start1 end1 start2 end2)) (byte_offset p1 start1) (byte_offset p2 start2) ;;
  on_heap (fixnum_result k).

Definition match_backward (same : Z -> Z -> outcome bool) (string1 start1 end1 string2 start2 end2 : object) : string_procedure object :=
  '(p1, start1, end1, p2, start2, end2) <- SUBSTRING_COMPARE_PREFIX string1 start1 end1 string2 start2 end2 ;;
  k <- compare_down same (Z.to_nat (substring_length_min start1 end1 start2 end2)) (byte_offset p1 end1) (byte_offset p2 end2) ;;
  on_heap (fixnum_result k).

Definition Prim_match_forward : object -> object -> object -> object -> object -> object -> string_procedure object := match_forward same_byte.
Definition Prim_match_forward_ci : object -> object -> object -> object -> object -> object -> string_procedure object := match_forward same_letter.
Definition Prim_match_backward : object -> object -> object -> object -> object -> object -> string_procedure object := match_backward same_byte.
Definition Prim_match_backward_ci : object -> object -> object -> object -> object -> object -> string_procedure object := match_backward same_letter.

(** ** bytevector.c *)

Section Bytevectors.

Context (stale : heap -> nat -> Z).

Definition Prim_allocate_bytevector (n : object) : string_procedure object := n <- on_heap (arg_ulong_integer 1 n) ;; allocate_bytevector stale n.

Definition Prim_bytevector_p (o : object) : string_procedure object := sreturn (BOOLEAN_TO_OBJECT (BYTEVECTOR_P o)).

Definition Prim_bytevector_length (o : object) : string_procedure scheme_object :=
  type_check (BYTEVECTOR_P o) 1 ;; n <- STRING_LENGTH_OF o ;; pure_outcome (ulong_to_integer n).

Definition Prim_bytevector_u8_ref (o index : object) : string_procedure scheme_object :=
  '(v, length) <- arg_bytevector 1 o ;;
  index <- ulong_index_argument 2 length index ;;
  c <- load_byte (byte_offset v index) ;;
  pure_outcome (ulong_to_integer c).

Definition Prim_bytevector_u8_set (o index value : object) : string_procedure object :=
  '(v, length) <- arg_bytevector 1 o ;;
  index <- ulong_index_argument 2 length index ;;
  value <- arg_byte 3 value ;;
  store_byte (byte_offset v index) value ;;
  sreturn UNSPECIFIC.

Definition Prim_bytevector_fill (o value start end_index : object) : string_procedure object :=
  '(v, length) <- arg_bytevector 1 o ;;
  value <- arg_byte 2 value ;;
  end_index <- ulong_index_argument 4 (length + 1) end_index ;;
  start <- ulong_index_argument 3 (end_index + 1) start ;;
  memset (byte_offset v start) value (end_index - start) ;;
  sreturn UNSPECIFIC.

Definition Prim_bytevector_copy (o start end_index : object) : string_procedure object :=
  '(v, length) <- arg_bytevector 1 o ;;
  end_index <- ulong_index_argument 3 (length + 1) end_index ;;
  start <- ulong_index_argument 2 (end_index + 1) start ;;
  memory_to_bytevector stale (end_index - start) (byte_offset v start).

Definition Prim_bytevector_copyx (to to_start from from_start from_end : object) : string_procedure scheme_object :=
  '(to_v, to_length) <- arg_bytevector 1 to ;;
  to_start <- ulong_index_argument 2 (to_length + 1) to_start ;;
  '(from_v, from_length) <- arg_bytevector 3 from ;;
  from_end <- ulong_index_argument 5 (from_length + 1) from_end ;;
  from_start <- ulong_index_argument 4 (from_end + 1) from_start ;;
  let length := from_end - from_start in
  let to_end := to_ulong (to_start + length) in
  range_check (negb (to_end >? to_length)) 5 ;;
  memmove (byte_offset to_v to_start) (byte_offset from_v from_start) length ;;
  pure_outcome (ulong_to_integer to_end).

End Bytevectors.
