(* ===== verification/ListPrim.v ===== *)
(** * list.c, hunk.c, prim.c: pairs, weak pairs, tagged objects, cells and triples

    With the map from type codes to the kinds of objects the garbage collector
    knows ([gc_type_map] of gcloop.c). *)

From Stdlib Require Import ZArith List Bool Lia.
From S2P Require Import Prelude Object Heap HeapPrim Intern.
Import ListNotations.

#[local] Open Scope Z_scope.
#[local] Open Scope procedure_scope.

(** ** Types *)

Inductive gc_type_t : Set :=
| GC_COMPILED_ENTRY | GC_VECTOR | GC_SPECIAL | GC_UNDEFINED | GC_NON_POINTER | GC_CELL | GC_PAIR | GC_TRIPLE | GC_QUADRUPLE | GC_COMPILED_RETURN.

Definition N_TYPE_CODES : Z := 64.

Definition gc_type_map : list gc_type_t :=
  [ GC_NON_POINTER; GC_PAIR; GC_NON_POINTER; GC_PAIR; GC_COMPILED_RETURN; GC_PAIR; GC_VECTOR; GC_UNDEFINED;
    GC_NON_POINTER; GC_PAIR; GC_VECTOR; GC_NON_POINTER; GC_UNDEFINED; GC_SPECIAL; GC_VECTOR; GC_PAIR;
    GC_PAIR; GC_PAIR; GC_VECTOR; GC_PAIR; GC_TRIPLE; GC_PAIR; GC_VECTOR; GC_PAIR;
    GC_NON_POINTER; GC_PAIR; GC_NON_POINTER; GC_VECTOR; GC_VECTOR; GC_PAIR; GC_VECTOR; GC_PAIR;
    GC_TRIPLE; GC_PAIR; GC_SPECIAL; GC_PAIR; GC_TRIPLE; GC_PAIR; GC_VECTOR; GC_SPECIAL;
    GC_COMPILED_ENTRY; GC_PAIR; GC_UNDEFINED; GC_VECTOR; GC_TRIPLE; GC_NON_POINTER; GC_PAIR; GC_VECTOR;
    GC_UNDEFINED; GC_VECTOR; GC_SPECIAL; GC_VECTOR; GC_TRIPLE; GC_PAIR; GC_CELL; GC_PAIR;
    GC_QUADRUPLE; GC_SPECIAL; GC_PAIR; GC_NON_POINTER; GC_PAIR; GC_VECTOR; GC_VECTOR; GC_UNDEFINED ].

Definition gc_type_code (type_code : Z) : gc_type_t := nth (Z.to_nat type_code) gc_type_map GC_UNDEFINED.

Definition gc_type_eqb (a b : gc_type_t) : bool :=
  match a, b with
  | GC_COMPILED_ENTRY, GC_COMPILED_ENTRY | GC_VECTOR, GC_VECTOR | GC_SPECIAL, GC_SPECIAL | GC_UNDEFINED, GC_UNDEFINED
  | GC_NON_POINTER, GC_NON_POINTER | GC_CELL, GC_CELL | GC_PAIR, GC_PAIR | GC_TRIPLE, GC_TRIPLE
  | GC_QUADRUPLE, GC_QUADRUPLE | GC_COMPILED_RETURN, GC_COMPILED_RETURN => true
  | _, _ => false
  end.

Definition GC_TYPE (object : object) : gc_type_t := gc_type_code (OBJECT_TYPE object).
Definition GC_TYPE_PAIR (object : object) : bool := gc_type_eqb (GC_TYPE object) GC_PAIR.
Definition GC_TYPE_TRIPLE (object : object) : bool := gc_type_eqb (GC_TYPE object) GC_TRIPLE.
Definition GC_TYPE_VECTOR (object : object) : bool := gc_type_eqb (GC_TYPE object) GC_VECTOR.

Definition TC_HUNK3_A : Z := 0x20.
Definition TC_HUNK3_B : Z := 0x24.
Definition TC_TAGGED_OBJECT : Z := 0x25.
Definition TC_CELL : Z := 0x36.
Definition TC_RECORD : Z := 0x3E.

Definition CELL_P (object : object) : bool := OBJECT_TYPE object =? TC_CELL.
Definition TAGGED_OBJECT_P (object : object) : bool := OBJECT_TYPE object =? TC_TAGGED_OBJECT.
Definition RECORD_P (object : object) : bool := OBJECT_TYPE object =? TC_RECORD.
Definition HUNK3_P (object : object) : bool := (OBJECT_TYPE object =? TC_HUNK3_A) || (OBJECT_TYPE object =? TC_HUNK3_B).
Definition EMPTY_LIST_P (o : object) : bool := object_eqb o EMPTY_LIST.

(** ** prim.c *)

Definition Prim_eq (object_1 object_2 : object) : procedure object := PRIMITIVE_RETURN (BOOLEAN_TO_OBJECT (object_eqb object_1 object_2)).
Definition Prim_not (o : object) : procedure object := PRIMITIVE_RETURN (BOOLEAN_TO_OBJECT (object_eqb o SHARP_F)).
Definition Prim_null_p (o : object) : procedure object := PRIMITIVE_RETURN (BOOLEAN_TO_OBJECT (EMPTY_LIST_P o)).

(** The words of a new object, stored at [Free] after the check for space. *)
Definition new_object (type : Z) (words : list object) : operation object :=
  (Primitive_GC_If_Needed (zlength words) ;; allocate type words)%heap.

Definition Prim_make_cell (contents : object) : procedure object := run_operation (new_object TC_CELL [contents]).
Definition Prim_cell_p (o : object) : procedure object := PRIMITIVE_RETURN (BOOLEAN_TO_OBJECT (CELL_P o)).

Definition CELL_ARG (n : Z) (cell : object) : procedure object :=
  if CELL_P cell then PRIMITIVE_RETURN cell else error_wrong_type_arg n.

Definition Prim_cell_contents (cell : object) : procedure object :=
  cell <- CELL_ARG 1 cell ;; run_operation (MEMORY_REF cell 0).

Definition Prim_set_cell_contents (cell object : object) : procedure Heap.object :=
  cell <- CELL_ARG 1 cell ;; run_operation (MEMORY_SET cell 0 object) ;; PRIMITIVE_RETURN UNSPECIFIC.

(** ** list.c *)

(** The primitives that read or write a word of an object of one type. *)
Definition ref_primitive (p : object -> bool) (index : nat) (o : object) : procedure object :=
  CHECK_ARG 1 p o ;; run_operation (MEMORY_REF o index).

Definition set_primitive (p : object -> bool) (index : nat) (o value : object) : procedure object :=
  CHECK_ARG 1 p o ;; run_operation (MEMORY_SET o index value) ;; PRIMITIVE_RETURN UNSPECIFIC.

Definition Prim_pair (o : object) : procedure object := PRIMITIVE_RETURN (BOOLEAN_TO_OBJECT (PAIR_P o)).
Definition Prim_cons (car cdr : object) : procedure object := run_operation (cons car cdr).
Definition Prim_car : object -> procedure object := ref_primitive PAIR_P 0.
Definition Prim_cdr : object -> procedure object := ref_primitive PAIR_P 1.
Definition Prim_set_car : object -> object -> procedure object := set_primitive PAIR_P 0.
Definition Prim_set_cdr : object -> object -> procedure object := set_primitive PAIR_P 1.

(** The loop of general-car-cdr: a turn for each bit of the path but the first. *)
Fixpoint car_cdr_loop (fuel : nat) (object : object) (path : Z) : procedure Heap.object :=
  if path >? 1 then
    match fuel with
    | O => fun _ => OutOfFuel
    | S fuel =>
        unless (PAIR_P object) (error_wrong_type_arg 1) ;;
        object <- run_operation (if Z.land path 1 =? 0 then PAIR_CDR object else PAIR_CAR object) ;;
        car_cdr_loop fuel object (Z.shiftr path 1)
    end
  else PRIMITIVE_RETURN object.

Definition Prim_general_car_cdr (object path : object) : procedure Heap.object :=
  path <- arg_ulong_integer 2 path ;; car_cdr_loop 64 object path.

Definition Prim_sys_pair (o : object) : procedure object := PRIMITIVE_RETURN (BOOLEAN_TO_OBJECT (GC_TYPE_PAIR o)).

Definition Prim_sys_pair_cons (type car cdr : object) : procedure object :=
  type <- arg_ulong_index_integer 1 N_TYPE_CODES type ;;
  unless (gc_type_eqb (gc_type_code type) GC_PAIR) (error_bad_range_arg 1) ;;
  run_operation (system_pair_cons type car cdr).

Definition Prim_sys_pair_car : object -> procedure object := ref_primitive GC_TYPE_PAIR 0.
Definition Prim_sys_pair_cdr : object -> procedure object := ref_primitive GC_TYPE_PAIR 1.
Definition Prim_sys_set_car : object -> object -> procedure object := set_primitive GC_TYPE_PAIR 0.
Definition Prim_sys_set_cdr : object -> object -> procedure object := set_primitive GC_TYPE_PAIR 1.

Definition Prim_tagged_object_p (o : object) : procedure object := PRIMITIVE_RETURN (BOOLEAN_TO_OBJECT (TAGGED_OBJECT_P o)).
Definition Prim_make_tagged_object (tag datum : object) : procedure object := run_operation (new_object TC_TAGGED_OBJECT [tag; datum]).
Definition Prim_tagged_object_tag : object -> procedure object := ref_primitive TAGGED_OBJECT_P 0.
Definition Prim_tagged_object_datum : object -> procedure object := ref_primitive TAGGED_OBJECT_P 1.

Definition Prim_weak_pair_p (o : object) : procedure object := PRIMITIVE_RETURN (BOOLEAN_TO_OBJECT (WEAK_PAIR_P o)).
Definition Prim_weak_cons (car cdr : object) : procedure object := run_operation (new_object TC_WEAK_CONS [car; cdr]).
Definition Prim_weak_car : object -> procedure object := ref_primitive WEAK_PAIR_P 0.
Definition Prim_weak_cdr : object -> procedure object := ref_primitive WEAK_PAIR_P 1.
Definition Prim_weak_set_car : object -> object -> procedure object := set_primitive WEAK_PAIR_P 0.
Definition Prim_weak_set_cdr : object -> object -> procedure object := set_primitive WEAK_PAIR_P 1.

(** ** hunk.c *)

Definition hunk3_cons (cxr0 cxr1 cxr2 : object) : operation object := new_object TC_HUNK3 [cxr0; cxr1; cxr2].
Definition Prim_hunk3_cons (cxr0 cxr1 cxr2 : object) : procedure object := run_operation (hunk3_cons cxr0 cxr1 cxr2).

Definition Prim_hunk3_cxr (hunk3 index : object) : procedure object :=
  CHECK_ARG 1 HUNK3_P hunk3 ;;
  index <- arg_index_integer 2 3 index ;;
  run_operation (MEMORY_REF hunk3 (Z.to_nat index)).

Definition Prim_hunk3_set_cxr (hunk3 index object : object) : procedure Heap.object :=
  CHECK_ARG 1 HUNK3_P hunk3 ;;
  index <- arg_index_integer 2 3 index ;;
  run_operation (MEMORY_SET hunk3 (Z.to_nat index) object) ;;
  PRIMITIVE_RETURN UNSPECIFIC.

Definition Prim_sys_h3_0 : object -> procedure object := ref_primitive GC_TYPE_TRIPLE 0.
Definition Prim_sys_h3_1 : object -> procedure object := ref_primitive GC_TYPE_TRIPLE 1.
Definition Prim_sys_h3_2 : object -> procedure object := ref_primitive GC_TYPE_TRIPLE 2.
Definition Prim_sh3_set_0 : object -> object -> procedure object := set_primitive GC_TYPE_TRIPLE 0.
Definition Prim_sh3_set_1 : object -> object -> procedure object := set_primitive GC_TYPE_TRIPLE 1.
Definition Prim_sh3_set_2 : object -> object -> procedure object := set_primitive GC_TYPE_TRIPLE 2.
