(* ===== verification/History.v ===== *)
(** * The copy of a history

    history.h and the part of utils.c that copies a history: a ring of
    vertebrae, each of which holds a ring of ribs.  A history that was saved in a
    control point is copied when it is restored, so that recording in the copy
    leaves the original as it was. *)

From Stdlib Require Import ZArith List Bool Lia.
From S2P Require Import Prelude Object Heap ListPrim.
Import ListNotations.

#[local] Open Scope Z_scope.
#[local] Open Scope heap_scope.

Definition HIST_RIB : nat := 0.
Definition HIST_NEXT_SUBPROBLEM : nat := 1.
Definition HIST_PREV_SUBPROBLEM : nat := 2.
Definition RIB_EXP : nat := 0.
Definition RIB_ENV : nat := 1.
Definition RIB_NEXT_REDUCTION : nat := 2.

(** ** Space *)

(** [heap_end - heap_alloc_limit], as it is set when the heap is made. *)
Definition heap_reserved : Z := 4500.

Definition HEAP_AVAILABLE (h : heap) : Z := Z.max 0 (available h).

Definition SPACE_BEFORE_GC (h : heap) : Z :=
  if gc_enabled h then HEAP_AVAILABLE h else Z.max 0 (available h + heap_reserved).

(** ** copy_history *)

(** [OBJECT_ADDRESS] of two objects is the same. *)
Definition same_address (o o' : object) : bool :=
  match o, o' with Pointer _ b, Pointer _ b' => Nat.eqb b b' | _, _ => false end.

(** The inner loop: the ribs from [source_rib] on are copied and linked from
    the slot that the last rib left.  The result is the type of the last link,
    the slot for it and the space that is left. *)
Fixpoint copy_ribs (fuel : nat) (orig_rib source_rib : object) (rib_type : Z) (rib_slot : address) (space_left : Z) :
    operation (option (Z * address * Z)) :=
  match fuel with
  | O => fun _ => OutOfFuel
  | S fuel =>
      if space_left <? 3 then ret None
      else
        exp <- MEMORY_REF source_rib RIB_EXP ;;
        env <- MEMORY_REF source_rib RIB_ENV ;;
        free <- allocate rib_type [exp; env; SHARP_F] ;;
        store rib_slot free ;;
        rib_slot <- MEMORY_LOC free RIB_NEXT_REDUCTION ;;
        temp <- MEMORY_REF source_rib RIB_NEXT_REDUCTION ;;
        if same_address temp orig_rib then ret (Some (OBJECT_TYPE temp, rib_slot, space_left - 3))
        else copy_ribs fuel orig_rib temp (OBJECT_TYPE temp) rib_slot (space_left - 3)
  end.

(** The outer loop.  [hist_ptr] is the vertebra to copy, [last_hunk] the last
    one that was made; the first is linked from words at the end of the heap
    that no object has, and its own link back is made at the end.  The result
    is the type of the last link and the first and the last new vertebra. *)
Fixpoint copy_vertebrae (fuel inner : nat) (orig_hist hist_ptr : object) (vert_type : Z) (made : option (object * object)) (space_left : Z) :
    operation (option (Z * object * object)) :=
  match fuel with
  | O => fun _ => OutOfFuel
  | S fuel =>
      if space_left <? 3 then ret None
      else
        prev <- MEMORY_REF hist_ptr HIST_PREV_SUBPROBLEM ;;
        new_hunk <- allocate vert_type [SHARP_F; SHARP_F;
                      match made with Some (_, last_hunk) => OBJECT_NEW_TYPE (OBJECT_TYPE prev) last_hunk | None => SHARP_F end] ;;
        match made with Some (_, last_hunk) => MEMORY_SET last_hunk HIST_NEXT_SUBPROBLEM new_hunk | None => ret tt end ;;
        let first := match made with Some (first, _) => first | None => new_hunk end in
        orig_rib <- MEMORY_REF hist_ptr HIST_RIB ;;
        rib_slot <- MEMORY_LOC new_hunk HIST_RIB ;;
        copied <- copy_ribs inner orig_rib orig_rib (OBJECT_TYPE orig_rib) rib_slot (space_left - 3) ;;
        match copied with
        | None => ret None
        | Some (rib_type, rib_slot, space_left) =>
            rib <- MEMORY_REF new_hunk HIST_RIB ;;
            store rib_slot (OBJECT_NEW_TYPE rib_type rib) ;;
            temp <- MEMORY_REF hist_ptr HIST_NEXT_SUBPROBLEM ;;
            if same_address temp orig_hist then ret (Some (OBJECT_TYPE temp, first, new_hunk))
            else copy_vertebrae fuel inner orig_hist temp (OBJECT_TYPE temp) (Some (first, new_hunk)) space_left
        end
  end.

(** What was written beyond [Free] is not part of the heap when space runs out. *)
Definition copy_history (hist_obj : object) : operation object := fun h =>
  let fuel := S (length (blocks h)) in
  let space_left := SPACE_BEFORE_GC h in
  if space_left <? 3 then Return (SHARP_F, h)
  else
    bind ((copied <- copy_vertebrae fuel fuel hist_obj hist_obj (OBJECT_TYPE hist_obj) None (space_left - 3) ;;
           match copied with
           | None => ret SHARP_F
           | Some (vert_type, new_hunk, last_hunk) =>
               MEMORY_SET last_hunk HIST_NEXT_SUBPROBLEM (OBJECT_NEW_TYPE vert_type new_hunk) ;;
               prev <- MEMORY_REF hist_obj HIST_PREV_SUBPROBLEM ;;
               MEMORY_SET new_hunk HIST_PREV_SUBPROBLEM (OBJECT_NEW_TYPE (OBJECT_TYPE prev) last_hunk) ;;
               ret new_hunk
           end) h)
      (fun '(o, h') => Return (o, if object_eqb o SHARP_F then h else h')).

(** ** Rings *)

(** A rib and a vertebra with their blocks and the types of their links. *)
Record rib : Type := Rib { rib_block : nat; rib_exp : object; rib_env : object; rib_next_type : Z }.

Record vertebra : Type := Vertebra {
  vertebra_block : nat;
  vertebra_rib_type : Z;
  vertebra_next_type : Z;
  vertebra_prev_type : Z;
  vertebra_ribs : list rib
}.

(** The block a ring goes on to after its first element. *)
Definition next_block {A} (block : A -> nat) (rest : list A) (first : nat) : nat := match rest with x :: _ => block x | [] => first end.

(** The ribs [rs] are linked, the last one to [first]. *)
Fixpoint ribs_linked (h : heap) (first : nat) (rs : list rib) : Prop :=
  match rs with
  | [] => True
  | x :: rest =>
      block_of h (rib_block x) = Some [rib_exp x; rib_env x; Pointer (rib_next_type x) (next_block rib_block rest first)] /\
      ribs_linked h first rest
  end.

(** The vertebrae [vs] are linked, forth to [first] and back to [prev]. *)
Fixpoint vertebrae_linked (h : heap) (first prev : nat) (vs : list vertebra) : Prop :=
  match vs with
  | [] => True
  | x :: rest =>
      (exists r rs, vertebra_ribs x = r :: rs /\
        block_of h (vertebra_block x) = Some [Pointer (vertebra_rib_type x) (rib_block r);
          Pointer (vertebra_next_type x) (next_block vertebra_block rest first); Pointer (vertebra_prev_type x) prev] /\
        ribs_linked h (rib_block r) (r :: rs) /\ NoDup (map rib_block (r :: rs))) /\
      vertebrae_linked h first (vertebra_block x) rest
  end.

Definition last_block (first : nat) (vs : list vertebra) : nat := last (map vertebra_block vs) first.

(** [o] is a history that consists of the vertebrae [vs]. *)
Definition history (h : heap) (o : object) (vs : list vertebra) : Prop :=
  exists t v rest, vs = v :: rest /\ o = Pointer t (vertebra_block v) /\ NoDup (map vertebra_block vs) /\
    vertebrae_linked h (vertebra_block v) (last_block 0 vs) vs.

Definition vertebra_size (v : vertebra) : nat := S (length (vertebra_ribs v)).
Definition history_size (vs : list vertebra) : nat := list_sum (map vertebra_size vs).

(** The same ring in consecutive blocks from [n] on. *)
Fixpoint moved_ribs (n : nat) (rs : list rib) : list rib :=
  match rs with [] => [] | x :: rest => Rib n (rib_exp x) (rib_env x) (rib_next_type x) :: moved_ribs (S n) rest end.

Fixpoint moved_vertebrae (n : nat) (vs : list vertebra) : list vertebra :=
  match vs with
  | [] => []
  | x :: rest =>
      Vertebra n (vertebra_rib_type x) (vertebra_next_type x) (vertebra_prev_type x) (moved_ribs (S n) (vertebra_ribs x)) ::
      moved_vertebrae (n + vertebra_size x) rest
  end.

(** ** The heap while the copy is made *)

Section Copy.

Context (h : heap).

Definition copying (bs : list (list object)) : heap :=
  Heap (blocks h ++ bs) (available h - 3 * zlength bs) (gc_enabled h) (gc_space_needed h) (non_object h) (obarray h).

(** The block of the next object. *)
Definition free_block (bs : list (list object)) : nat := length (blocks h) + length bs.

Lemma copying_allocate t a b c bs : allocate t [a; b; c] (copying bs) = Return (Pointer t (free_block bs), copying (bs ++ [[a; b; c]])).
Proof. unfold allocate, copying, free_block. cbn [blocks available]. rewrite !length_app, <- app_assoc. do 3 f_equal. cbn [length]. lia. Qed.

Lemma copying_old t b i ws x bs : block_of h b = Some ws -> nth_error ws i = Some x ->
  MEMORY_REF (Pointer t b) i (copying bs) = Return (x, copying bs).
Proof.
  intros E Ex. apply MEMORY_REF_ok. unfold content, block_of, copying in *. cbn [blocks fst snd]. rewrite nth_error_app1; [now rewrite E|].
  apply nth_error_Some. congruence.
Qed.

Lemma copying_new t b j i ws x bs : b = (length (blocks h) + j)%nat -> nth_error bs j = Some ws -> nth_error ws i = Some x ->
  MEMORY_REF (Pointer t b) i (copying bs) = Return (x, copying bs).
Proof.
  intros -> E Ex. apply MEMORY_REF_ok. unfold content, block_of, copying. cbn [blocks fst snd]. rewrite nth_error_app2 by lia.
  replace (length (blocks h) + j - length (blocks h))%nat with j by lia. now rewrite E.
Qed.

Lemma update_app_right {A} n (x : A) l1 l2 : update (length l1 + n) x (l1 ++ l2) = l1 ++ update n x l2.
Proof. induction l1 as [|y l1 IH]; [reflexivity|]. cbn [length app update Nat.add]. now rewrite IH. Qed.

Lemma copying_store b j i ws x bs : b = (length (blocks h) + j)%nat -> nth_error bs j = Some ws -> (i < length ws)%nat ->
  store (b, i) x (copying bs) = Return (tt, copying (update j (update i x ws) bs)).
Proof.
  intros -> E L. unfold store, copying. cbn [blocks fst snd]. rewrite nth_error_app2 by lia.
  replace (length (blocks h) + j - length (blocks h))%nat with j by lia. rewrite E. destruct (Nat.ltb_spec i (length ws)); [|lia].
  unfold with_blocks. cbn [blocks available gc_enabled gc_space_needed non_object obarray]. now rewrite update_app_right, length_update.
Qed.

(** *** Ribs *)

(** The new ribs, the last one without its link. *)
Fixpoint open_ribs (n : nat) (rs : list rib) : list (list object) :=
  match rs with
  | [] => []
  | x :: rest => [rib_exp x; rib_env x; match rest with [] => SHARP_F | _ => Pointer (rib_next_type x) (S n) end] :: open_ribs (S n) rest
  end.

Lemma length_open_ribs n rs : length (open_ribs n rs) = length rs.
Proof. revert n. induction rs as [|x rs IH]; intros n; [reflexivity|]. cbn [open_ribs length]. now rewrite IH. Qed.

Definition last_rib_type (rs : list rib) : Z := last (map rib_next_type rs) 0.

Lemma update_last {A} (x y : A) l : update (length l) y (l ++ [x]) = l ++ [y].
Proof. rewrite <- (Nat.add_0_r (length l)), update_app_right. reflexivity. Qed.

Lemma update_app_left {A} n (x : A) l1 l2 : (n < length l1)%nat -> update n x (l1 ++ l2) = update n x l1 ++ l2.
Proof. revert n. induction l1 as [|y l1 IH]; intros [|n] L; cbn [length] in L; try lia; [reflexivity|]. cbn [app update]. now rewrite IH by lia. Qed.

Lemma copy_ribs_ok tf first rest : forall x fuel ts rib_type j i ws space bs, (length rest < fuel)%nat ->
  ribs_linked h first (x :: rest) -> ~ In first (map rib_block rest) -> nth_error bs j = Some ws -> (i < length ws)%nat ->
  if 3 * zlength (x :: rest) <=? space then
    copy_ribs fuel (Pointer tf first) (Pointer ts (rib_block x)) rib_type (length (blocks h) + j, i)%nat space (copying bs) =
    Return (Some (last_rib_type (x :: rest), (free_block bs + length rest, 2)%nat, space - 3 * zlength (x :: rest)),
            copying (update j (update i (Pointer rib_type (free_block bs)) ws) bs ++ open_ribs (free_block bs) (x :: rest)))
  else exists h', copy_ribs fuel (Pointer tf first) (Pointer ts (rib_block x)) rib_type (length (blocks h) + j, i)%nat space (copying bs) = Return (None, h').
Proof.
  induction rest as [|y rest IH]; intros x [|fuel] ts rib_type j i ws space bs Lf [Ex R] Nf Ej Li; try (cbn [length] in Lf; lia); cbn [copy_ribs next_block] in *;
    (destruct (Z.ltb_spec space 3) as [Sp|Sp];
     [match goal with |- context [?a <=? space] => destruct (Z.leb_spec a space) as [H|H] end; [cbn [length] in H; lia|now eexists]|]);
    unfold RIB_EXP, RIB_ENV, RIB_NEXT_REDUCTION;
    assert (Lj : (j < length bs)%nat) by (apply nth_error_Some; congruence);
    set (bs1 := bs ++ [[rib_exp x; rib_env x; SHARP_F]]);
    assert (Ej1 : nth_error bs1 j = Some ws) by (unfold bs1; now rewrite nth_error_app1).
  - destruct (Z.leb_spec (3 * zlength [x]) space); [|cbn [length] in *; lia].
    run copying_old; [|exact Ex|reflexivity]. run copying_old; [|exact Ex|reflexivity]. run copying_allocate. fold bs1.
    run copying_store; [|reflexivity|exact Ej1|exact Li]. unfold MEMORY_LOC. erewrite andthen_return by reflexivity.
    run copying_old; [|exact Ex|reflexivity]. cbn [same_address]. rewrite Nat.eqb_refl. unfold ret, bs1. rewrite update_app_left by exact Lj.
    cbn [OBJECT_TYPE open_ribs length]. rewrite Nat.add_0_r. reflexivity.
  - run copying_old; [|exact Ex|reflexivity]. run copying_old; [|exact Ex|reflexivity]. run copying_allocate. fold bs1.
    run copying_store; [|reflexivity|exact Ej1|exact Li]. unfold MEMORY_LOC. erewrite andthen_return by reflexivity.
    run copying_old; [|exact Ex|reflexivity]. cbn [same_address]. destruct (Nat.eqb_spec (rib_block y) first) as [Q|_]; [exfalso; apply Nf; left; exact Q|].
    unfold bs1. rewrite update_app_left by exact Lj. set (bs2 := update j _ bs ++ _).
    assert (L2 : length bs2 = S (length bs)) by (unfold bs2; rewrite length_app, length_update; cbn [length]; lia).
    assert (E2 : nth_error bs2 (length bs) = Some [rib_exp x; rib_env x; SHARP_F])
      by (unfold bs2; rewrite nth_error_app2, length_update, Nat.sub_diag by (rewrite length_update; lia); reflexivity).
    specialize (IH y fuel (rib_next_type x) (rib_next_type x) (length bs) 2%nat _ (space - 3) bs2 ltac:(cbn [length] in Lf; lia) R ltac:(intros Q; apply Nf; now right) E2 ltac:(cbn; lia)).
    fold (free_block bs) in IH. cbn [OBJECT_TYPE].
    destruct (Z.leb_spec (3 * zlength (x :: y :: rest)) space), (Z.leb_spec (3 * zlength (y :: rest)) (space - 3)); try (cbn [length] in *; lia); [|exact IH].
    rewrite IH. unfold free_block in *. rewrite L2. cbn [length update]. do 3 f_equal.
    + change (last_rib_type (x :: y :: rest)) with (last_rib_type (y :: rest)).
      replace (length (blocks h) + S (length bs) + length rest)%nat with (length (blocks h) + length bs + S (length rest))%nat by lia.
      f_equal. lia.
    + unfold bs2. rewrite <- (length_update j (update i (Pointer rib_type (length (blocks h) + length bs)) ws) bs) at 1. rewrite update_last, <- app_assoc.
      f_equal. cbn [open_ribs app]. now replace (length (blocks h) + S (length bs))%nat with (S (length (blocks h) + length bs)) by lia.
Qed.

(** The new ribs, linked to [first]. *)
Fixpoint closed_ribs (n first : nat) (rs : list rib) : list (list object) :=
  match rs with
  | [] => []
  | x :: rest => [rib_exp x; rib_env x; Pointer (rib_next_type x) (match rest with [] => first | _ => S n end)] :: closed_ribs (S n) first rest
  end.

Lemma length_closed_ribs n first rs : length (closed_ribs n first rs) = length rs.
Proof. revert n. induction rs as [|x rs IH]; intros n; [reflexivity|]. cbn [closed_ribs length]. now rewrite IH. Qed.

Lemma close_ribs first rest : forall n x, exists ws, nth_error (open_ribs n (x :: rest)) (length rest) = Some ws /\ length ws = 3%nat /\
  update (length rest) (update 2 (Pointer (last_rib_type (x :: rest)) first) ws) (open_ribs n (x :: rest)) = closed_ribs n first (x :: rest).
Proof.
  induction rest as [|y rest IH]; intros n x; [eexists; repeat split|].
  destruct (IH (S n) y) as (ws & E & L & U). exists ws. split; [exact E|]. split; [exact L|].
  change (last_rib_type (x :: y :: rest)) with (last_rib_type (y :: rest)). cbn [length]. cbn [open_ribs] in *. cbn [update closed_ribs] in *. now rewrite U.
Qed.

(** *** Vertebrae *)

(** The new vertebrae; [next] is the last link forth and [prev] the first link back, by their types. *)
Fixpoint vertebra_blocks (n : nat) (next prev : Z -> object) (vs : list vertebra) : list (list object) :=
  match vs with
  | [] => []
  | x :: rest =>
      [Pointer (vertebra_rib_type x) (S n);
       match rest with [] => next (vertebra_next_type x) | _ => Pointer (vertebra_next_type x) (n + vertebra_size x) end;
       prev (vertebra_prev_type x)] ::
      closed_ribs (S n) (S n) (vertebra_ribs x) ++ vertebra_blocks (n + vertebra_size x) next (fun t => Pointer t n) rest
  end.

(** How far the last vertebra is from the first. *)
Fixpoint last_offset (vs : list vertebra) : nat :=
  match vs with [] => 0 | [_] => 0 | x :: rest => vertebra_size x + last_offset rest end.

Definition last_next_type (vs : list vertebra) : Z := last (map vertebra_next_type vs) 0.

Lemma length_vertebra_blocks next vs : forall n prev, length (vertebra_blocks n next prev vs) = history_size vs.
Proof.
  induction vs as [|x vs IH]; intros n prev; [reflexivity|]. cbn [vertebra_blocks length]. rewrite length_app, length_closed_ribs, IH.
  change (history_size (x :: vs)) with (vertebra_size x + history_size vs)%nat. unfold vertebra_size. lia.
Qed.

Lemma last_vertebra next rest : forall x n prev, exists ws, nth_error (vertebra_blocks n next prev (x :: rest)) (last_offset (x :: rest)) = Some ws /\ length ws = 3%nat /\
  forall next', update (last_offset (x :: rest)) (update 1 (next' (last_next_type (x :: rest))) ws) (vertebra_blocks n next prev (x :: rest)) =
    vertebra_blocks n next' prev (x :: rest).
Proof.
  induction rest as [|y rest IH]; intros x n prev; [eexists; repeat split|].
  destruct (IH y (n + vertebra_size x)%nat (fun t => Pointer t n)) as (ws & E & L & U). exists ws.
  assert (Off : last_offset (x :: y :: rest) = (S (length (closed_ribs (S n) (S n) (vertebra_ribs x)) + last_offset (y :: rest)))%nat)
    by (rewrite length_closed_ribs; reflexivity).
  change (last_next_type (x :: y :: rest)) with (last_next_type (y :: rest)). rewrite Off.
  remember (y :: rest) as tl eqn:Q. cbn [vertebra_blocks]. split; [|split; [exact L|]].
  - cbn [nth_error]. rewrite nth_error_app2 by lia. now replace (length (closed_ribs (S n) (S n) (vertebra_ribs x)) + last_offset tl - length (closed_ribs (S n) (S n) (vertebra_ribs x)))%nat with (last_offset tl) by lia.
  - intros next'. specialize (U next'). set (v := update 1 _ ws) in *. clearbody v. cbn [update]. rewrite update_app_right, U. now rewrite Q.
Qed.

(** What has been made before: the first vertebra and the last, whose link forth is open. *)
Inductive made_before (bs : list (list object)) : option (object * object) -> (Z -> object) -> (nat -> object -> list (list object)) -> Prop :=
| made_nothing : made_before bs None (fun _ => SHARP_F) (fun _ _ => bs)
| made_some f tl j ws : nth_error bs j = Some ws -> length ws = 3%nat ->
    made_before bs (Some (f, Pointer tl (length (blocks h) + j))) (fun t => Pointer t (length (blocks h) + j)) (fun _ p => update j (update 1 p ws) bs).

Lemma made_length bs made prev base p : made_before bs made prev base -> length (base 0%nat p) = length bs.
Proof. intros []; [reflexivity|apply length_update]. Qed.

(** Its link forth is set, and the next vertebra is there. *)
Lemma made_linked {A} bs made prev base vt tp (k : operation A) : made_before bs made prev base ->
  (match made with Some (_, last_hunk) => MEMORY_SET last_hunk HIST_NEXT_SUBPROBLEM (Pointer vt (free_block bs)) | None => ret tt end ;; k)
    (copying (bs ++ [[SHARP_F; SHARP_F; match made with Some (_, last_hunk) => OBJECT_NEW_TYPE tp last_hunk | None => SHARP_F end]])) =
  k (copying (base 0%nat (Pointer vt (free_block bs)) ++ [[SHARP_F; SHARP_F; prev tp]])).
Proof.
  intros [|f tl j ws E L]; [reflexivity|]. assert (Lj : (j < length bs)%nat) by (apply nth_error_Some; congruence).
  unfold MEMORY_SET, MEMORY_LOC, ret. rewrite andthen_assoc. erewrite andthen_return by reflexivity.
  run copying_store; [|reflexivity|rewrite nth_error_app1 by exact Lj; exact E|unfold HIST_NEXT_SUBPROBLEM; lia]. now rewrite update_app_left.
Qed.

(** A turn of the outer loop. *)
Lemma vertebra_copied inner orig first to made prev base fuel x tx vt prevb nextb space bs r rs :
  vertebra_ribs x = r :: rs ->
  block_of h (vertebra_block x) = Some [Pointer (vertebra_rib_type x) (rib_block r); Pointer (vertebra_next_type x) nextb; Pointer (vertebra_prev_type x) prevb] ->
  ribs_linked h (rib_block r) (r :: rs) -> NoDup (map rib_block (r :: rs)) -> (length (vertebra_ribs x) <= inner)%nat ->
  made_before bs made prev base -> orig = Pointer to first ->
  let n := free_block bs in
  let hunk := Pointer vt n in
  let start := match made with Some (f, _) => f | None => hunk end in
  let done := copying (base 0%nat hunk ++ vertebra_blocks n (fun _ => SHARP_F) prev [x]) in
  let turn := copy_vertebrae (S fuel) inner orig (Pointer tx (vertebra_block x)) vt made space (copying bs) in
  if 3 * Z.of_nat (vertebra_size x) <=? space then
    turn = if Nat.eqb nextb first then Return (Some (vertebra_next_type x, start, hunk), done)
           else copy_vertebrae fuel inner orig (Pointer (vertebra_next_type x) nextb) (vertebra_next_type x) (Some (start, hunk))
                  (space - 3 * Z.of_nat (vertebra_size x)) done
  else exists h', turn = Return (None, h').
Proof.
  intros Er Eb R Nd Li M -> n hunk start done turn. unfold turn. cbn [copy_vertebrae]. destruct (Z.ltb_spec space 3) as [Sp|Sp].
  { unfold vertebra_size. rewrite Er. destruct (Z.leb_spec (3 * Z.of_nat (S (length (r :: rs)))) space) as [H|H]; [cbn [length] in H; lia|now eexists]. }
  unfold HIST_PREV_SUBPROBLEM, HIST_RIB. run copying_old; [|exact Eb|reflexivity]. run copying_allocate. fold n hunk.
  rewrite (made_linked bs made prev base vt (vertebra_prev_type x)) by exact M. fold n hunk. pose proof (made_length bs made prev base hunk M) as Lb.
  set (bs1 := base 0%nat hunk ++ _). run copying_old; [|exact Eb|reflexivity]. rewrite (andthen_return (MEMORY_LOC hunk 0) _ _ (n, 0%nat) _ eq_refl).
  assert (E1 : nth_error bs1 (length bs) = Some [SHARP_F; SHARP_F; prev (vertebra_prev_type x)])
    by (unfold bs1; rewrite nth_error_app2, Lb, Nat.sub_diag by lia; reflexivity).
  rewrite Er in Li. inversion Nd as [|? ? Nr _]; subst.
  pose proof (copy_ribs_ok (vertebra_rib_type x) (rib_block r) rs r inner (vertebra_rib_type x) (vertebra_rib_type x) (length bs) 0 _ (space - 3) bs1 Li R Nr E1 ltac:(cbn; lia)) as C.
  unfold vertebra_size. rewrite Er. cbn [OBJECT_TYPE].
  destruct (Z.leb_spec (3 * zlength (r :: rs)) (space - 3)), (Z.leb_spec (3 * Z.of_nat (S (length (r :: rs)))) space); try lia.
  2:{ destruct C as [h' C]. erewrite andthen_return by exact C. now eexists. }
  erewrite andthen_return by exact C. cbv iota beta. clear C. set (free' := free_block bs1).
  assert (F1 : free' = S n) by (unfold free', bs1, n, free_block; rewrite length_app; cbn [length]; lia). rewrite F1. clearbody free'. clear F1 free'.
  assert (Bs : update (length bs) (update 0 (Pointer (vertebra_rib_type x) (S n)) [SHARP_F; SHARP_F; prev (vertebra_prev_type x)]) bs1 =
    base 0%nat hunk ++ [[Pointer (vertebra_rib_type x) (S n); SHARP_F; prev (vertebra_prev_type x)]])
    by (unfold bs1; rewrite <- Lb; apply update_last).
  rewrite Bs. set (bs2 := base 0%nat hunk ++ [[Pointer _ _; SHARP_F; _]]). assert (L2 : length bs2 = S (length bs)) by (unfold bs2; rewrite length_app, Lb; cbn; lia).
  assert (E2 : nth_error bs2 (length bs) = Some [Pointer (vertebra_rib_type x) (S n); SHARP_F; prev (vertebra_prev_type x)])
    by (unfold bs2; rewrite nth_error_app2, Lb, Nat.sub_diag by lia; reflexivity).
  unfold hunk at 1. run copying_new; [|reflexivity|rewrite nth_error_app1 by lia; exact E2|reflexivity].
  destruct (close_ribs (S n) rs (S n) r) as (ws & Ew & Lw & U). cbn [OBJECT_NEW_TYPE].
  replace (S n + length rs)%nat with (length (blocks h) + (length bs2 + length rs))%nat by (rewrite L2; unfold n, free_block; lia).
  run copying_store; [|reflexivity|rewrite nth_error_app2 by lia; rewrite Nat.add_comm, Nat.add_sub; exact Ew|unfold RIB_NEXT_REDUCTION; lia].
  rewrite update_app_right, U. unfold HIST_NEXT_SUBPROBLEM. run copying_old; [|exact Eb|reflexivity]. cbn [same_address OBJECT_TYPE].
  replace (space - 3 - 3 * zlength (r :: rs)) with (space - 3 * Z.of_nat (S (length (r :: rs)))) by lia.
  assert (Done : copying (bs2 ++ closed_ribs (S n) (S n) (r :: rs)) = done).
  { unfold done, bs2. cbn [vertebra_blocks]. rewrite Er, app_nil_r, <- app_assoc. reflexivity. }
  rewrite Done. now destruct (nextb =? first)%nat.
Qed.

Lemma copy_vertebrae_ok inner to first last0 rest : forall x made prev base fuel tx vt prevb space bs,
  (length rest < fuel)%nat -> vertebrae_linked h first prevb (x :: rest) -> ~ In first (map vertebra_block rest) ->
  (forall y, In y (x :: rest) -> (length (vertebra_ribs y) <= inner)%nat) -> made_before bs made prev base ->
  last0 = (free_block bs + last_offset (x :: rest))%nat ->
  if 3 * Z.of_nat (history_size (x :: rest)) <=? space then
    exists tl, copy_vertebrae fuel inner (Pointer to first) (Pointer tx (vertebra_block x)) vt made space (copying bs) =
    Return (Some (last_next_type (x :: rest), match made with Some (f, _) => f | None => Pointer vt (free_block bs) end, Pointer tl last0),
            copying (base 0%nat (Pointer vt (free_block bs)) ++ vertebra_blocks (free_block bs) (fun _ => SHARP_F) prev (x :: rest)))
  else exists h', copy_vertebrae fuel inner (Pointer to first) (Pointer tx (vertebra_block x)) vt made space (copying bs) = Return (None, h').
Proof.
  revert last0. induction rest as [|y rest IH]; intros last0 x made prev base [|fuel] tx vt prevb space bs Lf [(r & rs & Er & Eb & R & Nd) V] Nf Li M El;
    try (cbn [length] in Lf; lia);
    pose proof (vertebra_copied inner (Pointer to first) first to made prev base fuel x tx vt prevb _ space bs r rs Er Eb R Nd (Li x (or_introl eq_refl)) M eq_refl) as T;
    cbv zeta in T; cbn [next_block] in T.
  - rewrite Nat.eqb_refl in T. change (history_size [x]) with (vertebra_size x + 0)%nat. rewrite Nat.add_0_r. destruct (_ <=? space); [|exact T].
    exists vt. rewrite T. subst last0. cbn [last_offset]. rewrite Nat.add_0_r. reflexivity.
  - destruct (Nat.eqb_spec (vertebra_block y) first) as [Q|_]; [exfalso; apply Nf; now left|].
    change (history_size (x :: y :: rest)) with (vertebra_size x + history_size (y :: rest))%nat.
    destruct (Z.leb_spec (3 * Z.of_nat (vertebra_size x)) space) as [H|H].
    2:{ destruct (Z.leb_spec (3 * Z.of_nat (vertebra_size x + history_size (y :: rest))) space); [lia|exact T]. }
    rewrite T. clear T. set (n := free_block bs) in *. set (hunk := Pointer vt n) in *. set (bs2 := base 0%nat hunk ++ _).
    set (start := match made with Some (f, _) => f | None => hunk end).
    pose proof (made_length bs made prev base hunk M) as Lb.
    assert (E2 : nth_error bs2 (length bs) = Some [Pointer (vertebra_rib_type x) (S n); SHARP_F; prev (vertebra_prev_type x)])
      by (unfold bs2; rewrite nth_error_app2, Lb, Nat.sub_diag by lia; reflexivity).
    pose proof (made_some bs2 start vt (length bs) _ E2 eq_refl) as M2.
    assert (F2 : free_block bs2 = (n + vertebra_size x)%nat).
    { unfold free_block, bs2. rewrite length_app, length_vertebra_blocks, Lb. change (history_size [x]) with (vertebra_size x + 0)%nat. unfold n, free_block. lia. }
    specialize (IH last0 y (Some (start, hunk)) _ _ fuel (vertebra_next_type x) (vertebra_next_type x) (vertebra_block x) (space - 3 * Z.of_nat (vertebra_size x)) bs2
      ltac:(cbn [length] in Lf; lia) V ltac:(intros Q; apply Nf; now right) (fun z I => Li z (or_intror I)) M2).
    rewrite F2 in IH. specialize (IH ltac:(rewrite El; change (last_offset (x :: y :: rest)) with (vertebra_size x + last_offset (y :: rest))%nat; lia)).
    destruct (Z.leb_spec (3 * Z.of_nat (vertebra_size x + history_size (y :: rest))) space),
      (Z.leb_spec (3 * Z.of_nat (history_size (y :: rest))) (space - 3 * Z.of_nat (vertebra_size x))); try lia; [|exact IH].
    destruct IH as (tl & IH). exists tl. etransitivity; [exact IH|]. change (last_next_type (x :: y :: rest)) with (last_next_type (y :: rest)).
    do 3 f_equal. unfold bs2. rewrite <- Lb at 1. rewrite <- (Nat.add_0_r (length (base 0%nat hunk))), update_app_right, <- app_assoc. f_equal.
    cbn [vertebra_blocks update app]. now rewrite app_nil_r.
Qed.

(** *** The copy is a ring *)

Lemma copying_block bs j ws b : b = (length (blocks h) + j)%nat -> nth_error bs j = Some ws -> block_of (copying bs) b = Some ws.
Proof.
  intros -> E. unfold block_of, copying. cbn [blocks]. rewrite nth_error_app2 by lia. now replace (length (blocks h) + j - length (blocks h))%nat with j by lia.
Qed.

Lemma moved_rib_blocks rs : forall m, map rib_block (moved_ribs m rs) = seq m (length rs).
Proof. induction rs as [|x rs IH]; intros m; [reflexivity|]. cbn [moved_ribs map length seq]. now rewrite IH. Qed.

Lemma moved_ribs_linked first post rs : forall pre m, m = free_block pre ->
  ribs_linked (copying (pre ++ closed_ribs m first rs ++ post)) first (moved_ribs m rs).
Proof.
  induction rs as [|x rs IH]; intros pre m Em; [exact I|]. cbn [moved_ribs closed_ribs ribs_linked]. split.
  - erewrite copying_block; [|exact Em|rewrite nth_error_app2, Nat.sub_diag by lia; reflexivity]. cbn [rib_exp rib_env rib_next_type]. now destruct rs.
  - change (pre ++ (?b :: ?l) ++ post) with (pre ++ [b] ++ l ++ post). rewrite app_assoc. apply IH. unfold free_block in *. rewrite length_app. cbn [length]. lia.
Qed.

Lemma moved_vertebrae_linked first vs : forall pre m pb, m = free_block pre -> (forall y, In y vs -> vertebra_ribs y <> []) ->
  vertebrae_linked (copying (pre ++ vertebra_blocks m (fun t => Pointer t first) (fun t => Pointer t pb) vs)) first pb (moved_vertebrae m vs).
Proof.
  induction vs as [|x vs IH]; intros pre m pb Em Ne; [exact I|]. cbn [moved_vertebrae vertebra_blocks vertebrae_linked]. split.
  - pose proof (Ne x (or_introl eq_refl)) as Nx. pose proof (moved_rib_blocks (vertebra_ribs x) (S m)) as Rb. cbn [vertebra_ribs vertebra_block].
    destruct (vertebra_ribs x) as [|r rs] eqn:Er; [contradiction|]. exists (Rib (S m) (rib_exp r) (rib_env r) (rib_next_type r)), (moved_ribs (S (S m)) rs).
    split; [reflexivity|]. split; [|split].
    + erewrite copying_block; [|exact Em|rewrite nth_error_app2, Nat.sub_diag by lia; reflexivity].
      cbn [vertebra_rib_type vertebra_next_type vertebra_prev_type rib_block]. now destruct vs.
    + change (pre ++ ?b :: ?l) with (pre ++ [b] ++ l). rewrite app_assoc. apply (moved_ribs_linked _ _ (r :: rs)). unfold free_block in *. rewrite length_app. cbn [length]. lia.
    + change (NoDup (map rib_block (moved_ribs (S m) (r :: rs)))). rewrite Rb. apply seq_NoDup.
  - change (pre ++ ?b :: ?l) with (pre ++ [b] ++ l). rewrite !app_assoc. apply IH; [|intros y Y; apply Ne; now right].
    unfold free_block, vertebra_size in *. rewrite !length_app, length_closed_ribs. cbn [length]. lia.
Qed.

Lemma moved_blocks_from vs : forall m b, In b (map vertebra_block (moved_vertebrae m vs)) -> (m <= b)%nat.
Proof. induction vs as [|x vs IH]; intros m b []; [cbn in *; lia|]. specialize (IH _ _ H). lia. Qed.

Lemma moved_blocks_distinct vs : forall m, NoDup (map vertebra_block (moved_vertebrae m vs)).
Proof.
  induction vs as [|x vs IH]; intros m; [constructor|]. cbn [moved_vertebrae map vertebra_block]. constructor; [|apply IH].
  intros H. apply moved_blocks_from in H. unfold vertebra_size in H. lia.
Qed.

Lemma moved_last rest : forall x m d, last (map vertebra_block (moved_vertebrae m (x :: rest))) d = (m + last_offset (x :: rest))%nat.
Proof.
  induction rest as [|y rest IH]; intros x m d; [cbn; lia|].
  change (last (map vertebra_block (moved_vertebrae m (x :: y :: rest))) d) with (last (map vertebra_block (moved_vertebrae (m + vertebra_size x) (y :: rest))) d).
  rewrite IH. change (last_offset (x :: y :: rest)) with (vertebra_size x + last_offset (y :: rest))%nat. lia.
Qed.

End Copy.

(** ** The copy *)

Lemma blocks_bound h (l : list nat) : NoDup l -> (forall b, In b l -> exists ws, block_of h b = Some ws) -> (length l <= length (blocks h))%nat.
Proof.
  intros Nd H. rewrite <- (length_seq (length (blocks h)) 0). apply NoDup_incl_length; [exact Nd|]. intros b I. apply in_seq.
  destruct (H b I) as (ws & E). apply block_lt in E. lia.
Qed.

Lemma ribs_in_heap h first rs b : ribs_linked h first rs -> In b (map rib_block rs) -> exists ws, block_of h b = Some ws.
Proof. induction rs as [|x rs IH]; [intros _ []|]. intros [E R] [<-|I]; [eauto|now apply IH]. Qed.

Lemma vertebrae_in_heap h first vs : forall prev, vertebrae_linked h first prev vs ->
  (forall b, In b (map vertebra_block vs) -> exists ws, block_of h b = Some ws) /\
  (forall y, In y vs -> vertebra_ribs y <> [] /\ (length (vertebra_ribs y) <= length (blocks h))%nat).
Proof.
  induction vs as [|x vs IH]; intros prev; [intros _; split; intros ? []|]. intros [(r & rs & Er & Eb & R & Nd) V]. destruct (IH _ V) as [H1 H2]. split.
  - intros b [<-|I]; [eauto|now apply H1].
  - intros y [<-|I]; [|now apply H2]. rewrite Er. split; [discriminate|]. rewrite <- (length_map rib_block). apply blocks_bound; [exact Nd|].
    intros b I. now apply ribs_in_heap with (rib_block r) (r :: rs).
Qed.

Lemma copy_history_ok h o vs : history h o vs ->
  if 3 * (1 + Z.of_nat (history_size vs)) <=? SPACE_BEFORE_GC h then
    exists t bs, copy_history o h = Return (Pointer t (length (blocks h)), copying h bs) /\ length bs = history_size vs /\
      history (copying h bs) (Pointer t (length (blocks h))) (moved_vertebrae (length (blocks h)) vs)
  else copy_history o h = Return (SHARP_F, h).
Proof.
  intros (t & v & rest & -> & -> & Nd & V). set (n := length (blocks h)). destruct (vertebrae_in_heap h _ _ _ V) as [Vb Vr].
  pose proof (blocks_bound h _ Nd Vb) as Lv. rewrite length_map in Lv. cbn [length] in Lv. inversion Nd as [|? ? Nf _]; subst.
  assert (Fb : free_block h [] = n) by (unfold free_block; cbn [length]; fold n; lia).
  assert (C0 : copying h [] = h) by (unfold copying; cbn [length]; rewrite app_nil_r; destruct h; cbn; f_equal; lia).
  pose proof (copy_vertebrae_ok h (S n) t (vertebra_block v) _ rest v None _ _ (S n) t t _ (SPACE_BEFORE_GC h - 3) [] ltac:(lia) V Nf
    (fun y I => le_S _ _ (proj2 (Vr y I))) (made_nothing h []) eq_refl) as C.
  rewrite C0, Fb in C. unfold copy_history. fold n. cbn [OBJECT_TYPE].
  destruct (Z.ltb_spec (SPACE_BEFORE_GC h) 3) as [Sp|Sp].
  { destruct (Z.leb_spec (3 * (1 + Z.of_nat (history_size (v :: rest)))) (SPACE_BEFORE_GC h)); [lia|reflexivity]. }
  destruct (Z.leb_spec (3 * (1 + Z.of_nat (history_size (v :: rest)))) (SPACE_BEFORE_GC h)) as [En|En],
    (Z.leb_spec (3 * Z.of_nat (history_size (v :: rest))) (SPACE_BEFORE_GC h - 3)); try lia.
  2:{ destruct C as (h' & C). erewrite andthen_return by exact C. reflexivity. }
  destruct C as (tl & C). erewrite andthen_return by exact C. cbv iota beta. clear C. cbn [app OBJECT_NEW_TYPE].
  destruct V as [(r & rs & Er & Eb & R & Nr) V].
  destruct (last_vertebra (fun _ => SHARP_F) rest v n (fun _ => SHARP_F)) as (ws & Ew & Lw & U).
  unfold MEMORY_SET at 1, MEMORY_LOC. rewrite andthen_assoc. erewrite andthen_return by reflexivity.
  run copying_store; [|reflexivity|exact Ew|unfold HIST_NEXT_SUBPROBLEM; lia]. unfold HIST_NEXT_SUBPROBLEM. rewrite (U (fun t => Pointer t n)).
  unfold HIST_PREV_SUBPROBLEM. run copying_old; [|exact Eb|reflexivity]. unfold MEMORY_SET at 1, MEMORY_LOC. rewrite andthen_assoc. erewrite andthen_return by reflexivity.
  run copying_store; [|apply (eq_sym (Nat.add_0_r n))|reflexivity|cbn; lia]. cbn [OBJECT_TYPE]. unfold ret. cbn [bind object_eqb].
  set (bs := update 0 _ _).
  assert (Eq : bs = vertebra_blocks n (fun t => Pointer t n) (fun t => Pointer t (n + last_offset (v :: rest))%nat) (v :: rest)) by reflexivity.
  exists t, bs. split; [reflexivity|]. split; [rewrite Eq; apply length_vertebra_blocks|].
  exists t. do 2 eexists. split; [reflexivity|]. split; [reflexivity|]. split; [apply moved_blocks_distinct|].
  unfold last_block. rewrite (moved_last rest v n 0), Eq. apply (moved_vertebrae_linked h n (v :: rest) [] n); [now rewrite Fb|].
  intros y I. now apply Vr.
Qed.

(** A history of one vertebra with two ribs. *)
Definition ring_heap : heap :=
  Heap [ [Pointer TC_HUNK3_A 1; Pointer TC_HUNK3_A 0; Pointer TC_HUNK3_A 0];
         [SHARP_T; SHARP_F; Pointer TC_HUNK3_A 2];
         [SHARP_F; SHARP_F; Pointer TC_HUNK3_A 1] ] 100 true None SHARP_F SHARP_F.

Definition ring_vertebra : vertebra := Vertebra 0 TC_HUNK3_A TC_HUNK3_A TC_HUNK3_A [Rib 1 SHARP_T SHARP_F TC_HUNK3_A; Rib 2 SHARP_F SHARP_F TC_HUNK3_A].

(** ** Properties *)

(** C22: copy_history makes an isomorphic copy of the ring of rings in fresh consecutive blocks when
    there is enough space before a garbage collection, and otherwise returns the false object with the
    heap unchanged; in either case it ends. *)
Theorem copy_history_correct h o vs : history h o vs ->
  if 3 * (1 + Z.of_nat (history_size vs)) <=? SPACE_BEFORE_GC h then
    exists t bs, copy_history o h = Return (Pointer t (length (blocks h)), copying h bs) /\ length bs = history_size vs /\
      history (copying h bs) (Pointer t (length (blocks h))) (moved_vertebrae (length (blocks h)) vs)
  else copy_history o h = Return (SHARP_F, h).
Proof. exact (copy_history_ok h o vs). Qed.

Lemma copy_history_correct_witness :
  exists t bs, copy_history (Pointer TC_HUNK3_A 0) ring_heap = Return (Pointer t 3, copying ring_heap bs) /\ length bs = 3%nat /\
    history (copying ring_heap bs) (Pointer t 3) (moved_vertebrae 3 [ring_vertebra]).
Proof.
  apply (copy_history_correct ring_heap (Pointer TC_HUNK3_A 0) [ring_vertebra]). exists TC_HUNK3_A, ring_vertebra, []. repeat split.
  - repeat constructor. intros [].
  - exists (Rib 1 SHARP_T SHARP_F TC_HUNK3_A), [Rib 2 SHARP_F SHARP_F TC_HUNK3_A]. repeat split. repeat constructor; cbn; intuition discriminate.
Defined.
