(* ===== verification/VectorPrim.v ===== *)
(** * vector.c: vectors and records *)

From Stdlib Require Import ZArith List Bool Lia.
From S2P Require Import Prelude Object Integer Heap HeapPrim ListPrim.
Import ListNotations.

#[local] Open Scope Z_scope.
#[local] Open Scope procedure_scope.

Definition VECTOR_LOC (v : object) (i : nat) : operation address := MEMORY_LOC v (i + 1).
Definition VECTOR_REF (v : object) (i : nat) : operation object := MEMORY_REF v (i + 1).
Definition VECTOR_SET (v : object) (i : nat) (value : object) : operation unit := MEMORY_SET v (i + 1) value.

(** [ARG_VECTOR], [ARG_RECORD] and [ARG_GC_VECTOR]. *)
Definition arg_type := object -> bool.
Definition ARG (p : arg_type) (n : Z) (o : object) : procedure object := if p o then PRIMITIVE_RETURN o else error_wrong_type_arg n.

Definition ARG_VECTOR_INDEX (n : Z) (o vector : object) : procedure Z :=
  length <- run_operation (VECTOR_LENGTH vector) ;; arg_index_integer n (to_long length) o.

(** ** Construction *)

Definition Prim_vector_cons (length fill : object) : procedure object :=
  length <- arg_nonnegative_integer 1 length ;; run_operation (make_vector (Z.to_nat length) fill true).

(** The arguments are copied into a new marked vector. *)
Definition vector_of_arguments (type : Z) (arguments : list object) : operation object :=
  (Primitive_GC_If_Needed (1 + zlength arguments) ;;
   allocate type (MAKE_OBJECT TC_MANIFEST_VECTOR (zlength arguments) :: arguments))%heap.

Definition Prim_vector (arguments : list object) : procedure object := run_operation (vector_of_arguments TC_VECTOR arguments).

Definition Prim_make_record (length fill : object) : procedure object :=
  length <- arg_ulong_index_integer 1 (2 ^ DATUM_LENGTH) length ;; run_operation (make_marked_vector TC_RECORD (Z.to_nat length) fill true).

Definition ERR_WRONG_NUMBER_OF_ARGUMENTS : Z := 0x0C.

Definition Prim_record (arguments : list object) : procedure object :=
  unless (negb (zlength arguments <? 1)) (signal_error_from_primitive ERR_WRONG_NUMBER_OF_ARGUMENTS) ;;
  run_operation (vector_of_arguments TC_RECORD arguments).

Definition Prim_vector_p (o : object) : procedure object := PRIMITIVE_RETURN (BOOLEAN_TO_OBJECT (VECTOR_P o)).
Definition Prim_record_p (o : object) : procedure object := PRIMITIVE_RETURN (BOOLEAN_TO_OBJECT (RECORD_P o)).
Definition Prim_sys_vector (o : object) : procedure object := PRIMITIVE_RETURN (BOOLEAN_TO_OBJECT (GC_TYPE_VECTOR o)).

(** ** Access *)

(** [long_to_integer] of a length is a fixnum: a heap holds no vector of
    [2 ^ 57] words. *)
Definition VECTOR_LENGTH_PRIMITIVE (p : arg_type) (o : object) : procedure object :=
  vector <- ARG p 1 o ;;
  length <- run_operation (VECTOR_LENGTH vector) ;;
  PRIMITIVE_RETURN (Immediate (Object.LONG_TO_FIXNUM length)).

Definition Prim_vector_length : object -> procedure object := VECTOR_LENGTH_PRIMITIVE VECTOR_P.
Definition Prim_record_length : object -> procedure object := VECTOR_LENGTH_PRIMITIVE RECORD_P.
Definition Prim_sys_vec_size : object -> procedure object := VECTOR_LENGTH_PRIMITIVE GC_TYPE_VECTOR.

Definition VECTOR_REF_PRIMITIVE (p : arg_type) (vector index : object) : procedure object :=
  vector <- ARG p 1 vector ;;
  index <- ARG_VECTOR_INDEX 2 index vector ;;
  run_operation (VECTOR_REF vector (Z.to_nat index)).

Definition Prim_vector_ref : object -> object -> procedure object := VECTOR_REF_PRIMITIVE VECTOR_P.
Definition Prim_record_ref : object -> object -> procedure object := VECTOR_REF_PRIMITIVE RECORD_P.
Definition Prim_sys_vector_ref : object -> object -> procedure object := VECTOR_REF_PRIMITIVE GC_TYPE_VECTOR.

Definition VECTOR_SET_PRIMITIVE (p : arg_type) (vector index new_value : object) : procedure object :=
  vector <- ARG p 1 vector ;;
  index <- ARG_VECTOR_INDEX 2 index vector ;;
  run_operation (VECTOR_SET vector (Z.to_nat index) new_value) ;;
  PRIMITIVE_RETURN UNSPECIFIC.

Definition Prim_vector_set : object -> object -> object -> procedure object := VECTOR_SET_PRIMITIVE VECTOR_P.
Definition Prim_record_set : object -> object -> object -> procedure object := VECTOR_SET_PRIMITIVE RECORD_P.
Definition Prim_sys_vec_set : object -> object -> object -> procedure object := VECTOR_SET_PRIMITIVE GC_TYPE_VECTOR.

(** ** Lists *)

(** The object that points to [Free]. *)
Definition Free_object (type : Z) : operation object := fun h => Return (Pointer type (length (blocks h)), h).

(** The pairs for [n] elements from [index] on and one more: each points to the
    next, which is stored after it. *)
Fixpoint subvector_pairs (n : nat) (vector : object) (index : nat) : operation unit :=
  match n with
  | O => (x <- VECTOR_REF vector index ;; allocate TC_LIST [x; EMPTY_LIST] ;; ret tt)%heap
  | S n =>
      (x <- VECTOR_REF vector index ;;
       here <- Free_object TC_LIST ;;
       let next := match here with Pointer t b => Pointer t (S b) | Immediate w => Immediate w end in
       allocate TC_LIST [x; next] ;;
       subvector_pairs n vector (S index))%heap
  end.

Definition subvector_to_list (vector : object) (start end_index : Z) : operation object :=
  (if start =? end_index then ret EMPTY_LIST
   else
     Primitive_GC_If_Needed (2 * (end_index - start)) ;;
     result <- Free_object TC_LIST ;;
     subvector_pairs (Z.to_nat (end_index - 1 - start)) vector (Z.to_nat start) ;;
     ret result)%heap.

Definition SUBVECTOR_TO_LIST_PRIMITIVE (p : arg_type) (vector start end_index : object) : procedure object :=
  vector <- ARG p 1 vector ;;
  start <- arg_nonnegative_integer 2 start ;;
  end_index <- arg_nonnegative_integer 3 end_index ;;
  length <- run_operation (VECTOR_LENGTH vector) ;;
  unless (negb (end_index >? to_long length)) (error_bad_range_arg 3) ;;
  unless (negb (start >? end_index)) (error_bad_range_arg 2) ;;
  run_operation (subvector_to_list vector start end_index).

Definition Prim_subvector_to_list : object -> object -> object -> procedure object := SUBVECTOR_TO_LIST_PRIMITIVE VECTOR_P.
Definition Prim_sys_subvector_to_list : object -> object -> object -> procedure object := SUBVECTOR_TO_LIST_PRIMITIVE GC_TYPE_VECTOR.

(** [Free] is advanced by a word. *)
Definition advance_Free : operation unit := fun h =>
  Return (tt, Heap (blocks h) (available h - 1) (gc_enabled h) (gc_space_needed h) (non_object h) (obarray h)).

(** The words that were stored while [Free] advanced are the new object. *)
Definition object_at_Free (type : Z) (words : list object) : operation object := fun h =>
  Return (Pointer type (length (blocks h)),
          Heap (blocks h ++ [words]) (available h) (gc_enabled h) (gc_space_needed h) (non_object h) (obarray h)).

(** The loop of list_to_vector: the elements, and what ends the list. *)
Fixpoint list_elements (fuel : nat) (list : object) : operation (Datatypes.list object * object) :=
  if PAIR_P list then
    match fuel with
    | O => fun _ => OutOfFuel
    | S fuel =>
        (Primitive_GC_If_Needed 0 ;;
         car <- PAIR_CAR list ;;
         advance_Free ;;
         cdr <- PAIR_CDR list ;;
         '(elements, last) <- list_elements fuel cdr ;;
         ret (car :: elements, last))%heap
    end
  else ret ([], list).

(** Each turn takes a word of the free space, until a garbage collection is needed. *)
Definition list_fuel (h : heap) : nat := S (Z.to_nat (available h)).

Definition list_to_vector (result_type argument_number : Z) (list : object) : procedure object :=
  run_operation advance_Free ;;
  '(elements, last) <- run_operation (fun h => list_elements (list_fuel h) list h) ;;
  unless (EMPTY_LIST_P last) (error_wrong_type_arg argument_number) ;;
  run_operation (object_at_Free result_type (MAKE_OBJECT TC_MANIFEST_VECTOR (zlength elements) :: elements)).

Definition Prim_list_to_vector (list : object) : procedure object := list_to_vector TC_VECTOR 1 list.

Definition Prim_sys_list_to_vector (type_code list : object) : procedure object :=
  type_code <- arg_ulong_index_integer 1 N_TYPE_CODES type_code ;;
  unless (gc_type_eqb (gc_type_code type_code) GC_VECTOR) (error_bad_range_arg 1) ;;
  list_to_vector type_code 2 list.

(** ** Copy and fill *)

(** An address by its position, which may be outside the block. *)
Definition vector_location (v : object) (i : Z) : operation (nat * Z) :=
  match v with Pointer _ b => ret (b, i + 1) | Immediate _ => fun _ => Wild end.

Definition load_at (a : nat * Z) : operation object := if snd a <? 0 then fun _ => Wild else load (fst a, Z.to_nat (snd a)).
Definition store_at (a : nat * Z) (value : object) : operation unit :=
  if snd a <? 0 then fun _ => Wild else store (fst a, Z.to_nat (snd a)) value.

Definition move (n : Z) (a : nat * Z) : nat * Z := (fst a, snd a + n).

Fixpoint move_right_loop (length : nat) (scan1 scan2 : nat * Z) : operation unit :=
  match length with
  | O => ret tt
  | S length =>
      (let scan2 := move (-1) scan2 in
       let scan1 := move (-1) scan1 in
       x <- load_at scan1 ;;
       store_at scan2 x ;;
       move_right_loop length scan1 scan2)%heap
  end.

Fixpoint move_left_loop (length : nat) (scan1 scan2 : nat * Z) : operation unit :=
  match length with
  | O => ret tt
  | S length =>
      (x <- load_at scan1 ;;
       store_at scan2 x ;;
       move_left_loop length (move 1 scan1) (move 1 scan2))%heap
  end.

(** The arguments, and the end of the destination. *)
Definition SUBVECTOR_MOVE_PREFIX (vector1 start1 end1 vector2 start2 : object) : procedure (object * Z * Z * object * Z * Z) :=
  vector1 <- ARG VECTOR_P 1 vector1 ;;
  start1 <- arg_nonnegative_integer 2 start1 ;;
  end1 <- arg_nonnegative_integer 3 end1 ;;
  vector2 <- ARG VECTOR_P 4 vector2 ;;
  start2 <- arg_nonnegative_integer 5 start2 ;;
  length1 <- run_operation (VECTOR_LENGTH vector1) ;;
  unless (negb (end1 >? to_long length1)) (error_bad_range_arg 3) ;;
  unless (negb (start1 >? end1)) (error_bad_range_arg 2) ;;
  let length := end1 - start1 in
  let end2 := to_long (start2 + length) in
  length2 <- run_operation (VECTOR_LENGTH vector2) ;;
  unless (negb (end2 >? to_long length2)) (error_bad_range_arg 5) ;;
  PRIMITIVE_RETURN (vector1, start1, end1, vector2, start2, end2).

Definition Prim_subvector_move_right (vector1 start1 end1 vector2 start2 : object) : procedure object :=
  '(vector1, start1, end1, vector2, start2, end2) <- SUBVECTOR_MOVE_PREFIX vector1 start1 end1 vector2 start2 ;;
  scan1 <- run_operation (vector_location vector1 end1) ;;
  scan2 <- run_operation (vector_location vector2 end2) ;;
  run_operation (move_right_loop (Z.to_nat (end1 - start1)) scan1 scan2) ;;
  PRIMITIVE_RETURN UNSPECIFIC.

Definition Prim_subvector_move_left (vector1 start1 end1 vector2 start2 : object) : procedure object :=
  '(vector1, start1, end1, vector2, start2, end2) <- SUBVECTOR_MOVE_PREFIX vector1 start1 end1 vector2 start2 ;;
  scan1 <- run_operation (vector_location vector1 start1) ;;
  scan2 <- run_operation (vector_location vector2 start2) ;;
  run_operation (move_left_loop (Z.to_nat (end1 - start1)) scan1 scan2) ;;
  PRIMITIVE_RETURN UNSPECIFIC.

Fixpoint fill_loop (length : nat) (scan : nat * Z) (fill_value : object) : operation unit :=
  match length with
  | O => ret tt
  | S length => (store_at scan fill_value ;; fill_loop length (move 1 scan) fill_value)%heap
  end.

Definition Prim_vector_fill (vector start end_index fill_value : object) : procedure object :=
  vector <- ARG VECTOR_P 1 vector ;;
  start <- arg_nonnegative_integer 2 start ;;
  end_index <- arg_nonnegative_integer 3 end_index ;;
  length <- run_operation (VECTOR_LENGTH vector) ;;
  unless (negb (end_index >? to_long length)) (error_bad_range_arg 3) ;;
  unless (negb (start >? end_index)) (error_bad_range_arg 2) ;;
  scan <- run_operation (vector_location vector start) ;;
  run_operation (fill_loop (Z.to_nat (end_index - start)) scan fill_value) ;;
  PRIMITIVE_RETURN UNSPECIFIC.
