(* ===== verification/HeapTypes.v ===== *)
(** * Types of the objects in the heap

    A typing gives each block its layout: a number of objects, a vector of
    objects with its header, the words of a bignum, or words that no primitive
    of this part reads.  An object is well typed when its type code agrees with
    the layout of the block it points to; a heap is well typed when every object
    in it is.  The primitives of list.c, hunk.c and vector.c keep the heap well
    typed and return well-typed objects. *)

From Stdlib Require Import ZArith List Bool Lia.
From S2P Require Import Prelude Bytes Object Bignum BignumBits Primitive Integer IntPrim Heap HeapPrim Intern ListPrim VectorPrim.
Import ListNotations.

#[local] Open Scope Z_scope.
#[local] Open Scope procedure_scope.

Inductive layout : Type :=
| Words (n : nat)
| Vector (n : nat)
| Number (z : Z)
| Opaque.

Definition typing : Type := list layout.

Definition pointer_type (t : gc_type_t) : bool :=
  match t with GC_CELL | GC_PAIR | GC_TRIPLE | GC_QUADRUPLE | GC_VECTOR => true | _ => false end.

(** The layouts that a type code allows. *)
Definition layout_of (type : Z) (l : layout) : Prop :=
  match gc_type_code type with
  | GC_CELL => l = Words 1
  | GC_PAIR => l = Words 2
  | GC_TRIPLE => l = Words 3
  | GC_QUADRUPLE => l = Words 4
  | GC_VECTOR =>
      if (type =? TC_VECTOR) || (type =? TC_RECORD) then exists n, l = Vector n
      else if type =? TC_BIG_FIXNUM then exists z, l = Number z
      else True
  | _ => False
  end.

Definition typed_object (T : typing) (o : object) : Prop :=
  match o with
  | Immediate w => ulong_p w /\ pointer_type (gc_type_code (Object.OBJECT_TYPE w)) = false
  | Pointer type b => 0 <= type < N_TYPE_CODES /\ exists l, nth_error T b = Some l /\ layout_of type l
  end.

Definition vector_header (n : nat) : object := MAKE_OBJECT TC_MANIFEST_VECTOR (Z.of_nat n).

(** The words of a bignum, as integer_argument reads them. *)
Definition number_words (words : list object) (z : Z) : Prop :=
  moderate z /\ exists b, represents z b /\ forall h c, block_of h c = Some words -> integer_argument (Pointer TC_BIG_FIXNUM c) h = Return (Big b, h).

Definition typed_block (T : typing) (l : layout) (words : list object) : Prop :=
  match l with
  | Words n => length words = n /\ Forall (typed_object T) words
  | Vector n => exists elements, words = vector_header n :: elements /\ length elements = n /\ Z.of_nat n < 2 ^ 57 /\ Forall (typed_object T) elements
  | Number z => number_words words z
  | Opaque => True
  end.

Record typed (T : typing) (h : heap) : Prop := {
  typed_length : length T = length (blocks h);
  typed_blocks : forall b l words, nth_error T b = Some l -> block_of h b = Some words -> typed_block T l words;
  typed_gc : gc_enabled h = true;
  typed_available : available h < 2 ^ 57
}.

Definition extends (T T' : typing) : Prop := forall b l, nth_error T b = Some l -> nth_error T' b = Some l.

Lemma typing_extends_refl T : extends T T.
Proof. now intros b l. Qed.

Lemma typing_extends_trans T1 T2 T3 : extends T1 T2 -> extends T2 T3 -> extends T1 T3.
Proof. intros A B b l H. now apply B, A. Qed.

Lemma extends_app T l : extends T (T ++ l).
Proof. intros b x H. rewrite nth_error_app1; [exact H|]. apply nth_error_Some. congruence. Qed.

Create HintDb typing.
#[export] Hint Resolve typing_extends_refl extends_app : typing.

Lemma typed_object_extends T T' o : extends T T' -> typed_object T o -> typed_object T' o.
Proof. intros E. destruct o as [w|t b]; [auto|]. intros (R & l & N & L). split; [exact R|]. exists l. split; [now apply E|exact L]. Qed.

Lemma typed_objects_extend T T' os : extends T T' -> Forall (typed_object T) os -> Forall (typed_object T') os.
Proof. intros E. apply Forall_impl. intros o. now apply typed_object_extends. Qed.

Lemma typed_block_extends T T' l words : extends T T' -> typed_block T l words -> typed_block T' l words.
Proof.
  intros E. destruct l; cbn [typed_block]; auto.
  - intros [L F]. split; [exact L|now apply (typed_objects_extend T)].
  - intros (es & W & L & R & F). exists es. split; [exact W|]. split; [exact L|]. split; [exact R|now apply (typed_objects_extend T)].
Qed.

(** ** Computations that keep the types *)

(** [m] is aborted by a garbage collection, or returns with the heap well
    typed; a result satisfies [P], a signal leaves nothing to say. *)
Definition safe {A} (P : typing -> A -> Prop) (T : typing) (m : outcome ((A + signal) * heap)) : Prop :=
  m = Exception \/ exists r h' T', m = Return (r, h') /\ extends T T' /\ typed T' h' /\ match r with inl a => P T' a | inr _ => True end.

Definition safe_operation {A} (P : typing -> A -> Prop) (T : typing) (m : outcome (A * heap)) : Prop :=
  m = Exception \/ exists a h' T', m = Return (a, h') /\ extends T T' /\ typed T' h' /\ P T' a.

Lemma safe_return {A} (P : typing -> A -> Prop) T h a : typed T h -> P T a -> safe P T (PRIMITIVE_RETURN a h).
Proof. intros H Pa. right. exists (inl a), h, T. split; [reflexivity|]. split; [apply typing_extends_refl|]. now split. Qed.

Lemma safe_signal {A} (P : typing -> A -> Prop) T h s : typed T h -> safe P T (signals s h).
Proof. intros H. right. exists (inr s), h, T. split; [reflexivity|]. split; [apply typing_extends_refl|]. now split. Qed.

Lemma safe_pthen {A B} (P : typing -> A -> Prop) (Q : typing -> B -> Prop) T (m : procedure A) (k : A -> procedure B) h :
  safe P T (m h) -> (forall a h' T', extends T T' -> typed T' h' -> P T' a -> safe Q T' (k a h')) -> safe Q T (pthen m k h).
Proof.
  unfold pthen. intros [->|(r & h' & T' & -> & E & H & R)] K; [now left|]. destruct r as [a|s]; cbn [bind].
  - destruct (K a h' T' E H R) as [->|(r & h2 & T2 & -> & E2 & H2 & R2)]; [now left|]. right. exists r, h2, T2.
    split; [reflexivity|]. split; [now apply typing_extends_trans with T'|]. now split.
  - right. exists (inr s), h', T'. split; [reflexivity|]. now split.
Qed.

Lemma safe_run {A} (P : typing -> A -> Prop) T (m : operation A) h : safe_operation P T (m h) -> safe P T (run_operation m h).
Proof. unfold run_operation. intros [->|(a & h' & T' & -> & E & H & R)]; [now left|]. right. exists (inl a), h', T'. split; [reflexivity|]. now split. Qed.

Lemma safe_andthen {A B} (P : typing -> A -> Prop) (Q : typing -> B -> Prop) T (m : operation A) (k : A -> operation B) h :
  safe_operation P T (m h) -> (forall a h' T', extends T T' -> typed T' h' -> P T' a -> safe_operation Q T' (k a h')) -> safe_operation Q T (andthen m k h).
Proof.
  unfold andthen. intros [->|(a & h' & T' & -> & E & H & R)] K; [now left|]. cbn [bind].
  destruct (K a h' T' E H R) as [->|(r & h2 & T2 & -> & E2 & H2 & R2)]; [now left|]. right. exists r, h2, T2.
  split; [reflexivity|]. split; [now apply typing_extends_trans with T'|]. now split.
Qed.

Lemma safe_ret {A} (P : typing -> A -> Prop) T h (a : A) : typed T h -> P T a -> safe_operation P T (ret a h).
Proof. intros H Pa. right. exists a, h, T. split; [reflexivity|]. split; [apply typing_extends_refl|]. now split. Qed.

Lemma safe_weaken {A} (P Q : typing -> A -> Prop) T m : safe P T m -> (forall T' a, extends T T' -> P T' a -> Q T' a) -> safe Q T m.
Proof.
  intros [->|(r & h & T' & -> & E & H & R)] I; [now left|]. right. exists r, h, T'. split; [reflexivity|]. split; [exact E|]. split; [exact H|].
  destruct r; auto.
Qed.

(** ** Decoding arguments *)

Lemma decode_safe {A} (P : typing -> A -> Prop) T h (p : primitive A) : typed T h ->
  match p with Primitive.PRIMITIVE_RETURN a => P T a | primitive_fault => False | _ => True end -> safe P T (decode p h).
Proof. intros H. destruct p; cbn [decode]; intros K; [now apply safe_return|now apply safe_signal|now apply safe_signal|contradiction]. Qed.

(** What the decoding functions see of a well-typed object. *)
Lemma typed_integer_argument T h o : typed T h -> typed_object T o ->
  exists i, integer_argument o h = Return (i, h) /\ (INTEGER_P i = false \/ exists z, integer z i /\ moderate z).
Proof.
  intros H. destruct o as [w|t b]; cbn [typed_object integer_argument].
  - intros [U N]. exists (Word w). split; [reflexivity|]. destruct (Object.FIXNUM_P w) eqn:F.
    + right. destruct (FIXNUM_P_inv w U F) as [R E]. exists (FIXNUM_TO_LONG w). split; [rewrite <- E at 2; now constructor|now apply fixnum_moderate].
    + left. unfold INTEGER_P. cbn. now rewrite F.
  - intros (R & l & N & L). destruct (Z.eqb_spec t TC_BIG_FIXNUM) as [->|Ne].
    + cbn in L. destruct L as (z & ->). destruct (block_of h b) as [words|] eqn:B.
      * destruct (typed_blocks _ _ H b _ _ N B) as (M & bn & Rb & E). specialize (E h b B). cbn [integer_argument] in E. rewrite B in E.
        exists (Big bn). split; [exact E|]. right. exists z. split; [now constructor|exact M].
      * exfalso. unfold block_of in B. apply nth_error_None in B. assert (b < length T)%nat by (apply nth_error_Some; congruence).
        rewrite (typed_length _ _ H) in *. lia.
    + exists not_an_integer. split; [reflexivity|]. now left.
Qed.

(** A decoding function that never faults on an integer or on another object. *)
Definition decodes (f : scheme_object -> primitive Z) (Q : Z -> Prop) : Prop :=
  (forall i, INTEGER_P i = false -> exists n, f i = Primitive.error_wrong_type_arg n) /\
  forall i z, integer z i -> moderate z -> (exists n, f i = Primitive.error_bad_range_arg n) \/ exists v, f i = Primitive.PRIMITIVE_RETURN v /\ Q v.

Lemma with_integer_safe f Q T h o : decodes f Q -> typed T h -> typed_object T o -> safe (fun _ v => Q v) T (with_integer f o h).
Proof.
  intros [D1 D2] H To. destruct (typed_integer_argument T h o H To) as (i & E & K).
  rewrite (with_integer_ok f o h i (f i) E eq_refl). apply decode_safe; [exact H|]. destruct K as [N|(z & I & M)].
  - now destruct (D1 i N) as (n & ->).
  - now destruct (D2 i z I M) as [(n & ->)|(v & -> & Qv)].
Qed.

Lemma arg_nonnegative_decodes n : decodes (IntPrim.arg_nonnegative_integer n) (fun v => 0 <= v < 2 ^ 63).
Proof.
  split; unfold IntPrim.arg_nonnegative_integer.
  - intros i N. destruct (arg_type_error n i N) as [-> _]. now exists n.
  - intros i z I M. rewrite (IntPrim.arg_integer_ok n z i I M). destruct (_ && _); cbn [pbind]; [|left; now exists n].
    pose proof (to_long_range z). destruct (Z.ltb_spec (to_long z) 0); cbn [negb require pbind]; [left; now exists n|right].
    exists (to_long z). split; [reflexivity|]. unfold long_p in *. lia.
Qed.

Lemma arg_index_decodes n upper : decodes (IntPrim.arg_index_integer n upper) (fun v => 0 <= v < upper).
Proof.
  split; unfold IntPrim.arg_index_integer.
  - intros i N. destruct (arg_type_error n i N) as [-> _]. now exists n.
  - intros i z I M. rewrite (IntPrim.arg_integer_ok n z i I M). destruct (_ && _); cbn [pbind]; [|left; now exists n].
    rewrite Z.geb_leb. destruct (Z.ltb_spec (to_long z) 0), (Z.leb_spec upper (to_long z)); cbn [orb negb require pbind]; try (left; now exists n).
    right. exists (to_long z). split; [reflexivity|]. lia.
Qed.

Lemma arg_ulong_decodes n : decodes (IntPrim.arg_ulong_integer n) (fun v => 0 <= v < 2 ^ 64).
Proof.
  split.
  - intros i N. destruct (arg_type_error n i N) as [_ ->]. now exists n.
  - intros i z I M. rewrite (IntPrim.arg_ulong_integer_ok n z i I M). destruct (Z.leb_spec 0 z), (Z.ltb_spec z (2 ^ 64)); cbn [andb]; try (left; now exists n).
    right. exists z. split; [reflexivity|]. lia.
Qed.

Lemma arg_ulong_index_decodes n upper : decodes (IntPrim.arg_ulong_index_integer n upper) (fun v => 0 <= v < upper).
Proof.
  destruct (arg_ulong_decodes n) as [D1 D2]. split; unfold IntPrim.arg_ulong_index_integer.
  - intros i N. destruct (arg_type_error n i N) as [_ ->]. now exists n.
  - intros i z I M. destruct (D2 i z I M) as [(k & ->)|(v & -> & Qv)]; cbn [pbind]; [left; now exists k|].
    rewrite Z.geb_leb. destruct (Z.leb_spec upper v); cbn [negb require pbind]; [left; now exists n|]. right. exists v. split; [reflexivity|lia].
Qed.

(** ** Reading and writing *)

Lemma typed_content T h b l : typed T h -> nth_error T b = Some l -> exists words : list object, block_of h b = Some words /\ typed_block T l words.
Proof.
  intros H N. destruct (block_of h b) as [ws|] eqn:B.
  - exists ws. split; [reflexivity|]. now apply (typed_blocks _ _ H b).
  - exfalso. unfold block_of in B. apply nth_error_None in B. assert (b < length T)%nat by (apply nth_error_Some; congruence).
    rewrite (typed_length _ _ H) in *. lia.
Qed.

Lemma typed_word T h b n i : typed T h -> nth_error T b = Some (Words n) -> (i < n)%nat -> exists o, content h (b, i) = Some o /\ typed_object T o.
Proof.
  intros H N Hi. destruct (typed_content T h b _ H N) as (words & B & L & F). unfold content. cbn [fst snd]. rewrite B.
  destruct (nth_error words i) as [o|] eqn:E; [|apply nth_error_None in E; lia]. exists o. split; [reflexivity|].
  rewrite Forall_forall in F. apply F. now apply nth_error_In with i.
Qed.

Lemma typed_element T h b n i : typed T h -> nth_error T b = Some (Vector n) -> (i < n)%nat -> exists o, content h (b, S i) = Some o /\ typed_object T o.
Proof.
  intros H N Hi. destruct (typed_content T h b _ H N) as (words & B & es & -> & L & R & F). unfold content. cbn [fst snd]. rewrite B. cbn [nth_error].
  destruct (nth_error es i) as [o|] eqn:E; [|apply nth_error_None in E; lia]. exists o. split; [reflexivity|].
  rewrite Forall_forall in F. apply F. now apply nth_error_In with i.
Qed.

Lemma typed_header T h b n : typed T h -> nth_error T b = Some (Vector n) -> content h (b, 0%nat) = Some (vector_header n) /\ Z.of_nat n < 2 ^ 57.
Proof.
  intros H N. destruct (typed_content T h b _ H N) as (words & B & es & -> & L & R & F). unfold content. cbn [fst snd]. rewrite B.
  split; [reflexivity|exact R].
Qed.

Lemma Forall_updated {A} (P : A -> Prop) i x l : P x -> Forall P l -> Forall P (update i x l).
Proof. intros Px. revert i. induction l as [|y l IH]; intros [|i] F; inversion_clear F; cbn [update]; constructor; auto. Qed.

(** A store of a typed object where an object is keeps the types. *)
Lemma typed_stored T h b l i o : typed T h -> nth_error T b = Some l -> typed_object T o ->
  match l with Words n => (i < n)%nat | Vector n => (0 < i <= n)%nat | _ => False end -> typed T (stored h (b, i) o).
Proof.
  intros H N O I. constructor.
  - rewrite length_stored. apply (typed_length _ _ H).
  - intros c lc words Nc. rewrite block_stored. destruct (Nat.eqb_spec b c) as [<-|Ne]; [|now apply (typed_blocks _ _ H)].
    replace lc with l by congruence. destruct (block_of h b) as [ws|] eqn:B; [|discriminate]. cbn [option_map]. intros [= <-].
    pose proof (typed_blocks _ _ H b l ws N B) as K. destruct l as [n|n|z|]; try contradiction; cbn [typed_block] in *.
    + destruct K as [L F]. split; [now rewrite length_update|now apply Forall_updated].
    + destruct K as (es & -> & L & R & F). destruct i as [|i]; [lia|]. exists (update i o es). cbn [update]. split; [reflexivity|].
      split; [now rewrite length_update|]. split; [exact R|now apply Forall_updated].
  - unfold stored. destruct (block_of h (fst (b, i))); apply (typed_gc _ _ H).
  - unfold stored. destruct (block_of h (fst (b, i))); apply (typed_available _ _ H).
Qed.

(** A new block. *)
Lemma typed_new T h h' l words : typed T h -> blocks h' = blocks h ++ [words] -> gc_enabled h' = gc_enabled h ->
  available h' <= available h -> typed_block (T ++ [l]) l words -> typed (T ++ [l]) h'.
Proof.
  intros H Bl G Av K. constructor.
  - rewrite Bl, !length_app, (typed_length _ _ H). reflexivity.
  - intros b lb ws Nb. unfold block_of. rewrite Bl. destruct (Nat.lt_ge_cases b (length T)) as [Lt|Ge].
    + rewrite nth_error_app1 in * by (rewrite <- ?(typed_length _ _ H); exact Lt). intros Wb.
      apply typed_block_extends with T; [apply extends_app|]. now apply (typed_blocks _ _ H b).
    + assert (b = length T). { assert (b < length (T ++ [l]))%nat by (apply nth_error_Some; congruence). rewrite length_app in *. cbn in *. lia. }
      subst b. rewrite nth_error_app2, Nat.sub_diag in Nb by lia. rewrite (typed_length _ _ H), nth_error_app2, Nat.sub_diag by lia.
      cbn in *. intros [= <-]. injection Nb as <-. exact K.
  - rewrite G. apply (typed_gc _ _ H).
  - pose proof (typed_available _ _ H). lia.
Qed.

(** ** Type tests *)

(** The objects that pass the test are those of [n] words. *)
Definition selects (p : object -> bool) (n : nat) : Prop :=
  forall T o, typed_object T o -> p o = true -> exists t b, o = Pointer t b /\ nth_error T b = Some (Words n).

Definition selects_vector (p : object -> bool) : Prop :=
  forall T o, typed_object T o -> p o = true -> exists t b n, o = Pointer t b /\ nth_error T b = Some (Vector n).

Lemma selects_gc_type (p : object -> bool) g n :
  (forall o, p o = true -> GC_TYPE o = g) -> pointer_type g = true -> (forall t l, gc_type_code t = g -> layout_of t l -> l = Words n) -> selects p n.
Proof.
  intros G Pg L T o To Po. specialize (G o Po). unfold GC_TYPE in G. destruct o as [w|t b]; cbn [typed_object OBJECT_TYPE] in *.
  - destruct To as [_ N]. rewrite G, Pg in N. discriminate.
  - destruct To as (_ & l & N & Lo). exists t, b. split; [reflexivity|]. now rewrite <- (L t l G Lo).
Qed.

Lemma type_test c o : (OBJECT_TYPE o =? c) = true -> GC_TYPE o = gc_type_code c.
Proof. intros E%Z.eqb_eq. unfold GC_TYPE. now rewrite E. Qed.

Lemma gc_type_eqb_eq a b : gc_type_eqb a b = true -> a = b.
Proof. destruct a, b; cbn; congruence. Qed.

Lemma pair_layout t l : gc_type_code t = GC_PAIR -> layout_of t l -> l = Words 2.
Proof. unfold layout_of. now intros ->. Qed.
Lemma triple_layout t l : gc_type_code t = GC_TRIPLE -> layout_of t l -> l = Words 3.
Proof. unfold layout_of. now intros ->. Qed.
Lemma cell_layout t l : gc_type_code t = GC_CELL -> layout_of t l -> l = Words 1.
Proof. unfold layout_of. now intros ->. Qed.

Lemma selects_pair : selects PAIR_P 2.
Proof. apply (selects_gc_type _ GC_PAIR); [intros o; apply (type_test TC_LIST)|reflexivity|exact pair_layout]. Qed.
Lemma selects_weak_pair : selects WEAK_PAIR_P 2.
Proof. apply (selects_gc_type _ GC_PAIR); [intros o; apply (type_test TC_WEAK_CONS)|reflexivity|exact pair_layout]. Qed.
Lemma selects_tagged : selects TAGGED_OBJECT_P 2.
Proof. apply (selects_gc_type _ GC_PAIR); [intros o; apply (type_test TC_TAGGED_OBJECT)|reflexivity|exact pair_layout]. Qed.
Lemma selects_gc_pair : selects GC_TYPE_PAIR 2.
Proof. apply (selects_gc_type _ GC_PAIR); [intros o; apply gc_type_eqb_eq|reflexivity|exact pair_layout]. Qed.
Lemma selects_gc_triple : selects GC_TYPE_TRIPLE 3.
Proof. apply (selects_gc_type _ GC_TRIPLE); [intros o; apply gc_type_eqb_eq|reflexivity|exact triple_layout]. Qed.
Lemma selects_cell : selects CELL_P 1.
Proof. apply (selects_gc_type _ GC_CELL); [intros o; apply (type_test TC_CELL)|reflexivity|exact cell_layout]. Qed.
Lemma selects_hunk3 : selects HUNK3_P 3.
Proof.
  apply (selects_gc_type _ GC_TRIPLE); [|reflexivity|exact triple_layout]. intros o [E|E]%orb_true_iff; [apply (type_test TC_HUNK3_A)|apply (type_test TC_HUNK3_B)]; exact E.
Qed.

Lemma selects_vectors (p : object -> bool) c : (forall o, p o = true -> OBJECT_TYPE o = c) -> c = TC_VECTOR \/ c = TC_RECORD -> selects_vector p.
Proof.
  intros P C T o To Po. specialize (P o Po). assert (G : gc_type_code c = GC_VECTOR) by (destruct C as [->| ->]; reflexivity).
  destruct o as [w|t b]; cbn [typed_object OBJECT_TYPE] in *; subst c.
  - destruct To as [_ N]. rewrite G in N. discriminate.
  - destruct To as (_ & l & N & L). unfold layout_of in L. rewrite G in L.
    replace ((t =? TC_VECTOR) || (t =? TC_RECORD)) with true in L by (destruct C as [->| ->]; reflexivity). destruct L as (n & ->). now exists t, b, n.
Qed.

Lemma selects_vector_p : selects_vector VECTOR_P.
Proof. apply (selects_vectors _ TC_VECTOR); [intros o; apply Z.eqb_eq|now left]. Qed.
Lemma selects_record_p : selects_vector RECORD_P.
Proof. apply (selects_vectors _ TC_RECORD); [intros o; apply Z.eqb_eq|now right]. Qed.

#[export] Hint Resolve selects_pair selects_weak_pair selects_tagged selects_gc_pair selects_gc_triple selects_cell selects_hunk3
  selects_vector_p selects_record_p : typing.

(** ** Constants *)

Lemma typed_boolean T b : typed_object T (BOOLEAN_TO_OBJECT b).
Proof. destruct b; (split; [unfold ulong_p; vm_compute; split; [discriminate|reflexivity]|reflexivity]). Qed.

Lemma typed_unspecific T : typed_object T UNSPECIFIC.
Proof. split; [unfold ulong_p; vm_compute; split; [discriminate|reflexivity]|reflexivity]. Qed.

Lemma typed_empty_list T : typed_object T EMPTY_LIST.
Proof. split; [unfold ulong_p; vm_compute; split; [discriminate|reflexivity]|reflexivity]. Qed.

Lemma typed_fixnum T z : typed_object T (Immediate (Object.LONG_TO_FIXNUM z)).
Proof. split; [apply LONG_TO_FIXNUM_object|]. now rewrite LONG_TO_FIXNUM_type. Qed.

#[export] Hint Resolve typed_boolean typed_unspecific typed_empty_list typed_fixnum : typing.

(** ** The primitives of list.c, hunk.c and prim.c *)

Lemma gc_check_safe T h n : typed T h -> safe_operation (fun _ _ => True) T (Primitive_GC_If_Needed n h).
Proof.
  intros H. unfold Primitive_GC_If_Needed. destruct (GC_NEEDED_P n h); [now left|]. right. exists tt, h, T.
  split; [reflexivity|]. split; [apply typing_extends_refl|]. now split.
Qed.

Lemma allocate_safe T h type l words : typed T h -> 0 <= type < N_TYPE_CODES -> layout_of type l -> typed_block (T ++ [l]) l words ->
  safe_operation typed_object T (allocate type words h).
Proof.
  intros H R L K. right. eexists. eexists. exists (T ++ [l]). split; [reflexivity|]. split; [apply extends_app|].
  split; [apply (typed_new T h _ l words); auto; cbn [available]; lia|]. split; [exact R|]. exists l. split; [|exact L].
  rewrite <- (typed_length _ _ H), nth_error_app2, Nat.sub_diag by lia. reflexivity.
Qed.

Lemma new_object_safe T h type words : typed T h -> 0 <= type < N_TYPE_CODES -> layout_of type (Words (length words)) -> Forall (typed_object T) words ->
  safe_operation typed_object T (new_object type words h).
Proof.
  intros H R L F. unfold new_object. eapply safe_andthen; [now apply gc_check_safe|]. intros _ h' T' E H' _.
  apply (allocate_safe T' h' type (Words (length words))); auto. split; [reflexivity|].
  apply (typed_objects_extend T); [apply typing_extends_trans with T'; auto with typing|exact F].
Qed.

Lemma CHECK_ARG_safe {B} (Q : typing -> B -> Prop) T n p o h (k : unit -> procedure B) : typed T h -> (p o = true -> safe Q T (k tt h)) ->
  safe Q T (pthen (CHECK_ARG n p o) k h).
Proof. intros H K. destruct (p o) eqn:E; [rewrite CHECK_ARG_passes by exact E; now apply K|]. rewrite CHECK_ARG_fails by exact E. now apply (safe_signal Q T h). Qed.

Lemma unless_safe {B} (Q : typing -> B -> Prop) T ok s h (k : unit -> procedure B) : typed T h -> (ok = true -> safe Q T (k tt h)) ->
  safe Q T (pthen (unless ok (signals s)) k h).
Proof. intros H K. destruct ok; [now apply K|]. rewrite unless_false. now apply (safe_signal Q T h). Qed.

Lemma memory_ref_safe T h t b n i : typed T h -> nth_error T b = Some (Words n) -> (i < n)%nat -> safe_operation typed_object T (MEMORY_REF (Pointer t b) i h).
Proof.
  intros H N Hi. destruct (typed_word T h b n i H N Hi) as (o & C & To). right. exists o, h, T.
  split; [now apply MEMORY_REF_ok|]. split; [apply typing_extends_refl|]. now split.
Qed.

Lemma memory_set_safe T h t b l i o old : typed T h -> nth_error T b = Some l -> content h (b, i) = Some old -> typed_object T o ->
  match l with Words n => (i < n)%nat | Vector n => (0 < i <= n)%nat | _ => False end -> safe_operation (fun _ _ => True) T (MEMORY_SET (Pointer t b) i o h).
Proof.
  intros H N C To I. right. exists tt, (stored h (b, i) o), T. split; [now apply MEMORY_SET_ok with old|]. split; [apply typing_extends_refl|].
  split; [now apply (typed_stored T h b l)|exact Logic.I].
Qed.

Lemma ref_primitive_safe T h p n i o : selects p n -> (i < n)%nat -> typed T h -> typed_object T o -> safe typed_object T (ref_primitive p i o h).
Proof.
  intros S I H To. unfold ref_primitive. apply CHECK_ARG_safe; [exact H|]. intros E. destruct (S T o To E) as (t & b & -> & N).
  apply safe_run. now apply memory_ref_safe with n.
Qed.

Lemma set_primitive_safe T h p n i o v : selects p n -> (i < n)%nat -> typed T h -> typed_object T o -> typed_object T v ->
  safe typed_object T (set_primitive p i o v h).
Proof.
  intros S I H To Tv. unfold set_primitive. apply CHECK_ARG_safe; [exact H|]. intros E. destruct (S T o To E) as (t & b & -> & N).
  destruct (typed_word T h b n i H N I) as (old & C & _). eapply safe_pthen; [apply safe_run; now apply (memory_set_safe T h t b (Words n) i v old)|].
  intros _ h' T' _ H' _. apply safe_return; auto with typing.
Qed.

Lemma car_cdr_loop_safe fuel : forall T h o path, typed T h -> typed_object T o -> 0 <= path < 2 ^ Z.of_nat fuel ->
  safe typed_object T (car_cdr_loop fuel o path h).
Proof.
  induction fuel as [|fuel IH]; intros T h o path H To Hp; cbn [car_cdr_loop]; rewrite Z.gtb_ltb; destruct (Z.ltb_spec 1 path);
    try (now apply safe_return).
  - change (2 ^ Z.of_nat 0) with 1 in Hp. lia.
  - apply unless_safe; [exact H|]. intros E. destruct (selects_pair T o To E) as (t & b & -> & N).
    eapply safe_pthen with (P := typed_object).
    + apply safe_run. destruct (Z.land path 1 =? 0); now apply memory_ref_safe with 2%nat; auto.
    + intros a h' T' _ H' Ta. apply IH; [exact H'|exact Ta|]. rewrite Z.shiftr_div_pow2 by lia. change (2 ^ 1) with 2.
      rewrite Nat2Z.inj_succ, Z.pow_succ_r in Hp by lia. dlia.
Qed.

Lemma general_car_cdr_safe T h o path : typed T h -> typed_object T o -> typed_object T path -> safe typed_object T (Prim_general_car_cdr o path h).
Proof.
  intros H To Tp. unfold Prim_general_car_cdr. eapply safe_pthen; [now apply with_integer_safe with (1 := arg_ulong_decodes 2)|].
  intros n h' T' E H' Hn. apply car_cdr_loop_safe; [exact H'|now apply typed_object_extends with T|exact Hn].
Qed.

Lemma gc_type_code_range t g : gc_type_code t = g -> g <> GC_UNDEFINED -> 0 <= t -> t < N_TYPE_CODES.
Proof.
  intros E Ne Ht. destruct (Z.lt_ge_cases t N_TYPE_CODES) as [|G]; [assumption|exfalso]. apply Ne. rewrite <- E. unfold gc_type_code.
  apply nth_overflow. unfold N_TYPE_CODES in G. cbn [length gc_type_map]. lia.
Qed.

Lemma system_pair_cons_safe T h type car cdr : typed T h -> typed_object T type -> typed_object T car -> typed_object T cdr ->
  safe typed_object T (Prim_sys_pair_cons type car cdr h).
Proof.
  intros H Tt T1 T2. unfold Prim_sys_pair_cons. eapply safe_pthen; [now apply with_integer_safe with (1 := arg_ulong_index_decodes 1 N_TYPE_CODES)|].
  intros n h' T' E H' Hn. apply unless_safe; [exact H'|]. intros P%gc_type_eqb_eq. apply safe_run.
  change (safe_operation typed_object T' (new_object n [car; cdr] h')). apply new_object_safe; [exact H'|exact Hn| |].
  - unfold layout_of. now rewrite P.
  - repeat constructor; now apply typed_object_extends with T.
Qed.

Lemma hunk3_cxr_safe T h o index : typed T h -> typed_object T o -> typed_object T index -> safe typed_object T (Prim_hunk3_cxr o index h).
Proof.
  intros H To Ti. unfold Prim_hunk3_cxr. apply CHECK_ARG_safe; [exact H|]. intros E. destruct (selects_hunk3 T o To E) as (t & b & -> & N).
  eapply safe_pthen; [now apply with_integer_safe with (1 := arg_index_decodes 2 3)|]. intros i h' T' X H' Hi. cbv beta in Hi. apply safe_run.
  apply memory_ref_safe with 3%nat; [exact H'|now apply X|lia].
Qed.

Lemma hunk3_set_cxr_safe T h o index v : typed T h -> typed_object T o -> typed_object T index -> typed_object T v ->
  safe typed_object T (Prim_hunk3_set_cxr o index v h).
Proof.
  intros H To Ti Tv. unfold Prim_hunk3_set_cxr. apply CHECK_ARG_safe; [exact H|]. intros E. destruct (selects_hunk3 T o To E) as (t & b & -> & N).
  eapply safe_pthen; [now apply with_integer_safe with (1 := arg_index_decodes 2 3)|]. intros i h' T' X H' Hi. cbv beta in Hi.
  destruct (typed_word T' h' b 3 (Z.to_nat i) H' (X _ _ N) ltac:(lia)) as (old & C & _). eapply safe_pthen.
  - apply safe_run, (memory_set_safe T' h' t b (Words 3) _ v old); auto; [now apply typed_object_extends with T|lia].
  - intros _ h2 T2 _ H2 _. apply safe_return; auto with typing.
Qed.

(** ** The primitives of vector.c *)

Lemma ARG_safe {B} (Q : typing -> B -> Prop) T n p o h (k : object -> procedure B) : typed T h -> (p o = true -> safe Q T (k o h)) ->
  safe Q T (pthen (ARG p n o) k h).
Proof. intros H K. unfold ARG. destruct (p o); [now apply K|]. now apply (safe_signal Q T h). Qed.

Lemma vector_length_ok T h t b n : typed T h -> nth_error T b = Some (Vector n) -> VECTOR_LENGTH (Pointer t b) h = Return (Z.of_nat n, h).
Proof.
  intros H N. destruct (typed_header T h b n H N) as [C R]. unfold VECTOR_LENGTH. run MEMORY_REF_ok; [|exact C].
  unfold vector_header, MAKE_OBJECT, pure, TC_MANIFEST_VECTOR, TC_FALSE. cbn [OBJECT_DATUM bind].
  rewrite OBJECT_DATUM_mod, MAKE_OBJECT_sum by lia. rewrite Z.mul_0_r, Z.add_0_r, Z.mod_small by lia. reflexivity.
Qed.

Lemma typed_vector_range T h b n : typed T h -> nth_error T b = Some (Vector n) -> Z.of_nat n < 2 ^ 57.
Proof. intros H N. exact (proj2 (typed_header T h b n H N)). Qed.

Lemma length_primitive_safe T h p o : selects_vector p -> typed T h -> typed_object T o -> safe typed_object T (VECTOR_LENGTH_PRIMITIVE p o h).
Proof.
  intros S H To. unfold VECTOR_LENGTH_PRIMITIVE. apply ARG_safe; [exact H|]. intros E. destruct (S T o To E) as (t & b & n & -> & N).
  rewrite (pthen_return _ _ _ _ _ (run_operation_ok _ _ _ _ (vector_length_ok T h t b n H N))). apply safe_return; auto with typing.
Qed.

Lemma vector_index_safe {B} (Q : typing -> B -> Prop) T h t b n i (k : Z -> procedure B) : typed T h -> nth_error T b = Some (Vector n) -> typed_object T i ->
  (forall j h' T', extends T T' -> typed T' h' -> 0 <= j < Z.of_nat n -> safe Q T' (k j h')) ->
  safe Q T (pthen (ARG_VECTOR_INDEX 2 i (Pointer t b)) k h).
Proof.
  intros H N Ti K. eapply safe_pthen; [|exact K]. unfold ARG_VECTOR_INDEX.
  rewrite (pthen_return _ _ _ _ _ (run_operation_ok _ _ _ _ (vector_length_ok T h t b n H N))).
  pose proof (typed_vector_range T h b n H N). rewrite to_long_small by lia. now apply with_integer_safe with (1 := arg_index_decodes 2 (Z.of_nat n)).
Qed.

Lemma ref_vector_safe T h p v i : selects_vector p -> typed T h -> typed_object T v -> typed_object T i -> safe typed_object T (VECTOR_REF_PRIMITIVE p v i h).
Proof.
  intros S H Tv Ti. unfold VECTOR_REF_PRIMITIVE. apply ARG_safe; [exact H|]. intros E. destruct (S T v Tv E) as (t & b & n & -> & N).
  apply vector_index_safe with n; [exact H|exact N|exact Ti|]. intros j h' T' X H' Hj.
  destruct (typed_element T' h' b n (Z.to_nat j) H' (X _ _ N) ltac:(lia)) as (o & C & To). apply safe_run. right. exists o, h', T'.
  split; [unfold VECTOR_REF; rewrite Nat.add_1_r; now apply MEMORY_REF_ok|]. split; [apply typing_extends_refl|]. now split.
Qed.

Lemma set_vector_safe T h p v i x : selects_vector p -> typed T h -> typed_object T v -> typed_object T i -> typed_object T x ->
  safe typed_object T (VECTOR_SET_PRIMITIVE p v i x h).
Proof.
  intros S H Tv Ti Tx. unfold VECTOR_SET_PRIMITIVE. apply ARG_safe; [exact H|]. intros E. destruct (S T v Tv E) as (t & b & n & -> & N).
  apply vector_index_safe with n; [exact H|exact N|exact Ti|]. intros j h' T' X H' Hj.
  destruct (typed_element T' h' b n (Z.to_nat j) H' (X _ _ N) ltac:(lia)) as (o & C & To). eapply safe_pthen.
  - apply safe_run. unfold VECTOR_SET. rewrite Nat.add_1_r.
    apply (memory_set_safe T' h' t b (Vector n) _ x o); auto; [now apply typed_object_extends with T|lia].
  - intros _ h2 T2 _ H2 _. apply safe_return; auto with typing.
Qed.

Lemma gc_check_cases T h n : typed T h -> Primitive_GC_If_Needed n h = Exception \/ (n <= available h /\ Primitive_GC_If_Needed n h = Return (tt, h)).
Proof.
  intros H. unfold Primitive_GC_If_Needed, GC_NEEDED_P, HEAP_AVAILABLE_P. rewrite (typed_gc _ _ H), andb_true_r.
  destruct (Z.ltb_spec 0 (available h)), (Z.leb_spec n (available h)); cbn [andb negb]; auto.
Qed.

(** A new vector: its size is below [2 ^ 57] words. *)
Lemma new_vector_safe T h type elements : typed T h -> type = TC_VECTOR \/ type = TC_RECORD -> zlength elements < 2 ^ 57 -> Forall (typed_object T) elements ->
  safe_operation typed_object T (allocate type (MAKE_OBJECT TC_MANIFEST_VECTOR (zlength elements) :: elements) h).
Proof.
  intros H C L F. apply (allocate_safe T h type (Vector (length elements))); [exact H|destruct C as [->| ->]; split; vm_compute; congruence| |].
  - destruct C as [->| ->]; cbn; now eexists.
  - exists elements. split; [reflexivity|]. split; [reflexivity|]. split; [exact L|]. apply (typed_objects_extend T); auto with typing.
Qed.

(** The vectors that are made of a number of words that was checked. *)
Lemma checked_vector_safe T h type n elements : typed T h -> type = TC_VECTOR \/ type = TC_RECORD -> zlength elements < n -> Forall (typed_object T) elements ->
  safe_operation typed_object T
    ((Primitive_GC_If_Needed n ;; allocate type (MAKE_OBJECT TC_MANIFEST_VECTOR (zlength elements) :: elements))%heap h).
Proof.
  intros H C L F. destruct (gc_check_cases T h n H) as [E|[Av E]].
  - left. unfold andthen. now rewrite E.
  - rewrite (andthen_return _ _ _ _ _ E). apply new_vector_safe; auto. pose proof (typed_available _ _ H). lia.
Qed.

Lemma vector_of_arguments_safe T h type os : typed T h -> type = TC_VECTOR \/ type = TC_RECORD -> Forall (typed_object T) os ->
  safe typed_object T (run_operation (vector_of_arguments type os) h).
Proof. intros H C F. apply safe_run. apply checked_vector_safe; auto. lia. Qed.

Lemma make_marked_vector_safe T h type n x : typed T h -> type = TC_VECTOR \/ type = TC_RECORD -> 0 <= n -> typed_object T x ->
  safe typed_object T (run_operation (make_marked_vector type (Z.to_nat n) x true) h).
Proof.
  intros H C Hn Tx. apply safe_run. unfold make_marked_vector.
  pose proof (checked_vector_safe T h type (Z.of_nat (Z.to_nat n) + 1) (repeat x (Z.to_nat n)) H C) as K. rewrite repeat_length in K.
  apply K; [lia|]. apply Forall_forall. intros y Hy. now rewrite (repeat_spec _ _ _ Hy).
Qed.

Lemma vector_cons_safe T h n x : typed T h -> typed_object T n -> typed_object T x -> safe typed_object T (Prim_vector_cons n x h).
Proof.
  intros H Tn Tx. unfold Prim_vector_cons. eapply safe_pthen; [now apply with_integer_safe with (1 := arg_nonnegative_decodes 1)|].
  intros k h' T' E H' Hk. cbv beta in Hk. apply make_marked_vector_safe; auto; [lia|now apply typed_object_extends with T].
Qed.

Lemma make_record_safe T h n x : typed T h -> typed_object T n -> typed_object T x -> safe typed_object T (Prim_make_record n x h).
Proof.
  intros H Tn Tx. unfold Prim_make_record. eapply safe_pthen; [now apply with_integer_safe with (1 := arg_ulong_index_decodes 1 (2 ^ DATUM_LENGTH))|].
  intros k h' T' E H' Hk. cbv beta in Hk. apply make_marked_vector_safe; auto; [lia|now apply typed_object_extends with T].
Qed.

Lemma record_safe T h os : typed T h -> Forall (typed_object T) os -> safe typed_object T (Prim_record os h).
Proof. intros H F. unfold Prim_record. apply unless_safe; [exact H|]. intros _. apply vector_of_arguments_safe; auto. Qed.

(** ** Lists made of vectors *)

(** The pairs of a list of [xs] that is stored from block [b] on. *)
Fixpoint list_blocks (b : nat) (xs : list object) : list (list object) :=
  match xs with
  | [] => []
  | [x] => [[x; EMPTY_LIST]]
  | x :: xs => [x; Pointer TC_LIST (S b)] :: list_blocks (S b) xs
  end.

Definition with_new_blocks (h : heap) (bs : list (list object)) (n : Z) : heap :=
  Heap (blocks h ++ bs) (available h - n) (gc_enabled h) (gc_space_needed h) (non_object h) (obarray h).

Lemma with_new_blocks_twice h b bs n m : with_new_blocks (with_new_blocks h b n) bs m = with_new_blocks h (b ++ bs) (n + m).
Proof. unfold with_new_blocks. cbn. rewrite <- app_assoc. f_equal. lia. Qed.

(** The elements of a vector from an index on. *)
Definition elements_at (h : heap) (b index : nat) (xs : list object) : Prop :=
  forall i x, nth_error xs i = Some x -> content h (b, S (index + i)) = Some x.

Lemma subvector_pairs_ok xs : forall h t b index, xs <> [] -> elements_at h b index xs ->
  subvector_pairs (pred (length xs)) (Pointer t b) index h =
  Return (tt, with_new_blocks h (list_blocks (length (blocks h)) xs) (2 * zlength xs)).
Proof.
  induction xs as [|x xs IH]; intros h t b index Ne E; [contradiction|].
  assert (R : VECTOR_REF (Pointer t b) index h = Return (x, h)).
  { unfold VECTOR_REF. rewrite Nat.add_1_r. apply MEMORY_REF_ok. rewrite <- (Nat.add_0_r index). now apply E. }
  destruct xs as [|y xs]; cbn [length pred subvector_pairs]; rewrite (andthen_return _ _ _ _ _ R).
  - reflexivity.
  - erewrite andthen_return by reflexivity. erewrite andthen_return by reflexivity.
    change (length (y :: xs)) with (S (length xs)) in IH. cbn [pred] in IH. rewrite IH; [|discriminate|].
    + fold (allocated h [x; Pointer TC_LIST (S (length (blocks h)))]).
      change (allocated h [x; Pointer TC_LIST (S (length (blocks h)))]) with (with_new_blocks h [[x; Pointer TC_LIST (S (length (blocks h)))]] 2).
      rewrite with_new_blocks_twice. cbn [with_new_blocks blocks length list_blocks app]. rewrite length_app. cbn [length]. rewrite Nat.add_1_r.
      now replace (2 + 2 * Z.of_nat (S (length xs))) with (2 * Z.of_nat (S (S (length xs)))) by lia.
    + intros i z Hz. apply (content_allocated h). replace (S index + i)%nat with (index + S i)%nat by lia. now apply E.
Qed.

Lemma length_list_blocks xs : forall b, length (list_blocks b xs) = length xs.
Proof. induction xs as [|x xs IH]; intros b; [reflexivity|]. destruct xs as [|y xs]; [reflexivity|]. cbn [list_blocks length] in *. now rewrite IH. Qed.

(** The blocks of a list, one by one. *)
Lemma nth_list_blocks xs : forall b i words, nth_error (list_blocks b xs) i = Some words ->
  exists x cdr, words = [x; cdr] /\ nth_error xs i = Some x /\
    ((S i < length xs)%nat /\ cdr = Pointer TC_LIST (S (b + i)) \/ S i = length xs /\ cdr = EMPTY_LIST).
Proof.
  induction xs as [|x xs IH]; intros b i words N; [destruct i; discriminate|]. destruct xs as [|y xs].
  - destruct i as [|i]; [|destruct i; discriminate]. injection N as <-. exists x, EMPTY_LIST. auto.
  - destruct i as [|i]; cbn [list_blocks nth_error] in N.
    + injection N as <-. exists x, (Pointer TC_LIST (S b)). rewrite Nat.add_0_r. split; [reflexivity|]. split; [reflexivity|]. left. cbn. split; [lia|reflexivity].
    + destruct (IH (S b) i words N) as (z & cdr & W & Nz & K). exists z, cdr. split; [exact W|]. split; [exact Nz|].
      replace (b + S i)%nat with (S b + i)%nat by lia. cbn [length] in *. destruct K as [[L E]|[L E]]; [left|right]; (split; [lia|exact E]).
Qed.

Lemma typed_append T h bs ls n : typed T h -> length ls = length bs -> 0 <= n ->
  (forall i l words, nth_error ls i = Some l -> nth_error bs i = Some words -> typed_block (T ++ ls) l words) -> typed (T ++ ls) (with_new_blocks h bs n).
Proof.
  intros H L Hn K. constructor; cbn [with_new_blocks blocks gc_enabled available].
  - rewrite !length_app, (typed_length _ _ H). lia.
  - intros b lb ws Nb. unfold block_of. cbn [with_new_blocks blocks]. destruct (Nat.lt_ge_cases b (length T)) as [Lt|Ge].
    + rewrite nth_error_app1 in * by (rewrite <- ?(typed_length _ _ H); exact Lt). intros Wb.
      apply typed_block_extends with T; [apply extends_app|]. now apply (typed_blocks _ _ H b).
    + rewrite nth_error_app2 in * by (rewrite <- ?(typed_length _ _ H); exact Ge). rewrite <- (typed_length _ _ H). apply (K (b - length T)%nat). exact Nb.
  - apply (typed_gc _ _ H).
  - pose proof (typed_available _ _ H). lia.
Qed.

Lemma typed_list T h xs : typed T h -> Forall (typed_object T) xs ->
  typed (T ++ repeat (Words 2) (length xs)) (with_new_blocks h (list_blocks (length (blocks h)) xs) (2 * zlength xs)).
Proof.
  intros H F. apply typed_append; [exact H|now rewrite repeat_length, length_list_blocks|lia|]. intros i l words Nl Nb.
  apply nth_error_In, repeat_spec in Nl. subst l. destruct (nth_list_blocks _ _ _ _ Nb) as (x & cdr & -> & Nx & K). split; [reflexivity|].
  constructor; [|constructor; [|constructor]].
  - apply typed_object_extends with T; [apply extends_app|]. rewrite Forall_forall in F. apply F. now apply nth_error_In with i.
  - destruct K as [[L ->]|[L ->]]; [|apply typed_empty_list]. split; [split; vm_compute; congruence|]. exists (Words 2). split; [|reflexivity].
    rewrite <- (typed_length _ _ H), nth_error_app2 by lia. apply nth_error_repeat. lia.
Qed.

Lemma elements_of_vector T h b n start m : typed T h -> nth_error T b = Some (Vector n) -> (start + m <= n)%nat ->
  exists xs, length xs = m /\ elements_at h b start xs /\ Forall (typed_object T) xs.
Proof.
  intros H N L. destruct (typed_content T h b _ H N) as (words & B & es & -> & Le & R & F). exists (firstn m (skipn start es)). split.
  - rewrite length_firstn, length_skipn. lia.
  - split; [|now apply Forall_cut, Forall_cut]. intros i x Nx. assert (Hi : (i < m)%nat).
    { assert (i < length (firstn m (skipn start es)))%nat by (apply nth_error_Some; congruence). rewrite length_firstn in *. lia. }
    rewrite nth_error_firstn in Nx. destruct (Nat.ltb_spec i m); [|lia]. rewrite nth_error_skipn in Nx.
    unfold content. cbn [fst snd]. rewrite B. exact Nx.
Qed.

Lemma subvector_to_list_ok h t b start xs : elements_at h b start xs -> 2 * zlength xs <= available h ->
  exists o, subvector_to_list (Pointer t b) (Z.of_nat start) (Z.of_nat start + zlength xs) h =
    Return (o, with_new_blocks h (list_blocks (length (blocks h)) xs) (2 * zlength xs)) /\
    o = match xs with [] => EMPTY_LIST | _ => Pointer TC_LIST (length (blocks h)) end.
Proof.
  intros E Av. unfold subvector_to_list. destruct xs as [|x xs]; cbn [length].
  - rewrite Z.add_0_r, Z.eqb_refl. exists EMPTY_LIST. split; [|reflexivity]. unfold ret, with_new_blocks. cbn [list_blocks]. rewrite app_nil_r, Z.sub_0_r.
    now destruct h.
  - destruct (Z.eqb_spec (Z.of_nat start) (Z.of_nat start + Z.of_nat (S (length xs)))); [lia|].
    erewrite andthen_return by (unfold Primitive_GC_If_Needed; rewrite HEAP_AVAILABLE_enough by (cbn [length] in Av; lia); reflexivity).
    erewrite andthen_return by reflexivity. replace (Z.to_nat (Z.of_nat start + Z.of_nat (S (length xs)) - 1 - Z.of_nat start)) with (pred (length (x :: xs))) by (cbn; lia).
    rewrite Nat2Z.id. rewrite (andthen_return _ _ _ _ _ (subvector_pairs_ok (x :: xs) h t b start ltac:(discriminate) E)).
    eexists. split; reflexivity.
Qed.

Definition subvector_list_range (start end_index n : Z) : Prop := 0 <= start <= end_index /\ end_index <= n.

Lemma subvector_to_list_safe T h t b n start end_index : typed T h -> nth_error T b = Some (Vector n) -> subvector_list_range start end_index (Z.of_nat n) ->
  safe_operation typed_object T (subvector_to_list (Pointer t b) start end_index h).
Proof.
  intros H N [R1 R2]. destruct (elements_of_vector T h b n (Z.to_nat start) (Z.to_nat (end_index - start)) H N ltac:(lia)) as (xs & L & E & F).
  replace start with (Z.of_nat (Z.to_nat start)) by lia. replace end_index with (Z.of_nat (Z.to_nat start) + zlength xs) by lia.
  destruct (gc_check_cases T h (2 * zlength xs) H) as [Ex|[Av _]].
  - destruct xs as [|x xs].
    + (right; exists EMPTY_LIST, h, T; cbn [length]; unfold subvector_to_list; rewrite Z.add_0_r, Z.eqb_refl;
        split; [reflexivity|]; split; [apply typing_extends_refl|]; split; [exact H|apply typed_empty_list]).
    + left. unfold subvector_to_list. destruct (Z.eqb_spec (Z.of_nat (Z.to_nat start)) (Z.of_nat (Z.to_nat start) + zlength (x :: xs))); [cbn [length] in *; lia|].
      unfold andthen. replace (2 * (Z.of_nat (Z.to_nat start) + zlength (x :: xs) - Z.of_nat (Z.to_nat start))) with (2 * zlength (x :: xs)) by lia.
      now rewrite Ex.
  - destruct (subvector_to_list_ok h t b (Z.to_nat start) xs E Av) as (o & -> & ->). right. eexists. eexists. eexists. split; [reflexivity|].
    split; [apply extends_app|]. split; [now apply typed_list|]. destruct xs as [|x xs]; [apply typed_empty_list|].
    split; [split; vm_compute; congruence|]. exists (Words 2). split; [|reflexivity]. rewrite <- (typed_length _ _ H), nth_error_app2, Nat.sub_diag by lia. reflexivity.
Qed.

Lemma subvector_list_primitive_safe T h p v s e : selects_vector p -> typed T h -> typed_object T v -> typed_object T s -> typed_object T e ->
  safe typed_object T (SUBVECTOR_TO_LIST_PRIMITIVE p v s e h).
Proof.
  intros S H Tv Ts Te. unfold SUBVECTOR_TO_LIST_PRIMITIVE. apply ARG_safe; [exact H|]. intros Pv. destruct (S T v Tv Pv) as (t & b & n & -> & N).
  eapply safe_pthen; [now apply with_integer_safe with (1 := arg_nonnegative_decodes 2)|]. intros start h1 T1 E1 H1 R1. cbv beta in R1.
  eapply safe_pthen; [apply with_integer_safe with (1 := arg_nonnegative_decodes 3); [exact H1|now apply typed_object_extends with T]|].
  intros end_index h2 T2 E2 H2 R2. cbv beta in R2. assert (N2 : nth_error T2 b = Some (Vector n)) by now apply E2, E1.
  rewrite (pthen_return _ _ _ _ _ (run_operation_ok _ _ _ _ (vector_length_ok T2 h2 t b n H2 N2))).
  pose proof (typed_vector_range T2 h2 b n H2 N2). rewrite to_long_small, !Z.gtb_ltb by lia.
  apply unless_safe; [exact H2|]. intros C1. apply unless_safe; [exact H2|]. intros C2. apply negb_true_iff in C1, C2. apply Z.ltb_ge in C1, C2.
  apply safe_run, subvector_to_list_safe with n; [exact H2|exact N2|split; lia].
Qed.

(** ** Vectors made of lists *)

Definition with_available (h : heap) (n : Z) : heap :=
  Heap (blocks h) n (gc_enabled h) (gc_space_needed h) (non_object h) (obarray h).

Lemma typed_with_available T h n : typed T h -> n <= available h -> typed T (with_available h n).
Proof. intros [L B G A] Hn. constructor; cbn [with_available blocks gc_enabled available]; [exact L|exact B|exact G|lia]. Qed.

(** The loop ends: an element takes a word of the free space. *)
Lemma list_elements_safe fuel : forall T h list, typed T h -> typed_object T list -> Z.max 0 (available h) < Z.of_nat fuel ->
  list_elements fuel list h = Exception \/
  exists xs last, list_elements fuel list h = Return ((xs, last), with_available h (available h - zlength xs)) /\
    Forall (typed_object T) xs /\ (zlength xs = 0 \/ zlength xs <= available h).
Proof.
  induction fuel as [|fuel IH]; intros T h list H To F; cbn [list_elements]; destruct (PAIR_P list) eqn:P;
    try (right; exists [], list; cbn [length]; rewrite Z.sub_0_r; split; [destruct h; reflexivity|]; split; [constructor|now left]).
  - exfalso. lia.
  - destruct (gc_check_cases T h 0 H) as [E|[Av E]]; [left; unfold andthen at 1; now rewrite E|].
    assert (0 < available h).
    { unfold Primitive_GC_If_Needed, GC_NEEDED_P, HEAP_AVAILABLE_P in E. rewrite (typed_gc _ _ H), andb_true_r in E.
      destruct (Z.ltb_spec 0 (available h)); [assumption|]. cbn [andb negb] in E. discriminate. }
    rewrite (andthen_return _ _ _ _ _ E). destruct (selects_pair T list To P) as (t & b & -> & N).
    destruct (typed_word T h b 2 0 H N ltac:(lia)) as (x & Cx & Tx).
    rewrite (andthen_return _ _ h x h) by (now apply MEMORY_REF_ok). erewrite andthen_return by reflexivity.
    fold (with_available h (available h - 1)). set (h1 := with_available h (available h - 1)).
    assert (H1 : typed T h1) by (apply typed_with_available; [exact H|lia]).
    destruct (typed_word T h1 b 2 1 H1 N ltac:(lia)) as (y & Cy & Ty).
    rewrite (andthen_return _ _ h1 y h1) by (now apply MEMORY_REF_ok).
    destruct (IH T h1 y H1 Ty) as [Ex|(xs & last & Ex & Fx & Lx)]; [unfold h1; cbn [with_available available]; lia|left; unfold andthen at 1; now rewrite Ex|].
    right. exists (x :: xs), last. erewrite andthen_return by exact Ex. unfold ret, h1, with_available in *. cbn [length blocks available gc_enabled gc_space_needed non_object obarray] in *.
    replace (available h - 1 - zlength xs) with (available h - Z.of_nat (S (length xs))) by lia. split; [reflexivity|]. split; [now constructor|right; lia].
Qed.

Lemma list_to_vector_safe T h type n list : typed T h -> typed_object T list -> type = TC_VECTOR -> safe typed_object T (list_to_vector type n list h).
Proof.
  intros H To ->. unfold list_to_vector. erewrite pthen_return by (apply run_operation_ok; reflexivity). fold (with_available h (available h - 1)).
  set (h1 := with_available h (available h - 1)). assert (H1 : typed T h1) by (apply typed_with_available; [exact H|lia]).
  destruct (list_elements_safe (list_fuel h1) T h1 list H1 To) as [E|(xs & last & E & F & L)]; [unfold list_fuel; lia|left; unfold pthen, run_operation; now rewrite E|].
  assert (E' : run_operation (fun h => list_elements (list_fuel h) list h) h1 = Return (inl (xs, last), with_available h1 (available h1 - zlength xs)))
    by (unfold run_operation; now rewrite E).
  rewrite (pthen_return _ _ _ _ _ E'). set (h2 := with_available h1 _).
  assert (H2 : typed T h2) by (apply typed_with_available; [exact H1|lia]).
  apply unless_safe; [exact H2|]. intros _. right. eexists. eexists. exists (T ++ [Vector (length xs)]). split; [reflexivity|].
  split; [apply extends_app|]. pose proof (typed_available _ _ H1).
  assert (K : typed (T ++ [Vector (length xs)]) (with_new_blocks h2 [MAKE_OBJECT TC_MANIFEST_VECTOR (zlength xs) :: xs] 0)).
  { apply typed_append; [exact H2|reflexivity|lia|]. intros i l words Nl Nb. destruct i as [|i]; [|destruct i; discriminate].
    injection Nl as <-. injection Nb as <-. exists xs. split; [reflexivity|]. split; [reflexivity|]. split; [lia|].
    apply (typed_objects_extend T); auto with typing. }
  split; [revert K; unfold with_new_blocks; now rewrite Z.sub_0_r|]. split; [split; vm_compute; congruence|].
  exists (Vector (length xs)). split; [|cbn; now eexists]. rewrite <- (typed_length _ _ H2), nth_error_app2, Nat.sub_diag by lia. reflexivity.
Qed.

(** ** Filling *)

Lemma fill_loop_safe len : forall T h b n i x, typed T h -> nth_error T b = Some (Vector n) -> typed_object T x -> 0 < i -> i + Z.of_nat len <= Z.of_nat n + 1 ->
  safe_operation (fun _ _ => True) T (fill_loop len (b, i) x h).
Proof.
  induction len as [|len IH]; intros T h b n i x H N Tx Hi L; cbn [fill_loop]; [now apply safe_ret|].
  destruct (typed_element T h b n (Z.to_nat (i - 1)) H N ltac:(lia)) as (old & C & _). replace (S (Z.to_nat (i - 1))) with (Z.to_nat i) in C by lia.
  erewrite andthen_return.
  2: { unfold store_at. cbn [fst snd]. destruct (Z.ltb_spec i 0); [lia|]. apply store_ok with old. exact C. }
  unfold move. cbn [fst snd].
  apply IH with n; [apply (typed_stored T h b (Vector n)); auto; lia|exact N|exact Tx|lia|lia].
Qed.

Lemma vector_fill_safe T h v s e x : typed T h -> typed_object T v -> typed_object T s -> typed_object T e -> typed_object T x ->
  safe typed_object T (Prim_vector_fill v s e x h).
Proof.
  intros H Tv Ts Te Tx. unfold Prim_vector_fill. apply ARG_safe; [exact H|]. intros Pv. destruct (selects_vector_p T v Tv Pv) as (t & b & n & -> & N).
  eapply safe_pthen; [now apply with_integer_safe with (1 := arg_nonnegative_decodes 2)|]. intros start h1 T1 E1 H1 R1. cbv beta in R1.
  eapply safe_pthen; [apply with_integer_safe with (1 := arg_nonnegative_decodes 3); [exact H1|now apply typed_object_extends with T]|].
  intros end_index h2 T2 E2 H2 R2. cbv beta in R2. assert (N2 : nth_error T2 b = Some (Vector n)) by now apply E2, E1.
  rewrite (pthen_return _ _ _ _ _ (run_operation_ok _ _ _ _ (vector_length_ok T2 h2 t b n H2 N2))).
  pose proof (typed_vector_range T2 h2 b n H2 N2). rewrite to_long_small, !Z.gtb_ltb by lia.
  apply unless_safe; [exact H2|]. intros C1. apply unless_safe; [exact H2|]. intros C2. apply negb_true_iff in C1, C2. apply Z.ltb_ge in C1, C2.
  erewrite pthen_return by (apply run_operation_ok; reflexivity). eapply safe_pthen.
  - apply safe_run, (fill_loop_safe _ T2 h2 b n (start + 1) x H2 N2); [|lia|lia]. apply typed_object_extends with T; [now apply typing_extends_trans with T1|exact Tx].
  - intros _ h3 T3 _ H3 _. apply safe_return; auto with typing.
Qed.
