(* ===== verification/HeapCalls.v ===== *)
(** * Calls of the primitives on objects

    The table of the primitives of list.c, hunk.c, vector.c and prim.c that the
    typing of HeapTypes.v covers, how the interpreter applies one of them, and
    that a program of such calls never reads or writes outside the objects of
    the heap. *)

From Stdlib Require Import ZArith List Bool String Lia.
From S2P Require Import Prelude Bytes Object Bignum BignumBits Integer IntPrim Heap HeapPrim Intern ListPrim VectorPrim HeapTypes.
Import ListNotations.

#[local] Open Scope Z_scope.
#[local] Open Scope procedure_scope.
#[local] Open Scope list_scope.

(** ** The primitives *)

(** A primitive by its arity; [lexpr] takes any number of arguments. *)
Inductive primitive_code : Type :=
| lexpr (f : list object -> procedure object)
| subr_1 (f : object -> procedure object)
| subr_2 (f : object -> object -> procedure object)
| subr_3 (f : object -> object -> object -> procedure object)
| subr_4 (f : object -> object -> object -> object -> procedure object).

(** The names are those of [DEFINE_PRIMITIVE]. *)
Definition heap_primitives : list (string * primitive_code) :=
  [ ("EQ?", subr_2 Prim_eq); ("NOT", subr_1 Prim_not); ("NULL?", subr_1 Prim_null_p);
    ("MAKE-CELL", subr_1 Prim_make_cell); ("CELL?", subr_1 Prim_cell_p);
    ("CELL-CONTENTS", subr_1 Prim_cell_contents); ("SET-CELL-CONTENTS!", subr_2 Prim_set_cell_contents);
    ("pair?", subr_1 Prim_pair); ("cons", subr_2 Prim_cons); ("car", subr_1 Prim_car); ("cdr", subr_1 Prim_cdr);
    ("set-car!", subr_2 Prim_set_car); ("set-cdr!", subr_2 Prim_set_cdr); ("general-car-cdr", subr_2 Prim_general_car_cdr);
    ("system-pair?", subr_1 Prim_sys_pair); ("system-pair-cons", subr_3 Prim_sys_pair_cons);
    ("system-pair-car", subr_1 Prim_sys_pair_car); ("system-pair-cdr", subr_1 Prim_sys_pair_cdr);
    ("system-pair-set-car!", subr_2 Prim_sys_set_car); ("system-pair-set-cdr!", subr_2 Prim_sys_set_cdr);
    ("%tagged-object?", subr_1 Prim_tagged_object_p); ("%make-tagged-object", subr_2 Prim_make_tagged_object);
    ("%tagged-object-tag", subr_1 Prim_tagged_object_tag); ("%tagged-object-datum", subr_1 Prim_tagged_object_datum);
    ("weak-pair?", subr_1 Prim_weak_pair_p); ("weak-cons", subr_2 Prim_weak_cons);
    ("weak-car", subr_1 Prim_weak_car); ("weak-cdr", subr_1 Prim_weak_cdr);
    ("weak-set-car!", subr_2 Prim_weak_set_car); ("weak-set-cdr!", subr_2 Prim_weak_set_cdr);
    ("HUNK3-CONS", subr_3 Prim_hunk3_cons); ("HUNK3-CXR", subr_2 Prim_hunk3_cxr); ("HUNK3-SET-CXR!", subr_3 Prim_hunk3_set_cxr);
    ("SYSTEM-HUNK3-CXR0", subr_1 Prim_sys_h3_0); ("SYSTEM-HUNK3-CXR1", subr_1 Prim_sys_h3_1); ("SYSTEM-HUNK3-CXR2", subr_1 Prim_sys_h3_2);
    ("SYSTEM-HUNK3-SET-CXR0!", subr_2 Prim_sh3_set_0); ("SYSTEM-HUNK3-SET-CXR1!", subr_2 Prim_sh3_set_1); ("SYSTEM-HUNK3-SET-CXR2!", subr_2 Prim_sh3_set_2);
    ("VECTOR-CONS", subr_2 Prim_vector_cons); ("VECTOR", lexpr Prim_vector); ("%MAKE-RECORD", subr_2 Prim_make_record); ("%RECORD", lexpr Prim_record);
    ("VECTOR?", subr_1 Prim_vector_p); ("%RECORD?", subr_1 Prim_record_p); ("SYSTEM-VECTOR?", subr_1 Prim_sys_vector);
    ("VECTOR-LENGTH", subr_1 Prim_vector_length); ("%RECORD-LENGTH", subr_1 Prim_record_length);
    ("VECTOR-REF", subr_2 Prim_vector_ref); ("%RECORD-REF", subr_2 Prim_record_ref);
    ("VECTOR-SET!", subr_3 Prim_vector_set); ("%RECORD-SET!", subr_3 Prim_record_set);
    ("SUBVECTOR->LIST", subr_3 Prim_subvector_to_list); ("LIST->VECTOR", subr_1 Prim_list_to_vector);
    ("SUBVECTOR-FILL!", subr_4 Prim_vector_fill) ]%string.

(** The check of the number of arguments and the call. *)
Definition apply_primitive (f : primitive_code) (arguments : list object) : procedure object :=
  match f, arguments with
  | lexpr f, os => f os
  | subr_1 f, [a] => f a
  | subr_2 f, [a; b] => f a b
  | subr_3 f, [a; b; c] => f a b c
  | subr_4 f, [a; b; c; d] => f a b c d
  | _, _ => signal_error_from_primitive ERR_WRONG_NUMBER_OF_ARGUMENTS
  end.

(** ** Programs *)

Definition ERR_UNIMPLEMENTED_PRIMITIVE : Z := 0x33.

Inductive operand : Type :=
| Constant (w : Z)
| Result (i : nat).

Record call : Type := Call { callee : string; operands : list operand }.

(** The results of the earlier calls, the last one first. *)
Definition operand_value (results : list object) (x : operand) : object :=
  match x with Constant w => Immediate w | Result i => nth i results SHARP_F end.

Definition find_primitive (name : string) : option primitive_code :=
  option_map snd (find (fun p => String.eqb (fst p) name) heap_primitives).

Definition run_call (results : list object) (c : call) : procedure object :=
  match find_primitive (callee c) with
  | Some f => apply_primitive f (map (operand_value results) (operands c))
  | None => signal_error_from_primitive ERR_UNIMPLEMENTED_PRIMITIVE
  end.

Fixpoint run_calls (calls : list call) (results : list object) : procedure (list object) :=
  match calls with
  | [] => PRIMITIVE_RETURN results
  | c :: calls => result <- run_call results c ;; run_calls calls (result :: results)
  end.

(** The constants of a program are objects that are no pointers. *)
Definition constant_p (w : Z) : Prop := ulong_p w /\ pointer_type (gc_type_code (Object.OBJECT_TYPE w)) = false.
Definition well_formed_call (c : call) : Prop := forall w, In (Constant w) (operands c) -> constant_p w.

(** ** Each primitive keeps the types *)

Definition code_safe (f : primitive_code) : Prop :=
  forall T h arguments, typed T h -> Forall (typed_object T) arguments -> safe typed_object T (apply_primitive f arguments h).

Lemma lexpr_safe f : (forall T h os, typed T h -> Forall (typed_object T) os -> safe typed_object T (f os h)) -> code_safe (lexpr f).
Proof. intros K T h os. apply K. Qed.

Lemma subr_1_safe f : (forall T h a, typed T h -> typed_object T a -> safe typed_object T (f a h)) -> code_safe (subr_1 f).
Proof. intros K T h [|a [|b os]] H F; try now apply safe_signal. apply K; [exact H|]. now inversion_clear F. Qed.

Lemma subr_2_safe f : (forall T h a b, typed T h -> typed_object T a -> typed_object T b -> safe typed_object T (f a b h)) -> code_safe (subr_2 f).
Proof.
  intros K T h [|a [|b [|c os]]] H F; try now apply safe_signal. inversion_clear F as [|x l A F1]. inversion_clear F1. now apply K.
Qed.

Lemma subr_3_safe f : (forall T h a b c, typed T h -> typed_object T a -> typed_object T b -> typed_object T c -> safe typed_object T (f a b c h)) ->
  code_safe (subr_3 f).
Proof.
  intros K T h [|a [|b [|c [|d os]]]] H F; try now apply safe_signal. inversion_clear F as [|x l A F1]. inversion_clear F1 as [|x l B F2].
  inversion_clear F2. now apply K.
Qed.

Lemma subr_4_safe f : (forall T h a b c d, typed T h -> typed_object T a -> typed_object T b -> typed_object T c -> typed_object T d ->
  safe typed_object T (f a b c d h)) -> code_safe (subr_4 f).
Proof.
  intros K T h [|a [|b [|c [|d [|e os]]]]] H F; try now apply safe_signal. inversion_clear F as [|x l A F1]. inversion_clear F1 as [|x l B F2].
  inversion_clear F2 as [|x l C F3]. inversion_clear F3. now apply K.
Qed.

Lemma predicate_safe p : code_safe (subr_1 (fun o => PRIMITIVE_RETURN (BOOLEAN_TO_OBJECT (p o)))).
Proof. apply subr_1_safe. intros T h a H _. apply safe_return; auto with typing. Qed.

Lemma ref_code_safe p n i : selects p n -> (i < n)%nat -> code_safe (subr_1 (ref_primitive p i)).
Proof. intros S I. apply subr_1_safe. intros T h a H A. now apply ref_primitive_safe with n. Qed.

Lemma set_code_safe p n i : selects p n -> (i < n)%nat -> code_safe (subr_2 (set_primitive p i)).
Proof. intros S I. apply subr_2_safe. intros T h a b H A B. now apply set_primitive_safe with n. Qed.

Lemma construct_1_safe type : 0 <= type < N_TYPE_CODES -> layout_of type (Words 1) -> code_safe (subr_1 (fun a => run_operation (new_object type [a]))).
Proof. intros R L. apply subr_1_safe. intros T h a H A. apply safe_run, new_object_safe; auto. Qed.

Lemma construct_2_safe type : 0 <= type < N_TYPE_CODES -> layout_of type (Words 2) -> code_safe (subr_2 (fun a b => run_operation (new_object type [a; b]))).
Proof. intros R L. apply subr_2_safe. intros T h a b H A B. apply safe_run, new_object_safe; auto. Qed.

Lemma construct_3_safe type : 0 <= type < N_TYPE_CODES -> layout_of type (Words 3) -> code_safe (subr_3 (fun a b c => run_operation (new_object type [a; b; c]))).
Proof. intros R L. apply subr_3_safe. intros T h a b c H A B C. apply safe_run, new_object_safe; auto. Qed.


Lemma eq_safe : code_safe (subr_2 Prim_eq).
Proof. apply subr_2_safe. intros T h a b H _ _. apply safe_return; auto with typing. Qed.

Lemma cell_contents_safe : code_safe (subr_1 Prim_cell_contents).
Proof.
  apply subr_1_safe. intros T h o H To. unfold Prim_cell_contents. change (CELL_ARG 1 o) with (ARG CELL_P 1 o). apply ARG_safe; [exact H|]. intros E.
  destruct (selects_cell T o To E) as (t & b & -> & N). apply safe_run. now apply memory_ref_safe with 1%nat; auto.
Qed.

Lemma set_cell_contents_safe : code_safe (subr_2 Prim_set_cell_contents).
Proof.
  apply subr_2_safe. intros T h o v H To Tv. unfold Prim_set_cell_contents. change (CELL_ARG 1 o) with (ARG CELL_P 1 o). apply ARG_safe; [exact H|]. intros E.
  destruct (selects_cell T o To E) as (t & b & -> & N). destruct (typed_word T h b 1 0 H N ltac:(lia)) as (old & C & _).
  eapply safe_pthen; [apply safe_run; now apply (memory_set_safe T h t b (Words 1) 0 v old); auto|].
  intros _ h' T' _ H' _. apply safe_return; auto with typing.
Qed.

Lemma list_to_vector_code_safe : code_safe (subr_1 Prim_list_to_vector).
Proof. apply subr_1_safe. intros T h o H To. now apply list_to_vector_safe. Qed.

(** The arguments of a constructor: the type code is one of the map, and its
    objects have as many words as are stored. *)
Ltac code_safe_step :=
  first
    [ exact eq_safe | exact cell_contents_safe | exact set_cell_contents_safe | exact list_to_vector_code_safe
    | apply predicate_safe
    | eapply ref_code_safe; [solve [eauto with typing]|lia]
    | eapply set_code_safe; [solve [eauto with typing]|lia]
    | apply construct_1_safe; [split; vm_compute; congruence|reflexivity]
    | apply construct_2_safe; [split; vm_compute; congruence|reflexivity]
    | apply construct_3_safe; [split; vm_compute; congruence|reflexivity]
    | apply subr_2_safe; intros; solve [apply general_car_cdr_safe; assumption | apply hunk3_cxr_safe; assumption
        | apply vector_cons_safe; assumption | apply make_record_safe; assumption | apply ref_vector_safe; auto with typing]
    | apply subr_3_safe; intros; solve [apply system_pair_cons_safe; assumption | apply hunk3_set_cxr_safe; assumption
        | apply set_vector_safe; auto with typing | apply subvector_list_primitive_safe; auto with typing]
    | apply subr_1_safe; intros; apply length_primitive_safe; auto with typing
    | apply subr_4_safe; intros; apply vector_fill_safe; assumption
    | apply lexpr_safe; intros; solve [apply vector_of_arguments_safe; auto | apply record_safe; assumption] ].

Lemma heap_primitives_safe : Forall (fun p => code_safe (snd p)) heap_primitives.
Proof. unfold heap_primitives. repeat (apply Forall_cons; [cbn [snd]; code_safe_step|]). apply Forall_nil. Qed.

Lemma find_primitive_safe name f : find_primitive name = Some f -> code_safe f.
Proof.
  unfold find_primitive. destruct (find _ heap_primitives) as [[s g]|] eqn:E; [|discriminate]. intros [= <-].
  apply find_some in E. exact (proj1 (Forall_forall _ _) heap_primitives_safe (s, g) (proj1 E)).
Qed.

Lemma typed_operand T results x : Forall (typed_object T) results -> (forall w, x = Constant w -> constant_p w) -> typed_object T (operand_value results x).
Proof.
  intros F K. destruct x as [w|i]; cbn [operand_value]; [now apply K|]. destruct (nth_in_or_default i results SHARP_F) as [I| ->].
  - exact (proj1 (Forall_forall _ _) F _ I).
  - split; [split; vm_compute; congruence|reflexivity].
Qed.

Lemma run_call_safe T h results c : typed T h -> Forall (typed_object T) results -> well_formed_call c -> safe typed_object T (run_call results c h).
Proof.
  intros H F W. unfold run_call. destruct (find_primitive (callee c)) as [f|] eqn:E; [|now apply safe_signal].
  apply (find_primitive_safe _ _ E); [exact H|]. apply Forall_map, Forall_forall. intros x I. apply typed_operand; [exact F|]. intros w ->. now apply W.
Qed.

Lemma run_calls_safe calls : forall T h results, typed T h -> Forall (typed_object T) results -> Forall well_formed_call calls ->
  safe (fun T' rs => Forall (typed_object T') rs) T (run_calls calls results h).
Proof.
  induction calls as [|c calls IH]; intros T h results H F W; cbn [run_calls]; [now apply safe_return|].
  apply Forall_cons_iff in W. destruct W as [Wc W]. eapply safe_pthen; [now apply run_call_safe|].
  intros o h' T' E H' To. apply IH; [exact H'| |exact W]. constructor; [exact To|]. now apply typed_objects_extend with T.
Qed.

(** The check of a program. *)
Definition operand_b (x : operand) : bool :=
  match x with
  | Constant w => (0 <=? w) && (w <? 2 ^ 64) && negb (pointer_type (gc_type_code (Object.OBJECT_TYPE w)))
  | Result _ => true
  end.

Lemma calls_well_formed calls : forallb (fun c => forallb operand_b (operands c)) calls = true -> Forall well_formed_call calls.
Proof.
  intros E. apply Forall_forall. intros c I w J. rewrite forallb_forall in E. specialize (E c I). rewrite forallb_forall in E. specialize (E _ J).
  cbn [operand_b] in E. apply andb_true_iff in E. destruct E as [E P%negb_true_iff]. split; [unfold ulong_p; lia|exact P].
Qed.

(** ** A typed heap: a pair, a vector of two elements and the bignum [2 ^ 64] *)

Definition sample_typing : typing := [Words 2; Vector 2; Number (2 ^ 64)].

Definition sample_heap : heap :=
  Heap [ [Immediate (Object.LONG_TO_FIXNUM 5); Pointer TC_VECTOR 1];
         [vector_header 2; Pointer TC_LIST 0; Pointer TC_BIG_FIXNUM 2];
         map Immediate [Object.MAKE_OBJECT TC_MANIFEST_NM_VECTOR 3; BIGNUM_SET_HEADER 2 false; 0; 4] ]
       1000 true None SHARP_F SHARP_F.

Lemma sample_number : number_words (map Immediate [Object.MAKE_OBJECT TC_MANIFEST_NM_VECTOR 3; BIGNUM_SET_HEADER 2 false; 0; 4]) (2 ^ 64).
Proof.
  split; [apply moderate_pow; pose proof moderate_digits_eq; apply Z.lt_le_trans with (2 ^ 65); [vm_compute; reflexivity|apply Z.pow_le_mono_r; unfold moderate_bits; lia]|]. exists (Bignum false [0; 4]). split.
  - split; [|reflexivity]. constructor; cbn [digits negative_p]; [|discriminate|discriminate|vm_compute; congruence].
    repeat constructor; vm_compute; congruence.
  - intros h c B. unfold integer_argument. rewrite B. reflexivity.
Qed.

Lemma sample_typed : typed sample_typing sample_heap.
Proof.
  assert (P : forall t b l, 0 <= t < N_TYPE_CODES -> nth_error sample_typing b = Some l -> layout_of t l -> typed_object sample_typing (Pointer t b))
    by (intros t b l R N L; split; [exact R|]; now exists l).
  assert (R : forall t, (0 <=? t) && (t <? N_TYPE_CODES) = true -> 0 <= t < N_TYPE_CODES) by (intros t E; lia).
  constructor; [reflexivity| |reflexivity|reflexivity]. intros b l words N B.
  destruct b as [|[|[|b]]]; [| | |destruct b; discriminate]; injection N as <-; injection B as <-; cbn [typed_block].
  - split; [reflexivity|]. constructor; [apply typed_fixnum|]. constructor; [|constructor].
    apply (P TC_VECTOR _ (Vector 2)); [now apply R|reflexivity|cbn; now exists 2%nat].
  - eexists. split; [reflexivity|]. split; [reflexivity|]. split; [reflexivity|]. constructor; [|constructor; [|constructor]].
    + apply (P TC_LIST _ (Words 2)); [now apply R|reflexivity|reflexivity].
    + apply (P TC_BIG_FIXNUM _ (Number (2 ^ 64))); [now apply R|reflexivity|cbn; now exists (2 ^ 64)].
  - exact sample_number.
Qed.

(** ** Properties *)


