(* ===== verification/ListVector.v ===== *)
(** * What the primitives on lists and vectors compute

    SUBVECTOR-MOVE-LEFT! and SUBVECTOR-MOVE-RIGHT! replace a part of a vector,
    SUBVECTOR->LIST and LIST->VECTOR are inverse, and general-car-cdr follows
    the path that its argument encodes. *)

From Stdlib Require Import ZArith List Bool Lia.
From S2P Require Import Prelude Bytes Object Bignum BignumBits Integer IntPrim Heap HeapPrim ListPrim VectorPrim HeapTypes.
Import ListNotations.

#[local] Open Scope Z_scope.
#[local] Open Scope procedure_scope.

(** ** Replacing a part of a list *)

Definition splice {A} (i : nat) (ws l : list A) : list A := firstn i l ++ ws ++ skipn (i + length ws) l.

Lemma nth_error_splice {A} i (ws l : list A) j : (i + length ws <= length l)%nat ->
  nth_error (splice i ws l) j = if ((i <=? j) && (j <? i + length ws))%nat then nth_error ws (j - i) else nth_error l j.
Proof.
  intros L. unfold splice. destruct (Nat.lt_ge_cases j i) as [G|G].
  - rewrite nth_error_app1 by (rewrite length_firstn; lia). rewrite nth_error_firstn.
    destruct (Nat.ltb_spec j i), (Nat.leb_spec i j); try lia. reflexivity.
  - rewrite nth_error_app2, length_firstn, Nat.min_l by (rewrite ?length_firstn; lia). destruct (Nat.leb_spec i j); [|lia]. cbn [andb].
    destruct (Nat.ltb_spec j (i + length ws)); [now rewrite nth_error_app1 by lia|].
    rewrite nth_error_app2, nth_error_skipn by lia. f_equal. lia.
Qed.

Lemma length_splice {A} i (ws l : list A) : (i + length ws <= length l)%nat -> length (splice i ws l) = length l.
Proof. intros L. unfold splice. rewrite !length_app, length_firstn, length_skipn. lia. Qed.

Lemma splice_nil {A} i (l : list A) : splice i [] l = l.
Proof. unfold splice. cbn [app length]. rewrite Nat.add_0_r. apply firstn_skipn. Qed.

Lemma nth_error_updated {A} n m (x : A) l : nth_error (update n x l) m = if (Nat.eqb n m && (n <? length l)%nat)%bool then Some x else nth_error l m.
Proof.
  destruct (Nat.ltb_spec n (length l)) as [L|G]; [rewrite andb_true_r; now apply nth_error_update|]. rewrite andb_false_r.
  destruct (Nat.eqb_spec n m) as [<-|Ne]; [|now apply nth_error_update_ne].
  rewrite (proj2 (nth_error_None _ _)) by (rewrite length_update; lia). symmetry. now apply nth_error_None.
Qed.

(** Extensional equality of the lists that the loops make. *)
Ltac by_index := apply nth_error_ext; intros j; rewrite ?nth_error_splice, ?nth_error_updated, ?length_update by (rewrite ?length_update, ?length_app in *; cbn [length] in *; lia).

Lemma splice_cons {A} i w (ws l : list A) : (i + length (w :: ws) <= length l)%nat -> splice i (w :: ws) l = splice (S i) ws (update i w l).
Proof.
  intros L. cbn [length] in L. by_index. cbn [length].
  destruct (Nat.leb_spec i j), (Nat.ltb_spec j (i + S (length ws))), (Nat.leb_spec (S i) j), (Nat.ltb_spec j (S i + length ws)), (Nat.eqb_spec i j),
    (Nat.ltb_spec i (length l)); cbn [andb]; try lia; try reflexivity.
  - replace (j - i)%nat with (S (j - S i)) by lia. reflexivity.
  - subst j. now rewrite Nat.sub_diag.
Qed.

Lemma splice_snoc {A} i w (ws l : list A) : (i + length (ws ++ [w]) <= length l)%nat -> splice i (ws ++ [w]) l = splice i ws (update (i + length ws) w l).
Proof.
  intros L. rewrite length_app in L. cbn [length] in L. by_index. rewrite length_app. cbn [length].
  destruct (Nat.leb_spec i j), (Nat.ltb_spec j (i + (length ws + 1))), (Nat.ltb_spec j (i + length ws)), (Nat.eqb_spec (i + length ws) j),
    (Nat.ltb_spec (i + length ws) (length l)); cbn [andb]; try lia; try reflexivity.
  - now rewrite nth_error_app1 by lia.
  - rewrite nth_error_app2 by lia. now replace (j - i - length ws)%nat with 0%nat by lia.
Qed.

Lemma update_twice {A} n (x y : A) l : update n x (update n y l) = update n x l.
Proof. revert n. induction l as [|z l IH]; intros [|n]; cbn [update]; try reflexivity. now rewrite IH. Qed.

Lemma update_same {A} n (x : A) l : nth_error l n = Some x -> update n x l = l.
Proof. revert n. induction l as [|z l IH]; intros [|n] E; cbn [update]; try discriminate; [now injection E as <-|]. now rewrite IH. Qed.

(** ** Writing words to a block *)

Definition written (h : heap) (b i : nat) (ws : list object) : heap :=
  match block_of h b with
  | Some old => with_blocks h (update b (splice i ws old) (blocks h))
  | None => h
  end.

Lemma with_blocks_same h : with_blocks h (blocks h) = h.
Proof. now destruct h. Qed.

Lemma written_nil h b i : written h b i [] = h.
Proof.
  unfold written. destruct (block_of h b) as [old|] eqn:B; [|reflexivity]. rewrite splice_nil, update_same by exact B. apply with_blocks_same.
Qed.

Lemma written_stored h b i w ws j vs old : block_of h b = Some old -> splice i (w :: ws) old = splice j vs (update i w old) ->
  written h b i (w :: ws) = written (stored h (b, i) w) b j vs.
Proof.
  intros B E. unfold written. rewrite block_stored, Nat.eqb_refl, B. cbn [option_map]. rewrite E. unfold stored. cbn [fst snd]. rewrite B.
  unfold with_blocks. cbn [blocks available gc_enabled gc_space_needed non_object obarray]. now rewrite update_twice.
Qed.

Lemma written_snoc h b i w ws old : block_of h b = Some old -> (i + length (ws ++ [w]) <= length old)%nat ->
  written h b i (ws ++ [w]) = written (stored h (b, i + length ws)%nat w) b i ws.
Proof.
  intros B L. unfold written. rewrite block_stored, Nat.eqb_refl, B. cbn [option_map]. rewrite splice_snoc by exact L. unfold stored. cbn [fst snd].
  rewrite B. unfold with_blocks. cbn [blocks available gc_enabled gc_space_needed non_object obarray]. now rewrite update_twice.
Qed.

Lemma block_written h b i ws c : block_of (written h b i ws) c = if Nat.eqb b c then option_map (splice i ws) (block_of h c) else block_of h c.
Proof.
  unfold written. destruct (block_of h b) as [old|] eqn:B.
  - unfold block_of in *. unfold with_blocks. cbn [blocks]. rewrite nth_error_updated.
    destruct (Nat.eqb_spec b c) as [<-|Ne]; [|reflexivity]. assert (b < length (blocks h))%nat by (apply nth_error_Some; congruence).
    destruct (Nat.ltb_spec b (length (blocks h))); [|lia]. cbn [andb]. now rewrite B.
  - destruct (Nat.eqb_spec b c) as [<-|]; [now rewrite B|reflexivity].
Qed.

(** ** The two loops *)

(** The words [ws] are those of block [b] from [i] on. *)
Definition words_at (h : heap) (b i : nat) (ws : list object) : Prop := forall k x, nth_error ws k = Some x -> content h (b, i + k)%nat = Some x.

Lemma words_at_stored h b i ws a x : words_at h b i ws -> (forall k, (k < length ws)%nat -> (b, i + k)%nat <> a) -> words_at (stored h a x) b i ws.
Proof. intros W N k y E. rewrite content_stored_ne; [now apply W|]. apply N. apply nth_error_Some. congruence. Qed.

Lemma load_at_ok h b i x : content h (b, i) = Some x -> load_at (b, Z.of_nat i) h = Return (x, h).
Proof. intros C. unfold load_at. cbn [fst snd]. destruct (Z.ltb_spec (Z.of_nat i) 0); [lia|]. rewrite Nat2Z.id. now apply load_ok. Qed.

Lemma store_at_ok h b i x words : block_of h b = Some words -> (i < length words)%nat -> store_at (b, Z.of_nat i) x h = Return (tt, stored h (b, i) x).
Proof.
  intros B L. unfold store_at. cbn [fst snd]. destruct (Z.ltb_spec (Z.of_nat i) 0); [lia|]. rewrite Nat2Z.id.
  destruct (nth_error words i) as [old|] eqn:E; [|apply nth_error_None in E; lia]. apply store_ok with old. unfold content. cbn [fst snd]. now rewrite B.
Qed.

Lemma move_left_loop_ok ws : forall h b1 i1 b2 i2 old, b1 <> b2 \/ (i2 <= i1)%nat -> words_at h b1 i1 ws ->
  block_of h b2 = Some old -> (i2 + length ws <= length old)%nat ->
  move_left_loop (length ws) (b1, Z.of_nat i1) (b2, Z.of_nat i2) h = Return (tt, written h b2 i2 ws).
Proof.
  induction ws as [|w ws IH]; intros h b1 i1 b2 i2 old D W B L; cbn [length move_left_loop]; [now rewrite written_nil|].
  rewrite (andthen_return _ _ h w h) by (apply load_at_ok; rewrite <- (Nat.add_0_r i1); now apply W).
  rewrite (andthen_return _ _ h tt (stored h (b2, i2) w)) by (apply store_at_ok with old; [exact B|cbn [length] in L; lia]).
  unfold move. cbn [fst snd]. replace (Z.of_nat i1 + 1) with (Z.of_nat (S i1)) by lia. replace (Z.of_nat i2 + 1) with (Z.of_nat (S i2)) by lia.
  rewrite (IH _ b1 (S i1) b2 (S i2) (update i2 w old)).
  - now rewrite (written_stored h b2 i2 w ws (S i2) ws old B (splice_cons i2 w ws old L)).
  - lia.
  - apply words_at_stored; [|intros k Hk [= -> ?]; lia]. intros k x E. replace (S i1 + k)%nat with (i1 + S k)%nat by lia. now apply W.
  - now rewrite block_stored, Nat.eqb_refl, B.
  - rewrite length_update. cbn [length] in L. lia.
Qed.

Lemma move_right_loop_ok ws : forall h b1 i1 b2 i2 old, b1 <> b2 \/ (i1 <= i2)%nat -> words_at h b1 i1 ws ->
  block_of h b2 = Some old -> (i2 + length ws <= length old)%nat ->
  move_right_loop (length ws) (b1, Z.of_nat (i1 + length ws)) (b2, Z.of_nat (i2 + length ws)) h = Return (tt, written h b2 i2 ws).
Proof.
  induction ws as [|w ws IH] using rev_ind; intros h b1 i1 b2 i2 old D W B L; [cbn [length move_right_loop]; now rewrite written_nil|].
  rewrite length_app in *. cbn [length] in *. rewrite Nat.add_1_r. cbn [move_right_loop].
  unfold move. cbn [fst snd]. replace (Z.of_nat (i1 + S (length ws)) + -1) with (Z.of_nat (i1 + length ws)) by lia.
  replace (Z.of_nat (i2 + S (length ws)) + -1) with (Z.of_nat (i2 + length ws)) by lia.
  rewrite (andthen_return _ _ h w h) by (apply load_at_ok, W; rewrite nth_error_app2, Nat.sub_diag by lia; reflexivity).
  rewrite (andthen_return _ _ h tt (stored h (b2, i2 + length ws)%nat w)) by (apply store_at_ok with old; [exact B|lia]).
  rewrite (IH _ b1 i1 b2 i2 (update (i2 + length ws) w old)).
  - rewrite (written_snoc h b2 i2 w ws old B); [reflexivity|]. rewrite length_app. cbn [length]. lia.
  - exact D.
  - apply words_at_stored; [|intros k Hk [= -> ?]; lia]. intros k x E. apply W. rewrite nth_error_app1; [exact E|]. apply nth_error_Some. congruence.
  - now rewrite block_stored, Nat.eqb_refl, B.
  - rewrite length_update. lia.
Qed.

(** ** SUBVECTOR-MOVE-LEFT! and SUBVECTOR-MOVE-RIGHT! *)

Definition fixnum (z : Z) : object := Immediate (Object.LONG_TO_FIXNUM z).

Definition slice (start end_index : Z) (elements : list object) : list object :=
  firstn (Z.to_nat (end_index - start)) (skipn (Z.to_nat start) elements).

(** Block [b] is a vector of [elements]. *)
Record vector_object (h : heap) (b : nat) (elements : list object) : Prop := {
  vector_block : block_of h b = Some (vector_header (length elements) :: elements);
  vector_size : zlength elements < 2 ^ 57
}.

(** The signal that the arguments call for: they are decoded in order, then
    the ranges are checked. *)
Definition move_signal (start1 end1 length1 start2 length2 : Z) : option signal :=
  if start1 <? 0 then Some (bad_range_arg 2)
  else if end1 <? 0 then Some (bad_range_arg 3)
  else if start2 <? 0 then Some (bad_range_arg 5)
  else if length1 <? end1 then Some (bad_range_arg 3)
  else if end1 <? start1 then Some (bad_range_arg 2)
  else if length2 <? start2 + (end1 - start1) then Some (bad_range_arg 5)
  else None.

Lemma nonnegative_fixnum n h z : fixnum_range z -> arg_nonnegative_integer n (fixnum z) h = decoded (0 <=? z) n z h.
Proof.
  intros R. unfold fixnum. rewrite (arg_nonnegative_integer_ok n h _ z (fixnum_denotes h z R) (fixnum_moderate z R)) by (unfold fixnum_range, SMALLEST_FIXNUM in R; lia).
  f_equal. unfold fixnum_range, BIGGEST_FIXNUM in R. destruct (Z.ltb_spec z (2 ^ 63)); [apply andb_true_r|lia].
Qed.

Lemma vector_object_length h b es : vector_object h b es -> VECTOR_LENGTH (Pointer TC_VECTOR b) h = Return (zlength es, h).
Proof.
  intros [B L]. unfold VECTOR_LENGTH. rewrite (andthen_return _ _ h (vector_header (length es)) h) by (apply MEMORY_REF_ok; unfold content; cbn [fst snd]; now rewrite B).
  unfold vector_header, MAKE_OBJECT, pure, TC_MANIFEST_VECTOR, TC_FALSE. cbn [OBJECT_DATUM bind].
  rewrite OBJECT_DATUM_mod, MAKE_OBJECT_sum by lia. rewrite Z.mul_0_r, Z.add_0_r, Z.mod_small by lia. reflexivity.
Qed.

Section Move.

Context (h : heap) (b1 b2 : nat) (es1 es2 : list object).
Context (V1 : vector_object h b1 es1) (V2 : vector_object h b2 es2).

Lemma move_prefix_ok start1 end1 start2 : fixnum_range start1 -> fixnum_range end1 -> fixnum_range start2 ->
  SUBVECTOR_MOVE_PREFIX (Pointer TC_VECTOR b1) (fixnum start1) (fixnum end1) (Pointer TC_VECTOR b2) (fixnum start2) h =
  match move_signal start1 end1 (zlength es1) start2 (zlength es2) with
  | Some s => Return (inr s, h)
  | None => Return (inl (Pointer TC_VECTOR b1, start1, end1, Pointer TC_VECTOR b2, start2, start2 + (end1 - start1)), h)
  end.
Proof.
  intros R1 R2 R3. unfold SUBVECTOR_MOVE_PREFIX, move_signal. pose proof (vector_size _ _ _ V1). pose proof (vector_size _ _ _ V2).
  unfold fixnum_range, SMALLEST_FIXNUM, BIGGEST_FIXNUM in R1, R2, R3.
  rewrite (pthen_return (ARG VECTOR_P 1 (Pointer TC_VECTOR b1)) _ h (Pointer TC_VECTOR b1) h) by reflexivity.
  destruct (Z.ltb_spec start1 0) as [L1|L1]; [apply (decoded_false 2 start1 _ _ _ _ (nonnegative_fixnum 2 h start1 R1)); lia|].
  rewrite (decoded_true 2 start1 _ _ _ _ (nonnegative_fixnum 2 h start1 R1)) by lia.
  destruct (Z.ltb_spec end1 0) as [L2|L2]; [apply (decoded_false 3 end1 _ _ _ _ (nonnegative_fixnum 3 h end1 R2)); lia|].
  rewrite (decoded_true 3 end1 _ _ _ _ (nonnegative_fixnum 3 h end1 R2)) by lia.
  rewrite (pthen_return (ARG VECTOR_P 4 (Pointer TC_VECTOR b2)) _ h (Pointer TC_VECTOR b2) h) by reflexivity.
  destruct (Z.ltb_spec start2 0) as [L3|L3]; [apply (decoded_false 5 start2 _ _ _ _ (nonnegative_fixnum 5 h start2 R3)); lia|].
  rewrite (decoded_true 5 start2 _ _ _ _ (nonnegative_fixnum 5 h start2 R3)) by lia.
  rewrite (pthen_return _ _ h (zlength es1) h) by now apply run_operation_ok, vector_object_length.
  rewrite (to_long_small (zlength es1)), !Z.gtb_ltb by lia.
  destruct (Z.ltb_spec (zlength es1) end1); [reflexivity|]. cbn [negb]. rewrite unless_true.
  destruct (Z.ltb_spec end1 start1); [reflexivity|]. cbn [negb]. rewrite unless_true.
  rewrite (pthen_return _ _ h (zlength es2) h) by now apply run_operation_ok, vector_object_length.
  rewrite (to_long_small (zlength es2)), (to_long_small (start2 + (end1 - start1))), Z.gtb_ltb by lia.
  destruct (Z.ltb_spec (zlength es2) (start2 + (end1 - start1))); reflexivity.
Qed.

Lemma slice_words start1 end1 : 0 <= start1 <= end1 -> end1 <= zlength es1 ->
  length (slice start1 end1 es1) = Z.to_nat (end1 - start1) /\ words_at h b1 (Z.to_nat (start1 + 1)) (slice start1 end1 es1).
Proof.
  intros R L. assert (K : length (slice start1 end1 es1) = Z.to_nat (end1 - start1)) by (unfold slice; rewrite length_firstn, length_skipn; lia).
  split; [exact K|]. intros k x E. assert (k < length (slice start1 end1 es1))%nat by (apply nth_error_Some; congruence).
  unfold slice in E. rewrite nth_error_firstn in E. destruct (Nat.ltb_spec k (Z.to_nat (end1 - start1))); [|lia].
  rewrite nth_error_skipn in E. unfold content. cbn [fst snd]. rewrite (vector_block _ _ _ V1).
  replace (Z.to_nat (start1 + 1) + k)%nat with (S (Z.to_nat start1 + k)) by lia. exact E.
Qed.

(** The heap after a move: the second vector has the elements of the first, and
    no other object changed. *)
Definition moved (start1 end1 start2 : Z) (h' : heap) : Prop :=
  block_of h' b2 = Some (vector_header (length es2) :: splice (Z.to_nat start2) (slice start1 end1 es1) es2) /\
  (forall c, c <> b2 -> block_of h' c = block_of h c) /\ length (blocks h') = length (blocks h).

Lemma written_moved start1 end1 start2 : 0 <= start1 <= end1 -> end1 <= zlength es1 -> 0 <= start2 -> start2 + (end1 - start1) <= zlength es2 ->
  moved start1 end1 start2 (written h b2 (Z.to_nat (start2 + 1)) (slice start1 end1 es1)).
Proof.
  intros R L R2 L2. split; [|split].
  - rewrite block_written, Nat.eqb_refl, (vector_block _ _ _ V2). cbn [option_map]. replace (Z.to_nat (start2 + 1)) with (S (Z.to_nat start2)) by lia. reflexivity.
  - intros c Ne. rewrite block_written. destruct (Nat.eqb_spec b2 c); congruence.
  - unfold written. destruct (block_of h b2); [|reflexivity]. unfold with_blocks. cbn [blocks]. apply length_update.
Qed.

(** What the call of a move returns when [ok] says that the order of the copies
    fits the overlap. *)
Definition move_result (ok : Prop) (start1 end1 start2 : Z) (r : outcome ((object + signal) * heap)) : Prop :=
  match move_signal start1 end1 (zlength es1) start2 (zlength es2) with
  | Some s => r = Return (inr s, h)
  | None => ok -> exists h', r = Return (inl UNSPECIFIC, h') /\ moved start1 end1 start2 h'
  end.

Lemma move_signal_None start1 end1 length1 start2 length2 : move_signal start1 end1 length1 start2 length2 = None ->
  0 <= start1 <= end1 /\ end1 <= length1 /\ 0 <= start2 /\ start2 + (end1 - start1) <= length2.
Proof.
  unfold move_signal. repeat match goal with |- context [?a <? ?b] => destruct (Z.ltb_spec a b); [discriminate|] end. lia.
Qed.

Lemma move_left_ok start1 end1 start2 : fixnum_range start1 -> fixnum_range end1 -> fixnum_range start2 ->
  move_result (b1 <> b2 \/ start2 <= start1) start1 end1 start2
    (Prim_subvector_move_left (Pointer TC_VECTOR b1) (fixnum start1) (fixnum end1) (Pointer TC_VECTOR b2) (fixnum start2) h).
Proof.
  intros R1 R2 R3. pose proof (move_prefix_ok start1 end1 start2 R1 R2 R3) as P. unfold move_result, Prim_subvector_move_left.
  destruct (move_signal _ _ _ _ _) as [s|] eqn:S; [now apply pthen_signal|]. intros D.
  destruct (move_signal_None _ _ _ _ _ S) as (B1 & B2 & B3 & B4). destruct (slice_words start1 end1 B1 B2) as [L W].
  rewrite (pthen_return _ _ _ _ _ P). cbv beta iota. erewrite pthen_return by reflexivity. erewrite pthen_return by reflexivity.
  eexists. split; [|now apply written_moved]. eapply eq_trans; [eapply (pthen_return _ _ _ tt); apply run_operation_ok|reflexivity].
  replace (start1 + 1) with (Z.of_nat (Z.to_nat (start1 + 1))) by lia. replace (start2 + 1) with (Z.of_nat (Z.to_nat (start2 + 1))) at 1 by lia.
  rewrite <- L. assert (D' : b1 <> b2 \/ (Z.to_nat (start2 + 1) <= Z.to_nat (start1 + 1))%nat) by lia.
  apply move_left_loop_ok with (1 := D') (2 := W) (3 := vector_block _ _ _ V2).
  cbn [length]. rewrite L. lia.
Qed.

Lemma move_right_ok start1 end1 start2 : fixnum_range start1 -> fixnum_range end1 -> fixnum_range start2 ->
  move_result (b1 <> b2 \/ start1 <= start2) start1 end1 start2
    (Prim_subvector_move_right (Pointer TC_VECTOR b1) (fixnum start1) (fixnum end1) (Pointer TC_VECTOR b2) (fixnum start2) h).
Proof.
  intros R1 R2 R3. pose proof (move_prefix_ok start1 end1 start2 R1 R2 R3) as P. unfold move_result, Prim_subvector_move_right.
  destruct (move_signal _ _ _ _ _) as [s|] eqn:S; [now apply pthen_signal|]. intros D.
  destruct (move_signal_None _ _ _ _ _ S) as (B1 & B2 & B3 & B4). destruct (slice_words start1 end1 B1 B2) as [L W].
  rewrite (pthen_return _ _ _ _ _ P). cbv beta iota. erewrite pthen_return by reflexivity. erewrite pthen_return by reflexivity.
  eexists. split; [|now apply written_moved]. eapply eq_trans; [eapply (pthen_return _ _ _ tt); apply run_operation_ok|reflexivity].
  replace (end1 + 1) with (Z.of_nat (Z.to_nat (start1 + 1) + length (slice start1 end1 es1))) by lia.
  replace (start2 + (end1 - start1) + 1) with (Z.of_nat (Z.to_nat (start2 + 1) + length (slice start1 end1 es1))) by lia.
  rewrite <- L. assert (D' : b1 <> b2 \/ (Z.to_nat (start1 + 1) <= Z.to_nat (start2 + 1))%nat) by lia.
  apply move_right_loop_ok with (1 := D') (2 := W) (3 := vector_block _ _ _ V2).
  cbn [length]. rewrite L. lia.
Qed.

End Move.

(** ** Lists *)

(** [o] is a list of [xs]. *)
Inductive list_of (h : heap) : object -> list object -> Prop :=
| list_of_nil : list_of h EMPTY_LIST []
| list_of_cons b x cdr xs : content h (b, 0%nat) = Some x -> content h (b, 1%nat) = Some cdr -> list_of h cdr xs -> list_of h (Pointer TC_LIST b) (x :: xs).

Lemma list_of_preserved h h' o xs : list_of h o xs -> (forall a x, content h a = Some x -> content h' a = Some x) -> list_of h' o xs.
Proof. intros L P. induction L as [|b x cdr xs C0 C1 L IH]; [constructor|]. econstructor; eauto. Qed.

Lemma content_new h bs n b i words : nth_error bs b = Some words -> content (with_new_blocks h bs n) (length (blocks h) + b, i)%nat = nth_error words i.
Proof.
  intros N. unfold content, block_of. cbn [fst snd with_new_blocks blocks]. rewrite nth_error_app2 by lia.
  replace (length (blocks h) + b - length (blocks h))%nat with b by lia. now rewrite N.
Qed.

Lemma content_with_new h bs n a x : content h a = Some x -> content (with_new_blocks h bs n) a = Some x.
Proof.
  unfold content, block_of. cbn [with_new_blocks blocks]. destruct (nth_error (blocks h) (fst a)) as [ws|] eqn:E; [|discriminate].
  rewrite nth_error_app1 by (apply nth_error_Some; congruence). now rewrite E.
Qed.

(** The pairs that are stored one after the other make the list. *)
Lemma new_list h xs n : let h' := with_new_blocks h (list_blocks (length (blocks h)) xs) n in
  forall k ys, skipn k xs = ys -> ys <> [] -> list_of h' (Pointer TC_LIST (length (blocks h) + k)) ys.
Proof.
  intros h' k ys. revert k. induction ys as [|y ys IH]; intros k E Ne; [contradiction|].
  assert (Nk : nth_error xs k = Some y) by (rewrite <- (Nat.add_0_r k), <- nth_error_skipn, E; reflexivity).
  assert (K : (k < length xs)%nat) by (apply nth_error_Some; congruence).
  assert (S1 : skipn (S k) xs = ys) by (change (S k) with (1 + k)%nat; rewrite <- skipn_skipn, E; reflexivity).
  assert (Ly : length (skipn k xs) = S (length ys)) by now rewrite E. rewrite length_skipn in Ly.
  destruct (nth_error (list_blocks (length (blocks h)) xs) k) as [words|] eqn:N; [|apply nth_error_None in N; rewrite length_list_blocks in N; lia].
  destruct (nth_list_blocks xs _ _ _ N) as (x & cdr & -> & Nx & C). assert (x = y) by congruence. subst x.
  apply list_of_cons with cdr; [exact (content_new h _ n k 0 _ N)|exact (content_new h _ n k 1 _ N)|].
  destruct C as [[L ->]|[L ->]].
  - replace (S (length (blocks h) + k)) with (length (blocks h) + S k)%nat by lia. apply IH; [exact S1|]. intros ->. cbn [length] in Ly. lia.
  - destruct ys; [constructor|]. cbn [length] in Ly. lia.
Qed.

Lemma list_of_EMPTY h xs : list_of h EMPTY_LIST xs -> xs = [].
Proof. intros L. now inversion L. Qed.

Lemma check_for_a_word h : 0 < available h -> Primitive_GC_If_Needed 0 h = Return (tt, h).
Proof.
  intros A. unfold Primitive_GC_If_Needed, GC_NEEDED_P, HEAP_AVAILABLE_P.
  destruct (Z.ltb_spec 0 (available h)), (Z.leb_spec 0 (available h)); try lia; reflexivity.
Qed.

Lemma list_elements_ok fuel : forall h o xs, list_of h o xs -> (length xs <= fuel)%nat -> zlength xs < available h \/ xs = [] ->
  list_elements fuel o h = Return ((xs, EMPTY_LIST), with_available h (available h - zlength xs)).
Proof.
  induction fuel as [|fuel IH]; intros h o xs L F Av; destruct L as [|b x cdr xs C0 C1 L]; cbn [length] in F |- *; try lia.
  1,2: cbn; rewrite Z.sub_0_r; destruct h; reflexivity.
  destruct Av as [Av|]; [|discriminate]. cbn [length] in Av. cbn [list_elements]. change (PAIR_P (Pointer TC_LIST b)) with true. cbv iota.
  rewrite (andthen_return _ _ h tt h) by (apply check_for_a_word; lia).
  rewrite (andthen_return _ _ h x h) by now apply MEMORY_REF_ok. erewrite andthen_return by reflexivity.
  fold (with_available h (available h - 1)). set (h1 := with_available h (available h - 1)).
  rewrite (andthen_return _ _ h1 cdr h1) by now apply MEMORY_REF_ok.
  rewrite (andthen_return _ _ h1 (xs, EMPTY_LIST) (with_available h1 (available h1 - zlength xs))).
  - unfold ret, h1, with_available. cbn [available blocks gc_enabled gc_space_needed non_object obarray].
    now replace (available h - 1 - zlength xs) with (available h - Z.of_nat (S (length xs))) by lia.
  - apply IH; [now apply list_of_preserved with h|lia|]. left. unfold h1. cbn [with_available available]. lia.
Qed.

Lemma list_to_vector_ok h o xs : list_of h o xs -> zlength xs + 1 < available h \/ xs = [] ->
  Prim_list_to_vector o h = Return (inl (Pointer TC_VECTOR (length (blocks h))), with_new_blocks h [vector_header (length xs) :: xs] (zlength xs + 1)).
Proof.
  intros L Av. unfold Prim_list_to_vector, list_to_vector. erewrite pthen_return by (apply run_operation_ok; reflexivity).
  fold (with_available h (available h - 1)). set (h1 := with_available h (available h - 1)).
  assert (E : list_elements (list_fuel h1) o h1 = Return ((xs, EMPTY_LIST), with_available h1 (available h1 - zlength xs))).
  { apply list_elements_ok; [now apply list_of_preserved with h| |]; unfold list_fuel, h1; cbn [with_available available].
    - destruct Av as [Av| ->]; cbn [length]; lia.
    - destruct Av as [Av|Av]; [left; lia|now right]. }
  erewrite pthen_return by (apply run_operation_ok; exact E). cbv beta iota. erewrite pthen_return by reflexivity.
  unfold run_operation, object_at_Free, with_new_blocks, h1, with_available. cbn [bind available blocks gc_enabled gc_space_needed non_object obarray].
  now replace (available h - 1 - zlength xs) with (available h - (zlength xs + 1)) by lia.
Qed.

Lemma subvector_list_ok h b es start end_index : vector_object h b es -> 0 <= start <= end_index -> end_index <= zlength es ->
  2 * (end_index - start) <= available h ->
  let xs := slice start end_index es in
  let h' := with_new_blocks h (list_blocks (length (blocks h)) xs) (2 * zlength xs) in
  exists o, Prim_subvector_to_list (Pointer TC_VECTOR b) (fixnum start) (fixnum end_index) h = Return (inl o, h') /\ list_of h' o xs.
Proof.
  intros V R L Av xs h'. destruct (slice_words h b es V start end_index R L) as [Lx W]. fold xs in Lx, W.
  pose proof (vector_size _ _ _ V). assert (B : 2 ^ 57 = BIGGEST_FIXNUM + 1) by reflexivity.
  assert (F1 : fixnum_range start) by (unfold fixnum_range, SMALLEST_FIXNUM; lia).
  assert (F2 : fixnum_range end_index) by (unfold fixnum_range, SMALLEST_FIXNUM; lia).
  destruct (subvector_to_list_ok h TC_VECTOR b (Z.to_nat start) xs) as (o & E & O).
  { intros i x N. replace (S (Z.to_nat start + i)) with (Z.to_nat (start + 1) + i)%nat by lia. now apply W. }
  { lia. }
  exists o. split.
  - unfold Prim_subvector_to_list, SUBVECTOR_TO_LIST_PRIMITIVE. erewrite pthen_return by reflexivity.
    rewrite (decoded_true 2 start _ _ _ _ (nonnegative_fixnum 2 h start F1)) by lia.
    rewrite (decoded_true 3 end_index _ _ _ _ (nonnegative_fixnum 3 h end_index F2)) by lia.
    rewrite (pthen_return _ _ h (zlength es) h) by now apply run_operation_ok, vector_object_length.
    rewrite to_long_small, !Z.gtb_ltb by lia.
    destruct (Z.ltb_spec (zlength es) end_index), (Z.ltb_spec end_index start); try lia. rewrite !unless_true.
    apply run_operation_ok. cbv zeta in h'. subst h'. eapply eq_trans; [|exact E]. f_equal; lia.
  - subst o. destruct xs as [|x xs'] eqn:X; [constructor|]. pose proof (new_list h (x :: xs') (2 * zlength (x :: xs')) 0 (x :: xs') eq_refl ltac:(discriminate)) as N.
    now rewrite Nat.add_0_r in N.
Qed.

(** ** Paths *)

(** The operations of a path, the first one first: [true] is a car. *)
Fixpoint path_of (ops : list bool) : Z :=
  match ops with
  | [] => 1
  | op :: ops => 2 * path_of ops + (if op then 1 else 0)
  end.

Fixpoint follow (ops : list bool) (o : object) : procedure object :=
  match ops with
  | [] => PRIMITIVE_RETURN o
  | op :: ops =>
      unless (PAIR_P o) (error_wrong_type_arg 1) ;;
      o <- run_operation (if op then PAIR_CAR o else PAIR_CDR o) ;;
      follow ops o
  end.

Lemma path_of_range ops : 2 ^ zlength ops <= path_of ops < 2 * 2 ^ zlength ops.
Proof.
  induction ops as [|op ops IH]; cbn [path_of length]; [change (2 ^ Z.of_nat 0) with 1; lia|].
  rewrite Nat2Z.inj_succ, Z.pow_succ_r by lia. destruct op; lia.
Qed.

Lemma pthen_ext {A B} (m : procedure A) (k k' : A -> procedure B) h : (forall a h', k a h' = k' a h') -> pthen m k h = pthen m k' h.
Proof. intros E. unfold pthen. destruct (m h) as [[[a|s] h']| | |]; cbn [bind]; auto. Qed.

Lemma car_cdr_loop_ok ops : forall fuel o h, (length ops <= fuel)%nat -> car_cdr_loop fuel o (path_of ops) h = follow ops o h.
Proof.
  induction ops as [|op ops IH]; intros fuel o h L.
  - destruct fuel; reflexivity.
  - pose proof (path_of_range ops) as R. destruct fuel as [|fuel]; cbn [length] in L; [lia|]. cbn [car_cdr_loop path_of follow]. assert (0 < 2 ^ zlength ops) by (apply Z.pow_pos_nonneg; lia).
    rewrite Z.gtb_ltb. destruct (Z.ltb_spec 1 (2 * path_of ops + (if op then 1 else 0))); [|destruct op; lia].
    apply pthen_ext. intros _ h1.
    replace (if Z.land (2 * path_of ops + (if op then 1 else 0)) 1 =? 0 then PAIR_CDR o else PAIR_CAR o) with (if op then PAIR_CAR o else PAIR_CDR o).
    + apply pthen_ext. intros a h2. rewrite <- (IH fuel a h2) by lia. f_equal. rewrite Z.shiftr_div_pow2 by lia. change (2 ^ 1) with 2. destruct op; dlia.
    + change 1 with (Z.ones 1) at 2. rewrite Z.land_ones by lia. change (2 ^ 1) with 2.
      destruct op; [destruct (Z.eqb_spec ((2 * path_of ops + 1) mod 2) 0)|destruct (Z.eqb_spec ((2 * path_of ops + 0) mod 2) 0)]; dlia || reflexivity.
Qed.

Lemma general_car_cdr_ok ops o path h : (length ops <= 63)%nat -> denotes_integer h path (path_of ops) ->
  Prim_general_car_cdr o path h = follow ops o h.
Proof.
  intros L D. unfold Prim_general_car_cdr. pose proof (path_of_range ops) as R. assert (0 < 2 ^ zlength ops) by (apply Z.pow_pos_nonneg; lia).
  assert (2 ^ zlength ops <= 2 ^ 63) by (apply Z.pow_le_mono_r; lia).
  rewrite (decoded_true 2 (path_of ops) _ _ _ _ (decoded_ulong_ok 2 h path (path_of ops) D ltac:(apply moderate_long; lia))) by lia.
  apply car_cdr_loop_ok. lia.
Qed.

(** ** A heap with a vector of five numbers, and a list *)

Definition numbers : list object := map fixnum [10; 11; 12; 13; 14].

Definition numbers_heap : heap :=
  Heap [ vector_header 5 :: numbers; [Pointer TC_LIST 2; EMPTY_LIST]; [Pointer TC_LIST 3; EMPTY_LIST]; [fixnum 1; fixnum 7] ]
       1000 true None SHARP_F SHARP_F.

Lemma numbers_vector : vector_object numbers_heap 0 numbers.
Proof. now split. Qed.

(** The path of the documentation of general-car-cdr. *)
Example documented_path : path_of [true; true; false] = 11 /\ follow [true; true; false] (Pointer TC_LIST 1) numbers_heap = Return (inl (fixnum 7), numbers_heap).
Proof. split; reflexivity. Qed.

(** [start2 + length] may exceed a long.  A first vector of one element, moved
    to the largest long: the sum is the smallest long, and passes the test. *)
Definition overflow_heap : heap :=
  Heap [ vector_header 5 :: numbers; map Immediate [Object.MAKE_OBJECT TC_MANIFEST_NM_VECTOR 3; BIGNUM_SET_HEADER 2 false; 2 ^ 62 - 1; 1] ]
       1000 true None SHARP_F SHARP_F.

Lemma store_at_outside h b i x words : block_of h b = Some words -> zlength words <= i -> store_at (b, i) x h = Wild.
Proof.
  intros B L. unfold store_at. cbn [fst snd]. destruct (Z.ltb_spec i 0); [reflexivity|]. unfold store. cbn [fst snd]. unfold block_of in B. rewrite B.
  destruct (Nat.ltb_spec (Z.to_nat i) (length words)); [lia|reflexivity].
Qed.

Example move_overflow : Prim_subvector_move_left (Pointer TC_VECTOR 0) (fixnum 0) (fixnum 1) (Pointer TC_VECTOR 0) (Pointer TC_BIG_FIXNUM 1) overflow_heap = Wild.
Proof.
  unfold Prim_subvector_move_left.
  rewrite (pthen_return _ _ _ (Pointer TC_VECTOR 0, 0, 1, Pointer TC_VECTOR 0, 2 ^ 63 - 1, - 2 ^ 63) overflow_heap) by (vm_compute; reflexivity). cbv beta iota.
  rewrite (pthen_return _ _ _ (0%nat, 1) overflow_heap) by reflexivity. rewrite (pthen_return _ _ _ (0%nat, 2 ^ 63 - 1 + 1) overflow_heap) by reflexivity.
  unfold pthen, run_operation. change (Z.to_nat (1 - 0)) with 1%nat. cbn [move_left_loop].
  rewrite (andthen_return _ _ overflow_heap (fixnum 10) overflow_heap) by reflexivity. unfold andthen.
  rewrite (store_at_outside overflow_heap 0 _ _ (vector_header 5 :: numbers)) by (reflexivity || discriminate). reflexivity.
Qed.

(** ** Properties *)

(** With room in the heap, SUBVECTOR->LIST makes a list of the elements of the range, and LIST->VECTOR
    of that list a vector of the same elements; both objects are new, nothing that was in the heap
    changes, and they take two words for each pair and a word for each element and for the header. *)
Theorem vector_list_round_trip h b es start end_index : vector_object h b es -> 0 <= start <= end_index -> end_index <= zlength es ->
  3 * (end_index - start) + 1 < available h ->
  exists list h1 v h2,
    Prim_subvector_to_list (Pointer TC_VECTOR b) (fixnum start) (fixnum end_index) h = Return (inl list, h1) /\ list_of h1 list (slice start end_index es) /\
    Prim_list_to_vector list h1 = Return (inl (Pointer TC_VECTOR v), h2) /\ vector_object h2 v (slice start end_index es) /\ (length (blocks h) <= v)%nat /\
    (forall a x, content h a = Some x -> content h2 a = Some x) /\ available h2 = available h - (3 * (end_index - start) + 1).
Proof.
  intros V R L Av. destruct (subvector_list_ok h b es start end_index V R L ltac:(lia)) as (o & E & O). cbv zeta in E, O.
  destruct (slice_words h b es V start end_index R L) as [Ls _]. set (xs := slice start end_index es) in *.
  set (h1 := with_new_blocks h (list_blocks (length (blocks h)) xs) (2 * zlength xs)) in *.
  exists o, h1, (length (blocks h1)). eexists. split; [exact E|]. split; [exact O|].
  split; [apply list_to_vector_ok; [exact O|]; left; unfold h1; cbn [with_new_blocks available]; lia|].
  split; [split; [|pose proof (vector_size _ _ _ V); lia]|].
  - unfold block_of. cbn [with_new_blocks blocks]. rewrite nth_error_app2, Nat.sub_diag by lia. reflexivity.
  - split; [unfold h1; cbn [with_new_blocks blocks]; rewrite length_app; lia|].
    split; [intros a x C; now apply content_with_new, content_with_new|]. unfold h1. cbn [with_new_blocks available]. lia.
Qed.

(** General-car-cdr on the number of a path of at most 63 operations does those operations from the
    lowest bit up, a car for a one and a cdr for a zero, and stops with a wrong type at the first object
    that is no pair. *)
Theorem general_car_cdr_correct ops o path h : (length ops <= 63)%nat -> denotes_integer h path (path_of ops) ->
  Prim_general_car_cdr o path h = follow ops o h.
Proof. exact (general_car_cdr_ok ops o path h). Qed.


