(* ===== verification/StringBytes.v ===== *)
(** * Strings: bytes and arguments

    What the operations on bytes do to the bytes of an object, and what the
    arguments of the primitives on strings are decoded to. *)

From Stdlib Require Import ZArith List Bool Lia.
From S2P Require Import Prelude Object Bytes Integer IntPrim Heap HeapPrim Intern ListVector ExternalTable Strings StringPrim.
Import ListNotations.

#[local] Open Scope Z_scope.
#[local] Open Scope list_scope.

(** ** Running *)

Lemma sthen_return {A B} (m : string_procedure A) (k : A -> string_procedure B) w a w' : m w = Return (inl a, w') -> sthen m k w = k a w'.
Proof. unfold sthen. now intros ->. Qed.

Lemma sthen_signal {A B} (m : string_procedure A) (k : A -> string_procedure B) w s w' : m w = Return (inr s, w') -> sthen m k w = Return (inr s, w').
Proof. unfold sthen. now intros ->. Qed.

(** [srun E]: run the first call by an equation for it. *)
Ltac srun E := erewrite sthen_return; [|eapply E]; cbv beta iota.

Lemma with_scheme_same w : with_scheme (scheme w) w = w.
Proof. now destruct w. Qed.

Lemma on_heap_ok {A} (p : procedure A) w r : p (scheme w) = Return (r, scheme w) -> on_heap p w = Return (r, w).
Proof. unfold on_heap. intros ->. cbn [bind]. now rewrite with_scheme_same. Qed.

Lemma in_scheme_ok {A} (op : operation A) w a : op (scheme w) = Return (a, scheme w) -> in_scheme op w = Return (inl a, w).
Proof. intros E. apply on_heap_ok, run_operation_ok, E. Qed.

Lemma range_check_ok {B} ok n (k : unit -> string_procedure B) w : sthen (range_check ok n) k w = if ok then k tt w else Return (inr (bad_range_arg n), w).
Proof. now destruct ok. Qed.

Lemma type_check_ok {B} ok n (k : unit -> string_procedure B) w : sthen (type_check ok n) k w = if ok then k tt w else Return (inr (wrong_type_arg n), w).
Proof. now destruct ok. Qed.

(** ** Bytes in a world *)

Lemma load_string_byte_ok w base bytes i c : bytes_of base w = Some bytes -> nth_error bytes i = Some c -> load_byte (base, Z.of_nat i) w = Return (inl c, w).
Proof.
  intros B E. unfold load_byte. cbn [fst snd]. rewrite B. assert (i < length bytes)%nat by (apply nth_error_Some; congruence).
  destruct (Z.leb_spec 0 (Z.of_nat i)), (Z.ltb_spec (Z.of_nat i) (zlength bytes)); try lia. cbn [andb]. rewrite Nat2Z.id. now rewrite (nth_error_nth _ _ _ E).
Qed.

Lemma store_string_byte_ok w base bytes i v : bytes_of base w = Some bytes -> (i < length bytes)%nat ->
  store_byte (base, Z.of_nat i) v w = Return (inl tt, set_bytes base (update i (Z.land v 255) bytes) w).
Proof.
  intros B L. unfold store_byte. cbn [fst snd]. rewrite B.
  destruct (Z.leb_spec 0 (Z.of_nat i)), (Z.ltb_spec (Z.of_nat i) (zlength bytes)); try lia. cbn [andb]. now rewrite Nat2Z.id.
Qed.

Lemma land_byte v : 0 <= Z.land v 255 < 256.
Proof. rewrite (land_mask 8 255) by lia. apply Z.mod_pos_bound. lia. Qed.

Lemma land_byte_same v : 0 <= v < 256 -> Z.land v 255 = v.
Proof. intros H. rewrite (land_mask 8 255) by lia. now apply Z.mod_small. Qed.

(** The bytes of a block can be replaced, and nothing else is. *)
Definition same_size (bytes bytes' : list Z) : Prop := length bytes' = length bytes /\ bytes_ok bytes'.

Lemma raw_words_inv words data : raw_words words = Some data -> words = map Immediate data.
Proof.
  revert data. induction words as [|[w|t b] words IH]; intros data; cbn [raw_words]; [now intros [= <-]| |discriminate].
  destruct (raw_words words) as [d|]; [|discriminate]. intros [= <-]. cbn [map]. f_equal. now apply IH.
Qed.

Lemma data_bytes_inv words bytes : data_bytes words = Some bytes ->
  exists data, skipn BYTEVECTOR_DATA words = map Immediate data /\ bytes = concat (map word_bytes data).
Proof.
  unfold data_bytes. destruct (raw_words _) as [data|] eqn:R; [|discriminate]. intros [= <-]. exists data. split; [now apply raw_words_inv|reflexivity].
Qed.

Lemma data_bytes_replaced words bytes bytes' : data_bytes words = Some bytes -> same_size bytes bytes' ->
  data_bytes (firstn BYTEVECTOR_DATA words ++ map Immediate (pack (length words - BYTEVECTOR_DATA) bytes')) = Some bytes'.
Proof.
  intros (data & E & ->)%data_bytes_inv [L Ok]. assert (N : (length words - BYTEVECTOR_DATA = length data)%nat) by (rewrite <- length_skipn, E; apply length_map).
  rewrite words_bytes_length in L. unfold data_bytes. destruct (Nat.le_gt_cases BYTEVECTOR_DATA (length words)) as [G|G].
  - rewrite skipn_app, skipn_all2 by (rewrite length_firstn; lia). rewrite length_firstn, Nat.min_l, Nat.sub_diag by exact G. cbn [app skipn]. rewrite raw_words_map. cbn [option_map].
    rewrite N, pack_bytes; auto.
  - assert (data = []) as -> by (destruct data; [reflexivity|cbn [length] in N; lia]). destruct bytes'; [|discriminate].
    rewrite N. cbn [pack map]. rewrite app_nil_r, skipn_all2 by (rewrite length_firstn; lia). reflexivity.
Qed.

Lemma data_bytes_ok words bytes : data_bytes words = Some bytes -> bytes_ok bytes.
Proof. intros (data & _ & ->)%data_bytes_inv. apply words_bytes_ok. Qed.

(** Outside the data of the block no word changes. *)
Lemma replaced_prefix words bytes data i : data_bytes words = Some bytes -> length data = (length words - BYTEVECTOR_DATA)%nat -> (i < BYTEVECTOR_DATA)%nat ->
  nth_error (firstn BYTEVECTOR_DATA words ++ data) i = nth_error words i.
Proof.
  intros _ N L. rewrite <- (firstn_skipn BYTEVECTOR_DATA words) at 2. destruct (Nat.lt_ge_cases i (length words)) as [G|G].
  - rewrite !nth_error_app1 by (rewrite length_firstn; lia). reflexivity.
  - replace data with (skipn BYTEVECTOR_DATA words); [reflexivity|]. rewrite skipn_all2 by lia. symmetry. apply length_zero_iff_nil. lia.
Qed.

(** The words that hold the bytes of [base]. *)
Definition data_address (base : byte_base) (a : address) : Prop := base = In_block (fst a) /\ (BYTEVECTOR_DATA <= snd a)%nat.

(** In [w'] the bytes of [base] are [bytes], and everything else is as in [w]. *)
Record rewritten (base : byte_base) (bytes : list Z) (w w' : world) : Prop := {
  new_bytes : bytes_of base w' = Some bytes;
  other_bytes : forall other, other <> base -> bytes_of other w' = bytes_of other w;
  other_words : changes (data_address base) (scheme w) (scheme w');
  same_external : external_strings w' = external_strings w
}.

Lemma rewritten_refl base bytes w : bytes_of base w = Some bytes -> rewritten base bytes w w.
Proof. intros B. constructor; auto. apply changes_refl. Qed.

Lemma rewritten_trans base bytes1 bytes2 w w1 w2 : rewritten base bytes1 w w1 -> rewritten base bytes2 w1 w2 -> rewritten base bytes2 w w2.
Proof.
  intros R1 R2. constructor.
  - exact (new_bytes _ _ _ _ R2).
  - intros o Ne. rewrite (other_bytes _ _ _ _ R2 o Ne). exact (other_bytes _ _ _ _ R1 o Ne).
  - eapply changes_trans; [exact (other_words _ _ _ _ R1)|exact (other_words _ _ _ _ R2)].
  - rewrite (same_external _ _ _ _ R2). exact (same_external _ _ _ _ R1).
Qed.

Lemma set_bytes_block b bytes bytes' w : bytes_of (In_block b) w = Some bytes -> same_size bytes bytes' ->
  rewritten (In_block b) bytes' w (set_bytes (In_block b) bytes' w).
Proof.
  cbn [bytes_of set_bytes]. destruct (block_of (scheme w) b) as [words|] eqn:B; [|discriminate]. intros D S. pose proof (block_lt _ _ _ B) as L.
  set (words' := firstn BYTEVECTOR_DATA words ++ map Immediate (pack (length words - BYTEVECTOR_DATA) bytes')).
  assert (W : forall c, block_of (set_block_bytes b bytes' (scheme w)) c = if Nat.eqb b c then Some words' else block_of (scheme w) c).
  { intros c. unfold set_block_bytes. rewrite B. unfold block_of, with_blocks. cbn [blocks]. now rewrite nth_error_update by exact L. }
  constructor; cbn [bytes_of with_scheme scheme external_strings chunk_bytes chunks].
  - rewrite W, Nat.eqb_refl. now apply data_bytes_replaced with bytes.
  - intros [c|key] Ne; [|reflexivity]. cbn [bytes_of with_scheme scheme]. rewrite W. destruct (Nat.eqb_spec b c); congruence.
  - constructor; try (unfold set_block_bytes; rewrite B; reflexivity).
    + intros [c i] N. unfold content. cbn [fst snd]. rewrite W. destruct (Nat.eqb_spec b c) as [<-|]; [|reflexivity]. rewrite B.
      assert (i < BYTEVECTOR_DATA)%nat. { destruct (Nat.lt_ge_cases i BYTEVECTOR_DATA) as [G|G]; [exact G|]. destruct N. now split. }
      unfold words'. apply replaced_prefix with bytes; auto. now rewrite length_map, pack_length.
    + unfold set_block_bytes. rewrite B. unfold with_blocks. cbn [blocks]. apply length_update.
  - reflexivity.
Qed.

Lemma set_bytes_chunk key bytes bytes' w : bytes_of (In_chunk key) w = Some bytes ->
  rewritten (In_chunk key) bytes' w (set_bytes (In_chunk key) bytes' w).
Proof.
  intros D. constructor; [| |apply changes_weaken with (fun _ => False); [apply changes_refl|tauto]|reflexivity]; cbn [bytes_of set_bytes scheme].
  - unfold bytes_of, chunk_bytes in *. cbn [chunks]. induction (chunks w) as [|[k c] l IH]; cbn [find option_map map fst] in *; [discriminate|].
    destruct (Z.eqb_spec k key) as [->|Ne]; cbn [fst]; [now rewrite Z.eqb_refl|]. destruct (Z.eqb_spec k key); [contradiction|]. now apply IH.
  - intros [b|key'] Ne; cbn [bytes_of scheme]; [reflexivity|]. unfold chunk_bytes. cbn [chunks]. f_equal. clear D.
    induction (chunks w) as [|[k c] l IH]; cbn [find map fst]; [reflexivity|].
    destruct (Z.eqb_spec k key) as [->|Nk]; cbn [fst]; [|destruct (k =? key'); [reflexivity|exact IH]].
    destruct (Z.eqb_spec key key') as [->|]; [now destruct Ne|exact IH].
Qed.

Lemma set_bytes_ok base bytes bytes' w : bytes_of base w = Some bytes -> same_size bytes bytes' -> rewritten base bytes' w (set_bytes base bytes' w).
Proof. destruct base; [apply set_bytes_block|]. intros B _. now apply set_bytes_chunk with bytes. Qed.

Lemma bytes_ok_update i v bytes : bytes_ok bytes -> 0 <= v < 256 -> same_size bytes (update i v bytes).
Proof.
  intros Ok V. split; [apply length_update|]. apply Forall_forall. intros x I. apply In_nth_error in I as [j E].
  rewrite nth_error_updated in E. destruct (_ && _)%bool; [now injection E as <-|]. now apply (proj1 (Forall_forall _ _) Ok), nth_error_In with j.
Qed.

(** A world where [base] has bytes. *)
Definition has_bytes (w : world) (base : byte_base) (bytes : list Z) : Prop := bytes_of base w = Some bytes /\ bytes_ok bytes.

Lemma byte_stored w base bytes i v : has_bytes w base bytes -> (i < length bytes)%nat ->
  exists w', store_byte (base, Z.of_nat i) v w = Return (inl tt, w') /\ rewritten base (update i (Z.land v 255) bytes) w w'.
Proof.
  intros [B Ok] L. eexists. split; [apply store_string_byte_ok; [exact B|exact L]|]. apply set_bytes_ok with bytes; [exact B|]. apply bytes_ok_update; [exact Ok|apply land_byte].
Qed.

Lemma byte_loaded w base bytes i c : has_bytes w base bytes -> nth_error bytes i = Some c -> load_byte (base, Z.of_nat i) w = Return (inl c, w) /\ 0 <= c < 256.
Proof.
  intros [B Ok] E. split; [now apply load_string_byte_ok with bytes|]. now apply (proj1 (Forall_forall _ _) Ok), nth_error_In with i.
Qed.

Lemma rewritten_has_bytes base bytes bytes' w w' : has_bytes w base bytes -> rewritten base bytes' w w' -> bytes_ok bytes' -> has_bytes w' base bytes'.
Proof. intros _ R Ok. split; [exact (new_bytes _ _ _ _ R)|exact Ok]. Qed.
