(* ===== verification/StringLoops.v ===== *)
(** * Strings: the loops

    The loops of the primitives on strings, by the lists of bytes that they
    read and write. *)

From Stdlib Require Import ZArith List Bool Lia.
From S2P Require Import Prelude Object Bytes Heap HeapPrim Intern ListVector Strings StringPrim StringBytes.
Import ListNotations.

#[local] Open Scope Z_scope.
#[local] Open Scope list_scope.

(** From [i] on, [bytes] goes on with [cs]. *)
Definition bytes_at (bytes : list Z) (i : nat) (cs : list Z) : Prop := forall k c, nth_error cs k = Some c -> nth_error bytes (i + k) = Some c.

Lemma bytes_at_head bytes i c cs : bytes_at bytes i (c :: cs) -> nth_error bytes i = Some c.
Proof. intros A. rewrite <- (Nat.add_0_r i). now apply A. Qed.

Lemma bytes_at_tail bytes i c cs : bytes_at bytes i (c :: cs) -> bytes_at bytes (S i) cs.
Proof. intros A k x E. replace (S i + k)%nat with (i + S k)%nat by lia. now apply A. Qed.

Lemma bytes_at_last bytes i cs c : bytes_at bytes i (cs ++ [c]) -> nth_error bytes (i + length cs) = Some c.
Proof. intros A. apply A. now rewrite nth_error_app2, Nat.sub_diag by lia. Qed.

Lemma bytes_at_init bytes i cs c : bytes_at bytes i (cs ++ [c]) -> bytes_at bytes i cs.
Proof. intros A k x E. apply A. rewrite nth_error_app1; [exact E|]. apply nth_error_Some. congruence. Qed.

Lemma bytes_at_update bytes i cs j v : bytes_at bytes i cs -> (j < i \/ i + length cs <= j)%nat -> bytes_at (update j v bytes) i cs.
Proof.
  intros A L k x E. rewrite nth_error_update_ne; [now apply A|]. assert (k < length cs)%nat by (apply nth_error_Some; congruence). lia.
Qed.


Lemma offset_up b i : byte_offset (b, Z.of_nat i) 1 = (b, Z.of_nat (S i)).
Proof. unfold byte_offset. cbn [fst snd]. f_equal. lia. Qed.

Lemma offset_down b i : byte_offset (b, Z.of_nat (S i)) (-1) = (b, Z.of_nat i).
Proof. unfold byte_offset. cbn [fst snd]. f_equal. lia. Qed.

Lemma byte_base_eq_dec (a b : byte_base) : {a = b} + {a <> b}.
Proof. decide equality; [apply Nat.eq_dec|apply Z.eq_dec]. Defined.

(** What can be read after a byte was written. *)
Lemma read_after w w' p1 p2 bytes1 bytes2 j v i cs : has_bytes w p1 bytes1 -> has_bytes w p2 bytes2 -> bytes_at bytes1 i cs ->
  p1 <> p2 \/ (j < i \/ i + length cs <= j)%nat -> 0 <= v < 256 -> rewritten p2 (update j v bytes2) w w' ->
  exists bytes1', has_bytes w' p1 bytes1' /\ bytes_at bytes1' i cs.
Proof.
  intros [B1 Ok1] [B2 Ok2] A D V R. destruct (byte_base_eq_dec p1 p2) as [->|Ne].
  - assert (bytes2 = bytes1) as -> by congruence. exists (update j v bytes1). split; [split; [exact (new_bytes _ _ _ _ R)|now apply bytes_ok_update]|].
    apply bytes_at_update; [exact A|]. destruct D as [D|D]; [contradiction|exact D].
  - exists bytes1. split; [|exact A]. split; [|exact Ok1]. now rewrite (other_bytes _ _ _ _ R p1 Ne).
Qed.

Lemma has_bytes_rewritten w w' base bytes i v : has_bytes w base bytes -> 0 <= v < 256 -> rewritten base (update i v bytes) w w' -> has_bytes w' base (update i v bytes).
Proof. intros [B Ok] V R. split; [exact (new_bytes _ _ _ _ R)|now apply bytes_ok_update]. Qed.

(** ** Copies *)

Lemma copy_bytes_up_ok cs : forall w p1 i1 p2 i2 bytes1 bytes2, p1 <> p2 \/ (i2 <= i1)%nat -> has_bytes w p1 bytes1 -> has_bytes w p2 bytes2 ->
  bytes_at bytes1 i1 cs -> (i2 + length cs <= length bytes2)%nat ->
  exists w', copy_bytes_up (length cs) (p1, Z.of_nat i1) (p2, Z.of_nat i2) w = Return (inl tt, w') /\ rewritten p2 (splice i2 cs bytes2) w w'.
Proof.
  induction cs as [|c cs IH]; intros w p1 i1 p2 i2 bytes1 bytes2 D H1 H2 A L.
  - exists w. split; [reflexivity|]. rewrite splice_nil. apply rewritten_refl, H2.
  - cbn [length copy_bytes_up] in *. destruct (byte_loaded w p1 bytes1 i1 c H1 (bytes_at_head _ _ _ _ A)) as [E V].
    rewrite (sthen_return _ _ _ _ _ E). destruct (byte_stored w p2 bytes2 i2 c H2 ltac:(lia)) as (w1 & E1 & R1). rewrite (sthen_return _ _ _ _ _ E1).
    rewrite land_byte_same in R1 by exact V. rewrite !offset_up.
    destruct (read_after w w1 p1 p2 bytes1 bytes2 i2 c (S i1) cs H1 H2 (bytes_at_tail _ _ _ _ A) ltac:(intuition lia) V R1) as (bytes1' & H1' & A').
    destruct (IH w1 p1 (S i1) p2 (S i2) bytes1' (update i2 c bytes2) ltac:(intuition lia) H1' (has_bytes_rewritten _ _ _ _ _ _ H2 V R1) A') as (w' & E' & R'); [rewrite length_update; lia|].
    exists w'. split; [exact E'|]. rewrite splice_cons by (cbn [length]; lia). now apply rewritten_trans with (update i2 c bytes2) w1.
Qed.

Lemma copy_bytes_down_ok cs : forall w p1 i1 p2 i2 bytes1 bytes2, p1 <> p2 \/ (i1 <= i2)%nat -> has_bytes w p1 bytes1 -> has_bytes w p2 bytes2 ->
  bytes_at bytes1 i1 cs -> (i2 + length cs <= length bytes2)%nat ->
  exists w', copy_bytes_down (length cs) (p1, Z.of_nat (i1 + length cs)) (p2, Z.of_nat (i2 + length cs)) w = Return (inl tt, w') /\
    rewritten p2 (splice i2 cs bytes2) w w'.
Proof.
  induction cs as [|c cs IH] using rev_ind; intros w p1 i1 p2 i2 bytes1 bytes2 D H1 H2 A L.
  - exists w. split; [reflexivity|]. rewrite splice_nil. apply rewritten_refl, H2.
  - rewrite length_app in *. cbn [length] in *. rewrite Nat.add_1_r in *. cbn [copy_bytes_down]. rewrite !Nat.add_succ_r, !offset_down.
    destruct (byte_loaded w p1 bytes1 (i1 + length cs) c H1 (bytes_at_last _ _ _ _ A)) as [E V]. rewrite (sthen_return _ _ _ _ _ E).
    destruct (byte_stored w p2 bytes2 (i2 + length cs) c H2 ltac:(lia)) as (w1 & E1 & R1). rewrite (sthen_return _ _ _ _ _ E1).
    rewrite land_byte_same in R1 by exact V.
    destruct (read_after w w1 p1 p2 bytes1 bytes2 (i2 + length cs) c i1 cs H1 H2 (bytes_at_init _ _ _ _ A) ltac:(intuition lia) V R1) as (bytes1' & H1' & A').
    destruct (IH w1 p1 i1 p2 i2 bytes1' (update (i2 + length cs) c bytes2) D H1' (has_bytes_rewritten _ _ _ _ _ _ H2 V R1) A') as (w' & E' & R'); [rewrite length_update; lia|].
    exists w'. split; [exact E'|]. rewrite splice_snoc by (rewrite length_app; cbn [length]; lia). now apply rewritten_trans with (update (i2 + length cs) c bytes2) w1.
Qed.

(** ** Changes in place *)

Lemma modify_ok f g cs : (forall c, In c cs -> f c = Return (g c) /\ 0 <= g c < 256) -> forall w p i bytes, has_bytes w p bytes -> bytes_at bytes i cs ->
  (i + length cs <= length bytes)%nat -> exists w', modify f (length cs) (p, Z.of_nat i) w = Return (inl tt, w') /\ rewritten p (splice i (map g cs) bytes) w w'.
Proof.
  induction cs as [|c cs IH]; intros F w p i bytes H A L.
  - exists w. split; [reflexivity|]. cbn [map]. rewrite splice_nil. apply rewritten_refl, H.
  - cbn [length modify map] in *. destruct (byte_loaded w p bytes i c H (bytes_at_head _ _ _ _ A)) as [E _]. rewrite (sthen_return _ _ _ _ _ E).
    destruct (F c (or_introl eq_refl)) as [Fc V]. rewrite (sthen_return _ _ w (g c) w) by (unfold pure_outcome; now rewrite Fc).
    destruct (byte_stored w p bytes i (g c) H ltac:(lia)) as (w1 & E1 & R1). rewrite (sthen_return _ _ _ _ _ E1). rewrite land_byte_same in R1 by exact V.
    rewrite offset_up. destruct (IH (fun x I => F x (or_intror I)) w1 p (S i) (update i (g c) bytes) (has_bytes_rewritten _ _ _ _ _ _ H V R1)) as (w' & E' & R').
    + apply bytes_at_update; [now apply bytes_at_tail with c|lia].
    + rewrite length_update. lia.
    + exists w'. split; [exact E'|]. rewrite splice_cons by (cbn [length]; rewrite length_map; lia). now apply rewritten_trans with (update i (g c) bytes) w1.
Qed.

Lemma fill_ok v n : forall w p i bytes, has_bytes w p bytes -> (i + n <= length bytes)%nat ->
  exists w', fill v n (p, Z.of_nat i) w = Return (inl tt, w') /\ rewritten p (splice i (repeat (Z.land v 255) n) bytes) w w'.
Proof.
  induction n as [|n IH]; intros w p i bytes H L.
  - exists w. split; [reflexivity|]. cbn [repeat]. rewrite splice_nil. apply rewritten_refl, H.
  - cbn [fill repeat]. destruct (byte_stored w p bytes i v H ltac:(lia)) as (w1 & E1 & R1). rewrite (sthen_return _ _ _ _ _ E1), offset_up.
    destruct (IH w1 p (S i) _ (has_bytes_rewritten _ _ _ _ _ _ H (land_byte v) R1)) as (w' & E' & R'); [rewrite length_update; lia|].
    exists w'. split; [exact E'|]. rewrite splice_cons by (cbn [length]; rewrite repeat_length; lia). now apply rewritten_trans with (update i (Z.land v 255) bytes) w1.
Qed.

(** ** Searches *)

Fixpoint first_index (f : Z -> bool) (cs : list Z) : option nat :=
  match cs with [] => None | c :: cs => if f c then Some O else option_map S (first_index f cs) end.

Definition last_index (f : Z -> bool) (cs : list Z) : option nat := option_map (fun k => length cs - S k)%nat (first_index f (rev cs)).

(** The test [found] only reads. *)
Definition tests (found : Z -> string_procedure bool) (w : world) (f : Z -> bool) : Prop := forall c, 0 <= c < 256 -> found c w = Return (inl (f c), w).

Definition position (p : byte_base) (i k : nat) : byte_pointer := (p, Z.of_nat (i + k)).

Lemma search_up_ok found w f cs : tests found w f -> forall p i bytes, has_bytes w p bytes -> bytes_at bytes i cs ->
  search_up found (length cs) (p, Z.of_nat i) w = Return (inl (option_map (position p i) (first_index f cs)), w).
Proof.
  intros T. induction cs as [|c cs IH]; intros p i bytes H A; [reflexivity|]. cbn [length search_up first_index].
  destruct (byte_loaded w p bytes i c H (bytes_at_head _ _ _ _ A)) as [E V]. rewrite (sthen_return _ _ _ _ _ E), (sthen_return _ _ _ _ _ (T c V)).
  destruct (f c); [cbn [option_map]; unfold position; now rewrite Nat.add_0_r|]. rewrite offset_up, (IH p (S i) bytes H (bytes_at_tail _ _ _ _ A)).
  destruct (first_index f cs) as [k|]; [|reflexivity]. cbn [option_map]. unfold position. now rewrite Nat.add_succ_r.
Qed.

Lemma last_index_snoc f cs c : last_index f (cs ++ [c]) = if f c then Some (length cs) else last_index f cs.
Proof.
  unfold last_index. rewrite rev_app_distr. cbn [rev app first_index]. rewrite length_app. cbn [length]. destruct (f c); cbn [option_map]; [f_equal; lia|].
  destruct (first_index f (rev cs)); [|reflexivity]. cbn [option_map]. f_equal. lia.
Qed.

Lemma search_down_ok found w f cs : tests found w f -> forall p i bytes, has_bytes w p bytes -> bytes_at bytes i cs ->
  search_down found (length cs) (p, Z.of_nat (i + length cs)) w = Return (inl (option_map (position p i) (last_index f cs)), w).
Proof.
  intros T. induction cs as [|c cs IH] using rev_ind; intros p i bytes H A; [reflexivity|]. rewrite length_app, last_index_snoc. cbn [length].
  rewrite Nat.add_1_r. cbn [search_down]. rewrite Nat.add_succ_r, !offset_down.
  destruct (byte_loaded w p bytes (i + length cs) c H (bytes_at_last _ _ _ _ A)) as [E V]. rewrite (sthen_return _ _ _ _ _ E), (sthen_return _ _ _ _ _ (T c V)).
  destruct (f c); [reflexivity|]. apply IH with bytes; [exact H|now apply bytes_at_init with c].
Qed.

(** ** Comparisons *)

(** How long the common prefix of two lists is, and the first elements that differ. *)
Fixpoint compare_lists (f : Z -> Z -> bool) (l1 l2 : list Z) : Z * option (Z * Z) :=
  match l1, l2 with
  | c1 :: l1, c2 :: l2 => if f c1 c2 then (fst (compare_lists f l1 l2) + 1, snd (compare_lists f l1 l2)) else (0, Some (c1, c2))
  | _, _ => (0, None)
  end.

Definition compares (same : Z -> Z -> outcome bool) (f : Z -> Z -> bool) : Prop := forall c1 c2, 0 <= c1 < 256 -> 0 <= c2 < 256 -> same c1 c2 = Return (f c1 c2).

Lemma compare_up_ok same f w p1 p2 bytes1 bytes2 : compares same f -> has_bytes w p1 bytes1 -> has_bytes w p2 bytes2 -> forall l1 l2 i1 i2, bytes_at bytes1 i1 l1 -> bytes_at bytes2 i2 l2 ->
  compare_up same (Nat.min (length l1) (length l2)) (p1, Z.of_nat i1) (p2, Z.of_nat i2) w = Return (inl (compare_lists f l1 l2), w).
Proof.
  intros T H1 H2. induction l1 as [|c1 l1 IH]; intros [|c2 l2] i1 i2 A1 A2; try reflexivity. cbn [length Nat.min compare_up compare_lists].
  destruct (byte_loaded w p1 bytes1 i1 c1 H1 (bytes_at_head _ _ _ _ A1)) as [E1 V1]. destruct (byte_loaded w p2 bytes2 i2 c2 H2 (bytes_at_head _ _ _ _ A2)) as [E2 V2].
  rewrite (sthen_return _ _ _ _ _ E1), (sthen_return _ _ _ _ _ E2), (sthen_return _ _ w (f c1 c2) w) by (unfold pure_outcome; now rewrite T).
  destruct (f c1 c2); [|reflexivity]. rewrite !offset_up, (sthen_return _ _ _ _ _ (IH l2 (S i1) (S i2) (bytes_at_tail _ _ _ _ A1) (bytes_at_tail _ _ _ _ A2))).
  now destruct (compare_lists f l1 l2).
Qed.

Lemma compare_down_ok same f w p1 p2 bytes1 bytes2 : compares same f -> has_bytes w p1 bytes1 -> has_bytes w p2 bytes2 -> forall r1 r2 i1 i2,
  bytes_at bytes1 i1 (rev r1) -> bytes_at bytes2 i2 (rev r2) ->
  compare_down same (Nat.min (length r1) (length r2)) (p1, Z.of_nat (i1 + length r1)) (p2, Z.of_nat (i2 + length r2)) w = Return (inl (fst (compare_lists f r1 r2)), w).
Proof.
  intros T H1 H2. induction r1 as [|c1 r1 IH]; intros [|c2 r2] i1 i2 A1 A2; try reflexivity. cbn [length Nat.min compare_down compare_lists]. cbn [rev] in A1, A2.
  rewrite !Nat.add_succ_r, !offset_down.
  pose proof (bytes_at_last _ _ _ _ A1) as N1. pose proof (bytes_at_last _ _ _ _ A2) as N2. rewrite length_rev in N1, N2.
  destruct (byte_loaded w p1 bytes1 _ c1 H1 N1) as [E1 V1]. destruct (byte_loaded w p2 bytes2 _ c2 H2 N2) as [E2 V2].
  rewrite (sthen_return _ _ _ _ _ E1), (sthen_return _ _ _ _ _ E2), (sthen_return _ _ w (f c1 c2) w) by (unfold pure_outcome; now rewrite T).
  destruct (f c1 c2); [|reflexivity]. now rewrite (sthen_return _ _ _ _ _ (IH r2 i1 i2 (bytes_at_init _ _ _ _ A1) (bytes_at_init _ _ _ _ A2))).
Qed.
