(* ===== verification/StringArgs.v ===== *)
(** * Strings: the arguments of the primitives

    What the string, index and byte arguments of a primitive are decoded to,
    and the signals of the indices that are out of range. *)

From Stdlib Require Import ZArith List Bool Lia.
From S2P Require Import Prelude Object Bytes Bignum Integer IntPrim Heap HeapPrim Intern BitStringPrim BitStringConv ListVector ExternalTable Strings StringPrim StringBytes StringLoops.
Import ListNotations.

#[local] Open Scope Z_scope.
#[local] Open Scope list_scope.

(** ** Strings *)

(** [o] is a string, of one byte per character, in block [b]: its contents are
    [s], and [rest] are the bytes after them. *)
Record string_at (w : world) (o : object) (b : nat) (s rest : list Z) : Prop := {
  string_header : exists t lw, o = Pointer t b /\ content (scheme w) (b, BYTEVECTOR_LENGTH_INDEX) = Some (Immediate lw) /\ Object.OBJECT_DATUM lw = zlength s /\
    (t = TC_CHARACTER_STRING \/ t = TC_BYTEVECTOR \/ t = TC_UNICODE_STRING /\ Z.land (Object.OBJECT_TYPE lw) 3 = 1);
  string_bytes_at : has_bytes w (In_block b) (s ++ rest);
  string_size : zlength s < 2 ^ 57
}.

(** [o] is the address of an external string. *)
Record external_at (w : world) (o : object) (key : Z) (s rest : list Z) : Prop := {
  external_address : denotes_integer (scheme w) o key /\ moderate key /\ ulong_p key;
  external_record : exists table, external_strings w = Some table /\ ht_lookup table key = Some (Record_ key (zlength s));
  external_bytes_at : has_bytes w (In_chunk key) (s ++ rest);
  external_size : zlength s < 2 ^ 57
}.

(** What [arg_extended_string] accepts. *)
Inductive extended_at (w : world) (o : object) : byte_base -> list Z -> list Z -> Prop :=
| extended_block b s rest : string_at w o b s rest -> extended_at w o (In_block b) s rest
| extended_chunk key s rest : external_at w o key s rest -> extended_at w o (In_chunk key) s rest.

Lemma extended_bytes w o base s rest : extended_at w o base s rest -> has_bytes w base (s ++ rest) /\ zlength s < 2 ^ 57.
Proof. intros [b s' r S|k s' r E]; [exact (conj (string_bytes_at _ _ _ _ _ S) (string_size _ _ _ _ _ S))|exact (conj (external_bytes_at _ _ _ _ _ E) (external_size _ _ _ _ _ E))]. Qed.

Lemma string_p_ok w o b s rest : string_at w o b s rest -> in_scheme (string_p o) w = Return (inl true, w).
Proof.
  intros [(t & lw & -> & C & _ & T) _ _]. apply in_scheme_ok. unfold string_p. destruct T as [->|[->|[-> F]]]; try reflexivity.
  unfold LEGACY_STRING_P, BYTEVECTOR_P, UNICODE_STRING_P, TC_UNICODE_STRING, TC_CHARACTER_STRING, TC_BYTEVECTOR. cbn [OBJECT_TYPE Z.eqb Pos.eqb orb].
  unfold UNICODE_STRING_BYTES_PER_CP, UNICODE_STRING_FLAGS. rewrite !andthen_assoc. run MEMORY_REF_ok; [|exact C]. unfold ret, andthen. cbn [bind OBJECT_TYPE].
  now rewrite F.
Qed.

Lemma check_string_ok w o b s rest n : string_at w o b s rest -> check_string n o w = Return (inl tt, w).
Proof. intros S. unfold check_string. now rewrite (sthen_return _ _ _ _ _ (string_p_ok _ _ _ _ _ S)). Qed.

Lemma string_length_ok w o b s rest : string_at w o b s rest -> STRING_LENGTH_OF o w = Return (inl (zlength s), w).
Proof.
  intros [(t & lw & -> & C & D & _) _ _]. unfold STRING_LENGTH_OF. apply in_scheme_ok. unfold STRING_LENGTH. run MEMORY_REF_ok; [|exact C].
  apply pure_return. cbn [OBJECT_DATUM]. now rewrite D.
Qed.

Lemma string_pointer_ok w o b s rest : string_at w o b s rest -> STRING_POINTER o w = Return (inl (In_block b, 0), w).
Proof. now intros [(t & lw & -> & _) _ _]. Qed.

Lemma integer_not_string h o z : denotes_integer h o z -> string_p o h = Return (false, h) /\ exists i, integer_argument o h = Return (i, h) /\ integer z i.
Proof.
  intros (i & E & I). split; [|now exists i]. assert (T : OBJECT_TYPE o = TC_FIXNUM \/ OBJECT_TYPE o = TC_BIG_FIXNUM).
  { destruct o as [v|t b]; cbn [integer_argument OBJECT_TYPE] in *.
    - injection E as <-. left. apply INTEGER_P_ok, orb_prop in I as [I|I]; [now apply Z.eqb_eq in I|discriminate].
    - destruct (Z.eqb_spec t TC_BIG_FIXNUM); [now right|]. injection E as <-. apply INTEGER_P_ok in I. discriminate. }
  unfold string_p, LEGACY_STRING_P, BYTEVECTOR_P, UNICODE_STRING_P. now destruct T as [-> | ->].
Qed.

Lemma ulong_argument_ok w o z : denotes_integer (scheme w) o z -> moderate z -> ulong_p z -> ulong_argument o w = Return (inl (Some z), w).
Proof.
  intros (_ & i & E & I)%integer_not_string M U. unfold ulong_argument. rewrite (sthen_return _ _ w i w) by now apply in_scheme_ok.
  rewrite (INTEGER_P_ok z i I). destruct (integer_to_ulong_ok z i I M) as [(r & P & R) V]. destruct (V U) as (n & N & <-).
  rewrite (sthen_return _ _ w r w) by (unfold pure_outcome; now rewrite P). rewrite (proj2 R U).
  rewrite (sthen_return _ _ w z w) by (unfold pure_outcome; now rewrite N). reflexivity.
Qed.

Lemma extended_ok enough w o base s rest n : extended_at w o base s rest -> arg_extended_string enough n o w = Return (inl ((base, 0), zlength s), w).
Proof.
  intros [b s' r S|key s' r [(D & M & U) (table & T & L) _ _]]; unfold arg_extended_string.
  - rewrite (sthen_return _ _ _ _ _ (string_p_ok _ _ _ _ _ S)), (sthen_return _ _ _ _ _ (string_length_ok _ _ _ _ _ S)).
    now rewrite (sthen_return _ _ _ _ _ (string_pointer_ok _ _ _ _ _ S)).
  - rewrite (sthen_return _ _ w false w) by now apply in_scheme_ok, (integer_not_string _ _ key).
    rewrite (sthen_return _ _ w (Some key) w) by now apply ulong_argument_ok. unfold lookup_external_string.
    rewrite (sthen_return _ _ w (Some ((In_chunk key, 0), zlength s')) w); [reflexivity|]. rewrite (sthen_return _ _ w table w) by (unfold the_table; now rewrite T). now rewrite L.
Qed.

(** ** Indices *)

(** [o] is an integer, a fixnum or not, of the value of a fixnum. *)
Definition index_at (w : world) (o : object) (z : Z) : Prop := denotes_integer (scheme w) o z /\ fixnum_range z.

Lemma fixnum_index w z : fixnum_range z -> index_at w (fixnum z) z.
Proof. intros R. split; [now apply fixnum_denotes|exact R]. Qed.

Lemma on_heap_decoded {B} (p : procedure Z) ok n z (k : Z -> string_procedure B) w : p (scheme w) = decoded ok n z (scheme w) ->
  sthen (on_heap p) k w = if ok then k z w else Return (inr (bad_range_arg n), w).
Proof.
  intros E. unfold sthen, on_heap. rewrite E. unfold decoded. cbn [bind]. rewrite with_scheme_same. now destruct ok.
Qed.

Lemma nonnegative_index {B} n o z (k : Z -> string_procedure B) w : index_at w o z ->
  sthen (nonnegative_argument n o) k w = if 0 <=? z then k z w else Return (inr (bad_range_arg n), w).
Proof.
  intros [D R]. unfold fixnum_range, SMALLEST_FIXNUM, BIGGEST_FIXNUM in R. apply on_heap_decoded.
  rewrite (arg_nonnegative_integer_ok n (scheme w) o z D (fixnum_moderate z R)) by lia. destruct (Z.ltb_spec z (2 ^ 63)); [now rewrite andb_true_r|lia].
Qed.

Lemma ulong_index {B} n limit o z (k : Z -> string_procedure B) w : index_at w o z -> 0 <= limit < 2 ^ 64 ->
  sthen (ulong_index_argument n limit o) k w = if (0 <=? z) && (z <? limit) then k z w else Return (inr (bad_range_arg n), w).
Proof.
  intros [D R] L. apply on_heap_decoded. rewrite to_ulong_small by lia. apply arg_ulong_index_integer_ok; [exact D|now apply fixnum_moderate|lia].
Qed.

Lemma long_index {B} n limit o z (k : Z -> string_procedure B) w : index_at w o z -> 0 <= limit < 2 ^ 62 ->
  sthen (index_argument n limit o) k w = if (0 <=? z) && (z <? limit) then k z w else Return (inr (bad_range_arg n), w).
Proof.
  intros [D R] L. apply on_heap_decoded. rewrite to_long_small by lia. apply decoded_index_ok; [exact D|now apply fixnum_moderate|lia].
Qed.

Lemma ascii_argument {B} n o z (k : Z -> string_procedure B) w : index_at w o z ->
  sthen (on_heap (arg_ascii_integer n o)) k w = if (0 <=? z) && (z <? MAX_ASCII) then k z w else Return (inr (bad_range_arg n), w).
Proof. intros [D R]. apply on_heap_decoded. apply decoded_index_ok; [exact D|now apply fixnum_moderate|]. now vm_compute. Qed.

(** ** Slices *)

Notation range s start end_index := (firstn (Z.to_nat (end_index - start)) (skipn (Z.to_nat start) s)).

Lemma length_range {A} (s : list A) start end_index : 0 <= start <= end_index -> end_index <= zlength s -> length (range s start end_index) = Z.to_nat (end_index - start).
Proof. intros R L. rewrite length_firstn, length_skipn. lia. Qed.

Lemma range_at s rest start end_index : 0 <= start <= end_index -> end_index <= zlength s -> bytes_at (s ++ rest) (Z.to_nat start) (range s start end_index).
Proof.
  intros R L k c E. assert (k < length (range s start end_index))%nat by (apply nth_error_Some; congruence). rewrite length_range in * by assumption.
  rewrite nth_error_firstn in E. destruct (Nat.ltb_spec k (Z.to_nat (end_index - start))); [|lia]. rewrite nth_error_skipn in E.
  rewrite nth_error_app1; [exact E|]. lia.
Qed.

Lemma range_bytes s rest start end_index : bytes_ok (s ++ rest) -> forall c, In c (range s start end_index) -> 0 <= c < 256.
Proof.
  intros Ok c I. apply (proj1 (Forall_forall _ _) Ok). apply in_or_app. left.
  rewrite <- (firstn_skipn (Z.to_nat start) s). apply in_or_app. right.
  rewrite <- (firstn_skipn (Z.to_nat (end_index - start)) (skipn (Z.to_nat start) s)). apply in_or_app. now left.
Qed.

(** ** Bytes *)

Lemma fixnum_sign z : fixnum_range z -> FIXNUM_TO_ULONG_P (Object.LONG_TO_FIXNUM z) = (0 <=? z).
Proof.
  intros R. unfold FIXNUM_TO_ULONG_P, fixnum_range, SMALLEST_FIXNUM, BIGGEST_FIXNUM in *. rewrite Fixnum.fixnum_datum.
  rewrite SIGN_MASK_field by (pose proof (Z.mod_pos_bound z (2 ^ 58)); lia). apply eq_true_iff_eq. rewrite Z.eqb_eq, Z.leb_le. dlia.
Qed.

Lemma byte_argument {B} n z (k : Z -> string_procedure B) w : fixnum_range z ->
  sthen (arg_byte n (fixnum z)) k w = if (0 <=? z) && (z <? 256) then k z w else Return (inr (bad_range_arg n), w).
Proof.
  intros R. unfold sthen at 1. unfold arg_byte, fixnum. rewrite type_check_ok. change (HeapPrim.FIXNUM_P _) with (Object.FIXNUM_P (Object.LONG_TO_FIXNUM z)).
  rewrite FIXNUM_P_LONG_TO_FIXNUM, (sthen_return _ _ w (Object.LONG_TO_FIXNUM z) w), range_check_ok, (fixnum_sign z R) by reflexivity.
  destruct (Z.leb_spec 0 z); [|reflexivity]. cbv zeta. rewrite range_check_ok, Fixnum.fixnum_datum, Z.geb_leb.
  rewrite Z.mod_small by (unfold fixnum_range, BIGGEST_FIXNUM in R; lia).
  destruct (Z.leb_spec 256 z), (Z.ltb_spec z 256); try lia; reflexivity.
Qed.

(** A bytevector. *)
Definition bytevector_at (w : world) (o : object) (b : nat) (s rest : list Z) : Prop := string_at w o b s rest /\ OBJECT_TYPE o = TC_BYTEVECTOR.

Lemma arg_bytevector_ok w o b s rest n : bytevector_at w o b s rest -> arg_bytevector n o w = Return (inl ((In_block b, 0), zlength s), w).
Proof.
  intros [S T]. unfold arg_bytevector, BYTEVECTOR_P. rewrite T, type_check_ok. cbn [Z.eqb TC_BYTEVECTOR Pos.eqb].
  now rewrite (sthen_return _ _ _ _ _ (string_length_ok _ _ _ _ _ S)), (sthen_return _ _ _ _ _ (string_pointer_ok _ _ _ _ _ S)).
Qed.

(** ** A sample *)

(** The words of a string of at most seven bytes. *)
Definition string_words (flags : Z) (s : list Z) : list object :=
  [MAKE_OBJECT TC_MANIFEST_NM_VECTOR 2; MAKE_OBJECT flags (zlength s); Immediate (positional 256 s)].

(** The string "Hello", the bytevector "help", a string of 256 bytes that marks
    the letters e and h, and the external string "external". *)
Definition sample_world : world :=
  World (Heap [ string_words 0 [72; 101; 108; 108; 111]; string_words 0 [104; 101; 108; 112];
      [MAKE_OBJECT TC_MANIFEST_NM_VECTOR 34; MAKE_OBJECT 1 256] ++ map Immediate (repeat 0 12 ++ [Z.shiftl 1 40] ++ [1] ++ repeat 0 19) ] 1000 true None SHARP_F SHARP_F)
    (Some (HashTable 1 ([[]; []; [Record_ 4112 8]] ++ repeat [] 12))) [(4112, [101; 120; 116; 101; 114; 110; 97; 108; 0])].

Definition marks : list Z := repeat 0 101 ++ [1] ++ repeat 0 2 ++ [1] ++ repeat 0 151.

Lemma has_bytes_sample base bytes : bytes_of base sample_world = Some bytes -> forallb (fun c => (0 <=? c) && (c <? 256)) bytes = true -> has_bytes sample_world base bytes.
Proof.
  intros E F. split; [exact E|]. apply Forall_forall. intros c I. apply (proj1 (forallb_forall _ _) F), andb_prop in I as [A%Z.leb_le B%Z.ltb_lt]. lia.
Qed.

Lemma sample_hello : string_at sample_world (Pointer TC_CHARACTER_STRING 0) 0 [72; 101; 108; 108; 111] [0; 0; 0].
Proof.
  constructor; [|apply has_bytes_sample; vm_compute; reflexivity|vm_compute; reflexivity].
  exists TC_CHARACTER_STRING, 5. split; [reflexivity|]. split; [reflexivity|]. split; [reflexivity|now left].
Qed.

Lemma sample_help : bytevector_at sample_world (Pointer TC_BYTEVECTOR 1) 1 [104; 101; 108; 112] [0; 0; 0; 0].
Proof.
  split; [|reflexivity]. constructor; [|apply has_bytes_sample; vm_compute; reflexivity|vm_compute; reflexivity].
  exists TC_BYTEVECTOR, 4. split; [reflexivity|]. split; [reflexivity|]. split; [reflexivity|right; now left].
Qed.

Lemma sample_marks : string_at sample_world (Pointer TC_UNICODE_STRING 2) 2 marks (repeat 0 8).
Proof.
  constructor; [|apply has_bytes_sample; vm_compute; reflexivity|vm_compute; reflexivity].
  exists TC_UNICODE_STRING, (Object.MAKE_OBJECT 1 256). split; [reflexivity|]. split; [reflexivity|]. split; [reflexivity|right; right; now split].
Qed.

Lemma sample_index z : fixnum_range z -> index_at sample_world (fixnum z) z.
Proof. apply fixnum_index. Qed.

Lemma sample_external : external_at sample_world (fixnum 4112) 4112 [101; 120; 116; 101; 114; 110; 97; 108] [0].
Proof.
  assert (R : fixnum_range 4112) by (split; vm_compute; discriminate).
  constructor; [|eexists; split; [reflexivity|vm_compute; reflexivity]|apply has_bytes_sample; vm_compute; reflexivity|vm_compute; reflexivity].
  split; [now apply fixnum_denotes|]. split; [now apply fixnum_moderate|split; vm_compute; congruence].
Qed.
