(* ===== verification/StringMoves.v ===== *)
(** * Strings: moves and changes in place

    SUBSTRING-MOVE-LEFT!, SUBSTRING-MOVE-RIGHT!, VECTOR-8B-FILL!,
    SUBSTRING-UPCASE! and SUBSTRING-DOWNCASE! replace a range of the bytes of
    one string, and nothing else. *)

From Stdlib Require Import ZArith List Bool Lia.
From S2P Require Import Prelude Object Bytes Integer IntPrim Heap HeapPrim Intern BitStringConv ListVector ExternalTable Strings StringPrim StringBytes StringLoops StringArgs.
Import ListNotations.

#[local] Open Scope Z_scope.
#[local] Open Scope list_scope.

(** ** A string after a change *)

(** Only the bytes of [base] changed. *)
Record only_bytes (base : byte_base) (w w' : world) : Prop := {
  kept_bytes : forall other, other <> base -> bytes_of other w' = bytes_of other w;
  kept_words : changes (data_address base) (scheme w) (scheme w');
  kept_table : external_strings w' = external_strings w
}.

(** In [w'] the string that was [s] is [s'], with the same bytes after it, and
    nothing else changed. *)
Definition string_replaced (base : byte_base) (s' rest : list Z) (w w' : world) : Prop := has_bytes w' base (s' ++ rest) /\ only_bytes base w w'.

Lemma splice_app {A} i (ws l rest : list A) : (i + length ws <= length l)%nat -> splice i ws (l ++ rest) = splice i ws l ++ rest.
Proof.
  intros L. unfold splice. rewrite firstn_app, skipn_app, <- !app_assoc. replace (i - length l)%nat with 0%nat by lia. replace (i + length ws - length l)%nat with 0%nat by lia.
  cbn [firstn skipn]. now rewrite app_nil_l.
Qed.

Lemma splice_bytes_ok i ws l : bytes_ok ws -> bytes_ok l -> bytes_ok (splice i ws l).
Proof. intros W L. apply Forall_app. split; [now apply Forall_cut|]. apply Forall_app. split; [exact W|now apply Forall_cut]. Qed.

Lemma rewritten_string base i ws s rest w w' : has_bytes w base (s ++ rest) -> bytes_ok ws -> (i + length ws <= length s)%nat ->
  rewritten base (splice i ws (s ++ rest)) w w' -> string_replaced base (splice i ws s) rest w w'.
Proof.
  intros [_ Ok] W L [N O C X]. rewrite splice_app in N by exact L. split; [|now constructor]. split; [exact N|]. rewrite <- splice_app by exact L. now apply splice_bytes_ok.
Qed.

(** The object is still the string, with its new contents. *)
Lemma string_at_replaced w w' o b s s' rest : string_at w o b s rest -> length s' = length s -> string_replaced (In_block b) s' rest w w' -> string_at w' o b s' rest.
Proof.
  intros [(t & lw & -> & C & D & T) _ L] E [H K]. constructor; [|exact H|now rewrite E]. exists t, lw. rewrite E. split; [reflexivity|]. split; [|now split].
  rewrite (same_content _ _ _ (kept_words _ _ _ K)); [exact C|]. intros [_ G]. cbn [snd] in G. unfold BYTEVECTOR_LENGTH_INDEX, BYTEVECTOR_DATA in G. lia.
Qed.

(** ** Moves *)

Definition substring_move_signal (start1 end1 length1 start2 length2 : Z) : option signal :=
  if (end1 <? 0) || (length1 <? end1) then Some (bad_range_arg 3)
  else if (start1 <? 0) || (end1 <? start1) then Some (bad_range_arg 2)
  else if (start2 <? 0) || (length2 <? start2) then Some (bad_range_arg 5)
  else if length2 <? start2 + (end1 - start1) then Some (bad_range_arg 5)
  else None.

Lemma substring_move_None start1 end1 length1 start2 length2 : substring_move_signal start1 end1 length1 start2 length2 = None ->
  0 <= start1 <= end1 /\ end1 <= length1 /\ 0 <= start2 /\ start2 + (end1 - start1) <= length2.
Proof. unfold substring_move_signal. repeat match goal with |- context [?a <? ?b] => destruct (Z.ltb_spec a b); cbn [orb]; try discriminate end. lia. Qed.

Lemma in_limit z limit : (0 <=? z) && (z <? limit + 1) = negb ((z <? 0) || (limit <? z)).
Proof. destruct (Z.leb_spec 0 z), (Z.ltb_spec z (limit + 1)), (Z.ltb_spec z 0), (Z.ltb_spec limit z); try lia; reflexivity. Qed.

(** Decode an index up to [limit]; the goals where it is out of range are done. *)
Ltac index_below I n z limit := rewrite (ulong_index n _ _ _ _ _ I), (in_limit z limit) by lia;
  destruct (Z.ltb_spec z 0), (Z.ltb_spec limit z); cbn [orb negb]; try reflexivity.

Section Moves.

Context (enough : bool) (w : world) (o1 o2 : object) (base1 base2 : byte_base) (s1 rest1 s2 rest2 : list Z).
Context (S1 : extended_at w o1 base1 s1 rest1) (S2 : extended_at w o2 base2 s2 rest2).

(** The second string has the range of the first at [start2]. *)
Definition moved (start1 end1 start2 : Z) (w' : world) : Prop := string_replaced base2 (splice (Z.to_nat start2) (range s1 start1 end1) s2) rest2 w w'.

Lemma move_arguments i1 j1 i2 start1 end1 start2 : index_at w i1 start1 -> index_at w j1 end1 -> index_at w i2 start2 ->
  SUBSTRING_MOVE_PREFIX enough o1 i1 j1 o2 i2 w =
  match substring_move_signal start1 end1 (zlength s1) start2 (zlength s2) with
  | Some s => Return (inr s, w)
  | None => Return (inl ((base1, 0), start1, end1, (base2, 0), start2, start2 + (end1 - start1), end1 - start1), w)
  end.
Proof.
  intros I1 J1 I2. destruct (extended_bytes _ _ _ _ _ S1) as [_ L1], (extended_bytes _ _ _ _ _ S2) as [_ L2].
  unfold SUBSTRING_MOVE_PREFIX, substring_move_signal. rewrite (sthen_return _ _ _ _ _ (extended_ok enough _ _ _ _ _ 1 S1)).
  index_below J1 3 end1 (zlength s1). index_below I1 2 start1 end1.
  rewrite (sthen_return _ _ _ _ _ (extended_ok enough _ _ _ _ _ 4 S2)). index_below I2 5 start2 (zlength s2).
  cbv zeta. rewrite range_check_ok, to_ulong_small, Z.gtb_ltb by lia. destruct (Z.ltb_spec (zlength s2) (start2 + (end1 - start1))); reflexivity.
Qed.

Lemma moves_ok i1 j1 i2 start1 end1 start2 : index_at w i1 start1 -> index_at w j1 end1 -> index_at w i2 start2 ->
  match substring_move_signal start1 end1 (zlength s1) start2 (zlength s2) with
  | Some s => Prim_substring_move_left enough o1 i1 j1 o2 i2 w = Return (inr s, w) /\ Prim_substring_move_right enough o1 i1 j1 o2 i2 w = Return (inr s, w)
  | None =>
      (base1 <> base2 \/ start2 <= start1 -> exists w', Prim_substring_move_left enough o1 i1 j1 o2 i2 w = Return (inl UNSPECIFIC, w') /\ moved start1 end1 start2 w') /\
      (base1 <> base2 \/ start1 <= start2 -> exists w', Prim_substring_move_right enough o1 i1 j1 o2 i2 w = Return (inl UNSPECIFIC, w') /\ moved start1 end1 start2 w')
  end.
Proof.
  intros I1 J1 I2. pose proof (move_arguments _ _ _ _ _ _ I1 J1 I2) as P. unfold Prim_substring_move_left, Prim_substring_move_right.
  destruct (substring_move_signal _ _ _ _ _) as [s|] eqn:Sg; [split; now apply sthen_signal|].
  destruct (substring_move_None _ _ _ _ _ Sg) as (R1 & R2 & R3 & R4). rewrite !(sthen_return _ _ _ _ _ P). unfold byte_offset. cbn [fst snd]. rewrite !Z.add_0_l.
  pose proof (length_range s1 start1 end1 R1 R2) as Ln. pose proof (range_at s1 rest1 start1 end1 R1 R2) as A.
  destruct (extended_bytes _ _ _ _ _ S1) as [B1 _], (extended_bytes _ _ _ _ _ S2) as [B2 _].
  assert (Fit : (Z.to_nat start2 + length (range s1 start1 end1) <= length s2)%nat) by lia.
  assert (Done : forall w', rewritten base2 (splice (Z.to_nat start2) (range s1 start1 end1) (s2 ++ rest2)) w w' -> moved start1 end1 start2 w').
  { intros w' R. apply rewritten_string; auto. apply Forall_forall. apply range_bytes with rest1. apply B1. }
  assert (Fit' : (Z.to_nat start2 + length (range s1 start1 end1) <= length (s2 ++ rest2))%nat) by (rewrite length_app; lia).
  split; intros D.
  - destruct (copy_bytes_up_ok (range s1 start1 end1) w base1 (Z.to_nat start1) base2 (Z.to_nat start2) _ _ ltac:(intuition lia) B1 B2 A Fit') as (w' & E & R).
    exists w'. split; [|now apply Done]. rewrite Ln, !Z2Nat.id in E by lia. now rewrite (sthen_return _ _ _ _ _ E).
  - destruct (copy_bytes_down_ok (range s1 start1 end1) w base1 (Z.to_nat start1) base2 (Z.to_nat start2) _ _ ltac:(intuition lia) B1 B2 A Fit') as (w' & E & R).
    exists w'. split; [|now apply Done]. rewrite Ln, !Nat2Z.inj_add, !Z2Nat.id in E by lia. replace (start1 + (end1 - start1)) with end1 in E by lia.
    now rewrite (sthen_return _ _ _ _ _ E).
Qed.

End Moves.

(** ** Ranges of one string *)

Definition first_of (a b : option signal) : option signal := match a with Some s => Some s | None => b end.

(** The two indices are decoded as nonnegative integers first, and compared
    with the length of the string later. *)
Definition sign_signal (n1 n2 start end_index : Z) : option signal :=
  if start <? 0 then Some (bad_range_arg n1) else if end_index <? 0 then Some (bad_range_arg n2) else None.
Definition bounds_signal (n1 n2 start end_index length : Z) : option signal :=
  if length <? end_index then Some (bad_range_arg n2) else if end_index <? start then Some (bad_range_arg n1) else None.
Definition byte_signal (n value : Z) : option signal := if (0 <=? value) && (value <? 256) then None else Some (bad_range_arg n).

Lemma bounds_None n1 n2 start end_index length : bounds_signal n1 n2 start end_index length = None -> start <= end_index <= length.
Proof. unfold bounds_signal. destruct (Z.ltb_spec length end_index), (Z.ltb_spec end_index start); try discriminate. lia. Qed.

Lemma sign_None n1 n2 start end_index : sign_signal n1 n2 start end_index = None -> 0 <= start /\ 0 <= end_index.
Proof. unfold sign_signal. destruct (Z.ltb_spec start 0), (Z.ltb_spec end_index 0); try discriminate. lia. Qed.

Lemma byte_None n value : byte_signal n value = None -> 0 <= value < 256.
Proof. unfold byte_signal. destruct (Z.leb_spec 0 value), (Z.ltb_spec value 256); try discriminate. lia. Qed.

Lemma first_of_None a b : first_of a b = None -> a = None /\ b = None.
Proof. now destruct a. Qed.

Lemma two_indices {B} n1 n2 i1 i2 start end_index (k : Z -> Z -> string_procedure B) w : index_at w i1 start -> index_at w i2 end_index ->
  sthen (nonnegative_argument n1 i1) (fun x => sthen (nonnegative_argument n2 i2) (fun y => k x y)) w =
  match sign_signal n1 n2 start end_index with Some s => Return (inr s, w) | None => k start end_index w end.
Proof.
  intros I1 I2. rewrite (nonnegative_index _ _ _ _ _ I1). unfold sign_signal. destruct (Z.ltb_spec start 0), (Z.leb_spec 0 start); try lia; [reflexivity|].
  rewrite (nonnegative_index _ _ _ _ _ I2). destruct (Z.ltb_spec end_index 0), (Z.leb_spec 0 end_index); try lia; reflexivity.
Qed.

Lemma two_bounds {B} n1 n2 start end_index length (k : string_procedure B) w :
  sthen (range_check (negb (end_index >? length)) n2) (fun _ => sthen (range_check (negb (start >? end_index)) n1) (fun _ => k)) w =
  match bounds_signal n1 n2 start end_index length with Some s => Return (inr s, w) | None => k w end.
Proof.
  rewrite range_check_ok, Z.gtb_ltb. unfold bounds_signal. destruct (length <? end_index); [reflexivity|]. cbn [negb].
  rewrite range_check_ok, Z.gtb_ltb. now destruct (end_index <? start).
Qed.

Section Ranges.

Context (enough : bool) (w : world) (o : object) (base : byte_base) (s rest : list Z) (i1 i2 : object) (start end_index : Z).
Context (I1 : index_at w i1 start) (I2 : index_at w i2 end_index).

(** What VECTOR-8B-FILL! and the searches for a byte decode. *)
Definition vector_8b_signal (ascii : Z) : option signal :=
  first_of (sign_signal 2 3 start end_index) (first_of (byte_signal 4 ascii) (bounds_signal 2 3 start end_index (zlength s))).

Lemma vector_8b_arguments (S : extended_at w o base s rest) a ascii : index_at w a ascii ->
  VECTOR_8B_SUBSTRING_PREFIX enough o i1 i2 a w =
  match vector_8b_signal ascii with Some sg => Return (inr sg, w) | None => Return (inl ((base, 0), start, end_index, ascii), w) end.
Proof.
  intros A. unfold VECTOR_8B_SUBSTRING_PREFIX, vector_8b_signal. rewrite (sthen_return _ _ _ _ _ (extended_ok enough _ _ _ _ _ 1 S)).
  rewrite (two_indices 2 3 _ _ _ _ _ _ I1 I2). destruct (sign_signal 2 3 start end_index); [reflexivity|]. cbn [first_of].
  rewrite (ascii_argument _ _ _ _ _ A). unfold byte_signal. change MAX_ASCII with 256. destruct (_ && _); [|reflexivity]. cbn [first_of]. now rewrite two_bounds.
Qed.

Lemma range_fits : sign_signal 2 3 start end_index = None -> bounds_signal 2 3 start end_index (zlength s) = None ->
  (0 <= start <= end_index /\ end_index <= zlength s) /\ (Z.to_nat start + Z.to_nat (end_index - start) <= length s)%nat /\ Z.of_nat (Z.to_nat start) = start.
Proof. intros G B. apply sign_None in G. apply bounds_None in B. lia. Qed.

Lemma vec_8b_fill_ok (S : extended_at w o base s rest) a ascii : index_at w a ascii ->
  match vector_8b_signal ascii with
  | Some sg => Prim_vec_8b_fill enough o i1 i2 a w = Return (inr sg, w)
  | None => exists w', Prim_vec_8b_fill enough o i1 i2 a w = Return (inl UNSPECIFIC, w') /\
      string_replaced base (splice (Z.to_nat start) (repeat ascii (Z.to_nat (end_index - start))) s) rest w w'
  end.
Proof.
  intros A. pose proof (vector_8b_arguments S a ascii A) as P. unfold Prim_vec_8b_fill. destruct (vector_8b_signal ascii) as [sg|] eqn:V; [now apply sthen_signal|].
  apply first_of_None in V as [V1 [V2 V3]%first_of_None]. apply byte_None in V2. destruct (range_fits V1 V3) as (R & F & E0).
  rewrite (sthen_return _ _ _ _ _ P). destruct (extended_bytes _ _ _ _ _ S) as [H _]. unfold byte_offset. cbn [fst snd]. rewrite Z.add_0_l.
  destruct (fill_ok ascii (Z.to_nat (end_index - start)) w base (Z.to_nat start) _ H) as (w' & E & W); [rewrite length_app; lia|]. rewrite E0 in E.
  exists w'. split; [now rewrite (sthen_return _ _ _ _ _ E)|]. rewrite land_byte_same in W by exact V2. apply rewritten_string; auto; rewrite ?repeat_length; auto.
  apply Forall_forall. now intros c ->%repeat_spec.
Qed.

Definition modifier_signal : option signal := first_of (sign_signal 2 3 start end_index) (bounds_signal 2 3 start end_index (zlength s)).

Lemma modifier_ok f g b (S : string_at w o b s rest) : (forall c, 0 <= c < 256 -> f c = Return (g c) /\ 0 <= g c < 256) ->
  match modifier_signal with
  | Some sg => SUBSTRING_MODIFIER f o i1 i2 w = Return (inr sg, w)
  | None => exists w', SUBSTRING_MODIFIER f o i1 i2 w = Return (inl UNSPECIFIC, w') /\
      string_replaced (In_block b) (splice (Z.to_nat start) (map g (range s start end_index)) s) rest w w'
  end.
Proof.
  intros F. unfold SUBSTRING_MODIFIER. rewrite (sthen_return _ _ _ _ _ (check_string_ok _ _ _ _ _ 1 S)), (two_indices 2 3 _ _ _ _ _ _ I1 I2).
  unfold modifier_signal. destruct (sign_signal 2 3 start end_index) eqn:V1; [reflexivity|]. cbn [first_of].
  rewrite (sthen_return _ _ _ _ _ (string_length_ok _ _ _ _ _ S)), two_bounds. destruct (bounds_signal 2 3 start end_index (zlength s)) eqn:V3; [reflexivity|].
  destruct (range_fits V1 V3) as (R & Fit & E0). rewrite (sthen_return _ _ _ _ _ (string_pointer_ok _ _ _ _ _ S)). unfold byte_offset. cbn [fst snd]. rewrite Z.add_0_l.
  pose proof (string_bytes_at _ _ _ _ _ S) as H. pose proof (range_bytes s rest start end_index (proj2 H)) as Rb. pose proof (length_range s start end_index (proj1 R) (proj2 R)) as Ln.
  destruct (modify_ok f g (range s start end_index) (fun c I => F c (Rb c I)) w (In_block b) (Z.to_nat start) _ H) as (w' & E & W).
  - now apply range_at.
  - rewrite length_app. lia.
  - rewrite E0, Ln in E. exists w'. split; [now rewrite (sthen_return _ _ _ _ _ E)|]. apply rewritten_string; auto; rewrite ?length_map; [|lia].
    apply Forall_forall. intros c (x & <- & I)%in_map_iff. apply F, Rb, I.
Qed.

End Ranges.

(** ** The case of a byte *)

Definition upcase_byte (c : Z) : Z := if (97 <=? c) && (c <=? 122) then c - 32 else c.
Definition downcase_byte (c : Z) : Z := if (65 <=? c) && (c <=? 90) then c + 32 else c.

Lemma char_upcase_ok c : 0 <= c < 256 -> char_upcase c = Return (upcase_byte c) /\ 0 <= upcase_byte c < 256.
Proof.
  intros R. unfold char_upcase, islower, upcase_byte. destruct (Z.leb_spec 0 c), (Z.leb_spec c 255); try lia. cbn [andb bind].
  destruct (Z.leb_spec 97 c), (Z.leb_spec c 122); cbn [andb]; split; try (f_equal; lia); lia.
Qed.

Lemma char_downcase_ok c : 0 <= c < 256 -> char_downcase c = Return (downcase_byte c) /\ 0 <= downcase_byte c < 256.
Proof.
  intros R. unfold char_downcase, isupper, downcase_byte. destruct (Z.leb_spec 0 c), (Z.leb_spec c 255); try lia. cbn [andb bind].
  destruct (Z.leb_spec 65 c), (Z.leb_spec c 90); cbn [andb]; split; try (f_equal; lia); lia.
Qed.

(** ** Properties *)

(** C26: SUBSTRING-MOVE-LEFT! and SUBSTRING-MOVE-RIGHT!, on strings, bytevectors and external strings,
    signal the first of their arguments that is out of range and change nothing, or else put the bytes
    that the first string had before the call at their place in the second, also between overlapping
    parts of one string in the direction that the name says, and change nothing else; likewise
    VECTOR-8B-FILL!, SUBSTRING-UPCASE! and SUBSTRING-DOWNCASE! change exactly their range. *)
Theorem substring_moves_correct enough w o1 base1 s1 rest1 i1 start1 j1 end1 i2 start2 : extended_at w o1 base1 s1 rest1 ->
  index_at w i1 start1 -> index_at w j1 end1 -> index_at w i2 start2 ->
  (forall o2 base2 s2 rest2, extended_at w o2 base2 s2 rest2 ->
     match substring_move_signal start1 end1 (zlength s1) start2 (zlength s2) with
     | Some s => Prim_substring_move_left enough o1 i1 j1 o2 i2 w = Return (inr s, w) /\ Prim_substring_move_right enough o1 i1 j1 o2 i2 w = Return (inr s, w)
     | None =>
         (base1 <> base2 \/ start2 <= start1 -> exists w', Prim_substring_move_left enough o1 i1 j1 o2 i2 w = Return (inl UNSPECIFIC, w') /\
            string_replaced base2 (splice (Z.to_nat start2) (range s1 start1 end1) s2) rest2 w w') /\
         (base1 <> base2 \/ start1 <= start2 -> exists w', Prim_substring_move_right enough o1 i1 j1 o2 i2 w = Return (inl UNSPECIFIC, w') /\
            string_replaced base2 (splice (Z.to_nat start2) (range s1 start1 end1) s2) rest2 w w')
     end) /\
  (forall a ascii, index_at w a ascii -> match vector_8b_signal s1 start1 end1 ascii with
     | Some s => Prim_vec_8b_fill enough o1 i1 j1 a w = Return (inr s, w)
     | None => exists w', Prim_vec_8b_fill enough o1 i1 j1 a w = Return (inl UNSPECIFIC, w') /\
         string_replaced base1 (splice (Z.to_nat start1) (repeat ascii (Z.to_nat (end1 - start1))) s1) rest1 w w'
     end) /\
  (forall b, string_at w o1 b s1 rest1 -> match modifier_signal s1 start1 end1 with
     | Some s => Prim_substring_upcase o1 i1 j1 w = Return (inr s, w) /\ Prim_substring_downcase o1 i1 j1 w = Return (inr s, w)
     | None =>
         (exists w', Prim_substring_upcase o1 i1 j1 w = Return (inl UNSPECIFIC, w') /\
            string_replaced (In_block b) (splice (Z.to_nat start1) (map upcase_byte (range s1 start1 end1)) s1) rest1 w w') /\
         (exists w', Prim_substring_downcase o1 i1 j1 w = Return (inl UNSPECIFIC, w') /\
            string_replaced (In_block b) (splice (Z.to_nat start1) (map downcase_byte (range s1 start1 end1)) s1) rest1 w w')
     end).
Proof.
  intros S1 I1 J1 I2. split; [|split].
  - intros o2 base2 s2 rest2 S2. exact (moves_ok enough w o1 o2 base1 base2 s1 rest1 s2 rest2 S1 S2 i1 j1 i2 start1 end1 start2 I1 J1 I2).
  - exact (vec_8b_fill_ok enough w o1 base1 s1 rest1 i1 j1 start1 end1 I1 J1 S1).
  - intros b S. pose proof (modifier_ok w o1 s1 rest1 i1 j1 start1 end1 I1 J1 char_upcase upcase_byte b S char_upcase_ok) as U.
    pose proof (modifier_ok w o1 s1 rest1 i1 j1 start1 end1 I1 J1 char_downcase downcase_byte b S char_downcase_ok) as D.
    destruct (modifier_signal s1 start1 end1); now split.
Qed.

Lemma substring_moves_correct_witness :
  exists w', Prim_substring_move_right true (Pointer TC_CHARACTER_STRING 0) (fixnum 0) (fixnum 4) (Pointer TC_CHARACTER_STRING 0) (fixnum 1) sample_world = Return (inl UNSPECIFIC, w') /\
    string_replaced (In_block 0) [72; 72; 101; 108; 108] [0; 0; 0] sample_world w'.
Proof.
  assert (R : forall z, 0 <= z <= 5 -> fixnum_range z) by (intros z H; unfold fixnum_range, SMALLEST_FIXNUM, BIGGEST_FIXNUM; lia).
  destruct (substring_moves_correct true sample_world _ _ _ _ (fixnum 0) 0 (fixnum 4) 4 (fixnum 1) 1 (extended_block _ _ _ _ _ sample_hello)) as (M & _);
    try (apply sample_index, R; lia).
  apply (M _ _ _ _ (extended_block _ _ _ _ _ sample_hello)). right. lia.
Defined.
