(* ===== verification/StringSearch.v ===== *)
(** * Strings: searches and comparisons

    The searches return the first or the last position in a range that passes
    a test; the comparisons return what equality, the lexicographic order, and
    the longest common prefix and suffix of the two ranges are. *)

From Stdlib Require Import ZArith List Bool Lia.
From S2P Require Import Prelude Object Bytes Integer IntPrim Heap HeapPrim Intern BitStringConv ListVector ExternalTable Strings StringPrim StringBytes StringLoops StringArgs StringMoves.
Import ListNotations.

#[local] Open Scope Z_scope.
#[local] Open Scope list_scope.

(** ** Positions *)

(** [r] is the first, or the last, [k] with [start <= k < end_index] of which
    the byte passes [f], as a fixnum; or #F, if there is none. *)
Definition passes (f : Z -> bool) (s : list Z) (k : Z) : Prop := exists c, nth_error s (Z.to_nat k) = Some c /\ f c = true.

Definition first_in (f : Z -> bool) (s : list Z) (start end_index : Z) (r : object) : Prop :=
  (exists k, r = fixnum k /\ start <= k < end_index /\ passes f s k /\ forall j, start <= j < k -> ~ passes f s j) \/
  (r = SHARP_F /\ forall j, start <= j < end_index -> ~ passes f s j).

Definition last_in (f : Z -> bool) (s : list Z) (start end_index : Z) (r : object) : Prop :=
  (exists k, r = fixnum k /\ start <= k < end_index /\ passes f s k /\ forall j, k < j < end_index -> ~ passes f s j) \/
  (r = SHARP_F /\ forall j, start <= j < end_index -> ~ passes f s j).

Lemma first_index_spec f cs : match first_index f cs with
  | Some k => (exists c, nth_error cs k = Some c /\ f c = true) /\ forall j c, (j < k)%nat -> nth_error cs j = Some c -> f c = false
  | None => forall c, In c cs -> f c = false
  end.
Proof.
  induction cs as [|x cs IH]; cbn [first_index]; [intros c []|]. destruct (f x) eqn:F.
  - split; [now exists x|]. intros j c L. lia.
  - destruct (first_index f cs) as [k|]; cbn [option_map].
    + destruct IH as [P N]. split; [exact P|]. intros [|j] c L E; [now injection E as <-|]. apply (N j); [lia|exact E].
    + intros c [<-|I]; [exact F|now apply IH].
Qed.

Lemma nth_error_rev (cs : list Z) k : (k < length cs)%nat -> nth_error (rev cs) k = nth_error cs (length cs - S k).
Proof.
  intros L. rewrite (nth_error_nth' (rev cs) 0) by now rewrite length_rev. rewrite (nth_error_nth' cs 0) by lia. now rewrite rev_nth.
Qed.

Lemma last_index_spec f cs : match last_index f cs with
  | Some k => (exists c, nth_error cs k = Some c /\ f c = true) /\ forall j c, (k < j)%nat -> nth_error cs j = Some c -> f c = false
  | None => forall c, In c cs -> f c = false
  end.
Proof.
  unfold last_index. pose proof (first_index_spec f (rev cs)) as P. destruct (first_index f (rev cs)) as [k|]; cbn [option_map].
  - destruct P as [(c & E & F) N]. assert (k < length cs)%nat by (rewrite <- length_rev; apply nth_error_Some; congruence).
    rewrite nth_error_rev in E by assumption. split; [now exists c|]. intros j x L Ex. assert (j < length cs)%nat by (apply nth_error_Some; congruence).
    apply (N (length cs - S j)%nat); [lia|]. rewrite nth_error_rev by lia. rewrite <- Ex. f_equal. lia.
  - intros c I. apply P. now apply -> in_rev.
Qed.

Lemma range_nth (s : list Z) start end_index j : 0 <= start -> start <= j < end_index -> end_index <= zlength s ->
  nth_error (range s start end_index) (Z.to_nat (j - start)) = nth_error s (Z.to_nat j).
Proof.
  intros S R L. rewrite nth_error_firstn. destruct (Nat.ltb_spec (Z.to_nat (j - start)) (Z.to_nat (end_index - start))); [|lia].
  rewrite nth_error_skipn. f_equal. lia.
Qed.

Section Positions.

Context (f : Z -> bool) (s : list Z) (start end_index : Z) (p : byte_base).
Context (R : 0 <= start <= end_index) (L : end_index <= zlength s) (B : zlength s < 2 ^ 57).

Definition found_object (r : option byte_pointer) : object := match r with Some scan => Immediate (Object.LONG_TO_UNSIGNED_FIXNUM (snd scan - 0)) | None => SHARP_F end.

Lemma found_position k : (k < length (range s start end_index))%nat -> found_object (Some (position p (Z.to_nat start) k)) = fixnum (start + Z.of_nat k).
Proof.
  intros K. rewrite length_range in K by assumption. unfold found_object, position, fixnum. cbn [snd]. f_equal.
  replace (Z.of_nat (Z.to_nat start + k) - 0) with (start + Z.of_nat k) by lia.
  apply unsigned_fixnum_object_ok; [lia|]. unfold fixnum_range, SMALLEST_FIXNUM, BIGGEST_FIXNUM. lia.
Qed.

Lemma none_passes j : (forall c, In c (range s start end_index) -> f c = false) -> start <= j < end_index -> ~ passes f s j.
Proof.
  intros N J (c & E & F). rewrite <- (range_nth s start end_index j) in E by lia. apply nth_error_In in E. rewrite (N c E) in F. discriminate.
Qed.

Lemma one_passes k c : nth_error (range s start end_index) k = Some c -> f c = true -> (k < length (range s start end_index))%nat /\ start <= start + Z.of_nat k < end_index /\ passes f s (start + Z.of_nat k).
Proof.
  intros E F. assert (K : (k < length (range s start end_index))%nat) by (apply nth_error_Some; congruence). split; [exact K|].
  rewrite length_range in K by assumption. split; [lia|]. exists c. split; [|exact F]. rewrite <- (range_nth s start end_index) by lia.
  rewrite <- E. f_equal. lia.
Qed.

Lemma first_found : first_in f s start end_index (found_object (option_map (position p (Z.to_nat start)) (first_index f (range s start end_index)))).
Proof.
  pose proof (first_index_spec f (range s start end_index)) as P. destruct (first_index _ _) as [k|].
  - left. destruct P as [(c & E & F) N]. destruct (one_passes k c E F) as (K & Kr & Pk). exists (start + Z.of_nat k). split; [now apply found_position|].
    split; [exact Kr|]. split; [exact Pk|]. intros j J (x & Ex & Fx). rewrite <- (range_nth s start end_index j) in Ex by lia.
    rewrite (N (Z.to_nat (j - start)) x) in Fx; [discriminate|lia|exact Ex].
  - right. split; [reflexivity|]. intros j. now apply none_passes.
Qed.

Lemma last_found : last_in f s start end_index (found_object (option_map (position p (Z.to_nat start)) (last_index f (range s start end_index)))).
Proof.
  pose proof (last_index_spec f (range s start end_index)) as P. destruct (last_index _ _) as [k|].
  - left. destruct P as [(c & E & F) N]. destruct (one_passes k c E F) as (K & Kr & Pk). exists (start + Z.of_nat k). split; [now apply found_position|].
    split; [exact Kr|]. split; [exact Pk|]. intros j J (x & Ex & Fx). rewrite <- (range_nth s start end_index j) in Ex by lia.
    rewrite (N (Z.to_nat (j - start)) x) in Fx; [discriminate|lia|exact Ex].
  - right. split; [reflexivity|]. intros j. now apply none_passes.
Qed.

(** The two loops with what is made of their results. *)
Lemma searches_found found w rest : has_bytes w p (s ++ rest) -> tests found w f ->
  (exists r, search_next found (p, 0) start end_index w = Return (inl r, w) /\ first_in f s start end_index r) /\
  (exists r, search_previous found (p, 0) start end_index w = Return (inl r, w) /\ last_in f s start end_index r).
Proof.
  intros H T. pose proof (range_at s rest start end_index R L) as A. pose proof (length_range s start end_index R L) as Ln.
  unfold search_next, search_previous, byte_offset. cbn [fst snd]. rewrite !Z.add_0_l. split.
  - eexists. split; [|exact first_found]. pose proof (search_up_ok found w f _ T p (Z.to_nat start) _ H A) as E. rewrite Ln, Z2Nat.id in E by lia.
    rewrite (sthen_return _ _ _ _ _ E). reflexivity.
  - eexists. split; [|exact last_found]. pose proof (search_down_ok found w f _ T p (Z.to_nat start) _ H A) as E. rewrite Ln in E.
    replace (Z.of_nat (Z.to_nat start + Z.to_nat (end_index - start))) with end_index in E by lia. rewrite (sthen_return _ _ _ _ _ E). reflexivity.
Qed.

End Positions.

(** ** The searches *)

Section Searches.

Context (enough : bool) (w : world) (o : object) (base : byte_base) (s rest : list Z) (i1 i2 : object) (start end_index : Z).
Context (S : extended_at w o base s rest) (I1 : index_at w i1 start) (I2 : index_at w i2 end_index).

Lemma is_char_tests ascii : tests (is_char ascii) w (fun c => c =? ascii).
Proof. now intros c _. Qed.

Lemma is_letter_tests ascii : 0 <= ascii < 256 -> tests (is_letter (Z.land (upcase_byte ascii) 255)) w (fun c => upcase_byte c =? upcase_byte ascii).
Proof.
  intros A c C. unfold is_letter. rewrite (sthen_return _ _ w (upcase_byte c) w) by (unfold pure_outcome; now rewrite (proj1 (char_upcase_ok c C))).
  now rewrite land_byte_same by apply char_upcase_ok, A.
Qed.

(** A search for a byte signals, or finds the right position. *)
Definition byte_search (position : (Z -> bool) -> list Z -> Z -> Z -> object -> Prop) (f : Z -> bool) (ascii : Z) (r : outcome ((object + signal) * world)) : Prop :=
  match vector_8b_signal s start end_index ascii with
  | Some sg => r = Return (inr sg, w)
  | None => exists k, r = Return (inl k, w) /\ position f s start end_index k
  end.

Lemma byte_searches_ok a ascii : index_at w a ascii ->
  byte_search first_in (fun c => c =? ascii) ascii (Prim_vec_8b_find_next_char enough o i1 i2 a w) /\
  byte_search last_in (fun c => c =? ascii) ascii (Prim_vec_8b_find_prev_char enough o i1 i2 a w) /\
  byte_search first_in (fun c => upcase_byte c =? upcase_byte ascii) ascii (Prim_vec_8b_find_next_char_ci enough o i1 i2 a w) /\
  byte_search last_in (fun c => upcase_byte c =? upcase_byte ascii) ascii (Prim_vec_8b_find_prev_char_ci enough o i1 i2 a w).
Proof.
  intros A. pose proof (vector_8b_arguments enough w o base s rest i1 i2 start end_index I1 I2 S a ascii A) as P. unfold byte_search.
  unfold Prim_vec_8b_find_next_char, Prim_vec_8b_find_prev_char, Prim_vec_8b_find_next_char_ci, Prim_vec_8b_find_prev_char_ci.
  destruct (vector_8b_signal s start end_index ascii) as [sg|] eqn:V; [repeat split; now apply sthen_signal|].
  apply first_of_None in V as [V1 [V2 V3]%first_of_None]. apply byte_None in V2. destruct (range_fits s start end_index V1 V3) as ((R & L) & _).
  rewrite !(sthen_return _ _ _ _ _ P). destruct (char_upcase_ok ascii V2) as [U _].
  rewrite !(sthen_return (pure_outcome (char_upcase ascii)) _ w (upcase_byte ascii) w) by (unfold pure_outcome; now rewrite U).
  destruct (extended_bytes _ _ _ _ _ S) as [H Lb].
  destruct (searches_found _ s start end_index base R L Lb _ w rest H (is_char_tests ascii)), (searches_found _ s start end_index base R L Lb _ w rest H (is_letter_tests ascii V2)).
  auto.
Qed.

(** The sets of characters are strings of 256 bytes. *)
Definition set_signal (n : Z) : option signal :=
  first_of (sign_signal 2 3 start end_index) (first_of (bounds_signal 2 3 start end_index (zlength s)) (if n =? 256 then None else Some (bad_range_arg 4))).

Definition member (set : list Z) (c : Z) : bool := negb (nth (Z.to_nat c) set 0 =? 0).

Lemma in_set_tests b set more : has_bytes w (In_block b) (set ++ more) -> zlength set = 256 -> tests (in_set (In_block b, 0)) w (member set).
Proof.
  intros H L c C. unfold in_set, byte_offset. cbn [fst snd]. replace (0 + c) with (Z.of_nat (Z.to_nat c)) by lia.
  destruct (byte_loaded w (In_block b) (set ++ more) (Z.to_nat c) (nth (Z.to_nat c) set 0) H) as [E _].
  - rewrite nth_error_app1 by lia. apply nth_error_nth'. lia.
  - now rewrite (sthen_return _ _ _ _ _ E).
Qed.

Definition set_search (position : (Z -> bool) -> list Z -> Z -> Z -> object -> Prop) (set : list Z) (r : outcome ((object + signal) * world)) : Prop :=
  match set_signal (zlength set) with
  | Some sg => r = Return (inr sg, w)
  | None => exists k, r = Return (inl k, w) /\ position (member set) s start end_index k
  end.

Lemma set_searches_ok cs b set more : string_at w cs b set more ->
  set_search first_in set (Prim_find_next_char_in_set enough o i1 i2 cs w) /\ set_search last_in set (Prim_find_prev_char_in_set enough o i1 i2 cs w).
Proof.
  intros C. assert (P : SUBSTR_FIND_CHAR_IN_SET_PREFIX enough o i1 i2 cs w =
    match set_signal (zlength set) with Some sg => Return (inr sg, w) | None => Return (inl ((base, 0), start, end_index, (In_block b, 0)), w) end).
  { unfold SUBSTR_FIND_CHAR_IN_SET_PREFIX, set_signal. rewrite (sthen_return _ _ _ _ _ (extended_ok enough _ _ _ _ _ 1 S)), (two_indices 2 3 _ _ _ _ _ _ I1 I2).
    destruct (sign_signal 2 3 start end_index); [reflexivity|]. cbn [first_of].
    rewrite (sthen_return _ _ _ _ _ (check_string_ok _ _ _ _ _ 4 C)), (sthen_return _ _ _ _ _ (string_pointer_ok _ _ _ _ _ C)), two_bounds.
    destruct (bounds_signal 2 3 start end_index (zlength s)); [reflexivity|]. cbn [first_of].
    rewrite (sthen_return _ _ _ _ _ (string_length_ok _ _ _ _ _ C)), range_check_ok. change MAX_ASCII with 256. now destruct (zlength set =? 256). }
  unfold set_search, Prim_find_next_char_in_set, Prim_find_prev_char_in_set. destruct (set_signal (zlength set)) as [sg|] eqn:V; [split; now apply sthen_signal|].
  apply first_of_None in V as [V1 [V3 V4]%first_of_None]. destruct (Z.eqb_spec (zlength set) 256) as [E|]; [|discriminate]. destruct (range_fits s start end_index V1 V3) as ((R & L) & _).
  rewrite !(sthen_return _ _ _ _ _ P). destruct (extended_bytes _ _ _ _ _ S) as [H Lb].
  apply (searches_found _ s start end_index base R L Lb _ w rest H). apply in_set_tests with more; [exact (string_bytes_at _ _ _ _ _ C)|exact E].
Qed.

End Searches.

(** ** Properties *)

(** C32: the searches forward and backward for a byte, for a letter in either case, and for a byte of a
    set signal the first argument that is out of range, or else change nothing and return the least or
    the greatest position of the range that passes, or #F when there is none. *)
Theorem string_searches_correct enough w o base s rest i1 i2 start end_index : extended_at w o base s rest -> index_at w i1 start -> index_at w i2 end_index ->
  (forall a ascii, index_at w a ascii ->
     byte_search w s start end_index first_in (fun c => c =? ascii) ascii (Prim_vec_8b_find_next_char enough o i1 i2 a w) /\
     byte_search w s start end_index last_in (fun c => c =? ascii) ascii (Prim_vec_8b_find_prev_char enough o i1 i2 a w) /\
     byte_search w s start end_index first_in (fun c => upcase_byte c =? upcase_byte ascii) ascii (Prim_vec_8b_find_next_char_ci enough o i1 i2 a w) /\
     byte_search w s start end_index last_in (fun c => upcase_byte c =? upcase_byte ascii) ascii (Prim_vec_8b_find_prev_char_ci enough o i1 i2 a w)) /\
  (forall cs b set more, string_at w cs b set more ->
     set_search w s start end_index first_in set (Prim_find_next_char_in_set enough o i1 i2 cs w) /\
     set_search w s start end_index last_in set (Prim_find_prev_char_in_set enough o i1 i2 cs w)).
Proof.
  intros S I1 I2. split.
  - exact (byte_searches_ok enough w o base s rest i1 i2 start end_index S I1 I2).
  - exact (set_searches_ok enough w o base s rest i1 i2 start end_index S I1 I2).
Qed.

Lemma string_searches_correct_witness :
  (exists k, Prim_vec_8b_find_prev_char_ci true (fixnum 4112) (fixnum 0) (fixnum 8) (fixnum 69) sample_world = Return (inl k, sample_world) /\
     last_in (fun c => upcase_byte c =? 69) [101; 120; 116; 101; 114; 110; 97; 108] 0 8 k) /\
  (exists k, Prim_find_next_char_in_set true (Pointer TC_CHARACTER_STRING 0) (fixnum 1) (fixnum 4) (Pointer TC_UNICODE_STRING 2) sample_world = Return (inl k, sample_world) /\
     first_in (member marks) [72; 101; 108; 108; 111] 1 4 k).
Proof.
  assert (R : forall z, 0 <= z <= 69 -> index_at sample_world (fixnum z) z) by (intros z H; apply sample_index; unfold fixnum_range, SMALLEST_FIXNUM, BIGGEST_FIXNUM; lia).
  split.
  - destruct (string_searches_correct true sample_world _ _ _ _ _ _ 0 8 (extended_chunk _ _ _ _ _ sample_external) (R 0 ltac:(lia)) (R 8 ltac:(lia))) as (B & _).
    destruct (B (fixnum 69) 69 (R 69 ltac:(lia))) as (_ & _ & _ & P). exact P.
  - destruct (string_searches_correct true sample_world _ _ _ _ _ _ 1 4 (extended_block _ _ _ _ _ sample_hello) (R 1 ltac:(lia)) (R 4 ltac:(lia))) as (_ & B).
    destruct (B _ _ _ _ sample_marks) as (P & _). exact P.
Defined.
