(* ===== verification/StringCompare.v ===== *)
(** * Strings: comparisons

    The comparisons of two ranges return what equality, the lexicographic
    order, and the longest common prefix and suffix say, exactly or up to the
    case of letters. *)

From Stdlib Require Import ZArith List Bool Lia.
From S2P Require Import Prelude Object Bytes Integer IntPrim Heap HeapPrim Intern BitStringConv ListVector ExternalTable Strings StringPrim StringBytes StringLoops StringArgs StringMoves.
Import ListNotations.

#[local] Open Scope Z_scope.
#[local] Open Scope list_scope.

(** ** The order of lists of bytes *)

(** [l1] comes before [l2]: it is a proper prefix, or has the smaller byte where they first differ. *)
Definition comes_before (l1 l2 : list Z) : Prop :=
  exists p r1 r2, l1 = p ++ r1 /\ l2 = p ++ r2 /\
    match r1, r2 with [], _ :: _ => True | c1 :: _, c2 :: _ => c1 < c2 | _, [] => False end.

(** [n] is the length of the longest common prefix, as [g] sees the bytes. *)
Definition longest_prefix (g : Z -> Z) (l1 l2 : list Z) (n : nat) : Prop :=
  (n <= Nat.min (length l1) (length l2))%nat /\ map g (firstn n l1) = map g (firstn n l2) /\
  forall m, (n < m <= Nat.min (length l1) (length l2))%nat -> map g (firstn m l1) <> map g (firstn m l2).

Definition compare_by (g : Z -> Z) (c1 c2 : Z) : bool := g c1 =? g c2.

(** What the loop finds: the bytes before [n] agree, and the ones at [n] do not. *)
Lemma compare_lists_spec g l1 : forall l2, exists n, fst (compare_lists (compare_by g) l1 l2) = Z.of_nat n /\
  (n <= Nat.min (length l1) (length l2))%nat /\ map g (firstn n l1) = map g (firstn n l2) /\
  match snd (compare_lists (compare_by g) l1 l2) with
  | None => n = Nat.min (length l1) (length l2)
  | Some (c1, c2) => nth_error l1 n = Some c1 /\ nth_error l2 n = Some c2 /\ g c1 <> g c2
  end.
Proof.
  induction l1 as [|c1 l1 IH]; intros [|c2 l2]; cbn [compare_lists fst snd length Nat.min]; try (exists 0%nat; repeat split; lia).
  destruct (compare_by g c1 c2) eqn:E; [apply Z.eqb_eq in E|apply Z.eqb_neq in E]; cbn [fst snd].
  - destruct (IH l2) as (n & K & L & M & D). exists (S n). rewrite K. split; [lia|]. split; [lia|]. cbn [firstn map]. split; [congruence|].
    destruct (snd (compare_lists _ l1 l2)) as [[x y]|]; [exact D|now rewrite D].
  - exists 0%nat. repeat split; exact E || lia.
Qed.

Lemma differ_after (g : Z -> Z) l1 l2 n c1 c2 m : nth_error l1 n = Some c1 -> nth_error l2 n = Some c2 -> g c1 <> g c2 -> (n < m)%nat -> map g (firstn m l1) <> map g (firstn m l2).
Proof.
  intros E1 E2 Ne L M. apply (f_equal (fun l => nth_error l n)) in M. rewrite !nth_error_map, !nth_error_firstn in M.
  destruct (Nat.ltb_spec n m); [|lia]. rewrite E1, E2 in M. cbn [option_map] in M. congruence.
Qed.

Lemma compare_longest g l1 l2 : exists n, fst (compare_lists (compare_by g) l1 l2) = Z.of_nat n /\ longest_prefix g l1 l2 n.
Proof.
  destruct (compare_lists_spec g l1 l2) as (n & K & L & M & D). exists n. split; [exact K|]. split; [exact L|]. split; [exact M|]. intros m Lm.
  destruct (snd _) as [[c1 c2]|]; [|lia]. destruct D as (E1 & E2 & Ne). apply (differ_after g l1 l2 n c1 c2 m E1 E2 Ne). lia.
Qed.

Lemma compare_equal g l1 l2 : length l1 = length l2 -> (snd (compare_lists (compare_by g) l1 l2) = None <-> map g l1 = map g l2).
Proof.
  intros L. destruct (compare_lists_spec g l1 l2) as (n & _ & Ln & M & D). destruct (snd _) as [[c1 c2]|].
  - destruct D as (E1 & E2 & Ne). split; [discriminate|]. intros E. destruct (differ_after g l1 l2 n c1 c2 (S n + length l1) E1 E2 Ne); [lia|].
    rewrite !firstn_all2 by lia. exact E.
  - split; [intros _|reflexivity]. subst n. now rewrite !firstn_all2 in M by lia.
Qed.

Definition less_result (l1 l2 : list Z) : bool :=
  match snd (compare_lists (compare_by id) l1 l2) with Some (c1, c2) => c1 <? c2 | None => zlength l1 <? zlength l2 end.

Lemma compare_less l1 : forall l2, less_result l1 l2 = true <-> comes_before l1 l2.
Proof.
  unfold less_result. induction l1 as [|c1 l1 IH]; intros [|c2 l2]; cbn [compare_lists snd length].
  - split; [discriminate|]. intros (p & r1 & r2 & E1 & E2 & C). symmetry in E1, E2. apply app_eq_nil in E1 as [-> ->], E2 as [_ ->]. destruct C.
  - split; [|intros _; apply Z.ltb_lt; lia]. intros _. now exists [], [], (c2 :: l2).
  - split; [intros H%Z.ltb_lt; lia|]. intros (p & r1 & r2 & E1 & E2 & C). symmetry in E2. apply app_eq_nil in E2 as [-> ->]. cbn [app] in E1. subst r1. destruct C.
  - destruct (compare_by id c1 c2) eqn:E; [apply Z.eqb_eq in E; unfold id in E; subst c2|apply Z.eqb_neq in E; unfold id in E]; cbn [snd].
    + replace (match snd (compare_lists (compare_by id) l1 l2) with Some (x, y) => x <? y | None => Z.of_nat (S (length l1)) <? Z.of_nat (S (length l2)) end)
        with (match snd (compare_lists (compare_by id) l1 l2) with Some (x, y) => x <? y | None => zlength l1 <? zlength l2 end).
      2:{ destruct (snd _) as [[]|]; [reflexivity|]. destruct (Z.ltb_spec (zlength l1) (zlength l2)), (Z.ltb_spec (Z.of_nat (S (length l1))) (Z.of_nat (S (length l2)))); lia || reflexivity. }
      rewrite IH. split.
      * intros (p & r1 & r2 & -> & -> & C). now exists (c1 :: p), r1, r2.
      * intros ([|x p] & r1 & r2 & E1 & E2 & C); cbn [app] in E1, E2.
        -- subst r1 r2. lia.
        -- injection E1 as _ E1. injection E2 as _ E2. now exists p, r1, r2.
    + split.
      * intros L%Z.ltb_lt. now exists [], (c1 :: l1), (c2 :: l2).
      * intros ([|x p] & r1 & r2 & E1 & E2 & C); cbn [app] in E1, E2; [|congruence]. subst r1 r2. now apply Z.ltb_lt.
Qed.

(** ** The primitives *)

Definition compare_signal (start1 end1 length1 start2 end2 length2 : Z) : option signal :=
  first_of (sign_signal 2 3 start1 end1) (first_of (sign_signal 5 6 start2 end2)
    (first_of (bounds_signal 2 3 start1 end1 length1) (bounds_signal 5 6 start2 end2 length2))).

Section Compare.

Context (w : world) (o1 o2 : object) (b1 b2 : nat) (s1 rest1 s2 rest2 : list Z) (i1 j1 i2 j2 : object) (start1 end1 start2 end2 : Z).
Context (S1 : string_at w o1 b1 s1 rest1) (S2 : string_at w o2 b2 s2 rest2).
Context (I1 : index_at w i1 start1) (J1 : index_at w j1 end1) (I2 : index_at w i2 start2) (J2 : index_at w j2 end2).

Notation signalled := (compare_signal start1 end1 (zlength s1) start2 end2 (zlength s2)).
Notation l1 := (range s1 start1 end1).
Notation l2 := (range s2 start2 end2).

Lemma compare_arguments : SUBSTRING_COMPARE_PREFIX o1 i1 j1 o2 i2 j2 w =
  match signalled with Some s => Return (inr s, w) | None => Return (inl ((In_block b1, 0), start1, end1, (In_block b2, 0), start2, end2), w) end.
Proof.
  unfold SUBSTRING_COMPARE_PREFIX, compare_signal.
  rewrite (sthen_return _ _ _ _ _ (check_string_ok _ _ _ _ _ 1 S1)), (sthen_return _ _ _ _ _ (string_pointer_ok _ _ _ _ _ S1)), (two_indices 2 3 _ _ _ _ _ _ I1 J1).
  destruct (sign_signal 2 3 start1 end1); [reflexivity|]. cbn [first_of].
  rewrite (sthen_return _ _ _ _ _ (check_string_ok _ _ _ _ _ 4 S2)), (sthen_return _ _ _ _ _ (string_pointer_ok _ _ _ _ _ S2)), (two_indices 5 6 _ _ _ _ _ _ I2 J2).
  destruct (sign_signal 5 6 start2 end2); [reflexivity|]. cbn [first_of].
  rewrite (sthen_return _ _ _ _ _ (string_length_ok _ _ _ _ _ S1)), two_bounds. destruct (bounds_signal 2 3 start1 end1 (zlength s1)); [reflexivity|]. cbn [first_of].
  rewrite (sthen_return _ _ _ _ _ (string_length_ok _ _ _ _ _ S2)), two_bounds. now destruct (bounds_signal 5 6 start2 end2 (zlength s2)).
Qed.

Lemma compare_fits : signalled = None -> (0 <= start1 <= end1 /\ end1 <= zlength s1) /\ (0 <= start2 <= end2 /\ end2 <= zlength s2).
Proof.
  intros [V1%sign_None [V2%sign_None [V3%bounds_None V4%bounds_None]%first_of_None]%first_of_None]%first_of_None. lia.
Qed.

(** The result of a comparison: the signal, or an object of which [P] holds. *)
Definition compared (P : object -> Prop) (r : outcome ((object + signal) * world)) : Prop :=
  match signalled with Some s => r = Return (inr s, w) | None => exists x, r = Return (inl x, w) /\ P x end.

Definition boolean_for (P : Prop) (x : object) : Prop := x = SHARP_T /\ P \/ x = SHARP_F /\ ~ P.

Lemma boolean_spec (b : bool) P : (b = true <-> P) -> boolean_for P (BOOLEAN_TO_OBJECT b).
Proof. intros E. destruct b; [left; split; [reflexivity|now apply E]|right; split; [reflexivity|]]. intros H. apply E in H. discriminate. Qed.

Section Ranges.

Context (N : signalled = None) (same : Z -> Z -> outcome bool) (g : Z -> Z) (C : compares same (compare_by g)).

Lemma range_lengths : length l1 = Z.to_nat (end1 - start1) /\ length l2 = Z.to_nat (end2 - start2).
Proof. destruct (compare_fits N) as [[R1 L1] [R2 L2]]. split; now apply length_range. Qed.

(** The loop, for as many bytes as the shorter range has. *)
Lemma loop_up n : n = Nat.min (length l1) (length l2) ->
  compare_up same n (byte_offset (In_block b1, 0) start1) (byte_offset (In_block b2, 0) start2) w = Return (inl (compare_lists (compare_by g) l1 l2), w).
Proof.
  intros ->. destruct (compare_fits N) as [[R1 L1] [R2 L2]]. unfold byte_offset. cbn [fst snd]. rewrite !Z.add_0_l.
  pose proof (compare_up_ok same _ w _ _ _ _ C (string_bytes_at _ _ _ _ _ S1) (string_bytes_at _ _ _ _ _ S2) l1 l2 (Z.to_nat start1) (Z.to_nat start2)
    (range_at s1 rest1 start1 end1 R1 L1) (range_at s2 rest2 start2 end2 R2 L2)) as E. now rewrite !Z2Nat.id in E by lia.
Qed.

Lemma loop_down n : n = Nat.min (length l1) (length l2) ->
  compare_down same n (byte_offset (In_block b1, 0) end1) (byte_offset (In_block b2, 0) end2) w = Return (inl (fst (compare_lists (compare_by g) (rev l1) (rev l2))), w).
Proof.
  intros ->. destruct (compare_fits N) as [[R1 L1] [R2 L2]]. destruct range_lengths as [N1 N2]. unfold byte_offset. cbn [fst snd]. rewrite !Z.add_0_l.
  pose proof (compare_down_ok same _ w _ _ _ _ C (string_bytes_at _ _ _ _ _ S1) (string_bytes_at _ _ _ _ _ S2) (rev l1) (rev l2) (Z.to_nat start1) (Z.to_nat start2)) as E.
  rewrite !rev_involutive, !length_rev in E. specialize (E (range_at s1 rest1 start1 end1 R1 L1) (range_at s2 rest2 start2 end2 R2 L2)).
  rewrite N1 in E at 2. rewrite N2 in E at 2. replace (Z.of_nat (Z.to_nat start1 + Z.to_nat (end1 - start1))) with end1 in E by lia.
  replace (Z.of_nat (Z.to_nat start2 + Z.to_nat (end2 - start2))) with end2 in E by lia. exact E.
Qed.

Lemma min_length : Z.to_nat (substring_length_min start1 end1 start2 end2) = Nat.min (length l1) (length l2).
Proof.
  destruct (compare_fits N), range_lengths as [-> ->]. unfold substring_length_min. cbv zeta. destruct (Z.ltb_spec (end1 - start1) (end2 - start2)); lia.
Qed.

Lemma small_fixnum n : (n <= length l1)%nat -> Immediate (Object.LONG_TO_UNSIGNED_FIXNUM (Z.of_nat n)) = fixnum (Z.of_nat n).
Proof.
  intros L. destruct (compare_fits N) as [[R1 L1] _]. destruct range_lengths as [E _]. rewrite E in L. pose proof (string_size _ _ _ _ _ S1). unfold fixnum. f_equal.
  apply unsigned_fixnum_object_ok; [lia|]. unfold fixnum_range, SMALLEST_FIXNUM, BIGGEST_FIXNUM. lia.
Qed.

End Ranges.

Lemma equal_ok same g : compares same (compare_by g) ->
  compared (boolean_for (map g l1 = map g l2)) (substring_equal same o1 i1 j1 o2 i2 j2 w).
Proof.
  intros C. unfold compared, substring_equal. pose proof compare_arguments as P. destruct signalled eqn:N; [now apply sthen_signal|]. rewrite (sthen_return _ _ _ _ _ P).
  destruct (compare_fits N), (range_lengths N) as [N1 N2].
  destruct (Z.eqb_spec (end1 - start1) (end2 - start2)) as [E|E]; cbn [negb].
  - rewrite (sthen_return _ _ _ _ _ (loop_up N same g C (Z.to_nat (end1 - start1)) ltac:(rewrite N1, N2; lia))). pose proof (compare_equal g l1 l2 ltac:(lia)) as Q.
    destruct (compare_lists _ _ _) as [k d]. cbn [snd] in Q. eexists. split; [reflexivity|].
    destruct d; [right; split; [reflexivity|intros M%Q; discriminate]|left; split; [reflexivity|now apply Q]].
  - eexists. split; [reflexivity|]. right. split; [reflexivity|]. intros M%(f_equal (@length Z)). rewrite !length_map in M. lia.
Qed.

Lemma less_ok : compared (boolean_for (comes_before l1 l2)) (Prim_substring_less o1 i1 j1 o2 i2 j2 w).
Proof.
  unfold compared, Prim_substring_less. pose proof compare_arguments as P. destruct signalled eqn:N; [now apply sthen_signal|]. rewrite (sthen_return _ _ _ _ _ P). cbv zeta.
  assert (C : compares same_byte (compare_by id)) by (intros c1 c2 _ _; reflexivity).
  rewrite (sthen_return _ _ _ _ _ (loop_up N same_byte id C _ (min_length N))). destruct (compare_fits N), (range_lengths N) as [N1 N2].
  pose proof (compare_less l1 l2) as Q. unfold less_result in Q. rewrite N1, N2, !Z2Nat.id in Q by lia. destruct (compare_lists _ _ _) as [k d]. cbn [snd] in Q.
  eexists. split; [reflexivity|]. now apply boolean_spec.
Qed.

Definition matched (g : Z -> Z) (x1 x2 : list Z) (x : object) : Prop := exists n, x = fixnum (Z.of_nat n) /\ longest_prefix g x1 x2 n.

Lemma forward_ok same g : compares same (compare_by g) -> compared (matched g l1 l2) (match_forward same o1 i1 j1 o2 i2 j2 w).
Proof.
  intros C. unfold compared, match_forward. pose proof compare_arguments as P. destruct signalled eqn:N; [now apply sthen_signal|]. rewrite (sthen_return _ _ _ _ _ P).
  rewrite (sthen_return _ _ _ _ _ (loop_up N same g C _ (min_length N))). destruct (compare_longest g l1 l2) as (n & E & Lp). destruct (compare_lists _ _ _) as [k d]. cbn [fst] in E. subst k.
  eexists. split; [now apply on_heap_ok|]. exists n. split; [|exact Lp]. apply small_fixnum; [exact N|]. destruct Lp. lia.
Qed.

Lemma backward_ok same g : compares same (compare_by g) -> compared (matched g (rev l1) (rev l2)) (match_backward same o1 i1 j1 o2 i2 j2 w).
Proof.
  intros C. unfold compared, match_backward. pose proof compare_arguments as P. destruct signalled eqn:N; [now apply sthen_signal|]. rewrite (sthen_return _ _ _ _ _ P).
  rewrite (sthen_return _ _ _ _ _ (loop_down N same g C _ (min_length N))). destruct (compare_longest g (rev l1) (rev l2)) as (n & E & Lp). rewrite E.
  eexists. split; [now apply on_heap_ok|]. exists n. split; [|exact Lp]. apply small_fixnum; [exact N|]. destruct Lp as [Lm _]. rewrite !length_rev in Lm. lia.
Qed.

End Compare.

Lemma same_byte_compares : compares same_byte (compare_by id).
Proof. now intros c1 c2 _ _. Qed.

Lemma same_letter_compares : compares same_letter (compare_by upcase_byte).
Proof.
  intros c1 c2 R1 R2. unfold same_letter. rewrite (proj1 (char_upcase_ok c1 R1)). cbn [bind]. now rewrite (proj1 (char_upcase_ok c2 R2)).
Qed.

(** ** Properties *)

(** C28: the comparisons of two ranges signal the first argument that is out of range, or else change
    nothing and return what equality of the bytes, equality up to the case of letters, and the
    lexicographic order say, and how long the longest common prefix and suffix of the ranges are,
    exactly and up to case. *)
Theorem substring_comparisons_correct w o1 b1 s1 rest1 i1 start1 j1 end1 o2 b2 s2 rest2 i2 start2 j2 end2 : string_at w o1 b1 s1 rest1 -> string_at w o2 b2 s2 rest2 ->
  index_at w i1 start1 -> index_at w j1 end1 -> index_at w i2 start2 -> index_at w j2 end2 ->
  let l1 := range s1 start1 end1 in
  let l2 := range s2 start2 end2 in
  let result := compared w s1 s2 start1 end1 start2 end2 in
  result (boolean_for (l1 = l2)) (Prim_substring_equal o1 i1 j1 o2 i2 j2 w) /\
  result (boolean_for (map upcase_byte l1 = map upcase_byte l2)) (Prim_substring_ci_equal o1 i1 j1 o2 i2 j2 w) /\
  result (boolean_for (comes_before l1 l2)) (Prim_substring_less o1 i1 j1 o2 i2 j2 w) /\
  result (matched id l1 l2) (Prim_match_forward o1 i1 j1 o2 i2 j2 w) /\
  result (matched upcase_byte l1 l2) (Prim_match_forward_ci o1 i1 j1 o2 i2 j2 w) /\
  result (matched id (rev l1) (rev l2)) (Prim_match_backward o1 i1 j1 o2 i2 j2 w) /\
  result (matched upcase_byte (rev l1) (rev l2)) (Prim_match_backward_ci o1 i1 j1 o2 i2 j2 w).
Proof.
  intros S1 S2 I1 J1 I2 J2 l1 l2 result. split; [|split; [|split; [|split; [|split; [|split]]]]].
  - pose proof (equal_ok w o1 o2 b1 b2 s1 rest1 s2 rest2 i1 j1 i2 j2 start1 end1 start2 end2 S1 S2 I1 J1 I2 J2 _ _ same_byte_compares) as E. now rewrite !map_id in E.
  - exact (equal_ok w o1 o2 b1 b2 s1 rest1 s2 rest2 i1 j1 i2 j2 start1 end1 start2 end2 S1 S2 I1 J1 I2 J2 _ _ same_letter_compares).
  - exact (less_ok w o1 o2 b1 b2 s1 rest1 s2 rest2 i1 j1 i2 j2 start1 end1 start2 end2 S1 S2 I1 J1 I2 J2).
  - exact (forward_ok w o1 o2 b1 b2 s1 rest1 s2 rest2 i1 j1 i2 j2 start1 end1 start2 end2 S1 S2 I1 J1 I2 J2 _ _ same_byte_compares).
  - exact (forward_ok w o1 o2 b1 b2 s1 rest1 s2 rest2 i1 j1 i2 j2 start1 end1 start2 end2 S1 S2 I1 J1 I2 J2 _ _ same_letter_compares).
  - exact (backward_ok w o1 o2 b1 b2 s1 rest1 s2 rest2 i1 j1 i2 j2 start1 end1 start2 end2 S1 S2 I1 J1 I2 J2 _ _ same_byte_compares).
  - exact (backward_ok w o1 o2 b1 b2 s1 rest1 s2 rest2 i1 j1 i2 j2 start1 end1 start2 end2 S1 S2 I1 J1 I2 J2 _ _ same_letter_compares).
Qed.

Lemma substring_comparisons_correct_witness :
  (exists x, Prim_substring_less (Pointer TC_CHARACTER_STRING 0) (fixnum 1) (fixnum 4) (Pointer TC_BYTEVECTOR 1) (fixnum 1) (fixnum 4) sample_world = Return (inl x, sample_world) /\
     boolean_for (comes_before [101; 108; 108] [101; 108; 112]) x) /\
  (exists x, Prim_match_forward (Pointer TC_CHARACTER_STRING 0) (fixnum 1) (fixnum 4) (Pointer TC_BYTEVECTOR 1) (fixnum 1) (fixnum 4) sample_world = Return (inl x, sample_world) /\
     matched id [101; 108; 108] [101; 108; 112] x).
Proof.
  assert (R : forall z, 0 <= z <= 69 -> index_at sample_world (fixnum z) z) by (intros z H; apply sample_index; unfold fixnum_range, SMALLEST_FIXNUM, BIGGEST_FIXNUM; lia).
  destruct (substring_comparisons_correct sample_world _ _ _ _ (fixnum 1) 1 (fixnum 4) 4 _ _ _ _ (fixnum 1) 1 (fixnum 4) 4 sample_hello (proj1 sample_help)) as (_ & _ & L & M & _);
    try (apply R; lia).
  split; [exact L|exact M].
Defined.
