(* ===== verification/Bytevectors.v ===== *)
(** * Bytevectors: filling and copying

    BYTEVECTOR-FILL! and BYTEVECTOR-COPY! change a range of the bytes of a
    bytevector; BYTEVECTOR-COPY makes a new bytevector of a range. *)

From Stdlib Require Import ZArith List Bool Lia.
From S2P Require Import Prelude Object Bytes Integer IntPrim Heap HeapPrim Intern BitStringPrim BitStringConv ListVector ExternalTable Strings StringPrim StringBytes StringLoops StringArgs StringMoves.
Import ListNotations.

#[local] Open Scope Z_scope.
#[local] Open Scope list_scope.

(** ** memmove and memset *)

Lemma read_range bytes i cs : bytes_at bytes i cs -> (i + length cs <= length bytes)%nat -> firstn (length cs) (skipn i bytes) = cs.
Proof.
  intros A L. apply nth_error_ext. intros k. rewrite nth_error_firstn. destruct (Nat.ltb_spec k (length cs)) as [K|K].
  - rewrite nth_error_skipn. destruct (nth_error cs k) as [c|] eqn:E; [now apply A|]. apply nth_error_None in E. lia.
  - symmetry. now apply nth_error_None.
Qed.

Lemma memmove_ok w p1 i1 p2 i2 bytes1 bytes2 cs : has_bytes w p1 bytes1 -> has_bytes w p2 bytes2 -> bytes_at bytes1 i1 cs ->
  (i1 + length cs <= length bytes1)%nat -> (i2 + length cs <= length bytes2)%nat ->
  exists w', memmove (p2, Z.of_nat i2) (p1, Z.of_nat i1) (zlength cs) w = Return (inl tt, w') /\ rewritten p2 (splice i2 cs bytes2) w w'.
Proof.
  intros [B1 Ok1] [B2 Ok2] A L1 L2. unfold memmove. cbn [fst snd]. rewrite B1, B2, !Nat2Z.id.
  rewrite !(proj2 (Z.leb_le _ _)) by lia. cbn [andb]. rewrite (read_range _ _ _ A L1). eexists. split; [reflexivity|].
  apply set_bytes_ok with bytes2; [exact B2|]. split; [apply (length_splice i2 cs bytes2 L2)|]. apply splice_bytes_ok; [|exact Ok2].
  apply Forall_forall. intros c (k & E)%In_nth_error. apply (proj1 (Forall_forall _ _) Ok1), nth_error_In with (i1 + k)%nat. now apply A.
Qed.

Lemma memset_ok w p i bytes v n : has_bytes w p bytes -> (i + n <= length bytes)%nat ->
  exists w', memset (p, Z.of_nat i) v (Z.of_nat n) w = Return (inl tt, w') /\ rewritten p (splice i (repeat (Z.land v 255) n) bytes) w w'.
Proof.
  intros [B Ok] L. unfold memset. cbn [fst snd]. rewrite B, !Nat2Z.id. rewrite !(proj2 (Z.leb_le _ _)) by lia. cbn [andb]. eexists. split; [reflexivity|].
  unfold splice. rewrite repeat_length. apply set_bytes_ok with bytes; [exact B|]. split.
  - rewrite !length_app, length_firstn, length_skipn, repeat_length. lia.
  - apply Forall_app. split; [now apply Forall_cut|]. apply Forall_app. split; [|now apply Forall_cut]. apply Forall_forall. intros c ->%repeat_spec. apply land_byte.
Qed.

(** ** BYTEVECTOR-FILL! *)

(** An index from 0 up to [limit]. *)
Definition limit_signal (n z limit : Z) : option signal := if (z <? 0) || (limit <? z) then Some (bad_range_arg n) else None.

Lemma limit_None n z limit : limit_signal n z limit = None -> 0 <= z <= limit.
Proof. unfold limit_signal. destruct (Z.ltb_spec z 0), (Z.ltb_spec limit z); try discriminate. lia. Qed.

Lemma limit_index {B} n limit o z (k : Z -> string_procedure B) w : index_at w o z -> 0 <= limit < 2 ^ 57 ->
  sthen (ulong_index_argument n (limit + 1) o) k w = match limit_signal n z limit with Some s => Return (inr s, w) | None => k z w end.
Proof. intros I L. rewrite (ulong_index n _ _ _ _ _ I), in_limit by lia. unfold limit_signal. now destruct (_ || _). Qed.

Definition fill_signal (value start end_index length : Z) : option signal :=
  first_of (byte_signal 2 value) (first_of (limit_signal 4 end_index length) (limit_signal 3 start end_index)).

Lemma bytevector_fill_ok w o b s rest v i1 i2 start end_index : bytevector_at w o b s rest -> fixnum_range v -> index_at w i1 start -> index_at w i2 end_index ->
  match fill_signal v start end_index (zlength s) with
  | Some sg => Prim_bytevector_fill o (fixnum v) i1 i2 w = Return (inr sg, w)
  | None => exists w', Prim_bytevector_fill o (fixnum v) i1 i2 w = Return (inl UNSPECIFIC, w') /\
      string_replaced (In_block b) (splice (Z.to_nat start) (repeat v (Z.to_nat (end_index - start))) s) rest w w'
  end.
Proof.
  intros S V I1 I2. unfold Prim_bytevector_fill, fill_signal. rewrite (sthen_return _ _ _ _ _ (arg_bytevector_ok _ _ _ _ _ 1 S)), byte_argument by exact V.
  pose proof (string_size _ _ _ _ _ (proj1 S)) as L. unfold byte_signal. destruct (_ && _) eqn:Vb; [|reflexivity]. cbn [first_of].
  apply andb_prop in Vb as [V1%Z.leb_le V2%Z.ltb_lt].
  rewrite (limit_index 4 _ _ _ _ _ I2) by lia. destruct (limit_signal 4 end_index (zlength s)) eqn:L4; [reflexivity|]. apply limit_None in L4. cbn [first_of].
  rewrite (limit_index 3 _ _ _ _ _ I1) by lia. destruct (limit_signal 3 start end_index) eqn:L3; [reflexivity|]. apply limit_None in L3.
  pose proof (string_bytes_at _ _ _ _ _ (proj1 S)) as H. unfold byte_offset. cbn [fst snd]. rewrite Z.add_0_l.
  destruct (memset_ok w (In_block b) (Z.to_nat start) _ v (Z.to_nat (end_index - start)) H) as (w' & E & W); [rewrite length_app; lia|].
  rewrite !Z2Nat.id in E by lia. exists w'. split; [now rewrite (sthen_return _ _ _ _ _ E)|]. rewrite land_byte_same in W by lia.
  apply rewritten_string; auto; rewrite ?repeat_length; [|lia]. apply Forall_forall. intros c ->%repeat_spec. lia.
Qed.

(** ** BYTEVECTOR-COPY! *)

Definition copy_signal (to_start to_length from_start from_end from_length : Z) : option signal :=
  first_of (limit_signal 2 to_start to_length) (first_of (limit_signal 5 from_end from_length)
    (first_of (limit_signal 4 from_start from_end) (if to_length <? to_start + (from_end - from_start) then Some (bad_range_arg 5) else None))).

Lemma bytevector_copyx_ok w o1 b1 s1 rest1 o2 b2 s2 rest2 i1 i2 i3 to_start from_start from_end : bytevector_at w o1 b1 s1 rest1 -> bytevector_at w o2 b2 s2 rest2 ->
  index_at w i1 to_start -> index_at w i2 from_start -> index_at w i3 from_end ->
  match copy_signal to_start (zlength s1) from_start from_end (zlength s2) with
  | Some sg => Prim_bytevector_copyx o1 i1 o2 i2 i3 w = Return (inr sg, w)
  | None => exists i w', Prim_bytevector_copyx o1 i1 o2 i2 i3 w = Return (inl i, w') /\ canonical (to_start + (from_end - from_start)) i /\
      string_replaced (In_block b1) (splice (Z.to_nat to_start) (range s2 from_start from_end) s1) rest1 w w'
  end.
Proof.
  intros S1 S2 I1 I2 I3. unfold Prim_bytevector_copyx, copy_signal. pose proof (string_size _ _ _ _ _ (proj1 S1)) as L1. pose proof (string_size _ _ _ _ _ (proj1 S2)) as L2.
  rewrite (sthen_return _ _ _ _ _ (arg_bytevector_ok _ _ _ _ _ 1 S1)), (limit_index 2 _ _ _ _ _ I1) by lia.
  destruct (limit_signal 2 to_start (zlength s1)) eqn:N2; [reflexivity|]. apply limit_None in N2. cbn [first_of].
  rewrite (sthen_return _ _ _ _ _ (arg_bytevector_ok _ _ _ _ _ 3 S2)), (limit_index 5 _ _ _ _ _ I3) by lia.
  destruct (limit_signal 5 from_end (zlength s2)) eqn:N5; [reflexivity|]. apply limit_None in N5. cbn [first_of].
  rewrite (limit_index 4 _ _ _ _ _ I2) by lia. destruct (limit_signal 4 from_start from_end) eqn:N4; [reflexivity|]. apply limit_None in N4. cbn [first_of].
  cbv zeta. rewrite range_check_ok, to_ulong_small, Z.gtb_ltb by lia. destruct (Z.ltb_spec (zlength s1) (to_start + (from_end - from_start))); [reflexivity|]. cbn [negb].
  pose proof (string_bytes_at _ _ _ _ _ (proj1 S1)) as H1. pose proof (string_bytes_at _ _ _ _ _ (proj1 S2)) as H2. unfold byte_offset. cbn [fst snd]. rewrite !Z.add_0_l.
  pose proof (length_range s2 from_start from_end ltac:(lia) ltac:(lia)) as Ln.
  destruct (memmove_ok w (In_block b2) (Z.to_nat from_start) (In_block b1) (Z.to_nat to_start) _ _ (range s2 from_start from_end) H2 H1) as (w' & E & W).
  { apply range_at; lia. } { rewrite length_app; lia. } { rewrite length_app; lia. }
  rewrite Ln, !Z2Nat.id in E by lia. destruct (ulong_to_integer_ok (to_start + (from_end - from_start))) as (i & Ei & Ci); [unfold ulong_p; lia|].
  exists i, w'. split; [rewrite (sthen_return _ _ _ _ _ E); unfold pure_outcome; now rewrite Ei|]. split; [exact Ci|].
  apply rewritten_string; auto; [|lia]. apply Forall_forall. apply range_bytes with rest2. apply H2.
Qed.

(** ** BYTEVECTOR-COPY *)

(** Nothing that was in [w] is changed in [w']. *)
Record grown (w w' : world) : Prop := {
  grown_bytes : forall base bytes, bytes_of base w = Some bytes -> bytes_of base w' = Some bytes;
  grown_words : forall a x, content (scheme w) a = Some x -> content (scheme w') a = Some x;
  grown_table : external_strings w' = external_strings w
}.

Section Allocation.

Context (stale : heap -> nat -> Z).

(** The words of a new bytevector of [n] bytes, without the header. *)
Definition bytevector_words (n : Z) : Z := (n + 8) / 8 + 1.

Lemma grown_rewritten w b w1 w2 : grown w w1 -> b = length (blocks (scheme w)) -> forall bytes, rewritten (In_block b) bytes w1 w2 -> grown w w2.
Proof.
  intros G -> bytes R. constructor.
  - intros base bs B. rewrite (other_bytes _ _ _ _ R); [now apply (grown_bytes _ _ G)|]. intros ->. cbn [bytes_of] in B.
    destruct (block_of (scheme w) _) eqn:Bk; [|discriminate]. apply block_lt in Bk. lia.
  - intros a x C. rewrite (same_content _ _ _ (other_words _ _ _ _ R)); [now apply (grown_words _ _ G)|].
    intros [Eb _]. injection Eb as Eb. destruct a as [c i]. apply content_lt in C. cbn [fst] in Eb. lia.
  - rewrite (same_external _ _ _ _ R). apply (grown_table _ _ G).
Qed.

(** An allocated block of which the length word is set. *)
Definition fresh_words (n : Z) (h : heap) : list object :=
  MAKE_OBJECT TC_MANIFEST_NM_VECTOR (bytevector_words n) :: MAKE_OBJECT 0 n :: map (fun i => Immediate (to_ulong (stale h i))) (seq 1 (Z.to_nat ((n + 8) / 8))).

Lemma bytevector_allocated n w : 0 <= n < 2 ^ 57 -> GC_NEEDED_P (1 + bytevector_words n) (scheme w) = false ->
  let b := length (blocks (scheme w)) in
  exists w1, in_scheme (allocate_non_marked_vector stale TC_BYTEVECTOR (bytevector_words n) true) w = Return (inl (Pointer TC_BYTEVECTOR b), w1) /\
  exists w2, SET_BYTEVECTOR_LENGTH (Pointer TC_BYTEVECTOR b) n w1 = Return (inl tt, w2) /\ block_of (scheme w2) b = Some (fresh_words n (scheme w)) /\ grown w w2.
Proof.
  intros R G b. pose proof (Z.div_pos (n + 8) 8 ltac:(lia) ltac:(lia)) as P. set (h := scheme w) in *. unfold bytevector_words in *.
  set (words := MAKE_OBJECT TC_MANIFEST_NM_VECTOR ((n + 8) / 8 + 1) :: Immediate (to_ulong (stale h 0%nat)) :: map (fun i => Immediate (to_ulong (stale h i))) (seq 1 (Z.to_nat ((n + 8) / 8)))).
  exists (with_scheme (allocated h words) w). split.
  { unfold in_scheme, on_heap, run_operation, allocate_non_marked_vector, Primitive_GC_If_Needed, andthen. fold h. rewrite G. cbn [bind].
    unfold allocate_vector_nm, allocate. replace (Z.to_nat ((n + 8) / 8 + 1)) with (S (Z.to_nat ((n + 8) / 8))) by lia. reflexivity. }
  exists (with_scheme (stored (allocated h words) (b, 1%nat) (MAKE_OBJECT 0 n)) w).
  assert (B : block_of (allocated h words) b = Some words) by apply block_allocated_new.
  split; [|split].
  - unfold SET_BYTEVECTOR_LENGTH, in_scheme, on_heap, run_operation. cbn [scheme with_scheme].
    rewrite (MEMORY_SET_ok _ TC_BYTEVECTOR b 1 (Immediate (to_ulong (stale h 0%nat)))); [reflexivity|]. unfold content. cbn [fst snd]. now rewrite B.
  - cbn [scheme with_scheme]. now rewrite block_stored, Nat.eqb_refl, B.
  - assert (K : forall c ws, block_of h c = Some ws -> block_of (stored (allocated h words) (b, 1%nat) (MAKE_OBJECT 0 n)) c = Some ws).
    { intros c ws E. pose proof (block_lt _ _ _ E). rewrite block_stored. destruct (Nat.eqb_spec b c); [unfold b in *; lia|]. now rewrite block_allocated_old. }
    constructor; [| |reflexivity].
    + intros [c|key] bytes; [|auto]. cbn [bytes_of with_scheme scheme]. fold h. destruct (block_of h c) as [ws|] eqn:E; [|discriminate]. now rewrite (K c ws E).
    + intros [c i] x C. cbn [with_scheme scheme]. unfold content in *. cbn [fst snd] in *. fold h in C. destruct (block_of h c) as [ws|] eqn:E; [|discriminate]. now rewrite (K c ws E).
Qed.

Lemma fresh_bytes n h : 0 <= n -> exists bytes, data_bytes (fresh_words n h) = Some bytes /\ bytes_ok bytes /\ n < zlength bytes.
Proof.
  intros R. unfold data_bytes, fresh_words. cbn [skipn BYTEVECTOR_DATA]. rewrite <- map_map with (f := fun i => to_ulong (stale h i)) (g := Immediate), raw_words_map.
  cbn [option_map]. eexists. split; [reflexivity|]. split; [apply words_bytes_ok|]. rewrite words_bytes_length, length_map, length_seq.
  pose proof (Z.div_mod (n + 8) 8 ltac:(lia)). pose proof (Z.mod_pos_bound (n + 8) 8 ltac:(lia)). lia.
Qed.

(** The new block is a bytevector of [n] bytes and a zero byte. *)
Lemma allocate_bytevector_ok n w : 0 <= n < 2 ^ 57 -> GC_NEEDED_P (1 + bytevector_words n) (scheme w) = false ->
  let b := length (blocks (scheme w)) in
  exists w' bytes, allocate_bytevector stale n w = Return (inl (Pointer TC_BYTEVECTOR b), w') /\ grown w w' /\ has_bytes w' (In_block b) bytes /\
    content (scheme w') (b, BYTEVECTOR_LENGTH_INDEX) = Some (MAKE_OBJECT 0 n) /\ n < zlength bytes /\ nth_error bytes (Z.to_nat n) = Some 0.
Proof.
  intros R G b. destruct (bytevector_allocated n w R G) as (w1 & E1 & w2 & E2 & B2 & G2). fold b in E1, E2, B2. destruct (fresh_bytes n (scheme w) ltac:(lia)) as (bytes & D & Ok & L).
  assert (H2 : has_bytes w2 (In_block b) bytes) by (split; [cbn [bytes_of]; now rewrite B2|exact Ok]).
  destruct (byte_stored w2 (In_block b) bytes (Z.to_nat n) 0 H2 ltac:(lia)) as (w' & E3 & R3). rewrite Z2Nat.id in E3 by lia.
  exists w', (update (Z.to_nat n) 0 bytes). unfold allocate_bytevector. rewrite (to_ulong_small (n + 1)), to_ulong_small by (unfold SIZEOF_SCHEME_OBJECT; lia). cbv zeta.
  unfold SIZEOF_SCHEME_OBJECT. replace ((n + 1 + (8 - 1)) / 8 + 1) with (bytevector_words n) by (unfold bytevector_words; do 2 f_equal; lia).
  rewrite (sthen_return _ _ _ _ _ E1), (sthen_return _ _ _ _ _ E2). unfold STRING_SET. rewrite (sthen_return _ _ w2 tt w') by exact E3.
  split; [reflexivity|]. split; [now apply (grown_rewritten w b w2 w' G2 eq_refl _ R3)|]. split; [|split; [|split]].
  - apply (has_bytes_rewritten w2 w' (In_block b) bytes (Z.to_nat n) 0 H2); [lia|exact R3].
  - rewrite (same_content _ _ _ (other_words _ _ _ _ R3)); [unfold content; cbn [fst snd]; now rewrite B2|]. intros [_ K]. cbn [snd] in K. unfold BYTEVECTOR_DATA, BYTEVECTOR_LENGTH_INDEX in K. lia.
  - now rewrite length_update.
  - apply nth_error_update_eq. lia.
Qed.

(** The string that a splice of all the bytes before the zero byte makes. *)
Lemma splice_start (s bytes : list Z) : nth_error bytes (length s) = Some 0 -> exists rest, splice 0 s bytes = s ++ 0 :: rest.
Proof.
  intros E. unfold splice. cbn [firstn app plus]. exists (skipn (S (length s)) bytes). f_equal. revert E. generalize (length s). intros n. revert bytes.
  induction n as [|n IH]; intros [|c bytes] E; try discriminate; cbn [skipn]; [now injection E as ->|]. now apply IH.
Qed.

Definition range_copy_signal (start end_index length : Z) : option signal := first_of (limit_signal 3 end_index length) (limit_signal 2 start end_index).

Lemma bytevector_copy_ok w o b0 s rest i1 i2 start end_index : bytevector_at w o b0 s rest -> index_at w i1 start -> index_at w i2 end_index ->
  match range_copy_signal start end_index (zlength s) with
  | Some sg => Prim_bytevector_copy stale o i1 i2 w = Return (inr sg, w)
  | None =>
      if GC_NEEDED_P (1 + bytevector_words (end_index - start)) (scheme w) then Prim_bytevector_copy stale o i1 i2 w = Exception
      else let b := length (blocks (scheme w)) in
        exists w' rest', Prim_bytevector_copy stale o i1 i2 w = Return (inl (Pointer TC_BYTEVECTOR b), w') /\ grown w w' /\
          bytevector_at w' (Pointer TC_BYTEVECTOR b) b (range s start end_index) (0 :: rest')
  end.
Proof.
  intros S I1 I2. unfold Prim_bytevector_copy, range_copy_signal. pose proof (string_size _ _ _ _ _ (proj1 S)) as L.
  rewrite (sthen_return _ _ _ _ _ (arg_bytevector_ok _ _ _ _ _ 1 S)), (limit_index 3 _ _ _ _ _ I2) by lia.
  destruct (limit_signal 3 end_index (zlength s)) eqn:N3; [reflexivity|]. apply limit_None in N3. cbn [first_of].
  rewrite (limit_index 2 _ _ _ _ _ I1) by lia. destruct (limit_signal 2 start end_index) eqn:N2; [reflexivity|]. apply limit_None in N2.
  unfold byte_offset. cbn [fst snd]. rewrite Z.add_0_l. unfold memory_to_bytevector. destruct (GC_NEEDED_P _ (scheme w)) eqn:G.
  - unfold allocate_bytevector. rewrite (to_ulong_small (end_index - start + 1)), to_ulong_small by (unfold SIZEOF_SCHEME_OBJECT; lia). cbv zeta.
    unfold sthen at 1. unfold sthen at 1. unfold in_scheme, on_heap, run_operation, allocate_non_marked_vector, Primitive_GC_If_Needed, andthen.
    unfold bytevector_words in G. unfold SIZEOF_SCHEME_OBJECT. replace (end_index - start + 1 + (8 - 1)) with (end_index - start + 8) by lia. now rewrite G.
  - set (b := length (blocks (scheme w))). destruct (allocate_bytevector_ok (end_index - start) w ltac:(lia) G) as (w1 & bytes & E1 & G1 & H1 & C1 & L1 & Z1). fold b in E1, H1, C1.
    rewrite (sthen_return _ _ _ _ _ E1). pose proof (string_bytes_at _ _ _ _ _ (proj1 S)) as [B0 Ok0].
    pose proof (length_range s start end_index ltac:(lia) ltac:(lia)) as Ln.
    assert (H0 : has_bytes w1 (In_block b0) (s ++ rest)) by (split; [now apply (grown_bytes _ _ G1)|exact Ok0]).
    destruct (memmove_ok w1 (In_block b0) (Z.to_nat start) (In_block b) 0 _ _ (range s start end_index) H0 H1) as (w' & E & R).
    { apply range_at; lia. } { rewrite length_app; lia. } { lia. }
    rewrite <- Ln in Z1. destruct (splice_start _ _ Z1) as (rest' & Er). rewrite Ln, !Z2Nat.id in E by lia.
    exists w', rest'. split; [|split].
    + rewrite (sthen_return (STRING_POINTER _) _ w1 (In_block b, 0) w1) by reflexivity. now rewrite (sthen_return _ _ _ _ _ E).
    + now apply (grown_rewritten w b w1 w' G1 eq_refl _ R).
    + split; [|reflexivity]. constructor; [|split; [rewrite <- Er; apply (new_bytes _ _ _ _ R)|rewrite <- Er; apply splice_bytes_ok; [|apply H1]]|lia].
      * exists TC_BYTEVECTOR, (Object.MAKE_OBJECT 0 (end_index - start)). split; [reflexivity|]. split; [|split; [|right; now left]].
        -- rewrite (same_content _ _ _ (other_words _ _ _ _ R)); [exact C1|]. intros [_ K]. cbn [snd] in K. unfold BYTEVECTOR_DATA, BYTEVECTOR_LENGTH_INDEX in K. lia.
        -- rewrite OBJECT_DATUM_mod, MAKE_OBJECT_sum by lia. rewrite Z.mul_0_r, Z.add_0_r, Z.mod_small by lia. lia.
      * apply Forall_forall. apply range_bytes with rest. exact Ok0.
Qed.

End Allocation.

(** ** Properties *)

(** C33: BYTEVECTOR-COPY! copies the bytes as they were before the call to their new place, also between
    overlapping parts of one bytevector, returns the end of the range it wrote and changes nothing else;
    BYTEVECTOR-COPY makes a new bytevector of the range with a zero byte after it and leaves all that
    was there as it was, or stops for a garbage collection; BYTEVECTOR-FILL! changes exactly its range;
    each signals the first argument that is out of range and then changes nothing. *)
Theorem bytevector_copies_correct stale w o b s rest i1 start i2 end_index : bytevector_at w o b s rest -> index_at w i1 start -> index_at w i2 end_index ->
  (forall to b1 s1 rest1 i3 to_start, bytevector_at w to b1 s1 rest1 -> index_at w i3 to_start ->
     match copy_signal to_start (zlength s1) start end_index (zlength s) with
     | Some sg => Prim_bytevector_copyx to i3 o i1 i2 w = Return (inr sg, w)
     | None => exists i w', Prim_bytevector_copyx to i3 o i1 i2 w = Return (inl i, w') /\ canonical (to_start + (end_index - start)) i /\
         string_replaced (In_block b1) (splice (Z.to_nat to_start) (range s start end_index) s1) rest1 w w'
     end) /\
  match range_copy_signal start end_index (zlength s) with
  | Some sg => Prim_bytevector_copy stale o i1 i2 w = Return (inr sg, w)
  | None =>
      if GC_NEEDED_P (1 + bytevector_words (end_index - start)) (scheme w) then Prim_bytevector_copy stale o i1 i2 w = Exception
      else let new := length (blocks (scheme w)) in
        exists w' rest', Prim_bytevector_copy stale o i1 i2 w = Return (inl (Pointer TC_BYTEVECTOR new), w') /\ grown w w' /\
          bytevector_at w' (Pointer TC_BYTEVECTOR new) new (range s start end_index) (0 :: rest')
  end /\
  (forall v, fixnum_range v -> match fill_signal v start end_index (zlength s) with
     | Some sg => Prim_bytevector_fill o (fixnum v) i1 i2 w = Return (inr sg, w)
     | None => exists w', Prim_bytevector_fill o (fixnum v) i1 i2 w = Return (inl UNSPECIFIC, w') /\
         string_replaced (In_block b) (splice (Z.to_nat start) (repeat v (Z.to_nat (end_index - start))) s) rest w w'
     end).
Proof.
  intros S I1 I2. split; [|split].
  - intros to b1 s1 rest1 i3 to_start S1 I3. now apply bytevector_copyx_ok with (rest2 := rest) (b2 := b).
  - now apply bytevector_copy_ok with (rest := rest) (b0 := b).
  - intros v V. now apply bytevector_fill_ok.
Qed.

Lemma bytevector_copies_correct_witness :
  (exists i w', Prim_bytevector_copyx (Pointer TC_BYTEVECTOR 1) (fixnum 1) (Pointer TC_BYTEVECTOR 1) (fixnum 0) (fixnum 3) sample_world = Return (inl i, w') /\ canonical 4 i /\
     string_replaced (In_block 1) [104; 104; 101; 108] [0; 0; 0; 0] sample_world w') /\
  (exists w' rest', Prim_bytevector_copy (fun _ _ => 0) (Pointer TC_BYTEVECTOR 1) (fixnum 0) (fixnum 3) sample_world = Return (inl (Pointer TC_BYTEVECTOR 3), w') /\
     grown sample_world w' /\ bytevector_at w' (Pointer TC_BYTEVECTOR 3) 3 [104; 101; 108] (0 :: rest')).
Proof.
  assert (R : forall z, 0 <= z <= 69 -> index_at sample_world (fixnum z) z) by (intros z H; apply sample_index; unfold fixnum_range, SMALLEST_FIXNUM, BIGGEST_FIXNUM; lia).
  destruct (bytevector_copies_correct (fun _ _ => 0) sample_world _ _ _ _ (fixnum 0) 0 (fixnum 3) 3 sample_help (R 0 ltac:(lia)) (R 3 ltac:(lia))) as (X & N & _).
  split; [exact (X _ _ _ _ (fixnum 1) 1 sample_help (R 1 ltac:(lia)))|exact N].
Defined.
