(* ===== verification/Machine.v ===== *)
(** * The registers and the stack of the interpreter

    The state that interp.c, interp.h, stack.h and the error and interrupt
    half of utils.c work on: the heap, the stack, the registers, and the
    pending and enabled interrupts.  The stack is a list with its top first.
    The history (a debugging aid) is switched off, as DISABLE_HISTORY does;
    its register is still saved and restored around errors and interrupts. *)

From Stdlib Require Import ZArith List Bool Lia.
From S2P Require Import Prelude Object Heap HeapPrim Intern Environment Lookup ListPrim VectorPrim.
Import ListNotations.

#[local] Open Scope Z_scope.

(** [stack_guard] is the number of words that can be on the stack when it is checked.
    The registers carry the names of their GET_ macros. *)
Record machine : Type := Machine {
  memory : heap;
  stack : list object;
  stack_guard : Z;
  EXP : object;
  ENV : object;
  VAL : object;
  RET : object;
  INT_CODE : Z;
  INT_MASK : Z;
  history_register : object;
  prev_restore_history_offset : Z;
  fixed_objects : object
}.

Definition microcode (A : Type) : Type := machine -> outcome (A * machine).

Definition mret {A} (a : A) : microcode A := fun m => Return (a, m).

Definition mthen {A B} (m : microcode A) (k : A -> microcode B) : microcode B :=
  fun s => bind (m s) (fun '(a, s') => k a s').

Declare Scope microcode_machine_scope.
Delimit Scope microcode_machine_scope with machine.

Notation "x <- m ;; k" := (mthen m (fun x => k))
  (at level 60, m at next level, right associativity) : microcode_machine_scope.
Notation "' p <- m ;; k" := (mthen m (fun x => match x with p => k end))
  (at level 60, p pattern, m at next level, right associativity) : microcode_machine_scope.
Notation "m ;; k" := (mthen m (fun _ => k))
  (at level 60, right associativity) : microcode_machine_scope.

#[local] Open Scope microcode_machine_scope.

(** ** Registers *)

Definition GET {A} (f : machine -> A) : microcode A := fun m => Return (f m, m).

Definition with_memory (h : heap) (m : machine) : machine :=
  Machine h (stack m) (stack_guard m) (EXP m) (ENV m) (VAL m) (RET m) (INT_CODE m) (INT_MASK m) (history_register m) (prev_restore_history_offset m) (fixed_objects m).
Definition with_stack (s : list object) (m : machine) : machine :=
  Machine (memory m) s (stack_guard m) (EXP m) (ENV m) (VAL m) (RET m) (INT_CODE m) (INT_MASK m) (history_register m) (prev_restore_history_offset m) (fixed_objects m).
Definition with_EXP (o : object) (m : machine) : machine :=
  Machine (memory m) (stack m) (stack_guard m) o (ENV m) (VAL m) (RET m) (INT_CODE m) (INT_MASK m) (history_register m) (prev_restore_history_offset m) (fixed_objects m).
Definition with_ENV (o : object) (m : machine) : machine :=
  Machine (memory m) (stack m) (stack_guard m) (EXP m) o (VAL m) (RET m) (INT_CODE m) (INT_MASK m) (history_register m) (prev_restore_history_offset m) (fixed_objects m).
Definition with_VAL (o : object) (m : machine) : machine :=
  Machine (memory m) (stack m) (stack_guard m) (EXP m) (ENV m) o (RET m) (INT_CODE m) (INT_MASK m) (history_register m) (prev_restore_history_offset m) (fixed_objects m).
Definition with_RET (o : object) (m : machine) : machine :=
  Machine (memory m) (stack m) (stack_guard m) (EXP m) (ENV m) (VAL m) o (INT_CODE m) (INT_MASK m) (history_register m) (prev_restore_history_offset m) (fixed_objects m).
Definition with_interrupts (code mask : Z) (m : machine) : machine :=
  Machine (memory m) (stack m) (stack_guard m) (EXP m) (ENV m) (VAL m) (RET m) code mask (history_register m) (prev_restore_history_offset m) (fixed_objects m).
Definition with_history (register : object) (offset : Z) (m : machine) : machine :=
  Machine (memory m) (stack m) (stack_guard m) (EXP m) (ENV m) (VAL m) (RET m) (INT_CODE m) (INT_MASK m) register offset (fixed_objects m).

Definition UPDATE (f : machine -> machine) : microcode unit := fun m => Return (tt, f m).

Definition SET_EXP (o : object) : microcode unit := UPDATE (with_EXP o).
Definition SET_ENV (o : object) : microcode unit := UPDATE (with_ENV o).
Definition SET_VAL (o : object) : microcode unit := UPDATE (with_VAL o).
Definition SET_RET (o : object) : microcode unit := UPDATE (with_RET o).

Definition TC_RETURN_CODE : Z := 0x0B.
Definition MAKE_RETURN_CODE (n : Z) : object := MAKE_OBJECT TC_RETURN_CODE n.
Definition SET_RC (code : Z) : microcode unit := SET_RET (MAKE_RETURN_CODE code).

(** An operation on the heap. *)
Definition in_heap {A} (op : operation A) : microcode A := fun m =>
  bind (op (memory m)) (fun '(a, h) => Return (a, with_memory h m)).

(** ** The stack *)

Definition STACK_PUSH (o : object) : microcode unit := UPDATE (fun m => with_stack (o :: stack m) m).

Definition STACK_POP : microcode object := fun m =>
  match stack m with o :: s => Return (o, with_stack s m) | [] => Wild end.

Definition STACK_REF (i : nat) : microcode object := fun m =>
  match nth_error (stack m) i with Some o => Return (o, m) | None => Wild end.

Definition SET_STACK_REF (i : nat) (o : object) : microcode unit := fun m =>
  if Nat.ltb i (length (stack m)) then Return (tt, with_stack (update i o (stack m)) m) else Wild.

(** [stack_pointer = (STACK_LOC (n))]. *)
Definition STACK_DROP (n : nat) : microcode unit := fun m =>
  if Nat.leb n (length (stack m)) then Return (tt, with_stack (skipn n (stack m)) m) else Wild.

Definition PUSH_ENV : microcode unit := e <- GET ENV ;; STACK_PUSH e.
Definition PUSH_EXP : microcode unit := e <- GET EXP ;; STACK_PUSH e.
Definition PUSH_RET : microcode unit := r <- GET RET ;; STACK_PUSH r.
Definition POP_ENV : microcode unit := e <- STACK_POP ;; SET_ENV e.
Definition POP_EXP : microcode unit := e <- STACK_POP ;; SET_EXP e.
Definition POP_RET : microcode unit := r <- STACK_POP ;; SET_RET r.

Definition SAVE_CONT : microcode unit := PUSH_EXP ;; PUSH_RET.
Definition RESTORE_CONT : microcode unit := POP_RET ;; POP_EXP.

Definition CONTINUATION_SIZE : Z := 2.

(** ** Interrupts *)

Definition INT_Stack_Overflow : Z := 0x1.
Definition INT_GC : Z := 0x4.
Definition MAX_INTERRUPT_NUMBER : Z := 0xF.

(** The bit of INT_GC is set together with [gc_space_needed], and read off it. *)
Definition GET_INT_CODE (m : machine) : Z :=
  match gc_space_needed (memory m) with Some _ => Z.lor (INT_CODE m) INT_GC | None => INT_CODE m end.

Definition PENDING_INTERRUPTS (m : machine) : Z := Z.land (INT_MASK m) (GET_INT_CODE m).
Definition PENDING_INTERRUPTS_P (m : machine) : bool := negb (PENDING_INTERRUPTS m =? 0).

Definition INTERRUPT_ENABLED_P (mask code : Z) : bool := negb (Z.land mask code =? 0).

(** GC_ENABLED_P, which the heap carries, is the bit of INT_GC in the mask. *)
Definition heap_under (mask : Z) (h : heap) : heap :=
  Heap (blocks h) (available h) (INTERRUPT_ENABLED_P mask INT_GC) (gc_space_needed h) (non_object h) (obarray h).

Definition SET_INTERRUPT_MASK (mask : Z) : microcode unit :=
  UPDATE (fun m => with_interrupts (INT_CODE m) mask (with_memory (heap_under mask (memory m)) m)).
Definition REQUEST_INTERRUPT (code : Z) : microcode unit := UPDATE (fun m => with_interrupts (Z.lor (INT_CODE m) code) (INT_MASK m) m).
Definition REQUEST_GC (n : Z) : microcode unit := UPDATE (fun m => with_memory (Heap.REQUEST_GC n (memory m)) m).

Definition CAN_PUSH_P (n : Z) (m : machine) : bool := zlength (stack m) + n <=? stack_guard m.

(** The stack that is full to its end, a fatal error, is not represented: the
    words between the guard and the end are taken to be enough. *)
Definition STACK_CHECK (n : Z) : microcode unit :=
  ok <- GET (CAN_PUSH_P n) ;; if ok then mret tt else REQUEST_INTERRUPT INT_Stack_Overflow.

Definition Will_Push : Z -> microcode unit := STACK_CHECK.

(** ** Application frames *)

Definition PUSH_APPLY_FRAME_HEADER (n_args : Z) : microcode unit := STACK_PUSH (MAKE_OBJECT 0 (n_args + 1)).
Definition APPLY_FRAME_HEADER_N_ARGS (header : object) : outcome Z := bind (OBJECT_DATUM header) (fun d => Return (d - 1)).

Definition mpure {A} (x : outcome A) : microcode A := fun m => bind x (fun a => Return (a, m)).

Definition APPLY_FRAME_SIZE : microcode Z := header <- STACK_REF 0 ;; mpure (OBJECT_DATUM header).
Definition APPLY_FRAME_N_ARGS : microcode Z := header <- STACK_REF 0 ;; mpure (APPLY_FRAME_HEADER_N_ARGS header).
Definition POP_APPLY_FRAME_HEADER : microcode Z := header <- STACK_POP ;; mpure (APPLY_FRAME_HEADER_N_ARGS header).
Definition APPLY_FRAME_PROCEDURE : microcode object := STACK_REF 1.
Definition SET_APPLY_FRAME_PROCEDURE (o : object) : microcode unit := SET_STACK_REF 1 o.

(** ** Fixed objects *)

Definition SYSTEM_INTERRUPT_VECTOR : nat := 0x01.
Definition SYSTEM_ERROR_VECTOR : nat := 0x02.
Definition FIXOBJ_INTERRUPT_MASK_VECTOR : nat := 0x06.
Definition TRAP_HANDLER : nat := 0x0C.
Definition FIXOBJ_RECORD_TAG : nat := 0x11.
Definition FIXOBJ_RECORD_APP_INDEX : nat := 0x12.
Definition DUMMY_HISTORY : nat := 0x13.
Definition FIXOBJ_PROXIED_RECORD_TYPES : nat := 0x15.
Definition ARITY_DISPATCHER_TAG : nat := 0x33.

Definition FIXED_OBJECT (i : nat) : microcode object := v <- GET fixed_objects ;; in_heap (VECTOR_REF v i).

(** ** History *)

Definition UNMARKED_HISTORY_TYPE : Z := TC_HUNK3_A.
Definition RC_RESTORE_DONT_COPY_HISTORY : Z := 0x2F.

(** [OBJECT_ADDRESS] and [MAKE_POINTER_OBJECT] of the register: a pointer of
    the history's type. *)
Definition HISTORY_POINTER (o : object) : object := match o with Pointer _ b => Pointer UNMARKED_HISTORY_TYPE b | Immediate w => Immediate w end.

Definition READ_DUMMY_HISTORY : microcode object := FIXED_OBJECT DUMMY_HISTORY.

Definition ULONG_TO_FIXNUM (n : Z) : object := MAKE_OBJECT TC_FIXNUM n.

Definition save_history (rc : Z) : microcode unit :=
  Will_Push (CONTINUATION_SIZE + 2) ;;
  STACK_PUSH SHARP_F ;;
  offset <- GET prev_restore_history_offset ;;
  STACK_PUSH (ULONG_TO_FIXNUM offset) ;;
  register <- GET history_register ;;
  SET_EXP (HISTORY_POINTER register) ;;
  SET_RC rc ;;
  SAVE_CONT ;;
  dummy <- READ_DUMMY_HISTORY ;;
  UPDATE (fun m => with_history (HISTORY_POINTER dummy) (prev_restore_history_offset m) m).

Definition stop_history : microcode unit :=
  exp <- GET EXP ;;
  ret <- GET RET ;;
  save_history RC_RESTORE_DONT_COPY_HISTORY ;;
  UPDATE (fun m => with_history (history_register m) (zlength (stack m)) m) ;;
  SET_RET ret ;;
  SET_EXP exp.

(** ** Errors and interrupts *)

Definition RC_RESTORE_INT_MASK : Z := 0x45.
Definition RC_POP_RETURN_ERROR : Z := 0x40.
Definition RC_EVAL_ERROR : Z := 0x41.
Definition ERR_BAD_ERROR_CODE : Z := 0x00.

Definition preserve_interrupt_mask : microcode unit :=
  Will_Push CONTINUATION_SIZE ;;
  SET_RC RC_RESTORE_INT_MASK ;;
  mask <- GET INT_MASK ;;
  SET_EXP (ULONG_TO_FIXNUM mask) ;;
  SAVE_CONT.

(** The frame of the call of a handler with two arguments. *)
Definition push_handler_frame (handler argument_1 argument_2 : object) : microcode unit :=
  Will_Push 4 ;;
  STACK_PUSH argument_2 ;;
  STACK_PUSH argument_1 ;;
  STACK_PUSH handler ;;
  PUSH_APPLY_FRAME_HEADER 2.

(** The handler of an error; the process ends when there is none. *)
Definition error_handler (error_code : Z) : microcode object :=
  v <- GET fixed_objects ;;
  error_vector <- (if VECTOR_P v then FIXED_OBJECT SYSTEM_ERROR_VECTOR else mret SHARP_F) ;;
  if negb (VECTOR_P error_vector) then fun _ => Exception
  else
    length <- in_heap (VECTOR_LENGTH error_vector) ;;
    if (error_code >=? 0) && (error_code <? length) then in_heap (VECTOR_REF error_vector (Z.to_nat error_code))
    else if ERR_BAD_ERROR_CODE <? length then in_heap (VECTOR_REF error_vector (Z.to_nat ERR_BAD_ERROR_CODE))
    else fun _ => Exception.

(** The two error codes that come with an argument are not raised by the code
    modelled here. *)
Definition Do_Micro_Error (error_code : Z) (from_pop_return_p : bool) : microcode unit :=
  Will_Push (CONTINUATION_SIZE + (if from_pop_return_p then 0 else 1)) ;;
  (if from_pop_return_p then val <- GET VAL ;; SET_EXP val else PUSH_ENV) ;;
  SET_RC (if from_pop_return_p then RC_POP_RETURN_ERROR else RC_EVAL_ERROR) ;;
  SAVE_CONT ;;
  handler <- error_handler error_code ;;
  stop_history ;;
  preserve_interrupt_mask ;;
  mask <- GET INT_MASK ;;
  push_handler_frame handler (Immediate (Object.LONG_TO_FIXNUM error_code)) (ULONG_TO_FIXNUM mask) ;;
  SET_INTERRUPT_MASK 0.

Fixpoint interrupt_number_loop (n : nat) (interrupt_number bit_mask masked_interrupts : Z) : Z :=
  match n with
  | O => interrupt_number
  | S n =>
      if (interrupt_number <=? MAX_INTERRUPT_NUMBER) && (Z.land masked_interrupts bit_mask =? 0)
      then interrupt_number_loop n (interrupt_number + 1) (to_ulong (Z.shiftl bit_mask 1)) masked_interrupts
      else interrupt_number
  end.

(** The loop ends after MAX_INTERRUPT_NUMBER + 1 turns. *)
Definition compute_interrupt_number (masked_interrupts : Z) : Z := interrupt_number_loop 17 0 1 masked_interrupts.

(** The masks are integers; other objects in the vector leave the default. *)
Definition compute_interrupt_handler_mask (interrupt_masks : object) (interrupt_number : Z) : microcode Z :=
  mask <- (if VECTOR_P interrupt_masks then
             length <- in_heap (VECTOR_LENGTH interrupt_masks) ;;
             if interrupt_number <=? length then
               o <- in_heap (VECTOR_REF interrupt_masks (Z.to_nat interrupt_number)) ;;
               i <- in_heap (integer_argument o) ;;
               mpure (if Integer.INTEGER_P i then
                        bind (Integer.integer_to_ulong_p i) (fun ok =>
                        if ok then bind (Integer.integer_to_ulong i) (fun n => Return (Some n)) else Return None)
                      else Return None)
             else mret None
           else mret None) ;;
  match mask with
  | Some n => mret (Z.ldiff n (Z.shiftl 1 interrupt_number))
  | None =>
      if interrupt_number <=? MAX_INTERRUPT_NUMBER then mret (Z.shiftl 1 interrupt_number - 1) else GET INT_MASK
  end.

(** The process ends when there is no handler. *)
Definition setup_interrupt (masked_interrupts : Z) : microcode unit :=
  let interrupt_number := compute_interrupt_number masked_interrupts in
  v <- GET fixed_objects ;;
  if negb (VECTOR_P v) then fun _ => Exception
  else
    interrupt_handlers <- FIXED_OBJECT SYSTEM_INTERRUPT_VECTOR ;;
    interrupt_masks <- FIXED_OBJECT FIXOBJ_INTERRUPT_MASK_VECTOR ;;
    ok <- (if VECTOR_P interrupt_handlers
           then length <- in_heap (VECTOR_LENGTH interrupt_handlers) ;; mret (interrupt_number <? length) else mret false) ;;
    if negb ok then fun _ => Exception
    else
      interrupt_mask <- compute_interrupt_handler_mask interrupt_masks interrupt_number ;;
      interrupt_handler <- in_heap (VECTOR_REF interrupt_handlers (Z.to_nat interrupt_number)) ;;
      stop_history ;;
      preserve_interrupt_mask ;;
      mask <- GET INT_MASK ;;
      code <- GET GET_INT_CODE ;;
      push_handler_frame interrupt_handler (ULONG_TO_FIXNUM code) (ULONG_TO_FIXNUM mask) ;;
      SET_INTERRUPT_MASK interrupt_mask.
