(* ===== verification/Interpret.v ===== *)
(** * interp.c: the interpreter

    [step] is a turn of the dispatch of Interpret: from do_expression on the
    type of the expression, from pop_return on the return code, from
    internal_apply on the type of the procedure.  A label is a place the code
    jumps to; [micro_error] and [signal_interrupt] are the calls of
    Do_Micro_Error and setup_interrupt with the jump that follows.

    The configuration is that without the stepper and without compiled code.
    Primitives are those that take objects and return an object; those that
    work on the stack itself are added by Hooks. *)

From Stdlib Require Import ZArith List Bool Lia.
From S2P Require Import Prelude Object Heap HeapPrim Intern Environment Lookup ListPrim History VectorPrim HeapCalls Machine.
Import ListNotations.

#[local] Open Scope Z_scope.
#[local] Open Scope microcode_machine_scope.

(** ** Types of SCode *)

Definition TC_SCODE_QUOTE : Z := 0x03.
Definition TC_EXTENDED_PROCEDURE : Z := 0x09.
Definition TC_PROCEDURE : Z := 0x0F.
Definition TC_ENTITY : Z := 0x10.
Definition TC_DELAY : Z := 0x11.
Definition TC_DELAYED : Z := 0x13.
Definition TC_EXTENDED_LAMBDA : Z := 0x14.
Definition TC_COMMENT : Z := 0x15.
Definition TC_LAMBDA : Z := 0x17.
Definition TC_PRIMITIVE : Z := 0x18.
Definition TC_SEQUENCE : Z := 0x19.
Definition TC_CONTROL_POINT : Z := 0x1C.
Definition TC_ACCESS : Z := 0x1F.
Definition TC_DEFINITION : Z := 0x21.
Definition TC_BROKEN_HEART : Z := 0x22.
Definition TC_ASSIGNMENT : Z := 0x23.
Definition TC_COMBINATION : Z := 0x26.
Definition TC_LEXPR : Z := 0x29.
Definition TC_VARIABLE : Z := 0x2C.
Definition TC_THE_ENVIRONMENT : Z := 0x2D.
Definition TC_SYNTAX_ERROR : Z := 0x2E.
Definition TC_CONDITIONAL : Z := 0x34.
Definition TC_DISJUNCTION : Z := 0x35.

(** ** Fields of SCode and procedures *)

Definition ACCESS_ENVIRONMENT : nat := 0.
Definition ACCESS_NAME : nat := 1.
Definition ASSIGN_NAME : nat := 0.
Definition ASSIGN_VALUE : nat := 1.
Definition COMB_FN_SLOT : nat := 1.
Definition COMB_ARG_1_SLOT : nat := 2.
Definition COMMENT_EXPRESSION : nat := 0.
Definition COND_PREDICATE : nat := 0.
Definition COND_CONSEQUENT : nat := 1.
Definition COND_ALTERNATIVE : nat := 2.
Definition DEFINE_NAME : nat := 0.
Definition DEFINE_VALUE : nat := 1.
Definition DELAY_OBJECT : nat := 0.
Definition OR_PREDICATE : nat := 0.
Definition OR_ALTERNATIVE : nat := 1.
Definition ELAMBDA_SCODE : nat := 0.
Definition ELAMBDA_NAMES : nat := 1.
Definition ELAMBDA_ARG_COUNT : nat := 2.
Definition LAMBDA_SCODE : nat := 0.
Definition SCODE_QUOTE_OBJECT : nat := 0.
Definition SEQUENCE_1 : nat := 0.
Definition SEQUENCE_2 : nat := 1.
Definition ENTITY_OPERATOR : nat := 0.
Definition ENTITY_DATA : nat := 1.
Definition THUNK_SNAPPED : nat := 0.
Definition THUNK_VALUE : nat := 1.
Definition STACK_COMB_FINGER : nat := 0.
Definition STACK_COMB_FIRST_ARG : nat := 1.

Definition VARIABLE_SYMBOL (variable : object) : operation object := MEMORY_REF variable 0.
Definition VARIABLE_SAFE_P (variable : object) : operation bool :=
  (o <- MEMORY_REF variable 1 ;; ret (object_eqb o SHARP_F))%heap.

Definition EL_OPTS_MASK : Z := 0xFF.
Definition EL_FORMALS_MASK : Z := 0xFF00.
Definition EL_REST_MASK : Z := 0x10000.
Definition EL_FORMALS_SHIFT : Z := 8.
Definition EL_REST_SHIFT : Z := 16.

Definition Elambda_Formals_Count (addr : Z) : Z := Z.shiftr (Z.land addr EL_FORMALS_MASK) EL_FORMALS_SHIFT.
Definition Elambda_Opts_Count (addr : Z) : Z := Z.land addr EL_OPTS_MASK.
Definition Elambda_Rest_Flag (addr : Z) : Z := Z.shiftr (Z.land addr EL_REST_MASK) EL_REST_SHIFT.

(** ** Return codes *)

Definition RC_END_OF_COMPUTATION : Z := 0x00.
Definition RC_JOIN_STACKLETS : Z := 0x01.
Definition RC_INTERNAL_APPLY : Z := 0x03.
Definition RC_RESTORE_HISTORY : Z := 0x05.
Definition RC_EXECUTE_ASSIGNMENT_FINISH : Z := 0x08.
Definition RC_EXECUTE_DEFINITION_FINISH : Z := 0x09.
Definition RC_EXECUTE_ACCESS_FINISH : Z := 0x0A.
Definition RC_EXECUTE_SEQUENCE_FINISH : Z := 0x0C.
Definition RC_CONDITIONAL_DECIDE : Z := 0x0F.
Definition RC_DISJUNCTION_DECIDE : Z := 0x10.
Definition RC_COMB_APPLY_FUNCTION : Z := 0x12.
Definition RC_COMB_SAVE_VALUE : Z := 0x15.
Definition RC_SNAP_NEED_THUNK : Z := 0x1C.
Definition RC_NORMAL_GC_DONE : Z := 0x20.
Definition RC_RESTORE_VALUE : Z := 0x2E.
Definition RC_STACK_MARKER : Z := 0x42.
Definition RC_HALT : Z := 0x46.
Definition RC_HARDWARE_TRAP : Z := 0x5C.
Definition RC_INTERNAL_APPLY_VAL : Z := 0x5D.

Definition ERR_INAPPLICABLE_OBJECT : Z := 0x03.
Definition ERR_EXTERNAL_RETURN : Z := 0x0A.
Definition ERR_EXECUTE_MANIFEST_VECTOR : Z := 0x0B.
Definition ERR_SYNTAX_ERROR : Z := 0x15.
Definition ERR_INAPPLICABLE_CONTINUATION : Z := 0x30.

Definition TERM_BROKEN_HEART : Z := 0x02.
Definition TERM_TERM_HANDLER : Z := 0x10.
Definition TERM_GC_OUT_OF_SPACE : Z := 0x14.
Definition TERM_TRAP : Z := 0x19.

(** ** Places *)

Inductive label : Type :=
| do_expression
| pop_return
| internal_apply_val
| internal_apply
| perform_application
| micro_error (code : Z) (from_pop_return_p : bool)
| signal_interrupt
| returned
| terminated (code : Z)
| not_modelled.

Definition goto (l : label) : microcode label := mret l.

(** ** The macros of interp.c *)

Definition PREPARE_POP_RETURN_INTERRUPT (return_code : Z) (contents_of_val : object) : microcode unit :=
  SET_RC return_code ;; SAVE_CONT ;; SET_RC RC_RESTORE_VALUE ;; SET_EXP contents_of_val ;; SAVE_CONT.

Definition PREPARE_APPLY_INTERRUPT : microcode unit :=
  SET_EXP SHARP_F ;;
  procedure <- APPLY_FRAME_PROCEDURE ;;
  PREPARE_POP_RETURN_INTERRUPT RC_INTERNAL_APPLY_VAL procedure.

Definition APPLICATION_ERROR (code : Z) : microcode label :=
  SET_EXP SHARP_F ;;
  SET_RC RC_INTERNAL_APPLY_VAL ;;
  SAVE_CONT ;;
  procedure <- APPLY_FRAME_PROCEDURE ;;
  SET_VAL procedure ;;
  goto (micro_error code true).

Definition IMMEDIATE_GC (n : Z) : microcode label := REQUEST_GC n ;; goto signal_interrupt.

Definition PREPARE_EVAL_REPEAT : microcode unit :=
  Will_Push (CONTINUATION_SIZE + 1) ;; PUSH_ENV ;; SET_RC RC_EVAL_ERROR ;; SAVE_CONT.

Definition EVAL_ERROR (code : Z) : microcode label := goto (micro_error code false).
Definition POP_RETURN_ERROR (code : Z) : microcode label := SAVE_CONT ;; goto (micro_error code true).

Definition REDUCES_TO (expression : object) : microcode label := SET_EXP expression ;; goto do_expression.

Definition EXP_REF (n : nat) : microcode object := e <- GET EXP ;; in_heap (MEMORY_REF e n).

Definition REDUCES_TO_NTH (n : nat) : microcode label := e <- EXP_REF n ;; REDUCES_TO e.

Definition DO_NTH_THEN (return_code : Z) (n : nat) : microcode label :=
  SET_RC return_code ;; SAVE_CONT ;; REDUCES_TO_NTH n.

(** PUSH_NTH_THEN and DO_ANOTHER_THEN differ from it in the history only. *)
Definition PUSH_NTH_THEN : Z -> nat -> microcode label := DO_NTH_THEN.
Definition DO_ANOTHER_THEN : Z -> nat -> microcode label := DO_NTH_THEN.

(** ** The dispatch on the expression *)

(** [stack_pointer = (STACK_LOC (-n))].  The slots hold what the stack held there
    before; nothing reads them before they are written.  A combination has an
    operator, so [n] is not negative. *)
Definition STACK_ALLOCATE (n : Z) : microcode unit := fun m =>
  if n <? 0 then Wild else Return (tt, with_stack (repeat SHARP_F (Z.to_nat n) ++ stack m) m).

Definition eval_combination : microcode label :=
  e <- GET EXP ;;
  n <- in_heap (VECTOR_LENGTH e) ;;
  let length := n - 1 in
  Will_Push (length + 2 + CONTINUATION_SIZE) ;;
  STACK_ALLOCATE length ;;
  STACK_PUSH (MAKE_OBJECT TC_MANIFEST_NM_VECTOR length) ;;
  if length =? 0 then
    PUSH_APPLY_FRAME_HEADER 0 ;;
    DO_NTH_THEN RC_COMB_APPLY_FUNCTION COMB_FN_SLOT
  else
    PUSH_ENV ;;
    DO_NTH_THEN RC_COMB_SAVE_VALUE (Z.to_nat (length + 1)).

(** A new object of two words, without a check for space. *)
Definition eval_closure (type : Z) (first second : object) : microcode label :=
  o <- in_heap (allocate type [first; second]) ;; SET_VAL o ;; goto pop_return.

Definition eval_variable : microcode label :=
  e <- GET EXP ;;
  env <- GET ENV ;;
  name <- in_heap (VARIABLE_SYMBOL e) ;;
  '(temp, val) <- in_heap (lookup_variable env name) ;;
  safe <- in_heap (VARIABLE_SAFE_P e) ;;
  if safe && (temp =? ERR_UNASSIGNED_VARIABLE) then SET_VAL UNASSIGNED_OBJECT ;; goto pop_return
  else if negb (temp =? PRIM_DONE) then
    if temp =? PRIM_INTERRUPT then PREPARE_EVAL_REPEAT ;; goto signal_interrupt else EVAL_ERROR temp
  else
    match val with
    | Some val => SET_VAL val ;; goto pop_return
    | None => fun _ => Wild
    end.

(** An expression that saves the environment and evaluates a part first. *)
Definition eval_subproblem (return_code : Z) (n : nat) : microcode label :=
  Will_Push (CONTINUATION_SIZE + 1) ;; PUSH_ENV ;; PUSH_NTH_THEN return_code n.

Definition eval_non_trapping : microcode label :=
  e <- GET EXP ;;
  env <- GET ENV ;;
  let t := OBJECT_TYPE e in
  if t =? TC_ACCESS then Will_Push CONTINUATION_SIZE ;; PUSH_NTH_THEN RC_EXECUTE_ACCESS_FINISH ACCESS_ENVIRONMENT
  else if t =? TC_ASSIGNMENT then eval_subproblem RC_EXECUTE_ASSIGNMENT_FINISH ASSIGN_VALUE
  else if t =? TC_BROKEN_HEART then goto (terminated TERM_BROKEN_HEART)
  else if t =? TC_COMBINATION then eval_combination
  else if t =? TC_COMMENT then REDUCES_TO_NTH COMMENT_EXPRESSION
  else if t =? TC_CONDITIONAL then eval_subproblem RC_CONDITIONAL_DECIDE COND_PREDICATE
  else if t =? TC_DEFINITION then eval_subproblem RC_EXECUTE_DEFINITION_FINISH DEFINE_VALUE
  else if t =? TC_DELAY then body <- EXP_REF DELAY_OBJECT ;; eval_closure TC_DELAYED env body
  else if t =? TC_DISJUNCTION then eval_subproblem RC_DISJUNCTION_DECIDE OR_PREDICATE
  else if t =? TC_EXTENDED_LAMBDA then eval_closure TC_EXTENDED_PROCEDURE e env
  else if (t =? TC_LAMBDA) || (t =? TC_LEXPR) then eval_closure TC_PROCEDURE e env
  else if t =? TC_MANIFEST_NM_VECTOR then EVAL_ERROR ERR_EXECUTE_MANIFEST_VECTOR
  else if t =? TC_SCODE_QUOTE then o <- EXP_REF SCODE_QUOTE_OBJECT ;; SET_VAL o ;; goto pop_return
  else if t =? TC_SEQUENCE then eval_subproblem RC_EXECUTE_SEQUENCE_FINISH SEQUENCE_1
  else if t =? TC_SYNTAX_ERROR then EVAL_ERROR ERR_SYNTAX_ERROR
  else if t =? TC_THE_ENVIRONMENT then SET_VAL env ;; goto pop_return
  else if t =? TC_VARIABLE then eval_variable
  else SET_VAL e ;; goto pop_return.

(** ** Application *)

Definition MAX_WRONG_TYPE : list Z := [0x0D; 0x0E; 0x0F; 0x29; 0x2A; 0x2B; 0x2C; 0x2D; 0x2E; 0x2F].
Definition MAX_BAD_RANGE : list Z := [0x10; 0x11; 0x12; 0x22; 0x23; 0x24; 0x25; 0x26; 0x27; 0x28].

(** The codes that error_wrong_type_arg and error_bad_range_arg signal. *)
Definition error_code_of (s : signal) : option Z :=
  match s with
  | wrong_type_arg n => Some (nth (Z.to_nat (n - 1)) MAX_WRONG_TYPE ERR_EXTERNAL_RETURN)
  | bad_range_arg n => Some (nth (Z.to_nat (n - 1)) MAX_BAD_RANGE ERR_EXTERNAL_RETURN)
  | primitive_error code => Some code
  | primitive_interrupt => None
  end.

Definition primitive_arity (f : primitive_code) : option nat :=
  match f with lexpr _ => None | subr_1 _ => Some 1%nat | subr_2 _ => Some 2%nat | subr_3 _ => Some 3%nat | subr_4 _ => Some 4%nat end.

Definition back_out_of_primitive (primitive : object) (n_args : Z) : microcode unit :=
  STACK_PUSH primitive ;;
  PUSH_APPLY_FRAME_HEADER n_args ;;
  SET_EXP SHARP_F ;;
  SET_RC RC_INTERNAL_APPLY ;;
  SAVE_CONT ;;
  SET_ENV THE_NULL_ENV ;;
  SET_VAL SHARP_F.

(** The next [n] words of the stack, which are popped into the heap one by one. *)
Fixpoint STACK_POPS (n : nat) : microcode (list object) :=
  match n with
  | O => mret []
  | S n => o <- STACK_POP ;; os <- STACK_POPS n ;; mret (o :: os)
  end.

Definition FASDUMP_RECORD_MARKER_START : Z := 0x100.
Definition FASDUMP_RECORD_MARKER_END : Z := 0x200.

Definition record_marker (fixed_objects record : object) : operation object :=
  (marker <- VECTOR_REF record 0 ;;
   if OBJECT_TYPE marker =? TC_CONSTANT then
     d <- pure (OBJECT_DATUM marker) ;;
     if (d >=? FASDUMP_RECORD_MARKER_START) && (d <? FASDUMP_RECORD_MARKER_END) then
       types <- VECTOR_REF fixed_objects FIXOBJ_PROXIED_RECORD_TYPES ;;
       VECTOR_REF types (Z.to_nat (d - FASDUMP_RECORD_MARKER_START))
     else ret marker
   else ret marker)%heap.

Definition record_applicator (fixed_objects record : object) : operation object :=
  (marker <- record_marker fixed_objects record ;;
   if RECORD_P marker then
     tag <- VECTOR_REF marker 0 ;;
     record_tag <- VECTOR_REF fixed_objects FIXOBJ_RECORD_TAG ;;
     if object_eqb tag record_tag then
       index <- VECTOR_REF fixed_objects FIXOBJ_RECORD_APP_INDEX ;;
       index <- pure (OBJECT_DATUM index) ;;
       VECTOR_REF marker (Z.to_nat index)
     else ret SHARP_F
   else ret SHARP_F)%heap.

(** entity_apply: the operator is called with the object itself as first argument. *)
Definition entity_apply (operator : object) : microcode label :=
  frame_size <- APPLY_FRAME_SIZE ;;
  SET_STACK_REF 0 operator ;;
  PUSH_APPLY_FRAME_HEADER frame_size ;;
  STACK_CHECK 0 ;;
  goto internal_apply.

(** The element of an arity dispatcher for this number of arguments, unless it
    is no dispatcher or has none. *)
Definition arity_dispatched (fixed_objects function : object) (frame_size : Z) : operation (option object) :=
  (data <- MEMORY_REF function ENTITY_DATA ;;
   if VECTOR_P data then
     length <- VECTOR_LENGTH data ;;
     if frame_size <? length then
       o <- VECTOR_REF data (Z.to_nat frame_size) ;;
       if negb (object_eqb o SHARP_F) then
         tag <- VECTOR_REF data 0 ;;
         dispatcher <- VECTOR_REF fixed_objects ARITY_DISPATCHER_TAG ;;
         ret (if object_eqb tag dispatcher then Some o else None)
       else ret None
     else ret None
   else ret None)%heap.

Definition apply_entity (function : object) : microcode label :=
  frame_size <- APPLY_FRAME_SIZE ;;
  v <- GET fixed_objects ;;
  dispatched <- in_heap (arity_dispatched v function frame_size) ;;
  match dispatched with
  | Some o => SET_APPLY_FRAME_PROCEDURE o ;; goto perform_application
  | None => operator <- in_heap (MEMORY_REF function ENTITY_OPERATOR) ;; entity_apply operator
  end.

Definition apply_record (function : object) : microcode label :=
  v <- GET fixed_objects ;;
  applicator <- in_heap (record_applicator v function) ;;
  if object_eqb applicator SHARP_F then APPLICATION_ERROR ERR_INAPPLICABLE_OBJECT else entity_apply applicator.

Definition apply_procedure (function : object) : microcode label :=
  frame_size <- APPLY_FRAME_SIZE ;;
  lambda <- in_heap (MEMORY_REF function PROCEDURE_LAMBDA_EXPR) ;;
  formals <- in_heap (MEMORY_REF lambda LAMBDA_FORMALS) ;;
  n <- in_heap (VECTOR_LENGTH formals) ;;
  if negb (frame_size =? n) && (negb (OBJECT_TYPE lambda =? TC_LEXPR) || (frame_size <? n))
  then APPLICATION_ERROR ERR_WRONG_NUMBER_OF_ARGUMENTS
  else
    gc_needed <- GET (fun m => GC_NEEDED_P (frame_size + 1) (memory m)) ;;
    if gc_needed then PREPARE_APPLY_INTERRUPT ;; IMMEDIATE_GC (frame_size + 1)
    else
      STACK_POP ;;
      words <- STACK_POPS (Z.to_nat frame_size) ;;
      env <- in_heap (allocate TC_ENVIRONMENT (MAKE_OBJECT TC_MANIFEST_VECTOR frame_size :: words)) ;;
      SET_ENV env ;;
      body <- in_heap (MEMORY_REF lambda LAMBDA_SCODE) ;;
      REDUCES_TO body.

(** The pairs of a list of [os], one after the other. *)
Fixpoint rest_list (os : list object) : operation unit :=
  match os with
  | [] => ret tt
  | o :: os =>
      (here <- Free_object TC_LIST ;;
       let next := match here with Pointer t b => Pointer t (S b) | Immediate w => Immediate w end in
       allocate TC_LIST [o; match os with [] => EMPTY_LIST | _ => next end] ;;
       rest_list os)%heap
  end.

(** The object stored first after the next object. *)
Definition next_object (type : Z) : operation object := fun h => Return (Pointer type (S (length (blocks h))), h).

(** The environment: the procedure and the arguments from the stack, defaults
    for the optional arguments that are missing, the list of the rest, and
    unassigned auxiliary variables. *)
Definition extended_environment (nargs params rest_flag auxes : Z) : microcode object :=
  let size := params + rest_flag + auxes + 1 in
  if nargs <=? params then
    words <- STACK_POPS (Z.to_nat (nargs + 1)) ;;
    in_heap (allocate TC_ENVIRONMENT
      (MAKE_OBJECT TC_MANIFEST_VECTOR size :: words ++
       repeat (Immediate DEFAULT_OBJECT) (Z.to_nat (params - nargs)) ++
       (if rest_flag =? 0 then [] else [EMPTY_LIST]) ++
       repeat UNASSIGNED_OBJECT (Z.to_nat auxes)))
  else
    list <- in_heap (next_object TC_LIST) ;;
    words <- STACK_POPS (Z.to_nat (params + 1)) ;;
    env <- in_heap (allocate TC_ENVIRONMENT
      (MAKE_OBJECT TC_MANIFEST_VECTOR size :: words ++ list :: repeat UNASSIGNED_OBJECT (Z.to_nat auxes))) ;;
    rest <- STACK_POPS (Z.to_nat (nargs - params)) ;;
    in_heap (rest_list rest) ;;
    mret env.

Definition apply_extended_procedure (function : object) : microcode label :=
  nargs <- POP_APPLY_FRAME_HEADER ;;
  lambda <- in_heap (MEMORY_REF function PROCEDURE_LAMBDA_EXPR) ;;
  names <- in_heap (MEMORY_REF lambda ELAMBDA_NAMES) ;;
  n <- in_heap (VECTOR_LENGTH names) ;;
  let nparams := n - 1 in
  count <- in_heap (MEMORY_REF lambda ELAMBDA_ARG_COUNT) ;;
  count <- mpure (match count with Immediate w => Return w | Pointer _ _ => Wild end) ;;
  let formals := Elambda_Formals_Count count in
  let params := Elambda_Opts_Count count + formals in
  let rest_flag := Elambda_Rest_Flag count in
  let auxes := nparams - (params + rest_flag) in
  if (nargs <? formals) || ((rest_flag =? 0) && (nargs >? params)) then
    PUSH_APPLY_FRAME_HEADER nargs ;; APPLICATION_ERROR ERR_WRONG_NUMBER_OF_ARGUMENTS
  else
    let size := params + rest_flag + auxes + 1 in
    let space := size + 1 + (if nargs >? params then 2 * (nargs - params) else 0) in
    gc_needed <- GET (fun m => GC_NEEDED_P space (memory m)) ;;
    if gc_needed then PUSH_APPLY_FRAME_HEADER nargs ;; PREPARE_APPLY_INTERRUPT ;; IMMEDIATE_GC space
    else
      env <- extended_environment nargs params rest_flag auxes ;;
      SET_ENV env ;;
      body <- in_heap (MEMORY_REF lambda ELAMBDA_SCODE) ;;
      REDUCES_TO body.

(** *** Primitives and control points *)

Fixpoint STACK_REFS (i n : nat) : microcode (list object) :=
  match n with
  | O => mret []
  | S n => o <- STACK_REF i ;; os <- STACK_REFS (S i) n ;; mret (o :: os)
  end.

(** A primitive that signals leaves its arguments on the stack. *)
Definition after_primitive (primitive : object) (n_args : Z) (result : object + signal) : microcode label :=
  match result with
  | inl value => SET_VAL value ;; STACK_DROP (Z.to_nat n_args) ;; goto pop_return
  | inr s =>
      back_out_of_primitive primitive n_args ;;
      match error_code_of s with
      | Some code => goto (micro_error code true)
      | None => goto signal_interrupt
      end
  end.

Fixpoint vector_words (v : object) (i n : nat) : operation (list object) :=
  match n with
  | O => ret []
  | S n => (o <- VECTOR_REF v i ;; os <- vector_words v (S i) n ;; ret (o :: os))%heap
  end.

Definition CLEAR_INTERRUPT (code : Z) : microcode unit :=
  UPDATE (fun m => with_interrupts (Z.ldiff (INT_CODE m) code) (INT_MASK m) m).

Definition unpack_control_point (cp : object) : microcode unit :=
  n <- in_heap (VECTOR_LENGTH cp) ;;
  UPDATE (with_stack []) ;;
  CLEAR_INTERRUPT INT_Stack_Overflow ;;
  STACK_CHECK (n - 2) ;;
  words <- in_heap (vector_words cp 2 (Z.to_nat (n - 2))) ;;
  UPDATE (with_stack words).

(** The history that has no entries is a ring of one vertebra and its rib. *)
Definition make_dummy_history : operation object :=
  (rib <- Free_object UNMARKED_HISTORY_TYPE ;;
   allocate UNMARKED_HISTORY_TYPE [SHARP_F; SHARP_F; rib] ;;
   history <- Free_object UNMARKED_HISTORY_TYPE ;;
   allocate UNMARKED_HISTORY_TYPE [rib; history; history])%heap.

Definition reset_history : microcode unit :=
  v <- GET fixed_objects ;;
  dummy <- (if VECTOR_P v then READ_DUMMY_HISTORY else mret SHARP_F) ;;
  register <- (if negb (object_eqb dummy SHARP_F) then mret (HISTORY_POINTER dummy) else in_heap make_dummy_history) ;;
  UPDATE (with_history register 0).

Definition apply_control_point (cp : object) : microcode label :=
  frame_size <- APPLY_FRAME_SIZE ;;
  if negb (frame_size =? 2) then APPLICATION_ERROR ERR_WRONG_NUMBER_OF_ARGUMENTS
  else
    value <- STACK_REF 2 ;;
    SET_VAL value ;;
    unpack_control_point cp ;;
    reset_history ;;
    goto pop_return.

(** ** The step *)

Section WithPrimitives.

(** The entry of an unimplemented primitive is [None]. *)
Context (Primitive_Procedure_Table : Z -> option primitive_code).

Definition apply_primitive_object (primitive : object) : microcode label :=
  number <- mpure (OBJECT_DATUM primitive) ;;
  match Primitive_Procedure_Table number with
  | None => APPLICATION_ERROR ERR_UNIMPLEMENTED_PRIMITIVE
  | Some f =>
      n_args <- APPLY_FRAME_N_ARGS ;;
      if match primitive_arity f with Some n => n_args =? Z.of_nat n | None => true end then
        STACK_DROP 2 ;;
        SET_EXP primitive ;;
        arguments <- STACK_REFS 0 (Z.to_nat n_args) ;;
        result <- in_heap (apply_primitive f arguments) ;;
        after_primitive primitive n_args result
      else APPLICATION_ERROR ERR_WRONG_NUMBER_OF_ARGUMENTS
  end.

Definition apply_dispatch : microcode label :=
  function <- APPLY_FRAME_PROCEDURE ;;
  let t := OBJECT_TYPE function in
  if t =? TC_ENTITY then apply_entity function
  else if t =? TC_RECORD then apply_record function
  else if t =? TC_PROCEDURE then apply_procedure function
  else if t =? TC_CONTROL_POINT then apply_control_point function
  else if t =? TC_PRIMITIVE then apply_primitive_object function
  else if t =? TC_EXTENDED_PROCEDURE then apply_extended_procedure function
  else APPLICATION_ERROR ERR_INAPPLICABLE_OBJECT.

(** Return codes that have a routine of their own. *)

Definition return_save_value : microcode label :=
  POP_ENV ;;
  finger <- STACK_REF STACK_COMB_FINGER ;;
  n <- mpure (OBJECT_DATUM finger) ;;
  let Arg_Number := n - 1 in
  val <- GET VAL ;;
  (if Arg_Number <? 0 then fun _ => Wild else SET_STACK_REF (STACK_COMB_FIRST_ARG + Z.to_nat Arg_Number) val) ;;
  SET_STACK_REF STACK_COMB_FINGER (MAKE_OBJECT TC_MANIFEST_NM_VECTOR Arg_Number) ;;
  if Arg_Number >? 0 then
    PUSH_ENV ;;
    DO_ANOTHER_THEN RC_COMB_SAVE_VALUE (COMB_ARG_1_SLOT - 1 + Z.to_nat Arg_Number)
  else
    frame_size <- EXP_REF 0 ;;
    STACK_PUSH frame_size ;;
    DO_ANOTHER_THEN RC_COMB_APPLY_FUNCTION COMB_FN_SLOT.

Definition return_access : microcode label :=
  val <- GET VAL ;;
  name <- EXP_REF ACCESS_NAME ;;
  '(code, value) <- in_heap (lookup_variable val name) ;;
  if code =? PRIM_DONE then
    match value with Some value => SET_VAL value ;; goto pop_return | None => fun _ => Wild end
  else if code =? PRIM_INTERRUPT then PREPARE_POP_RETURN_INTERRUPT RC_EXECUTE_ACCESS_FINISH val ;; goto signal_interrupt
  else POP_RETURN_ERROR code.

Definition return_assignment : microcode label :=
  variable <- EXP_REF ASSIGN_NAME ;;
  POP_ENV ;;
  env <- GET ENV ;;
  val <- GET VAL ;;
  '(code, old_val) <-
    (if OBJECT_TYPE variable =? TC_VARIABLE
     then name <- in_heap (VARIABLE_SYMBOL variable) ;; in_heap (assign_variable env name val)
     else mret (ERR_BAD_FRAME, None)) ;;
  if code =? PRIM_DONE then
    match old_val with Some old_val => SET_VAL old_val ;; goto pop_return | None => fun _ => Wild end
  else
    PUSH_ENV ;;
    if code =? PRIM_INTERRUPT then PREPARE_POP_RETURN_INTERRUPT RC_EXECUTE_ASSIGNMENT_FINISH val ;; goto signal_interrupt
    else POP_RETURN_ERROR code.

Definition return_definition : microcode label :=
  name <- EXP_REF DEFINE_NAME ;;
  value <- GET VAL ;;
  POP_ENV ;;
  env <- GET ENV ;;
  result <- in_heap (define_variable env name value) ;;
  if result =? PRIM_DONE then SET_VAL name ;; goto pop_return
  else
    PUSH_ENV ;;
    if result =? PRIM_INTERRUPT then PREPARE_POP_RETURN_INTERRUPT RC_EXECUTE_DEFINITION_FINISH value ;; goto signal_interrupt
    else SET_VAL value ;; POP_RETURN_ERROR result.

Definition return_hardware_trap : microcode label :=
  info <- STACK_REF 0 ;;
  SAVE_CONT ;;
  v <- GET fixed_objects ;;
  handler <- (if VECTOR_P v then FIXED_OBJECT TRAP_HANDLER else mret SHARP_F) ;;
  if object_eqb handler SHARP_F then goto (terminated TERM_TRAP)
  else
    Will_Push 3 ;;
    STACK_PUSH info ;;
    STACK_PUSH handler ;;
    PUSH_APPLY_FRAME_HEADER 1 ;;
    goto internal_apply.

Definition return_restore_history : microcode label :=
  offset <- STACK_POP ;;
  offset <- mpure (OBJECT_DATUM offset) ;;
  STACK_POP ;;
  exp <- GET EXP ;;
  UPDATE (with_history (HISTORY_POINTER exp) offset) ;;
  goto pop_return.

(** The word [offset] words above the bottom of the stack; the part of the
    stack beyond its top is not represented. *)
Definition SET_STACK_BOTTOM_REF (offset : Z) (o : object) : microcode unit := fun m =>
  if (0 <? offset) && (offset <=? zlength (stack m)) then SET_STACK_REF (Z.to_nat (zlength (stack m) - offset)) o m else Wild.

(** The history is copied, and the one saved before it will be copied too. *)
Definition return_restore_history_copy : microcode label :=
  exp <- GET EXP ;;
  new_hist <- in_heap (copy_history exp) ;;
  if object_eqb new_hist SHARP_F then
    SAVE_CONT ;;
    Will_Push CONTINUATION_SIZE ;;
    val <- GET VAL ;;
    SET_EXP val ;;
    SET_RC RC_RESTORE_VALUE ;;
    SAVE_CONT ;;
    n <- GET (fun m => HEAP_AVAILABLE (memory m)) ;;
    IMMEDIATE_GC n
  else
    UPDATE (fun m => with_history (HISTORY_POINTER new_hist) (prev_restore_history_offset m) m) ;;
    offset <- STACK_POP ;;
    offset <- mpure (OBJECT_DATUM offset) ;;
    UPDATE (fun m => with_history (history_register m) offset m) ;;
    STACK_POP ;;
    (if 0 <? offset then SET_STACK_BOTTOM_REF offset (MAKE_RETURN_CODE RC_RESTORE_HISTORY) else mret tt) ;;
    goto pop_return.

Definition return_restore_int_mask : microcode label :=
  exp <- GET EXP ;;
  mask <- mpure (OBJECT_DATUM exp) ;;
  SET_INTERRUPT_MASK mask ;;
  gc_needed <- GET (fun m => GC_NEEDED_P 0 (memory m)) ;;
  (if gc_needed then REQUEST_GC 0 else mret tt) ;;
  pending <- GET PENDING_INTERRUPTS_P ;;
  if pending then
    SET_RC RC_RESTORE_VALUE ;; val <- GET VAL ;; SET_EXP val ;; SAVE_CONT ;; goto signal_interrupt
  else goto pop_return.

Definition return_snap_thunk : microcode label :=
  exp <- GET EXP ;;
  val <- GET VAL ;;
  snapped <- in_heap (MEMORY_REF exp THUNK_SNAPPED) ;;
  if object_eqb snapped SHARP_T then
    value <- in_heap (MEMORY_REF exp THUNK_VALUE) ;; SET_VAL value ;; goto pop_return
  else
    in_heap (MEMORY_SET exp THUNK_SNAPPED SHARP_T) ;;
    in_heap (MEMORY_SET exp THUNK_VALUE val) ;;
    goto pop_return.

(** The end of a collection is not modelled. *)
Definition dispatch_return (code : Z) : microcode label :=
  val <- GET VAL ;;
  exp <- GET EXP ;;
  if code =? RC_COMB_APPLY_FUNCTION then goto internal_apply_val
  else if code =? RC_COMB_SAVE_VALUE then return_save_value
  else if code =? RC_CONDITIONAL_DECIDE then
    POP_ENV ;; REDUCES_TO_NTH (if object_eqb val SHARP_F then COND_ALTERNATIVE else COND_CONSEQUENT)
  else if code =? RC_DISJUNCTION_DECIDE then
    POP_ENV ;; if negb (object_eqb val SHARP_F) then goto pop_return else REDUCES_TO_NTH OR_ALTERNATIVE
  else if code =? RC_END_OF_COMPUTATION then goto returned
  else if code =? RC_EVAL_ERROR then POP_ENV ;; REDUCES_TO exp
  else if code =? RC_EXECUTE_ACCESS_FINISH then return_access
  else if code =? RC_EXECUTE_ASSIGNMENT_FINISH then return_assignment
  else if code =? RC_EXECUTE_DEFINITION_FINISH then return_definition
  else if code =? RC_HALT then goto (terminated TERM_TERM_HANDLER)
  else if code =? RC_HARDWARE_TRAP then return_hardware_trap
  else if code =? RC_INTERNAL_APPLY_VAL then goto internal_apply_val
  else if code =? RC_INTERNAL_APPLY then goto internal_apply
  else if code =? RC_JOIN_STACKLETS then unpack_control_point exp ;; goto pop_return
  else if code =? RC_NORMAL_GC_DONE then goto not_modelled
  else if (code =? RC_POP_RETURN_ERROR) || (code =? RC_RESTORE_VALUE) then SET_VAL exp ;; goto pop_return
  else if code =? RC_RESTORE_DONT_COPY_HISTORY then return_restore_history
  else if code =? RC_RESTORE_HISTORY then return_restore_history_copy
  else if code =? RC_RESTORE_INT_MASK then return_restore_int_mask
  else if code =? RC_STACK_MARKER then STACK_DROP 1 ;; goto pop_return
  else if code =? RC_EXECUTE_SEQUENCE_FINISH then POP_ENV ;; REDUCES_TO_NTH SEQUENCE_2
  else if code =? RC_SNAP_NEED_THUNK then return_snap_thunk
  else POP_RETURN_ERROR ERR_INAPPLICABLE_CONTINUATION.

Definition pop_return_non_trapping : microcode label :=
  RESTORE_CONT ;; r <- GET RET ;; code <- mpure (OBJECT_DATUM r) ;; dispatch_return code.

(** Apply_Non_Trapping: interrupts are taken before a procedure is applied. *)
Definition Apply_Non_Trapping : microcode label :=
  pending <- GET PENDING_INTERRUPTS_P ;;
  if pending then PREPARE_APPLY_INTERRUPT ;; goto signal_interrupt else goto perform_application.

Definition step (l : label) : microcode label :=
  match l with
  | do_expression => eval_non_trapping
  | pop_return => pop_return_non_trapping
  | internal_apply_val => val <- GET VAL ;; SET_APPLY_FRAME_PROCEDURE val ;; goto internal_apply
  | internal_apply => Apply_Non_Trapping
  | perform_application => apply_dispatch
  | micro_error code from_pop_return_p => Do_Micro_Error code from_pop_return_p ;; goto internal_apply
  | signal_interrupt => interrupts <- GET PENDING_INTERRUPTS ;; setup_interrupt interrupts ;; goto perform_application
  | returned | terminated _ | not_modelled => goto l
  end.

Fixpoint steps (n : nat) (l : label) : microcode label :=
  match n with O => mret l | S n => l <- step l ;; steps n l end.

End WithPrimitives.
