(* ===== verification/Hooks.v ===== *)
(** * hooks.c: primitives that work on the interpreter itself

    These primitives find their arguments on the stack, and may leave another
    stack and abort to a place in Interpret.  The configuration is that
    without compiled code, in which a primitive is always called from the
    interpreter. *)

From Stdlib Require Import String ZArith List Bool Lia.
From S2P Require Import Prelude Object Heap HeapPrim Intern Environment Lookup ListPrim History VectorPrim HeapCalls Machine Interpret.
Import ListNotations.

#[local] Open Scope Z_scope.

(** ** How a primitive ends *)

(** A primitive returns a value, signals, or aborts to a place. *)
Inductive hook_exit : Type :=
| hook_signal (s : signal)
| PRIMITIVE_ABORT (l : label).

Definition hook (A : Type) : Type := microcode (A + hook_exit).

Definition hreturn {A} (a : A) : hook A := mret (inl a).
Definition hexit {A} (x : hook_exit) : hook A := mret (inr x).
Definition in_microcode {A} (m : microcode A) : hook A := mthen m hreturn.

Definition hthen {A B} (m : hook A) (k : A -> hook B) : hook B :=
  mthen m (fun r => match r with inl a => k a | inr x => hexit x end).

Declare Scope hook_scope.
Delimit Scope hook_scope with hook.

Notation "x <- m ;; k" := (hthen m (fun x => k))
  (at level 60, m at next level, right associativity) : hook_scope.
Notation "m ;; k" := (hthen m (fun _ => k))
  (at level 60, right associativity) : hook_scope.
Notation "! m" := (in_microcode m) (at level 8, m at level 8, format "! m") : hook_scope.

#[local] Open Scope hook_scope.

Definition signals_hook {A} (s : signal) : hook A := hexit (hook_signal s).

(** ** Arguments *)

(** The argument with number [n] counts from 1. *)
Definition ARG_REF (n : nat) : hook object := !(STACK_REF (n - 1)).

Definition CHECK_ARG_REF (n : nat) (p : object -> bool) : hook unit :=
  o <- ARG_REF n ;; if p o then hreturn tt else signals_hook (wrong_type_arg (Z.of_nat n)).

(** The functions of utils.c that decode the argument [n]. *)
Definition decode_arg (f : object -> procedure Z) (n : nat) : hook Z :=
  o <- ARG_REF n ;;
  r <- !(in_heap (f o)) ;;
  match r with inl z => hreturn z | inr s => signals_hook s end.

Definition arg_integer_ref (n : nat) : hook Z := decode_arg (HeapPrim.arg_integer (Z.of_nat n)) n.
Definition arg_ulong_integer_ref (n : nat) : hook Z := decode_arg (HeapPrim.arg_ulong_integer (Z.of_nat n)) n.

Definition RETURN_CODE_P (o : object) : bool := OBJECT_TYPE o =? TC_RETURN_CODE.
Definition PRIMITIVE_P (o : object) : bool := OBJECT_TYPE o =? TC_PRIMITIVE.
Definition CONTROL_POINT_P (o : object) : bool := OBJECT_TYPE o =? TC_CONTROL_POINT.
Definition PROMISE_P (o : object) : bool := OBJECT_TYPE o =? TC_DELAYED.

Definition assert_that (ok : bool) : hook unit := if ok then hreturn tt else fun _ => Exception.

Definition canonicalize_primitive_context (n_args : nat) : hook unit :=
  primitive <- !(GET EXP) ;;
  assert_that (PRIMITIVE_P primitive) ;;
  return_code <- !(STACK_REF n_args) ;;
  assert_that (RETURN_CODE_P return_code).

Definition POP_PRIMITIVE_FRAME (arity : nat) : hook unit := !(STACK_DROP arity).

Definition PUSH (o : object) : hook unit := !(STACK_PUSH o).

Definition STACK_ENV_EXTRA_SLOTS : Z := 1.
Definition HISTORY_SIZE : Z := CONTINUATION_SIZE + 2.

(** Primitive_GC: the interpreter is made to collect and to call the primitive again. *)
Definition Primitive_GC_If_Needed (n : Z) : hook unit :=
  needed <- !(GET (fun m => GC_NEEDED_P n (memory m))) ;;
  if needed then !(REQUEST_GC n) ;; signals_hook primitive_interrupt else hreturn tt.

(** An application of [procedure] to [n_args] arguments on the stack. *)
Definition apply_to_pushed (procedure : object) (n_args : Z) : hook object :=
  PUSH procedure ;; !(PUSH_APPLY_FRAME_HEADER n_args) ;; hexit (PRIMITIVE_ABORT internal_apply).

(** ** APPLY *)

(** The loop that counts the arguments; [p2] moves half as fast as [p1], so that
    it is met in a circular list.  The order is that of the code; a turn ends
    where [p2] moves. *)
Inductive counted : Type := n_arguments (n : Z) | circular | improper.

Definition end_of_list (p1 : object) (n_args : Z) : counted := if EMPTY_LIST_P p1 then n_arguments n_args else improper.

Fixpoint count_arguments (fuel : nat) (p1 p2 : object) (n_args : Z) : operation counted :=
  match fuel with
  | O => fun _ => OutOfFuel
  | S fuel =>
      (if negb (PAIR_P p1) then ret (end_of_list p1 n_args)
       else
         p1 <- PAIR_CDR p1 ;;
         let n_args := n_args + 1 in
         if object_eqb p1 p2 then ret circular
         else if negb (PAIR_P p1) then ret (end_of_list p1 n_args)
         else
           p1 <- PAIR_CDR p1 ;;
           let n_args := n_args + 1 in
           if object_eqb p1 p2 then ret circular
           else if negb (PAIR_P p1) then ret (end_of_list p1 n_args)
           else p2 <- PAIR_CDR p2 ;; count_arguments fuel p1 p2 n_args)%heap
  end.

(** The loop that fills the frame, from its top down. *)
Fixpoint list_elements (n : nat) (p1 : object) : operation (list object) :=
  match n with
  | O => ret []
  | S n => (o <- PAIR_CAR p1 ;; p1 <- PAIR_CDR p1 ;; os <- list_elements n p1 ;; ret (o :: os))%heap
  end.

Definition Prim_apply : hook object :=
  procedure <- ARG_REF 1 ;;
  args <- ARG_REF 2 ;;
  n <- !(in_heap (fun h => count_arguments (S (length (blocks h))) args args 0 h)) ;;
  match n with
  | circular => signals_hook (bad_range_arg 2)
  | improper => signals_hook (wrong_type_arg 2)
  | n_arguments n_args =>
      ok <- !(GET (CAN_PUSH_P (n_args + 2))) ;;
      if negb ok then signals_hook (bad_range_arg 2)
      else
        POP_PRIMITIVE_FRAME 2 ;;
        arguments <- !(in_heap (list_elements (Z.to_nat n_args) args)) ;;
        !(UPDATE (fun m => with_stack (arguments ++ stack m) m)) ;;
        return_code <- !(STACK_REF (Z.to_nat n_args)) ;;
        assert_that (RETURN_CODE_P return_code) ;;
        apply_to_pushed procedure n_args
  end.

(** ** Control points *)

(** A control point made by [allocate_control_point (n, gc_p)], once [words]
    were copied to its start; the two words before them are no part of the stack. *)
Definition control_point_words (n : Z) (words : list object) : list object :=
  MAKE_OBJECT TC_MANIFEST_VECTOR (n + 2) :: SHARP_F :: MAKE_OBJECT TC_MANIFEST_NM_VECTOR 0 :: words.

Definition allocate_control_point (n : Z) (words : list object) : microcode object :=
  in_heap (allocate TC_CONTROL_POINT (control_point_words n words)).

Definition Prim_catch : hook object :=
  canonicalize_primitive_context 1 ;;
  procedure <- ARG_REF 1 ;;
  n_pushed <- !(GET (fun m => zlength (stack m))) ;;
  top <- !(STACK_REF 1) ;;
  previous <- (if n_pushed =? 1 + CONTINUATION_SIZE then !(STACK_REF 2) else hreturn SHARP_F) ;;
  if (n_pushed =? 1 + CONTINUATION_SIZE) && object_eqb top (MAKE_RETURN_CODE RC_JOIN_STACKLETS) && CONTROL_POINT_P previous then
    dummy <- !READ_DUMMY_HISTORY ;;
    !(UPDATE (fun m => with_history (HISTORY_POINTER dummy) (prev_restore_history_offset m) m)) ;;
    POP_PRIMITIVE_FRAME 1 ;;
    PUSH previous ;;
    apply_to_pushed procedure 1
  else
    let n := CONTINUATION_SIZE + HISTORY_SIZE + (n_pushed - 1) in
    Primitive_GC_If_Needed (1 + (n + 2)) ;;
    POP_PRIMITIVE_FRAME 1 ;;
    !(save_history RC_RESTORE_HISTORY) ;;
    !preserve_interrupt_mask ;;
    !(UPDATE (fun m => with_history (history_register m) 0 m)) ;;
    words <- !(GET stack) ;;
    cp <- !(allocate_control_point n words) ;;
    !(UPDATE (with_stack [])) ;;
    !(CLEAR_INTERRUPT INT_Stack_Overflow) ;;
    !(SET_RC RC_JOIN_STACKLETS) ;;
    !(SET_EXP cp) ;;
    !SAVE_CONT ;;
    PUSH cp ;;
    apply_to_pushed procedure 1.

Definition Prim_within_control_point : hook object :=
  canonicalize_primitive_context 2 ;;
  CHECK_ARG_REF 1 CONTROL_POINT_P ;;
  control_point <- ARG_REF 1 ;;
  thunk <- ARG_REF 2 ;;
  !(UPDATE (with_stack [])) ;;
  !(UPDATE (fun m => with_history (history_register m) 0 m)) ;;
  !(CLEAR_INTERRUPT INT_Stack_Overflow) ;;
  !(Will_Push CONTINUATION_SIZE) ;;
  !(SET_EXP control_point) ;;
  !(SET_RC RC_JOIN_STACKLETS) ;;
  !SAVE_CONT ;;
  !(Will_Push (STACK_ENV_EXTRA_SLOTS + 1)) ;;
  apply_to_pushed thunk 0.

(** ** Evaluation *)

Definition Error_Procedure : nat := 0x1D.

Definition Prim_error_procedure (primitive : object) : hook object :=
  canonicalize_primitive_context 3 ;;
  message <- ARG_REF 1 ;;
  irritants <- ARG_REF 2 ;;
  environment <- ARG_REF 3 ;;
  !(back_out_of_primitive primitive 3) ;;
  !(Will_Push (HISTORY_SIZE + STACK_ENV_EXTRA_SLOTS + 4)) ;;
  !stop_history ;;
  PUSH environment ;;
  PUSH irritants ;;
  PUSH message ;;
  handler <- !(FIXED_OBJECT Error_Procedure) ;;
  apply_to_pushed handler 3.

(** The interpreter moves the expression through VAL. *)
Definition abort_to_expression {A} : hook A :=
  exp <- !(GET EXP) ;; !(SET_VAL exp) ;; hexit (PRIMITIVE_ABORT do_expression).

Definition Prim_scode_eval : hook object :=
  canonicalize_primitive_context 2 ;;
  CHECK_ARG_REF 2 ENVIRONMENT_P ;;
  expression <- ARG_REF 1 ;;
  environment <- ARG_REF 2 ;;
  POP_PRIMITIVE_FRAME 2 ;;
  !(SET_ENV environment) ;;
  !(SET_EXP expression) ;;
  abort_to_expression.

Definition THUNK_ENVIRONMENT : nat := 0.
Definition THUNK_PROCEDURE : nat := 1.
Definition FIXNUM_ZERO : object := MAKE_OBJECT TC_FIXNUM 0.

Definition Prim_force : hook object :=
  CHECK_ARG_REF 1 PROMISE_P ;;
  thunk <- ARG_REF 1 ;;
  State <- !(in_heap (MEMORY_REF thunk THUNK_SNAPPED)) ;;
  if object_eqb State SHARP_T then !(in_heap (MEMORY_REF thunk THUNK_VALUE))
  else if object_eqb State FIXNUM_ZERO then
    canonicalize_primitive_context 1 ;;
    POP_PRIMITIVE_FRAME 1 ;;
    !(Will_Push (CONTINUATION_SIZE + STACK_ENV_EXTRA_SLOTS + 1)) ;;
    !(SET_RC RC_SNAP_NEED_THUNK) ;;
    !(SET_EXP thunk) ;;
    !SAVE_CONT ;;
    value <- !(in_heap (MEMORY_REF thunk THUNK_VALUE)) ;;
    apply_to_pushed value 0
  else
    canonicalize_primitive_context 1 ;;
    POP_PRIMITIVE_FRAME 1 ;;
    !(Will_Push CONTINUATION_SIZE) ;;
    !(SET_RC RC_SNAP_NEED_THUNK) ;;
    !(SET_EXP thunk) ;;
    !SAVE_CONT ;;
    environment <- !(in_heap (MEMORY_REF thunk THUNK_ENVIRONMENT)) ;;
    !(SET_ENV environment) ;;
    procedure <- !(in_heap (MEMORY_REF thunk THUNK_PROCEDURE)) ;;
    !(SET_EXP procedure) ;;
    abort_to_expression.

(** ** Interrupts *)

Definition INT_Mask : Z := Z.shiftl 1 (MAX_INTERRUPT_NUMBER + 1) - 1.

Definition interrupt_mask_object : hook object := mask <- !(GET INT_MASK) ;; hreturn (ULONG_TO_FIXNUM mask).

Definition Prim_get_interrupt_enables : hook object := interrupt_mask_object.

(** The old mask is read before the argument is decoded. *)
Definition change_interrupt_mask (f : Z -> Z -> Z) : hook object :=
  previous <- !(GET INT_MASK) ;;
  n <- arg_ulong_integer_ref 1 ;;
  !(SET_INTERRUPT_MASK (f previous (Z.land n INT_Mask))) ;;
  hreturn (ULONG_TO_FIXNUM previous).

Definition Prim_set_interrupt_enables : hook object := change_interrupt_mask (fun _ n => n).
Definition Prim_disable_interrupts : hook object := change_interrupt_mask (fun previous n => Z.ldiff previous n).
Definition Prim_enable_interrupts : hook object := change_interrupt_mask (fun previous n => Z.lor previous n).

(** The bit of INT_GC in the interrupt code stands for a request of space. *)
Definition clear_interrupts (code : Z) : microcode unit :=
  (CLEAR_INTERRUPT (Z.ldiff code INT_GC) ;;
   if Z.testbit code 2 then
     UPDATE (fun m => let h := memory m in
                      with_memory (Heap (blocks h) (available h) (gc_enabled h) None (non_object h) (obarray h)) m)
   else mret tt)%machine.

Definition Prim_clear_interrupts : hook object :=
  n <- arg_ulong_integer_ref 1 ;; !(clear_interrupts (Z.land n INT_Mask)) ;; hreturn UNSPECIFIC.

Definition Prim_request_interrupts : hook object :=
  n <- arg_ulong_integer_ref 1 ;; !(REQUEST_INTERRUPT (Z.land n INT_Mask)) ;; hreturn UNSPECIFIC.

Definition with_new_interrupt_mask (new_mask : Z) : hook object :=
  receiver <- ARG_REF 2 ;;
  canonicalize_primitive_context 2 ;;
  POP_PRIMITIVE_FRAME 2 ;;
  !preserve_interrupt_mask ;;
  !(Will_Push (STACK_ENV_EXTRA_SLOTS + 2)) ;;
  mask <- !(GET INT_MASK) ;;
  PUSH (ULONG_TO_FIXNUM mask) ;;
  PUSH receiver ;;
  !(PUSH_APPLY_FRAME_HEADER 1) ;;
  !(SET_INTERRUPT_MASK new_mask) ;;
  hexit (PRIMITIVE_ABORT internal_apply).

Definition Prim_with_interrupt_mask : hook object :=
  n <- arg_integer_ref 1 ;; with_new_interrupt_mask (Z.land INT_Mask n).

(** The mask as the code chooses it. *)
Definition reduced_mask (old_mask new_mask : Z) : Z := if new_mask >? old_mask then new_mask else Z.land new_mask old_mask.

Definition Prim_with_interrupts_reduced : hook object :=
  old_mask <- !(GET INT_MASK) ;;
  n <- arg_ulong_integer_ref 1 ;;
  with_new_interrupt_mask (reduced_mask old_mask (Z.land INT_Mask n)).

(** ** Marked frames *)

Definition Prim_return_to_application (nargs : Z) : hook object :=
  canonicalize_primitive_context (Z.to_nat nargs) ;;
  if nargs <? 2 then signals_hook (primitive_error ERR_WRONG_NUMBER_OF_ARGUMENTS)
  else
    thunk <- !STACK_POP ;;
    !(PUSH_APPLY_FRAME_HEADER (nargs - 2)) ;;
    !(SET_ENV THE_NULL_ENV) ;;
    !(SET_EXP SHARP_F) ;;
    !(SET_RC RC_INTERNAL_APPLY) ;;
    !SAVE_CONT ;;
    !(Will_Push (STACK_ENV_EXTRA_SLOTS + 1)) ;;
    apply_to_pushed thunk 0.

Definition Prim_with_stack_marker : hook object :=
  thunk <- ARG_REF 1 ;;
  canonicalize_primitive_context 3 ;;
  !STACK_POP ;;
  PUSH (MAKE_RETURN_CODE RC_STACK_MARKER) ;;
  !(Will_Push (STACK_ENV_EXTRA_SLOTS + 1)) ;;
  apply_to_pushed thunk 0.

(** ** History *)

Definition MARKED_HISTORY_TYPE : Z := TC_HUNK3_B.
Definition HISTORY_MARK_TYPE : Z := Z.lxor UNMARKED_HISTORY_TYPE MARKED_HISTORY_TYPE.
Definition HISTORY_MARK (o : object) : object := OBJECT_NEW_TYPE (Z.lor (OBJECT_TYPE o) HISTORY_MARK_TYPE) o.
Definition HISTORY_MARKED_P (o : object) : bool := negb (Z.land (OBJECT_TYPE o) HISTORY_MARK_TYPE =? 0).

Definition HIST_MARK : nat := 1.
Definition RIB_MARK : nat := 2.

Definition Prim_set_current_history : hook object :=
  canonicalize_primitive_context 1 ;;
  CHECK_ARG_REF 1 HUNK3_P ;;
  history <- !(GET history_register) ;;
  value <- !(in_heap (MEMORY_REF history 0)) ;;
  !(SET_VAL value) ;;
  dummy <- !READ_DUMMY_HISTORY ;;
  !(UPDATE (fun m => with_history (HISTORY_POINTER dummy) (prev_restore_history_offset m) m)) ;;
  POP_PRIMITIVE_FRAME 1 ;;
  hexit (PRIMITIVE_ABORT pop_return).

(** The rib before [first_rib] in its ring. *)
Fixpoint last_rib (fuel : nat) (first_rib rib : object) : operation object :=
  match fuel with
  | O => fun _ => OutOfFuel
  | S fuel =>
      (next_rib <- MEMORY_REF rib RIB_NEXT_REDUCTION ;;
       if same_address next_rib first_rib then ret rib else last_rib fuel first_rib next_rib)%heap
  end.

Definition remove_reduction (history : object) : operation unit :=
  (first_rib <- MEMORY_REF history HIST_RIB ;;
   second_rib <- MEMORY_REF first_rib RIB_NEXT_REDUCTION ;;
   mark <- MEMORY_REF first_rib RIB_MARK ;;
   if negb (same_address first_rib second_rib) && negb (HISTORY_MARKED_P mark) then
     second_mark <- MEMORY_REF second_rib RIB_MARK ;;
     MEMORY_SET second_rib RIB_MARK (HISTORY_MARK second_mark) ;;
     rib <- (fun h => last_rib (S (List.length (blocks h))) first_rib first_rib h) ;;
     MEMORY_SET history HIST_RIB (OBJECT_NEW_TYPE (OBJECT_TYPE first_rib) rib)
   else ret tt)%heap.

Definition Prim_with_history_disabled : hook object :=
  canonicalize_primitive_context 1 ;;
  thunk <- ARG_REF 1 ;;
  history <- !(GET history_register) ;;
  !(in_heap (remove_reduction history)) ;;
  POP_PRIMITIVE_FRAME 1 ;;
  !stop_history ;;
  !(Will_Push (STACK_ENV_EXTRA_SLOTS + 1)) ;;
  apply_to_pushed thunk 0.

(** ** Fixed objects *)

Definition N_FIXED_OBJECTS : Z := 0x45.

Definition Prim_get_fixed_objects_vector : hook object := !(GET fixed_objects).

Definition Prim_set_fixed_objects_vector : hook object :=
  CHECK_ARG_REF 1 VECTOR_P ;;
  old <- !(GET fixed_objects) ;;
  new <- ARG_REF 1 ;;
  length <- !(in_heap (VECTOR_LENGTH new)) ;;
  if length <? N_FIXED_OBJECTS then signals_hook (bad_range_arg 1)
  else
    !(UPDATE (fun m => Machine (memory m) (stack m) (stack_guard m) (EXP m) (ENV m) (VAL m) (RET m) (INT_CODE m) (INT_MASK m)
                         (history_register m) (prev_restore_history_offset m) new)) ;;
    hreturn old.

(** ** Calls of these primitives *)

#[local] Open Scope string_scope.

(** The number of arguments, or none for a primitive that takes any number. *)
Definition hook_primitives : list (string * (option nat * (object -> Z -> hook object))) :=
  let of_n n (body : hook object) := (Some n, fun (_ : object) (_ : Z) => body) in
  [("APPLY", of_n 2%nat Prim_apply); ("CALL-WITH-CURRENT-CONTINUATION", of_n 1%nat Prim_catch);
   ("WITHIN-CONTROL-POINT", of_n 2%nat Prim_within_control_point);
   ("ERROR-PROCEDURE", (Some 3%nat, fun primitive _ => Prim_error_procedure primitive));
   ("SCODE-EVAL", of_n 2%nat Prim_scode_eval); ("FORCE", of_n 1%nat Prim_force);
   ("GET-INTERRUPT-ENABLES", of_n 0%nat Prim_get_interrupt_enables); ("SET-INTERRUPT-ENABLES!", of_n 1%nat Prim_set_interrupt_enables);
   ("CLEAR-INTERRUPTS!", of_n 1%nat Prim_clear_interrupts); ("DISABLE-INTERRUPTS!", of_n 1%nat Prim_disable_interrupts);
   ("ENABLE-INTERRUPTS!", of_n 1%nat Prim_enable_interrupts); ("REQUEST-INTERRUPTS!", of_n 1%nat Prim_request_interrupts);
   ("RETURN-TO-APPLICATION", (None, fun _ => Prim_return_to_application)); ("WITH-STACK-MARKER", of_n 3%nat Prim_with_stack_marker);
   ("WITH-INTERRUPT-MASK", of_n 2%nat Prim_with_interrupt_mask); ("WITH-INTERRUPTS-REDUCED", of_n 2%nat Prim_with_interrupts_reduced);
   ("SET-CURRENT-HISTORY!", of_n 1%nat Prim_set_current_history); ("WITH-HISTORY-DISABLED", of_n 1%nat Prim_with_history_disabled);
   ("GET-FIXED-OBJECTS-VECTOR", of_n 0%nat Prim_get_fixed_objects_vector);
   ("SET-FIXED-OBJECTS-VECTOR!", of_n 1%nat Prim_set_fixed_objects_vector)].

#[local] Open Scope microcode_machine_scope.

Section WithHooks.

(** The primitives of [HeapCalls], and those here, by their numbers. *)
Context (Primitive_Procedure_Table : Z -> option primitive_code)
  (Hook_Table : Z -> option (option nat * (object -> Z -> hook object))).

(** The case of TC_PRIMITIVE in Interpret, for a primitive of this file. *)
Definition apply_hook_primitive (primitive : object) (arity : option nat) (body : object -> Z -> hook object) : microcode label :=
  n_args <- APPLY_FRAME_N_ARGS ;;
  if match arity with Some n => (n_args =? Z.of_nat n)%Z | None => true end then
    STACK_DROP 2 ;;
    SET_EXP primitive ;;
    result <- body primitive n_args ;;
    match result with
    | inl value => after_primitive primitive n_args (inl value)
    | inr (hook_signal s) => after_primitive primitive n_args (inr s)
    | inr (PRIMITIVE_ABORT l) => goto l
    end
  else APPLICATION_ERROR ERR_WRONG_NUMBER_OF_ARGUMENTS.

Definition hook_of (function : object) : option (option nat * (object -> Z -> hook object)) :=
  if PRIMITIVE_P function then match OBJECT_DATUM function with Return n => Hook_Table n | _ => None end else None.

Definition hooked_step (l : label) : microcode label :=
  match l with
  | perform_application =>
      function <- APPLY_FRAME_PROCEDURE ;;
      match hook_of function with
      | Some (arity, body) => apply_hook_primitive function arity body
      | None => step Primitive_Procedure_Table perform_application
      end
  | _ => step Primitive_Procedure_Table l
  end.

Fixpoint hooked_steps (n : nat) (l : label) : microcode label :=
  match n with O => mret l | S n => l <- hooked_step l ;; hooked_steps n l end.

End WithHooks.
