(* ===== verification/Evaluate.v ===== *)
(** * The value of an expression

    The comment at the head of the dispatch of interp.c says what its labels
    stand for: evaluate the expression and leave its value, apply the procedure
    of the frame, do the rest of a computation.  [run] is that evaluator,
    written directly: the value of a subexpression is the result of a call, an
    expression that reduces to another is a call in the same place.  There is
    no stack; [room] counts the words that can still be pushed, from which the
    overflow of the stack follows.

    [Simulation] shows that the machine of Interpret.v implements it. *)

From Stdlib Require Import ZArith List Bool Lia.
From S2P Require Import Prelude Object Heap HeapPrim Intern Environment Lookup ListPrim VectorPrim HeapCalls Machine Interpret.
Import ListNotations.

#[local] Open Scope Z_scope.

(** ** Evaluations *)

(** What ends an evaluation without a value.  [unstructured]: the length of a
    combination was changed while its operands were evaluated. *)
Inductive exit : Type :=
| error (code : Z) (from_pop_return_p : bool)
| interrupt
| overflow
| throw (control_point value : object)
| terminate (code : Z)
| unstructured.

Definition evaluation (A : Type) : Type := heap -> outcome ((A + exit) * heap).

Definition value {A} (a : A) : evaluation A := fun h => Return (inl a, h).
Definition exits {A} (x : exit) : evaluation A := fun h => Return (inr x, h).

Definition ethen {A B} (m : evaluation A) (k : A -> evaluation B) : evaluation B := fun h =>
  bind (m h) (fun '(r, h') => match r with inl a => k a h' | inr x => Return (inr x, h') end).

Definition lift {A} (op : operation A) : evaluation A := fun h => bind (op h) (fun '(a, h') => Return (inl a, h')).

Declare Scope evaluation_scope.
Delimit Scope evaluation_scope with evaluation.

Notation "x <- m ;; k" := (ethen m (fun x => k))
  (at level 60, m at next level, right associativity) : evaluation_scope.
Notation "' p <- m ;; k" := (ethen m (fun x => match x with p => k end))
  (at level 60, p pattern, m at next level, right associativity) : evaluation_scope.
Notation "m ;; k" := (ethen m (fun _ => k))
  (at level 60, right associativity) : evaluation_scope.

#[local] Open Scope evaluation_scope.

(** Space for [n] more words. *)
Definition push (n room : Z) : evaluation unit := if n <=? room then value tt else exits overflow.

(** What does not change while no interrupt is taken. *)
Record configuration : Type := Configuration {
  guard : Z; code : Z; mask : Z; history : object; history_offset : Z; fixed : object
}.

Definition pending (c : configuration) (h : heap) : bool :=
  negb (Z.land (mask c) (match gc_space_needed h with Some _ => Z.lor (code c) INT_GC | None => code c end) =? 0).

(** [evaluate env e]: do_expression; [call f args]: internal_apply;
    [perform f args]: perform_application. *)
Inductive task : Type :=
| evaluate (env e : object)
| call (f : object) (args : list object)
| perform (f : object) (args : list object).

Section Evaluator.

Context (Primitive_Procedure_Table : Z -> option primitive_code) (c : configuration).

(** The evaluation of a task in the room that is left. *)
Context (rec : Z -> task -> evaluation object).

(** ** Expressions *)

(** The result of a lookup. *)
Definition lookup_result (r : Lookup.result) (from_pop_return_p : bool) : evaluation object :=
  if fst r =? PRIM_DONE then match snd r with Some v => value v | None => fun _ => Wild end
  else if fst r =? PRIM_INTERRUPT then exits interrupt
  else exits (error (fst r) from_pop_return_p).

(** The part [n] of [e], evaluated with [frame] words on the stack. *)
Definition subproblem (room frame : Z) (env e : object) (n : nat) : evaluation object :=
  part <- lift (MEMORY_REF e n) ;; push frame room ;; rec (room - frame) (evaluate env part).

Definition reduction (room : Z) (env e : object) (n : nat) : evaluation object :=
  part <- lift (MEMORY_REF e n) ;; rec room (evaluate env part).

(** The operands in front of word [n + 2], evaluated from the last one to the
    first; [args] are the values of those after it. *)
Fixpoint operands (n : nat) (room : Z) (env e : object) (args : list object) : evaluation (list object) :=
  match n with
  | O => value args
  | S n =>
      part <- lift (MEMORY_REF e (n + 2)) ;;
      v <- rec room (evaluate env part) ;;
      operands n room env e (v :: args)
  end.

Definition combination (room : Z) (env e : object) : evaluation object :=
  n <- lift (VECTOR_LENGTH e) ;;
  if n <? 1 then fun _ => Wild
  else
    let length := n - 1 in
    let inside := room - (length + 4) in
    first <- lift (MEMORY_REF e (Z.to_nat (if length =? 0 then 1 else n))) ;;
    push (length + 4) room ;;
    (if length =? 0 then
       f <- rec inside (evaluate env first) ;; rec room (call f [])
     else
       v <- rec inside (evaluate env first) ;;
       args <- operands (Z.to_nat (length - 1)) inside env e [v] ;;
       header <- lift (MEMORY_REF e 0) ;;
       operator <- lift (MEMORY_REF e COMB_FN_SLOT) ;;
       (if match OBJECT_DATUM header with Return d => d =? n | _ => false end then
          f <- rec inside (evaluate env operator) ;; rec room (call f args)
        else exits unstructured)).

Definition access (room : Z) (e env : object) : evaluation object :=
  v <- subproblem room 2 env e ACCESS_ENVIRONMENT ;;
  name <- lift (MEMORY_REF e ACCESS_NAME) ;;
  r <- lift (lookup_variable v name) ;;
  lookup_result r true.

Definition assignment (room : Z) (e env : object) : evaluation object :=
  v <- subproblem room 3 env e ASSIGN_VALUE ;;
  variable <- lift (MEMORY_REF e ASSIGN_NAME) ;;
  if OBJECT_TYPE variable =? TC_VARIABLE then
    name <- lift (VARIABLE_SYMBOL variable) ;;
    r <- lift (assign_variable env name v) ;;
    lookup_result r true
  else exits (error ERR_BAD_FRAME true).

Definition definition (room : Z) (e env : object) : evaluation object :=
  v <- subproblem room 3 env e DEFINE_VALUE ;;
  name <- lift (MEMORY_REF e DEFINE_NAME) ;;
  r <- lift (define_variable env name v) ;;
  lookup_result (r, Some name) true.

Definition conditional (room : Z) (e env : object) : evaluation object :=
  v <- subproblem room 3 env e COND_PREDICATE ;;
  reduction room env e (if object_eqb v SHARP_F then COND_ALTERNATIVE else COND_CONSEQUENT).

Definition disjunction (room : Z) (e env : object) : evaluation object :=
  v <- subproblem room 3 env e OR_PREDICATE ;;
  if object_eqb v SHARP_F then reduction room env e OR_ALTERNATIVE else value v.

Definition sequence (room : Z) (e env : object) : evaluation object :=
  subproblem room 3 env e SEQUENCE_1 ;; reduction room env e SEQUENCE_2.

Definition variable (e env : object) : evaluation object :=
  name <- lift (VARIABLE_SYMBOL e) ;;
  r <- lift (lookup_variable env name) ;;
  safe <- lift (VARIABLE_SAFE_P e) ;;
  if safe && (fst r =? ERR_UNASSIGNED_VARIABLE) then value UNASSIGNED_OBJECT else lookup_result r false.

Definition closure (type : Z) (first second : object) : evaluation object := lift (allocate type [first; second]).

Definition expression (room : Z) (env e : object) : evaluation object :=
  let t := OBJECT_TYPE e in
  if t =? TC_ACCESS then access room e env
  else if t =? TC_ASSIGNMENT then assignment room e env
  else if t =? TC_BROKEN_HEART then exits (terminate TERM_BROKEN_HEART)
  else if t =? TC_COMBINATION then combination room env e
  else if t =? TC_COMMENT then reduction room env e COMMENT_EXPRESSION
  else if t =? TC_CONDITIONAL then conditional room e env
  else if t =? TC_DEFINITION then definition room e env
  else if t =? TC_DELAY then body <- lift (MEMORY_REF e DELAY_OBJECT) ;; closure TC_DELAYED env body
  else if t =? TC_DISJUNCTION then disjunction room e env
  else if t =? TC_EXTENDED_LAMBDA then closure TC_EXTENDED_PROCEDURE e env
  else if (t =? TC_LAMBDA) || (t =? TC_LEXPR) then closure TC_PROCEDURE e env
  else if t =? TC_MANIFEST_NM_VECTOR then exits (error ERR_EXECUTE_MANIFEST_VECTOR false)
  else if t =? TC_SCODE_QUOTE then lift (MEMORY_REF e SCODE_QUOTE_OBJECT)
  else if t =? TC_SEQUENCE then sequence room e env
  else if t =? TC_SYNTAX_ERROR then exits (error ERR_SYNTAX_ERROR false)
  else if t =? TC_THE_ENVIRONMENT then value env
  else if t =? TC_VARIABLE then variable e env
  else value e.

(** ** Procedures *)

(** An allocation of [n] words, if there is space. *)
Definition unless_gc_needed {A} (n : Z) (m : evaluation A) : evaluation A := fun h =>
  if GC_NEEDED_P n h then exits interrupt (Heap.REQUEST_GC n h) else m h.

(** The number of words from the procedure on. *)
Definition frame_words (args : list object) : Z := zlength args + 1.

Definition compound (room : Z) (f : object) (args : list object) : evaluation object :=
  lambda <- lift (MEMORY_REF f PROCEDURE_LAMBDA_EXPR) ;;
  formals <- lift (MEMORY_REF lambda LAMBDA_FORMALS) ;;
  n <- lift (VECTOR_LENGTH formals) ;;
  if negb (frame_words args =? n) && (negb (OBJECT_TYPE lambda =? TC_LEXPR) || (frame_words args <? n))
  then exits (error ERR_WRONG_NUMBER_OF_ARGUMENTS true)
  else unless_gc_needed (frame_words args + 1) (
    env <- lift (allocate TC_ENVIRONMENT (MAKE_OBJECT TC_MANIFEST_VECTOR (frame_words args) :: f :: args)) ;;
    body <- lift (MEMORY_REF lambda LAMBDA_SCODE) ;;
    rec room (evaluate env body)).

(** The frame of a procedure with optional, rest and auxiliary variables. *)
Definition extended_frame (f : object) (args : list object) (params rest_flag auxes : Z) : operation object :=
  let size := params + rest_flag + auxes + 1 in
  if zlength args <=? params then
    allocate TC_ENVIRONMENT
      (MAKE_OBJECT TC_MANIFEST_VECTOR size :: (f :: args) ++
       repeat (Immediate DEFAULT_OBJECT) (Z.to_nat (params - zlength args)) ++
       (if rest_flag =? 0 then [] else [EMPTY_LIST]) ++
       repeat UNASSIGNED_OBJECT (Z.to_nat auxes))
  else
    (list <- next_object TC_LIST ;;
     env <- allocate TC_ENVIRONMENT
       (MAKE_OBJECT TC_MANIFEST_VECTOR size :: (f :: firstn (Z.to_nat params) args) ++ list :: repeat UNASSIGNED_OBJECT (Z.to_nat auxes)) ;;
     rest_list (skipn (Z.to_nat params) args) ;;
     ret env)%heap.

Definition extended (room : Z) (f : object) (args : list object) : evaluation object :=
  lambda <- lift (MEMORY_REF f PROCEDURE_LAMBDA_EXPR) ;;
  names <- lift (MEMORY_REF lambda ELAMBDA_NAMES) ;;
  n <- lift (VECTOR_LENGTH names) ;;
  count <- lift (MEMORY_REF lambda ELAMBDA_ARG_COUNT) ;;
  count <- lift (pure (match count with Immediate w => Return w | Pointer _ _ => Wild end)) ;;
  let nargs := zlength args in
  let formals := Elambda_Formals_Count count in
  let params := Elambda_Opts_Count count + formals in
  let rest_flag := Elambda_Rest_Flag count in
  let auxes := n - 1 - (params + rest_flag) in
  if (nargs <? formals) || ((rest_flag =? 0) && (nargs >? params)) then exits (error ERR_WRONG_NUMBER_OF_ARGUMENTS true)
  else
    let size := params + rest_flag + auxes + 1 in
    unless_gc_needed (size + 1 + (if nargs >? params then 2 * (nargs - params) else 0)) (
      env <- lift (extended_frame f args params rest_flag auxes) ;;
      body <- lift (MEMORY_REF lambda ELAMBDA_SCODE) ;;
      rec room (evaluate env body)).

(** The operator of an entity or a record is called with it as first argument. *)
Definition apply_hook (room : Z) (operator f : object) (args : list object) : evaluation object :=
  push (zlength args + 3) room ;; rec room (call operator (f :: args)).

Definition entity (room : Z) (f : object) (args : list object) : evaluation object :=
  dispatched <- lift (arity_dispatched (fixed c) f (frame_words args)) ;;
  match dispatched with
  | Some o => rec room (perform o args)
  | None => operator <- lift (MEMORY_REF f ENTITY_OPERATOR) ;; apply_hook room operator f args
  end.

Definition record (room : Z) (f : object) (args : list object) : evaluation object :=
  applicator <- lift (record_applicator (fixed c) f) ;;
  if object_eqb applicator SHARP_F then exits (error ERR_INAPPLICABLE_OBJECT true) else apply_hook room applicator f args.

Definition primitive_procedure (f : object) (args : list object) : evaluation object :=
  number <- lift (pure (OBJECT_DATUM f)) ;;
  match Primitive_Procedure_Table number with
  | None => exits (error ERR_UNIMPLEMENTED_PRIMITIVE true)
  | Some p =>
      if match primitive_arity p with Some n => zlength args =? Z.of_nat n | None => true end then
        result <- lift (apply_primitive p args) ;;
        match result with
        | inl v => value v
        | inr s => exits (match error_code_of s with Some code => error code true | None => interrupt end)
        end
      else exits (error ERR_WRONG_NUMBER_OF_ARGUMENTS true)
  end.

Definition continuation (cp : object) (args : list object) : evaluation object :=
  match args with
  | [v] => exits (throw cp v)
  | _ => exits (error ERR_WRONG_NUMBER_OF_ARGUMENTS true)
  end.

Definition performance (room : Z) (f : object) (args : list object) : evaluation object :=
  let t := OBJECT_TYPE f in
  if t =? TC_ENTITY then entity room f args
  else if t =? TC_RECORD then record room f args
  else if t =? TC_PROCEDURE then compound room f args
  else if t =? TC_CONTROL_POINT then continuation f args
  else if t =? TC_PRIMITIVE then primitive_procedure f args
  else if t =? TC_EXTENDED_PROCEDURE then extended room f args
  else exits (error ERR_INAPPLICABLE_OBJECT true).

Definition application (room : Z) (f : object) (args : list object) : evaluation object := fun h =>
  if pending c h then exits interrupt h else rec room (perform f args) h.

Definition body (room : Z) (t : task) : evaluation object :=
  match t with
  | evaluate env e => expression room env e
  | call f args => application room f args
  | perform f args => performance room f args
  end.

End Evaluator.

(** A unit of fuel is a step of the machine at least. *)
Fixpoint run (Primitive_Procedure_Table : Z -> option primitive_code) (c : configuration) (fuel : nat) (room : Z) (t : task) : evaluation object :=
  match fuel with
  | O => fun _ => OutOfFuel
  | S fuel => body Primitive_Procedure_Table c (run Primitive_Procedure_Table c fuel) room t
  end.
