(* ===== verification/Simulation.v ===== *)
(** * The interpreter implements the evaluator

    A simulation between [run] of Evaluate.v and [steps] of Interpret.v, from
    which follow that the interpreter computes the values that the evaluator
    gives, that it goes on for ever when the evaluation does, and that a
    procedure call in a reduction takes no stack. *)

From Stdlib Require Import ZArith List Bool Lia.
From S2P Require Import Prelude Object Heap HeapPrim Intern Environment Lookup ListPrim VectorPrim HeapCalls Machine Interpret Evaluate.
Import ListNotations.

#[local] Open Scope Z_scope.
#[local] Open Scope list_scope.

(** ** States *)

Definition at_state (c : configuration) (h : heap) (s : list object) (e env v r : object) : machine :=
  Machine h s (guard c) e env v r (code c) (mask c) (history c) (history_offset c) (fixed c).

Definition with_code (c : configuration) (k : Z) : configuration :=
  Configuration (guard c) k (mask c) (history c) (history_offset c) (fixed c).

(** The stack [s] is untouched under what was pushed. *)
Definition above (c : configuration) (h : heap) (s : list object) (m : machine) : Prop :=
  exists k pushed e env v r, m = at_state (with_code c k) h (pushed ++ s) e env v r.

(** The place where an evaluation that ends in [x] leaves the machine. *)
Definition stopped (x : exit) (c : configuration) (h : heap) (s : list object) (l : label) (m : machine) : Prop :=
  match x with
  | error code b => l = micro_error code b /\ above c h s m
  | interrupt => l = signal_interrupt /\ above c h s m
  | overflow => Z.testbit (INT_CODE m) 0 = true
  | throw cp v =>
      l = perform_application /\
      exists header pushed e env v' r,
        m = at_state c h (header :: cp :: v :: pushed ++ s) e env v' r /\ OBJECT_DATUM header = Return 2
  | terminate code => l = terminated code /\ above c h s m
  | unstructured => True
  end.

(** The value is in VAL, and the stack is that at the start. *)
Definition delivered (c : configuration) (h : heap) (s : list object) (v : object) (l : label) (m : machine) : Prop :=
  l = pop_return /\ exists e env r, m = at_state c h s e env v r.

Definition running (l : label) : Prop := l = do_expression \/ l = internal_apply \/ l = perform_application.

Definition agrees (c : configuration) (s : list object) (r : outcome ((object + exit) * heap)) (final : outcome (label * machine)) : Prop :=
  match r, final with
  | Return (inl v, h), Return (l, m) => delivered c h s v l m
  | Return (inr x, h), Return (l, m) => stopped x c h s l m
  | OutOfFuel, Return (l, m) => running l
  | Exception, Exception | Wild, Wild | OutOfFuel, OutOfFuel => True
  | _, _ => False
  end.

(** The machine that stands where the task begins. *)
Definition starts (t : task) (c : configuration) (h : heap) (s : list object) (l : label) (m : machine) : Prop :=
  match t with
  | evaluate env e => l = do_expression /\ exists v r, m = at_state c h s e env v r
  | call f args =>
      l = internal_apply /\
      exists header e env v r, m = at_state c h (header :: f :: args ++ s) e env v r /\ OBJECT_DATUM header = Return (frame_words args)
  | perform f args =>
      l = perform_application /\
      exists header e env v r, m = at_state c h (header :: f :: args ++ s) e env v r /\ OBJECT_DATUM header = Return (frame_words args)
  end.

(** The frame of a call is on the stack already. *)
Definition fits (t : task) (room : Z) : Prop :=
  match t with evaluate _ _ => True | call _ args | perform _ args => zlength args + 2 <= room end.

(** The state after a few instructions. *)
Ltac microcode :=
  cbv [mthen mret GET UPDATE in_heap mpure bind ethen lift value exits at_state SET_EXP SET_ENV SET_VAL SET_RET SET_RC SAVE_CONT RESTORE_CONT
    PUSH_ENV PUSH_EXP PUSH_RET POP_ENV POP_EXP POP_RET STACK_PUSH STACK_POP with_memory with_stack with_EXP with_ENV with_VAL with_RET
    memory stack stack_guard EXP ENV VAL RET INT_CODE INT_MASK history_register prev_restore_history_offset fixed_objects
    goto REDUCES_TO REDUCES_TO_NTH DO_NTH_THEN PUSH_NTH_THEN DO_ANOTHER_THEN EXP_REF EVAL_ERROR].

(** ** Simulation *)

Section WithPrimitives.

Context (table : Z -> option primitive_code).

(** The machine comes to what [r] says, after [n] steps at least if the
    evaluation is not finished. *)
Definition sim (n : nat) (c : configuration) (s : list object) (l : label) (m : machine) (r : outcome ((object + exit) * heap)) : Prop :=
  exists k, agrees c s r (steps table k l m) /\ (r = OutOfFuel -> forall x, steps table k l m = Return x -> (n <= k)%nat).

(** The same, of the result of a step. *)
Definition sim_after (n : nat) (c : configuration) (s : list object) (final : outcome (label * machine)) (r : outcome ((object + exit) * heap)) : Prop :=
  match final with
  | Return (l, m) => sim n c s l m r
  | Exception => r = Exception
  | Wild => r = Wild
  | OutOfFuel => r = OutOfFuel
  end.

Lemma steps_plus a b l m : steps table (a + b) l m = bind (steps table a l m) (fun '(l', m') => steps table b l' m').
Proof.
  revert l m. induction a as [|a IH]; intros l m; [reflexivity|]. cbn [Nat.add steps]. unfold mthen.
  destruct (step table l m) as [[l1 m1]| | |]; cbn [bind]; [apply IH| | |]; reflexivity.
Qed.

Lemma sim_step n c s l m r : sim_after n c s (step table l m) r -> sim (S n) c s l m r.
Proof.
  unfold sim_after. intros H. assert (E : forall k, steps table (S k) l m = bind (step table l m) (fun '(l', m') => steps table k l' m')) by reflexivity.
  destruct (step table l m) as [[l1 m1]| | |]; [destruct H as (k & A & B); exists (S k)|subst r; exists 1%nat..]; rewrite E; cbn [bind].
  - split; [exact A|]. intros R x X. specialize (B R x X). lia.
  - split; [exact I|discriminate].
  - split; [exact I|discriminate].
  - split; [exact I|]. intros _ x X. discriminate X.
Qed.

Lemma sim_weaken n n' c s l m r : sim n c s l m r -> (n' <= n)%nat -> sim n' c s l m r.
Proof. intros (k & A & B) L. exists k. split; [exact A|]. intros R x X. specialize (B R x X). lia. Qed.

Lemma sim_step_weak n c s l m r : sim_after n c s (step table l m) r -> sim n c s l m r.
Proof. intros H. apply sim_weaken with (S n); [now apply sim_step|lia]. Qed.

Lemma sim_delivered n c s h e env v r : sim n c s pop_return (at_state c h s e env v r) (Return (inl v, h)).
Proof. exists 0%nat. split; [|discriminate]. split; [reflexivity|]. now exists e, env, r. Qed.

Lemma sim_stopped n c s l m x h : stopped x c h s l m -> sim n c s l m (Return (inr x, h)).
Proof. intros H. exists 0%nat. split; [exact H|discriminate]. Qed.

Lemma above_app c h s pushed m : above c h (pushed ++ s) m -> above c h s m.
Proof. intros (k & p & e & env & v & r & ->). exists k, (p ++ pushed), e, env, v, r. now rewrite app_assoc. Qed.

Lemma stopped_app x c h s pushed l m : stopped x c h (pushed ++ s) l m -> stopped x c h s l m.
Proof.
  destruct x; cbn [stopped]; try (intros [E A]; split; [exact E|]; now apply above_app with pushed); try tauto.
  intros (E & header & p & e & env & v' & r & -> & D). split; [exact E|]. exists header, (p ++ pushed), e, env, v', r. now rewrite app_assoc.
Qed.

Lemma sim_bind n c s pushed l m r (k : object -> evaluation object) :
  sim n c (pushed ++ s) l m r ->
  (forall v h e env ret, r = Return (inl v, h) -> sim n c s pop_return (at_state c h (pushed ++ s) e env v ret) (k v h)) ->
  sim n c s l m (bind r (fun '(a, h) => match a with inl v => k v h | inr x => Return (inr x, h) end)).
Proof.
  intros (k1 & A & B) K. destruct r as [[[v|x] h]| | |]; cbn [bind].
  - destruct (steps table k1 l m) as [[l1 m1]| | |] eqn:E; try contradiction. destruct A as (-> & e & env & r & ->).
    destruct (K v h e env r eq_refl) as (k2 & A2 & B2). exists (k1 + k2)%nat. rewrite steps_plus, E. cbn [bind]. split; [exact A2|].
    intros R x X. specialize (B2 R x X). lia.
  - exists k1. split; [|discriminate]. cbn [agrees] in *. destruct (steps table k1 l m) as [[l1 m1]| | |]; try contradiction. now apply stopped_app with pushed.
  - exists k1. split; [exact A|discriminate].
  - exists k1. split; [exact A|discriminate].
  - exists k1. split; [exact A|exact B].
Qed.

(** ** Returns *)

Lemma datum_of type d : 0 <= type < 2 ^ 6 -> 0 <= d < 2 ^ 58 -> OBJECT_DATUM (MAKE_OBJECT type d) = Return d.
Proof. intros T D. unfold OBJECT_DATUM, MAKE_OBJECT. now rewrite OBJECT_DATUM_MAKE. Qed.

Lemma return_code_datum rc : 0 <= rc < 2 ^ 58 -> OBJECT_DATUM (MAKE_RETURN_CODE rc) = Return rc.
Proof. apply datum_of. unfold TC_RETURN_CODE. lia. Qed.

(** ** The constructs, in terms of the evaluation of their parts *)

Context (n : nat) (c : configuration) (rec : Z -> task -> evaluation object).

Hypothesis rec_sim : forall room t h s l m,
  room = guard c - zlength s -> fits t room -> starts t c h s l m -> sim n c s l m (rec room t h).

Hypothesis guard_small : guard c < 2 ^ 57.

Notation after := (sim_after n c).

Lemma evaluate_sim room env e h s v r : room = guard c - zlength s -> sim n c s do_expression (at_state c h s e env v r) (rec room (evaluate env e) h).
Proof. intros E. apply rec_sim; [exact E|exact I|]. split; [reflexivity|]. now exists v, r. Qed.

Lemma reduction_after room env e i h s v r :
  room = guard c - zlength s -> after s (REDUCES_TO_NTH i (at_state c h s e env v r)) (reduction rec room env e i h).
Proof.
  intros E. unfold reduction. microcode. destruct (MEMORY_REF e i h) as [[part h']| | |]; [|exact eq_refl..]. now apply evaluate_sim.
Qed.

(** A continuation on the stack is resumed. *)
Lemma return_to base rc h e s e0 env v r res : 0 <= rc < 2 ^ 58 ->
  after base (dispatch_return rc (at_state c h s e env v (MAKE_RETURN_CODE rc))) res ->
  sim n c base pop_return (at_state c h (MAKE_RETURN_CODE rc :: e :: s) e0 env v r) res.
Proof.
  intros R H. apply sim_step_weak. unfold step, pop_return_non_trapping. microcode. rewrite return_code_datum by exact R. exact H.
Qed.

Lemma overflow_bit k : Z.testbit (Z.lor k INT_Stack_Overflow) 0 = true.
Proof. rewrite Z.lor_spec. apply orb_true_r. Qed.

Ltac overflowed := apply sim_stopped, overflow_bit.

Lemma room_check room (s : list object) k : room = guard c - zlength s -> (zlength s + k <=? guard c) = (k <=? room).
Proof. intros E. destruct (Z.leb_spec (zlength s + k) (guard c)), (Z.leb_spec k room); lia. Qed.

(** Both sides check the room; they agree on what is left of it. *)
Ltac check_room E :=
  change (CONTINUATION_SIZE + 1) with 3; change CONTINUATION_SIZE with 2;
  cbv [Will_Push STACK_CHECK CAN_PUSH_P REQUEST_INTERRUPT with_interrupts push]; microcode; rewrite (room_check _ _ _ E);
  match goal with |- context [?k <=? ?room] => destruct (Z.leb_spec k room) end; microcode.

(** A subproblem, and what its continuation does with the value. *)
Lemma subproblem_after room env e i rc h s v r k : room = guard c - zlength s ->
  (forall v' h' e' env' ret, sim n c s pop_return (at_state c h' (MAKE_RETURN_CODE rc :: e :: env :: s) e' env' v' ret) (k v' h')) ->
  after s (eval_subproblem rc i (at_state c h s e env v r)) (ethen (subproblem rec room 3 env e i) k h).
Proof.
  intros E K. unfold eval_subproblem, subproblem. check_room E.
  - destruct (MEMORY_REF e i h) as [[part h']| | |]; [|exact eq_refl..]. apply sim_bind with [MAKE_RETURN_CODE rc; e; env].
    + apply (evaluate_sim (room - 3) env part h' (MAKE_RETURN_CODE rc :: e :: env :: s)). cbn [length]. lia.
    + intros v' h'' e' env' ret _. apply K.
  - destruct (MEMORY_REF e i h) as [[part h']| | |]; [|exact eq_refl..]. overflowed.
Qed.

(** The routine of a return code. *)
Ltac resumed :=
  apply return_to; [split; vm_compute; congruence|];
  match goal with |- sim_after _ _ _ (dispatch_return ?rc ?m) _ =>
    let d := eval lazy beta iota delta [dispatch_return mthen GET bind Z.eqb Pos.eqb orb RC_COMB_APPLY_FUNCTION RC_COMB_SAVE_VALUE RC_CONDITIONAL_DECIDE
      RC_DISJUNCTION_DECIDE RC_END_OF_COMPUTATION RC_EVAL_ERROR RC_EXECUTE_ACCESS_FINISH RC_EXECUTE_ASSIGNMENT_FINISH RC_EXECUTE_DEFINITION_FINISH
      RC_HALT RC_HARDWARE_TRAP RC_INTERNAL_APPLY_VAL RC_INTERNAL_APPLY RC_JOIN_STACKLETS RC_NORMAL_GC_DONE RC_POP_RETURN_ERROR RC_RESTORE_VALUE
      RC_RESTORE_DONT_COPY_HISTORY RC_RESTORE_HISTORY RC_RESTORE_INT_MASK RC_STACK_MARKER RC_EXECUTE_SEQUENCE_FINISH RC_SNAP_NEED_THUNK]
      in (dispatch_return rc m) in
    change (dispatch_return rc m) with d
  end.

Lemma conditional_after room env e h s v r : room = guard c - zlength s ->
  after s (eval_subproblem RC_CONDITIONAL_DECIDE COND_PREDICATE (at_state c h s e env v r)) (conditional rec room e env h).
Proof. intros E. apply subproblem_after; [exact E|]. intros v' h' e' env' ret. resumed. now apply reduction_after. Qed.

Lemma disjunction_after room env e h s v r : room = guard c - zlength s ->
  after s (eval_subproblem RC_DISJUNCTION_DECIDE OR_PREDICATE (at_state c h s e env v r)) (disjunction rec room e env h).
Proof.
  intros E. apply subproblem_after; [exact E|]. intros v' h' e' env' ret. resumed. microcode.
  destruct (object_eqb v' SHARP_F); [now apply reduction_after|apply sim_delivered].
Qed.

Lemma sequence_after room env e h s v r : room = guard c - zlength s ->
  after s (eval_subproblem RC_EXECUTE_SEQUENCE_FINISH SEQUENCE_1 (at_state c h s e env v r)) (sequence rec room e env h).
Proof. intros E. apply subproblem_after; [exact E|]. intros v' h' e' env' ret. resumed. now apply reduction_after. Qed.

(** The words pushed since the start are given. *)
Lemma above_state pushed k h s e env v r :
  above c h s (Machine h (pushed ++ s) (guard c) e env v r k (mask c) (history c) (history_offset c) (fixed c)).
Proof. now exists k, pushed, e, env, v, r. Qed.

Ltac stopped_above p := apply sim_stopped; split; [reflexivity|exact (above_state p _ _ _ _ _ _ _)].

(** An operation on the heap that both sides do next. *)
Tactic Notation "same_operation" "as" simple_intropattern(p) :=
  match goal with |- context [match ?op ?h with Return _ => _ | Exception => _ | Wild => _ | OutOfFuel => _ end] =>
    destruct (op h) as [[p ?]| | |]; [|exact eq_refl..] end.

Lemma access_after room env e h s v r : room = guard c - zlength s ->
  after s ((Will_Push CONTINUATION_SIZE ;; PUSH_NTH_THEN RC_EXECUTE_ACCESS_FINISH ACCESS_ENVIRONMENT)%machine (at_state c h s e env v r)) (access rec room e env h).
Proof.
  intros E. unfold access, subproblem. check_room E; same_operation as part; [|overflowed].
  apply sim_bind with [MAKE_RETURN_CODE RC_EXECUTE_ACCESS_FINISH; e].
  - apply (evaluate_sim (room - 2) env _ _ (MAKE_RETURN_CODE RC_EXECUTE_ACCESS_FINISH :: e :: s)). cbn [length]. lia.
  - intros v' h' e' env' ret _. resumed. cbv [return_access lookup_result PREPARE_POP_RETURN_INTERRUPT POP_RETURN_ERROR]. microcode.
    same_operation as name. same_operation as [co res]. cbn [fst snd]. destruct (co =? PRIM_DONE).
    + destruct res as [x|]; [apply sim_delivered|exact eq_refl].
    + destruct (co =? PRIM_INTERRUPT).
      * stopped_above [MAKE_RETURN_CODE RC_RESTORE_VALUE; v'; MAKE_RETURN_CODE RC_EXECUTE_ACCESS_FINISH; e].
      * stopped_above [MAKE_RETURN_CODE RC_EXECUTE_ACCESS_FINISH; e].
Qed.

Lemma assignment_after room env e h s v r : room = guard c - zlength s ->
  after s (eval_subproblem RC_EXECUTE_ASSIGNMENT_FINISH ASSIGN_VALUE (at_state c h s e env v r)) (assignment rec room e env h).
Proof.
  intros E. apply subproblem_after; [exact E|]. intros v' h' e' env' ret. resumed.
  cbv [return_assignment lookup_result PREPARE_POP_RETURN_INTERRUPT POP_RETURN_ERROR]. microcode.
  same_operation as variable. change (ERR_BAD_FRAME =? PRIM_DONE) with false. change (ERR_BAD_FRAME =? PRIM_INTERRUPT) with false.
  destruct (OBJECT_TYPE variable =? TC_VARIABLE); microcode; [|stopped_above [MAKE_RETURN_CODE RC_EXECUTE_ASSIGNMENT_FINISH; e; env]].
  same_operation as name. same_operation as [co res]. cbn [fst snd]. destruct (co =? PRIM_DONE).
  - destruct res as [x|]; [apply sim_delivered|exact eq_refl].
  - destruct (co =? PRIM_INTERRUPT).
    + stopped_above [MAKE_RETURN_CODE RC_RESTORE_VALUE; v'; MAKE_RETURN_CODE RC_EXECUTE_ASSIGNMENT_FINISH; e; env].
    + stopped_above [MAKE_RETURN_CODE RC_EXECUTE_ASSIGNMENT_FINISH; e; env].
Qed.

Lemma definition_after room env e h s v r : room = guard c - zlength s ->
  after s (eval_subproblem RC_EXECUTE_DEFINITION_FINISH DEFINE_VALUE (at_state c h s e env v r)) (definition rec room e env h).
Proof.
  intros E. apply subproblem_after; [exact E|]. intros v' h' e' env' ret. resumed.
  cbv [return_definition lookup_result PREPARE_POP_RETURN_INTERRUPT POP_RETURN_ERROR]. microcode.
  same_operation as name. same_operation as co. cbn [fst snd]. destruct (co =? PRIM_DONE); [apply sim_delivered|].
  destruct (co =? PRIM_INTERRUPT).
  - stopped_above [MAKE_RETURN_CODE RC_RESTORE_VALUE; v'; MAKE_RETURN_CODE RC_EXECUTE_DEFINITION_FINISH; e; env].
  - stopped_above [MAKE_RETURN_CODE RC_EXECUTE_DEFINITION_FINISH; e; env].
Qed.

Lemma variable_after env e h s v r : after s (eval_variable (at_state c h s e env v r)) (variable e env h).
Proof.
  cbv [eval_variable variable lookup_result PREPARE_EVAL_REPEAT Will_Push STACK_CHECK]. microcode.
  same_operation as name. same_operation as [co res]. same_operation as safe. cbn [fst snd].
  destruct (safe && (co =? ERR_UNASSIGNED_VARIABLE)); [apply sim_delivered|]. destruct (co =? PRIM_DONE); cbn [negb].
  - destruct res as [x|]; [apply sim_delivered|exact eq_refl].
  - destruct (co =? PRIM_INTERRUPT); [|stopped_above (@nil object)].
    cbv [CAN_PUSH_P REQUEST_INTERRUPT with_interrupts]. microcode.
    match goal with |- context [if ?b then _ else _] => destruct b end; microcode; stopped_above [MAKE_RETURN_CODE RC_EVAL_ERROR; e; env].
Qed.

Lemma closure_after type first second h s e env v r :
  after s (eval_closure type first second (at_state c h s e env v r)) (closure type first second h).
Proof. apply sim_delivered. Qed.

(** ** Combinations *)

Lemma ethen_assoc {A B C} (m : evaluation A) (f : A -> evaluation B) (g : B -> evaluation C) h :
  ethen (ethen m f) g h = ethen m (fun a => ethen (f a) g) h.
Proof. unfold ethen. destruct (m h) as [[[a|x] h']| | |]; reflexivity. Qed.

(** The operator has been evaluated: its value goes in the place of the finger. *)
Lemma comb_apply_sim room e header finger args s h f e0 env ret :
  room = guard c - zlength s -> OBJECT_DATUM header = Return (frame_words args) -> zlength args + 2 <= room ->
  sim n c s pop_return (at_state c h (MAKE_RETURN_CODE RC_COMB_APPLY_FUNCTION :: e :: header :: finger :: args ++ s) e0 env f ret) (rec room (call f args) h).
Proof.
  intros E D L. resumed. apply sim_step_weak. cbv [step SET_APPLY_FRAME_PROCEDURE SET_STACK_REF]. microcode. cbn [length Nat.ltb Nat.leb update].
  apply rec_sim; [exact E|exact L|]. split; [reflexivity|]. now exists header, e, env, f, (MAKE_RETURN_CODE RC_COMB_APPLY_FUNCTION).
Qed.

Lemma update_middle {A} (l r : list A) x y : update (length l) y (l ++ x :: r) = l ++ y :: r.
Proof. induction l as [|z l IH]; [reflexivity|]. cbn [app length update]. now rewrite IH. Qed.

(** The value goes into the slot of its operand. *)
Lemma save_value_stored h e env env0 v ret finger slots slot rest :
  OBJECT_DATUM finger = Return (zlength slots + 1) ->
  return_save_value (at_state c h (env :: finger :: slots ++ slot :: rest) e env0 v ret) =
  (if zlength slots >? 0
   then (PUSH_ENV ;; DO_ANOTHER_THEN RC_COMB_SAVE_VALUE (COMB_ARG_1_SLOT - 1 + Z.to_nat (zlength slots)))%machine
   else (frame_size <- EXP_REF 0 ;; STACK_PUSH frame_size ;; DO_ANOTHER_THEN RC_COMB_APPLY_FUNCTION COMB_FN_SLOT)%machine)
  (at_state c h (MAKE_OBJECT TC_MANIFEST_NM_VECTOR (zlength slots) :: slots ++ v :: rest) e env v ret).
Proof.
  intros F. cbv [return_save_value SET_STACK_REF STACK_REF]. change STACK_COMB_FINGER with 0%nat. microcode. cbn [nth_error]. rewrite F.
  replace (zlength slots + 1 - 1) with (zlength slots) by lia. destruct (Z.ltb_spec (zlength slots) 0) as [L|_]; [lia|].
  change (STACK_COMB_FIRST_ARG + Z.to_nat (zlength slots))%nat with (S (Z.to_nat (zlength slots))). rewrite !Nat2Z.id.
  cbn [length update]. rewrite update_middle.
  match goal with |- context [Nat.ltb ?a ?b] => replace (Nat.ltb a b) with true by (symmetry; apply Nat.ltb_lt; rewrite length_app; cbn [length]; lia) end.
  microcode. cbn [length Nat.ltb Nat.leb update]. destruct (zlength slots >? 0); reflexivity.
Qed.

(** The frame that a combination builds, and what is evaluated after its operands. *)
Definition last_operator (room inside k : Z) (env e : object) (args : list object) : evaluation object :=
  (header <- lift (MEMORY_REF e 0) ;;
   operator <- lift (MEMORY_REF e COMB_FN_SLOT) ;;
   if match OBJECT_DATUM header with Return d => d =? k | _ => false end
   then f <- rec inside (evaluate env operator) ;; rec room (call f args)
   else exits unstructured)%evaluation.

Lemma save_value_last room inside env e slot args s h v e0 env0 ret finger k :
  room = guard c - zlength s -> inside = room - (zlength args + 5) -> k = zlength args + 2 -> zlength args + 5 <= room -> OBJECT_DATUM finger = Return 1 ->
  sim n c s pop_return
    (at_state c h (MAKE_RETURN_CODE RC_COMB_SAVE_VALUE :: e :: env :: finger :: slot :: args ++ s) e0 env0 v ret)
    (last_operator room inside k env e (v :: args) h).
Proof.
  intros E I K L F. unfold last_operator. resumed. rewrite (save_value_stored h e env env0 v _ finger [] slot (args ++ s) F : return_save_value (at_state c h (env :: finger :: slot :: args ++ s) e env0 v _) = _).
  cbn [length Z.of_nat Z.gtb Z.compare app]. microcode. same_operation as header. same_operation as operator.
  destruct (OBJECT_DATUM header) as [d| | |] eqn:D; [|apply sim_stopped; exact Logic.I..]. destruct (Z.eqb_spec d k) as [->|]; [|apply sim_stopped; exact Logic.I].
  apply sim_bind with (MAKE_RETURN_CODE RC_COMB_APPLY_FUNCTION :: e :: header :: MAKE_OBJECT TC_MANIFEST_NM_VECTOR 0 :: v :: args).
  - apply (evaluate_sim inside env operator). cbn [length app]. rewrite length_app. lia.
  - intros f h' e' env' ret' _. apply (comb_apply_sim room e header _ (v :: args)); [exact E| |cbn [length]; lia].
    rewrite D. f_equal. unfold frame_words. cbn [length]. lia.
Qed.

Lemma operands_next {A} k inside env e args (m : list object -> evaluation A) h :
  ethen (operands rec (S k) inside env e args) m h =
  ethen (lift (MEMORY_REF e (k + 2)))
    (fun part => ethen (rec inside (evaluate env part)) (fun v => ethen (operands rec k inside env e (v :: args)) m)) h.
Proof.
  cbn [operands]. rewrite ethen_assoc. unfold ethen at 1 4. destruct (lift (MEMORY_REF e (k + 2)) h) as [[[part|x] h']| | |]; try reflexivity.
  apply ethen_assoc.
Qed.

(** The operands that are left, from the value of the one after them. *)
Lemma operands_sim room inside k e env s : room = guard c - zlength s ->
  forall slots slot args h v e0 env0 ret finger,
  inside = room - (zlength slots + zlength args + 5) -> k = zlength slots + zlength args + 2 -> zlength slots + zlength args + 5 <= room ->
  OBJECT_DATUM finger = Return (zlength slots + 1) ->
  sim n c s pop_return
    (at_state c h (MAKE_RETURN_CODE RC_COMB_SAVE_VALUE :: e :: env :: finger :: (slots ++ slot :: args) ++ s) e0 env0 v ret)
    (ethen (operands rec (length slots) inside env e (v :: args)) (last_operator room inside k env e) h).
Proof.
  intros E slots. induction slots as [|x slots IH] using rev_ind; intros slot args h v e0 env0 ret finger I K L F.
  - apply (save_value_last room inside env e slot args); [exact E|..|exact F]; cbn [length] in *; lia.
  - assert (N : length (slots ++ [x]) = S (length slots)) by (rewrite length_app; cbn [length]; lia).
    rewrite <- (app_assoc (slots ++ [x])). cbn [app]. resumed. rewrite (save_value_stored h e env env0 v _ finger (slots ++ [x]) slot (args ++ s) F).
    rewrite N in *. rewrite operands_next.
    destruct (Z.gtb_spec (Z.of_nat (S (length slots))) 0); [|lia].
    replace (COMB_ARG_1_SLOT - 1 + Z.to_nat (Z.of_nat (S (length slots))))%nat with (length slots + 2)%nat by (unfold COMB_ARG_1_SLOT; lia).
    microcode. same_operation as part.
    assert (A : (slots ++ [x]) ++ v :: args ++ s = (slots ++ x :: v :: args) ++ s) by (rewrite <- !app_assoc; reflexivity). rewrite A.
    set (next := MAKE_OBJECT TC_MANIFEST_NM_VECTOR (Z.of_nat (S (length slots)))).
    apply (sim_bind n c s (MAKE_RETURN_CODE RC_COMB_SAVE_VALUE :: e :: env :: next :: slots ++ x :: v :: args) _ _ _
             (fun v' => ethen (operands rec (length slots) inside env e (v' :: v :: args)) (last_operator room inside k env e))).
    + apply (evaluate_sim inside env part). cbn [app length]. rewrite !length_app. cbn [length]. lia.
    + intros v' h' e' env' ret' _. apply IH; cbn [length]; try lia. unfold next. rewrite datum_of; [f_equal; lia|unfold TC_MANIFEST_NM_VECTOR; lia|lia].
Qed.

Lemma repeat_last {A} (x : A) k : repeat x (S k) = repeat x k ++ [x].
Proof. exact (repeat_cons k x). Qed.

Lemma combination_after room env e h s v r : room = guard c - zlength s ->
  after s (eval_combination (at_state c h s e env v r)) (combination rec room env e h).
Proof.
  intros E. cbv [eval_combination combination]. microcode. same_operation as k.
  cbv [Will_Push STACK_CHECK CAN_PUSH_P REQUEST_INTERRUPT with_interrupts push STACK_ALLOCATE]. microcode.
  change CONTINUATION_SIZE with 2. replace (k - 1 + 2 + 2) with (k - 1 + 4) by lia. rewrite (room_check room s (k - 1 + 4) E).
  destruct (Z.ltb_spec k 1).
  { destruct (Z.ltb_spec (k - 1) 0); [|lia]. destruct (k - 1 + 4 <=? room); exact eq_refl. }
  destruct (Z.ltb_spec (k - 1) 0); [lia|]. destruct (Z.eqb_spec (k - 1) 0) as [Z0|Z0].
  - change (Z.to_nat 1) with COMB_FN_SLOT. rewrite Z0. change (Z.to_nat 0) with 0%nat. change (0 + 4) with 4. cbn [repeat app].
    cbv [PUSH_APPLY_FRAME_HEADER]. destruct (Z.leb_spec 4 room); microcode; same_operation as operator; [|overflowed].
    apply sim_bind with [MAKE_RETURN_CODE RC_COMB_APPLY_FUNCTION; e; MAKE_OBJECT 0 1; MAKE_OBJECT TC_MANIFEST_NM_VECTOR 0].
    + apply (evaluate_sim _ env operator). cbn [app length]. lia.
    + intros f h' e' env' ret _. apply (comb_apply_sim room e (MAKE_OBJECT 0 1) _ []); [exact E|reflexivity|cbn [length]; lia].
  - destruct (Z.leb_spec (k - 1 + 4) room); microcode.
    2: { replace (k - 1 + 1) with k by lia. same_operation as operand. overflowed. }
    replace (k - 1 + 1) with k by lia. same_operation as operand.
    remember (Z.to_nat (k - 1 - 1)) as n0 eqn:N0. replace (Z.to_nat (k - 1)) with (S n0) by lia. rewrite repeat_last.
    apply (sim_bind n c s (MAKE_RETURN_CODE RC_COMB_SAVE_VALUE :: e :: env :: MAKE_OBJECT TC_MANIFEST_NM_VECTOR (k - 1) :: repeat SHARP_F n0 ++ [SHARP_F])
             _ _ _ (fun v' => ethen (operands rec n0 (room - (k - 1 + 4)) env e [v']) (last_operator room (room - (k - 1 + 4)) k env e))).
    + apply (evaluate_sim (room - (k - 1 + 4)) env operand). cbn [app length]. rewrite !length_app, repeat_length. cbn [length]. lia.
    + intros v' h' e' env' ret _. rewrite <- (repeat_length SHARP_F n0) at 2.
      apply operands_sim; rewrite ?repeat_length; cbn [length]; try lia. 
      replace (Z.of_nat n0 + 1) with (k - 1) by lia. apply datum_of; [unfold TC_MANIFEST_NM_VECTOR; lia|]. lia.
Qed.

Lemma expression_after room env e h s v r : room = guard c - zlength s ->
  after s (eval_non_trapping (at_state c h s e env v r)) (expression rec room env e h).
Proof.
  intros E. unfold expression, eval_non_trapping. lazy beta iota zeta delta [mthen GET bind EXP ENV at_state].
  destruct (OBJECT_TYPE e =? TC_ACCESS); [now apply access_after|].
  destruct (OBJECT_TYPE e =? TC_ASSIGNMENT); [now apply assignment_after|].
  destruct (OBJECT_TYPE e =? TC_BROKEN_HEART); [stopped_above (@nil object)|].
  destruct (OBJECT_TYPE e =? TC_COMBINATION); [now apply combination_after|].
  destruct (OBJECT_TYPE e =? TC_COMMENT); [now apply reduction_after|].
  destruct (OBJECT_TYPE e =? TC_CONDITIONAL); [now apply conditional_after|].
  destruct (OBJECT_TYPE e =? TC_DEFINITION); [now apply definition_after|].
  destruct (OBJECT_TYPE e =? TC_DELAY); [microcode; same_operation as part; apply closure_after|].
  destruct (OBJECT_TYPE e =? TC_DISJUNCTION); [now apply disjunction_after|].
  destruct (OBJECT_TYPE e =? TC_EXTENDED_LAMBDA); [apply closure_after|].
  destruct ((OBJECT_TYPE e =? TC_LAMBDA) || (OBJECT_TYPE e =? TC_LEXPR)); [apply closure_after|].
  destruct (OBJECT_TYPE e =? TC_MANIFEST_NM_VECTOR); [stopped_above (@nil object)|].
  destruct (OBJECT_TYPE e =? TC_SCODE_QUOTE); [microcode; same_operation as part; apply sim_delivered|].
  destruct (OBJECT_TYPE e =? TC_SEQUENCE); [now apply sequence_after|].
  destruct (OBJECT_TYPE e =? TC_SYNTAX_ERROR); [stopped_above (@nil object)|].
  destruct (OBJECT_TYPE e =? TC_THE_ENVIRONMENT); [apply sim_delivered|].
  destruct (OBJECT_TYPE e =? TC_VARIABLE); [apply variable_after|].
  apply sim_delivered.
Qed.

(** ** Application *)

Lemma STACK_POPS_app words h s e env v r :
  STACK_POPS (length words) (at_state c h (words ++ s) e env v r) = Return (words, at_state c h s e env v r).
Proof. induction words as [|w words IH]; [reflexivity|]. cbn [app length STACK_POPS]. microcode. fold (at_state c h (words ++ s) e env v r). now rewrite IH. Qed.

Lemma STACK_REFS_app words h front s e env v r :
  STACK_REFS (length front) (length words) (at_state c h (front ++ words ++ s) e env v r) = Return (words, at_state c h (front ++ words ++ s) e env v r).
Proof.
  revert front. induction words as [|w words IH]; intros front; [reflexivity|]. cbn [length STACK_REFS]. unfold mthen, STACK_REF.
  cbn [at_state stack]. rewrite nth_error_app2, Nat.sub_diag by lia. cbn [nth_error app bind].
  specialize (IH (front ++ [w])). rewrite length_app, <- !app_assoc, Nat.add_comm in IH. cbn [length app Nat.add] in IH. unfold at_state in *. now rewrite IH.
Qed.

Lemma STACK_DROP_app words h s e env v r : STACK_DROP (length words) (at_state c h (words ++ s) e env v r) = Return (tt, at_state c h s e env v r).
Proof.
  unfold STACK_DROP. cbn [at_state stack]. rewrite skipn_app, skipn_all, Nat.sub_diag, length_app. cbn [app skipn].
  destruct (Nat.leb_spec (length words) (length words + length s)); [reflexivity|lia].
Qed.

Section Frame.

(** The frame of the call on the stack. *)
Context (room : Z) (s : list object) (f : object) (args : list object) (header : object).
Hypothesis room_eq : room = guard c - zlength s.
Hypothesis frame_fits : zlength args + 2 <= room.
Hypothesis header_datum : OBJECT_DATUM header = Return (frame_words args).

Notation frame := (header :: f :: args ++ s).

Ltac frame_words :=
  cbv [APPLY_FRAME_SIZE APPLY_FRAME_N_ARGS APPLY_FRAME_PROCEDURE POP_APPLY_FRAME_HEADER APPLY_FRAME_HEADER_N_ARGS STACK_REF SET_STACK_REF]; microcode;
  do 2 (cbn [nth_error length Nat.ltb Nat.leb update]; microcode; rewrite ?header_datum; microcode).

Lemma application_error_after x hd h e env v r :
  after s (APPLICATION_ERROR x (at_state c h (hd :: f :: args ++ s) e env v r)) (Return (inr (error x true), h)).
Proof. cbv [APPLICATION_ERROR]. frame_words. stopped_above ([MAKE_RETURN_CODE RC_INTERNAL_APPLY_VAL; SHARP_F; hd; f] ++ args). Qed.

Lemma hook_after operator h e env v r :
  after s (entity_apply operator (at_state c h frame e env v r)) (apply_hook rec room operator f args h).
Proof.
  cbv [entity_apply apply_hook PUSH_APPLY_FRAME_HEADER STACK_CHECK CAN_PUSH_P push REQUEST_INTERRUPT with_interrupts]. frame_words.
  replace (Z.of_nat (S (S (S (length (args ++ s))))) + 0 <=? guard c) with (zlength args + 3 <=? room)
    by (rewrite length_app; destruct (Z.leb_spec (zlength args + 3) room); symmetry; [apply Z.leb_le|apply Z.leb_gt]; lia).
  destruct (Z.leb_spec (zlength args + 3) room); microcode; [|overflowed].
  apply rec_sim; [exact room_eq|cbn [fits length]; lia|]. split; [reflexivity|]. eexists _, _, _, _, _. split; [reflexivity|].
  rewrite datum_of; unfold frame_words in *; cbn [length]; [f_equal; lia|lia|lia].
Qed.

Lemma entity_after h e env v r : after s (apply_entity f (at_state c h frame e env v r)) (entity c rec room f args h).
Proof.
  cbv [apply_entity entity SET_APPLY_FRAME_PROCEDURE]. frame_words. same_operation as dispatched. destruct dispatched as [o|].
  - frame_words. apply rec_sim; [exact room_eq|exact frame_fits|]. split; [reflexivity|]. now eexists _, _, _, _, _.
  - same_operation as operator. apply hook_after.
Qed.

Lemma record_after h e env v r : after s (apply_record f (at_state c h frame e env v r)) (record c rec room f args h).
Proof.
  cbv [apply_record record]. frame_words. same_operation as applicator. destruct (object_eqb applicator SHARP_F).
  - apply application_error_after.
  - apply hook_after.
Qed.

Lemma apply_interrupt hd h k e env v r :
  after s
    (match PREPARE_APPLY_INTERRUPT (Machine h (hd :: f :: args ++ s) (guard c) e env v r (code c) (mask c) (history c) (history_offset c) (fixed c)) with
     | Return (_, m) => IMMEDIATE_GC k m
     | Exception => Exception
     | Wild => Wild
     | OutOfFuel => OutOfFuel
     end) (Return (inr interrupt, Heap.REQUEST_GC k h)).
Proof.
  cbv [PREPARE_APPLY_INTERRUPT PREPARE_POP_RETURN_INTERRUPT IMMEDIATE_GC REQUEST_GC]. frame_words.
  stopped_above ([MAKE_RETURN_CODE RC_RESTORE_VALUE; f; MAKE_RETURN_CODE RC_INTERNAL_APPLY_VAL; SHARP_F; hd; f] ++ args).
Qed.

Lemma compound_after h e env v r : after s (apply_procedure f (at_state c h frame e env v r)) (compound rec room f args h).
Proof.
  cbv [apply_procedure compound]. frame_words. same_operation as lambda. same_operation as formals. same_operation as k.
  destruct (negb (frame_words args =? k) && (negb (OBJECT_TYPE lambda =? TC_LEXPR) || (frame_words args <? k))); [apply application_error_after|].
  microcode. cbv [unless_gc_needed]. destruct (GC_NEEDED_P (frame_words args + 1) _); [apply apply_interrupt|].
  replace (Z.to_nat (frame_words args)) with (length (f :: args)) by (unfold frame_words; cbn [length]; lia).
  microcode. match goal with |- context [STACK_POPS ?k ?m] => replace (STACK_POPS k m) with (Return (f :: args, at_state c h2 s e env v r)) by (symmetry; apply (STACK_POPS_app (f :: args))) end.
  microcode. same_operation as frame_env. same_operation as body. now apply evaluate_sim.
Qed.

Lemma continuation_arity_after h e env v r : zlength args <> 1 ->
  after s (apply_control_point f (at_state c h frame e env v r)) (Return (inr (error ERR_WRONG_NUMBER_OF_ARGUMENTS true), h)).
Proof.
  intros N. cbv [apply_control_point]. frame_words. destruct (Z.eqb_spec (frame_words args) 2); [unfold frame_words in *; lia|].
  apply application_error_after.
Qed.

Lemma primitive_after h e env v r :
  after s (apply_primitive_object table f (at_state c h frame e env v r)) (primitive_procedure table f args h).
Proof.
  cbv [apply_primitive_object primitive_procedure pure]. frame_words. destruct (OBJECT_DATUM f) as [number| | |]; [|exact eq_refl..].
  destruct (table number) as [p|]; [|apply application_error_after]. frame_words. replace (frame_words args - 1) with (zlength args) by (unfold frame_words; lia).
  destruct (match primitive_arity p with Some k => zlength args =? Z.of_nat k | None => true end); [|apply application_error_after].
  rewrite Nat2Z.id. microcode. cbv [STACK_DROP]. cbn [stack length Nat.leb skipn]. microcode.
  match goal with |- context [STACK_REFS 0 ?k ?m] =>
    replace (STACK_REFS 0 k m) with (Return (args, at_state c h (args ++ s) f env v r)) by (symmetry; apply (STACK_REFS_app args h [])) end.
  microcode. same_operation as result. destruct result as [value|x]; cbv [after_primitive].
  - microcode. rewrite Nat2Z.id. match goal with |- context [STACK_DROP ?k ?m] =>
      replace (STACK_DROP k m) with (Return (tt, at_state c h0 s f env value r)) by (symmetry; apply (STACK_DROP_app args)) end.
    apply sim_delivered.
  - cbv [back_out_of_primitive PUSH_APPLY_FRAME_HEADER]. microcode.
    destruct (error_code_of x); stopped_above ([MAKE_RETURN_CODE RC_INTERNAL_APPLY; SHARP_F; MAKE_OBJECT 0 (zlength args + 1); f] ++ args).
Qed.

Lemma extended_environment_frame h e env v r params rest_flag auxes : 0 <= params ->
  extended_environment (zlength args) params rest_flag auxes (at_state c h (f :: args ++ s) e env v r) =
  bind (extended_frame f args params rest_flag auxes h) (fun '(o, h') => Return (o, at_state c h' s e env v r)).
Proof.
  intros P. unfold extended_environment, extended_frame. destruct (Z.leb_spec (zlength args) params) as [L|L].
  - replace (Z.to_nat (zlength args + 1)) with (length (f :: args)) by (cbn [length]; lia).
    unfold mthen at 1. rewrite (STACK_POPS_app (f :: args) h s). reflexivity.
  - set (front := firstn (Z.to_nat params) args). set (back := skipn (Z.to_nat params) args).
    assert (A : args = front ++ back) by (symmetry; apply firstn_skipn). assert (F : length front = Z.to_nat params) by (apply firstn_length_le; lia).
    replace (Z.to_nat (params + 1)) with (length (f :: front)) by (cbn [length]; lia).
    replace (Z.to_nat (zlength args - params)) with (length back) by (unfold back; rewrite length_skipn; lia).
    rewrite A at 1. rewrite <- app_assoc. change (f :: front ++ back ++ s) with ((f :: front) ++ back ++ s).
    cbv [next_object mthen in_heap andthen ret]. cbn [bind].
    change (with_memory (memory ?m) ?m) with m.
    match goal with |- context [STACK_POPS (length (f :: front)) ?m] =>
      replace (STACK_POPS (length (f :: front)) m) with (Return (f :: front, at_state c h (back ++ s) e env v r)) by (symmetry; apply (STACK_POPS_app (f :: front))) end.
    cbn [bind allocate].
    match goal with |- context [STACK_POPS (length back) ?m] =>
      replace (STACK_POPS (length back) m) with (Return (back, at_state c (memory m) s e env v r)) by (symmetry; apply (STACK_POPS_app back)) end.
    cbn [bind memory with_memory at_state app].
    match goal with |- context [rest_list back ?h] => destruct (rest_list back h) as [[[] h']| | |] end; reflexivity.
Qed.

Lemma extended_after h e env v r : after s (apply_extended_procedure f (at_state c h frame e env v r)) (extended rec room f args h).
Proof.
  cbv [apply_extended_procedure extended pure]. frame_words. replace (frame_words args - 1) with (zlength args) by (unfold frame_words; lia).
  same_operation as lambda. same_operation as names. same_operation as k. same_operation as count. destruct count as [w|]; [|exact eq_refl]. microcode.
  assert (P : 0 <= Elambda_Opts_Count w + Elambda_Formals_Count w).
  { unfold Elambda_Opts_Count, Elambda_Formals_Count, EL_OPTS_MASK, EL_FORMALS_MASK, EL_FORMALS_SHIFT.
    enough (0 <= Z.land w 255 /\ 0 <= Z.shiftr (Z.land w 65280) 8) by lia.
    split; [apply Z.land_nonneg; lia|apply Z.shiftr_nonneg, Z.land_nonneg; lia]. }
  match goal with |- context [if ?b then _ else _] => destruct b end.
  - cbv [PUSH_APPLY_FRAME_HEADER]. microcode. apply application_error_after.
  - microcode. cbv [unless_gc_needed]. match goal with |- context [GC_NEEDED_P ?k _] => set (space := k) end. destruct (GC_NEEDED_P space h3).
    + cbv [PUSH_APPLY_FRAME_HEADER]. microcode. apply apply_interrupt.
    + microcode. rewrite (extended_environment_frame h3 e env v r); [|exact P].
      destruct (extended_frame _ _ _ _ _ h3) as [[frame_env h4]| | |]; [|exact eq_refl..]. microcode.
      same_operation as body. now apply evaluate_sim.
Qed.

Lemma perform_sim h e env v r : sim (S n) c s perform_application (at_state c h frame e env v r) (performance table c rec room f args h).
Proof.
  destruct (Z.eqb_spec (OBJECT_TYPE f) TC_CONTROL_POINT) as [T|T].
  { unfold performance. rewrite T. cbv [TC_CONTROL_POINT TC_ENTITY TC_RECORD TC_PROCEDURE Z.eqb Pos.eqb].
    assert (W : zlength args <> 1 -> continuation f args h = Return (inr (error ERR_WRONG_NUMBER_OF_ARGUMENTS true), h))
      by (destruct args as [|x [|y more]]; [reflexivity|cbn; lia|reflexivity]).
    destruct (Z.eq_dec (zlength args) 1) as [L|L].
    - assert (A : exists x, args = [x]) by (destruct args as [|x [|y more]]; [discriminate L|now exists x|cbn [length] in L; lia]).
      destruct A as [x A]. rewrite A. apply sim_stopped. split; [reflexivity|]. exists header, [], e, env, v, r. split; [reflexivity|].
      rewrite header_datum. unfold frame_words. now rewrite L.
    - rewrite W by exact L. apply sim_step. cbv [step apply_dispatch]. frame_words. rewrite T. now apply continuation_arity_after. }
  apply sim_step. unfold performance. cbv [step apply_dispatch]. frame_words.
  destruct (OBJECT_TYPE f =? TC_ENTITY); [apply entity_after|].
  destruct (OBJECT_TYPE f =? TC_RECORD); [apply record_after|].
  destruct (OBJECT_TYPE f =? TC_PROCEDURE); [apply compound_after|].
  destruct (Z.eqb_spec (OBJECT_TYPE f) TC_CONTROL_POINT); [contradiction|].
  destruct (OBJECT_TYPE f =? TC_PRIMITIVE); [apply primitive_after|].
  destruct (OBJECT_TYPE f =? TC_EXTENDED_PROCEDURE); [apply extended_after|].
  apply application_error_after.
Qed.

Lemma call_sim h e env v r : sim (S n) c s internal_apply (at_state c h frame e env v r) (application c rec room f args h).
Proof.
  apply sim_step. unfold application. cbv [step Apply_Non_Trapping mthen GET bind].
  change (PENDING_INTERRUPTS_P (at_state c h frame e env v r)) with (pending c h). destruct (pending c h).
  - cbv [PREPARE_APPLY_INTERRUPT PREPARE_POP_RETURN_INTERRUPT]. frame_words.
    stopped_above ([MAKE_RETURN_CODE RC_RESTORE_VALUE; f; MAKE_RETURN_CODE RC_INTERNAL_APPLY_VAL; SHARP_F; header; f] ++ args).
  - apply rec_sim; [exact room_eq|exact frame_fits|]. split; [reflexivity|]. now exists header, e, env, v, r.
Qed.

End Frame.

(** A task whose parts are simulated is. *)
Lemma body_sim room t h s l m : room = guard c - zlength s -> fits t room -> starts t c h s l m -> sim (S n) c s l m (body table c rec room t h).
Proof.
  intros E F B. destruct t as [env e|f args|f args]; cbn [starts fits body] in *.
  - destruct B as (-> & v & r & ->). apply sim_step. now apply expression_after.
  - destruct B as (-> & header & e & env & v & r & -> & D). now apply call_sim.
  - destruct B as (-> & header & e & env & v & r & -> & D). now apply perform_sim.
Qed.

End WithPrimitives.

Theorem run_simulates table c fuel : guard c < 2 ^ 57 -> forall room t h s l m,
  room = guard c - zlength s -> fits t room -> starts t c h s l m -> sim table fuel c s l m (run table c fuel room t h).
Proof.
  intros G. induction fuel as [|fuel IH]; intros room t h s l m E F B.
  - exists 0%nat. cbn [run agrees steps mret]. split; [|intros _ x _; lia]. unfold running.
    destruct t; cbn [starts] in B; tauto.
  - cbn [run]. now apply body_sim.
Qed.
