(* ===== verification/Interpreting.v ===== *)
(** * What the interpreter does

    The theorems on the machine that follow from the simulation; those on what
    happens when an error or an interrupt is signalled and its handler returns;
    a sample program. *)

From Stdlib Require Import ZArith List Bool Lia.
From S2P Require Import Prelude Object Heap HeapPrim Intern Environment Lookup ListPrim VectorPrim HeapCalls Machine Interpret Evaluate Simulation.
Import ListNotations.

#[local] Open Scope Z_scope.
#[local] Open Scope list_scope.

(** ** Runs of the machine *)

Definition final (l : label) : Prop := match l with returned | terminated _ | not_modelled => True | _ => False end.

Section Runs.

Context (table : Z -> option primitive_code).

Lemma steps_final k l m : final l -> steps table k l m = Return (l, m).
Proof. intros F. induction k as [|k IH]; [reflexivity|]. cbn [steps]. unfold mthen. destruct l; try contradiction; exact IH. Qed.

Lemma steps_return_le j k l m x : (j <= k)%nat -> steps table j l m = Return x -> steps table k l m = steps table (k - j) (fst x) (snd x).
Proof. intros L E. replace k with (j + (k - j))%nat at 1 by lia. rewrite steps_plus, E. destruct x as [l' m']. reflexivity. Qed.

Lemma steps_crash_le j k l m : (j <= k)%nat -> (forall x, steps table j l m <> Return x) -> steps table k l m = steps table j l m.
Proof.
  intros L E. replace k with (j + (k - j))%nat by lia. rewrite steps_plus. destruct (steps table j l m) as [x| | |]; try reflexivity. now destruct (E x).
Qed.

(** Once stopped, the machine stays where it is. *)
Lemma steps_final_le j k l m l' m' : steps table j l m = Return (l', m') -> final l' -> (j <= k)%nat -> steps table k l m = Return (l', m').
Proof. intros E F L. rewrite (steps_return_le j k l m _ L E). now apply steps_final. Qed.

Lemma steps_final_unique j k l m l1 m1 l2 m2 :
  steps table j l m = Return (l1, m1) -> final l1 -> steps table k l m = Return (l2, m2) -> final l2 -> (l1, m1) = (l2, m2).
Proof.
  intros E1 F1 E2 F2. destruct (Nat.le_ge_cases j k) as [L|L].
  - rewrite (steps_final_le j k l m l1 m1 E1 F1 L) in E2. congruence.
  - rewrite (steps_final_le k j l m l2 m2 E2 F2 L) in E1. congruence.
Qed.

(** The machine has not come to an end.  [OutOfFuel]: it is in a search of
    Lookup.v that goes round a cycle of environments. *)
Definition live (o : outcome (label * machine)) : Prop :=
  match o with Return (l, _) => ~ final l | OutOfFuel => True | Exception | Wild => False end.

Lemma live_earlier k j l m : (k <= j)%nat -> live (steps table j l m) -> live (steps table k l m).
Proof.
  intros L. destruct (steps table k l m) as [[l1 m1]| | |] eqn:E.
  - intros H F. rewrite (steps_final_le k j l m l1 m1 E F L) in H. now apply H.
  - now rewrite (steps_crash_le k j l m L), E by congruence.
  - now rewrite (steps_crash_le k j l m L), E by congruence.
  - reflexivity.
Qed.

End Runs.

(** ** The outermost computation *)

(** The stack of Interpret when it is entered; what is under it belongs to the
    caller. *)
Definition entered (c : configuration) (h : heap) (rest : list object) (e env v r x : object) : machine :=
  at_state c h (MAKE_RETURN_CODE RC_END_OF_COMPUTATION :: x :: rest) e env v r.

(** The words left over it. *)
Definition entered_room (c : configuration) (rest : list object) : Z := guard c - (zlength rest + 2).

Section Whole.

Context (table : Z -> option primitive_code) (c : configuration) (h : heap) (rest : list object) (e env v r x : object).
Hypothesis guard_small : guard c < 2 ^ 57.

Notation start := (entered c h rest e env v r x).
Notation result fuel := (run table c fuel (entered_room c rest) (evaluate env e) h).

Lemma entered_simulates fuel : sim table fuel c (MAKE_RETURN_CODE RC_END_OF_COMPUTATION :: x :: rest) do_expression start (result fuel).
Proof.
  apply run_simulates; [exact guard_small| |exact I|].
  - unfold entered_room. cbn [length]. lia.
  - split; [reflexivity|]. now exists v, r.
Qed.

Lemma value_returned fuel value h' : result fuel = Return (inl value, h') ->
  exists k m, steps table k do_expression start = Return (returned, m) /\ VAL m = value /\ memory m = h' /\ stack m = rest.
Proof.
  intros R. destruct (entered_simulates fuel) as (k & A & _). rewrite R in A. cbn [agrees] in A.
  destruct (steps table k do_expression start) as [[l m]| | |] eqn:E; try contradiction. destruct A as (-> & e' & env' & r' & ->).
  exists (k + 1)%nat. eexists. rewrite steps_plus, E. split; [reflexivity|]. repeat split.
Qed.

(** A machine that returns in [k] steps does what the evaluator does with
    [k + 1] units of fuel. *)
Lemma returned_value k m : steps table k do_expression start = Return (returned, m) ->
  match result (S k) with
  | Return (inl value, h') => VAL m = value /\ memory m = h' /\ stack m = rest
  | Return (inr _, _) => True
  | _ => False
  end.
Proof.
  intros E. destruct (entered_simulates (S k)) as (j & A & B). destruct (result (S k)) as [[[value|x1] h']| | |] eqn:R; cbn [agrees] in A.
  1: { destruct (value_returned (S k) value h' R) as (k2 & m2 & E2 & V & M & S2).
       pose proof (steps_final_unique table _ _ _ _ _ _ _ _ E I E2 I) as U. injection U as <-. auto. }
  1: exact I.
  all: destruct (Nat.le_ge_cases j k) as [L|L]; [|rewrite (steps_final_le table k j _ _ _ _ E I L) in A; try contradiction; destruct A as [A|[A|A]]; discriminate A].
  all: destruct (steps table j do_expression start) as [[l' m']| | |] eqn:Ej; try contradiction.
  all: try (rewrite (steps_crash_le table j k _ _ L), Ej in E by congruence; discriminate E).
  specialize (B eq_refl _ eq_refl). lia.
Qed.

(** An evaluation without an end. *)
Lemma endless k : (forall fuel, result fuel = OutOfFuel) -> live (steps table k do_expression start).
Proof.
  intros D. destruct (entered_simulates (S k)) as (j & A & B). rewrite D in A, B. cbn [agrees] in A.
  destruct (steps table j do_expression start) as [[l' m']| | |] eqn:Ej; try contradiction.
  - specialize (B eq_refl _ eq_refl). apply live_earlier with j; [lia|]. rewrite Ej. intros F. destruct A as [-> | [-> | ->]]; exact F.
  - destruct (Nat.le_ge_cases j k) as [L|L].
    + rewrite (steps_crash_le table j k _ _ L) by congruence. now rewrite Ej.
    + apply live_earlier with j; [exact L|]. now rewrite Ej.
Qed.

End Whole.

(** ** Handlers *)

Lemma MEMORY_REF_same o i h x h' : MEMORY_REF o i h = Return (x, h') -> h' = h.
Proof.
  unfold MEMORY_REF, MEMORY_LOC, andthen, load. destruct o as [w|t b]; [discriminate|]. cbn [ret bind]. destruct (nth_error (blocks h) (fst (b, i))) as [words|]; [|discriminate].
  destruct (nth_error words (snd (b, i))); [|discriminate]. intros E. now inversion E.
Qed.

(** An operation that reads. *)
Definition reads {A} (f : microcode A) : Prop := forall m a m', f m = Return (a, m') -> m' = m.

Lemma reads_then {A B} (f : microcode A) (k : A -> microcode B) : reads f -> (forall a, reads (k a)) -> reads (mthen f k).
Proof.
  intros F K m b m'. unfold mthen. destruct (f m) as [[a m1]| | |] eqn:E; cbn [bind]; try discriminate. apply F in E. subst m1. apply K.
Qed.

Lemma reads_GET {A} (f : machine -> A) : reads (GET f).
Proof. intros m a m' E. now inversion E. Qed.

Lemma reads_mret {A} (a : A) : reads (mret a).
Proof. intros m b m' E. now inversion E. Qed.

Lemma reads_memory o i : reads (in_heap (MEMORY_REF o i)).
Proof.
  intros m a m'. unfold in_heap. destruct (MEMORY_REF o i (memory m)) as [[x h']| | |] eqn:E; cbn [bind]; try discriminate.
  apply MEMORY_REF_same in E. subst h'. intros R. inversion R. now destruct m.
Qed.

Lemma reads_length o : reads (in_heap (VECTOR_LENGTH o)).
Proof.
  intros m a m'. unfold in_heap, VECTOR_LENGTH, andthen, pure. destruct (MEMORY_REF o 0 (memory m)) as [[x h']| | |] eqn:E; cbn [bind]; try discriminate.
  apply MEMORY_REF_same in E. subst h'. destruct (OBJECT_DATUM x); cbn [bind]; try discriminate. intros R. inversion R. now destruct m.
Qed.

Lemma reads_exception {A} : reads (fun _ => Exception : outcome (A * machine)).
Proof. intros m a m' E. discriminate. Qed.

Lemma reads_if {A} (b : bool) (f g : microcode A) : reads f -> reads g -> reads (if b then f else g).
Proof. now destruct b. Qed.

Create HintDb reading.
#[local] Hint Resolve reads_then reads_GET reads_mret reads_memory reads_length reads_exception reads_if : reading.

Lemma reads_FIXED_OBJECT i : reads (FIXED_OBJECT i).
Proof. unfold FIXED_OBJECT, VECTOR_REF. auto with reading. Qed.

Lemma reads_error_handler code : reads (error_handler code).
Proof. pose proof reads_FIXED_OBJECT. unfold error_handler, VECTOR_REF. auto 10 with reading. Qed.

(** What save_history and preserve_interrupt_mask put on the stack over [s]. *)
Definition recovery (m : machine) (s : list object) : list object :=
  MAKE_RETURN_CODE RC_RESTORE_INT_MASK :: ULONG_TO_FIXNUM (INT_MASK m) ::
  MAKE_RETURN_CODE RC_RESTORE_DONT_COPY_HISTORY :: HISTORY_POINTER (history_register m) ::
  ULONG_TO_FIXNUM (prev_restore_history_offset m) :: SHARP_F :: s.

Definition handler_frame (m : machine) (handler argument : object) (s : list object) : list object :=
  MAKE_OBJECT 0 3 :: handler :: argument :: ULONG_TO_FIXNUM (INT_MASK m) :: recovery m s.

Lemma stop_history_frame m u m1 : stop_history m = Return (u, m1) ->
  stack m1 = skipn 2 (recovery m (stack m)) /\ memory m1 = memory m /\ INT_MASK m1 = INT_MASK m /\ EXP m1 = EXP m /\ RET m1 = RET m /\ ENV m1 = ENV m /\ VAL m1 = VAL m /\
  fixed_objects m1 = fixed_objects m.
Proof.
  unfold stop_history, save_history, Will_Push, STACK_CHECK. destruct m. microcode.
  match goal with |- context [if ?b then _ else _] => destruct b end; cbv [REQUEST_INTERRUPT with_interrupts]; microcode;
    match goal with |- context [READ_DUMMY_HISTORY ?m] => destruct (READ_DUMMY_HISTORY m) as [[d m2]| | |] eqn:E; [|discriminate..] end;
    apply reads_FIXED_OBJECT in E; subst m2; cbv [with_history UPDATE]; microcode; intros R; inversion R; subst; cbn; repeat split.
Qed.

Lemma mthen_return {A B} (f : microcode A) (k : A -> microcode B) m b m' :
  mthen f k m = Return (b, m') -> exists a m1, f m = Return (a, m1) /\ k a m1 = Return (b, m').
Proof. unfold mthen. destruct (f m) as [[a m1]| | |]; cbn [bind]; try discriminate. intros E. now exists a, m1. Qed.

(** The last part of Do_Micro_Error and of setup_interrupt. *)
Lemma handler_call_frame m handler (argument : machine -> object) (k : Z) u m1 :
  (stop_history ;;
   preserve_interrupt_mask ;;
   mask <- GET INT_MASK ;;
   x <- GET argument ;;
   push_handler_frame handler x (ULONG_TO_FIXNUM mask) ;;
   SET_INTERRUPT_MASK k)%machine m = Return (u, m1) ->
  exists m', stack m1 = handler_frame m handler (argument m') (stack m) /\ memory m1 = heap_under k (memory m) /\ INT_MASK m1 = k.
Proof.
  intros E. apply mthen_return in E. destruct E as (u1 & m2 & H & E). apply stop_history_frame in H. destruct H as (S2 & M2 & I2 & _).
  revert E. destruct m2 as [h2 s2 g2 e2 n2 v2 r2 c2 k2 y2 o2 f2]. cbn [stack memory INT_MASK] in S2, M2, I2. subst h2 k2 s2.
  cbv [preserve_interrupt_mask push_handler_frame SET_INTERRUPT_MASK PUSH_APPLY_FRAME_HEADER Will_Push STACK_CHECK REQUEST_INTERRUPT with_interrupts]. microcode.
  match goal with |- context [if ?b then _ else _] => destruct b end; microcode;
  match goal with |- context [if ?b then _ else _] => destruct b end; microcode; intros E; inversion E; subst;
  match goal with |- context [argument ?m] => exists m; repeat split end.
Qed.

(** The registers that a handler gives back to the computation. *)
Definition restored (m m' : machine) : Prop :=
  INT_MASK m' = INT_MASK m /\ history_register m' = HISTORY_POINTER (history_register m) /\
  prev_restore_history_offset m' = prev_restore_history_offset m.

(** No interrupt is taken when [mask] is set. *)
Definition quiet (mask : Z) (m : machine) : Prop := GC_NEEDED_P 0 (heap_under mask (memory m)) = false /\ Z.land mask (GET_INT_CODE m) = 0.

Definition registers_ok (m : machine) : Prop := 0 <= INT_MASK m < 2 ^ 16 /\ 0 <= prev_restore_history_offset m < 2 ^ 58.

(** The machine that has popped a continuation. *)
Definition popped (rc : Z) (e : object) (s : list object) (m : machine) : machine := with_EXP e (with_RET (MAKE_RETURN_CODE rc) (with_stack s m)).

Lemma pop_return_step table rc e s m : 0 <= rc < 2 ^ 58 -> stack m = MAKE_RETURN_CODE rc :: e :: s ->
  step table pop_return m = dispatch_return rc (popped rc e s m).
Proof.
  intros R S. destruct m as [h s0 g e0 n v r ic im y o f]. cbn [stack] in S. subst s0. unfold step, pop_return_non_trapping, popped. microcode.
  now rewrite return_code_datum.
Qed.

Lemma ulong_datum n : 0 <= n < 2 ^ 58 -> OBJECT_DATUM (ULONG_TO_FIXNUM n) = Return n.
Proof. apply datum_of. unfold TC_FIXNUM. lia. Qed.

Ltac popped_step S := rewrite (fun R => pop_return_step _ _ _ _ _ R S) by (split; vm_compute; congruence).

Lemma restore_int_mask_step table mask s m : 0 <= mask < 2 ^ 58 -> quiet mask m -> stack m = MAKE_RETURN_CODE RC_RESTORE_INT_MASK :: ULONG_TO_FIXNUM mask :: s ->
  step table pop_return m = Return (pop_return, with_interrupts (INT_CODE m) mask (with_memory (heap_under mask (memory m)) (popped RC_RESTORE_INT_MASK (ULONG_TO_FIXNUM mask) s m))).
Proof.
  intros R [G Q] S. popped_step S. change (dispatch_return RC_RESTORE_INT_MASK) with (fun m => return_restore_int_mask m).
  destruct m as [h s0 g e0 n v r ic im y o f]. cbn [memory] in G.
  cbv [return_restore_int_mask popped SET_INTERRUPT_MASK with_interrupts]. microcode. rewrite ulong_datum by exact R. rewrite G. microcode.
  unfold PENDING_INTERRUPTS_P, PENDING_INTERRUPTS.
  match goal with |- context [negb (?x =? 0)] => replace x with 0 by (symmetry; exact Q) end. reflexivity.
Qed.

Lemma restore_history_step table offset register x s m : 0 <= offset < 2 ^ 58 ->
  stack m = MAKE_RETURN_CODE RC_RESTORE_DONT_COPY_HISTORY :: register :: ULONG_TO_FIXNUM offset :: x :: s ->
  step table pop_return m =
  Return (pop_return, with_history (HISTORY_POINTER register) offset (with_stack s (popped RC_RESTORE_DONT_COPY_HISTORY register s m))).
Proof.
  intros R S. popped_step S. change (dispatch_return RC_RESTORE_DONT_COPY_HISTORY) with (fun m => return_restore_history m).
  cbv [return_restore_history popped with_history]. microcode. now rewrite ulong_datum by exact R.
Qed.

Lemma HISTORY_POINTER_idempotent o : HISTORY_POINTER (HISTORY_POINTER o) = HISTORY_POINTER o.
Proof. now destruct o. Qed.

Lemma handler_returns table m m2 s : registers_ok m -> stack m2 = recovery m s -> quiet (INT_MASK m) m2 ->
  exists m3, steps table 2 pop_return m2 = Return (pop_return, m3) /\ stack m3 = s /\ VAL m3 = VAL m2 /\ memory m3 = heap_under (INT_MASK m) (memory m2) /\
    fixed_objects m3 = fixed_objects m2 /\ restored m m3.
Proof.
  intros [IM IO] S Q. cbn [steps]. unfold mthen. rewrite (restore_int_mask_step table (INT_MASK m) _ _ ltac:(lia) Q S). cbn [bind].
  erewrite restore_history_step; [|exact IO|reflexivity]. cbn [bind]. eexists. split; [reflexivity|].
  unfold restored. cbn. rewrite HISTORY_POINTER_idempotent. repeat split.
Qed.

(** *** Errors *)

(** The continuation that an error leaves for its handler. *)
Definition error_continuation (b : bool) (m : machine) : list object :=
  if b then MAKE_RETURN_CODE RC_POP_RETURN_ERROR :: VAL m :: stack m else MAKE_RETURN_CODE RC_EVAL_ERROR :: EXP m :: ENV m :: stack m.

Lemma micro_error_frame code b m u m1 : Do_Micro_Error code b m = Return (u, m1) ->
  exists handler, stack m1 = handler_frame m handler (Immediate (Object.LONG_TO_FIXNUM code)) (error_continuation b m) /\
    memory m1 = heap_under 0 (memory m) /\ INT_MASK m1 = 0.
Proof.
  unfold Do_Micro_Error. intros E. apply mthen_return in E. destruct E as (u1 & m2 & W & E).
  assert (K : exists ic, m2 = with_interrupts ic (INT_MASK m) m).
  { revert W. unfold Will_Push, STACK_CHECK. destruct m as [h s g e n v r ic im y o f]. microcode.
    match goal with |- context [if ?b then _ else _] => destruct b end; cbv [REQUEST_INTERRUPT with_interrupts]; microcode; intros W; inversion W; eexists; reflexivity. }
  destruct K as [ic ->]. clear W u1. destruct m as [h s g e n v r ic0 im y o f].
  apply mthen_return in E. destruct E as (u2 & m3 & P & E). apply mthen_return in E. destruct E as (u3 & m4 & R & E).
  apply mthen_return in E. destruct E as (u4 & m5 & S & E). apply mthen_return in E. destruct E as (handler & m6 & H & E).
  apply reads_error_handler in H. subst m6. exists handler.
  apply (handler_call_frame m5 handler (fun _ => Immediate (Object.LONG_TO_FIXNUM code)) 0 u m1) in E. destruct E as (x & S1 & M1 & I1).
  revert P R S. cbv [with_interrupts]. destruct b; microcode; intros P R S; inversion P; subst; inversion R; subst; inversion S; subst;
    (split; [exact S1|split; [exact M1|exact I1]]).
Qed.

(** When the handler of an error returns, the machine goes on where the error
    occurred: it evaluates the expression again, or returns the value. *)
Lemma error_resumes table code b m m1 : registers_ok m ->
  step table (micro_error code b) m = Return (internal_apply, m1) ->
  exists handler,
    stack m1 = handler_frame m handler (Immediate (Object.LONG_TO_FIXNUM code)) (error_continuation b m) /\ memory m1 = heap_under 0 (memory m) /\ INT_MASK m1 = 0 /\
    forall m2, stack m2 = recovery m (error_continuation b m) -> quiet (INT_MASK m) m2 ->
      exists m3, steps table 3 pop_return m2 = Return (if b then pop_return else do_expression, m3) /\
        stack m3 = stack m /\ memory m3 = heap_under (INT_MASK m) (memory m2) /\ restored m m3 /\
        if b then VAL m3 = VAL m else EXP m3 = EXP m /\ ENV m3 = ENV m.
Proof.
  intros R E. cbn [step] in E. apply mthen_return in E. destruct E as (u & m1' & E & G). inversion G. subst m1'. apply micro_error_frame in E.
  destruct E as (handler & S & M & I). exists handler. split; [exact S|]. split; [exact M|]. split; [exact I|]. intros m2 S2 Q.
  destruct (handler_returns table m m2 _ R S2 Q) as (m3 & E3 & S3 & _ & M3 & _ & K). change 3%nat with (2 + 1)%nat. rewrite steps_plus, E3. cbn [bind steps].
  unfold error_continuation in S3. unfold mthen. destruct b; popped_step S3.
  - eexists. split; [reflexivity|]. cbn. repeat split; try assumption; apply K.
  - eexists. split; [reflexivity|]. cbn. repeat split; try assumption; apply K.
Qed.

(** *** Interrupts *)

Lemma reads_integer o : reads (in_heap (integer_argument o)).
Proof.
  intros m a m'. unfold in_heap, integer_argument. destruct o as [w|t b]; cbn [bind]; [intros R; inversion R; now destruct m|].
  destruct (t =? TC_BIG_FIXNUM); cbn [bind]; [|intros R; inversion R; now destruct m].
  destruct (block_of (memory m) b) as [[|o [|[w|t' b'] words]]|]; cbn [bind]; try discriminate.
  destruct (raw_words _); cbn [bind]; [|discriminate]. intros R; inversion R; now destruct m.
Qed.

Lemma reads_mpure {A} (x : outcome A) : reads (mpure x).
Proof. intros m a m'. unfold mpure. destruct x; cbn [bind]; [intros R; now inversion R|discriminate..]. Qed.

#[local] Hint Resolve reads_integer reads_mpure : reading.

Lemma reads_handler_mask masks k : reads (compute_interrupt_handler_mask masks k).
Proof.
  unfold compute_interrupt_handler_mask, VECTOR_REF. apply reads_then; [auto 10 with reading|]. intros [n|]; auto with reading.
Qed.

Lemma setup_interrupt_frame k m u m1 : setup_interrupt k m = Return (u, m1) ->
  exists handler mask x, compute_interrupt_handler_mask x (compute_interrupt_number k) m = Return (mask, m) /\
    (exists code, stack m1 = handler_frame m handler code (stack m)) /\ memory m1 = heap_under mask (memory m) /\ INT_MASK m1 = mask.
Proof.
  pose proof reads_FIXED_OBJECT as RF. unfold setup_interrupt. intros E. apply mthen_return in E. destruct E as (v & m2 & V & E). apply reads_GET in V. subst m2.
  destruct (negb (VECTOR_P v)); [discriminate|].
  apply mthen_return in E. destruct E as (handlers & m2 & V & E). apply RF in V. subst m2.
  apply mthen_return in E. destruct E as (masks & m2 & V & E). apply RF in V. subst m2.
  apply mthen_return in E. destruct E as (ok & m2 & V & E).
  assert (m2 = m) by (revert V; assert (K : reads (if VECTOR_P handlers then (length <- in_heap (VECTOR_LENGTH handlers) ;; mret (compute_interrupt_number k <? length))%machine else mret false)) by (auto with reading); apply K).
  subst m2. destruct (negb ok); [discriminate|].
  apply mthen_return in E. destruct E as (mask & m2 & C & E). pose proof (reads_handler_mask _ _ _ _ _ C). subst m2.
  apply mthen_return in E. destruct E as (handler & m2 & W & E). apply reads_memory in W. subst m2.
  exists handler, mask, masks. split; [exact C|].
  apply (handler_call_frame m handler (fun m' => ULONG_TO_FIXNUM (GET_INT_CODE m')) mask u m1) in E. destruct E as (x & S & M & I). eauto.
Qed.

Lemma land_bit m i : 0 <= i -> (Z.land m (2 ^ i) =? 0) = negb (Z.testbit m i).
Proof.
  intros I. destruct (Z.testbit m i) eqn:T; cbn [negb].
  - apply Z.eqb_neq. intros E. assert (B : Z.testbit (Z.land m (2 ^ i)) i = true) by (rewrite Z.land_spec, T, Z.pow2_bits_true by lia; reflexivity).
    rewrite E, Z.bits_0 in B. discriminate.
  - apply Z.eqb_eq. apply Z.bits_inj_0. intros j. rewrite Z.land_spec. destruct (Z.eqb_spec i j) as [<-|N]; [now rewrite T|].
    now rewrite Z.pow2_bits_false, andb_false_r.
Qed.

Lemma interrupt_number_loop_spec m n : forall i, 0 <= i -> Z.of_nat n + i = 17 ->
  let k := interrupt_number_loop n i (2 ^ i) m in
  i <= k <= 17 /\ (forall j, i <= j < k -> Z.testbit m j = false) /\ (k < 16 -> Z.testbit m k = true) .
Proof.
  induction n as [|n IH]; intros i I E; cbn [interrupt_number_loop]; cbv zeta.
  { split; [lia|]. split; [intros; lia|]. lia. }
  rewrite land_bit by exact I. unfold MAX_INTERRUPT_NUMBER. destruct (Z.leb_spec i 15) as [L|L]; cbn [andb].
  - destruct (Z.testbit m i) eqn:T; cbn [negb].
    + split; [lia|]. split; [intros; lia|]. intros _. exact T.
    + replace (to_ulong (Z.shiftl (2 ^ i) 1)) with (2 ^ (i + 1)).
      2: { rewrite Z.shiftl_mul_pow2 by lia. rewrite Z.pow_add_r by lia. change (2 ^ 1) with 2. unfold to_ulong. symmetry. apply Z.mod_small.
           pose proof (Z.pow_le_mono_r 2 i 15). pose proof (Z.pow_nonneg 2 i). lia. }
      specialize (IH (i + 1) ltac:(lia) ltac:(lia)). cbv zeta in IH. destruct IH as (B & F & K). split; [lia|]. split; [|exact K].
      intros j J. destruct (Z.eq_dec j i) as [->|]; [exact T|]. apply F. lia.
  - split; [lia|]. split; [intros; lia|]. lia.
Qed.

(** The interrupt that is taken is the pending one of least number. *)
Lemma compute_interrupt_number_least m : 0 < m < 2 ^ 16 ->
  let k := compute_interrupt_number m in 0 <= k < 16 /\ Z.testbit m k = true /\ forall j, 0 <= j < k -> Z.testbit m j = false.
Proof.
  intros M. cbv zeta. unfold compute_interrupt_number. destruct (interrupt_number_loop_spec m 17 0 ltac:(lia) ltac:(lia)) as (B & F & T). change (2 ^ 0) with 1 in *.
  set (k := interrupt_number_loop 17 0 1 m) in *. assert (k < 16).
  { destruct (Z.lt_ge_cases k 16) as [L|L]; [exact L|]. exfalso. assert (m = 0); [|lia]. apply Z.bits_inj_0. intros j. destruct (Z.lt_ge_cases j 0); [now apply Z.testbit_neg_r|].
    destruct (Z.lt_ge_cases j 16); [apply F; lia|]. apply Z.bits_above_log2; [lia|]. apply Z.lt_le_trans with 16; [|lia]. apply Z.log2_lt_pow2; lia. }
  split; [lia|]. split; [now apply T|]. intros j J. apply F. lia.
Qed.

(** The handler runs with its own interrupt off. *)
Lemma handler_mask_excludes masks k m mask m' : 0 <= k <= MAX_INTERRUPT_NUMBER ->
  compute_interrupt_handler_mask masks k m = Return (mask, m') -> Z.testbit mask k = false.
Proof.
  intros K. unfold compute_interrupt_handler_mask. intros E. apply mthen_return in E. destruct E as ([x|] & m1 & _ & E).
  - inversion E; subst. rewrite Z.ldiff_spec, Z.shiftl_mul_pow2, Z.mul_1_l, Z.pow2_bits_true by lia. apply andb_false_r.
  - destruct (Z.leb_spec k MAX_INTERRUPT_NUMBER); [|lia]. inversion E; subst. rewrite Z.shiftl_mul_pow2, Z.mul_1_l, Z.sub_1_r, <- Z.ones_equiv by lia.
    apply Z.ones_spec_high. lia.
Qed.

Lemma pending_bounds m : registers_ok m -> 0 <= PENDING_INTERRUPTS m < 2 ^ 16.
Proof.
  intros [I _]. unfold PENDING_INTERRUPTS. assert (0 <= Z.land (INT_MASK m) (GET_INT_CODE m)) by (apply Z.land_nonneg; lia).
  split; [lia|]. rewrite <- (Z.mod_small (INT_MASK m) (2 ^ 16)), <- Z.land_ones, <- Z.land_assoc, (Z.land_comm (Z.ones 16)), Z.land_assoc, Z.land_ones by lia.
  apply Z.mod_pos_bound. lia.
Qed.

(** The continuation that PREPARE_APPLY_INTERRUPT pushes over a frame. *)
Lemma apply_frame_resumed table m f e header g s :
  stack m = MAKE_RETURN_CODE RC_RESTORE_VALUE :: f :: MAKE_RETURN_CODE RC_INTERNAL_APPLY_VAL :: e :: header :: g :: s ->
  exists m', steps table 3 pop_return m = Return (internal_apply, m') /\ stack m' = header :: f :: s /\ memory m' = memory m /\
    INT_MASK m' = INT_MASK m /\ history_register m' = history_register m /\ prev_restore_history_offset m' = prev_restore_history_offset m.
Proof.
  intros S. cbn [steps]. unfold mthen. popped_step S.
  change (dispatch_return RC_RESTORE_VALUE ?x) with (Return (pop_return, with_VAL (EXP x) x)). cbn [bind].
  set (m1 := popped RC_RESTORE_VALUE f (MAKE_RETURN_CODE RC_INTERNAL_APPLY_VAL :: e :: header :: g :: s) m).
  assert (S1 : stack (with_VAL (EXP m1) m1) = MAKE_RETURN_CODE RC_INTERNAL_APPLY_VAL :: e :: header :: g :: s) by reflexivity. popped_step S1.
  eexists. split; [reflexivity|]. cbn. repeat split.
Qed.

(** An interrupt before an application, and the return of its handler. *)
Lemma interrupt_resumes table m m1 header f s : registers_ok m -> stack m = header :: f :: s -> PENDING_INTERRUPTS_P m = true ->
  steps table 2 internal_apply m = Return (perform_application, m1) ->
  let k := compute_interrupt_number (PENDING_INTERRUPTS m) in
  Z.testbit (PENDING_INTERRUPTS m) k = true /\ (forall j, 0 <= j < k -> Z.testbit (PENDING_INTERRUPTS m) j = false) /\ Z.testbit (INT_MASK m1) k = false /\
  exists handler code s1, stack m1 = handler_frame m handler code s1 /\ memory m1 = heap_under (INT_MASK m1) (memory m) /\
    forall m2, stack m2 = recovery m s1 -> quiet (INT_MASK m) m2 ->
      exists m3, steps table 5 pop_return m2 = Return (internal_apply, m3) /\ stack m3 = stack m /\ memory m3 = heap_under (INT_MASK m) (memory m2) /\ restored m m3.
Proof.
  intros R S P E. cbv zeta. pose proof (pending_bounds m R) as B. unfold PENDING_INTERRUPTS_P in P. destruct (Z.eqb_spec (PENDING_INTERRUPTS m) 0) as [|N]; [discriminate|].
  destruct (compute_interrupt_number_least (PENDING_INTERRUPTS m) ltac:(lia)) as (K & T & L). set (k := compute_interrupt_number (PENDING_INTERRUPTS m)) in *.
  split; [exact T|]. split; [exact L|].
  set (m0 := with_stack (MAKE_RETURN_CODE RC_RESTORE_VALUE :: f :: MAKE_RETURN_CODE RC_INTERNAL_APPLY_VAL :: SHARP_F :: stack m)
               (with_EXP f (with_RET (MAKE_RETURN_CODE RC_RESTORE_VALUE) m))).
  assert (E1 : step table internal_apply m = Return (signal_interrupt, m0)).
  { unfold step, Apply_Non_Trapping, mthen, GET, bind. unfold PENDING_INTERRUPTS_P. destruct (Z.eqb_spec (PENDING_INTERRUPTS m) 0); [contradiction|]. cbn [negb].
    subst m0. destruct m as [h0 s0 g0 e0 n0 v0 r0 ic0 im0 y0 o0 f0]. cbn [stack] in S |- *. subst s0. reflexivity. }
  change 2%nat with (1 + 1)%nat in E. rewrite steps_plus in E. cbn [steps] in E. unfold mthen at 1 in E. rewrite E1 in E. cbn [bind mret] in E.
  apply mthen_return in E. destruct E as (l & m1' & E & G). inversion G; subst l m1'; clear G. cbn [step] in E.
  apply mthen_return in E. destruct E as (p & m2 & V & E). inversion V; subst; clear V. apply mthen_return in E. destruct E as (u & m2 & V & E). inversion E; subst; clear E.
  apply setup_interrupt_frame in V. destruct V as (handler & mask & masks & C & [code Sf] & M & I).
  change (PENDING_INTERRUPTS m0) with (PENDING_INTERRUPTS m) in C. fold k in C.
  split; [rewrite I; apply (handler_mask_excludes masks k m0 mask m0); [unfold MAX_INTERRUPT_NUMBER; lia|exact C]|].
  exists handler, code, (stack m0). split; [exact Sf|]. split; [rewrite I; exact M|]. intros m3 S3 Q.
  destruct (handler_returns table m m3 (stack m0) R S3 Q) as (m4 & E4 & S4 & _ & M4 & _ & K4).
  change 5%nat with (2 + 3)%nat. rewrite steps_plus, E4. cbn [bind].
  destruct (apply_frame_resumed table m4 f SHARP_F header f s) as (m5 & E5 & S5 & M5 & K5).
  { rewrite S4, <- S. subst m0. now destruct m. }
  exists m5. split; [exact E5|]. split; [congruence|]. split; [congruence|].
  unfold restored in *. destruct K5 as (-> & -> & ->). exact K4.
Qed.

(** *** Errors in an application *)

Lemma APPLICATION_ERROR_state code m header f s : stack m = header :: f :: s ->
  exists m0, APPLICATION_ERROR code m = Return (micro_error code true, m0) /\ VAL m0 = SHARP_F /\
    stack m0 = MAKE_RETURN_CODE RC_INTERNAL_APPLY_VAL :: SHARP_F :: header :: f :: s /\ (registers_ok m -> registers_ok m0) /\
    memory m0 = memory m /\ INT_MASK m0 = INT_MASK m.
Proof.
  intros S. destruct m as [h s0 g e n v r ic im y o fo]. cbn [stack] in S. subst s0. eexists. split; [reflexivity|]. cbn. unfold registers_ok. cbn. tauto.
Qed.

(** The procedure of the frame has been read after the continuation was pushed
    over it: what the handler's return applies is [#f]. *)
Lemma application_error_retry table code m header f s l m0 m1 : registers_ok m -> stack m = header :: f :: s ->
  APPLICATION_ERROR code m = Return (l, m0) -> step table l m0 = Return (internal_apply, m1) ->
  exists handler s1, stack m1 = handler_frame m0 handler (Immediate (Object.LONG_TO_FIXNUM code)) s1 /\
    forall m2, stack m2 = recovery m0 s1 -> quiet (INT_MASK m) m2 ->
      exists m3, steps table 5 pop_return m2 = Return (internal_apply, m3) /\ stack m3 = header :: SHARP_F :: s.
Proof.
  intros R S A E. destruct (APPLICATION_ERROR_state code m header f s S) as (m0' & A' & V & S0 & R0 & _ & I0). rewrite A in A'. injection A' as -> <-.
  destruct (error_resumes table code true m0 m1 (R0 R) E) as (handler & S1 & _ & _ & K). exists handler, (error_continuation true m0). split; [exact S1|].
  intros m2 S2 Q. destruct (K m2 S2) as (m3 & E3 & S3 & _ & _ & V3); [now rewrite I0|]. change 5%nat with (3 + 2)%nat. rewrite steps_plus, E3. cbn [bind steps]. unfold mthen.
  rewrite S0 in S3. rewrite V in V3. popped_step S3. destruct m3 as [h s3 g e n v r ic im y o fo]. cbn [VAL] in V3. subst v. eexists. split; reflexivity.
Qed.

(** ** A sample program *)

Definition sample_table (n : Z) : option primitive_code := option_map snd (nth_error heap_primitives (Z.to_nat n)).

(** [((lambda (x) (if x (cons x 7) 8)) 5)], an entity that is its own handler,
    a comment on itself. *)
Definition program_heap : heap :=
  let fixnum n := Immediate (Object.LONG_TO_FIXNUM n) in
  let x := Pointer TC_UNINTERNED_SYMBOL 0 in
  let header n := MAKE_OBJECT TC_MANIFEST_VECTOR n in
  Heap [ [SHARP_F; SHARP_F];
         [x; SHARP_F];
         [header 2; x; x];
         [Pointer TC_CONDITIONAL 4; Pointer TC_VECTOR 2];
         [Pointer TC_VARIABLE 1; Pointer TC_COMBINATION 5; fixnum 8];
         [header 3; MAKE_OBJECT TC_PRIMITIVE 8; Pointer TC_VARIABLE 1; fixnum 7];
         [header 2; Pointer TC_LAMBDA 3; fixnum 5];
         [Pointer TC_ENTITY 7; SHARP_F];
         [header 1; Pointer TC_ENTITY 7];
         [Pointer TC_COMMENT 9] ]
       1000 true None SHARP_F SHARP_F.

Definition sample_configuration : configuration := Configuration 100 0 0xF SHARP_F 0 SHARP_F.

Example program_value :
  match run sample_table sample_configuration 20 50 (evaluate SHARP_F (Pointer TC_COMBINATION 6)) program_heap with
  | Return (inl (Pointer t b), h) => t =? TC_LIST
  | _ => false
  end = true.
Proof. vm_compute. reflexivity. Qed.

Example entity_overflows :
  match run sample_table sample_configuration 200 50 (evaluate SHARP_F (Pointer TC_COMBINATION 8)) program_heap with
  | Return (inr overflow, _) => true
  | _ => false
  end = true.
Proof. vm_compute. reflexivity. Qed.

(** A machine with a vector of handlers. *)
Definition sample_machine : machine :=
  let vector (os : list object) := MAKE_OBJECT TC_MANIFEST_VECTOR (zlength os) :: os in
  let handlers := repeat (MAKE_OBJECT TC_PRIMITIVE 0) 60 in
  Machine (Heap [ vector (SHARP_F :: Pointer TC_VECTOR 1 :: Pointer TC_VECTOR 1 :: repeat SHARP_F 16 ++ [Pointer TC_HUNK3_A 2]);
                  vector handlers; [SHARP_F; SHARP_F; SHARP_F] ] 1000 true None SHARP_F SHARP_F)
    [MAKE_OBJECT 0 2; MAKE_OBJECT TC_PRIMITIVE 8; SHARP_T] 100 SHARP_F SHARP_F SHARP_T SHARP_F 0x30 0x3F (Pointer TC_HUNK3_A 2) 0 (Pointer TC_VECTOR 0).

(** ** Properties *)

(** After an error of an application whose handler returns, the machine is at the application again with
    the arguments in place but with the false object for the procedure: APPLICATION_ERROR reads the
    procedure of the frame after it has pushed a continuation over the frame. *)
Theorem application_error_forgets_procedure table code m header f s l m0 m1 :
  registers_ok m -> stack m = header :: f :: s ->
  APPLICATION_ERROR code m = Return (l, m0) -> step table l m0 = Return (internal_apply, m1) ->
  exists handler s1, stack m1 = handler_frame m0 handler (Immediate (Object.LONG_TO_FIXNUM code)) s1 /\
    forall m2, stack m2 = recovery m0 s1 -> quiet (INT_MASK m) m2 ->
      exists m3, steps table 5 pop_return m2 = Return (internal_apply, m3) /\ stack m3 = header :: SHARP_F :: s.
Proof. exact (application_error_retry table code m header f s l m0 m1). Qed.

(** C1: the machine of Interpret, started on an expression or on a call whose frame is on the stack,
    comes to what the direct evaluator says of it: the value in VAL with the stack, the interrupts and
    the history as at the start, an error or an interrupt with the stack untouched below what was
    pushed, a jump to a control point, the request of the stack overflow interrupt where the evaluator
    runs out of room, or an access outside an object where the evaluator makes one. *)
Theorem interpreter_implements_evaluator table c fuel t h s l m :
  guard c < 2 ^ 57 -> fits t (guard c - zlength s) -> starts t c h s l m ->
  exists k, agrees c s (run table c fuel (guard c - zlength s) t h) (steps table k l m).
Proof.
  intros G F B. destruct (run_simulates table c fuel G (guard c - zlength s) t h s l m eq_refl F B) as (k & A & _). now exists k.
Qed.

Lemma interpreter_implements_evaluator_witness :
  exists k, agrees sample_configuration [SHARP_T]
    (run sample_table sample_configuration 20 99 (evaluate SHARP_F (Pointer TC_COMBINATION 6)) program_heap)
    (steps sample_table k do_expression (at_state sample_configuration program_heap [SHARP_T] (Pointer TC_COMBINATION 6) SHARP_F SHARP_F SHARP_F)).
Proof.
  apply (interpreter_implements_evaluator sample_table sample_configuration 20 (evaluate SHARP_F (Pointer TC_COMBINATION 6)) program_heap [SHARP_T]).
  - vm_compute. reflexivity.
  - exact I.
  - split; [reflexivity|]. now exists SHARP_F, SHARP_F.
Defined.

(** C3: Interpret returns to its caller with the value of the expression and the heap that the evaluator
    gives, and the rest of the stack as it was; and when it returns after k steps, the evaluator ends
    with k + 1 units of fuel, in that value and heap unless an error, an interrupt or a jump intervened. *)
Theorem interpreter_returns_the_value table c h rest e env v r x : guard c < 2 ^ 57 ->
  let start := entered c h rest e env v r x in
  let result fuel := run table c fuel (entered_room c rest) (evaluate env e) h in
  (forall fuel value h', result fuel = Return (inl value, h') ->
     exists k m, steps table k do_expression start = Return (returned, m) /\ VAL m = value /\ memory m = h' /\ stack m = rest) /\
  (forall k m, steps table k do_expression start = Return (returned, m) ->
     match result (S k) with
     | Return (inl value, h') => VAL m = value /\ memory m = h' /\ stack m = rest
     | Return (inr _, _) => True
     | _ => False
     end).
Proof. intros G. split; [now apply value_returned|now apply returned_value]. Qed.

Lemma interpreter_returns_the_value_witness :
  exists k m, steps sample_table k do_expression (entered sample_configuration program_heap [] (Pointer TC_COMBINATION 6) SHARP_F SHARP_F SHARP_F SHARP_F) = Return (returned, m) /\
    VAL m = Pointer TC_LIST 12 /\ stack m = [].
Proof.
  destruct (interpreter_returns_the_value sample_table sample_configuration program_heap [] (Pointer TC_COMBINATION 6) SHARP_F SHARP_F SHARP_F SHARP_F) as [K _];
    [vm_compute; reflexivity|].
  destruct (K 20%nat (Pointer TC_LIST 12) _ ltac:(vm_compute; reflexivity)) as (k & m & E & V & _ & S). now exists k, m.
Defined.





(** C12: when an expression has no value however much fuel the evaluator is given, the interpreter never
    stops: it does not return, does not end the process and makes no access outside an object after any
    number of steps, and nothing else than an evaluation goes on. *)
Theorem interpreter_runs_on table c h rest e env v r x : guard c < 2 ^ 57 ->
  (forall fuel, run table c fuel (entered_room c rest) (evaluate env e) h = OutOfFuel) ->
  forall k, live (steps table k do_expression (entered c h rest e env v r x)).
Proof. intros G D k. now apply endless. Qed.

Lemma interpreter_runs_on_witness :
  live (steps sample_table 1000 do_expression (entered sample_configuration program_heap [] (Pointer TC_COMMENT 9) SHARP_F SHARP_F SHARP_F SHARP_F)).
Proof. apply interpreter_runs_on; [vm_compute; reflexivity|]. intros fuel. induction fuel as [|fuel IH]; [reflexivity|exact IH]. Defined.
