(* ===== verification/HookCalls.v ===== *)
(** * Calls of the primitives of hooks.c

    The stack and the registers with which such a primitive starts, and the
    outcomes of a call that signals. *)

From Stdlib Require Import ZArith List Bool Lia.
From S2P Require Import Prelude Object Heap HeapPrim Intern Environment Lookup ListPrim History VectorPrim HeapCalls Machine Interpret Hooks Evaluate Simulation Interpreting.
Import ListNotations.

#[local] Open Scope Z_scope.

(** The state after a few instructions of a primitive. *)
Ltac hook_code := cbv [hthen in_microcode hreturn hexit signals_hook PUSH POP_PRIMITIVE_FRAME apply_to_pushed assert_that]; microcode.

(** The frame of an application. *)
Definition application_frame (f : object) (xs : list object) : list object := MAKE_OBJECT 0 (zlength xs + 1) :: f :: xs.

(** The stack from which an interrupted call of a primitive starts again. *)
Definition backed_out (primitive : object) (xs : list object) : list object :=
  MAKE_RETURN_CODE RC_INTERNAL_APPLY :: SHARP_F :: application_frame primitive xs.

(** The machine in which the code of a primitive starts. *)
Definition in_primitive (primitive : object) (arguments : list object) (m : machine) : machine :=
  with_EXP primitive (with_stack arguments m).

Lemma frame_header n : 0 <= n < 2 ^ 57 -> OBJECT_DATUM (MAKE_OBJECT 0 (n + 1)) = Return (n + 1).
Proof. intros H. apply datum_of; lia. Qed.

(** A list of a known length. *)
Lemma length_2 {A} (l : list A) : length l = 2%nat -> exists a b, l = [a; b].
Proof. destruct l as [|a [|b [|c l]]]; try discriminate. intros _. now exists a, b. Qed.

(** The word under the arguments of a primitive is a return code. *)
Definition return_code_on (s : list object) : bool := match s with o :: _ => RETURN_CODE_P o | [] => false end.

(** ** Runs of the code of a primitive *)

Lemma hthen_return {A B} (f : hook A) (k : A -> hook B) m a m' : f m = Return (inl a, m') -> hthen f k m = k a m'.
Proof. intros E. unfold hthen, mthen. now rewrite E. Qed.

Ltac run_hook E := erewrite hthen_return; [cbv beta|eapply E].
Ltac hook_gives a := rewrite (fun m E => hthen_return _ _ m a m E) by reflexivity; cbv beta.

Lemma in_microcode_return {A} (f : microcode A) m a m' : f m = Return (a, m') -> in_microcode f m = Return (inl a, m').
Proof. intros E. unfold in_microcode, mthen. now rewrite E. Qed.

Lemma Will_Push_ok k m : exists ic, Will_Push k m = Return (tt, with_interrupts ic (INT_MASK m) m).
Proof.
  unfold Will_Push, STACK_CHECK, mthen, GET. cbn [bind]. destruct (CAN_PUSH_P k m); [exists (INT_CODE m); now destruct m|eexists; reflexivity].
Qed.

Lemma save_history_ok rc d m : VECTOR_REF (fixed_objects m) DUMMY_HISTORY (memory m) = Return (d, memory m) ->
  exists ic, save_history rc m = Return (tt, Machine (memory m)
    (MAKE_RETURN_CODE rc :: HISTORY_POINTER (history_register m) :: ULONG_TO_FIXNUM (prev_restore_history_offset m) :: SHARP_F :: stack m) (stack_guard m)
    (HISTORY_POINTER (history_register m)) (ENV m) (VAL m) (MAKE_RETURN_CODE rc) ic (INT_MASK m) (HISTORY_POINTER d) (prev_restore_history_offset m) (fixed_objects m)).
Proof.
  intros D. destruct (Will_Push_ok (CONTINUATION_SIZE + 2) m) as [ic W]. exists ic. unfold save_history. unfold mthen at 1. rewrite W. cbn [bind].
  destruct m as [h s g e n v r ic0 im y o f]. cbn [memory fixed_objects] in D. unfold READ_DUMMY_HISTORY, FIXED_OBJECT. cbv [with_interrupts with_history]. microcode. now rewrite D.
Qed.

Lemma preserve_interrupt_mask_ok m : exists ic, preserve_interrupt_mask m = Return (tt, Machine (memory m)
    (MAKE_RETURN_CODE RC_RESTORE_INT_MASK :: ULONG_TO_FIXNUM (INT_MASK m) :: stack m) (stack_guard m) (ULONG_TO_FIXNUM (INT_MASK m)) (ENV m) (VAL m)
    (MAKE_RETURN_CODE RC_RESTORE_INT_MASK) ic (INT_MASK m) (history_register m) (prev_restore_history_offset m) (fixed_objects m)).
Proof.
  destruct (Will_Push_ok CONTINUATION_SIZE m) as [ic W]. exists ic. unfold preserve_interrupt_mask. unfold mthen at 1. rewrite W. now destruct m.
Qed.

(** What is called a primitive's context has the primitive and a return code. *)
Lemma canonicalize_ok m xs s : PRIMITIVE_P (EXP m) = true -> stack m = xs ++ s -> return_code_on s = true -> canonicalize_primitive_context (length xs) m = Return (inl tt, m).
Proof.
  intros P S R. destruct m as [h s0 g e n v r ic im y o f]. cbn [stack EXP] in *. subst s0. destruct s as [|rc s]; [discriminate|]. unfold canonicalize_primitive_context. hook_code. rewrite P.
  hook_code. unfold STACK_REF. cbn [stack]. rewrite nth_error_app2, Nat.sub_diag by lia. cbn [nth_error]. cbn [return_code_on] in R. now rewrite R.
Qed.

Lemma hook_is_primitive hooks o x : hook_of hooks o = Some x -> PRIMITIVE_P o = true.
Proof. unfold hook_of. now destruct (PRIMITIVE_P o). Qed.

(** ** Calls *)

Section Calls.

Context (table : Z -> option primitive_code) (hooks : Z -> option (option nat * (object -> Z -> hook object))).

(** What becomes of the result of a primitive. *)
Definition hook_result (primitive : object) (n_args : Z) (r : outcome ((object + hook_exit) * machine)) : outcome (label * machine) :=
  bind r (fun '(x, m) =>
    match x with
    | inl value => after_primitive primitive n_args (inl value) m
    | inr (hook_signal s) => after_primitive primitive n_args (inr s) m
    | inr (PRIMITIVE_ABORT l) => Return (l, m)
    end).

Lemma hook_called primitive n body xs s m : hook_of hooks primitive = Some (Some n, body) -> length xs = n -> zlength xs < 2 ^ 57 ->
  stack m = application_frame primitive xs ++ s ->
  hooked_step table hooks perform_application m =
  hook_result primitive (zlength xs) (body primitive (zlength xs) (in_primitive primitive (xs ++ s) m)).
Proof.
  intros H L B S. destruct m as [h s0 g e n0 v r ic im y o fo]. cbn [stack] in S. subst s0. unfold hooked_step, mthen.
  change (APPLY_FRAME_PROCEDURE ?m) with (Return (primitive, m)). cbn [bind]. rewrite H. unfold apply_hook_primitive, mthen.
  assert (N : forall m, stack m = application_frame primitive xs ++ s -> APPLY_FRAME_N_ARGS m = Return (zlength xs, m)).
  { intros [h1 s1 g1 e1 n1 v1 r1 ic1 im1 y1 o1 fo1] S. cbn [stack] in S. subst s1. cbv [APPLY_FRAME_N_ARGS mthen mpure APPLY_FRAME_HEADER_N_ARGS].
    change (STACK_REF 0 ?m) with (Return (MAKE_OBJECT 0 (zlength xs + 1), m)). cbn [bind]. rewrite frame_header by lia. cbn [bind]. do 2 f_equal. lia. }
  rewrite N by reflexivity. cbn [bind]. subst n. rewrite Z.eqb_refl. cbv [in_primitive with_EXP with_stack STACK_DROP SET_EXP UPDATE]. cbn -[after_primitive].
  unfold hook_result, bind. destruct (body _ _ _) as [[[value|[sg|l]] m]| | |]; reflexivity.
Qed.

(** A signal leaves a continuation that makes the call again. *)
Lemma signalled_error primitive xs s g code m : error_code_of g = Some code ->
  stack m = xs ++ s ->
  exists m', after_primitive primitive (zlength xs) (inr g) m = Return (micro_error code true, m') /\
    stack m' = backed_out primitive xs ++ s /\ memory m' = memory m /\ INT_MASK m' = INT_MASK m.
Proof.
  intros C S. unfold after_primitive, mthen. rewrite C. destruct m as [h s0 gd e n v r ic im y o fo]. cbn [stack] in S. subst s0.
  eexists. split; [reflexivity|]. repeat split.
Qed.

End Calls.

(** ** Sample primitives *)

Definition sample_hooks (n : Z) : option (option nat * (object -> Z -> hook object)) :=
  if n <? 200 then None else option_map snd (nth_error hook_primitives (Z.to_nat (n - 200))).

Definition APPLY_primitive : object := MAKE_OBJECT TC_PRIMITIVE 200.
Definition CATCH_primitive : object := MAKE_OBJECT TC_PRIMITIVE 201.
Definition REDUCED_primitive : object := MAKE_OBJECT TC_PRIMITIVE 215.

(** A call of [primitive] in the outermost computation. *)
Definition sample_call (h : heap) (primitive : object) (xs : list object) (mask : Z) (history_register fixed_objects : object) : machine :=
  Machine h (application_frame primitive xs ++ [MAKE_RETURN_CODE RC_END_OF_COMPUTATION; SHARP_F]) 100 SHARP_F SHARP_F SHARP_F SHARP_F 0 mask history_register 0 fixed_objects.
