(* ===== verification/ApplyList.v ===== *)
(** * The arguments of APPLY

    The primitive APPLY walks its list with two pointers, so that it ends also
    on a circular list, and then spreads the elements on the stack. *)

From Stdlib Require Import ZArith List Bool Lia ListDec.
From S2P Require Import Prelude Object Heap HeapPrim Intern Environment Lookup ListPrim VectorPrim HeapCalls Machine Interpret Hooks Evaluate Simulation Interpreting HookCalls.
Import ListNotations.

#[local] Open Scope Z_scope.

(** ** Lists, also circular and improper ones *)

(** The [k]-th tail; there is none beyond an object that is no pair. *)
Fixpoint tail (h : heap) (o : object) (k : nat) : option object :=
  match k with
  | O => Some o
  | S k => match tail h o k with
           | Some p => if PAIR_P p then match p with Pointer _ b => content h (b, 1%nat) | Immediate _ => None end else None
           | None => None
           end
  end.

(** The pairs that are met are pairs of the heap. *)
Definition pairs_in_heap (h : heap) (o : object) : Prop :=
  forall k p, tail h o k = Some p -> PAIR_P p = true -> exists b x d, p = Pointer TC_LIST b /\ content h (b, 0%nat) = Some x /\ content h (b, 1%nat) = Some d.

Inductive list_of (h : heap) : object -> list object -> Prop :=
| list_nil o : EMPTY_LIST_P o = true -> list_of h o []
| list_cons b x d xs : content h (b, 0%nat) = Some x -> content h (b, 1%nat) = Some d -> list_of h d xs -> list_of h (Pointer TC_LIST b) (x :: xs).

Definition pair_at (h : heap) (o : object) (k : nat) : Prop := exists p, tail h o k = Some p /\ PAIR_P p = true.

(** What the loop is to find out. *)
Definition counts (h : heap) (o : object) (r : counted) : Prop :=
  match r with
  | n_arguments n => exists xs, list_of h o xs /\ n = zlength xs
  | circular => forall k, pair_at h o k
  | improper => exists k p, tail h o k = Some p /\ PAIR_P p = false /\ EMPTY_LIST_P p = false
  end.

(** The answer is determined. *)
Definition stops (h : heap) (o : object) (k : nat) (p : object) : Prop := tail h o k = Some p /\ PAIR_P p = false.

Lemma tail_after_stop h o k p j : stops h o k p -> (k < j)%nat -> tail h o j = None.
Proof. intros [E P] L. induction L as [|j L IH]; cbn [tail]; [now rewrite E, P|now rewrite IH]. Qed.

Lemma stops_once h o j p k q : stops h o j p -> stops h o k q -> j = k /\ p = q.
Proof.
  intros A B. destruct (Nat.lt_trichotomy j k) as [L|[->|L]].
  - pose proof (tail_after_stop h o j p k A L). destruct B. congruence.
  - destruct A, B. split; congruence.
  - pose proof (tail_after_stop h o k q j B L). destruct A. congruence.
Qed.

Lemma tail_of_pair h b d k : content h (b, 1%nat) = Some d -> tail h (Pointer TC_LIST b) (S k) = tail h d k.
Proof. intros E. induction k as [|k IH]; [exact E|]. change (tail h (Pointer TC_LIST b) (S (S k)) = tail h d (S k)). cbn [tail] in *. now rewrite IH. Qed.

Lemma empty_list_no_pair o : EMPTY_LIST_P o = true -> PAIR_P o = false.
Proof. unfold EMPTY_LIST_P. destruct (object_eqb_spec o EMPTY_LIST) as [->|]; [reflexivity|discriminate]. Qed.

Lemma list_of_stops h o xs : list_of h o xs -> exists p, stops h o (length xs) p /\ EMPTY_LIST_P p = true.
Proof.
  intros L. induction L as [o E|b x d xs Ex Ed L (p & [T P] & E)].
  - exists o. split; [split; [reflexivity|now apply empty_list_no_pair]|exact E].
  - exists p. split; [split; [|exact P]|exact E]. cbn [length]. now rewrite tail_of_pair with (d := d).
Qed.

Lemma counts_unique h o r1 r2 : counts h o r1 -> counts h o r2 -> r1 = r2.
Proof.
  assert (N : forall n, counts h o (n_arguments n) -> exists k p, stops h o k p /\ EMPTY_LIST_P p = true /\ n = Z.of_nat k).
  { intros n (xs & L & ->). destruct (list_of_stops h o xs L) as (p & S & E). eauto. }
  assert (C : counts h o circular -> forall k p, ~ stops h o k p) by (intros C k p [T P]; destruct (C k) as (q & Tq & Pq); congruence).
  intros A B. destruct r1 as [n1| |], r2 as [n2| |]; try reflexivity.
  - destruct (N _ A) as (k1 & p1 & S1 & _ & ->), (N _ B) as (k2 & p2 & S2 & _ & ->). now destruct (stops_once h o k1 p1 k2 p2 S1 S2) as [-> _].
  - destruct (N _ A) as (k & p & S & _). now destruct (C B k p).
  - destruct (N _ A) as (k & p & S & E & _), B as (k2 & p2 & T2 & P2 & E2). destruct (stops_once h o k p k2 p2 S (conj T2 P2)) as [_ ->]. congruence.
  - destruct (N _ B) as (k & p & S & _). now destruct (C A k p).
  - destruct B as (k & p & T & P & _). now destruct (C A k p (conj T P)).
  - destruct (N _ B) as (k & p & S & E & _), A as (k2 & p2 & T2 & P2 & E2). destruct (stops_once h o k p k2 p2 S (conj T2 P2)) as [_ ->]. congruence.
  - destruct A as (k & p & T & P & _). now destruct (C B k p (conj T P)).
Qed.

Section Walk.

Context (h : heap) (o : object).
Hypothesis pairs : pairs_in_heap h o.

Lemma tail_pair k : pair_at h o k -> exists b x d, tail h o k = Some (Pointer TC_LIST b) /\ content h (b, 0%nat) = Some x /\ content h (b, 1%nat) = Some d /\ tail h o (S k) = Some d.
Proof.
  intros (p & E & P). destruct (pairs k p E P) as (b & x & d & -> & Ex & Ed). exists b, x, d. cbn [tail]. rewrite E. change (PAIR_P (Pointer TC_LIST b)) with true. auto.
Qed.

Lemma tail_periodic a b k : tail h o a = tail h o b -> tail h o (a + k) = tail h o (b + k).
Proof. intros E. induction k as [|k IH]; [now rewrite !Nat.add_0_r|]. rewrite !Nat.add_succ_r. cbn [tail]. now rewrite IH. Qed.

Lemma meeting_circular a b : tail h o a = tail h o b -> (a < b)%nat -> (forall k, (k < b)%nat -> pair_at h o k) -> forall k, pair_at h o k.
Proof.
  intros E L P k. induction k as [k IH] using lt_wf_ind. destruct (Nat.lt_ge_cases k b) as [H|H]; [now apply P|].
  destruct (IH (a + (k - b))%nat ltac:(lia)) as (p & Ep & Q). exists p. split; [|exact Q]. rewrite <- Ep. replace k with (b + (k - b))%nat at 1 by lia.
  symmetry. now apply tail_periodic.
Qed.

Lemma tail_multiple a l q j : tail h o a = tail h o (a + l) -> (a <= j)%nat -> tail h o (j + q * l) = tail h o j.
Proof.
  intros E L. induction q as [|q IH]; [f_equal; lia|]. rewrite <- IH. pose proof (tail_periodic a (a + l) (j - a + q * l) E) as H.
  replace (a + (j - a + q * l))%nat with (j + q * l)%nat in H by lia. rewrite H. f_equal. lia.
Qed.

(** More pairs than blocks: one of them is met twice. *)
Lemma repeated_tail : (forall k, (k <= length (blocks h))%nat -> pair_at h o k) ->
  exists a b, (a < b <= length (blocks h))%nat /\ tail h o a = tail h o b.
Proof.
  intros P. set (n := length (blocks h)). set (f := fun k => match tail h o k with Some (Pointer _ b) => b | _ => n end).
  assert (F : forall k, (k <= n)%nat -> (f k < n)%nat /\ tail h o k = Some (Pointer TC_LIST (f k))).
  { intros k K. destruct (tail_pair k (P k K)) as (b & x & d & E & Ex & _ & _). unfold f. rewrite E. split; [|reflexivity].
    unfold content, block_of in Ex. destruct (nth_error (blocks h) (fst (b, 0%nat))) eqn:Eb; [|discriminate]. apply nth_error_Some. cbn [fst] in Eb. congruence. }
  assert (D : ~ NoDup (map f (seq 0 (S n)))).
  { intros D. pose proof (NoDup_incl_length D (l' := seq 0 n)) as H. rewrite length_map, !length_seq in H. enough (S n <= n)%nat by lia. apply H.
    intros y Y. apply in_map_iff in Y as (k & <- & K). apply in_seq in K. apply in_seq. specialize (F k). lia. }
  destruct (not_NoDup Nat.eq_decidable D) as (y & l1 & l2 & l3 & E).
  assert (Nth : forall k v, nth_error (map f (seq 0 (S n))) k = Some v -> (k <= n)%nat /\ v = f k).
  { intros k v H. rewrite nth_error_map in H. destruct (nth_error (seq 0 (S n)) k) as [i|] eqn:Ei; [|discriminate]. injection H as <-.
    assert (K : (k < length (seq 0 (S n)))%nat) by (apply nth_error_Some; congruence). rewrite length_seq in K.
    rewrite nth_error_seq in Ei. destruct (k <? S n)%nat; [|discriminate]. injection Ei as <-. split; [lia|reflexivity]. }
  exists (length l1), (length l1 + S (length l2))%nat.
  destruct (Nth (length l1) y) as [A1 A2]. { rewrite E, nth_error_app2, Nat.sub_diag by lia. reflexivity. }
  destruct (Nth (length l1 + S (length l2))%nat y) as [B1 B2].
  { rewrite E, nth_error_app2 by lia. replace (length l1 + S (length l2) - length l1)%nat with (S (length l2)) by lia. cbn [nth_error].
    rewrite nth_error_app2, Nat.sub_diag by lia. reflexivity. }
  split; [lia|]. destruct (F _ A1) as [_ ->], (F _ B1) as [_ ->]. congruence.
Qed.

(** Then the two pointers have met before. *)
Lemma pointers_meet : (forall k, (k <= length (blocks h))%nat -> pair_at h o k) ->
  exists j, (j < length (blocks h))%nat /\ tail h o (2 * j + 1) = tail h o j.
Proof.
  intros P. destruct (repeated_tail P) as (a & b & L & E). set (l := (b - a)%nat). assert (Hl : (0 < l)%nat) by (unfold l; lia).
  replace b with (a + l)%nat in E by (unfold l; lia).
  set (q := ((a + l) / l)%nat). pose proof (Nat.div_mod_eq (a + l) l) as D. pose proof (Nat.mod_upper_bound (a + l) l ltac:(lia)) as M. fold q in D.
  exists (q * l - 1)%nat. assert (a < q * l <= a + l)%nat by lia. split; [unfold l in *; lia|].
  replace (2 * (q * l - 1) + 1)%nat with ((q * l - 1) + q * l)%nat by lia. apply tail_multiple with a; [exact E|lia].
Qed.

(** ** The walk *)

Lemma proper_list k p : tail h o k = Some p -> EMPTY_LIST_P p = true -> (forall j, (j < k)%nat -> pair_at h o j) ->
  exists xs, list_of h o xs /\ zlength xs = Z.of_nat k.
Proof.
  intros E Ep P. assert (H : forall j q, (j <= k)%nat -> tail h o (k - j) = Some q -> exists xs, list_of h q xs /\ length xs = j).
  { induction j as [|j IH]; intros q L Eq.
    - rewrite Nat.sub_0_r in Eq. assert (q = p) as -> by congruence. exists []. split; [now constructor|reflexivity].
    - destruct (tail_pair (k - S j) (P (k - S j)%nat ltac:(lia))) as (b & x & d & Eb & Ex & Ed & Et). rewrite Eb in Eq. injection Eq as <-.
      replace (S (k - S j)) with (k - j)%nat in Et by lia. destruct (IH d ltac:(lia) Et) as (xs & Lx & Hx). exists (x :: xs). split; [now apply list_cons with d|cbn; lia]. }
  destruct (H k o (le_n k)) as (xs & Lx & Hx); [now rewrite Nat.sub_diag|]. exists xs. split; [exact Lx|lia].
Qed.

Lemma end_of_list_counts k p : tail h o k = Some p -> PAIR_P p = false -> (forall j, (j < k)%nat -> pair_at h o j) -> counts h o (end_of_list p (Z.of_nat k)).
Proof.
  intros E N P. unfold end_of_list. destruct (EMPTY_LIST_P p) eqn:Ep.
  - destruct (proper_list k p E Ep P) as (xs & L & Hn). exists xs. now split.
  - exists k, p. now split.
Qed.

Lemma count_step fuel i p1 p2 : (i + fuel = S (length (blocks h)))%nat -> tail h o (2 * i) = Some p1 -> tail h o i = Some p2 ->
  (forall k, (k < 2 * i)%nat -> pair_at h o k) -> (forall j, (j < i)%nat -> tail h o (2 * j + 1) <> tail h o j) ->
  exists r, count_arguments fuel p1 p2 (Z.of_nat (2 * i)) h = Return (r, h) /\ counts h o r.
Proof.
  revert i p1 p2. induction fuel as [|fuel IH]; intros i p1 p2 F E1 E2 P N.
  - exfalso. destruct pointers_meet as (j & Lj & Ej); [intros k K; apply P; lia|]. apply (N j); [lia|exact Ej].
  - cbn [count_arguments]. destruct (PAIR_P p1) eqn:Q1; cbn [negb].
    2:{ eexists. split; [reflexivity|]. now apply end_of_list_counts. }
    assert (P1 : pair_at h o (2 * i)) by now exists p1. destruct (tail_pair _ P1) as (b & x & d & Eb & _ & Ed & Et).
    rewrite E1 in Eb. injection Eb as ->. unfold PAIR_CDR. run MEMORY_REF_ok; [|exact Ed].
    assert (P2 : forall k, (k < S (2 * i))%nat -> pair_at h o k) by (intros k K; destruct (Nat.eq_dec k (2 * i)) as [->|]; [exact P1|apply P; lia]).
    destruct (object_eqb_spec d p2) as [->|D1].
    { exists circular. split; [reflexivity|]. intros k. apply (meeting_circular i (S (2 * i))); [congruence|lia|exact P2]. }
    replace (Z.of_nat (2 * i) + 1) with (Z.of_nat (S (2 * i))) by lia. destruct (PAIR_P d) eqn:Q2; cbn [negb].
    2:{ eexists. split; [reflexivity|]. now apply end_of_list_counts. }
    assert (P3 : pair_at h o (S (2 * i))) by now exists d. destruct (tail_pair _ P3) as (b2 & x2 & d2 & Eb2 & _ & Ed2 & Et2).
    rewrite Et in Eb2. injection Eb2 as ->. run MEMORY_REF_ok; [|exact Ed2].
    assert (P4 : forall k, (k < S (S (2 * i)))%nat -> pair_at h o k) by (intros k K; destruct (Nat.eq_dec k (S (2 * i))) as [->|]; [exact P3|apply P2; lia]).
    destruct (object_eqb_spec d2 p2) as [->|D2].
    { exists circular. split; [reflexivity|]. intros k. apply (meeting_circular i (S (S (2 * i)))); [congruence|lia|exact P4]. }
    replace (Z.of_nat (S (2 * i)) + 1) with (Z.of_nat (2 * S i)) by lia. destruct (PAIR_P d2) eqn:Q3; cbn [negb].
    2:{ eexists. split; [reflexivity|]. replace (2 * S i)%nat with (S (S (2 * i))) by lia. now apply end_of_list_counts. }
    destruct (tail_pair i (P4 i ltac:(lia))) as (b3 & x3 & d3 & Eb3 & _ & Ed3 & Et3). rewrite E2 in Eb3. injection Eb3 as ->. run MEMORY_REF_ok; [|exact Ed3].
    apply IH; [lia|replace (2 * S i)%nat with (S (S (2 * i))) by lia; exact Et2|exact Et3|intros k K; apply P4; lia|].
    intros j J. destruct (Nat.eq_dec j i) as [->|]; [|apply N; lia]. replace (2 * i + 1)%nat with (S (2 * i)) by lia. rewrite Et, E2. congruence.
Qed.

Lemma count_arguments_ok : exists r, count_arguments (S (length (blocks h))) o o 0 h = Return (r, h) /\ counts h o r.
Proof. apply (count_step (S (length (blocks h))) 0 o o); [reflexivity|reflexivity|reflexivity|lia|lia]. Qed.

End Walk.

Lemma spread_elements_ok h o xs : list_of h o xs -> list_elements (length xs) o h = Return (xs, h).
Proof.
  intros L. induction L as [|b x d xs Ex Ed L IH]; [reflexivity|]. cbn [length list_elements]. unfold PAIR_CAR, PAIR_CDR.
  run MEMORY_REF_ok; [|exact Ex]. run MEMORY_REF_ok; [|exact Ed]. now rewrite (andthen_return _ _ _ _ _ IH).
Qed.

(** ** The call *)

Lemma Prim_apply_ok m f args s : stack m = f :: args :: s -> return_code_on s = true -> pairs_in_heap (memory m) args ->
  exists r, counts (memory m) args r /\
    match r with
    | circular => Prim_apply m = Return (inr (hook_signal (bad_range_arg 2)), m)
    | improper => Prim_apply m = Return (inr (hook_signal (wrong_type_arg 2)), m)
    | n_arguments n =>
        exists xs, list_of (memory m) args xs /\ zlength xs = n /\
          Prim_apply m = Return (inr (if CAN_PUSH_P (n + 2) m then PRIMITIVE_ABORT internal_apply else hook_signal (bad_range_arg 2)),
                                 if CAN_PUSH_P (n + 2) m then with_stack (application_frame f xs ++ s) m else m)
    end.
Proof.
  intros S Rc P. destruct (count_arguments_ok (memory m) args P) as (r & E & C). exists r. split; [exact C|].
  destruct m as [h s0 g e n0 v rt ic im y o fo]. cbn [stack memory] in *. subst s0.
  unfold Prim_apply, ARG_REF. hook_code. cbn -[count_arguments CAN_PUSH_P]. rewrite E.
  destruct r as [n| |]; [|reflexivity|reflexivity]. destruct C as (xs & L & ->). exists xs. split; [exact L|]. split; [reflexivity|].
  cbv [with_memory]. cbn -[CAN_PUSH_P list_elements]. destruct (CAN_PUSH_P (zlength xs + 2) _) eqn:Room; [|reflexivity].
  cbn -[list_elements]. rewrite Nat2Z.id, (spread_elements_ok h args xs L). cbn -[STACK_REF].
  destruct s as [|rc s]; [discriminate|]. unfold STACK_REF. cbn [stack]. rewrite nth_error_app2, Nat.sub_diag by lia. cbn. cbn in Rc. rewrite Rc. reflexivity.
Qed.

Definition ERR_ARG_2_WRONG_TYPE : Z := 0x0E.
Definition ERR_ARG_2_BAD_RANGE : Z := 0x11.

(** What a call of APPLY comes to. *)
Definition apply_outcome (primitive f args : object) (s : list object) (m : machine) (r : counted) (l : label) (s1 : list object) : Prop :=
  let refused code := l = micro_error code true /\ s1 = backed_out primitive [f; args] ++ s in
  match r with
  | circular => refused ERR_ARG_2_BAD_RANGE
  | improper => refused ERR_ARG_2_WRONG_TYPE
  | n_arguments n =>
      if zlength s + n + 4 <=? stack_guard m then l = internal_apply /\ exists xs, list_of (memory m) args xs /\ s1 = application_frame f xs ++ s
      else refused ERR_ARG_2_BAD_RANGE
  end.

Lemma apply_called table hooks primitive f args s m : hook_of hooks primitive = Some (Some 2%nat, fun _ _ => Prim_apply) ->
  stack m = application_frame primitive [f; args] ++ s -> return_code_on s = true -> pairs_in_heap (memory m) args ->
  exists r l m1, counts (memory m) args r /\ hooked_step table hooks perform_application m = Return (l, m1) /\ memory m1 = memory m /\ INT_MASK m1 = INT_MASK m /\
    apply_outcome primitive f args s m r l (stack m1).
Proof.
  intros H S Rc P. rewrite (hook_called table hooks primitive 2 _ [f; args] s m H eq_refl) by (exact S || reflexivity).
  set (m0 := in_primitive primitive ([f; args] ++ s) m). destruct (Prim_apply_ok m0 f args s eq_refl Rc P) as (r & C & E). exists r.
  assert (Sg : forall g code, error_code_of g = Some code -> Prim_apply m0 = Return (inr (hook_signal g), m0) ->
    exists l m1, hook_result primitive 2 (Prim_apply m0) = Return (l, m1) /\ memory m1 = memory m /\ INT_MASK m1 = INT_MASK m /\
      l = micro_error code true /\ stack m1 = backed_out primitive [f; args] ++ s).
  { intros g code G E1. destruct (signalled_error primitive [f; args] s g code m0 G eq_refl) as (m' & A & S' & M & I). rewrite E1. cbn [hook_result bind].
    exists (micro_error code true), m'. auto. }
  destruct r as [n| |].
  - destruct E as (xs & L & <- & E). unfold apply_outcome. change (CAN_PUSH_P (zlength xs + 2) m0) with (zlength (f :: args :: s) + (zlength xs + 2) <=? stack_guard m) in E.
    replace (zlength (f :: args :: s) + (zlength xs + 2)) with (zlength s + zlength xs + 4) in E by (cbn [length]; lia).
    destruct (zlength s + zlength xs + 4 <=? stack_guard m).
    + do 2 eexists. split; [exact C|]. split; [rewrite E; reflexivity|]. repeat split. now exists xs.
    + destruct (Sg (bad_range_arg 2) ERR_ARG_2_BAD_RANGE eq_refl E) as (l & m1 & K). exists l, m1. split; [exact C|exact K].
  - destruct (Sg (bad_range_arg 2) ERR_ARG_2_BAD_RANGE eq_refl E) as (l & m1 & K). exists l, m1. split; [exact C|exact K].
  - destruct (Sg (wrong_type_arg 2) ERR_ARG_2_WRONG_TYPE eq_refl E) as (l & m1 & K). exists l, m1. split; [exact C|exact K].
Qed.

(** APPLY on a list that is its own tail. *)
Definition circular_call : machine :=
  sample_call (Heap [ [SHARP_T; Pointer TC_LIST 0] ] 1000 true None SHARP_F SHARP_F) APPLY_primitive [SHARP_T; Pointer TC_LIST 0] 0xF SHARP_F SHARP_F.

(** ** Properties *)

(** C13: APPLY decides with its two pointers whether its list is proper, improper or circular, for a
    circular list too in finitely many turns; it goes on to apply the procedure to exactly the elements
    of a proper list that fits on the stack, in their order, and otherwise signals the error of its
    second argument with the call backed out on the stack and nothing else changed. *)
Theorem apply_spreads_list table hooks primitive f args s m : hook_of hooks primitive = Some (Some 2%nat, fun _ _ => Prim_apply) ->
  stack m = application_frame primitive [f; args] ++ s -> return_code_on s = true -> pairs_in_heap (memory m) args ->
  exists r l m1, counts (memory m) args r /\ (forall r', counts (memory m) args r' -> r' = r) /\
    hooked_step table hooks perform_application m = Return (l, m1) /\ memory m1 = memory m /\ INT_MASK m1 = INT_MASK m /\ apply_outcome primitive f args s m r l (stack m1).
Proof.
  intros H S R P. destruct (apply_called table hooks primitive f args s m H S R P) as (r & l & m1 & C & K). exists r, l, m1. split; [exact C|].
  split; [|exact K]. intros r' C'. now apply counts_unique with (memory m) args.
Qed.

Lemma apply_spreads_list_witness :
  exists m1, hooked_step sample_table sample_hooks perform_application circular_call = Return (micro_error ERR_ARG_2_BAD_RANGE true, m1) /\
    stack m1 = backed_out APPLY_primitive [SHARP_T; Pointer TC_LIST 0] ++ [MAKE_RETURN_CODE RC_END_OF_COMPUTATION; SHARP_F].
Proof.
  assert (T : forall k, tail (memory circular_call) (Pointer TC_LIST 0) k = Some (Pointer TC_LIST 0)) by (induction k as [|k IH]; [reflexivity|]; cbn [tail]; rewrite IH; reflexivity).
  destruct (apply_spreads_list sample_table sample_hooks APPLY_primitive SHARP_T (Pointer TC_LIST 0) [MAKE_RETURN_CODE RC_END_OF_COMPUTATION; SHARP_F] circular_call) as (r & l & m1 & _ & U & E & _ & _ & K);
    [reflexivity|reflexivity|reflexivity| |].
  - intros k p E _. rewrite T in E. injection E as <-. exists 0%nat, SHARP_T, (Pointer TC_LIST 0). repeat split.
  - rewrite <- (U circular) in K by (intros k; exists (Pointer TC_LIST 0); split; [apply T|reflexivity]). destruct K as [-> S]. exists m1. split; [exact E|exact S].
Defined.
