(* ===== verification/Continuations.v ===== *)
(** * Continuations

    What CALL-WITH-CURRENT-CONTINUATION saves is what a return to it, or an
    application of the control point, restores: the stack, the interrupt mask
    and a copy of the history. *)

From Stdlib Require Import ZArith List Bool Lia.
From S2P Require Import Prelude Object Heap HeapPrim Intern Environment Lookup ListPrim History VectorPrim HeapCalls Machine Interpret Hooks Evaluate Simulation Interpreting HookCalls.
Import ListNotations.

#[local] Open Scope Z_scope.

(** ** Restoring a control point *)

(** The stack that a control point holds for a call of the machine [m] on the stack [s]. *)
Definition captured (m : machine) (s : list object) : list object :=
  MAKE_RETURN_CODE RC_RESTORE_INT_MASK :: ULONG_TO_FIXNUM (INT_MASK m) ::
  MAKE_RETURN_CODE RC_RESTORE_HISTORY :: HISTORY_POINTER (history_register m) ::
  ULONG_TO_FIXNUM (prev_restore_history_offset m) :: SHARP_F :: s.

(** The history saved before the one restored will be copied as well. *)
Definition relinked (offset : Z) (s : list object) : list object :=
  if 0 <? offset then update (Z.to_nat (zlength s - offset)) (MAKE_RETURN_CODE RC_RESTORE_HISTORY) s else s.

(** The history of [m] is a ring, in the heap [h] as well, and there is room for its copy. *)
Definition history_kept (m : machine) (vs : list vertebra) (h : heap) : Prop :=
  History.history h (HISTORY_POINTER (history_register m)) vs /\
  3 * (1 + Z.of_nat (history_size vs)) <= SPACE_BEFORE_GC (heap_under (INT_MASK m) h).

(** The machine [m3] goes on as [m] would on the stack [s], in the heap of [m2]. *)
Definition reinstated (m : machine) (s : list object) (vs : list vertebra) (m2 m3 : machine) : Prop :=
  stack m3 = relinked (prev_restore_history_offset m) s /\ INT_MASK m3 = INT_MASK m /\
  prev_restore_history_offset m3 = prev_restore_history_offset m /\
  exists bs, memory m3 = copying (heap_under (INT_MASK m) (memory m2)) bs /\
    History.history (memory m3) (history_register m3) (moved_vertebrae (length (blocks (memory m2))) vs).

Lemma history_same_blocks h h' o vs : blocks h' = blocks h -> History.history h o vs -> History.history h' o vs.
Proof.
  intros B (t & v & rest & E & Eo & Nd & V). exists t, v, rest. repeat split; auto.
  assert (Bl : forall b, block_of h' b = block_of h b) by (intros b; unfold block_of; now rewrite B).
  assert (R : forall first rs, ribs_linked h first rs -> ribs_linked h' first rs).
  { intros first rs. induction rs as [|x rs IH]; [auto|]. intros [Ex Rx]. split; [now rewrite Bl|auto]. }
  clear E Eo Nd. revert V. generalize (last_block 0 vs) at 1 2. induction vs as [|x vs IH]; [auto|]. intros pb [(r & rs & Er & Eb & Rr & Nd) V]. split; [|now apply IH].
  exists r, rs. rewrite Bl. auto.
Qed.

Lemma history_retyped h o vs : History.history h o vs -> History.history h (HISTORY_POINTER o) vs.
Proof. intros (t & v & rest & E & -> & Nd & V). exists UNMARKED_HISTORY_TYPE, v, rest. now repeat split. Qed.

Lemma relinked_step offset s m : 0 <= offset <= zlength s -> stack m = s ->
  (if 0 <? offset then SET_STACK_BOTTOM_REF offset (MAKE_RETURN_CODE RC_RESTORE_HISTORY) else fun m => Return (tt, m)) m = Return (tt, with_stack (relinked offset s) m).
Proof.
  intros B S. unfold relinked. destruct (Z.ltb_spec 0 offset).
  - unfold SET_STACK_BOTTOM_REF, SET_STACK_REF. rewrite S. destruct (Z.ltb_spec 0 offset), (Z.leb_spec offset (zlength s)); try lia. cbn [andb].
    destruct (Nat.ltb_spec (Z.to_nat (zlength s - offset)) (length s)); [reflexivity|lia].
  - subst s. now destruct m.
Qed.

Section WithTable.

Context (table : Z -> option primitive_code) (hooks : Z -> option (option nat * (object -> Z -> hook object))).

Lemma restore_history_copy_step offset hist x s m vs : 0 <= offset < 2 ^ 58 -> offset <= zlength s ->
  stack m = MAKE_RETURN_CODE RC_RESTORE_HISTORY :: hist :: ULONG_TO_FIXNUM offset :: x :: s ->
  History.history (memory m) hist vs -> 3 * (1 + Z.of_nat (history_size vs)) <= SPACE_BEFORE_GC (memory m) ->
  exists m' bs, step table pop_return m = Return (pop_return, m') /\ stack m' = relinked offset s /\ VAL m' = VAL m /\ INT_MASK m' = INT_MASK m /\
    prev_restore_history_offset m' = offset /\ memory m' = copying (memory m) bs /\
    History.history (memory m') (history_register m') (moved_vertebrae (length (blocks (memory m))) vs).
Proof.
  intros R L S Hi Sp. popped_step S. change (dispatch_return RC_RESTORE_HISTORY) with (fun m => return_restore_history_copy m).
  pose proof (copy_history_ok _ _ _ Hi) as C. destruct (Z.leb_spec (3 * (1 + Z.of_nat (history_size vs))) (SPACE_BEFORE_GC (memory m))); [|lia].
  destruct C as (t & bs & C & _ & Hn). destruct m as [h s0 g e n0 v r ic im y o f]. cbn [stack memory VAL INT_MASK] in *. subst s0.
  exists (Machine (copying h bs) (relinked offset s) g hist n0 v (MAKE_RETURN_CODE RC_RESTORE_HISTORY) ic im (Pointer UNMARKED_HISTORY_TYPE (length (blocks h))) offset f), bs.
  split; [|cbn [stack VAL INT_MASK prev_restore_history_offset memory history_register]; repeat split; auto; exact (history_retyped _ _ _ Hn)].
  unfold return_restore_history_copy, popped. microcode. rewrite C. cbv [with_history HISTORY_POINTER]. microcode.
  change (object_eqb (Pointer t _) SHARP_F) with false. cbv iota. microcode. rewrite ulong_datum by exact R.
  rewrite (relinked_step offset s) by (try reflexivity; lia). reflexivity.
Qed.

(** The two frames that were pushed over the stack. *)
Lemma captured_resumes m s vs m2 : registers_ok m -> prev_restore_history_offset m <= zlength s -> history_kept m vs (memory m2) ->
  quiet (INT_MASK m) m2 -> stack m2 = captured m s ->
  exists m3, hooked_steps table hooks 2 pop_return m2 = Return (pop_return, m3) /\ VAL m3 = VAL m2 /\ reinstated m s vs m2 m3.
Proof.
  intros [IM IO] L [Hi Sp] Q S. cbn [hooked_steps hooked_step]. unfold mthen. rewrite (restore_int_mask_step table (INT_MASK m) _ _ ltac:(lia) Q S). cbn [bind].
  set (m1 := with_interrupts _ _ _).
  destruct (restore_history_copy_step (prev_restore_history_offset m) (HISTORY_POINTER (history_register m)) SHARP_F s m1 vs) as (m3 & bs & E & S3 & V3 & I3 & O3 & M3 & H3);
    [exact IO|exact L|reflexivity|now apply history_same_blocks with (memory m2)|exact Sp|].
  change (hooked_step table hooks pop_return m1) with (step table pop_return m1). rewrite E. exists m3. split; [reflexivity|]. split; [now rewrite V3|]. split; [exact S3|]. split; [now rewrite I3|]. split; [exact O3|]. exists bs. split; [exact M3|exact H3].
Qed.

(** ** Taking a control point apart *)

(** The control point in block [b] holds the stack [words]. *)
Definition holds_stack (h : heap) (b : nat) (words : list object) : Prop := block_of h b = Some (control_point_words (zlength words) words).

Lemma vector_words_ok h t b pre words : block_of h b = Some (pre ++ words) -> forall i n, (S i = length pre)%nat -> n = length words ->
  vector_words (Pointer t b) i n h = Return (words, h).
Proof.
  revert pre. induction words as [|w words IH]; intros pre B i n L ->; [reflexivity|]. cbn [length vector_words]. unfold VECTOR_REF.
  run MEMORY_REF_ok. 2:{ unfold content. cbn [fst snd]. rewrite B, nth_error_app2 by lia. replace (i + 1 - length pre)%nat with 0%nat by lia. reflexivity. }
  run (IH (pre ++ [w])); [reflexivity|now rewrite <- app_assoc|rewrite length_app; cbn [length]; lia|reflexivity].
Qed.

Lemma unpack_control_point_ok t b words m : holds_stack (memory m) b words -> zlength words < 2 ^ 57 -> zlength words <= stack_guard m ->
  unpack_control_point (Pointer t b) m = Return (tt, with_interrupts (Z.ldiff (INT_CODE m) INT_Stack_Overflow) (INT_MASK m) (with_stack words m)).
Proof.
  intros B W G. destruct m as [h s g e n v r ic im y o f]. cbn [memory stack_guard] in *.
  assert (L : VECTOR_LENGTH (Pointer t b) h = Return (zlength words + 2, h)).
  { unfold VECTOR_LENGTH. run MEMORY_REF_ok; [|unfold content; cbn [fst]; now rewrite B]. unfold pure. rewrite datum_of; [reflexivity|split; vm_compute; congruence|lia]. }
  unfold unpack_control_point, CLEAR_INTERRUPT, STACK_CHECK. cbv [with_interrupts]. microcode. rewrite L. microcode.
  replace (zlength words + 2 - 2) with (zlength words) by lia. change (CAN_PUSH_P (zlength words) ?m) with (zlength words <=? g). rewrite (proj2 (Z.leb_le _ _) G).
  microcode. rewrite Nat2Z.id. rewrite (vector_words_ok h t b [_; _; _] words B 2) by reflexivity. reflexivity.
Qed.

Lemma quiet_cleared mask code m : quiet mask m -> quiet mask (with_interrupts (Z.ldiff (INT_CODE m) code) (INT_MASK m) m).
Proof.
  intros [G Q]. split; [exact G|]. apply Z.bits_inj'. intros i I. apply (f_equal (fun z => Z.testbit z i)) in Q. revert Q. unfold GET_INT_CODE. cbn [memory INT_CODE with_interrupts].
  destruct (gc_space_needed (memory m)); rewrite ?Z.land_spec, ?Z.lor_spec, ?Z.ldiff_spec, ?Z.land_spec, ?Z.lor_spec, Z.bits_0;
    destruct (Z.testbit mask i), (Z.testbit (INT_CODE m) i), (Z.testbit code i), (Z.testbit INT_GC i); auto.
Qed.

(** The history that a computation starts with. *)
Definition dummy_history (m : machine) : Prop :=
  VECTOR_P (fixed_objects m) = true /\ exists d, VECTOR_REF (fixed_objects m) DUMMY_HISTORY (memory m) = Return (d, memory m) /\ d <> SHARP_F.

(** A control point is entered by a return to it, or by its application to a value. *)
Inductive entry (cp value : object) : label -> machine -> Prop :=
| returned_to m s : stack m = MAKE_RETURN_CODE RC_JOIN_STACKLETS :: cp :: s -> VAL m = value -> entry cp value pop_return m
| applied m s : stack m = application_frame cp [value] ++ s -> dummy_history m -> entry cp value perform_application m.

(** Both replace the stack. *)
Lemma control_point_entered b value words l m : entry (Pointer TC_CONTROL_POINT b) value l m -> holds_stack (memory m) b words ->
  zlength words < 2 ^ 57 -> zlength words <= stack_guard m ->
  exists m', hooked_step table hooks l m = Return (pop_return, m') /\ stack m' = words /\ VAL m' = value /\ memory m' = memory m /\ INT_MASK m' = INT_MASK m /\
    INT_CODE m' = Z.ldiff (INT_CODE m) INT_Stack_Overflow.
Proof.
  intros En B W G. destruct En as [m s S V|m s S [F (d & D & N)]].
  - cbn [hooked_step]. popped_step S.
    change (dispatch_return RC_JOIN_STACKLETS) with (fun m => (exp <- GET EXP ;; unpack_control_point exp ;; goto pop_return)%machine m).
    unfold mthen. change (GET EXP ?x) with (Return (EXP x, x)). cbn [bind].
    change (EXP (popped RC_JOIN_STACKLETS ?o s m)) with o. rewrite (unpack_control_point_ok TC_CONTROL_POINT b words (popped _ _ s m) B W G). cbn [bind].
    eexists. split; [reflexivity|]. repeat split. exact V.
  - destruct m as [h s0 g e n v r ic im y o f]. cbn [stack memory fixed_objects stack_guard] in *. subst s0. set (m := Machine _ _ _ _ _ _ _ _ _ _ _ _).
    assert (A : hooked_step table hooks perform_application m = apply_control_point (Pointer TC_CONTROL_POINT b) m) by reflexivity.
    rewrite A. unfold apply_control_point, mthen. change (APPLY_FRAME_SIZE m) with (Return (2, m)). cbn [bind]. change (negb (2 =? 2)) with false. cbv iota beta.
    assert (V : STACK_REF 2 m = Return (value, m)) by reflexivity. rewrite V. cbn [bind].
    assert (U : SET_VAL value m = Return (tt, with_VAL value m)) by reflexivity. rewrite U. cbn [bind].
    rewrite (unpack_control_point_ok TC_CONTROL_POINT b words (with_VAL value m) B W G). cbn [bind].
    unfold reset_history, READ_DUMMY_HISTORY, FIXED_OBJECT, m. cbv [with_interrupts with_history]. microcode. rewrite F, D.
    destruct (object_eqb_spec d SHARP_F); [contradiction|]. cbn [negb]. eexists. split; [reflexivity|].
    repeat split.
Qed.

(** ** Making a control point *)

(** The stack consists of a control point that was made before. *)
Definition joined (s : list object) : bool :=
  match s with [rc; cp] => object_eqb rc (MAKE_RETURN_CODE RC_JOIN_STACKLETS) && CONTROL_POINT_P cp | _ => false end.

Definition resumption (cp : object) : list object := [MAKE_RETURN_CODE RC_JOIN_STACKLETS; cp].

(** The stack on which the receiver of the control point is called, and the heap. *)
Definition catch_result (m : machine) (s : list object) (m1 : machine) (cp : object) : Prop :=
  if joined s then memory m1 = memory m /\ s = resumption cp
  else cp = Pointer TC_CONTROL_POINT (length (blocks (memory m))) /\ memory m1 = allocated (memory m) (control_point_words (zlength s + 6) (captured m s)).

Lemma joined_shape s : return_code_on s = true ->
  (exists cp, s = resumption cp /\ joined s = true /\ CONTROL_POINT_P cp = true) \/
  (joined s = false /\ exists rc rest, s = rc :: rest /\ RETURN_CODE_P rc = true /\
     (rest = [] \/ (exists cp, rest = [cp] /\ object_eqb rc (MAKE_RETURN_CODE RC_JOIN_STACKLETS) && CONTROL_POINT_P cp = false) \/ (2 <= length rest)%nat)).
Proof.
  destruct s as [|rc [|cp [|x rest]]]; cbn [return_code_on]; [discriminate| | |]; intros R.
  - right. split; [reflexivity|]. exists rc, []. auto.
  - destruct (joined [rc; cp]) eqn:J.
    + left. exists cp. apply andb_prop in J as [J C]. destruct (object_eqb_spec rc (MAKE_RETURN_CODE RC_JOIN_STACKLETS)) as [->|]; [|discriminate]. auto.
    + right. split; [reflexivity|]. exists rc, [cp]. repeat split; auto. right. left. now exists cp.
  - right. split; [reflexivity|]. exists rc, (cp :: x :: rest). repeat split; auto. right. right. cbn [length]. lia.
Qed.

Lemma Prim_catch_ok m receiver s : PRIMITIVE_P (EXP m) = true -> stack m = receiver :: s -> return_code_on s = true -> dummy_history m ->
  GC_NEEDED_P (zlength s + 9) (memory m) = false ->
  exists m1 cp, Prim_catch m = Return (inr (PRIMITIVE_ABORT internal_apply), m1) /\ stack m1 = application_frame receiver [cp] ++ resumption cp /\
    INT_MASK m1 = INT_MASK m /\ catch_result m s m1 cp.
Proof.
  intros P S Rc [_ (d & D & _)] G. destruct (joined_shape s Rc) as [(cp & -> & J & C)|(J & rc & rest & -> & R & Sh)];
    destruct m as [h s0 g e n v r ic im y o f]; cbn [stack EXP memory fixed_objects] in *; subst s0; unfold catch_result; rewrite J.
  - unfold Prim_catch, canonicalize_primitive_context, ARG_REF, READ_DUMMY_HISTORY, FIXED_OBJECT. hook_code. rewrite P. hook_code. cbn -[VECTOR_REF].
    rewrite C. cbn -[VECTOR_REF]. rewrite D. cbn. do 2 eexists. split; [reflexivity|]. repeat split.
  - set (m := Machine h _ _ _ _ _ _ _ _ _ _ _).
    assert (E : exists ic', Prim_catch m = Return (inr (PRIMITIVE_ABORT internal_apply), with_memory (allocated h (control_point_words (zlength (rc :: rest) + 6) (captured m (rc :: rest))))
      (Machine h (application_frame receiver [Pointer TC_CONTROL_POINT (length (blocks h))] ++ resumption (Pointer TC_CONTROL_POINT (length (blocks h)))) g (Pointer TC_CONTROL_POINT (length (blocks h))) n v
         (MAKE_RETURN_CODE RC_JOIN_STACKLETS) ic' im (HISTORY_POINTER d) 0 f))).
    { unfold Prim_catch. run_hook (canonicalize_ok m [receiver] (rc :: rest)); [|exact P|reflexivity|exact Rc].
      hook_gives receiver. hook_gives (zlength (stack m)). hook_gives rc.
      set (previous := if zlength (stack m) =? 1 + CONTINUATION_SIZE then _ else _).
      assert (V : exists x, previous m = Return (inl x, m) /\ (zlength (stack m) =? 1 + CONTINUATION_SIZE) && object_eqb rc (MAKE_RETURN_CODE RC_JOIN_STACKLETS) && CONTROL_POINT_P x = false).
      { unfold previous. destruct Sh as [->|[(cp & -> & C)|L]].
        - now exists SHARP_F.
        - exists cp. split; [reflexivity|exact C].
        - exists SHARP_F. cbn [stack m length]. destruct (Z.eqb_spec (Z.of_nat (Datatypes.S (Datatypes.S (length rest)))) (1 + CONTINUATION_SIZE)) as [Q|]; [unfold CONTINUATION_SIZE in Q; lia|]. now split. }
      destruct V as (x & V & C). run_hook V. clear V previous. rewrite C. clear C.
      replace (1 + (CONTINUATION_SIZE + HISTORY_SIZE + (zlength (stack m) - 1) + 2)) with (zlength (rc :: rest) + 9) by (unfold HISTORY_SIZE, CONTINUATION_SIZE; cbn [stack m length]; lia).
      replace (CONTINUATION_SIZE + HISTORY_SIZE + (zlength (stack m) - 1)) with (zlength (rc :: rest) + 6) by (unfold HISTORY_SIZE, CONTINUATION_SIZE; cbn [stack m length]; lia).
      assert (K : Primitive_GC_If_Needed (zlength (rc :: rest) + 9) m = Return (inl tt, m)) by (unfold Primitive_GC_If_Needed; rewrite (hthen_return _ _ m false m) by (unfold in_microcode, mthen, GET; cbn [bind m memory]; now rewrite G); reflexivity).
      run_hook K. clear K. generalize (zlength (rc :: rest) + 6). intros k. rewrite (hthen_return _ _ m tt (with_stack (rc :: rest) m)) by reflexivity.
      destruct (save_history_ok RC_RESTORE_HISTORY d (with_stack (rc :: rest) m) D) as [ic1 W1]. rewrite (hthen_return _ _ _ _ _ (in_microcode_return _ _ _ _ W1)).
      match type of W1 with _ = Return (_, ?x) => destruct (preserve_interrupt_mask_ok x) as [ic2 W2] end. rewrite (hthen_return _ _ _ _ _ (in_microcode_return _ _ _ _ W2)).
      eexists. reflexivity. }
    destruct E as [ic' E]. do 2 eexists. split; [exact E|]. repeat split.
Qed.

(** ** The round trip *)

Lemma captured_length m s : zlength (captured m s) = zlength s + 6.
Proof. cbn [captured length]. lia. Qed.

(** A control point that holds what was captured resumes the computation, however it is entered. *)
Lemma control_point_resumes m s vs b value l m2 : registers_ok m -> prev_restore_history_offset m <= zlength s -> zlength s + 6 < 2 ^ 57 -> zlength s + 6 <= stack_guard m2 ->
  entry (Pointer TC_CONTROL_POINT b) value l m2 -> holds_stack (memory m2) b (captured m s) -> history_kept m vs (memory m2) -> quiet (INT_MASK m) m2 ->
  exists m3, hooked_steps table hooks 3 l m2 = Return (pop_return, m3) /\ VAL m3 = value /\ reinstated m s vs m2 m3.
Proof.
  intros Rg L W G En B Hk Q. destruct (control_point_entered b value (captured m s) l m2 En B) as (m' & E & S' & V & M & I & C); [now rewrite captured_length|now rewrite captured_length|].
  destruct (captured_resumes m s vs m' Rg L) as (m3 & E3 & V3 & R3).
  - now rewrite M.
  - apply (quiet_cleared _ INT_Stack_Overflow) in Q. unfold quiet, GET_INT_CODE in *. cbn [with_interrupts memory INT_CODE] in Q. now rewrite M, C.
  - exact S'.
  - change (hooked_steps table hooks 3 l) with (mthen (hooked_step table hooks l) (hooked_steps table hooks 2)). unfold mthen. rewrite E. cbn [bind]. exists m3.
    split; [exact E3|]. split; [congruence|]. unfold reinstated in *. now rewrite M in R3.
Qed.

(** The call of the receiver by CALL-WITH-CURRENT-CONTINUATION. *)
Lemma catch_called primitive receiver s m : hook_of hooks primitive = Some (Some 1%nat, fun _ _ => Prim_catch) -> zlength s < 2 ^ 57 -> dummy_history m ->
  stack m = application_frame primitive [receiver] ++ s -> return_code_on s = true -> GC_NEEDED_P (zlength s + 9) (memory m) = false ->
  exists cp m1, hooked_step table hooks perform_application m = Return (internal_apply, m1) /\ stack m1 = application_frame receiver [cp] ++ resumption cp /\
    INT_MASK m1 = INT_MASK m /\ catch_result m s m1 cp.
Proof.
  intros H W D S Rc G. rewrite (hook_called table hooks primitive 1 _ [receiver] s m H eq_refl) by (exact S || reflexivity).
  destruct (Prim_catch_ok (in_primitive primitive ([receiver] ++ s) m) receiver s) as (m1 & cp & E & S1 & I1 & R1); [now apply (hook_is_primitive hooks) with (1 := H)|reflexivity|exact Rc|exact D|exact G|].
  rewrite E. exists cp, m1. split; [reflexivity|]. split; [exact S1|]. split; [exact I1|exact R1].
Qed.

(** ** Interrupt masks *)

(** A primitive calls its second argument with the interrupts of a mask. *)
Inductive masks (m : machine) (o : object) : hook object -> Z -> Prop :=
| with_mask k : HeapPrim.arg_integer 1 o (memory m) = Return (inl k, memory m) -> masks m o Prim_with_interrupt_mask (Z.land INT_Mask k)
| with_reduced k : HeapPrim.arg_ulong_integer 1 o (memory m) = Return (inl k, memory m) ->
    masks m o Prim_with_interrupts_reduced (reduced_mask (INT_MASK m) (Z.land INT_Mask k)).

Definition masked_call (m : machine) (s : list object) : list object := MAKE_RETURN_CODE RC_RESTORE_INT_MASK :: ULONG_TO_FIXNUM (INT_MASK m) :: s.

Lemma with_new_interrupt_mask_ok mask o receiver s m : PRIMITIVE_P (EXP m) = true -> stack m = [o; receiver] ++ s -> return_code_on s = true ->
  exists m1, with_new_interrupt_mask mask m = Return (inr (PRIMITIVE_ABORT internal_apply), m1) /\
    stack m1 = application_frame receiver [ULONG_TO_FIXNUM (INT_MASK m)] ++ masked_call m s /\ INT_MASK m1 = mask /\ memory m1 = heap_under mask (memory m).
Proof.
  intros P S R. destruct m as [h s0 g e n v r ic im y off f]. cbn [stack] in S. subst s0. set (m := Machine _ _ _ _ _ _ _ _ _ _ _ _) in *. unfold with_new_interrupt_mask.
  hook_gives receiver. run_hook (canonicalize_ok m [o; receiver] s P eq_refl R). rewrite (hthen_return _ _ m tt (with_stack s m)) by reflexivity.
  destruct (preserve_interrupt_mask_ok (with_stack s m)) as [ic1 W1]. rewrite (hthen_return _ _ _ _ _ (in_microcode_return _ _ _ _ W1)).
  match type of W1 with _ = Return (_, ?x) => destruct (Will_Push_ok (STACK_ENV_EXTRA_SLOTS + 2) x) as [ic2 W2] end. rewrite (hthen_return _ _ _ _ _ (in_microcode_return _ _ _ _ W2)).
  eexists. split; [reflexivity|]. repeat split.
Qed.

Lemma decode_arg_ok f n o k m : ARG_REF n m = Return (inl o, m) -> f o (memory m) = Return (inl k, memory m) -> decode_arg f n m = Return (inl k, m).
Proof.
  intros A D. unfold decode_arg. run_hook A. unfold hthen, in_microcode, in_heap, mthen. rewrite D. cbn [bind]. now destruct m.
Qed.

Lemma masking_primitive_ok body mask o receiver s m : masks m o body mask -> PRIMITIVE_P (EXP m) = true -> stack m = [o; receiver] ++ s -> return_code_on s = true ->
  exists m1, body m = Return (inr (PRIMITIVE_ABORT internal_apply), m1) /\
    stack m1 = application_frame receiver [ULONG_TO_FIXNUM (INT_MASK m)] ++ masked_call m s /\ INT_MASK m1 = mask /\ memory m1 = heap_under mask (memory m).
Proof.
  intros M P S R. assert (A : ARG_REF 1 m = Return (inl o, m)) by (destruct m as [h s0 g e n v r ic im y off f]; cbn [stack] in S; now subst s0).
  destruct M as [k D|k D].
  - unfold Prim_with_interrupt_mask, arg_integer_ref. run_hook decode_arg_ok; [now apply with_new_interrupt_mask_ok with o|exact A|exact D].
  - unfold Prim_with_interrupts_reduced, arg_ulong_integer_ref. hook_gives (INT_MASK m). run_hook decode_arg_ok; [now apply with_new_interrupt_mask_ok with o|exact A|exact D].
Qed.

Lemma masked_call_returns m s m2 : registers_ok m -> stack m2 = masked_call m s -> quiet (INT_MASK m) m2 ->
  exists m3, hooked_step table hooks pop_return m2 = Return (pop_return, m3) /\ stack m3 = s /\ VAL m3 = VAL m2 /\ INT_MASK m3 = INT_MASK m /\
    memory m3 = heap_under (INT_MASK m) (memory m2).
Proof.
  intros [IM _] S Q. eexists. split; [exact (restore_int_mask_step table (INT_MASK m) s m2 ltac:(lia) Q S)|]. repeat split.
Qed.

Lemma masked_called primitive body mask o receiver s m : hook_of hooks primitive = Some (Some 2%nat, fun _ _ => body) -> masks m o body mask ->
  stack m = application_frame primitive [o; receiver] ++ s -> return_code_on s = true ->
  exists m1, hooked_step table hooks perform_application m = Return (internal_apply, m1) /\
    stack m1 = application_frame receiver [ULONG_TO_FIXNUM (INT_MASK m)] ++ masked_call m s /\ INT_MASK m1 = mask /\ memory m1 = heap_under mask (memory m).
Proof.
  intros H M S R. rewrite (hook_called table hooks primitive 2 _ [o; receiver] s m H eq_refl) by (exact S || reflexivity).
  destruct (masking_primitive_ok body mask o receiver s (in_primitive primitive ([o; receiver] ++ s) m)) as (m1 & E & K);
    [destruct M as [k D|k D]; [exact (with_mask (in_primitive _ _ m) o k D)|exact (with_reduced (in_primitive _ _ m) o k D)]|now apply (hook_is_primitive hooks) with (1 := H)|reflexivity|exact R|].
  rewrite E. exists m1. split; [reflexivity|exact K].
Qed.

End WithTable.

(** ** Sample calls *)

Definition sample_history_heap : heap :=
  Heap [ MAKE_OBJECT TC_MANIFEST_VECTOR 20 :: repeat SHARP_F 19 ++ [Pointer TC_HUNK3_A 1];
         [Pointer TC_HUNK3_A 2; Pointer TC_HUNK3_A 1; Pointer TC_HUNK3_A 1];
         [SHARP_F; SHARP_F; Pointer TC_HUNK3_A 2] ] 10000 true None SHARP_F SHARP_F.

Definition catch_call : machine := sample_call sample_history_heap CATCH_primitive [SHARP_T] 0x3F (Pointer TC_HUNK3_A 1) (Pointer TC_VECTOR 0).

Definition masking_call : machine :=
  sample_call sample_history_heap REDUCED_primitive [ULONG_TO_FIXNUM 2; SHARP_T] 1 (Pointer TC_HUNK3_A 1) (Pointer TC_VECTOR 0).

(** ** Properties *)




