(* ===== verification/GcLoop.v ===== *)
(** * gcloop.c, memmag.c: the copying garbage collector

    Memory here is the memory of the machine: words at addresses, counted
    from [memory_base] (the configuration without HEAP_IN_LOW_MEMORY, where the
    datum of a pointer object is such an address).  Objects are copied to
    [tospace], which lies outside addressable memory, and copied back over the
    heap at the end; a C pointer is therefore an address in memory or an offset
    in tospace.  The configuration is the one without compiled code
    (CC_SUPPORT_P undefined) and FLOATING_ALIGNMENT is 0, so that aligned
    vectors need no padding.  [std_gc_death] and the other fatal exits are
    [Exception]; an access outside memory or tospace is [Wild].  Every [while]
    loop has the fuel of the parameter [fuel]. *)

From Stdlib Require Import ZArith List Bool Lia.
From S2P Require Import Prelude Object.
From S2P Require ListPrim.
Import ListNotations.

#[local] Open Scope Z_scope.

(** ** Constants *)

Definition TC_MANIFEST_VECTOR : Z := TC_FALSE.
Definition TC_BIG_FLONUM : Z := 0x06.
Definition TC_MANIFEST_CLOSURE : Z := 0x0D.
Definition TC_BROKEN_HEART : Z := 0x22.
Definition TC_HUNK3_A : Z := 0x20.
Definition TC_EPHEMERON : Z := 0x2B.
Definition TC_REFERENCE_TRAP : Z := 0x32.
Definition TC_LINKAGE_SECTION : Z := 0x39.
Definition TC_COMPILED_CODE_BLOCK : Z := 0x3D.
Definition UNMARKED_HISTORY_TYPE : Z := TC_HUNK3_A.
Definition TRAP_MAX_IMMEDIATE : Z := 9.
Definition GC_RECLAIMED : Z := MAKE_OBJECT TC_CONSTANT 10.
Definition CONS_CDR : Z := 1.

Definition EPHEMERON_KEY : Z := 1.
Definition EPHEMERON_DATUM : Z := 2.
Definition EPHEMERON_LIST : Z := 3.
Definition EPHEMERON_NEXT : Z := 4.
Definition EPHEMERON_SIZE : Z := 5.
Definition MARKED_EPHEMERON_MANIFEST : Z := MAKE_OBJECT TC_MANIFEST_VECTOR (EPHEMERON_SIZE - 1).
Definition UNMARKED_EPHEMERON_MANIFEST : Z := MAKE_OBJECT TC_MANIFEST_NM_VECTOR (EPHEMERON_SIZE - 1).

Definition BROKEN_HEART_P (object : Z) : bool := OBJECT_TYPE object =? TC_BROKEN_HEART.
Definition EPHEMERON_P (object : Z) : bool := OBJECT_TYPE object =? TC_EPHEMERON.
Definition REFERENCE_TRAP_P (object : Z) : bool := OBJECT_TYPE object =? TC_REFERENCE_TRAP.
Definition MAKE_BROKEN_HEART (address : Z) : Z := MAKE_OBJECT TC_BROKEN_HEART address.

(** ** The state of a collection *)

(** What a collection does not change: the bounds of memory and of fromspace
    ([*p_fromspace_start] and [*p_fromspace_end] are [heap_start] and [Free]),
    the size of tospace, and the table of ephemerons, a vector object.
    [memory_base] is the byte address of word 0. *)
Record gc_areas : Type := GcAreas {
  memory_base : Z;
  memory_end : Z;
  fromspace_start : Z;
  fromspace_end : Z;
  tospace_size : Z;
  newspace_start : Z;
  ephemeron_array : Z
}.

(** [tospace] holds the words up to [tospace_next]; a null [weak_chain] is [None]. *)
Record gc_state : Type := GcState {
  memory : Z -> Z;
  tospace : list Z;
  weak_chain : option Z;
  ephemeron_list : Z;
  ephemeron_queue : Z;
  scanning_ephemerons_p : bool;
  ephemeron_count : Z
}.

Definition with_memory (m : Z -> Z) (s : gc_state) : gc_state :=
  GcState m (tospace s) (weak_chain s) (ephemeron_list s) (ephemeron_queue s) (scanning_ephemerons_p s) (ephemeron_count s).
Definition with_tospace (t : list Z) (s : gc_state) : gc_state :=
  GcState (memory s) t (weak_chain s) (ephemeron_list s) (ephemeron_queue s) (scanning_ephemerons_p s) (ephemeron_count s).
Definition with_weak_chain (c : option Z) (s : gc_state) : gc_state :=
  GcState (memory s) (tospace s) c (ephemeron_list s) (ephemeron_queue s) (scanning_ephemerons_p s) (ephemeron_count s).
Definition with_ephemeron_list (e : Z) (s : gc_state) : gc_state :=
  GcState (memory s) (tospace s) (weak_chain s) e (ephemeron_queue s) (scanning_ephemerons_p s) (ephemeron_count s).
Definition with_ephemeron_queue (e : Z) (s : gc_state) : gc_state :=
  GcState (memory s) (tospace s) (weak_chain s) (ephemeron_list s) e (scanning_ephemerons_p s) (ephemeron_count s).
Definition with_scanning_ephemerons_p (b : bool) (s : gc_state) : gc_state :=
  GcState (memory s) (tospace s) (weak_chain s) (ephemeron_list s) (ephemeron_queue s) b (ephemeron_count s).
Definition with_ephemeron_count (n : Z) (s : gc_state) : gc_state :=
  GcState (memory s) (tospace s) (weak_chain s) (ephemeron_list s) (ephemeron_queue s) (scanning_ephemerons_p s) n.

Definition collector (A : Type) : Type := gc_state -> outcome (A * gc_state).

Definition cret {A} (a : A) : collector A := fun s => Return (a, s).
Definition cthen {A B} (m : collector A) (k : A -> collector B) : collector B :=
  fun s => bind (m s) (fun '(a, s') => k a s').
Definition GET {A} (f : gc_state -> A) : collector A := fun s => Return (f s, s).
Definition SET (f : gc_state -> gc_state) : collector unit := fun s => Return (tt, f s).

Declare Scope collector_scope.
Delimit Scope collector_scope with collector.

Notation "x <- m ;; k" := (cthen m (fun x => k))
  (at level 60, m at next level, right associativity) : collector_scope.
Notation "m ;; k" := (cthen m (fun _ => k))
  (at level 60, right associativity) : collector_scope.

#[local] Open Scope collector_scope.

Definition std_gc_death {A} : collector A := fun _ => Exception.
Definition gc_no_cc_support {A} : collector A := std_gc_death.
Definition gc_bad_type {A} : collector A := std_gc_death.

Section Collector.

Context (areas : gc_areas) (fuel : nat).

(** ** Memory and tospace *)

(** A C pointer: into memory, or into tospace. *)
Inductive gc_pointer : Type :=
| Oldspace (address : Z)
| Tospace (offset : Z).

Definition pointer_add (p : gc_pointer) (n : Z) : gc_pointer :=
  match p with Oldspace a => Oldspace (a + n) | Tospace i => Tospace (i + n) end.

Definition in_memory (a : Z) : bool := (0 <=? a) && (a <? memory_end areas).

Definition set_word (m : Z -> Z) (a value : Z) : Z -> Z := fun b => if b =? a then value else m b.

Definition load (p : gc_pointer) : collector Z := fun s =>
  match p with
  | Oldspace a => if in_memory a then Return (memory s a, s) else Wild
  | Tospace i =>
      match (if i <? 0 then None else nth_error (tospace s) (Z.to_nat i)) with
      | Some w => Return (w, s)
      | None => Wild
      end
  end.

Definition store (p : gc_pointer) (value : Z) : collector unit := fun s =>
  match p with
  | Oldspace a => if in_memory a then Return (tt, with_memory (set_word (memory s) a value) s) else Wild
  | Tospace i =>
      if (0 <=? i) && (i <? zlength (tospace s))
      then Return (tt, with_tospace (update (Z.to_nat i) value (tospace s)) s)
      else Wild
  end.

Definition ADDRESS_IN_FROMSPACE_P (addr : Z) : bool := (fromspace_start areas <=? addr) && (addr <? fromspace_end areas).

Definition NEWSPACE_TO_TOSPACE (addr : Z) : gc_pointer := Tospace (addr - newspace_start areas).
Definition READ_TOSPACE (addr : Z) : collector Z := load (NEWSPACE_TO_TOSPACE addr).
Definition WRITE_TOSPACE (addr value : Z) : collector unit := store (NEWSPACE_TO_TOSPACE addr) value.

(** [newspace_next]. *)
Definition get_newspace_ptr : collector Z := GET (fun s => newspace_start areas + zlength (tospace s)).

(** [*tospace_next++ = object]. *)
Definition add_to_tospace (object : Z) : collector unit := fun s =>
  if zlength (tospace s) <? tospace_size areas
  then Return (tt, with_tospace (tospace s ++ [object]) s)
  else Wild.

Fixpoint copy_words (n : nat) (from : Z) : collector unit :=
  match n with
  | O => cret tt
  | S n => w <- load (Oldspace from) ;; add_to_tospace w ;; copy_words n (from + 1)
  end.

Definition gc_transport_words (from n_words : Z) : collector Z :=
  new_address <- get_newspace_ptr ;;
  copy_words (Z.to_nat n_words) from ;;
  store (Oldspace from) (MAKE_BROKEN_HEART new_address) ;;
  cret new_address.

(** ** Weak references *)

Inductive gc_ptr_type_t : Set :=
| GC_POINTER_NORMAL | GC_POINTER_COMPILED_ENTRY | GC_POINTER_COMPILED_RETURN | GC_POINTER_NOT.

Definition gc_ptr_type (object : Z) : gc_ptr_type_t :=
  match ListPrim.gc_type_code (OBJECT_TYPE object) with
  | ListPrim.GC_SPECIAL =>
      if REFERENCE_TRAP_P object && (TRAP_MAX_IMMEDIATE <=? OBJECT_DATUM object) then GC_POINTER_NORMAL else GC_POINTER_NOT
  | ListPrim.GC_CELL | ListPrim.GC_PAIR | ListPrim.GC_TRIPLE | ListPrim.GC_QUADRUPLE | ListPrim.GC_VECTOR => GC_POINTER_NORMAL
  | ListPrim.GC_COMPILED_ENTRY => GC_POINTER_COMPILED_ENTRY
  | ListPrim.GC_COMPILED_RETURN => GC_POINTER_COMPILED_RETURN
  | _ => GC_POINTER_NOT
  end.

(** The null address is [None]. *)
Definition weak_referent_address (object : Z) : collector (option Z) :=
  match gc_ptr_type object with
  | GC_POINTER_NORMAL => cret (Some (OBJECT_DATUM object))
  | GC_POINTER_COMPILED_ENTRY | GC_POINTER_COMPILED_RETURN => gc_no_cc_support
  | GC_POINTER_NOT => cret None
  end.

Definition weak_referent_forward (object collected : Z) : collector Z :=
  match gc_ptr_type object with
  | GC_POINTER_NORMAL =>
      w <- load (Oldspace (OBJECT_DATUM object)) ;;
      cret (if BROKEN_HEART_P w then MAKE_OBJECT (OBJECT_TYPE object) (OBJECT_DATUM w) else collected)
  | GC_POINTER_COMPILED_ENTRY | GC_POINTER_COMPILED_RETURN => gc_no_cc_support
  | GC_POINTER_NOT => std_gc_death
  end.

(** ** Ephemerons waiting for a key *)

Definition VECTOR_LENGTH (v : Z) : collector Z := w <- load (Oldspace (OBJECT_DATUM v)) ;; cret (OBJECT_DATUM w).

(** The slot of the table of ephemerons for a key; C's [%] by zero is undefined. *)
Definition ephemeron_slot (addr : Z) : collector gc_pointer :=
  length <- VECTOR_LENGTH (ephemeron_array areas) ;;
  if length =? 0 then (fun _ => Wild)
  else cret (Oldspace (OBJECT_DATUM (ephemeron_array areas) + 1 + (memory_base areas + SIZEOF_LONG * addr) mod length)).

Fixpoint queue_ephemerons_loop (n : nat) (addr : Z) (entry_loc : gc_pointer) : collector unit :=
  entry <- load entry_loc ;;
  if EPHEMERON_P entry
  then
    match n with
    | O => fun _ => OutOfFuel
    | S n =>
        let entry_addr := OBJECT_DATUM entry in
        let next_loc := NEWSPACE_TO_TOSPACE (entry_addr + EPHEMERON_NEXT) in
        key <- READ_TOSPACE (entry_addr + EPHEMERON_KEY) ;;
        key_addr <- weak_referent_address key ;;
        (if match key_addr with Some a => addr =? a | None => false end
         then
           next <- load next_loc ;;
           store entry_loc next ;;
           queue <- GET ephemeron_queue ;;
           store next_loc queue ;;
           SET (with_ephemeron_queue entry)
         else cret tt) ;;
        queue_ephemerons_loop n addr next_loc
    end
  else cret tt.

Definition queue_ephemerons_for_key (addr : Z) : collector unit :=
  entry_loc <- ephemeron_slot addr ;; queue_ephemerons_loop fuel addr entry_loc.

(** ** Transporting objects *)

(** The address of the copy, or [None] (the null pointer) if there is none yet. *)
Definition gc_precheck_from (from : Z) : collector (option Z) :=
  if negb (ADDRESS_IN_FROMSPACE_P from) then cret (Some from)
  else
    w <- load (Oldspace from) ;;
    if BROKEN_HEART_P w then cret (Some (OBJECT_DATUM w))
    else
      scanning <- GET scanning_ephemerons_p ;;
      (if scanning then queue_ephemerons_for_key from else cret tt) ;;
      cret None.

(** The eager transport of the pairs of a list. *)
Fixpoint gc_tuple_loop (n : nat) (cdr : Z) : collector unit :=
  if negb (OBJECT_TYPE cdr =? TC_LIST) then cret tt
  else
    new_address <- gc_precheck_from (OBJECT_DATUM cdr) ;;
    match new_address with
    | Some _ => cret tt
    | None =>
        match n with
        | O => fun _ => OutOfFuel
        | S n =>
            new_address <- gc_transport_words (OBJECT_DATUM cdr) 2 ;;
            cdr <- READ_TOSPACE (new_address + CONS_CDR) ;;
            gc_tuple_loop n cdr
        end
    end.

Definition gc_tuple (tuple n_words : Z) : collector Z :=
  let from := OBJECT_DATUM tuple in
  new_address <- gc_precheck_from from ;;
  match new_address with
  | Some new_address => cret (OBJECT_NEW_DATUM tuple new_address)
  | None =>
      new_address <- gc_transport_words from n_words ;;
      (if n_words =? 2
       then cdr <- READ_TOSPACE (new_address + CONS_CDR) ;; gc_tuple_loop fuel cdr
       else cret tt) ;;
      cret (OBJECT_NEW_DATUM tuple new_address)
  end.

Definition gc_vector (vector : Z) : collector Z :=
  let from := OBJECT_DATUM vector in
  new_address <- gc_precheck_from from ;;
  match new_address with
  | Some new_address => cret (OBJECT_NEW_DATUM vector new_address)
  | None =>
      header <- load (Oldspace from) ;;
      new_address <- gc_transport_words from (1 + OBJECT_DATUM header) ;;
      cret (OBJECT_NEW_DATUM vector new_address)
  end.

Definition gc_transport_weak_pair (pair : Z) : collector Z :=
  let old_addr := OBJECT_DATUM pair in
  new_addr <- gc_transport_words old_addr 2 ;;
  old_car <- READ_TOSPACE new_addr ;;
  caddr <- weak_referent_address old_car ;;
  (if match caddr with Some a => ADDRESS_IN_FROMSPACE_P a | None => false end
   then
     WRITE_TOSPACE new_addr (OBJECT_NEW_TYPE TC_FALSE old_car) ;;
     chain <- GET weak_chain ;;
     store (Oldspace (old_addr + 1))
           (MAKE_OBJECT (OBJECT_TYPE old_car) (match chain with None => 0 | Some a => a end)) ;;
     SET (with_weak_chain (Some old_addr))
   else cret tt) ;;
  cret (OBJECT_NEW_DATUM pair new_addr).

Definition gc_transport_ephemeron (old_ephemeron : Z) : collector Z :=
  let old_addr := OBJECT_DATUM old_ephemeron in
  new_addr <- gc_transport_words old_addr EPHEMERON_SIZE ;;
  let new_ephemeron := OBJECT_NEW_DATUM old_ephemeron new_addr in
  old_key <- READ_TOSPACE (new_addr + EPHEMERON_KEY) ;;
  old_key_addr <- weak_referent_address old_key ;;
  count <- GET ephemeron_count ;;
  SET (with_ephemeron_count (to_ulong (count + 1))) ;;
  invariant_or_live <-
    match old_key_addr with
    | None => cret true
    | Some a =>
        if negb (ADDRESS_IN_FROMSPACE_P a) then cret true
        else w <- weak_referent_forward old_key SHARP_F ;; cret (negb (w =? SHARP_F))
    end ;;
  match invariant_or_live, old_key_addr with
  | false, Some a =>
      WRITE_TOSPACE new_addr UNMARKED_EPHEMERON_MANIFEST ;;
      slot <- ephemeron_slot a ;;
      next <- load slot ;;
      WRITE_TOSPACE (new_addr + EPHEMERON_NEXT) next ;;
      store slot new_ephemeron ;;
      list <- GET ephemeron_list ;;
      WRITE_TOSPACE (new_addr + EPHEMERON_LIST) list ;;
      SET (with_ephemeron_list new_ephemeron) ;;
      cret new_ephemeron
  | _, _ =>
      WRITE_TOSPACE new_addr MARKED_EPHEMERON_MANIFEST ;;
      cret new_ephemeron
  end.

(** ** Handlers, one for each kind of word *)

Definition handler : Type := gc_pointer -> Z -> collector gc_pointer.

Definition gc_handle_non_pointer : handler := fun scan _ => cret (pointer_add scan 1).

Definition gc_handle_tuple (n_words : Z) : handler := fun scan object =>
  new <- gc_tuple object n_words ;; store scan new ;; cret (pointer_add scan 1).

Definition gc_handle_cell : handler := gc_handle_tuple 1.
Definition gc_handle_pair : handler := gc_handle_tuple 2.
Definition gc_handle_triple : handler := gc_handle_tuple 3.
Definition gc_handle_quadruple : handler := gc_handle_tuple 4.

Definition gc_handle_weak_pair : handler := fun scan object =>
  new_address <- gc_precheck_from (OBJECT_DATUM object) ;;
  new <- match new_address with
         | Some a => cret (OBJECT_NEW_DATUM object a)
         | None => gc_transport_weak_pair object
         end ;;
  store scan new ;; cret (pointer_add scan 1).

Definition gc_handle_ephemeron : handler := fun scan object =>
  new_address <- gc_precheck_from (OBJECT_DATUM object) ;;
  new <- match new_address with
         | Some a => cret (OBJECT_NEW_DATUM object a)
         | None => gc_transport_ephemeron object
         end ;;
  store scan new ;; cret (pointer_add scan 1).

Definition gc_cc_entry (object : Z) : collector Z := gc_no_cc_support.
Definition gc_cc_return (object : Z) : collector Z := gc_no_cc_support.

Definition gc_handle_cc_entry : handler := fun scan object =>
  new <- gc_cc_entry object ;; store scan new ;; cret (pointer_add scan 1).
Definition gc_handle_cc_return : handler := fun scan object =>
  new <- gc_cc_return object ;; store scan new ;; cret (pointer_add scan 1).

Definition gc_handle_vector : handler := fun scan object =>
  new <- gc_vector object ;; store scan new ;; cret (pointer_add scan 1).
Definition gc_handle_aligned_vector : handler := gc_handle_vector.
Definition gc_handle_unaligned_vector : handler := gc_handle_vector.

Definition gc_handle_broken_heart : handler := fun _ _ => std_gc_death.
Definition gc_handle_nmv : handler := fun scan object => cret (pointer_add scan (1 + OBJECT_DATUM object)).

Definition gc_handle_reference_trap : handler := fun scan object =>
  new <- (if OBJECT_DATUM object <=? TRAP_MAX_IMMEDIATE then cret object else gc_tuple object 2) ;;
  store scan new ;; cret (pointer_add scan 1).

Definition gc_handle_linkage_section : handler := fun _ _ => gc_no_cc_support.
Definition gc_handle_manifest_closure : handler := fun _ _ => gc_no_cc_support.
Definition gc_handle_undefined : handler := fun _ _ => gc_bad_type.

(** The table that [initialize_gc_table] fills (with [transport_p] true), at index [i]. *)
Definition std_gc_table (i : Z) : handler :=
  if i =? TC_WEAK_CONS then gc_handle_weak_pair
  else if i =? TC_EPHEMERON then gc_handle_ephemeron
  else if (i =? TC_BIG_FLONUM) || (i =? TC_COMPILED_CODE_BLOCK) then gc_handle_aligned_vector
  else
    match ListPrim.gc_type_code i with
    | ListPrim.GC_NON_POINTER => gc_handle_non_pointer
    | ListPrim.GC_CELL => gc_handle_cell
    | ListPrim.GC_PAIR => gc_handle_pair
    | ListPrim.GC_TRIPLE => gc_handle_triple
    | ListPrim.GC_QUADRUPLE => gc_handle_quadruple
    | ListPrim.GC_VECTOR => gc_handle_unaligned_vector
    | ListPrim.GC_COMPILED_ENTRY => gc_handle_cc_entry
    | ListPrim.GC_COMPILED_RETURN => gc_handle_cc_return
    | ListPrim.GC_UNDEFINED => gc_handle_undefined
    | ListPrim.GC_SPECIAL =>
        if i =? TC_BROKEN_HEART then gc_handle_broken_heart
        else if i =? TC_REFERENCE_TRAP then gc_handle_reference_trap
        else if i =? TC_LINKAGE_SECTION then gc_handle_linkage_section
        else if i =? TC_MANIFEST_CLOSURE then gc_handle_manifest_closure
        else if i =? TC_MANIFEST_NM_VECTOR then gc_handle_nmv
        else fun _ _ => std_gc_death
    end.

(** ** The loop *)

(** [pend] is a pointer, or [None] for [&tospace_next], which the loop reads again and again. *)
Definition scan_below (scan : gc_pointer) (pend : option gc_pointer) (s : gc_state) : bool :=
  match scan, pend with
  | Oldspace a, Some (Oldspace e) => a <? e
  | Tospace i, Some (Tospace e) => i <? e
  | Tospace i, None => i <? zlength (tospace s)
  | _, _ => false
  end.

Fixpoint run_gc_loop (n : nat) (scan : gc_pointer) (pend : option gc_pointer) : collector unit :=
  more <- GET (scan_below scan pend) ;;
  if more
  then
    match n with
    | O => fun _ => OutOfFuel
    | S n =>
        object <- load scan ;;
        scan <- std_gc_table (OBJECT_TYPE object) scan object ;;
        run_gc_loop n scan pend
    end
  else cret tt.

Definition gc_scan_oldspace (scan tend : Z) : collector unit := run_gc_loop fuel (Oldspace scan) (Some (Oldspace tend)).

(** [tend] is [None] for the null pointer. *)
Definition gc_scan_tospace (scan : Z) (tend : option Z) : collector unit :=
  run_gc_loop fuel (NEWSPACE_TO_TOSPACE scan)
    (match tend with None => None | Some e => Some (NEWSPACE_TO_TOSPACE e) end).

(** ** After the loop: ephemerons and weak pairs *)

Definition scan_newspace_addr (addr : Z) : collector unit :=
  let scan := NEWSPACE_TO_TOSPACE addr in
  object <- load scan ;;
  std_gc_table (OBJECT_TYPE object) scan object ;;
  cret tt.

Fixpoint scan_ephemeron_list (n : nat) (ephemeron : Z) : collector unit :=
  if EPHEMERON_P ephemeron
  then
    match n with
    | O => fun _ => OutOfFuel
    | S n =>
        let ephemeron_addr := OBJECT_DATUM ephemeron in
        old_key <- READ_TOSPACE (ephemeron_addr + EPHEMERON_KEY) ;;
        next <- READ_TOSPACE (ephemeron_addr + EPHEMERON_LIST) ;;
        w <- weak_referent_forward old_key SHARP_F ;;
        (if negb (w =? SHARP_F)
         then
           addr <- weak_referent_address old_key ;;
           match addr with Some a => queue_ephemerons_for_key a | None => fun _ => Wild end
         else cret tt) ;;
        scan_ephemeron_list n next
    end
  else cret tt.

Fixpoint scan_ephemeron_queue (n : nat) : collector unit :=
  ephemeron <- GET ephemeron_queue ;;
  if EPHEMERON_P ephemeron
  then
    match n with
    | O => fun _ => OutOfFuel
    | S n =>
        let ephemeron_addr := OBJECT_DATUM ephemeron in
        next <- READ_TOSPACE (ephemeron_addr + EPHEMERON_NEXT) ;;
        SET (with_ephemeron_queue next) ;;
        saved_newspace_next <- get_newspace_ptr ;;
        scan_newspace_addr (ephemeron_addr + EPHEMERON_DATUM) ;;
        gc_scan_tospace saved_newspace_next None ;;
        scan_ephemeron_queue n
    end
  else cret tt.

Definition scan_ephemerons : collector unit :=
  ephemeron <- GET ephemeron_list ;;
  SET (with_scanning_ephemerons_p true) ;;
  scan_ephemeron_list fuel ephemeron ;;
  scan_ephemeron_queue fuel ;;
  SET (with_scanning_ephemerons_p false).

Fixpoint update_ephemeron_loop (n : nat) (ephemeron : Z) : collector unit :=
  if EPHEMERON_P ephemeron
  then
    match n with
    | O => fun _ => OutOfFuel
    | S n =>
        let ephemeron_addr := OBJECT_DATUM ephemeron in
        let key_loc := ephemeron_addr + EPHEMERON_KEY in
        old_key <- READ_TOSPACE key_loc ;;
        new_key <- weak_referent_forward old_key SHARP_F ;;
        WRITE_TOSPACE ephemeron_addr MARKED_EPHEMERON_MANIFEST ;;
        WRITE_TOSPACE key_loc new_key ;;
        next <- READ_TOSPACE (ephemeron_addr + EPHEMERON_LIST) ;;
        WRITE_TOSPACE (ephemeron_addr + EPHEMERON_LIST) SHARP_F ;;
        WRITE_TOSPACE (ephemeron_addr + EPHEMERON_NEXT) SHARP_F ;;
        (if new_key =? SHARP_F then WRITE_TOSPACE (ephemeron_addr + EPHEMERON_DATUM) SHARP_F else cret tt) ;;
        update_ephemeron_loop n next
    end
  else cret tt.

Definition update_ephemerons : collector unit :=
  ephemeron <- GET ephemeron_list ;;
  update_ephemeron_loop fuel ephemeron ;;
  SET (with_ephemeron_list SHARP_F).

Fixpoint update_weak_pairs (n : nat) : collector unit :=
  chain <- GET weak_chain ;;
  match chain with
  | None => cret tt
  | Some chain =>
      match n with
      | O => fun _ => OutOfFuel
      | S n =>
          w <- load (Oldspace chain) ;;
          obj <- load (Oldspace (chain + 1)) ;;
          let new_addr := OBJECT_DATUM w in
          car <- READ_TOSPACE new_addr ;;
          let old_car := OBJECT_NEW_TYPE (OBJECT_TYPE obj) car in
          new_car <- weak_referent_forward old_car GC_RECLAIMED ;;
          WRITE_TOSPACE new_addr new_car ;;
          SET (with_weak_chain (if OBJECT_DATUM obj =? 0 then None else Some (OBJECT_DATUM obj))) ;;
          update_weak_pairs n
      end
  end.

Definition update_weak_pointers : collector unit :=
  scan_ephemerons ;; update_ephemerons ;; update_weak_pairs fuel.

(** [initialize_weak_chain], and the count of ephemerons that GARBAGE-COLLECT clears;
    the ephemeron lists are empty between collections. *)
Definition open_tospace (m : Z -> Z) : gc_state := GcState m [] None SHARP_F SHARP_F false 0.

End Collector.
