(* ===== verification/GarbageCollect.v ===== *)
(** * memmag.c: a whole garbage collection

    The registers of the storage manager, the two parts of a collection and
    the primitive GARBAGE-COLLECT up to the call of the daemons. *)

From Stdlib Require Import ZArith List Bool Lia.
From S2P Require Import Prelude Object GcLoop.
Import ListNotations.

#[local] Open Scope Z_scope.

(** [words] is the contents of memory; memory ends at [heap_end]. *)
Record storage : Type := Storage {
  words : Z -> Z;
  memory_block_base : Z;
  stack_pointer : Z;
  stack_end : Z;
  constant_start : Z;
  constant_alloc_next : Z;
  heap_start : Z;
  Free : Z;
  heap_alloc_limit : Z;
  heap_end : Z;
  heap_reserved : Z;
  tospace_words : Z;
  fixed_objects : Z;
  history_register : Z;
  ephemeron_table : Z;
  n_ephemerons_requested : Z;
  ephemeron_request_hard_p : bool;
  gc_space_needed : Z;
  INT_CODE : Z
}.

(** ** The table of ephemerons *)

Definition primes : list Z :=
  [ 11; 23; 53; 97; 193; 389; 769; 1543; 3079; 6151; 12289; 24593; 49157;
    98317; 196613; 393241; 786433; 1572869; 3145739; 6291469; 12582917;
    25165843; 50331653; 100663319; 201326611; 402653189; 805306457;
    1610612741 ].

Definition prime_at (i : nat) : Z := nth i primes 0.

Fixpoint prime_search (fuel : nat) (n : Z) (start tend : nat) : outcome Z :=
  match fuel with
  | O => OutOfFuel
  | S fuel =>
      let index := (start + (tend - start) / 2)%nat in
      let continue start tend := if Nat.ltb start tend then prime_search fuel n start tend else Return (prime_at start) in
      if prime_at index <? n then continue (index + 1)%nat tend
      else if n <? prime_at index then continue start index
      else Return (prime_at index)
  end.

Definition compute_ephemeron_array_length (n : Z) : outcome Z :=
  let tend := length primes in
  if prime_at (tend - 1) <? n then Return (prime_at (tend - 1))
  else prime_search (S tend) n 0 tend.

Definition ephemeron_array_big_enough_p (r : storage) (n : Z) : bool :=
  (n =? 0)
  || ((OBJECT_TYPE (ephemeron_table r) =? 0x0A) && (n <=? OBJECT_DATUM (words r (OBJECT_DATUM (ephemeron_table r))))).

Definition VECTOR_DATA : Z := 1.

Definition compute_extra_ephemeron_space (r : storage) (n : Z) : outcome Z :=
  if ephemeron_array_big_enough_p r n then Return 0
  else bind (compute_ephemeron_array_length n) (fun length => Return (VECTOR_DATA + length)).

(** ** Space in the heap *)

Definition FREE_OK_P (r : storage) (free : Z) : bool := (heap_start r <=? free) && (free <? heap_alloc_limit r).
Definition HEAP_AVAILABLE (r : storage) : Z := if FREE_OK_P r (Free r) then heap_alloc_limit r - Free r else 0.
Definition HEAP_AVAILABLE_P (r : storage) (n_words : Z) : bool := FREE_OK_P r (Free r) && (Free r + n_words <=? heap_alloc_limit r).

Definition INT_GC : Z := 0x4.
Definition TC_VECTOR : Z := 0x0A.

(** ** The two parts of a collection *)

Definition areas_of (r : storage) : gc_areas :=
  GcAreas (memory_block_base r) (heap_end r) (heap_start r) (Free r) (tospace_words r) (heap_start r) (ephemeron_table r).

(** Fuel for the loops: the words there are in memory and in tospace. *)
Definition gc_fuel (r : storage) : nat := Z.to_nat (heap_end r + 3).

Section Parts.

#[local] Open Scope collector_scope.

Definition std_gc_pt1 (r : storage) : collector Z :=
  let areas := areas_of r in
  saved_to <- get_newspace_ptr areas ;;
  add_to_tospace areas (fixed_objects r) ;;
  add_to_tospace areas (MAKE_OBJECT UNMARKED_HISTORY_TYPE (history_register r)) ;;
  gc_scan_oldspace areas (gc_fuel r) (stack_pointer r) (stack_end r) ;;
  gc_scan_oldspace areas (gc_fuel r) (constant_start r) (constant_alloc_next r) ;;
  gc_scan_tospace areas (gc_fuel r) saved_to None ;;
  update_weak_pointers areas (gc_fuel r) ;;
  cret saved_to.

End Parts.

#[local] Open Scope microcode_scope.

(** [memmove] of tospace over newspace. *)
Definition save_tospace_copy (newspace : Z) (tospace : list Z) (m : Z -> Z) : Z -> Z := fun a =>
  if (newspace <=? a) && (a <? newspace + zlength tospace) then nth (Z.to_nat (a - newspace)) tospace 0 else m a.

(** [make_vector] without a check for space: the object and the memory. *)
Definition make_vector (m : Z -> Z) (free length filler : Z) : Z * (Z -> Z) :=
  (MAKE_OBJECT TC_VECTOR free,
   fun a => if a =? free then MAKE_OBJECT TC_MANIFEST_VECTOR length
            else if (free <? a) && (a <? free + 1 + length) then filler else m a).

(** The registers after tospace is copied back to the heap. *)
Definition after_copy (r : storage) (saved_to : Z) (s : gc_state) : storage :=
  let m := save_tospace_copy (heap_start r) (tospace s) (memory s) in
  Storage m (memory_block_base r) (stack_pointer r) (stack_end r) (constant_start r) (constant_alloc_next r)
    (heap_start r) (heap_start r + zlength (tospace s)) (heap_alloc_limit r) (heap_end r) (heap_reserved r) (tospace_words r)
    (m saved_to) (OBJECT_DATUM (m (saved_to + 1))) (ephemeron_table r)
    (n_ephemerons_requested r) (ephemeron_request_hard_p r) (gc_space_needed r) (INT_CODE r).

Definition std_gc_pt2 (r : storage) (saved_to : Z) (s : gc_state) : outcome storage :=
  let r := after_copy r saved_to s in
  (if heap_end r <? Free r then Wild else Return tt) ;;
  length <- compute_ephemeron_array_length (to_ulong (ephemeron_count s + n_ephemerons_requested r)) ;;
  '(length, needed) <-
    (if HEAP_AVAILABLE_P r (VECTOR_DATA + length + n_ephemerons_requested r * EPHEMERON_SIZE)
     then Return (length, gc_space_needed r)
     else
       length' <- compute_ephemeron_array_length (ephemeron_count s) ;;
       Return (length', if ephemeron_request_hard_p r then to_ulong (gc_space_needed r + (VECTOR_DATA + length)) else gc_space_needed r)) ;;
  if heap_end r <? Free r + (VECTOR_DATA + length) then Wild
  else
    let (table, m) := make_vector (words r) (Free r) length SHARP_F in
    Return (Storage m (memory_block_base r) (stack_pointer r) (stack_end r) (constant_start r) (constant_alloc_next r)
      (heap_start r) (Free r + VECTOR_DATA + length) (heap_alloc_limit r) (heap_end r) (heap_reserved r) (tospace_words r)
      (fixed_objects r) (history_register r) table 0 false needed (Z.ldiff (INT_CODE r) INT_GC)).

(** [open_tospace (heap_start)] and the two parts. *)
Definition collect (r : storage) : outcome storage :=
  '(saved_to, s) <- std_gc_pt1 r (open_tospace (words r)) ;;
  std_gc_pt2 r saved_to s.

(** GARBAGE-COLLECT: the argument becomes the reserve at the top of the heap;
    the value is the number of words available, less those already asked for.
    [Free > heap_end] is a fatal exit. *)
Definition with_heap_reserved (n : Z) (r : storage) : storage :=
  Storage (words r) (memory_block_base r) (stack_pointer r) (stack_end r) (constant_start r) (constant_alloc_next r)
    (heap_start r) (Free r) (heap_end r - n) (heap_end r) n (tospace_words r) (fixed_objects r) (history_register r)
    (ephemeron_table r) (n_ephemerons_requested r) (ephemeron_request_hard_p r) (gc_space_needed r) (INT_CODE r).

Definition set_heap_reserved (safety_margin : Z) (r : storage) : storage :=
  if safety_margin <? heap_end r - heap_start r then with_heap_reserved safety_margin r else r.

Definition garbage_collect (safety_margin : Z) (r : storage) : outcome (Z * storage) :=
  if heap_end r <? Free r then Exception
  else
    r <- collect (set_heap_reserved safety_margin r) ;;
    Return (ULONG_TO_FIXNUM (if gc_space_needed r <? HEAP_AVAILABLE r then HEAP_AVAILABLE r - gc_space_needed r else 0), r).
