(* ===== verification/GcHeap.v ===== *)
(** * The objects of the heap, and their images in tospace

    What the collector relies on, as executable predicates on the memory before
    the collection: the list of the objects of fromspace, each with the way its
    pointers refer to it; the words that the scan looks at, and what each may
    be.  Then what it computes: the image of an object as it is transported,
    the place of an object given the objects transported before it, and the
    words as they are when their references are forwarded. *)

From Stdlib Require Import ZArith List Bool Lia.
From S2P Require Import Prelude Object GcLoop.
From S2P Require ListPrim.
Import ListNotations.

#[local] Open Scope Z_scope.

(** ** Words *)

(** How a pointer refers to its object: a block of [n] words, a weak pair, or a
    vector with its length in its header. *)
Inductive kind : Set :=
| Tuple (n : Z)
| WeakPair
| Vector.

Definition kind_eqb (a b : kind) : bool :=
  match a, b with
  | Tuple n, Tuple m => n =? m
  | WeakPair, WeakPair | Vector, Vector => true
  | _, _ => false
  end.

Inductive word_class : Set :=
| Plain
| Reference (k : kind)
| Manifest
| Unscannable.

(** What the scan makes of a word. *)
Definition classify (w : Z) : word_class :=
  let type := OBJECT_TYPE w in
  if type =? TC_WEAK_CONS then Reference WeakPair
  else if type =? TC_EPHEMERON then Unscannable
  else
    match ListPrim.gc_type_code type with
    | ListPrim.GC_NON_POINTER => Plain
    | ListPrim.GC_CELL => Reference (Tuple 1)
    | ListPrim.GC_PAIR => Reference (Tuple 2)
    | ListPrim.GC_TRIPLE => Reference (Tuple 3)
    | ListPrim.GC_QUADRUPLE => Reference (Tuple 4)
    | ListPrim.GC_VECTOR => Reference Vector
    | ListPrim.GC_SPECIAL =>
        if type =? TC_REFERENCE_TRAP then (if OBJECT_DATUM w <=? TRAP_MAX_IMMEDIATE then Plain else Reference (Tuple 2))
        else if type =? TC_MANIFEST_NM_VECTOR then Manifest
        else Unscannable
    | _ => Unscannable
    end.

Definition object_word (w : Z) : bool := (0 <=? w) && (w <? 2 ^ 64).

(** The words of a region that the scan looks at, from [skip] words on: not
    the manifests of raw data, nor the data behind them. *)
Fixpoint scannable (skip : Z) (ws : list Z) : list Z :=
  match ws with
  | [] => []
  | w :: ws =>
      if 0 <? skip then scannable (skip - 1) ws
      else match classify w with Manifest => scannable (OBJECT_DATUM w) ws | _ => w :: scannable 0 ws end
  end.

(** ** Objects *)

Record heap_object : Type := HeapObject { start : Z; kind_of : kind; size : Z }.

Definition heap_object_eq_dec (a b : heap_object) : {a = b} + {a <> b}.
Proof. repeat decide equality. Defined.

Definition range (a : Z) (n : nat) : list Z := map (fun i => a + Z.of_nat i) (seq 0 n).
Definition slice (m : Z -> Z) (a n : Z) : list Z := map m (range a (Z.to_nat n)).

Section Objects.

Context (areas : gc_areas) (m : Z -> Z) (objs : list heap_object).

Definition find_object (a : Z) : option heap_object := find (fun o => start o =? a) objs.

(** The address in fromspace that the scan takes a word to refer to. *)
Definition target (w : Z) : option Z :=
  match classify w with
  | Reference _ => if ADDRESS_IN_FROMSPACE_P areas (OBJECT_DATUM w) then Some (OBJECT_DATUM w) else None
  | _ => None
  end.

(** A word the scan can meet: a pointer into fromspace points to an object, in
    its way; any other points below. *)
Definition word_ok (w : Z) : bool :=
  object_word w &&
  match classify w with
  | Plain => true
  | Reference k =>
      if ADDRESS_IN_FROMSPACE_P areas (OBJECT_DATUM w)
      then match find_object (OBJECT_DATUM w) with Some o => kind_eqb (kind_of o) k | None => false end
      else OBJECT_DATUM w <? fromspace_start areas
  | Manifest | Unscannable => false
  end.

Fixpoint region_ok (skip : Z) (ws : list Z) : bool :=
  match ws with
  | [] => skip =? 0
  | w :: ws =>
      if 0 <? skip then region_ok (skip - 1) ws
      else match classify w with Manifest => region_ok (OBJECT_DATUM w) ws | _ => word_ok w && region_ok 0 ws end
  end.

Definition contents (o : heap_object) : list Z := slice m (start o) (size o).

Definition object_ok (o : heap_object) : bool :=
  match kind_of o with
  | Tuple n => (0 <? n) && (size o =? n) && forallb word_ok (contents o)
  | WeakPair => (size o =? 2) && forallb word_ok (contents o)
  | Vector =>
      ((OBJECT_TYPE (m (start o)) =? TC_MANIFEST_VECTOR) || (OBJECT_TYPE (m (start o)) =? TC_MANIFEST_NM_VECTOR)) &&
      (size o =? 1 + OBJECT_DATUM (m (start o))) && region_ok 0 (contents o)
  end.

(** The objects lie one after the other between [a] and [b], with or without gaps. *)
Fixpoint layout (a : Z) (objs : list heap_object) (b : Z) : bool :=
  match objs with
  | [] => a <=? b
  | o :: objs => (a <=? start o) && (0 <? size o) && layout (start o + size o) objs b
  end.

(** ** Images *)

(** The address in fromspace that the car of a weak pair refers to. *)
Definition weak_target (w : Z) : option Z :=
  match gc_ptr_type w with
  | GC_POINTER_NORMAL => if ADDRESS_IN_FROMSPACE_P areas (OBJECT_DATUM w) then Some (OBJECT_DATUM w) else None
  | _ => None
  end.

(** The weak pairs that go on the weak chain. *)
Definition chained (o : heap_object) : bool :=
  match kind_of o, weak_target (m (start o)) with WeakPair, Some _ => true | _, _ => false end.

(** The words of an object when it is transported. *)
Definition image (o : heap_object) : list Z :=
  if chained o then [OBJECT_NEW_TYPE TC_FALSE (m (start o)); m (start o + 1)] else contents o.

(** ** Places *)

Fixpoint place_from (p : Z) (l : list heap_object) (a : Z) : Z :=
  match l with
  | [] => 0
  | o :: l => if start o =? a then p else place_from (p + size o) l a
  end.

Definition total (l : list heap_object) : Z := fold_right (fun o n => size o + n) 0 l.

Definition transported (l : list heap_object) (a : Z) : bool := existsb (fun o => start o =? a) l.

End Objects.

Section Forwarding.

(** [base] is the address in newspace of the first object transported. *)
Context (areas : gc_areas) (m : Z -> Z) (base : Z) (l : list heap_object).

Definition place (a : Z) : Z := place_from base l a.

Definition forward (w : Z) : Z :=
  match target areas w with Some a => OBJECT_NEW_DATUM w (place a) | None => w end.

Fixpoint forward_region (skip : Z) (ws : list Z) : list Z :=
  match ws with
  | [] => []
  | w :: ws =>
      if 0 <? skip then w :: forward_region (skip - 1) ws
      else match classify w with
           | Manifest => w :: forward_region (OBJECT_DATUM w) ws
           | _ => forward w :: forward_region 0 ws
           end
  end.

(** The car of a weak pair, when all the objects are transported. *)
Definition weak_forward (w : Z) : Z :=
  match weak_target areas w with
  | Some a => if transported l a then OBJECT_NEW_DATUM w (place a) else GC_RECLAIMED
  | None => w
  end.

(** The words of an object after the collection. *)
Definition moved (o : heap_object) : list Z :=
  match kind_of o with
  | WeakPair => [weak_forward (m (start o)); forward (m (start o + 1))]
  | _ => forward_region 0 (contents m o)
  end.

End Forwarding.

(** ** Reachable objects *)

(** The objects that a list of words reaches through words that are scanned. *)
Inductive reachable (areas : gc_areas) (m : Z -> Z) (objs : list heap_object) (roots : list Z) : heap_object -> Prop :=
| reachable_root w o :
    In w roots -> target areas w = Some (start o) -> In o objs -> reachable areas m objs roots o
| reachable_step o w o' :
    reachable areas m objs roots o -> In w (scannable 0 (image areas m o)) ->
    target areas w = Some (start o') -> In o' objs -> reachable areas m objs roots o'.
