(* ===== verification/GcInvariant.v ===== *)
(** * The invariant of the collector *)

From Stdlib Require Import ZArith List Bool Lia.
From S2P Require Import Prelude Object GcLoop GcHeap.
From S2P Require ListPrim.
Import ListNotations.

#[local] Open Scope Z_scope.

(** ** Layouts *)

Lemma layout_bounds objs : forall a b o, layout a objs b = true -> In o objs ->
  a <= start o /\ 0 < size o /\ start o + size o <= b.
Proof.
  induction objs as [|x objs IH]; intros a b o H I; [destruct I|]. cbn [layout] in H.
  apply andb_prop in H as [[H1 H2]%andb_prop H]. assert (E : start x + size x <= b).
  { clear -H. revert H. generalize (start x + size x). induction objs as [|y objs IH]; cbn [layout]; intros z H; [lia|].
    apply andb_prop in H as [H H']. apply IH in H'. lia. }
  destruct I as [<-|I]; [lia|]. specialize (IH _ _ _ H I). lia.
Qed.

Lemma layout_disjoint objs : forall a b o o', layout a objs b = true -> In o objs -> In o' objs ->
  o = o' \/ start o + size o <= start o' \/ start o' + size o' <= start o.
Proof.
  induction objs as [|x objs IH]; intros a b o o' H I I'; [destruct I|]. cbn [layout] in H.
  apply andb_prop in H as [H1 H]. destruct I as [<-|I], I' as [<-|I']; [now left| | |now apply (IH _ _ o o' H)].
  - apply (layout_bounds _ _ _ _ H) in I'. lia.
  - apply (layout_bounds _ _ _ _ H) in I. lia.
Qed.

Lemma layout_NoDup objs : forall a b, layout a objs b = true -> NoDup objs.
Proof.
  induction objs as [|x objs IH]; intros a b H; [constructor|]. cbn [layout] in H. apply andb_prop in H as [H1 H].
  constructor; [|now apply IH in H]. intros I. apply (layout_bounds _ _ _ _ H) in I. lia.
Qed.

Lemma layout_total objs : forall a b, layout a objs b = true -> total objs <= b - a /\ zlength objs <= total objs.
Proof.
  induction objs as [|x objs IH]; intros a b H; cbn [layout] in H; [cbn; lia|]. apply andb_prop in H as [H1 H].
  apply IH in H. cbn [total fold_right length]. fold (total objs). lia.
Qed.

Lemma total_app l l' : total (l ++ l') = total l + total l'.
Proof. induction l as [|o l IH]; [reflexivity|]. cbn [total fold_right app]. fold (total (l ++ l')) (total l). lia. Qed.

(** A set of objects of the heap is no larger than the heap. *)
Lemma total_incl l : forall objs, NoDup l -> incl l objs -> (forall o, In o objs -> 0 < size o) -> total l <= total objs.
Proof.
  induction l as [|o l IH]; intros objs N I P.
  - clear I N. induction objs as [|x objs IH]; cbn [total fold_right]; [lia|]. fold (total objs).
    assert (0 < size x) by (apply P; now left). assert (total [] <= total objs) by (apply IH; intros; apply P; now right).
    cbn in *. lia.
  - apply NoDup_cons_iff in N as [N N']. destruct (in_split o objs) as (A & B & ->); [apply I; now left|].
    assert (total l <= total (A ++ B)).
    { apply IH; [assumption| |].
      - intros x Hx. assert (Hi : In x (A ++ o :: B)) by (apply I; now right).
        apply in_app_or in Hi. apply in_or_app. destruct Hi as [|[->|]]; [now left|contradiction|now right].
      - intros x Hx. apply P. apply in_app_or in Hx. apply in_or_app. destruct Hx; [now left|right; now right]. }
    rewrite total_app in *. cbn [total fold_right]. fold (total l) (total B). lia.
Qed.

(** ** Places *)

Lemma transported_app l l' a : transported (l ++ l') a = transported l a || transported l' a.
Proof. apply existsb_app. Qed.

Lemma transported_In l o : In o l -> transported l (start o) = true.
Proof. intros I. apply existsb_exists. exists o. split; [assumption|lia]. Qed.

Lemma transported_inv l a : transported l a = true -> exists o, In o l /\ start o = a.
Proof. intros (o & I & E)%existsb_exists. exists o. split; [assumption|lia]. Qed.

Lemma place_from_app l l' : forall p a, transported l a = true -> place_from p (l ++ l') a = place_from p l a.
Proof.
  induction l as [|o l IH]; intros p a H; [discriminate|]. cbn [app place_from]. cbn [transported existsb] in H.
  destruct (start o =? a); [reflexivity|]. now apply IH.
Qed.

Lemma place_from_skip l l' : forall p a, transported l a = false -> place_from p (l ++ l') a = place_from (p + total l) l' a.
Proof.
  induction l as [|o l IH]; intros p a H; cbn [app place_from total fold_right]; [now rewrite Z.add_0_r|].
  cbn [transported existsb] in H. apply orb_false_elim in H as [-> H]. fold (total l). rewrite IH by assumption.
  f_equal. lia.
Qed.

Lemma place_from_bounds l : forall p a, transported l a = true -> (forall o, In o l -> 0 < size o) ->
  p <= place_from p l a < p + total l.
Proof.
  induction l as [|o l IH]; intros p a H P; [discriminate|]. cbn [place_from total fold_right]. fold (total l).
  assert (0 < size o) by (apply P; now left). assert (T : 0 <= total l).
  { clear -P. induction l as [|x l IH]; cbn [total fold_right]; [lia|]. fold (total l).
    assert (0 < size x) by (apply P; cbn; auto). assert (0 <= total l) by (apply IH; intros y [<-|I]; apply P; cbn; auto). lia. }
  cbn [transported existsb] in H. destruct (start o =? a); [lia|].
  specialize (IH (p + size o) a H). assert (IP : forall x, In x l -> 0 < size x) by (intros; apply P; now right). specialize (IH IP). lia.
Qed.

(** ** Words and regions *)

Lemma object_word_p w : object_word w = true -> object_p w.
Proof. unfold object_word, object_p. lia. Qed.

Lemma OBJECT_TYPE_range w : object_p w -> 0 <= OBJECT_TYPE w < 2 ^ 6.
Proof. unfold object_p. rewrite OBJECT_TYPE_div. intros H. dlia. Qed.

Lemma OBJECT_DATUM_range w : 0 <= OBJECT_DATUM w < 2 ^ 58.
Proof. rewrite OBJECT_DATUM_mod. apply Z.mod_pos_bound. lia. Qed.

Lemma OBJECT_NEW_DATUM_same w : object_p w -> OBJECT_NEW_DATUM w (OBJECT_DATUM w) = w.
Proof. apply MAKE_OBJECT_eta. Qed.

Lemma BROKEN_HEART_MAKE a : 0 <= a < 2 ^ 58 ->
  BROKEN_HEART_P (MAKE_BROKEN_HEART a) = true /\ OBJECT_DATUM (MAKE_BROKEN_HEART a) = a.
Proof.
  intros H. unfold BROKEN_HEART_P, MAKE_BROKEN_HEART.
  rewrite OBJECT_TYPE_MAKE, OBJECT_DATUM_MAKE by (unfold TC_BROKEN_HEART; lia). split; reflexivity.
Qed.

Lemma not_broken_heart w : classify w <> Unscannable -> BROKEN_HEART_P w = false.
Proof.
  unfold classify, BROKEN_HEART_P. destruct (Z.eqb_spec (OBJECT_TYPE w) TC_BROKEN_HEART) as [E|]; [|reflexivity].
  rewrite E. intros H. exfalso. apply H. reflexivity.
Qed.

Lemma range_S a n : range a (S n) = a :: range (a + 1) n.
Proof.
  unfold range. cbn [seq map]. rewrite Z.add_0_r. f_equal. rewrite <- seq_shift, map_map. apply map_ext. intros. lia.
Qed.

Lemma length_slice m a n : 0 <= n -> zlength (slice m a n) = n.
Proof. intros H. unfold slice, range. rewrite !length_map, length_seq. lia. Qed.

Lemma in_range a n x : In x (range a n) <-> a <= x < a + Z.of_nat n.
Proof.
  unfold range. rewrite in_map_iff. split.
  - intros (i & <- & I%in_seq). lia.
  - intros H. exists (Z.to_nat (x - a)). rewrite in_seq. lia.
Qed.

Lemma slice_ext m m' a n : (forall x, a <= x < a + n -> m x = m' x) -> slice m a n = slice m' a n.
Proof.
  intros H. unfold slice. apply map_ext_in. intros x I%in_range. apply H. lia.
Qed.

Lemma slice_cons m a n : 0 < n -> slice m a n = m a :: slice m (a + 1) (n - 1).
Proof.
  intros H. unfold slice. replace (Z.to_nat n) with (S (Z.to_nat (n - 1))) by lia. now rewrite range_S.
Qed.

Lemma range_app n k : forall a, range a (n + k) = range a n ++ range (a + Z.of_nat n) k.
Proof.
  induction n as [|n IH]; intros a; [cbn [Nat.add Z.of_nat]; now rewrite Z.add_0_r|].
  cbn [Nat.add]. rewrite !range_S, IH. cbn [app]. do 3 f_equal. lia.
Qed.

Lemma slice_app m a n k : 0 <= n -> 0 <= k -> slice m a (n + k) = slice m a n ++ slice m (a + n) k.
Proof.
  intros Hn Hk. unfold slice. rewrite Z2Nat.inj_add, range_app, map_app, Z2Nat.id by assumption. reflexivity.
Qed.

Lemma app_inj_length {A} (x y : list A) : forall a b, length x = length y -> x ++ a = y ++ b -> x = y /\ a = b.
Proof.
  revert y. induction x as [|u x IH]; intros [|v y] a b L E; try discriminate L; [now split|].
  injection E as -> E. injection L as L. destruct (IH y a b L E) as [-> ->]. now split.
Qed.

Lemma slice_cons_inv m a w ws : slice m a (zlength (w :: ws)) = w :: ws ->
  m a = w /\ slice m (a + 1) (zlength ws) = ws.
Proof.
  cbn [length]. intros H. rewrite slice_cons in H by lia.
  replace (Z.of_nat (S (length ws)) - 1) with (zlength ws) in H by lia. injection H as H1 H2. now split.
Qed.

Lemma slice_raw m a raw rest : slice m a (zlength (raw ++ rest)) = raw ++ rest ->
  slice m a (zlength raw) = raw /\ slice m (a + zlength raw) (zlength rest) = rest.
Proof.
  rewrite length_app, Nat2Z.inj_add, slice_app by lia. intros H. apply app_inj_length in H; [exact H|].
  assert (L := length_slice m a (zlength raw) ltac:(lia)). lia.
Qed.

Lemma slice_two m a : slice m a 2 = [m a; m (a + 1)].
Proof. rewrite !slice_cons by lia. reflexivity. Qed.

Lemma nth_error_slice m a n i : 0 <= i < n -> nth_error (slice m a n) (Z.to_nat i) = Some (m (a + i)).
Proof.
  intros H. unfold slice, range. rewrite map_map, nth_error_map, nth_error_seq. cbn [Nat.add].
  destruct (Nat.ltb_spec (Z.to_nat i) (Z.to_nat n)); [|lia]. cbn [option_map]. do 2 f_equal. lia.
Qed.

Section Regions.

Context (areas : gc_areas) (objs : list heap_object).

Lemma scannable_skip skip w ws : 0 < skip -> scannable skip (w :: ws) = scannable (skip - 1) ws.
Proof. intros H. cbn [scannable]. destruct (Z.ltb_spec 0 skip); [reflexivity|lia]. Qed.

Lemma word_ok_scannable w : word_ok areas objs w = true -> classify w <> Manifest /\ classify w <> Unscannable.
Proof. unfold word_ok. destruct (classify w); intros [_ H]%andb_prop; split; congruence. Qed.

Lemma words_ok_scannable ws : forallb (word_ok areas objs) ws = true -> scannable 0 ws = ws.
Proof.
  induction ws as [|w ws IH]; [reflexivity|]. cbn [forallb scannable]. intros [H H']%andb_prop.
  apply word_ok_scannable in H as [H _]. change (0 <? 0) with false. cbn iota.
  destruct (classify w); try contradiction; now rewrite IH.
Qed.

Lemma words_ok_region ws : forallb (word_ok areas objs) ws = true -> region_ok areas objs 0 ws = true.
Proof.
  induction ws as [|w ws IH]; [reflexivity|]. cbn [forallb region_ok]. intros [H H']%andb_prop.
  pose proof (word_ok_scannable _ H) as [H1 _]. change (0 <? 0) with false. cbn iota. rewrite IH, H by assumption.
  destruct (classify w); try contradiction; reflexivity.
Qed.

Lemma region_ok_app ws ws' : forall skip, region_ok areas objs skip ws = true -> region_ok areas objs 0 ws' = true ->
  region_ok areas objs skip (ws ++ ws') = true.
Proof.
  induction ws as [|w ws IH]; cbn [region_ok app]; intros skip H H'.
  - now replace skip with 0 by lia.
  - destruct (0 <? skip); [now apply IH|]. destruct (classify w); try (now apply IH);
      apply andb_prop in H as [H0 H]; rewrite H0; now apply IH.
Qed.

Lemma scannable_app ws ws' : forall skip, region_ok areas objs skip ws = true ->
  scannable skip (ws ++ ws') = scannable skip ws ++ scannable 0 ws'.
Proof.
  induction ws as [|w ws IH]; cbn [region_ok app]; intros skip H.
  - replace skip with 0 by lia. reflexivity.
  - cbn [scannable]. destruct (0 <? skip); [now apply IH|].
    destruct (classify w); try (now apply IH); apply andb_prop in H as [_ H]; cbn [app]; f_equal; now apply IH.
Qed.

Lemma region_ok_words ws : forall skip, region_ok areas objs skip ws = true ->
  Forall (fun w => word_ok areas objs w = true) (scannable skip ws).
Proof.
  induction ws as [|w ws IH]; cbn [region_ok scannable]; intros skip H; [constructor|].
  destruct (0 <? skip); [now apply IH|].
  destruct (classify w); try (now apply IH); apply andb_prop in H as [H0 H]; constructor; auto.
Qed.

Lemma forward_region_app base l ws ws' : forall skip, region_ok areas objs skip ws = true ->
  forward_region areas base l skip (ws ++ ws') = forward_region areas base l skip ws ++ forward_region areas base l 0 ws'.
Proof.
  induction ws as [|w ws IH]; cbn [region_ok app]; intros skip H.
  - replace skip with 0 by lia. reflexivity.
  - cbn [forward_region]. destruct (0 <? skip); [cbn [app]; f_equal; now apply IH|].
    destruct (classify w); cbn [app]; f_equal; try (now apply IH); apply andb_prop in H as [_ H]; now apply IH.
Qed.

Lemma length_forward_region base l ws : forall skip, length (forward_region areas base l skip ws) = length ws.
Proof.
  induction ws as [|w ws IH]; intros skip; [reflexivity|]. cbn [forward_region].
  destruct (0 <? skip); [cbn [length]; now rewrite IH|]. destruct (classify w); cbn [length]; now rewrite IH.
Qed.

(** A word whose object is transported. *)
Definition covered (l : list heap_object) (w : Z) : Prop :=
  match target areas w with Some a => transported l a = true | None => True end.

Lemma covered_app l l' w : covered l w -> covered (l ++ l') w.
Proof. unfold covered. destruct (target areas w); [|trivial]. rewrite transported_app. intros ->. reflexivity. Qed.

Lemma forward_app base l l' w : covered l w -> forward areas base (l ++ l') w = forward areas base l w.
Proof.
  unfold covered, forward, place. destruct (target areas w) as [a|]; [|trivial]. intros H. now rewrite place_from_app.
Qed.

Lemma forward_region_ext base l l' ws : forall skip, Forall (covered l) (scannable skip ws) ->
  forward_region areas base (l ++ l') skip ws = forward_region areas base l skip ws.
Proof.
  induction ws as [|w ws IH]; intros skip H; [reflexivity|]. cbn [forward_region scannable] in *.
  destruct (0 <? skip); [f_equal; now apply IH|].
  destruct (classify w).
  all: try (apply Forall_cons_iff in H as [H0 H]).
  all: try (rewrite forward_app by exact H0).
  all: rewrite IH by exact H.
  all: reflexivity.
Qed.

End Regions.
