(* ===== verification/GcTransport.v ===== *)
(** * Transporting objects keeps the invariant *)

From Stdlib Require Import ZArith List Bool Lia.
From S2P Require Import Prelude Object GcLoop GcHeap GcInvariant.
From S2P Require ListPrim.
Import ListNotations.

#[local] Open Scope Z_scope.

Section Transport.

(** The memory before the collection, its objects, a closed set of objects that
    contains those the roots refer to, and the address of the first copy. *)
Context (areas : gc_areas) (fuel : nat) (m : Z -> Z) (objs : list heap_object) (live : heap_object -> Prop) (base : Z).

Hypothesis heap_layout : layout (fromspace_start areas) objs (fromspace_end areas) = true.
Hypothesis heap_objects : forallb (object_ok areas m objs) objs = true.
Hypothesis heap_low : 9 < fromspace_start areas.
Hypothesis heap_high : fromspace_end areas <= memory_end areas.
Hypothesis memory_small : memory_end areas < 2 ^ 58.
Hypothesis newspace_low : 0 <= newspace_start areas <= base.
Hypothesis newspace_high : base + (fromspace_end areas - fromspace_start areas) < 2 ^ 58.
Hypothesis tospace_room : base - newspace_start areas + (fromspace_end areas - fromspace_start areas) <= tospace_size areas.
Hypothesis enough_fuel : fromspace_end areas - fromspace_start areas < Z.of_nat fuel.
Hypothesis live_step : forall o w o', live o -> In w (scannable 0 (image areas m o)) ->
  target areas w = Some (start o') -> In o' objs -> live o'.

#[local] Notation word_ok := (word_ok areas objs).
#[local] Notation target := (target areas).
#[local] Notation chained := (chained areas m).
#[local] Notation image := (image areas m).
#[local] Notation contents := (contents m).
#[local] Notation place := (place base).
#[local] Notation forward := (forward areas base).
#[local] Notation covered := (covered areas).
#[local] Notation fromspace a := (ADDRESS_IN_FROMSPACE_P areas a).

(** ** The objects *)

Lemma object_bounds o : In o objs ->
  fromspace_start areas <= start o /\ 0 < size o /\ start o + size o <= fromspace_end areas.
Proof. now apply layout_bounds. Qed.

Lemma object_fromspace o i : In o objs -> start o <= i < start o + size o -> fromspace i = true.
Proof. intros H I. apply object_bounds in H. unfold ADDRESS_IN_FROMSPACE_P. lia. Qed.

Lemma object_memory o i : In o objs -> start o <= i < start o + size o -> in_memory areas i = true.
Proof. intros H I. apply object_bounds in H. unfold in_memory. lia. Qed.

Lemma object_disjoint o o' : In o objs -> In o' objs ->
  o = o' \/ start o + size o <= start o' \/ start o' + size o' <= start o.
Proof. now apply layout_disjoint with (1 := heap_layout). Qed.

Lemma start_inj o o' : In o objs -> In o' objs -> start o = start o' -> o = o'.
Proof.
  intros I I' E. destruct (object_disjoint o o' I I'); [assumption|]. apply object_bounds in I, I'. lia.
Qed.

Lemma find_object_spec a o : find_object objs a = Some o -> In o objs /\ start o = a.
Proof. intros H. apply find_some in H as [H E]. split; [assumption|lia]. Qed.

Lemma object_is_ok o : In o objs -> object_ok areas m objs o = true.
Proof. intros I. now apply (proj1 (forallb_forall _ _)) with (2 := I) in heap_objects. Qed.

Lemma contents_cons o : In o objs -> contents o = m (start o) :: slice m (start o + 1) (size o - 1).
Proof. intros I. apply object_bounds in I. apply slice_cons. lia. Qed.

Lemma length_contents o : In o objs -> zlength (contents o) = size o.
Proof. intros I. apply object_bounds in I. apply length_slice. lia. Qed.

Lemma first_word o : In o objs -> classify (m (start o)) <> Unscannable.
Proof.
  intros I. pose proof (object_is_ok o I) as H. unfold object_ok in H.
  rewrite (contents_cons o I) in H. destruct (kind_of o).
  - cbn [forallb] in H. apply (word_ok_scannable areas objs). lia.
  - cbn [forallb] in H. apply (word_ok_scannable areas objs). lia.
  - apply andb_prop in H as [_ H]. cbn [region_ok] in H. change (0 <? 0) with false in H. cbn iota in H.
    destruct (classify (m (start o))) eqn:E; try discriminate.
    apply andb_prop in H as [H _]. unfold GcHeap.word_ok in H. rewrite E in H. lia.
Qed.

Lemma transported_iff l o : incl l objs -> In o objs -> transported l (start o) = true <-> In o l.
Proof.
  intros H I. split; [|apply transported_In]. intros (o' & I' & E)%transported_inv.
  now rewrite (start_inj o o') by (auto; congruence).
Qed.

Lemma transported_false l o : incl l objs -> In o objs -> ~ In o l -> transported l (start o) = false.
Proof.
  intros H I N. destruct (transported l (start o)) eqn:E; [|reflexivity]. now apply transported_iff in E.
Qed.

Lemma total_bound l : NoDup l -> incl l objs -> total l <= fromspace_end areas - fromspace_start areas.
Proof.
  intros N I. pose proof (layout_total _ _ _ heap_layout) as H.
  assert (total l <= total objs) by (apply total_incl; [assumption..|intros o; apply object_bounds]). lia.
Qed.

Lemma total_positive l : incl l objs -> 0 <= total l.
Proof.
  induction l as [|o l IH]; cbn [total fold_right]; intros H; [lia|]. fold (total l).
  assert (In o objs) by (apply H; now left). assert (incl l objs) by (intros x Hx; apply H; now right).
  specialize (IH H1). apply object_bounds in H0. lia.
Qed.

Lemma place_bounds l a : NoDup l -> incl l objs -> transported l a = true ->
  base <= place l a < base + total l /\ 0 <= place l a < 2 ^ 58.
Proof.
  intros N I T. pose proof (total_bound l N I).
  assert (base <= place l a < base + total l) by (apply place_from_bounds; [assumption|intros o Ho; now apply object_bounds, I]).
  lia.
Qed.

(** A reference into fromspace of a word that is in order. *)
Lemma target_object w k : word_ok w = true -> classify w = Reference k ->
  fromspace (OBJECT_DATUM w) = true ->
  exists o, In o objs /\ start o = OBJECT_DATUM w /\ kind_of o = k /\ target w = Some (start o).
Proof.
  intros H C F. unfold GcHeap.word_ok in H. rewrite C, F in H. apply andb_prop in H as [_ H].
  destruct (find_object objs (OBJECT_DATUM w)) as [o|] eqn:E; [|discriminate].
  apply find_object_spec in E as [I E]. exists o. repeat split; try assumption.
  - destruct (kind_of o), k; cbn in H; try discriminate; try reflexivity. f_equal. lia.
  - unfold GcHeap.target. now rewrite C, F, E.
Qed.

Lemma forward_outside l w : word_ok w = true -> target w = None ->
  forward l w = w /\ covered l w.
Proof. intros H T. unfold GcHeap.forward, GcInvariant.covered. now rewrite T. Qed.

(** ** The invariant *)

(** The weak chain: each pair holds the type of its car and the next pair. *)
Fixpoint chain_ok (mem : Z -> Z) (head : option Z) (pairs : list heap_object) : Prop :=
  match pairs with
  | [] => head = None
  | o :: pairs =>
      head = Some (start o) /\
      exists next,
        mem (start o + 1) = MAKE_OBJECT (OBJECT_TYPE (m (start o))) (match next with None => 0 | Some a => a end) /\
        chain_ok mem next pairs
  end.

(** [l]: the objects transported, in order. *)
Record collecting (l : list heap_object) (s : gc_state) : Prop := {
  transported_once : NoDup l;
  transported_objects : incl l objs;
  transported_live : Forall live l;
  broken_hearts : forall o, In o l -> memory s (start o) = MAKE_BROKEN_HEART (place l (start o));
  unchanged_objects : forall o i, In o objs -> ~ In o l -> start o <= i < start o + size o -> memory s i = m i;
  weak_pairs_chained : chain_ok (memory s) (weak_chain s) (rev (filter chained l));
  tospace_length : base - newspace_start areas + total l = zlength (tospace s);
  no_ephemeron_scan : scanning_ephemerons_p s = false;
  no_ephemeron_list : ephemeron_list s = SHARP_F;
  no_ephemeron_queue : ephemeron_queue s = SHARP_F;
  no_ephemeron_counted : ephemeron_count s = 0
}.

(** From [s] to [s'], the objects of [new] have been transported. *)
Record transports (l : list heap_object) (s : gc_state) (new : list heap_object) (s' : gc_state) : Prop := {
  still_collecting : collecting (l ++ new) s';
  images_appended : tospace s' = tospace s ++ concat (map image new);
  outside_unchanged : forall a, fromspace a = false -> memory s' a = memory s a
}.

Lemma transports_refl l s : collecting l s -> transports l s [] s.
Proof. intros H. split; [now rewrite app_nil_r|now rewrite app_nil_r|reflexivity]. Qed.

Lemma transports_trans l s n1 s1 n2 s2 :
  transports l s n1 s1 -> transports (l ++ n1) s1 n2 s2 -> transports l s (n1 ++ n2) s2.
Proof.
  intros [H1 T1 F1] [H2 T2 F2]. split; [now rewrite app_assoc| |].
  - now rewrite T2, T1, map_app, concat_app, app_assoc.
  - intros a Ha. now rewrite F2, F1.
Qed.

Lemma chain_ok_ext mem mem' pairs : forall head,
  (forall o, In o pairs -> mem' (start o + 1) = mem (start o + 1)) -> chain_ok mem head pairs -> chain_ok mem' head pairs.
Proof.
  induction pairs as [|o pairs IH]; intros head H; cbn [chain_ok]; [trivial|].
  intros (-> & next & E & C). split; [reflexivity|]. exists next. split; [now rewrite H by now left|].
  apply IH; [|assumption]. intros x Hx. apply H. now right.
Qed.

Lemma chained_size o : In o objs -> chained o = true -> kind_of o = WeakPair /\ size o = 2.
Proof.
  intros I H. unfold GcHeap.chained in H. pose proof (object_is_ok o I) as K. unfold object_ok in K.
  destruct (kind_of o); try discriminate. split; [reflexivity|lia].
Qed.

(** ** Copying *)

Lemma copy_words_spec n : forall from s,
  (forall a, from <= a < from + Z.of_nat n -> in_memory areas a = true) ->
  zlength (tospace s) + Z.of_nat n <= tospace_size areas ->
  copy_words areas n from s = Return (tt, with_tospace (tospace s ++ map (memory s) (range from n)) s).
Proof.
  induction n as [|n IH]; intros from s H R.
  - cbn. rewrite app_nil_r. now destruct s.
  - cbn [copy_words]. unfold cthen at 1, load. rewrite H by lia. cbn [bind]. unfold cthen, add_to_tospace.
    destruct (Z.ltb_spec (zlength (tospace s)) (tospace_size areas)); [|lia]. cbn [bind].
    rewrite IH; [| intros a Ha; apply H; lia | cbn [tospace with_tospace]; rewrite length_app; cbn [length]; lia ].
    rewrite range_S. cbn [tospace with_tospace memory map]. now rewrite <- app_assoc.
Qed.

(** The state when [n] words at [a] are copied. *)
Definition after_transport (o : heap_object) (to : Z) (s : gc_state) : gc_state :=
  with_memory (set_word (memory s) (start o) (MAKE_BROKEN_HEART to)) (with_tospace (tospace s ++ contents o) s).

Lemma gc_transport_words_spec l s o : collecting l s -> In o objs -> ~ In o l ->
  gc_transport_words areas (start o) (size o) s = Return (base + total l, after_transport o (base + total l) s).
Proof.
  intros H I N. pose proof (object_bounds o I) as B. pose proof (total_bound (l ++ [o])) as T.
  rewrite total_app in T. cbn [total fold_right] in T.
  assert (total l + (size o + 0) <= fromspace_end areas - fromspace_start areas).
  { apply T; [|intros x [Hx|[<-|[]]]%in_app_or; [now apply (transported_objects l s H)|assumption]].
    apply NoDup_app; [apply (transported_once l s H)|constructor; [auto|constructor]|].
    intros x Hx [<-|[]]. contradiction. }
  pose proof (tospace_length l s H) as L.
  unfold gc_transport_words, cthen, get_newspace_ptr, GET. cbn [bind].
  rewrite copy_words_spec; [|intros a Ha; apply (object_memory o); [assumption|lia]|lia].
  cbn [bind]. unfold store. rewrite (object_memory o (start o)) by (assumption || lia). cbn [bind].
  unfold cret. replace (newspace_start areas + zlength (tospace s)) with (base + total l) by lia.
  do 2 f_equal. unfold after_transport, GcHeap.contents, slice. cbn [memory with_tospace].
  f_equal. f_equal. f_equal. apply map_ext_in. intros a Ha%in_range.
  apply (unchanged_objects l s H o); [assumption..|lia].
Qed.

Lemma place_last l o : incl l objs -> In o objs -> ~ In o l -> place (l ++ [o]) (start o) = base + total l.
Proof.
  intros H I N. unfold GcHeap.place. rewrite place_from_skip by now apply transported_false.
  cbn [place_from]. now rewrite Z.eqb_refl.
Qed.

Lemma NoDup_snoc {A} (l : list A) x : NoDup l -> ~ In x l -> NoDup (l ++ [x]).
Proof.
  intros H N. apply NoDup_app; [assumption|repeat constructor; auto|]. intros y Hy [<-|[]]. contradiction.
Qed.

Lemma memory_after_transport l s o x i : collecting l s -> In o objs -> In x objs -> x <> o ->
  start x <= i < start x + size x -> memory (after_transport o (base + total l) s) i = memory s i.
Proof.
  intros H I J N B. unfold after_transport. cbn [memory with_memory with_tospace]. unfold set_word.
  destruct (Z.eqb_spec i (start o)) as [->|]; [|reflexivity].
  pose proof (object_bounds o I). destruct (object_disjoint x o J I) as [|]; [contradiction|lia].
Qed.

(** The objects on the weak chain are whole: their second words are theirs. *)
Lemma chain_after_transport l s o : collecting l s -> In o objs -> ~ In o l ->
  chain_ok (memory (after_transport o (base + total l) s)) (weak_chain s) (rev (filter chained l)).
Proof.
  intros H I N. apply chain_ok_ext with (2 := weak_pairs_chained l s H).
  intros x (J & C)%in_rev%filter_In. pose proof (transported_objects l s H x J) as J'.
  apply memory_after_transport with (x := x); try assumption; [now intros ->|].
  destruct (chained_size x J' C) as [_ E]. lia.
Qed.

Lemma collecting_transport l s o : collecting l s -> In o objs -> ~ In o l -> live o -> chained o = false ->
  transports l s [o] (after_transport o (base + total l) s).
Proof.
  intros H I N Lo C. pose proof (object_bounds o I) as B.
  assert (Ch : rev (filter chained (l ++ [o])) = rev (filter chained l)).
  { rewrite filter_app. cbn [filter]. now rewrite C, app_nil_r. }
  split; [split| |].
  - apply NoDup_snoc; [apply (transported_once l s H)|assumption].
  - intros x [J|[<-|[]]]%in_app_or; [now apply (transported_objects l s H)|assumption].
  - apply Forall_app. split; [apply (transported_live l s H)|now repeat constructor].
  - intros x [J|[<-|[]]]%in_app_or.
    + pose proof (transported_objects l s H x J) as J'.
      assert (x <> o) by now intros ->. apply object_bounds in J' as Bx.
      rewrite (memory_after_transport l s o x) by (assumption || lia).
      rewrite (broken_hearts l s H x J). unfold GcHeap.place. now rewrite place_from_app by now apply transported_In.
    + rewrite place_last by (try assumption; apply (transported_objects l s H)).
      unfold after_transport. cbn [memory with_memory]. unfold set_word. now rewrite Z.eqb_refl.
  - intros x i J M Bi. assert (M' : ~ In x l /\ x <> o).
    { split; [intros K; apply M, in_or_app; now left|intros ->; apply M, in_or_app; right; now left]. }
    rewrite (memory_after_transport l s o x) by tauto. now apply (unchanged_objects l s H x); [|apply M'|].
  - rewrite Ch. exact (chain_after_transport l s o H I N).
  - rewrite total_app. cbn [total fold_right]. unfold after_transport. cbn [tospace with_memory with_tospace].
    rewrite length_app, Nat2Z.inj_add, (length_contents o I). pose proof (tospace_length l s H). lia.
  - exact (no_ephemeron_scan l s H).
  - exact (no_ephemeron_list l s H).
  - exact (no_ephemeron_queue l s H).
  - exact (no_ephemeron_counted l s H).
  - unfold after_transport. cbn [tospace with_memory with_tospace map concat]. unfold GcHeap.image. now rewrite C, app_nil_r.
  - intros a Ha. unfold after_transport. cbn [memory with_memory with_tospace]. unfold set_word.
    destruct (Z.eqb_spec a (start o)) as [->|]; [|reflexivity].
    rewrite (object_fromspace o) in Ha by (assumption || lia). discriminate.
Qed.

(** [gc_precheck_from] tells whether an object is transported. *)
Lemma gc_precheck_from_spec l s o : collecting l s -> In o objs ->
  gc_precheck_from areas fuel (start o) s = Return (if transported l (start o) then Some (place l (start o)) else None, s).
Proof.
  intros H I. pose proof (object_bounds o I) as B. unfold gc_precheck_from.
  rewrite (object_fromspace o) by (assumption || lia). cbn [negb]. unfold cthen, load.
  rewrite (object_memory o) by (assumption || lia). cbn [bind].
  destruct (transported l (start o)) eqn:E.
  - pose proof (place_bounds l _ (transported_once l s H) (transported_objects l s H) E) as P.
    apply transported_iff in E; [|apply (transported_objects l s H)|assumption].
    rewrite (broken_hearts l s H o E). destruct (BROKEN_HEART_MAKE (place l (start o))) as [-> ->]; [lia|reflexivity].
  - assert (N : ~ In o l) by (intros J; apply transported_In in J; congruence).
    rewrite (unchanged_objects l s H o) by (assumption || lia). rewrite not_broken_heart by now apply first_word.
    unfold GET. cbn [bind]. now rewrite (no_ephemeron_scan l s H).
Qed.

Lemma gc_precheck_from_outside a s : fromspace a = false -> gc_precheck_from areas fuel a s = Return (Some a, s).
Proof. intros H. unfold gc_precheck_from. now rewrite H. Qed.

(** Reading back a word just transported. *)
Lemma read_transported l s o i : collecting l s -> In o objs -> 0 <= i < size o ->
  READ_TOSPACE areas (base + total l + i) (after_transport o (base + total l) s)
  = Return (m (start o + i), after_transport o (base + total l) s).
Proof.
  intros H I B. unfold READ_TOSPACE, NEWSPACE_TO_TOSPACE, load. pose proof (tospace_length l s H) as L.
  destruct (Z.ltb_spec (base + total l + i - newspace_start areas) 0).
  { pose proof (total_positive l (transported_objects l s H)). lia. }
  unfold after_transport at 1. cbn [tospace with_memory with_tospace].
  rewrite nth_error_app2 by lia.
  replace (Z.to_nat (base + total l + i - newspace_start areas) - length (tospace s))%nat with (Z.to_nat i) by lia.
  unfold GcHeap.contents. now rewrite nth_error_slice.
Qed.

(** ** References *)

Definition word_live (w : Z) : Prop := forall o, target w = Some (start o) -> In o objs -> live o.

Lemma image_live o w : live o -> In w (scannable 0 (image o)) -> word_live w.
Proof. intros H I o' T I'. now apply (live_step o w). Qed.

(** A reference: to an object that has a place already, or to one not transported yet. *)
Lemma reference_cases l s w k : collecting l s -> word_ok w = true -> classify w = Reference k ->
  (exists to, gc_precheck_from areas fuel (OBJECT_DATUM w) s = Return (Some to, s) /\
    OBJECT_NEW_DATUM w to = forward l w /\ covered l w) \/
  (exists o, In o objs /\ ~ In o l /\ OBJECT_DATUM w = start o /\ kind_of o = k /\ target w = Some (start o) /\
    gc_precheck_from areas fuel (start o) s = Return (None, s)).
Proof.
  intros H W C. destruct (fromspace (OBJECT_DATUM w)) eqn:F.
  - destruct (target_object w k W C F) as (o & I & E & K & T). pose proof (gc_precheck_from_spec l s o H I) as P.
    destruct (transported l (start o)) eqn:X.
    + left. exists (place l (start o)). rewrite <- E, P. unfold GcHeap.forward, GcInvariant.covered. now rewrite T.
    + right. exists o. repeat (split; [assumption || congruence || idtac|]); [|assumption].
      intros J. apply transported_In in J. congruence.
  - left. exists (OBJECT_DATUM w). rewrite gc_precheck_from_outside by assumption.
    unfold GcHeap.word_ok in W. apply andb_prop in W as [W _].
    rewrite OBJECT_NEW_DATUM_same by now apply object_word_p.
    unfold GcHeap.forward, GcInvariant.covered, GcHeap.target. rewrite C, F. auto.
Qed.

Lemma forward_new l o new w : incl l objs -> In o objs -> ~ In o l -> target w = Some (start o) ->
  forward (l ++ o :: new) w = OBJECT_NEW_DATUM w (base + total l) /\ covered (l ++ o :: new) w.
Proof.
  intros L I N T. unfold GcHeap.forward, GcInvariant.covered, GcHeap.place. rewrite T. split.
  - rewrite place_from_skip by now apply transported_false. cbn [place_from]. now rewrite Z.eqb_refl.
  - rewrite transported_app. cbn [transported existsb]. rewrite Z.eqb_refl. apply orb_true_r.
Qed.

Lemma tuple_not_chained o n : kind_of o = Tuple n -> chained o = false.
Proof. intros K. unfold GcHeap.chained. now rewrite K. Qed.

Lemma image_contents o : chained o = false -> image o = contents o.
Proof. intros C. unfold GcHeap.image. now rewrite C. Qed.

Lemma tuple_words o n : In o objs -> kind_of o = Tuple n ->
  0 < n /\ size o = n /\ forallb word_ok (contents o) = true.
Proof. intros I K. pose proof (object_is_ok o I) as H. unfold object_ok in H. rewrite K in H. lia. Qed.

(** The second word of a pair. *)
Lemma pair_cdr o : In o objs -> kind_of o = Tuple 2 -> live o ->
  word_ok (m (start o + 1)) = true /\ word_live (m (start o + 1)).
Proof.
  intros I K L. destruct (tuple_words o 2 I K) as (_ & S & H). unfold GcHeap.contents in H. rewrite S, slice_two in H.
  split; [cbn [forallb] in H; lia|]. apply (image_live o); [assumption|].
  rewrite image_contents by now apply tuple_not_chained with 2. unfold GcHeap.contents. rewrite S, slice_two.
  rewrite words_ok_scannable with (1 := H). right. now left.
Qed.

Lemma objects_count l o : NoDup l -> incl l objs -> In o objs -> ~ In o l -> (length l < length objs)%nat.
Proof.
  intros N L I M. apply (NoDup_incl_length (l := o :: l)); [now constructor|]. intros x [<-|J]; auto.
Qed.

(** ** The eager transport of lists *)

Lemma gc_tuple_loop_spec n : forall l s cdr, collecting l s -> word_ok cdr = true -> word_live cdr ->
  (length objs < n + length l)%nat ->
  exists new s', gc_tuple_loop areas fuel n cdr s = Return (tt, s') /\ transports l s new s'.
Proof.
  induction n as [|n IH]; intros l s cdr H W V B.
  { pose proof (NoDup_incl_length (transported_once l s H) (transported_objects l s H)). lia. }
  cbn [gc_tuple_loop]. destruct (Z.eqb_spec (OBJECT_TYPE cdr) TC_LIST) as [T|]; cbn [negb];
    [|exists [], s; split; [reflexivity|now apply transports_refl]].
  assert (C : classify cdr = Reference (Tuple 2)) by (unfold classify; rewrite T; reflexivity).
  unfold cthen.
  destruct (reference_cases l s cdr _ H W C) as [(to & -> & _)|(o & I & N & E & K & Tg & P)].
  { exists [], s. split; [reflexivity|now apply transports_refl]. }
  destruct (tuple_words o 2 I K) as (_ & S & _). rewrite E, P. cbn [bind].
  pose proof (gc_transport_words_spec l s o H I N) as G. rewrite S in G. rewrite G. cbn [bind].
  change CONS_CDR with 1. rewrite (read_transported l s o) by (assumption || lia). cbn [bind].
  assert (Lo : live o) by now apply V.
  pose proof (collecting_transport l s o H I N Lo (tuple_not_chained o 2 K)) as X.
  destruct (pair_cdr o I K Lo) as [W' V'].
  destruct (IH (l ++ [o]) _ _ (still_collecting _ _ _ _ X) W' V') as (new & s' & R & Y).
  { rewrite length_app. cbn [length]. lia. }
  exists ([o] ++ new), s'. split; [exact R|exact (transports_trans _ _ _ _ _ _ X Y)].
Qed.

(** ** Words *)

(** A computation of the forwarded word. *)
Definition forwards (l : list heap_object) (s : gc_state) (w : Z) (c : collector Z) : Prop :=
  exists new s', c s = Return (forward (l ++ new) w, s') /\ transports l s new s' /\ covered (l ++ new) w.

Lemma forwards_known l s w c : collecting l s -> c s = Return (forward l w, s) -> covered l w -> forwards l s w c.
Proof. intros H E C. exists [], s. rewrite app_nil_r. split; [exact E|]. split; [exact (transports_refl l s H)|exact C]. Qed.

Lemma gc_tuple_spec l s w n : collecting l s -> word_ok w = true -> word_live w -> classify w = Reference (Tuple n) ->
  forwards l s w (gc_tuple areas fuel w n).
Proof.
  intros H W V C. destruct (reference_cases l s w _ H W C) as [(to & P & E & D)|(o & I & N & E & K & T & P)].
  { apply forwards_known; [exact H| |exact D]. unfold gc_tuple, cthen. rewrite P. cbn [bind]. rewrite E. reflexivity. }
  destruct (tuple_words o n I K) as (_ & S & _). unfold forwards, gc_tuple, cthen. rewrite E, P. cbn [bind].
  pose proof (gc_transport_words_spec l s o H I N) as G. rewrite S in G. rewrite G. cbn [bind].
  assert (Lo : live o) by now apply V.
  pose proof (collecting_transport l s o H I N Lo (tuple_not_chained o n K)) as X.
  destruct (Z.eqb_spec n 2) as [->|].
  - change CONS_CDR with 1. rewrite (read_transported l s o) by (assumption || lia). cbn [bind].
    destruct (pair_cdr o I K Lo) as [W' V'].
    destruct (gc_tuple_loop_spec fuel (l ++ [o]) _ _ (still_collecting _ _ _ _ X) W' V') as (new & s' & R & Y).
    { pose proof (layout_total _ _ _ heap_layout). lia. }
    exists ([o] ++ new), s'. rewrite R. cbn [bind app].
    destruct (forward_new l o new w (transported_objects l s H) I N T) as [-> D].
    split; [reflexivity|]. split; [exact (transports_trans _ _ _ _ _ _ X Y)|exact D].
  - exists [o], (after_transport o (base + total l) s). cbn [bind].
    destruct (forward_new l o [] w (transported_objects l s H) I N T) as [-> D].
    split; [reflexivity|]. split; [exact X|exact D].
Qed.

Lemma gc_vector_spec l s w : collecting l s -> word_ok w = true -> word_live w -> classify w = Reference Vector ->
  forwards l s w (gc_vector areas fuel w).
Proof.
  intros H W V C. destruct (reference_cases l s w _ H W C) as [(to & P & E & D)|(o & I & N & E & K & T & P)].
  { apply forwards_known; [exact H| |exact D]. unfold gc_vector, cthen. rewrite P. cbn [bind]. rewrite E. reflexivity. }
  pose proof (object_bounds o I) as B. unfold forwards, gc_vector, cthen. rewrite E, P. cbn [bind]. unfold load.
  rewrite (object_memory o) by (assumption || lia). cbn [bind].
  rewrite (unchanged_objects l s H o) by (assumption || lia).
  pose proof (object_is_ok o I) as Ok. unfold object_ok in Ok. rewrite K in Ok.
  replace (1 + OBJECT_DATUM (m (start o))) with (size o) by lia.
  rewrite (gc_transport_words_spec l s o H I N). cbn [bind].
  assert (Ch : chained o = false) by (unfold GcHeap.chained; now rewrite K).
  pose proof (collecting_transport l s o H I N (V o T I) Ch) as X.
  exists [o], (after_transport o (base + total l) s).
  destruct (forward_new l o [] w (transported_objects l s H) I N T) as [-> D].
    split; [reflexivity|]. split; [exact X|exact D].
Qed.

(** ** Weak pairs *)

Lemma word_ok_ptr_type w : word_ok w = true ->
  gc_ptr_type w = GC_POINTER_NORMAL \/ gc_ptr_type w = GC_POINTER_NOT.
Proof.
  unfold GcHeap.word_ok, classify, gc_ptr_type, REFERENCE_TRAP_P. intros [_ H]%andb_prop. revert H.
  destruct (Z.eqb_spec (OBJECT_TYPE w) TC_WEAK_CONS) as [->|]; [now left|].
  destruct (Z.eqb_spec (OBJECT_TYPE w) TC_EPHEMERON) as [->|]; [discriminate|].
  destruct (ListPrim.gc_type_code (OBJECT_TYPE w)); intros H;
    first [left; reflexivity | right; reflexivity | discriminate H | idtac].
  destruct ((OBJECT_TYPE w =? TC_REFERENCE_TRAP) && (TRAP_MAX_IMMEDIATE <=? OBJECT_DATUM w)); [left|right]; reflexivity.
Qed.

Lemma weak_referent_address_spec w s : word_ok w = true ->
  weak_referent_address w s =
    Return (match gc_ptr_type w with GC_POINTER_NORMAL => Some (OBJECT_DATUM w) | _ => None end, s).
Proof. intros H. unfold weak_referent_address. destruct (word_ok_ptr_type w H) as [-> | ->]; reflexivity. Qed.

Lemma weak_target_guard w :
  match (match gc_ptr_type w with GC_POINTER_NORMAL => Some (OBJECT_DATUM w) | _ => None end) with
  | Some a => fromspace a
  | None => false
  end = match weak_target areas w with Some _ => true | None => false end.
Proof. unfold weak_target. destruct (gc_ptr_type w); try reflexivity. now destruct (fromspace _). Qed.

Lemma weak_pair_words o : In o objs -> kind_of o = WeakPair ->
  size o = 2 /\ word_ok (m (start o)) = true /\ word_ok (m (start o + 1)) = true.
Proof.
  intros I K. pose proof (object_is_ok o I) as H. unfold object_ok in H. rewrite K in H.
  assert (S : size o = 2) by lia. unfold GcHeap.contents in H. rewrite S, slice_two in H. cbn [forallb] in H. lia.
Qed.

(** The state when a weak pair is transported and chained. *)
Definition after_chaining (l : list heap_object) (o : heap_object) (s : gc_state) : gc_state :=
  with_weak_chain (Some (start o))
    (with_memory
       (set_word (memory (after_transport o (base + total l) s)) (start o + 1)
          (MAKE_OBJECT (OBJECT_TYPE (m (start o))) (match weak_chain s with None => 0 | Some a => a end)))
       (with_tospace (tospace s ++ image o) s)).

Lemma memory_after_chaining l s o x i : collecting l s -> In o objs -> chained o = true -> In x objs -> x <> o ->
  start x <= i < start x + size x -> memory (after_chaining l o s) i = memory s i.
Proof.
  intros H I C J N B. destruct (chained_size o I C) as [_ E].
  unfold after_chaining. cbn [memory with_memory with_tospace with_weak_chain]. unfold set_word at 1.
  destruct (Z.eqb_spec i (start o + 1)) as [->|].
  - destruct (object_disjoint x o J I) as [|]; [contradiction|]. lia.
  - now apply memory_after_transport with (x := x).
Qed.

Lemma collecting_chaining l s o : collecting l s -> In o objs -> ~ In o l -> live o -> chained o = true ->
  transports l s [o] (after_chaining l o s).
Proof.
  intros H I N Lo C. destruct (chained_size o I C) as [_ E].
  pose proof (memory_after_chaining l s o) as M.
  assert (Ch : rev (filter chained (l ++ [o])) = o :: rev (filter chained l)).
  { rewrite filter_app. cbn [filter]. rewrite C, rev_app_distr. reflexivity. }
  split; [split| |].
  - apply NoDup_snoc; [apply (transported_once l s H)|assumption].
  - intros x [J|[<-|[]]]%in_app_or; [now apply (transported_objects l s H)|assumption].
  - apply Forall_app. split; [apply (transported_live l s H)|now repeat constructor].
  - intros x [J|[<-|[]]]%in_app_or.
    + pose proof (transported_objects l s H x J) as J'. assert (x <> o) by now intros ->.
      apply object_bounds in J' as Bx. rewrite (M x) by (assumption || lia).
      rewrite (broken_hearts l s H x J). unfold GcHeap.place. now rewrite place_from_app by now apply transported_In.
    + rewrite place_last by (try assumption; apply (transported_objects l s H)).
      unfold after_chaining, after_transport. cbn [memory with_memory with_tospace with_weak_chain]. unfold set_word.
      rewrite Z.eqb_refl. destruct (Z.eqb_spec (start o) (start o + 1)); [lia|reflexivity].
  - intros x i J K Bi. assert (K' : ~ In x l /\ x <> o).
    { split; [intros L; apply K, in_or_app; now left|intros ->; apply K, in_or_app; right; now left]. }
    rewrite (M x) by tauto. now apply (unchanged_objects l s H x); [|apply K'|].
  - rewrite Ch. cbn [chain_ok]. split; [reflexivity|]. exists (weak_chain s). split.
    { unfold after_chaining. cbn [memory with_memory with_tospace with_weak_chain]. unfold set_word.
      now rewrite Z.eqb_refl. }
    apply chain_ok_ext with (2 := weak_pairs_chained l s H). intros x (J & Cx)%in_rev%filter_In.
    pose proof (transported_objects l s H x J) as J'. destruct (chained_size x J' Cx) as [_ Ex].
    apply (M x); try assumption; [now intros ->|lia].
  - rewrite total_app. cbn [total fold_right]. unfold after_chaining. cbn [tospace with_memory with_tospace with_weak_chain].
    rewrite length_app. unfold GcHeap.image. rewrite C. cbn [length]. pose proof (tospace_length l s H). lia.
  - exact (no_ephemeron_scan l s H).
  - exact (no_ephemeron_list l s H).
  - exact (no_ephemeron_queue l s H).
  - exact (no_ephemeron_counted l s H).
  - unfold after_chaining. cbn [tospace with_memory with_tospace with_weak_chain map concat]. now rewrite app_nil_r.
  - intros a Ha. unfold after_chaining, after_transport. cbn [memory with_memory with_tospace with_weak_chain]. unfold set_word.
    destruct (Z.eqb_spec a (start o + 1)) as [->|].
    { rewrite (object_fromspace o) in Ha by (assumption || lia). discriminate. }
    destruct (Z.eqb_spec a (start o)) as [->|]; [|reflexivity].
    rewrite (object_fromspace o) in Ha by (assumption || lia). discriminate.
Qed.

Lemma update_app_length {A} (l : list A) x y l' : update (length l) x (l ++ y :: l') = l ++ x :: l'.
Proof. induction l as [|a l IH]; cbn [length update app]; [reflexivity|now rewrite IH]. Qed.

Lemma gc_transport_weak_pair_spec l s w o : collecting l s -> In o objs -> ~ In o l -> kind_of o = WeakPair -> live o ->
  OBJECT_DATUM w = start o ->
  exists s', gc_transport_weak_pair areas w s = Return (OBJECT_NEW_DATUM w (base + total l), s') /\ transports l s [o] s'.
Proof.
  intros H I N K Lo E. destruct (weak_pair_words o I K) as (S & W & _).
  pose proof (tospace_length l s H) as L. pose proof (total_positive l (transported_objects l s H)) as P.
  unfold gc_transport_weak_pair, cthen. rewrite E, <- S, (gc_transport_words_spec l s o H I N). cbn [bind].
  pose proof (read_transported l s o 0 H I) as R. rewrite !Z.add_0_r in R. rewrite R by lia. cbn [bind].
  rewrite weak_referent_address_spec by assumption. cbn [bind]. rewrite weak_target_guard.
  assert (C : chained o = match weak_target areas (m (start o)) with Some _ => true | None => false end)
    by (unfold GcHeap.chained; now rewrite K).
  rewrite <- C. destruct (chained o) eqn:Ch.
  - exists (after_chaining l o s). split; [|now apply collecting_chaining].
    unfold WRITE_TOSPACE, NEWSPACE_TO_TOSPACE, store at 1. cbn [tospace with_memory with_tospace after_transport].
    assert (Lc : zlength (contents o) = 2) by (rewrite (length_contents o I); exact S).
    rewrite length_app, Nat2Z.inj_add, Lc.
    destruct (Z.leb_spec 0 (base + total l - newspace_start areas)); [|lia].
    destruct (Z.ltb_spec (base + total l - newspace_start areas) (zlength (tospace s) + 2)); [|lia]. cbn [andb bind].
    replace (Z.to_nat (base + total l - newspace_start areas)) with (length (tospace s)) by lia.
    unfold GcHeap.contents. rewrite S, slice_two, update_app_length.
    unfold GET, SET, cret, store. rewrite (object_memory o) by (assumption || lia). cbn [bind].
    unfold after_chaining, GcHeap.image. rewrite Ch. reflexivity.
  - exists (after_transport o (base + total l) s). split; [reflexivity|]. now apply collecting_transport.
Qed.

Lemma gc_handle_weak_spec l s w : collecting l s -> word_ok w = true -> word_live w -> classify w = Reference WeakPair ->
  forwards l s w
    (cthen (gc_precheck_from areas fuel (OBJECT_DATUM w))
       (fun new_address => match new_address with Some a => cret (OBJECT_NEW_DATUM w a) | None => gc_transport_weak_pair areas w end)).
Proof.
  intros H W V C. destruct (reference_cases l s w _ H W C) as [(to & P & E & D)|(o & I & N & E & K & T & P)].
  { apply forwards_known; [exact H| |exact D]. unfold cthen. rewrite P. cbn [bind]. rewrite E. reflexivity. }
  destruct (gc_transport_weak_pair_spec l s w o H I N K (V o T I) E) as (s' & R & X).
  unfold forwards, cthen. rewrite E, P. cbn [bind]. rewrite R. exists [o], s'.
  destruct (forward_new l o [] w (transported_objects l s H) I N T) as [-> D].
  split; [reflexivity|]. split; [exact X|exact D].
Qed.

(** ** One word *)

(** The handler of each class of words. *)
Lemma std_gc_table_classify w :
  match classify w with
  | Plain =>
      std_gc_table areas fuel (OBJECT_TYPE w) = gc_handle_non_pointer \/
      (OBJECT_DATUM w <=? TRAP_MAX_IMMEDIATE) = true /\ std_gc_table areas fuel (OBJECT_TYPE w) = gc_handle_reference_trap areas fuel
  | Reference (Tuple n) =>
      std_gc_table areas fuel (OBJECT_TYPE w) = gc_handle_tuple areas fuel n \/
      (OBJECT_DATUM w <=? TRAP_MAX_IMMEDIATE) = false /\ n = 2 /\
      std_gc_table areas fuel (OBJECT_TYPE w) = gc_handle_reference_trap areas fuel
  | Reference WeakPair => std_gc_table areas fuel (OBJECT_TYPE w) = gc_handle_weak_pair areas fuel
  | Reference Vector => std_gc_table areas fuel (OBJECT_TYPE w) = gc_handle_vector areas fuel
  | Manifest => std_gc_table areas fuel (OBJECT_TYPE w) = gc_handle_nmv
  | Unscannable => True
  end.
Proof.
  unfold classify, std_gc_table. generalize (OBJECT_TYPE w). intros t.
  destruct (Z.eqb_spec t TC_WEAK_CONS) as [->|]; [reflexivity|].
  destruct (Z.eqb_spec t TC_EPHEMERON) as [->|]; [exact I|].
  destruct (Z.eqb_spec t TC_BIG_FLONUM) as [->|]; [reflexivity|].
  destruct (Z.eqb_spec t TC_COMPILED_CODE_BLOCK) as [->|]; [reflexivity|]. cbn [orb].
  destruct (ListPrim.gc_type_code t); try exact I; try (left; reflexivity); try reflexivity.
  destruct (Z.eqb_spec t TC_REFERENCE_TRAP) as [->|].
  - destruct (OBJECT_DATUM w <=? TRAP_MAX_IMMEDIATE); right; repeat split; reflexivity.
  - destruct (Z.eqb_spec t TC_MANIFEST_NM_VECTOR) as [->|]; [reflexivity|exact I].
Qed.

(** A word without a reference is left; of any other, the forwarded word is stored. *)
Lemma handle_word l s w scan : collecting l s -> word_ok w = true -> word_live w ->
  (std_gc_table areas fuel (OBJECT_TYPE w) scan w s = Return (pointer_add scan 1, s) /\ target w = None) \/
  (exists c, forwards l s w c /\
    std_gc_table areas fuel (OBJECT_TYPE w) scan w s = cthen c (fun new => cthen (store areas scan new) (fun _ => cret (pointer_add scan 1))) s).
Proof.
  intros H W V. destruct (word_ok_scannable areas objs w W) as [M U].
  pose proof (std_gc_table_classify w) as T. destruct (classify w) as [|[n| |]| |] eqn:C; try congruence.
  - assert (N : target w = None) by (unfold GcHeap.target; now rewrite C).
    destruct T as [-> |[B ->]]; [left; split; [reflexivity|exact N]|]. right. exists (cret w). split.
    + destruct (forward_outside l w W N) as [E D]. apply forwards_known; [exact H| |exact D]. rewrite E. reflexivity.
    + unfold gc_handle_reference_trap. rewrite B. reflexivity.
  - right. exists (gc_tuple areas fuel w n). split; [now apply gc_tuple_spec|].
    destruct T as [-> |(B & -> & ->)]; [reflexivity|]. unfold gc_handle_reference_trap. rewrite B. reflexivity.
  - right. eexists. split; [now apply gc_handle_weak_spec|]. rewrite T. unfold gc_handle_weak_pair, cthen.
    destruct (gc_precheck_from areas fuel (OBJECT_DATUM w) s) as [[x s']| | |]; reflexivity.
  - right. exists (gc_vector areas fuel w). split; [now apply gc_vector_spec|]. rewrite T. reflexivity.
Qed.

(** ** The loops *)

Lemma collecting_tospace l s t : collecting l s -> length t = length (tospace s) -> collecting l (with_tospace t s).
Proof. intros [] E. split; try assumption. cbn [tospace with_tospace]. congruence. Qed.

Lemma collecting_outside l s a v : collecting l s -> fromspace a = false -> collecting l (with_memory (set_word (memory s) a v) s).
Proof.
  intros [] F. assert (M : forall o i, In o objs -> start o <= i < start o + size o -> set_word (memory s) a v i = memory s i).
  { intros o i I B. unfold set_word. destruct (Z.eqb_spec i a) as [->|]; [|reflexivity].
    rewrite (object_fromspace o) in F by assumption. discriminate. }
  split; try assumption; cbn [memory with_memory weak_chain].
  - intros o I. rewrite (M o) by (try apply transported_objects0; try apply object_bounds in I; auto;
      specialize (object_bounds o (transported_objects0 o I)); lia). now apply broken_hearts0.
  - intros o i I N B. rewrite (M o) by assumption. now apply (unchanged_objects0 o).
  - apply chain_ok_ext with (2 := weak_pairs_chained0). intros o (J & C)%in_rev%filter_In.
    apply transported_objects0 in J. destruct (chained_size o J C) as [_ E]. apply (M o); [assumption|lia].
Qed.

(** The words behind a manifest. *)
Lemma skip_split ws : forall skip, 0 <= skip -> region_ok areas objs skip ws = true ->
  exists raw rest, ws = raw ++ rest /\ zlength raw = skip /\ region_ok areas objs 0 rest = true /\
    scannable skip raw = [] /\ scannable skip ws = scannable 0 rest /\ region_ok areas objs skip raw = true /\
    forall l, forward_region areas base l skip raw = raw.
Proof.
  induction ws as [|w ws IH]; intros skip P H.
  - cbn [region_ok] in H. assert (skip = 0) as -> by lia. exists [], []. repeat split; reflexivity.
  - destruct (Z.ltb_spec 0 skip).
    + cbn [region_ok] in H. destruct (Z.ltb_spec 0 skip); [|lia].
      destruct (IH (skip - 1)) as (raw & rest & -> & L & R & S & S' & R' & F); [lia|assumption|].
      exists (w :: raw), rest. cbn [app length scannable region_ok forward_region]. destruct (Z.ltb_spec 0 skip); [|lia].
      repeat (split; [assumption || reflexivity || lia|]). intros l. f_equal. apply F.
    + assert (skip = 0) as -> by lia. exists [], (w :: ws). repeat split; try reflexivity. exact H.
Qed.

Lemma image_region o : In o objs -> region_ok areas objs 0 (image o) = true.
Proof.
  intros I. pose proof (object_is_ok o I) as H. unfold object_ok in H. unfold GcHeap.image.
  destruct (chained o) eqn:C.
  - destruct (chained_size o I C) as [K _]. destruct (weak_pair_words o I K) as (_ & _ & W).
    assert (T : classify (OBJECT_NEW_TYPE TC_FALSE (m (start o))) = Plain /\
      object_word (OBJECT_NEW_TYPE TC_FALSE (m (start o))) = true).
    { pose proof (OBJECT_DATUM_range (m (start o))) as D. unfold OBJECT_NEW_TYPE. split.
      - unfold classify. rewrite OBJECT_TYPE_MAKE by (unfold TC_FALSE; lia). reflexivity.
      - pose proof (object_range TC_FALSE _ ltac:(unfold TC_FALSE; lia) D) as P. unfold object_p in P. unfold object_word. lia. }
    destruct T as [T P]. apply words_ok_region. cbn [forallb]. rewrite W. unfold GcHeap.word_ok. rewrite T, P. reflexivity.
  - destruct (kind_of o); apply andb_prop in H as [_ H]; [now apply words_ok_region..|exact H].
Qed.

Lemma images_region new : incl new objs -> region_ok areas objs 0 (concat (map image new)) = true.
Proof.
  induction new as [|o new IH]; intros H; [reflexivity|]. cbn [map concat]. apply region_ok_app.
  - apply image_region, H. now left.
  - apply IH. intros x Hx. apply H. now right.
Qed.

Lemma images_words new o w : incl new objs -> In o new -> In w (scannable 0 (image o)) ->
  In w (scannable 0 (concat (map image new))).
Proof.
  induction new as [|x new IH]; intros H J K; [destruct J|]. cbn [map concat].
  rewrite (scannable_app areas objs) by (apply image_region, H; now left). apply in_or_app.
  destruct J as [->|J]; [now left|right]. apply IH; [|exact J|exact K]. intros y Hy. apply H. now right.
Qed.

Lemma images_live new : incl new objs -> Forall live new -> Forall word_live (scannable 0 (concat (map image new))).
Proof.
  induction new as [|o new IH]; intros H L; [constructor|]. cbn [map concat]. apply Forall_cons_iff in L as [Lo L].
  rewrite (scannable_app areas objs) by (apply image_region, H; now left). apply Forall_app. split.
  - apply Forall_forall. intros w. now apply image_live.
  - apply IH; [|assumption]. intros x Hx. apply H. now right.
Qed.

Lemma new_objects l s new : collecting (l ++ new) s -> incl new objs /\ Forall live new.
Proof.
  intros H. split.
  - intros o I. apply (transported_objects _ _ H), in_or_app. now right.
  - pose proof (transported_live _ _ H) as L. now apply Forall_app in L.
Qed.

Lemma scannable_snoc done w : region_ok areas objs 0 done = true -> classify w <> Manifest ->
  scannable 0 (done ++ [w]) = scannable 0 done ++ [w].
Proof.
  intros R M. rewrite (scannable_app areas objs) by assumption. f_equal. cbn [scannable]. change (0 <? 0) with false. cbn iota.
  destruct (classify w); congruence.
Qed.

Lemma forward_region_snoc l done w : region_ok areas objs 0 done = true -> classify w <> Manifest ->
  forward_region areas base l 0 (done ++ [w]) = forward_region areas base l 0 done ++ [forward l w].
Proof.
  intros R M. rewrite (forward_region_app areas objs) by assumption. f_equal. cbn [forward_region].
  change (0 <? 0) with false. cbn iota. destruct (classify w); congruence.
Qed.

(** What a scan leaves: more objects transported, the words behind the scan pointer forwarded. *)
Record scanned (l new : list heap_object) (region : list Z) (s s' : gc_state) : Prop := {
  scan_collecting : collecting (l ++ new) s';
  scan_tospace_words : tospace s' = forward_region areas base (l ++ new) 0 (region ++ concat (map image new));
  scan_covered : Forall (covered (l ++ new)) (scannable 0 (region ++ concat (map image new)));
  scan_outside : forall a, fromspace a = false -> memory s' a = memory s a
}.

Lemma scanned_trans l n1 n2 r1 r2 s s1 s2 :
  r2 = r1 ++ concat (map image n1) -> (forall a, fromspace a = false -> memory s1 a = memory s a) ->
  scanned (l ++ n1) n2 r2 s1 s2 -> scanned l (n1 ++ n2) r1 s s2.
Proof.
  intros -> F [C T V O]. rewrite <- (app_assoc l) in C, T, V. rewrite <- (app_assoc r1), <- concat_app, <- map_app in T, V.
  split; [exact C|exact T|exact V|]. intros a Ha. now rewrite O, F.
Qed.

Lemma region_ok_head w todo : region_ok areas objs 0 (w :: todo) = true ->
  classify w = Manifest /\ region_ok areas objs (OBJECT_DATUM w) todo = true /\ scannable 0 (w :: todo) = scannable (OBJECT_DATUM w) todo \/
  classify w <> Manifest /\ word_ok w = true /\ region_ok areas objs 0 todo = true /\ scannable 0 (w :: todo) = w :: scannable 0 todo.
Proof.
  cbn [region_ok scannable]. change (0 <? 0) with false. cbn iota.
  destruct (classify w); intros H; [right|right|left|right]; try (apply andb_prop in H as [H1 H2]); repeat split; try assumption; discriminate.
Qed.

Lemma scan_below_tospace l done w todo s : tospace s = forward_region areas base l 0 done ++ w :: todo ->
  scan_below (Tospace (zlength done)) None s = true /\ load areas (Tospace (zlength done)) s = Return (w, s).
Proof.
  intros T. unfold scan_below, load. rewrite T, length_app, Nat2Z.inj_add, length_forward_region. cbn [length]. split; [lia|].
  destruct (Z.ltb_spec (zlength done) 0); [lia|]. rewrite Nat2Z.id, nth_error_app2; rewrite length_forward_region by lia; [|lia].
  now rewrite Nat.sub_diag.
Qed.

Lemma store_scanned l done w v todo s : tospace s = forward_region areas base l 0 done ++ w :: todo ->
  store areas (Tospace (zlength done)) v s
  = Return (tt, with_tospace (forward_region areas base l 0 done ++ v :: todo) s).
Proof.
  intros T. unfold store. rewrite T, length_app, Nat2Z.inj_add, length_forward_region. cbn [length].
  destruct (Z.leb_spec 0 (zlength done)); [|lia]. destruct (Z.ltb_spec (zlength done) (zlength done + Z.of_nat (S (length todo)))); [|lia].
  cbn [andb]. rewrite Nat2Z.id. do 3 f_equal. rewrite <- (length_forward_region areas base l done 0). apply update_app_length.
Qed.

(** [lia] without the boolean hypotheses, which are many here. *)
#[local] Ltac zlia :=
  repeat match goal with
         | H : _ = true |- _ => clear H
         | H : _ = false |- _ => clear H
         | H : Forall _ _ |- _ => clear H
         | H : forall _, _ |- _ => clear H
         end; lia.

(** The scan of tospace behind [done], up to [tospace_next]. *)
Lemma scan_tospace n : forall l s done todo, collecting l s ->
  tospace s = forward_region areas base l 0 done ++ todo ->
  region_ok areas objs 0 done = true -> region_ok areas objs 0 todo = true ->
  Forall (covered l) (scannable 0 done) -> Forall word_live (scannable 0 todo) ->
  base - newspace_start areas + (fromspace_end areas - fromspace_start areas) - zlength done < Z.of_nat n ->
  exists new s', run_gc_loop areas fuel n (Tospace (zlength done)) None s = Return (tt, s') /\
    scanned l new (done ++ todo) s s'.
Proof.
  induction n as [|n IH]; intros l s done todo H T D R V L B;
    (destruct todo as [|w todo];
     [ rewrite (app_nil_r done); rewrite app_nil_r in T; exists [], s; split;
       [ cbn [run_gc_loop]; unfold cthen, GET, scan_below; cbn [bind]; rewrite T, length_forward_region;
         (destruct (Z.ltb_spec (zlength done) (zlength done)); [zlia|reflexivity])
       | split; cbn [map concat]; rewrite ?(app_nil_r l), ?(app_nil_r done); [exact H|exact T|exact V|reflexivity] ]
     |]).
  { pose proof (tospace_length l s H) as Lt. pose proof (total_bound l (transported_once l s H) (transported_objects l s H)).
    rewrite T, length_app, length_forward_region in Lt. cbn [length] in Lt. zlia. }
  destruct (scan_below_tospace l done w todo s T) as [Sb Ld].
  cbn [run_gc_loop]. unfold cthen at 1, GET. cbn [bind]. rewrite Sb. unfold cthen at 1. rewrite Ld. cbn [bind]. unfold cthen at 1.
  destruct (region_ok_head w todo R) as [(M & R' & S)|(M & W & R' & S)].
  - pose proof (std_gc_table_classify w) as X. rewrite M in X. rewrite X. unfold gc_handle_nmv, cret. cbn [bind pointer_add].
    destruct (skip_split todo _ (proj1 (OBJECT_DATUM_range w)) R') as (raw & rest & -> & Lr & Rr & Sr & Sr' & Ro & Fr).
    replace (zlength done + (1 + OBJECT_DATUM w)) with (zlength (done ++ w :: raw))
      by (rewrite length_app, Nat2Z.inj_add; cbn [length]; zlia).
    destruct (IH l s (done ++ w :: raw) rest) as (new & s' & E & Sc); [exact H| | |exact Rr| | | |].
    + rewrite (forward_region_app areas objs) by exact D. cbn [forward_region]. change (0 <? 0) with false. cbn iota.
      rewrite M, Fr, T, <- app_assoc. reflexivity.
    + apply region_ok_app; [exact D|]. cbn [region_ok]. change (0 <? 0) with false. cbn iota. rewrite M. exact Ro.
    + rewrite (scannable_app areas objs) by assumption. cbn [scannable]. change (0 <? 0) with false. cbn iota.
      rewrite M, Sr, app_nil_r. exact V.
    + rewrite S, Sr' in L. exact L.
    + rewrite length_app, Nat2Z.inj_add. cbn [length]. zlia.
    + exists new, s'. split; [exact E|]. rewrite <- app_assoc in Sc. exact Sc.
  - rewrite S in L. apply Forall_cons_iff in L as [Lw L].
    assert (Dw : region_ok areas objs 0 (done ++ [w]) = true).
    { apply region_ok_app; [exact D|]. apply words_ok_region. cbn [forallb]. rewrite W. reflexivity. }
    assert (Ln : zlength done + 1 = zlength (done ++ [w])) by (rewrite length_app, Nat2Z.inj_add; reflexivity).
    assert (Bn : base - newspace_start areas + (fromspace_end areas - fromspace_start areas) - zlength (done ++ [w]) < Z.of_nat n) by zlia.
    destruct (handle_word l s w (Tospace (zlength done)) H W Lw) as [[-> Tg]|(c & (new & s1 & E & Tr & Cv) & ->)].
    + cbn [bind pointer_add]. rewrite Ln. destruct (forward_outside l w W Tg) as [Fw Cw].
      destruct (IH l s (done ++ [w]) todo) as (new & s' & E & Sc); [exact H| |exact Dw|exact R'| |exact L|exact Bn|].
      * rewrite (forward_region_snoc _ _ _ D M), Fw, <- app_assoc. exact T.
      * rewrite (scannable_snoc _ _ D M). apply Forall_app. split; [exact V|constructor; [exact Cw|constructor]].
      * exists new, s'. split; [exact E|]. rewrite <- app_assoc in Sc. exact Sc.
    + unfold cthen at 1. rewrite E. cbn [bind]. unfold cthen at 1.
      pose proof (images_appended _ _ _ _ Tr) as Ti. rewrite T, <- app_assoc in Ti. cbn [app] in Ti.
      rewrite (store_scanned l done w _ _ s1 Ti). unfold cret. cbn [bind pointer_add]. rewrite Ln.
      destruct (new_objects l s1 new (still_collecting _ _ _ _ Tr)) as [Ni Nl].
      edestruct (IH (l ++ new) (with_tospace (forward_region areas base l 0 done ++ forward (l ++ new) w :: todo ++ concat (map image new)) s1)
                   (done ++ [w]) (todo ++ concat (map image new))) as (new2 & s' & E2 & Sc).
      * apply collecting_tospace; [apply (still_collecting _ _ _ _ Tr)|]. rewrite Ti, !length_app. cbn [length]. zlia.
      * cbn [tospace with_tospace]. rewrite (forward_region_snoc _ _ _ D M), <- app_assoc.
        rewrite (forward_region_ext areas) by exact V. reflexivity.
      * exact Dw.
      * exact (region_ok_app areas objs todo _ 0 R' (images_region new Ni)).
      * rewrite (scannable_snoc _ _ D M). apply Forall_app. split; [|constructor; [exact Cv|constructor]].
        refine (Forall_impl _ _ V). intros a Ha. exact (covered_app areas l new a Ha).
      * rewrite (scannable_app areas objs) by exact R'. apply Forall_app. split; [exact L|exact (images_live new Ni Nl)].
      * exact Bn.
      * exists (new ++ new2), s'. split; [exact E2|].
        apply (scanned_trans l new new2 (done ++ w :: todo) _ s _ s') with (3 := Sc).
        -- rewrite <- !(app_assoc done). reflexivity.
        -- exact (outside_unchanged _ _ _ _ Tr).
Qed.

Lemma forward_region_cons l w ws : classify w <> Manifest ->
  forward_region areas base l 0 (w :: ws) = forward l w :: forward_region areas base l 0 ws.
Proof. intros M. cbn [forward_region]. change (0 <? 0) with false. cbn iota. destruct (classify w); congruence. Qed.

(** What a scan of an area of oldspace at [a] leaves. *)
Record area_scanned (l new : list heap_object) (a : Z) (ws : list Z) (s s' : gc_state) : Prop := {
  area_collecting : collecting (l ++ new) s';
  area_tospace : tospace s' = tospace s ++ concat (map image new);
  area_words : slice (memory s') a (zlength ws) = forward_region areas base (l ++ new) 0 ws;
  area_covered : Forall (covered (l ++ new)) (scannable 0 ws);
  area_outside : forall b, fromspace b = false -> ~ a <= b < a + zlength ws -> memory s' b = memory s b
}.

(** The scan of an area outside fromspace. *)
Lemma scan_oldspace n : forall l s a ws, collecting l s ->
  (forall b, a <= b < a + zlength ws -> fromspace b = false /\ in_memory areas b = true) ->
  slice (memory s) a (zlength ws) = ws ->
  region_ok areas objs 0 ws = true -> Forall word_live (scannable 0 ws) -> (length ws <= n)%nat ->
  exists new s', run_gc_loop areas fuel n (Oldspace a) (Some (Oldspace (a + zlength ws))) s = Return (tt, s') /\
    area_scanned l new a ws s s'.
Proof.
  induction n as [|n IH]; intros l s a ws H F E R L B;
    (destruct ws as [|w ws];
     [ exists [], s; split;
       [ cbn [run_gc_loop]; unfold cthen, GET, scan_below; cbn [bind length]; 
         (destruct (Z.ltb_spec a (a + Z.of_nat 0)); [zlia|reflexivity])
       | split; cbn [map concat scannable]; rewrite ?(app_nil_r l), ?app_nil_r; [exact H|reflexivity|reflexivity|constructor|reflexivity] ]
     |]).
  { cbn [length] in B. zlia. }
  assert (Sb : scan_below (Oldspace a) (Some (Oldspace (a + zlength (w :: ws)))) s = true).
  { unfold scan_below. cbn [length]. zlia. }
  cbn [run_gc_loop]. unfold cthen at 1, GET. cbn [bind]. rewrite Sb. unfold cthen at 1, load.
  destruct (F a) as [Fa Ma]; [cbn [length]; zlia|]. rewrite Ma. cbn [bind].
  destruct (slice_cons_inv _ _ _ _ E) as [Ew Ews]. rewrite Ew. unfold cthen at 1. cbn [length] in B.
  destruct (region_ok_head w ws R) as [(M & R' & S)|(M & W & R' & S)].
  - pose proof (std_gc_table_classify w) as X. rewrite M in X. rewrite X. unfold gc_handle_nmv, cret. cbn [bind pointer_add].
    destruct (skip_split ws _ (proj1 (OBJECT_DATUM_range w)) R') as (raw & rest & -> & Lr & Rr & Sr & Sr' & Ro & Fr).
    destruct (slice_raw _ _ _ _ Ews) as [Eraw Erest].
    assert (Ln : a + zlength (w :: raw ++ rest) = (a + (1 + OBJECT_DATUM w)) + zlength rest).
    { cbn [length]. rewrite length_app. zlia. }
    rewrite Ln. rewrite length_app in B.
    destruct (IH l s (a + (1 + OBJECT_DATUM w)) rest) as (new & s' & Er & [C T Wd V O]); [exact H| | |exact Rr| |zlia|].
    + intros b Bb. apply F. zlia.
    + rewrite <- Erest at 2. f_equal. zlia.
    + rewrite S, Sr' in L. exact L.
    + exists new, s'. split; [exact Er|]. split; [exact C|exact T| | |].
      * replace (zlength (w :: raw ++ rest)) with (1 + (zlength raw + zlength rest)) by (cbn [length]; rewrite length_app; zlia).
        rewrite slice_cons by zlia. replace (1 + (zlength raw + zlength rest) - 1) with (zlength raw + zlength rest) by zlia.
        rewrite slice_app by zlia. replace (a + 1 + zlength raw) with (a + (1 + OBJECT_DATUM w)) by zlia. rewrite Wd.
        rewrite (slice_ext (memory s') (memory s)), Eraw.
        2:{ intros b Bb. apply O; [apply F; cbn [length]; rewrite length_app; zlia|zlia]. }
        rewrite O by (assumption || zlia). rewrite Ew. cbn [forward_region]. change (0 <? 0) with false. cbn iota. rewrite M.
        f_equal. rewrite (forward_region_app areas objs) by exact Ro. now rewrite Fr.
      * rewrite S, Sr'. exact V.
      * intros b Fb Nb. apply O; [exact Fb|zlia].
  - rewrite S in L. apply Forall_cons_iff in L as [Lw L].
    replace (a + zlength (w :: ws)) with (a + 1 + zlength ws) by (cbn [length]; zlia).
    assert (Fn : forall b, a + 1 <= b < a + 1 + zlength ws -> fromspace b = false /\ in_memory areas b = true)
      by (intros b Bb; apply F; cbn [length]; zlia).
    destruct (handle_word l s w (Oldspace a) H W Lw) as [[-> Tg]|(c & (new & s1 & Ec & Tr & Cv) & ->)].
    + cbn [bind pointer_add]. destruct (forward_outside l w W Tg) as [Fw Cw].
      destruct (IH l s (a + 1) ws) as (new & s' & Er & [C T Wd V O]); [exact H|exact Fn|exact Ews|exact R'|exact L|zlia|].
      exists new, s'. split; [exact Er|]. split; [exact C|exact T| | |].
      * rewrite slice_cons by (cbn [length]; zlia). replace (zlength (w :: ws) - 1) with (zlength ws) by (cbn [length]; zlia).
        rewrite Wd, O by (assumption || zlia). rewrite Ew. rewrite (forward_region_cons _ _ _ M), (forward_app areas) by exact Cw.
        rewrite Fw. reflexivity.
      * rewrite S. constructor; [exact (covered_app areas l new w Cw)|exact V].
      * intros b Fb Nb. apply O; [exact Fb|cbn [length] in Nb; zlia].
    + unfold cthen at 1. rewrite Ec. cbn [bind]. unfold cthen at 1, store. rewrite Ma. unfold cret. cbn [bind pointer_add].
      set (s2 := with_memory (set_word (memory s1) a (forward (l ++ new) w)) s1).
      assert (C2 : collecting (l ++ new) s2) by exact (collecting_outside _ _ a _ (still_collecting _ _ _ _ Tr) Fa).
      assert (O2 : forall b, fromspace b = false -> b <> a -> memory s2 b = memory s b).
      { intros b Fb Nb. cbn [memory with_memory s2]. unfold set_word. destruct (Z.eqb_spec b a); [contradiction|].
        exact (outside_unchanged _ _ _ _ Tr b Fb). }
      destruct (IH (l ++ new) s2 (a + 1) ws) as (new2 & s' & Er & [C T Wd V O]); [exact C2|exact Fn| |exact R'|exact L|zlia|].
      { rewrite <- Ews at 2. apply slice_ext. intros b Bb. apply O2; [apply Fn; zlia|zlia]. }
      exists (new ++ new2), s'. rewrite <- (app_assoc l) in C, Wd, V. split; [exact Er|]. split; [exact C| | | |].
      * rewrite T. cbn [tospace with_memory s2]. rewrite (images_appended _ _ _ _ Tr), map_app, concat_app. symmetry. apply app_assoc.
      * rewrite slice_cons by (cbn [length]; zlia). replace (zlength (w :: ws) - 1) with (zlength ws) by (cbn [length]; zlia).
        rewrite Wd, O by (assumption || zlia). rewrite (forward_region_cons _ _ _ M), app_assoc, (forward_app areas) by exact Cv.
        cbn [memory with_memory s2]. unfold set_word. rewrite Z.eqb_refl. reflexivity.
      * rewrite S. constructor; [|exact V]. rewrite app_assoc. exact (covered_app areas _ new2 w Cv).
      * intros b Fb Nb. cbn [length] in Nb. rewrite O; [apply O2; [exact Fb|zlia]|exact Fb|zlia].
Qed.

(** ** The weak pairs *)

Lemma weak_target_target w : word_ok w = true -> weak_target areas w = target w.
Proof.
  unfold GcHeap.word_ok, GcHeap.target, weak_target, classify, gc_ptr_type, REFERENCE_TRAP_P. intros [_ H]%andb_prop. revert H.
  destruct (Z.eqb_spec (OBJECT_TYPE w) TC_WEAK_CONS) as [->|]; [reflexivity|].
  destruct (Z.eqb_spec (OBJECT_TYPE w) TC_EPHEMERON) as [->|]; [discriminate|].
  destruct (ListPrim.gc_type_code (OBJECT_TYPE w)); intros H; try discriminate H; try reflexivity.
  destruct (OBJECT_TYPE w =? TC_REFERENCE_TRAP); cbn [andb].
  - unfold ADDRESS_IN_FROMSPACE_P, TRAP_MAX_IMMEDIATE. clear H.
    destruct (Z.leb_spec (OBJECT_DATUM w) 9), (Z.leb_spec 9 (OBJECT_DATUM w)); try reflexivity; try lia.
    destruct (Z.leb_spec (fromspace_start areas) (OBJECT_DATUM w)); [lia|reflexivity].
  - destruct (OBJECT_TYPE w =? TC_MANIFEST_NM_VECTOR); [discriminate H|reflexivity].
Qed.

Lemma weak_referent_forward_spec l s s' w a : collecting l s -> memory s' = memory s ->
  word_ok w = true -> weak_target areas w = Some a ->
  weak_referent_forward areas w GC_RECLAIMED s' = Return (weak_forward areas base l w, s').
Proof.
  intros H Em W T. pose proof T as T'. rewrite weak_target_target in T' by exact W. unfold GcHeap.target in T'.
  destruct (classify w) as [|k| |] eqn:C; try discriminate T'.
  destruct (fromspace (OBJECT_DATUM w)) eqn:F; [|discriminate T']. injection T' as E.
  destruct (target_object w k W C F) as (o & I & So & _). pose proof (object_bounds o I) as B.
  unfold weak_forward, weak_referent_forward. rewrite T. unfold weak_target in T. destruct (gc_ptr_type w); try discriminate T.
  unfold cthen, load. rewrite <- So, <- E. rewrite <- So. rewrite (object_memory o) by (assumption || lia). cbn [bind]. rewrite Em.
  destruct (transported l (start o)) eqn:X.
  - pose proof (place_bounds l _ (transported_once l s H) (transported_objects l s H) X) as P.
    apply transported_iff in X; [|apply (transported_objects l s H)|assumption]. rewrite (broken_hearts l s H o X).
    destruct (BROKEN_HEART_MAKE (place l (start o))) as [-> ->]; [lia|reflexivity].
  - assert (N : ~ In o l) by (intros J; apply transported_In in J; congruence).
    rewrite (unchanged_objects l s H o) by (assumption || lia). rewrite not_broken_heart by now apply first_word. reflexivity.
Qed.

(** The words of an object when its references are forwarded, its car if it is on the weak chain not yet. *)
Definition forwarded_image (l : list heap_object) (o : heap_object) : list Z := forward_region areas base l 0 (image o).

Lemma forwarded_chained l o : In o objs -> chained o = true ->
  forwarded_image l o = [OBJECT_NEW_TYPE TC_FALSE (m (start o)); forward l (m (start o + 1))] /\
  moved areas m base l o = [weak_forward areas base l (m (start o)); forward l (m (start o + 1))].
Proof.
  intros I C. destruct (chained_size o I C) as [K _]. destruct (weak_pair_words o I K) as (_ & _ & W).
  split; [|unfold moved; now rewrite K]. unfold forwarded_image, GcHeap.image. rewrite C. cbn [forward_region].
  change (0 <? 0) with false. cbn iota.
  assert (T : classify (OBJECT_NEW_TYPE TC_FALSE (m (start o))) = Plain).
  { unfold OBJECT_NEW_TYPE, classify. pose proof (OBJECT_DATUM_range (m (start o))).
    rewrite OBJECT_TYPE_MAKE by (unfold TC_FALSE; lia). reflexivity. }
  apply word_ok_scannable in W as [W _]. unfold GcHeap.forward at 1, GcHeap.target. rewrite T.
  destruct (classify (m (start o + 1))); try contradiction; reflexivity.
Qed.

Lemma forwarded_unchained l o : In o objs -> chained o = false -> forwarded_image l o = moved areas m base l o.
Proof.
  intros I C. unfold forwarded_image. rewrite image_contents by exact C. unfold moved.
  destruct (kind_of o) eqn:K; try reflexivity.
  destruct (weak_pair_words o I K) as (S & W1 & W2). unfold GcHeap.contents. rewrite S, slice_two.
  pose proof (word_ok_scannable _ _ _ W1) as [M1 _]. pose proof (word_ok_scannable _ _ _ W2) as [M2 _].
  rewrite (forward_region_cons _ _ _ M1), (forward_region_cons _ _ _ M2). cbn [forward_region]. f_equal.
  unfold GcHeap.chained in C. rewrite K in C. unfold weak_forward. destruct (weak_target areas (m (start o))) eqn:T; [discriminate C|].
  rewrite weak_target_target in T by exact W1. unfold GcHeap.forward. now rewrite T.
Qed.

Lemma length_moved l o : In o objs -> zlength (moved areas m base l o) = size o.
Proof.
  intros I. destruct (chained o) eqn:C.
  - destruct (chained_size o I C) as [_ S]. destruct (forwarded_chained l o I C) as [_ ->]. now rewrite S.
  - rewrite <- forwarded_unchained by assumption. unfold forwarded_image. rewrite length_forward_region, image_contents by exact C.
    now apply length_contents.
Qed.

Lemma length_forwarded l o : In o objs -> zlength (forwarded_image l o) = size o.
Proof.
  intros I. destruct (chained o) eqn:C.
  - destruct (chained_size o I C) as [_ S]. destruct (forwarded_chained l o I C) as [-> _]. now rewrite S.
  - rewrite forwarded_unchained by assumption. now apply length_moved.
Qed.

Lemma forward_images l new : incl new objs ->
  forward_region areas base l 0 (concat (map image new)) = concat (map (forwarded_image l) new).
Proof.
  induction new as [|o new IH]; intros H; [reflexivity|]. cbn [map concat].
  rewrite (forward_region_app areas objs) by (apply image_region, H; now left). f_equal. apply IH. intros x Hx. apply H. now right.
Qed.

(** The words of an object, with the cars of the pairs of [done] updated. *)
Definition partly_updated (l done : list heap_object) (o : heap_object) : list Z :=
  if in_dec heap_object_eq_dec o done then moved areas m base l o else forwarded_image l o.

Lemma length_partly l done new : incl new objs -> zlength (concat (map (partly_updated l done) new)) = total new.
Proof.
  induction new as [|o new IH]; intros H; [reflexivity|]. cbn [map concat total fold_right]. fold (total new).
  rewrite length_app, Nat2Z.inj_add, IH by (intros x Hx; apply H; now right). f_equal.
  assert (I : In o objs) by (apply H; now left). unfold partly_updated. destruct (in_dec _ _ _); [now apply length_moved|now apply length_forwarded].
Qed.

Lemma partly_other l done o new : ~ In o new -> map (partly_updated l (o :: done)) new = map (partly_updated l done) new.
Proof.
  intros N. apply map_ext_in. intros x Hx. unfold partly_updated.
  destruct (in_dec _ x (o :: done)) as [[->|J]|J], (in_dec _ x done) as [J'|J']; try reflexivity; try contradiction.
  exfalso. apply J. now right.
Qed.

Lemma split_map (f : heap_object -> list Z) l l1 o l2 : l = l1 ++ o :: l2 ->
  concat (map f l) = concat (map f l1) ++ concat (map f (o :: l2)).
Proof. intros ->. now rewrite map_app, concat_app. Qed.

(** The place of a transported object, and the words before it in tospace. *)
Lemma place_split l l1 o l2 : incl l objs -> NoDup l -> l = l1 ++ o :: l2 ->
  place l (start o) = base + total l1 /\ ~ In o l1 /\ ~ In o l2 /\ incl l1 objs.
Proof.
  intros I N E. assert (Nl : ~ In o l1 /\ ~ In o l2).
  { rewrite E in N. apply NoDup_remove_2 in N. split; intros J; apply N, in_or_app; [now left|now right]. }
  assert (I1 : incl l1 objs) by (intros x Hx; apply I; rewrite E; apply in_or_app; now left).
  assert (Io : In o objs) by (apply I; rewrite E; apply in_or_app; right; now left).
  split; [|tauto]. rewrite E. unfold GcHeap.place. rewrite place_from_skip by (apply transported_false; tauto).
  cbn [place_from]. now rewrite Z.eqb_refl.
Qed.

(** The car of a pair, put back together from its type on the chain and its datum in tospace. *)
Lemma car_restored w : word_ok w = true -> OBJECT_NEW_TYPE (OBJECT_TYPE w) (OBJECT_NEW_TYPE TC_FALSE w) = w.
Proof.
  intros W. pose proof (OBJECT_DATUM_range w). unfold OBJECT_NEW_TYPE.
  rewrite OBJECT_DATUM_MAKE by (unfold TC_FALSE; lia). apply MAKE_OBJECT_eta.
  unfold GcHeap.word_ok in W. apply andb_prop in W as [W _]. now apply object_word_p.
Qed.

Lemma update_weak_pair_step l s0 fixed n done o next s : collecting l s0 -> base = newspace_start areas + zlength fixed ->
  memory s = memory s0 -> In o l -> chained o = true -> ~ In o done -> weak_chain s = Some (start o) ->
  0 <= match next with None => 0 | Some a => a end < 2 ^ 58 ->
  memory s (start o + 1) = MAKE_OBJECT (OBJECT_TYPE (m (start o))) (match next with None => 0 | Some a => a end) ->
  tospace s = fixed ++ concat (map (partly_updated l done) l) ->
  update_weak_pairs areas (S n) s =
  update_weak_pairs areas n
    (with_weak_chain (if match next with None => 0 | Some a => a end =? 0 then None else Some (match next with None => 0 | Some a => a end))
       (with_tospace (fixed ++ concat (map (partly_updated l (o :: done)) l)) s)).
Proof.
  intros H Eb Em Il Co No Hd Nx Ew T. pose proof (transported_objects l s0 H o Il) as Io.
  destruct (chained_size o Io Co) as [K Sz]. destruct (weak_pair_words o Io K) as (_ & W1 & W2).
  pose proof (place_bounds l (start o) (transported_once l s0 H) (transported_objects l s0 H) (transported_In l o Il)) as Pb.
  destruct (in_split o l Il) as (l1 & l2 & El).
  destruct (place_split l l1 o l2 (transported_objects l s0 H) (transported_once l s0 H) El) as (Pl & N1 & N2 & I1).
  destruct (forwarded_chained l o Io Co) as [Fi Fm].
  set (A := fixed ++ concat (map (partly_updated l done) l1)).
  assert (LA : zlength A = place l (start o) - newspace_start areas).
  { unfold A. rewrite length_app, Nat2Z.inj_add, length_partly by exact I1. zlia. }
  assert (T' : tospace s = A ++ OBJECT_NEW_TYPE TC_FALSE (m (start o)) :: forward l (m (start o + 1)) :: concat (map (partly_updated l done) l2)).
  { rewrite T, (split_map (partly_updated l done) l l1 o l2 El). cbn [map concat]. rewrite app_assoc. unfold A. f_equal.
    unfold partly_updated at 1. destruct (in_dec heap_object_eq_dec o done); [contradiction|]. rewrite Fi. reflexivity. }
  assert (Ty : 0 <= OBJECT_TYPE (m (start o)) < 2 ^ 6).
  { unfold GcHeap.word_ok in W1. apply andb_prop in W1 as [W1 _]. now apply OBJECT_TYPE_range, object_word_p. }
  assert (Wt : exists a, weak_target areas (m (start o)) = Some a).
  { unfold GcHeap.chained in Co. rewrite K in Co. destruct (weak_target areas (m (start o))) as [a|]; [now exists a|discriminate]. }
  destruct Wt as [a Wt]. cbn [update_weak_pairs]. unfold cthen at 1, GET. cbn [bind]. rewrite Hd.
  unfold cthen at 1, load. rewrite (object_memory o) by (exact Io || zlia). cbn [bind].
  unfold cthen at 1, load. rewrite (object_memory o) by (exact Io || zlia). cbn [bind].
  rewrite Ew, Em, (broken_hearts l s0 H o Il). destruct (BROKEN_HEART_MAKE (place l (start o))) as [_ ->]; [zlia|].
  unfold cthen at 1, READ_TOSPACE, NEWSPACE_TO_TOSPACE, load at 1. rewrite <- LA.
  destruct (Z.ltb_spec (zlength A) 0); [zlia|]. rewrite Nat2Z.id, T', nth_error_app2, Nat.sub_diag by zlia. cbn [nth_error bind].
  rewrite OBJECT_TYPE_MAKE, OBJECT_DATUM_MAKE, car_restored by (exact Ty || exact Nx || exact W1). unfold cthen at 1.
  rewrite (weak_referent_forward_spec l s0 s _ a H Em W1 Wt). cbn [bind].
  unfold cthen at 1, WRITE_TOSPACE, NEWSPACE_TO_TOSPACE, store. rewrite <- LA, T', length_app. cbn [length].
  destruct (Z.leb_spec 0 (zlength A)); [|zlia].
  destruct (Z.ltb_spec (zlength A) (Z.of_nat (length A + S (S (length (concat (map (partly_updated l done) l2))))))); [|zlia].
  cbn [andb bind]. rewrite Nat2Z.id, update_app_length. unfold cthen at 1, SET. cbn [bind].
  rewrite (split_map (partly_updated l (o :: done)) l l1 o l2 El), (partly_other l done o l1) by exact N1. cbn [map concat].
  rewrite (partly_other l done o l2), app_assoc by exact N2. unfold partly_updated at 3. destruct (in_dec heap_object_eq_dec o (o :: done)) as [|J]; [|exfalso; apply J; now left].
  rewrite Fm. reflexivity.
Qed.

Lemma update_weak_pairs_spec l s0 fixed : collecting l s0 -> base = newspace_start areas + zlength fixed ->
  forall n pairs done s, memory s = memory s0 -> incl pairs l -> NoDup pairs ->
  (forall o, In o pairs -> chained o = true /\ ~ In o done) ->
  chain_ok (memory s) (weak_chain s) pairs -> tospace s = fixed ++ concat (map (partly_updated l done) l) ->
  (length pairs <= n)%nat ->
  exists s', update_weak_pairs areas n s = Return (tt, s') /\ memory s' = memory s0 /\
    ephemeron_count s' = ephemeron_count s /\
    tospace s' = fixed ++ concat (map (partly_updated l (rev pairs ++ done)) l).
Proof.
  intros H Eb. induction n as [|n IH]; intros pairs done s Em Ip Np Cp Ch T B;
    (destruct pairs as [|o pairs];
     [ cbn [chain_ok] in Ch; exists s; split; [cbn [update_weak_pairs]; unfold cthen, GET; cbn [bind]; rewrite Ch; reflexivity|repeat split; assumption]
     |]).
  { cbn [length] in B. lia. }
  destruct Ch as (Hd & next & Ew & Ch). assert (Il : In o l) by (apply Ip; now left).
  destruct (Cp o ltac:(now left)) as [Co No].
  assert (Nx : 0 <= match next with None => 0 | Some a => a end < 2 ^ 58 /\
    (if match next with None => 0 | Some a => a end =? 0 then None else Some (match next with None => 0 | Some a => a end)) = next).
  { destruct pairs as [|x pairs]; cbn [chain_ok] in Ch; [rewrite Ch; split; [lia|reflexivity]|]. destruct Ch as [-> _].
    assert (Ix : In x objs) by (apply (transported_objects l s0 H), Ip; right; now left). apply object_bounds in Ix.
    destruct (Z.eqb_spec (start x) 0); [lia|]. split; [lia|reflexivity]. }
  destruct Nx as [Nx En].
  rewrite (update_weak_pair_step l s0 fixed n done o next s H Eb Em Il Co No Hd Nx Ew T), En.
  apply NoDup_cons_iff in Np as [No' Np].
  destruct (IH pairs (o :: done) (with_weak_chain next (with_tospace (fixed ++ concat (map (partly_updated l (o :: done)) l)) s)))
    as (s' & R & M' & Ec & T2).
  - exact Em.
  - intros x Hx. apply Ip. now right.
  - exact Np.
  - intros x Hx. destruct (Cp x ltac:(now right)) as [Cx Nx']. split; [exact Cx|]. intros [<-|J]; [exact (No' Hx)|exact (Nx' J)].
  - exact Ch.
  - reflexivity.
  - cbn [length] in B. zlia.
  - exists s'. split; [exact R|]. split; [exact M'|]. split; [exact Ec|]. cbn [rev]. rewrite <- app_assoc. exact T2.
Qed.

Lemma update_weak_pointers_spec l s fixed : collecting l s -> base = newspace_start areas + zlength fixed ->
  tospace s = fixed ++ concat (map (forwarded_image l) l) ->
  exists s', update_weak_pointers areas fuel s = Return (tt, s') /\ memory s' = memory s /\ ephemeron_count s' = 0 /\
    tospace s' = fixed ++ concat (map (moved areas m base l) l).
Proof.
  intros H Eb T. set (pairs := rev (filter chained l)).
  assert (Ip : incl pairs l) by (intros o (J & _)%in_rev%filter_In; exact J).
  assert (P0 : forall o, partly_updated l [] o = forwarded_image l o) by reflexivity.
  assert (Ln : (length pairs <= fuel)%nat).
  { unfold pairs. rewrite length_rev. pose proof (filter_length_le chained l).
    pose proof (NoDup_incl_length (transported_once l s H) (transported_objects l s H)).
    pose proof (layout_total _ _ _ heap_layout). lia. }
  set (s1 := with_ephemeron_list SHARP_F (with_scanning_ephemerons_p false (with_scanning_ephemerons_p true s))).
  destruct (update_weak_pairs_spec l s fixed H Eb fuel pairs [] s1) as (s' & R & M & Ec & T').
  - reflexivity.
  - exact Ip.
  - unfold pairs. apply NoDup_rev, NoDup_filter, (transported_once l s H).
  - intros o (_ & C)%in_rev%filter_In. split; [exact C|intros []].
  - exact (weak_pairs_chained l s H).
  - rewrite (map_ext _ _ P0). exact T.
  - exact Ln.
  - exists s'. split; [|split; [exact M|split; [rewrite Ec; exact (no_ephemeron_counted l s H)|]]].
    + rewrite <- R. unfold update_weak_pointers, scan_ephemerons, update_ephemerons, cthen, GET, SET. cbn [bind].
      rewrite (no_ephemeron_list l s H).
      assert (E1 : forall k t, scan_ephemeron_list areas fuel k SHARP_F t = Return (tt, t)) by (intros [|k] t; reflexivity).
      assert (E2 : forall k t, update_ephemeron_loop areas k SHARP_F t = Return (tt, t)) by (intros [|k] t; reflexivity).
      assert (E3 : forall k t, ephemeron_queue t = SHARP_F -> scan_ephemeron_queue areas fuel k t = Return (tt, t)).
      { intros [|k] t Q; cbn [scan_ephemeron_queue]; unfold cthen, GET; cbn [bind]; rewrite Q; reflexivity. }
      rewrite E1. cbn [bind]. rewrite E3 by exact (no_ephemeron_queue l s H). cbn [bind ephemeron_list with_scanning_ephemerons_p].
      rewrite (no_ephemeron_list l s H), E2. reflexivity.
    + rewrite T'. f_equal. f_equal. apply map_ext_in. intros o Io. unfold partly_updated.
      destruct (in_dec heap_object_eq_dec o (rev pairs ++ [])) as [J|J]; [reflexivity|].
      apply forwarded_unchained; [exact (transported_objects l s H o Io)|].
      destruct (chained o) eqn:C; [|reflexivity]. exfalso. apply J. rewrite app_nil_r. apply -> in_rev. apply -> in_rev.
      apply filter_In. now split.
Qed.

End Transport.
