(* ===== verification/GcCorrect.v ===== *)
(** * A garbage collection keeps what is reachable

    [gc_ready] is what a collection relies on; the theorems say what it leaves. *)

From Stdlib Require Import ZArith List Bool Lia.
From S2P Require Import Prelude Object GcLoop GcHeap GcInvariant GcTransport GarbageCollect.
Import ListNotations.

#[local] Open Scope Z_scope.

Definition stack_words (r : storage) : list Z := slice (words r) (stack_pointer r) (stack_end r - stack_pointer r).
Definition constant_words (r : storage) : list Z := slice (words r) (constant_start r) (constant_alloc_next r - constant_start r).
Definition history_object (r : storage) : Z := MAKE_OBJECT UNMARKED_HISTORY_TYPE (history_register r).

(** The words a collection starts from. *)
Definition roots (r : storage) : list Z :=
  [fixed_objects r; history_object r] ++ scannable 0 (stack_words r) ++ scannable 0 (constant_words r).

(** The areas lie in their order, with a reserve of words at the end of the heap. *)
Definition areas_in_order (r : storage) : bool :=
  (0 <=? stack_pointer r) && (stack_pointer r <=? stack_end r) && (stack_end r <=? constant_start r) &&
  (constant_start r <=? constant_alloc_next r) && (constant_alloc_next r <=? heap_start r) &&
  (9 <? heap_start r) && (Free r + 14 <=? heap_end r) && (heap_end r <? 2 ^ 58) &&
  (Free r - heap_start r + 2 <=? tospace_words r) && (heap_alloc_limit r <=? heap_end r) && (0 <=? n_ephemerons_requested r).

(** The heap is laid out in objects that are in order, and so are the roots. *)
Definition heap_in_order (r : storage) (objs : list heap_object) : bool :=
  let areas := areas_of r in
  layout (heap_start r) objs (Free r) && forallb (object_ok areas (words r) objs) objs &&
  region_ok areas objs 0 (stack_words r) && region_ok areas objs 0 (constant_words r) &&
  word_ok areas objs (fixed_objects r) && word_ok areas objs (history_object r) &&
  (0 <=? history_register r) && (history_register r <? 2 ^ 58).

Definition gc_ready (r : storage) (objs : list heap_object) : bool := areas_in_order r && heap_in_order r objs.

(** The reachable objects of a storage, and the address of the first that moves. *)
Definition live_object (r : storage) (objs : list heap_object) : heap_object -> Prop :=
  reachable (areas_of r) (words r) objs (roots r).
Definition first_place (r : storage) : Z := heap_start r + 2.

(** ** The length of the table of ephemerons *)

Lemma primes_increasing i j : (i < j < length primes)%nat -> prime_at i < prime_at j.
Proof.
  intros H. assert (E : forallb (fun i => forallb (fun j => negb (Nat.ltb i j) || (prime_at i <? prime_at j)) (seq 0 (length primes)))
    (seq 0 (length primes)) = true) by (vm_compute; reflexivity).
  rewrite forallb_forall in E. specialize (E i). rewrite in_seq in E. specialize (E ltac:(lia)).
  rewrite forallb_forall in E. specialize (E j). rewrite in_seq in E. specialize (E ltac:(lia)).
  destruct (Nat.ltb_spec i j); [|lia]. cbn [negb orb] in E. lia.
Qed.

Lemma prime_search_spec n fuel : forall start tend, (start < tend <= length primes)%nat -> (tend - start < fuel)%nat ->
  (forall i, (i < start)%nat -> prime_at i < n) -> (forall i, (tend <= i < length primes)%nat -> n < prime_at i) ->
  (exists i, (i < length primes)%nat /\ n <= prime_at i) ->
  returns (prime_search fuel n start tend) (fun p =>
    exists k, (k < length primes)%nat /\ p = prime_at k /\ n <= p /\ forall i, (i < k)%nat -> prime_at i < n).
Proof.
  induction fuel as [|fuel IH]; intros start tend B F Lo Hi Ex; [lia|]. cbn [prime_search].
  set (index := (start + (tend - start) / 2)%nat).
  assert (Bi : (start <= index < tend)%nat).
  { unfold index. pose proof (Nat.div_lt (tend - start) 2). lia. }
  destruct (Z.ltb_spec (prime_at index) n) as [Lt|Ge].
  - assert (Lo' : forall i, (i < index + 1)%nat -> prime_at i < n).
    { intros i Hi'. destruct (Nat.eq_dec i index) as [->|]; [exact Lt|].
      pose proof (primes_increasing i index ltac:(lia)). lia. }
    destruct (Nat.ltb_spec (index + 1) tend); [apply IH; (assumption || lia)|]. ret_now.
    assert (Hk : (index + 1 < length primes)%nat).
    { destruct Ex as (i & Hi1 & Hi2). destruct (Nat.ltb_spec i (index + 1)); [pose proof (Lo' i ltac:(lia)); lia|lia]. }
    exists (index + 1)%nat. split; [exact Hk|]. split; [reflexivity|]. split; [|exact Lo'].
    pose proof (Hi (index + 1)%nat ltac:(lia)). lia.
  - destruct (Z.ltb_spec n (prime_at index)) as [Lt|Ge'].
    + assert (Hi' : forall i, (index <= i < length primes)%nat -> n < prime_at i).
      { intros i Bi'. destruct (Nat.eq_dec i index) as [->|]; [exact Lt|]. pose proof (primes_increasing index i ltac:(lia)). lia. }
      destruct (Nat.ltb_spec start index); [apply IH; (assumption || lia)|]. ret_now.
      exists start. split; [lia|]. split; [reflexivity|]. split; [|exact Lo]. pose proof (Hi' start ltac:(lia)). lia.
    + ret_now. exists index. split; [lia|]. split; [reflexivity|]. split; [lia|]. intros i Hi'.
      pose proof (primes_increasing i index ltac:(lia)). lia.
Qed.

(** The least entry that is at least [n], if there is one. *)
Lemma ephemeron_array_length_least n : returns (compute_ephemeron_array_length n) (fun p =>
  In p primes /\ ((forall q, In q primes -> n <= q -> p <= q) /\ n <= p \/ (forall q, In q primes -> q <= p) /\ p < n)).
Proof.
  unfold compute_ephemeron_array_length. change (length primes - 1)%nat with 27%nat.
  assert (Last : forall q, In q primes -> q <= prime_at 27).
  { intros q (i & Hi & <-)%(In_nth _ _ 0). fold (prime_at i). destruct (Nat.eq_dec i 27) as [->|]; [lia|].
    pose proof (primes_increasing i 27). cbn [primes length] in *. lia. }
  destruct (Z.ltb_spec (prime_at 27) n).
  - ret_now. split; [apply nth_In; cbn; lia|]. right. split; [exact Last|assumption].
  - eapply returns_weaken; [apply prime_search_spec; try (cbn [primes length]; lia)|cbv beta].
    { exists 27%nat. split; [cbn; lia|assumption]. }
    intros p (k & Hk & -> & Hn & Lo). split; [now apply nth_In|]. left. split; [|assumption].
    intros q (i & Hi & <-)%(In_nth _ _ 0) Hq. fold (prime_at i) in *.
    destruct (Nat.ltb_spec i k); [pose proof (Lo i ltac:(lia)); lia|].
    destruct (Nat.eq_dec i k) as [->|]; [lia|]. pose proof (primes_increasing k i ltac:(lia)). lia.
Qed.

Lemma layout_ordered objs : forall a b, layout a objs b = true -> a <= b.
Proof.
  intros a b H. pose proof (layout_total objs a b H) as [H1 H2]. lia.
Qed.

Section Collection.

Context (r : storage) (objs : list heap_object).

Hypothesis ready : gc_ready r objs = true.

#[local] Notation areas := (areas_of r).
#[local] Notation m := (words r).
#[local] Notation base := (first_place r).
#[local] Notation fuel := (gc_fuel r).
#[local] Notation live := (live_object r objs).
#[local] Notation collecting := (collecting areas m objs live base).

(** [gc_ready] read as propositions. *)
Record readiness : Prop := {
  ready_areas : 0 <= stack_pointer r <= stack_end r /\ stack_end r <= constant_start r <= constant_alloc_next r /\
    constant_alloc_next r <= heap_start r /\ 9 < heap_start r /\ heap_start r <= Free r /\ Free r + 14 <= heap_end r /\ heap_end r < 2 ^ 58 /\
    Free r - heap_start r + 2 <= tospace_words r;
  ready_limit : heap_alloc_limit r <= heap_end r;
  ready_layout : layout (fromspace_start areas) objs (fromspace_end areas) = true;
  ready_objects : forallb (object_ok areas m objs) objs = true;
  ready_stack : region_ok areas objs 0 (stack_words r) = true;
  ready_constants : region_ok areas objs 0 (constant_words r) = true;
  ready_fixed : word_ok areas objs (fixed_objects r) = true;
  ready_history : word_ok areas objs (history_object r) = true;
  ready_register : 0 <= history_register r < 2 ^ 58;
  ready_request : 0 <= n_ephemerons_requested r
}.

Lemma is_ready : readiness.
Proof.
  unfold gc_ready, areas_in_order, heap_in_order in ready. apply andb_prop in ready as [A H].
  repeat (apply andb_prop in A as [A ?A]). repeat (apply andb_prop in H as [H ?H]).
  pose proof (layout_ordered _ _ _ H). split; try assumption; lia.
Qed.

Lemma live_closed o w o' : live o -> In w (scannable 0 (image areas m o)) ->
  target areas w = Some (start o') -> In o' objs -> live o'.
Proof. apply reachable_step. Qed.

Lemma roots_live w : In w (roots r) -> word_live areas objs live w.
Proof. intros I o T J. now apply reachable_root with w. Qed.

(** The state when the two registers are in tospace. *)
Definition registers_saved : gc_state := with_tospace [fixed_objects r; history_object r] (open_tospace m).

Lemma registers_saved_spec : collecting [] registers_saved.
Proof.
  split; try reflexivity; try (constructor; fail); try (intros ? []).
  cbn. unfold first_place. lia.
Qed.

(** What a scan of the stack or of constant space finds. *)
Lemma outside_fromspace b : 0 <= b < heap_start r -> ADDRESS_IN_FROMSPACE_P areas b = false /\ in_memory areas b = true.
Proof.
  intros B. destruct (ready_areas is_ready) as (_ & _ & _ & _ & Lf & Le & _).
  unfold ADDRESS_IN_FROMSPACE_P, in_memory. cbn [areas_of fromspace_start fromspace_end memory_end]. lia.
Qed.

Lemma scan_area l s a n ws : collecting l s -> 0 <= a -> 0 <= n -> a + n <= heap_start r ->
  ws = slice m a n -> slice (memory s) a n = ws -> region_ok areas objs 0 ws = true -> incl (scannable 0 ws) (roots r) ->
  exists new s', gc_scan_oldspace areas fuel a (a + n) s = Return (tt, s') /\
    area_scanned areas m objs live base l new a ws s s'.
Proof.
  intros H Ha Hn B Ew E R I. destruct (ready_areas is_ready) as (A1 & A2 & A3 & A4 & A5 & A6 & A7 & A8).
  assert (L : zlength ws = n) by (rewrite Ew; now apply length_slice). rewrite <- L in E. unfold gc_scan_oldspace.
  replace (a + n) with (a + zlength ws) by lia.
  apply scan_oldspace; try assumption; cbn [areas_of fromspace_start fromspace_end memory_end newspace_start tospace_size]; unfold first_place, gc_fuel; try lia.
  - exact (ready_layout is_ready).
  - exact (ready_objects is_ready).
  - exact live_closed.
  - intros b Hb. apply outside_fromspace. lia.
  - apply Forall_forall. intros w Hw. apply roots_live, I, Hw.
Qed.

(** Part 1 of a collection: the objects transported, in order, and the state left. *)
Record part_one (l : list heap_object) (s : gc_state) : Prop := {
  kept_once : NoDup l;
  kept_reachable : forall o, In o l <-> live o;
  kept_size : total l <= Free r - heap_start r;
  tospace_contents : tospace s = [forward areas base l (fixed_objects r); forward areas base l (history_object r)]
    ++ concat (map (moved areas m base l) l);
  stack_forwarded : slice (memory s) (stack_pointer r) (stack_end r - stack_pointer r) = forward_region areas base l 0 (stack_words r);
  constants_forwarded : slice (memory s) (constant_start r) (constant_alloc_next r - constant_start r)
    = forward_region areas base l 0 (constant_words r);
  no_ephemerons_left : ephemeron_count s = 0
}.

Lemma low_fromspace : 9 < fromspace_start areas.
Proof. destruct (ready_areas is_ready) as (_ & _ & _ & H & _). exact H. Qed.

Lemma newspace_below_base : 0 <= newspace_start areas <= base.
Proof. destruct (ready_areas is_ready) as (_ & _ & _ & H & _). cbn [areas_of newspace_start]. unfold first_place. lia. Qed.

Lemma newspace_small : base + (fromspace_end areas - fromspace_start areas) < 2 ^ 58.
Proof.
  destruct (ready_areas is_ready) as (_ & _ & _ & _ & A5 & A6 & A7 & _).
  cbn [areas_of fromspace_start fromspace_end]. unfold first_place. lia.
Qed.

#[local] Notation place_bounds :=
  (place_bounds areas fuel m objs base (ready_layout is_ready) (ready_objects is_ready) newspace_below_base newspace_small).
#[local] Notation place_split :=
  (place_split areas fuel m objs base (ready_layout is_ready) (ready_objects is_ready) newspace_below_base).
#[local] Notation length_moved :=
  (length_moved areas fuel m objs base (ready_layout is_ready) (ready_objects is_ready) low_fromspace).
#[local] Notation target_object :=
  (target_object areas fuel m objs (ready_layout is_ready) (ready_objects is_ready)).
#[local] Notation transported_iff := (transported_iff areas fuel m objs (ready_layout is_ready) (ready_objects is_ready)).

(** The words that are covered cover what they reach. *)
Lemma covered_reachable l : incl l objs -> Forall (covered areas l) (roots r) ->
  Forall (covered areas l) (scannable 0 (concat (map (image areas m) l))) -> forall o, live o -> In o l.
Proof.
  intros I C D.
  assert (T : forall w o, covered areas l w -> target areas w = Some (start o) -> In o objs -> In o l).
  { intros w o Cw T Io. unfold covered in Cw. rewrite T in Cw. now apply transported_iff in Cw. }
  induction 1 as [w o J Tw Io|o w o' _ IH J Tw Io]; [exact (T w o (proj1 (Forall_forall _ _) C w J) Tw Io)|].
  refine (T w o' (proj1 (Forall_forall _ _) D w _) Tw Io).
  exact (images_words areas fuel m objs (ready_layout is_ready) (ready_objects is_ready) l o w I IH J).
Qed.

(** The two scans of oldspace. *)
Lemma scan_areas : exists l s,
  (forall k : unit -> collector Z, cthen (gc_scan_oldspace areas fuel (stack_pointer r) (stack_end r))
      (fun _ => cthen (gc_scan_oldspace areas fuel (constant_start r) (constant_alloc_next r)) k) registers_saved = k tt s) /\
  collecting l s /\ tospace s = [fixed_objects r; history_object r] ++ concat (map (image areas m) l) /\
  slice (memory s) (stack_pointer r) (stack_end r - stack_pointer r) = forward_region areas base l 0 (stack_words r) /\
  slice (memory s) (constant_start r) (constant_alloc_next r - constant_start r) = forward_region areas base l 0 (constant_words r) /\
  Forall (covered areas l) (scannable 0 (stack_words r)) /\ Forall (covered areas l) (scannable 0 (constant_words r)).
Proof.
  destruct (ready_areas is_ready) as (A1 & A2 & A3 & A4 & A5 & A6 & A7 & A8).
  assert (Ls : zlength (stack_words r) = stack_end r - stack_pointer r) by (apply length_slice; lia).
  assert (Lc : zlength (constant_words r) = constant_alloc_next r - constant_start r) by (apply length_slice; lia).
  destruct (scan_area [] registers_saved (stack_pointer r) (stack_end r - stack_pointer r) (stack_words r))
    as (n1 & s1 & E1 & [C1 T1 W1 V1 O1]); try lia; try reflexivity.
  { apply registers_saved_spec. }
  { exact (ready_stack is_ready). }
  { intros w Hw. apply in_or_app. right. apply in_or_app. now left. }
  replace (stack_pointer r + (stack_end r - stack_pointer r)) with (stack_end r) in E1 by lia.
  cbn [app] in C1, W1, V1. rewrite Ls in *.
  assert (F : forall b, 0 <= b < heap_start r -> ADDRESS_IN_FROMSPACE_P areas b = false) by (intros b Hb; now apply outside_fromspace).
  destruct (scan_area n1 s1 (constant_start r) (constant_alloc_next r - constant_start r) (constant_words r))
    as (n2 & s2 & E2 & [C2 T2 W2 V2 O2]); try lia; try reflexivity; try exact C1.
  { apply slice_ext. intros b Hb. rewrite O1; [reflexivity|apply F; lia|lia]. }
  { exact (ready_constants is_ready). }
  { intros w Hw. apply in_or_app. right. apply in_or_app. now right. }
  replace (constant_start r + (constant_alloc_next r - constant_start r)) with (constant_alloc_next r) in E2 by lia.
  rewrite Lc in *. exists (n1 ++ n2), s2. split.
  { intros k. unfold cthen at 1. rewrite E1. cbn [bind]. unfold cthen. rewrite E2. reflexivity. }
  split; [exact C2|]. split; [rewrite T2, T1, map_app, concat_app, app_assoc; reflexivity|]. split; [|split; [exact W2|split; [|exact V2]]].
  - rewrite (forward_region_ext areas) by exact V1. rewrite <- W1. apply slice_ext. intros b Hb. apply O2; [apply F; lia|lia].
  - refine (Forall_impl _ _ V1). intros w. apply covered_app.
Qed.

Lemma registers_region : region_ok areas objs 0 [fixed_objects r; history_object r] = true /\
  scannable 0 [fixed_objects r; history_object r] = [fixed_objects r; history_object r].
Proof.
  assert (H : forallb (word_ok areas objs) [fixed_objects r; history_object r] = true).
  { cbn [forallb]. now rewrite (ready_fixed is_ready), (ready_history is_ready). }
  split; [now apply words_ok_region|now apply words_ok_scannable in H].
Qed.

(** The scan of tospace, from the registers on. *)
Lemma scan_all l s : collecting l s -> tospace s = [fixed_objects r; history_object r] ++ concat (map (image areas m) l) ->
  exists new s', run_gc_loop areas fuel fuel (Tospace 0) None s = Return (tt, s') /\ collecting (l ++ new) s' /\
    tospace s' = [forward areas base (l ++ new) (fixed_objects r); forward areas base (l ++ new) (history_object r)]
      ++ concat (map (forwarded_image areas m base (l ++ new)) (l ++ new)) /\
    (Forall (covered areas (l ++ new)) [fixed_objects r; history_object r] /\
     Forall (covered areas (l ++ new)) (scannable 0 (concat (map (image areas m) (l ++ new))))) /\
    (forall b, ADDRESS_IN_FROMSPACE_P areas b = false -> memory s' b = memory s b).
Proof.
  intros C T. destruct (ready_areas is_ready) as (A1 & A2 & A3 & A4 & A5 & A6 & A7 & A8).
  destruct registers_region as [Rg Sg].
  pose proof (images_region areas fuel m objs (ready_layout is_ready) (ready_objects is_ready)) as Ri.
  pose proof (transported_objects _ _ _ _ _ _ _ C) as I. pose proof (transported_live _ _ _ _ _ _ _ C) as L.
  destruct (scan_tospace areas fuel m objs live base) with (n := fuel) (l := l) (s := s) (done := @nil Z)
    (todo := [fixed_objects r; history_object r] ++ concat (map (image areas m) l)) as (new & s' & E & [C' T' V O]);
    try exact (ready_layout is_ready); try exact (ready_objects is_ready); try exact live_closed;
    try (cbn [areas_of fromspace_start fromspace_end memory_end newspace_start tospace_size]; unfold first_place, gc_fuel; cbn [length]; lia).
  { exact C. }
  { exact T. }
  { reflexivity. }
  { exact (region_ok_app areas objs _ _ 0 Rg (Ri l I)). }
  { constructor. }
  { rewrite (scannable_app areas objs) by exact Rg. apply Forall_app. split.
    - rewrite Sg. apply Forall_forall. intros w Hw. apply roots_live, in_or_app. now left.
    - exact (images_live areas fuel m objs live (ready_layout is_ready) (ready_objects is_ready) live_closed l I L). }
  pose proof (transported_objects _ _ _ _ _ _ _ C') as I'.
  exists new, s'. split; [exact E|]. split; [exact C'|]. cbn [app] in T', V.
  change (fixed_objects r :: history_object r :: concat (map (image areas m) l) ++ concat (map (image areas m) new))
    with ([fixed_objects r; history_object r] ++ (concat (map (image areas m) l) ++ concat (map (image areas m) new))) in T', V.
  rewrite <- concat_app, <- map_app in T', V. rewrite (scannable_app areas objs) in V by exact Rg. rewrite Sg in V.
  apply Forall_app in V. split; [|split; [exact V|exact O]].
  rewrite T', (forward_region_app areas objs) by exact Rg. f_equal.
  - pose proof (word_ok_scannable _ _ _ (ready_fixed is_ready)) as [M1 _]. pose proof (word_ok_scannable _ _ _ (ready_history is_ready)) as [M2 _].
    rewrite (forward_region_cons _ _ _ _ _ M1), (forward_region_cons _ _ _ _ _ M2). reflexivity.
  - exact (forward_images areas fuel m objs base (ready_layout is_ready) (ready_objects is_ready) (l ++ new) (l ++ new) I').
Qed.

Lemma part_one_spec : exists l s, std_gc_pt1 r (open_tospace m) = Return (heap_start r, s) /\ part_one l s.
Proof.
  destruct (ready_areas is_ready) as (A1 & A2 & A3 & A4 & A5 & A6 & A7 & A8).
  unfold std_gc_pt1. cbv zeta. unfold cthen at 1, get_newspace_ptr, GET. cbn [bind open_tospace tospace length areas_of newspace_start].
  rewrite Z.add_0_r.
  assert (R1 : add_to_tospace areas (fixed_objects r) (open_tospace m) = Return (tt, with_tospace [fixed_objects r] (open_tospace m))).
  { unfold add_to_tospace. cbn [tospace open_tospace length areas_of tospace_size Z.of_nat app].
    destruct (Z.ltb_spec 0 (tospace_words r)); [reflexivity|lia]. }
  assert (R2 : add_to_tospace areas (history_object r) (with_tospace [fixed_objects r] (open_tospace m)) = Return (tt, registers_saved)).
  { unfold add_to_tospace. cbn [tospace with_tospace length areas_of tospace_size app]. change (Z.of_nat 1) with 1.
    destruct (Z.ltb_spec 1 (tospace_words r)); [reflexivity|lia]. }
  unfold cthen at 1. rewrite R1. cbn [bind]. unfold cthen at 1. fold (history_object r). rewrite R2. cbn [bind].
  destruct scan_areas as (l1 & s1 & E1 & C1 & T1 & Ws & Wc & Vs & Vc). rewrite E1.
  destruct (scan_all l1 s1 C1 T1) as (n & s2 & E2 & C2 & T2 & V2 & O2).
  set (l := l1 ++ n) in *. unfold cthen at 1, gc_scan_tospace, NEWSPACE_TO_TOSPACE. cbn [areas_of newspace_start].
  rewrite Z.sub_diag, E2. cbn [bind]. unfold cthen at 1.
  pose proof (transported_objects _ _ _ _ _ _ _ C2) as I2. pose proof (transported_once _ _ _ _ _ _ _ C2) as N2.
  destruct (update_weak_pointers_spec areas fuel m objs live base) with (l := l) (s := s2)
    (fixed := [forward areas base l (fixed_objects r); forward areas base l (history_object r)]) as (s3 & E3 & M3 & K3 & T3);
    try assumption; try exact (ready_layout is_ready); try exact (ready_objects is_ready);
    try (cbn [areas_of fromspace_start fromspace_end memory_end newspace_start]; unfold first_place, gc_fuel; cbn [length]; lia).
  rewrite E3. cbn [bind]. exists l, s3. split; [reflexivity|].
  pose proof (total_bound areas fuel m objs (ready_layout is_ready) (ready_objects is_ready) l N2 I2) as B.
  destruct V2 as [Vr V2]. assert (Vs' : Forall (covered areas l) (scannable 0 (stack_words r))).
  { refine (Forall_impl _ _ Vs). intros w. apply covered_app. }
  assert (Vc' : Forall (covered areas l) (scannable 0 (constant_words r))).
  { refine (Forall_impl _ _ Vc). intros w. apply covered_app. }
  split; [exact N2| |exact B|exact T3| | |exact K3].
  - intros o. split; [intros Io; exact (proj1 (Forall_forall _ _) (transported_live _ _ _ _ _ _ _ C2) o Io)|].
    apply covered_reachable; [exact I2| |exact V2]. apply Forall_app. split; [exact Vr|]. apply Forall_app. now split.
  - rewrite M3. unfold l. rewrite (forward_region_ext areas) by exact Vs. rewrite <- Ws. apply slice_ext. intros b Hb. apply O2, outside_fromspace. lia.
  - rewrite M3. unfold l. rewrite (forward_region_ext areas) by exact Vc. rewrite <- Wc. apply slice_ext. intros b Hb. apply O2, outside_fromspace. lia.
Qed.

(** ** The registers after the collection *)

(** [l] is the list of the objects that moved, in their new order: the reachable
    ones, each once.  Every word that was scanned is forwarded, the cars of weak
    pairs when their objects moved. *)
Record collected (l : list heap_object) (r' : storage) : Prop := {
  moved_once : NoDup l;
  moved_reachable : forall o, In o l <-> live o;
  moved_size : total l <= Free r - heap_start r;
  moved_objects : forall o, In o l -> slice (words r') (place base l (start o)) (size o) = moved areas m base l o;
  fixed_forwarded : fixed_objects r' = forward areas base l (fixed_objects r);
  history_forwarded : history_object r' = forward areas base l (history_object r);
  history_in_range : 0 <= history_register r' < 2 ^ 58;
  stack_moved : stack_words r' = forward_region areas base l 0 (stack_words r);
  constants_moved : constant_words r' = forward_region areas base l 0 (constant_words r);
  areas_kept : (stack_pointer r', stack_end r', constant_start r', constant_alloc_next r', heap_start r', heap_alloc_limit r', heap_end r', tospace_words r')
    = (stack_pointer r, stack_end r, constant_start r, constant_alloc_next r, heap_start r, heap_alloc_limit r, heap_end r, tospace_words r);
  table_allocated : exists n, In n primes /\ Free r' = base + total l + VECTOR_DATA + n /\ Free r' <= heap_end r /\
    ephemeron_table r' = MAKE_OBJECT TC_VECTOR (base + total l) /\
    slice (words r') (base + total l) (1 + n) = MAKE_OBJECT TC_MANIFEST_VECTOR n :: repeat SHARP_F (Z.to_nat n);
  gc_interrupt_cleared : INT_CODE r' = Z.ldiff (INT_CODE r) INT_GC;
  requests_cleared : n_ephemerons_requested r' = 0
}.

Lemma slice_nth (f : Z -> Z) l : forall a, (forall i, 0 <= i < zlength l -> f (a + i) = nth (Z.to_nat i) l 0) -> slice f a (zlength l) = l.
Proof.
  induction l as [|x l IH]; intros a H; [reflexivity|]. cbn [length]. rewrite slice_cons by lia. f_equal.
  - specialize (H 0). rewrite Z.add_0_r in H. apply H. cbn [length]. lia.
  - replace (Z.of_nat (S (length l)) - 1) with (zlength l) by lia. apply IH. intros i Hi.
    replace (a + 1 + i) with (a + (1 + i)) by lia. rewrite H by (cbn [length]; lia).
    replace (Z.to_nat (1 + i)) with (S (Z.to_nat i)) by lia. reflexivity.
Qed.

Lemma nth_middle (A x B : list Z) i : 0 <= i < zlength x -> nth (Z.to_nat (zlength A + i)) (A ++ x ++ B) 0 = nth (Z.to_nat i) x 0.
Proof.
  intros Hi. rewrite app_nth2 by lia. rewrite app_nth1 by lia. f_equal. lia.
Qed.

Lemma part_one_objects l s : part_one l s -> incl l objs.
Proof. intros P o Io. apply (kept_reachable l s P) in Io. now destruct Io. Qed.

Lemma length_moved_words l new : incl new objs -> zlength (concat (map (moved areas m base l) new)) = total new.
Proof.
  induction new as [|o new IH]; intros H; [reflexivity|]. cbn [map concat total fold_right]. fold (total new).
  rewrite length_app, Nat2Z.inj_add, IH by (intros x Hx; apply H; now right). f_equal.
  apply length_moved, H. now left.
Qed.

Lemma part_one_length l s : part_one l s -> zlength (tospace s) = 2 + total l.
Proof.
  intros P. rewrite (tospace_contents l s P), length_app, Nat2Z.inj_add.
  rewrite length_moved_words by exact (part_one_objects l s P). reflexivity.
Qed.

(** The object at a place in tospace. *)
Lemma object_in_tospace l s o i : part_one l s -> In o l -> 0 <= i < size o ->
  nth (Z.to_nat (place base l (start o) + i - heap_start r)) (tospace s) 0 = nth (Z.to_nat i) (moved areas m base l o) 0 /\
  base <= place base l (start o) /\ place base l (start o) + i < base + total l.
Proof.
  intros P Io Hi. pose proof (part_one_objects l s P) as Il. destruct (in_split o l Io) as (l1 & l2 & El).
  destruct (place_split l l1 o l2 Il (kept_once l s P) El) as (-> & _ & _ & I1).
  pose proof (length_moved l o (Il o Io)) as Lm.
  pose proof (length_moved_words l l1 I1) as L1.
  assert (Tl : total l = total l1 + (size o + total l2)) by (rewrite El, total_app; reflexivity).
  assert (0 <= total l1 /\ 0 <= total l2).
  { rewrite <- L1, <- (length_moved_words l l2); [lia|]. intros x Hx. apply Il. rewrite El. apply in_or_app. right. now right. }
  split; [|lia]. rewrite (tospace_contents l s P), (split_map (moved areas m base l) l l1 o l2 El). cbn [map concat].
  rewrite (app_assoc [_; _]).
  replace (base + total l1 + i - heap_start r) with
    (zlength ([forward areas base l (fixed_objects r); forward areas base l (history_object r)] ++ concat (map (moved areas m base l) l1)) + i)
    by (rewrite length_app, Nat2Z.inj_add, L1; unfold first_place; cbn [length]; lia).
  apply nth_middle. lia.
Qed.

(** A root's reference is to an object that moves. *)
Lemma root_moves l s w a : part_one l s -> In w (roots r) -> word_ok areas objs w = true -> target areas w = Some a ->
  0 <= place base l a < 2 ^ 58.
Proof.
  intros P I W T. assert (T' := T). unfold target in T'. destruct (classify w) as [|k| |] eqn:C; try discriminate T'.
  destruct (ADDRESS_IN_FROMSPACE_P areas (OBJECT_DATUM w)) eqn:F; [|discriminate T'].
  destruct (target_object w k W C F) as (o & Io & So & _ & To). rewrite T in To. injection To as ->.
  apply place_bounds; [exact (kept_once l s P)|exact (part_one_objects l s P)|].
  apply transported_In, (kept_reachable l s P). exact (reachable_root _ _ _ _ w o I T Io).
Qed.

Lemma history_type l s : part_one l s ->
  MAKE_OBJECT UNMARKED_HISTORY_TYPE (OBJECT_DATUM (forward areas base l (history_object r))) = forward areas base l (history_object r).
Proof.
  intros P. pose proof (ready_register is_ready) as B. unfold forward.
  assert (U : 0 <= UNMARKED_HISTORY_TYPE < 2 ^ 6) by (unfold UNMARKED_HISTORY_TYPE, TC_HUNK3_A; lia).
  destruct (target areas (history_object r)) as [a|] eqn:T.
  - assert (Pa : 0 <= place base l a < 2 ^ 58).
    { apply (root_moves l s (history_object r)); [exact P|right; now left|exact (ready_history is_ready)|exact T]. }
    unfold OBJECT_NEW_DATUM, history_object. rewrite OBJECT_TYPE_MAKE, OBJECT_DATUM_MAKE by assumption. reflexivity.
  - unfold history_object. now rewrite OBJECT_DATUM_MAKE.
Qed.

(** Part 2: the registers, with the table of ephemerons behind the objects. *)
Definition finished (s : gc_state) (n needed : Z) : storage :=
  let r1 := after_copy r (heap_start r) s in
  let (table, mem) := make_vector (words r1) (Free r1) n SHARP_F in
  Storage mem (memory_block_base r) (stack_pointer r) (stack_end r) (constant_start r) (constant_alloc_next r)
    (heap_start r) (Free r1 + VECTOR_DATA + n) (heap_alloc_limit r) (heap_end r) (heap_reserved r) (tospace_words r)
    (fixed_objects r1) (history_register r1) table 0 false needed (Z.ldiff (INT_CODE r) INT_GC).

Lemma part_two_spec l s : part_one l s -> exists n needed,
  std_gc_pt2 r (heap_start r) s = Return (finished s n needed) /\ In n primes /\ base + total l + VECTOR_DATA + n <= heap_end r.
Proof.
  intros P. destruct (ready_areas is_ready) as (A1 & A2 & A3 & A4 & A5 & A6 & A7 & A8).
  pose proof (kept_size l s P) as B. pose proof (part_one_length l s P) as Ln. pose proof (ready_limit is_ready) as Rl.
  pose proof (ready_request is_ready) as Rq.
  unfold std_gc_pt2. cbv zeta. set (r1 := after_copy r (heap_start r) s).
  assert (F1 : Free r1 = base + total l) by (unfold r1, first_place; cbn [Free after_copy]; lia).
  assert (H1 : heap_end r1 = heap_end r) by reflexivity.
  rewrite H1, F1. destruct (Z.ltb_spec (heap_end r) (base + total l)) as [X|_]; [unfold first_place in X; lia|]. cbn [bind].
  destruct (ephemeron_array_length_least (to_ulong (ephemeron_count s + n_ephemerons_requested r1))) as (n0 & -> & I0 & _). cbn [bind].
  destruct (HEAP_AVAILABLE_P r1 (VECTOR_DATA + n0 + n_ephemerons_requested r1 * EPHEMERON_SIZE)) eqn:A; cbn [bind].
  - assert (R : base + total l + (VECTOR_DATA + n0) <= heap_end r).
    { unfold HEAP_AVAILABLE_P in A. apply andb_prop in A as [_ A]. rewrite F1 in A. change (heap_alloc_limit r1) with (heap_alloc_limit r) in A.
      change (n_ephemerons_requested r1) with (n_ephemerons_requested r) in A. unfold EPHEMERON_SIZE in A. lia. }
    destruct (Z.ltb_spec (heap_end r) (base + total l + (VECTOR_DATA + n0))) as [X|_]; [lia|].
    exists n0, (gc_space_needed r1). split; [|split; [exact I0|lia]]. unfold finished. cbv zeta. fold r1. rewrite F1. reflexivity.
  - rewrite (no_ephemerons_left l s P).
    replace (compute_ephemeron_array_length 0) with (Return 11) by (vm_compute; reflexivity). cbn [bind].
    destruct (Z.ltb_spec (heap_end r) (base + total l + (VECTOR_DATA + 11))) as [X|_]; [unfold first_place, VECTOR_DATA in X; lia|].
    eexists 11, _. split; [|split; [now left|unfold first_place, VECTOR_DATA; lia]]. unfold finished. cbv zeta. fold r1. rewrite F1. reflexivity.
Qed.

Lemma copied_word s a : heap_start r <= a < heap_start r + zlength (tospace s) ->
  save_tospace_copy (heap_start r) (tospace s) (memory s) a = nth (Z.to_nat (a - heap_start r)) (tospace s) 0.
Proof.
  intros H. unfold save_tospace_copy. destruct (Z.leb_spec (heap_start r) a); [|lia].
  destruct (Z.ltb_spec a (heap_start r + zlength (tospace s))); [reflexivity|lia].
Qed.

Lemma finished_words s n needed a :
  words (finished s n needed) a =
    (let free := heap_start r + zlength (tospace s) in
     if a =? free then MAKE_OBJECT TC_MANIFEST_VECTOR n
     else if (free <? a) && (a <? free + 1 + n) then SHARP_F
     else if (heap_start r <=? a) && (a <? free) then nth (Z.to_nat (a - heap_start r)) (tospace s) 0 else memory s a).
Proof. reflexivity. Qed.

Lemma finished_low s n needed a : 0 <= n -> a < heap_start r -> words (finished s n needed) a = memory s a.
Proof.
  intros Hn H. rewrite finished_words. cbv zeta.
  destruct (Z.eqb_spec a (heap_start r + zlength (tospace s))); [lia|].
  destruct (Z.ltb_spec (heap_start r + zlength (tospace s)) a); [lia|]. cbn [andb].
  destruct (Z.leb_spec (heap_start r) a); [lia|reflexivity].
Qed.

Lemma finished_heap s n needed a : 0 <= n -> heap_start r <= a < heap_start r + zlength (tospace s) ->
  words (finished s n needed) a = nth (Z.to_nat (a - heap_start r)) (tospace s) 0.
Proof.
  intros Hn H. rewrite finished_words. cbv zeta.
  destruct (Z.eqb_spec a (heap_start r + zlength (tospace s))); [lia|].
  destruct (Z.ltb_spec (heap_start r + zlength (tospace s)) a); [lia|]. cbn [andb].
  destruct (Z.leb_spec (heap_start r) a); [|lia]. destruct (Z.ltb_spec a (heap_start r + zlength (tospace s))); [reflexivity|lia].
Qed.

Lemma finished_table s n needed : 0 <= n ->
  slice (words (finished s n needed)) (heap_start r + zlength (tospace s)) (1 + n)
  = MAKE_OBJECT TC_MANIFEST_VECTOR n :: repeat SHARP_F (Z.to_nat n).
Proof.
  intros Hn. rewrite slice_cons by lia. f_equal.
  - rewrite finished_words. cbv zeta. now rewrite Z.eqb_refl.
  - replace (1 + n - 1) with (zlength (repeat SHARP_F (Z.to_nat n))) by (rewrite repeat_length; lia).
    apply slice_nth. intros i Hi. rewrite repeat_length in Hi. rewrite finished_words. cbv zeta.
    destruct (Z.eqb_spec (heap_start r + zlength (tospace s) + 1 + i) (heap_start r + zlength (tospace s))); [lia|].
    destruct (Z.ltb_spec (heap_start r + zlength (tospace s)) (heap_start r + zlength (tospace s) + 1 + i)); [|lia].
    destruct (Z.ltb_spec (heap_start r + zlength (tospace s) + 1 + i) (heap_start r + zlength (tospace s) + 1 + n)); [|lia].
    cbn [andb]. symmetry. apply nth_repeat_lt. lia.
Qed.

Lemma primes_positive n : In n primes -> 0 <= n.
Proof. intros H. cbn [primes In] in H. lia. Qed.

Lemma collect_spec : exists l r', collect r = Return r' /\ collected l r'.
Proof.
  destruct part_one_spec as (l & s & E & P). destruct (part_two_spec l s P) as (n & needed & E2 & In' & Room).
  pose proof (primes_positive n In') as Hn. pose proof (part_one_length l s P) as Ln.
  destruct (ready_areas is_ready) as (A1 & A2 & A3 & A4 & A5 & A6 & A7 & A8).
  assert (Fb : heap_start r + zlength (tospace s) = base + total l) by (unfold first_place; lia).
  assert (Tl : 0 <= total l) by (rewrite <- (length_moved_words l l (part_one_objects l s P)); lia).
  exists l, (finished s n needed). unfold collect. rewrite E. cbn [bind]. rewrite E2. split; [reflexivity|].
  pose proof (tospace_contents l s P) as T.
  split.
  - exact (kept_once l s P).
  - exact (kept_reachable l s P).
  - exact (kept_size l s P).
  - intros o Io. rewrite <- (length_moved l o) by (apply (part_one_objects l s P); exact Io).
    apply slice_nth. intros i Hi. rewrite (length_moved l o) in Hi by (apply (part_one_objects l s P); exact Io).
    destruct (object_in_tospace l s o i P Io Hi) as (<- & B1 & B2).
    rewrite finished_heap by (unfold first_place in *; lia). reflexivity.
  - change (fixed_objects (finished s n needed)) with (save_tospace_copy (heap_start r) (tospace s) (memory s) (heap_start r)).
    rewrite copied_word by lia. rewrite Z.sub_diag, T. reflexivity.
  - unfold history_object at 1.
    change (history_register (finished s n needed)) with (OBJECT_DATUM (save_tospace_copy (heap_start r) (tospace s) (memory s) (heap_start r + 1))).
    rewrite copied_word by lia. replace (heap_start r + 1 - heap_start r) with 1 by lia. rewrite T. exact (history_type l s P).
  - apply OBJECT_DATUM_range.
  - rewrite <- (stack_forwarded l s P). unfold stack_words. cbn [stack_pointer stack_end finished make_vector].
    apply slice_ext. intros a Ha. apply finished_low; lia.
  - rewrite <- (constants_forwarded l s P). unfold constant_words. cbn [constant_start constant_alloc_next finished make_vector].
    apply slice_ext. intros a Ha. apply finished_low; lia.
  - reflexivity.
  - exists n. split; [exact In'|]. rewrite <- Fb in *. split; [reflexivity|]. split; [exact Room|]. split; [reflexivity|]. now apply finished_table.
  - reflexivity.
  - reflexivity.
Qed.

End Collection.

(** GARBAGE-COLLECT first sets the reserve, which leaves the heap as it is. *)
Lemma set_heap_reserved_ready r objs safety_margin : gc_ready r objs = true -> 0 <= safety_margin ->
  gc_ready (set_heap_reserved safety_margin r) objs = true.
Proof.
  intros H M. unfold set_heap_reserved. destruct (safety_margin <? heap_end r - heap_start r); [|exact H].
  unfold gc_ready in *. apply andb_prop in H as [A H]. apply andb_true_intro. split; [|exact H].
  unfold areas_in_order in *. cbn [with_heap_reserved stack_pointer stack_end constant_start constant_alloc_next heap_start Free heap_end
    tospace_words heap_alloc_limit n_ephemerons_requested]. lia.
Qed.

Lemma garbage_collect_spec r objs safety_margin : gc_ready r objs = true -> 0 <= safety_margin ->
  exists l r', garbage_collect safety_margin r = Return (ULONG_TO_FIXNUM (Z.max 0 (HEAP_AVAILABLE r' - gc_space_needed r')), r') /\
    collected (set_heap_reserved safety_margin r) objs l r'.
Proof.
  intros H M. destruct (collect_spec _ _ (set_heap_reserved_ready r objs safety_margin H M)) as (l & r' & E & C).
  exists l, r'. split; [|exact C]. unfold garbage_collect.
  destruct (ready_areas _ _ (is_ready r objs H)) as (_ & _ & _ & _ & _ & A & _). destruct (Z.ltb_spec (heap_end r) (Free r)); [lia|].
  rewrite E. cbn [bind]. do 3 f_equal. destruct (Z.ltb_spec (gc_space_needed r') (HEAP_AVAILABLE r')); lia.
Qed.

(** The reserve changes neither the objects nor what is reachable. *)
Lemma set_heap_reserved_same r safety_margin :
  words (set_heap_reserved safety_margin r) = words r /\ areas_of (set_heap_reserved safety_margin r) = areas_of r /\
  roots (set_heap_reserved safety_margin r) = roots r /\ first_place (set_heap_reserved safety_margin r) = first_place r.
Proof. unfold set_heap_reserved. destruct (safety_margin <? heap_end r - heap_start r); repeat split; reflexivity. Qed.

(** ** Properties *)

(** The binary search for the length of the table of ephemerons ends in an entry of the table of primes:
    the least that is at least the number of ephemerons, or the greatest if there is none. *)
Theorem ephemeron_array_length_correct n : exists p, compute_ephemeron_array_length n = Return p /\ In p primes /\
  ((forall q, In q primes -> n <= q -> p <= q) /\ n <= p \/ (forall q, In q primes -> q <= p) /\ p < n).
Proof. destruct (ephemeron_array_length_least n) as (p & E & I & H). now exists p. Qed.
