(* ===== verification/GcSample.v ===== *)
(** * A small heap, collected

    A list, a vector that refers to itself, two weak pairs (one refers to
    garbage), a vector of raw data, a garbage pair. *)

From Stdlib Require Import ZArith List Bool Lia.
From S2P Require Import Prelude Object GcLoop GcHeap GcInvariant GarbageCollect GcCorrect.
Import ListNotations.

#[local] Open Scope Z_scope.

Module GcSample.

Definition fixnum (n : Z) : Z := LONG_TO_FIXNUM n.
Definition list_at (a : Z) : Z := MAKE_OBJECT TC_LIST a.
Definition vector_at (a : Z) : Z := MAKE_OBJECT TC_VECTOR a.
Definition weak_at (a : Z) : Z := MAKE_OBJECT TC_WEAK_CONS a.

(** From address 2: the stack, constant space (with raw data), the gap below the heap, the heap. *)
Definition memory_words : list Z :=
  [ 0; 0;
    fixnum 7; MAKE_OBJECT 0x0B 5; list_at 14;
    MAKE_OBJECT TC_MANIFEST_NM_VECTOR 1; list_at 12; list_at 12;
    0; 0; 0; 0;
    fixnum 1; list_at 14;
    fixnum 2; EMPTY_LIST;
    fixnum 9; list_at 12;
    MAKE_OBJECT TC_MANIFEST_VECTOR 3; list_at 12; vector_at 18; weak_at 22;
    list_at 16; weak_at 24;
    list_at 14; MAKE_OBJECT 0x33 26;
    MAKE_OBJECT TC_MANIFEST_NM_VECTOR 2; list_at 16; -1;
    list_at 14; fixnum 3; SHARP_F ].

Definition objects : list heap_object :=
  [ HeapObject 12 (Tuple 2) 2; HeapObject 14 (Tuple 2) 2; HeapObject 16 (Tuple 2) 2; HeapObject 18 Vector 4;
    HeapObject 22 WeakPair 2; HeapObject 24 WeakPair 2; HeapObject 26 Vector 3; HeapObject 29 (Tuple 3) 3 ].

Definition before : storage :=
  Storage (fun a => nth (Z.to_nat a) memory_words 0) 0 2 5 5 8 12 32 60 64 4 40
    (vector_at 18) 29 SHARP_F 0 false 0 0x4.

Example before_ready : gc_ready before objects = true.
Proof. vm_compute. reflexivity. Qed.

Definition heap_after (r : storage) : list Z := slice (words r) (heap_start r) (Free r - heap_start r).

(** The copies: the pairs from the stack and constant space, the vector, the
    history, then the weak pairs and the raw data.  The garbage pair is gone, and
    the weak pair that referred to it has the reclaimed mark in its car. *)
Example collected_heap :
  match garbage_collect 4 before with
  | Return (n, r) =>
      (n, fixed_objects r, history_register r, Free r) = (fixnum 16, vector_at 18, 22, 44) /\
      slice (words r) 2 6 = [fixnum 7; MAKE_OBJECT 0x0B 5; list_at 14; MAKE_OBJECT TC_MANIFEST_NM_VECTOR 1; list_at 12; list_at 16] /\
      firstn 20 (heap_after r) =
        [ vector_at 18; MAKE_OBJECT UNMARKED_HISTORY_TYPE 22; fixnum 2; EMPTY_LIST; fixnum 1; list_at 14;
          MAKE_OBJECT TC_MANIFEST_VECTOR 3; list_at 16; vector_at 18; weak_at 25; list_at 14; fixnum 3; SHARP_F;
          GC_RECLAIMED; weak_at 27; list_at 14; MAKE_OBJECT 0x33 29; MAKE_OBJECT TC_MANIFEST_NM_VECTOR 2; list_at 16; -1 ]
  | _ => False
  end.
Proof. vm_compute. repeat split. Qed.

(** Two ephemerons: the key of the first is a pair that the stack refers to, the
    key of the second is a pair that only its own datum refers to. *)
Definition ephemeron_at (a : Z) : Z := MAKE_OBJECT TC_EPHEMERON a.

Definition ephemeron_words : list Z :=
  [ 0; 0;
    fixnum 7; MAKE_OBJECT 0x0B 5; list_at 15;
    MAKE_OBJECT TC_MANIFEST_NM_VECTOR 1; 0; SHARP_F;
    0; 0; 0; 0;
    MAKE_OBJECT TC_MANIFEST_VECTOR 2; ephemeron_at 25; ephemeron_at 30;
    fixnum 1; EMPTY_LIST;
    fixnum 2; EMPTY_LIST;
    fixnum 3; EMPTY_LIST;
    list_at 19; EMPTY_LIST;
    MAKE_OBJECT TC_MANIFEST_VECTOR 1; SHARP_F;
    MARKED_EPHEMERON_MANIFEST; list_at 15; list_at 17; SHARP_F; SHARP_F;
    MARKED_EPHEMERON_MANIFEST; list_at 19; list_at 21; SHARP_F; SHARP_F;
    fixnum 4; fixnum 5; fixnum 6 ].

Definition with_ephemerons : storage :=
  Storage (fun a => nth (Z.to_nat a) ephemeron_words 0) 0 2 5 5 8 12 38 60 64 4 40
    (vector_at 12) 35 (vector_at 23) 0 false 0 0x4.

(** The first keeps its key and its datum, the second loses both. *)
Example collected_ephemerons :
  match garbage_collect 4 with_ephemerons with
  | Return (_, r) =>
      slice (words r) (heap_start r) 22 =
        [ vector_at 16; MAKE_OBJECT UNMARKED_HISTORY_TYPE 19; fixnum 1; EMPTY_LIST;
          MAKE_OBJECT TC_MANIFEST_VECTOR 2; ephemeron_at 22; ephemeron_at 27; fixnum 4; fixnum 5; fixnum 6;
          MARKED_EPHEMERON_MANIFEST; list_at 14; list_at 32; SHARP_F; SHARP_F;
          MARKED_EPHEMERON_MANIFEST; SHARP_F; SHARP_F; SHARP_F; SHARP_F;
          fixnum 2; EMPTY_LIST ]
  | _ => False
  end.
Proof. vm_compute. reflexivity. Qed.

End GcSample.
