(* ===== verification/GcMutator.v ===== *)
(** * What the program sees of a garbage collection

    After a collection the heap is in order again, with the objects at their
    new places; and a program that follows pointers from the roots finds the
    same things as before, under an injective renaming of pointers. *)

From Stdlib Require Import ZArith List Bool Lia.
From S2P Require Import Prelude Object GcLoop GcHeap GcInvariant GcTransport GarbageCollect GcCorrect GcSample.
From S2P Require ListPrim.
Import ListNotations.

#[local] Open Scope Z_scope.

(** ** Following pointers *)

(** Whether the scan looks at word [i]. *)
Fixpoint scanned_at (skip : Z) (ws : list Z) (i : nat) : bool :=
  match ws with
  | [] => false
  | w :: ws =>
      if 0 <? skip then match i with O => false | S i => scanned_at (skip - 1) ws i end
      else
        match classify w with
        | Manifest => match i with O => false | S i => scanned_at (OBJECT_DATUM w) ws i end
        | _ => match i with O => true | S i => scanned_at 0 ws i end
        end
  end.

(** The fields of an object that keep what they refer to. *)
Definition strong_field (m : Z -> Z) (o : heap_object) (i : nat) : bool :=
  match kind_of o with WeakPair => Nat.eqb i 1 | _ => scanned_at 0 (contents m o) i end.

(** The word at the end of a path of fields. *)
Fixpoint access (areas : gc_areas) (m : Z -> Z) (objs : list heap_object) (w : Z) (path : list nat) : option Z :=
  match path with
  | [] => Some w
  | i :: path =>
      match target areas w with
      | None => None
      | Some a =>
          match find_object objs a with
          | None => None
          | Some o => if strong_field m o i then access areas m objs (m (a + Z.of_nat i)) path else None
          end
      end
  end.

(** The objects at their new places. *)
Fixpoint relocated (p : Z) (l : list heap_object) : list heap_object :=
  match l with
  | [] => []
  | o :: l => HeapObject p (kind_of o) (size o) :: relocated (p + size o) l
  end.

(** ** Relocation *)

Lemma layout_weaken objs : forall a a' b b', layout a' objs b = true -> a <= a' -> b <= b' -> layout a objs b' = true.
Proof.
  induction objs as [|o objs IH]; cbn [layout]; intros a a' b b' H La Lb; [lia|].
  apply andb_prop in H as [H1 H]. rewrite (IH (start o + size o) _ b b' H) by lia. lia.
Qed.

Lemma relocated_layout l : forall p, (forall o, In o l -> 0 < size o) -> layout p (relocated p l) (p + total l) = true.
Proof.
  induction l as [|o l IH]; intros p H; cbn [relocated layout total fold_right]; [lia|]. fold (total l).
  assert (0 < size o) by (apply H; now left). cbn [start size].
  replace (p + (size o + total l)) with (p + size o + total l) by lia. rewrite IH by (intros; apply H; now right). lia.
Qed.

Lemma relocated_In l : (forall o o', In o l -> In o' l -> start o = start o' -> o = o') -> forall p o, In o l ->
  In (HeapObject (place_from p l (start o)) (kind_of o) (size o)) (relocated p l).
Proof.
  induction l as [|x l IH]; intros J p o I; [destruct I|]. cbn [relocated place_from].
  destruct (Z.eqb_spec (start x) (start o)) as [E|N].
  - rewrite (J x o) by (try assumption; now left). now left.
  - right. destruct I as [->|I]; [contradiction|]. exact (IH (fun a b Ia Ib => J a b (or_intror Ia) (or_intror Ib)) (p + size x) o I).
Qed.

Lemma relocated_inv l : NoDup l -> (forall o o', In o l -> In o' l -> start o = start o' -> o = o') -> forall p o', In o' (relocated p l) ->
  exists o, In o l /\ o' = HeapObject (place_from p l (start o)) (kind_of o) (size o).
Proof.
  induction l as [|x l IH]; intros N J p o' I; [destruct I|]. cbn [relocated] in I. apply NoDup_cons_iff in N as [Nx N].
  destruct I as [<-|I].
  - exists x. split; [now left|]. cbn [place_from]. now rewrite Z.eqb_refl.
  - destruct (IH N (fun a b Ia Ib => J a b (or_intror Ia) (or_intror Ib)) (p + size x) o' I) as (o & Io & ->).
    exists o. split; [now right|]. cbn [place_from]. destruct (Z.eqb_spec (start x) (start o)) as [E|]; [|reflexivity].
    exfalso. apply Nx. rewrite (J x o); [exact Io|now left|now right|exact E].
Qed.

Lemma place_from_injective l : forall p a b, (forall o, In o l -> 0 < size o) -> transported l a = true -> transported l b = true ->
  place_from p l a = place_from p l b -> a = b.
Proof.
  induction l as [|o l IH]; intros p a b P A B E; [discriminate A|]. cbn [place_from transported existsb] in *.
  assert (Po : 0 < size o) by (apply P; now left). assert (Pl : forall x, In x l -> 0 < size x) by (intros; apply P; now right).
  destruct (Z.eqb_spec (start o) a) as [Ea|], (Z.eqb_spec (start o) b) as [Eb|]; cbn [orb] in A, B.
  - congruence.
  - pose proof (place_from_bounds l (p + size o) b B Pl). lia.
  - pose proof (place_from_bounds l (p + size o) a A Pl). lia.
  - exact (IH _ _ _ Pl A B E).
Qed.

Lemma find_object_layout objs a b o : layout a objs b = true -> In o objs -> find_object objs (start o) = Some o.
Proof.
  intros H I. unfold find_object. destruct (find _ objs) as [x|] eqn:E.
  - apply find_some in E as [Ix Ex]. f_equal. destruct (layout_disjoint _ _ _ x o H Ix I) as [|D]; [assumption|].
    pose proof (layout_bounds _ _ _ _ H Ix). pose proof (layout_bounds _ _ _ _ H I). lia.
  - apply (find_none _ _ E) in I. lia.
Qed.

Lemma classify_new_datum w k p : classify w = Reference k -> object_p w -> 9 < p < 2 ^ 58 ->
  classify (OBJECT_NEW_DATUM w p) = Reference k.
Proof.
  intros C Ow B. unfold OBJECT_NEW_DATUM. pose proof (OBJECT_TYPE_range w Ow) as T. unfold classify in *.
  rewrite OBJECT_TYPE_MAKE, OBJECT_DATUM_MAKE by lia.
  destruct (OBJECT_TYPE w =? TC_WEAK_CONS); [exact C|]. destruct (OBJECT_TYPE w =? TC_EPHEMERON); [exact C|].
  destruct (ListPrim.gc_type_code (OBJECT_TYPE w)); try exact C. destruct (OBJECT_TYPE w =? TC_REFERENCE_TRAP); [|exact C].
  destruct (OBJECT_DATUM w <=? TRAP_MAX_IMMEDIATE); [discriminate C|].
  unfold TRAP_MAX_IMMEDIATE. destruct (Z.leb_spec p 9); [lia|exact C].
Qed.

Lemma scanned_at_In ws i : forall skip, scanned_at skip ws i = true -> (i < length ws)%nat /\ In (nth i ws 0) (scannable skip ws).
Proof.
  revert i. induction ws as [|w ws IH]; intros i skip H; [discriminate|]. cbn [scanned_at scannable length nth] in *.
  destruct (0 <? skip); [destruct i as [|i]; [discriminate|]; destruct (IH i _ H); split; [lia|assumption]|].
  destruct (classify w); destruct i as [|i]; try discriminate; try (split; [lia|now left]);
    destruct (IH i _ H); (split; [lia|]); try (now right); assumption.
Qed.

(** ** After a collection *)

Section Mutator.

Context (r : storage) (objs : list heap_object) (l : list heap_object) (r' : storage).

Hypothesis ready : gc_ready r objs = true.
Hypothesis done : collected r objs l r'.

#[local] Notation m := (words r).
#[local] Notation m' := (words r').
#[local] Notation areas := (areas_of r).
#[local] Notation areas' := (areas_of r').
#[local] Notation base := (first_place r).
#[local] Notation objs' := (relocated (first_place r) l).
#[local] Notation place := (place (first_place r) l).
#[local] Notation forward := (forward areas (first_place r) l).
#[local] Notation live := (live_object r objs).
#[local] Notation covered := (covered areas l).
#[local] Notation is_ready := (is_ready r objs ready).

Lemma moved_incl : incl l objs.
Proof. intros o I. apply (moved_reachable _ _ _ _ done) in I. now destruct I. Qed.

Lemma moved_bounds o : In o l -> heap_start r <= start o /\ 0 < size o /\ start o + size o <= Free r.
Proof. intros I. exact (layout_bounds objs (heap_start r) (Free r) o (ready_layout _ _ is_ready) (moved_incl o I)). Qed.

Lemma moved_start_inj o o' : In o l -> In o' l -> start o = start o' -> o = o'.
Proof.
  intros I J E. destruct (layout_disjoint _ _ _ o o' (ready_layout _ _ is_ready) (moved_incl o I) (moved_incl o' J)) as [|D]; [assumption|].
  apply moved_bounds in I, J. lia.
Qed.

Lemma same_start : heap_start r' = heap_start r.
Proof. pose proof (areas_kept _ _ _ _ done) as A. congruence. Qed.

(** The bounds that matter: the places lie in the new heap, above the immediate traps. *)
Lemma new_bounds : 9 < heap_start r /\ base = heap_start r + 2 /\ base + total l <= Free r' /\ Free r' < 2 ^ 58 /\ 0 <= total l.
Proof.
  destruct (ready_areas _ _ is_ready) as (A1 & A2 & A3 & A4 & A5 & A6 & A7 & A8).
  destruct (table_allocated _ _ _ _ done) as (n & I & F & B & _). unfold VECTOR_DATA in F.
  assert (0 <= n) by (cbn [primes In] in I; lia).
  assert (0 <= total l).
  { pose proof (relocated_layout l 0) as L. apply layout_ordered with (objs := relocated 0 l).
    replace (total l) with (0 + total l) by lia. apply L. intros o Io. now apply moved_bounds. }
  unfold first_place in *. lia.
Qed.

Lemma new_layout : layout (heap_start r') objs' (Free r') = true.
Proof.
  destruct new_bounds as (A & B & C & D & E). rewrite same_start.
  apply layout_weaken with (a' := base) (b := base + total l); [|lia..].
  apply relocated_layout. intros o I. now apply moved_bounds.
Qed.

(** The object at a new place. *)
Lemma find_relocated o : In o l -> find_object objs' (place (start o)) = Some (HeapObject (place (start o)) (kind_of o) (size o)).
Proof.
  intros I. exact (find_object_layout objs' (heap_start r') (Free r') (HeapObject (place (start o)) (kind_of o) (size o)) new_layout
    (relocated_In l moved_start_inj base o I)).
Qed.

Lemma place_in o : In o l -> base <= place (start o) < base + total l.
Proof.
  intros I. apply place_from_bounds; [now apply transported_In|]. intros x J. now apply moved_bounds.
Qed.

Lemma new_fromspace o : In o l -> ADDRESS_IN_FROMSPACE_P areas' (place (start o)) = true.
Proof.
  intros I. destruct new_bounds as (A & B & C & D & E). apply place_in in I.
  unfold ADDRESS_IN_FROMSPACE_P. cbn [areas_of fromspace_start fromspace_end]. rewrite same_start. lia.
Qed.

(** ** Words *)

(** A word that is in order and whose object is reachable. *)
Definition kept (w : Z) : Prop := word_ok areas objs w = true /\ word_live areas objs live w.

Lemma kept_target w : kept w ->
  (target areas w = None /\ forward w = w) \/
  (exists o k, In o l /\ target areas w = Some (start o) /\ classify w = Reference k /\ kind_of o = k /\
    find_object objs (start o) = Some o /\ forward w = OBJECT_NEW_DATUM w (place (start o))).
Proof.
  intros [W V]. unfold forward. destruct (target areas w) as [a|] eqn:T; [right|now left].
  assert (T' := T). unfold target in T'. destruct (classify w) as [|k| |] eqn:C; try discriminate T'.
  destruct (ADDRESS_IN_FROMSPACE_P areas (OBJECT_DATUM w)) eqn:F; [|discriminate T'].
  unfold word_ok in W. rewrite C, F in W. apply andb_prop in W as [_ W].
  destruct (find_object objs (OBJECT_DATUM w)) as [o|] eqn:Fo; [|discriminate W]. injection T' as E.
  assert (Fo' := Fo). unfold find_object in Fo'. apply find_some in Fo' as [Io Eo]. assert (So : start o = a) by lia.
  rewrite E in Fo. rewrite <- So in T, Fo |- *. exists o, k. split.
  - apply (moved_reachable _ _ _ _ done). now apply V.
  - split; [reflexivity|]. split; [reflexivity|]. split; [|split; [exact Fo|reflexivity]]. destruct (kind_of o), k; cbn in W; try discriminate W; try reflexivity. f_equal. lia.
Qed.

(** The class of a forwarded word, and what it refers to. *)
Lemma forward_word w : kept w ->
  word_ok areas' objs' (forward w) = true /\ classify (forward w) = classify w /\ OBJECT_TYPE (forward w) = OBJECT_TYPE w /\
  target areas' (forward w) = option_map place (target areas w).
Proof.
  intros K. destruct new_bounds as (A & B & C & D & E).
  assert (Ow : object_word w = true) by (destruct K as [W _]; unfold word_ok in W; now apply andb_prop in W as [W _]).
  destruct (kept_target w K) as [[T ->]|(o & k & Io & T & Cl & Ko & _ & ->)].
  - rewrite T. cbn [option_map]. destruct K as [W _].
    assert (N : forall k, classify w = Reference k -> ADDRESS_IN_FROMSPACE_P areas (OBJECT_DATUM w) = false /\ OBJECT_DATUM w < heap_start r).
    { intros k Ck. unfold target in T. unfold word_ok in W. rewrite Ck in T, W.
      destruct (ADDRESS_IN_FROMSPACE_P areas (OBJECT_DATUM w)); [discriminate T|]. cbn [areas_of fromspace_start] in W.
      split; [reflexivity|lia]. }
    assert (F' : forall k, classify w = Reference k -> ADDRESS_IN_FROMSPACE_P areas' (OBJECT_DATUM w) = false).
    { intros k Ck. destruct (N k Ck) as [_ L]. unfold ADDRESS_IN_FROMSPACE_P. cbn [areas_of fromspace_start]. rewrite same_start. lia. }
    split; [|split; [reflexivity|split; [reflexivity|]]].
    + unfold word_ok in *. rewrite Ow. cbn [andb]. destruct (classify w) as [|k| |] eqn:Ck; try reflexivity; try (rewrite andb_false_r in W; discriminate W).
      rewrite (F' k eq_refl). cbn [areas_of fromspace_start]. rewrite same_start. destruct (N k eq_refl). lia.
    + unfold target. destruct (classify w) as [|k| |] eqn:Ck; try reflexivity. now rewrite (F' k eq_refl).
  - pose proof (place_in o Io) as P. apply object_word_p in Ow.
    assert (Bp : 9 < place (start o) < 2 ^ 58) by lia. pose proof (classify_new_datum w k _ Cl Ow Bp) as Cn.
    assert (Ty : 0 <= OBJECT_TYPE w < 2 ^ 6) by now apply OBJECT_TYPE_range.
    assert (Dn : OBJECT_DATUM (OBJECT_NEW_DATUM w (place (start o))) = place (start o)) by (apply OBJECT_DATUM_MAKE; lia).
    split; [|split; [now rewrite Cn|split; [apply OBJECT_TYPE_MAKE; lia|]]].
    + unfold word_ok. rewrite Cn, Dn, new_fromspace, find_relocated by exact Io. cbn [kind_of]. rewrite Ko.
      assert (Ob : object_p (OBJECT_NEW_DATUM w (place (start o)))) by (apply object_range; lia). unfold object_p in Ob. unfold object_word.
      destruct k; cbn [kind_eqb]; lia.
    + unfold target at 1. rewrite Cn, Dn, new_fromspace by exact Io. rewrite T. reflexivity.
Qed.

(** ** Regions *)

Lemma forward_region_kept ws : forall skip, region_ok areas objs skip ws = true -> Forall kept (scannable skip ws) ->
  region_ok areas' objs' skip (forward_region areas base l skip ws) = true /\
  scannable skip (forward_region areas base l skip ws) = map forward (scannable skip ws) /\
  (forall i, scanned_at skip (forward_region areas base l skip ws) i = scanned_at skip ws i /\
    (scanned_at skip ws i = true -> nth i (forward_region areas base l skip ws) 0 = forward (nth i ws 0))).
Proof.
  induction ws as [|w ws IH]; intros skip R K.
  { cbn [forward_region scannable map scanned_at]. repeat split; [exact R|discriminate]. }
  cbn [region_ok scannable forward_region scanned_at] in *. destruct (0 <? skip) eqn:S.
  - destruct (IH (skip - 1) R K) as (R' & Sc & At). cbn [region_ok scannable scanned_at]. rewrite S. split; [exact R'|]. split; [exact Sc|].
    intros [|i]; [split; [reflexivity|discriminate]|apply At].
  - destruct (classify w) as [|k| |] eqn:C.
    3:{ destruct (IH _ R K) as (R' & Sc & At). cbn [region_ok scannable scanned_at]. rewrite S, C.
        split; [exact R'|]. split; [exact Sc|]. intros [|i]; [split; [reflexivity|discriminate]|apply At]. }
    all: apply andb_prop in R as [Rw R]; apply Forall_cons_iff in K as [Kw K]; destruct (IH 0 R K) as (R' & Sc & At);
      destruct (forward_word w Kw) as (W' & C' & _ & _); cbn [region_ok scannable scanned_at map]; rewrite S, C', C, W', R', Sc;
      (split; [reflexivity|split; [reflexivity|]]); (intros [|i]; [split; reflexivity|apply At]).
Qed.

Lemma roots_kept w : In w (roots r) -> kept w.
Proof.
  intros I. split; [|now apply roots_live].
  apply in_app_or in I as [[<-|[<-|[]]]|I]; [exact (ready_fixed _ _ is_ready)|exact (ready_history _ _ is_ready)|].
  apply in_app_or in I as [I|I].
  - exact (proj1 (Forall_forall _ _) (region_ok_words _ _ _ 0 (ready_stack _ _ is_ready)) w I).
  - exact (proj1 (Forall_forall _ _) (region_ok_words _ _ _ 0 (ready_constants _ _ is_ready)) w I).
Qed.

Lemma object_order o : In o l -> object_ok areas m objs o = true.
Proof. intros I. exact (proj1 (forallb_forall _ _) (ready_objects _ _ is_ready) o (moved_incl o I)). Qed.

Lemma image_kept o : In o l -> Forall kept (scannable 0 (image areas m o)).
Proof.
  intros I. apply Forall_forall. intros w Hw. split.
  - pose proof (image_region areas (gc_fuel r) m objs (ready_layout _ _ is_ready) (ready_objects _ _ is_ready) o (moved_incl o I)) as R.
    exact (proj1 (Forall_forall _ _) (region_ok_words _ _ _ 0 R) w Hw).
  - intros o' T I'. apply (moved_reachable _ _ _ _ done) in I. now apply reachable_step with o w.
Qed.

(** The scanned words of an object that is no weak pair. *)
Lemma contents_kept o : In o l -> kind_of o <> WeakPair -> region_ok areas objs 0 (contents m o) = true /\ Forall kept (scannable 0 (contents m o)).
Proof.
  intros I N. assert (C : chained areas m o = false) by (unfold chained; destruct (kind_of o); congruence).
  pose proof (image_kept o I) as K. unfold image in K. rewrite C in K. split; [|exact K].
  pose proof (object_order o I) as O. unfold object_ok in O. destruct (kind_of o); [|congruence|]; apply andb_prop in O as [_ O]; [now apply words_ok_region|exact O].
Qed.

(** The words of a weak pair: the car may have been dropped. *)
Lemma weak_words o : In o l -> kind_of o = WeakPair ->
  size o = 2 /\ word_ok areas objs (m (start o)) = true /\ kept (m (start o + 1)).
Proof.
  intros I K. pose proof (object_order o I) as O. unfold object_ok in O. rewrite K in O. apply andb_prop in O as [S O].
  assert (S2 : size o = 2) by lia. unfold contents in O. rewrite S2, slice_two in O. cbn [forallb] in O.
  split; [exact S2|]. split; [lia|]. pose proof (image_kept o I) as Im. unfold image, contents in Im. rewrite S2, slice_two in Im.
  assert (W1 : word_ok areas objs (m (start o)) = true) by lia. assert (W2 : word_ok areas objs (m (start o + 1)) = true) by lia.
  destruct (chained areas m o).
  - cbn [scannable] in Im. change (0 <? 0) with false in Im. cbn iota in Im. apply word_ok_scannable in W2 as [M2 _].
    assert (T : classify (OBJECT_NEW_TYPE TC_FALSE (m (start o))) = Plain).
    { unfold OBJECT_NEW_TYPE, classify. pose proof (OBJECT_DATUM_range (m (start o))).
      rewrite OBJECT_TYPE_MAKE by (unfold TC_FALSE; lia). reflexivity. }
    rewrite T in Im. apply Forall_cons_iff in Im as [_ Im].
    destruct (classify (m (start o + 1))); try contradiction; now apply Forall_cons_iff in Im.
  - rewrite words_ok_scannable with (areas := areas) (objs := objs) in Im by (cbn [forallb]; now rewrite W1, W2).
    apply Forall_cons_iff in Im as [_ Im]. now apply Forall_cons_iff in Im.
Qed.

Lemma weak_target_same w : word_ok areas objs w = true -> weak_target areas w = target areas w.
Proof.
  exact (weak_target_target areas (gc_fuel r) m objs (ready_layout _ _ is_ready) (ready_objects _ _ is_ready) (low_fromspace r objs ready) w).
Qed.

Lemma weak_forward_order w : word_ok areas objs w = true -> word_ok areas' objs' (weak_forward areas base l w) = true.
Proof.
  intros W. unfold weak_forward. rewrite weak_target_same by exact W. destruct (target areas w) as [a|] eqn:T.
  - destruct (transported l a) eqn:X; [|reflexivity]. apply transported_inv in X as (o & I & <-).
    assert (K : kept w).
    { split; [exact W|]. intros o' T' I'. rewrite T in T'. injection T' as E. apply (moved_reachable _ _ _ _ done).
      destruct (layout_disjoint _ _ _ o o' (ready_layout _ _ is_ready) (moved_incl o I) I') as [<-|D]; [exact I|].
      apply moved_bounds in I. apply (layout_bounds objs (heap_start r) (Free r)) in I'; [|exact (ready_layout _ _ is_ready)]. lia. }
    destruct (forward_word w K) as [W' _]. unfold GcHeap.forward in W'. now rewrite T in W'.
  - assert (K : kept w) by (split; [exact W|]; intros o' T'; congruence).
    destruct (forward_word w K) as [W' _]. unfold GcHeap.forward in W'. now rewrite T in W'.
Qed.

(** ** Objects *)

(** The object at its new place, and its words there. *)
Definition at_new_place (o : heap_object) : heap_object := HeapObject (place (start o)) (kind_of o) (size o).

Lemma new_contents o : In o l -> contents m' (at_new_place o) = moved areas m base l o.
Proof. intros I. exact (moved_objects _ _ _ _ done o I). Qed.

Lemma words_forwarded ws : forallb (word_ok areas objs) ws = true -> Forall kept ws ->
  forward_region areas base l 0 ws = map forward ws /\ forallb (word_ok areas' objs') (map forward ws) = true.
Proof.
  induction ws as [|w ws IH]; intros W K; [now split|]. cbn [forallb] in W. apply andb_prop in W as [Ww W].
  apply Forall_cons_iff in K as [Kw K]. destruct (IH W K) as [E O]. destruct (forward_word w Kw) as [W' _].
  apply word_ok_scannable in Ww as [M _]. rewrite (forward_region_cons _ _ _ _ _ M), E. cbn [map forallb]. now rewrite W', O.
Qed.

Lemma new_object_order o : In o l -> object_ok areas' m' objs' (at_new_place o) = true.
Proof.
  intros I. pose proof (object_order o I) as O. pose proof (new_contents o I) as Nc.
  unfold object_ok in *. cbn [kind_of at_new_place size start]. rewrite Nc. destruct (kind_of o) as [n| |] eqn:K.
  - apply andb_prop in O as [O W]. rewrite O. cbn [andb]. destruct (contents_kept o I) as [_ Kc]; [congruence|].
    rewrite (words_ok_scannable areas objs) in Kc by exact W. destruct (words_forwarded _ W Kc) as [E W'].
    unfold moved. rewrite K, E. exact W'.
  - destruct (weak_words o I K) as (S & W1 & K2). destruct (forward_word _ K2) as [W2 _]. unfold moved. rewrite K.
    apply andb_prop in O as [O _]. rewrite O. cbn [andb forallb]. now rewrite weak_forward_order, W2.
  - destruct (contents_kept o I) as [R Kc]; [congruence|]. destruct (forward_region_kept _ 0 R Kc) as (R' & _ & _).
    apply andb_prop in O as [O _]. apply andb_prop in O as [Ty S].
    assert (Hd : m' (place (start o)) = m (start o)).
    { pose proof (moved_bounds o I) as B. unfold contents in Nc. cbn [at_new_place start size] in Nc. unfold moved in Nc. rewrite K in Nc.
      unfold contents in Nc. rewrite (slice_cons m' _ _), (slice_cons m _ _) in Nc by lia. cbn [forward_region] in Nc. change (0 <? 0) with false in Nc. cbn iota in Nc.
      assert (C : classify (m (start o)) = Plain \/ classify (m (start o)) = Manifest).
      { unfold classify. apply orb_prop in Ty as [E|E]; apply Z.eqb_eq in E; rewrite E; [now left|now right]. }
      destruct C as [C|C]; rewrite C in Nc; injection Nc as Nc _; [|exact Nc].
      unfold GcHeap.forward, target in Nc. now rewrite C in Nc. }
    rewrite Hd, Ty, S. cbn [andb]. unfold moved. rewrite K. exact R'.
Qed.

Lemma new_objects_order : forallb (object_ok areas' m' objs') objs' = true.
Proof.
  apply forallb_forall. intros o' I'. apply (relocated_inv l (moved_once _ _ _ _ done) moved_start_inj) in I' as (o & I & ->).
  now apply new_object_order.
Qed.

Lemma region_kept ws : region_ok areas objs 0 ws = true -> incl (scannable 0 ws) (roots r) -> Forall kept (scannable 0 ws).
Proof. intros _ I. apply Forall_forall. intros w Hw. now apply roots_kept, I. Qed.

Lemma stack_kept : Forall kept (scannable 0 (stack_words r)).
Proof. apply region_kept; [exact (ready_stack _ _ is_ready)|]. intros w Hw. apply in_or_app. right. apply in_or_app. now left. Qed.

Lemma constants_kept : Forall kept (scannable 0 (constant_words r)).
Proof. apply region_kept; [exact (ready_constants _ _ is_ready)|]. intros w Hw. apply in_or_app. right. apply in_or_app. now right. Qed.

(** The heap is in order after the collection, with the objects that moved. *)
Lemma heap_in_order_after : heap_in_order r' objs' = true.
Proof.
  unfold heap_in_order. rewrite new_layout, new_objects_order. cbn [andb].
  rewrite (stack_moved _ _ _ _ done), (constants_moved _ _ _ _ done), (fixed_forwarded _ _ _ _ done), (history_forwarded _ _ _ _ done).
  rewrite (proj1 (forward_region_kept _ 0 (ready_stack _ _ is_ready) stack_kept)).
  rewrite (proj1 (forward_region_kept _ 0 (ready_constants _ _ is_ready) constants_kept)).
  rewrite (proj1 (forward_word _ (roots_kept (fixed_objects r) (or_introl eq_refl)))).
  rewrite (proj1 (forward_word _ (roots_kept (history_object r) (or_intror (or_introl eq_refl))))). cbn [andb].
  pose proof (history_in_range _ _ _ _ done). lia.
Qed.

(** The roots after the collection are the roots before it, forwarded. *)
Lemma roots_after : roots r' = map forward (roots r).
Proof.
  unfold roots. rewrite (stack_moved _ _ _ _ done), (constants_moved _ _ _ _ done), (fixed_forwarded _ _ _ _ done), (history_forwarded _ _ _ _ done).
  destruct (forward_region_kept _ 0 (ready_stack _ _ is_ready) stack_kept) as (_ & -> & _).
  destruct (forward_region_kept _ 0 (ready_constants _ _ is_ready) constants_kept) as (_ & -> & _).
  rewrite !map_app. reflexivity.
Qed.

(** ** Paths *)

Lemma new_strong_field o i : In o l -> strong_field m' (at_new_place o) i = strong_field m o i /\
  (strong_field m o i = true -> m' (place (start o) + Z.of_nat i) = forward (m (start o + Z.of_nat i)) /\ kept (m (start o + Z.of_nat i))).
Proof.
  intros I. pose proof (new_contents o I) as Nc. pose proof (moved_bounds o I) as B.
  assert (At : forall j, (Z.of_nat j < size o) -> m' (place (start o) + Z.of_nat j) = nth j (moved areas m base l o) 0).
  { intros j Hj. rewrite <- Nc. unfold contents. cbn [at_new_place start size].
    pose proof (nth_error_slice m' (place (start o)) (size o) (Z.of_nat j)) as N. rewrite Nat2Z.id in N.
    symmetry. apply nth_error_nth. apply N. lia. }
  unfold strong_field. cbn [kind_of at_new_place]. destruct (kind_of o) as [n| |] eqn:K.
  2:{ destruct (weak_words o I K) as (S & _ & K2). split; [reflexivity|]. intros E%Nat.eqb_eq. subst i. rewrite At by (rewrite S; cbn; lia).
      unfold moved. rewrite K. split; [reflexivity|exact K2]. }
  all: destruct (contents_kept o I) as [R Kc]; [congruence|]; destruct (forward_region_kept _ 0 R Kc) as (_ & _ & Sc);
    change (HeapObject (place (start o)) (kind_of o) (size o)) with (at_new_place o) in *; rewrite Nc;
    unfold moved; rewrite K; destruct (Sc i) as [E F]; (split; [exact E|]); intros T;
    destruct (scanned_at_In _ _ _ T) as [Li In'];
    (assert (Ls : zlength (contents m o) = size o) by (apply length_slice; lia));
    (assert (Nm : nth i (contents m o) 0 = m (start o + Z.of_nat i)) by
      (unfold contents; apply nth_error_nth; pose proof (nth_error_slice m (start o) (size o) (Z.of_nat i)) as N; rewrite Nat2Z.id in N; apply N; lia));
    rewrite Nm in *; (split; [|exact (proj1 (Forall_forall _ _) Kc _ In')]); rewrite At by lia; unfold moved; rewrite K, F by exact T; reflexivity.
Qed.

(** Following a path gives the forwarded word. *)
Lemma path_after path : forall w, kept w ->
  access areas' m' objs' (forward w) path = option_map forward (access areas m objs w path) /\
  (forall v, access areas m objs w path = Some v -> kept v).
Proof.
  induction path as [|i path IH]; intros w K; cbn [access]; [split; [reflexivity|now intros v [= <-]]|].
  destruct (forward_word w K) as (_ & _ & _ & T). rewrite T.
  destruct (kept_target w K) as [[-> _]|(o & k & Io & -> & _ & _ & Fo & _)]; [split; [reflexivity|discriminate]|]. cbn [option_map].
  rewrite find_relocated, Fo by exact Io. destruct (new_strong_field o i Io) as [E F]. fold (at_new_place o). rewrite E.
  destruct (strong_field m o i); [|split; [reflexivity|discriminate]]. destruct (F eq_refl) as [-> Kv]. now apply IH.
Qed.

(** Different words stay different. *)
Lemma forward_injective w1 w2 : kept w1 -> kept w2 -> forward w1 = forward w2 -> w1 = w2.
Proof.
  intros K1 K2 E. destruct (forward_word w1 K1) as (_ & C1 & T1 & G1). destruct (forward_word w2 K2) as (_ & C2 & T2 & G2).
  assert (Ty : OBJECT_TYPE w1 = OBJECT_TYPE w2) by congruence. assert (G : option_map place (target areas w1) = option_map place (target areas w2)) by congruence.
  destruct (kept_target w1 K1) as [[N1 F1]|(o1 & k1 & I1 & X1 & Cl1 & _ & _ & F1)], (kept_target w2 K2) as [[N2 F2]|(o2 & k2 & I2 & X2 & Cl2 & _ & _ & F2)].
  - congruence.
  - rewrite N1, X2 in G. discriminate G.
  - rewrite X1, N2 in G. discriminate G.
  - rewrite X1, X2 in G. injection G as G.
    assert (S : start o1 = start o2).
    { apply (place_from_injective l base); [apply moved_bounds|now apply transported_In|now apply transported_In|exact G]. }
    assert (D : forall w o, target areas w = Some (start o) -> OBJECT_DATUM w = start o).
    { intros w o T. unfold target in T. destruct (classify w); try discriminate T.
      destruct (ADDRESS_IN_FROMSPACE_P areas (OBJECT_DATUM w)); [congruence|discriminate T]. }
    assert (O : forall w, kept w -> MAKE_OBJECT (OBJECT_TYPE w) (OBJECT_DATUM w) = w).
    { intros w [W _]. apply MAKE_OBJECT_eta. unfold word_ok in W. apply andb_prop in W as [W _]. now apply object_word_p. }
    rewrite <- (O w1 K1), <- (O w2 K2), Ty, (D w1 o1 X1), (D w2 o2 X2), S. reflexivity.
Qed.

(** With room in memory and in tospace, the next collection can follow. *)
Lemma ready_again : Free r' + 14 <= heap_end r' -> Free r' - heap_start r' + 2 <= tospace_words r' -> gc_ready r' objs' = true.
Proof.
  intros R1 R2. unfold gc_ready. rewrite heap_in_order_after, andb_true_r. unfold areas_in_order.
  destruct (ready_areas _ _ is_ready) as (A1 & A2 & A3 & A4 & A5 & A6 & A7 & A8). pose proof (ready_limit _ _ is_ready) as Rl.
  pose proof (requests_cleared _ _ _ _ done) as Q. pose proof (areas_kept _ _ _ _ done) as A. injection A as B1 B2 B3 B4 B5 B6 B7 B8.
  rewrite B1, B2, B3, B4, B5, B6, B7, Q in *. lia.
Qed.

(** The words of a weak pair after the collection. *)
Lemma weak_pair_after o : live o -> kind_of o = WeakPair ->
  let p := place (start o) in
  let f := forward in
  m' (p + 1) = f (m (start o + 1)) /\
  match target areas (m (start o)) with
  | None => m' p = m (start o)
  | Some a => exists o', In o' objs /\ start o' = a /\ (live o' -> m' p = f (m (start o))) /\ (~ live o' -> m' p = GC_RECLAIMED)
  end.
Proof.
  intros L K p f. apply (moved_reachable _ _ _ _ done) in L as I. destruct (weak_words o I K) as (S & W & _).
  pose proof (moved_objects _ _ _ _ done o I) as Mv. unfold moved in Mv. rewrite K, S, slice_two in Mv. injection Mv as M0 M1.
  split; [exact M1|]. unfold p. rewrite M0. unfold weak_forward. rewrite weak_target_same by exact W.
  destruct (target areas (m (start o))) as [a|] eqn:T; [|reflexivity].
  assert (T' := T). unfold target in T'. destruct (classify (m (start o))) as [|k| |] eqn:C; try discriminate T'.
  destruct (ADDRESS_IN_FROMSPACE_P areas (OBJECT_DATUM (m (start o)))) eqn:F; [|discriminate T']. injection T' as E.
  unfold word_ok in W. rewrite C, F in W. apply andb_prop in W as [_ W].
  destruct (find_object objs (OBJECT_DATUM (m (start o)))) as [o'|] eqn:Fo; [|discriminate W].
  unfold find_object in Fo. apply find_some in Fo as [Io Eo]. exists o'. split; [exact Io|]. split; [lia|].
  assert (So : start o' = a) by lia. rewrite <- So in *. split; intros Lo.
  - apply (moved_reachable _ _ _ _ done) in Lo. rewrite transported_In by exact Lo. unfold f, GcHeap.forward. rewrite T. reflexivity.
  - destruct (transported l (start o')) eqn:X; [|reflexivity]. exfalso. apply Lo, (moved_reachable _ _ _ _ done).
    apply transported_inv in X as (x & Ix & Ex).
    destruct (layout_disjoint _ _ _ x o' (ready_layout _ _ is_ready) (moved_incl x Ix) Io) as [<-|D]; [exact Ix|].
    apply moved_bounds in Ix. apply (layout_bounds objs (heap_start r) (Free r)) in Io; [|exact (ready_layout _ _ is_ready)]. lia.
Qed.

End Mutator.

(** ** Properties *)

(** C2: a garbage collection ends, and what it leaves is the heap it was given with every reachable
    object moved once and every word that is scanned forwarded: the objects that moved are exactly those
    the registers, the stack and constant space reach through words that are scanned (not the cars of
    weak pairs, not raw data); the words at the new place of each are its words forwarded; stack,
    constant space and registers are forwarded; no more words are used than before, but for the two
    registers and the table of ephemerons; the value is the space left. *)
Theorem garbage_collection_correct r objs safety_margin : gc_ready r objs = true -> 0 <= safety_margin ->
  exists l r',
    garbage_collect safety_margin r = Return (ULONG_TO_FIXNUM (Z.max 0 (HEAP_AVAILABLE r' - gc_space_needed r')), r') /\
    collected (set_heap_reserved safety_margin r) objs l r'.
Proof. apply garbage_collect_spec. Qed.

Lemma garbage_collection_correct_witness : exists l r',
  garbage_collect 4 GcSample.before = Return (GcSample.fixnum 16, r') /\
  collected (set_heap_reserved 4 GcSample.before) GcSample.objects l r'.
Proof.
  destruct (garbage_collection_correct GcSample.before GcSample.objects 4 GcSample.before_ready ltac:(lia)) as (l & r' & E & C).
  assert (V : match garbage_collect 4 GcSample.before with Return (n, _) => n = GcSample.fixnum 16 | _ => False end) by (vm_compute; reflexivity).
  rewrite E in V. exists l, r'. split; [|exact C]. rewrite E, V. reflexivity.
Defined.

(** C4: the program cannot tell that its objects moved: under a renaming f of words that keeps type
    codes and leaves every word that refers to no object in the heap, each path of fields from a root
    leads to a word before the collection exactly when it does after it, namely to the renamed one, and
    two words found by paths are the same object after the collection exactly when they were before. *)
Theorem garbage_collection_transparent r objs safety_margin : gc_ready r objs = true -> 0 <= safety_margin ->
  exists f v r' objs', garbage_collect safety_margin r = Return (v, r') /\ roots r' = map f (roots r) /\
    let before := access (areas_of r) (words r) objs in
    let after := access (areas_of r') (words r') objs' in
    (forall w path, In w (roots r) -> after (f w) path = option_map f (before w path)) /\
    (forall w path u, In w (roots r) -> before w path = Some u ->
       OBJECT_TYPE (f u) = OBJECT_TYPE u /\ (target (areas_of r) u = None -> f u = u)) /\
    (forall w1 path1 u1 w2 path2 u2, In w1 (roots r) -> In w2 (roots r) ->
       before w1 path1 = Some u1 -> before w2 path2 = Some u2 -> (f u1 = f u2 <-> u1 = u2)).
Proof.
  intros H M. pose proof (set_heap_reserved_ready r objs safety_margin H M) as H'.
  destruct (garbage_collect_spec r objs safety_margin H M) as (l & r' & E & C).
  destruct (set_heap_reserved_same r safety_margin) as (Ew & Ea & Er & _). rewrite <- Ew, <- Ea, <- Er.
  eexists _, _, r', _. split; [exact E|]. split; [exact (roots_after _ objs l r' H' C)|]. cbv zeta.
  pose proof (fun w path I => path_after _ objs l r' H' C path w (roots_kept _ objs H' w I)) as A.
  split; [intros w path I; apply A, I|]. split.
  - intros w path u I X. destruct (A w path I) as [_ K]. specialize (K u X).
    destruct (forward_word _ objs l r' H' C u K) as (_ & _ & T & _). split; [exact T|]. intros N. unfold forward. now rewrite N.
  - intros w1 p1 u1 w2 p2 u2 I1 I2 X1 X2. destruct (A w1 p1 I1) as [_ K1], (A w2 p2 I2) as [_ K2].
    split; [|now intros ->]. exact (forward_injective _ objs l r' H' C u1 u2 (K1 u1 X1) (K2 u2 X2)).
Qed.

Lemma garbage_collection_transparent_witness :
  exists f r' objs', roots r' = map f (roots GcSample.before) /\
    access (areas_of r') (words r') objs' (f (GcSample.vector_at 18)) [1; 1; 0]%nat = Some (GcSample.fixnum 2).
Proof.
  destruct (garbage_collection_transparent GcSample.before GcSample.objects 4 GcSample.before_ready ltac:(lia))
    as (f & v & r' & objs' & _ & R & A & T & _).
  assert (I : In (GcSample.vector_at 18) (roots GcSample.before)) by (left; reflexivity).
  exists f, r', objs'. split; [exact R|]. rewrite (A _ [1; 1; 0]%nat I).
  assert (P : access (areas_of GcSample.before) (words GcSample.before) GcSample.objects (GcSample.vector_at 18) [1; 1; 0]%nat
    = Some (GcSample.fixnum 2)) by (vm_compute; reflexivity).
  rewrite P. destruct (T _ _ _ I P) as [_ F]. cbn [option_map]. rewrite F by (vm_compute; reflexivity). reflexivity.
Defined.

(** C7: a weak pair that is reachable moves with its cdr forwarded; its car is left if it refers to no
    object in the heap, is forwarded if its object is reachable otherwise, and is replaced by the
    reclaimed mark if it is not: weak references neither keep objects nor dangle. *)
Theorem weak_pairs_let_go r objs safety_margin : gc_ready r objs = true -> 0 <= safety_margin ->
  exists l v r', garbage_collect safety_margin r = Return (v, r') /\
    forall o, live_object r objs o -> kind_of o = WeakPair ->
      let p := place (first_place r) l (start o) in
      let f := forward (areas_of r) (first_place r) l in
      words r' (p + 1) = f (words r (start o + 1)) /\
      match target (areas_of r) (words r (start o)) with
      | None => words r' p = words r (start o)
      | Some a => exists o', In o' objs /\ start o' = a /\
          (live_object r objs o' -> words r' p = f (words r (start o))) /\
          (~ live_object r objs o' -> words r' p = GC_RECLAIMED)
      end.
Proof.
  intros H M. pose proof (set_heap_reserved_ready r objs safety_margin H M) as H'.
  destruct (garbage_collect_spec r objs safety_margin H M) as (l & r' & E & C).
  exists l, (ULONG_TO_FIXNUM (Z.max 0 (HEAP_AVAILABLE r' - gc_space_needed r'))), r'. split; [exact E|]. unfold live_object.
  destruct (set_heap_reserved_same r safety_margin) as (Ew & Ea & Er & Eb). rewrite <- Ew, <- Ea, <- Er, <- Eb.
  exact (weak_pair_after _ objs l r' H' C).
Qed.

Lemma weak_pairs_let_go_witness : exists l v r', garbage_collect 4 GcSample.before = Return (v, r') /\
  words r' (place (first_place GcSample.before) l 24) = forward (areas_of GcSample.before) (first_place GcSample.before) l (GcSample.list_at 14).
Proof.
  destruct (weak_pairs_let_go GcSample.before GcSample.objects 4 GcSample.before_ready ltac:(lia)) as (l & v & r' & E & W).
  exists l, v, r'. split; [exact E|].
  assert (L : live_object GcSample.before GcSample.objects (HeapObject 14 (Tuple 2) 2)).
  { apply reachable_root with (GcSample.list_at 14); [right; right; right; right; now left|vm_compute; reflexivity|right; now left]. }
  assert (V : live_object GcSample.before GcSample.objects (HeapObject 18 Vector 4)).
  { apply reachable_root with (GcSample.vector_at 18); [now left|vm_compute; reflexivity|do 3 right; now left]. }
  assert (L1 : live_object GcSample.before GcSample.objects (HeapObject 22 WeakPair 2)).
  { apply reachable_step with (HeapObject 18 Vector 4) (GcSample.weak_at 22); [exact V|do 3 right; now left|vm_compute; reflexivity|do 4 right; now left]. }
  assert (L2 : live_object GcSample.before GcSample.objects (HeapObject 24 WeakPair 2)).
  { apply reachable_step with (HeapObject 22 WeakPair 2) (GcSample.weak_at 24); [exact L1|right; now left|vm_compute; reflexivity|do 5 right; now left]. }
  destruct (W _ L2 eq_refl) as [_ T]. cbn [start] in T. change (words GcSample.before 24) with (GcSample.list_at 14) in T.
  replace (target (areas_of GcSample.before) (GcSample.list_at 14)) with (Some 14) in T by (vm_compute; reflexivity).
  destruct T as (o' & I & S & K & _). apply K. destruct I as [<-|[<-|I]]; [discriminate S|exact L|].
  exfalso. cbn in I. repeat (destruct I as [<-|I]; [discriminate S|]). exact I.
Defined.

(** C8: after a garbage collection the heap is laid out in objects again, each of the kind its pointers
    say, and every word that will be scanned is one the collector knows, so that, with the same reserve
    of words at the end of the heap and room in tospace, the next collection can follow. *)
Theorem collection_leaves_heap_in_order r objs safety_margin : gc_ready r objs = true -> 0 <= safety_margin ->
  exists v r' objs', garbage_collect safety_margin r = Return (v, r') /\ heap_in_order r' objs' = true /\
    (Free r' + 14 <= heap_end r' -> Free r' - heap_start r' + 2 <= tospace_words r' -> gc_ready r' objs' = true).
Proof.
  intros H M. pose proof (set_heap_reserved_ready r objs safety_margin H M) as H'.
  destruct (garbage_collect_spec r objs safety_margin H M) as (l & r' & E & C).
  pose proof (heap_in_order_after _ objs l r' H' C) as O. eexists _, r', _. split; [exact E|]. split; [exact O|].
  intros R1 R2. exact (ready_again _ objs l r' H' C R1 R2).
Qed.

Lemma collection_leaves_heap_in_order_witness : exists v r' objs',
  garbage_collect 4 GcSample.before = Return (v, r') /\ gc_ready r' objs' = true.
Proof.
  destruct (collection_leaves_heap_in_order GcSample.before GcSample.objects 4 GcSample.before_ready ltac:(lia)) as (v & r' & objs' & E & _ & R).
  assert (V : match garbage_collect 4 GcSample.before with
              | Return (_, r) => Free r + 14 <= heap_end r /\ Free r - heap_start r + 2 <= tospace_words r
              | _ => False
              end) by (vm_compute; split; discriminate).
  rewrite E in V. exists v, r', objs'. split; [exact E|]. destruct V as [V1 V2]. exact (R V1 V2).
Defined.
