(* ===== verification/Regex.v ===== *)
(** * regex.c: regular expressions

    A compiled pattern is a program of bytes.  [re_match] runs it on a text
    with a gap, with a stack of failure points to come back to; it changes the
    program while it runs.  [re_compile_fastmap] finds the bytes a match can
    start with, and the searches skip the other places. *)

From Stdlib Require Import ZArith List Bool Lia.
From S2P Require Import Prelude.
Import ListNotations.

#[local] Open Scope Z_scope.

(** ** The codes *)

Inductive regexpcode : Type :=
| regexpcode_unused | regexpcode_exact_1 | regexpcode_exact_n | regexpcode_line_start | regexpcode_line_end
| regexpcode_jump | regexpcode_on_failure_jump | regexpcode_finalize_jump | regexpcode_maybe_finalize_jump | regexpcode_dummy_failure_jump
| regexpcode_any_char | regexpcode_char_set | regexpcode_not_char_set | regexpcode_start_memory | regexpcode_stop_memory | regexpcode_duplicate
| regexpcode_buffer_start | regexpcode_buffer_end | regexpcode_word_char | regexpcode_not_word_char
| regexpcode_word_start | regexpcode_word_end | regexpcode_word_bound | regexpcode_not_word_bound
| regexpcode_syntax_spec | regexpcode_not_syntax_spec.

(** The values of the enumeration, from 0. *)
Definition regexpcodes : list regexpcode :=
  [ regexpcode_unused; regexpcode_exact_1; regexpcode_exact_n; regexpcode_line_start; regexpcode_line_end;
    regexpcode_jump; regexpcode_on_failure_jump; regexpcode_finalize_jump; regexpcode_maybe_finalize_jump; regexpcode_dummy_failure_jump;
    regexpcode_any_char; regexpcode_char_set; regexpcode_not_char_set; regexpcode_start_memory; regexpcode_stop_memory; regexpcode_duplicate;
    regexpcode_buffer_start; regexpcode_buffer_end; regexpcode_word_char; regexpcode_not_word_char;
    regexpcode_word_start; regexpcode_word_end; regexpcode_word_bound; regexpcode_not_word_bound;
    regexpcode_syntax_spec; regexpcode_not_syntax_spec ].

Definition regexpcode_of (byte : Z) : option regexpcode := nth_error regexpcodes (Z.to_nat byte).

Definition code_jump : Z := 5.
Definition code_on_failure_jump : Z := 6.
Definition code_finalize_jump : Z := 7.

Definition RE_NREGS : Z := 10.
Definition RE_NFAILURES : Z := 512.
Definition ASCII_LENGTH : Z := 8.
Definition MAX_CHAR : Z := 256.
Definition newline : Z := 10.

(** ** Syntax tables

    The entries of a table are words; [entry] gives the one of a character. *)

Definition SYNTAX_ENTRY_CODE (entry : Z) : Z := Z.land entry 0xF.
Definition syntaxcode_word : Z := 2.
Definition syntaxcode_max : Z := 13.

(** ** Reading the pattern

    From [pc] on; [None] is a pattern that is badly formed.  The value comes
    with the new [pc]. *)

Definition pattern_byte (pattern : list Z) (pc : Z) : Z := nth (Z.to_nat pc) pattern 0.
Definition signed_char (byte : Z) : Z := if byte <? 128 then byte else byte - 256.

Definition READ_PATTERN_CHAR (pattern : list Z) (pc : Z) : option (Z * Z) :=
  if pc >=? zlength pattern then None else Some (pattern_byte pattern pc, pc + 1).

Definition READ_PATTERN_OFFSET (pattern : list Z) (pc : Z) : option (Z * Z) :=
  if pc + 1 >=? zlength pattern then None
  else
    let target := pattern_byte pattern pc + 256 * signed_char (pattern_byte pattern (pc + 1)) in
    let pc := pc + 2 in
    if (pc + target <? 0) || (pc + target >? zlength pattern) then None else Some (target, pc).

Definition READ_PATTERN_LENGTH (pattern : list Z) (pc : Z) : option (Z * Z) :=
  if pc >=? zlength pattern then None
  else
    let len := pattern_byte pattern pc in
    let pc := pc + 1 in
    if pc + len >? zlength pattern then None else Some (len, pc).

Definition READ_PATTERN_REGISTER (pattern : list Z) (pc : Z) : option (Z * Z) :=
  if (pc >=? zlength pattern) || (pattern_byte pattern pc >=? RE_NREGS) then None else Some (pattern_byte pattern pc, pc + 1).

Definition READ_PATTERN_SYNTAXCODE (pattern : list Z) (pc : Z) : option (Z * Z) :=
  if (pc >=? zlength pattern) || (pattern_byte pattern pc >=? syntaxcode_max) then None else Some (pattern_byte pattern pc, pc + 1).

(** The bit map of a set starts at [char_set]. *)
Definition CHAR_SET_MEMBER_P_INTERNAL (pattern : list Z) (char_set ascii : Z) : bool :=
  Z.testbit (pattern_byte pattern (char_set + ascii / ASCII_LENGTH)) (ascii mod ASCII_LENGTH).
Definition CHAR_SET_MEMBER_P (length : Z) (pattern : list Z) (char_set ascii : Z) : bool :=
  (ascii <? length * ASCII_LENGTH) && CHAR_SET_MEMBER_P_INTERNAL pattern char_set ascii.

(** ** Buffers

    [text] is the memory of the text, with the gap; the other fields and
    all pointers into it are distances from its start. *)

Record re_buffer : Type := Buffer {
  translation : option (list Z);
  syntax_table : Z -> Z;
  text : list Z;
  text_start : Z; text_end : Z; gap_start : Z; gap_end : Z
}.

Definition re_buffer_initialize (translation : option (list Z)) (syntax_table : Z -> Z) (text : list Z) (text_start text_end gap_start gap_end : Z) : re_buffer :=
  Buffer translation syntax_table text (if text_start =? gap_start then gap_end else text_start) (if text_end =? gap_end then gap_start else text_end) gap_start gap_end.

(** A registers structure: the starts and the ends, -1 for none. *)
Record re_registers : Type := Registers { reg_start : list Z; reg_end : list Z }.

Section WithBuffer.

Context (buffer : re_buffer).

Definition TRANSLATE_CHAR (ascii : Z) : Z := match translation buffer with None => ascii | Some table => nth (Z.to_nat ascii) table 0 end.
Definition SYNTAX_CONSTITUENT_P (code ascii : Z) : bool := SYNTAX_ENTRY_CODE (syntax_table buffer (Z.land ascii 0xFF)) =? code.
Definition WORD_CONSTITUENT_P (ascii : Z) : bool := SYNTAX_CONSTITUENT_P syntaxcode_word ascii.

(** ** The fastmap *)

Definition fastmap : Type := list Z.
Definition empty_fastmap : fastmap := repeat 0 (Z.to_nat MAX_CHAR).

(** [(fastmap [(TRANSLATE_CHAR (ascii))]) = FASTMAP_TRUE]; there is no such
    element for a character above 255. *)
Definition mark (ascii : Z) (map : fastmap) : outcome fastmap :=
  if ascii <? MAX_CHAR then Return (update (Z.to_nat (TRANSLATE_CHAR ascii)) 1 map) else Wild.

(** [FOR_INDEX_RANGE (ascii, first, first + n)] for those that pass [p]. *)
Fixpoint mark_all (p : Z -> bool) (n : nat) (first : Z) (map : fastmap) : outcome fastmap :=
  match n with
  | O => Return map
  | S n => bind (if p first then mark first map else Return map) (mark_all p n (first + 1))
  end.

(** [loop] with the stack of the alternatives that are left; the result is the
    return value and the map.  [goto next] is [fastmap_next]. *)
Section FastmapLoop.

Context (pattern : list Z).

Definition bad_pattern (map : fastmap) : outcome (Z * fastmap) := Return (-2, map).

Definition fastmap_next (loop : Z -> list Z -> fastmap -> Z -> outcome (Z * fastmap)) (stack : list Z) (map : fastmap) (return_value : Z) : outcome (Z * fastmap) :=
  match stack with [] => Return (return_value, map) | pc :: stack => loop pc stack map return_value end.

Definition read {A} (r : option (Z * Z)) (map : fastmap) (k : Z -> Z -> outcome A) (bad : fastmap -> outcome A) : outcome A :=
  match r with Some (value, pc) => k value pc | None => bad map end.

Definition fastmap_jump (loop : Z -> list Z -> fastmap -> Z -> outcome (Z * fastmap)) (pc : Z) (stack : list Z) (map : fastmap) : outcome (Z * fastmap) :=
  read (READ_PATTERN_OFFSET pattern pc) map (fun offset pc =>
    let pc := pc + offset in
    if offset >? 0 then loop pc stack map 1
    else if pc >=? zlength pattern then bad_pattern map
    else if negb (pattern_byte pattern pc =? code_on_failure_jump) then loop pc stack map 1
    else
      read (READ_PATTERN_OFFSET pattern pc) map (fun offset pc =>
        let pc := pc + offset in
        match stack with
        | top :: rest => loop pc (if top =? pc then rest else stack) map 1
        | [] => loop pc stack map 1
        end) bad_pattern) bad_pattern.

Fixpoint fastmap_loop (fuel : nat) (pc : Z) (stack : list Z) (map : fastmap) (return_value : Z) : outcome (Z * fastmap) :=
  match fuel with
  | O => OutOfFuel
  | S fuel =>
      let loop := fastmap_loop fuel in
      let next := fun map rv => fastmap_next loop stack map rv in
      let continue := fun map => next map return_value in
      if pc >=? zlength pattern then Return (1, map)
      else
        let code := pattern_byte pattern pc in
        let pc := pc + 1 in
        match regexpcode_of code with
        | None => bad_pattern map
        | Some code =>
            match code with
            | regexpcode_unused | regexpcode_line_start | regexpcode_buffer_start | regexpcode_buffer_end
            | regexpcode_word_start | regexpcode_word_end | regexpcode_word_bound | regexpcode_not_word_bound => loop pc stack map return_value
            | regexpcode_line_end => bind (mark newline map) (fun map => next map (if return_value =? 0 then 2 else return_value))
            | regexpcode_exact_1 => read (READ_PATTERN_CHAR pattern pc) map (fun ascii _ => bind (mark ascii map) continue) bad_pattern
            | regexpcode_exact_n =>
                read (READ_PATTERN_LENGTH pattern pc) map (fun length pc =>
                  if length =? 0 then loop pc stack map return_value else bind (mark (pattern_byte pattern pc) map) continue) bad_pattern
            | regexpcode_any_char =>
                bind (mark_all (fun ascii => negb (ascii =? newline)) (Z.to_nat MAX_CHAR) 0 map) (fun map =>
                  if negb (return_value =? 0) then Return (return_value, map) else continue map)
            | regexpcode_char_set =>
                read (READ_PATTERN_LENGTH pattern pc) map (fun length pc =>
                  bind (mark_all (CHAR_SET_MEMBER_P_INTERNAL pattern pc) (Z.to_nat (length * ASCII_LENGTH)) 0 map) continue) bad_pattern
            | regexpcode_not_char_set =>
                read (READ_PATTERN_LENGTH pattern pc) map (fun length pc =>
                  bind (mark_all (fun ascii => negb (CHAR_SET_MEMBER_P_INTERNAL pattern pc ascii)) (Z.to_nat (length * ASCII_LENGTH)) 0 map) (fun map =>
                    bind (mark_all (fun _ => true) (Z.to_nat (MAX_CHAR - length * ASCII_LENGTH)) (length * ASCII_LENGTH) map) continue)) bad_pattern
            | regexpcode_word_char => bind (mark_all WORD_CONSTITUENT_P (Z.to_nat MAX_CHAR) 0 map) continue
            | regexpcode_not_word_char => bind (mark_all (fun ascii => negb (WORD_CONSTITUENT_P ascii)) (Z.to_nat MAX_CHAR) 0 map) continue
            | regexpcode_syntax_spec =>
                read (READ_PATTERN_SYNTAXCODE pattern pc) map (fun code _ =>
                  bind (mark_all (SYNTAX_CONSTITUENT_P code) (Z.to_nat MAX_CHAR) 0 map) continue) bad_pattern
            | regexpcode_not_syntax_spec =>
                read (READ_PATTERN_SYNTAXCODE pattern pc) map (fun code _ =>
                  bind (mark_all (fun ascii => negb (SYNTAX_CONSTITUENT_P code ascii)) (Z.to_nat MAX_CHAR) 0 map) continue) bad_pattern
            | regexpcode_start_memory | regexpcode_stop_memory =>
                read (READ_PATTERN_REGISTER pattern pc) map (fun _ pc => loop pc stack map return_value) bad_pattern
            | regexpcode_duplicate => read (READ_PATTERN_REGISTER pattern pc) map (fun _ _ => Return (1, repeat 1 (Z.to_nat MAX_CHAR))) bad_pattern
            | regexpcode_jump | regexpcode_finalize_jump | regexpcode_maybe_finalize_jump | regexpcode_dummy_failure_jump => fastmap_jump loop pc stack map
            | regexpcode_on_failure_jump =>
                read (READ_PATTERN_OFFSET pattern pc) map (fun offset pc =>
                  if zlength stack <? RE_NFAILURES then loop pc (pc + offset :: stack) map return_value else Wild) bad_pattern
            end
        end
  end.

Definition re_compile_fastmap (fuel : nat) : outcome (Z * fastmap) := fastmap_loop fuel 0 [] empty_fastmap 0.

End FastmapLoop.

(** ** Matching *)

(** A failure point is where to go on in the pattern and in the text; [None] is
    the dummy.  [stack_length] is the number of pointers the stack has room for. *)
Record re_state : Type := State {
  pattern : list Z; pattern_pc : Z; match_pc : Z;
  failures : list (option (Z * Z)); stack_length : Z;
  register_start : list (option Z); register_end : list (option Z)
}.

(** [goto re_match_fail], or the return of [re_match]. *)
Inductive re_exit : Type := match_fail | RE_RETURN (value : Z).

Definition matcher (A : Type) : Type := re_state -> outcome ((A + re_exit) * re_state).

Definition rret {A} (a : A) : matcher A := fun s => Return (inl a, s).
Definition rexit {A} (e : re_exit) : matcher A := fun s => Return (inr e, s).
Definition rthen {A B} (m : matcher A) (k : A -> matcher B) : matcher B := fun s =>
  bind (m s) (fun '(r, s') => match r with inl a => k a s' | inr e => Return (inr e, s') end).

Declare Scope matcher_scope.
Notation "x <- m ;; k" := (rthen m (fun x => k)) (at level 60, m at next level, right associativity) : matcher_scope.
Notation "m ;; k" := (rthen m (fun _ => k)) (at level 60, right associativity) : matcher_scope.
#[local] Open Scope matcher_scope.

Definition fail_unless (b : bool) : matcher unit := if b then rret tt else rexit match_fail.

Definition with_pcs (pc mpc : Z) (s : re_state) : re_state := State (pattern s) pc mpc (failures s) (stack_length s) (register_start s) (register_end s).
Definition with_failures (l : list (option (Z * Z))) (length : Z) (s : re_state) : re_state :=
  State (pattern s) (pattern_pc s) (match_pc s) l length (register_start s) (register_end s).
Definition with_pattern (p : list Z) (s : re_state) : re_state := State p (pattern_pc s) (match_pc s) (failures s) (stack_length s) (register_start s) (register_end s).
Definition with_registers (starts ends : list (option Z)) (s : re_state) : re_state :=
  State (pattern s) (pattern_pc s) (match_pc s) (failures s) (stack_length s) starts ends.

Definition get {A} (f : re_state -> A) : matcher A := fun s => Return (inl (f s), s).
Definition modify_state (f : re_state -> re_state) : matcher unit := fun s => Return (inl tt, f s).
Definition set_pattern_pc (pc : Z) : matcher unit := modify_state (fun s => with_pcs pc (match_pc s) s).
Definition set_match_pc (pc : Z) : matcher unit := modify_state (fun s => with_pcs (pattern_pc s) pc s).

Definition BAD_PATTERN {A} : matcher A := rexit (RE_RETURN (-2)).

Definition read_pattern (r : list Z -> Z -> option (Z * Z)) : matcher Z := fun s =>
  match r (pattern s) (pattern_pc s) with
  | Some (value, pc) => Return (inl value, with_pcs pc (match_pc s) s)
  | None => BAD_PATTERN s
  end.

(** A byte of the text, or of the pattern, outside of which there is nothing to read. *)
Definition text_byte (p : Z) : matcher Z := fun s => if (0 <=? p) && (p <? zlength (text buffer)) then Return (inl (nth (Z.to_nat p) (text buffer) 0), s) else Wild.
Definition pattern_ref (p : Z) : matcher Z := fun s => if (0 <=? p) && (p <? zlength (pattern s)) then Return (inl (pattern_byte (pattern s) p), s) else Wild.

Definition gap_length : Z := gap_end buffer - gap_start buffer.
Definition ADDRESS_TO_INDEX (address : Z) : Z := if address >? gap_start buffer then address - gap_length else address.

Section Match.

(** Where the text to match ends, whether [realloc] grants a number of
    pointers, and the limit on failure points. *)
Context (match_end : Z) (realloc : Z -> bool) (re_max_failures : Z).

Definition READ_MATCH_CHAR : matcher Z :=
  pc <- get match_pc ;;
  fail_unless (negb (pc >=? match_end)) ;;
  c <- text_byte pc ;;
  set_match_pc (if pc + 1 =? gap_start buffer then gap_end buffer else pc + 1) ;;
  rret (TRANSLATE_CHAR c).

Definition PUSH_FAILURE_POINT (point : option (Z * Z)) : matcher unit := fun s =>
  let used := 2 * zlength (failures s) in
  if used =? stack_length s then
    let length := stack_length s * 2 in
    if length >? re_max_failures * 2 then Return (inr (RE_RETURN (-4)), s)
    else if realloc length then Return (inl tt, with_failures (point :: failures s) length s)
    else Return (inr (RE_RETURN (-3)), s)
  else Return (inl tt, with_failures (point :: failures s) (stack_length s) s).

(** The loop on the [n] bytes of an exact string. *)
Fixpoint match_exact (n : nat) : matcher unit :=
  match n with
  | O => rret tt
  | S n =>
      ascii <- READ_MATCH_CHAR ;;
      pc <- get pattern_pc ;;
      p <- pattern_ref pc ;;
      set_pattern_pc (pc + 1) ;;
      fail_unless (ascii =? p) ;;
      match_exact n
  end.

Definition RE_MATCH_CHAR_SET (wins : bool) : matcher unit :=
  ascii <- READ_MATCH_CHAR ;;
  length <- read_pattern READ_PATTERN_LENGTH ;;
  pc <- get pattern_pc ;;
  p <- get pattern ;;
  set_pattern_pc (pc + length) ;;
  fail_unless (Bool.eqb (CHAR_SET_MEMBER_P length p pc ascii) wins).

Fixpoint beq_translate (n : nat) (scan1 scan2 : Z) : matcher bool :=
  match n with
  | O => rret true
  | S n =>
      c1 <- text_byte scan1 ;; c2 <- text_byte scan2 ;;
      if negb (TRANSLATE_CHAR c1 =? TRANSLATE_CHAR c2) then rret false else beq_translate n (scan1 + 1) (scan2 + 1)
  end.

Definition register (f : re_state -> list (option Z)) (n : Z) : matcher (option Z) := get (fun s => nth (Z.to_nat n) (f s) None).

(** The difference of a pointer and NULL is undefined. *)
Definition match_duplicate : matcher unit :=
  n <- read_pattern READ_PATTERN_REGISTER ;;
  start <- register register_start n ;;
  end_ <- register register_end n ;;
  match start, end_ with
  | None, None => rret tt
  | Some start, Some end_ =>
      let length := end_ - start in
      if length <=? 0 then rret tt
      else
        pc <- get match_pc ;;
        let new_end := pc + length in
        fail_unless (negb (new_end >? match_end)) ;;
        new_end <-
          (if (pc <=? gap_start buffer) && (new_end >? gap_start buffer) then
             let new_end := new_end + gap_length in
             fail_unless (negb (new_end >? match_end)) ;;
             let length1 := gap_start buffer - pc in
             let length2 := length - length1 in
             b1 <- beq_translate (Z.to_nat length1) pc start ;;
             b2 <- (if b1 then beq_translate (Z.to_nat length2) (gap_end buffer) (start + length1) else rret false) ;;
             fail_unless b2 ;;
             rret new_end
           else if (start <=? gap_start buffer) && (end_ >? gap_start buffer) then
             let length1 := gap_start buffer - start in
             let length2 := end_ - gap_end buffer in
             b1 <- beq_translate (Z.to_nat length1) pc start ;;
             b2 <- (if b1 then beq_translate (Z.to_nat length2) (pc + length1) (gap_end buffer) else rret false) ;;
             fail_unless b2 ;;
             rret new_end
           else
             b <- beq_translate (Z.to_nat length) pc start ;;
             fail_unless b ;;
             rret new_end) ;;
        set_match_pc (if new_end =? gap_start buffer then gap_end buffer else new_end)
  | _, _ => fun _ => Wild
  end.

(** [left && right] of C, where [right] is only run when [left] holds. *)
Definition and_then (left : bool) (right : matcher bool) : matcher bool := if left then right else rret false.
Definition word_at (p : Z) : matcher bool := c <- text_byte p ;; rret (WORD_CONSTITUENT_P (TRANSLATE_CHAR c)).

(** [word_bound_p] looks at the right side only when [looks_right left]. *)
Definition RE_MATCH_WORD_BOUND (looks_right : bool -> bool) (word_bound_p : bool -> bool -> bool) : matcher unit :=
  pc <- get match_pc ;;
  let before := if pc =? gap_end buffer then gap_start buffer else pc in
  left <- and_then (negb (before =? text_start buffer)) (word_at (before - 1)) ;;
  right <- and_then (looks_right left && negb (pc =? text_end buffer)) (word_at pc) ;;
  fail_unless (word_bound_p left right).

Definition at_index (f : Z) : matcher bool := pc <- get match_pc ;; rret (ADDRESS_TO_INDEX pc =? ADDRESS_TO_INDEX f).

Definition re_match_jump : matcher unit :=
  offset <- read_pattern READ_PATTERN_OFFSET ;;
  pc <- get pattern_pc ;;
  set_pattern_pc (pc + offset).

(** The stack pointer goes down below an empty stack. *)
Definition re_match_finalize_jump : matcher unit :=
  (fun s => match failures s with [] => Wild | _ :: rest => Return (inl tt, with_failures rest (stack_length s) s) end) ;;
  re_match_jump.

(** Whether the jump back to the start of a repeat can be final: what follows
    ([next]) cannot start with a byte that the repeat ([body]) starts with. *)
Definition next_char (pc : Z) : matcher (option Z) :=
  c <- pattern_ref pc ;;
  match regexpcode_of c with
  | Some regexpcode_exact_1 => a <- pattern_ref (pc + 1) ;; rret (Some a)
  | Some regexpcode_exact_n => a <- pattern_ref (pc + 2) ;; rret (Some a)
  | Some regexpcode_line_end => rret (Some newline)
  | _ => rret None
  end.

Definition finalize_p (ascii body : Z) : matcher bool :=
  c <- pattern_ref body ;;
  match regexpcode_of c with
  | Some regexpcode_exact_1 => a <- pattern_ref (body + 1) ;; rret (negb (ascii =? a))
  | Some regexpcode_exact_n => a <- pattern_ref (body + 2) ;; rret (negb (ascii =? a))
  | Some regexpcode_char_set =>
      length <- pattern_ref (body + 1) ;; p <- get pattern ;; rret (negb (CHAR_SET_MEMBER_P length p (body + 2) ascii))
  | Some regexpcode_not_char_set =>
      length <- pattern_ref (body + 1) ;; p <- get pattern ;; rret (CHAR_SET_MEMBER_P length p (body + 2) ascii)
  | _ => rret false
  end.

Definition patch_jump (code : Z) : matcher unit :=
  modify_state (fun s =>
    let pc := pattern_pc s - 2 in with_pcs pc (match_pc s) (with_pattern (update (Z.to_nat (pc - 1)) code (pattern s)) s)).

Definition match_maybe_finalize_jump : matcher unit :=
  offset <- read_pattern READ_PATTERN_OFFSET ;;
  pc <- get pattern_pc ;;
  p <- get pattern ;;
  final <-
    (if pc =? zlength p then rret true
     else
       ascii <- next_char pc ;;
       match ascii with None => rret false | Some ascii => finalize_p ascii (pc + offset) end) ;;
  if final then patch_jump code_finalize_jump ;; re_match_finalize_jump
  else patch_jump code_jump ;; re_match_jump.

Definition match_constituent (wins : bool) : matcher unit :=
  ascii <- READ_MATCH_CHAR ;;
  code <- read_pattern READ_PATTERN_SYNTAXCODE ;;
  fail_unless (Bool.eqb (SYNTAX_CONSTITUENT_P code ascii) wins).

Definition re_execute (code : regexpcode) : matcher unit :=
  match code with
  | regexpcode_unused => rret tt
  | regexpcode_exact_1 => ascii <- READ_MATCH_CHAR ;; p <- read_pattern READ_PATTERN_CHAR ;; fail_unless (ascii =? p)
  | regexpcode_exact_n => length <- read_pattern READ_PATTERN_LENGTH ;; match_exact (Z.to_nat length)
  | regexpcode_any_char => ascii <- READ_MATCH_CHAR ;; fail_unless (negb (ascii =? newline))
  | regexpcode_char_set => RE_MATCH_CHAR_SET true
  | regexpcode_not_char_set => RE_MATCH_CHAR_SET false
  | regexpcode_start_memory =>
      n <- read_pattern READ_PATTERN_REGISTER ;;
      modify_state (fun s => with_registers (update (Z.to_nat n) (Some (match_pc s)) (register_start s)) (register_end s) s)
  | regexpcode_stop_memory =>
      n <- read_pattern READ_PATTERN_REGISTER ;;
      modify_state (fun s => with_registers (register_start s)
        (update (Z.to_nat n) (Some (if match_pc s =? gap_end buffer then gap_start buffer else match_pc s)) (register_end s)) s)
  | regexpcode_duplicate => match_duplicate
  | regexpcode_buffer_start => b <- at_index (text_start buffer) ;; fail_unless b
  | regexpcode_buffer_end => b <- at_index (text_end buffer) ;; fail_unless b
  | regexpcode_line_start =>
      b <- at_index (text_start buffer) ;;
      if b then rret tt
      else
        pc <- get match_pc ;;
        c <- text_byte ((if pc =? gap_end buffer then gap_start buffer else pc) - 1) ;;
        fail_unless (TRANSLATE_CHAR c =? newline)
  | regexpcode_line_end =>
      b <- at_index (text_end buffer) ;;
      if b then rret tt
      else pc <- get match_pc ;; c <- text_byte pc ;; fail_unless (TRANSLATE_CHAR c =? newline)
  | regexpcode_word_bound => RE_MATCH_WORD_BOUND (fun _ => true) (fun left right => negb (Bool.eqb left right))
  | regexpcode_not_word_bound => RE_MATCH_WORD_BOUND (fun _ => true) (fun left right => Bool.eqb left right)
  | regexpcode_word_start => RE_MATCH_WORD_BOUND negb (fun left right => negb left && right)
  | regexpcode_word_end => RE_MATCH_WORD_BOUND (fun left => left) (fun left right => left && negb right)
  | regexpcode_syntax_spec => match_constituent true
  | regexpcode_not_syntax_spec => match_constituent false
  | regexpcode_word_char => ascii <- READ_MATCH_CHAR ;; fail_unless (WORD_CONSTITUENT_P ascii)
  | regexpcode_not_word_char => ascii <- READ_MATCH_CHAR ;; fail_unless (negb (WORD_CONSTITUENT_P ascii))
  | regexpcode_on_failure_jump =>
      offset <- read_pattern READ_PATTERN_OFFSET ;;
      pc <- get pattern_pc ;; mpc <- get match_pc ;;
      PUSH_FAILURE_POINT (Some (pc + offset, mpc))
  | regexpcode_maybe_finalize_jump => match_maybe_finalize_jump
  | regexpcode_finalize_jump => re_match_finalize_jump
  | regexpcode_jump => re_match_jump
  | regexpcode_dummy_failure_jump => PUSH_FAILURE_POINT None ;; re_match_jump
  end.

(** [SWITCH_ENUM (regexpcode, ( *pattern_pc++))]. *)
Definition re_dispatch : matcher unit :=
  pc <- get pattern_pc ;;
  code <- pattern_ref pc ;;
  set_pattern_pc (pc + 1) ;;
  match regexpcode_of code with Some code => re_execute code | None => BAD_PATTERN end.

(** Dummies are thrown away. *)
Fixpoint next_failure_point (l : list (option (Z * Z))) : option (Z * Z * list (option (Z * Z))) :=
  match l with
  | [] => None
  | None :: l => next_failure_point l
  | Some (pc, mpc) :: l => Some (pc, mpc, l)
  end.

Definition RE_MATCH_FAILED : Z := -1.

Definition re_match_fail (s : re_state) : outcome (re_state + Z * re_state) :=
  Return (match next_failure_point (failures s) with
          | None => inr (RE_MATCH_FAILED, s)
          | Some (pc, mpc, l) => inl (with_failures l (stack_length s) (with_pcs pc mpc s))
          end).

(** One turn of [re_match_loop]: the state to go on with, or the value to return. *)
Definition re_step (s : re_state) : outcome (re_state + Z * re_state) :=
  if pattern_pc s >=? zlength (pattern s) then Return (inr (ADDRESS_TO_INDEX (match_pc s), s))
  else bind (re_dispatch s) (fun '(r, s) =>
    match r with
    | inl _ => Return (inl s)
    | inr match_fail => re_match_fail s
    | inr (RE_RETURN value) => Return (inr (value, s))
    end).

Fixpoint re_run (fuel : nat) (s : re_state) : outcome (Z * re_state) :=
  match fuel with
  | O => OutOfFuel
  | S fuel => bind (re_step s) (fun r => match r with inl s => re_run fuel s | inr result => Return result end)
  end.

(** [malloc] grants the stack or not. *)
Definition re_match_start (p : list Z) (match_start : Z) : re_state :=
  State p 0 match_start [] (2 * RE_NFAILURES) (repeat None (Z.to_nat RE_NREGS)) (repeat None (Z.to_nat RE_NREGS)).

Definition register_index (r : option Z) : Z := match r with None => -1 | Some address => ADDRESS_TO_INDEX address end.

(** The registers structure after a match from [match_start]. *)
Definition final_registers (match_start : Z) (s : re_state) : re_registers :=
  Registers (map register_index (update 0 (Some match_start) (register_start s))) (map register_index (update 0 (Some (match_pc s)) (register_end s))).

(** The value, the pattern as it is left, and the registers if they are set. *)
Definition re_match (malloc : bool) (fuel : nat) (p : list Z) (match_start : Z) : outcome (Z * list Z * option re_registers) :=
  if malloc then
    bind (re_run fuel (re_match_start p match_start)) (fun '(value, s) =>
      Return (value, pattern s, if value >=? 0 then Some (final_registers match_start s) else None))
  else Return (-3, p, None).

(** ** Searching *)

Definition RE_MATCH_FAILURE_RESULT (result : Z) : bool := (result =? RE_MATCH_FAILED) || (result =? -4).

Definition search_result : Type := Z * list Z * option re_registers.

(** How a loop of a search ends: it returns a result, or goes on after the loop. *)
Definition search_exit : Type := search_result + (Z * list Z).

Section Search.

(** [test p start] is [re_match] at [start] with the pattern [p]. *)
Context (test : list Z -> Z -> outcome search_result) (map : fastmap).

Definition in_fastmap (c : Z) : bool := negb (nth (Z.to_nat (TRANSLATE_CHAR c)) map 0 =? 0).

Definition text_ref (p : Z) : outcome Z := if (0 <=? p) && (p <? zlength (text buffer)) then Return (nth (Z.to_nat p) (text buffer) 0) else Wild.

(** [RE_SEARCH_FORWARD_FAST] from [pc] up to [limit], [n] bytes. *)
Fixpoint search_forward_fast (n : nat) (p : list Z) (pc : Z) : outcome search_exit :=
  match n with
  | O => Return (inr (pc, p))
  | S n =>
      bind (text_ref pc) (fun c =>
        if negb (in_fastmap c) then search_forward_fast n p (pc + 1)
        else
          bind (test p pc) (fun '(result, p, registers) =>
            if RE_MATCH_FAILURE_RESULT result then search_forward_fast n p (pc + 1) else Return (inl (result, p, registers))))
  end.

Fixpoint search_backward_fast (n : nat) (p : list Z) (pc : Z) : outcome search_exit :=
  match n with
  | O => Return (inr (pc, p))
  | S n =>
      let pc := pc - 1 in
      bind (text_ref pc) (fun c =>
        if negb (in_fastmap c) then search_backward_fast n p pc
        else
          bind (test p pc) (fun '(result, p, registers) =>
            if RE_MATCH_FAILURE_RESULT result then search_backward_fast n p pc
            else Return (inl (if result <? 0 then result else ADDRESS_TO_INDEX pc, p, registers))))
  end.

(** The searches that try every place; the fuel bounds the number of places. *)
Fixpoint search_forward_slow (fuel : nat) (p : list Z) (pc limit : Z) : outcome search_result :=
  match fuel with
  | O => OutOfFuel
  | S fuel =>
      bind (test p pc) (fun '(result, p, registers) =>
        if negb (RE_MATCH_FAILURE_RESULT result) then Return (result, p, registers)
        else
          let pc := pc + 1 in
          let pc := if pc =? gap_start buffer then gap_end buffer else pc in
          if pc >? limit then Return (result, p, registers) else search_forward_slow fuel p pc limit)
  end.

Definition RE_SEARCH_BACKWARD_RETURN (start : Z) (r : search_result) : search_result :=
  let '(result, p, registers) := r in (if result <? 0 then result else ADDRESS_TO_INDEX start, p, registers).

Fixpoint search_backward_slow (fuel : nat) (p : list Z) (pc limit : Z) : outcome search_result :=
  match fuel with
  | O => OutOfFuel
  | S fuel =>
      bind (test p pc) (fun '(result, p, registers) =>
        if negb (RE_MATCH_FAILURE_RESULT result) then Return (RE_SEARCH_BACKWARD_RETURN pc (result, p, registers))
        else
          let pc := (if pc =? gap_end buffer then gap_start buffer else pc) - 1 in
          if pc <? limit then Return (RE_SEARCH_BACKWARD_RETURN pc (result, p, registers)) else search_backward_slow fuel p pc limit)
  end.

End Search.

(** The fast loop up to a limit, and what comes after it. *)
Definition after_fast (r : outcome search_exit) (k : list Z -> Z -> outcome search_result) : outcome search_result :=
  bind r (fun e => match e with inl result => Return result | inr (pc, p) => k p pc end).

Definition distance (from to : Z) : nat := Z.to_nat (to - from).

End Match.

Section Searches.

Context (match_end : Z) (realloc : Z -> bool) (re_max_failures : Z) (malloc : bool) (fuel : nat).

Notation test := (re_match match_end realloc re_max_failures malloc fuel).

Definition re_search_forward (p : list Z) (match_start : Z) : outcome search_result :=
  bind (re_compile_fastmap p fuel) (fun '(can_be_null, map) =>
    if can_be_null <? 0 then Return (can_be_null, p, None)
    else if negb (can_be_null =? 1) then
      let gap := gap_start buffer in
      after_fast (if (match_start <? gap) && (gap <? match_end) then search_forward_fast test map (distance match_start gap) p match_start else Return (inr (match_start, p))) (fun p pc =>
        let pc := if pc =? gap then gap_end buffer else pc in
        after_fast (search_forward_fast test map (distance pc match_end) p pc) (fun p _ =>
          if can_be_null =? 0 then Return (RE_MATCH_FAILED, p, None) else test p match_end))
    else search_forward_slow test (S (length (text buffer))) p match_start match_end).

(** A search backward goes from [match_end] down to [match_start]; the matches
    may reach up to [match_end]. *)
Definition re_search_backward (p : list Z) (match_start : Z) : outcome search_result :=
  bind (re_compile_fastmap p fuel) (fun '(can_be_null, map) =>
    if can_be_null <? 0 then Return (can_be_null, p, None)
    else if negb (can_be_null =? 1) then
      let gap := gap_end buffer in
      after_fast (if (match_end >? gap) && (gap >? match_start) then search_backward_fast test map (distance gap match_end) p match_end else Return (inr (match_end, p))) (fun p pc =>
        let pc := if pc =? gap then gap_start buffer else pc in
        after_fast (search_backward_fast test map (distance match_start pc) p pc) (fun p _ =>
          if can_be_null =? 0 then Return (RE_MATCH_FAILED, p, None)
          else bind (test p match_start) (fun r => Return (RE_SEARCH_BACKWARD_RETURN match_start r))))
    else search_backward_slow test (S (length (text buffer))) p match_end match_start).

End Searches.

End WithBuffer.
