(* ===== verification/RegexSpec.v ===== *)
(** * Regular expressions: what a pattern matches

    A compiled pattern is decoded into instructions on the positions of a text
    without a gap; [re_step] does what the instruction says.  [accepts p pc i j] says that from [pc] the pattern can
    match the text from position [i] to [j], with any choice at each
    alternative. *)

From Stdlib Require Import ZArith List Bool Lia.
From S2P Require Import Prelude Regex.
Import ListNotations.

#[local] Open Scope Z_scope.

(** ** Instructions *)

Inductive assertion : Type :=
| Always | Buffer_start | Buffer_end | Line_start | Line_end | Word_start | Word_end | Word_bound | Not_word_bound.

Inductive char_test : Type :=
| Is (c : Z)
| Any
| In_set (bits : list Z) (wins : bool)
| Constituent (code : Z) (wins : bool).

Inductive instruction : Type :=
| Zero (a : assertion)
| Consume (t : char_test)
| Exact (cs : list Z)
| Jump (target : Z)
| Dummy_jump (target : Z)
| Split (target : Z)
| Duplicate (n : Z).

(** The instruction at [pc], with the place after it; [None] for a bad
    pattern. *)
Definition decode_as (r : option (Z * Z)) (f : Z -> Z -> instruction * Z) : option (instruction * Z) :=
  match r with Some (value, pc) => Some (f value pc) | None => None end.

Definition pattern_bytes (p : list Z) (pc n : Z) : list Z := firstn (Z.to_nat n) (skipn (Z.to_nat pc) p).

Definition decode (p : list Z) (at_pc : Z) : option (instruction * Z) :=
  let pc := at_pc + 1 in
  let zero a := Some (Zero a, pc) in
  let jump := decode_as (READ_PATTERN_OFFSET p pc) (fun offset pc => (Jump (pc + offset), pc)) in
  let set wins := decode_as (READ_PATTERN_LENGTH p pc) (fun n pc => (Consume (In_set (pattern_bytes p pc n) wins), pc + n)) in
  let spec wins := decode_as (READ_PATTERN_SYNTAXCODE p pc) (fun code pc => (Consume (Constituent code wins), pc)) in
  let memory := decode_as (READ_PATTERN_REGISTER p pc) (fun _ pc => (Zero Always, pc)) in
  if (at_pc <? 0) || (at_pc >=? zlength p) then None
  else
    match regexpcode_of (pattern_byte p at_pc) with
    | None => None
    | Some regexpcode_duplicate => decode_as (READ_PATTERN_REGISTER p pc) (fun n pc => (Duplicate n, pc))
    | Some regexpcode_unused => zero Always
    | Some regexpcode_exact_1 => decode_as (READ_PATTERN_CHAR p pc) (fun c pc => (Consume (Is c), pc))
    | Some regexpcode_exact_n => decode_as (READ_PATTERN_LENGTH p pc) (fun n pc => (Exact (pattern_bytes p pc n), pc + n))
    | Some regexpcode_any_char => Some (Consume Any, pc)
    | Some regexpcode_char_set => set true
    | Some regexpcode_not_char_set => set false
    | Some regexpcode_start_memory | Some regexpcode_stop_memory => memory
    | Some regexpcode_buffer_start => zero Buffer_start
    | Some regexpcode_buffer_end => zero Buffer_end
    | Some regexpcode_line_start => zero Line_start
    | Some regexpcode_line_end => zero Line_end
    | Some regexpcode_word_start => zero Word_start
    | Some regexpcode_word_end => zero Word_end
    | Some regexpcode_word_bound => zero Word_bound
    | Some regexpcode_not_word_bound => zero Not_word_bound
    | Some regexpcode_word_char => Some (Consume (Constituent syntaxcode_word true), pc)
    | Some regexpcode_not_word_char => Some (Consume (Constituent syntaxcode_word false), pc)
    | Some regexpcode_syntax_spec => spec true
    | Some regexpcode_not_syntax_spec => spec false
    | Some regexpcode_on_failure_jump => decode_as (READ_PATTERN_OFFSET p pc) (fun offset pc => (Split (pc + offset), pc))
    | Some regexpcode_jump | Some regexpcode_finalize_jump | Some regexpcode_maybe_finalize_jump => jump
    | Some regexpcode_dummy_failure_jump => decode_as (READ_PATTERN_OFFSET p pc) (fun offset pc => (Dummy_jump (pc + offset), pc))
    end.

(** ** The text without the gap *)

Section Text.

Context (buffer : re_buffer).

(** The gap is empty, or strictly inside the text. *)
Record buffer_ok : Prop := {
  buffer_order : 0 <= text_start buffer <= gap_start buffer /\ gap_start buffer <= gap_end buffer <= text_end buffer /\ text_end buffer <= zlength (text buffer);
  buffer_gap : gap_start buffer = gap_end buffer \/ text_start buffer < gap_start buffer /\ gap_end buffer < text_end buffer;
  buffer_bytes : Forall (fun c => 0 <= c < 256) (text buffer);
  buffer_translation : forall c, 0 <= c < 256 -> 0 <= TRANSLATE_CHAR buffer c < 256
}.

Definition address (i : Z) : Z := if i <? gap_start buffer then i else i + gap_length buffer.
Definition first_position : Z := text_start buffer.
Definition last_position : Z := text_end buffer - gap_length buffer.

(** The translated character at a position. *)
Definition char_at (i : Z) : Z := TRANSLATE_CHAR buffer (nth (Z.to_nat (address i)) (text buffer) 0).

Definition test_char (t : char_test) (c : Z) : bool :=
  match t with
  | Is a => c =? a
  | Any => negb (c =? newline)
  | In_set bits wins => Bool.eqb ((c <? zlength bits * ASCII_LENGTH) && Z.testbit (nth (Z.to_nat (c / ASCII_LENGTH)) bits 0) (c mod ASCII_LENGTH)) wins
  | Constituent code wins => Bool.eqb (SYNTAX_CONSTITUENT_P buffer code c) wins
  end.

Definition word_before (i : Z) : bool := negb (i =? first_position) && WORD_CONSTITUENT_P buffer (char_at (i - 1)).
Definition word_after (i : Z) : bool := negb (i =? last_position) && WORD_CONSTITUENT_P buffer (char_at i).

Definition holds (a : assertion) (i : Z) : bool :=
  match a with
  | Always => true
  | Buffer_start => i =? first_position
  | Buffer_end => i =? last_position
  | Line_start => (i =? first_position) || (char_at (i - 1) =? newline)
  | Line_end => (i =? last_position) || (char_at i =? newline)
  | Word_start => negb (word_before i) && word_after i
  | Word_end => word_before i && negb (word_after i)
  | Word_bound => negb (Bool.eqb (word_before i) (word_after i))
  | Not_word_bound => Bool.eqb (word_before i) (word_after i)
  end.

(** From [i] on, and not beyond [limit], the text has the characters [cs]. *)
Fixpoint reads (limit i : Z) (cs : list Z) : bool :=
  match cs with [] => true | c :: cs => (i <? limit) && (char_at i =? c) && reads limit (i + 1) cs end.

(** ** Acceptance *)

Section Accepts.

Context (p : list Z) (limit : Z).

Inductive accepts : Z -> Z -> Z -> Prop :=
| accepts_end i : accepts (zlength p) i i
| accepts_zero pc a after i j : decode p pc = Some (Zero a, after) -> holds a i = true -> accepts after i j -> accepts pc i j
| accepts_consume pc t after i j : decode p pc = Some (Consume t, after) -> i < limit -> test_char t (char_at i) = true -> accepts after (i + 1) j -> accepts pc i j
| accepts_exact pc cs after i j : decode p pc = Some (Exact cs, after) -> reads limit i cs = true -> accepts after (i + zlength cs) j -> accepts pc i j
| accepts_jump pc target after i j : decode p pc = Some (Jump target, after) -> accepts target i j -> accepts pc i j
| accepts_dummy pc target after i j : decode p pc = Some (Dummy_jump target, after) -> accepts target i j -> accepts pc i j
| accepts_first pc target after i j : decode p pc = Some (Split target, after) -> accepts after i j -> accepts pc i j
| accepts_second pc target after i j : decode p pc = Some (Split target, after) -> accepts target i j -> accepts pc i j.

End Accepts.

(** ** Addresses *)

Context (ok : buffer_ok).

Lemma gap_nonnegative : 0 <= gap_length buffer.
Proof. destruct (buffer_order ok). unfold gap_length. lia. Qed.

Lemma index_of_address i : ADDRESS_TO_INDEX buffer (address i) = i.
Proof.
  unfold ADDRESS_TO_INDEX, address. pose proof gap_nonnegative. destruct (Z.ltb_spec i (gap_start buffer)); rewrite Z.gtb_ltb.
  - destruct (Z.ltb_spec (gap_start buffer) i); lia.
  - destruct (Z.ltb_spec (gap_start buffer) (i + gap_length buffer)); lia.
Qed.

Lemma address_injective i j : address i = address j -> i = j.
Proof. intros E. rewrite <- (index_of_address i), E. apply index_of_address. Qed.

Lemma address_range i : first_position <= i < last_position -> 0 <= address i < zlength (text buffer).
Proof.
  destruct (buffer_order ok) as (A & B & C). unfold first_position, last_position, address, gap_length. intros R. destruct (Z.ltb_spec i (gap_start buffer)); lia.
Qed.

Lemma address_next i : (if address i + 1 =? gap_start buffer then gap_end buffer else address i + 1) = address (i + 1).
Proof.
  pose proof gap_nonnegative. unfold address. unfold gap_length in *. destruct (Z.ltb_spec i (gap_start buffer)), (Z.ltb_spec (i + 1) (gap_start buffer)); try lia;
    (match goal with |- context [?a =? ?b] => destruct (Z.eqb_spec a b) end); lia.
Qed.

(** The place before the gap, for the address after it. *)
Lemma address_before i : (if address i =? gap_end buffer then gap_start buffer else address i) - 1 = address (i - 1).
Proof.
  pose proof gap_nonnegative. unfold address. unfold gap_length in *. destruct (Z.ltb_spec i (gap_start buffer)), (Z.ltb_spec (i - 1) (gap_start buffer)); try lia;
    (match goal with |- context [?a =? ?b] => destruct (Z.eqb_spec a b) end); lia.
Qed.

Lemma position_first i : first_position <= i -> ((if address i =? gap_end buffer then gap_start buffer else address i) =? text_start buffer) = (i =? first_position).
Proof.
  pose proof (address_before i) as E. destruct (buffer_order ok) as (A & B & C). intros R. unfold first_position in *.
  replace (if address i =? gap_end buffer then gap_start buffer else address i) with (address (i - 1) + 1) by lia.
  destruct (Z.eqb_spec i (text_start buffer)) as [->|Ne]; apply Z.eqb_eq || apply Z.eqb_neq; unfold address, gap_length in *.
  - destruct (Z.ltb_spec (text_start buffer - 1) (gap_start buffer)); lia.
  - destruct (Z.ltb_spec (i - 1) (gap_start buffer)); lia.
Qed.

Lemma position_last i : i <= last_position -> (address i =? text_end buffer) = (i =? last_position).
Proof.
  destruct (buffer_order ok) as (A & B & C). destruct (buffer_gap ok) as [D|D]; unfold last_position, address, gap_length in *; intros R;
    destruct (Z.eqb_spec i (text_end buffer - (gap_end buffer - gap_start buffer))) as [->|Ne]; apply Z.eqb_eq || apply Z.eqb_neq;
    (match goal with |- context [?a <? ?b] => destruct (Z.ltb_spec a b) end); lia.
Qed.

Lemma index_first : ADDRESS_TO_INDEX buffer (text_start buffer) = first_position.
Proof. destruct (buffer_order ok). unfold ADDRESS_TO_INDEX, first_position. rewrite Z.gtb_ltb. destruct (Z.ltb_spec (gap_start buffer) (text_start buffer)); lia. Qed.

Lemma index_last : ADDRESS_TO_INDEX buffer (text_end buffer) = last_position.
Proof.
  destruct (buffer_order ok) as (A & B & C). unfold ADDRESS_TO_INDEX, last_position, gap_length. rewrite Z.gtb_ltb.
  destruct (Z.ltb_spec (gap_start buffer) (text_end buffer)); lia.
Qed.

Lemma text_character i : first_position <= i < last_position -> 0 <= nth (Z.to_nat (address i)) (text buffer) 0 < 256.
Proof.
  intros R%address_range. apply (proj1 (Forall_forall _ _) (buffer_bytes ok)), nth_In. lia.
Qed.

Lemma char_at_range i : first_position <= i < last_position -> 0 <= char_at i < 256.
Proof. intros R. apply (buffer_translation ok), text_character, R. Qed.

End Text.
