(* ===== verification/RegexStep.v ===== *)
(** * Regular expressions: one turn of the matcher

    With a place in the text that is the address of a position, the matcher
    does what the decoded instruction says: it goes on, or fails, and changes
    nothing but the registers and what the instruction names. *)

From Stdlib Require Import ZArith List Bool Lia.
From S2P Require Import Prelude Regex RegexSpec.
Import ListNotations.

#[local] Open Scope Z_scope.
Declare Scope matcher_scope.
Notation "x <- m ;; k" := (rthen m (fun x => k)) (at level 60, m at next level, right associativity) : matcher_scope.
Notation "m ;; k" := (rthen m (fun _ => k)) (at level 60, right associativity) : matcher_scope.
#[local] Open Scope matcher_scope.

(** ** The pattern alone *)

(** The states of a match that differ in the registers and the counters. *)
Definition same (s s1 : re_state) : Prop := pattern s1 = pattern s /\ failures s1 = failures s /\ stack_length s1 = stack_length s.

Lemma same_refl s : same s s.
Proof. now repeat split. Qed.

Lemma same_trans s s1 s2 : same s s1 -> same s1 s2 -> same s s2.
Proof. unfold same. intuition congruence. Qed.

#[export] Hint Resolve same_refl : core.

Lemma reading {B} r (k : Z -> matcher B) s :
  (n <- read_pattern r ;; k n) s = match r (pattern s) (pattern_pc s) with Some (value, pc) => k value (with_pcs pc (match_pc s) s) | None => BAD_PATTERN s end.
Proof. unfold rthen, read_pattern. destruct (r (pattern s) (pattern_pc s)) as [[value pc]|]; reflexivity. Qed.

Lemma nth_pattern_bytes p pc n k : 0 <= pc -> 0 <= k < n -> nth (Z.to_nat k) (pattern_bytes p pc n) 0 = pattern_byte p (pc + k).
Proof.
  intros P K. unfold pattern_bytes, pattern_byte. rewrite nth_firstn, nth_skipn. destruct (Nat.ltb_spec (Z.to_nat k) (Z.to_nat n)); [|lia]. f_equal. lia.
Qed.

Lemma length_pattern_bytes p pc n : 0 <= pc -> 0 <= n -> pc + n <= zlength p -> zlength (pattern_bytes p pc n) = n.
Proof. intros P N L. unfold pattern_bytes. rewrite length_firstn, length_skipn. lia. Qed.

Lemma pattern_bytes_cons p pc n : 0 <= pc < zlength p -> 0 < n -> pattern_bytes p pc n = pattern_byte p pc :: pattern_bytes p (pc + 1) (n - 1).
Proof.
  intros P N. unfold pattern_bytes, pattern_byte. replace (Z.to_nat n) with (S (Z.to_nat (n - 1))) by lia. replace (Z.to_nat (pc + 1)) with (S (Z.to_nat pc)) by lia.
  assert (L : (Z.to_nat pc < length p)%nat) by lia. clear P N. generalize (Z.to_nat (n - 1)) as m. revert L. generalize (Z.to_nat pc) as i. clear pc n.
  induction p as [|b p IH]; intros [|i] L m; cbn [length skipn firstn nth] in *; try lia; try reflexivity. apply IH. lia.
Qed.

(** ** The text *)

Section Step.

Context (buffer : re_buffer) (ok : buffer_ok buffer) (match_end : Z) (realloc : Z -> bool) (re_max_failures : Z) (limit : Z).

Notation address := (address buffer).
Notation first_position := (first_position buffer).
Notation last_position := (last_position buffer).
Notation char_at := (char_at buffer).

Context (limit_ok : limit <= last_position).
Context (match_end_ok : forall i, first_position <= i <= last_position -> (address i >=? match_end) = (i >=? limit)).

(** [m] succeeds from [s] with the counters at [pc] and [i], or fails. *)
Definition does (s : re_state) (r : outcome ((unit + re_exit) * re_state)) (b : bool) (pc i : Z) : Prop :=
  exists s1, same s s1 /\ (if b then r = Return (inl tt, s1) /\ pattern_pc s1 = pc /\ match_pc s1 = address i else r = Return (inr match_fail, s1)).

Lemma does_fail_unless s s1 b pc i : same s s1 -> pattern_pc s1 = pc -> match_pc s1 = address i -> does s (fail_unless b s1) b pc i.
Proof. intros S P M. exists s1. split; [exact S|]. destruct b; [now repeat split|reflexivity]. Qed.

Lemma text_byte_at {B} i (k : Z -> matcher B) s : first_position <= i < last_position -> (c <- text_byte buffer (address i) ;; k c) s = k (nth (Z.to_nat (address i)) (text buffer) 0) s.
Proof.
  intros R%(address_range buffer ok). unfold rthen, text_byte. destruct (Z.leb_spec 0 (address i)); [|lia]. destruct (Z.ltb_spec (address i) (zlength (text buffer))); [|lia]. reflexivity.
Qed.

Lemma read_match_char {B} i (k : Z -> matcher B) s : match_pc s = address i -> first_position <= i <= last_position ->
  (c <- READ_MATCH_CHAR buffer match_end ;; k c) s = if i <? limit then k (char_at i) (with_pcs (pattern_pc s) (address (i + 1)) s) else Return (inr match_fail, s).
Proof.
  intros M R. unfold READ_MATCH_CHAR. unfold rthen at 1 2. unfold get at 1. cbn [bind]. rewrite M. unfold rthen at 1, fail_unless at 1. rewrite (match_end_ok i R), Z.geb_leb.
  destruct (Z.ltb_spec i limit), (Z.leb_spec limit i); try lia; cbn [negb rret rexit bind]; [|reflexivity].
  rewrite text_byte_at by lia. unfold rthen, set_match_pc, modify_state. cbn [bind rret]. now rewrite (address_next buffer ok).
Qed.

Lemma match_exact_does n : forall s i, match_pc s = address i -> first_position <= i <= last_position -> 0 <= pattern_pc s -> pattern_pc s + Z.of_nat n <= zlength (pattern s) ->
  does s (match_exact buffer match_end n s) (reads buffer limit i (pattern_bytes (pattern s) (pattern_pc s) (Z.of_nat n))) (pattern_pc s + Z.of_nat n) (i + Z.of_nat n).
Proof.
  induction n as [|n IH]; intros s i M R P L.
  - exists s. split; [easy|]. cbn. repeat split; [lia|rewrite M; f_equal; lia].
  - cbn [match_exact]. rewrite (read_match_char i) by assumption. rewrite pattern_bytes_cons by lia. cbn [reads].
    destruct (Z.ltb_spec i limit); cbn [andb]; [|exists s; now split].
    set (s1 := with_pcs (pattern_pc s) (address (i + 1)) s).
    unfold rthen at 1, get. cbn [bind]. change (pattern_pc s1) with (pattern_pc s). unfold rthen at 1, pattern_ref. change (pattern s1) with (pattern s).
    destruct (Z.leb_spec 0 (pattern_pc s)); [|lia]. destruct (Z.ltb_spec (pattern_pc s) (zlength (pattern s))); [|lia]. cbn [andb bind].
    unfold rthen at 1, set_pattern_pc, modify_state. cbn [bind]. unfold rthen, fail_unless.
    set (s2 := with_pcs (pattern_pc s + 1) (match_pc s1) s1).
    destruct (Z.eqb_spec (char_at i) (pattern_byte (pattern s) (pattern_pc s))); cbn [rret rexit bind andb]; [|exists s2; now split].
    specialize (IH s2 (i + 1) eq_refl). change (pattern_pc s2) with (pattern_pc s + 1) in IH. change (pattern s2) with (pattern s) in IH.
    replace (Z.of_nat (S n) - 1) with (Z.of_nat n) by lia. replace (pattern_pc s + Z.of_nat (S n)) with (pattern_pc s + 1 + Z.of_nat n) by lia.
    replace (i + Z.of_nat (S n)) with (i + 1 + Z.of_nat n) by lia. apply IH; lia.
Qed.

Lemma word_at_address {B} i (k : bool -> matcher B) s : first_position <= i < last_position ->
  (b <- word_at buffer (address i) ;; k b) s = k (WORD_CONSTITUENT_P buffer (char_at i)) s.
Proof.
  intros R. unfold word_at. unfold rthen at 1. pose proof (@text_byte_at bool i (fun c => rret (WORD_CONSTITUENT_P buffer (TRANSLATE_CHAR buffer c))) s R) as E. rewrite E. reflexivity.
Qed.

Lemma and_then_word {B} b i (k : bool -> matcher B) s : (b = true -> first_position <= i < last_position) ->
  (x <- and_then b (word_at buffer (address i)) ;; k x) s = k (b && WORD_CONSTITUENT_P buffer (char_at i)) s.
Proof. intros R. destruct b; cbn [and_then andb]; [now rewrite word_at_address by now apply R|reflexivity]. Qed.

Lemma word_bound_does looks_right word_bound_p b s i : match_pc s = address i -> first_position <= i <= last_position ->
  (forall right, word_bound_p (word_before buffer i) (looks_right (word_before buffer i) && right) = word_bound_p (word_before buffer i) right) ->
  word_bound_p (word_before buffer i) (word_after buffer i) = b ->
  does s (RE_MATCH_WORD_BOUND buffer looks_right word_bound_p s) b (pattern_pc s) i.
Proof.
  intros M R Lazy <-. unfold RE_MATCH_WORD_BOUND. unfold rthen at 1, get. cbn [bind]. rewrite M, (position_first buffer ok i), (address_before buffer ok i) by lia.
  rewrite and_then_word by (destruct (Z.eqb_spec i first_position); [discriminate|lia]). fold (word_before buffer i).
  rewrite (position_last buffer ok i) by lia.
  rewrite and_then_word by (destruct (looks_right (word_before buffer i)), (Z.eqb_spec i last_position); try discriminate; lia).
  rewrite <- andb_assoc. fold (word_after buffer i). rewrite Lazy. apply does_fail_unless; easy.
Qed.

Lemma at_index_position {B} p j (k : bool -> matcher B) s i : match_pc s = address i -> ADDRESS_TO_INDEX buffer p = j ->
  (b <- at_index buffer p ;; k b) s = k (i =? j) s.
Proof. intros M <-. unfold at_index, rthen, get. cbn [bind rret]. now rewrite M, (index_of_address buffer ok). Qed.

(** ** Dispatch *)

Notation re_dispatch := (re_dispatch buffer match_end realloc re_max_failures).
Notation re_execute := (re_execute buffer match_end realloc re_max_failures).

Definition past_code (s : re_state) : re_state := with_pcs (pattern_pc s + 1) (match_pc s) s.

Lemma dispatching s : 0 <= pattern_pc s < zlength (pattern s) ->
  re_dispatch s = match regexpcode_of (pattern_byte (pattern s) (pattern_pc s)) with Some code => re_execute code (past_code s) | None => BAD_PATTERN (past_code s) end.
Proof.
  intros R. unfold Regex.re_dispatch. unfold rthen at 1, get. cbn [bind]. unfold rthen at 1, pattern_ref.
  destruct (Z.leb_spec 0 (pattern_pc s)); [|lia]. destruct (Z.ltb_spec (pattern_pc s) (zlength (pattern s))); [|lia]. cbn [andb bind].
  unfold rthen, set_pattern_pc, modify_state. cbn [bind]. unfold past_code. now destruct (regexpcode_of (pattern_byte (pattern s) (pattern_pc s))).
Qed.

(** The instructions that only look at the text: whether they go on at a
    position, and where. *)
Definition plain (ins : instruction) (i : Z) : option (bool * Z) :=
  match ins with
  | Zero a => Some (holds buffer a i, i)
  | Consume t => Some ((i <? limit) && test_char buffer t (char_at i), i + 1)
  | Exact cs => Some (reads buffer limit i cs, i + zlength cs)
  | _ => None
  end.

Lemma decode_range p pc d : decode p pc = Some d -> 0 <= pc < zlength p.
Proof.
  unfold decode. destruct (Z.ltb_spec pc 0); [discriminate|]. rewrite Z.geb_leb. destruct (Z.leb_spec (zlength p) pc); [discriminate|]. lia.
Qed.

Lemma decode_code p pc d : decode p pc = Some d -> exists code, regexpcode_of (pattern_byte p pc) = Some code.
Proof.
  intros D. pose proof (decode_range _ _ _ D) as R. unfold decode in D. destruct (Z.ltb_spec pc 0); [lia|]. rewrite Z.geb_leb in D. destruct (Z.leb_spec (zlength p) pc); [lia|]. cbn [orb] in D.
  destruct (regexpcode_of (pattern_byte p pc)) as [code|]; [now exists code|discriminate].
Qed.

Lemma does_within s s0 r b pc i : same s s0 -> does s0 r b pc i -> does s r b pc i.
Proof. intros S (s1 & S1 & X). exists s1. split; [now apply same_trans with s0|exact X]. Qed.

Lemma line_start_does s i : match_pc s = address i -> first_position <= i <= last_position -> does s (re_execute regexpcode_line_start s) (holds buffer Line_start i) (pattern_pc s) i.
Proof.
  intros M R. cbn [Regex.re_execute holds]. rewrite (at_index_position _ first_position) with (i := i) by (easy || now apply index_first).
  destruct (Z.eqb_spec i first_position); cbn [orb]; [exists s; easy|]. unfold rthen at 1, get. cbn [bind]. rewrite M, (address_before buffer ok).
  rewrite text_byte_at by lia. now apply does_fail_unless.
Qed.

Lemma line_end_does s i : match_pc s = address i -> first_position <= i <= last_position -> does s (re_execute regexpcode_line_end s) (holds buffer Line_end i) (pattern_pc s) i.
Proof.
  intros M R. cbn [Regex.re_execute holds]. rewrite (at_index_position _ last_position) with (i := i) by (easy || now apply index_last).
  destruct (Z.eqb_spec i last_position); cbn [orb]; [exists s; easy|]. unfold rthen at 1, get. cbn [bind]. rewrite M.
  rewrite text_byte_at by lia. now apply does_fail_unless.
Qed.

(** A character is read, then the operand. *)
Lemma consume_does s i (k : Z -> matcher unit) b pc : match_pc s = address i -> first_position <= i <= last_position ->
  (i < limit -> does (with_pcs (pattern_pc s) (address (i + 1)) s) (k (char_at i) (with_pcs (pattern_pc s) (address (i + 1)) s)) b pc (i + 1)) ->
  does s ((c <- READ_MATCH_CHAR buffer match_end ;; k c) s) ((i <? limit) && b) pc (i + 1).
Proof.
  intros M R X. rewrite (read_match_char i) by assumption. destruct (Z.ltb_spec i limit) as [L|]; cbn [andb]; [|exists s; easy].
  apply does_within with (with_pcs (pattern_pc s) (address (i + 1)) s); [easy|now apply X].
Qed.

Lemma read_length p pc n pc' : READ_PATTERN_LENGTH p pc = Some (n, pc') -> pc < zlength p /\ n = pattern_byte p pc /\ pc' = pc + 1 /\ pc' + n <= zlength p.
Proof.
  unfold READ_PATTERN_LENGTH. rewrite Z.geb_leb, Z.gtb_ltb. destruct (Z.leb_spec (zlength p) pc); [discriminate|].
  destruct (Z.ltb_spec (zlength p) (pc + 1 + pattern_byte p pc)); [discriminate|]. intros E. injection E as <- <-. lia.
Qed.

Lemma char_set_member p pc n c : 0 <= pc -> 0 <= n -> pc + n <= zlength p -> 0 <= c ->
  CHAR_SET_MEMBER_P n p pc c = (c <? zlength (pattern_bytes p pc n) * ASCII_LENGTH) && Z.testbit (nth (Z.to_nat (c / ASCII_LENGTH)) (pattern_bytes p pc n) 0) (c mod ASCII_LENGTH).
Proof.
  intros P N L C. rewrite length_pattern_bytes by assumption. unfold CHAR_SET_MEMBER_P, CHAR_SET_MEMBER_P_INTERNAL. unfold ASCII_LENGTH.
  destruct (Z.ltb_spec c (n * 8)); cbn [andb]; [|reflexivity]. rewrite nth_pattern_bytes; [reflexivity|assumption|].
  assert (0 <= c / 8 < n) by (split; [apply Z.div_pos; lia|apply Z.div_lt_upper_bound; lia]). lia.
Qed.

Lemma char_set_does wins s i n pc : match_pc s = address i -> first_position <= i <= last_position -> 0 <= pattern_pc s -> Forall (fun b => 0 <= b) (pattern s) ->
  READ_PATTERN_LENGTH (pattern s) (pattern_pc s) = Some (n, pc) ->
  does s (RE_MATCH_CHAR_SET buffer match_end wins s) ((i <? limit) && test_char buffer (In_set (pattern_bytes (pattern s) pc n) wins) (char_at i)) (pc + n) (i + 1).
Proof.
  intros M R P B Rd. unfold RE_MATCH_CHAR_SET. apply consume_does; [assumption..|]. intros L. rewrite reading.
  change (pattern (with_pcs (pattern_pc s) (address (i + 1)) s)) with (pattern s). change (pattern_pc (with_pcs (pattern_pc s) (address (i + 1)) s)) with (pattern_pc s).
  rewrite Rd. destruct (read_length _ _ _ _ Rd) as (L1 & N & -> & L2).
  unfold rthen, get, set_pattern_pc, modify_state. cbn [bind with_pcs pattern pattern_pc match_pc].
  assert (0 <= n). { subst n. unfold pattern_byte. apply (proj1 (Forall_forall _ _) B), nth_In. lia. }
  rewrite char_set_member by (pose proof (char_at_range buffer ok i ltac:(lia)); lia).
  apply does_fail_unless; easy.
Qed.

Lemma constituent_does wins s i code pc : match_pc s = address i -> first_position <= i <= last_position -> READ_PATTERN_SYNTAXCODE (pattern s) (pattern_pc s) = Some (code, pc) ->
  does s (match_constituent buffer match_end wins s) ((i <? limit) && test_char buffer (Constituent code wins) (char_at i)) pc (i + 1).
Proof.
  intros M R Rd. unfold match_constituent. apply consume_does; [assumption..|]. intros L. rewrite reading.
  change (pattern (with_pcs (pattern_pc s) (address (i + 1)) s)) with (pattern s). change (pattern_pc (with_pcs (pattern_pc s) (address (i + 1)) s)) with (pattern_pc s).
  rewrite Rd. now apply does_fail_unless.
Qed.

Lemma word_char_does (wins : bool) s i : match_pc s = address i -> first_position <= i <= last_position ->
  does s ((c <- READ_MATCH_CHAR buffer match_end ;; fail_unless (if wins then WORD_CONSTITUENT_P buffer c else negb (WORD_CONSTITUENT_P buffer c))) s)
    ((i <? limit) && test_char buffer (Constituent syntaxcode_word wins) (char_at i)) (pattern_pc s) (i + 1).
Proof.
  intros M R. apply consume_does; [assumption..|]. intros L. cbn [test_char].
  replace (Bool.eqb (SYNTAX_CONSTITUENT_P buffer syntaxcode_word (char_at i)) wins) with (if wins then WORD_CONSTITUENT_P buffer (char_at i) else negb (WORD_CONSTITUENT_P buffer (char_at i)))
    by (unfold WORD_CONSTITUENT_P; now destruct wins, (SYNTAX_CONSTITUENT_P buffer syntaxcode_word (char_at i))).
  now apply does_fail_unless.
Qed.

Lemma plain_dispatch s i ins after b i' : match_pc s = address i -> first_position <= i <= last_position -> Forall (fun b => 0 <= b) (pattern s) ->
  decode (pattern s) (pattern_pc s) = Some (ins, after) -> plain ins i = Some (b, i') -> does s (re_dispatch s) b after i'.
Proof.
  intros M R B D Pl. pose proof (decode_range _ _ _ D) as Rp. rewrite dispatching by assumption. unfold decode in D.
  destruct (Z.ltb_spec (pattern_pc s) 0); [lia|]. rewrite Z.geb_leb in D. destruct (Z.leb_spec (zlength (pattern s)) (pattern_pc s)); [lia|]. cbn [orb] in D.
  destruct (regexpcode_of (pattern_byte (pattern s) (pattern_pc s))) as [code|]; [|discriminate].
  assert (M0 : match_pc (past_code s) = address i) by exact M. assert (P0 : 0 <= pattern_pc (past_code s)) by (cbn; lia).
  assert (B0 : Forall (fun b => 0 <= b) (pattern (past_code s))) by exact B.
  apply does_within with (past_code s); [easy|]. change (pattern s) with (pattern (past_code s)) in D. change (pattern_pc s + 1) with (pattern_pc (past_code s)) in D.
  revert M0 P0 B0 D Pl. clear M B Rp. generalize (past_code s). clear s H H0. intros s M P B D Pl.
  destruct code; cbn [Regex.re_execute]; unfold decode_as in D;
    try (injection D as <- <-; injection Pl as <- <-);
    try (destruct (READ_PATTERN_CHAR (pattern s) (pattern_pc s)) as [[c pc]|] eqn:Rd; [|discriminate D]; injection D as <- <-; injection Pl as <- <-);
    try (destruct (READ_PATTERN_LENGTH (pattern s) (pattern_pc s)) as [[n pc]|] eqn:Rd; [|discriminate D]; injection D as <- <-; injection Pl as <- <-);
    try (destruct (READ_PATTERN_SYNTAXCODE (pattern s) (pattern_pc s)) as [[c pc]|] eqn:Rd; [|discriminate D]; injection D as <- <-; injection Pl as <- <-);
    try (destruct (READ_PATTERN_REGISTER (pattern s) (pattern_pc s)) as [[c pc]|] eqn:Rd; [|discriminate D]; injection D as <- <-; try discriminate Pl; injection Pl as <- <-);
    try (destruct (READ_PATTERN_OFFSET (pattern s) (pattern_pc s)) as [[c pc]|] eqn:Rd; [|discriminate D]; injection D as <- <-; discriminate Pl).
  - exists s. easy.
  - apply consume_does; [assumption..|]. intros L. rewrite reading. cbn [with_pcs pattern pattern_pc]. rewrite Rd. now apply does_fail_unless.
  - rewrite reading, Rd. destruct (read_length _ _ _ _ Rd) as (L1 & N & -> & L2).
    assert (N0 : 0 <= n). { subst n. unfold pattern_byte. apply (proj1 (Forall_forall _ _) B), nth_In. lia. }
    pose proof (match_exact_does (Z.to_nat n) (with_pcs (pattern_pc s + 1) (match_pc s) s) i M R) as X. cbn [with_pcs pattern pattern_pc match_pc] in X.
    rewrite !Z2Nat.id in X by assumption. rewrite length_pattern_bytes by lia. eapply does_within; [|apply X; lia]. easy.
  - now apply line_start_does.
  - now apply line_end_does.
  - apply consume_does; [assumption..|]. intros L. now apply does_fail_unless.
  - now apply char_set_does.
  - now apply char_set_does.
  - rewrite reading, Rd. eexists. split; [|split; [reflexivity|split; [reflexivity|exact M]]]. easy.
  - rewrite reading, Rd. eexists. split; [|split; [reflexivity|split; [reflexivity|exact M]]]. easy.
  - rewrite (at_index_position _ first_position) with (i := i) by (easy || now apply index_first). now apply does_fail_unless.
  - rewrite (at_index_position _ last_position) with (i := i) by (easy || now apply index_last). now apply does_fail_unless.
  - apply (word_char_does true); assumption.
  - apply (word_char_does false); assumption.
  - apply word_bound_does; [assumption..| |reflexivity]. intros right. now destruct (word_before buffer i).
  - apply word_bound_does; [assumption..| |reflexivity]. intros right. now destruct (word_before buffer i).
  - apply word_bound_does; [assumption..| |reflexivity]. intros right. now destruct (word_before buffer i).
  - apply word_bound_does; [assumption..| |reflexivity]. intros right. now destruct (word_before buffer i).
  - now apply constituent_does.
  - now apply constituent_does.
Qed.

End Step.
