(* ===== verification/RegexLayout.v ===== *)
(** * Regular expressions: well-formed compiled patterns

    A compiled pattern is laid out as a sequence of instructions; jumps go to
    instructions.  The matcher changes the opcodes of jumps only, which leaves
    the instructions as they are. *)

From Stdlib Require Import ZArith List Bool Lia.
From S2P Require Import Prelude Regex RegexSpec RegexStep.
Import ListNotations.

#[local] Open Scope Z_scope.

Definition code_maybe_finalize_jump : Z := 8.

(** ** The layout *)

Fixpoint scan_instructions (fuel : nat) (p : list Z) (pc : Z) : list Z :=
  match fuel with
  | O => []
  | S fuel => match decode p pc with Some (_, after) => pc :: scan_instructions fuel p after | None => [] end
  end.

(** Where the instructions of a pattern start. *)
Definition instruction_starts (p : list Z) : list Z := scan_instructions (length p) p 0.

Definition member (z : Z) (l : list Z) : bool := existsb (Z.eqb z) l.
Definition counter_ok (p : list Z) (pc : Z) : bool := member pc (instruction_starts p) || (pc =? zlength p).

(** Where the matcher can go on after an instruction. *)
Definition successors (ins : instruction) (after : Z) : list Z :=
  match ins with
  | Zero _ | Consume _ | Exact _ | Duplicate _ => [after]
  | Jump target | Dummy_jump target => [target]
  | Split target => [after; target]
  end.

(** The start of the loop that the repeat jump at [pc] ends, when the jump is
    the end of the pattern. *)
Definition final_loop (p : list Z) (pc : Z) : option Z :=
  match decode p pc with
  | Some (Jump target, after) => if (pattern_byte p pc =? code_maybe_finalize_jump) && (after =? zlength p) then Some target else None
  | _ => None
  end.

Definition in_body (first last pc : Z) : bool := (first <? pc) && (pc <=? last).

(** A jump of a repeat goes back to the alternative that the loop starts with;
    at the end of the pattern the other choice there is the end. *)
Definition repeat_ok (p : list Z) (pc : Z) (ins : instruction) (after : Z) : bool :=
  match ins with
  | Jump target =>
      member target (instruction_starts p) && (target <? pc) && (pattern_byte p target =? code_on_failure_jump) &&
      (negb (after =? zlength p) || match decode p target with Some (Split exit, _) => exit =? zlength p | _ => false end)
  | _ => false
  end.

Definition instruction_ok (p : list Z) (pc : Z) : bool :=
  match decode p pc with
  | None => false
  | Some (ins, after) =>
      forallb (counter_ok p) (after :: successors ins after) && (pc <? after) &&
      forallb (fun k => (k <=? pc) || (after <=? k)) (instruction_starts p) &&
      negb (pattern_byte p pc =? code_finalize_jump) &&
      match ins with Exact [] | Duplicate _ => false | _ => true end &&
      (negb (pattern_byte p pc =? code_maybe_finalize_jump) || repeat_ok p pc ins after) &&
      forallb (fun last =>
        match final_loop p last with
        | None => true
        | Some first => (pc =? first) || in_body first last pc || forallb (fun b => negb (in_body first last b)) (successors ins after)
        end) (instruction_starts p)
  end.

(** A pattern as the compiler makes it, without [duplicate]: what the jumps of
    repeats go to, and no way into the loop at the end but its start. *)
Definition compiled_pattern (p : list Z) : bool :=
  forallb (fun b => 0 <=? b) p && counter_ok p 0 && forallb (instruction_ok p) (instruction_starts p).

(** Every way from an instruction that consumes nothing leads to an instruction
    of lower rank: no loop can go round without consuming a character. *)
Definition loops_consume (rank : Z -> nat) (p : list Z) : bool :=
  forallb (fun pc =>
    match decode p pc with
    | Some (Consume _, _) | Some (Exact _, _) => true
    | Some (ins, after) => forallb (fun next => Nat.ltb (rank next) (rank pc)) (successors ins after)
    | None => true
    end) (instruction_starts p).

(** ** What the checks say *)

Lemma member_In z l : member z l = true <-> In z l.
Proof. unfold member. rewrite existsb_exists. split; [intros (x & I & E); apply Z.eqb_eq in E; now subst|intros I; exists z; split; [exact I|apply Z.eqb_refl]]. Qed.

Section Compiled.

Context (p : list Z).

Notation starts := (instruction_starts p).

Record laid_out (pc : Z) (ins : instruction) (after : Z) : Prop := {
  laid_successors : forall next, In next (successors ins after) -> counter_ok p next = true;
  laid_after : counter_ok p after = true /\ pc < after;
  laid_alone : forall k, In k starts -> k <= pc \/ after <= k;
  laid_code : pattern_byte p pc <> code_finalize_jump;
  laid_exact : ins <> Exact [];
  laid_duplicate : forall n, ins <> Duplicate n;
  laid_repeat : pattern_byte p pc = code_maybe_finalize_jump -> exists first, ins = Jump first /\ In first starts /\ first < pc /\ pattern_byte p first = code_on_failure_jump /\
    (after = zlength p -> exists x, decode p first = Some (Split (zlength p), x));
  laid_bodies : forall last first, In last starts -> final_loop p last = Some first -> pc = first \/ in_body first last pc = true \/
    forall next, In next (successors ins after) -> in_body first last next = false
}.

Context (ok : compiled_pattern p = true).

Lemma compiled_bytes : Forall (fun b => 0 <= b) p.
Proof.
  unfold compiled_pattern in ok. apply andb_prop in ok. destruct ok as [A _]. apply andb_prop in A. destruct A as [A _].
  apply Forall_forall. intros b I. apply Z.leb_le. exact (proj1 (forallb_forall _ _) A b I).
Qed.

Lemma compiled_start : counter_ok p 0 = true.
Proof. unfold compiled_pattern in ok. apply andb_prop in ok. destruct ok as [A _]. apply andb_prop in A. apply A. Qed.

Lemma compiled_instruction pc : In pc starts -> exists ins after, decode p pc = Some (ins, after) /\ laid_out pc ins after.
Proof.
  intros I. unfold compiled_pattern in ok. apply andb_prop in ok. destruct ok as [_ A]. pose proof (proj1 (forallb_forall _ _) A pc I) as B. unfold instruction_ok in B.
  destruct (decode p pc) as [[ins after]|]; [|discriminate]. exists ins, after. split; [reflexivity|].
  repeat (apply andb_prop in B; let X := fresh "X" in destruct B as [B X]). split.
  - exact (proj1 (forallb_forall (counter_ok p) (successors ins after)) X5).
  - split; [exact B|now apply Z.ltb_lt].
  - intros k K. pose proof (proj1 (forallb_forall _ _) X3 k K) as Z. cbn beta in Z. apply orb_prop in Z. rewrite !Z.leb_le in Z. exact Z.
  - apply negb_true_iff, Z.eqb_neq in X2. exact X2.
  - intros ->. discriminate.
  - intros n ->. discriminate.
  - intros C. rewrite C, Z.eqb_refl in X0. cbn [negb orb] in X0. unfold repeat_ok in X0. destruct ins; try discriminate.
    repeat (apply andb_prop in X0; let Z := fresh "Z" in destruct X0 as [X0 Z]). apply member_In in X0. exists target. split; [reflexivity|]. split; [exact X0|].
    split; [now apply Z.ltb_lt|]. split; [now apply Z.eqb_eq|]. intros E. rewrite E, Z.eqb_refl in Z. cbn [negb orb] in Z.
    destruct (decode p target) as [[[ | | | | |exit| ] x]|]; try discriminate. apply Z.eqb_eq in Z. subst exit. now exists x.
  - intros last first L F. pose proof (proj1 (forallb_forall _ _) X last L) as Z. cbn beta in Z. rewrite F in Z. apply orb_prop in Z. destruct Z as [Z|Z].
    + apply orb_prop in Z. destruct Z as [Z|Z]; [left; now apply Z.eqb_eq|right; left; exact Z].
    + right. right. intros next N. apply negb_true_iff. exact (proj1 (forallb_forall _ _) Z next N).
Qed.

Lemma counter_cases pc : counter_ok p pc = true -> In pc starts \/ pc = zlength p.
Proof. unfold counter_ok. intros [A|A]%orb_prop; [left; now apply member_In|right; now apply Z.eqb_eq]. Qed.

Lemma start_counter pc : In pc starts -> counter_ok p pc = true.
Proof. intros I. unfold counter_ok. apply orb_true_iff. left. now apply member_In. Qed.

End Compiled.

(** ** Changed opcodes *)

(** The matcher turns a jump of a repeat into a plain jump, or, at the end of
    the pattern, into a final one. *)
Definition patched_byte (p p' : list Z) (k : Z) : Prop :=
  In k (instruction_starts p) /\ pattern_byte p k = code_maybe_finalize_jump /\
  (pattern_byte p' k = code_jump \/ pattern_byte p' k = code_finalize_jump /\ exists first, final_loop p k = Some first).

Definition patched (p p' : list Z) : Prop := length p' = length p /\ forall k, 0 <= k < zlength p -> pattern_byte p' k = pattern_byte p k \/ patched_byte p p' k.

Lemma patched_refl p : patched p p.
Proof. split; [reflexivity|]. now left. Qed.

Lemma pattern_byte_update p n x k : 0 <= n < zlength p -> 0 <= k -> pattern_byte (update (Z.to_nat n) x p) k = if k =? n then x else pattern_byte p k.
Proof.
  intros N K. unfold pattern_byte. destruct (Z.eqb_spec k n) as [->|Ne].
  - apply nth_error_nth. apply nth_error_update_eq. lia.
  - destruct (nth_error p (Z.to_nat k)) as [b|] eqn:E.
    + rewrite (nth_error_nth _ _ _ E). apply nth_error_nth. rewrite nth_error_update_ne by lia. exact E.
    + rewrite nth_overflow with (l := p) by now apply nth_error_None. apply nth_overflow. rewrite length_update. now apply nth_error_None.
Qed.

Lemma patched_update p p' k x : patched p p' -> 0 <= k < zlength p -> In k (instruction_starts p) -> pattern_byte p k = code_maybe_finalize_jump ->
  (x = code_jump \/ x = code_finalize_jump /\ exists first, final_loop p k = Some first) -> patched p (update (Z.to_nat k) x p').
Proof.
  intros [L B] R I C X. split; [now rewrite length_update|]. intros j J. unfold patched_byte. rewrite pattern_byte_update by lia.
  destruct (Z.eqb_spec j k) as [->|Ne]; [right; now split|]. exact (B j J).
Qed.

(** The instructions do not depend on the choice among the jumps. *)
Lemma pattern_bytes_agree p p' pc n : length p' = length p -> 0 <= pc -> (forall k, pc <= k < pc + n -> pattern_byte p' k = pattern_byte p k) -> pattern_bytes p' pc n = pattern_bytes p pc n.
Proof.
  intros L P A. unfold pattern_bytes. assert (N : forall m, (m < Z.to_nat n)%nat -> nth (Z.to_nat pc + m) p' 0 = nth (Z.to_nat pc + m) p 0).
  { intros m M. specialize (A (pc + Z.of_nat m) ltac:(lia)). unfold pattern_byte in A. now replace (Z.to_nat (pc + Z.of_nat m)) with (Z.to_nat pc + m)%nat in A by lia. }
  clear A P. revert N. generalize (Z.to_nat n) as m. generalize (Z.to_nat pc) as i. clear pc n. intros i m N.
  apply (nth_ext _ _ 0 0); rewrite !length_firstn, !length_skipn, L; [reflexivity|]. intros k K.
  rewrite !nth_firstn, !nth_skipn. destruct (Nat.ltb_spec k m); [now apply N|reflexivity].
Qed.

Section Agree.

Context (p p' : list Z) (len : length p' = length p).

Lemma read_char_agree pc v pc' : READ_PATTERN_CHAR p pc = Some (v, pc') -> (forall k, pc <= k < pc' -> pattern_byte p' k = pattern_byte p k) -> READ_PATTERN_CHAR p' pc = Some (v, pc').
Proof. unfold READ_PATTERN_CHAR. rewrite len. destruct (pc >=? zlength p); [discriminate|]. intros E A. injection E as <- <-. now rewrite A by lia. Qed.

Lemma read_length_agree pc v pc' : READ_PATTERN_LENGTH p pc = Some (v, pc') -> (forall k, pc <= k < pc' -> pattern_byte p' k = pattern_byte p k) -> READ_PATTERN_LENGTH p' pc = Some (v, pc').
Proof.
  unfold READ_PATTERN_LENGTH. rewrite len. destruct (pc >=? zlength p); [discriminate|]. destruct (pc + 1 + pattern_byte p pc >? zlength p) eqn:G; [discriminate|].
  intros E A. injection E as <- <-. rewrite A by lia. now rewrite G.
Qed.

Lemma read_register_agree pc v pc' : READ_PATTERN_REGISTER p pc = Some (v, pc') -> (forall k, pc <= k < pc' -> pattern_byte p' k = pattern_byte p k) -> READ_PATTERN_REGISTER p' pc = Some (v, pc').
Proof.
  unfold READ_PATTERN_REGISTER. rewrite len. destruct (pc >=? zlength p); [discriminate|]. destruct (pattern_byte p pc >=? RE_NREGS) eqn:G; [discriminate|].
  intros E A. injection E as <- <-. rewrite A by lia. now rewrite G.
Qed.

Lemma read_syntaxcode_agree pc v pc' : READ_PATTERN_SYNTAXCODE p pc = Some (v, pc') -> (forall k, pc <= k < pc' -> pattern_byte p' k = pattern_byte p k) -> READ_PATTERN_SYNTAXCODE p' pc = Some (v, pc').
Proof.
  unfold READ_PATTERN_SYNTAXCODE. rewrite len. destruct (pc >=? zlength p); [discriminate|]. destruct (pattern_byte p pc >=? syntaxcode_max) eqn:G; [discriminate|].
  intros E A. injection E as <- <-. rewrite A by lia. now rewrite G.
Qed.

Lemma read_offset_agree pc v pc' : READ_PATTERN_OFFSET p pc = Some (v, pc') -> (forall k, pc <= k < pc' -> pattern_byte p' k = pattern_byte p k) -> READ_PATTERN_OFFSET p' pc = Some (v, pc').
Proof.
  unfold READ_PATTERN_OFFSET. rewrite len. destruct (pc + 1 >=? zlength p); [discriminate|].
  match goal with |- context [if ?b then None else _] => destruct b eqn:G end; [discriminate|].
  intros E A. injection E as <- <-. rewrite (A pc), (A (pc + 1)) by lia. now rewrite G.
Qed.

End Agree.

Lemma decode_agree p p' pc ins after : length p' = length p -> Forall (fun b => 0 <= b) p -> decode p pc = Some (ins, after) -> (forall k, pc < k < after -> pattern_byte p' k = pattern_byte p k) ->
  (pattern_byte p' pc = pattern_byte p pc \/ pattern_byte p pc = code_maybe_finalize_jump /\ (pattern_byte p' pc = code_jump \/ pattern_byte p' pc = code_finalize_jump)) ->
  decode p' pc = Some (ins, after).
Proof.
  intros L B D A C. pose proof (decode_range _ _ _ D) as R. unfold decode in D |- *. rewrite L.
  destruct (Z.ltb_spec pc 0); [lia|]. rewrite Z.geb_leb in D |- *. destruct (Z.leb_spec (zlength p) pc); [lia|]. cbn [orb] in D |- *.
  assert (O : forall v pc', READ_PATTERN_OFFSET p (pc + 1) = Some (v, pc') -> pc' = pc + 3).
  { unfold READ_PATTERN_OFFSET. intros v pc'. destruct (_ >=? _); [discriminate|]. destruct (_ || _); [discriminate|]. intros E. injection E as _ <-. lia. }
  destruct C as [->|[C C']].
  - destruct (regexpcode_of (pattern_byte p pc)) as [code|]; [|discriminate]. unfold decode_as in D |- *.
    destruct code; try exact D;
      try (destruct (READ_PATTERN_CHAR p (pc + 1)) as [[v pc']|] eqn:Rd; [|discriminate D]; injection D as <- <-; now rewrite (read_char_agree p p' L _ _ _ Rd) by (intros; apply A; lia));
      try (destruct (READ_PATTERN_REGISTER p (pc + 1)) as [[v pc']|] eqn:Rd; [|discriminate D]; injection D as <- <-; now rewrite (read_register_agree p p' L _ _ _ Rd) by (intros; apply A; lia));
      try (destruct (READ_PATTERN_SYNTAXCODE p (pc + 1)) as [[v pc']|] eqn:Rd; [|discriminate D]; injection D as <- <-; now rewrite (read_syntaxcode_agree p p' L _ _ _ Rd) by (intros; apply A; lia));
      try (destruct (READ_PATTERN_OFFSET p (pc + 1)) as [[v pc']|] eqn:Rd; [|discriminate D]; injection D as <- <-; now rewrite (read_offset_agree p p' L _ _ _ Rd) by (intros; apply A; lia));
      (destruct (READ_PATTERN_LENGTH p (pc + 1)) as [[v pc']|] eqn:Rd; [|discriminate D]); injection D as <- <-; destruct (read_length _ _ _ _ Rd) as (R1 & V & -> & R2);
      assert (0 <= v) by (subst v; unfold pattern_byte; apply (proj1 (Forall_forall _ _) B), nth_In; lia);
      rewrite (read_length_agree p p' L _ _ _ Rd) by (intros; apply A; lia); rewrite (pattern_bytes_agree p p') by (assumption || lia || (intros; apply A; lia)); reflexivity.
  - rewrite C in D. unfold decode_as in D |- *. change (regexpcode_of code_maybe_finalize_jump) with (Some regexpcode_maybe_finalize_jump) in D.
    destruct (READ_PATTERN_OFFSET p (pc + 1)) as [[v pc']|] eqn:Rd; [|discriminate D]. injection D as <- <-.
    destruct C' as [->| ->]; cbn [regexpcode_of]; [change (regexpcode_of code_jump) with (Some regexpcode_jump)|change (regexpcode_of code_finalize_jump) with (Some regexpcode_finalize_jump)];
      cbv beta iota; rewrite (read_offset_agree p p' L _ _ _ Rd) by (intros; apply A; lia); reflexivity.
Qed.

(** The instructions of a changed pattern. *)
Lemma decode_patched p p' pc : compiled_pattern p = true -> patched p p' -> In pc (instruction_starts p) -> decode p' pc = decode p pc.
Proof.
  intros Ok [L B] I. destruct (compiled_instruction p Ok pc I) as (ins & after & D & Laid). rewrite D. pose proof (decode_range _ _ _ D) as R.
  destruct (laid_after _ _ _ _ Laid) as [Ca La].
  assert (after <= zlength p).
  { destruct (counter_cases _ _ Ca) as [J| ->]; [|lia]. destruct (compiled_instruction p Ok after J) as (i2 & a2 & D2 & _). apply decode_range in D2. lia. }
  apply (decode_agree p); [exact L|exact (compiled_bytes p Ok)|exact D| |].
  - intros k K. destruct (B k ltac:(lia)) as [->|(Ik & _)]; [reflexivity|]. destruct (laid_alone _ _ _ _ Laid k Ik); lia.
  - destruct (B pc R) as [->|(_ & C & C')]; [now left|right]. split; [exact C|]. destruct C' as [C'|[C' _]]; auto.
Qed.

Lemma patched_bytes p p' : compiled_pattern p = true -> patched p p' -> Forall (fun b => 0 <= b) p'.
Proof.
  intros Ok [L B]. apply Forall_forall. intros b (k & K & <-)%(In_nth _ _ 0). specialize (B (Z.of_nat k) ltac:(lia)). unfold pattern_byte in B.
  rewrite Nat2Z.id in B. destruct B as [->|(_ & _ & B)].
  - apply (proj1 (Forall_forall _ _) (compiled_bytes p Ok)), nth_In. lia.
  - unfold code_jump, code_finalize_jump, pattern_byte in B. rewrite Nat2Z.id in B. lia.
Qed.
