(* ===== verification/RegexTurn.v ===== *)
(** * Regular expressions: the turns of the matcher on positions

    [turn] and [stop] say what one turn does in terms of decoded instructions,
    positions and alternatives that are left; [re_step] does one of them. *)

From Stdlib Require Import ZArith List Bool Lia.
From S2P Require Import Prelude Regex RegexSpec RegexStep RegexLayout.
Import ListNotations.

#[local] Open Scope Z_scope.
#[local] Open Scope matcher_scope.

Lemma regexpcodes_distinct : NoDup regexpcodes.
Proof. repeat (constructor; [cbn; intuition discriminate|]). constructor. Qed.

Lemma code_number b n code : 0 <= b -> 0 <= n -> regexpcode_of b = Some code -> regexpcode_of n = Some code -> b = n.
Proof.
  unfold regexpcode_of. intros B N Eb En. assert (Z.to_nat b = Z.to_nat n); [|lia].
  apply (proj1 (NoDup_nth_error _) regexpcodes_distinct); [apply nth_error_Some; congruence|congruence].
Qed.

Lemma pattern_bytes_update_ne p n x k : 0 <= n < zlength p -> 0 <= k -> k <> n -> pattern_byte (update (Z.to_nat n) x p) k = pattern_byte p k.
Proof. intros N K Ne. rewrite pattern_byte_update by assumption. destruct (Z.eqb_spec k n); [contradiction|reflexivity]. Qed.

Lemma read_offset_next p0 pc v pc' : READ_PATTERN_OFFSET p0 pc = Some (v, pc') -> pc' = pc + 2.
Proof. unfold READ_PATTERN_OFFSET. destruct (_ >=? _); [discriminate|]. destruct (_ || _); [discriminate|]. intros E. now injection E. Qed.

(** The code and the offset of a jump. *)
Lemma decode_control p0 pc ins after target : 0 <= pc -> decode p0 pc = Some (ins, after) -> (ins = Jump target \/ ins = Split target \/ ins = Dummy_jump target) ->
  READ_PATTERN_OFFSET p0 (pc + 1) = Some (target - after, after) /\ after = pc + 3 /\
  (ins = Split target -> regexpcode_of (pattern_byte p0 pc) = Some regexpcode_on_failure_jump) /\
  (ins = Dummy_jump target -> regexpcode_of (pattern_byte p0 pc) = Some regexpcode_dummy_failure_jump) /\
  (ins = Jump target -> regexpcode_of (pattern_byte p0 pc) = Some regexpcode_jump \/ regexpcode_of (pattern_byte p0 pc) = Some regexpcode_finalize_jump \/ regexpcode_of (pattern_byte p0 pc) = Some regexpcode_maybe_finalize_jump).
Proof.
  intros P D C. unfold decode in D. destruct (_ || _); [discriminate|]. destruct (regexpcode_of (pattern_byte p0 pc)) as [code|]; [|discriminate]. unfold decode_as in D.
  destruct code; try (injection D as <- <-; intuition discriminate);
    try (destruct (READ_PATTERN_CHAR p0 (pc + 1)) as [[v pc']|]; [|discriminate]; injection D as <- <-; intuition discriminate);
    try (destruct (READ_PATTERN_LENGTH p0 (pc + 1)) as [[v pc']|]; [|discriminate]; injection D as <- <-; intuition discriminate);
    try (destruct (READ_PATTERN_REGISTER p0 (pc + 1)) as [[v pc']|]; [|discriminate]; injection D as <- <-; intuition discriminate);
    try (destruct (READ_PATTERN_SYNTAXCODE p0 (pc + 1)) as [[v pc']|]; [|discriminate]; injection D as <- <-; intuition discriminate);
    (destruct (READ_PATTERN_OFFSET p0 (pc + 1)) as [[v pc']|] eqn:Rd; [|discriminate]); pose proof (read_offset_next _ _ _ _ Rd); injection D as <- <-;
    destruct C as [C|[C|C]]; try discriminate; injection C as <-; (replace (pc' + v - pc') with v by lia); (split; [reflexivity|]); (split; [lia|]); intuition discriminate.
Qed.

Section Turns.

Context (buffer : re_buffer) (ok : buffer_ok buffer) (match_end : Z) (realloc : Z -> bool) (re_max_failures : Z) (limit : Z).

Notation address := (address buffer).
Notation first_position := (first_position buffer).
Notation last_position := (last_position buffer).
Notation plain := (plain buffer limit).

Context (limit_ok : limit <= last_position).
Context (match_end_ok : forall i, first_position <= i <= last_position -> (address i >=? match_end) = (i >=? limit)).
Context (p : list Z) (p_ok : compiled_pattern p = true).

(** ** Turns *)

(** The alternatives that are left, the next one first; [None] is a dummy. *)
Notation alternatives := (list (option (Z * Z))).

Inductive turn (pc i : Z) (l : alternatives) : Z -> Z -> alternatives -> Prop :=
| turn_plain ins after i' : decode p pc = Some (ins, after) -> plain ins i = Some (true, i') -> turn pc i l after i' l
| turn_fail ins after j pc' i' l' : decode p pc = Some (ins, after) -> plain ins i = Some (false, j) -> next_failure_point l = Some (pc', i', l') -> turn pc i l pc' i' l'
| turn_jump target after : decode p pc = Some (Jump target, after) -> turn pc i l target i l
| turn_final first x l' : final_loop p pc = Some first -> l = x :: l' -> turn pc i l first i l'
| turn_split target after : decode p pc = Some (Split target, after) -> turn pc i l after i (Some (target, i) :: l)
| turn_dummy target after : decode p pc = Some (Dummy_jump target, after) -> turn pc i l target i (None :: l).

(** The stack of [n] failure points cannot grow. *)
Definition overflow (n v : Z) : Prop := v = -3 /\ (exists size, realloc size = false) \/ v = -4 /\ re_max_failures < 2 * n.

Inductive stop (pc i : Z) (l : alternatives) : Z -> Prop :=
| stop_end : pc = zlength p -> stop pc i l i
| stop_fail ins after j : decode p pc = Some (ins, after) -> plain ins i = Some (false, j) -> next_failure_point l = None -> stop pc i l RE_MATCH_FAILED
| stop_overflow v : overflow (zlength l) v -> stop pc i l v.

(** ** States *)

Definition encode (x : option (Z * Z)) : option (Z * Z) := match x with Some (pc, i) => Some (pc, address i) | None => None end.

Record represents (s : re_state) (pc i : Z) (l : alternatives) : Prop := {
  represents_pattern : patched p (pattern s);
  represents_pc : pattern_pc s = pc;
  represents_position : match_pc s = address i;
  represents_failures : failures s = map encode l
}.

Definition position_ok (i : Z) : Prop := first_position <= i <= limit.

(** In the loop at the end, the end of the pattern is among the alternatives. *)
Fixpoint guarded (first last pc : Z) (l : alternatives) : Prop :=
  (in_body first last pc = true -> exists i, In (Some (zlength p, i)) l) /\
  match l with
  | [] => True
  | None :: l => guarded first last (zlength p) l
  | Some (pc, _) :: l => guarded first last pc l
  end.

Record configuration (pc i : Z) (l : alternatives) : Prop := {
  configuration_pc : counter_ok p pc = true;
  configuration_position : position_ok i;
  configuration_alternatives : forall pc' i', In (Some (pc', i')) l -> counter_ok p pc' = true /\ position_ok i';
  configuration_guarded : forall last first, In last (instruction_starts p) -> final_loop p last = Some first -> guarded first last pc l
}.

Lemma next_failure_encode l : next_failure_point (map encode l) = match next_failure_point l with Some (pc, i, l') => Some (pc, address i, map encode l') | None => None end.
Proof. induction l as [|[[pc i]|] l IH]; cbn [map encode next_failure_point]; auto. Qed.

(** ** Control *)

Lemma pushes point s : (exists n, PUSH_FAILURE_POINT realloc re_max_failures point s = Return (inl tt, with_failures (point :: failures s) n s)) \/
  exists v, overflow (zlength (failures s)) v /\ PUSH_FAILURE_POINT realloc re_max_failures point s = Return (inr (RE_RETURN v), s).
Proof.
  unfold PUSH_FAILURE_POINT, overflow. destruct (Z.eqb_spec (2 * zlength (failures s)) (stack_length s)) as [E|]; [|left; now exists (stack_length s)].
  rewrite Z.gtb_ltb. destruct (Z.ltb_spec (re_max_failures * 2) (stack_length s * 2)); [right; exists (-4); split; [right; lia|reflexivity]|].
  destruct (realloc (stack_length s * 2)) eqn:A; [left; now exists (stack_length s * 2)|right; exists (-3); split; [left; eauto|reflexivity]].
Qed.

Lemma final_loop_decode pc first : final_loop p pc = Some first -> decode p pc = Some (Jump first, zlength p) /\ pattern_byte p pc = code_maybe_finalize_jump.
Proof.
  unfold final_loop. destruct (decode p pc) as [[[| | |target| | |] after]|]; try discriminate.
  destruct (Z.eqb_spec (pattern_byte p pc) code_maybe_finalize_jump), (Z.eqb_spec after (zlength p)); try discriminate. cbn [andb]. intros E. injection E as ->. now subst after.
Qed.

Lemma guarded_in first last pc l : guarded first last pc l -> in_body first last pc = true -> exists i, In (Some (zlength p, i)) l.
Proof. destruct l; intros [G _]; exact G. Qed.

Lemma final_alternatives pc i l first : In pc (instruction_starts p) -> configuration pc i l -> final_loop p pc = Some first -> exists x l', l = x :: l'.
Proof.
  intros I C F. destruct (final_loop_decode _ _ F) as [D B]. destruct (compiled_instruction p p_ok pc I) as (ins & after & D' & Laid). rewrite D in D'. injection D' as <- <-.
  destruct (laid_repeat _ _ _ _ Laid B) as (first' & E & _ & Lt & _). injection E as <-.
  destruct (guarded_in first pc pc l) as (j & J).
  - exact (configuration_guarded _ _ _ C pc first I F).
  - unfold in_body. apply andb_true_intro. split; [now apply Z.ltb_lt|apply Z.leb_refl].
  - destruct l as [|x l']; [destruct J|now exists x, l'].
Qed.

(** The jumps read their offset at the counter. *)
Lemma jumps s target after : READ_PATTERN_OFFSET (pattern s) (pattern_pc s) = Some (target - after, after) -> re_match_jump s = Return (inl tt, with_pcs target (match_pc s) s).
Proof.
  intros E. unfold re_match_jump. rewrite reading, E. unfold rthen, get, set_pattern_pc, modify_state. cbn [bind with_pcs pattern_pc match_pc]. replace (after + (target - after)) with target by lia. reflexivity.
Qed.

Lemma final_jumps s x l target after : failures s = x :: l -> READ_PATTERN_OFFSET (pattern s) (pattern_pc s) = Some (target - after, after) ->
  re_match_finalize_jump s = Return (inl tt, with_pcs target (match_pc s) (with_failures l (stack_length s) s)).
Proof. intros F E. unfold re_match_finalize_jump, rthen. rewrite F. cbn [bind]. rewrite (jumps _ target after) by exact E. reflexivity. Qed.

(** What follows a jump can be read. *)
Lemma next_char_reads s ins after : decode (pattern s) (pattern_pc s) = Some (ins, after) -> ins <> Exact [] -> exists a, next_char (pattern_pc s) s = Return (inl a, s).
Proof.
  intros D N. pose proof (decode_range _ _ _ D) as R. unfold next_char. unfold rthen at 1, pattern_ref at 1.
  assert (In_range : forall k, 0 <= k < zlength (pattern s) -> (0 <=? k) && (k <? zlength (pattern s)) = true) by (intros k K; apply andb_true_intro; split; [apply Z.leb_le|apply Z.ltb_lt]; lia).
  rewrite In_range by exact R. cbn [bind]. unfold decode in D.
  destruct (Z.ltb_spec (pattern_pc s) 0); [lia|]. rewrite Z.geb_leb in D. destruct (Z.leb_spec (zlength (pattern s)) (pattern_pc s)); [lia|]. cbn [orb] in D.
  destruct (regexpcode_of (pattern_byte (pattern s) (pattern_pc s))) as [[]|]; try (now eexists); unfold decode_as in D.
  - unfold READ_PATTERN_CHAR in D. rewrite Z.geb_leb in D. destruct (Z.leb_spec (zlength (pattern s)) (pattern_pc s + 1)); [discriminate|].
    unfold rthen, pattern_ref. rewrite In_range by lia. cbn [bind rret]. now eexists.
  - destruct (READ_PATTERN_LENGTH (pattern s) (pattern_pc s + 1)) as [[n pc']|] eqn:Rd; [|discriminate]. destruct (read_length _ _ _ _ Rd) as (R1 & V & -> & R2).
    injection D as <- <-. unfold rthen, pattern_ref. destruct (Z_lt_le_dec 0 n).
    + rewrite In_range by lia. cbn [bind rret]. now eexists.
    + exfalso. apply N. f_equal. unfold pattern_bytes. replace (Z.to_nat n) with O by lia. reflexivity.
Qed.

Lemma patched_in_range s pc : patched p (pattern s) -> In pc (instruction_starts p) -> 0 <= pc < zlength (pattern s) /\ 0 <= pattern_byte (pattern s) pc.
Proof.
  intros P I. destruct (compiled_instruction p p_ok pc I) as (ins & after & D & _). pose proof (decode_range _ _ _ D) as R. rewrite (proj1 P). split; [exact R|].
  unfold pattern_byte. apply (proj1 (Forall_forall _ _) (patched_bytes p _ p_ok P)), nth_In. rewrite (proj1 P). lia.
Qed.

(** The start of a loop does not look like something to finalize. *)
Lemma finalize_p_start a first s : patched p (pattern s) -> In first (instruction_starts p) -> pattern_byte p first = code_on_failure_jump -> finalize_p a first s = Return (inl false, s).
Proof.
  intros P I B. destruct (patched_in_range s first P I) as [R _]. unfold finalize_p. unfold rthen at 1, pattern_ref at 1.
  destruct (Z.leb_spec 0 first); [|lia]. destruct (Z.ltb_spec first (zlength (pattern s))); [|lia]. cbn [andb bind].
  destruct (proj2 P first) as [->|(_ & E & _)]; [rewrite <- (proj1 P); exact R| |rewrite B in E; discriminate]. rewrite B. reflexivity.
Qed.

(** The repeat jump with the counter after its opcode at [pc]. *)
Lemma maybe_finalize s pc first after : patched p (pattern s) -> In pc (instruction_starts p) -> pattern_byte p pc = code_maybe_finalize_jump -> decode p pc = Some (Jump first, after) ->
  pattern_pc s = pc + 1 -> READ_PATTERN_OFFSET (pattern s) (pc + 1) = Some (first - after, after) -> after = pc + 3 ->
  match_maybe_finalize_jump s =
    (if after =? zlength p then
       match failures s with
       | [] => Wild
       | _ :: l => Return (inl tt, with_pcs first (match_pc s) (with_failures l (stack_length s) (with_pattern (update (Z.to_nat pc) code_finalize_jump (pattern s)) s)))
       end
     else Return (inl tt, with_pcs first (match_pc s) (with_pattern (update (Z.to_nat pc) code_jump (pattern s)) s))).
Proof.
  intros P I B D Pc Rd A. destruct (compiled_instruction p p_ok pc I) as (ins & after' & D' & Laid). rewrite D in D'. injection D' as <- <-.
  destruct (laid_repeat _ _ _ _ Laid B) as (first' & E & If & Lt & Bf & _). injection E as <-.
  destruct (patched_in_range s pc P I) as [R _]. unfold match_maybe_finalize_jump. rewrite reading, Pc, Rd. unfold rthen at 1 2, get. cbn [bind with_pcs pattern pattern_pc].
  set (s1 := with_pcs after (match_pc s) s). rewrite (proj1 P).
  assert (Patch : forall code, READ_PATTERN_OFFSET (update (Z.to_nat pc) code (pattern s)) (pc + 1) = Some (first - after, after)).
  { intros code. apply (read_offset_agree (pattern s)); [apply length_update|exact Rd|]. intros k K. rewrite pattern_bytes_update_ne by lia. reflexivity. }
  assert (Rel : forall (code : Z) (m : matcher unit), (patch_jump code ;; m) s1 = m (with_pcs (pc + 1) (match_pc s) (with_pattern (update (Z.to_nat pc) code (pattern s)) s))).
  { intros code m. unfold patch_jump, rthen, modify_state, s1. cbn [bind with_pcs pattern_pc match_pc pattern with_pattern]. subst after. replace (pc + 3 - 2) with (pc + 1) by lia. replace (pc + 1 - 1) with pc by lia. reflexivity. }
  destruct (Z.eqb_spec after (zlength p)) as [En|Ne].
  - unfold rthen at 1. cbn [rret bind]. rewrite Rel. destruct (failures s) as [|x l] eqn:F.
    + unfold re_match_finalize_jump, rthen. cbn [with_pcs with_pattern failures]. rewrite F. reflexivity.
    + rewrite (final_jumps _ x l first after) by (exact F || apply Patch). reflexivity.
  - destruct (laid_after _ _ _ _ Laid) as [Ca _]. destruct (counter_cases _ _ Ca) as [Ia|]; [|contradiction].
    destruct (compiled_instruction p p_ok after Ia) as (ins2 & after2 & D2 & Laid2).
    assert (D2' : decode (pattern s1) (pattern_pc s1) = Some (ins2, after2)) by (change (decode (pattern s) after = Some (ins2, after2)); rewrite (decode_patched p) by assumption; exact D2).
    destruct (next_char_reads s1 _ _ D2' (laid_exact _ _ _ _ Laid2)) as [a N]. change (pattern_pc s1) with after in N.
    unfold rthen at 1 2. rewrite N. cbn [bind]. destruct a as [a|].
    + replace (after + (first - after)) with first by lia. rewrite (finalize_p_start a first s1 P If Bf). cbn [bind]. rewrite Rel, (jumps _ first after) by apply Patch. reflexivity.
    + cbn [rret bind]. rewrite Rel, (jumps _ first after) by apply Patch. reflexivity.
Qed.

Notation re_dispatch := (re_dispatch buffer match_end realloc re_max_failures).
Notation re_step := (re_step buffer match_end realloc re_max_failures).
Notation in_starts := (fun pc => In pc (instruction_starts p)).

Lemma jump_turn s pc i l target after : In pc (instruction_starts p) -> represents s pc i l -> configuration pc i l -> decode p pc = Some (Jump target, after) ->
  exists s' l', re_dispatch s = Return (inl tt, s') /\ represents s' target i l' /\ turn pc i l target i l'.
Proof.
  intros I Rp C D. destruct Rp as [P Epc Em Ef]. destruct (patched_in_range s pc P I) as [R Nb].
  assert (D' : decode (pattern s) pc = Some (Jump target, after)) by (rewrite (decode_patched p) by assumption; exact D).
  destruct (decode_control _ _ _ _ target (proj1 R) D' (or_introl eq_refl)) as (Rd & A & _ & _ & Code). specialize (Code eq_refl).
  rewrite dispatching, Epc by (rewrite Epc; exact R). destruct (compiled_instruction p p_ok pc I) as (ins & after' & D2 & Laid). rewrite D in D2. injection D2 as <- <-.
  destruct Code as [E|[E|E]]; rewrite E; cbn [re_execute].
  - rewrite (jumps _ target after) by (cbn [past_code with_pcs pattern pattern_pc]; rewrite Epc; exact Rd). eexists _, l. split; [reflexivity|]. split; [now split|]. now apply turn_jump with after.
  - assert (B7 : pattern_byte (pattern s) pc = code_finalize_jump) by (now apply (code_number _ 7 regexpcode_finalize_jump)).
    destruct (proj2 P pc ltac:(rewrite <- (proj1 P); exact R)) as [B|(_ & B & [B'|(_ & first & F)])]; [now destruct (laid_code _ _ _ _ Laid); congruence|rewrite B7 in B'; discriminate|].
    destruct (final_alternatives _ _ _ _ I C F) as (x & l' & ->). pose proof (final_loop_decode _ _ F) as [D2 _]. rewrite D in D2. injection D2 as <- ->.
    rewrite (final_jumps _ (encode x) (map encode l') target (zlength p)) by (exact Ef || (cbn [past_code with_pcs pattern pattern_pc]; rewrite Epc; exact Rd)).
    eexists _, l'. split; [reflexivity|]. split; [now split|]. now apply turn_final with x.
  - assert (B8 : pattern_byte (pattern s) pc = code_maybe_finalize_jump) by (now apply (code_number _ 8 regexpcode_maybe_finalize_jump)).
    assert (B : pattern_byte p pc = code_maybe_finalize_jump).
    { destruct (proj2 P pc ltac:(rewrite <- (proj1 P); exact R)) as [B|(_ & B & _)]; congruence. }
    rewrite (maybe_finalize (past_code s) pc target after P I B D ltac:(cbn; lia) Rd A). assert (Rp : 0 <= pc < zlength p) by (rewrite <- (proj1 P); exact R).
    destruct (Z.eqb_spec after (zlength p)) as [En|Ne].
    + assert (F : final_loop p pc = Some target) by (unfold final_loop; rewrite D, B, En, !Z.eqb_refl; reflexivity).
      destruct (final_alternatives _ _ _ _ I C F) as (x & l' & ->). change (failures (past_code s)) with (failures s). rewrite Ef. cbn [map].
      eexists _, l'. split; [reflexivity|]. split; [split; try easy|now apply turn_final with x].
      cbn [with_pcs with_failures with_pattern past_code pattern]. apply patched_update; eauto.
    + eexists _, l. split; [reflexivity|]. split; [split; try easy|now apply turn_jump with after].
      cbn [with_pcs with_failures with_pattern past_code pattern]. apply patched_update; auto.
Qed.

Lemma split_turn s pc i l target after : In pc (instruction_starts p) -> represents s pc i l -> decode p pc = Some (Split target, after) ->
  (exists s', re_dispatch s = Return (inl tt, s') /\ represents s' after i (Some (target, i) :: l)) \/
  (exists v s', overflow (zlength l) v /\ re_dispatch s = Return (inr (RE_RETURN v), s') /\ patched p (pattern s')).
Proof.
  intros I Rp D. destruct Rp as [P Epc Em Ef]. destruct (patched_in_range s pc P I) as [R Nb].
  assert (D' : decode (pattern s) pc = Some (Split target, after)) by (rewrite (decode_patched p) by assumption; exact D).
  destruct (decode_control _ _ _ _ target (proj1 R) D' (or_intror (or_introl eq_refl))) as (Rd & A & Code & _ & _). specialize (Code eq_refl).
  rewrite dispatching, Epc, Code by (rewrite Epc; exact R). cbn [re_execute]. rewrite reading. cbn [past_code with_pcs pattern pattern_pc]. rewrite Epc, Rd.
  unfold rthen, get. cbn [bind with_pcs pattern_pc match_pc]. replace (after + (target - after)) with target by lia.
  match goal with |- context [PUSH_FAILURE_POINT _ _ ?pt ?st] => destruct (pushes pt st) as [[n ->]|(v & V & ->)] end.
  - left. eexists. split; [reflexivity|]. split; cbn; try easy. now rewrite Em, Ef.
  - right. eexists _, _. split; [cbn [failures with_pcs past_code] in V; rewrite Ef, length_map in V; exact V|]. split; [reflexivity|exact P].
Qed.

Lemma dummy_turn s pc i l target after : In pc (instruction_starts p) -> represents s pc i l -> decode p pc = Some (Dummy_jump target, after) ->
  (exists s', re_dispatch s = Return (inl tt, s') /\ represents s' target i (None :: l)) \/
  (exists v s', overflow (zlength l) v /\ re_dispatch s = Return (inr (RE_RETURN v), s') /\ patched p (pattern s')).
Proof.
  intros I Rp D. destruct Rp as [P Epc Em Ef]. destruct (patched_in_range s pc P I) as [R Nb].
  assert (D' : decode (pattern s) pc = Some (Dummy_jump target, after)) by (rewrite (decode_patched p) by assumption; exact D).
  destruct (decode_control _ _ _ _ target (proj1 R) D' (or_intror (or_intror eq_refl))) as (Rd & A & _ & Code & _). specialize (Code eq_refl).
  rewrite dispatching, Epc, Code by (rewrite Epc; exact R). cbn [re_execute]. unfold rthen.
  match goal with |- context [PUSH_FAILURE_POINT _ _ ?pt ?st] => destruct (pushes pt st) as [[n ->]|(v & V & ->)] end; cbn [bind].
  - left. rewrite (jumps _ target after) by (cbn [past_code with_pcs with_failures pattern pattern_pc]; rewrite Epc; exact Rd).
    eexists. split; [reflexivity|]. split; cbn; try easy. now rewrite Ef.
  - right. eexists _, _. split; [cbn [failures with_pcs past_code] in V; rewrite Ef, length_map in V; exact V|]. split; [reflexivity|exact P].
Qed.

(** One turn of [re_match_loop]. *)
Lemma re_step_turns s pc i l : represents s pc i l -> configuration pc i l ->
  (exists v s', re_step s = Return (inr (v, s')) /\ patched p (pattern s') /\ stop pc i l v) \/
  (exists s' pc' i' l', re_step s = Return (inl s') /\ represents s' pc' i' l' /\ turn pc i l pc' i' l').
Proof.
  intros Rp C. pose proof Rp as [P Epc Em Ef]. unfold Regex.re_step. rewrite Epc, (proj1 P), Z.geb_leb.
  assert (Pos : first_position <= i <= last_position) by (destruct C as [_ [? ?] _ _]; lia).
  destruct (counter_cases _ _ (configuration_pc _ _ _ C)) as [I| ->].
  2: { rewrite Z.leb_refl. left. eexists _, s. split; [reflexivity|]. split; [exact P|]. rewrite Em, (index_of_address buffer ok). now apply stop_end. }
  destruct (patched_in_range s pc P I) as [R Nb]. rewrite (proj1 P) in R. destruct (Z.leb_spec (zlength p) pc); [lia|].
  destruct (compiled_instruction p p_ok pc I) as (ins & after & D & Laid). destruct (plain ins i) as [[b i']|] eqn:Pl.
  - assert (D' : decode (pattern s) (pattern_pc s) = Some (ins, after)) by (rewrite Epc, (decode_patched p) by assumption; exact D).
    pose proof (plain_dispatch buffer ok match_end realloc re_max_failures limit limit_ok match_end_ok s i ins after b i' Em Pos (patched_bytes p _ p_ok P) D' Pl) as (s1 & (Sp & Sf & _) & X).
    destruct b.
    + destruct X as (-> & Pc1 & M1). right. exists s1, after, i', l. split; [reflexivity|]. split; [split; congruence|]. now apply turn_plain with ins.
    + rewrite X. cbn [bind]. unfold re_match_fail. rewrite Sf, Ef, next_failure_encode. destruct (next_failure_point l) as [[[pc' j] l']|] eqn:N.
      * right. eexists _, pc', j, l'. split; [reflexivity|]. split; [split; cbn; congruence|]. now apply turn_fail with ins after i'.
      * left. eexists _, s1. split; [reflexivity|]. split; [congruence|]. now apply stop_fail with ins after i'.
  - destruct ins as [a|t|cs|target|target|target|n]; try discriminate.
    + destruct (jump_turn s pc i l target after I Rp C D) as (s' & l' & -> & Rp' & T). right. now exists s', target, i, l'.
    + destruct (dummy_turn s pc i l target after I Rp D) as [(s' & -> & Rp')|(v & s' & V & -> & P')].
      * right. exists s', target, i, (None :: l). split; [reflexivity|]. split; [exact Rp'|]. now apply turn_dummy with after.
      * left. exists v, s'. split; [reflexivity|]. split; [exact P'|]. now apply stop_overflow.
    + destruct (split_turn s pc i l target after I Rp D) as [(s' & -> & Rp')|(v & s' & V & -> & P')].
      * right. exists s', after, i, (Some (target, i) :: l). split; [reflexivity|]. split; [exact Rp'|]. now apply turn_split.
      * left. exists v, s'. split; [reflexivity|]. split; [exact P'|]. now apply stop_overflow.
    + now destruct (laid_duplicate _ _ _ _ Laid n).
Qed.

End Turns.
