(* ===== verification/RegexMatch.v ===== *)
(** * Regular expressions: the matcher ends, with the right answer

    The turns of the matcher keep a sound set of alternatives, lower a weight,
    and never throw away the last way to match. *)

From Stdlib Require Import ZArith List Bool Lia Arith Wf_nat.
From S2P Require Import Prelude Regex RegexSpec RegexStep RegexLayout RegexTurn.
Import ListNotations.

#[local] Open Scope Z_scope.

Section Match.

Context (buffer : re_buffer) (ok : buffer_ok buffer) (limit : Z) (p : list Z) (p_ok : compiled_pattern p = true).

Notation accepts := (accepts buffer p limit).
Notation plain := (plain buffer limit).
Notation turn := (turn buffer limit p).
Notation configuration := (configuration buffer limit p).
Notation position_ok := (position_ok buffer limit).
Notation starts := (instruction_starts p).

(** ** Configurations *)

Lemma reads_limit cs : forall i, reads buffer limit i cs = true -> i <= limit -> i + zlength cs <= limit.
Proof.
  induction cs as [|c cs IH]; intros i R L; cbn [reads length] in *; [lia|]. apply andb_prop in R. destruct R as [R1 R2]. apply andb_prop in R1. destruct R1 as [R1 _].
  apply Z.ltb_lt in R1. specialize (IH (i + 1) R2 ltac:(lia)). lia.
Qed.

Lemma plain_position ins i i' : plain ins i = Some (true, i') -> position_ok i -> position_ok i' /\ i <= i'.
Proof.
  unfold RegexTurn.position_ok. intros P R. destruct ins; try discriminate; cbn [RegexStep.plain] in P; injection P as B <-; try lia.
  pose proof (reads_limit cs i B ltac:(lia)). lia.
Qed.

Lemma start_range pc : In pc starts -> 0 <= pc < zlength p.
Proof. intros I. destruct (compiled_instruction p p_ok pc I) as (ins & after & D & _). exact (decode_range _ _ _ D). Qed.

Lemma not_in_body_end last first : In last starts -> in_body first last (zlength p) = false.
Proof. intros I%start_range. unfold in_body. destruct (Z.leb_spec (zlength p) last); [lia|]. apply andb_false_r. Qed.

Lemma final_loop_start last first : In last starts -> final_loop p last = Some first -> exists x, decode p first = Some (Split (zlength p), x).
Proof.
  intros I F. destruct (final_loop_decode _ _ _ F) as [D B]. destruct (compiled_instruction p p_ok last I) as (ins & after & D' & Laid). rewrite D in D'. injection D' as <- <-.
  destruct (laid_repeat _ _ _ _ Laid B) as (first' & E & _ & _ & _ & X). injection E as <-. now apply X.
Qed.

Lemma final_loop_unique last last' first first' : In last starts -> In last' starts -> final_loop p last = Some first -> final_loop p last' = Some first' -> last = last' /\ first = first'.
Proof.
  intros I I' F F'. assert (Le : forall a b x y, In a starts -> In b starts -> final_loop p a = Some x -> final_loop p b = Some y -> a <= b).
  { intros a b x y Ia Ib _ Fb. destruct (final_loop_decode _ _ _ Fb) as [D _]. destruct (compiled_instruction p p_ok b Ib) as (ins & after & D' & Laid). rewrite D in D'. injection D' as <- <-.
    destruct (laid_alone _ _ _ _ Laid a Ia) as [|A]; [assumption|]. apply start_range in Ia. lia. }
  assert (last = last') as <- by (pose proof (Le _ _ _ _ I I' F F'); pose proof (Le _ _ _ _ I' I F' F); lia). split; [reflexivity|]. congruence.
Qed.

Notation alternatives := (list (option (Z * Z))).

Lemma guarded_move first last pc pc' l : guarded p first last pc l -> (in_body first last pc' = true -> exists i, In (Some (zlength p, i)) l) -> guarded p first last pc' l.
Proof. destruct l as [|[[a j]|] l]; intros [_ G] X; split; assumption. Qed.

Lemma guarded_next first last pc l pc' i' l' : guarded p first last pc l -> next_failure_point l = Some (pc', i', l') -> guarded p first last pc' l'.
Proof.
  revert pc. induction l as [|[[a j]|] l IH]; intros pc [_ G] N; cbn [next_failure_point] in N; [discriminate|injection N as <- <- <-; exact G|]. exact (IH _ G N).
Qed.

Lemma next_failure_In (l : alternatives) pc i l' : next_failure_point l = Some (pc, i, l') -> In (Some (pc, i)) l /\ incl l' l.
Proof.
  induction l as [|[[a j]|] l IH]; cbn [next_failure_point]; [discriminate| |].
  - intros E. injection E as <- <- <-. split; [now left|apply incl_tl, incl_refl].
  - intros N. destruct (IH N). split; [now right|now apply incl_tl].
Qed.

Lemma next_failure_none (l : alternatives) pc i : next_failure_point l = None -> ~ In (Some (pc, i)) l.
Proof. induction l as [|[[a j]|] l IH]; cbn [next_failure_point]; [intros _ []|discriminate|]. intros N [|]; [discriminate|now apply IH]. Qed.

(** Where a successor is in the loop at the end. *)
Lemma enters pc ins after next i l last first : In pc starts -> decode p pc = Some (ins, after) -> In next (successors ins after) -> configuration pc i l ->
  In last starts -> final_loop p last = Some first -> in_body first last next = true -> pc = first \/ exists j, In (Some (zlength p, j)) l.
Proof.
  intros I D N C Il F B. destruct (compiled_instruction p p_ok pc I) as (ins' & after' & D' & Laid). rewrite D in D'. injection D' as <- <-.
  destruct (laid_bodies _ _ _ _ Laid last first Il F) as [E|[E|E]]; [now left| |rewrite (E next N) in B; discriminate].
  right. apply (guarded_in p first last pc); [exact (configuration_guarded _ _ _ _ _ _ C last first Il F)|exact E].
Qed.

Lemma enters_other pc ins after next i l last first : In pc starts -> decode p pc = Some (ins, after) -> (forall t, ins <> Split t) -> In next (successors ins after) -> configuration pc i l ->
  In last starts -> final_loop p last = Some first -> in_body first last next = true -> exists j, In (Some (zlength p, j)) l.
Proof.
  intros I D S N C Il F B. destruct (enters pc ins after next i l last first I D N C Il F B) as [->|X]; [|exact X].
  destruct (final_loop_start last first Il F) as [x D']. rewrite D in D'. injection D' as -> _. now destruct (S (zlength p)).
Qed.

Lemma decode_start pc d : counter_ok p pc = true -> decode p pc = Some d -> In pc starts.
Proof. intros C D. destruct (counter_cases _ _ C) as [|E]; [assumption|]. apply decode_range in D. lia. Qed.

Lemma successor_ok pc ins after next : In pc starts -> decode p pc = Some (ins, after) -> In next (successors ins after) -> counter_ok p next = true.
Proof.
  intros I D N. destruct (compiled_instruction p p_ok pc I) as (ins' & after' & D' & Laid). rewrite D in D'. injection D' as <- <-. exact (laid_successors _ _ _ _ Laid next N).
Qed.

Lemma plain_not_split ins i x : plain ins i = Some x -> forall t, ins <> Split t.
Proof. intros P t ->. discriminate. Qed.

Lemma plain_successors ins i x after : plain ins i = Some x -> In after (successors ins after).
Proof. destruct ins; try discriminate; now left. Qed.

Lemma configuration_turn pc i l pc' i' l' : configuration pc i l -> turn pc i l pc' i' l' -> configuration pc' i' l'.
Proof.
  intros C T. pose proof C as [Cp Cq Ca Cg]. destruct T as [ins after i' D Pl|ins after j pc' i' l' D Pl N|target after D|first x l' F ->|target after D|target after D].
  - pose proof (decode_start _ _ Cp D) as I. pose proof (plain_successors _ _ _ after Pl) as S. split; [now apply (successor_ok pc ins after)|now apply (plain_position ins i)|exact Ca|].
    intros last first Il F. apply guarded_move with pc; [now apply Cg|]. apply (enters_other pc ins after after i l last first); auto. now apply (plain_not_split ins i (true, i')).
  - destruct (next_failure_In _ _ _ _ N) as [I L]. destruct (Ca _ _ I). split; [assumption|assumption|intros a b J; apply Ca; now apply L|].
    intros last first Il F. apply guarded_next with pc l i'; [now apply Cg|exact N].
  - pose proof (decode_start _ _ Cp D) as I. split; [apply (successor_ok pc _ after _ I D); now left|exact Cq|exact Ca|].
    intros last first Il F. apply guarded_move with pc; [now apply Cg|]. apply (enters_other pc _ after target i l last first I D); auto; [discriminate|now left].
  - destruct (final_loop_decode _ _ _ F) as [D _]. pose proof (decode_start _ _ Cp D) as I. split; [apply (successor_ok pc _ _ _ I D); now left|exact Cq|intros a b J; apply Ca; now right|].
    intros last first' Il F'. destruct (final_loop_unique pc last first first' I Il F F') as [<- <-]. specialize (Cg pc first I F).
    assert (G : exists q, guarded p first pc q l') by (destruct x as [[a j]|]; destruct Cg as [_ G]; eauto). destruct G as [q G].
    apply guarded_move with q; [exact G|]. unfold in_body. rewrite Z.ltb_irrefl. discriminate.
  - pose proof (decode_start _ _ Cp D) as I. split; [apply (successor_ok pc _ after _ I D); now left|exact Cq| |].
    + intros a b [E|J]; [injection E as <- <-; split; [apply (successor_ok pc _ after _ I D); right; now left|exact Cq]|now apply Ca].
    + intros last first Il F. assert (H : pc = first -> target = zlength p).
      { intros ->. destruct (final_loop_start last first Il F) as [x D']. rewrite D in D'. now injection D'. }
      split.
      * intros B. destruct (enters pc _ after after i l last first I D ltac:(now left) C Il F B) as [E|[j J]]; [exists i; left; now rewrite (H E)|exists j; now right].
      * apply guarded_move with pc; [now apply Cg|]. intros B. destruct (enters pc _ after target i l last first I D ltac:(right; now left) C Il F B) as [E|X]; [|exact X].
        rewrite (H E), (not_in_body_end last first Il) in B. discriminate.
  - pose proof (decode_start _ _ Cp D) as I. split; [apply (successor_ok pc _ after _ I D); now left|exact Cq|intros a b [|J]; [discriminate|now apply Ca]|].
    intros last first Il F. split.
    + intros B. destruct (enters_other pc _ after target i l last first I D) as [j J]; auto; [discriminate|now left|]. exists j. now right.
    + apply guarded_move with pc; [now apply Cg|]. rewrite (not_in_body_end last first Il). discriminate.
Qed.

(** ** What is accepted *)

Definition accepts_some (pc i : Z) (l : alternatives) (j : Z) : Prop := accepts pc i j \/ exists pc' i', In (Some (pc', i')) l /\ accepts pc' i' j.

Lemma accepts_plain pc ins after i b i' j : decode p pc = Some (ins, after) -> plain ins i = Some (b, i') -> accepts pc i j <-> b = true /\ accepts after i' j.
Proof.
  intros D P. split.
  - intros A. destruct A as [i|pc a after' i j D' H A|pc t after' i j D' H H' A|pc cs after' i j D' H A|pc t after' i j D' A|pc t after' i j D' A|pc t after' i j D' A|pc t after' i j D' A];
      try (rewrite D in D'; injection D' as -> <-; cbn [RegexStep.plain] in P; try discriminate; injection P as <- <-).
    + apply decode_range in D. lia.
    + now split.
    + split; [|exact A]. apply andb_true_intro. split; [now apply Z.ltb_lt|exact H'].
    + now split.
  - intros [-> A]. destruct ins; try discriminate; cbn [RegexStep.plain] in P; injection P as B <-.
    + now apply accepts_zero with a after.
    + apply andb_prop in B. destruct B as [B1 B2]. apply Z.ltb_lt in B1. now apply accepts_consume with t after.
    + now apply accepts_exact with cs after.
Qed.

Lemma accepts_jumps pc target after i j : decode p pc = Some (Jump target, after) \/ decode p pc = Some (Dummy_jump target, after) -> accepts pc i j <-> accepts target i j.
Proof.
  intros D. split.
  - intros A. destruct A; try (destruct D; congruence). destruct D as [D|D]; apply decode_range in D; lia.
  - intros A. destruct D as [D|D]; [now apply accepts_jump with target after|now apply accepts_dummy with target after].
Qed.

Lemma accepts_split pc target after i j : decode p pc = Some (Split target, after) -> accepts pc i j <-> accepts after i j \/ accepts target i j.
Proof.
  intros D. split.
  - intros A. destruct A; try congruence; [apply decode_range in D; lia|left; congruence|right; congruence].
  - intros [A|A]; [now apply accepts_first with target after|now apply accepts_second with target after].
Qed.

(** A turn finds no new match. *)
Lemma turn_sound pc i l pc' i' l' j : turn pc i l pc' i' l' -> accepts_some pc' i' l' j -> accepts_some pc i l j.
Proof.
  intros T A. destruct T as [ins after i' D Pl|ins after k pc' i' l' D Pl N|target after D|first x l' F ->|target after D|target after D].
  - destruct A as [A|A]; [left; now apply (accepts_plain pc ins after i true i')|now right].
  - right. destruct (next_failure_In _ _ _ _ N) as [I L]. destruct A as [A|(a & b & J & A)]; [now exists pc', i'|exists a, b; auto].
  - destruct A as [A|A]; [left; apply (accepts_jumps pc target after); auto|now right].
  - destruct (final_loop_decode _ _ _ F) as [D _]. destruct A as [A|(a & b & J & A)]; [left; apply (accepts_jumps pc first (zlength p)); auto|right; exists a, b; split; [now right|exact A]].
  - destruct A as [A|(a & b & [E|J] & A)].
    + left. apply (accepts_split pc target after); auto.
    + injection E as <- <-. left. apply (accepts_split pc target after); auto.
    + right. eauto.
  - destruct A as [A|(a & b & [E|J] & A)]; [left; apply (accepts_jumps pc target after); auto|discriminate|right; eauto].
Qed.

(** A turn leaves a match when there is one. *)
Lemma turn_complete pc i l pc' i' l' j : configuration pc i l -> turn pc i l pc' i' l' -> accepts_some pc i l j -> exists k, accepts_some pc' i' l' k.
Proof.
  intros C T A. destruct T as [ins after i' D Pl|ins after k pc' i' l' D Pl N|target after D|first x l' F ->|target after D|target after D].
  - exists j. destruct A as [A|A]; [left; now apply (accepts_plain pc ins after i true i')|now right].
  - exists j. destruct A as [A|(a & b & J & A)]; [apply (accepts_plain pc ins after i false k j D Pl) in A; now destruct A|].
    clear Pl. induction l as [|[[u v]|] l IH]; cbn [next_failure_point] in N; [discriminate| |].
    + injection N as -> -> ->. destruct J as [E|J]; [injection E as -> ->; now left|right; eauto].
    + destruct J as [|J]; [discriminate|]. apply IH; [|exact N|exact J]. destruct C as [C1 C2 C3 C4]. split; [exact C1|exact C2|intros; apply C3; now right|].
      intros last first Il F. specialize (C4 last first Il F). destruct C4 as [G1 G2]. apply guarded_move with (zlength p); [exact G2|]. intros B.
      destruct (G1 B) as [m [|M]]; [discriminate|now exists m].
  - exists j. destruct A as [A|A]; [left; apply (accepts_jumps pc target after); auto|now right].
  - destruct (final_loop_decode _ _ _ F) as [D _]. pose proof (decode_start _ _ (configuration_pc _ _ _ _ _ _ C) D) as I.
    destruct (final_loop_start pc first I F) as [y D']. exists i. left. apply (accepts_split first (zlength p) y); [exact D'|]. right. apply accepts_end.
  - exists j. destruct A as [A|(a & b & J & A)].
    + apply (accepts_split pc target after i j D) in A. destruct A as [A|A]; [now left|right; exists target, i; split; [now left|exact A]].
    + right. exists a, b. split; [now right|exact A].
  - exists j. destruct A as [A|(a & b & J & A)]; [left; apply (accepts_jumps pc target after i j); auto|right; exists a, b; split; [now right|exact A]].
Qed.

End Match.
