(* ===== verification/RegexSample.v ===== *)
(** * Regular expressions: a pattern and a text to run them on *)

From Stdlib Require Import ZArith List Bool Lia.
From S2P Require Import Prelude Regex RegexSpec RegexLayout.
Import ListNotations.

#[local] Open Scope Z_scope.

(** [a*b], on the text "xaabya" with the gap after its third character. *)
Definition sample_pattern : list Z := [6; 5; 0; 1; 97; 8; 248; 255; 1; 98].
Definition sample_rank (pc : Z) : nat := if pc =? 0 then 1 else if pc =? 5 then 2 else 0.
Definition sample_buffer : re_buffer := re_buffer_initialize None (fun c => if (97 <=? c) && (c <=? 122) then 2 else 0) [120; 97; 97; 0; 0; 0; 98; 121; 97] 0 9 3 6.

(** The pattern after the loop was repeated. *)
Definition sample_patched : list Z := update 5 code_jump sample_pattern.

Lemma sample_buffer_ok : buffer_ok sample_buffer.
Proof. split; cbn; [lia|right; lia|repeat constructor; lia|lia]. Qed.

Lemma sample_match_end i : 0 <= i <= 6 -> (address sample_buffer i >=? 9) = (i >=? 6).
Proof.
  intros R. unfold address, gap_length. cbn. rewrite !Z.geb_leb.
  destruct (Z.ltb_spec i 3); destruct (Z.leb_spec 6 i); (match goal with |- (?a <=? ?b) = _ => destruct (Z.leb_spec a b) end); lia.
Qed.

Lemma sample_match enough : re_match sample_buffer 9 (fun _ => true) 1000 true (20 + S enough) sample_pattern (address sample_buffer 1) =
  Return (4, sample_patched, Some (final_registers sample_buffer 1 (State sample_patched 10 7 [] 1024 (repeat None 10) (repeat None 10)))).
Proof. reflexivity. Qed.

(** The map has the bytes of "a" and "b"; that of the pattern [$], a newline. *)
Definition sample_fastmap : fastmap := update 98 1 (update 97 1 empty_fastmap).
Definition newline_fastmap : fastmap := update 10 1 empty_fastmap.
Definition sample_registers : re_registers := Registers (1 :: repeat (-1) 9) (4 :: repeat (-1) 9).
