(* ===== verification/RegexCorrect.v ===== *)
(** * Regular expressions: the matcher ends, with the right answer *)

From Stdlib Require Import ZArith List Bool Lia Arith.
From S2P Require Import Prelude Regex RegexSpec RegexStep RegexLayout RegexTurn RegexMatch RegexSample.
Import ListNotations.

#[local] Open Scope Z_scope.

(** ** Weights *)

Section Weight.

Context (buffer : re_buffer) (limit : Z) (p : list Z) (rank : Z -> nat).

Notation turn := (turn buffer limit p).
Notation configuration := (configuration buffer limit p).
Notation alternatives := (list (option (Z * Z))).

(** More than any rank. *)
Definition ranks : nat := S (list_max (map rank (zlength p :: instruction_starts p))).

Definition exponent (pc i : Z) : nat := Z.to_nat (limit - i) * ranks + rank pc.
Definition place_weight (pc i : Z) : nat := 3 ^ exponent pc i.
Definition alternatives_weight (l : alternatives) : nat := list_sum (map (fun x => match x with Some (pc, i) => place_weight pc i | None => 1%nat end) l).
Definition weight (pc i : Z) (l : alternatives) : nat := place_weight pc i + alternatives_weight l.

Lemma place_weight_positive pc i : (1 <= place_weight pc i)%nat.
Proof. unfold place_weight. pose proof (Nat.pow_nonzero 3 (exponent pc i)). lia. Qed.

Lemma alternatives_weight_length l : (length l <= alternatives_weight l)%nat.
Proof.
  unfold alternatives_weight, list_sum. induction l as [|[[pc i]|] l IH]; cbn [length map fold_right] in *; [lia| |lia]. pose proof (place_weight_positive pc i). lia.
Qed.

Context (p_ok : compiled_pattern p = true) (ranked : loops_consume rank p = true).

Lemma rank_bound pc : counter_ok p pc = true -> (rank pc < ranks)%nat.
Proof.
  intros C. unfold ranks. assert (I : In (rank pc) (map rank (zlength p :: instruction_starts p))).
  { apply in_map. destruct (counter_cases _ _ C) as [|E]; [now right|now left]. }
  pose proof (proj1 (list_max_le (map rank (zlength p :: instruction_starts p)) _) (Nat.le_refl _)) as F. pose proof (proj1 (Forall_forall _ _) F _ I). cbn beta in *. lia.
Qed.

Lemma heavier pc i pc' i' : (exponent pc' i' < exponent pc i)%nat -> (2 * place_weight pc' i' < place_weight pc i)%nat.
Proof.
  intros L. unfold place_weight. replace (exponent pc i) with (S (exponent pc i - 1)) by lia. rewrite Nat.pow_succ_r'.
  assert (3 ^ exponent pc' i' <= 3 ^ (exponent pc i - 1))%nat by (apply Nat.pow_le_mono_r; lia). pose proof (place_weight_positive pc' i'). unfold place_weight in *. lia.
Qed.

(** Going on at the same position, or further. *)
Lemma heavier_rank pc pc' i : (rank pc' < rank pc)%nat -> (2 * place_weight pc' i < place_weight pc i)%nat.
Proof. intros R. apply heavier. unfold exponent. lia. Qed.

Lemma heavier_position pc pc' i i' : counter_ok p pc' = true -> i < i' <= limit -> (2 * place_weight pc' i' < place_weight pc i)%nat.
Proof.
  intros C%rank_bound L. apply heavier. unfold exponent. replace (Z.to_nat (limit - i)) with (S (Z.to_nat (limit - i) - 1)) by lia.
  assert (Z.to_nat (limit - i') * ranks <= (Z.to_nat (limit - i) - 1) * ranks)%nat by (apply Nat.mul_le_mono_r; lia). lia.
Qed.

Lemma next_weight l pc i l' : next_failure_point l = Some (pc, i, l') -> (place_weight pc i + alternatives_weight l' <= alternatives_weight l)%nat.
Proof.
  unfold alternatives_weight, list_sum. induction l as [|[[a j]|] l IH]; cbn [next_failure_point map fold_right]; [discriminate| |].
  - intros E. injection E as <- <- <-. lia.
  - intros N. specialize (IH N). lia.
Qed.

Lemma lower_rank pc ins after next : In pc (instruction_starts p) -> decode p pc = Some (ins, after) -> In next (successors ins after) ->
  match ins with Consume _ | Exact _ => False | _ => True end -> (rank next < rank pc)%nat.
Proof.
  intros I D N X. unfold loops_consume in ranked. pose proof (proj1 (forallb_forall _ _) ranked pc I) as F. cbn beta in F. rewrite D in F.
  apply Nat.ltb_lt. destruct ins; try contradiction; exact (proj1 (forallb_forall _ _) F next N).
Qed.

Lemma turn_weight pc i l pc' i' l' : configuration pc i l -> turn pc i l pc' i' l' -> (weight pc' i' l' < weight pc i l)%nat.
Proof.
  intros C T. pose proof C as [Cp Cq _ _]. pose proof (configuration_turn _ _ _ p_ok _ _ _ _ _ _ C T) as [Cp' Cq' _ _]. unfold weight.
  destruct T as [ins after i' D Pl|ins after j pc' i' l' D Pl N|target after D|first x l' F ->|target after D|target after D].
  - pose proof (decode_start _ p_ok _ _ Cp D) as I. pose proof (plain_successors _ _ _ _ _ after Pl) as S. enough (2 * place_weight after i' < place_weight pc i)%nat by lia.
    destruct ins as [a|t|cs| | | |]; try discriminate; cbn [plain] in Pl; injection Pl as B <-.
    + apply heavier_rank. now apply (lower_rank pc (Zero a) after).
    + apply heavier_position; [exact Cp'|]. destruct Cq'. lia.
    + apply heavier_position; [exact Cp'|]. destruct Cq'. destruct (compiled_instruction p p_ok pc I) as (ins & after' & D' & Laid). rewrite D in D'. injection D' as <- <-.
      destruct cs as [|c cs]; [now destruct (laid_exact _ _ _ _ Laid)|]. cbn [length] in *. lia.
  - apply next_weight in N. pose proof (place_weight_positive pc i). lia.
  - pose proof (decode_start _ p_ok _ _ Cp D) as I. pose proof (heavier_rank pc target i (lower_rank pc _ after target I D ltac:(now left) Logic.I)). lia.
  - destruct (final_loop_decode _ _ _ F) as [D _]. pose proof (decode_start _ p_ok _ _ Cp D) as I. pose proof (heavier_rank pc first i (lower_rank pc _ _ first I D ltac:(now left) Logic.I)).
    unfold alternatives_weight, list_sum. cbn [map fold_right]. lia.
  - pose proof (decode_start _ p_ok _ _ Cp D) as I. pose proof (heavier_rank pc target i (lower_rank pc _ after target I D ltac:(right; now left) Logic.I)).
    pose proof (heavier_rank pc after i (lower_rank pc _ after after I D ltac:(now left) Logic.I)). unfold alternatives_weight, list_sum. cbn [map fold_right]. lia.
  - pose proof (decode_start _ p_ok _ _ Cp D) as I. pose proof (heavier_rank pc target i (lower_rank pc _ after target I D ltac:(now left) Logic.I)). pose proof (place_weight_positive target i).
    unfold alternatives_weight, list_sum. cbn [map fold_right]. lia.
Qed.

End Weight.

(** ** Runs *)

Section Runs.

Context (buffer : re_buffer) (ok : buffer_ok buffer) (match_end : Z) (realloc : Z -> bool) (re_max_failures : Z) (limit : Z).

Notation address := (address buffer).
Notation first_position := (first_position buffer).
Notation last_position := (last_position buffer).

Context (limit_ok : limit <= last_position).
Context (match_end_ok : forall i, first_position <= i <= last_position -> (address i >=? match_end) = (i >=? limit)).
Context (p : list Z) (p_ok : compiled_pattern p = true).

Notation accepts_some := (accepts_some buffer limit p).
Notation configuration := (configuration buffer limit p).
Notation represents := (represents buffer p).
Notation re_run := (re_run buffer match_end realloc re_max_failures).

(** The program is only patched, whatever the run does. *)
Lemma run_patches fuel : forall s pc i l v s', represents s pc i l -> configuration pc i l -> re_run fuel s = Return (v, s') -> patched p (pattern s').
Proof.
  induction fuel as [|fuel IH]; intros s pc i l v s' R C E; [discriminate|]. cbn [Regex.re_run] in E.
  destruct (re_step_turns buffer ok match_end realloc re_max_failures limit limit_ok match_end_ok p p_ok s pc i l R C) as [(w & s1 & S & P & _)|(s1 & pc1 & i1 & l1 & S & R1 & T)]; rewrite S in E; cbn [bind] in E.
  - now injection E as <- <-.
  - apply (IH s1 pc1 i1 l1 v); [exact R1| |exact E]. now apply (configuration_turn buffer limit p p_ok pc i l).
Qed.

Definition answer (n : nat) (pc i : Z) (l : list (option (Z * Z))) (v : Z) : Prop :=
  v = RE_MATCH_FAILED /\ (forall j, ~ accepts_some pc i l j) \/ accepts_some pc i l v \/
  v = -3 /\ (exists size, realloc size = false) \/ v = -4 /\ re_max_failures < 2 * Z.of_nat n.

Lemma stop_answer rank pc i l v : stop buffer realloc re_max_failures limit p pc i l v -> answer (weight limit p rank pc i l) pc i l v.
Proof.
  intros [E|ins after j D Pl N|w [[E A]|[E A]]]; unfold answer.
  - right. left. left. subst pc. apply accepts_end.
  - left. split; [reflexivity|]. intros k [A|(a & b & J & A)].
    + apply (accepts_plain buffer limit p p_ok pc ins after i false j k D Pl) in A. now destruct A.
    + now apply next_failure_none with (pc := a) (i := b) in N.
  - right. right. left. auto.
  - right. right. right. split; [exact E|]. unfold weight. pose proof (alternatives_weight_length limit p rank l). lia.
Qed.

Lemma turn_answer n m pc i l pc' i' l' v : configuration pc i l -> turn buffer limit p pc i l pc' i' l' -> (n <= m)%nat -> answer n pc' i' l' v -> answer m pc i l v.
Proof.
  intros C T L [[E A]|[A|[A|[E A]]]]; unfold answer.
  - left. split; [exact E|]. intros j J. destruct (turn_complete buffer limit p p_ok _ _ _ _ _ _ j C T J) as [k K]. now apply (A k).
  - right. left. now apply (turn_sound buffer limit p p_ok _ _ _ _ _ _ v T).
  - right. right. now left.
  - right. right. right. split; [exact E|lia].
Qed.

Lemma run_ends rank (ranked : loops_consume rank p = true) n : forall s pc i l, (weight limit p rank pc i l <= n)%nat -> represents s pc i l -> configuration pc i l ->
  exists v s', (forall fuel, (n < fuel)%nat -> re_run fuel s = Return (v, s')) /\ patched p (pattern s') /\ answer n pc i l v.
Proof.
  induction n as [|n IH]; intros s pc i l W R C.
  - pose proof (place_weight_positive limit p rank pc i). unfold weight in W. lia.
  - destruct (re_step_turns buffer ok match_end realloc re_max_failures limit limit_ok match_end_ok p p_ok s pc i l R C) as [(v & s1 & S & P & A)|(s1 & pc1 & i1 & l1 & S & R1 & T)].
    + exists v, s1. split; [|split; [exact P|]].
      * intros [|fuel] F; [lia|]. cbn [Regex.re_run]. now rewrite S.
      * apply (stop_answer rank) in A. destruct A as [A|[A|[A|[E A]]]]; unfold answer; auto. right. right. right. split; [exact E|lia].
    + pose proof (configuration_turn buffer limit p p_ok _ _ _ _ _ _ C T) as C1. pose proof (turn_weight buffer limit p rank p_ok ranked _ _ _ _ _ _ C T) as L.
      destruct (IH s1 pc1 i1 l1 ltac:(lia) R1 C1) as (v & s' & E & P & A). exists v, s'. split; [|split; [exact P|]].
      * intros [|fuel] F; [lia|]. cbn [Regex.re_run]. rewrite S. cbn [bind]. apply E. lia.
      * apply (turn_answer n (Datatypes.S n) pc i l pc1 i1 l1 v C T); [lia|exact A].
Qed.

Lemma start_configuration i : first_position <= i <= limit -> configuration 0 i [].
Proof.
  intros R. split; [exact (compiled_start p p_ok)|exact R|intros a b []|]. intros last first I F. split; [|exact Logic.I]. intros B. exfalso.
  destruct (final_loop_decode _ _ _ F) as [D By]. destruct (compiled_instruction p p_ok last I) as (ins & after & D' & Laid). rewrite D in D'. injection D' as <- <-.
  destruct (laid_repeat _ _ _ _ Laid By) as (first' & E & If & _). injection E as <-. apply (start_range p p_ok) in If. unfold in_body in B.
  destruct (Z.ltb_spec first 0); [lia|discriminate].
Qed.

Lemma start_represents i : represents (re_match_start p (address i)) 0 i [].
Proof. split; try reflexivity. apply patched_refl. Qed.

Lemma accepts_limits pc i j : accepts buffer p limit pc i j -> i <= limit -> i <= j <= limit.
Proof.
  induction 1 as [| |pc t after i j D L Te A IH|pc cs after i j D Re A IH| | | |]; intros B; auto; try lia; try (apply IHaccepts in B; lia).
  pose proof (reads_limit buffer limit p p_ok cs i Re B). lia.
Qed.

End Runs.

(** ** Properties *)


