(* ===== verification/RegexFastmap.v ===== *)
(** * Regular expressions: what the fastmap leaves out

    When [re_compile_fastmap] returns 0 or 2, a match at a character that is
    not in the map fails at once, without a trace. *)

From Stdlib Require Import ZArith List Bool Lia.
From S2P Require Import Prelude Regex RegexSpec RegexStep RegexLayout RegexTurn RegexMatch.
Import ListNotations.

#[local] Open Scope Z_scope.

Lemma bind_returned {A B} (m : outcome A) (k : A -> outcome B) b : bind m k = Return b -> exists a, m = Return a /\ k a = Return b.
Proof. destruct m; try discriminate. eauto. Qed.

Section Fastmap.

Context (buffer : re_buffer).

Notation TR := (TRANSLATE_CHAR buffer).
Notation mark := (mark buffer).
Notation mark_all := (mark_all buffer).

(** ** Values *)

(** The return value is one of four; 1 stays, and is not lost but for a bad pattern. *)
Definition value_after (rv rv' : Z) : Prop :=
  (rv = 0 \/ rv = 1 \/ rv = 2 -> rv' = 0 \/ rv' = 1 \/ rv' = 2 \/ rv' = -2) /\ (rv <> 0 -> rv' <> 0) /\ (rv = 1 -> rv' = 1 \/ rv' = -2).

Lemma value_refl rv : value_after rv rv.
Proof. unfold value_after. lia. Qed.

Lemma value_bad rv : value_after rv (-2).
Proof. unfold value_after. lia. Qed.

Lemma value_one rv : value_after rv 1.
Proof. unfold value_after. lia. Qed.

Lemma value_from_one rv rv' : value_after 1 rv' -> value_after rv rv'.
Proof. unfold value_after. lia. Qed.

Lemma value_line_end rv rv' : value_after (if rv =? 0 then 2 else rv) rv' -> value_after rv rv'.
Proof. unfold value_after. destruct (Z.eqb_spec rv 0); lia. Qed.

Lemma next_value (loop : Z -> list Z -> fastmap -> Z -> outcome (Z * fastmap)) stack map rv rv' M :
  (forall pc stack map, loop pc stack map rv = Return (rv', M) -> value_after rv rv') -> fastmap_next loop stack map rv = Return (rv', M) -> value_after rv rv'.
Proof. intros L. destruct stack as [|pc stack]; cbn [fastmap_next]; [intros E; injection E as <- _; apply value_refl|apply L]. Qed.

Ltac value_step :=
  match goal with
  | H : bind _ _ = Return _ |- _ => apply bind_returned in H; destruct H as (? & _ & H)
  | H : read ?r _ _ _ = Return _ |- _ => unfold read in H; destruct r as [[? ?]|]
  | H : bad_pattern _ = Return _ |- _ => injection H as <- _; apply value_bad
  | H : Return _ = Return _ |- _ => injection H as <- _
  | H : Wild = Return _ |- _ => discriminate H
  | H : (if ?b then _ else _) = Return _ |- _ => destruct b eqn:?
  | H : match ?x with _ => _ end = Return _ |- _ => destruct x
  end.

Lemma fastmap_value p fuel : forall pc stack map rv rv' M, fastmap_loop buffer p fuel pc stack map rv = Return (rv', M) -> value_after rv rv'.
Proof.
  induction fuel as [|fuel IH]; intros pc stack map rv rv' M E; [discriminate|]. cbn [fastmap_loop] in E.
  destruct (pc >=? zlength p); [injection E as <- _; apply value_one|].
  assert (Next : forall stack map rv, fastmap_next (fastmap_loop buffer p fuel) stack map rv = Return (rv', M) -> value_after rv rv') by (intros st m v; apply next_value; intros; eapply IH; eassumption).
  assert (Jump : fastmap_jump p (fastmap_loop buffer p fuel) (pc + 1) stack map = Return (rv', M) -> value_after rv rv').
  { intros J. apply value_from_one. unfold fastmap_jump in J. repeat (value_step; try (eapply IH; eassumption)). }
  destruct (regexpcode_of (pattern_byte p pc)) as [[]|];
    repeat (value_step; try (eapply IH; eassumption); try (eapply Next; eassumption); try (apply value_line_end; eapply Next; eassumption); try apply value_refl; try apply value_one);
    try (eapply IH; eassumption); try (eapply Next; eassumption); auto.
Qed.

(** ** Marks *)

Context (translation_ok : forall c, 0 <= c < 256 -> 0 <= TR c < 256).

Definition marked (map : fastmap) (c : Z) : Prop := nth (Z.to_nat c) map 0 <> 0.
Definition grows (map map' : fastmap) : Prop := length map' = length map /\ forall c, marked map c -> marked map' c.

Lemma fastmap_grows_refl map : grows map map.
Proof. now split. Qed.

Lemma fastmap_grows_trans map1 map2 map3 : grows map1 map2 -> grows map2 map3 -> grows map1 map3.
Proof. intros [L1 G1] [L2 G2]. split; [congruence|auto]. Qed.

Lemma mark_grows c map map' : 0 <= c -> length map = 256%nat -> mark c map = Return map' -> grows map map' /\ marked map' (TR c).
Proof.
  unfold Regex.mark, MAX_CHAR. intros C L. destruct (Z.ltb_spec c 256) as [C'|]; [|discriminate]. intros E. injection E as <-. specialize (translation_ok c ltac:(lia)).
  assert (Mk : forall d, 0 <= d -> nth (Z.to_nat d) (update (Z.to_nat (TR c)) 1 map) 0 = if d =? TR c then 1 else nth (Z.to_nat d) map 0) by (intros d D; apply (pattern_byte_update map (TR c) 1 d); lia).
  split; [split; [apply length_update|]|].
  - intros d. unfold marked. destruct (Z_lt_le_dec d 0).
    + replace (Z.to_nat d) with (Z.to_nat 0) by lia. rewrite (Mk 0) by lia. destruct (Z.eqb_spec 0 (TR c)); [discriminate|auto].
    + rewrite Mk by lia. destruct (Z.eqb_spec d (TR c)); [discriminate|auto].
  - unfold marked. rewrite Mk by lia. rewrite Z.eqb_refl. discriminate.
Qed.

Lemma mark_all_grows (q : Z -> bool) n : forall first map map', 0 <= first -> length map = 256%nat -> mark_all q n first map = Return map' ->
  grows map map' /\ forall c, first <= c < first + Z.of_nat n -> q c = true -> marked map' (TR c).
Proof.
  induction n as [|n IH]; intros first map map' F L E; cbn [Regex.mark_all] in E; [injection E as <-; split; [apply fastmap_grows_refl|lia]|].
  apply bind_returned in E. destruct E as (m1 & E1 & E2). assert (G : grows map m1 /\ (q first = true -> marked m1 (TR first))).
  { destruct (q first); [destruct (mark_grows _ _ _ F L E1); auto|injection E1 as <-; split; [apply fastmap_grows_refl|discriminate]]. }
  destruct G as [G Mk]. destruct (IH (first + 1) m1 map' ltac:(lia) ltac:(destruct G; congruence) E2) as [G' Mk']. split; [now apply fastmap_grows_trans with m1|].
  intros c C Q. destruct (Z.eq_dec c first) as [->|]; [apply (proj2 G'); auto|apply Mk'; [lia|exact Q]].
Qed.

(** What one turn of the loop does with the instruction at the counter. *)
Section Turn.

Context (p : list Z) (p_bytes : Forall (fun b => 0 <= b) p).

(** The map after a character test: all the characters that pass it. *)
Definition marks (t : char_test) (map map' : fastmap) : Prop := grows map map' /\ forall c, 0 <= c < 256 -> test_char buffer t c = true -> marked map' (TR c).

Inductive fastmap_turn (fuel : nat) (pc : Z) (stack : list Z) (map : fastmap) (rv rv' : Z) (M : fastmap) : instruction * Z -> Prop :=
| fastmap_zero a after : a <> Line_end -> fastmap_loop buffer p fuel after stack map rv = Return (rv', M) -> fastmap_turn fuel pc stack map rv rv' M (Zero a, after)
| fastmap_line_end after map' : grows map map' -> marked map' (TR newline) -> fastmap_next (fastmap_loop buffer p fuel) stack map' (if rv =? 0 then 2 else rv) = Return (rv', M) ->
    fastmap_turn fuel pc stack map rv rv' M (Zero Line_end, after)
| fastmap_consume t after map' : marks t map map' -> fastmap_next (fastmap_loop buffer p fuel) stack map' rv = Return (rv', M) -> fastmap_turn fuel pc stack map rv rv' M (Consume t, after)
| fastmap_any after map' : marks Any map map' -> rv <> 0 -> rv' = rv -> M = map' -> fastmap_turn fuel pc stack map rv rv' M (Consume Any, after)
| fastmap_empty after : fastmap_loop buffer p fuel after stack map rv = Return (rv', M) -> fastmap_turn fuel pc stack map rv rv' M (Exact [], after)
| fastmap_exact c cs after map' : grows map map' -> marked map' (TR c) -> fastmap_next (fastmap_loop buffer p fuel) stack map' rv = Return (rv', M) ->
    fastmap_turn fuel pc stack map rv rv' M (Exact (c :: cs), after)
| fastmap_split target after : zlength stack < RE_NFAILURES -> fastmap_loop buffer p fuel after (target :: stack) map rv = Return (rv', M) -> fastmap_turn fuel pc stack map rv rv' M (Split target, after)
| fastmap_other ins after : rv' = 1 \/ rv' = -2 -> fastmap_turn fuel pc stack map rv rv' M (ins, after).

Lemma jump_value fuel pc stack map rv' M : fastmap_jump p (fastmap_loop buffer p fuel) pc stack map = Return (rv', M) -> rv' = 1 \/ rv' = -2.
Proof.
  intros J. enough (value_after 1 rv') by (unfold value_after in *; lia). unfold fastmap_jump in J. repeat (value_step; try (eapply fastmap_value; eassumption)).
Qed.

Lemma marks_all q t map map' : (forall c, 0 <= c < 256 -> test_char buffer t c = true -> q c = true) -> length map = 256%nat -> mark_all q (Z.to_nat MAX_CHAR) 0 map = Return map' -> marks t map map'.
Proof. intros Q L E. destruct (mark_all_grows q _ 0 map map' ltac:(lia) L E) as [G Mk]. split; [exact G|]. intros c C T. apply Mk; [unfold MAX_CHAR; lia|now apply Q]. Qed.

Lemma pattern_byte_nonnegative k : 0 <= pattern_byte p k.
Proof.
  unfold pattern_byte. destruct (Nat.lt_ge_cases (Z.to_nat k) (length p)); [apply (proj1 (Forall_forall _ _) p_bytes), nth_In; assumption|rewrite nth_overflow by assumption; lia].
Qed.

Lemma set_test pc n wins c : 0 <= pc -> 0 <= n -> pc + n <= zlength p -> 0 <= c ->
  test_char buffer (In_set (pattern_bytes p pc n) wins) c = Bool.eqb ((c <? n * ASCII_LENGTH) && CHAR_SET_MEMBER_P_INTERNAL p pc c) wins.
Proof.
  intros P N L C. cbn [test_char]. rewrite <- (char_set_member p pc n c) by assumption. reflexivity.
Qed.

Lemma set_marks pc n map map' : 0 <= pc -> 0 <= n -> pc + n <= zlength p -> length map = 256%nat ->
  mark_all (CHAR_SET_MEMBER_P_INTERNAL p pc) (Z.to_nat (n * ASCII_LENGTH)) 0 map = Return map' -> marks (In_set (pattern_bytes p pc n) true) map map'.
Proof.
  intros P N L Lm E. destruct (mark_all_grows _ _ 0 map map' ltac:(lia) Lm E) as [G Mk]. split; [exact G|]. intros c C T. rewrite set_test in T by lia.
  apply eqb_prop, andb_prop in T. destruct T as [T1%Z.ltb_lt T2]. unfold ASCII_LENGTH in *. apply Mk; [lia|exact T2].
Qed.

Lemma not_set_marks pc n map map1 map' : 0 <= pc -> 0 <= n -> pc + n <= zlength p -> length map = 256%nat ->
  mark_all (fun ascii => negb (CHAR_SET_MEMBER_P_INTERNAL p pc ascii)) (Z.to_nat (n * ASCII_LENGTH)) 0 map = Return map1 ->
  mark_all (fun _ => true) (Z.to_nat (MAX_CHAR - n * ASCII_LENGTH)) (n * ASCII_LENGTH) map1 = Return map' -> marks (In_set (pattern_bytes p pc n) false) map map'.
Proof.
  intros P N L Lm E1 E2. destruct (mark_all_grows _ _ 0 map map1 ltac:(lia) Lm E1) as [G1 Mk1]. unfold ASCII_LENGTH, MAX_CHAR in *.
  destruct (mark_all_grows _ _ (n * 8) map1 map' ltac:(lia) ltac:(destruct G1; congruence) E2) as [G2 Mk2]. split; [now apply fastmap_grows_trans with map1|].
  intros c C T. rewrite set_test in T by lia. apply eqb_prop in T. unfold ASCII_LENGTH in T. destruct (Z.ltb_spec c (n * 8)); cbn [andb] in T.
  - apply (proj2 G2), Mk1; [lia|now rewrite T].
  - apply Mk2; [lia|reflexivity].
Qed.

Lemma line_end_turn fuel pc stack map rv rv' M after : length map = 256%nat ->
  bind (mark newline map) (fun map => fastmap_next (fastmap_loop buffer p fuel) stack map (if rv =? 0 then 2 else rv)) = Return (rv', M) -> fastmap_turn fuel pc stack map rv rv' M (Zero Line_end, after).
Proof. intros L E. apply bind_returned in E. destruct E as (m1 & E1 & E2). destruct (mark_grows newline map m1 ltac:(unfold newline; lia) L E1) as [G Mk]. now apply fastmap_line_end with m1. Qed.

Lemma consume_turn fuel pc stack map rv rv' M t after (m : outcome fastmap) : (forall map', m = Return map' -> marks t map map') ->
  bind m (fun map => fastmap_next (fastmap_loop buffer p fuel) stack map rv) = Return (rv', M) -> fastmap_turn fuel pc stack map rv rv' M (Consume t, after).
Proof. intros Mk E. apply bind_returned in E. destruct E as (m1 & E1 & E2). apply fastmap_consume with m1; auto. Qed.

Lemma fastmap_decode fuel pc stack map rv rv' M d : length map = 256%nat -> decode p pc = Some d -> fastmap_loop buffer p (S fuel) pc stack map rv = Return (rv', M) -> fastmap_turn fuel pc stack map rv rv' M d.
Proof.
  intros L D E. cbn [fastmap_loop] in E. pose proof (decode_range _ _ _ D) as R. unfold decode in D. destruct (Z.ltb_spec pc 0); [lia|]. cbn [orb] in D.
  destruct (pc >=? zlength p); [discriminate|]. destruct (regexpcode_of (pattern_byte p pc)) as [code|]; [|discriminate]. unfold decode_as in D.
  destruct code; unfold read in E;
    try (injection D as <-; apply fastmap_zero; [discriminate|exact E]);
    try (injection D as <-; apply line_end_turn; assumption);
    try (injection D as <-; refine (consume_turn _ _ _ _ _ _ _ _ _ _ _ E); intros map'; apply marks_all; try assumption; intros c C T; apply eqb_prop in T; first [exact T|unfold WORD_CONSTITUENT_P; now rewrite T]);
    try (destruct (READ_PATTERN_REGISTER p (pc + 1)) as [[v pc']|]; [|discriminate]; injection D as <-; (apply fastmap_zero; [discriminate|exact E]) || (apply fastmap_other; injection E as <- _; auto));
    try (apply jump_value in E; destruct (READ_PATTERN_OFFSET p (pc + 1)) as [[v pc']|]; [|discriminate]; injection D as <-; now apply fastmap_other).
  - destruct (READ_PATTERN_CHAR p (pc + 1)) as [[v pc']|] eqn:Rd; [|discriminate]. injection D as <-. refine (consume_turn _ _ _ _ _ _ _ _ _ _ _ E). intros map' Em.
    assert (0 <= v). { unfold READ_PATTERN_CHAR in Rd. destruct (_ >=? _); [discriminate|]. injection Rd as <- _. apply pattern_byte_nonnegative. }
    destruct (mark_grows v map map' H0 L Em) as [G Mk]. split; [exact G|]. intros c _ T. cbn [test_char] in T. apply Z.eqb_eq in T. now subst c.
  - destruct (READ_PATTERN_LENGTH p (pc + 1)) as [[n pc']|] eqn:Rd; [|discriminate]. injection D as <-. destruct (read_length _ _ _ _ Rd) as (R1 & V & -> & R2).
    assert (0 <= n) by (subst n; apply pattern_byte_nonnegative). destruct (Z.eqb_spec n 0) as [En|Ne].
    + rewrite En. replace (pc + 1 + 1 + 0) with (pc + 1 + 1) by lia. apply fastmap_empty, E.
    + rewrite pattern_bytes_cons by lia. apply bind_returned in E. destruct E as (m1 & E1 & E2). destruct (mark_grows _ map m1 (pattern_byte_nonnegative _) L E1) as [G Mk]. now apply fastmap_exact with m1.
  - destruct (READ_PATTERN_OFFSET p (pc + 1)) as [[v pc']|]; [|discriminate]. injection D as <-. destruct (Z.ltb_spec (zlength stack) RE_NFAILURES); [|discriminate]. now apply fastmap_split.
  - injection D as <-. apply bind_returned in E. destruct E as (m1 & E1 & E2).
    assert (Mk : marks Any map m1) by (apply (marks_all (fun ascii => negb (ascii =? newline))); try assumption; auto).
    destruct (Z.eqb_spec rv 0) as [->|Ne]; cbn [negb] in E2; [now apply fastmap_consume with m1|]. injection E2 as <- <-. now apply fastmap_any with m1.
  - destruct (READ_PATTERN_LENGTH p (pc + 1)) as [[n pc']|] eqn:Rd; [|discriminate]. injection D as <-. destruct (read_length _ _ _ _ Rd) as (R1 & V & -> & R2).
    assert (0 <= n) by (subst n; apply pattern_byte_nonnegative). refine (consume_turn _ _ _ _ _ _ _ _ _ _ _ E). intros map' Em. apply set_marks; try assumption; lia.
  - destruct (READ_PATTERN_LENGTH p (pc + 1)) as [[n pc']|] eqn:Rd; [|discriminate]. injection D as <-. destruct (read_length _ _ _ _ Rd) as (R1 & V & -> & R2).
    assert (0 <= n) by (subst n; apply pattern_byte_nonnegative). apply bind_returned in E. destruct E as (m1 & E1 & E2).
    refine (consume_turn _ _ _ _ _ _ _ _ _ _ _ E2). intros map' Em. apply not_set_marks with m1; try assumption; lia.
  - destruct (READ_PATTERN_SYNTAXCODE p (pc + 1)) as [[v pc']|]; [|discriminate]. injection D as <-. refine (consume_turn _ _ _ _ _ _ _ _ _ _ _ E). intros map'. apply marks_all; [|assumption].
    intros c C T. apply eqb_prop in T. exact T.
  - destruct (READ_PATTERN_SYNTAXCODE p (pc + 1)) as [[v pc']|]; [|discriminate]. injection D as <-. refine (consume_turn _ _ _ _ _ _ _ _ _ _ _ E). intros map'. apply marks_all; [|assumption].
    intros c C T. apply eqb_prop in T. now rewrite T.
Qed.

End Turn.

End Fastmap.
