(* ===== verification/RegexSkip.v ===== *)
(** * Regular expressions: a match that the fastmap leaves out fails at once *)

From Stdlib Require Import ZArith List Bool Lia.
From S2P Require Import Prelude Regex RegexSpec RegexStep RegexLayout RegexTurn RegexMatch RegexFastmap.
Import ListNotations.

#[local] Open Scope Z_scope.

Section Skip.

Context (buffer : re_buffer) (ok : buffer_ok buffer) (match_end : Z) (realloc : Z -> bool) (re_max_failures : Z) (limit : Z).

Notation address := (address buffer).
Notation first_position := (first_position buffer).
Notation last_position := (last_position buffer).
Notation TR := (TRANSLATE_CHAR buffer).
Notation char_at := (char_at buffer).
Notation re_run := (re_run buffer match_end realloc re_max_failures).
Notation re_step := (re_step buffer match_end realloc re_max_failures).

Context (limit_ok : limit <= last_position).
Context (match_end_ok : forall i, first_position <= i <= last_position -> (address i >=? match_end) = (i >=? limit)).
Context (idempotent : forall c, 0 <= c < 256 -> TR (TR c) = TR c).
Context (p : list Z) (p_ok : compiled_pattern p = true).
Context (i : Z) (i_ok : first_position <= i <= limit).

(** [goto re_match_fail], and the run from there. *)
Definition resume (fuel : nat) (s : re_state) : outcome (Z * re_state) :=
  match next_failure_point (failures s) with
  | None => Return (RE_MATCH_FAILED, s)
  | Some (pc, mpc, l) => re_run fuel (with_failures l (stack_length s) (with_pcs pc mpc s))
  end.

(** From [pc] at the position, with at most [n] failure points, the matcher
    fails within [k] turns, and its stack is then as it was. *)
Definition fails (k : nat) (n : nat) (pc : Z) : Prop := forall s, patched p (pattern s) -> pattern_pc s = pc -> match_pc s = address i -> (length (failures s) <= n)%nat ->
  stack_length s = 2 * RE_NFAILURES -> exists j s', (j <= k)%nat /\ same s s' /\ forall fuel, re_run (j + fuel) s = resume fuel s'.

Fixpoint all_fail (k : nat) (stack : list Z) : Prop :=
  match stack with
  | [] => True
  | pc :: stack => exists k1 k2, (k1 + k2 <= k)%nat /\ fails k1 (length stack) pc /\ all_fail k2 stack
  end.

Lemma all_fail_more k k' stack : (k <= k')%nat -> all_fail k stack -> all_fail k' stack.
Proof. destruct stack as [|pc stack]; [easy|]. intros L (k1 & k2 & K & F & A). exists k1, k2. split; [lia|now split]. Qed.

Lemma re_run_step fuel s : re_run (S fuel) s = bind (re_step s) (fun r => match r with inl s => re_run fuel s | inr result => Return result end).
Proof. reflexivity. Qed.

(** ** One turn *)

Lemma plain_step s pc ins after b i' : In pc (instruction_starts p) -> patched p (pattern s) -> pattern_pc s = pc -> match_pc s = address i -> decode p pc = Some (ins, after) ->
  plain buffer limit ins i = Some (b, i') ->
  exists s1, same s s1 /\ (if b then re_step s = Return (inl s1) /\ pattern_pc s1 = after /\ match_pc s1 = address i' else re_step s = re_match_fail s1).
Proof.
  intros I P Pc M D Pl. assert (D' : decode (pattern s) (pattern_pc s) = Some (ins, after)) by (rewrite Pc, (decode_patched p) by assumption; exact D).
  destruct (plain_dispatch buffer ok match_end realloc re_max_failures limit limit_ok match_end_ok s i ins after b i' M ltac:(lia) (patched_bytes p _ p_ok P) D' Pl) as (s1 & Sm & X).
  exists s1. split; [exact Sm|]. pose proof (patched_in_range p p_ok s pc P I) as [R _]. unfold Regex.re_step. rewrite Pc, Z.geb_leb. destruct (Z.leb_spec (zlength (pattern s)) pc); [lia|].
  destruct b; [destruct X as (-> & X)|rewrite X]; [now split|reflexivity].
Qed.

Lemma fails_now pc ins after i' n : In pc (instruction_starts p) -> decode p pc = Some (ins, after) -> plain buffer limit ins i = Some (false, i') -> fails 1 n pc.
Proof.
  intros I D Pl s P Pc M _ _. destruct (plain_step s pc ins after false i' I P Pc M D Pl) as (s1 & Sm & E). exists 1%nat, s1. split; [lia|]. split; [exact Sm|].
  intros fuel. change (1 + fuel)%nat with (S fuel). rewrite re_run_step, E. unfold re_match_fail, resume. destruct (next_failure_point (failures s1)) as [[[a b] l]|]; reflexivity.
Qed.

Lemma fails_later k pc ins after b n : In pc (instruction_starts p) -> decode p pc = Some (ins, after) -> plain buffer limit ins i = Some (b, i) -> fails k n after -> fails (S k) n pc.
Proof.
  intros I D Pl F s P Pc M L St. destruct b.
  - destruct (plain_step s pc ins after true i I P Pc M D Pl) as (s1 & Sm & E & Pc1 & M1). destruct Sm as (Sp & Sf & Ss).
    destruct (F s1) as (j & s' & J & Sm' & X); [congruence..|]. exists (S j), s'. split; [lia|]. split; [apply same_trans with s1; [now split|exact Sm']|].
    intros fuel. change (S j + fuel)%nat with (S (j + fuel)). rewrite re_run_step, E. cbn [bind]. apply X.
  - destruct (fails_now pc ins after i n I D Pl s P Pc M L St) as (j & s' & J & X). exists j, s'. split; [lia|exact X].
Qed.

Lemma split_step s pc target after : In pc (instruction_starts p) -> patched p (pattern s) -> pattern_pc s = pc -> decode p pc = Some (Split target, after) ->
  stack_length s = 2 * RE_NFAILURES -> zlength (failures s) < RE_NFAILURES ->
  exists s1, re_step s = Return (inl s1) /\ pattern s1 = pattern s /\ pattern_pc s1 = after /\ match_pc s1 = match_pc s /\ failures s1 = Some (target, match_pc s) :: failures s /\ stack_length s1 = stack_length s.
Proof.
  intros I P Pc D St L. pose proof (patched_in_range p p_ok s pc P I) as [R Nb].
  assert (D' : decode (pattern s) pc = Some (Split target, after)) by (rewrite (decode_patched p) by assumption; exact D).
  destruct (decode_control _ _ _ _ target (proj1 R) D' (or_intror (or_introl eq_refl))) as (Rd & A & Code & _ & _). specialize (Code eq_refl).
  unfold Regex.re_step. rewrite Pc, Z.geb_leb. destruct (Z.leb_spec (zlength (pattern s)) pc); [lia|]. rewrite dispatching, Pc, Code by (rewrite Pc; exact R).
  cbn [re_execute]. rewrite reading. cbn [past_code with_pcs pattern pattern_pc]. rewrite Pc, Rd. unfold rthen, get. cbn [bind with_pcs pattern_pc match_pc].
  unfold PUSH_FAILURE_POINT. cbn [with_pcs past_code failures stack_length]. destruct (Z.eqb_spec (2 * zlength (failures s)) (stack_length s)); [unfold RE_NFAILURES in *; lia|].
  cbn [bind]. eexists. split; [reflexivity|]. cbn. replace (after + (target - after)) with target by lia. now repeat split.
Qed.

Lemma fails_split k1 k2 pc target after n : In pc (instruction_starts p) -> decode p pc = Some (Split target, after) -> (n < 512)%nat ->
  fails k1 (S n) after -> fails k2 n target -> fails (S (k1 + k2)) n pc.
Proof.
  intros I D N F1 F2 s P Pc M L St. destruct (split_step s pc target after I P Pc D St ltac:(unfold RE_NFAILURES; lia)) as (s1 & E & P1 & Pc1 & M1 & Fl1 & St1).
  destruct (F1 s1) as (j1 & s1' & J1 & (Sp1 & Sf1 & Ss1) & X1); try congruence; [rewrite Fl1; cbn [length]; lia|].
  set (s2 := with_failures (failures s) (stack_length s1') (with_pcs target (match_pc s) s1')).
  destruct (F2 s2) as (j2 & s2' & J2 & (Sp2 & Sf2 & Ss2) & X2); try (cbn [s2 with_failures with_pcs pattern pattern_pc match_pc failures stack_length]; congruence); try assumption.
  exists (S (j1 + j2)), s2'. split; [lia|]. split; [unfold same; cbn in *; repeat split; congruence|].
  intros fuel. change (S (j1 + j2) + fuel)%nat with (S (j1 + j2 + fuel)). rewrite re_run_step, E. cbn [bind]. replace (j1 + j2 + fuel)%nat with (j1 + (j2 + fuel))%nat by lia.
  rewrite X1. unfold resume. rewrite Sf1, Fl1. cbn [next_failure_point]. apply X2.
Qed.

(** ** The fastmap *)

Lemma char_translated : i < limit -> exists c, 0 <= c < 256 /\ char_at i = TR c /\ TR (char_at i) = char_at i.
Proof.
  intros L. exists (nth (Z.to_nat (address i)) (text buffer) 0). pose proof (text_character buffer ok i ltac:(lia)) as T. split; [exact T|]. split; [reflexivity|]. now apply idempotent.
Qed.

(** The character at the position, if any, is not marked. *)
Definition unmarked (map : fastmap) : Prop := i < limit -> ~ marked map (char_at i).

Lemma unmarked_before map map' : grows map map' -> unmarked map' -> unmarked map.
Proof. intros [_ G] U L M. apply (U L), G, M. Qed.

(** A test that marks its characters is not passed. *)
Lemma test_fails t map map' M : marks buffer t map map' -> grows map' M -> unmarked M -> (i <? limit) && test_char buffer t (char_at i) = false.
Proof.
  intros [_ Mk] [_ G] U. destruct (Z.ltb_spec i limit) as [L|]; cbn [andb]; [|reflexivity]. destruct (test_char buffer t (char_at i)) eqn:T; [|reflexivity].
  exfalso. apply (U L), G. destruct (char_translated L) as (c & C & E & I). rewrite <- I. apply Mk; [|exact T]. rewrite E. now apply (buffer_translation buffer ok).
Qed.

Lemma exact_fails c cs map M : marked map (TR c) -> grows map M -> unmarked M -> reads buffer limit i (c :: cs) = false.
Proof.
  intros Mk [_ G] U. cbn [reads]. destruct (Z.ltb_spec i limit) as [L|]; cbn [andb]; [|reflexivity]. destruct (Z.eqb_spec (char_at i) c) as [E|]; [|reflexivity].
  exfalso. apply (U L), G. destruct (char_translated L) as (d & C & E' & I). rewrite <- I, E. exact Mk.
Qed.

Lemma line_end_fails map M : i < limit -> marked map (TR newline) -> grows map M -> unmarked M -> holds buffer Line_end i = false.
Proof.
  intros L Mk [_ G] U. cbn [holds]. destruct (Z.eqb_spec i last_position); [lia|]. cbn [orb]. destruct (Z.eqb_spec (char_at i) newline) as [E|]; [|reflexivity].
  exfalso. apply (U L), G. destruct (char_translated L) as (d & C & E' & I). rewrite <- I, E. exact Mk.
Qed.

Notation loop := (fastmap_loop buffer p).

Lemma start_of_decode pc d : counter_ok p pc = true -> decode p pc = Some d -> In pc (instruction_starts p).
Proof. apply decode_start, p_ok. Qed.

(** What is said of a turn of the loop, and of the alternatives left. *)
Definition loop_skips (fuel : nat) : Prop := forall pc stack map rv rv' M, loop fuel pc stack map rv = Return (rv', M) ->
  counter_ok p pc = true -> Forall (fun pc => counter_ok p pc = true) stack -> length map = 256%nat -> (rv <> 0 -> marked map (TR newline)) ->
  rv' = 0 \/ rv' = 2 /\ i < limit -> unmarked M ->
  grows map M /\ exists k1 k2, (k1 + k2 <= fuel)%nat /\ fails k1 (length stack) pc /\ all_fail k2 stack.

Lemma next_skips fuel stack map rv rv' M : loop_skips fuel -> fastmap_next (loop fuel) stack map rv = Return (rv', M) ->
  Forall (fun pc => counter_ok p pc = true) stack -> length map = 256%nat -> (rv <> 0 -> marked map (TR newline)) -> rv' = 0 \/ rv' = 2 /\ i < limit -> unmarked M ->
  grows map M /\ all_fail fuel stack.
Proof.
  intros IH E Cs L Nl V U. destruct stack as [|pc stack]; cbn [fastmap_next] in E.
  - injection E as <- <-. split; [apply fastmap_grows_refl|exact Logic.I].
  - inversion Cs as [|? ? C Cs']; subst. destruct (IH pc stack map rv rv' M E C Cs' L Nl V U) as (G & k1 & k2 & K & F & A). split; [exact G|]. exists k1, k2. now repeat split.
Qed.

Lemma any_marks_everything map map' : marks buffer Any map map' -> marked map (TR newline) -> i < limit -> ~ unmarked map'.
Proof.
  intros [[_ G] Mk] Nl L U. apply (U L). destruct (char_translated L) as (c & C & E & _). rewrite E. destruct (Z.eq_dec c newline) as [->|Ne]; [now apply G|].
  apply Mk; [exact C|]. cbn [test_char]. destruct (Z.eqb_spec c newline); [contradiction|reflexivity].
Qed.

(** A character test, or an exact string, that is not passed. *)
Lemma consume_skips fuel pc ins after i' stack map map' rv rv' M : loop_skips fuel -> In pc (instruction_starts p) -> decode p pc = Some (ins, after) ->
  fastmap_next (loop fuel) stack map' rv = Return (rv', M) -> grows map map' -> Forall (fun pc => counter_ok p pc = true) stack -> length map = 256%nat -> (rv <> 0 -> marked map' (TR newline)) ->
  rv' = 0 \/ rv' = 2 /\ i < limit -> unmarked M -> (grows map' M -> plain buffer limit ins i = Some (false, i')) ->
  grows map M /\ exists k1 k2, (k1 + k2 <= S fuel)%nat /\ fails k1 (length stack) pc /\ all_fail k2 stack.
Proof.
  intros IH I D E G Cs L Nl V U Pl. destruct (next_skips fuel stack map' rv rv' M IH E Cs ltac:(destruct G; congruence) Nl V U) as [G' A]. split; [now apply fastmap_grows_trans with map'|].
  exists 1%nat, fuel. split; [lia|]. split; [now apply (fails_now pc ins after i' _ I D), Pl|exact A].
Qed.

Lemma fastmap_skips fuel : loop_skips fuel.
Proof.
  induction fuel as [|fuel IH]; intros pc stack map rv rv' M E C Cs L Nl V U; [discriminate|].
  destruct (counter_cases _ _ C) as [I|En].
  2: { cbn [fastmap_loop] in E. rewrite En, Z.geb_leb, Z.leb_refl in E. injection E as <- <-. lia. }
  destruct (compiled_instruction p p_ok pc I) as (ins & after & D & Laid). pose proof (laid_successors _ _ _ _ Laid) as Su.
  pose proof (fastmap_decode buffer (buffer_translation buffer ok) p (compiled_bytes p p_ok) fuel pc stack map rv rv' M (ins, after) L D E) as T.
  inversion T as [a after' Na Lo|after' map' G Mk Nx|t after' map' Mk Nx|after' map' Mk Nr Er Em|after' Lo|c cs after' map' G Mk Nx|target after' Ls Lo|ins' after' O]; subst; clear T.
  - destruct (IH after stack map rv rv' M Lo (Su after (or_introl eq_refl)) Cs L Nl V U) as (G & k1 & k2 & K & F & A). split; [exact G|]. exists (S k1), k2. split; [lia|].
    split; [|exact A]. now apply (fails_later k1 pc (Zero a) after (holds buffer a i)).
  - assert (V2 : rv' <> 0).
    { assert (X : value_after (if rv =? 0 then 2 else rv) rv') by (refine (next_value _ _ _ _ _ _ _ Nx); intros q st m; apply fastmap_value). destruct X as (_ & X & _). apply X. destruct (Z.eqb_spec rv 0); lia. }
    refine (consume_skips fuel pc _ after i stack map map' _ rv' M IH I D Nx G Cs L (fun _ => Mk) V U _). intros G'. cbn [plain]. f_equal. f_equal. apply (line_end_fails map' M); try assumption. lia.
  - refine (consume_skips fuel pc _ after (i + 1) stack map map' rv rv' M IH I D Nx (proj1 Mk) Cs L _ V U _).
    + intros R. apply (proj2 (proj1 Mk)), Nl, R.
    + intros G'. cbn [plain]. f_equal. f_equal. now apply (test_fails t map map' M).
  - exfalso. apply (any_marks_everything map map' Mk); [apply Nl, Nr|lia|exact U].
  - now destruct (laid_exact _ _ _ _ Laid).
  - refine (consume_skips fuel pc _ after (i + zlength (c :: cs)) stack map map' rv rv' M IH I D Nx G Cs L _ V U _).
    + intros R. apply (proj2 G), Nl, R.
    + intros G'. cbn [plain]. f_equal. f_equal. now apply (exact_fails c cs map' M).
  - destruct (IH after (target :: stack) map rv rv' M Lo (Su after (or_introl eq_refl)) (Forall_cons _ (Su target (or_intror (or_introl eq_refl))) Cs) L Nl V U) as (G & k1 & k2 & K & F & (k3 & k4 & K' & F' & A)).
    split; [exact G|]. exists (S (k1 + k3)), k4. split; [lia|]. split; [|exact A]. apply (fails_split k1 k3 pc target after); auto. unfold RE_NFAILURES in Ls. lia.
  - lia.
Qed.

(** A test of [re_match] at the position. *)
Lemma match_skipped fuel v map p' : re_compile_fastmap buffer p fuel = Return (v, map) -> v = 0 \/ v = 2 /\ i < limit -> unmarked map -> patched p p' ->
  re_match buffer match_end realloc re_max_failures true fuel p' (address i) = Return (RE_MATCH_FAILED, p', None).
Proof.
  intros E V U P. unfold re_compile_fastmap in E. destruct (fastmap_skips fuel 0 [] empty_fastmap 0 v map E (compiled_start p p_ok) (Forall_nil _) ltac:(reflexivity) ltac:(lia) V U) as (_ & k1 & k2 & K & F & _).
  destruct (F (re_match_start p' (address i)) P eq_refl eq_refl (Nat.le_refl _) eq_refl) as (j & s' & J & (Sp & Sf & _) & X). unfold re_match.
  replace fuel with (j + (fuel - j))%nat by lia. rewrite X. unfold resume. rewrite Sf. cbn [re_match_start failures next_failure_point bind]. rewrite Sp. reflexivity.
Qed.

End Skip.
