(* ===== verification/RegexSearch.v ===== *)
(** * Regular expressions: the searches find what trying every place finds *)

From Stdlib Require Import ZArith List Bool Lia.
From S2P Require Import Prelude Regex RegexSpec RegexStep RegexLayout RegexTurn RegexMatch RegexCorrect RegexFastmap RegexSkip RegexSample.
Import ListNotations.

#[local] Open Scope Z_scope.

(** ** Trying every place *)

Section Places.

Context (test : list Z -> Z -> outcome search_result) (return_at : Z -> search_result -> search_result).

(** The result at the first place where [test] does not fail; else the program
    that is left. *)
Fixpoint try_places (places : list Z) (p : list Z) : outcome (search_result + list Z) :=
  match places with
  | [] => Return (inr p)
  | pc :: places =>
      bind (test p pc) (fun '(result, p, registers) =>
        if RE_MATCH_FAILURE_RESULT result then try_places places p else Return (inl (return_at pc (result, p, registers))))
  end.

Definition or_else (r : outcome (search_result + list Z)) (k : list Z -> outcome search_result) : outcome search_result :=
  bind r (fun e => match e with inl result => Return result | inr p => k p end).

Lemma try_places_app l1 l2 p : try_places (l1 ++ l2) p = bind (try_places l1 p) (fun e => match e with inl r => Return (inl r) | inr p => try_places l2 p end).
Proof.
  revert p. induction l1 as [|pc l1 IH]; intros p; cbn [app try_places]; [reflexivity|]. destruct (test p pc) as [[[result p'] registers]| | |]; cbn [bind]; try reflexivity.
  destruct (RE_MATCH_FAILURE_RESULT result); [apply IH|reflexivity].
Qed.

Lemma or_else_app l1 l2 k p : or_else (try_places (l1 ++ l2) p) k = or_else (try_places l1 p) (fun p => or_else (try_places l2 p) k).
Proof. rewrite try_places_app. unfold or_else. destruct (try_places l1 p) as [[r|p']| | |]; reflexivity. Qed.

End Places.

(** The addresses of [n] positions, from [i] up or down. *)
Definition places_up (buffer : re_buffer) (i : Z) (n : nat) : list Z := map (fun k => address buffer (i + Z.of_nat k)) (seq 0 n).
Definition places_down (buffer : re_buffer) (i : Z) (n : nat) : list Z := map (fun k => address buffer (i - Z.of_nat k)) (seq 0 n).

Lemma places_up_cons buffer i n : places_up buffer i (S n) = address buffer i :: places_up buffer (i + 1) n.
Proof. unfold places_up. cbn [seq map]. f_equal; [f_equal; lia|]. rewrite <- seq_shift, map_map. apply map_ext. intros k. f_equal. lia. Qed.

Lemma places_down_cons buffer i n : places_down buffer i (S n) = address buffer i :: places_down buffer (i - 1) n.
Proof. unfold places_down. cbn [seq map]. f_equal; [f_equal; lia|]. rewrite <- seq_shift, map_map. apply map_ext. intros k. f_equal. lia. Qed.

Lemma places_up_app buffer i n m : places_up buffer i (n + m) = places_up buffer i n ++ places_up buffer (i + Z.of_nat n) m.
Proof.
  revert i. induction n as [|n IH]; intros i; cbn [Nat.add]; [replace (i + Z.of_nat 0) with i by lia; reflexivity|].
  rewrite !places_up_cons, IH. replace (i + 1 + Z.of_nat n) with (i + Z.of_nat (S n)) by lia. reflexivity.
Qed.

Lemma places_down_app buffer i n m : places_down buffer i (n + m) = places_down buffer i n ++ places_down buffer (i - Z.of_nat n) m.
Proof.
  revert i. induction n as [|n IH]; intros i; cbn [Nat.add]; [replace (i - Z.of_nat 0) with i by lia; reflexivity|].
  rewrite !places_down_cons, IH. replace (i - 1 - Z.of_nat n) with (i - Z.of_nat (S n)) by lia. reflexivity.
Qed.

Section Search.

Context (buffer : re_buffer) (ok : buffer_ok buffer) (realloc : Z -> bool) (re_max_failures : Z) (fuel : nat) (hi : Z).

Notation address := (address buffer).
Notation first_position := (first_position buffer).
Notation last_position := (last_position buffer).
Notation TR := (TRANSLATE_CHAR buffer).
Notation test := (re_match buffer (address hi) realloc re_max_failures true fuel).

Context (hi_ok : hi <= last_position) (gap_ok : gap_start buffer = gap_end buffer \/ hi <> gap_start buffer).

Lemma address_order i j : first_position <= i -> first_position <= j -> address i <= address j <-> i <= j.
Proof. pose proof (gap_nonnegative buffer ok). unfold RegexSpec.address. intros I J. destruct (Z.ltb_spec i (gap_start buffer)), (Z.ltb_spec j (gap_start buffer)); lia. Qed.

Lemma limit_at_address i : first_position <= hi -> first_position <= i <= last_position -> (address i >=? address hi) = (i >=? hi).
Proof. intros H I. rewrite !Z.geb_leb. pose proof (address_order hi i H ltac:(lia)). destruct (Z.leb_spec (address hi) (address i)), (Z.leb_spec hi i); lia. Qed.

(** ** The slow loops *)

Lemma slow_forward n : forall p lo, first_position <= lo <= hi -> (Z.to_nat (hi - lo) < n)%nat ->
  search_forward_slow buffer test n p (address lo) (address hi) = or_else (try_places test (fun _ r => r) (places_up buffer lo (Z.to_nat (hi - lo))) p) (fun p => test p (address hi)).
Proof.
  induction n as [|n IH]; intros p lo L N; [lia|]. cbn [search_forward_slow]. destruct (Z.eq_dec lo hi) as [->|Ne].
  - replace (Z.to_nat (hi - hi)) with O by lia. cbn [places_up seq map try_places]. unfold or_else. cbn [bind]. destruct (test p (address hi)) as [[[result p'] registers]| | |]; cbn [bind]; try reflexivity.
    destruct (RE_MATCH_FAILURE_RESULT result); cbn [negb]; [|reflexivity]. rewrite (address_next buffer ok), Z.gtb_ltb. pose proof (address_order (hi + 1) hi ltac:(lia) ltac:(lia)).
    destruct (Z.ltb_spec (address hi) (address (hi + 1))); [reflexivity|lia].
  - replace (Z.to_nat (hi - lo)) with (S (Z.to_nat (hi - (lo + 1)))) by lia. rewrite places_up_cons. cbn [try_places]. unfold or_else at 1.
    destruct (test p (address lo)) as [[[result p'] registers]| | |]; cbn [bind]; try reflexivity. destruct (RE_MATCH_FAILURE_RESULT result); cbn [negb]; [|reflexivity].
    rewrite (address_next buffer ok), Z.gtb_ltb. pose proof (address_order (lo + 1) hi ltac:(lia) ltac:(lia)). destruct (Z.ltb_spec (address hi) (address (lo + 1))); [lia|].
    rewrite IH by lia. reflexivity.
Qed.

Lemma return_negative start result p registers : RE_MATCH_FAILURE_RESULT result = true -> RE_SEARCH_BACKWARD_RETURN buffer start (result, p, registers) = (result, p, registers).
Proof. unfold RE_MATCH_FAILURE_RESULT, RE_MATCH_FAILED, RE_SEARCH_BACKWARD_RETURN. destruct (Z.ltb_spec result 0); [reflexivity|]. destruct (Z.eqb_spec result (-1)), (Z.eqb_spec result (-4)); cbn; try discriminate; lia. Qed.

Lemma slow_backward n : forall p i lo, first_position <= lo <= i -> i <= last_position -> (Z.to_nat (i - lo) < n)%nat ->
  search_backward_slow buffer test n p (address i) (address lo) =
    or_else (try_places test (RE_SEARCH_BACKWARD_RETURN buffer) (places_down buffer i (Z.to_nat (i - lo))) p) (fun p => bind (test p (address lo)) (fun r => Return (RE_SEARCH_BACKWARD_RETURN buffer (address lo) r))).
Proof.
  induction n as [|n IH]; intros p i lo L B N; [lia|]. cbn [search_backward_slow]. destruct (Z.eq_dec i lo) as [->|Ne].
  - replace (Z.to_nat (lo - lo)) with O by lia. cbn [places_down seq map try_places]. unfold or_else. cbn [bind]. destruct (test p (address lo)) as [[[result p'] registers]| | |]; cbn [bind]; try reflexivity.
    destruct (RE_MATCH_FAILURE_RESULT result) eqn:F; cbn [negb]; [|reflexivity]. rewrite (address_before buffer ok).
    assert (Lt : address (lo - 1) < address lo) by (pose proof (gap_nonnegative buffer ok); unfold RegexSpec.address; destruct (Z.ltb_spec (lo - 1) (gap_start buffer)), (Z.ltb_spec lo (gap_start buffer)); lia).
    destruct (Z.ltb_spec (address (lo - 1)) (address lo)); [|lia]. now rewrite !return_negative.
  - replace (Z.to_nat (i - lo)) with (S (Z.to_nat (i - 1 - lo))) by lia. rewrite places_down_cons. cbn [try_places]. unfold or_else at 1.
    destruct (test p (address i)) as [[[result p'] registers]| | |]; cbn [bind]; try reflexivity. destruct (RE_MATCH_FAILURE_RESULT result); cbn [negb]; [|reflexivity].
    rewrite (address_before buffer ok). pose proof (address_order lo (i - 1) ltac:(lia) ltac:(lia)). destruct (Z.ltb_spec (address (i - 1)) (address lo)); [lia|].
    rewrite IH by lia. reflexivity.
Qed.

(** ** The fast loops *)

Context (first_hi : first_position <= hi) (idempotent : forall c, 0 <= c < 256 -> TR (TR c) = TR c).
Context (p : list Z) (p_ok : compiled_pattern p = true) (v : Z) (map : fastmap) (compiled : re_compile_fastmap buffer p fuel = Return (v, map)).

Lemma test_patches p1 i result p2 registers : patched p p1 -> first_position <= i <= hi -> test p1 (address i) = Return (result, p2, registers) -> patched p p2.
Proof.
  intros P I E. unfold re_match in E. apply bind_returned in E. destruct E as ([value s] & R & E). injection E as _ <- _.
  refine (run_patches buffer ok (address hi) realloc re_max_failures hi hi_ok _ p p_ok fuel (re_match_start p1 (address i)) 0 i [] value s _ _ R).
  - intros k K. now apply limit_at_address.
  - split; try reflexivity. exact P.
  - now apply start_configuration.
Qed.

Lemma test_skips p1 i : patched p p1 -> v = 0 \/ v = 2 /\ i < hi -> first_position <= i <= hi -> (i < hi -> ~ marked map (char_at buffer i)) ->
  test p1 (address i) = Return (RE_MATCH_FAILED, p1, None).
Proof.
  intros P V I U. refine (match_skipped buffer ok (address hi) realloc re_max_failures hi hi_ok _ idempotent p p_ok i I fuel v map p1 compiled V U P).
  intros k K. now apply limit_at_address.
Qed.

Lemma text_ref_at i : first_position <= i < last_position -> text_ref buffer (address i) = Return (nth (Z.to_nat (address i)) (text buffer) 0).
Proof. intros R%(address_range buffer ok). unfold text_ref. destruct (Z.leb_spec 0 (address i)); [|lia]. destruct (Z.ltb_spec (address i) (zlength (text buffer))); [reflexivity|lia]. Qed.

Lemma not_in_fastmap i : in_fastmap buffer map (nth (Z.to_nat (address i)) (text buffer) 0) = false -> ~ marked map (char_at buffer i).
Proof. unfold in_fastmap, marked, char_at. intros E%negb_false_iff%Z.eqb_eq M. contradiction. Qed.

Lemma fast_forward n : forall p1 i pc, v = 0 \/ v = 2 -> patched p p1 -> first_position <= i -> i + Z.of_nat n <= hi -> (forall k, 0 <= k < Z.of_nat n -> pc + k = address (i + k)) ->
  exists r, try_places test (fun _ r => r) (places_up buffer i n) p1 = r /\
    search_forward_fast buffer test map n p1 pc = bind r (fun e => Return (match e with inl r => inl r | inr p2 => inr (pc + Z.of_nat n, p2) end)) /\
    forall p2, r = Return (inr p2) -> patched p p2.
Proof.
  induction n as [|n IH]; intros p1 i pc V P I H A; (eexists; split; [reflexivity|]).
  - cbn. split; [do 3 f_equal; lia|]. intros p2 E. now injection E as <-.
  - rewrite places_up_cons. cbn [try_places search_forward_fast]. assert (pc = address i) as -> by (specialize (A 0 ltac:(lia)); rewrite !Z.add_0_r in A; exact A).
    rewrite text_ref_at by lia. cbn [bind].
    destruct (IH p1 (i + 1) (address i + 1) V P ltac:(lia) ltac:(lia)) as (r & E & F & Q); [intros k K; specialize (A (k + 1) ltac:(lia)); replace (i + 1 + k) with (i + (k + 1)) by lia; lia|].
    destruct (in_fastmap buffer map (nth (Z.to_nat (address i)) (text buffer) 0)) eqn:In; cbn [negb].
    + destruct (test p1 (address i)) as [[[result p2] registers]| | |] eqn:T; cbn [bind]; try (split; [reflexivity|discriminate]).
      destruct (RE_MATCH_FAILURE_RESULT result); [|split; [reflexivity|discriminate]]. apply (test_patches p1 i) in T; [|assumption|lia].
      destruct (IH p2 (i + 1) (address i + 1) V T ltac:(lia) ltac:(lia)) as (r2 & E2 & F2 & Q2); [intros k K; specialize (A (k + 1) ltac:(lia)); replace (i + 1 + k) with (i + (k + 1)) by lia; lia|].
      rewrite E2, F2. split; [|exact Q2]. destruct r2 as [[|]| | |]; cbn [bind]; try reflexivity. do 3 f_equal. lia.
    + rewrite test_skips by (assumption || lia || (intros _; now apply not_in_fastmap)). cbn [bind]. change (RE_MATCH_FAILURE_RESULT RE_MATCH_FAILED) with true. cbv iota.
      rewrite E, F. split; [|exact Q]. destruct r as [[|]| | |]; cbn [bind]; try reflexivity. do 3 f_equal. lia.
Qed.

Lemma fast_backward n : forall p1 i pc, v = 0 \/ v = 2 -> patched p p1 -> first_position <= i - Z.of_nat n -> i <= hi -> (forall k, 0 < k <= Z.of_nat n -> pc - k = address (i - k)) ->
  exists r, try_places test (RE_SEARCH_BACKWARD_RETURN buffer) (places_down buffer (i - 1) n) p1 = r /\
    search_backward_fast buffer test map n p1 pc = bind r (fun e => Return (match e with inl r => inl r | inr p2 => inr (pc - Z.of_nat n, p2) end)) /\
    forall p2, r = Return (inr p2) -> patched p p2.
Proof.
  induction n as [|n IH]; intros p1 i pc V P I H A; (eexists; split; [reflexivity|]).
  - cbn. split; [do 3 f_equal; lia|]. intros p2 E. now injection E as <-.
  - rewrite places_down_cons. cbn [try_places search_backward_fast]. replace (pc - 1) with (address (i - 1)) by (symmetry; apply A; lia).
    rewrite text_ref_at by lia. cbn [bind].
    assert (A' : forall k, 0 < k <= Z.of_nat n -> address (i - 1) - k = address (i - 1 - k)).
    { intros k K. rewrite <- (A 1) by lia. replace (i - 1 - k) with (i - (k + 1)) by lia. rewrite <- A by lia. lia. }
    destruct (IH p1 (i - 1) (address (i - 1)) V P ltac:(lia) ltac:(lia) A') as (r & E & F & Q).
    assert (Pc : address (i - 1) - Z.of_nat n = pc - Z.of_nat (S n)) by (rewrite <- (A 1) by lia; lia).
    destruct (in_fastmap buffer map (nth (Z.to_nat (address (i - 1))) (text buffer) 0)) eqn:In; cbn [negb].
    + destruct (test p1 (address (i - 1))) as [[[result p2] registers]| | |] eqn:T; cbn [bind]; try (split; [reflexivity|discriminate]).
      destruct (RE_MATCH_FAILURE_RESULT result); [|split; [reflexivity|discriminate]]. apply (test_patches p1 (i - 1)) in T; [|assumption|lia].
      destruct (IH p2 (i - 1) (address (i - 1)) V T ltac:(lia) ltac:(lia) A') as (r2 & E2 & F2 & Q2).
      rewrite E2, F2, Pc. now split.
    + rewrite test_skips by (assumption || lia || (intros _; now apply not_in_fastmap)). cbn [bind]. change (RE_MATCH_FAILURE_RESULT RE_MATCH_FAILED) with true. cbv iota.
      rewrite E, F, Pc. now split.
Qed.

(** ** The searches *)

Lemma after_fast_else (r : outcome (search_result + list Z)) pc k :
  after_fast (bind r (fun e => Return (match e with inl r => inl r | inr p2 => inr (pc, p2) end))) k = or_else r (fun p2 => k p2 pc).
Proof. now destruct r as [[|]| | |]. Qed.

Lemma or_else_ext r k1 k2 : (forall p2, r = Return (inr p2) -> k1 p2 = k2 p2) -> or_else r k1 = or_else r k2.
Proof. destruct r as [[|]| | |]; intros H; try reflexivity. cbn. now apply H. Qed.

(** The end of a forward search. *)
Lemma forward_end p2 : v = 0 \/ v = 2 -> patched p p2 -> (if v =? 0 then Return (RE_MATCH_FAILED, p2, None) else test p2 (address hi)) = test p2 (address hi).
Proof.
  intros V P. destruct (Z.eqb_spec v 0); [|reflexivity]. symmetry. apply test_skips; [exact P|auto|lia|lia].
Qed.

Lemma forward_run lo n p1 pc k : v = 0 \/ v = 2 -> patched p p1 -> first_position <= lo -> lo + Z.of_nat n <= hi -> (forall k, 0 <= k < Z.of_nat n -> pc + k = address (lo + k)) ->
  after_fast (search_forward_fast buffer test map n p1 pc) k = or_else (try_places test (fun _ r => r) (places_up buffer lo n) p1) (fun p2 => k p2 (pc + Z.of_nat n)) /\
  forall p2, try_places test (fun _ r => r) (places_up buffer lo n) p1 = Return (inr p2) -> patched p p2.
Proof.
  intros V P L H A. destruct (fast_forward n p1 lo pc V P L H A) as (r & E & F & Q). rewrite E, F. split; [apply after_fast_else|exact Q].
Qed.

Lemma backward_run i n p1 pc k : v = 0 \/ v = 2 -> patched p p1 -> first_position <= i - Z.of_nat n -> i <= hi -> (forall k, 0 < k <= Z.of_nat n -> pc - k = address (i - k)) ->
  after_fast (search_backward_fast buffer test map n p1 pc) k = or_else (try_places test (RE_SEARCH_BACKWARD_RETURN buffer) (places_down buffer (i - 1) n) p1) (fun p2 => k p2 (pc - Z.of_nat n)) /\
  forall p2, try_places test (RE_SEARCH_BACKWARD_RETURN buffer) (places_down buffer (i - 1) n) p1 = Return (inr p2) -> patched p p2.
Proof.
  intros V P L H A. destruct (fast_backward n p1 i pc V P L H A) as (r & E & F & Q). rewrite E, F. split; [apply after_fast_else|exact Q].
Qed.

Ltac places := pose proof (gap_nonnegative buffer ok); unfold RegexSpec.address, gap_length in *; repeat match goal with |- context [?a <? ?b] => destruct (Z.ltb_spec a b) | H : context [?a <? ?b] |- _ => destruct (Z.ltb_spec a b) end.

Lemma forward_tail lo pc p1 k : v = 0 \/ v = 2 -> patched p p1 -> first_position <= lo <= hi -> gap_start buffer <= lo \/ address hi <= gap_start buffer -> pc = address lo ->
  after_fast (search_forward_fast buffer test map (distance pc (address hi)) p1 pc) k = or_else (try_places test (fun _ r => r) (places_up buffer lo (Z.to_nat (hi - lo))) p1) (fun p2 => k p2 (address hi)) /\
  forall p2, try_places test (fun _ r => r) (places_up buffer lo (Z.to_nat (hi - lo))) p1 = Return (inr p2) -> patched p p2.
Proof.
  intros V P L G ->. assert (D : address hi - address lo = hi - lo) by (places; lia). unfold distance. rewrite D.
  destruct (forward_run lo (Z.to_nat (hi - lo)) p1 (address lo) k V P ltac:(lia) ltac:(lia)) as [E Q]; [intros j J; places; lia|].
  split; [|exact Q]. rewrite E. now replace (address lo + Z.of_nat (Z.to_nat (hi - lo))) with (address hi) by lia.
Qed.

Lemma search_forward_fast_ok lo : v = 0 \/ v = 2 -> first_position <= lo <= hi ->
  re_search_forward buffer (address hi) realloc re_max_failures true fuel p (address lo) =
  or_else (try_places test (fun _ r => r) (places_up buffer lo (Z.to_nat (hi - lo))) p) (fun p => test p (address hi)).
Proof.
  intros V L. unfold re_search_forward. rewrite compiled. cbn [bind]. destruct (Z.ltb_spec v 0); [lia|]. destruct (Z.eqb_spec v 1); [lia|]. cbn [negb].
  destruct (Z.ltb_spec (address lo) (gap_start buffer)) as [B|B]; [destruct (Z.ltb_spec (gap_start buffer) (address hi)) as [B'|B']|]; cbn [andb].
  - assert (lo < gap_start buffer <= hi) by (pose proof (buffer_order buffer ok); places; lia).
    assert (El : address lo = lo) by (places; lia). rewrite El. unfold distance at 1.
    destruct (forward_run lo (Z.to_nat (gap_start buffer - lo)) p lo) with (k := fun p1 pc => after_fast (search_forward_fast buffer test map (distance (if pc =? gap_start buffer then gap_end buffer else pc) (address hi)) p1 (if pc =? gap_start buffer then gap_end buffer else pc)) (fun p _ => if v =? 0 then Return (RE_MATCH_FAILED, p, None) else test p (address hi))) as [E Q]; try assumption; try lia; [apply patched_refl|intros j J; places; lia|].
    cbv zeta. rewrite E. replace (Z.to_nat (hi - lo)) with (Z.to_nat (gap_start buffer - lo) + Z.to_nat (hi - gap_start buffer))%nat by lia. rewrite places_up_app, or_else_app. apply or_else_ext. intros p1 P1%Q.
    replace (lo + Z.of_nat (Z.to_nat (gap_start buffer - lo))) with (gap_start buffer) by lia. rewrite Z.eqb_refl.
    destruct (forward_tail (gap_start buffer) (gap_end buffer) p1 (fun p _ => if v =? 0 then Return (RE_MATCH_FAILED, p, None) else test p (address hi))) as [E2 Q2]; try assumption; try lia; [places; lia|].
    rewrite E2. apply or_else_ext. intros p2 P2%Q2. now apply forward_end.
  - assert (Np : (address lo =? gap_start buffer) = false) by (apply Z.eqb_neq; lia). unfold after_fast at 1. cbn [bind]. rewrite Np.
    destruct (forward_tail lo (address lo) p (fun p _ => if v =? 0 then Return (RE_MATCH_FAILED, p, None) else test p (address hi))) as [E2 Q2]; try assumption; try reflexivity; [apply patched_refl|right; lia|].
    rewrite E2. apply or_else_ext. intros p2 P2%Q2. now apply forward_end.
  - unfold after_fast at 1. cbn [bind]. assert (Np : (if address lo =? gap_start buffer then gap_end buffer else address lo) = address lo) by (destruct (Z.eqb_spec (address lo) (gap_start buffer)); places; lia). rewrite Np.
    destruct (forward_tail lo (address lo) p (fun p _ => if v =? 0 then Return (RE_MATCH_FAILED, p, None) else test p (address hi))) as [E2 Q2]; try assumption; try reflexivity; [apply patched_refl|places; lia|].
    rewrite E2. apply or_else_ext. intros p2 P2%Q2. now apply forward_end.
Qed.

Lemma backward_tail i pc p1 lo k : v = 0 \/ v = 2 -> patched p p1 -> first_position <= lo <= i -> i <= hi -> (forall j, lo <= j < i -> pc - (i - j) = address j) -> pc - address lo = i - lo ->
  after_fast (search_backward_fast buffer test map (distance (address lo) pc) p1 pc) k =
    or_else (try_places test (RE_SEARCH_BACKWARD_RETURN buffer) (places_down buffer (i - 1) (Z.to_nat (i - lo))) p1) (fun p2 => k p2 (address lo)).
Proof.
  intros V P L H A D. unfold distance. rewrite D.
  destruct (backward_run i (Z.to_nat (i - lo)) p1 pc k V P ltac:(lia) ltac:(lia)) as [E _]; [intros j J; rewrite <- A by lia; lia|].
  rewrite E. now replace (pc - Z.of_nat (Z.to_nat (i - lo))) with (address lo) by lia.
Qed.

Definition backward_end (lo : Z) (p2 : list Z) : outcome search_result :=
  if v =? 0 then Return (RE_MATCH_FAILED, p2, None) else bind (test p2 (address lo)) (fun r => Return (RE_SEARCH_BACKWARD_RETURN buffer (address lo) r)).

Lemma search_backward_fast_ok lo : v = 0 \/ v = 2 -> first_position <= lo <= hi ->
  re_search_backward buffer (address hi) realloc re_max_failures true fuel p (address lo) =
  or_else (try_places test (RE_SEARCH_BACKWARD_RETURN buffer) (places_down buffer (hi - 1) (Z.to_nat (hi - lo))) p) (backward_end lo).
Proof.
  intros V L. unfold re_search_backward. rewrite compiled. cbn [bind]. destruct (Z.ltb_spec v 0); [lia|]. destruct (Z.eqb_spec v 1); [lia|]. cbn [negb]. rewrite !Z.gtb_ltb.
  destruct (Z.ltb_spec (gap_end buffer) (address hi)) as [B|B]; [destruct (Z.ltb_spec (address lo) (gap_end buffer)) as [B'|B']|]; cbn [andb].
  - assert (lo < gap_start buffer < hi) by (pose proof (buffer_order buffer ok); places; lia).
    unfold distance at 1. replace (address hi - gap_end buffer) with (hi - gap_start buffer) by (places; lia).
    destruct (backward_run hi (Z.to_nat (hi - gap_start buffer)) p (address hi)) with (k := fun p1 pc => after_fast (search_backward_fast buffer test map (distance (address lo) (if pc =? gap_end buffer then gap_start buffer else pc)) p1 (if pc =? gap_end buffer then gap_start buffer else pc)) (fun p _ => backward_end lo p)) as [E Q]; try assumption; try lia; [apply patched_refl|intros j J; places; lia|].
    cbv zeta. fold (backward_end lo). unfold backward_end in E at 1. rewrite E. replace (Z.to_nat (hi - lo)) with (Z.to_nat (hi - gap_start buffer) + Z.to_nat (gap_start buffer - lo))%nat by lia. rewrite places_down_app, or_else_app. apply or_else_ext. intros p1 P1%Q.
    replace (address hi - Z.of_nat (Z.to_nat (hi - gap_start buffer))) with (gap_end buffer) by (places; lia). rewrite Z.eqb_refl.
    rewrite (backward_tail (gap_start buffer)); try assumption; try lia; [|intros j J; places; lia|places; lia].
    replace (hi - 1 - Z.of_nat (Z.to_nat (hi - gap_start buffer))) with (gap_start buffer - 1) by lia. reflexivity.
  - unfold after_fast at 1. cbn [bind]. assert (Np : (if address hi =? gap_end buffer then gap_start buffer else address hi) = address hi) by (destruct (Z.eqb_spec (address hi) (gap_end buffer)); places; lia). rewrite Np.
    rewrite (backward_tail hi); try assumption; try lia; [reflexivity|apply patched_refl|intros j J; places; lia|places; lia].
  - unfold after_fast at 1. cbn [bind]. assert (Np : (if address hi =? gap_end buffer then gap_start buffer else address hi) = address hi) by (destruct (Z.eqb_spec (address hi) (gap_end buffer)); places; lia). rewrite Np.
    rewrite (backward_tail hi); try assumption; try lia; [reflexivity|apply patched_refl|intros j J; places; lia|places; lia].
Qed.

(** Nothing can match at the end with a map that has no empty match. *)
Lemma backward_from_end n p1 k : v = 0 -> patched p p1 ->
  or_else (try_places test (RE_SEARCH_BACKWARD_RETURN buffer) (places_down buffer hi (S n)) p1) k = or_else (try_places test (RE_SEARCH_BACKWARD_RETURN buffer) (places_down buffer (hi - 1) n) p1) k.
Proof.
  intros V P. rewrite places_down_cons. cbn [try_places]. rewrite test_skips by (assumption || lia || auto). reflexivity.
Qed.

End Search.

(** The value of the fastmap, and the size of the text. *)
Lemma fastmap_values buffer p fuel v map : re_compile_fastmap buffer p fuel = Return (v, map) -> v = 0 \/ v = 1 \/ v = 2 \/ v = -2.
Proof. intros E. apply (fastmap_value buffer p fuel 0 [] empty_fastmap 0 v map E). auto. Qed.

Lemma positions_in_text buffer lo hi : buffer_ok buffer -> first_position buffer <= lo <= hi -> hi <= last_position buffer -> (Z.to_nat (hi - lo) < S (length (text buffer)))%nat.
Proof. intros Ok. destruct (buffer_order buffer Ok) as (A & B & C). unfold first_position, last_position, gap_length. lia. Qed.

(** ** Properties *)




